(* ===== verification/_CoqProject ===== *)
-Q . S2P
Prelude.v
ByteOrder.v
ByteBuffer.v
NetBuffer.v
Crc32c.v
StringPiece.v
Codec.v
LengthHeaderCodec.v
StringEofCodec.v
ProtobufCodec.v
Channel.v
Poller.v
TimeStamp.v
TimerPool.v
LogStream.v
EventLoop.v
TcpConnection.v
Services.v
StringUtil.v
StringSplit.v
Sync.v
ThreadPool.v
Connector.v
TcpClient.v
TcpServer.v
Protorpc.v
FilePath.v
File.v
LogFile.v
FileUtil.v
Directory.v
CopyTree.v
EndPoint.v
SignalServer.v
Scoped.v
StringPrintf.v
Thread.v
Platform.v
AtExit.v
Any.v
Bind.v
ThreadLocal.v
Chat.v
