(* ===== verification/Prelude.v ===== *)
(** * annety: a verification of the network library

    annety is a reactor-style network library in C++: an event loop per thread polls
    descriptors and runs timers and queued functors, connections move bytes between sockets
    and buffers, and servers, clients and codecs are built on connections.  This
    development is a shallow embedding of it.  A function of the source is a function or a
    step here, with the guards, early returns and failed checks of the source; the build is the
    default one, on Linux, in which [DCHECK] is active.

    ** How the parts interact, and where they are

    Each file names the sources it translates, and its definitions keep their names.

    Bytes and text.
    - [ByteOrder]: include/ByteOrder.h, conversion of integers to network order.
    - [ByteBuffer]: the byte queue of every connection and log line.
    - [NetBuffer]: integers in network order and the scatter read, on top of [ByteBuffer].
    - [Crc32c]: the table-driven checksums.
    - [StringPiece], [StringUtil], [StringSplit]: views of strings, and trimming, replacing,
      joining and splitting.
    - [StringPrintf]: formatted printing into strings, and the texts of errors.
    - [FilePath]: paths as strings.
    - [TimeStamp]: durations, times and the calendar.
    - [LogStream]: numbers and log lines, and what becomes of a message.

    Codecs.
    - [Codec]: the loop that cuts a stream into messages, against the interface
      (a type class) of the concrete codecs.
    - [LengthHeaderCodec], [StringEofCodec]: the two instances.
    - [ProtobufCodec]: messages of the protobuf library, and their dispatch by type.
    - [Protorpc]: remote calls, of a client and a server over an ordered network.

    The reactor.
    - [Channel]: a descriptor, its events and its callbacks.
    - [Poller]: poll and epoll behind one interface, over a heap of shared channels.
    - [TimerPool]: the timers of a loop, over a heap of shared timers.
    - [EventLoop]: the loop, its functor queue and its wake-up descriptor, with other threads.
    - [SignalServer]: signals read from a descriptor in a loop.

    Connections.
    - [TcpConnection]: one connection in its loop, with its channel, buffers and functors.
    - [Connector], [TcpClient]: connecting, retrying, and the client.
    - [TcpServer]: the acceptor, the pool of loops and the server.
    - [EndPoint]: addresses of both families as bytes and as text.
    - [Chat]: the chat programs of the examples, a server and its clients over the codec.
    - [Services]: the small services of the examples, as callbacks of a [TcpConnection].

    Threads and the process.
    - [Sync]: mutex, blocking queues and latch.
    - [ThreadPool]: the pool.
    - [Thread]: the thread object, and the thread that runs a loop, on top of [Sync] and
      [EventLoop].
    - [Platform]: what these rest on: the mutex over pthreads, timed waits, sleeping and
      the start of a thread.
    - [ThreadLocal]: objects of each thread.
    - [AtExit]: callbacks at exit, and the singletons that register there.
    - [Scoped]: owners of descriptors and of the saved [errno].
    - [Any], [Bind]: values of any type, and callables bound to arguments and to objects they
      do not own.

    Files.
    - [File]: open files, over a file system of names, inodes and descriptors.
    - [LogFile]: the rotating log file, on top of [File].
    - [FileUtil]: reading, writing, copying and comparing whole files, on top of [File].
    - [Directory]: enumeration, deletion, creation and checks, over a tree of files and links.
    - [CopyTree]: copying and moving trees, permissions and links, on top of [Directory] and
      [FileUtil].

    [Prelude], this file, holds what they share: outcomes, machine integers, byte strings,
    the tactics and the generic lemmas.

    ** How the source is represented

    - A function returns an [outcome]: a value, or the [fault] that ends the process, which is a
      failed check, an exception nobody catches, or an undefined operation.
    - An integer of a machine type is a [Z]; conversions and unsigned arithmetic wrap by [u64]
      and its like, and signed overflow is a fault where it can happen.
    - Objects that several parts hold by pointer (channels, timers) live in a heap and are
      known by their addresses.
    - What the system or the user decides (the results of system calls, the clock, which
      events arrive, what a callback calls) is an argument.  System calls are held to their
      documented behaviour by hypotheses, for which every property has a witness.
    - Threads interleave.  A step is one critical section, one atomic access, one system call
      or, in [TcpServer], one functor of one loop.  Relaxed atomics are taken as sequentially
      consistent.
    - [TcpClient] and [TcpServer] reduce a connection to its state, its callbacks and whether its
      channel watches events; [TcpConnection] has the whole of it.

    ** What the theorems show

    - Framing: what one side sends through [LengthHeaderCodec] or [ProtobufCodec] the other
      side receives, whatever the reads are (length_header_stream, protobuf_stream); decoding
      refines the wire format (decode_refines_parse) and rejects corrupted frames
      (corrupt_frame_rejected); the checksum finds all short bursts.
    - Buffers: [ByteBuffer] refines a queue of bytes (buffer_refines_queue); reads and integers
      go through it unchanged.
    - Connections: over the whole life of a connection no check fails unless its owner destroys
      it during a shutdown (connection_safe), bytes reach the socket in order
      (connection_stream), shutdown waits for the output, callbacks come in order.
    - Reactor: both pollers implement one interest map (pollers_refine_interest) and deliver
      what the kernel reports; the timer pool keeps its two sets in step, runs
      due timers once and in order; the loop loses no wake-up (no_lost_wakeup), runs
      functors in order and makes progress; signals implement a table of callbacks
      (signals_refine_table).
    - Client and server: the client meets no failed check under the stated use (client_safe)
      and the server only those that are listed (server_safe), clients keep trying, every accepted
      connection is set up, closed and destroyed once in its loop (connection_life).
    - Whole programs: every call is answered once, or is still on its way (rpc_exactly_once,
      rpc_completes); every member of a chat room receives the same messages in the same
      order (chat_correct); the services send what they should, the echo server what it
      reads (echo_correct).
    - Threads: queues are first-in first-out and wake their waiters (blocking_queue_correct),
      the pool runs every task (pool_completes), a loop's thread starts and ends without
      deadlock, and its one race is named (loop_thread_correct); exit callbacks run last in
      first out (exit_correct); descriptors are closed exactly once (scoped_fds_correct); every
      thread has its own object, deleted once (thread_local_correct); a timed wait has the
      deadline it says (timed_wait_correct).
    - Containers: a value of any type is never read as another (any_type_safe), a weakly bound
      method runs on an object that exists or not at all (weak_bind_safe).
    - Files: open modes and partial reads and writes (open_modes, write_best_effort), log
      files lose nothing (log_complete), copies of files and trees are exact
      (copy_file_correct, copy_directory_correct), deletion and enumeration touch exactly
      what is below a directory, and end (delete_file_correct, enumeration_correct).
    - Text and time: searches, replacement, splitting, printing, paths, addresses, saturation
      and calendar agree with reference definitions, and the round trips hold.
    - The examples of each file are runs that show where the code does not do what it means
      to do.

    ** Bounds and fuel

    Strings are shorter than 2^63 bytes, as [std::string] guarantees.  Loops that are not
    structural have fuel, always more than a measure that each turn decreases: the
    length of the input for the codec loops, the splitters, the replacement and the components of a
    path, the number of timers for a round, the number of threads and tasks
    for the runs of a pool, one more than the bytes of a file for reading and copying it, the
    files of the tree for enumerating it ([enough]), the limit of the system for
    symbolic links, and seventeen doublings of a buffer for printing.  Running out is the fault
    [OutOfFuel], and the theorems show that it does not happen, but for the splitter that is given an
    empty delimiter, which never ends.  The thread of a loop runs until
    it is told to quit; its theorem shows that from then on every run is finite.

    ** Not modelled

    - Wrappers of one system call or library function each: socket calls and options (all but
      [accept]), names and identifiers of threads, times and locks of files.
    - Temporary files, the home and the current directory; stack traces.
    - The choice of overloads by types, which the compiler makes.
    - Third-party code is a parameter: the protobuf library and its generated classes, the
      text of version 6 addresses, what a format prints, the messages of the system,
      patterns of file names, time zones.
    - Wide characters, locales, and the branches for systems other than Linux.
    - Most destructors of objects that only release memory, and exceptions of user callbacks.
    - The examples that use generated classes or only count bytes, and the tests. *)

From Stdlib Require Import ZArith Lia NArith.
From Stdlib Require Strings.Byte.
From stdpp Require Export base list gmap numbers strings.

#[global] Open Scope Z_scope.

(** ** Outcomes

    A C++ function of the library either returns, or stops the process: a
    [CHECK], [DCHECK], [PCHECK] or [assert] whose condition is false aborts, an
    exception of the standard library that nobody catches terminates, and an
    access outside an object is undefined.  [Fault] carries which of these
    happened and where. *)

Inductive fault : Type :=
| CheckFailed (site : string)
| Uncaught (site : string)
| Undefined (site : string)
| OutOfFuel.

Inductive outcome (A : Type) : Type :=
| Ok (a : A)
| Fault (f : fault).
Arguments Ok {A} a.
Arguments Fault {A} f.

#[global] Instance outcome_ret : MRet outcome := fun A a => Ok a.
#[global] Instance outcome_bind : MBind outcome := fun A B k m =>
  match m with Ok a => k a | Fault f => Fault f end.
#[global] Instance outcome_fmap : FMap outcome := fun A B g m =>
  match m with Ok a => Ok (g a) | Fault f => Fault f end.

(** [check b site] is [CHECK(b)], [DCHECK(b)] and [assert(b)]. *)
Definition check (b : bool) (site : string) : outcome unit :=
  if b then Ok tt else Fault (CheckFailed site).

(** [defined b site] guards an access that is undefined unless [b]. *)
Definition defined (b : bool) (site : string) : outcome unit :=
  if b then Ok tt else Fault (Undefined site).

Definition is_ok {A} (m : outcome A) : Prop := exists a, m = Ok a.

(** ** Machine integers

    Values of a w-bit unsigned type are the integers of [0, 2^w), of a w-bit
    signed type those of [-2^(w-1), 2^(w-1)); a conversion to the type wraps. *)

Definition uwrap (w : Z) (z : Z) : Z := z mod 2 ^ w.
Definition swrap (w : Z) (z : Z) : Z := (z + 2 ^ (w - 1)) mod 2 ^ w - 2 ^ (w - 1).

Definition u8 : Z -> Z := uwrap 8.
Definition u16 : Z -> Z := uwrap 16.
Definition u32 : Z -> Z := uwrap 32.
Definition u64 : Z -> Z := uwrap 64.
Definition i8 : Z -> Z := swrap 8.
Definition i16 : Z -> Z := swrap 16.
Definition i32 : Z -> Z := swrap 32.
Definition i64 : Z -> Z := swrap 64.

Definition kInt64Max : Z := 2 ^ 63 - 1.
Definition kInt64Min : Z := - 2 ^ 63.
Definition kInt32Max : Z := 2 ^ 31 - 1.
Definition kInt32Min : Z := - 2 ^ 31.

(** Division and remainder of C++ truncate towards zero. *)
Definition cdiv (a b : Z) : Z := Z.quot a b.
Definition cmod (a b : Z) : Z := Z.rem a b.

(** ** Bytes *)

Abbreviation byte := Byte.byte.
Abbreviation bytes := (list Byte.byte).

(** The value of a byte as [unsigned char] and as the signed [char] of the
    supported platforms, and the byte a [char] conversion stores. *)
Definition b2z (b : byte) : Z := Z.of_N (Byte.to_N b).
Definition b2sz (b : byte) : Z := i8 (b2z b).
Definition z2b (z : Z) : byte :=
  match Byte.of_N (Z.to_N (u8 z)) with Some b => b | None => Byte.x00 end.

#[global] Instance byte_eq_dec : EqDecision byte := Byte.byte_eq_dec.

(** Text literals for witnesses. *)
Definition txt (s : string) : bytes := String.list_byte_of_string s.

(** The [n] low-order bytes of an integer, least significant first, and the
    unsigned integer a byte sequence spells. *)
Fixpoint le_bytes (n : nat) (z : Z) : bytes :=
  match n with
  | O => []
  | S n => z2b z :: le_bytes n (z / 256)
  end.

Fixpoint le_val (l : bytes) : Z :=
  match l with
  | [] => 0
  | b :: l => b2z b + 256 * le_val l
  end.

(** The same, most significant byte first. *)
Definition be_bytes (n : nat) (z : Z) : bytes := reverse (le_bytes n z).
Definition be_val (l : bytes) : Z := le_val (reverse l).

(** ** Buffers addressed by integers

    [zlen] is a length as the [size_t] the code computes with; [ztake]/[zdrop]
    and [zslice] are the pointer ranges [p, p+n), [p+n, end) and [p+i, p+i+n). *)
Definition zlen {A} (l : list A) : Z := Z.of_nat (length l).
Definition ztake {A} (n : Z) (l : list A) : list A := take (Z.to_nat n) l.
Definition zdrop {A} (n : Z) (l : list A) : list A := drop (Z.to_nat n) l.
Definition zslice {A} (i n : Z) (l : list A) : list A := ztake n (zdrop i l).

(** [memwrite i d l] stores [d] at [l[i..]], all of it inside [l]. *)
Definition memwrite {A} (i : Z) (d l : list A) : list A :=
  ztake i l ++ d ++ zdrop (i + zlen d) l.

#[global] Instance byte_countable : Countable byte.
Proof. apply (inj_countable Byte.to_N Byte.of_N). intros x. apply Byte.of_to_N. Defined.

(** ** Tactics *)

(** Split a goal or hypothesis on the scrutinee of a [match] or [if]. *)
Ltac split_match :=
  match goal with
  | |- context [ if ?b then _ else _ ] => destruct b eqn:?
  | |- context [ match ?x with _ => _ end ] => destruct x eqn:?
  end.

Ltac split_match_in H :=
  match type of H with
  | context [ if ?b then _ else _ ] => destruct b eqn:?
  | context [ match ?x with _ => _ end ] => destruct x eqn:?
  end.

(** Turn boolean tests on integers into propositions. *)
Ltac zbool :=
  repeat match goal with
  | H : (_ && _)%bool = true |- _ => apply andb_prop in H as [??]
  | H : (_ || _)%bool = false |- _ => apply orb_false_elim in H as [??]
  | H : negb _ = true |- _ => apply negb_true_iff in H
  | H : negb _ = false |- _ => apply negb_false_iff in H
  | H : (_ <? _) = true |- _ => apply Z.ltb_lt in H
  | H : (_ <? _) = false |- _ => apply Z.ltb_ge in H
  | H : (_ <=? _) = true |- _ => apply Z.leb_le in H
  | H : (_ <=? _) = false |- _ => apply Z.leb_gt in H
  | H : (_ =? _) = true |- _ => apply Z.eqb_eq in H
  | H : (_ =? _) = false |- _ => apply Z.eqb_neq in H
  end.

(** Equivalence of two conjunctions with the same facts up to arithmetic. *)
Ltac conj_iff := split; intros; destruct_and?; split_and?; done || lia.

(** Decide integer tests in the goal by [lia]. *)
Ltac zdecide :=
  repeat match goal with
  | |- context [ ?a <? ?b ] =>
      first [ replace (a <? b) with true by (symmetry; apply Z.ltb_lt; lia)
            | replace (a <? b) with false by (symmetry; apply Z.ltb_ge; lia) ]
  | |- context [ ?a <=? ?b ] =>
      first [ replace (a <=? b) with true by (symmetry; apply Z.leb_le; lia)
            | replace (a <=? b) with false by (symmetry; apply Z.leb_gt; lia) ]
  | |- context [ ?a =? ?b ] =>
      first [ replace (a =? b) with true by (symmetry; apply Z.eqb_eq; lia)
            | replace (a =? b) with false by (symmetry; apply Z.eqb_neq; lia) ]
  end.

(** ** Lemmas on outcomes *)

Lemma bind_ok {A B} (m : outcome A) (k : A -> outcome B) b :
  m ≫= k = Ok b -> exists a, m = Ok a /\ k a = Ok b.
Proof. destruct m; cbn; [eauto | discriminate]. Qed.

(** The same step as [cbn], without leaving a conversion for the kernel. *)
Lemma bind_ret {A B} (a : A) (k : A -> outcome B) : (Ok a ≫= k) = k a.
Proof. done. Qed.
Lemma check_ok b site u : check b site = Ok u -> b = true.
Proof. destruct b; [done | discriminate]. Qed.

Lemma check_true b site : b = true -> check b site = Ok tt.
Proof. by intros ->. Qed.

Lemma defined_true b site : b = true -> defined b site = Ok tt.
Proof. by intros ->. Qed.

(** Split a successful computation into its successful steps. *)
Ltac ok_inv :=
  repeat match goal with
  | H : _ ≫= _ = Ok _ |- _ => apply bind_ok in H as (? & ? & H)
  | H : check _ _ = Ok _ |- _ => apply check_ok in H
  | H : Ok _ = Ok _ |- _ => injection H as H; subst
  | H : Fault _ = Ok _ |- _ => discriminate H
  | H : mret _ = Ok _ |- _ => injection H as H; subst
  end.

(** ** Lemmas on machine integers *)

Lemma uwrap_small w z : 0 <= z < 2 ^ w -> uwrap w z = z.
Proof. apply Z.mod_small. Qed.

Lemma uwrap_range w z : 0 <= w -> 0 <= uwrap w z < 2 ^ w.
Proof. intros. apply Z.mod_pos_bound, Z.pow_pos_nonneg; lia. Qed.

Lemma swrap_small w z : 0 < w -> - 2 ^ (w - 1) <= z < 2 ^ (w - 1) -> swrap w z = z.
Proof.
  intros Hw Hz. unfold swrap.
  replace (2 ^ w) with (2 * 2 ^ (w - 1)).
  - rewrite Z.mod_small by lia. lia.
  - rewrite <- Z.pow_succ_r by lia. f_equal. lia.
Qed.

Lemma swrap_uwrap w z : 0 < w -> swrap w (uwrap w z) = swrap w z.
Proof.
  intros Hw. unfold swrap, uwrap. f_equal.
  rewrite Zplus_mod_idemp_l. done.
Qed.

Lemma uwrap_swrap w z : 0 < w -> uwrap w (swrap w z) = uwrap w z.
Proof.
  intros Hw. unfold swrap, uwrap.
  rewrite Zminus_mod_idemp_l. f_equal. lia.
Qed.

Lemma swrap_range w z : 0 < w -> - 2 ^ (w - 1) <= swrap w z < 2 ^ (w - 1).
Proof.
  intros Hw. unfold swrap.
  assert (2 ^ w = 2 * 2 ^ (w - 1)) as E
    by (rewrite <- Z.pow_succ_r by lia; f_equal; lia).
  pose proof (Z.mod_pos_bound (z + 2 ^ (w - 1)) (2 ^ w)) as B.
  assert (0 < 2 ^ (w - 1)) by (apply Z.pow_pos_nonneg; lia). lia.
Qed.

Lemma u64_small z : 0 <= z < 2 ^ 64 -> u64 z = z.
Proof. apply uwrap_small. Qed.
Lemma i64_small z : - 2 ^ 63 <= z < 2 ^ 63 -> i64 z = z.
Proof. intros. apply swrap_small; lia. Qed.
Lemma i32_small z : - 2 ^ 31 <= z < 2 ^ 31 -> i32 z = z.
Proof. intros. apply swrap_small; lia. Qed.
Lemma u64_range z : 0 <= u64 z < 2 ^ 64.
Proof. by apply uwrap_range. Qed.
Lemma u32_range z : 0 <= u32 z < 2 ^ 32.
Proof. by apply uwrap_range. Qed.
Lemma u32_small z : 0 <= z < 2 ^ 32 -> u32 z = z.
Proof. apply uwrap_small. Qed.

(** ** Lemmas on bytes *)

Lemma b2z_range b : 0 <= b2z b < 256.
Proof. unfold b2z. pose proof (Byte.to_N_bounded b). lia. Qed.

Lemma b2z_z2b z : b2z (z2b z) = z mod 256.
Proof.
  unfold z2b, b2z, u8, uwrap. change (2 ^ 8) with 256.
  pose proof (Z.mod_pos_bound z 256 ltac:(lia)) as B.
  destruct (Byte.of_N (Z.to_N (z mod 256))) as [b|] eqn:E.
  - apply Byte.to_of_N in E. rewrite E. lia.
  - apply Byte.of_N_None_iff in E. lia.
Qed.

Lemma b2z_inj b c : b2z b = b2z c -> b = c.
Proof.
  unfold b2z. intros H. apply N2Z.inj in H.
  pose proof (Byte.of_to_N b) as Eb. rewrite H, Byte.of_to_N in Eb. congruence.
Qed.

Lemma b2sz_inj b c : b2sz b = b2sz c -> b = c.
Proof.
  intros H. apply b2z_inj. apply (f_equal (uwrap 8)) in H. unfold b2sz, i8 in H.
  rewrite !uwrap_swrap, !uwrap_small in H by (try lia; apply b2z_range). done.
Qed.

Lemma z2b_b2z b : z2b (b2z b) = b.
Proof.
  apply b2z_inj. rewrite b2z_z2b. apply Z.mod_small, b2z_range.
Qed.

Lemma z2b_mod z : z2b (z mod 256) = z2b z.
Proof. apply b2z_inj. by rewrite !b2z_z2b, Zmod_mod. Qed.

Lemma length_le_bytes n z : length (le_bytes n z) = n.
Proof. revert z. induction n; intros; simpl; auto. Qed.

Lemma length_be_bytes n z : length (be_bytes n z) = n.
Proof. unfold be_bytes. by rewrite length_reverse, length_le_bytes. Qed.

Lemma le_val_le_bytes n z : le_val (le_bytes n z) = z mod 2 ^ (8 * Z.of_nat n).
Proof.
  revert z. induction n as [|n IH]; intros z.
  - simpl. by rewrite Z.mod_1_r.
  - cbn [le_bytes le_val]. rewrite IH, b2z_z2b.
    replace (8 * Z.of_nat (S n)) with (8 + 8 * Z.of_nat n) by lia.
    rewrite Z.pow_add_r by lia. change (2 ^ 8) with 256.
    rewrite Z.rem_mul_r; try lia.
Qed.

Lemma le_val_range l : 0 <= le_val l < 2 ^ (8 * Z.of_nat (length l)).
Proof.
  induction l as [|b l IH]; [simpl; lia|].
  cbn [le_val length]. pose proof (b2z_range b).
  replace (8 * Z.of_nat (S (length l))) with (8 + 8 * Z.of_nat (length l)) by lia.
  rewrite Z.pow_add_r by lia. change (2 ^ 8) with 256. lia.
Qed.

Lemma le_bytes_le_val l : le_bytes (length l) (le_val l) = l.
Proof.
  induction l as [|b l IH]; [done|].
  cbn [length le_bytes le_val]. f_equal.
  - apply b2z_inj. rewrite b2z_z2b.
    rewrite (Z.mul_comm 256), Z.mod_add by lia.
    apply Z.mod_small, b2z_range.
  - rewrite (Z.mul_comm 256), Z.div_add by lia.
    rewrite (Z.div_small (b2z b)) by apply b2z_range. apply IH.
Qed.

Lemma le_bytes_mod n z : le_bytes n (z mod 2 ^ (8 * Z.of_nat n)) = le_bytes n z.
Proof.
  rewrite <- le_val_le_bytes. rewrite <- (length_le_bytes n z) at 1.
  apply le_bytes_le_val.
Qed.

(** ** Lemmas on integer-addressed lists *)

Lemma zlen_nonneg {A} (l : list A) : 0 <= zlen l.
Proof. unfold zlen. lia. Qed.
Lemma zlen_nil {A} : zlen (@nil A) = 0.
Proof. done. Qed.
Lemma zlen_cons {A} (x : A) l : zlen (x :: l) = 1 + zlen l.
Proof. unfold zlen. simpl. lia. Qed.
Lemma zlen_app {A} (k l : list A) : zlen (k ++ l) = zlen k + zlen l.
Proof. unfold zlen. rewrite length_app. lia. Qed.
Lemma zlen_0_nil {A} (l : list A) : zlen l = 0 -> l = [].
Proof. unfold zlen. destruct l; simpl; [done | lia]. Qed.
Lemma zlen_ztake {A} n (l : list A) : zlen (ztake n l) = Z.min (Z.max 0 n) (zlen l).
Proof. unfold zlen, ztake. rewrite length_take. lia. Qed.
Lemma zlen_zdrop {A} n (l : list A) : zlen (zdrop n l) = Z.max 0 (zlen l - Z.max 0 n).
Proof. unfold zlen, zdrop. rewrite length_drop. lia. Qed.
Lemma zlen_zslice {A} i n (l : list A) :
  zlen (zslice i n l) = Z.min (Z.max 0 n) (Z.max 0 (zlen l - Z.max 0 i)).
Proof. unfold zslice. rewrite zlen_ztake, zlen_zdrop. done. Qed.
Lemma zlen_reverse {A} (l : list A) : zlen (reverse l) = zlen l.
Proof. unfold zlen. by rewrite length_reverse. Qed.
Lemma zlen_replicate {A} n (x : A) : zlen (replicate n x) = Z.of_nat n.
Proof. unfold zlen. by rewrite length_replicate. Qed.

Lemma ztake_ge {A} n (l : list A) : zlen l <= n -> ztake n l = l.
Proof. unfold zlen, ztake. intros. apply take_ge. lia. Qed.
Lemma zdrop_ge {A} n (l : list A) : zlen l <= n -> zdrop n l = [].
Proof. unfold zlen, zdrop. intros. apply drop_ge. lia. Qed.
Lemma ztake_0 {A} (l : list A) : ztake 0 l = [].
Proof. done. Qed.
Lemma zdrop_0 {A} (l : list A) : zdrop 0 l = l.
Proof. done. Qed.
Lemma ztake_zdrop {A} n (l : list A) : ztake n l ++ zdrop n l = l.
Proof. apply take_drop. Qed.
Lemma ztake_app_le {A} n (k l : list A) : n <= zlen k -> ztake n (k ++ l) = ztake n k.
Proof. unfold zlen, ztake. intros. apply take_app_le. lia. Qed.
Lemma ztake_app_ge {A} n (k l : list A) :
  zlen k <= n -> ztake n (k ++ l) = k ++ ztake (n - zlen k) l.
Proof.
  unfold zlen, ztake. intros. rewrite take_app_ge by lia. f_equal. f_equal. lia.
Qed.
Lemma zdrop_app_le {A} n (k l : list A) :
  n <= zlen k -> zdrop n (k ++ l) = zdrop n k ++ l.
Proof. unfold zlen, zdrop. intros. apply drop_app_le. lia. Qed.
Lemma zdrop_app_ge {A} n (k l : list A) :
  zlen k <= n -> zdrop n (k ++ l) = zdrop (n - zlen k) l.
Proof. unfold zlen, zdrop. intros. rewrite drop_app_ge by lia. f_equal. lia. Qed.
Lemma ztake_app_exact {A} n (k l : list A) : n = zlen k -> ztake n (k ++ l) = k.
Proof. intros ->. rewrite ztake_app_le, ztake_ge by lia. done. Qed.
Lemma zdrop_app_exact {A} n (k l : list A) : n = zlen k -> zdrop n (k ++ l) = l.
Proof. intros ->. by rewrite zdrop_app_ge, Z.sub_diag, zdrop_0 by lia. Qed.
Lemma zdrop_zdrop {A} i j (l : list A) :
  0 <= i -> 0 <= j -> zdrop i (zdrop j l) = zdrop (i + j) l.
Proof. unfold zdrop. intros. rewrite drop_drop. f_equal. lia. Qed.
Lemma ztake_ztake {A} i j (l : list A) : ztake i (ztake j l) = ztake (Z.min i j) l.
Proof. unfold ztake. rewrite take_take. f_equal. lia. Qed.
Lemma ztake_add {A} i j (l : list A) : 0 <= i -> 0 <= j -> ztake i l ++ zslice i j l = ztake (i + j) l.
Proof. intros. unfold zslice, ztake, zdrop. by rewrite Z2Nat.inj_add, take_take_drop by lia. Qed.
Lemma zdrop_ztake {A} i j (l : list A) :
  0 <= i -> zdrop i (ztake j l) = ztake (j - i) (zdrop i l).
Proof.
  unfold ztake, zdrop. intros.
  destruct (decide (i <= j)) as [Hle|Hgt].
  - replace (Z.to_nat j) with (Z.to_nat i + Z.to_nat (j - i))%nat by lia.
    by rewrite <- take_drop_commute.
  - rewrite drop_ge by (rewrite length_take; lia).
    replace (Z.to_nat (j - i)) with 0%nat by lia. done.
Qed.

#[global] Arguments zlen : simpl never.
#[global] Arguments ztake : simpl never.
#[global] Arguments zdrop : simpl never.
#[global] Arguments uwrap : simpl never.
#[global] Arguments swrap : simpl never.
#[global] Arguments b2z : simpl never.
#[global] Arguments z2b : simpl never.
