(* ===== verification/ByteOrder.v ===== *)
(** * Byte order (include/ByteOrder.h)

    The conversions between host and network byte order, for a host of either
    endianness, and the memory image of an integer on that host.  The main
    facts: [byte_swap] is an involution, and the image in memory of
    [host_to_net x] is the big-endian spelling of [x] whatever the host. *)

From S2P Require Import Prelude.

(** The build selects the code with [ARCH_CPU_LITTLE_ENDIAN]. *)
Class Arch : Type := { arch_little_endian : bool }.

(** ** Definitions *)

(** [__builtin_bswap{16,32,64}]: the bytes of [x] in reverse order. *)
Definition byte_swap (n : nat) (x : Z) : Z := le_val (reverse (le_bytes n x)).

Definition byte_swap16 (x : Z) : Z := byte_swap 2 x.
Definition byte_swap32 (x : Z) : Z := byte_swap 4 x.
Definition byte_swap64 (x : Z) : Z := byte_swap 8 x.

(** [byte_swap_uintptr_t], for a pointer of [ptr_size] bytes. *)
Definition byte_swap_uintptr_t (ptr_size : Z) (x : Z) : outcome Z :=
  if ptr_size =? 4 then Ok (byte_swap32 (u32 x))
  else if ptr_size =? 8 then Ok (byte_swap64 (u64 x))
  else Fault (CheckFailed "byte_swap_uintptr_t: NOTREACHED").

Section Order.
Context `{Arch}.

Definition net_to_host16 (x : Z) : Z :=
  if arch_little_endian then byte_swap16 x else x.
Definition net_to_host32 (x : Z) : Z :=
  if arch_little_endian then byte_swap32 x else x.
Definition net_to_host64 (x : Z) : Z :=
  if arch_little_endian then byte_swap64 x else x.

Definition host_to_net16 (x : Z) : Z :=
  if arch_little_endian then byte_swap16 x else x.
Definition host_to_net32 (x : Z) : Z :=
  if arch_little_endian then byte_swap32 x else x.
Definition host_to_net64 (x : Z) : Z :=
  if arch_little_endian then byte_swap64 x else x.

(** What [memcpy] from an [n]-byte integer object copies, and the unsigned
    value of such an object after [memcpy] into it. *)
Definition mem_image (n : nat) (x : Z) : bytes :=
  if arch_little_endian then le_bytes n x else be_bytes n x.
Definition mem_value (l : bytes) : Z :=
  if arch_little_endian then le_val l else be_val l.

(** The conversion at a width of [n] bytes, common to the three overloads. *)
Definition host_net (n : nat) (x : Z) : Z :=
  if arch_little_endian then byte_swap n x else x.

End Order.

(** ** Lemmas *)

Lemma byte_swap_range n x : 0 <= byte_swap n x < 2 ^ (8 * Z.of_nat n).
Proof.
  unfold byte_swap.
  pose proof (le_val_range (reverse (le_bytes n x))) as B.
  by rewrite length_reverse, length_le_bytes in B.
Qed.

Lemma le_bytes_byte_swap n x : le_bytes n (byte_swap n x) = reverse (le_bytes n x).
Proof.
  unfold byte_swap.
  rewrite <- (length_le_bytes n x) at 1. rewrite <- length_reverse.
  apply le_bytes_le_val.
Qed.

Lemma byte_swap_mod n x : byte_swap n (x mod 2 ^ (8 * Z.of_nat n)) = byte_swap n x.
Proof. unfold byte_swap. by rewrite le_bytes_mod. Qed.

Lemma byte_swap_byte_swap n x :
  byte_swap n (byte_swap n x) = x mod 2 ^ (8 * Z.of_nat n).
Proof.
  unfold byte_swap at 1.
  rewrite le_bytes_byte_swap, reverse_involutive. apply le_val_le_bytes.
Qed.

Lemma byte_swap_be n x : byte_swap n x = le_val (be_bytes n x).
Proof. done. Qed.

Section Order_lemmas.
Context `{Arch}.

(** Conversion to network order followed by a copy to memory. *)
Lemma mem_image_host_net n x : mem_image n (host_net n x) = be_bytes n x.
Proof.
  unfold mem_image, host_net. destruct arch_little_endian; [|done].
  by rewrite le_bytes_byte_swap.
Qed.

(** A copy from memory followed by conversion to host order. *)
Lemma host_net_mem_value n l : length l = n -> host_net n (mem_value l) = be_val l.
Proof.
  intros <-. unfold mem_value, host_net, be_val.
  destruct arch_little_endian; [|done].
  unfold byte_swap. by rewrite le_bytes_le_val.
Qed.

Lemma be_val_be_bytes n x : be_val (be_bytes n x) = x mod 2 ^ (8 * Z.of_nat n).
Proof.
  unfold be_val, be_bytes. rewrite reverse_involutive. apply le_val_le_bytes.
Qed.

Lemma be_bytes_be_val l : be_bytes (length l) (be_val l) = l.
Proof.
  unfold be_val, be_bytes. rewrite <- length_reverse, le_bytes_le_val.
  apply reverse_involutive.
Qed.

Lemma be_bytes_mod n z : be_bytes n (z mod 2 ^ (8 * Z.of_nat n)) = be_bytes n z.
Proof. unfold be_bytes. by rewrite le_bytes_mod. Qed.

End Order_lemmas.

(** ** Properties *)

(** On a little-endian and on a big-endian host alike, the object that
    [host_to_net16/32/64] returns has in memory the big-endian bytes of its
    argument, and [net_to_host] undoes the conversion on every value of the
    type. *)
Theorem host_to_net_spec `{Arch} x :
  (mem_image 2 (host_to_net16 x) = be_bytes 2 x /\
   mem_image 4 (host_to_net32 x) = be_bytes 4 x /\
   mem_image 8 (host_to_net64 x) = be_bytes 8 x) /\
  (net_to_host16 (host_to_net16 (u16 x)) = u16 x /\
   net_to_host32 (host_to_net32 (u32 x)) = u32 x /\
   net_to_host64 (host_to_net64 (u64 x)) = u64 x).
Proof.
  split; [split_and!; apply mem_image_host_net|].
  unfold net_to_host16, net_to_host32, net_to_host64, host_to_net16,
    host_to_net32, host_to_net64, byte_swap16, byte_swap32, byte_swap64.
  split_and!; destruct arch_little_endian; try done;
    rewrite byte_swap_byte_swap; apply Zmod_mod.
Qed.
