(* ===== verification/ByteBuffer.v ===== *)
(** * ByteBuffer (include/ByteBuffer.h, src/ByteBuffer.cc)

    The growable (or fixed-length) byte queue under every connection and log
    line.  The record keeps the members of the class: the storage vector and
    the two indices into it, and [max_size_], which is [kUnLimitSize] for a
    growable buffer.  Pointers into the storage are offsets.

    The file proves the class invariant for every operation, the absence of
    failing assertions and of accesses outside the storage, and that the class
    refines a plain FIFO of bytes. *)

From S2P Require Import Prelude.

(** ** Definitions *)

Record ByteBuffer : Type := mkBuffer {
  max_size_ : Z;
  reader_index_ : Z;
  writer_index_ : Z;
  buffer_ : bytes;
}.

Definition kUnLimitSize : Z := -1.
Definition kInitialSize : Z := 1024.

(** [std::vector<char>]: [max_size()], the value-initialising constructor,
    and [resize], which throws [std::length_error] beyond [max_size()]. *)
Definition vec_max_size : Z := kInt64Max.
Definition length_error : fault := Uncaught "vector: length_error".
Definition vec_make (n : Z) : outcome bytes :=
  if vec_max_size <? n then Fault length_error
  else Ok (replicate (Z.to_nat n) Byte.x00).
Definition vec_resize (n : Z) (v : bytes) : outcome bytes :=
  if vec_max_size <? n then Fault length_error
  else Ok (ztake n v ++ replicate (Z.to_nat (n - zlen v)) Byte.x00).

Definition set_indices (r w : Z) (b : ByteBuffer) : ByteBuffer :=
  mkBuffer (max_size_ b) r w (buffer_ b).
Definition set_storage (v : bytes) (b : ByteBuffer) : ByteBuffer :=
  mkBuffer (max_size_ b) (reader_index_ b) (writer_index_ b) v.

Definition size (b : ByteBuffer) : Z := zlen (buffer_ b).

(** [ByteBuffer(ssize_t max_size, size_t init_size)] *)
Definition make (max_size init_size : Z) : outcome ByteBuffer :=
  v ← vec_make (if 0 <? max_size then max_size else init_size);
  Ok (mkBuffer max_size 0 0 v).

Definition reset (b : ByteBuffer) : ByteBuffer := set_indices 0 0 b.

(** The move constructor: the new buffer takes the storage, [rhs] keeps its
    limit and an empty vector. *)
Definition move_ctor (rhs : ByteBuffer) : ByteBuffer * ByteBuffer :=
  (rhs, reset (set_storage [] rhs)).

Definition swap (a b : ByteBuffer) : ByteBuffer * ByteBuffer := (b, a).

(** Move assignment [self = std::move(rhs)]. *)
Definition move_assign (self rhs : ByteBuffer) : ByteBuffer * ByteBuffer :=
  let '(self, rhs) := swap self rhs in (self, reset rhs).

Definition readable_bytes (b : ByteBuffer) : outcome Z :=
  check (reader_index_ b <=? writer_index_ b) "readable_bytes";;
  Ok (u64 (writer_index_ b - reader_index_ b)).

Definition writable_bytes (b : ByteBuffer) : outcome Z :=
  check (writer_index_ b <=? size b) "writable_bytes: size";;
  let vbytes := size b in
  if negb (max_size_ b =? kUnLimitSize) then
    let vbytes := u64 (max_size_ b) in
    check (writer_index_ b <=? vbytes) "writable_bytes: max_size";;
    Ok (u64 (vbytes - writer_index_ b))
  else Ok (u64 (vbytes - writer_index_ b)).

(** [begin_read] and [begin_write], as offsets from [data()]. *)
Definition begin_read (b : ByteBuffer) : outcome Z :=
  check (reader_index_ b <=? writer_index_ b) "begin_read";;
  Ok (reader_index_ b).
Definition begin_write (b : ByteBuffer) : outcome Z :=
  check (writer_index_ b <=? size b) "begin_write";;
  Ok (writer_index_ b).

Definition has_written (len : Z) (b : ByteBuffer) : outcome ByteBuffer :=
  w ← writable_bytes b;
  check (len <=? w) "has_written";;
  Ok (set_indices (reader_index_ b) (u64 (writer_index_ b + len)) b).

Definition has_read (len : Z) (b : ByteBuffer) : outcome ByteBuffer :=
  r ← readable_bytes b;
  Ok (if len <? r
      then set_indices (u64 (reader_index_ b + len)) (writer_index_ b) b
      else reset b).

Definition has_read_all (b : ByteBuffer) : ByteBuffer := reset b.

(** Reading [n] bytes of the storage from offset [p]. *)
Definition mem_read (p n : Z) (b : ByteBuffer) : outcome bytes :=
  defined ((0 <=? p) && (p + n <=? size b)) "read outside the storage";;
  Ok (zslice p n (buffer_ b)).

(** Writing [d] into the storage at offset [p]. *)
Definition mem_write (p : Z) (d : bytes) (b : ByteBuffer) : outcome ByteBuffer :=
  defined ((0 <=? p) && (p + zlen d <=? size b)) "write outside the storage";;
  Ok (set_storage (memwrite p d (buffer_ b)) b).

(** [to_string] and [to_string_piece]: the readable bytes. *)
Definition to_string (b : ByteBuffer) : outcome bytes :=
  p ← begin_read b;
  n ← readable_bytes b;
  mem_read p n b.

Definition taken_as_string (len : Z) (b : ByteBuffer) : outcome (bytes * ByteBuffer) :=
  r ← readable_bytes b;
  let len := if len <=? -1 then i64 r else len in
  check (u64 len <=? r) "taken_as_string";;
  p ← begin_read b;
  result ← mem_read p (u64 len) b;
  b ← has_read (u64 len) b;
  Ok (result, b).

(** [migration_buffer_data]: move the readable bytes to the front. *)
Definition migration_buffer_data (b : ByteBuffer) : outcome ByteBuffer :=
  p ← begin_read b;
  if negb (p =? 0) then
    readable ← readable_bytes b;
    first ← begin_read b;
    last ← begin_write b;
    d ← mem_read first (last - first) b;
    b ← mem_write 0 d b;
    let b := set_indices 0 (u64 (0 + readable)) b in
    readable' ← readable_bytes b;
    check (readable =? readable') "migration_buffer_data";;
    Ok b
  else Ok b.

Definition make_writable_bytes (len : Z) (b : ByteBuffer) : outcome ByteBuffer :=
  w ← writable_bytes b;
  let real_writeable_bytes :=
    if negb (max_size_ b =? kUnLimitSize)
    then u64 (Z.min (u64 (max_size_ b)) (size b) - writer_index_ b)
    else w in
  if real_writeable_bytes <? len then
    if negb (max_size_ b =? kUnLimitSize)
       && (u64 (u64 (max_size_ b) - writer_index_ b) <? len)
    then Ok b
    else
      v ← vec_resize (u64 (writer_index_ b + len)) (buffer_ b);
      Ok (set_storage v b)
  else
    p ← begin_read b;
    if negb (p =? 0) then migration_buffer_data b else Ok b.

Definition ensure_writable_bytes (len : Z) (b : ByteBuffer) : outcome ByteBuffer :=
  make_writable_bytes len b.

(** [append(data, len)], the data being a range outside the storage. *)
Definition append (data : bytes) (b : ByteBuffer) : outcome (bool * ByteBuffer) :=
  b ← ensure_writable_bytes (zlen data) b;
  w ← writable_bytes b;
  if zlen data <=? w then
    p ← begin_write b;
    b ← mem_write p data b;
    b ← has_written (zlen data) b;
    Ok (true, b)
  else Ok (false, b).

Definition shrink (b : ByteBuffer) : outcome ByteBuffer :=
  b ← migration_buffer_data b;
  n ← readable_bytes b;
  v ← vec_resize n (buffer_ b);
  Ok (set_storage v b).

(** ** Specification

    [contents] is what a reader of the buffer can still get; [wf] is the class
    invariant (the picture at the top of the header). *)

Definition contents (b : ByteBuffer) : bytes :=
  zslice (reader_index_ b) (writer_index_ b - reader_index_ b) (buffer_ b).

Definition unlimited (b : ByteBuffer) : bool := max_size_ b =? kUnLimitSize.

Definition wf (b : ByteBuffer) : Prop :=
  0 <= reader_index_ b <= writer_index_ b /\
  writer_index_ b <= size b <= vec_max_size /\
  - 2 ^ 63 <= max_size_ b < 2 ^ 63 /\
  (unlimited b = false -> writer_index_ b <= u64 (max_size_ b)).

(** The bytes [append] may add: any number that fits an object when the buffer
    grows, [max_size_ - writer_index_] when its length is fixed. *)
Definition room (b : ByteBuffer) : Z :=
  if unlimited b then vec_max_size - writer_index_ b
  else Z.min (u64 (max_size_ b)) vec_max_size - writer_index_ b.

(** The abstract queue: what the operations mean on the readable bytes. *)
Definition limit (b : ByteBuffer) : Z :=
  if unlimited b then size b else u64 (max_size_ b).

(** ** Lemmas: each step under the invariant *)

Create Rewrite HintDb buffer.

Ltac buf := unfold wf, room, limit, size, unlimited, kUnLimitSize, vec_max_size, kInt64Max in *.

Lemma readable_bytes_ok b :
  wf b -> readable_bytes b = Ok (writer_index_ b - reader_index_ b).
Proof.
  intros (Hi & Hs & _). unfold readable_bytes. buf. zdecide. cbn.
  rewrite u64_small; [done | lia].
Qed.

Lemma writable_bytes_ok b :
  wf b -> writable_bytes b = Ok (limit b - writer_index_ b).
Proof.
  intros (Hi & Hs & Hm & Hl). unfold writable_bytes. buf. zdecide. cbn.
  pose proof (u64_range (max_size_ b)).
  destruct (max_size_ b =? -1); cbn.
  - rewrite u64_small; [done | lia].
  - specialize (Hl eq_refl). zdecide. cbn. rewrite (u64_small (_ - _)); [done | lia].
Qed.

Lemma begin_read_ok b : wf b -> begin_read b = Ok (reader_index_ b).
Proof. intros (Hi & _). unfold begin_read. zdecide. done. Qed.

Lemma begin_write_ok b : wf b -> begin_write b = Ok (writer_index_ b).
Proof. intros (_ & Hs & _). unfold begin_write. zdecide. done. Qed.

Lemma vec_resize_ok n v :
  0 <= n <= vec_max_size -> exists v', vec_resize n v = Ok v' /\ zlen v' = n /\
    ztake (Z.min n (zlen v)) v' = ztake n v.
Proof.
  intros Hn. unfold vec_resize. zdecide. eexists. split; [done|].
  pose proof (zlen_nonneg v). split.
  - rewrite zlen_app, zlen_ztake, zlen_replicate. lia.
  - rewrite ztake_app_le by (rewrite zlen_ztake; lia).
    rewrite ztake_ztake.
    destruct (decide (n <= zlen v)); [f_equal; lia|].
    rewrite !ztake_ge by lia. done.
Qed.

Lemma contents_length b : wf b -> zlen (contents b) = writer_index_ b - reader_index_ b.
Proof. intros (Hi & Hs & _). unfold contents. rewrite zlen_zslice. buf. lia. Qed.

#[export] Hint Rewrite readable_bytes_ok writable_bytes_ok begin_read_ok begin_write_ok
  using done : buffer.

Lemma to_string_ok b : wf b -> to_string b = Ok (contents b).
Proof.
  intros Hwf. unfold to_string. autorewrite with buffer. cbn.
  unfold mem_read, defined. destruct Hwf as (Hi & Hs & _). zdecide. done.
Qed.

(** Reading consumes a prefix of the contents. *)
Lemma has_read_ok n b :
  wf b -> 0 <= n -> exists b', has_read n b = Ok b' /\ wf b' /\
    contents b' = zdrop n (contents b) /\ max_size_ b' = max_size_ b /\
    buffer_ b' = buffer_ b /\ writer_index_ b' <= writer_index_ b.
Proof.
  intros Hwf Hn. unfold has_read. autorewrite with buffer. cbn.
  eexists. split; [done|].
  destruct Hwf as (Hi & Hs & Hm & Hl). pose proof (u64_range (max_size_ b)).
  destruct (n <? writer_index_ b - reader_index_ b) eqn:E; zbool; cbn.
  - rewrite u64_small by (buf; lia). split_and!; try done.
    + unfold wf; cbn. buf. cbn in *. lia.
    + unfold contents; cbn. unfold zslice.
      rewrite zdrop_ztake, zdrop_zdrop by lia. f_equal; [lia | f_equal; lia].
  - split_and!; try done.
    + unfold wf; cbn. buf. cbn in *. lia.
    + unfold contents at 1; cbn. rewrite zdrop_ge by (rewrite contents_length by done; lia).
      done.
    + cbn. lia.
Qed.

Lemma reset_wf b : wf b -> wf (reset b) /\ contents (reset b) = [].
Proof.
  intros (Hi & Hs & Hm & Hl). pose proof (u64_range (max_size_ b)).
  split; [|done]. unfold wf; cbn. buf; cbn in *. lia.
Qed.

Lemma memwrite_split {A} p (d v : list A) :
  0 <= p -> p + zlen d <= zlen v ->
  zlen (memwrite p d v) = zlen v /\ ztake p (memwrite p d v) = ztake p v /\
  zslice p (zlen d) (memwrite p d v) = d.
Proof.
  intros Hp Hd. unfold memwrite. pose proof (zlen_nonneg d).
  split_and!.
  - rewrite !zlen_app, zlen_ztake, zlen_zdrop. lia.
  - rewrite ztake_app_le by (rewrite zlen_ztake; lia). rewrite ztake_ztake. f_equal. lia.
  - unfold zslice. rewrite zdrop_app_ge by (rewrite zlen_ztake; lia).
    rewrite zlen_ztake.
    replace (p - Z.min (Z.max 0 p) (zlen v)) with 0 by lia.
    rewrite zdrop_0, ztake_app_le, ztake_ge by lia. done.
Qed.

Lemma migration_ok b :
  wf b -> exists b', migration_buffer_data b = Ok b' /\ wf b' /\
    contents b' = contents b /\ max_size_ b' = max_size_ b /\
    size b' = size b /\ reader_index_ b' = 0 /\
    writer_index_ b' = writer_index_ b - reader_index_ b.
Proof.
  intros Hwf. unfold migration_buffer_data. autorewrite with buffer. cbn.
  pose proof (contents_length b Hwf) as Hc.
  pose proof Hwf as (Hi & Hs & Hm & Hl).
  destruct (reader_index_ b =? 0) eqn:E; zbool; cbn.
  { exists b. split_and!; try done; lia. }
  unfold mem_read, defined. zdecide. cbn.
  replace (zslice _ _ _) with (contents b) by done.
  unfold mem_write, defined. unfold size in *. zdecide. cbn.
  destruct (memwrite_split 0 (contents b) (buffer_ b)) as (Hlen & _ & Hsl); try lia.
  rewrite u64_small by (buf; lia).
  set (b' := set_indices _ _ _).
  assert (wf b') as Hwf'.
  { unfold wf, size, b'; cbn. rewrite Hlen. buf; cbn in *. lia. }
  rewrite readable_bytes_ok by done. cbn. zdecide. cbn.
  exists b'. split_and!; try done; try (cbn; lia).
  rewrite <- Hsl at 1. rewrite Hc. unfold contents at 1, b'; cbn. f_equal. lia.
Qed.

(** Storage that agrees with the old one up to [writer_index_] holds the same
    readable bytes. *)
Lemma contents_storage b v :
  wf b -> writer_index_ b <= zlen v ->
  ztake (writer_index_ b) v = ztake (writer_index_ b) (buffer_ b) ->
  contents (set_storage v b) = contents b.
Proof.
  intros (Hi & Hs & _) Hv E. unfold contents, zslice; cbn.
  assert (forall l : bytes, ztake (writer_index_ b - reader_index_ b) (zdrop (reader_index_ b) l)
    = zdrop (reader_index_ b) (ztake (writer_index_ b) l)) as R
    by (intros l; rewrite zdrop_ztake by lia; done).
  by rewrite !R, E.
Qed.

Lemma resize_storage_ok n b :
  wf b -> writer_index_ b <= n <= vec_max_size -> exists v,
    vec_resize n (buffer_ b) = Ok v /\ zlen v = n /\ wf (set_storage v b) /\
    contents (set_storage v b) = contents b.
Proof.
  intros Hwf Hn. pose proof Hwf as (Hi & Hs & Hm & Hl).
  destruct (vec_resize_ok n (buffer_ b)) as (v & -> & Hlen & Htake); [lia|].
  exists v. split_and!; try done.
  - unfold wf, size; cbn. rewrite Hlen. buf; cbn in *. lia.
  - apply contents_storage; [done | lia |]. unfold size in Hs.
    apply (f_equal (ztake (writer_index_ b))) in Htake.
    rewrite !ztake_ztake in Htake.
    rewrite !Z.min_l in Htake by lia. done.
Qed.

(** After [ensure_writable_bytes] the storage has room for what fits. *)
Lemma ensure_writable_ok n b :
  wf b -> 0 <= n <= room b -> exists b',
    ensure_writable_bytes n b = Ok b' /\ wf b' /\ contents b' = contents b /\
    max_size_ b' = max_size_ b /\ writer_index_ b' + n <= size b' /\
    writer_index_ b' + n <= limit b' /\ writer_index_ b' <= writer_index_ b.
Proof.
  intros Hwf Hn. unfold ensure_writable_bytes, make_writable_bytes.
  autorewrite with buffer. cbn.
  pose proof Hwf as (Hi & Hs & Hm & Hl). pose proof (u64_range (max_size_ b)).
  assert (forall z, 0 <= z < 2 ^ 64 -> u64 z = z) as U by apply u64_small.
  set (real := if negb _ then _ else _).
  assert (real = Z.min (limit b) (size b) - writer_index_ b) as ->.
  { unfold real. buf. destruct (max_size_ b =? -1); cbn; [lia|].
    rewrite (U (_ - _)) by lia. lia. }
  destruct (_ <? n) eqn:E; zbool.
  - replace (negb (max_size_ b =? kUnLimitSize) && _)%bool with false.
    2: { symmetry. buf. destruct (max_size_ b =? -1) eqn:Em; cbn; [done|].
         rewrite (U (_ - _)) by lia. apply Z.ltb_ge. lia. }
    destruct (resize_storage_ok (writer_index_ b + n) b) as (v & Hv & Hlen & Hwf' & Hc);
      [done | buf; destruct (max_size_ b =? -1); lia |].
    rewrite U by (buf; destruct (max_size_ b =? -1); lia).
    rewrite Hv. cbn. eexists. split; [done|]. split_and!; try done.
    + unfold size; cbn. lia.
    + cbn. buf; cbn. destruct (max_size_ b =? -1); lia.
  - destruct (reader_index_ b =? 0) eqn:Er; cbn.
    + exists b. split_and!; try done; lia.
    + destruct (migration_ok b Hwf) as (b' & -> & Hwf' & Hc & Hmx & Hsz & Hr & Hw).
      exists b'. split_and!; try done; try lia.
      unfold limit, unlimited in *. rewrite Hmx. rewrite <- Hsz in E.
      destruct (max_size_ b =? kUnLimitSize); lia.
Qed.

Lemma has_written_ok n b :
  wf b -> 0 <= n -> writer_index_ b + n <= size b -> writer_index_ b + n <= limit b ->
  exists b', has_written n b = Ok b' /\ wf b' /\ max_size_ b' = max_size_ b /\
    buffer_ b' = buffer_ b /\
    contents b' = contents b ++ zslice (writer_index_ b) n (buffer_ b) /\
    writer_index_ b' = writer_index_ b + n.
Proof.
  intros Hwf Hn Hsz Hlim. unfold has_written. autorewrite with buffer. cbn. zdecide. cbn.
  eexists. split; [done|]. pose proof Hwf as (Hi & Hs & Hm & Hl).
  rewrite u64_small by (buf; lia). split_and!; try done.
  - unfold wf, size; cbn. buf; cbn in *.
    destruct (max_size_ b =? -1) eqn:E; cbn in *; split_and!; try lia; congruence.
  - unfold contents, zslice; cbn.
    rewrite <- (ztake_zdrop (writer_index_ b - reader_index_ b)
      (ztake (writer_index_ b + n - reader_index_ b) _)).
    rewrite ztake_ztake, zdrop_ztake, zdrop_zdrop by lia.
    f_equal; [f_equal; lia | f_equal; [lia | f_equal; lia]].
Qed.

(** [append] on a buffer with room for the data. *)
Lemma append_ok d b :
  wf b -> zlen d <= room b -> exists b', append d b = Ok (true, b') /\ wf b' /\
    contents b' = contents b ++ d /\ max_size_ b' = max_size_ b /\
    writer_index_ b' <= writer_index_ b + zlen d.
Proof.
  intros Hwf Hd. pose proof (zlen_nonneg d). unfold append.
  destruct (ensure_writable_ok (zlen d) b) as (b1 & -> & Hwf1 & Hc1 & Hm1 & Hs1 & Hl1 & Hw1);
    [done | lia |].
  cbn. rewrite writable_bytes_ok by done. cbn. zdecide.
  rewrite begin_write_ok by done. cbn. pose proof Hwf1 as (Hi & Hs & Hm & Hl).
  unfold mem_write, defined. zdecide. cbn.
  destruct (memwrite_split (writer_index_ b1) d (buffer_ b1)) as (Hlen & Ht & Hsl);
    [lia | unfold size in *; lia |].
  set (b2 := set_storage _ b1).
  assert (wf b2) as Hwf2.
  { unfold wf, size, b2; cbn. rewrite Hlen. buf; cbn in *. lia. }
  assert (contents b2 = contents b1) as Hc2.
  { apply contents_storage; [done | unfold size in *; lia | done]. }
  destruct (has_written_ok (zlen d) b2) as (b3 & -> & Hwf3 & Hm3 & Hb3 & Hc3 & Hw3);
    [done | lia | unfold b2, size; cbn; rewrite Hlen; done | |].
  { unfold limit, unlimited, b2, size in *; cbn. rewrite Hlen. done. }
  cbn. exists b3. split_and!; try done.
  - rewrite Hc3, Hc2, Hc1. f_equal. done.
  - rewrite Hm3. done.
  - rewrite Hw3. unfold b2; cbn. lia.
Qed.

(** [append] on a growing buffer with no room for the data. *)
Lemma append_oom d b :
  wf b -> unlimited b = true -> room b < zlen d <= vec_max_size -> append d b = Fault length_error.
Proof.
  intros Hwf Hu Hd. unfold append, ensure_writable_bytes, make_writable_bytes.
  rewrite writable_bytes_ok, bind_ret by done. unfold room, limit, unlimited in *.
  rewrite Hu in *. cbn [negb andb]. destruct Hwf as (Hi & Hs & _).
  rewrite (proj2 (Z.ltb_lt _ _)) by lia. rewrite u64_small by (unfold vec_max_size, kInt64Max in *; lia).
  unfold vec_resize. by rewrite (proj2 (Z.ltb_lt _ _)) by lia.
Qed.

(** [append] on a fixed-length buffer that is too full refuses and leaves the
    buffer as it was. *)
Lemma append_refused d b :
  wf b -> unlimited b = false -> u64 (max_size_ b) - writer_index_ b < zlen d ->
  append d b = Ok (false, b).
Proof.
  intros Hwf Hu Hd. unfold append, ensure_writable_bytes, make_writable_bytes.
  rewrite writable_bytes_ok by done. cbn.
  pose proof Hwf as (Hi & Hs & Hm & Hl). specialize (Hl Hu).
  pose proof (u64_range (max_size_ b)). unfold unlimited in Hu. rewrite Hu. cbn.
  rewrite (u64_small (_ - _)) by (buf; lia). rewrite (u64_small (_ - _)) by (buf; lia).
  zdecide. cbn. rewrite writable_bytes_ok by done. cbn.
  unfold limit, unlimited. rewrite Hu. zdecide. done.
Qed.

Lemma shrink_ok b :
  wf b -> exists b', shrink b = Ok b' /\ wf b' /\ contents b' = contents b /\
    max_size_ b' = max_size_ b /\ size b' = zlen (contents b) /\
    writer_index_ b' <= writer_index_ b.
Proof.
  intros Hwf. unfold shrink. pose proof Hwf as (Hi0 & _).
  destruct (migration_ok b Hwf) as (b1 & -> & Hwf1 & Hc1 & Hm1 & Hs1 & Hr1 & Hw1).
  cbn. rewrite readable_bytes_ok by done. cbn.
  pose proof Hwf1 as (Hi & Hs & Hm & Hl).
  destruct (resize_storage_ok (writer_index_ b1 - reader_index_ b1) b1)
    as (v & -> & Hlen & Hwf2 & Hc2); [done | lia |].
  cbn. eexists. split_and!; [done | done | congruence | done | | cbn; lia].
  unfold size; cbn. rewrite contents_length by done. lia.
Qed.

Lemma taken_ok n b :
  wf b -> -1 <= n <= zlen (contents b) -> exists b',
    taken_as_string n b = Ok (if n =? -1 then contents b else ztake n (contents b), b') /\
    wf b' /\ max_size_ b' = max_size_ b /\
    contents b' = (if n =? -1 then [] else zdrop n (contents b)) /\
    writer_index_ b' <= writer_index_ b.
Proof.
  intros Hwf Hn. unfold taken_as_string. autorewrite with buffer. cbn.
  pose proof (contents_length b Hwf) as Hc. pose proof Hwf as (Hi & Hs & Hm & Hl).
  assert (i64 (writer_index_ b - reader_index_ b) = writer_index_ b - reader_index_ b) as ->
    by (apply i64_small; buf; lia).
  set (len := if n <=? -1 then _ else _).
  assert (0 <= len <= writer_index_ b - reader_index_ b) as Hlen
    by (unfold len; destruct (n <=? -1) eqn:E; zbool; lia).
  rewrite u64_small by (buf; lia). zdecide. cbn.
  unfold mem_read, defined. zdecide. cbn.
  destruct (has_read_ok len b Hwf) as (b' & -> & Hwf' & Hc' & Hm' & _ & Hw'); [lia|].
  cbn. exists b'. rewrite Hc'. unfold len, contents, zslice in *.
  destruct (decide (n = -1)) as [->|]; cbn; split_and!; try done.
  - apply zdrop_ge. lia.
  - zdecide. rewrite ztake_ztake. repeat f_equal; lia.
  - zdecide. done.
Qed.

Lemma make_ok m n :
  - 2 ^ 63 <= m < 2 ^ 63 -> 0 <= n <= vec_max_size -> exists b,
    make m n = Ok b /\ wf b /\ contents b = [] /\ max_size_ b = m.
Proof.
  intros Hm Hn. unfold make, vec_make. pose proof (u64_range m).
  assert (0 <= (if 0 <? m then m else n) <= vec_max_size)
    by (destruct (0 <? m) eqn:E; zbool; unfold vec_max_size, kInt64Max in *; lia).
  zdecide. cbn. eexists. split; [done|]. split_and!; try done.
  unfold wf, size; cbn. rewrite zlen_replicate. buf; cbn. lia.
Qed.

(** ** Refinement of a byte queue

    The interface of a growable buffer as a client sees it: a program of
    operations, the replies it gets, and the same program on a plain list. *)

Inductive op : Type :=
| Append (d : bytes)
| Read (len : Z)
| Take (len : Z)
| ReadAll
| Ensure (len : Z)
| Shrink
| Peek.

Inductive reply : Type :=
| RUnit
| RBool (b : bool)
| RBytes (d : bytes)
| RSize (n : Z).

Definition run_op (o : op) (b : ByteBuffer) : outcome (reply * ByteBuffer) :=
  match o with
  | Append d => '(r, b) ← append d b; Ok (RBool r, b)
  | Read n => b ← has_read n b; Ok (RUnit, b)
  | Take n => '(d, b) ← taken_as_string n b; Ok (RBytes d, b)
  | ReadAll => Ok (RUnit, has_read_all b)
  | Ensure n => b ← ensure_writable_bytes n b; Ok (RUnit, b)
  | Shrink => b ← shrink b; Ok (RUnit, b)
  | Peek => d ← to_string b; Ok (RBytes d, b)
  end.

Fixpoint run (os : list op) (b : ByteBuffer) : outcome (list reply * ByteBuffer) :=
  match os with
  | [] => Ok ([], b)
  | o :: os => '(r, b) ← run_op o b; '(rs, b) ← run os b; Ok (r :: rs, b)
  end.

(** The queue.  [Take] of more than there is is a failed assertion. *)
Definition queue_op (o : op) (q : bytes) : option (reply * bytes) :=
  match o with
  | Append d => Some (RBool true, q ++ d)
  | Read n => Some (RUnit, zdrop n q)
  | Take n => if n =? -1 then Some (RBytes q, [])
              else if n <=? zlen q then Some (RBytes (ztake n q), zdrop n q) else None
  | ReadAll => Some (RUnit, [])
  | Ensure _ => Some (RUnit, q)
  | Shrink => Some (RUnit, q)
  | Peek => Some (RBytes q, q)
  end.

Fixpoint queue_run (os : list op) (q : bytes) : option (list reply * bytes) :=
  match os with
  | [] => Some ([], q)
  | o :: os => '(r, q) ← queue_op o q; '(rs, q) ← queue_run os q; Some (r :: rs, q)
  end.

(** The memory a program may need, and sizes a caller may pass. *)
Definition op_cost (o : op) : Z :=
  match o with Append d => zlen d | Ensure n => n | _ => 0 end.
Fixpoint total_cost (os : list op) : Z :=
  match os with [] => 0 | o :: os => op_cost o + total_cost os end.
Definition op_valid (o : op) : Prop :=
  match o with Read n => 0 <= n | Take n => -1 <= n | Ensure n => 0 <= n | _ => True end.

Lemma run_op_refines o b r q' :
  wf b -> unlimited b = true -> op_valid o ->
  writer_index_ b + op_cost o <= vec_max_size ->
  queue_op o (contents b) = Some (r, q') -> exists b',
    run_op o b = Ok (r, b') /\ wf b' /\ unlimited b' = true /\ contents b' = q' /\
    writer_index_ b' <= writer_index_ b + op_cost o.
Proof.
  intros Hwf Hu Hv Hcost Hq. unfold unlimited in *.
  assert (room b = vec_max_size - writer_index_ b) as Hroom
    by (unfold room, unlimited; by rewrite Hu).
  destruct o; simpl in Hv, Hcost, Hq; simplify_eq/=.
  - destruct (append_ok d b Hwf) as (b' & -> & Hwf' & Hc & Hm & Hw); [lia|].
    exists b'. rewrite Hm. eauto.
  - destruct (has_read_ok len b Hwf Hv) as (b' & -> & Hwf' & Hc & Hm & _ & Hw).
    exists b'. rewrite Hm. split_and!; try done; lia.
  - destruct (taken_ok len b Hwf) as (b' & -> & Hwf' & Hm & Hc & Hw).
    { destruct (len =? -1) eqn:E in Hq; zbool; [pose proof (zlen_nonneg (contents b)); lia|].
      destruct (len <=? _) eqn:E' in Hq; zbool; [lia | done]. }
    exists b'. cbn. rewrite Hm, Hc. destruct (len =? -1) eqn:E in Hq |- *; simplify_eq.
    + split_and!; try done; lia.
    + destruct (len <=? _) in Hq; simplify_eq. split_and!; try done; lia.
  - destruct (reset_wf b Hwf) as [Hwf' Hc]. exists (reset b).
    destruct Hwf as (Hi & _). split_and!; try done; cbn; lia.
  - destruct (ensure_writable_ok len b Hwf) as (b' & -> & Hwf' & Hc & Hm & _ & _ & Hw); [lia|].
    exists b'. rewrite Hm. split_and!; try done; lia.
  - destruct (shrink_ok b Hwf) as (b' & -> & Hwf' & Hc & Hm & _ & Hw).
    exists b'. rewrite Hm. split_and!; try done; lia.
  - rewrite to_string_ok by done. exists b. split_and!; try done; lia.
Qed.

Lemma run_refines_aux os b rs q' :
  wf b -> unlimited b = true -> Forall op_valid os ->
  writer_index_ b + total_cost os <= vec_max_size ->
  queue_run os (contents b) = Some (rs, q') -> exists b',
    run os b = Ok (rs, b') /\ wf b' /\ contents b' = q'.
Proof.
  revert b rs q'. induction os as [|o os IH]; intros b rs q' Hwf Hu Hv Hcost Hq.
  { simplify_eq/=. eauto. }
  apply Forall_cons in Hv as [Hv Hvs]. simpl in Hcost.
  assert (0 <= total_cost os) as Hpos.
  { clear -Hvs. induction Hvs as [|o os Ho Hos IH]; simpl; [lia|].
    destruct o; simpl in *; try pose proof (zlen_nonneg d); lia. }
  simpl in Hq. destruct (queue_op o (contents b)) as [[r q1]|] eqn:E1; [|done].
  destruct (run_op_refines o b r q1) as (b1 & E & Hwf1 & Hu1 & Hc1 & Hw1); try done; [lia|].
  simpl in Hq. subst q1. destruct (queue_run os (contents b1)) as [[rs1 q2]|] eqn:E2; [|done].
  simplify_eq/=. rewrite E. cbn.
  destruct (IH b1 rs1 q') as (b2 & -> & Hwf2 & Hc2); try done; [lia|].
  cbn. eauto.
Qed.

(** ** Properties *)

(** C2.  A growable [ByteBuffer] refines a queue of bytes: every program of
    appends, reads, takes, peeks, reservations and shrinks that is legal on the
    queue and fits in memory runs on the buffer without a failed assertion, an
    exception or an access outside the storage, gives the replies the queue
    gives, keeps the class invariant and ends with the queue's bytes readable. *)
Theorem buffer_refines_queue (os : list op) (b : ByteBuffer) rs q :
  wf b -> unlimited b = true -> Forall op_valid os ->
  writer_index_ b + total_cost os <= vec_max_size ->
  queue_run os (contents b) = Some (rs, q) ->
  exists b', run os b = Ok (rs, b') /\ wf b' /\ contents b' = q.
Proof. apply run_refines_aux. Qed.

Lemma buffer_refines_queue_witness :
  exists b b', make kUnLimitSize 4 = Ok b /\
    run [Append (txt "hello"); Take 2; Append (txt "!"); Shrink; Peek] b =
      Ok ([RBool true; RBytes (txt "he"); RBool true; RUnit; RBytes (txt "llo!")], b') /\
    wf b' /\ contents b' = txt "llo!".
Proof.
  eexists. destruct (buffer_refines_queue
    [Append (txt "hello"); Take 2; Append (txt "!"); Shrink; Peek]
    (mkBuffer kUnLimitSize 0 0 (replicate 4 Byte.x00))
    [RBool true; RBytes (txt "he"); RBool true; RUnit; RBytes (txt "llo!")] (txt "llo!"))
    as (b' & Hrun & Hwf & Hc).
  - unfold wf; cbn. vm_compute. intuition congruence.
  - reflexivity.
  - repeat constructor; vm_compute; congruence.
  - vm_compute. congruence.
  - reflexivity.
  - exists b'. split_and!; [reflexivity | exact Hrun | exact Hwf | exact Hc].
Defined.

(** [append] decides exactly: on a well-formed buffer it succeeds and
    extends the readable bytes when the data fits in what the buffer may still
    use, and on a fixed-length buffer without that room it returns false and
    changes nothing. *)
Theorem append_spec (d : bytes) (b : ByteBuffer) :
  wf b ->
  (zlen d <= room b -> exists b', append d b = Ok (true, b') /\ wf b' /\
     contents b' = contents b ++ d /\ max_size_ b' = max_size_ b) /\
  (unlimited b = false -> u64 (max_size_ b) - writer_index_ b < zlen d ->
     append d b = Ok (false, b)).
Proof.
  intros Hwf. split; [|by apply append_refused].
  intros Hd. destruct (append_ok d b Hwf Hd) as (b' & H1 & H2 & H3 & H4 & _). eauto 6.
Qed.

Lemma append_spec_witness :
  let b := mkBuffer 6 2 4 (txt "abcdef") in
  (exists b', append (txt "xy") b = Ok (true, b') /\ contents b' = txt "cdxy") /\
  append (txt "xyz") b = Ok (false, b).
Proof.
  intros b. assert (wf b) as Hwf by (vm_compute; intuition congruence). split.
  - destruct (proj1 (append_spec (txt "xy") b Hwf)) as (b' & H1 & _ & H2 & _);
      [vm_compute; congruence|].
    exists b'. split; [exact H1 | rewrite H2; reflexivity].
  - apply (proj2 (append_spec (txt "xyz") b Hwf)); vm_compute; congruence.
Defined.
