(* ===== verification/NetBuffer.v ===== *)
(** * NetBuffer (include/NetBuffer.h, src/NetBuffer.cc)

    The [ByteBuffer] of a connection, with integers in network byte order and
    the scatter read from a socket.  [readv(2)] is a parameter: given the
    lengths of the I/O vector it yields an errno or the bytes received, of
    which there are at most as many as the vector holds. *)

From S2P Require Import Prelude ByteOrder ByteBuffer.

(** ** Definitions *)

Section NetBuffer.
Context `{Arch}.

(** [append_int64/32/16/8]: convert, then append the object's bytes.  The
    boolean that [append] returns is dropped. *)
Definition append_int64 (x : Z) (b : ByteBuffer) : outcome ByteBuffer :=
  let be64 := i64 (host_to_net64 (u64 x)) in
  '(_, b) ← append (mem_image 8 be64) b; Ok b.
Definition append_int32 (x : Z) (b : ByteBuffer) : outcome ByteBuffer :=
  let be32 := i32 (host_to_net32 (u32 x)) in
  '(_, b) ← append (mem_image 4 be32) b; Ok b.
Definition append_int16 (x : Z) (b : ByteBuffer) : outcome ByteBuffer :=
  let be16 := i16 (host_to_net16 (u16 x)) in
  '(_, b) ← append (mem_image 2 be16) b; Ok b.
Definition append_int8 (x : Z) (b : ByteBuffer) : outcome ByteBuffer :=
  '(_, b) ← append (mem_image 1 x) b; Ok b.

(** The [n] bytes at [begin_read()], for the [memcpy] of [peek_int*]. *)
Definition peek_mem (n : Z) (b : ByteBuffer) : outcome bytes :=
  r ← readable_bytes b;
  check (n <=? r) "peek_int: readable_bytes";;
  p ← begin_read b;
  mem_read p n b.

Definition peek_int64 (b : ByteBuffer) : outcome Z :=
  m ← peek_mem 8 b;
  let be64 := i64 (mem_value m) in
  Ok (i64 (net_to_host64 (u64 be64))).
Definition peek_int32 (b : ByteBuffer) : outcome Z :=
  m ← peek_mem 4 b;
  let be32 := i32 (mem_value m) in
  Ok (i32 (net_to_host32 (u32 be32))).
Definition peek_int16 (b : ByteBuffer) : outcome Z :=
  m ← peek_mem 2 b;
  let be16 := i16 (mem_value m) in
  Ok (i16 (net_to_host16 (u16 be16))).
Definition peek_int8 (b : ByteBuffer) : outcome Z :=
  m ← peek_mem 1 b;
  Ok (i8 (mem_value m)).

Definition has_read_int64 (b : ByteBuffer) : outcome ByteBuffer := has_read 8 b.
Definition has_read_int32 (b : ByteBuffer) : outcome ByteBuffer := has_read 4 b.
Definition has_read_int16 (b : ByteBuffer) : outcome ByteBuffer := has_read 2 b.
Definition has_read_int8 (b : ByteBuffer) : outcome ByteBuffer := has_read 1 b.

Definition read_int64 (b : ByteBuffer) : outcome (Z * ByteBuffer) :=
  result ← peek_int64 b; b ← has_read_int64 b; Ok (result, b).
Definition read_int32 (b : ByteBuffer) : outcome (Z * ByteBuffer) :=
  result ← peek_int32 b; b ← has_read_int32 b; Ok (result, b).
Definition read_int16 (b : ByteBuffer) : outcome (Z * ByteBuffer) :=
  result ← peek_int16 b; b ← has_read_int16 b; Ok (result, b).
Definition read_int8 (b : ByteBuffer) : outcome (Z * ByteBuffer) :=
  result ← peek_int8 b; b ← has_read_int8 b; Ok (result, b).

End NetBuffer.

Definition kExtraBuf : Z := 65536.

(** The I/O vector [read_fd] passes, by the lengths of its parts. *)
Definition read_iov (writable : Z) : list Z :=
  if writable <? kExtraBuf then [writable; kExtraBuf] else [writable].

(** [read_fd]: the result of the call, the errno it reports, and the buffer.
    The kernel fills [vec[0]], the storage at [begin_write()], first. *)
Definition read_fd (readv : list Z -> Z + bytes) (b : ByteBuffer)
    : outcome (Z * option Z * ByteBuffer) :=
  writable ← writable_bytes b;
  base ← begin_write b;
  match readv (read_iov writable) with
  | inl err => Ok (-1, Some err, b)
  | inr data =>
      let n := zlen data in
      let extrabuf := zdrop writable data in
      defined (n <=? foldr Z.add 0 (read_iov writable)) "readv overruns its vector";;
      b ← mem_write base (ztake writable data) b;
      if n <=? writable then
        b ← has_written n b; Ok (n, None, b)
      else
        b ← has_written writable b;
        '(_, b) ← append extrabuf b;
        Ok (n, None, b)
  end.

(** What POSIX says of [readv]: no more bytes than the vector holds. *)
Definition readv_ok (readv : list Z -> Z + bytes) : Prop :=
  forall iov data, Forall (fun n => 0 <= n) iov -> readv iov = inr data ->
    zlen data <= foldr Z.add 0 iov.

(** ** Lemmas *)

Section NetBuffer_lemmas.
Context `{Arch}.

Lemma mem_image_mod n x : mem_image n (x mod 2 ^ (8 * Z.of_nat n)) = mem_image n x.
Proof.
  unfold mem_image. destruct arch_little_endian; [apply le_bytes_mod | apply be_bytes_mod].
Qed.

Lemma mem_image_swrap n x :
  (0 < n)%nat -> mem_image n (swrap (8 * Z.of_nat n) x) = mem_image n x.
Proof.
  intros. rewrite <- mem_image_mod.
  pose proof (uwrap_swrap (8 * Z.of_nat n) x ltac:(lia)) as E. unfold uwrap in E.
  rewrite E. apply mem_image_mod.
Qed.

(** The bytes each [append_int*] puts in the buffer. *)
Lemma net_image64 x : mem_image 8 (i64 (host_to_net64 (u64 x))) = be_bytes 8 x.
Proof.
  unfold i64. rewrite (mem_image_swrap 8) by lia.
  unfold host_to_net64. rewrite <- (be_bytes_mod 8 x).
  apply (mem_image_host_net 8).
Qed.
Lemma net_image32 x : mem_image 4 (i32 (host_to_net32 (u32 x))) = be_bytes 4 x.
Proof.
  unfold i32. rewrite (mem_image_swrap 4) by lia.
  unfold host_to_net32. rewrite <- (be_bytes_mod 4 x).
  apply (mem_image_host_net 4).
Qed.
Lemma net_image16 x : mem_image 2 (i16 (host_to_net16 (u16 x))) = be_bytes 2 x.
Proof.
  unfold i16. rewrite (mem_image_swrap 2) by lia.
  unfold host_to_net16. rewrite <- (be_bytes_mod 2 x).
  apply (mem_image_host_net 2).
Qed.
Lemma net_image8 x : mem_image 1 x = be_bytes 1 x.
Proof. unfold mem_image, be_bytes. by destruct arch_little_endian. Qed.

Lemma append_bytes_ok (f : outcome (bool * ByteBuffer)) d b :
  f = append d b -> wf b -> zlen d <= room b -> exists b',
    ('(_, b) ← f; Ok b) = Ok b' /\ wf b' /\ contents b' = contents b ++ d /\
    max_size_ b' = max_size_ b /\ writer_index_ b' <= writer_index_ b + zlen d.
Proof.
  intros -> Hwf Hd. destruct (append_ok d b Hwf Hd) as (b' & -> & ? & ? & ? & ?).
  exists b'. eauto.
Qed.

Lemma append_int64_ok x b :
  wf b -> 8 <= room b -> exists b', append_int64 x b = Ok b' /\ wf b' /\
    contents b' = contents b ++ be_bytes 8 x /\ max_size_ b' = max_size_ b /\
    writer_index_ b' <= writer_index_ b + 8.
Proof. intros. apply (append_bytes_ok _ (be_bytes 8 x)); try done. by rewrite net_image64. Qed.
Lemma append_int32_ok x b :
  wf b -> 4 <= room b -> exists b', append_int32 x b = Ok b' /\ wf b' /\
    contents b' = contents b ++ be_bytes 4 x /\ max_size_ b' = max_size_ b /\
    writer_index_ b' <= writer_index_ b + 4.
Proof. intros. apply (append_bytes_ok _ (be_bytes 4 x)); try done. by rewrite net_image32. Qed.
Lemma append_int16_ok x b :
  wf b -> 2 <= room b -> exists b', append_int16 x b = Ok b' /\ wf b' /\
    contents b' = contents b ++ be_bytes 2 x /\ max_size_ b' = max_size_ b /\
    writer_index_ b' <= writer_index_ b + 2.
Proof. intros. apply (append_bytes_ok _ (be_bytes 2 x)); try done. by rewrite net_image16. Qed.
Lemma append_int8_ok x b :
  wf b -> 1 <= room b -> exists b', append_int8 x b = Ok b' /\ wf b' /\
    contents b' = contents b ++ be_bytes 1 x /\ max_size_ b' = max_size_ b /\
    writer_index_ b' <= writer_index_ b + 1.
Proof. intros. apply (append_bytes_ok _ (be_bytes 1 x)); try done. by rewrite net_image8. Qed.

Lemma peek_mem_ok n b :
  wf b -> 0 <= n <= zlen (contents b) -> peek_mem n b = Ok (ztake n (contents b)).
Proof.
  intros Hwf Hn. unfold peek_mem. autorewrite with buffer. cbn.
  rewrite contents_length in Hn by done. zdecide. cbn.
  destruct Hwf as (Hi & Hs & _). unfold mem_read, defined. zdecide. cbn.
  unfold contents, zslice. rewrite ztake_ztake. repeat f_equal. lia.
Qed.

Lemma peek_mem_short n b :
  wf b -> zlen (contents b) < n ->
  peek_mem n b = Fault (CheckFailed "peek_int: readable_bytes").
Proof.
  intros Hwf Hn. unfold peek_mem. autorewrite with buffer. cbn.
  rewrite contents_length in Hn by done. zdecide. done.
Qed.

(** The signed big-endian integer at the front of the contents. *)
Definition be_int (n : nat) (d : bytes) : Z :=
  swrap (8 * Z.of_nat n) (be_val (ztake (Z.of_nat n) d)).

Lemma host_net_value n d w :
  (0 < n)%nat -> w = 8 * Z.of_nat n -> length d = n ->
  swrap w (host_net n (uwrap w (swrap w (mem_value d)))) = swrap w (be_val d).
Proof.
  intros Hn -> Hlen. rewrite uwrap_swrap by lia.
  rewrite uwrap_small; [by rewrite host_net_mem_value|].
  unfold mem_value, be_val. rewrite <- Hlen. destruct arch_little_endian.
  - apply le_val_range.
  - rewrite <- length_reverse. apply le_val_range.
Qed.

Lemma length_ztake_exact {A} n (d : list A) :
  Z.of_nat n <= zlen d -> length (ztake (Z.of_nat n) d) = n.
Proof. unfold ztake, zlen. rewrite length_take. lia. Qed.

Lemma peek_int64_ok b :
  wf b -> 8 <= zlen (contents b) -> peek_int64 b = Ok (be_int 8 (contents b)).
Proof.
  intros. unfold peek_int64. rewrite peek_mem_ok by (done || lia). cbn. f_equal.
  apply (host_net_value 8); [lia | done | by apply (length_ztake_exact 8)].
Qed.
Lemma peek_int32_ok b :
  wf b -> 4 <= zlen (contents b) -> peek_int32 b = Ok (be_int 4 (contents b)).
Proof.
  intros. unfold peek_int32. rewrite peek_mem_ok by (done || lia). cbn. f_equal.
  apply (host_net_value 4); [lia | done | by apply (length_ztake_exact 4)].
Qed.
Lemma peek_int16_ok b :
  wf b -> 2 <= zlen (contents b) -> peek_int16 b = Ok (be_int 2 (contents b)).
Proof.
  intros. unfold peek_int16. rewrite peek_mem_ok by (done || lia). cbn. f_equal.
  apply (host_net_value 2); [lia | done | by apply (length_ztake_exact 2)].
Qed.
Lemma peek_int8_ok b :
  wf b -> 1 <= zlen (contents b) -> peek_int8 b = Ok (be_int 1 (contents b)).
Proof.
  intros. unfold peek_int8. rewrite peek_mem_ok by (done || lia). cbn.
  unfold be_int, mem_value, be_val, i8. do 2 f_equal.
  assert (length (ztake 1 (contents b)) = 1%nat) as E by by apply (length_ztake_exact 1).
  change (Z.of_nat 1) with 1. destruct (ztake 1 (contents b)) as [|c [|]]; try done.
  by destruct arch_little_endian.
Qed.

(** Reading back what was written, in front of any other bytes. *)
Lemma be_int_be_bytes n x d :
  (0 < n)%nat -> be_int n (be_bytes n x ++ d) = swrap (8 * Z.of_nat n) x.
Proof.
  intros Hn. unfold be_int.
  rewrite ztake_app_le by (unfold zlen; rewrite length_be_bytes; lia).
  rewrite ztake_ge by (unfold zlen; rewrite length_be_bytes; lia).
  rewrite be_val_be_bytes. apply swrap_uwrap. lia.
Qed.

End NetBuffer_lemmas.

Section Read_write.
Context `{Arch}.

(** Write [x] to an empty buffer, append [d], read an integer back. *)
Definition write_read (app : Z -> ByteBuffer -> outcome ByteBuffer)
    (rd : ByteBuffer -> outcome (Z * ByteBuffer)) (x : Z) (d : bytes) (b : ByteBuffer)
    : outcome (Z * ByteBuffer) :=
  b ← app x b; '(_, b) ← append d b; rd b.

Lemma write_read_ok n app rd pk x d b :
  (0 < n)%nat ->
  (forall x b, wf b -> Z.of_nat n <= room b -> exists b', app x b = Ok b' /\ wf b' /\
     contents b' = contents b ++ be_bytes n x /\ max_size_ b' = max_size_ b /\
     writer_index_ b' <= writer_index_ b + Z.of_nat n) ->
  (forall b, wf b -> Z.of_nat n <= zlen (contents b) -> pk b = Ok (be_int n (contents b))) ->
  (forall b, rd b = (r ← pk b; b ← has_read (Z.of_nat n) b; Ok (r, b))) ->
  wf b -> contents b = [] -> unlimited b = true ->
  writer_index_ b + Z.of_nat n + zlen d <= vec_max_size ->
  - 2 ^ (8 * Z.of_nat n - 1) <= x < 2 ^ (8 * Z.of_nat n - 1) ->
  exists b', write_read app rd x d b = Ok (x, b') /\ wf b' /\ contents b' = d.
Proof.
  intros Hn Happ Hpk Hrd Hwf Hc Hu Hmem Hx. unfold write_read.
  pose proof (zlen_nonneg d).
  assert (forall b', max_size_ b' = max_size_ b -> room b' = vec_max_size - writer_index_ b')
    as Hroom by (intros b' Hm; unfold room, unlimited in *; by rewrite Hm, Hu).
  destruct (Happ x b Hwf) as (b1 & -> & Hwf1 & Hc1 & Hm1 & Hw1);
    [rewrite Hroom by done; lia|]. cbn.
  rewrite Hc in Hc1. cbn in Hc1.
  destruct (append_ok d b1 Hwf1) as (b2 & -> & Hwf2 & Hc2 & Hm2 & _);
    [rewrite Hroom by done; lia|].
  cbn. rewrite Hc1 in Hc2. assert (zlen (be_bytes n x) = Z.of_nat n) as Hlen
    by (unfold zlen; by rewrite length_be_bytes).
  rewrite Hrd, Hpk; [|done | rewrite Hc2, zlen_app, Hlen; lia].
  cbn. destruct (has_read_ok (Z.of_nat n) b2 Hwf2) as (b3 & -> & Hwf3 & Hc3 & _); [lia|].
  cbn. exists b3. rewrite Hc2, be_int_be_bytes, swrap_small by (done || lia).
  split_and!; try done.
  rewrite Hc3, Hc2, zdrop_app_ge by lia.
  replace (Z.of_nat n - zlen _) with 0 by lia. done.
Qed.

End Read_write.

(** A read into a growable buffer appends exactly the bytes received, or the
    storage cannot grow. *)
Lemma read_fd_grows readv b data :
  wf b -> unlimited b = true -> readv_ok readv ->
  readv (read_iov (size b - writer_index_ b)) = inr data ->
  (exists b', read_fd readv b = Ok (zlen data, None, b') /\ wf b' /\
    contents b' = contents b ++ data /\ max_size_ b' = max_size_ b) \/
  (read_fd readv b = Fault length_error /\ vec_max_size < size b + zlen data).
Proof.
  intros Hwf Hu Hok Hread. unfold read_fd. autorewrite with buffer. cbn.
  pose proof Hwf as (Hi & Hs & Hm & Hl). pose proof (zlen_nonneg data).
  assert (limit b = size b) as Hlim by (unfold limit; by rewrite Hu).
  rewrite Hlim, Hread. set (w := size b - writer_index_ b) in *.
  assert (zlen data <= foldr Z.add 0 (read_iov w)) as Hcap.
  { apply Hok; [|done]. unfold read_iov. case_match; repeat constructor; unfold kExtraBuf; lia. }
  rewrite (defined_true (zlen data <=? _)) by (apply Z.leb_le; lia). cbn.
  unfold mem_write, defined. rewrite zlen_ztake. zdecide. cbn.
  destruct (memwrite_split (writer_index_ b) (ztake w data) (buffer_ b))
    as (Hlen & Ht & Hsl); [lia | rewrite zlen_ztake; unfold size in *; lia |].
  set (b1 := set_storage _ b).
  assert (size b1 = size b) as Hsz by (unfold size; cbn; exact Hlen).
  assert (wf b1) as Hwf1.
  { unfold wf. rewrite Hsz. done. }
  assert (contents b1 = contents b) as Hc1.
  { apply contents_storage; [done | unfold size in *; lia | done]. }
  assert (limit b1 = size b) as Hlim1 by (unfold limit, unlimited in *; cbn; by rewrite Hu, Hsz).
  destruct (zlen data <=? w) eqn:E; zbool.
  - destruct (has_written_ok (zlen data) b1) as (b2 & -> & Hwf2 & Hm2 & _ & Hc2 & _);
      [done | lia | cbn; lia.. |].
    left. cbn. exists b2. split_and!; try done. rewrite Hc2, Hc1. f_equal. cbn.
    rewrite (ztake_ge w data) in Hsl |- * by lia. exact Hsl.
  - destruct (has_written_ok w b1) as (b2 & -> & Hwf2 & Hm2 & Hb2 & Hc2 & Hw2);
      [done | lia | cbn; lia.. |].
    assert (unlimited b2 = true) as Hu2 by (unfold unlimited in *; by rewrite Hm2).
    assert (writer_index_ b2 = size b) as Hw2' by (rewrite Hw2; cbn; lia).
    assert (zlen (zdrop w data) <= kExtraBuf) as Hextra.
    { rewrite zlen_zdrop. unfold read_iov in Hcap. case_match; cbn in Hcap; unfold kExtraBuf in *; lia. }
    cbn. destruct (decide (zlen (zdrop w data) <= room b2)) as [Hroom|Hroom].
    + destruct (append_ok (zdrop w data) b2 Hwf2 Hroom) as (b3 & -> & Hwf3 & Hc3 & Hm3 & _).
      left. cbn. exists b3. split_and!; [done | done | | by rewrite Hm3, Hm2].
      rewrite Hc3, Hc2, Hc1, <- app_assoc. f_equal. cbn.
      rewrite zlen_ztake, Z.min_l, Z.max_r in Hsl by lia. rewrite Hsl. apply ztake_zdrop.
    + right. rewrite append_oom; [| done | done | unfold kExtraBuf, vec_max_size, kInt64Max in *; lia].
      split; [done|]. unfold room in Hroom. rewrite Hu2, zlen_zdrop in Hroom. lia.
Qed.

Lemma read_fd_ok readv b data :
  wf b -> unlimited b = true -> readv_ok readv ->
  readv (read_iov (size b - writer_index_ b)) = inr data ->
  size b + zlen data <= vec_max_size ->
  exists b', read_fd readv b = Ok (zlen data, None, b') /\ wf b' /\
    contents b' = contents b ++ data /\ max_size_ b' = max_size_ b.
Proof.
  intros Hwf Hu Hok Hread Hmem. destruct (read_fd_grows readv b data) as [?|[_ ?]]; [done.. | lia].
Qed.

(** On a fixed-length buffer the bytes beyond the limit are dropped: [append]
    refuses them, its result is ignored, and the call still counts them. *)
Lemma read_fd_fixed_drops readv b data :
  wf b -> unlimited b = false -> u64 (max_size_ b) <= size b -> readv_ok readv ->
  readv (read_iov (u64 (max_size_ b) - writer_index_ b)) = inr data ->
  u64 (max_size_ b) - writer_index_ b < zlen data ->
  exists b', read_fd readv b = Ok (zlen data, None, b') /\ wf b' /\
    contents b' = contents b ++ ztake (u64 (max_size_ b) - writer_index_ b) data.
Proof.
  intros Hwf Hu Hfull Hok Hread Hover. unfold read_fd. autorewrite with buffer. cbn.
  pose proof Hwf as (Hi & Hs & Hm & Hl). specialize (Hl Hu).
  assert (limit b = u64 (max_size_ b)) as Hlim by (unfold limit; by rewrite Hu).
  rewrite Hlim, Hread. set (w := u64 (max_size_ b) - writer_index_ b) in *.
  assert (zlen data <= foldr Z.add 0 (read_iov w)) as Hcap.
  { apply Hok; [|done]. unfold read_iov. case_match; repeat constructor; unfold kExtraBuf; lia. }
  rewrite (defined_true (zlen data <=? _)) by (apply Z.leb_le; lia). cbn.
  unfold mem_write, defined. rewrite zlen_ztake. zdecide. cbn.
  destruct (memwrite_split (writer_index_ b) (ztake w data) (buffer_ b))
    as (Hlen & Ht & Hsl); [lia | rewrite zlen_ztake; unfold size in *; lia |].
  set (b1 := set_storage _ b).
  assert (size b1 = size b) as Hsz by (unfold size; cbn; exact Hlen).
  assert (wf b1) as Hwf1 by (unfold wf; rewrite Hsz; done).
  assert (contents b1 = contents b) as Hc1.
  { apply contents_storage; [done | unfold size in *; lia | done]. }
  destruct (has_written_ok w b1) as (b2 & -> & Hwf2 & Hm2 & Hb2 & Hc2 & Hw2);
    [done | lia | cbn; lia | cbn; unfold limit, unlimited in *; cbn; rewrite Hu; lia |].
  cbn. rewrite append_refused; [| done | unfold unlimited in *; by rewrite Hm2 |].
  2: { rewrite Hm2, Hw2, zlen_zdrop. cbn. lia. }
  cbn. exists b2. split_and!; try done. rewrite Hc2, Hc1. f_equal. cbn.
  rewrite zlen_ztake, Z.min_l, Z.max_r in Hsl by lia. exact Hsl.
Qed.

(** A fixed-length buffer that was shrunk still offers [max_size_] bytes to
    [readv], which then writes behind the storage. *)
Example read_fd_after_shrink :
  (b ← make 8 kInitialSize; b ← shrink b; read_fd (fun _ => inr (txt "data")) b)
  = Fault (Undefined "write outside the storage").
Proof. reflexivity. Qed.

(** ** Properties *)

(**  Integers survive the wire format at every width: on a host of either
    endianness, a signed integer appended to an empty growable buffer and
    followed by any bytes is read back unchanged by [read_int*], which leaves
    exactly those bytes. *)
Theorem int_roundtrip `{Arch} (x : Z) (d : bytes) (b : ByteBuffer) :
  wf b -> contents b = [] -> unlimited b = true ->
  writer_index_ b + 8 + zlen d <= vec_max_size ->
  (- 2 ^ 63 <= x < 2 ^ 63 -> exists b',
     write_read append_int64 read_int64 x d b = Ok (x, b') /\ wf b' /\ contents b' = d) /\
  (- 2 ^ 31 <= x < 2 ^ 31 -> exists b',
     write_read append_int32 read_int32 x d b = Ok (x, b') /\ wf b' /\ contents b' = d) /\
  (- 2 ^ 15 <= x < 2 ^ 15 -> exists b',
     write_read append_int16 read_int16 x d b = Ok (x, b') /\ wf b' /\ contents b' = d) /\
  (- 2 ^ 7 <= x < 2 ^ 7 -> exists b',
     write_read append_int8 read_int8 x d b = Ok (x, b') /\ wf b' /\ contents b' = d).
Proof.
  intros Hwf Hc Hu Hmem. split_and!; intros Hx.
  - apply (write_read_ok 8 append_int64 read_int64 peek_int64);
      eauto using append_int64_ok, peek_int64_ok; lia.
  - apply (write_read_ok 4 append_int32 read_int32 peek_int32);
      eauto using append_int32_ok, peek_int32_ok; lia.
  - apply (write_read_ok 2 append_int16 read_int16 peek_int16);
      eauto using append_int16_ok, peek_int16_ok; lia.
  - apply (write_read_ok 1 append_int8 read_int8 peek_int8);
      eauto using append_int8_ok, peek_int8_ok; lia.
Qed.

Lemma int_roundtrip_witness :
  let _ : Arch := {| arch_little_endian := true |} in
  exists b', write_read append_int32 read_int32 (-559038737) (txt "tail")
    (mkBuffer kUnLimitSize 0 0 []) = Ok (-559038737, b') /\ wf b' /\ contents b' = txt "tail".
Proof.
  intros A.
  refine (proj1 (proj2 (int_roundtrip (-559038737) (txt "tail")
    (mkBuffer kUnLimitSize 0 0 []) _ _ _ _)) _).
  - vm_compute; intuition congruence.
  - reflexivity.
  - reflexivity.
  - vm_compute; congruence.
  - lia.
Defined.

(**  [read_fd] on the growable buffer of a connection loses nothing: if
    [readv] delivers [data], of whatever length the two-part vector allows, the
    call returns that length, reports no error, and the readable bytes grow by
    exactly [data]. *)
Theorem read_fd_appends (readv : list Z -> Z + bytes) (b : ByteBuffer) (data : bytes) :
  wf b -> unlimited b = true -> readv_ok readv ->
  readv (read_iov (size b - writer_index_ b)) = inr data ->
  size b + zlen data <= vec_max_size ->
  exists b', read_fd readv b = Ok (zlen data, None, b') /\ wf b' /\
    contents b' = contents b ++ data /\ max_size_ b' = max_size_ b.
Proof. apply read_fd_ok. Qed.

Lemma read_fd_appends_witness :
  let readv iov := inr (ztake (foldr Z.add 0 iov) (txt "a long answer")) in
  exists b', read_fd readv (mkBuffer kUnLimitSize 0 2 (txt "ok..")) =
    Ok (13, None, b') /\ contents b' = txt "oka long answer".
Proof.
  intros readv.
  destruct (read_fd_appends readv (mkBuffer kUnLimitSize 0 2 (txt "ok.."))
    (txt "a long answer")) as (b' & H1 & _ & H2 & _).
  - vm_compute; intuition congruence.
  - reflexivity.
  - intros iov data Hiov E. injection E as <-. rewrite zlen_ztake.
    assert (0 <= foldr Z.add 0 iov); [|lia].
    clear -Hiov. induction Hiov; simpl; lia.
  - reflexivity.
  - vm_compute; congruence.
  - exists b'. split; [exact H1 | exact H2].
Defined.
