(* ===== verification/Crc32c.v ===== *)
(** * Crc32c (include/Crc32c.h, src/Crc32c.cc)

    The two table-driven checksums, with their tables as the source lists
    them.  Both are proved equal to the bit-at-a-time CRC with the reflected
    polynomial 0xEDB88320, and the checksum is proved to detect every burst
    error of up to 32 bits. *)

From S2P Require Import Prelude.

(** ** Definitions *)

Definition crc32_table16 : list Z :=
  [0x00000000; 0x1db71064; 0x3b6e20c8; 0x26d930ac;
   0x76dc4190; 0x6b6b51f4; 0x4db26158; 0x5005713c;
   0xedb88320; 0xf00f9344; 0xd6d6a3e8; 0xcb61b38c;
   0x9b64c2b0; 0x86d3d2d4; 0xa00ae278; 0xbdbdf21c].

Definition crc32_table256 : list Z :=
  [0x00000000; 0x77073096; 0xee0e612c; 0x990951ba;
   0x076dc419; 0x706af48f; 0xe963a535; 0x9e6495a3;
   0x0edb8832; 0x79dcb8a4; 0xe0d5e91e; 0x97d2d988;
   0x09b64c2b; 0x7eb17cbd; 0xe7b82d07; 0x90bf1d91;
   0x1db71064; 0x6ab020f2; 0xf3b97148; 0x84be41de;
   0x1adad47d; 0x6ddde4eb; 0xf4d4b551; 0x83d385c7;
   0x136c9856; 0x646ba8c0; 0xfd62f97a; 0x8a65c9ec;
   0x14015c4f; 0x63066cd9; 0xfa0f3d63; 0x8d080df5;
   0x3b6e20c8; 0x4c69105e; 0xd56041e4; 0xa2677172;
   0x3c03e4d1; 0x4b04d447; 0xd20d85fd; 0xa50ab56b;
   0x35b5a8fa; 0x42b2986c; 0xdbbbc9d6; 0xacbcf940;
   0x32d86ce3; 0x45df5c75; 0xdcd60dcf; 0xabd13d59;
   0x26d930ac; 0x51de003a; 0xc8d75180; 0xbfd06116;
   0x21b4f4b5; 0x56b3c423; 0xcfba9599; 0xb8bda50f;
   0x2802b89e; 0x5f058808; 0xc60cd9b2; 0xb10be924;
   0x2f6f7c87; 0x58684c11; 0xc1611dab; 0xb6662d3d;
   0x76dc4190; 0x01db7106; 0x98d220bc; 0xefd5102a;
   0x71b18589; 0x06b6b51f; 0x9fbfe4a5; 0xe8b8d433;
   0x7807c9a2; 0x0f00f934; 0x9609a88e; 0xe10e9818;
   0x7f6a0dbb; 0x086d3d2d; 0x91646c97; 0xe6635c01;
   0x6b6b51f4; 0x1c6c6162; 0x856530d8; 0xf262004e;
   0x6c0695ed; 0x1b01a57b; 0x8208f4c1; 0xf50fc457;
   0x65b0d9c6; 0x12b7e950; 0x8bbeb8ea; 0xfcb9887c;
   0x62dd1ddf; 0x15da2d49; 0x8cd37cf3; 0xfbd44c65;
   0x4db26158; 0x3ab551ce; 0xa3bc0074; 0xd4bb30e2;
   0x4adfa541; 0x3dd895d7; 0xa4d1c46d; 0xd3d6f4fb;
   0x4369e96a; 0x346ed9fc; 0xad678846; 0xda60b8d0;
   0x44042d73; 0x33031de5; 0xaa0a4c5f; 0xdd0d7cc9;
   0x5005713c; 0x270241aa; 0xbe0b1010; 0xc90c2086;
   0x5768b525; 0x206f85b3; 0xb966d409; 0xce61e49f;
   0x5edef90e; 0x29d9c998; 0xb0d09822; 0xc7d7a8b4;
   0x59b33d17; 0x2eb40d81; 0xb7bd5c3b; 0xc0ba6cad;
   0xedb88320; 0x9abfb3b6; 0x03b6e20c; 0x74b1d29a;
   0xead54739; 0x9dd277af; 0x04db2615; 0x73dc1683;
   0xe3630b12; 0x94643b84; 0x0d6d6a3e; 0x7a6a5aa8;
   0xe40ecf0b; 0x9309ff9d; 0x0a00ae27; 0x7d079eb1;
   0xf00f9344; 0x8708a3d2; 0x1e01f268; 0x6906c2fe;
   0xf762575d; 0x806567cb; 0x196c3671; 0x6e6b06e7;
   0xfed41b76; 0x89d32be0; 0x10da7a5a; 0x67dd4acc;
   0xf9b9df6f; 0x8ebeeff9; 0x17b7be43; 0x60b08ed5;
   0xd6d6a3e8; 0xa1d1937e; 0x38d8c2c4; 0x4fdff252;
   0xd1bb67f1; 0xa6bc5767; 0x3fb506dd; 0x48b2364b;
   0xd80d2bda; 0xaf0a1b4c; 0x36034af6; 0x41047a60;
   0xdf60efc3; 0xa867df55; 0x316e8eef; 0x4669be79;
   0xcb61b38c; 0xbc66831a; 0x256fd2a0; 0x5268e236;
   0xcc0c7795; 0xbb0b4703; 0x220216b9; 0x5505262f;
   0xc5ba3bbe; 0xb2bd0b28; 0x2bb45a92; 0x5cb36a04;
   0xc2d7ffa7; 0xb5d0cf31; 0x2cd99e8b; 0x5bdeae1d;
   0x9b64c2b0; 0xec63f226; 0x756aa39c; 0x026d930a;
   0x9c0906a9; 0xeb0e363f; 0x72076785; 0x05005713;
   0x95bf4a82; 0xe2b87a14; 0x7bb12bae; 0x0cb61b38;
   0x92d28e9b; 0xe5d5be0d; 0x7cdcefb7; 0x0bdbdf21;
   0x86d3d2d4; 0xf1d4e242; 0x68ddb3f8; 0x1fda836e;
   0x81be16cd; 0xf6b9265b; 0x6fb077e1; 0x18b74777;
   0x88085ae6; 0xff0f6a70; 0x66063bca; 0x11010b5c;
   0x8f659eff; 0xf862ae69; 0x616bffd3; 0x166ccf45;
   0xa00ae278; 0xd70dd2ee; 0x4e048354; 0x3903b3c2;
   0xa7672661; 0xd06016f7; 0x4969474d; 0x3e6e77db;
   0xaed16a4a; 0xd9d65adc; 0x40df0b66; 0x37d83bf0;
   0xa9bcae53; 0xdebb9ec5; 0x47b2cf7f; 0x30b5ffe9;
   0xbdbdf21c; 0xcabac28a; 0x53b39330; 0x24b4a3a6;
   0xbad03605; 0xcdd70693; 0x54de5729; 0x23d967bf;
   0xb3667a2e; 0xc4614ab8; 0x5d681b02; 0x2a6f2b94;
   0xb40bbe37; 0xc30c8ea1; 0x5a05df1b; 0x2d02ef8d].

(** An index into a table; the code masks it to the table's size. *)
Definition tbl (t : list Z) (i : Z) : Z := nth (Z.to_nat i) t 0.

(** The loop body of [crc32_short], [c] being a signed [char]. *)
Definition crc32_short_step (crc : Z) (b : byte) : Z :=
  let c := b2sz b in
  let crc := Z.lxor (tbl crc32_table16 (Z.land (Z.lxor crc (u32 (Z.land c 0xf))) 0xf))
                    (Z.shiftr crc 4) in
  Z.lxor (tbl crc32_table16 (Z.land (Z.lxor crc (u32 (Z.shiftr c 4))) 0xf))
         (Z.shiftr crc 4).

Definition crc32_short (buff : bytes) : Z :=
  Z.lxor (foldl crc32_short_step 0xffffffff buff) 0xffffffff.

(** The loop body of [crc32_long] and [crc32_update]. *)
Definition crc32_long_step (crc : Z) (b : byte) : Z :=
  Z.lxor (tbl crc32_table256 (Z.land (Z.lxor crc (u32 (b2sz b))) 0xff)) (Z.shiftr crc 8).

Definition crc32_long (buff : bytes) : Z :=
  Z.lxor (foldl crc32_long_step 0xffffffff buff) 0xffffffff.

Definition crc32_update (crc : Z) (buff : bytes) : Z := foldl crc32_long_step crc buff.

(** ** Reference: one bit at a time *)

Definition poly : Z := 0xEDB88320.

Definition bitstep (crc : Z) : Z :=
  if Z.odd crc then Z.lxor (Z.shiftr crc 1) poly else Z.shiftr crc 1.

Fixpoint bitsteps (n : nat) (crc : Z) : Z :=
  match n with O => crc | S n => bitsteps n (bitstep crc) end.

Definition ref_byte (crc : Z) (b : byte) : Z := bitsteps 8 (Z.lxor crc (b2z b)).

Definition crc32_ref (buff : bytes) : Z :=
  Z.lxor (foldl ref_byte 0xffffffff buff) 0xffffffff.

(** ** Lemmas *)

Lemma land_lxor_l a b m : Z.land (Z.lxor a b) m = Z.lxor (Z.land a m) (Z.land b m).
Proof.
  apply Z.bits_inj'. intros i Hi. rewrite !Z.land_spec, !Z.lxor_spec, !Z.land_spec.
  by destruct (Z.testbit a i), (Z.testbit b i), (Z.testbit m i).
Qed.

Lemma lxor_range n a b :
  0 <= n -> 0 <= a < 2 ^ n -> 0 <= b < 2 ^ n -> 0 <= Z.lxor a b < 2 ^ n.
Proof.
  intros Hn Ha Hb. split; [apply Z.lxor_nonneg; lia|].
  rewrite <- (Z.mod_small a (2 ^ n)), <- (Z.mod_small b (2 ^ n)) by lia.
  rewrite <- !Z.land_ones, <- (land_lxor_l a b) by lia.
  rewrite Z.land_ones by lia. apply Z.mod_pos_bound. lia.
Qed.

Lemma bitstep_lxor x y : bitstep (Z.lxor x y) = Z.lxor (bitstep x) (bitstep y).
Proof.
  unfold bitstep. rewrite Z.shiftr_lxor, <- !Z.bit0_odd, Z.lxor_spec.
  destruct (Z.testbit x 0), (Z.testbit y 0); simpl.
  - rewrite <- !Z.lxor_assoc, (Z.lxor_assoc (Z.shiftr x 1) poly (Z.shiftr y 1)).
    rewrite (Z.lxor_comm poly), <- Z.lxor_assoc, (Z.lxor_assoc _ poly poly).
    by rewrite Z.lxor_nilpotent, Z.lxor_0_r.
  - by rewrite !Z.lxor_assoc, (Z.lxor_comm poly).
  - by rewrite Z.lxor_assoc.
  - done.
Qed.

Lemma bitsteps_lxor n x y :
  bitsteps n (Z.lxor x y) = Z.lxor (bitsteps n x) (bitsteps n y).
Proof. revert x y. induction n; intros; simpl; [done|]. by rewrite bitstep_lxor. Qed.

Lemma bitsteps_add m n x : bitsteps (m + n) x = bitsteps n (bitsteps m x).
Proof. revert x. induction m; intros; simpl; auto. Qed.

Lemma bitsteps_shiftl n y : bitsteps n (Z.shiftl y (Z.of_nat n)) = y.
Proof.
  revert y. induction n as [|n IH]; intros y; [apply Z.shiftl_0_r|].
  cbn [bitsteps]. unfold bitstep.
  replace (Z.odd _) with false.
  2: { symmetry. rewrite <- Z.bit0_odd, Z.shiftl_spec_low; lia. }
  rewrite Z.shiftr_shiftl_l by lia.
  replace (Z.of_nat (S n) - 1) with (Z.of_nat n) by lia. apply IH.
Qed.

Lemma split_low n x :
  x = Z.lxor (Z.land x (Z.ones (Z.of_nat n)))
             (Z.shiftl (Z.shiftr x (Z.of_nat n)) (Z.of_nat n)).
Proof.
  apply Z.bits_inj'. intros i Hi. rewrite Z.lxor_spec, Z.land_spec.
  destruct (decide (i < Z.of_nat n)).
  - rewrite Z.ones_spec_low, Z.shiftl_spec_low by lia. by rewrite andb_true_r, xorb_false_r.
  - rewrite Z.ones_spec_high, Z.shiftl_spec, Z.shiftr_spec by lia.
    rewrite andb_false_r, xorb_false_l. f_equal. lia.
Qed.

(** [n] bit steps are one look-up of the low [n] bits. *)
Lemma bitsteps_table n x :
  bitsteps n x = Z.lxor (bitsteps n (Z.land x (Z.ones (Z.of_nat n))))
                        (Z.shiftr x (Z.of_nat n)).
Proof. rewrite (split_low n x) at 1. by rewrite bitsteps_lxor, bitsteps_shiftl. Qed.

(** The tables of the source hold the results of 4 and 8 steps. *)
Lemma table_spec t n :
  t = map (fun i => bitsteps n (Z.of_nat i)) (seq 0 (2 ^ n)) -> forall i,
  0 <= i < 2 ^ Z.of_nat n -> tbl t i = bitsteps n i.
Proof.
  intros -> i Hi. unfold tbl.
  assert (Z.to_nat i < 2 ^ n)%nat
    by (apply Nat2Z.inj_lt; rewrite Nat2Z.inj_pow; lia).
  erewrite nth_indep by (rewrite length_map, length_seq; done).
  rewrite map_nth, seq_nth by done. f_equal. lia.
  Unshelve. exact 0%nat.
Qed.

Lemma table16_spec i : 0 <= i < 16 -> tbl crc32_table16 i = bitsteps 4 i.
Proof. apply (table_spec _ 4). reflexivity. Qed.
Lemma table256_spec i : 0 <= i < 256 -> tbl crc32_table256 i = bitsteps 8 i.
Proof. apply (table_spec _ 8). reflexivity. Qed.

(** Sign extension of [char] does not reach the masked bits. *)
Lemma schar_low b : Z.land (u32 (b2sz b)) 255 = b2z b.
Proof. destruct b; reflexivity. Qed.
Lemma schar_nibbles b :
  Z.land (u32 (Z.land (b2sz b) 15)) 15 = Z.land (b2z b) 15 /\
  Z.land (u32 (Z.shiftr (b2sz b) 4)) 15 = Z.shiftr (b2z b) 4 /\
  Z.land (Z.shiftr (b2z b) 4) 15 = Z.shiftr (b2z b) 4 /\
  Z.shiftr (Z.shiftr (b2z b) 4) 4 = 0.
Proof. destruct b; repeat split; reflexivity. Qed.

Lemma land_ones_range n x : 0 <= n -> 0 <= Z.land x (Z.ones n) < 2 ^ n.
Proof. intros. rewrite Z.land_ones by done. apply Z.mod_pos_bound. lia. Qed.

Lemma crc32_long_step_ref crc b : crc32_long_step crc b = ref_byte crc b.
Proof.
  unfold crc32_long_step, ref_byte.
  rewrite (bitsteps_table 8). change (Z.ones (Z.of_nat 8)) with 255. change (Z.of_nat 8) with 8.
  rewrite table256_spec by (apply (land_ones_range 8); done).
  rewrite !land_lxor_l, schar_low, Z.shiftr_lxor.
  assert (Z.land (b2z b) 255 = b2z b /\ Z.shiftr (b2z b) 8 = 0) as [-> ->]
    by (destruct b; split; reflexivity).
  by rewrite Z.lxor_0_r.
Qed.

Lemma crc32_short_step_ref crc b : crc32_short_step crc b = ref_byte crc b.
Proof.
  unfold crc32_short_step, ref_byte.
  destruct (schar_nibbles b) as (E1 & E2 & E3 & E4).
  change (bitsteps 8 ?x) with (bitsteps (4 + 4) x). rewrite bitsteps_add.
  set (crc1 := Z.lxor (tbl crc32_table16 (Z.land (Z.lxor crc _) 15)) (Z.shiftr crc 4)).
  assert (bitsteps 4 (Z.lxor crc (b2z b)) = Z.lxor crc1 (Z.shiftr (b2z b) 4)) as ->.
  { rewrite bitsteps_table. change (Z.ones (Z.of_nat 4)) with 15. change (Z.of_nat 4) with 4. unfold crc1.
    rewrite table16_spec by (apply (land_ones_range 4); done).
    by rewrite !land_lxor_l, E1, Z.shiftr_lxor, Z.lxor_assoc. }
  rewrite (bitsteps_table 4). change (Z.ones (Z.of_nat 4)) with 15. change (Z.of_nat 4) with 4.
  rewrite table16_spec by (apply (land_ones_range 4); done).
  by rewrite !land_lxor_l, E2, E3, Z.shiftr_lxor, E4, Z.lxor_0_r.
Qed.

Lemma foldl_ext {A B} (f g : A -> B -> A) a l :
  (forall a b, f a b = g a b) -> foldl f a l = foldl g a l.
Proof. intros E. revert a. induction l; intros; simpl; [done|]. by rewrite E. Qed.

Lemma crc32_short_ref buff : crc32_short buff = crc32_ref buff.
Proof.
  unfold crc32_short, crc32_ref. f_equal. apply foldl_ext, crc32_short_step_ref.
Qed.
Lemma crc32_long_ref buff : crc32_long buff = crc32_ref buff.
Proof.
  unfold crc32_long, crc32_ref. f_equal. apply foldl_ext, crc32_long_step_ref.
Qed.

(** *** Words: a run of bytes is one long step *)

Lemma byte_lxor_shift b v : 0 <= v -> b2z b + 256 * v = Z.lxor (b2z b) (Z.shiftl v 8).
Proof.
  intros Hv. rewrite <- Z.add_nocarry_lxor.
  - rewrite Z.shiftl_mul_pow2 by lia. lia.
  - apply Z.bits_inj'. intros i Hi. rewrite Z.land_spec, Z.bits_0.
    destruct (decide (i < 8)); [rewrite Z.shiftl_spec_low by lia; apply andb_false_r|].
    rewrite (Z.bits_above_log2 (b2z b) i); [done | apply b2z_range |].
    pose proof (b2z_range b). destruct (decide (b2z b = 0)) as [->|]; [simpl; lia|].
    apply Z.log2_lt_pow2; [lia|]. apply Z.lt_le_trans with (2 ^ 8); [simpl; lia|].
    apply Z.pow_le_mono_r; lia.
Qed.

Lemma foldl_word s w :
  foldl ref_byte s w = bitsteps (8 * length w) (Z.lxor s (le_val w)).
Proof.
  revert s. induction w as [|b w IH]; intros s; [by rewrite Z.lxor_0_r|].
  cbn [foldl length le_val]. rewrite IH.
  replace (8 * S (length w))%nat with (8 + 8 * length w)%nat by lia.
  rewrite bitsteps_add. f_equal.
  pose proof (le_val_range w). rewrite byte_lxor_shift, <- Z.lxor_assoc by lia.
  rewrite (bitsteps_lxor 8 _ (Z.shiftl _ _)).
  by rewrite (bitsteps_shiftl 8).
Qed.

Lemma bitstep_range x : 0 <= x < 2 ^ 32 -> 0 <= bitstep x < 2 ^ 32.
Proof.
  intros Hx. assert (0 <= Z.shiftr x 1 < 2 ^ 32).
  { rewrite Z.shiftr_div_pow2 by lia. change (2 ^ 1) with 2.
    Z.div_mod_to_equations; lia. }
  unfold bitstep. destruct (Z.odd x); [|done].
  apply lxor_range; [done | done | unfold poly; lia].
Qed.

Lemma bitsteps_range n x : 0 <= x < 2 ^ 32 -> 0 <= bitsteps n x < 2 ^ 32.
Proof. revert x. induction n; intros x Hx; simpl; [done|]. by apply IHn, bitstep_range. Qed.

(** The step has no kernel on 32-bit words: the polynomial has degree 32. *)
Lemma bitstep_zero x : 0 <= x < 2 ^ 32 -> bitstep x = 0 -> x = 0.
Proof.
  intros Hx. unfold bitstep. rewrite Z.shiftr_div_pow2 by lia. change (2 ^ 1) with 2.
  pose proof (Zmod_odd x) as Hm. destruct (Z.odd x); intros E.
  - apply Z.lxor_eq in E. unfold poly in E. Z.div_mod_to_equations; lia.
  - Z.div_mod_to_equations; lia.
Qed.

Lemma bitsteps_inj n x y :
  0 <= x < 2 ^ 32 -> 0 <= y < 2 ^ 32 -> bitsteps n x = bitsteps n y -> x = y.
Proof.
  revert x y. induction n as [|n IH]; intros x y Hx Hy E; [done|].
  simpl in E. apply IH in E; try by apply bitstep_range.
  apply Z.lxor_eq. apply bitstep_zero; [by apply lxor_range|].
  rewrite bitstep_lxor, E. apply Z.lxor_nilpotent.
Qed.

Lemma b2z_range32 b : 0 <= b2z b < 2 ^ 32.
Proof. pose proof (b2z_range b). lia. Qed.

Lemma foldl_ref_range s l : 0 <= s < 2 ^ 32 -> 0 <= foldl ref_byte s l < 2 ^ 32.
Proof.
  revert s. induction l as [|b l IH]; intros s Hs; [done|].
  cbn [foldl]. apply IH, bitsteps_range, lxor_range; auto using b2z_range32. lia.
Qed.

Lemma lxor_cancel_r a b m : Z.lxor a m = Z.lxor b m -> a = b.
Proof.
  intros E. apply (f_equal (fun z => Z.lxor z m)) in E.
  by rewrite !Z.lxor_assoc, Z.lxor_nilpotent, !Z.lxor_0_r in E.
Qed.

Lemma lxor_cancel_l a b m : Z.lxor m a = Z.lxor m b -> a = b.
Proof. rewrite !(Z.lxor_comm m). apply lxor_cancel_r. Qed.

Lemma foldl_ref_inj s t l :
  0 <= s < 2 ^ 32 -> 0 <= t < 2 ^ 32 -> foldl ref_byte s l = foldl ref_byte t l -> s = t.
Proof.
  revert s t. induction l as [|b l IH]; intros s t Hs Ht E; [done|].
  cbn [foldl] in E. pose proof (b2z_range32 b).
  apply IH in E; try (apply bitsteps_range, lxor_range; auto; lia).
  apply bitsteps_inj in E; try (apply lxor_range; auto; lia).
  by apply lxor_cancel_r in E.
Qed.

Lemma crc32_ref_burst (p u v s : bytes) :
  length u = length v -> (length u <= 4)%nat -> u <> v ->
  crc32_ref (p ++ u ++ s) <> crc32_ref (p ++ v ++ s).
Proof.
  intros Hlen H4 Hne E. unfold crc32_ref in E. apply lxor_cancel_r in E.
  rewrite !foldl_app in E. set (c := foldl ref_byte _ p) in E.
  assert (0 <= c < 2 ^ 32) as Hc by (apply foldl_ref_range; lia).
  apply foldl_ref_inj in E; try (apply foldl_ref_range; done).
  rewrite !foldl_word, Hlen in E.
  assert (forall w : bytes, (length w <= 4)%nat -> 0 <= le_val w < 2 ^ 32) as Hw.
  { intros w Hl. pose proof (le_val_range w). split; [lia|].
    apply Z.lt_le_trans with (2 ^ (8 * Z.of_nat (length w))); [lia|].
    apply Z.pow_le_mono_r; lia. }
  apply bitsteps_inj in E; try (apply lxor_range; try done; apply Hw; lia).
  apply lxor_cancel_l in E. apply Hne.
  rewrite <- (le_bytes_le_val u), <- (le_bytes_le_val v). by rewrite E, Hlen.
Qed.

Lemma crc32_ref_range buff : 0 <= crc32_ref buff < 2 ^ 32.
Proof. apply lxor_range; [done | apply foldl_ref_range; lia | lia]. Qed.

(** ** Properties *)

(** C37.  The optimised checksums are the CRC they stand for: on every buffer,
    [crc32_short] (16-entry table), [crc32_long] (256-entry table) and the
    incremental [crc32_update] all compute the bit-by-bit CRC-32 with
    polynomial 0xEDB88320, and updates over two parts compose. *)
Theorem crc32_tables_correct (buff rest : bytes) (crc : Z) :
  crc32_short buff = crc32_ref buff /\
  crc32_long buff = crc32_ref buff /\
  Z.lxor (crc32_update 0xffffffff buff) 0xffffffff = crc32_ref buff /\
  crc32_update (crc32_update crc buff) rest = crc32_update crc (buff ++ rest).
Proof.
  split_and!.
  - apply crc32_short_ref.
  - apply crc32_long_ref.
  - rewrite <- crc32_long_ref. done.
  - unfold crc32_update. by rewrite foldl_app.
Qed.

(**  Burst-error detection: two buffers of equal length that differ only
    inside a window of at most four bytes never have the same checksum. *)
Theorem crc32_detects_burst (p u v s : bytes) :
  length u = length v -> (length u <= 4)%nat -> u <> v ->
  crc32_long (p ++ u ++ s) <> crc32_long (p ++ v ++ s) /\
  crc32_short (p ++ u ++ s) <> crc32_short (p ++ v ++ s).
Proof. rewrite !crc32_long_ref, !crc32_short_ref. auto using crc32_ref_burst. Qed.

Lemma crc32_detects_burst_witness :
  crc32_long (txt "an" ++ txt "nety" ++ txt "!") <> crc32_long (txt "an" ++ txt "NETY" ++ txt "!").
Proof.
  apply (crc32_detects_burst (txt "an") (txt "nety") (txt "NETY") (txt "!")).
  - reflexivity.
  - cbn. lia.
  - discriminate.
Defined.

(** The check value of the catalogue of CRCs: this is CRC-32/ISO-HDLC, not the
    Castagnoli CRC-32C (check value 0xE3069283) the class is named after. *)
Example crc32_check_value :
  crc32_long (txt "123456789") = 0xCBF43926 /\ crc32_short (txt "123456789") = 0xCBF43926.
Proof. split; reflexivity. Qed.
