(* ===== verification/StringPiece.v ===== *)
(** * StringPiece (include/strings/StringPiece.h, src/StringPiece.cc)

    A piece is the byte range it refers to; positions are [size_t] values and
    [npos] is the largest of them.  The searches keep the structure of the
    source: the standard algorithms on iterator ranges, the 256-entry look-up
    table, the downward loops that stop at index zero.  Each is proved to
    return the first or last position that satisfies its condition. *)

From S2P Require Import Prelude.

(** ** Definitions *)

Abbreviation StringPiece := (list Byte.byte).

Definition npos : Z := 2 ^ 64 - 1.

(** *** Standard algorithms on a range, results relative to its beginning *)

Fixpoint starts (s l : bytes) : bool :=
  match s, l with
  | [], _ => true
  | c :: s, d :: l => bool_decide (c = d) && starts s l
  | _ :: _, [] => false
  end.

(** [std::search]: the first occurrence of [s], else the end of the range. *)
Fixpoint std_search (l s : bytes) : Z :=
  if starts s l then 0
  else match l with [] => 0 | _ :: l => 1 + std_search l s end.

(** [std::find]: the first [c], else the end of the range. *)
Fixpoint std_find (l : bytes) (c : byte) : Z :=
  match l with
  | [] => 0
  | d :: l => if bool_decide (d = c) then 0 else 1 + std_find l c
  end.

(** [std::find_end]: the last occurrence of a nonempty [s], else the end. *)
Fixpoint find_end_from (l s : bytes) (i : Z) : option Z :=
  match l with
  | [] => None
  | _ :: l' =>
      match find_end_from l' s (i + 1) with
      | Some r => Some r
      | None => if starts s l then Some i else None
      end
  end.
Definition std_find_end (l s : bytes) : Z := default (zlen l) (find_end_from l s 0).

(** [memcmp] on [n] bytes of each argument, by the sign of its result. *)
Fixpoint memcmp (n : nat) (a b : bytes) : Z :=
  match n, a, b with
  | S n, c :: a, d :: b =>
      if b2z c <? b2z d then -1 else if b2z d <? b2z c then 1 else memcmp n a b
  | _, _, _ => 0
  end.

(** *** Internal functions of src/StringPiece.cc *)

(** [bool table[UCHAR_MAX + 1]], and the loop that fills it. *)
Definition build_lookup_table (characters_wanted : StringPiece) : list bool :=
  foldl (fun table c => <[Z.to_nat (b2z c) := true]> table)
    (replicate 256 false) characters_wanted.
Definition lookup_table (table : list bool) (c : byte) : bool :=
  nth (Z.to_nat (b2z c)) table false.

Definition copy_to_string (self : StringPiece) (target : bytes) : bytes :=
  if zlen self =? 0 then [] else self.
Definition append_to_string (self : StringPiece) (target : bytes) : bytes :=
  if negb (zlen self =? 0) then target ++ self else target.

(** [copy]: the bytes copied to [target]; [self.size() - pos] may wrap. *)
Definition copy (self : StringPiece) (n pos : Z) : outcome bytes :=
  let ret := Z.min (u64 (zlen self - pos)) n in
  defined (pos + ret <=? zlen self) "copy: memcpy";;
  Ok (zslice pos ret self).

Definition find (self s : StringPiece) (pos : Z) : Z :=
  if zlen self <? pos then npos
  else
    let xpos := pos + std_search (zdrop pos self) s in
    if u64 (xpos + zlen s) <=? zlen self then xpos else npos.

Definition find_char (self : StringPiece) (c : byte) (pos : Z) : Z :=
  if zlen self <=? pos then npos
  else
    let result := pos + std_find (zdrop pos self) c in
    if negb (result =? zlen self) then result else npos.

Definition rfind (self s : StringPiece) (pos : Z) : Z :=
  if zlen self <? zlen s then npos
  else if zlen s =? 0 then Z.min (zlen self) pos
  else
    let last := Z.min (zlen self - zlen s) pos + zlen s in
    let result := std_find_end (ztake last self) s in
    if negb (result =? last) then result else npos.

(** The loop [for (i = from; ; --i) { if (p(self[i])) return i; if (i == 0) break; }]. *)
Fixpoint down_loop (p : byte -> bool) (self : StringPiece) (i : nat) : Z :=
  if p (nth i self Byte.x00) then Z.of_nat i
  else match i with O => npos | S i => down_loop p self i end.

(** The loop [for (i = pos; i < size; ++i) if (p(self[i])) return i;], on the
    bytes from [i] on. *)
Fixpoint up_loop (p : byte -> bool) (rest : StringPiece) (i : Z) : Z :=
  match rest with
  | [] => npos
  | c :: rest => if p c then i else up_loop p rest (i + 1)
  end.

Definition rfind_char (self : StringPiece) (c : byte) (pos : Z) : Z :=
  if zlen self =? 0 then npos
  else down_loop (fun d => bool_decide (d = c)) self
         (Z.to_nat (Z.min pos (zlen self - 1))).

Definition find_first_of (self s : StringPiece) (pos : Z) : Z :=
  if (zlen self =? 0) || (zlen s =? 0) then npos
  else if zlen s =? 1 then find_char self (nth 0 s Byte.x00) pos
  else
    let lookup := build_lookup_table s in
    up_loop (lookup_table lookup) (zdrop pos self) pos.

Definition find_first_not_of_char (self : StringPiece) (c : byte) (pos : Z) : Z :=
  if zlen self =? 0 then npos
  else up_loop (fun d => negb (bool_decide (d = c))) (zdrop pos self) pos.

Definition find_first_not_of (self s : StringPiece) (pos : Z) : Z :=
  if zlen self =? 0 then npos
  else if zlen s =? 0 then 0
  else if zlen s =? 1 then find_first_not_of_char self (nth 0 s Byte.x00) pos
  else
    let lookup := build_lookup_table s in
    up_loop (fun d => negb (lookup_table lookup d)) (zdrop pos self) pos.

Definition find_last_of (self s : StringPiece) (pos : Z) : Z :=
  if (zlen self =? 0) || (zlen s =? 0) then npos
  else if zlen s =? 1 then rfind_char self (nth 0 s Byte.x00) pos
  else
    let lookup := build_lookup_table s in
    down_loop (lookup_table lookup) self (Z.to_nat (Z.min pos (zlen self - 1))).

Definition find_last_not_of_char (self : StringPiece) (c : byte) (pos : Z) : Z :=
  if zlen self =? 0 then npos
  else down_loop (fun d => negb (bool_decide (d = c))) self
         (Z.to_nat (Z.min pos (zlen self - 1))).

Definition find_last_not_of (self s : StringPiece) (pos : Z) : Z :=
  if zlen self =? 0 then npos
  else
    let i := Z.min pos (zlen self - 1) in
    if zlen s =? 0 then i
    else if zlen s =? 1 then find_last_not_of_char self (nth 0 s Byte.x00) pos
    else
      let lookup := build_lookup_table s in
      down_loop (fun d => negb (lookup_table lookup d)) self (Z.to_nat i).

Definition substr (self : StringPiece) (pos n : Z) : StringPiece :=
  let pos := if zlen self <? pos then zlen self else pos in
  let n := if u64 (zlen self - pos) <? n then u64 (zlen self - pos) else n in
  zslice pos n self.

(** *** Methods of the class *)

(** The constructor from a C string: up to the terminator. *)
Fixpoint of_cstr (str : bytes) : StringPiece :=
  match str with
  | [] => []
  | c :: str => if bool_decide (c = Byte.x00) then [] else c :: of_cstr str
  end.

Definition at_ (self : StringPiece) (i : Z) : outcome byte :=
  check (i <? zlen self) "operator[]";;
  Ok (nth (Z.to_nat i) self Byte.x00).
Definition front (self : StringPiece) : outcome byte :=
  check (negb (0 =? zlen self)) "front";; Ok (nth 0 self Byte.x00).
Definition back (self : StringPiece) : outcome byte :=
  check (negb (0 =? zlen self)) "back";;
  Ok (nth (Z.to_nat (zlen self - 1)) self Byte.x00).

Definition remove_prefix (n : Z) (self : StringPiece) : outcome StringPiece :=
  check (n <=? zlen self) "remove_prefix";; Ok (zdrop n self).
Definition remove_suffix (n : Z) (self : StringPiece) : outcome StringPiece :=
  check (n <=? zlen self) "remove_suffix";; Ok (ztake (zlen self - n) self).

Definition starts_with (self x : StringPiece) : bool :=
  (zlen x <=? zlen self) && (memcmp (length x) self x =? 0).
Definition ends_with (self x : StringPiece) : bool :=
  (zlen x <=? zlen self) &&
  (memcmp (length x) (zdrop (zlen self - zlen x) self) x =? 0).

Definition compare (self x : StringPiece) : Z :=
  let r := memcmp (Nat.min (length self) (length x)) self x in
  if r =? 0 then
    if zlen self <? zlen x then -1 else if zlen x <? zlen self then 1 else r
  else r.

Definition equals (self x : StringPiece) : bool :=
  (zlen self =? zlen x) && (memcmp (length self) self x =? 0).

(** [STRINGPIECE_BINARY_PREDICATE(<, <)] and its companions. *)
Definition less (self x : StringPiece) : bool :=
  let r := memcmp (Nat.min (length self) (length x)) self x in
  (r <? 0) || ((r =? 0) && (zlen self <? zlen x)).
Definition less_equal (self x : StringPiece) : bool :=
  let r := memcmp (Nat.min (length self) (length x)) self x in
  (r <? 0) || ((r =? 0) && (zlen self <=? zlen x)).
Definition greater (self x : StringPiece) : bool :=
  let r := memcmp (Nat.min (length self) (length x)) self x in
  (0 <? r) || ((r =? 0) && (zlen x <? zlen self)).
Definition greater_equal (self x : StringPiece) : bool :=
  let r := memcmp (Nat.min (length self) (length x)) self x in
  (0 <? r) || ((r =? 0) && (zlen x <=? zlen self)).

(** [HASH_STRING_PIECE]: signed characters, [size_t] arithmetic. *)
Definition hash (self : StringPiece) : Z :=
  foldl (fun result i => u64 (result * 131 + b2sz i)) 0 self.

(** ** Specification of the searches *)

(** A piece that can exist: its end is addressable. *)
Definition valid (self : StringPiece) : Prop := zlen self < 2 ^ 63.

Definition occurs_at (self s : StringPiece) (i : Z) : Prop :=
  0 <= i /\ i + zlen s <= zlen self /\ zslice i (zlen s) self = s.

Definition char_at (self : StringPiece) (P : byte -> Prop) (i : Z) : Prop :=
  exists c, 0 <= i /\ self !! Z.to_nat i = Some c /\ P c.

(** [r] is the first position from [pos] on, or the last position up to [pos],
    where [P] holds, and [npos] if there is none. *)
Definition first_from (P : Z -> Prop) (pos r : Z) : Prop :=
  (r = npos /\ forall i, pos <= i -> ~ P i) \/
  (pos <= r /\ r <> npos /\ P r /\ forall i, pos <= i < r -> ~ P i).
Definition last_to (P : Z -> Prop) (pos r : Z) : Prop :=
  (r = npos /\ forall i, i <= pos -> ~ P i) \/
  (r <= pos /\ r <> npos /\ P r /\ forall i, r < i <= pos -> ~ P i).

(** ** Lemmas *)

Lemma append_to_string_app s target : append_to_string s target = target ++ s.
Proof.
  unfold append_to_string. destruct (Z.eqb_spec (zlen s) 0) as [E%zlen_0_nil|]; [|done].
  rewrite E. by rewrite app_nil_r.
Qed.

Lemma starts_spec s l : starts s l = true <-> exists k, l = s ++ k.
Proof.
  revert l. induction s as [|c s IH]; intros l; simpl; [naive_solver|].
  destruct l as [|d l]; [split; [done|]; by intros [k ?]|].
  rewrite andb_true_iff, bool_decide_eq_true, IH. split.
  - intros [-> [k ->]]. by exists k.
  - intros [k [= -> ->]]. eauto.
Qed.

Lemma starts_zslice s l : starts s l = true <-> zlen s <= zlen l /\ ztake (zlen s) l = s.
Proof.
  rewrite starts_spec. split.
  - intros [k ->]. rewrite zlen_app. pose proof (zlen_nonneg k). split; [lia|].
    by rewrite ztake_app_le, ztake_ge by lia.
  - intros [_ E]. exists (zdrop (zlen s) l). by rewrite <- E at 1; rewrite ztake_zdrop.
Qed.

Lemma occurs_at_starts self s i :
  0 <= i <= zlen self -> occurs_at self s i <-> starts s (zdrop i self) = true.
Proof.
  intros Hi. rewrite starts_zslice, zlen_zdrop. unfold occurs_at, zslice.
  rewrite Z.max_r, Z.max_r by lia. conj_iff.
Qed.

(** [std_search] stops at the first occurrence, or at the end. *)
Lemma std_search_spec l s :
  (occurs_at l s (std_search l s) \/
   (std_search l s = zlen l /\ ~ occurs_at l s (zlen l))) /\
  0 <= std_search l s <= zlen l /\
  forall i, 0 <= i < std_search l s -> ~ occurs_at l s i.
Proof.
  induction l as [|c l IH]; simpl.
  - change (zlen (@nil byte)) with 0.
    destruct (starts s []) eqn:E; split_and!; try lia; try (intros; lia).
    + left. by apply occurs_at_starts.
    + right. split; [done|]. rewrite occurs_at_starts by done.
      change (zdrop 0 []) with (@nil byte). by rewrite E.
  - assert (forall i, 0 <= i -> occurs_at (c :: l) s (1 + i) <-> occurs_at l s i) as Hsh.
    { intros i Hi. unfold occurs_at, zslice. rewrite zlen_cons.
      change (c :: l) with ([c] ++ l). rewrite zdrop_app_ge by (rewrite zlen_cons, zlen_nil; lia).
      replace (1 + i - zlen [c]) with i by (rewrite zlen_cons, zlen_nil; lia).
      conj_iff. }
    pose proof (zlen_nonneg l) as Hl.
    destruct (starts s (c :: l)) eqn:E.
    + split_and!; try (rewrite zlen_cons; lia); try (intros; lia).
      left. apply occurs_at_starts; [rewrite zlen_cons; lia | done].
    + destruct IH as (IH1 & IH2 & IH3). rewrite zlen_cons. split_and!; try lia.
      * destruct IH1 as [H|[-> H]]; [left | right; split; [done|]]; rewrite Hsh; auto; lia.
      * intros i Hi. destruct (decide (i = 0)) as [->|].
        -- rewrite occurs_at_starts by (rewrite zlen_cons; lia).
           change (zdrop 0 (c :: l)) with (c :: l). by rewrite E.
        -- replace i with (1 + (i - 1)) by lia. rewrite Hsh by lia. apply IH3. lia.
Qed.

Lemma occurs_at_zdrop self s pos i :
  0 <= pos <= zlen self -> 0 <= i ->
  occurs_at (zdrop pos self) s i <-> occurs_at self s (pos + i).
Proof.
  intros Hp Hi. unfold occurs_at, zslice. rewrite zlen_zdrop, zdrop_zdrop by lia.
  rewrite (Z.add_comm i pos). pose proof (zlen_nonneg s). conj_iff.
Qed.

Lemma find_spec self s pos :
  valid self -> valid s -> 0 <= pos ->
  first_from (occurs_at self s) pos (find self s pos).
Proof.
  intros Hv Hs Hp. unfold find. destruct (zlen self <? pos) eqn:E; zbool.
  { left. split; [done|]. intros i Hi (_ & H & _). pose proof (zlen_nonneg s). lia. }
  destruct (std_search_spec (zdrop pos self) s) as (H1 & H2 & H3).
  set (r := std_search (zdrop pos self) s) in *. rewrite zlen_zdrop in H1, H2.
  unfold valid in *. pose proof (zlen_nonneg s). rewrite u64_small by lia.
  assert (forall i, pos <= i < pos + r -> ~ occurs_at self s i) as Hno.
  { intros i Hi. specialize (H3 (i - pos) ltac:(lia)).
    rewrite occurs_at_zdrop in H3 by lia. by replace (pos + (i - pos)) with i in H3 by lia. }
  destruct H1 as [H1|[H1 H1']].
  - rewrite occurs_at_zdrop in H1 by lia. pose proof H1 as (_ & ? & _). zdecide.
    right. split_and!; try done; [lia | unfold npos; lia].
  - rewrite occurs_at_zdrop in H1' by lia.
    destruct (_ <=? _) eqn:E'; zbool.
    + assert (zlen s = 0) by lia. exfalso. apply H1'. unfold occurs_at.
      replace (pos + _) with (zlen self) by lia. split_and!; try lia.
      rewrite (zlen_0_nil s) by done. done.
    + left. split; [done|]. intros i Hi Ho. pose proof Ho as (_ & ? & _).
      destruct (decide (i < pos + r)); [by eapply Hno|].
      assert (i = zlen self) by lia. lia.
Qed.

(** *** Character searches *)

Lemma zdrop_cons_lookup {A} (self rest : list A) (c : A) pos :
  0 <= pos -> zdrop pos self = c :: rest ->
  self !! Z.to_nat pos = Some c /\ zdrop (pos + 1) self = rest.
Proof.
  intros Hp E. unfold zdrop in *. split.
  - rewrite <- (Nat.add_0_r (Z.to_nat pos)), <- lookup_drop, E. done.
  - replace (Z.to_nat (pos + 1)) with (Z.to_nat pos + 1)%nat by lia.
    rewrite <- drop_drop, E. done.
Qed.

Lemma char_at_range self P i : char_at self P i -> 0 <= i < zlen self.
Proof. intros (c & ? & H & _). apply lookup_lt_Some in H. unfold zlen. lia. Qed.

Lemma char_at_lookup self P c i :
  0 <= i -> self !! Z.to_nat i = Some c -> char_at self P i <-> P c.
Proof. intros Hi E. unfold char_at. split; [|eauto]. intros (d & _ & ? & ?). congruence. Qed.

Lemma up_loop_spec p self pos :
  valid self -> 0 <= pos ->
  first_from (char_at self (fun c => p c = true)) pos (up_loop p (zdrop pos self) pos).
Proof.
  intros Hv. remember (zdrop pos self) as rest eqn:E. revert pos E.
  induction rest as [|c rest IH]; intros pos E Hp; simpl.
  - left. split; [done|]. intros i Hi Hc. apply char_at_range in Hc.
    assert (zlen (zdrop pos self) = 0) as H by by rewrite <- E.
    rewrite zlen_zdrop in H. lia.
  - symmetry in E. apply zdrop_cons_lookup in E as [Hc E]; [|done].
    assert (pos < zlen self) by (apply lookup_lt_Some in Hc; unfold zlen; lia).
    unfold valid in Hv. destruct (p c) eqn:Epc.
    + right. split_and!; [lia | unfold npos; lia | by eapply char_at_lookup | lia].
    + assert (~ char_at self (fun c => p c = true) pos) as Hn.
      { rewrite char_at_lookup by done. by rewrite Epc. }
      destruct (IH (pos + 1) (eq_sym E)) as [[-> H']|(H1 & H2 & H3 & H4)]; [lia | |].
      * left. split; [done|]. intros i Hi. destruct (decide (i = pos)) as [->|]; [done|].
        apply H'. lia.
      * right. split_and!; try done; [lia|]. intros i Hi.
        destruct (decide (i = pos)) as [->|]; [done|]. apply H4. lia.
Qed.

Lemma find_char_up_loop self c pos :
  0 <= pos ->
  find_char self c pos = up_loop (fun d => bool_decide (d = c)) (zdrop pos self) pos.
Proof.
  intros Hp. unfold find_char. destruct (zlen self <=? pos) eqn:E; zbool.
  { by rewrite zdrop_ge by lia. }
  assert (forall l i, up_loop (fun d => bool_decide (d = c)) l i =
    if negb (std_find l c =? zlen l) then i + std_find l c else npos) as H.
  { induction l as [|d l IH]; intros i; simpl; [done|].
    pose proof (zlen_nonneg l). rewrite zlen_cons. case_bool_decide.
    - zdecide. simpl. lia.
    - rewrite IH.
      replace (1 + std_find l c =? 1 + zlen l) with (std_find l c =? zlen l).
      + case_match; [lia | done].
      + destruct (Z.eqb_spec (std_find l c) (zlen l)); zdecide; done. }
  rewrite H. replace (pos + std_find _ c =? zlen self)
    with (std_find (zdrop pos self) c =? zlen (zdrop pos self)); [done|].
  rewrite zlen_zdrop.
  destruct (Z.eqb_spec (pos + std_find (zdrop pos self) c) (zlen self)); zdecide; done.
Qed.

Lemma nth_lookup_byte (self : bytes) i c :
  self !! i = Some c -> nth i self Byte.x00 = c.
Proof. intros H. apply nth_lookup_Some with (d := Byte.x00) in H. done. Qed.

Lemma lookup_zlen {A} (self : list A) i :
  Z.of_nat i < zlen self -> exists c, self !! i = Some c.
Proof. intros. apply lookup_lt_is_Some. unfold zlen in *. lia. Qed.

Lemma down_loop_spec p self i :
  valid self -> Z.of_nat i < zlen self ->
  last_to (char_at self (fun c => p c = true)) (Z.of_nat i) (down_loop p self i).
Proof.
  intros Hv. unfold valid in Hv. induction i as [|i IH]; intros Hi;
    destruct (lookup_zlen self _ Hi) as [c Hc]; simpl; rewrite (nth_lookup_byte _ _ _ Hc);
    pose proof (char_at_lookup self (fun c => p c = true) c _ (Nat2Z.is_nonneg _)
      ltac:(rewrite Nat2Z.id; exact Hc)) as Hat; destruct (p c) eqn:Ep.
  - right. split_and!; [lia | unfold npos; lia | by apply Hat | lia].
  - left. split; [done|]. intros i Hi0 H. pose proof (char_at_range _ _ _ H).
    assert (i = 0) as -> by lia. apply Hat in H. simpl in H. congruence.
  - right. split_and!; [lia | unfold npos; lia | by apply Hat | lia].
  - assert (~ char_at self (fun c => p c = true) (Z.of_nat (S i))) as Hn
      by (rewrite Hat; by rewrite Ep).
    destruct IH as [[-> H']|(H1 & H2 & H3 & H4)]; [lia | |].
    + left. split; [done|]. intros j Hj.
      destruct (decide (j = Z.of_nat (S i))) as [->|]; [done|]. apply H'. lia.
    + right. split_and!; try done; [lia|]. intros j Hj.
      destruct (decide (j = Z.of_nat (S i))) as [->|]; [done|]. apply H4. lia.
Qed.

(** The 256-entry table decides membership. *)
Lemma build_lookup_table_spec s c :
  lookup_table (build_lookup_table s) c = bool_decide (c ∈ s).
Proof.
  unfold build_lookup_table.
  assert (forall t, length t = 256%nat ->
    lookup_table (foldl (fun table c => <[Z.to_nat (b2z c) := true]> table) t s) c =
    lookup_table t c || bool_decide (c ∈ s)) as H.
  { induction s as [|d s IH]; intros t Ht; cbn [foldl].
    - rewrite bool_decide_eq_false_2 by apply not_elem_of_nil. by rewrite orb_false_r.
    - rewrite IH by by rewrite length_insert. pose proof (b2z_range d).
      assert (lookup_table (<[Z.to_nat (b2z d) := true]> t) c =
              lookup_table t c || bool_decide (c = d)) as ->.
      { unfold lookup_table. rewrite !nth_lookup.
        destruct (bool_decide_reflect (c = d)) as [E|E].
        - subst d. rewrite list_lookup_insert_eq by lia. by rewrite orb_true_r.
        - rewrite list_lookup_insert_ne; [by rewrite orb_false_r|].
          intros E'. apply E, b2z_inj. pose proof (b2z_range c). lia. }
      rewrite <- orb_assoc. f_equal.
      rewrite <- bool_decide_or. apply bool_decide_ext. by rewrite elem_of_cons. }
  rewrite H by by rewrite length_replicate.
  replace (lookup_table (replicate 256 false) c) with false; [done|].
  unfold lookup_table. by destruct c.
Qed.

Lemma first_from_iff P Q pos r :
  (forall i, P i <-> Q i) -> first_from P pos r -> first_from Q pos r.
Proof. unfold first_from. intros E. setoid_rewrite E. done. Qed.
Lemma last_to_iff P Q pos r :
  (forall i, P i <-> Q i) -> last_to P pos r -> last_to Q pos r.
Proof. unfold last_to. intros E. setoid_rewrite E. done. Qed.
Lemma char_at_iff self P Q i :
  (forall c, P c <-> Q c) -> char_at self P i <-> char_at self Q i.
Proof. unfold char_at. intros E. by setoid_rewrite E. Qed.

(** Extending the bound of a downward search past the end. *)
Lemma last_to_clamp self P pos r :
  0 < zlen self -> last_to (char_at self P) (Z.min pos (zlen self - 1)) r ->
  last_to (char_at self P) pos r.
Proof.
  intros Hs [[-> H]|(H1 & H2 & H3 & H4)].
  - left. split; [done|]. intros i Hi Hc. pose proof (char_at_range _ _ _ Hc).
    eapply H; [|done]. lia.
  - right. split_and!; try done; [lia|]. intros i Hi Hc.
    pose proof (char_at_range _ _ _ Hc). eapply H4; [|done]. lia.
Qed.

Lemma char_at_nil P i : ~ char_at [] P i.
Proof. intros (c & _ & E & _). by rewrite lookup_nil in E. Qed.

Lemma zlen_1_inv {A} (s : list A) : zlen s = 1 -> exists c, s = [c].
Proof. unfold zlen. destruct s as [|c [|]]; simpl; [lia | eauto | lia]. Qed.

Lemma find_first_of_spec self s pos :
  valid self -> 0 <= pos ->
  first_from (char_at self (fun c => c ∈ s)) pos (find_first_of self s pos).
Proof.
  intros Hv Hp. unfold find_first_of.
  destruct (zlen self =? 0) eqn:E; zbool; simpl.
  { apply zlen_0_nil in E as ->. left. split; [done|]. intros. apply char_at_nil. }
  destruct (zlen s =? 0) eqn:Es; zbool.
  { apply zlen_0_nil in Es as ->. left. split; [done|].
    intros i _ (c & _ & _ & H). by apply not_elem_of_nil in H. }
  destruct (zlen s =? 1) eqn:E1; zbool.
  - rewrite find_char_up_loop by done. apply zlen_1_inv in E1 as [d ->].
    eapply first_from_iff, up_loop_spec; [|done|done].
    intros i. apply char_at_iff. intros c.
    by rewrite bool_decide_eq_true, list_elem_of_singleton.
  - eapply first_from_iff, up_loop_spec; [|done|done]. intros i. apply char_at_iff.
    intros c. by rewrite build_lookup_table_spec, bool_decide_eq_true.
Qed.

Lemma find_first_not_of_spec self s pos :
  valid self -> 0 <= pos -> s <> [] \/ pos = 0 ->
  first_from (char_at self (fun c => c ∉ s)) pos (find_first_not_of self s pos).
Proof.
  intros Hv Hp Hs. unfold find_first_not_of.
  destruct (zlen self =? 0) eqn:E; zbool; simpl.
  { apply zlen_0_nil in E as ->. left. split; [done|]. intros. apply char_at_nil. }
  destruct (zlen s =? 0) eqn:Es; zbool.
  { apply zlen_0_nil in Es as ->. destruct Hs as [?| ->]; [done|].
    right. split_and!; [lia | done | | lia]. pose proof (zlen_nonneg self).
    destruct (lookup_zlen self 0) as [c Hc]; [lia|]. exists c. split_and!; try done.
    apply not_elem_of_nil. }
  destruct (zlen s =? 1) eqn:E1; zbool.
  - unfold find_first_not_of_char. zdecide. apply zlen_1_inv in E1 as [d ->].
    eapply first_from_iff, up_loop_spec; [|done|done].
    intros i. apply char_at_iff. intros c.
    by rewrite negb_true_iff, bool_decide_eq_false, list_elem_of_singleton.
  - eapply first_from_iff, up_loop_spec; [|done|done]. intros i. apply char_at_iff.
    intros c. by rewrite negb_true_iff, build_lookup_table_spec, bool_decide_eq_false.
Qed.

Lemma down_loop_clamp p self pos :
  valid self -> 0 < zlen self -> 0 <= pos ->
  last_to (char_at self (fun c => p c = true)) pos
    (down_loop p self (Z.to_nat (Z.min pos (zlen self - 1)))).
Proof.
  intros Hv Hl Hp. apply last_to_clamp; [done|].
  pose proof (down_loop_spec p self (Z.to_nat (Z.min pos (zlen self - 1))) Hv) as H.
  rewrite Z2Nat.id in H by lia. apply H. lia.
Qed.

Lemma find_last_of_spec self s pos :
  valid self -> 0 <= pos ->
  last_to (char_at self (fun c => c ∈ s)) pos (find_last_of self s pos).
Proof.
  intros Hv Hp. unfold find_last_of. pose proof (zlen_nonneg self).
  destruct (zlen self =? 0) eqn:E; zbool; simpl.
  { apply zlen_0_nil in E as ->. left. split; [done|]. intros. apply char_at_nil. }
  destruct (zlen s =? 0) eqn:Es; zbool.
  { apply zlen_0_nil in Es as ->. left. split; [done|].
    intros i _ (c & _ & _ & Hc). by apply not_elem_of_nil in Hc. }
  destruct (zlen s =? 1) eqn:E1; zbool.
  - unfold rfind_char. zdecide. apply zlen_1_inv in E1 as [d ->].
    eapply last_to_iff, down_loop_clamp; [|done|lia|done].
    intros i. apply char_at_iff. intros c.
    by rewrite bool_decide_eq_true, list_elem_of_singleton.
  - eapply last_to_iff, down_loop_clamp; [|done|lia|done].
    intros i. apply char_at_iff. intros c. by rewrite build_lookup_table_spec, bool_decide_eq_true.
Qed.

Lemma find_last_not_of_spec self s pos :
  valid self -> 0 <= pos ->
  last_to (char_at self (fun c => c ∉ s)) pos (find_last_not_of self s pos).
Proof.
  intros Hv Hp. unfold find_last_not_of. pose proof (zlen_nonneg self).
  destruct (zlen self =? 0) eqn:E; zbool; simpl.
  { apply zlen_0_nil in E as ->. left. split; [done|]. intros. apply char_at_nil. }
  unfold valid in Hv.
  destruct (zlen s =? 0) eqn:Es; zbool.
  { apply zlen_0_nil in Es as ->. apply last_to_clamp; [lia|].
    right. split_and!; [lia | unfold npos; lia | | lia].
    destruct (lookup_zlen self (Z.to_nat (Z.min pos (zlen self - 1)))) as [c Hc]; [lia|].
    exists c. split_and!; [lia | done | apply not_elem_of_nil]. }
  destruct (zlen s =? 1) eqn:E1; zbool.
  - unfold find_last_not_of_char. zdecide. apply zlen_1_inv in E1 as [d ->].
    eapply last_to_iff, down_loop_clamp; [|done|lia|done].
    intros i. apply char_at_iff. intros c.
    by rewrite negb_true_iff, bool_decide_eq_false, list_elem_of_singleton.
  - eapply last_to_iff, down_loop_clamp; [|done|lia|done].
    intros i. apply char_at_iff. intros c.
    by rewrite negb_true_iff, build_lookup_table_spec, bool_decide_eq_false.
Qed.

(** *** Backward search of a piece *)

Lemma occurs_at_cons c l s j :
  0 <= j -> occurs_at (c :: l) s (1 + j) <-> occurs_at l s j.
Proof.
  intros Hj. pose proof (zlen_nonneg l).
  rewrite <- (occurs_at_zdrop (c :: l) s 1 j) by (rewrite ?zlen_cons; lia). done.
Qed.

Lemma find_end_from_spec l s i :
  s <> [] ->
  match find_end_from l s i with
  | Some r => i <= r /\ occurs_at l s (r - i) /\ forall j, r - i < j -> ~ occurs_at l s j
  | None => forall j, ~ occurs_at l s j
  end.
Proof.
  intros Hs. assert (0 < zlen s).
  { pose proof (zlen_nonneg s). destruct (decide (zlen s = 0)); [|lia].
    by rewrite (zlen_0_nil s) in Hs. }
  revert i. induction l as [|c l IH]; intros i; cbn [find_end_from].
  { intros j (? & E & _). change (zlen (@nil byte)) with 0 in E. lia. }
  specialize (IH (i + 1)). destruct (find_end_from l s (i + 1)) as [r|].
  - destruct IH as (H1 & H2 & H3). split_and!; [lia | |].
    + replace (r - i) with (1 + (r - (i + 1))) by lia. apply occurs_at_cons; [lia | done].
    + intros j Hj. replace j with (1 + (j - 1)) by lia.
      rewrite occurs_at_cons by lia. apply H3. lia.
  - pose proof (zlen_nonneg l).
    assert (forall j, 0 < j -> ~ occurs_at (c :: l) s j) as Hn.
    { intros j Hj. replace j with (1 + (j - 1)) by lia. rewrite occurs_at_cons by lia. apply IH. }
    destruct (starts s (c :: l)) eqn:E.
    + rewrite Z.sub_diag. split_and!; [lia | | auto].
      apply occurs_at_starts; [rewrite zlen_cons; lia | done].
    + intros j Ho. destruct (decide (j = 0)) as [->|]; [|eapply (Hn j); [destruct Ho; lia | done]].
      apply occurs_at_starts in Ho; [|rewrite zlen_cons; lia].
      change (zdrop 0 (c :: l)) with (c :: l) in Ho. congruence.
Qed.

Lemma occurs_at_ztake self s n j :
  0 <= n <= zlen self ->
  occurs_at (ztake n self) s j <-> occurs_at self s j /\ j + zlen s <= n.
Proof.
  intros Hn. unfold occurs_at, zslice. rewrite zlen_ztake. pose proof (zlen_nonneg s).
  split.
  - intros (H1 & H2 & H3). rewrite zdrop_ztake, ztake_ztake, Z.min_l in H3 by lia.
    split_and!; done || lia.
  - intros ((H1 & H2 & H3) & H4). split_and!; [lia | lia |].
    by rewrite zdrop_ztake, ztake_ztake, Z.min_l by lia.
Qed.

Lemma rfind_spec self s pos :
  valid self -> 0 <= pos -> last_to (occurs_at self s) pos (rfind self s pos).
Proof.
  intros Hv Hp. unfold rfind, valid in *. pose proof (zlen_nonneg s).
  destruct (zlen self <? zlen s) eqn:E; zbool.
  { left. split; [done|]. intros i _ (? & ? & _). lia. }
  destruct (zlen s =? 0) eqn:Es; zbool.
  { right. split_and!; [lia | unfold npos in *; lia | | intros i Hi (_ & ? & _); lia].
    apply zlen_0_nil in Es as ->. split_and!; [lia | | done].
    change (zlen (@nil byte)) with 0. lia. }
  set (m := Z.min (zlen self - zlen s) pos). set (l := ztake (m + zlen s) self).
  assert (zlen l = m + zlen s) as Hl by (unfold l, m; rewrite zlen_ztake; lia).
  assert (forall j, occurs_at l s j <-> occurs_at self s j /\ j <= m) as Ho.
  { intros j. unfold l. rewrite occurs_at_ztake by lia. conj_iff. }
  pose proof (find_end_from_spec l s 0) as F. unfold std_find_end.
  destruct (find_end_from l s 0) as [r|]; simpl.
  - destruct F as (_ & H1 & H2); [by intros ->|]. rewrite Z.sub_0_r in H1, H2.
    pose proof H1 as (_ & ? & _). apply Ho in H1 as [H1 Hm]. zdecide. simpl.
    right. split_and!; [lia | unfold npos; lia | done |].
    intros i Hi Hoc. apply (H2 i); [lia|]. apply Ho. split; [done|].
    destruct Hoc as (_ & ? & _). lia.
  - rewrite Hl, Z.eqb_refl. simpl. left. split; [done|]. intros i Hi Hoc.
    eapply F; [by intros ->|]. apply Ho. split; [done|]. destruct Hoc as (_ & ? & _). lia.
Qed.

(** *** Comparison *)

(** Lexicographic comparison of unsigned characters, shorter first. *)
Fixpoint lex (a b : bytes) : Z :=
  match a, b with
  | [], [] => 0
  | [], _ :: _ => -1
  | _ :: _, [] => 1
  | c :: a, d :: b => if b2z c <? b2z d then -1 else if b2z d <? b2z c then 1 else lex a b
  end.

Lemma compare_lex a b : compare a b = lex a b.
Proof.
  unfold compare. revert b. induction a as [|c a IH]; intros [|d b]; try done.
  cbn [length Nat.min memcmp lex]. rewrite !zlen_cons.
  destruct (b2z c <? b2z d); [done|]. destruct (b2z d <? b2z c); [done|].
  rewrite <- IH. cbv zeta.
  replace (1 + zlen a <? 1 + zlen b) with (zlen a <? zlen b)
    by (destruct (Z.ltb_spec (zlen a) (zlen b)); symmetry; [apply Z.ltb_lt | apply Z.ltb_ge]; lia).
  replace (1 + zlen b <? 1 + zlen a) with (zlen b <? zlen a)
    by (destruct (Z.ltb_spec (zlen b) (zlen a)); symmetry; [apply Z.ltb_lt | apply Z.ltb_ge]; lia).
  done.
Qed.

Lemma lex_range a b : lex a b = -1 \/ lex a b = 0 \/ lex a b = 1.
Proof. revert b. induction a; intros [|]; simpl; auto. repeat case_match; auto. Qed.

Lemma lex_eq a b : lex a b = 0 <-> a = b.
Proof.
  revert b. induction a as [|c a IH]; intros [|d b]; simpl; try done.
  destruct (b2z c <? b2z d) eqn:E1; [split; [done|]; intros [= -> ->]; zbool; lia|].
  destruct (b2z d <? b2z c) eqn:E2; [split; [done|]; intros [= -> ->]; zbool; lia|].
  rewrite IH. zbool. assert (c = d) as -> by (apply b2z_inj; lia). split; [by intros -> | by intros [= ->]].
Qed.

Lemma lex_antisym a b : lex b a = - lex a b.
Proof.
  revert b. induction a as [|c a IH]; intros [|d b]; simpl; try done.
  destruct (Z.ltb_spec (b2z c) (b2z d)), (Z.ltb_spec (b2z d) (b2z c)); try done; lia.
Qed.

Lemma lex_trans a b c : lex a b <= 0 -> lex b c <= 0 -> lex a c <= 0.
Proof.
  revert b c. induction a as [|x a IH]; intros [|y b] [|z c]; simpl; try lia.
  destruct (Z.ltb_spec (b2z x) (b2z y)), (Z.ltb_spec (b2z y) (b2z x)),
    (Z.ltb_spec (b2z y) (b2z z)), (Z.ltb_spec (b2z z) (b2z y)),
    (Z.ltb_spec (b2z x) (b2z z)), (Z.ltb_spec (b2z z) (b2z x)); try lia.
  apply IH.
Qed.

Lemma memcmp_sign a b :
  let r := memcmp (Nat.min (length a) (length b)) a b in
  lex a b = if r =? 0 then (if zlen a <? zlen b then -1 else if zlen b <? zlen a then 1 else 0)
            else r.
Proof.
  cbv zeta. rewrite <- compare_lex. unfold compare. cbv zeta.
  destruct (memcmp _ a b =? 0) eqn:E; zbool; [|done]. by rewrite E.
Qed.

Lemma operators_lex a b :
  less a b = (lex a b <? 0) /\ less_equal a b = (lex a b <=? 0) /\
  greater a b = (0 <? lex a b) /\ greater_equal a b = (0 <=? lex a b) /\
  equals a b = (lex a b =? 0).
Proof.
  unfold less, less_equal, greater, greater_equal. rewrite (memcmp_sign a b).
  remember (memcmp (Nat.min (length a) (length b)) a b) as r eqn:Hr. split_and!.
  1-4: clear Hr; destruct (Z.eqb_spec r 0) as [->|]; simpl;
    destruct (Z.ltb_spec (zlen a) (zlen b)), (Z.ltb_spec (zlen b) (zlen a)); try lia;
    zdecide; try done; by destruct (Z.ltb_spec r 0), (Z.ltb_spec 0 r), (Z.leb_spec 0 r),
      (Z.leb_spec r 0); try lia.
  unfold equals. destruct (Z.eqb_spec (zlen a) (zlen b)) as [E|E]; simpl.
  - subst r. assert (length a = length b) as El by (unfold zlen in E; lia).
    rewrite El, Nat.min_id. rewrite E, Z.ltb_irrefl. by case_match.
  - destruct (Z.eqb_spec r 0); simpl.
    + destruct (Z.ltb_spec (zlen a) (zlen b)), (Z.ltb_spec (zlen b) (zlen a)); done || lia.
    + by zdecide.
Qed.

(** ** Properties *)

(**  [find] and [rfind] return the first occurrence of a piece at or after
    [pos], respectively the last one at or before [pos], and [npos] exactly when
    there is none.  [rfind]'s [pos] may be [npos], its default. *)
Theorem piece_search_correct (self s : StringPiece) (pos : Z) :
  valid self -> valid s -> 0 <= pos ->
  first_from (occurs_at self s) pos (find self s pos) /\
  last_to (occurs_at self s) pos (rfind self s pos).
Proof. intros. split; [by apply find_spec | by apply rfind_spec]. Qed.

Lemma piece_search_correct_witness :
  first_from (occurs_at (txt "abcabcab") (txt "ab")) 1 3 /\
  last_to (occurs_at (txt "abcabcab") (txt "ab")) 1 0.
Proof. apply (piece_search_correct (txt "abcabcab") (txt "ab") 1); reflexivity || lia. Defined.

(** The four character-set searches, which go through a 256-entry lookup
    table, return the first (last) position from [pos] on whose character is, or
    is not, one of [s], and [npos] exactly when there is none.
    [find_first_not_of] with an empty set needs [pos = 0]: it returns 0
    whatever [pos] is. *)
Theorem set_search_correct (self s : StringPiece) (pos : Z) :
  valid self -> 0 <= pos ->
  first_from (char_at self (fun c => c ∈ s)) pos (find_first_of self s pos) /\
  (s <> [] \/ pos = 0 ->
   first_from (char_at self (fun c => c ∉ s)) pos (find_first_not_of self s pos)) /\
  last_to (char_at self (fun c => c ∈ s)) pos (find_last_of self s pos) /\
  last_to (char_at self (fun c => c ∉ s)) pos (find_last_not_of self s pos).
Proof.
  intros. split_and!.
  - by apply find_first_of_spec.
  - intros. by apply find_first_not_of_spec.
  - by apply find_last_of_spec.
  - by apply find_last_not_of_spec.
Qed.

Lemma set_search_correct_witness :
  first_from (char_at (txt "  key = value") (fun c => c ∉ txt " =")) 6 8.
Proof.
  apply (set_search_correct (txt "  key = value") (txt " =") 6);
    [reflexivity | lia | left; discriminate].
Defined.

(** [compare] has the sign of the lexicographic order on unsigned
    characters, a prefix coming before its extensions.  The order is total,
    antisymmetric and transitive, equality is equality of contents, and the
    relational operators, which are written separately, all agree with it. *)
Theorem compare_total_order (a b c : StringPiece) :
  Z.sgn (compare a b) = lex a b /\
  (compare a b = 0 <-> a = b) /\
  Z.sgn (compare b a) = - Z.sgn (compare a b) /\
  (compare a b <= 0 -> compare b c <= 0 -> compare a c <= 0) /\
  equals a b = (compare a b =? 0) /\ less a b = (compare a b <? 0) /\
  less_equal a b = (compare a b <=? 0) /\ greater a b = (0 <? compare a b) /\
  greater_equal a b = (0 <=? compare a b).
Proof.
  rewrite !compare_lex. destruct (operators_lex a b) as (? & ? & ? & ? & ?).
  split_and!; try done; [| apply lex_eq | rewrite lex_antisym; lia | apply lex_trans].
  destruct (lex_range a b) as [->|[->| ->]]; done.
Qed.

Lemma compare_total_order_witness :
  compare (txt "ab") (txt "ad") <= 0.
Proof.
  apply (compare_total_order (txt "ab") (txt "abc") (txt "ad")); vm_compute; discriminate.
Defined.
