(* ===== verification/Codec.v ===== *)
(** * Codec (include/codec/Codec.h)

    The base class of the stream codecs.  [Codec] is the interface: the two
    virtual functions a codec overrides.  [recv] and [send] are the two
    non-virtual functions, written against it.  [FramingCodec] states what a
    codec promises for its frames, and [IncrementalCodec] what it promises for
    a frame that has not fully arrived; the theorems about [recv] are proved
    from these promises, and each codec's file discharges them.

    What [recv] and [send] do to the connection and to the user's callback is a
    list of events. *)

From S2P Require Import Prelude ByteBuffer.

(** ** Definitions *)

(** [decode(buff, payload)] and [encode(payload, buff)] with the codec object
    threaded: [encode] is documented as a pure function. *)
Class Codec (C : Type) : Type := {
  decode : C -> ByteBuffer -> ByteBuffer -> outcome (Z * C * ByteBuffer * ByteBuffer);
  encode : C -> ByteBuffer -> ByteBuffer -> outcome (Z * ByteBuffer);
}.

Inductive event : Type :=
  | MessageCallback (payload : ByteBuffer)
  | NoCallbackWarning
  | ConnShutdown
  | ConnSend (buff : ByteBuffer).

Section Recv.
Context {C : Type} `{Codec C}.

(** The [do ... while (rt == 1)] loop of [recv]; [has_cb] is whether
    [message_cb_] is set. *)
Fixpoint recv_loop (fuel : nat) (has_cb : bool) (c : C) (buff : ByteBuffer)
    : outcome (list event * C * ByteBuffer) :=
  match fuel with
  | O => Fault OutOfFuel
  | S fuel =>
      payload ← make kUnLimitSize kInitialSize;
      '(rt, c, buff, payload) ← decode c buff payload;
      if rt =? 1 then
        let e := if has_cb then MessageCallback payload else NoCallbackWarning in
        '(es, c, buff) ← recv_loop fuel has_cb c buff;
        Ok (e :: es, c, buff)
      else if rt =? -1 then Ok ([ConnShutdown], c, buff)
      else Ok ([], c, buff)
  end.

Definition recv (in_own_loop : bool) (fuel : nat) (has_cb : bool) (c : C) (buff : ByteBuffer)
    : outcome (list event * C * ByteBuffer) :=
  check in_own_loop "check_in_own_loop";;
  recv_loop fuel has_cb c buff.

Definition send (c : C) (payload : ByteBuffer) : outcome (list event) :=
  buff ← make kUnLimitSize kInitialSize;
  '(rt, buff) ← encode c payload buff;
  Ok (if rt =? 1 then [ConnSend buff]
      else if rt =? -1 then [ConnShutdown] else []).

(** A connection's input: each chunk is appended to the input buffer, then
    [recv] runs on it.  The fuel is what [recv_terminates] shows to suffice. *)
Fixpoint feed (chunks : list bytes) (c : C) (buff : ByteBuffer)
    : outcome (list event * C * ByteBuffer) :=
  match chunks with
  | [] => Ok ([], c, buff)
  | chunk :: chunks =>
      '(_, buff) ← append chunk buff;
      '(es, c, buff) ← recv true (S (length (contents buff))) true c buff;
      '(es', c, buff) ← feed chunks c buff;
      Ok (es ++ es', c, buff)
  end.

End Recv.

(** ** What a codec promises *)

(** An empty growable buffer. *)
Definition fresh (b : ByteBuffer) : Prop :=
  wf b /\ contents b = [] /\ unlimited b = true /\ writer_index_ b = 0.

(** [b'] is [b] after a prefix was consumed. *)
Definition consumed (b b' : ByteBuffer) : Prop :=
  wf b' /\ max_size_ b' = max_size_ b /\ writer_index_ b' <= writer_index_ b.

(** The rule of the header comment: success removes bytes, anything else
    leaves the buffer alone; and there are three results. *)
Class CodecLaws (C : Type) `{Codec C} : Type := {
  codec_ok : C -> Prop;
  decode_total : forall c b payload,
    codec_ok c -> wf b -> fresh payload ->
    exists rt c' b' payload', decode c b payload = Ok (rt, c', b', payload') /\
      codec_ok c' /\
      ((rt = 1 /\ consumed b b' /\ wf payload' /\
        exists k, 0 < k /\ contents b' = zdrop k (contents b) /\ k <= zlen (contents b)) \/
       ((rt = 0 \/ rt = -1) /\ b' = b));
}.

(** A message is a [frame] on the wire, and a frame at the front decodes. *)
Class FramingCodec (C : Type) `{CodecLaws C} : Type := {
  ready : C -> Prop;
  frame : C -> bytes -> bytes;
  accepts : C -> bytes -> Prop;
  ready_ok : forall c, ready c -> codec_ok c;
  frame_nonempty : forall c p, ready c -> frame c p <> [];
  decode_empty : forall c b payload,
    ready c -> wf b -> contents b = [] -> decode c b payload = Ok (0, c, b, payload);
  decode_frame : forall c b payload p tail,
    ready c -> accepts c p -> wf b -> fresh payload ->
    contents b = frame c p ++ tail ->
    exists b' payload', decode c b payload = Ok (1, c, b', payload') /\
      consumed b b' /\ contents b' = tail /\ wf payload' /\ contents payload' = p;
}.

(** An incomplete frame is left for the next read. *)
Class IncrementalCodec (C : Type) `{FramingCodec C} : Type := {
  decode_prefix : forall c b payload p rest,
    ready c -> accepts c p -> wf b -> fresh payload ->
    contents b ++ rest = frame c p -> rest <> [] ->
    decode c b payload = Ok (0, c, b, payload);
}.

(** The callback events for a list of messages, each in a proper buffer. *)
Definition delivers (es : list event) (ps : list bytes) : Prop :=
  Forall2 (fun e p => exists payload, e = MessageCallback payload /\ wf payload /\ contents payload = p) es ps.

(** ** Lemmas *)

Lemma make_fresh : exists b, make kUnLimitSize kInitialSize = Ok b /\ fresh b.
Proof.
  destruct (make_ok kUnLimitSize kInitialSize) as (b & E & Hwf & Hc & Hm);
    [unfold kUnLimitSize; lia | unfold kInitialSize, vec_max_size, kInt64Max; lia |].
  exists b. split; [done|]. split_and!; try done.
  - unfold unlimited. by rewrite Hm.
  - unfold make in E. destruct (vec_make _); [|done]. by injection E as <-.
Qed.

Lemma consumed_refl b : wf b -> consumed b b.
Proof. intros. unfold consumed. by split_and!. Qed.

Lemma consumed_trans a b c : consumed a b -> consumed b c -> consumed a c.
Proof.
  unfold consumed. intros (? & ? & ?) (? & ? & ?). split_and!; [done | congruence | lia].
Qed.

Create HintDb codec.

#[export] Hint Resolve consumed_refl consumed_trans : codec.

Section Recv_lemmas.
Context {C : Type} `{CodecLaws C}.

(** Every successful round consumes a byte, so the loop ends. *)
Lemma recv_loop_total fuel has_cb c b :
  codec_ok c -> wf b -> (length (contents b) < fuel)%nat ->
  exists es c' b', recv_loop fuel has_cb c b = Ok (es, c', b') /\ codec_ok c' /\
    consumed b b' /\ exists k, 0 <= k /\ contents b' = zdrop k (contents b).
Proof.
  revert c b. induction fuel as [|fuel IH]; intros c b Hc Hwf Hf; [lia|].
  cbn [recv_loop]. destruct make_fresh as (pl & -> & Hpl). cbn.
  destruct (decode_total c b pl Hc Hwf Hpl) as (rt & c' & b' & pl' & -> & Hc' & [Hrt|Hrt]); cbn.
  - destruct Hrt as (-> & Hcons & _ & k & Hk & Hcb & Hle). cbn.
    destruct (IH c' b') as (es & c2 & b2 & -> & Hc2 & Hcons2 & k2 & Hk2 & Hcb2).
    + done.
    + apply Hcons.
    + rewrite Hcb. unfold zdrop, zlen in *. rewrite length_drop. lia.
    + cbn. do 3 eexists. split_and!; [done | done | by eauto with codec |].
      exists (k2 + k). split; [lia|]. by rewrite Hcb2, Hcb, zdrop_zdrop by lia.
  - destruct Hrt as [Hrt ->].
    assert (exists k, 0 <= k /\ contents b = zdrop k (contents b)) by (exists 0; by rewrite zdrop_0).
    destruct Hrt as [-> | ->]; cbn; do 3 eexists; split_and!; eauto with codec.
Qed.

End Recv_lemmas.

Section Framing_lemmas.
Context {C : Type} `{FramingCodec C}.

(** The frames at the front of the buffer are delivered in order, and the loop
    goes on with the rest. *)
Lemma recv_loop_frames fuel c b ps d :
  ready c -> Forall (accepts c) ps -> wf b ->
  contents b = concat (frame c <$> ps) ++ d ->
  exists es b', consumed b b' /\ contents b' = d /\ delivers es ps /\
    recv_loop (length ps + fuel) true c b =
      ('(es', c', b'') ← recv_loop fuel true c b'; Ok (es ++ es', c', b'')).
Proof.
  intros Hc Hps. revert b. induction Hps as [|p ps Hp Hps IH]; intros b Hwf Hb.
  { exists [], b. split_and!; [by apply consumed_refl | done | constructor |].
    cbn. by destruct (recv_loop fuel true c b) as [[[??]?]|]. }
  cbn [fmap list_fmap concat] in Hb. rewrite <- app_assoc in Hb.
  cbn [length Nat.add recv_loop]. destruct make_fresh as (pl & -> & Hpl). cbn.
  destruct (decode_frame c b pl p _ Hc Hp Hwf Hpl Hb) as (b1 & pl1 & -> & Hcons & Hb1 & Hwf1 & Hpl1).
  cbn. destruct (IH b1) as (es & b2 & Hcons2 & Hb2 & Hes & ->); [apply Hcons | done |].
  exists (MessageCallback pl1 :: es), b2. split_and!; [by eauto with codec | done | |].
  - constructor; eauto.
  - by destruct (recv_loop fuel true c b2) as [[[??]?]|].
Qed.

Lemma frames_length c ps :
  ready c -> (length ps <= length (concat (frame c <$> ps)))%nat.
Proof.
  intros Hc. induction ps as [|p ps IH]; [done|]. cbn [fmap list_fmap concat length].
  rewrite length_app. pose proof (frame_nonempty c p Hc).
  destruct (frame c p); [done|]. cbn. lia.
Qed.

(** A batch of complete frames. *)
Lemma recv_batch fuel c b ps :
  ready c -> Forall (accepts c) ps -> wf b -> contents b = concat (frame c <$> ps) ->
  (length (contents b) < fuel)%nat ->
  exists es b', recv true fuel true c b = Ok (es, c, b') /\ consumed b b' /\
    contents b' = [] /\ delivers es ps.
Proof.
  intros Hc Hps Hwf Hb Hf. unfold recv. cbn.
  pose proof (frames_length c ps Hc). rewrite <- Hb in *.
  destruct (recv_loop_frames (S (fuel - length ps - 1)) c b ps []) as (es & b' & Hcons & Hb' & Hes & E);
    [done | done | done | by rewrite app_nil_r |].
  replace (length ps + _)%nat with fuel in E by lia. rewrite E. cbn [recv_loop].
  destruct make_fresh as (pl & -> & Hpl). cbn.
  rewrite decode_empty by (done || apply Hcons). cbn.
  exists es, b'. by rewrite app_nil_r.
Qed.

End Framing_lemmas.

Section Incremental_lemmas.
Context {C : Type} `{IncrementalCodec C}.

(** [d] ends inside the first frame of [ps], or there is none. *)
Definition pending (c : C) (d : bytes) (ps : list bytes) : Prop :=
  match ps with [] => d = [] | p :: _ => (length d < length (frame c p))%nat end.

(** Any prefix of a stream of frames is some whole frames and a pending part. *)
Lemma stream_split c d rest ps :
  d ++ rest = concat (frame c <$> ps) ->
  exists ps1 ps2 d2, ps = ps1 ++ ps2 /\ d = concat (frame c <$> ps1) ++ d2 /\
    d2 ++ rest = concat (frame c <$> ps2) /\ pending c d2 ps2.
Proof.
  revert d. induction ps as [|p ps IH]; intros d E.
  { apply app_nil in E as [-> ->]. by exists [], [], []. }
  destruct (decide (length d < length (frame c p))%nat) as [Hlt|Hge].
  { by exists [], (p :: ps), d. }
  cbn [fmap list_fmap concat] in E.
  assert (exists d1, d = frame c p ++ d1) as [d1 ->].
  { exists (drop (length (frame c p)) d).
    rewrite <- (take_drop (length (frame c p)) d) at 1. f_equal.
    apply (f_equal (take (length (frame c p)))) in E.
    rewrite take_app_le, take_app_length in E by lia. done. }
  rewrite <- app_assoc in E. apply app_inv_head in E.
  destruct (IH d1 E) as (ps1 & ps2 & d2 & -> & -> & E2 & Hp).
  exists (p :: ps1), ps2, d2. cbn [fmap list_fmap concat]. by rewrite <- app_assoc.
Qed.

Lemma decode_pending c b payload rest ps :
  ready c -> Forall (accepts c) ps -> wf b -> fresh payload ->
  contents b ++ rest = concat (frame c <$> ps) -> pending c (contents b) ps ->
  decode c b payload = Ok (0, c, b, payload).
Proof.
  intros Hc Hps Hwf Hpl E Hp. destruct ps as [|p ps]; [by apply decode_empty|].
  apply Forall_cons in Hps as [Hacc _]. cbn [fmap list_fmap concat pending] in *.
  apply (decode_prefix c b payload p (drop (length (contents b)) (frame c p))); try done.
  - rewrite <- (take_drop (length (contents b)) (frame c p)) at 2. f_equal.
    apply (f_equal (take (length (contents b)))) in E.
    rewrite take_app_length, take_app_le in E by lia. done.
  - intros Hn. apply (f_equal length) in Hn. rewrite length_drop in Hn. cbn in Hn. lia.
Qed.

(** One [recv] on a prefix of the stream: everything complete is delivered. *)
Lemma recv_stream fuel c b rest ps :
  ready c -> Forall (accepts c) ps -> wf b ->
  contents b ++ rest = concat (frame c <$> ps) -> (length (contents b) < fuel)%nat ->
  exists es b' ps1 ps2, recv true fuel true c b = Ok (es, c, b') /\ ps = ps1 ++ ps2 /\
    consumed b b' /\ delivers es ps1 /\
    contents b' ++ rest = concat (frame c <$> ps2) /\ pending c (contents b') ps2.
Proof.
  intros Hc Hps Hwf E Hf.
  destruct (stream_split c _ _ _ E) as (ps1 & ps2 & d2 & -> & Hb & E2 & Hp).
  apply Forall_app in Hps as [Hps1 Hps2]. pose proof (frames_length c ps1 Hc).
  apply (f_equal length) in Hb as Hlen. rewrite length_app in Hlen.
  destruct (recv_loop_frames (S (fuel - length ps1 - 1)) c b ps1 d2)
    as (es & b' & Hcons & Hb' & Hes & R); [done..|].
  unfold recv. cbn. replace (length ps1 + _)%nat with fuel in R by lia.
  rewrite R. cbn [recv_loop]. destruct make_fresh as (pl & -> & Hpl). cbn.
  rewrite (decode_pending c b' pl rest ps2) by (done || apply Hcons || by rewrite Hb').
  cbn. rewrite app_nil_r, <- Hb' in *. eauto 10.
Qed.

Lemma feed_stream chunks c b ps :
  ready c -> Forall (accepts c) ps -> wf b -> unlimited b = true ->
  contents b ++ concat chunks = concat (frame c <$> ps) -> pending c (contents b) ps ->
  writer_index_ b + zlen (concat chunks) <= vec_max_size ->
  exists es b', feed chunks c b = Ok (es, c, b') /\ wf b' /\ contents b' = [] /\ delivers es ps.
Proof.
  intros Hc. revert b ps. induction chunks as [|d chunks IH];
    intros b ps Hps Hwf Hu E Hp Hroom; cbn [feed concat] in *.
  { rewrite app_nil_r in E. destruct ps as [|p ps]; cbn [pending] in Hp.
    - exists [], b. split_and!; done || constructor.
    - cbn [fmap list_fmap concat] in E. rewrite E, length_app in Hp. lia. }
  rewrite zlen_app in Hroom. pose proof (zlen_nonneg (concat chunks)).
  destruct (append_ok d b Hwf) as (b1 & -> & Hwf1 & Hb1 & Hm1 & Hw1);
    [unfold room; rewrite Hu; lia|]. cbn [mbind outcome_bind].
  destruct (recv_stream (S (length (contents b1))) c b1 (concat chunks) ps)
    as (es & b2 & ps1 & ps2 & -> & -> & (Hwf2 & Hm2 & Hw2) & Hes & E2 & Hp2);
    [done | done | done | by rewrite Hb1, <- app_assoc | lia |].
  cbn. apply Forall_app in Hps as [_ Hps2].
  destruct (IH b2 ps2) as (es' & b3 & -> & ? & ? & ?); try done; [|lia|].
  { unfold unlimited in *. congruence. }
  cbn. exists (es ++ es'), b3. split_and!; try done. by apply Forall2_app.
Qed.

End Incremental_lemmas.
