(* ===== verification/LengthHeaderCodec.v ===== *)
(** * LengthHeaderCodec (include/codec/LengthHeaderCodec.h)

    Frames with a signed big-endian length of 1, 2, 4 or 8 bytes, the payload,
    and an optional CRC-32 of the payload, which the length counts.  [parse] is
    the wire format as a function on byte strings; [decode] refines it, and
    [encode] produces what it parses.  The codec discharges the promises of
    [Codec], so that a stream of frames is decoded whatever the sizes of the
    reads it arrives in. *)

From S2P Require Import Prelude ByteOrder ByteBuffer NetBuffer Crc32c Codec.

(** ** Definitions *)

Inductive LENGTH_TYPE : Type :=
  | kLengthType8 | kLengthType16 | kLengthType32 | kLengthType64.

Definition length_size (t : LENGTH_TYPE) : nat :=
  match t with
  | kLengthType8 => 1 | kLengthType16 => 2 | kLengthType32 => 4 | kLengthType64 => 8
  end%nat.

Record LengthHeaderCodec : Type := mkLengthHeader {
  length_type_ : LENGTH_TYPE;
  max_payload_ : Z;
  checksum_length_ : Z;
}.

Definition make_codec (length_type : LENGTH_TYPE) (enable_checksum : bool) (max_payload : Z)
    : LengthHeaderCodec :=
  mkLengthHeader length_type max_payload (if negb enable_checksum then 0 else 4).

Definition length_type (c : LengthHeaderCodec) : Z := Z.of_nat (length_size (length_type_ c)).
Definition max_payload (c : LengthHeaderCodec) : Z := max_payload_ c.
Definition checksum_length (c : LengthHeaderCodec) : Z := checksum_length_ c.
Definition min_payload (c : LengthHeaderCodec) : Z := checksum_length c.

(** The choice of CRC routine by length, in [decode] and [encode]. *)
Definition crc32_func (length : Z) : bytes -> Z :=
  if 60 <? length then crc32_long else crc32_short.

Section LengthHeader.
Context `{Arch}.

(** [peek_uint32] on the four bytes at a pointer. *)
Definition peek_uint32 (m : bytes) : Z := net_to_host32 (mem_value m).

Definition get_payload_length (c : LengthHeaderCodec) (buff : ByteBuffer) : outcome Z :=
  match length_type_ c with
  | kLengthType8 => peek_int8 buff
  | kLengthType16 => peek_int16 buff
  | kLengthType32 => peek_int32 buff
  | kLengthType64 => peek_int64 buff
  end.

Definition lh_decode (c : LengthHeaderCodec) (buff payload : ByteBuffer)
    : outcome (Z * ByteBuffer * ByteBuffer) :=
  readable ← readable_bytes buff;
  if length_type c <=? readable then
    length ← get_payload_length c buff;
    if (length <? min_payload c) || ((0 <? max_payload c) && (max_payload c <? length)) then
      Ok (-1, buff, payload)
    else
      defined (length + length_type c <=? kInt64Max) "length + length_type() overflows";;
      if u64 (length + length_type c) <=? readable then
        p ← begin_read buff;
        '(expectsum, checksum) ←
          (if 0 <? checksum_length c then
             m ← mem_read (p + length_type c + length - checksum_length c) 4 buff;
             d ← mem_read (p + length_type c) (length - checksum_length c) buff;
             Ok (crc32_func (length - checksum_length c) d, peek_uint32 m)
           else Ok (0, 0));
        if expectsum =? checksum then
          d ← mem_read (p + length_type c) (length - checksum_length c) buff;
          '(_, payload) ← append d payload;
          buff ← has_read (u64 (length_type c + length)) buff;
          Ok (1, buff, payload)
        else Ok (-1, buff, payload)
      else Ok (0, buff, payload)
  else Ok (0, buff, payload).

(** The parameter of [append_int*] converts [length] to the type's width. *)
Definition set_buff_length (c : LengthHeaderCodec) (length : Z) (buff : ByteBuffer)
    : outcome ByteBuffer :=
  match length_type_ c with
  | kLengthType8 => append_int8 (i8 length) buff
  | kLengthType16 => append_int16 (i16 length) buff
  | kLengthType32 => append_int32 (i32 length) buff
  | kLengthType64 => append_int64 length buff
  end.

Definition lh_encode (c : LengthHeaderCodec) (payload buff : ByteBuffer)
    : outcome (Z * ByteBuffer) :=
  readable ← readable_bytes payload;
  let length := i64 readable in
  if length =? 0 then Ok (0, buff)
  else if (length <? min_payload c - checksum_length c)
          || ((0 <? max_payload c) && (max_payload c <? length)) then
    Ok (-1, buff)
  else
    defined (length + checksum_length c <=? kInt64Max) "length + checksum_length() overflows";;
    buff ← set_buff_length c (length + checksum_length c) buff;
    p ← begin_read payload;
    d ← mem_read p length payload;
    '(_, buff) ← append d buff;
    if 0 <? checksum_length c then
      let checksum := crc32_func length d in
      buff ← append_int32 (i32 checksum) buff;
      Ok (1, buff)
    else Ok (1, buff).

#[export] Instance length_header_codec : Codec LengthHeaderCodec := {
  decode c buff payload :=
    '(rt, buff, payload) ← lh_decode c buff payload; Ok (rt, c, buff, payload);
  encode := lh_encode;
}.

End LengthHeader.

(** ** The wire format *)

(** A codec as the constructor makes it, the limit being an [ssize_t] small
    enough for the sum of the two lengths; with the 64-bit length that excludes
    the unlimited codec (see [length_overflow]). *)
Definition codec_wf (c : LengthHeaderCodec) : Prop :=
  (checksum_length_ c = 0 \/ checksum_length_ c = 4) /\
  (length_type_ c = kLengthType64 -> 0 < max_payload_ c <= kInt64Max - 8).

Definition checksum_bytes (c : LengthHeaderCodec) (p : bytes) : bytes :=
  if 0 <? checksum_length_ c then be_bytes 4 (crc32_ref p) else [].

Definition lh_frame (c : LengthHeaderCodec) (p : bytes) : bytes :=
  be_bytes (length_size (length_type_ c)) (zlen p + checksum_length_ c)
    ++ p ++ checksum_bytes c p.

(** Payloads whose frame a peer with the same configuration accepts. *)
Definition lh_accepts (c : LengthHeaderCodec) (p : bytes) : Prop :=
  zlen p + checksum_length_ c < 2 ^ (8 * length_type c - 1) /\
  (0 < max_payload_ c -> zlen p + checksum_length_ c <= max_payload_ c).

Inductive parsed : Type :=
  | Incomplete
  | Invalid
  | Frame (payload rest : bytes).

Definition parse (c : LengthHeaderCodec) (d : bytes) : parsed :=
  if zlen d <? length_type c then Incomplete
  else
    let len := be_int (length_size (length_type_ c)) d in
    if (len <? checksum_length_ c) || ((0 <? max_payload_ c) && (max_payload_ c <? len))
    then Invalid
    else if zlen d <? length_type c + len then Incomplete
    else
      let body := zslice (length_type c) (len - checksum_length_ c) d in
      let sum := zslice (length_type c + len - checksum_length_ c) (checksum_length_ c) d in
      if bool_decide (sum = checksum_bytes c body)
      then Frame body (zdrop (length_type c + len) d) else Invalid.

(** ** Lemmas *)

Lemma crc32_func_ref n d : crc32_func n d = crc32_ref d.
Proof. unfold crc32_func. case_match; [apply crc32_long_ref | apply crc32_short_ref]. Qed.

Lemma length_size_pos t : (0 < length_size t)%nat.
Proof. destruct t; cbn; lia. Qed.

Lemma length_type_range c : 1 <= length_type c <= 8.
Proof. unfold length_type. destruct (length_type_ c); cbn; lia. Qed.

(** Reading inside the readable part of a buffer. *)
Lemma mem_read_contents i n b :
  wf b -> 0 <= i -> 0 <= n -> i + n <= zlen (contents b) ->
  mem_read (reader_index_ b + i) n b = Ok (zslice i n (contents b)).
Proof.
  intros Hwf Hi Hn Hle. rewrite contents_length in Hle by done.
  destruct Hwf as (Hr & Hs & _). unfold mem_read, defined. zdecide. cbn. f_equal.
  unfold contents, zslice. rewrite zdrop_ztake, ztake_ztake, zdrop_zdrop by lia.
  f_equal; [lia | f_equal; lia].
Qed.

Section LengthHeader_lemmas.
Context `{Arch}.

Lemma get_payload_length_ok c b :
  wf b -> length_type c <= zlen (contents b) ->
  get_payload_length c b = Ok (be_int (length_size (length_type_ c)) (contents b)).
Proof.
  unfold length_type, get_payload_length. intros Hwf Hl.
  destruct (length_type_ c); cbn in Hl |- *;
    auto using peek_int8_ok, peek_int16_ok, peek_int32_ok, peek_int64_ok.
Qed.

Lemma be_int_range n d : (0 < n)%nat ->
  - 2 ^ (8 * Z.of_nat n - 1) <= be_int n d < 2 ^ (8 * Z.of_nat n - 1).
Proof. intros. apply swrap_range. lia. Qed.

(** The overflow that [codec_wf] excludes. *)
Lemma payload_length_small c d :
  codec_wf c -> let len := be_int (length_size (length_type_ c)) d in
  (0 <? max_payload_ c) && (max_payload_ c <? len) = false -> len + length_type c <= kInt64Max.
Proof.
  intros [_ Hm] len. unfold length_type, len, kInt64Max in *.
  pose proof (be_int_range _ d (length_size_pos (length_type_ c))) as R.
  destruct (length_type_ c); cbn -[be_int] in *; try lia.
  specialize (Hm eq_refl). replace (0 <? max_payload_ c) with true by (symmetry; apply Z.ltb_lt; lia).
  cbn. intros. zbool. lia.
Qed.

Lemma peek_uint32_eq m v :
  length m = 4%nat -> 0 <= v < 2 ^ 32 ->
  (v =? peek_uint32 m) = bool_decide (m = be_bytes 4 v).
Proof.
  intros Hm Hv. unfold peek_uint32.
  assert (net_to_host32 (mem_value m) = be_val m) as ->.
  { rewrite <- (host_net_mem_value 4 m Hm). done. }
  apply eq_bool_prop_intro. rewrite bool_decide_spec. split.
  - intros E%Is_true_true. zbool. subst v. by rewrite <- Hm, be_bytes_be_val.
  - intros ->. rewrite be_val_be_bytes, Z.mod_small by done. by rewrite Z.eqb_refl.
Qed.

Lemma lh_decode_parse c b payload :
  codec_wf c -> wf b -> fresh payload ->
  match parse c (contents b) with
  | Incomplete => lh_decode c b payload = Ok (0, b, payload)
  | Invalid => lh_decode c b payload = Ok (-1, b, payload)
  | Frame body rest => exists b' payload', lh_decode c b payload = Ok (1, b', payload') /\
      consumed b b' /\ contents b' = rest /\ wf payload' /\ contents payload' = body
  end.
Proof.
  intros Hc Hwf Hpl. unfold parse, lh_decode.
  rewrite readable_bytes_ok by done. cbn [mbind outcome_bind].
  pose proof (contents_length b Hwf) as Hlen. rewrite <- Hlen.
  pose proof (length_type_range c) as Ht.
  destruct (Z.ltb_spec (zlen (contents b)) (length_type c)); zdecide; [done|].
  rewrite get_payload_length_ok by done. cbn [mbind outcome_bind].
  unfold min_payload, max_payload, checksum_length.
  set (len := be_int _ _). destruct ((len <? _) || _) eqn:Ebad; [done|].
  apply orb_false_elim in Ebad as [Hmin Hmax].
  pose proof (payload_length_small c _ Hc Hmax) as Hov. fold len in Hov.
  destruct Hc as [Hcl _]. zbool.
  rewrite defined_true by (apply Z.leb_le; done). cbn [mbind outcome_bind].
  rewrite (u64_small (len + _)) by (unfold kInt64Max in *; lia).
  destruct (Z.ltb_spec (zlen (contents b)) (length_type c + len)); zdecide; [done|].
  rewrite begin_read_ok by done. cbn [mbind outcome_bind].
  set (body := zslice _ (len - _) _). set (sum := zslice (_ - _) _ _).
  assert (mem_read (reader_index_ b + length_type c) (len - checksum_length_ c) b = Ok body)
    as Hbody by (apply mem_read_contents; done || lia).
  set (sums := if 0 <? checksum_length_ c then _ else Ok (0, 0)).
  assert (exists e k, sums = Ok (e, k) /\
    (e =? k) = bool_decide (sum = checksum_bytes c body)) as (e & k & -> & Hek).
  { unfold sums, checksum_bytes, sum. destruct Hcl as [Hcl|Hcl]; rewrite Hcl in *; cbn.
    - exists 0, 0. split; [done|]. unfold zslice. by rewrite ztake_0.
    - replace (reader_index_ b + length_type c + len - 4)
        with (reader_index_ b + (length_type c + len - 4)) by lia.
      rewrite (mem_read_contents (length_type c + len - 4) 4), Hbody by (done || lia). cbn. do 2 eexists. split; [done|].
      rewrite crc32_func_ref. apply peek_uint32_eq; [|apply crc32_ref_range].
      apply (inj Z.of_nat). change (Z.of_nat (length ?l)) with (zlen l).
      rewrite zlen_zslice. lia. }
  cbn [mbind outcome_bind]. rewrite Hek. destruct (bool_decide _); [|done].
  rewrite Hbody. cbn [mbind outcome_bind].
  destruct Hpl as (Hwfp & Hcp & Hup & Hwp).
  destruct (append_ok body payload Hwfp) as (pl' & -> & ? & Hcp' & _).
  { unfold room. rewrite Hup, Hwp. unfold body. rewrite zlen_zslice.
    destruct Hwf as (? & ? & _). lia. }
  cbn [mbind outcome_bind]. rewrite u64_small by (unfold kInt64Max in *; lia).
  destruct (has_read_ok (length_type c + len) b) as (b' & -> & ? & Hb' & ? & _ & ?); [done|lia|].
  cbn. exists b', pl'. rewrite Hcp in Hcp'. done.
Qed.

(** [parse] behind a length field that was read. *)
Lemma parse_header c len d :
  codec_wf c -> - 2 ^ (8 * length_type c - 1) <= len < 2 ^ (8 * length_type c - 1) ->
  parse c (be_bytes (length_size (length_type_ c)) len ++ d) =
  if (len <? checksum_length_ c) || ((0 <? max_payload_ c) && (max_payload_ c <? len))
  then Invalid
  else if zlen d <? len then Incomplete
  else if bool_decide (zslice (len - checksum_length_ c) (checksum_length_ c) d
                       = checksum_bytes c (ztake (len - checksum_length_ c) d))
  then Frame (ztake (len - checksum_length_ c) d) (zdrop len d) else Invalid.
Proof.
  intros [Hc _] Hr. unfold parse. pose proof (zlen_nonneg d).
  pose proof (length_size_pos (length_type_ c)). pose proof (length_type_range c).
  assert (zlen (be_bytes (length_size (length_type_ c)) len) = length_type c) as Hl
    by (unfold zlen, length_type; by rewrite length_be_bytes).
  rewrite zlen_app, Hl. zdecide. rewrite be_int_be_bytes, swrap_small by (done || lia).
  destruct (_ || _) eqn:E; [done|]. zbool.
  replace (length_type c + zlen d <? length_type c + len) with (zlen d <? len)
    by (destruct (Z.ltb_spec (zlen d) len); symmetry; [apply Z.ltb_lt | apply Z.ltb_ge]; lia).
  destruct (Z.ltb_spec (zlen d) len); [done|].
  unfold zslice. rewrite !zdrop_app_ge by lia. rewrite Hl.
  replace (length_type c - length_type c) with 0 by lia. rewrite zdrop_0.
  replace (length_type c + len - length_type c) with len by lia.
  by replace (length_type c + len - checksum_length_ c - length_type c)
    with (len - checksum_length_ c) by lia.
Qed.

Lemma checksum_bytes_length c p : codec_wf c -> zlen (checksum_bytes c p) = checksum_length_ c.
Proof. intros [[Hc|Hc] _]; unfold checksum_bytes; by rewrite Hc. Qed.

(** The test on the length field, for the frame of an accepted payload. *)
Lemma accepts_header c p :
  codec_wf c -> lh_accepts c p -> let len := zlen p + checksum_length_ c in
  - 2 ^ (8 * length_type c - 1) <= len < 2 ^ (8 * length_type c - 1) /\
  (len <? checksum_length_ c) || ((0 <? max_payload_ c) && (max_payload_ c <? len)) = false.
Proof.
  intros [Hc _] [Ha Hm] len. pose proof (zlen_nonneg p). unfold len. split; [lia|].
  destruct (Z.ltb_spec 0 (max_payload_ c)); zdecide; done.
Qed.

Lemma parse_frame c p tail :
  codec_wf c -> lh_accepts c p -> parse c (lh_frame c p ++ tail) = Frame p tail.
Proof.
  intros Hc Ha. destruct (accepts_header c p Hc Ha) as [Hr Hb].
  pose proof (checksum_bytes_length c p Hc) as Hs. pose proof (zlen_nonneg p).
  unfold lh_frame. rewrite <- app_assoc, parse_header, Hb by done. destruct Hc as [Hc _].
  rewrite <- app_assoc, !zlen_app. pose proof (zlen_nonneg tail). zdecide. unfold zslice.
  rewrite Z.add_simpl_r, zdrop_app_exact, (ztake_app_exact (zlen p)) by done.
  rewrite ztake_app_exact, bool_decide_eq_true_2 by done.
  by rewrite (app_assoc p), zdrop_app_exact by (rewrite zlen_app; lia).
Qed.

Lemma lh_frame_length c p :
  codec_wf c -> zlen (lh_frame c p) = length_type c + zlen p + checksum_length_ c.
Proof.
  intros Hc. unfold lh_frame. rewrite !zlen_app, checksum_bytes_length by done.
  unfold zlen at 1, length_type. rewrite length_be_bytes. lia.
Qed.

Lemma parse_prefix c p d rest :
  codec_wf c -> lh_accepts c p -> d ++ rest = lh_frame c p -> rest <> [] ->
  parse c d = Incomplete.
Proof.
  intros Hc Ha E Hne. pose proof (lh_frame_length c p Hc) as Hl. rewrite <- E, zlen_app in Hl.
  assert (0 < zlen rest).
  { pose proof (zlen_nonneg rest). destruct (decide (zlen rest = 0)); [|lia].
    by rewrite (zlen_0_nil rest) in Hne. }
  destruct (Z.ltb_spec (zlen d) (length_type c)) as [Hlt|Hge].
  { unfold parse. by zdecide. }
  assert (exists d', d = be_bytes (length_size (length_type_ c)) (zlen p + checksum_length_ c)
    ++ d') as [d' ->].
  { exists (zdrop (length_type c) d).
    rewrite <- (ztake_zdrop (length_type c) d) at 1. f_equal.
    apply (f_equal (ztake (length_type c))) in E. unfold lh_frame, length_type in *.
    rewrite ztake_app_le, ztake_app_le in E by (done || unfold zlen; rewrite length_be_bytes; lia).
    rewrite E. apply ztake_ge. unfold zlen. rewrite length_be_bytes. done. }
  destruct (accepts_header c p Hc Ha) as [Hr Hb].
  rewrite parse_header, Hb by done. rewrite zlen_app in Hl.
  unfold zlen at 1, length_type in Hl. rewrite length_be_bytes in Hl. zdecide. done.
Qed.

(** The length field spells the length that was read from it. *)
Lemma be_bytes_be_int n d :
  (0 < n)%nat -> Z.of_nat n <= zlen d -> be_bytes n (be_int n d) = ztake (Z.of_nat n) d.
Proof.
  intros Hn Hd. unfold be_int. rewrite <- be_bytes_mod.
  pose proof (uwrap_swrap (8 * Z.of_nat n) (be_val (ztake (Z.of_nat n) d)) ltac:(lia)) as E.
  unfold uwrap in E. rewrite E, be_bytes_mod.
  rewrite <- (length_ztake_exact n d Hd) at 1. apply be_bytes_be_val.
Qed.

(** Only frames are accepted. *)
Lemma parse_sound c d body rest :
  codec_wf c -> parse c d = Frame body rest -> d = lh_frame c body ++ rest /\ lh_accepts c body.
Proof.
  intros Hc E. pose proof (length_size_pos (length_type_ c)) as Hn.
  destruct (Z.ltb_spec (zlen d) (length_type c)) as [Hlt|Hge].
  { unfold parse in E. by destruct (Z.ltb_spec (zlen d) (length_type c)); [|lia]. }
  assert (exists len d', - 2 ^ (8 * length_type c - 1) <= len < 2 ^ (8 * length_type c - 1) /\
    d = be_bytes (length_size (length_type_ c)) len ++ d') as (len & d' & Hr & ->).
  { exists (be_int (length_size (length_type_ c)) d), (zdrop (length_type c) d).
    split; [by apply be_int_range|]. rewrite be_bytes_be_int by done. by rewrite ztake_zdrop. }
  rewrite parse_header in E by done.
  destruct (_ || _) eqn:Hb; [done|]. destruct (Z.ltb_spec (zlen d') len); [done|].
  destruct (bool_decide_reflect (zslice (len - checksum_length_ c) (checksum_length_ c) d'
    = checksum_bytes c (ztake (len - checksum_length_ c) d'))) as [Es|]; [|done].
  injection E as <- <-. apply orb_false_elim in Hb as [Hmin Hmax]. zbool.
  pose proof Hc as [Hcl _].
  assert (zlen (ztake (len - checksum_length_ c) d') + checksum_length_ c = len) as Hlen
    by (rewrite zlen_ztake; lia).
  split.
  - unfold lh_frame. rewrite Hlen, <- Es, <- !app_assoc. f_equal. unfold zslice.
    rewrite <- (ztake_zdrop (len - checksum_length_ c) d') at 1. f_equal.
    rewrite <- (ztake_zdrop (checksum_length_ c) (zdrop (len - _) d')) at 1. f_equal.
    rewrite zdrop_zdrop by lia. f_equal. lia.
  - split; rewrite Hlen; [apply Hr|]. intros Hm.
    replace (0 <? max_payload_ c) with true in Hmax by (symmetry; apply Z.ltb_lt; lia).
    cbn in Hmax. zbool. lia.
Qed.

(** A payload changed in at most four consecutive bytes fails its checksum. *)
Lemma parse_corrupt c x u v y tail :
  codec_wf c -> checksum_length_ c = 4 -> lh_accepts c (x ++ u ++ y) ->
  length u = length v -> (length u <= 4)%nat -> u <> v ->
  parse c (be_bytes (length_size (length_type_ c)) (zlen (x ++ u ++ y) + 4)
    ++ (x ++ v ++ y) ++ be_bytes 4 (crc32_ref (x ++ u ++ y)) ++ tail) = Invalid.
Proof.
  intros Hc Hcl Ha Huv H4 Hne. destruct (accepts_header c _ Hc Ha) as [Hr Hb].
  set (k := zlen (x ++ u ++ y)) in *. rewrite Hcl in *.
  assert (zlen (x ++ v ++ y) = k) as Hk
    by (unfold k, zlen; rewrite !length_app, Huv; done).
  rewrite parse_header, Hcl, Hb by done. pose proof (zlen_nonneg tail).
  rewrite (zlen_app (x ++ v ++ y)), Hk, zlen_app.
  change (zlen (be_bytes 4 _)) with 4. zdecide. unfold zslice.
  rewrite Z.add_simpl_r, zdrop_app_exact, !ztake_app_exact by done.
  rewrite bool_decide_eq_false_2; [done|]. unfold checksum_bytes. rewrite Hcl.
  change (0 <? 4) with true. cbv iota.
  intros E. apply (f_equal be_val) in E. rewrite !be_val_be_bytes in E.
  rewrite !Z.mod_small in E by apply crc32_ref_range.
  by eapply (crc32_ref_burst x u v y).
Qed.

Lemma set_buff_length_ok c len b :
  wf b -> length_type c <= room b -> - 2 ^ 63 <= len < 2 ^ 63 ->
  exists b', set_buff_length c len b = Ok b' /\ wf b' /\
    contents b' = contents b ++ be_bytes (length_size (length_type_ c)) len /\
    max_size_ b' = max_size_ b /\ writer_index_ b' <= writer_index_ b + length_type c.
Proof.
  unfold set_buff_length, length_type. intros Hwf Hr Hlen.
  assert (forall n, (0 < n)%nat -> be_bytes n (swrap (8 * Z.of_nat n) len) = be_bytes n len) as E.
  { intros n Hn. rewrite <- be_bytes_mod.
    pose proof (uwrap_swrap (8 * Z.of_nat n) len ltac:(lia)) as E. unfold uwrap in E.
    rewrite E. apply be_bytes_mod. }
  destruct (length_type_ c); cbn [length_size] in Hr |- *.
  - rewrite <- (E 1%nat) by lia. by apply append_int8_ok.
  - rewrite <- (E 2%nat) by lia. by apply append_int16_ok.
  - rewrite <- (E 4%nat) by lia. by apply append_int32_ok.
  - by apply append_int64_ok.
Qed.

(** Every branch of [encode]. *)
Lemma lh_encode_ok c payload buff :
  codec_wf c -> wf payload -> fresh buff ->
  zlen (lh_frame c (contents payload)) <= vec_max_size ->
  let p := contents payload in
  if zlen p =? 0 then lh_encode c payload buff = Ok (0, buff)
  else if (0 <? max_payload_ c) && (max_payload_ c <? zlen p)
  then lh_encode c payload buff = Ok (-1, buff)
  else exists b', lh_encode c payload buff = Ok (1, b') /\ wf b' /\ contents b' = lh_frame c p.
Proof.
  intros Hc Hwf (Hwfb & Hcb & Hub & Hwb) Hroom p. unfold lh_encode.
  rewrite readable_bytes_ok by done. cbn [mbind outcome_bind].
  pose proof (contents_length payload Hwf) as Hlen. rewrite <- Hlen. fold p in Hlen, Hroom |- *.
  rewrite lh_frame_length in Hroom by done. pose proof Hc as [Hcl _].
  pose proof (length_type_range c). pose proof (zlen_nonneg p).
  assert (forall b', max_size_ b' = max_size_ buff -> room b' = vec_max_size - writer_index_ b')
    as Hr by (intros b' Hm; unfold room, unlimited in *; by rewrite Hm, Hub).
  unfold min_payload, max_payload, checksum_length, vec_max_size, kInt64Max in *.
  rewrite (i64_small (zlen p)) by lia.
  destruct (Z.eqb_spec (zlen p) 0); [done|].
  replace (zlen p <? _) with false by (symmetry; apply Z.ltb_ge; lia). cbn [orb].
  destruct (_ && _); [done|]. rewrite defined_true by (apply Z.leb_le; lia).
  cbn [mbind outcome_bind].
  destruct (set_buff_length_ok c (zlen p + checksum_length_ c) buff)
    as (b1 & -> & Hwf1 & Hc1 & Hm1 & Hw1); [done | rewrite Hr by done; lia | lia |].
  rewrite Hcb in Hc1. cbn [mbind outcome_bind app] in *.
  rewrite begin_read_ok by done. cbn [mbind outcome_bind].
  replace (mem_read (reader_index_ payload) (zlen p) payload) with (Ok (A := bytes) p).
  2: { rewrite <- (Z.add_0_r (reader_index_ payload)), mem_read_contents by (done || lia).
       unfold zslice. by rewrite zdrop_0, ztake_ge. }
  cbn [mbind outcome_bind].
  destruct (append_ok p b1 Hwf1) as (b2 & -> & Hwf2 & Hc2 & Hm2 & Hw2);
    [rewrite Hr by done; lia|]. cbn [mbind outcome_bind].
  unfold lh_frame, checksum_bytes in *. rewrite Hc1 in Hc2.
  destruct Hcl as [Hcl|Hcl]; rewrite Hcl in *; cbn [Z.ltb Z.compare] in *.
  - exists b2. rewrite app_nil_r. done.
  - rewrite crc32_func_ref.
    destruct (append_int32_ok (i32 (crc32_ref p)) b2 Hwf2) as (b3 & -> & Hwf3 & Hc3 & _);
      [rewrite Hr by congruence; lia|].
    exists b3. split_and!; [done | done |]. rewrite Hc3, Hc2, <- app_assoc. do 2 f_equal.
    rewrite <- be_bytes_mod. unfold i32.
    pose proof (uwrap_swrap 32 (crc32_ref p) ltac:(lia)) as E. unfold uwrap in E.
    change (8 * Z.of_nat 4) with 32. rewrite E. apply (be_bytes_mod 4).
Qed.

(** ** The promises of [Codec] *)

Lemma decode_parse c b payload :
  codec_wf c -> wf b -> fresh payload ->
  match parse c (contents b) with
  | Incomplete => decode c b payload = Ok (0, c, b, payload)
  | Invalid => decode c b payload = Ok (-1, c, b, payload)
  | Frame body rest => exists b' payload', decode c b payload = Ok (1, c, b', payload') /\
      consumed b b' /\ contents b' = rest /\ wf payload' /\ contents payload' = body
  end.
Proof.
  intros Hc Hwf Hpl. pose proof (lh_decode_parse c b payload Hc Hwf Hpl) as D. cbn.
  destruct (parse c (contents b)) as [| |body rest]; [by rewrite D.. |].
  destruct D as (b' & pl' & -> & ?). eauto.
Qed.

Lemma lh_frame_nonempty c p : lh_frame c p <> [].
Proof.
  unfold lh_frame. intros E. apply (f_equal length) in E.
  rewrite length_app, length_be_bytes in E. pose proof (length_size_pos (length_type_ c)).
  cbn in E. lia.
Qed.

#[export] Instance length_header_laws : CodecLaws LengthHeaderCodec.
Proof.
  refine {| codec_ok := codec_wf |}. intros c b pl Hc Hwf Hpl.
  pose proof (decode_parse c b pl Hc Hwf Hpl) as D.
  destruct (parse c (contents b)) as [| |body rest] eqn:E; [eauto 10.. |].
  destruct D as (b' & pl' & -> & Hcons & Hb' & Hpl' & _). apply parse_sound in E as [E _]; [|done].
  do 4 eexists. split_and!; [done | done |]. left. split_and!; try done.
  pose proof (zlen_nonneg (lh_frame c body)). pose proof (zlen_nonneg rest).
  exists (zlen (lh_frame c body)). rewrite E, Hb', zlen_app. split_and!; [|by rewrite zdrop_app_exact|lia].
  destruct (decide (zlen (lh_frame c body) = 0)) as [Z0|]; [|lia].
  by apply zlen_0_nil, lh_frame_nonempty in Z0.
Defined.

#[export] Instance length_header_framing : FramingCodec LengthHeaderCodec.
Proof.
  refine {| ready := codec_wf; frame := lh_frame; accepts := lh_accepts |}.
  - done.
  - intros c p _. apply lh_frame_nonempty.
  - intros c b pl Hc Hwf Hb. cbn. unfold lh_decode.
    rewrite readable_bytes_ok, <- contents_length, Hb by done. cbn [mbind outcome_bind].
    pose proof (length_type_range c). change (zlen []) with 0. by zdecide.
  - intros c b pl p tail Hc Ha Hwf Hpl E. pose proof (decode_parse c b pl Hc Hwf Hpl) as D.
    rewrite E, parse_frame in D by done. destruct D as (b' & pl' & ? & ? & ? & ? & ?). eauto 10.
Defined.

#[export] Instance length_header_incremental : IncrementalCodec LengthHeaderCodec.
Proof.
  refine {| decode_prefix := _ |}. intros c b pl p rest Hc Ha Hwf Hpl E Hne.
  pose proof (decode_parse c b pl Hc Hwf Hpl) as D.
  by rewrite (parse_prefix c p _ rest) in D.
Defined.

End LengthHeader_lemmas.

(** ** Limits of the format *)

Definition little : Arch := {| arch_little_endian := true |}.

(** What a peer with the same configuration makes of what [encode] wrote. *)
Definition encode_parse (c : LengthHeaderCodec) (p : bytes) : outcome (Z * parsed) :=
  let _ := little in
  payload ← make kUnLimitSize kInitialSize;
  '(_, payload) ← append p payload;
  buff ← make kUnLimitSize kInitialSize;
  '(rt, buff) ← lh_encode c payload buff;
  Ok (rt, parse c (contents buff)).

(** [encode] compares the payload with the limit, [decode] the payload and its
    checksum: a payload within four bytes of the limit is sent and rejected. *)
Example limit_counts_checksum :
  encode_parse (make_codec kLengthType32 true 8) (txt "abcde") = Ok (1, Invalid).
Proof. vm_compute. reflexivity. Qed.

(** Nothing compares the length with the width of the length field: 125 bytes
    and a checksum do not fit the signed 8-bit length. *)
Example length8_wraps :
  encode_parse (make_codec kLengthType8 true 1024) (replicate 125 (z2b 65)) = Ok (1, Invalid).
Proof. vm_compute. reflexivity. Qed.

(** With a 64-bit length and no limit, a length field of [2^63 - 1] makes
    [length + length_type()] overflow. *)
Example length_overflow :
  let _ := little in
  lh_decode (make_codec kLengthType64 true 0)
    (mkBuffer kUnLimitSize 0 8 (be_bytes 8 (2 ^ 63 - 1))) (mkBuffer kUnLimitSize 0 0 [])
  = Fault (Undefined "length + length_type() overflows").
Proof. vm_compute. reflexivity. Qed.

(** ** Properties *)

(** C22.  [decode] of every codec, but for one with lengths of eight bytes and no limit for the payload (which a hostile length
    makes overflow, [length_overflow]), refines the wire format: on any bytes a peer may send it
    returns without a failed check or an access outside the buffer.  An
    incomplete frame (0) and an invalid one (-1) leave the buffer alone; a
    frame at the front (1) is removed from it and its payload is delivered. *)
Theorem decode_refines_parse `{Arch} (c : LengthHeaderCodec) (b payload : ByteBuffer) :
  codec_wf c -> wf b -> fresh payload ->
  match parse c (contents b) with
  | Incomplete => decode c b payload = Ok (0, c, b, payload)
  | Invalid => decode c b payload = Ok (-1, c, b, payload)
  | Frame body rest =>
      lh_accepts c body /\ contents b = lh_frame c body ++ rest /\
      exists b' payload', decode c b payload = Ok (1, c, b', payload') /\
        consumed b b' /\ contents b' = rest /\ contents payload' = body
  end.
Proof.
  intros Hc Hwf Hpl. pose proof (decode_parse c b payload Hc Hwf Hpl) as D.
  destruct (parse c (contents b)) as [| |body rest] eqn:E; [done..|].
  apply parse_sound in E as [E Ha]; [|done].
  destruct D as (b' & pl' & ? & ? & ? & _ & ?). eauto 10.
Qed.

Lemma decode_refines_parse_witness :
  let A := little in let c := make_codec kLengthType16 false 64 in
  let b := mkBuffer kUnLimitSize 0 6 (be_bytes 2 3 ++ txt "abcd") in
  exists b' payload', decode c b (mkBuffer kUnLimitSize 0 0 []) = Ok (1, c, b', payload') /\
    contents b' = txt "d" /\ contents payload' = txt "abc".
Proof.
  intros A c b.
  destruct (decode_refines_parse (H := A) c b (mkBuffer kUnLimitSize 0 0 []))
    as (_ & _ & b' & pl & ? & ? & ? & ?).
  - split; [by left | done].
  - vm_compute; intuition congruence.
  - vm_compute; intuition congruence.
  - eauto.
Defined.

(** C1.  Framing survives any fragmentation: if the reads of a connection
    together carry the frames of [ps], however TCP cut them, then [recv] called
    after every read delivers exactly the messages [ps], in order, closes
    nothing, and leaves no byte behind. *)
Theorem length_header_stream `{Arch} (c : LengthHeaderCodec) (b : ByteBuffer)
    (ps chunks : list bytes) :
  codec_wf c -> Forall (lh_accepts c) ps -> fresh b ->
  concat chunks = concat (lh_frame c <$> ps) -> zlen (concat chunks) <= vec_max_size ->
  exists es b', feed chunks c b = Ok (es, c, b') /\ wf b' /\ contents b' = [] /\ delivers es ps.
Proof.
  intros Hc Hps (Hwf & Hb & Hu & Hw) E Hroom.
  apply feed_stream; try done; [by rewrite Hb | | lia].
  rewrite Hb. destruct ps as [|p ps]; [done|]. cbn [pending].
  pose proof (lh_frame_nonempty c p). cbn. destruct (lh_frame c p); [done | cbn; lia].
Qed.

Lemma length_header_stream_witness :
  let A := little in let c := make_codec kLengthType8 false 64 in
  exists es b', feed [[Byte.x03]; txt "ab"; txt "c"] c (mkBuffer kUnLimitSize 0 0 [])
    = Ok (es, c, b') /\ delivers es [txt "abc"].
Proof.
  intros A c.
  destruct (length_header_stream (H := A) c (mkBuffer kUnLimitSize 0 0 []) [txt "abc"]
    [[Byte.x03]; txt "ab"; txt "c"]) as (es & b' & ? & _ & _ & ?).
  - split; [by left | done].
  - repeat constructor; vm_compute; intuition congruence.
  - vm_compute; intuition congruence.
  - reflexivity.
  - vm_compute; congruence.
  - eauto.
Defined.

(**  Every branch of [send]: an empty payload sends nothing, one above the
    limit closes the connection, and any other is handed to the connection as
    exactly one frame, the payload staying as it was. *)
Theorem length_header_send `{Arch} (c : LengthHeaderCodec) (payload : ByteBuffer) :
  codec_wf c -> wf payload -> zlen (lh_frame c (contents payload)) <= vec_max_size ->
  let p := contents payload in
  if zlen p =? 0 then send c payload = Ok []
  else if (0 <? max_payload_ c) && (max_payload_ c <? zlen p)
  then send c payload = Ok [ConnShutdown]
  else exists buff, send c payload = Ok [ConnSend buff] /\ contents buff = lh_frame c p.
Proof.
  intros Hc Hwf Hroom p. unfold send. destruct make_fresh as (b & -> & Hb).
  pose proof (lh_encode_ok c payload b Hc Hwf Hb Hroom) as E. cbn in E |- *.
  fold p in E. destruct (zlen p =? 0); [by rewrite E|].
  destruct (_ && _); [by rewrite E|]. destruct E as (b' & -> & _ & ?). cbn. eauto.
Qed.

Lemma length_header_send_witness :
  let A := little in
  exists buff, send (make_codec kLengthType32 true 64) (mkBuffer kUnLimitSize 0 5 (txt "hello"))
    = Ok [ConnSend buff] /\
    contents buff = be_bytes 4 9 ++ txt "hello" ++ be_bytes 4 0x3610a686.
Proof.
  intros A.
  refine (length_header_send (H := A) (make_codec kLengthType32 true 64)
    (mkBuffer kUnLimitSize 0 5 (txt "hello")) _ _ _).
  - split; [by right | done].
  - vm_compute; intuition congruence.
  - vm_compute; congruence.
Defined.

(** C25.  With the checksum on, a frame whose payload was altered in at most
    four consecutive bytes is never delivered: [recv] closes the connection. *)
Theorem corrupt_frame_rejected `{Arch} (c : LengthHeaderCodec) (b : ByteBuffer)
    (x u v y tail : bytes) (has_cb : bool) (fuel : nat) :
  codec_wf c -> checksum_length_ c = 4 -> lh_accepts c (x ++ u ++ y) ->
  length u = length v -> (length u <= 4)%nat -> u <> v -> wf b -> (0 < fuel)%nat ->
  contents b = be_bytes (length_size (length_type_ c)) (zlen (x ++ u ++ y) + 4)
    ++ (x ++ v ++ y) ++ be_bytes 4 (crc32_ref (x ++ u ++ y)) ++ tail ->
  recv true fuel has_cb c b = Ok ([ConnShutdown], c, b).
Proof.
  intros Hc Hs Ha Hl H4 Hne Hwf Hf E. destruct fuel as [|fuel]; [lia|].
  unfold recv. cbn [mbind outcome_bind check recv_loop].
  destruct make_fresh as (pl & -> & Hpl). cbn [mbind outcome_bind].
  pose proof (decode_parse c b pl Hc Hwf Hpl) as D.
  rewrite E, parse_corrupt in D by done. by rewrite D.
Qed.

Lemma corrupt_frame_rejected_witness :
  let A := little in let c := make_codec kLengthType8 true 64 in
  let d := be_bytes 1 9 ++ txt "jello" ++ be_bytes 4 (crc32_ref (txt "hello")) in
  recv true 1 true c (mkBuffer kUnLimitSize 0 10 d)
    = Ok ([ConnShutdown], c, mkBuffer kUnLimitSize 0 10 d).
Proof.
  intros A c d.
  refine (corrupt_frame_rejected (H := A) c (mkBuffer kUnLimitSize 0 10 d)
    [] (txt "h") (txt "j") (txt "ello") [] true 1 _ _ _ _ _ _ _ _ _).
  - split; [by right | done].
  - reflexivity.
  - vm_compute; intuition congruence.
  - reflexivity.
  - vm_compute; lia.
  - discriminate.
  - vm_compute; intuition congruence.
  - lia.
  - vm_compute; reflexivity.
Defined.

(**  [recv] is safe and terminates on hostile input: whatever bytes the
    buffer holds, one more round than there are bytes suffices, no check fails,
    and the buffer loses only a prefix. *)
Theorem length_header_recv_total `{Arch} (c : LengthHeaderCodec) (b : ByteBuffer)
    (has_cb : bool) (fuel : nat) :
  codec_wf c -> wf b -> (length (contents b) < fuel)%nat ->
  exists es c' b' k, recv true fuel has_cb c b = Ok (es, c', b') /\ consumed b b' /\
    contents b' = zdrop k (contents b).
Proof.
  intros Hc Hwf Hf. destruct (@recv_loop_total _ _ length_header_laws fuel has_cb c b Hc Hwf Hf)
    as (es & c' & b' & E & _ & Hcons & k & _ & Hk).
  by exists es, c', b', k.
Qed.

Lemma length_header_recv_total_witness :
  let A := little in let c := make_codec kLengthType8 true 64 in
  let b := mkBuffer kUnLimitSize 1 6 (txt "garbage") in
  exists es c' b' k, recv true 6 true c b = Ok (es, c', b') /\ consumed b b' /\
    contents b' = zdrop k (txt "arbag").
Proof.
  intros A c b. refine (length_header_recv_total (H := A) c b true 6 _ _ _).
  - split; [by right | done].
  - vm_compute; intuition congruence.
  - vm_compute; lia.
Defined.
