(* ===== verification/StringEofCodec.v ===== *)
(** * StringEofCodec (include/codec/StringEofCodec.h)

    Messages ended by a terminator string.  The codec object carries
    [curr_offset_], from which the next search starts.  The file shows that
    [decode] is safe on all input and only ever delivers what precedes a
    terminator, that a batch of complete messages is delivered, and that the
    bookkeeping of [curr_offset_] makes the codec lose a message whose
    terminator arrives separately: it is a [FramingCodec] but no
    [IncrementalCodec]. *)

From S2P Require Import Prelude ByteBuffer StringPiece Codec.

(** ** Definitions *)

Record StringEofCodec : Type := mkStringEof {
  string_eof_ : bytes;
  max_payload_ : Z;
  curr_offset_ : Z;
}.

Definition make_codec (string_eof : bytes) (max_payload : Z) : outcome StringEofCodec :=
  check (0 <? zlen string_eof) "string_eof.size() > 0";;
  check (0 <? max_payload) "max_payload > 0";;
  Ok (mkStringEof string_eof max_payload 0).

Definition set_offset (o : Z) (c : StringEofCodec) : StringEofCodec :=
  mkStringEof (string_eof_ c) (max_payload_ c) o.

(** The search, with its special case for a single character. *)
Definition find_eof (c : StringEofCodec) (s : bytes) : Z :=
  match string_eof_ c with
  | [ch] => find_char s ch (curr_offset_ c)
  | eof => find s eof (curr_offset_ c)
  end.

Definition eof_decode (c : StringEofCodec) (buff payload : ByteBuffer)
    : outcome (Z * StringEofCodec * ByteBuffer * ByteBuffer) :=
  let eof_size := zlen (string_eof_ c) in
  readable ← readable_bytes buff;
  if eof_size <=? readable then
    s ← to_string buff;
    let n := find_eof c s in
    let c := set_offset (u64 (curr_offset_ c + readable - eof_size - 1)) c in
    if (n =? npos) && (0 <? max_payload_ c) && (u64 (max_payload_ c + eof_size) <? readable) then
      Ok (-1, c, buff, payload)
    else if negb (n =? npos) then
      p ← begin_read buff;
      d ← mem_read p n buff;
      '(_, payload) ← append d payload;
      buff ← has_read (u64 (n + eof_size)) buff;
      Ok (1, set_offset 0 c, buff, payload)
    else Ok (0, c, buff, payload)
  else Ok (0, c, buff, payload).

Definition eof_encode (c : StringEofCodec) (payload buff : ByteBuffer)
    : outcome (Z * ByteBuffer) :=
  readable ← readable_bytes payload;
  let length := i64 readable in
  if length =? 0 then Ok (0, buff)
  else if (0 <? max_payload_ c) && (max_payload_ c <? length) then Ok (-1, buff)
  else
    p ← begin_read payload;
    d ← mem_read p length payload;
    '(_, buff) ← append d buff;
    '(_, buff) ← append (string_eof_ c) buff;
    Ok (1, buff).

#[export] Instance string_eof_codec : Codec StringEofCodec := {
  decode := eof_decode;
  encode := eof_encode;
}.

(** ** Specification *)

Definition eof_ok (c : StringEofCodec) : Prop :=
  0 < zlen (string_eof_ c) < 2 ^ 62 /\ 0 < max_payload_ c < 2 ^ 62 /\
  0 <= curr_offset_ c < 2 ^ 64.

Definition eof_frame (c : StringEofCodec) (p : bytes) : bytes := p ++ string_eof_ c.

(** The terminator occurs in the frame of [p] only at its end. *)
Definition eof_accepts (c : StringEofCodec) (p : bytes) : Prop :=
  forall i, occurs_at (p ++ string_eof_ c) (string_eof_ c) i -> zlen p <= i.

(** The same as a test. *)
Definition eof_free (c : StringEofCodec) (p : bytes) : bool :=
  forallb (fun i => negb (starts (string_eof_ c) (drop i (p ++ string_eof_ c)))) (seq 0 (length p)).

(** ** Lemmas *)

Lemma eof_free_accepts c p : eof_free c p = true -> eof_accepts c p.
Proof.
  unfold eof_free. rewrite forallb_forall. intros Hf i Ho.
  destruct (Z.le_gt_cases (zlen p) i) as [|Hlt]; [done|]. pose proof Ho as (Hi & _).
  unfold zlen in Hlt. specialize (Hf (Z.to_nat i)). rewrite in_seq in Hf.
  specialize (Hf ltac:(lia)). apply negb_true_iff in Hf.
  apply occurs_at_starts in Ho; [unfold zdrop in Ho; congruence|].
  rewrite zlen_app. pose proof (zlen_nonneg (string_eof_ c)). unfold zlen in *. lia.
Qed.

Lemma occurs_at_char s ch i : occurs_at s [ch] i <-> char_at s (fun c => c = ch) i.
Proof.
  unfold occurs_at, char_at. change (zlen [ch]) with 1. split.
  - intros (Hi & Hlen & E). exists ch. split_and!; [done | | done].
    unfold zslice, ztake, zdrop in E. apply (f_equal (fun l => l !! 0%nat)) in E.
    rewrite lookup_take_lt, lookup_drop in E by (cbn; lia). by rewrite Nat.add_0_r in E.
  - intros (c & Hi & E & ->). pose proof (lookup_lt_Some _ _ _ E). unfold zlen.
    split_and!; [done | lia |]. unfold zslice, ztake, zdrop.
    by rewrite (drop_S _ ch) by done.
Qed.

Lemma find_char_spec s ch pos :
  valid s -> 0 <= pos -> first_from (occurs_at s [ch]) pos (find_char s ch pos).
Proof.
  intros. rewrite find_char_up_loop by done.
  eapply first_from_iff, up_loop_spec; [|done|done].
  intros i. rewrite occurs_at_char. apply char_at_iff. intros c. by rewrite bool_decide_eq_true.
Qed.

Lemma find_eof_spec c s :
  eof_ok c -> valid s ->
  first_from (occurs_at s (string_eof_ c)) (curr_offset_ c) (find_eof c s).
Proof.
  intros (He & _ & [Ho _]) Hs. unfold find_eof. assert (valid (string_eof_ c)) by (unfold valid; lia).
  destruct (string_eof_ c) as [|ch [|]]; [by apply find_spec | by apply find_char_spec |].
  by apply find_spec.
Qed.

Lemma wf_contents_valid b : wf b -> valid (contents b).
Proof.
  intros Hwf. unfold valid. rewrite contents_length by done. destruct Hwf as (? & ? & _).
  unfold vec_max_size, kInt64Max in *. lia.
Qed.

Lemma occurs_at_split s e i :
  occurs_at s e i -> s = ztake i s ++ e ++ zdrop (i + zlen e) s.
Proof.
  intros (Hi & Hl & E). pose proof (zlen_nonneg e). unfold zslice in E.
  rewrite <- (ztake_zdrop i s) at 1. f_equal. rewrite <- E at 1.
  rewrite <- (ztake_zdrop (zlen e) (zdrop i s)) at 1. f_equal.
  rewrite zdrop_zdrop by lia. f_equal. lia.
Qed.

(** The result of [decode] in terms of the position found. *)
Lemma eof_decode_found c b payload :
  eof_ok c -> wf b -> fresh payload -> find_eof c (contents b) <> npos ->
  exists b' payload', let n := find_eof c (contents b) in
    eof_decode c b payload = Ok (1, set_offset 0 c, b', payload') /\ consumed b b' /\
    wf payload' /\ contents payload' = ztake n (contents b) /\
    contents b' = zdrop (n + zlen (string_eof_ c)) (contents b).
Proof.
  intros Hc Hwf (Hwfp & Hcp & Hup & Hwp) Hn.
  pose proof (find_eof_spec c (contents b) Hc (wf_contents_valid b Hwf)) as F.
  set (n := find_eof c (contents b)) in *.
  destruct F as [[? _]|(Hge & _ & (Hn0 & Hle & _) & _)]; [done|].
  unfold eof_decode. pose proof (contents_length b Hwf) as Hlen.
  pose proof Hwf as (Hi & Hs & _). destruct Hc as (He & Hm & Ho).
  rewrite readable_bytes_ok, <- Hlen by done. cbn [mbind outcome_bind].
  zdecide. rewrite to_string_ok by done. cbn [mbind outcome_bind].
  fold n. rewrite (proj2 (Z.eqb_neq n npos) Hn). cbn [andb negb].
  rewrite begin_read_ok by done. cbn [mbind outcome_bind].
  unfold mem_read. rewrite defined_true by (unfold size in *; apply andb_true_intro;
    split; apply Z.leb_le; lia). cbn [mbind outcome_bind].
  assert (zslice (reader_index_ b) n (buffer_ b) = ztake n (contents b)) as ->.
  { unfold contents, zslice. rewrite ztake_ztake. f_equal. lia. }
  destruct (append_ok (ztake n (contents b)) payload Hwfp) as (pl' & -> & ? & Hc' & _).
  { unfold room. rewrite Hup, Hwp, zlen_ztake. lia. }
  cbn [mbind outcome_bind]. rewrite (u64_small (n + _)) by (unfold vec_max_size, kInt64Max in *; lia).
  destruct (has_read_ok (n + zlen (string_eof_ c)) b) as (b' & -> & ? & ? & ? & _ & ?);
    [done | lia |].
  cbn. exists b', pl'. rewrite Hcp in Hc'. unfold set_offset, consumed. cbn. done.
Qed.

Lemma eof_decode_not_found c b payload :
  eof_ok c -> wf b ->
  find_eof c (contents b) = npos \/ zlen (contents b) < zlen (string_eof_ c) ->
  exists rt c', eof_decode c b payload = Ok (rt, c', b, payload) /\ eof_ok c' /\
    (rt = 0 \/ rt = -1 /\ max_payload_ c + zlen (string_eof_ c) < zlen (contents b)).
Proof.
  intros Hc Hwf Hn. unfold eof_decode. pose proof Hc as (He & Hm & Ho).
  rewrite readable_bytes_ok, <- contents_length by done. cbn [mbind outcome_bind].
  destruct (Z.leb_spec (zlen (string_eof_ c)) (zlen (contents b))) as [Hle|]; [|by eauto 10].
  destruct Hn as [Hn|]; [|lia]. rewrite to_string_ok by done. cbn [mbind outcome_bind].
  rewrite Hn, Z.eqb_refl. cbn [andb negb].
  match goal with |- context [set_offset ?o c] =>
    assert (eof_ok (set_offset o c)) by (split_and!; cbn; try done; try lia; apply u64_range)
  end.
  cbn [max_payload_ set_offset]. rewrite (u64_small (_ + _)) by lia.
  destruct (_ && _) eqn:E; [|by eauto 10]. zbool. eauto 10.
Qed.

#[export] Instance string_eof_laws : CodecLaws StringEofCodec.
Proof.
  refine {| codec_ok := eof_ok |}. intros c b pl Hc Hwf Hpl. cbn.
  destruct (decide (find_eof c (contents b) = npos)) as [Hn|Hn].
  { destruct (eof_decode_not_found c b pl Hc Hwf) as (rt & c' & E & ? & ?); [by left|].
    do 4 eexists. split_and!; [done | done |]. right. intuition. }
  pose proof (find_eof_spec c (contents b) Hc (wf_contents_valid b Hwf)) as F.
  destruct (eof_decode_found c b pl Hc Hwf Hpl Hn) as (b' & pl' & E & Hcons & ? & _ & Hb').
  destruct F as [[? _]|(_ & _ & (Hn0 & Hle & _) & _)]; [done|].
  destruct Hc as (He & Hm & Ho).
  do 4 eexists. split_and!; [done | by split_and!; cbn; lia |]. left. split_and!; try done.
  eexists. split_and!; [|done|done]. lia.
Defined.

#[export] Instance string_eof_framing : FramingCodec StringEofCodec.
Proof.
  refine {| ready := fun c => eof_ok c /\ curr_offset_ c = 0;
            frame := eof_frame; accepts := eof_accepts |}.
  - intros c [? _]. done.
  - intros c p [(He & _) _] E. apply app_nil in E as [_ E]. rewrite E in He.
    change (zlen []) with 0 in He. lia.
  - intros c b pl [(He & _) _] Hwf Hb. cbn. unfold eof_decode.
    rewrite readable_bytes_ok, <- contents_length, Hb by done. cbn [mbind outcome_bind].
    change (zlen []) with 0. by zdecide.
  - intros c b pl p tail [Hc Ho] Ha Hwf Hpl Hb. unfold eof_frame in Hb.
    rewrite <- app_assoc in Hb. pose proof (zlen_nonneg p). pose proof (zlen_nonneg tail).
    assert (occurs_at (contents b) (string_eof_ c) (zlen p)) as Hoc.
    { rewrite Hb. unfold occurs_at, zslice. rewrite !zlen_app, zdrop_app_exact by done.
      split_and!; [lia | lia | by apply ztake_app_exact]. }
    assert (find_eof c (contents b) = zlen p) as Hf.
    { pose proof (find_eof_spec c (contents b) Hc (wf_contents_valid b Hwf)) as F.
      destruct F as [[_ F]|(Hge & _ & Hn & Hfirst)]; [by destruct (F (zlen p)); [lia|]|].
      destruct (Z.lt_trichotomy (find_eof c (contents b)) (zlen p)) as [Hlt|[?|Hgt]]; [|done|].
      - exfalso. set (n := find_eof _ _) in *.
        assert (occurs_at (ztake (zlen (p ++ string_eof_ c)) (contents b)) (string_eof_ c) n) as Hp.
        { apply occurs_at_ztake; rewrite ?zlen_app; [|split; [done|lia]].
          rewrite Hb, !zlen_app. pose proof (zlen_nonneg (string_eof_ c)). lia. }
        rewrite Hb, (app_assoc p), ztake_app_exact in Hp by done. apply Ha in Hp. lia.
      - destruct (Hfirst (zlen p)); [lia | done]. }
    destruct (eof_decode_found c b pl Hc Hwf Hpl) as (b' & pl' & E & Hcons & Hwfp & Hpl' & Hb').
    { rewrite Hf. destruct Hoc as (_ & Hle & _). pose proof (wf_contents_valid b Hwf).
      destruct Hc as (He & _). unfold valid, npos in *. lia. }
    exists b', pl'. rewrite Hf, Hb in *. cbn.
    replace (set_offset 0 c) with c in E by (destruct c; cbn in *; by subst).
    split_and!; [done | done | | done |].
    + rewrite Hb', (app_assoc p), zdrop_app_exact by (rewrite zlen_app; lia). done.
    + rewrite Hpl'. by apply ztake_app_exact.
Defined.

(** ** A message the codec loses *)

Definition crlf : bytes := [Byte.x0d; Byte.x0a].

Definition feed_events (chunks : list bytes) : outcome (list event * Z * bytes) :=
  c ← make_codec crlf 1024;
  '(es, c, b) ← feed chunks c (mkBuffer kUnLimitSize 0 0 []);
  Ok (es, curr_offset_ c, contents b).

(** The message ["ab"] is delivered when its terminator comes with it.  When the
    two come in separate reads, the first [decode] adds [2 - 2 - 1] to the
    unsigned offset, the second searches from [2^64 - 1], and the complete
    message stays in the buffer. *)
Example eof_split_lost :
  feed_events [txt "ab" ++ crlf] =
    Ok ([MessageCallback (mkBuffer kUnLimitSize 0 2
           (memwrite 0 (txt "ab") (replicate 1024 Byte.x00)))], 0, []) /\
  feed_events [txt "ab"; crlf] = Ok ([], 0, txt "ab" ++ crlf).
Proof. split; vm_compute; reflexivity. Qed.

(** ** Properties *)

(** [decode] of any bytes, from any search offset, ends without a failed
    check or an access outside the buffer.  It delivers only what precedes a
    terminator, which it removes with it; otherwise the buffer is unchanged,
    and the connection is given up only if more than the limit is pending. *)
Theorem eof_decode_sound (c : StringEofCodec) (b payload : ByteBuffer) :
  eof_ok c -> wf b -> fresh payload ->
  exists rt c' b' payload', decode c b payload = Ok (rt, c', b', payload') /\ eof_ok c' /\
    ((rt = 1 /\ consumed b b' /\ curr_offset_ c' = 0 /\
      contents b = contents payload' ++ string_eof_ c ++ contents b') \/
     (rt = 0 /\ b' = b /\ payload' = payload) \/
     (rt = -1 /\ b' = b /\ max_payload_ c + zlen (string_eof_ c) < zlen (contents b))).
Proof.
  intros Hc Hwf Hpl. destruct (decide (find_eof c (contents b) = npos)) as [Hn|Hn].
  { destruct (eof_decode_not_found c b payload Hc Hwf) as (rt & c' & E & ? & Hrt); [by left|].
    exists rt, c', b, payload. split_and!; [done | done |]. intuition. }
  pose proof (find_eof_spec c (contents b) Hc (wf_contents_valid b Hwf)) as F.
  destruct (eof_decode_found c b payload Hc Hwf Hpl Hn) as (b' & pl' & E & Hcons & _ & Hp & Hb').
  destruct F as [[? _]|(_ & _ & Hoc & _)]; [done|]. destruct Hc as (He & Hm & Ho).
  exists 1, (set_offset 0 c), b', pl'. split_and!; [done | by split_and!; cbn; lia |].
  left. split_and!; try done. rewrite Hp, Hb'. by apply occurs_at_split.
Qed.

Lemma eof_decode_sound_witness :
  let c := mkStringEof crlf 1024 1 in
  let b := mkBuffer kUnLimitSize 0 6 (txt "ab" ++ crlf ++ txt "cd") in
  exists rt c' b' payload', decode c b (mkBuffer kUnLimitSize 0 0 []) = Ok (rt, c', b', payload').
Proof.
  intros c b.
  destruct (eof_decode_sound c b (mkBuffer kUnLimitSize 0 0 [])) as (rt & c' & b' & pl & ? & _).
  - vm_compute; intuition congruence.
  - vm_compute; intuition congruence.
  - vm_compute; intuition congruence.
  - by exists rt, c', b', pl.
Defined.

(**  Complete messages that arrive together are all delivered, in order,
    by one [recv], and the codec is ready for the next read. *)
Theorem eof_batch_delivered (c : StringEofCodec) (b : ByteBuffer) (ps : list bytes) (fuel : nat) :
  eof_ok c -> curr_offset_ c = 0 -> Forall (eof_accepts c) ps -> wf b ->
  contents b = concat (eof_frame c <$> ps) -> (length (contents b) < fuel)%nat ->
  exists es b', recv true fuel true c b = Ok (es, c, b') /\ contents b' = [] /\ delivers es ps.
Proof.
  intros Hc Ho Hps Hwf E Hf.
  destruct (@recv_batch _ _ _ string_eof_framing fuel c b ps (conj Hc Ho) Hps Hwf E Hf)
    as (es & b' & ? & _ & ? & ?).
  eauto.
Qed.

Lemma eof_batch_delivered_witness :
  let c := mkStringEof crlf 1024 0 in
  exists es b', recv true 9 true c (mkBuffer kUnLimitSize 0 7 (txt "ab" ++ crlf ++ txt "c" ++ crlf))
    = Ok (es, c, b') /\ contents b' = [] /\ delivers es [txt "ab"; txt "c"].
Proof.
  intros c.
  refine (eof_batch_delivered c (mkBuffer kUnLimitSize 0 7 (txt "ab" ++ crlf ++ txt "c" ++ crlf))
    [txt "ab"; txt "c"] 9 _ _ _ _ _ _).
  - vm_compute; intuition congruence.
  - reflexivity.
  - apply Forall_cons; split; [|apply Forall_cons; split; [|done]]; by apply eof_free_accepts.
  - vm_compute; intuition congruence.
  - reflexivity.
  - vm_compute; lia.
Defined.
