(* ===== verification/ProtobufCodec.v ===== *)
(** * ProtobufCodec and ProtobufDispatch (include/protobuf/)

    The codec that frames protobuf messages with their type name, on top of [Codec], and the table of
    callbacks by message type.  The protobuf library is a parameter, the class [Protobuf]: messages,
    their descriptors (pointers, that is addresses), the generated pool and factory, and the two directions of the wire
    format.  What a message needs for the round trip is [generated]: its type is in the pool and the
    library parses what it serialized.

    The file shows that any messages sent through the codec arrive, each once and in order, whatever the reads are,
    and that no bytes of a peer make [recv] fail. *)

From S2P Require Import Prelude ByteOrder ByteBuffer NetBuffer Crc32c Codec LengthHeaderCodec.

(** ** Definitions *)

(** [wire] is what the message serializes to; [ByteSizeLong] is its length. *)
Class Protobuf : Type := {
  Message : Type;
  GetTypeName : Message -> bytes;
  GetDescriptor : Message -> Z;
  IsInitialized : Message -> bool;
  wire : Message -> bytes;
  FindMessageTypeByName : bytes -> option Z;
  GetPrototype : Z -> option Message;
  New : Message -> Message;
  ParseFromArray : Message -> bytes -> option Message;
}.

Inductive ERROR_CODE : Type := kNoError | kInvalidNameLen | kUnknownMessageType | kParseError.

#[global] Instance ERROR_CODE_eq_dec : EqDecision ERROR_CODE.
Proof. solve_decision. Defined.

(** Whether [dispatch_cb_] is set. *)
Record ProtobufCodec : Type := mkProtobufCodec { dispatch_cb_ : bool }.

Definition pb_length_type : LENGTH_TYPE := kLengthType32.
Definition header_length : Z := 4.
Definition pb_checksum_length : Z := 4.
Definition pb_max_payload : Z := 64 * 1024 * 1024.
Definition pb_min_payload : Z := header_length + 2 + pb_checksum_length.

(** [length_type()] in arithmetic. *)
Definition length_bytes : Z := Z.of_nat (length_size pb_length_type).

Section ProtobufCodec.
Context {arch : Arch}.

Definition pb_get_payload_length (buff : ByteBuffer) : outcome Z :=
  match pb_length_type with
  | kLengthType8 => peek_int8 buff
  | kLengthType16 => peek_int16 buff
  | kLengthType32 => peek_int32 buff
  | kLengthType64 => peek_int64 buff
  end.

Definition pb_decode (buff payload : ByteBuffer) : outcome (Z * ByteBuffer * ByteBuffer) :=
  readable ← readable_bytes buff;
  if length_bytes <=? readable then
    length ← pb_get_payload_length buff;
    if (length <? pb_min_payload) || (pb_max_payload <? length) then Ok (-1, buff, payload)
    else if u64 (length + length_bytes) <=? readable then
      p ← begin_read buff;
      '(expectsum, checksum) ←
        (if 0 <? pb_checksum_length then
           m ← mem_read (p + length_bytes + length - pb_checksum_length) 4 buff;
           d ← mem_read (p + length_bytes) (length - pb_checksum_length) buff;
           Ok (crc32_func (length - pb_checksum_length) d, peek_uint32 m)
         else Ok (0, 0));
      if expectsum =? checksum then
        d ← mem_read (p + length_bytes) (length - pb_checksum_length) buff;
        '(_, payload) ← append d payload;
        buff ← has_read (u64 (length_bytes + length)) buff;
        Ok (1, buff, payload)
      else Ok (-1, buff, payload)
    else Ok (0, buff, payload)
  else Ok (0, buff, payload).

Definition pb_set_buff_length (length : Z) (buff : ByteBuffer) : outcome ByteBuffer :=
  match pb_length_type with
  | kLengthType8 => append_int8 (i8 length) buff
  | kLengthType16 => append_int16 (i16 length) buff
  | kLengthType32 => append_int32 (i32 length) buff
  | kLengthType64 => append_int64 length buff
  end.

Definition pb_encode (payload buff : ByteBuffer) : outcome (Z * ByteBuffer) :=
  readable ← readable_bytes payload;
  let length := i64 readable in
  if length =? 0 then Ok (0, buff)
  else if (length <? pb_min_payload - pb_checksum_length) || (pb_max_payload <? length) then Ok (-1, buff)
  else
    buff ← pb_set_buff_length (length + pb_checksum_length) buff;
    p ← begin_read payload;
    d ← mem_read p length payload;
    '(_, buff) ← append d buff;
    if 0 <? pb_checksum_length then
      let checksum := crc32_func length d in
      buff ← append_int32 (i32 checksum) buff;
      Ok (1, buff)
    else Ok (1, buff).

#[export] Instance protobuf_codec : Codec ProtobufCodec := {
  decode c buff payload := '(rt, buff, payload) ← pb_decode buff payload; Ok (rt, c, buff, payload);
  encode c payload buff := pb_encode payload buff;
}.

Context {pb : Protobuf}.

(** The bytes that [SerializeToArray] writes into an array of [size] bytes. *)
Definition SerializeToArray (mesg : Message) (size : Z) : bytes :=
  if zlen (wire mesg) <=? size then wire mesg else [].

Definition serialize (mesg : Message) (payload : ByteBuffer) : outcome (bool * ByteBuffer) :=
  check (IsInitialized mesg) "serialize: IsInitialized";;
  r ← readable_bytes payload;
  check (r =? 0) "serialize: payload";;
  let type_name := GetTypeName mesg in
  let nameLen := i32 (u64 (zlen type_name + 1)) in
  payload ← append_int32 nameLen payload;
  defined (u64 nameLen <=? zlen type_name + 1) "serialize: type_name";;
  '(_, payload) ← append (ztake (u64 nameLen) (type_name ++ [Byte.x00])) payload;
  let size := i32 (zlen (wire mesg)) in
  payload ← ensure_writable_bytes (u64 size) payload;
  p ← begin_write payload;
  payload ← mem_write p (SerializeToArray mesg size) payload;
  payload ← has_written (u64 size) payload;
  r ← readable_bytes payload;
  check (r =? u64 (4 + nameLen + size)) "serialize: readable_bytes";;
  Ok (true, payload).

Definition pb_send (c : ProtobufCodec) (mesg : Message) : outcome (list event) :=
  payload ← make kUnLimitSize kInitialSize;
  '(ok, payload) ← serialize mesg payload;
  if (ok : bool) then Codec.send c payload else Ok [].

Definition generate_mesg (name : bytes) : option Message :=
  match FindMessageTypeByName name with
  | Some desc => match GetPrototype desc with Some prototype => Some (New prototype) | None => None end
  | None => None
  end.

Definition parse_mesg (payload : ByteBuffer) : outcome (ERROR_CODE * option Message * ByteBuffer) :=
  r ← readable_bytes payload;
  check (0 <? r) "parse_mesg: payload";;
  '(n, payload) ← read_int32 payload;
  let nameLen := u64 n in
  r ← readable_bytes payload;
  if (2 <=? nameLen) && (nameLen <=? r) then
    p ← begin_read payload;
    name ← mem_read p (nameLen - 1) payload;
    match generate_mesg name with
    | Some mesg =>
        let dataLen := i32 (u64 (r - nameLen)) in
        data ← mem_read (p + nameLen) dataLen payload;
        match ParseFromArray mesg data with
        | Some mesg => Ok (kNoError, Some mesg, payload)
        | None => Ok (kParseError, Some mesg, payload)
        end
    | None => Ok (kUnknownMessageType, None, payload)
    end
  else Ok (kInvalidNameLen, None, payload).

(** What [parse] calls. *)
Inductive parse_event : Type :=
| Dispatch (mesg : Message)
| NoDispatchWarning
| ErrorCallback (err : ERROR_CODE).

Definition parse (c : ProtobufCodec) (payload : ByteBuffer) : outcome parse_event :=
  r ← readable_bytes payload;
  check (0 <? r) "parse: payload";;
  '(err, mesg, payload) ← parse_mesg payload;
  Ok (match err, mesg with
      | kNoError, Some mesg => if dispatch_cb_ c then Dispatch mesg else NoDispatchWarning
      | _, _ => ErrorCallback err
      end).

(** [recv] with [parse] as the message callback: what happens, in order. *)
Inductive pb_event : Type := Parsed (e : parse_event) | Other (e : event).

Fixpoint parse_events (c : ProtobufCodec) (es : list event) : outcome (list pb_event) :=
  match es with
  | [] => Ok []
  | e :: es =>
      p ← match e with MessageCallback payload => e ← parse c payload; Ok (Parsed e) | _ => Ok (Other e) end;
      ps ← parse_events c es;
      Ok (p :: ps)
  end.

Definition pb_recv (in_own_loop : bool) (fuel : nat) (c : ProtobufCodec) (buff : ByteBuffer)
    : outcome (list pb_event * ByteBuffer) :=
  '(es, c, buff) ← Codec.recv in_own_loop fuel true c buff;
  ps ← parse_events c es;
  Ok (ps, buff).

(** The input of a connection, read by read. *)
Fixpoint pb_feed (chunks : list bytes) (c : ProtobufCodec) (buff : ByteBuffer) : outcome (list pb_event * ByteBuffer) :=
  match chunks with
  | [] => Ok ([], buff)
  | chunk :: chunks =>
      '(_, buff) ← append chunk buff;
      '(ps, buff) ← pb_recv true (S (length (contents buff))) c buff;
      '(ps', buff) ← pb_feed chunks c buff;
      Ok (ps ++ ps', buff)
  end.

(** The default error callback; [conn] is whether there is a connection. *)
Definition error_callback (conn : bool) (err : ERROR_CODE) : list event := if conn then [ConnShutdown] else [].

End ProtobufCodec.

Definition to_errstr (errorCode : ERROR_CODE) : bytes :=
  match errorCode with
  | kNoError => txt "NoError"
  | kInvalidNameLen => txt "InvalidNameLen"
  | kUnknownMessageType => txt "UnknownMessageType"
  | kParseError => txt "ParseError"
  end.

(** *** Dispatching by type *)

Section Dispatch.
Context {pb : Protobuf}.
Context {Callback : Type}.

(** [cbs_]: the registered callback with the descriptor of its type. [default_cb_] is [None] when it is null. *)
Record ProtobufDispatch : Type := mkDispatch {
  cbs_ : gmap Z (Z * Callback);
  default_cb_ : option Callback;
}.

(** [add<T>]; [descriptor] is [T::descriptor()]. *)
Definition add (descriptor : Z) (cb : Callback) (d : ProtobufDispatch) : ProtobufDispatch :=
  mkDispatch (<[descriptor := (descriptor, cb)]> (cbs_ d)) (default_cb_ d).

(** [CallbackT<T>::operator()]; [is_a] is whether the cast to the type with this descriptor succeeds. *)
Definition call_callback (is_a : Message -> Z -> bool) (t : Z * Callback) (mesg : Message) : outcome (option Callback) :=
  check (is_a mesg t.1) "CallbackT: concrete";;
  Ok (Some t.2).

(** The callback that is called with the message; [None] when the message is dropped. *)
Definition dispatch (is_a : Message -> Z -> bool) (mesg : Message) (d : ProtobufDispatch) : outcome (option Callback) :=
  match cbs_ d !! GetDescriptor mesg with
  | Some t => call_callback is_a t mesg
  | None => Ok (default_cb_ d)
  end.

End Dispatch.

(** ** The wire format *)

(** The [LengthHeaderCodec] with the same header and limit. *)
Definition pb_config : LengthHeaderCodec := make_codec pb_length_type true pb_max_payload.

Definition pb_frame (p : bytes) : bytes := lh_frame pb_config p.

(** The payloads that fit the frame: room for a type name, and the limit. *)
Definition pb_accepts (p : bytes) : Prop := 6 <= zlen p /\ zlen p + 4 <= pb_max_payload.

Section Wire.
Context {pb : Protobuf}.

(** The payload of a message. *)
Definition pb_body (m : Message) : bytes := be_bytes 4 (zlen (GetTypeName m) + 1) ++ GetTypeName m ++ [Byte.x00] ++ wire m.

(** What the library promises of a message of a generated type: the type is in the pool under the name of the message, and a new message
    of the type, parsing what [m] serialized, becomes [m]. *)
Definition generated (m : Message) : Prop :=
  exists desc proto, FindMessageTypeByName (GetTypeName m) = Some desc /\ GetPrototype desc = Some proto /\
    ParseFromArray (New proto) (wire m) = Some m.

(** A message that can be sent. *)
Definition sendable (m : Message) : Prop := IsInitialized m = true /\ GetTypeName m <> [] /\ pb_accepts (pb_body m).

End Wire.

(** ** Lemmas *)

Lemma pb_config_wf : codec_wf pb_config.
Proof. split; [by right|done]. Qed.

Lemma pb_accepts_lh p : pb_accepts p -> lh_accepts pb_config p.
Proof. intros [H1 H2]. unfold pb_max_payload in *. split; [change (zlen p + 4 < 2 ^ 31); lia|intros _; exact H2]. Qed.

Section Codec_lemmas.
Context {arch : Arch}.

(** The codec differs from [LengthHeaderCodec] only in refusing frames without room for a type name. *)
Lemma pb_decode_lh b pl :
  wf b ->
  pb_decode b pl = if (4 <=? zlen (contents b)) && (be_int 4 (contents b) <? 10) then Ok (-1, b, pl) else lh_decode pb_config b pl.
Proof.
  intros Hwf. unfold pb_decode, lh_decode. rewrite readable_bytes_ok by done. cbn [mbind outcome_bind].
  change (length_type pb_config) with 4. change length_bytes with 4. rewrite <- contents_length by done.
  destruct (Z.leb_spec 4 (zlen (contents b))) as [Hl|]; [|done].
  change (pb_get_payload_length b) with (peek_int32 b). change (get_payload_length pb_config b) with (peek_int32 b).
  rewrite peek_int32_ok by done. cbn [mbind outcome_bind andb].
  change (max_payload pb_config) with pb_max_payload. change (min_payload pb_config) with 4. change (checksum_length pb_config) with 4.
  change pb_checksum_length with 4. change pb_min_payload with 10. set (len := be_int 4 (contents b)).
  destruct (Z.ltb_spec len 10) as [|H10]; [done|]. cbn [orb]. rewrite (proj2 (Z.ltb_ge len 4)) by lia. cbn [orb].
  change (0 <? pb_max_payload) with true. cbn [andb]. destruct (Z.ltb_spec pb_max_payload len) as [|Hm]; [done|].
  rewrite defined_true by (apply Z.leb_le; unfold pb_max_payload, kInt64Max in *; lia). done.
Qed.

Lemma pb_encode_lh pl b : wf pl -> pb_encode pl b = if (zlen (contents pl) <? 6) && negb (zlen (contents pl) =? 0) then Ok (-1, b) else lh_encode pb_config pl b.
Proof.
  intros Hwf. unfold pb_encode, lh_encode. rewrite readable_bytes_ok by done. cbn [mbind outcome_bind]. rewrite <- contents_length by done.
  pose proof (zlen_nonneg (contents pl)). pose proof (contents_length pl Hwf) as Hc. destruct Hwf as (? & ? & _). unfold vec_max_size, kInt64Max in *.
  rewrite i64_small by lia. set (n := zlen (contents pl)) in *. destruct (Z.eqb_spec n 0) as [->|Hn]; [done|]. cbn [negb]. rewrite andb_true_r.
  change (max_payload pb_config) with pb_max_payload. change (min_payload pb_config - checksum_length pb_config) with 0. change (checksum_length pb_config) with 4.
  change pb_checksum_length with 4. change (pb_min_payload - 4) with 6.
  destruct (Z.ltb_spec n 6) as [|H6]; [done|]. cbn [orb]. rewrite (proj2 (Z.ltb_ge n 0)) by lia. cbn [orb].
  change (0 <? pb_max_payload) with true. cbn [andb]. destruct (Z.ltb_spec pb_max_payload n) as [|Hm]; [done|].
  rewrite defined_true by (apply Z.leb_le; unfold pb_max_payload, kInt64Max in *; lia). done.
Qed.

Lemma frame_length body rest :
  lh_accepts pb_config body -> 4 <= zlen (lh_frame pb_config body ++ rest) /\ be_int 4 (lh_frame pb_config body ++ rest) = zlen body + 4.
Proof.
  intros Ha. pose proof (zlen_nonneg body). pose proof (zlen_nonneg rest). split.
  - rewrite zlen_app, lh_frame_length by apply pb_config_wf. change (length_type pb_config) with 4. change (checksum_length_ pb_config) with 4. lia.
  - unfold lh_frame. change (length_size (length_type_ pb_config)) with 4%nat. change (checksum_length_ pb_config) with 4.
    rewrite <- app_assoc, be_int_be_bytes by lia. destruct Ha as [Ha _]. change (2 ^ (8 * length_type pb_config - 1)) with (2 ^ 31) in Ha.
    change (checksum_length_ pb_config) with 4 in Ha. apply swrap_small; [lia|]. change (8 * Z.of_nat 4 - 1) with 31. lia.
Qed.

Lemma pb_decode_cases b pl :
  wf b -> fresh pl ->
  (exists rt, (rt = 0 \/ rt = -1) /\ pb_decode b pl = Ok (rt, b, pl))
  \/ exists body b' pl', pb_decode b pl = Ok (1, b', pl') /\ consumed b b' /\ contents b = pb_frame body ++ contents b'
       /\ wf pl' /\ contents pl' = body /\ pb_accepts body.
Proof.
  intros Hwf Hpl. rewrite pb_decode_lh by done. destruct (_ && _) eqn:E; [left; by exists (-1); auto|].
  pose proof (lh_decode_parse pb_config b pl pb_config_wf Hwf Hpl) as D.
  destruct (LengthHeaderCodec.parse pb_config (contents b)) as [| |body rest] eqn:P; [left; eauto..|]. right.
  destruct D as (b' & pl' & D & Hcons & Hb' & Hwfp & Hp'). apply parse_sound in P as [P Ha]; [|apply pb_config_wf].
  exists body, b', pl'. split_and!; try done; [by rewrite Hb'|].
  rewrite P in E. destruct (frame_length body rest Ha) as [H4 Hbe]. rewrite Hbe, (proj2 (Z.leb_le _ _) H4) in E. zbool.
  destruct Ha as [_ Ha]. change (0 < max_payload_ pb_config) with (0 < pb_max_payload) in Ha. change (checksum_length_ pb_config) with 4 in Ha.
  change (max_payload_ pb_config) with pb_max_payload in Ha. split; [lia|]. by apply Ha.
Qed.

Lemma pb_decode_frame b pl body rest :
  wf b -> fresh pl -> pb_accepts body -> contents b = pb_frame body ++ rest ->
  exists b' pl', pb_decode b pl = Ok (1, b', pl') /\ consumed b b' /\ contents b' = rest /\ wf pl' /\ contents pl' = body.
Proof.
  intros Hwf Hpl Ha E. pose proof (pb_accepts_lh body Ha) as Hl. rewrite pb_decode_lh by done. rewrite E.
  destruct (frame_length body rest Hl) as [H4 Hbe]. unfold pb_frame. rewrite Hbe, (proj2 (Z.ltb_ge (zlen body + 4) 10)), andb_false_r by (destruct Ha; lia).
  pose proof (lh_decode_parse pb_config b pl pb_config_wf Hwf Hpl) as D. unfold pb_frame in E.
  rewrite E, parse_frame in D by (done || apply pb_config_wf). destruct D as (b' & pl' & ? & ? & ? & ? & ?). by exists b', pl'.
Qed.

Lemma pb_decode_prefix b pl body rest :
  wf b -> fresh pl -> pb_accepts body -> contents b ++ rest = pb_frame body -> rest <> [] -> pb_decode b pl = Ok (0, b, pl).
Proof.
  intros Hwf Hpl Ha E Hne. pose proof (pb_accepts_lh body Ha) as Hl. rewrite pb_decode_lh by done.
  replace ((4 <=? zlen (contents b)) && (be_int 4 (contents b) <? 10)) with false.
  - pose proof (lh_decode_parse pb_config b pl pb_config_wf Hwf Hpl) as D. by rewrite (parse_prefix pb_config body _ rest) in D by (done || apply pb_config_wf).
  - symmetry. destruct (Z.leb_spec 4 (zlen (contents b))) as [H4|]; [|done]. cbn [andb]. apply Z.ltb_ge.
    assert (Hbe : be_int 4 (contents b) = be_int 4 (pb_frame body)).
    { unfold be_int. rewrite <- E, ztake_app_le by done. done. }
    destruct (frame_length body [] Hl) as [_ Hf]. rewrite app_nil_r in Hf. unfold pb_frame in Hbe. rewrite Hbe, Hf. destruct Ha. lia.
Qed.

#[export] Instance protobuf_laws : CodecLaws ProtobufCodec.
Proof.
  refine {| codec_ok := fun _ => True |}. intros c b pl _ Hwf Hpl. cbn.
  destruct (pb_decode_cases b pl Hwf Hpl) as [(rt & Hrt & ->)|(body & b' & pl' & -> & Hcons & E & Hwfp & _ & Ha)]; cbn [mbind outcome_bind]; [eauto 10|].
  do 4 eexists. split_and!; [done|done|]. left. split_and!; try done. pose proof (zlen_nonneg (contents b')).
  exists (zlen (pb_frame body)). rewrite E, zlen_app. split_and!; [|by rewrite zdrop_app_exact|lia].
  unfold pb_frame. rewrite lh_frame_length by apply pb_config_wf. destruct Ha. pose proof (length_type_range pb_config). change (checksum_length_ pb_config) with 4. lia.
Defined.

#[export] Instance protobuf_framing : FramingCodec ProtobufCodec.
Proof.
  refine {| ready := fun _ => True; frame := fun _ => pb_frame; accepts := fun _ => pb_accepts |}.
  - done.
  - intros c p _. apply lh_frame_nonempty.
  - intros c b pl _ Hwf Hb. cbn. rewrite pb_decode_lh, Hb by done. unfold lh_decode. rewrite readable_bytes_ok, <- contents_length, Hb by done. done.
  - intros c b pl p tail _ Ha Hwf Hpl E. cbn. destruct (pb_decode_frame b pl p tail Hwf Hpl Ha E) as (b' & pl' & -> & ? & ? & ? & ?). by exists b', pl'.
Defined.

#[export] Instance protobuf_incremental : IncrementalCodec ProtobufCodec.
Proof.
  refine {| decode_prefix := _ |}. intros c b pl p rest _ Ha Hwf Hpl E Hne. cbn. by rewrite (pb_decode_prefix b pl p rest).
Defined.

End Codec_lemmas.

Section Message_lemmas.
Context {arch : Arch} {pb : Protobuf}.

(** The steps of [append], with the data put in place by the caller. *)
Lemma put_ok d b :
  wf b -> zlen d <= room b ->
  exists b1 b2 b', ensure_writable_bytes (zlen d) b = Ok b1 /\ begin_write b1 = Ok (writer_index_ b1)
    /\ mem_write (writer_index_ b1) d b1 = Ok b2 /\ has_written (zlen d) b2 = Ok b' /\ wf b' /\ contents b' = contents b ++ d.
Proof.
  intros Hwf Hd. destruct (append_ok d b Hwf Hd) as (b' & E & Hwf' & Hc & _). unfold append in E.
  destruct (ensure_writable_bytes (zlen d) b) as [b1|] eqn:E1; [|done]. cbn [mbind outcome_bind] in E.
  destruct (writable_bytes b1) as [w|]; [|done]. cbn [mbind outcome_bind] in E. destruct (zlen d <=? w); [|done].
  destruct (begin_write b1) as [p|] eqn:E2; [|done]. cbn [mbind outcome_bind] in E.
  assert (p = writer_index_ b1) as -> by (unfold begin_write in E2; destruct (writer_index_ b1 <=? size b1); by simplify_eq/=).
  destruct (mem_write _ d b1) as [b2|] eqn:E3; [|done]. cbn [mbind outcome_bind] in E.
  destruct (has_written (zlen d) b2) as [b3|] eqn:E4; [|done]. injection E as ->. by exists b1, b2, b'.
Qed.

Lemma body_length m : zlen (pb_body m) = 4 + (zlen (GetTypeName m) + 1) + zlen (wire m).
Proof. unfold pb_body. rewrite !zlen_app. change (zlen [Byte.x00]) with 1. unfold zlen at 1. rewrite length_be_bytes. lia. Qed.

Lemma serialize_ok m pl :
  sendable m -> fresh pl -> exists pl', serialize m pl = Ok (true, pl') /\ wf pl' /\ contents pl' = pb_body m.
Proof.
  intros (Hi & Hn & H6 & Hmax) (Hwf & Hc & Hu & Hw). rewrite body_length in Hmax. unfold pb_max_payload in Hmax.
  pose proof (zlen_nonneg (GetTypeName m)). pose proof (zlen_nonneg (wire m)). unfold serialize.
  rewrite Hi. cbn [check mbind outcome_bind]. rewrite readable_bytes_ok, <- contents_length, Hc by done. cbn [mbind outcome_bind].
  rewrite check_true by done. cbn [mbind outcome_bind]. rewrite (u64_small (zlen (GetTypeName m) + 1)), (i32_small (zlen (GetTypeName m) + 1)), (i32_small (zlen (wire m))) by lia.
  rewrite !u64_small by lia.
  assert (Hr : forall b', max_size_ b' = max_size_ pl -> room b' = vec_max_size - writer_index_ b')
    by (intros b' Hm; unfold room, unlimited in *; by rewrite Hm, Hu).
  unfold vec_max_size, kInt64Max in Hr.
  destruct (append_int32_ok (zlen (GetTypeName m) + 1) pl Hwf) as (p1 & -> & Hwf1 & Hc1 & Hm1 & Hw1); [rewrite Hr by done; lia|]. cbn [mbind outcome_bind].
  rewrite defined_true by (apply Z.leb_le; lia). cbn [mbind outcome_bind].
  rewrite ztake_ge by (rewrite zlen_app; change (zlen [Byte.x00]) with 1; lia).
  destruct (append_ok (GetTypeName m ++ [Byte.x00]) p1 Hwf1) as (p2 & -> & Hwf2 & Hc2 & Hm2 & Hw2);
    [rewrite Hr by done; rewrite zlen_app; change (zlen [Byte.x00]) with 1; lia|]. cbn [mbind outcome_bind].
  rewrite zlen_app in Hw2. change (zlen [Byte.x00]) with 1 in Hw2. unfold SerializeToArray. rewrite Z.leb_refl.
  destruct (put_ok (wire m) p2 Hwf2) as (b1 & b2 & p3 & -> & E1 & E2 & E3 & Hwf3 & Hc3); [rewrite Hr by congruence; lia|]. cbn [mbind outcome_bind].
  rewrite E1. cbn [mbind outcome_bind]. rewrite E2. cbn [mbind outcome_bind]. rewrite E3. cbn [mbind outcome_bind].
  assert (Hbody : contents p3 = pb_body m) by (unfold pb_body; by rewrite Hc3, Hc2, Hc1, Hc, <- !app_assoc).
  rewrite readable_bytes_ok, <- contents_length, Hbody, body_length by done. cbn [mbind outcome_bind].
  rewrite check_true by (apply Z.eqb_eq; lia). cbn [mbind outcome_bind]. by exists p3.
Qed.

Lemma pb_send_ok c m :
  sendable m -> exists buff, pb_send c m = Ok [ConnSend buff] /\ contents buff = pb_frame (pb_body m).
Proof.
  intros Hs. unfold pb_send. destruct make_fresh as (pl & -> & Hpl). cbn [mbind outcome_bind].
  destruct (serialize_ok m pl Hs Hpl) as (pl' & -> & Hwf & Hc). cbn [mbind outcome_bind].
  destruct Hs as (_ & _ & H6 & Hmax). unfold Codec.send. destruct make_fresh as (b & -> & Hb). cbn [mbind outcome_bind].
  change (encode c pl' b) with (pb_encode pl' b). rewrite pb_encode_lh, Hc by done. rewrite (proj2 (Z.ltb_ge _ 6)) by lia. cbn [andb].
  pose proof (lh_encode_ok pb_config pl' b pb_config_wf Hwf Hb) as E. rewrite Hc in E. cbv zeta in E.
  rewrite (proj2 (Z.eqb_neq _ 0)) in E by lia. change (max_payload_ pb_config) with pb_max_payload in E.
  rewrite (proj2 (Z.ltb_ge pb_max_payload _)), andb_false_r in E by lia.
  destruct E as (b' & -> & _ & ?); [|by exists b']. rewrite lh_frame_length by apply pb_config_wf.
  change (length_type pb_config) with 4. change (checksum_length_ pb_config) with 4. unfold pb_max_payload, vec_max_size, kInt64Max in *. lia.
Qed.

Lemma read_int32_ok b :
  wf b -> 4 <= zlen (contents b) ->
  exists b', read_int32 b = Ok (be_int 4 (contents b), b') /\ wf b' /\ contents b' = zdrop 4 (contents b).
Proof.
  intros Hwf H4. unfold read_int32, has_read_int32. rewrite peek_int32_ok by done. cbn [mbind outcome_bind].
  destruct (has_read_ok 4 b Hwf) as (b' & -> & ? & ? & _); [lia|]. by exists b'.
Qed.

(** [parse_mesg] in terms of the bytes of the payload. *)
Lemma parse_mesg_eq pl :
  wf pl -> 4 <= zlen (contents pl) < 2 ^ 31 ->
  let n := be_int 4 (contents pl) in let d := zdrop 4 (contents pl) in
  exists pl', parse_mesg pl = Ok
    (if (2 <=? u64 n) && (u64 n <=? zlen d) then
       match generate_mesg (ztake (n - 1) d) with
       | Some proto => match ParseFromArray proto (zdrop n d) with Some m => (kNoError, Some m) | None => (kParseError, Some proto) end
       | None => (kUnknownMessageType, None)
       end
     else (kInvalidNameLen, None), pl').
Proof.
  intros Hwf [H4 H31] n d. unfold parse_mesg. rewrite readable_bytes_ok, <- contents_length by done. cbn [mbind outcome_bind].
  rewrite check_true by (apply Z.ltb_lt; lia). cbn [mbind outcome_bind].
  destruct (read_int32_ok pl Hwf H4) as (p1 & -> & Hwf1 & Hc1). cbn [mbind outcome_bind]. exists p1.
  rewrite readable_bytes_ok, <- contents_length, Hc1 by done. cbn [mbind outcome_bind]. fold n d.
  destruct ((2 <=? u64 n) && (u64 n <=? zlen d)) eqn:E; [|done]. apply andb_true_iff in E as [E1%Z.leb_le E2%Z.leb_le].
  assert (Hd : zlen d < 2 ^ 31) by (unfold d; rewrite zlen_zdrop; lia).
  assert (Hn : u64 n = n).
  { pose proof (be_int_range 4 (contents pl) ltac:(lia)) as R. fold n in R. change (8 * Z.of_nat 4 - 1) with 31 in R. unfold u64, uwrap in *.
    destruct (Z.le_gt_cases 0 n); [apply Z.mod_small; lia|]. replace (n mod 2 ^ 64) with (n + 2 ^ 64) in E2; [lia|].
    rewrite <- (Z.mod_small (n + 2 ^ 64) (2 ^ 64)) by lia. by rewrite <- (Z_mod_plus_full n 1). }
  rewrite Hn in *. rewrite begin_read_ok by done. cbn [mbind outcome_bind].
  replace (mem_read (reader_index_ p1) (n - 1) p1) with (Ok (A := bytes) (ztake (n - 1) d)).
  2: { rewrite <- (Z.add_0_r (reader_index_ p1)), mem_read_contents by (rewrite ?Hc1; done || fold d; lia). unfold zslice. by rewrite Hc1. }
  cbn [mbind outcome_bind]. destruct (generate_mesg _) as [proto|]; [|done].
  rewrite u64_small, i32_small by lia. rewrite mem_read_contents by (rewrite ?Hc1; done || fold d; lia). cbn [mbind outcome_bind].
  unfold zslice. rewrite Hc1. fold d. rewrite (ztake_ge (zlen d - n)) by (rewrite zlen_zdrop; lia). by destruct (ParseFromArray _ _).
Qed.

Lemma parse_mesg_body m pl :
  sendable m -> generated m -> wf pl -> contents pl = pb_body m -> exists pl', parse_mesg pl = Ok (kNoError, Some m, pl').
Proof.
  intros (_ & Hn & H6 & Hmax) (desc & proto & Hd & Hp & Hm) Hwf Hc. unfold pb_max_payload in Hmax.
  destruct (parse_mesg_eq pl Hwf) as (pl' & E); [rewrite Hc; lia|]. exists pl'. rewrite E, Hc. clear E.
  rewrite body_length in Hmax. pose proof (zlen_nonneg (GetTypeName m)). pose proof (zlen_nonneg (wire m)).
  assert (Hne : 1 <= zlen (GetTypeName m)).
  { destruct (GetTypeName m) as [|x l]; [done|]. rewrite zlen_cons. pose proof (zlen_nonneg l). lia. }
  unfold pb_body. rewrite be_int_be_bytes, swrap_small by (lia || (change (8 * Z.of_nat 4 - 1) with 31; lia)).
  rewrite zdrop_app_exact by (unfold zlen; by rewrite length_be_bytes). rewrite u64_small by lia.
  rewrite (proj2 (Z.leb_le 2 _)) by lia. rewrite (proj2 (Z.leb_le _ _)) by (rewrite !zlen_app; change (zlen [Byte.x00]) with 1; lia). cbn [andb].
  rewrite ztake_app_exact by lia. unfold generate_mesg. rewrite Hd, Hp.
  rewrite (app_assoc (GetTypeName m)), zdrop_app_exact by (rewrite zlen_app; change (zlen [Byte.x00]) with 1; lia). by rewrite Hm.
Qed.

Lemma parse_ok c pl : wf pl -> 4 <= zlen (contents pl) < 2 ^ 31 -> exists e, parse c pl = Ok e.
Proof.
  intros Hwf Hl. unfold parse. rewrite readable_bytes_ok, <- contents_length by done. cbn [mbind outcome_bind].
  rewrite check_true by (apply Z.ltb_lt; lia). cbn [mbind outcome_bind]. destruct (parse_mesg_eq pl Hwf Hl) as (pl' & E).
  match type of E with _ = Ok (?r, _) => destruct r as [err mesg] end. rewrite E. by eexists.
Qed.

Lemma parse_body m pl :
  sendable m -> generated m -> wf pl -> contents pl = pb_body m -> parse (mkProtobufCodec true) pl = Ok (Dispatch m).
Proof.
  intros Hs Hg Hwf Hc. unfold parse. rewrite readable_bytes_ok, <- contents_length, Hc by done. cbn [mbind outcome_bind].
  rewrite check_true by (apply Z.ltb_lt; destruct Hs as (_ & _ & H6 & _); lia). cbn [mbind outcome_bind].
  by destruct (parse_mesg_body m pl Hs Hg Hwf Hc) as (pl' & ->).
Qed.

Lemma parse_events_app c a b :
  parse_events c (a ++ b) = (ps ← parse_events c a; ps' ← parse_events c b; Ok (ps ++ ps')).
Proof.
  induction a as [|e a IH]; cbn [app parse_events]; [by destruct (parse_events c b)|].
  destruct (match e with MessageCallback _ => _ | _ => _ end) as [p|]; [|done]. cbn [mbind outcome_bind]. rewrite IH.
  destruct (parse_events c a); [|done]. cbn [mbind outcome_bind]. by destruct (parse_events c b).
Qed.

Lemma parse_delivered es ms :
  delivers es (pb_body <$> ms) -> Forall sendable ms -> Forall generated ms ->
  parse_events (mkProtobufCodec true) es = Ok ((fun m => Parsed (Dispatch m)) <$> ms).
Proof.
  intros Hd Hs Hg. revert es Hd. induction ms as [|m ms IH]; intros es Hd; cbn [fmap list_fmap] in Hd.
  - by apply Forall2_nil_inv_r in Hd as ->.
  - apply Forall2_cons_inv_r in Hd as (e & es' & (pl & -> & Hwf & Hc) & Hd & ->). inversion Hs; subst. inversion Hg; subst.
    cbn [parse_events]. rewrite (parse_body m) by done. cbn [mbind outcome_bind]. by rewrite IH.
Qed.

(** The codec object has no state of its own. *)
Lemma recv_same fuel has_cb (c : ProtobufCodec) b es c' b' : recv_loop fuel has_cb c b = Ok (es, c', b') -> c' = c.
Proof.
  revert c b es c' b'. induction fuel as [|fuel IH]; intros c b es c' b' E; [done|]. cbn [recv_loop] in E.
  destruct (make _ _) as [pl|]; [|done]. cbn [mbind outcome_bind decode protobuf_codec] in E.
  destruct (pb_decode b pl) as [[[rt b1] pl1]|]; [|done]. cbn [mbind outcome_bind] in E.
  destruct (rt =? 1); [|by destruct (rt =? -1); injection E]. destruct (recv_loop fuel has_cb c b1) as [[[es1 c1] b2]|] eqn:E1; [|done].
  cbn [mbind outcome_bind] in E. injection E as _ <- _. by eapply IH.
Qed.

Lemma pb_feed_feed chunks c b es b' ps :
  feed chunks c b = Ok (es, c, b') -> parse_events c es = Ok ps -> pb_feed chunks c b = Ok (ps, b').
Proof.
  revert b es b' ps. induction chunks as [|chunk chunks IH]; intros b es b' ps E P; cbn [feed pb_feed] in *.
  - injection E as <- <-. by injection P as <-.
  - destruct (append chunk b) as [[ok b1]|]; [|done]. cbn [mbind outcome_bind] in *. unfold pb_recv.
    destruct (recv true _ true c b1) as [[[es1 c1] b2]|] eqn:R; [|done]. cbn [mbind outcome_bind] in *.
    assert (c1 = c) as -> by (unfold recv in R; cbn [check mbind outcome_bind] in R; exact (recv_same _ _ _ _ _ _ _ R)).
    destruct (feed chunks c b2) as [[[es2 c2] b3]|] eqn:F; [|done]. cbn [mbind outcome_bind] in E. injection E as <- -> ->.
    rewrite parse_events_app in P. destruct (parse_events c es1) as [ps1|]; [|done]. cbn [mbind outcome_bind] in *.
    destruct (parse_events c es2) as [ps2|] eqn:P2; [|done]. cbn [mbind outcome_bind] in P. injection P as <-.
    by rewrite (IH b2 es2 b' ps2).
Qed.

(** What [recv] hands to [parse]. *)
Definition parsable (e : event) : Prop :=
  match e with MessageCallback pl => wf pl /\ 4 <= zlen (contents pl) < 2 ^ 31 | _ => True end.

Lemma recv_parsable fuel c b :
  wf b -> (length (contents b) < fuel)%nat ->
  exists es b', recv_loop fuel true c b = Ok (es, c, b') /\ Forall parsable es /\ consumed b b'
    /\ exists k, 0 <= k /\ contents b' = zdrop k (contents b).
Proof.
  revert b. induction fuel as [|fuel IH]; intros b Hwf Hf; [lia|]. cbn [recv_loop].
  destruct make_fresh as (pl & -> & Hpl). cbn [mbind outcome_bind decode protobuf_codec].
  destruct (pb_decode_cases b pl Hwf Hpl) as [(rt & Hrt & ->)|(body & b1 & pl1 & -> & Hcons & E & Hwfp & Hc & Ha)]; cbn [mbind outcome_bind].
  - assert (exists k, 0 <= k /\ contents b = zdrop k (contents b)) by (exists 0; by rewrite zdrop_0).
    destruct Hrt as [-> | ->]; cbn; do 2 eexists; split_and!; try done; try (by repeat constructor); by apply consumed_refl.
  - change (1 =? 1) with true. cbv iota. destruct (IH b1) as (es & b' & -> & Hes & Hcons' & k & Hk & Hb').
    + apply Hcons.
    + apply (f_equal length) in E. rewrite length_app in E. pose proof (lh_frame_nonempty pb_config body) as Hne. unfold pb_frame in E.
      destruct (lh_frame pb_config body); [done|]. cbn in E. lia.
    + cbn [mbind outcome_bind]. do 2 eexists. split_and!; [done| |by eapply consumed_trans|].
      * constructor; [|done]. cbn. destruct Ha as [H6 Hm]. unfold pb_max_payload in Hm. rewrite Hc. split; [done|lia].
      * pose proof (zlen_nonneg (pb_frame body)). exists (k + zlen (pb_frame body)). split; [lia|].
        rewrite Hb', <- zdrop_zdrop by lia. by rewrite E, zdrop_app_exact.
Qed.

Lemma parse_events_total c es : Forall parsable es -> exists ps, parse_events c es = Ok ps /\ length ps = length es.
Proof.
  induction 1 as [|e es He _ (ps & IH & Hl)]; [by exists []|]. cbn [parse_events]. rewrite IH.
  destruct e as [pl| | |buff]; [destruct (parse_ok c pl) as (e & ->); [apply He..|]|..]; cbn [mbind outcome_bind]; eexists; (split; [done|]); cbn; by rewrite Hl.
Qed.

End Message_lemmas.

(** ** Examples *)

(** A library of one type, named "T", whose messages are byte strings. *)
Definition toy : Protobuf := {|
  Message := bytes; GetTypeName := fun _ => txt "T"; GetDescriptor := fun _ => 8; IsInitialized := fun _ => true; wire := fun m => m;
  FindMessageTypeByName := fun n => if bool_decide (n = txt "T") then Some 8 else None;
  GetPrototype := fun _ => Some []; New := fun _ => []; ParseFromArray := fun _ d => Some d;
|}.

(** The terminator of the type name is not looked at: a peer may put any byte there. *)
Example name_terminator_ignored :
  let _ := little in let _ := toy in
  parse (mkProtobufCodec true) (mkBuffer kUnLimitSize 0 8 (be_bytes 4 2 ++ txt "TXab")) = Ok (Dispatch (txt "ab")).
Proof. vm_compute. reflexivity. Qed.

Example unknown_type :
  let _ := little in let _ := toy in
  parse (mkProtobufCodec true) (mkBuffer kUnLimitSize 0 8 (be_bytes 4 2 ++ txt "U" ++ [Byte.x00] ++ txt "ab")) = Ok (ErrorCallback kUnknownMessageType).
Proof. vm_compute. reflexivity. Qed.

(** ** Properties *)

(** C21. Messages survive the way through two codecs and a stream.  [send] turns every message that can be sent into exactly
    one frame; and when the reads of a connection together carry the frames of the messages, however TCP cut them, [recv] after
    every read dispatches exactly these messages, in order, reports no error and leaves no byte behind. *)
Theorem protobuf_stream {arch : Arch} {pb : Protobuf} (ms : list Message) (chunks : list bytes) (b : ByteBuffer) :
  Forall sendable ms -> Forall generated ms -> fresh b ->
  concat chunks = concat ((fun m => pb_frame (pb_body m)) <$> ms) -> zlen (concat chunks) <= vec_max_size ->
  let c := mkProtobufCodec true in
  Forall (fun m => exists buff, pb_send c m = Ok [ConnSend buff] /\ contents buff = pb_frame (pb_body m)) ms /\
  exists b', pb_feed chunks c b = Ok ((fun m => Parsed (Dispatch m)) <$> ms, b') /\ wf b' /\ contents b' = [].
Proof.
  intros Hs Hg (Hwf & Hb & Hu & Hw) E Hroom c. split; [eapply Forall_impl; [exact Hs|]; intros m Hm; by apply pb_send_ok|].
  assert (Hacc : Forall pb_accepts (pb_body <$> ms)) by (apply Forall_fmap; eapply Forall_impl; [exact Hs|]; by intros m (_ & _ & ?)).
  destruct (feed_stream chunks c b (pb_body <$> ms)) as (es & b' & F & Hwf' & Hb' & Hd); try done; [| |lia|].
  - rewrite Hb. cbn [app]. rewrite E. f_equal. by rewrite <- list_fmap_compose.
  - rewrite Hb. destruct ms as [|m ms]; [done|]. cbn. pose proof (lh_frame_nonempty pb_config (pb_body m)). unfold pb_frame.
    destruct (lh_frame _ _); [done|cbn; lia].
  - exists b'. split; [|done]. eapply pb_feed_feed; [exact F|]. by apply parse_delivered.
Qed.

Lemma protobuf_stream_witness :
  let A := little in let P := toy in
  exists b', pb_feed (map (fun x => [x]) (pb_frame (pb_body (pb := toy) (txt "hello")) ++ pb_frame (pb_body (pb := toy) (txt "world"))))
    (mkProtobufCodec true) (mkBuffer kUnLimitSize 0 0 []) = Ok ([Parsed (Dispatch (pb := toy) (txt "hello")); Parsed (Dispatch (pb := toy) (txt "world"))], b').
Proof.
  intros A P.
  destruct (protobuf_stream (arch := little) (pb := toy) [txt "hello"; txt "world"]
    (map (fun x => [x]) (pb_frame (pb_body (pb := toy) (txt "hello")) ++ pb_frame (pb_body (pb := toy) (txt "world"))))
    (mkBuffer kUnLimitSize 0 0 [])) as (_ & b' & F & _).
  - repeat constructor; vm_compute; congruence.
  - repeat constructor; exists 8, []; vm_compute; auto.
  - vm_compute; intuition congruence.
  - vm_compute; reflexivity.
  - vm_compute; congruence.
  - exists b'. exact F.
Defined.

(** No peer can make [recv] fail: on any bytes, whatever the library answers, one more round than there are bytes suffices, no check
    fails and nothing outside the buffers is read; every complete frame ends in a dispatched message or an error callback, and the
    buffer loses only a prefix. *)
Theorem protobuf_recv_total {arch : Arch} {pb : Protobuf} (c : ProtobufCodec) (b : ByteBuffer) (fuel : nat) :
  wf b -> (length (contents b) < fuel)%nat ->
  exists ps b' k, pb_recv true fuel c b = Ok (ps, b') /\ consumed b b' /\ contents b' = zdrop k (contents b).
Proof.
  intros Hwf Hf. destruct (recv_parsable fuel c b Hwf Hf) as (es & b' & E & Hes & Hcons & k & _ & Hk).
  destruct (parse_events_total c es Hes) as (ps & P & _). exists ps, b', k. unfold pb_recv, recv. cbn [check mbind outcome_bind]. rewrite E.
  cbn [mbind outcome_bind]. by rewrite P.
Qed.

Lemma protobuf_recv_total_witness :
  let A := little in let P := toy in let b := mkBuffer kUnLimitSize 1 6 (txt "garbage") in
  exists ps b' k, pb_recv true 6 (mkProtobufCodec true) b = Ok (ps, b') /\ consumed b b' /\ contents b' = zdrop k (contents b).
Proof.
  intros A P b. refine (protobuf_recv_total (arch := little) (pb := toy) (mkProtobufCodec true) b 6 _ _).
  - vm_compute; intuition congruence.
  - vm_compute; lia.
Defined.
