(* ===== verification/Channel.v ===== *)
(** * Channel (src/Channel.h, src/Channel.cc)

    A file descriptor watched by an event loop: the events it waits for, the
    events the poller reported, and the four callbacks.  The update of the
    poller that follows a change of [events_] is in [Poller]; callbacks are a
    parameter of [handle_event]. *)

From S2P Require Import Prelude.

(** ** Definitions *)

(** The flags of poll(2) on Linux. *)
Definition POLLIN : Z := 0x1.
Definition POLLPRI : Z := 0x2.
Definition POLLOUT : Z := 0x4.
Definition POLLERR : Z := 0x8.
Definition POLLHUP : Z := 0x10.
Definition POLLNVAL : Z := 0x20.
Definition POLLRDHUP : Z := 0x2000.

Definition kNoneEvent : Z := 0.
Definition kReadEvent : Z := Z.lor POLLIN POLLPRI.
Definition kWriteEvent : Z := POLLOUT.

(** The status a poller keeps in a channel. *)
Definition kChannelPollInit : Z := -1.
Definition kChannelPollAdded : Z := 1.
Definition kChannelPollDeleted : Z := 2.

Inductive callback : Type := ReadCb | WriteCb | CloseCb | ErrorCb.

#[export] Instance callback_eq_dec : EqDecision callback.
Proof. solve_decision. Defined.

Record Channel : Type := mkChannel {
  fd : Z;
  status_ : Z;
  events_ : Z;
  revents_ : Z;
  added_to_loop_ : bool;
  handling_event_ : bool;
  callbacks : list callback;   (** the callbacks that are set *)
}.

Definition make_channel (fd : Z) (cbs : list callback) : Channel :=
  mkChannel fd kChannelPollInit 0 0 false false cbs.

Definition set_status (s : Z) (c : Channel) : Channel :=
  mkChannel (fd c) s (events_ c) (revents_ c) (added_to_loop_ c) (handling_event_ c) (callbacks c).
Definition set_events (e : Z) (c : Channel) : Channel :=
  mkChannel (fd c) (status_ c) e (revents_ c) (added_to_loop_ c) (handling_event_ c) (callbacks c).
Definition set_revents (r : Z) (c : Channel) : Channel :=
  mkChannel (fd c) (status_ c) (events_ c) r (added_to_loop_ c) (handling_event_ c) (callbacks c).
Definition set_added (a : bool) (c : Channel) : Channel :=
  mkChannel (fd c) (status_ c) (events_ c) (revents_ c) a (handling_event_ c) (callbacks c).
Definition set_handling (h : bool) (c : Channel) : Channel :=
  mkChannel (fd c) (status_ c) (events_ c) (revents_ c) (added_to_loop_ c) h (callbacks c).

Definition is_none_event (c : Channel) : bool := events_ c =? kNoneEvent.
Definition is_write_event (c : Channel) : bool := negb (Z.land (events_ c) kWriteEvent =? 0).
Definition is_read_event (c : Channel) : bool := negb (Z.land (events_ c) kReadEvent =? 0).

(** The interest a member function leaves in [events_]. *)
Inductive interest_op : Type :=
  | disable_all_event | enable_read_event | disable_read_event
  | enable_write_event | disable_write_event.

Definition new_events (op : interest_op) (e : Z) : Z :=
  match op with
  | disable_all_event => kNoneEvent
  | enable_read_event => Z.lor e kReadEvent
  | disable_read_event => Z.land e (Z.lnot kReadEvent)
  | enable_write_event => Z.lor e kWriteEvent
  | disable_write_event => Z.land e (Z.lnot kWriteEvent)
  end.

(** [handle_event], for a loop whose state [S] the callbacks change.  The
    revents of a channel change only in [poll], so they are read once. *)
Section Handle_event.
Context {S : Type} (call : callback -> S -> outcome S) (upd : (Channel -> Channel) -> S -> S).

Definition fire (cond : bool) (cb : callback) (c : Channel) (s : S) : outcome S :=
  if cond && bool_decide (cb ∈ callbacks c) then call cb s else Ok s.

Definition has (flags r : Z) : bool := negb (Z.land r flags =? 0).

Definition handle_event (in_own_loop : bool) (c : Channel) (s : S) : outcome S :=
  check in_own_loop "check_in_own_loop";;
  let r := revents_ c in
  let s := upd (set_handling true) s in
  s ← fire (has POLLHUP r && negb (has POLLIN r)) CloseCb c s;
  s ← fire (has (Z.lor POLLERR POLLNVAL) r) ErrorCb c s;
  s ← fire (has (Z.lor POLLIN POLLPRI) r) ReadCb c s;
  s ← fire (has POLLOUT r) WriteCb c s;
  Ok (upd (set_handling false) s).

End Handle_event.

(** [events_to_string]: the names of the flags, in the order of the tests. *)
Definition events_to_string (fd : bytes) (ev : Z) : bytes :=
  txt "[fd=" ++ fd ++ txt " event: " ++
  concat (map (fun '(f, n) => if has f ev then n else [])
    [(POLLIN, txt "IN "); (POLLPRI, txt "PRI "); (POLLOUT, txt "OUT "); (POLLHUP, txt "HUP ");
     (POLLRDHUP, txt "RDHUP "); (POLLERR, txt "ERR "); (POLLNVAL, txt "NVAL ")]) ++ txt "]".

(** ** Lemmas *)

(** [events_] is always a combination of the flags the class sets. *)
Definition events_ok (e : Z) : Prop := 0 <= e < 8.

Ltac event_cases H :=
  match type of H with events_ok ?e =>
    let Hc := fresh in
    assert (e = 0 \/ e = 1 \/ e = 2 \/ e = 3 \/ e = 4 \/ e = 5 \/ e = 6 \/ e = 7) as Hc
      by (destruct H; lia);
    repeat destruct Hc as [Hc|Hc]; subst
  end.

Lemma new_events_ok op e : events_ok e -> events_ok (new_events op e).
Proof.
  intros He. unfold events_ok. event_cases He; destruct op; vm_compute; split; congruence.
Qed.

(** The two halves of the interest are independent. *)
Lemma new_events_read op e :
  events_ok e -> Z.land (new_events op e) kReadEvent =
    match op with
    | disable_all_event | disable_read_event => 0
    | enable_read_event => kReadEvent
    | _ => Z.land e kReadEvent
    end.
Proof.
  intros He. event_cases He; destruct op; reflexivity.
Qed.

Lemma new_events_write op e :
  events_ok e -> Z.land (new_events op e) kWriteEvent =
    match op with
    | disable_all_event | disable_write_event => 0
    | enable_write_event => kWriteEvent
    | _ => Z.land e kWriteEvent
    end.
Proof.
  intros He. event_cases He; destruct op; reflexivity.
Qed.

(** A hang-up with urgent data and without [POLLIN] runs the close callback and
    then the read callback in the same round. *)
Example hup_pri_closes_and_reads :
  handle_event (S := list callback) (fun cb l => Ok (l ++ [cb])) (fun _ l => l) true
    (set_revents (Z.lor POLLHUP POLLPRI) (make_channel 3 [ReadCb; WriteCb; CloseCb; ErrorCb])) []
  = Ok [CloseCb; ReadCb].
Proof. reflexivity. Qed.
