(* ===== verification/Poller.v ===== *)
(** * Pollers (src/Poller.h, src/Poller.cc, src/PollPoller.h, src/PollPoller.cc,
    src/EPollPoller.h, src/EPollPoller.cc)

    The two I/O multiplexers.  Channels are shared objects: they live in a heap
    and the poller holds their addresses.  [update_channel] and [remove_channel]
    are the same text in both pollers up to [update_poll_events], which is the
    interface [PollBackend]: [PollPoller] keeps a vector of [pollfd],
    [EPollPoller] an epoll instance of the kernel, which is a parameter with the
    documented behaviour of epoll_ctl(2).

    The abstract view is the interest map: which descriptor is watched for which
    events.  Both pollers implement the same state machine on it. *)

From S2P Require Import Prelude Channel.

(** ** Definitions *)

Definition kPollCtlAdd : Z := 1.
Definition kPollCtlDel : Z := 2.
Definition kPollCtlMod : Z := 3.

(** Channels by address. *)
Abbreviation heap := (gmap nat Channel).

Class PollBackend (B : Type) : Type := {
  update_poll_events : Z -> nat -> Channel -> B -> outcome B;
}.

Record Poller (B : Type) : Type := mkPoller {
  chans : heap;
  channels_ : gmap Z nat;
  backend : B;
}.
Arguments mkPoller {B}.
Arguments chans {B}.
Arguments channels_ {B}.
Arguments backend {B}.

Definition deref (h : heap) (id : nat) : outcome Channel :=
  match h !! id with Some c => Ok c | None => Fault (Undefined "dangling Channel*") end.

Definition has_channel {B} (id : nat) (p : Poller B) : outcome bool :=
  c ← deref (chans p) id;
  Ok (bool_decide (channels_ p !! fd c = Some id)).

Section Update.
Context {B : Type} `{PollBackend B}.

Definition update_channel (id : nat) (p : Poller B) : outcome (Poller B) :=
  c ← deref (chans p) id;
  let status := status_ c in
  if (status =? kChannelPollInit) || (status =? kChannelPollDeleted) then
    channels ←
      (if status =? kChannelPollInit then
         check (bool_decide (channels_ p !! fd c = None)) "update_channel: new";;
         Ok (<[fd c := id]> (channels_ p))
       else
         check (bool_decide (is_Some (channels_ p !! fd c))) "update_channel: existing";;
         check (bool_decide (channels_ p !! fd c = Some id)) "update_channel: same channel";;
         Ok (channels_ p));
    let c := set_status kChannelPollAdded c in
    b ← update_poll_events kPollCtlAdd id c (backend p);
    Ok (mkPoller (<[id := c]> (chans p)) channels b)
  else
    check (status =? kChannelPollAdded) "update_channel: status";;
    check (bool_decide (is_Some (channels_ p !! fd c))) "update_channel: existing";;
    check (bool_decide (channels_ p !! fd c = Some id)) "update_channel: same channel";;
    if is_none_event c then
      b ← update_poll_events kPollCtlDel id c (backend p);
      Ok (mkPoller (<[id := set_status kChannelPollDeleted c]> (chans p)) (channels_ p) b)
    else
      b ← update_poll_events kPollCtlMod id c (backend p);
      Ok (mkPoller (chans p) (channels_ p) b).

Definition remove_channel (id : nat) (p : Poller B) : outcome (Poller B) :=
  c ← deref (chans p) id;
  check (bool_decide (is_Some (channels_ p !! fd c))) "remove_channel: existing";;
  check (bool_decide (channels_ p !! fd c = Some id)) "remove_channel: same channel";;
  check (is_none_event c) "remove_channel: is_none_event";;
  let status := status_ c in
  check ((status =? kChannelPollAdded) || (status =? kChannelPollDeleted)) "remove_channel: status";;
  b ← (if status =? kChannelPollAdded then update_poll_events kPollCtlDel id c (backend p)
       else Ok (backend p));
  Ok (mkPoller (<[id := set_status kChannelPollInit c]> (chans p)) (delete (fd c) (channels_ p)) b).

(** [Channel::update] and [Channel::remove], through the owner loop. *)
Definition set_channel (id : nat) (c : Channel) (p : Poller B) : Poller B :=
  mkPoller (<[id := c]> (chans p)) (channels_ p) (backend p).

Definition interest (in_own_loop : bool) (op : interest_op) (id : nat) (p : Poller B)
    : outcome (Poller B) :=
  c ← deref (chans p) id;
  let p := set_channel id (set_events (new_events op (events_ c)) c) p in
  check in_own_loop "check_in_own_loop";;
  c ← deref (chans p) id;
  let p := set_channel id (set_added true c) p in
  update_channel id p.

Definition remove (in_own_loop : bool) (id : nat) (p : Poller B) : outcome (Poller B) :=
  c ← deref (chans p) id;
  check in_own_loop "check_in_own_loop";;
  check (is_none_event c) "Channel::remove: is_none_event";;
  let p := set_channel id (set_added false c) p in
  remove_channel id p.

(** The constructor of a channel, and its destructor in the own loop. *)
Definition new_channel (id : nat) (fd : Z) (cbs : list callback) (p : Poller B) : Poller B :=
  set_channel id (make_channel fd cbs) p.

Definition destroy (id : nat) (p : Poller B) : outcome (Poller B) :=
  c ← deref (chans p) id;
  check (negb (handling_event_ c)) "~Channel: handling_event_";;
  check (negb (added_to_loop_ c)) "~Channel: added_to_loop_";;
  b ← has_channel id p;
  check (negb b) "~Channel: has_channel";;
  Ok (mkPoller (delete id (chans p)) (channels_ p) (backend p)).

End Update.

(** *** PollPoller *)

Record pollfd : Type := mkPollfd { pfd_fd : Z; pfd_events : Z; pfd_revents : Z }.

(** The index of the entry, or [None] for [end()]. *)
Fixpoint find_poll_events (fd : Z) (l : list pollfd) : option nat :=
  match l with
  | [] => None
  | e :: l => if pfd_fd e =? fd then Some O else S <$> find_poll_events fd l
  end.

Definition poll_update_poll_events (operation : Z) (id : nat) (c : Channel) (l : list pollfd)
    : outcome (list pollfd) :=
  let it := find_poll_events (fd c) l in
  if operation =? kPollCtlAdd then
    check (bool_decide (it = None)) "update_poll_events: add";;
    Ok (l ++ [mkPollfd (fd c) (i16 (events_ c)) 0])
  else if operation =? kPollCtlDel then
    match it with
    | None => Fault (CheckFailed "update_poll_events: del")
    | Some i => Ok (take i l ++ drop (S i) l)
    end
  else if operation =? kPollCtlMod then
    match it with
    | None => Fault (CheckFailed "update_poll_events: mod")
    | Some i => Ok (alter (fun e => mkPollfd (pfd_fd e) (i16 (events_ c)) 0) i l)
    end
  else Ok l.

#[export] Instance poll_backend : PollBackend (list pollfd) := {
  update_poll_events := poll_update_poll_events;
}.

(** [fill_active_channels]: the addresses appended to [active_channels]. *)
Fixpoint fill_active_channels (num : Z) (l : list pollfd) (chs : gmap Z nat) (h : heap)
    : outcome (list nat * heap) :=
  match l with
  | [] => Ok ([], h)
  | e :: l =>
      if num <=? 0 then Ok ([], h)
      else if 0 <? pfd_revents e then
        match chs !! pfd_fd e with
        | None => Fault (CheckFailed "fill_active_channels: find")
        | Some id =>
            c ← deref h id;
            check (fd c =? pfd_fd e) "fill_active_channels: fd";;
            '(active, h) ← fill_active_channels (num - 1) l chs (<[id := set_revents (pfd_revents e) c]> h);
            Ok (id :: active, h)
        end
      else fill_active_channels num l chs h
  end.

(** [poll(timeout, active)]: ::poll(2) yields the number of ready descriptors
    and the returned events of every entry, or an errno. *)
Definition poll_poll (in_own_loop : bool) (sys_poll : list pollfd -> Z + (Z * list Z))
    (p : Poller (list pollfd)) : outcome (list nat * Poller (list pollfd)) :=
  check in_own_loop "check_in_own_loop";;
  match sys_poll (backend p) with
  | inl _ => Ok ([], p)
  | inr (num, revents) =>
      let l := zip_with (fun e r => mkPollfd (pfd_fd e) (pfd_events e) r) (backend p) revents in
      if 0 <? num then
        '(active, h) ← fill_active_channels num l (channels_ p) (chans p);
        Ok (active, mkPoller h (channels_ p) l)
      else Ok ([], mkPoller (chans p) (channels_ p) l)
  end.

(** *** EPollPoller *)

Definition kInitEventListSize : Z := 16.

(** The kernel's epoll instance; an event carries the address of its channel. *)
Class EpollSys (K : Type) : Type := {
  epoll_ctl : Z -> Z -> Z * nat -> K -> option K;
}.

Record EPoll (K : Type) : Type := mkEPoll { epollfd_ : K; active_events_size : Z }.
Arguments mkEPoll {K}.
Arguments epollfd_ {K}.
Arguments active_events_size {K}.

Section EPoll.
Context {K : Type} `{EpollSys K}.

Definition epoll_update_poll_events (operation : Z) (id : nat) (c : Channel) (e : EPoll K)
    : outcome (EPoll K) :=
  match epoll_ctl operation (fd c) (u32 (events_ c), id) (epollfd_ e) with
  | Some k => Ok (mkEPoll k (active_events_size e))
  | None => if operation =? kPollCtlDel then Ok e else Fault (CheckFailed "LOG(FATAL): epoll_ctl")
  end.

#[export] Instance epoll_backend : PollBackend (EPoll K) := {
  update_poll_events := epoll_update_poll_events;
}.

(** Both pollers have the same [update_channel] and [remove_channel]. *)
Definition epoll_update_channel : nat -> Poller (EPoll K) -> outcome (Poller (EPoll K)) :=
  update_channel.
Definition epoll_remove_channel : nat -> Poller (EPoll K) -> outcome (Poller (EPoll K)) :=
  remove_channel.

Fixpoint epoll_fill_active_channels (evs : list (Z * nat)) (chs : gmap Z nat) (h : heap)
    : outcome (list nat * heap) :=
  match evs with
  | [] => Ok ([], h)
  | (events, id) :: evs =>
      c ← deref h id;
      check (bool_decide (is_Some (chs !! fd c))) "fill_active_channels: find";;
      check (bool_decide (chs !! fd c = Some id)) "fill_active_channels: same channel";;
      '(active, h) ← epoll_fill_active_channels evs chs (<[id := set_revents (i32 events) c]> h);
      Ok (id :: active, h)
  end.

Definition epoll_poll (in_own_loop : bool) (epoll_wait : K -> Z -> Z + list (Z * nat))
    (p : Poller (EPoll K)) : outcome (list nat * Poller (EPoll K)) :=
  check in_own_loop "check_in_own_loop";;
  let e := backend p in
  match epoll_wait (epollfd_ e) (active_events_size e) with
  | inl _ => Ok ([], p)
  | inr evs =>
      if 0 <? zlen evs then
        check (zlen evs <=? active_events_size e) "fill_active_channels: num";;
        '(active, h) ← epoll_fill_active_channels evs (channels_ p) (chans p);
        let n := if zlen evs =? active_events_size e then active_events_size e * 2
                 else active_events_size e in
        Ok (active, mkPoller h (channels_ p) (mkEPoll (epollfd_ e) n))
      else Ok ([], p)
  end.

End EPoll.

(** ** Specification *)

(** What [update_poll_events] promises to the common code: it maintains the
    interest map, with the address of the channel if the backend stores it. *)
Class BackendSpec (B : Type) `{PollBackend B} : Type := {
  backend_ok : B -> Prop;
  tag : nat -> option nat;
  watched : B -> gmap Z (Z * option nat);
  upe_add : forall b id c,
    backend_ok b -> events_ok (events_ c) -> watched b !! fd c = None ->
    exists b', update_poll_events kPollCtlAdd id c b = Ok b' /\ backend_ok b' /\
      watched b' = <[fd c := (events_ c, tag id)]> (watched b);
  upe_mod : forall b id c,
    backend_ok b -> events_ok (events_ c) -> (exists e, watched b !! fd c = Some (e, tag id)) ->
    exists b', update_poll_events kPollCtlMod id c b = Ok b' /\ backend_ok b' /\
      watched b' = <[fd c := (events_ c, tag id)]> (watched b);
  upe_del : forall b id c,
    backend_ok b -> (exists e, watched b !! fd c = Some (e, tag id)) ->
    exists b', update_poll_events kPollCtlDel id c b = Ok b' /\ backend_ok b' /\
      watched b' = delete (fd c) (watched b);
}.

(** epoll_ctl(2): [EPOLL_CTL_ADD] on a descriptor that is not registered, and
    the other two on one that is, succeed and change just that entry. *)
Class EpollSpec (K : Type) `{EpollSys K} : Type := {
  registered : K -> gmap Z (Z * nat);
  ctl_add : forall k fd ev, registered k !! fd = None ->
    exists k', epoll_ctl kPollCtlAdd fd ev k = Some k' /\ registered k' = <[fd := ev]> (registered k);
  ctl_mod : forall k fd ev, is_Some (registered k !! fd) ->
    exists k', epoll_ctl kPollCtlMod fd ev k = Some k' /\ registered k' = <[fd := ev]> (registered k);
  ctl_del : forall k fd ev, is_Some (registered k !! fd) ->
    exists k', epoll_ctl kPollCtlDel fd ev k = Some k' /\ registered k' = delete fd (registered k);
}.

(** What the owners of channels do to a poller. *)
Inductive op : Type :=
  | New (id : nat) (fd : Z) (cbs : list callback)
  | Interest (o : interest_op) (id : nat)
  | Remove (id : nat)
  | Destroy (id : nat).

Definition run_op {B} `{PollBackend B} (o : op) (p : Poller B) : outcome (Poller B) :=
  match o with
  | New id fd cbs => Ok (new_channel id fd cbs p)
  | Interest io id => interest true io id p
  | Remove id => remove true id p
  | Destroy id => destroy id p
  end.

Fixpoint run_ops {B} `{PollBackend B} (ops : list op) (p : Poller B) : outcome (Poller B) :=
  match ops with
  | [] => Ok p
  | o :: ops => p ← run_op o p; run_ops ops p
  end.

(** The state machine on the channels alone: the status after an update. *)
Definition settle (c : Channel) : Channel :=
  set_status (if (status_ c =? kChannelPollAdded) && is_none_event c
              then kChannelPollDeleted else kChannelPollAdded) c.

Definition spec_op (o : op) (h : heap) : heap :=
  match o with
  | New id fd cbs => <[id := make_channel fd cbs]> h
  | Interest io id =>
      alter (fun c => settle (set_added true (set_events (new_events io (events_ c)) c))) id h
  | Remove id => alter (fun c => set_status kChannelPollInit (set_added false c)) id h
  | Destroy id => delete id h
  end.

(** The protocol of the class comments: a new channel has a new address, two
    registered channels have different descriptors, a channel is removed with
    no interest left and destroyed after that. *)
Definition valid_op (o : op) (h : heap) : Prop :=
  match o with
  | New id _ _ => h !! id = None
  | Interest _ id => exists c, h !! id = Some c /\
      (status_ c = kChannelPollInit ->
       forall id' c', h !! id' = Some c' -> status_ c' <> kChannelPollInit -> fd c' <> fd c)
  | Remove id => exists c, h !! id = Some c /\ status_ c <> kChannelPollInit /\ events_ c = 0
  | Destroy id => exists c, h !! id = Some c /\ status_ c = kChannelPollInit /\
      handling_event_ c = false
  end.

Fixpoint valid_ops (ops : list op) (h : heap) : Prop :=
  match ops with
  | [] => True
  | o :: ops => valid_op o h /\ valid_ops ops (spec_op o h)
  end.

Definition spec_ops (ops : list op) (h : heap) : heap := foldl (fun h o => spec_op o h) h ops.

(** The invariant of a channel, of the descriptor map and of the interest map. *)
Definition channel_ok (c : Channel) : Prop :=
  events_ok (events_ c) /\
  (status_ c = kChannelPollInit \/ status_ c = kChannelPollAdded \/ status_ c = kChannelPollDeleted) /\
  (status_ c = kChannelPollInit <-> added_to_loop_ c = false).

Definition registry_ok (h : heap) (chs : gmap Z nat) : Prop :=
  forall f id, chs !! f = Some id <->
    exists c, h !! id = Some c /\ fd c = f /\ status_ c <> kChannelPollInit.

Definition interest_ok {B} `{BackendSpec B} (h : heap) (b : B) : Prop :=
  forall f e t, watched b !! f = Some (e, t) <->
    exists id c, h !! id = Some c /\ fd c = f /\ status_ c = kChannelPollAdded /\
      events_ c = e /\ t = tag id.

Definition poller_ok {B} `{BackendSpec B} (p : Poller B) : Prop :=
  map_Forall (fun _ => channel_ok) (chans p) /\ registry_ok (chans p) (channels_ p) /\
  backend_ok (backend p) /\ interest_ok (chans p) (backend p).

(** ** Lemmas *)

Lemma registry_unique h chs id1 c1 id2 c2 :
  registry_ok h chs -> h !! id1 = Some c1 -> h !! id2 = Some c2 -> fd c1 = fd c2 ->
  status_ c1 <> kChannelPollInit -> status_ c2 <> kChannelPollInit -> id1 = id2.
Proof.
  intros R H1 H2 E S1 S2.
  assert (chs !! fd c1 = Some id1) by (apply R; eauto).
  assert (chs !! fd c1 = Some id2) by (apply R; eauto). congruence.
Qed.

(** The effect on the registry of replacing one channel. *)
Lemma registry_keep h chs id c c' :
  registry_ok h chs -> h !! id = Some c -> fd c' = fd c ->
  (status_ c' = kChannelPollInit <-> status_ c = kChannelPollInit) ->
  registry_ok (<[id := c']> h) chs.
Proof.
  intros R Hc Hf Hs f i. rewrite (R f i). split.
  - intros (d & Hd & <- & Hn). destruct (decide (i = id)) as [->|Hne].
    + exists c'. rewrite lookup_insert_eq. replace d with c in * by congruence.
      split_and!; [done | done | by rewrite Hs].
    + exists d. by rewrite lookup_insert_ne.
  - intros (d & [(-> & <-)|[? ?]]%lookup_insert_Some & <- & Hn); [|eauto].
    exists c. rewrite Hf. intuition.
Qed.

Lemma registry_add h chs id c c' :
  registry_ok h chs -> h !! id = Some c -> fd c' = fd c ->
  chs !! fd c = None -> status_ c' <> kChannelPollInit ->
  registry_ok (<[id := c']> h) (<[fd c := id]> chs).
Proof.
  intros R Hc Hf Hnone Hs f i. rewrite lookup_insert_Some. split.
  - intros [[<- <-]|[Hne Hi]]; [exists c'; by rewrite lookup_insert_eq|].
    apply R in Hi as (d & Hd & Hdf & Hn). exists d. split_and!; try done.
    rewrite lookup_insert_ne; [done|]. intros <-. congruence.
  - intros (d & [(-> & <-)|[Hne Hd]]%lookup_insert_Some & <- & Hn); [by left|].
    right. split; [|apply R; eauto]. intros E.
    assert (chs !! fd d = Some i) by (apply R; eauto). congruence.
Qed.

Lemma registry_delete h chs id c c' :
  registry_ok h chs -> h !! id = Some c -> fd c' = fd c ->
  status_ c <> kChannelPollInit -> status_ c' = kChannelPollInit ->
  registry_ok (<[id := c']> h) (delete (fd c) chs).
Proof.
  intros R Hc Hf Hn Hs f i. rewrite lookup_delete_Some. split.
  - intros [Hne Hi]. apply R in Hi as (d & Hd & Hdf & Hdn). exists d. split_and!; try done.
    rewrite lookup_insert_ne; [done|]. intros <-. congruence.
  - intros (d & [(-> & <-)|[Hne Hd]]%lookup_insert_Some & <- & Hdn); [done|].
    split; [|apply R; eauto]. intros E. apply Hne.
    by apply (registry_unique h chs id c i d).
Qed.

Lemma alter_lookup (f : Channel -> Channel) (h : heap) id c :
  h !! id = Some c -> alter f id h = <[id := f c]> h.
Proof.
  intros Hc. apply map_eq. intros i. destruct (decide (i = id)) as [->|Hne].
  - by rewrite lookup_alter_eq, lookup_insert_eq, Hc.
  - by rewrite lookup_alter_ne, lookup_insert_ne.
Qed.

Section Step_lemmas.
Context {B : Type} `{BackendSpec B}.

Lemma watched_unregistered h chs (b : B) c :
  registry_ok h chs -> interest_ok h b -> chs !! fd c = None -> watched b !! fd c = None.
Proof.
  intros R I Hn. destruct (watched b !! fd c) as [[e t]|] eqn:E; [|done].
  apply I in E as (id & d & Hd & Hf & Hs & _).
  assert (chs !! fd c = Some id) by (apply R; exists d; rewrite Hs; done). congruence.
Qed.

Lemma watched_deleted h chs (b : B) id c :
  registry_ok h chs -> interest_ok h b -> h !! id = Some c ->
  status_ c = kChannelPollDeleted -> watched b !! fd c = None.
Proof.
  intros R I Hc Hs. destruct (watched b !! fd c) as [[e t]|] eqn:E; [|done].
  apply I in E as (i & d & Hd & Hf & Hds & _).
  assert (i = id) as -> by (eapply (registry_unique h chs i d id c); try done; by rewrite ?Hs, ?Hds).
  replace d with c in * by congruence. by rewrite Hs in Hds.
Qed.

(** The effect on the interest map of replacing one channel. *)
Lemma interest_set h chs (b b' : B) id c c' :
  registry_ok h chs -> interest_ok h b -> h !! id = Some c -> fd c' = fd c ->
  (status_ c <> kChannelPollInit \/ chs !! fd c = None) ->
  status_ c' = kChannelPollAdded ->
  watched b' = <[fd c := (events_ c', tag id)]> (watched b) ->
  interest_ok (<[id := c']> h) b'.
Proof.
  intros R I Hc Hf Hreg Hs W f e t. rewrite W, lookup_insert_Some.
  assert (forall i d, i <> id -> h !! i = Some d -> status_ d = kChannelPollAdded -> fd d <> fd c)
    as Hother.
  { intros i d Hne Hd Hds E. destruct Hreg as [Hreg|Hreg].
    - apply Hne. eapply (registry_unique h chs i d id c); try done. by rewrite Hds.
    - assert (chs !! fd d = Some i) by (apply R; exists d; rewrite Hds; done). congruence. }
  split.
  - intros [[<- [= <- <-]]|[Hne Hw]]; [exists id, c'; by rewrite lookup_insert_eq|].
    apply I in Hw as (i & d & Hd & Hdf & Hds & Hev & Ht). exists i, d. split_and!; try done.
    rewrite lookup_insert_ne; [done|]. intros <-. replace d with c in * by congruence. done.
  - intros (i & d & [(-> & <-)|[Hne Hd]]%lookup_insert_Some & <- & Hds & <- & ->); [by left|].
    right. split; [by intros E; apply (Hother i d) |]. apply I. eauto 10.
Qed.

Lemma interest_unset h chs (b b' : B) id c c' :
  registry_ok h chs -> interest_ok h b -> h !! id = Some c -> fd c' = fd c ->
  status_ c = kChannelPollAdded -> status_ c' <> kChannelPollAdded ->
  watched b' = delete (fd c) (watched b) ->
  interest_ok (<[id := c']> h) b'.
Proof.
  intros R I Hc Hf Hcs Hs W f e t. rewrite W, lookup_delete_Some. split.
  - intros [Hne Hw]. apply I in Hw as (i & d & Hd & Hdf & Hds & Hev & Ht).
    exists i, d. split_and!; try done. rewrite lookup_insert_ne; [done|]. intros <-. congruence.
  - intros (i & d & [(-> & <-)|[Hne Hd]]%lookup_insert_Some & <- & Hds & <- & ->); [done|].
    split; [|apply I; eauto 10]. intros E. apply Hne.
    eapply (registry_unique h chs id c i d); try done; by rewrite ?Hcs, ?Hds.
Qed.

Lemma interest_keep h (b : B) id c c' :
  interest_ok h b -> h !! id = Some c ->
  (status_ c = kChannelPollAdded -> fd c' = fd c /\ events_ c' = events_ c) ->
  (status_ c' = kChannelPollAdded <-> status_ c = kChannelPollAdded) ->
  interest_ok (<[id := c']> h) b.
Proof.
  intros I Hc Hsame Hs f e t. rewrite (I f e t). split.
  - intros (i & d & Hd & <- & Hds & <- & ->). destruct (decide (i = id)) as [->|Hne].
    + replace d with c in * by congruence. destruct (Hsame Hds) as [E1 E2].
      exists id, c'. rewrite lookup_insert_eq. intuition.
    + exists i, d. by rewrite lookup_insert_ne.
  - intros (i & d & [(-> & <-)|[Hne Hd]]%lookup_insert_Some & <- & Hds & <- & ->); [|eauto 10].
    apply Hs in Hds as Hcs. destruct (Hsame Hcs) as [-> ->]. eauto 10.
Qed.

(** [update_channel] on a channel whose interest has just changed. *)
Lemma update_channel_step p id c c1 :
  poller_ok p -> chans p !! id = Some c ->
  (status_ c = kChannelPollInit -> channels_ p !! fd c = None) ->
  fd c1 = fd c -> status_ c1 = status_ c -> events_ok (events_ c1) -> added_to_loop_ c1 = true ->
  exists p', update_channel id (set_channel id c1 p) = Ok p' /\ poller_ok p' /\
    chans p' = <[id := settle c1]> (chans p).
Proof.
  intros (Hch & R & Hb & I) Hc Hnew Hfd Hs1 Hev Hadd. destruct (Hch id c Hc) as (_ & Hst & _).
  unfold update_channel, deref. cbn. rewrite lookup_insert_eq. cbn. rewrite Hs1, Hfd.
  assert (fd (settle c1) = fd c) as Hfs by done.
  assert (channel_ok (settle c1)) as Hok.
  { unfold channel_ok, settle. cbn. split; [done|]. rewrite Hadd.
    destruct (_ && _); split; auto; split; intros; discriminate. }
  assert (forall chs b', backend_ok b' -> registry_ok (<[id := settle c1]> (chans p)) chs ->
     interest_ok (<[id := settle c1]> (chans p)) b' ->
     poller_ok (mkPoller (<[id := settle c1]> (chans p)) chs b')) as Hmk.
  { intros chs b' Hb' R' I'. split_and!; try done. by apply map_Forall_insert_2. }
  destruct Hst as [Hst|[Hst|Hst]]; rewrite Hst in *;
    cbn [orb Z.eqb Pos.eqb kChannelPollInit kChannelPollAdded kChannelPollDeleted].
  - assert (settle c1 = set_status kChannelPollAdded c1) as Hset
      by (unfold settle; by rewrite Hs1).
    specialize (Hnew eq_refl). rewrite bool_decide_eq_true_2 by done. cbn. rewrite <- Hset.
    destruct (upe_add (backend p) id (settle c1)) as (b' & -> & Hb' & W);
      [done | done | rewrite Hfs; by eapply watched_unregistered |].
    cbn. eexists. rewrite insert_insert_eq. split_and!; [done | | done].
    rewrite Hfs in W. apply Hmk; [done | |]; [eapply registry_add; eauto; by rewrite Hset|].
    eapply (interest_set (chans p)); eauto. by rewrite Hset.
  - assert (channels_ p !! fd c = Some id) as Hreg by (apply R; exists c; by rewrite Hst).
    assert (exists e, watched (backend p) !! fd c1 = Some (e, tag id)) as Hw
      by (exists (events_ c); rewrite Hfd; apply I; eauto 10).
    rewrite Hreg, !bool_decide_eq_true_2 by done. cbn.
    destruct (is_none_event c1) eqn:En.
    + assert (settle c1 = set_status kChannelPollDeleted c1) as Hset
        by (unfold settle; by rewrite Hs1, En).
      destruct (upe_del (backend p) id c1) as (b' & -> & Hb' & W); [done..|].
      cbn. rewrite <- Hset. eexists. rewrite insert_insert_eq. split_and!; [done | | done].
      rewrite Hfd in W. apply Hmk; [done | |]; [eapply registry_keep; eauto; by rewrite Hset, Hst|].
      eapply (interest_unset (chans p)); eauto. by rewrite Hset.
    + assert (settle c1 = c1) as Hset
        by (unfold settle; rewrite Hs1, En; cbn; rewrite <- Hs1; by destruct c1).
      destruct (upe_mod (backend p) id c1) as (b' & -> & Hb' & W); [done..|].
      rewrite Hset in *. cbn. eexists. split_and!; [done | | done]. rewrite Hfd in W.
      apply Hmk; [done | |]; [eapply registry_keep; eauto; by rewrite Hs1, Hst|].
      eapply (interest_set (chans p)); eauto. left. by rewrite Hst.
  - assert (settle c1 = set_status kChannelPollAdded c1) as Hset
      by (unfold settle; by rewrite Hs1).
    assert (channels_ p !! fd c = Some id) as Hreg by (apply R; exists c; by rewrite Hst).
    rewrite Hreg, !bool_decide_eq_true_2 by done. cbn. rewrite <- Hset.
    destruct (upe_add (backend p) id (settle c1)) as (b' & -> & Hb' & W);
      [done | done | rewrite Hfs; by eapply watched_deleted |].
    cbn. eexists. rewrite insert_insert_eq. split_and!; [done | | done].
    rewrite Hfs in W. apply Hmk; [done | |]; [eapply registry_keep; eauto; by rewrite Hset, Hst|].
    eapply (interest_set (chans p)); eauto; [left; by rewrite Hst | by rewrite Hset].
Qed.

Lemma interest_step p io id c :
  poller_ok p -> chans p !! id = Some c ->
  (status_ c = kChannelPollInit -> channels_ p !! fd c = None) ->
  exists p', interest true io id p = Ok p' /\ poller_ok p' /\
    chans p' = <[id := settle (set_added true (set_events (new_events io (events_ c)) c))]> (chans p).
Proof.
  intros Hok Hc Hnew. pose proof Hok as (Hch & _). destruct (Hch id c Hc) as (Hev & _).
  unfold interest, deref. rewrite Hc. cbn. rewrite lookup_insert_eq. cbn.
  unfold set_channel. cbn. rewrite insert_insert_eq.
  apply (update_channel_step p id c); try done. by apply new_events_ok.
Qed.

Lemma remove_step p id c :
  poller_ok p -> chans p !! id = Some c -> status_ c <> kChannelPollInit -> events_ c = 0 ->
  exists p', remove true id p = Ok p' /\ poller_ok p' /\
    chans p' = <[id := set_status kChannelPollInit (set_added false c)]> (chans p).
Proof.
  intros (Hch & R & Hb & I) Hc Hs He. destruct (Hch id c Hc) as (Hev & Hst & Had).
  unfold remove, remove_channel, deref. rewrite Hc. cbn. rewrite lookup_insert_eq. cbn.
  unfold is_none_event. cbn. rewrite He. cbn. rewrite insert_insert_eq.
  assert (channels_ p !! fd c = Some id) as Hreg by (apply R; eauto).
  rewrite Hreg, !bool_decide_eq_true_2 by done. cbn.
  set (c' := set_status kChannelPollInit (set_added false c)).
  assert (forall b', backend_ok b' -> interest_ok (<[id := c']> (chans p)) b' ->
     poller_ok (mkPoller (<[id := c']> (chans p)) (delete (fd c) (channels_ p)) b')) as Hmk.
  { intros b' Hb' I'. split_and!; try done; [|by eapply registry_delete].
    apply map_Forall_insert_2; [|done]. unfold channel_ok, c'; cbn. split_and!; auto; done. }
  destruct Hst as [Hst|[Hst|Hst]]; [done | |]; rewrite Hst;
    cbn [orb Z.eqb Pos.eqb kChannelPollInit kChannelPollAdded kChannelPollDeleted check mbind outcome_bind].
  - destruct (upe_del (backend p) id (set_added false c)) as (b' & -> & Hb' & W);
      [done | exists (events_ c); apply I; eauto 10 |].
    cbn. eexists. split_and!; [done | | done]. apply Hmk; [done|].
    by eapply (interest_unset (chans p)); eauto.
  - eexists. split_and!; [done | | done]. apply Hmk; [done|].
    eapply interest_keep; [done | done | by rewrite Hst | rewrite Hst]. split; discriminate.
Qed.

Lemma valid_op_step o p :
  poller_ok p -> valid_op o (chans p) ->
  exists p', run_op o p = Ok p' /\ poller_ok p' /\ chans p' = spec_op o (chans p).
Proof.
  intros Hok Hv. pose proof Hok as (Hch & R & Hb & I).
  destruct o as [id f cbs|io id|id|id]; cbn in Hv |- *.
  - eexists. split_and!; [done | | done]. split_and!; cbn; try done.
    + apply map_Forall_insert_2; [|done]. unfold channel_ok. cbn.
      split_and!; auto; unfold events_ok; lia.
    + intros f' i. rewrite (R f' i). split.
      * intros (d & Hd & ? & ?). exists d. rewrite lookup_insert_ne by congruence. done.
      * intros (d & [(-> & <-)|[? ?]]%lookup_insert_Some & ? & Hn); [done | eauto].
    + intros f' e t. rewrite (I f' e t). split.
      * intros (i & d & Hd & ?). exists i, d. rewrite lookup_insert_ne by congruence. done.
      * intros (i & d & [(-> & <-)|[? ?]]%lookup_insert_Some & ? & Hn & ?); [done | by exists i, d].
  - destruct Hv as (c & Hc & Hnew). rewrite (alter_lookup _ _ _ c) by done.
    apply interest_step; try done. intros Hs. destruct (channels_ p !! fd c) as [i|] eqn:E; [|done].
    apply R in E as (d & Hd & Hdf & Hdn). by destruct (Hnew Hs i d).
  - destruct Hv as (c & Hc & Hs & He). rewrite (alter_lookup _ _ _ c) by done.
    by apply remove_step.
  - destruct Hv as (c & Hc & Hs & Hh). destruct (Hch id c Hc) as (_ & _ & Had).
    assert (forall i d, chans p !! i = Some d -> status_ d <> kChannelPollInit ->
      delete id (chans p) !! i = Some d) as Hkeep.
    { intros i d Hd Hn. rewrite lookup_delete_ne; [done|]. intros <-. congruence. }
    unfold destroy, deref, has_channel. rewrite Hc. cbn. rewrite Hh, (proj1 Had Hs). cbn.
    unfold deref. rewrite Hc. cbn. rewrite bool_decide_eq_false_2.
    2: { intros E. apply R in E as (d & Hd & _ & Hn). congruence. }
    cbn. eexists. split_and!; [done | | done]. split_and!; cbn; try done.
    + by apply map_Forall_delete.
    + intros f i. rewrite (R f i). split.
      * intros (d & Hd & ? & ?). eauto 10.
      * intros (d & [_ Hd]%lookup_delete_Some & ?). eauto.
    + intros f e t. rewrite (I f e t). split.
      * intros (i & d & Hd & ? & Hds & ?). exists i, d. split_and!; try apply Hkeep; intuition.
        by rewrite Hds in *.
      * intros (i & d & [_ Hd]%lookup_delete_Some & ?). eauto.
Qed.

Lemma valid_ops_run ops p :
  poller_ok p -> valid_ops ops (chans p) ->
  exists p', run_ops ops p = Ok p' /\ poller_ok p' /\ chans p' = spec_ops ops (chans p).
Proof.
  revert p. induction ops as [|o ops IH]; intros p Hok Hv; [by exists p|].
  destruct Hv as [Hv Hvs]. destruct (valid_op_step o p Hok Hv) as (p1 & E1 & Hok1 & Hc1).
  cbn [run_ops]. rewrite E1. cbn. rewrite <- Hc1 in Hvs.
  destruct (IH p1 Hok1 Hvs) as (p2 & ? & ? & ?). exists p2. split_and!; try done.
  unfold spec_ops in *. cbn. congruence.
Qed.

Lemma empty_poller_ok (b : B) :
  backend_ok b -> watched b = ∅ -> poller_ok (mkPoller ∅ ∅ b).
Proof.
  intros Hb W. split_and!; try done.
  - intros f i. cbn. rewrite lookup_empty. split; [done|]. by intros (d & ? & _).
  - intros f e t. cbn. rewrite W, lookup_empty. split; [done|]. by intros (i & d & ? & _).
Qed.

End Step_lemmas.

(** *** The vector of [pollfd] *)

Definition entry (x : pollfd) : Z * (Z * option nat) := (pfd_fd x, (pfd_events x, None)).
Definition poll_ok (l : list pollfd) : Prop := NoDup (pfd_fd <$> l).
Definition poll_watched (l : list pollfd) : gmap Z (Z * option nat) := list_to_map (entry <$> l).

Lemma poll_watched_lookup l f v :
  poll_ok l -> poll_watched l !! f = Some v <->
    exists x, x ∈ l /\ pfd_fd x = f /\ v = (pfd_events x, None).
Proof.
  intros Hn. unfold poll_watched. rewrite <- elem_of_list_to_map.
  - rewrite list_elem_of_fmap. unfold entry. split; [intros (x & [= -> ->] & ?) | intros (x & ? & <- & ->)]; eauto.
  - by rewrite <- list_fmap_compose.
Qed.

Lemma find_poll_events_none f l : find_poll_events f l = None -> f ∉ pfd_fd <$> l.
Proof.
  induction l as [|x l IH]; cbn; [intros _; apply not_elem_of_nil|].
  destruct (Z.eqb_spec (pfd_fd x) f); [done|]. intros E.
  destruct (find_poll_events f l); [done|]. rewrite not_elem_of_cons. auto.
Qed.

Lemma find_poll_events_some f l i :
  find_poll_events f l = Some i -> exists l1 x l2, l = l1 ++ x :: l2 /\ length l1 = i /\ pfd_fd x = f.
Proof.
  revert i. induction l as [|x l IH]; intros i E; [done|]. cbn in E.
  destruct (Z.eqb_spec (pfd_fd x) f) as [Hf|Hf].
  - injection E as <-. by exists [], x, l.
  - destruct (find_poll_events f l) as [j|]; [|done]. injection E as <-.
    destruct (IH j eq_refl) as (l1 & y & l2 & -> & <- & ?). by exists (x :: l1), y, l2.
Qed.

(** A watched descriptor has its entry. *)
Lemma poll_watched_split l f v :
  poll_ok l -> poll_watched l !! f = Some v ->
  exists l1 x l2, l = l1 ++ x :: l2 /\ find_poll_events f l = Some (length l1) /\ pfd_fd x = f.
Proof.
  intros Hn Hw. destruct (find_poll_events f l) as [i|] eqn:E.
  - destruct (find_poll_events_some f l i E) as (l1 & x & l2 & ? & <- & ?). eauto 10.
  - apply find_poll_events_none in E. apply poll_watched_lookup in Hw as (x & Hx & <- & _); [|done].
    by destruct E; apply list_elem_of_fmap_2.
Qed.

Lemma poll_ok_middle l1 x l2 :
  poll_ok (l1 ++ x :: l2) -> poll_ok (l1 ++ l2) /\ pfd_fd x ∉ pfd_fd <$> l1 ++ l2.
Proof.
  unfold poll_ok. rewrite !fmap_app, fmap_cons. intros Hn.
  assert (NoDup (pfd_fd x :: (pfd_fd <$> l1) ++ (pfd_fd <$> l2))) as Hn'.
  { by rewrite Permutation_middle. }
  apply NoDup_cons in Hn' as [? ?]. done.
Qed.

Lemma events_short e : events_ok e -> i16 e = e.
Proof. intros [??]. apply swrap_small; lia. Qed.

Lemma poll_add l id c :
  poll_ok l -> events_ok (events_ c) -> poll_watched l !! fd c = None ->
  exists l', poll_update_poll_events kPollCtlAdd id c l = Ok l' /\ poll_ok l' /\
    poll_watched l' = <[fd c := (events_ c, None)]> (poll_watched l).
Proof.
  intros Hn Hev Hw. unfold poll_update_poll_events. cbn.
  destruct (find_poll_events (fd c) l) as [i|] eqn:E.
  { destruct (find_poll_events_some _ _ _ E) as (l1 & x & l2 & -> & _ & Hf).
    assert (poll_watched (l1 ++ x :: l2) !! fd c = Some (pfd_events x, None)); [|congruence].
    apply poll_watched_lookup; [done|]. exists x. set_solver. }
  apply find_poll_events_none in E. rewrite bool_decide_eq_true_2 by done. cbn.
  assert (poll_ok (l ++ [mkPollfd (fd c) (i16 (events_ c)) 0])) as Hn'.
  { unfold poll_ok in *. rewrite fmap_app, NoDup_app. cbn. split_and!; [done | | apply NoDup_singleton].
    intros f Hf. rewrite list_elem_of_singleton. by intros ->. }
  eexists. split_and!; [done | done |].
  rewrite events_short in Hn' |- * by done. apply map_eq. intros f. apply option_eq. intros v.
  rewrite poll_watched_lookup, lookup_insert_Some, poll_watched_lookup by done. split.
  + intros (x & [Hx| ->%list_elem_of_singleton]%elem_of_app & <- & ->); cbn; [|by left].
    right. split; [|eauto]. intros Ef. apply E. rewrite Ef. by apply list_elem_of_fmap_2.
  + intros [[<- <-]|[Hne (x & Hx & <- & ->)]]; [|exists x; set_solver].
    exists (mkPollfd (fd c) (events_ c) 0). set_solver.
Qed.

Lemma poll_mod l id c :
  poll_ok l -> events_ok (events_ c) -> (exists e, poll_watched l !! fd c = Some (e, None)) ->
  exists l', poll_update_poll_events kPollCtlMod id c l = Ok l' /\ poll_ok l' /\
    poll_watched l' = <[fd c := (events_ c, None)]> (poll_watched l).
Proof.
  intros Hn Hev (e & Hw). destruct (poll_watched_split _ _ _ Hn Hw) as (l1 & x & l2 & -> & E & Hf).
  cbn. unfold poll_update_poll_events. cbn. rewrite E, alter_app_r_alt, Nat.sub_diag by lia. cbn.
  rewrite events_short, Hf by done. destruct (poll_ok_middle _ _ _ Hn) as [_ Hx].
  assert (poll_ok (l1 ++ mkPollfd (fd c) (events_ c) 0 :: l2)) as Hn'.
  { unfold poll_ok in *. rewrite fmap_app, fmap_cons in Hn |- *. cbn. by rewrite <- Hf. }
  eexists. split_and!; [done | done |]. apply map_eq. intros f. apply option_eq. intros v.
  rewrite poll_watched_lookup, lookup_insert_Some, poll_watched_lookup by done.
  setoid_rewrite elem_of_app. setoid_rewrite elem_of_cons. split.
  + intros (y & Hy & <- & ->).
    destruct Hy as [Hy|[->|Hy]]; [right| by left |right]; (split; [|eauto 10]); rewrite <- Hf; intros E';
      apply Hx; rewrite E'; apply list_elem_of_fmap_2; set_solver.
  + intros [[<- <-]|[Hne (y & Hy & <- & ->)]]; [eexists; eauto 10|].
    destruct Hy as [Hy|[->|Hy]]; [eauto 10 | congruence | eauto 10].
Qed.

Lemma poll_del l id c :
  poll_ok l -> (exists e, poll_watched l !! fd c = Some (e, None)) ->
  exists l', poll_update_poll_events kPollCtlDel id c l = Ok l' /\ poll_ok l' /\
    poll_watched l' = delete (fd c) (poll_watched l).
Proof.
  intros Hn (e & Hw). destruct (poll_watched_split _ _ _ Hn Hw) as (l1 & x & l2 & -> & E & Hf).
  cbn. unfold poll_update_poll_events. cbn. rewrite E.
  rewrite take_app_length, drop_app_ge, Nat.sub_succ_l, Nat.sub_diag by lia. cbn. rewrite drop_0.
  destruct (poll_ok_middle _ _ _ Hn) as [Hn' Hx].
  eexists. split_and!; [done | done |]. apply map_eq. intros f. apply option_eq. intros v.
  rewrite poll_watched_lookup, lookup_delete_Some, poll_watched_lookup by done.
  setoid_rewrite elem_of_app. setoid_rewrite elem_of_cons. split.
  + intros (y & Hy & <- & ->). split; [|exists y; intuition]. rewrite <- Hf. intros E'.
    apply Hx. rewrite E'. apply list_elem_of_fmap_2. set_solver.
  + intros [Hne (y & Hy & <- & ->)]. exists y. destruct Hy as [Hy|[->|Hy]]; intuition congruence.
Qed.

#[export] Instance poll_backend_spec : BackendSpec (list pollfd) := {
  backend_ok := poll_ok;
  tag := fun _ => None;
  watched := poll_watched;
  upe_add := poll_add;
  upe_mod := poll_mod;
  upe_del := poll_del;
}.

(** *** The epoll instance *)

Section EPoll_lemmas.
Context {K : Type} `{EpollSpec K}.

Definition epoll_watched (e : EPoll K) : gmap Z (Z * option nat) :=
  (fun '(ev, id) => (ev, Some id)) <$> registered (epollfd_ e).

Lemma events_unsigned e : events_ok e -> u32 e = e.
Proof. intros [??]. apply u32_small. lia. Qed.

Lemma epoll_registered e f ev id :
  epoll_watched e !! f = Some (ev, Some id) -> registered (epollfd_ e) !! f = Some (ev, id).
Proof.
  unfold epoll_watched. rewrite lookup_fmap_Some. intros ([ev' id'] & [= -> ->] & ?). done.
Qed.

#[export] Instance epoll_backend_spec : BackendSpec (EPoll K).
Proof.
  refine {| backend_ok := fun _ => True; tag := Some; watched := epoll_watched |}.
  - intros e id c _ Hev Hw. cbn. unfold epoll_update_poll_events. rewrite events_unsigned by done.
    destruct (ctl_add (epollfd_ e) (fd c) (events_ c, id)) as (k & -> & R).
    { unfold epoll_watched in Hw. by rewrite lookup_fmap, fmap_None in Hw. }
    eexists. split_and!; [done | done |]. unfold epoll_watched. cbn. by rewrite R, fmap_insert.
  - intros e id c _ Hev (ev & Hw). cbn. unfold epoll_update_poll_events.
    rewrite events_unsigned by done. apply epoll_registered in Hw.
    destruct (ctl_mod (epollfd_ e) (fd c) (events_ c, id)) as (k & -> & R); [by rewrite Hw|].
    eexists. split_and!; [done | done |]. unfold epoll_watched. cbn. by rewrite R, fmap_insert.
  - intros e id c _ (ev & Hw). cbn. unfold epoll_update_poll_events. apply epoll_registered in Hw.
    destruct (ctl_del (epollfd_ e) (fd c) (u32 (events_ c), id)) as (k & -> & R); [by rewrite Hw|].
    eexists. split_and!; [done | done |]. unfold epoll_watched. cbn. by rewrite R, fmap_delete.
Defined.

End EPoll_lemmas.

(** *** Delivery of the events *)

(** The channels of the entries with returned events, in the order of the vector. *)
Definition ready_channels (l : list pollfd) (chs : gmap Z nat) : list nat :=
  omap (fun e => if 0 <? pfd_revents e then chs !! pfd_fd e else None) l.

Definition ready_count (l : list pollfd) : Z :=
  zlen (filter (fun e => 0 < pfd_revents e) l).

(** Every entry belongs to a live channel. *)
Definition entries_live (l : list pollfd) (chs : gmap Z nat) (h : heap) : Prop :=
  forall e, e ∈ l -> exists id c, chs !! pfd_fd e = Some id /\ h !! id = Some c /\ fd c = pfd_fd e.

Lemma entries_live_revents l chs h id c r :
  entries_live l chs h -> h !! id = Some c -> entries_live l chs (<[id := set_revents r c]> h).
Proof.
  intros Hl Hc e He. destruct (Hl e He) as (i & d & Hi & Hd & Hf).
  destruct (decide (i = id)) as [->|Hne].
  - exists id, (set_revents r c). rewrite lookup_insert_eq. replace c with d by congruence. done.
  - exists i, d. by rewrite lookup_insert_ne.
Qed.

Lemma no_ready l chs :
  ready_count l <= 0 -> ready_channels l chs = [] /\ forall x, x ∈ l -> ~ 0 < pfd_revents x.
Proof.
  unfold ready_count. induction l as [|x l IH]; intros Hz.
  { split; [done|]. by intros x ?%elem_of_nil. }
  rewrite filter_cons in Hz. pose proof (zlen_nonneg (filter (fun e => 0 < pfd_revents e) l)).
  destruct (decide (0 < pfd_revents x)) as [Hx|Hx]; [rewrite zlen_cons in Hz; lia|].
  destruct (IH Hz) as [E Hno]. split; [|intros y [->|Hy]%elem_of_cons; auto].
  unfold ready_channels. cbn [omap list_omap].
  replace (0 <? pfd_revents x) with false by (symmetry; apply Z.ltb_ge; lia). done.
Qed.

Lemma fill_active_channels_ok l chs h num :
  entries_live l chs h -> NoDup (pfd_fd <$> l) -> ready_count l <= num ->
  exists h', fill_active_channels num l chs h = Ok (ready_channels l chs, h') /\
    (forall e, e ∈ l -> 0 < pfd_revents e -> exists id c,
       chs !! pfd_fd e = Some id /\ h !! id = Some c /\
       h' !! id = Some (set_revents (pfd_revents e) c)) /\
    (forall id, id ∉ ready_channels l chs -> h' !! id = h !! id).
Proof.
  revert h num. induction l as [|e l IH]; intros h num Hl Hn Hnum.
  { exists h. split_and!; try done. by intros e ?%elem_of_nil. }
  rewrite fmap_cons in Hn. apply NoDup_cons in Hn as [Hne Hn].
  assert (entries_live l chs h) as Hl' by (intros x Hx; by apply Hl, list_elem_of_further).
  unfold ready_count in Hnum. rewrite filter_cons in Hnum. pose proof (zlen_nonneg (filter (fun e => 0 < pfd_revents e) l)).
  cbn [fill_active_channels ready_channels omap list_omap]. fold (ready_channels l chs).
  destruct (decide (0 < pfd_revents e)) as [Hr|Hr].
  - rewrite zlen_cons in Hnum. zdecide.
    destruct (Hl e) as (id & c & Hid & Hc & Hf); [set_solver|]. rewrite Hid. unfold deref. rewrite Hc. cbn.
    rewrite Hf, Z.eqb_refl. cbn.
    destruct (IH (<[id := set_revents (pfd_revents e) c]> h) (num - 1)) as (h' & -> & Hset & Hkeep);
      [by apply entries_live_revents | done | unfold ready_count; lia |].
    cbn. exists h'.
    assert (id ∉ ready_channels l chs) as Hnin.
    { unfold ready_channels. rewrite list_elem_of_omap. intros (x & Hx & Ex).
      destruct (0 <? pfd_revents x); [|done]. destruct (Hl' x Hx) as (i & d & Hi & Hd & Hdf).
      replace i with id in * by congruence. replace d with c in * by congruence.
      apply Hne. rewrite <- Hf, Hdf. by apply list_elem_of_fmap_2. }
    split_and!; [done | |].
    + intros x [->|Hx]%elem_of_cons Hxr.
      * exists id, c. by rewrite Hkeep, lookup_insert_eq.
      * destruct (Hset x Hx Hxr) as (i & d & Hi & Hd & Hd'). exists i.
        destruct (decide (i = id)) as [->|Hni].
        -- rewrite lookup_insert_eq in Hd. injection Hd as <-. by exists c.
        -- rewrite lookup_insert_ne in Hd by done. by exists d.
    + intros i Hi. rewrite not_elem_of_cons in Hi. destruct Hi as [Hi1 Hi2].
      by rewrite Hkeep, lookup_insert_ne.
  - replace (0 <? pfd_revents e) with false by (symmetry; apply Z.ltb_ge; lia).
    destruct (Z.leb_spec num 0) as [H0|H0].
    + destruct (no_ready l chs) as [-> Hno]; [unfold ready_count; lia|].
      exists h. split_and!; try done. intros x [->|Hx]%elem_of_cons Hxr; [done|]. by destruct (Hno x).
    + destruct (IH h num) as (h' & -> & Hset & Hkeep); [done | done | done |].
      exists h'. split_and!; try done. intros x [->|Hx]%elem_of_cons Hxr; [done|]. eauto.
Qed.

(** Each ready entry yields one channel, and no channel twice. *)
Lemma ready_channels_exact l chs h :
  entries_live l chs h -> NoDup (pfd_fd <$> l) ->
  NoDup (ready_channels l chs) /\ zlen (ready_channels l chs) = ready_count l.
Proof.
  intros Hl Hn. induction l as [|e l IH]; [by split; [constructor|]|].
  rewrite fmap_cons in Hn. apply NoDup_cons in Hn as [Hne Hn].
  assert (entries_live l chs h) as Hl' by (intros x Hx; by apply Hl, list_elem_of_further).
  destruct (IH Hl' Hn) as [IH1 IH2]. unfold ready_count, ready_channels in *.
  rewrite filter_cons. cbn [omap list_omap].
  destruct (decide (0 < pfd_revents e)) as [Hr|Hr]; zdecide; [clear IH|done].
  destruct (Hl e (list_elem_of_here _ _)) as (id & c & Hid & Hc & Hf). rewrite Hid, !zlen_cons.
  split; [|lia]. apply NoDup_cons. split; [|done].
  rewrite list_elem_of_omap. intros (x & Hx & Ex).
  destruct (0 <? pfd_revents x); [|done]. destruct (Hl' x Hx) as (i & d & Hi & Hd & Hdf).
  replace i with id in * by congruence. replace d with c in * by congruence.
  apply Hne. rewrite <- Hf, Hdf. by apply list_elem_of_fmap_2.
Qed.

(** [poll] changes nothing but returned events. *)
Definition same_but_revents (h h' : heap) : Prop :=
  forall id, set_revents 0 <$> h' !! id = set_revents 0 <$> h !! id.

Lemma same_but_revents_some h h' id c' :
  same_but_revents h h' -> h' !! id = Some c' ->
  exists c, h !! id = Some c /\ fd c' = fd c /\ status_ c' = status_ c /\ events_ c' = events_ c /\
    added_to_loop_ c' = added_to_loop_ c.
Proof.
  intros Hs Hc. specialize (Hs id). rewrite Hc in Hs. destruct (h !! id) as [c|]; [|done].
  exists c. destruct c, c'. cbn in Hs. injection Hs as -> -> -> -> -> ->. done.
Qed.

Lemma same_but_revents_sym h h' : same_but_revents h h' -> same_but_revents h' h.
Proof. intros Hs id. symmetry. apply Hs. Qed.

Lemma poller_ok_revents {B} `{BackendSpec B} (p : Poller B) h' b' :
  poller_ok p -> same_but_revents (chans p) h' -> backend_ok b' -> watched b' = watched (backend p) ->
  poller_ok (mkPoller h' (channels_ p) b').
Proof.
  intros (Hch & R & Hb & I) Hs Hb' W. pose proof (same_but_revents_sym _ _ Hs) as Hs'.
  split_and!; cbn; try done.
  - intros id c' Hc'. destruct (same_but_revents_some _ _ _ _ Hs Hc') as (c & Hc & E1 & E2 & E3 & E4).
    specialize (Hch id c Hc). unfold channel_ok in *. by rewrite E2, E3, E4.
  - intros f i. rewrite (R f i). split; intros (c & Hc & E & Hn).
    + destruct (same_but_revents_some _ _ _ _ Hs' Hc) as (c' & ? & ? & ? & _). exists c'. intuition congruence.
    + destruct (same_but_revents_some _ _ _ _ Hs Hc) as (c' & ? & ? & ? & _). exists c'. intuition congruence.
  - intros f e t. rewrite W, (I f e t). split; intros (i & c & Hc & E & Hn & ? & ?); exists i.
    + destruct (same_but_revents_some _ _ _ _ Hs' Hc) as (c' & ? & ? & ? & ? & _). exists c'. intuition congruence.
    + destruct (same_but_revents_some _ _ _ _ Hs Hc) as (c' & ? & ? & ? & ? & _). exists c'. intuition congruence.
Qed.

(** The vector with the events the kernel returned. *)
Definition returned (l : list pollfd) (revents : list Z) : list pollfd :=
  zip_with (fun e r => mkPollfd (pfd_fd e) (pfd_events e) r) l revents.

Lemma returned_same l revents :
  length revents = length l -> pfd_fd <$> returned l revents = pfd_fd <$> l /\
    poll_watched (returned l revents) = poll_watched l.
Proof.
  unfold poll_watched. revert revents. induction l as [|e l IH]; intros [|r rs] Hl; try done.
  destruct (IH rs) as [E1 E2]; [by injection Hl|].
  split.
  - change (pfd_fd e :: (pfd_fd <$> returned l rs) = pfd_fd e :: (pfd_fd <$> l)). by rewrite E1.
  - change (<[pfd_fd e := (pfd_events e, None)]> (list_to_map (entry <$> returned l rs) : gmap Z _)
      = <[pfd_fd e := (pfd_events e, None)]> (list_to_map (entry <$> l))). by rewrite E2.
Qed.

Lemma returned_lookup l revents i e r :
  l !! i = Some e -> revents !! i = Some r ->
  mkPollfd (pfd_fd e) (pfd_events e) r ∈ returned l revents.
Proof.
  intros He Hr. apply (list_elem_of_lookup_2 _ i). unfold returned.
  by rewrite lookup_zip_with, He, Hr.
Qed.

Lemma poll_poll_ok p sys num revents :
  poller_ok p -> sys (backend p) = inr (num, revents) -> length revents = length (backend p) ->
  num = ready_count (returned (backend p) revents) ->
  exists h', let l := returned (backend p) revents in
    poll_poll true sys p = Ok (ready_channels l (channels_ p), mkPoller h' (channels_ p) l) /\
    same_but_revents (chans p) h' /\ entries_live l (channels_ p) (chans p) /\
    (forall e, e ∈ l -> 0 < pfd_revents e -> exists id c,
       channels_ p !! pfd_fd e = Some id /\ chans p !! id = Some c /\
       h' !! id = Some (set_revents (pfd_revents e) c)) /\
    (forall id, id ∉ ready_channels l (channels_ p) -> h' !! id = chans p !! id).
Proof.
  intros (Hch & R & Hb & I) Hsys Hlen Hnum. destruct (returned_same _ _ Hlen) as [E1 E2].
  set (l := returned (backend p) revents) in *.
  assert (entries_live l (channels_ p) (chans p)) as Hlive.
  { intros e He. assert (watched (backend p) !! pfd_fd e = Some (pfd_events e, None)) as Hw.
    { cbn. rewrite <- E2. apply poll_watched_lookup; [unfold poll_ok; by rewrite E1 | eauto]. }
    apply I in Hw as (id & c & Hc & Hf & Hs & _). exists id, c. split_and!; try done.
    apply R. exists c. rewrite Hs. done. }
  destruct (fill_active_channels_ok l (channels_ p) (chans p) num) as (h' & E & Hset & Hkeep);
    [done | by rewrite E1 | lia |].
  exists h'. split_and!; try done.
  - unfold poll_poll. cbn. rewrite Hsys. fold (returned (backend p) revents). fold l.
    destruct (Z.ltb_spec 0 num); [by rewrite E|].
    destruct (no_ready l (channels_ p)) as [Hnil _]; [lia|].
    rewrite Hnil in *. do 3 f_equal. apply map_eq. intros id. rewrite Hkeep; [done|].
    apply not_elem_of_nil.
  - intros id. destruct (decide (id ∈ ready_channels l (channels_ p))) as [Hin|Hni]; [|by rewrite Hkeep].
    unfold ready_channels in Hin. apply list_elem_of_omap in Hin as (e & He & Ee).
    destruct (Z.ltb_spec 0 (pfd_revents e)); [|done].
    destruct (Hset e He) as (i & c & Hi & Hc & Hc'); [done|].
    replace i with id in * by congruence. by rewrite Hc, Hc'.
Qed.

Lemma epoll_fill_ok evs chs h :
  NoDup evs.*2 -> (forall ev id, (ev, id) ∈ evs -> exists c, h !! id = Some c /\ chs !! fd c = Some id) ->
  exists h', epoll_fill_active_channels evs chs h = Ok (evs.*2, h') /\
    (forall ev id, (ev, id) ∈ evs -> exists c, h !! id = Some c /\ h' !! id = Some (set_revents (i32 ev) c)) /\
    (forall id, id ∉ evs.*2 -> h' !! id = h !! id).
Proof.
  revert h. induction evs as [|[ev id] evs IH]; intros h Hn Hl.
  { exists h. split_and!; try done. by intros ? ? ?%elem_of_nil. }
  rewrite fmap_cons in Hn. apply NoDup_cons in Hn as [Hni Hn].
  destruct (Hl ev id (list_elem_of_here _ _)) as (c & Hc & Hch).
  cbn [epoll_fill_active_channels]. unfold deref. rewrite Hc. cbn.
  rewrite Hch, !bool_decide_eq_true_2 by done. cbn.
  destruct (IH (<[id := set_revents (i32 ev) c]> h)) as (h' & -> & Hset & Hkeep).
  { done. }
  { intros ev' id' Hin. destruct (Hl ev' id') as (d & Hd & Hdc); [by apply list_elem_of_further|].
    exists d. rewrite lookup_insert_ne; [done|]. intros <-. apply Hni.
    by apply (list_elem_of_fmap_2 snd) in Hin. }
  cbn. exists h'. split_and!; [done | |].
  - intros ev' id' [[= -> ->]|Hin]%elem_of_cons.
    + exists c. by rewrite Hkeep, lookup_insert_eq.
    + destruct (Hset ev' id' Hin) as (d & Hd & Hd'). exists d. split; [|done].
      rewrite lookup_insert_ne in Hd; [done|]. intros <-. apply Hni.
      by apply (list_elem_of_fmap_2 snd) in Hin.
  - intros i [Hi1 Hi2]%not_elem_of_cons. by rewrite Hkeep, lookup_insert_ne.
Qed.

(** A second [disable_all_event] puts a disabled descriptor back in the set,
    with no events: the channel is watched for errors and hang-ups again. *)
Example disable_twice_rewatches :
  (p ← run_ops [New 0 7 []; Interest enable_read_event 0; Interest disable_all_event 0]
    (mkPoller ∅ ∅ []); Ok (backend p)) = Ok [] /\
  (p ← run_ops [New 0 7 []; Interest enable_read_event 0; Interest disable_all_event 0;
    Interest disable_all_event 0] (mkPoller ∅ ∅ []); Ok (backend p)) = Ok [mkPollfd 7 0 0].
Proof. split; reflexivity. Qed.

(** An epoll instance as the manual page describes it. *)
Definition epoll_table : EpollSys (gmap Z (Z * nat)) := {|
  epoll_ctl operation fd ev k :=
    if operation =? kPollCtlAdd then
      match k !! fd with Some _ => None | None => Some (<[fd := ev]> k) end
    else match k !! fd with
         | None => None
         | Some _ => Some (if operation =? kPollCtlDel then delete fd k else <[fd := ev]> k)
         end;
|}.

Definition epoll_table_spec : @EpollSpec _ epoll_table.
Proof.
  refine (@Build_EpollSpec _ epoll_table (fun k => k) _ _ _); intros k fd ev Hk; cbn.
  - rewrite Hk. eauto.
  - destruct Hk as [x ->]. eauto.
  - destruct Hk as [x ->]. eauto.
Defined.

(** ** Properties *)

(** C5.  Both pollers implement the interest map.  For any use of channels that
    follows the protocol, neither poller fails a check; both leave the same
    channels and descriptor map; and the vector of [pollfd], like the epoll
    instance, holds exactly the descriptors of the channels in state
    [kChannelPollAdded], with their current events (and, for epoll, their
    addresses). *)
Theorem pollers_refine_interest {K : Type} `{EpollSpec K} (k : K) (ops : list op) :
  registered k = ∅ -> valid_ops ops ∅ ->
  exists p e, let h := spec_ops ops ∅ in
    run_ops ops (mkPoller ∅ ∅ ([] : list pollfd)) = Ok p /\
    run_ops ops (mkPoller ∅ ∅ (mkEPoll k kInitEventListSize)) = Ok e /\
    chans p = h /\ chans e = h /\ channels_ p = channels_ e /\
    (forall f ev, (exists r, mkPollfd f ev r ∈ backend p) <->
       exists id c, h !! id = Some c /\ fd c = f /\ status_ c = kChannelPollAdded /\ events_ c = ev) /\
    (forall f ev id, registered (epollfd_ (backend e)) !! f = Some (ev, id) <->
       exists c, h !! id = Some c /\ fd c = f /\ status_ c = kChannelPollAdded /\ events_ c = ev).
Proof.
  intros Hk Hv.
  destruct (valid_ops_run ops (mkPoller ∅ ∅ ([] : list pollfd))) as (p & Ep & (_ & Rp & Bp & Ip) & Hp);
    [by apply empty_poller_ok; [constructor|] | done |].
  destruct (valid_ops_run ops (mkPoller ∅ ∅ (mkEPoll k kInitEventListSize)))
    as (e & Ee & (_ & Re & _ & Ie) & He); [| done |].
  { apply empty_poller_ok; [done|]. cbn. unfold epoll_watched. cbn. by rewrite Hk, fmap_empty. }
  cbn in Hp, He. exists p, e. cbn zeta. rewrite Hp in *. rewrite He in *. split_and!; try done.
  - apply map_eq. intros f. apply option_eq. intros i. by rewrite (Rp f i), (Re f i).
  - intros f ev. split.
    + intros [r Hr]. assert (watched (backend p) !! f = Some (ev, None)) as Hw
        by (apply poll_watched_lookup; [done | eauto]).
      apply Ip in Hw as (i & c & ? & ? & ? & ? & _). eauto 10.
    + intros (i & c & ? & ? & ? & ?). assert (watched (backend p) !! f = Some (ev, None)) as Hw
        by (apply Ip; exists i, c; done).
      apply poll_watched_lookup in Hw as ([? ? r] & ? & <- & [= ->]); [|done]. eauto.
  - intros f ev i. split.
    + intros Hr. assert (watched (backend e) !! f = Some (ev, Some i)) as Hw
        by (cbn; unfold epoll_watched; by rewrite lookup_fmap, Hr).
      apply Ie in Hw as (j & c & ? & ? & ? & ? & [= ->]). eauto 10.
    + intros (c & ? & ? & ? & ?). assert (watched (backend e) !! f = Some (ev, Some i)) as Hw
        by (apply Ie; exists i, c; done).
      by apply epoll_registered in Hw.
Qed.

Definition one_channel : list op :=
  [New 0 7 []; Interest enable_read_event 0; Interest enable_write_event 0].
Definition channel_life : list op :=
  one_channel ++ [Interest disable_all_event 0; Remove 0; Destroy 0].

Lemma channel_life_valid : valid_ops channel_life ∅.
Proof.
  cbn [valid_ops channel_life one_channel app]. split_and!; try done.
  - eexists. split; [done|]. cbn [spec_op].
    intros _ i c [(<- & <-)|[_ ?]]%lookup_insert_Some Hn; [done|]. by rewrite lookup_empty in *.
  - eexists. split; [reflexivity|]. discriminate.
  - eexists. split; [reflexivity|]. discriminate.
  - eexists. split; [reflexivity|]. done.
  - eexists. split; [reflexivity|]. done.
Qed.

Lemma pollers_refine_interest_witness :
  exists p, run_ops channel_life (mkPoller ∅ ∅ ([] : list pollfd)) = Ok p.
Proof.
  destruct (@pollers_refine_interest _ epoll_table epoll_table_spec ∅ channel_life)
    as (p & _ & E & _); [done | apply channel_life_valid | by exists p].
Defined.

(**  [PollPoller::poll] delivers every event once.  When ::poll(2) returns
    the number of entries with returned events, the call fails no check; the
    active list has that many channels, each once; every descriptor with events
    finds its channel there, with those events set; all other channels keep
    theirs, and the invariant of the poller is kept. *)
Theorem poll_delivers (p : Poller (list pollfd)) (sys : list pollfd -> Z + (Z * list Z))
    (num : Z) (revents : list Z) :
  poller_ok p -> sys (backend p) = inr (num, revents) -> length revents = length (backend p) ->
  num = ready_count (returned (backend p) revents) ->
  exists active p', poll_poll true sys p = Ok (active, p') /\ poller_ok p' /\
    NoDup active /\ zlen active = num /\
    (forall i e r, backend p !! i = Some e -> revents !! i = Some r -> 0 < r ->
       exists id c, channels_ p !! pfd_fd e = Some id /\ id ∈ active /\
         chans p !! id = Some c /\ chans p' !! id = Some (set_revents r c)) /\
    (forall id, id ∉ active -> chans p' !! id = chans p !! id).
Proof.
  intros Hok Hsys Hlen Hnum. pose proof Hok as (_ & _ & Hb & _).
  destruct (poll_poll_ok p sys num revents Hok Hsys Hlen Hnum) as (h' & E & Hsame & Hlive & Hset & Hkeep).
  destruct (returned_same _ _ Hlen) as [E1 E2].
  destruct (ready_channels_exact _ _ _ Hlive) as [Hnd Hz]; [by rewrite E1|].
  do 2 eexists. split_and!; [exact E | | done | by rewrite Hz | | done].
  - apply poller_ok_revents; try done. cbn. unfold poll_ok. by rewrite E1.
  - intros i e r He Hr Hpos. pose proof (returned_lookup _ _ _ _ _ He Hr) as Hin.
    destruct (Hset _ Hin Hpos) as (id & c & Hid & Hc & Hc'). exists id, c. split_and!; try done.
    apply list_elem_of_omap. eexists. split; [exact Hin|]. cbn. by zdecide.
Qed.

Lemma poll_delivers_witness :
  exists p active p', run_ops one_channel (mkPoller ∅ ∅ ([] : list pollfd)) = Ok p /\
    poll_poll true (fun _ => inr (1, [5])) p = Ok (active, p') /\ zlen active = 1.
Proof.
  destruct (valid_ops_run one_channel (mkPoller ∅ ∅ ([] : list pollfd))) as (p & E & Hok & _).
  { by apply empty_poller_ok; [constructor|]. }
  { destruct channel_life_valid as (? & ? & ? & _). done. }
  pose proof E as E'. vm_compute in E'. injection E' as Ep.
  destruct (poll_delivers p (fun _ => inr (1, [5])) 1 [5] Hok) as (active & p' & Ea & _ & _ & Hz & _);
    [reflexivity | by rewrite <- Ep | by rewrite <- Ep |].
  by exists p, active, p'.
Defined.
