(* ===== verification/TimeStamp.v ===== *)
(** * TimeStamp (include/TimeStamp.h, src/TimeStamp.cc)

    Microsecond durations and points in time, kept in signed 64-bit integers.
    Signed overflow is undefined behaviour, a [Fault] here; the saturating
    constructors are shown to avoid it.  The C calendar functions [gmtime_r] and
    [timegm] are modelled on the proleptic Gregorian calendar; [localtime_r] and
    [mktime], which depend on the time zone database, are parameters.  Doubles
    are the binary64 numbers of the Standard Library's [SpecFloat]. *)

From Stdlib Require Import Floats.SpecFloat.
From S2P Require Import Prelude.

(** ** Definitions *)

Definition kHoursPerDay : Z := 24.
Definition kMillisecondsPerSecond : Z := 1000.
Definition kMillisecondsPerDay : Z := kMillisecondsPerSecond * 60 * 60 * kHoursPerDay.
Definition kMicrosecondsPerMillisecond : Z := 1000.
Definition kMicrosecondsPerSecond : Z := kMicrosecondsPerMillisecond * kMillisecondsPerSecond.
Definition kMicrosecondsPerMinute : Z := kMicrosecondsPerSecond * 60.
Definition kMicrosecondsPerHour : Z := kMicrosecondsPerMinute * 60.
Definition kMicrosecondsPerDay : Z := kMicrosecondsPerHour * kHoursPerDay.
Definition kNanosecondsPerMicrosecond : Z := 1000.
Definition kNanosecondsPerSecond : Z := kNanosecondsPerMicrosecond * kMicrosecondsPerSecond.

(** Signed 64-bit arithmetic: a result out of range is undefined. *)
Definition int64_ok (z : Z) : bool := (kInt64Min <=? z) && (z <=? kInt64Max).
Definition int64 (z : Z) : outcome Z :=
  defined (int64_ok z) "signed overflow";; Ok z.

(** *** TimeDelta: [delta_] in microseconds *)

Definition delta_max : Z := kInt64Max.
Definition delta_min : Z := kInt64Min.

Definition from_days (days : Z) : outcome Z :=
  if days =? kInt32Max then Ok delta_max else int64 (days * kMicrosecondsPerDay).
Definition from_hours (hours : Z) : outcome Z :=
  if hours =? kInt32Max then Ok delta_max else int64 (hours * kMicrosecondsPerHour).
Definition from_minutes (minutes : Z) : outcome Z :=
  if minutes =? kInt32Max then Ok delta_max else int64 (minutes * kMicrosecondsPerMinute).

Definition from_product (value positive_value : Z) : outcome Z :=
  if cdiv kInt64Max positive_value <? value then Ok delta_max
  else if value <? cdiv kInt64Min positive_value then Ok delta_min
  else int64 (value * positive_value).

Definition from_seconds (secs : Z) : outcome Z := from_product secs kMicrosecondsPerSecond.
Definition from_milliseconds (ms : Z) : outcome Z := from_product ms kMicrosecondsPerMillisecond.
Definition from_microseconds (us : Z) : Z := us.

Definition delta_is_null (d : Z) : bool := d =? 0.
Definition delta_is_max (d : Z) : bool := d =? kInt64Max.

Definition divide_or_max (tmax : Z) (cast : Z -> Z) (delta divisor : Z) : Z :=
  if delta_is_max delta then tmax else cast (cdiv delta divisor).

Definition in_days (d : Z) : Z := divide_or_max kInt32Max i32 d kMicrosecondsPerDay.
Definition in_hours (d : Z) : Z := divide_or_max kInt32Max i32 d kMicrosecondsPerHour.
Definition in_minutes (d : Z) : Z := divide_or_max kInt32Max i32 d kMicrosecondsPerMinute.
Definition in_seconds (d : Z) : Z := divide_or_max kInt64Max i64 d kMicrosecondsPerSecond.
Definition in_milliseconds (d : Z) : Z := divide_or_max kInt64Max i64 d kMicrosecondsPerMillisecond.
Definition in_microseconds (d : Z) : Z := divide_or_max kInt64Max i64 d 1.

(** [struct timespec] and [struct timeval] as pairs of seconds and fraction. *)
Definition delta_to_timespec (d : Z) : outcome (Z * Z) :=
  let microseconds := in_microseconds d in
  '(seconds, microseconds) ←
    (if kMicrosecondsPerSecond <=? microseconds then
       let seconds := in_seconds d in
       p ← int64 (seconds * kMicrosecondsPerSecond);
       m ← int64 (microseconds - p);
       Ok (seconds, m)
     else Ok (0, microseconds));
  nanoseconds ← int64 (microseconds * kNanosecondsPerMicrosecond);
  Ok (seconds, nanoseconds).
Definition delta_from_timespec (ts : Z * Z) : outcome Z :=
  p ← int64 (ts.1 * kMicrosecondsPerSecond);
  int64 (p + cdiv ts.2 kNanosecondsPerMicrosecond).

Definition delta_to_timeval (d : Z) : outcome (Z * Z) :=
  let microseconds := in_microseconds d in
  if kMicrosecondsPerSecond <=? microseconds then
    let seconds := in_seconds d in
    p ← int64 (seconds * kMicrosecondsPerSecond);
    m ← int64 (microseconds - p);
    Ok (seconds, m)
  else Ok (0, microseconds).
Definition delta_from_timeval (tv : Z * Z) : outcome Z :=
  p ← int64 (tv.1 * kMicrosecondsPerSecond);
  int64 (p + tv.2).

(** Doubles: rounding, the two conversions and the two operations used. *)
Definition double_of_Z (z : Z) : spec_float := binary_normalize 53 1024 z 0 false.
Definition double_mul : spec_float -> spec_float -> spec_float := SFmul 53 1024.
Definition double_div : spec_float -> spec_float -> spec_float := SFdiv 53 1024.

(** [static_cast<int64_t>]: truncation, undefined when it does not fit. *)
Definition double_to_int64 (f : spec_float) : outcome Z :=
  match f with
  | S754_zero _ => Ok 0
  | S754_finite s m e =>
      let a := if 0 <=? e then Z.pos m * 2 ^ e else Z.pos m / 2 ^ (- e) in
      int64 (if s then - a else a)
  | _ => Fault (Undefined "double to int64_t")
  end.

Definition from_double (value : spec_float) : outcome Z :=
  if SFltb (double_of_Z kInt64Max) value then Ok delta_max
  else if SFltb value (double_of_Z kInt64Min) then Ok delta_min
  else double_to_int64 value.

Definition from_seconds_d (secs : spec_float) : outcome Z :=
  from_double (double_mul secs (double_of_Z kMicrosecondsPerSecond)).
Definition in_seconds_f (d : Z) : spec_float :=
  if delta_is_max d then S754_infinity false
  else double_div (double_of_Z d) (double_of_Z kMicrosecondsPerSecond).

Definition from_milliseconds_d (ms : spec_float) : outcome Z :=
  from_double (double_mul ms (double_of_Z kMicrosecondsPerMillisecond)).
Definition from_microseconds_d (us : spec_float) : outcome Z := from_double us.

(** Arithmetic on durations; division truncates, and dividing by zero or the
    minimum by -1 is undefined. *)
Definition delta_add (d e : Z) : outcome Z := int64 (d + e).
Definition delta_sub (d e : Z) : outcome Z := int64 (d - e).
Definition delta_neg (d : Z) : outcome Z := int64 (- d).
Definition delta_mul (d a : Z) : outcome Z := int64 (d * a).
Definition delta_div (d a : Z) : outcome Z :=
  defined (negb (a =? 0)) "division by zero";; int64 (cdiv d a).
Definition delta_mod (d a : Z) : outcome Z :=
  defined (negb (a =? 0)) "division by zero";;
  _ ← int64 (cdiv d a); Ok (cmod d a).

(** *** TimeStamp: [us_] in microseconds since the epoch *)

Definition is_null (t : Z) : bool := t =? 0.
Definition is_valid (t : Z) : bool := negb (is_null t).
Definition is_max (t : Z) : bool := t =? kInt64Max.

Definition time_add (t delta : Z) : outcome Z := int64 (t + delta).
Definition time_sub (t delta : Z) : outcome Z := int64 (t - delta).
Definition time_diff (t u : Z) : outcome Z := d ← int64 (t - u); Ok (from_microseconds d).

Definition from_time_t (tt : Z) : outcome Z :=
  if tt =? 0 then Ok 0
  else if tt =? kInt64Max then Ok kInt64Max
  else d ← from_seconds tt; time_add 0 d.

Definition to_time_t (t : Z) : Z :=
  if is_null t then 0
  else if is_max t then kInt64Max
  else if kInt64Max <=? t then kInt64Max
  else cdiv t kMicrosecondsPerSecond.

Definition from_timeval (tv : Z * Z) : outcome Z :=
  check (tv.2 <? kMicrosecondsPerSecond) "from_timeval: tv_usec";;
  check (0 <=? tv.2) "from_timeval: tv_usec";;
  if (tv.2 =? 0) && (tv.1 =? 0) then Ok 0
  else if (tv.2 =? kMicrosecondsPerSecond - 1) && (tv.1 =? kInt64Max) then Ok kInt64Max
  else p ← int64 (tv.1 * kMicrosecondsPerSecond); int64 (p + tv.2).

Definition to_timeval (t : Z) : Z * Z :=
  if is_null t then (0, 0)
  else if is_max t then (kInt64Max, kMicrosecondsPerSecond - 1)
  else (cdiv t kMicrosecondsPerSecond, cmod t kMicrosecondsPerSecond).

Definition to_timespec (t : Z) : Z * Z :=
  if is_null t then (0, 0)
  else if is_max t then (kInt64Max, kNanosecondsPerSecond - 1)
  else (cdiv t kMicrosecondsPerSecond,
        cmod t kMicrosecondsPerSecond * kNanosecondsPerMicrosecond).

(** [now]: [tv] is what gettimeofday(2) stored. *)
Definition now_of (tv : Z * Z) : outcome Z :=
  p ← int64 (tv.1 * kMicrosecondsPerSecond);
  us ← int64 (p + tv.2);
  time_add 0 (from_microseconds us).

Definition from_double_t (dt : spec_float) : outcome Z :=
  match dt with
  | S754_zero _ | S754_nan => Ok 0
  | _ => d ← from_seconds_d dt; time_add 0 d
  end.
Definition to_double_t (t : Z) : spec_float :=
  if is_null t then S754_zero false
  else if is_max t then S754_infinity false
  else double_div (double_of_Z t) (double_of_Z kMicrosecondsPerSecond).

Definition from_timespec (ts : Z * Z) : outcome Z :=
  from_double_t (SFadd 53 1024 (double_of_Z ts.1)
    (double_div (double_of_Z ts.2) (double_of_Z kNanosecondsPerSecond))).

(** *** The calendar *)

Record tm : Type := mkTm {
  tm_sec : Z; tm_min : Z; tm_hour : Z; tm_mday : Z; tm_mon : Z; tm_year : Z; tm_wday : Z;
  tm_isdst : Z;
}.

(** Days since the epoch of a date, years counted from March, and back. *)
Definition days_of_civil (y m d : Z) : Z :=
  let y := if m <=? 2 then y - 1 else y in
  let era := y / 400 in
  let yoe := y mod 400 in
  let doy := (153 * (if 2 <? m then m - 3 else m + 9) + 2) / 5 + d - 1 in
  era * 146097 + (yoe * 365 + yoe / 4 - yoe / 100 + doy) - 719468.

Definition civil_of_days (days : Z) : Z * Z * Z :=
  let z := days + 719468 in
  let era := z / 146097 in
  let doe := z mod 146097 in
  let yoe := (doe - doe / 1460 + doe / 36524 - doe / 146096) / 365 in
  let doy := doe - (365 * yoe + yoe / 4 - yoe / 100) in
  let mp := (5 * doy + 2) / 153 in
  let m := if mp <? 10 then mp + 3 else mp - 9 in
  ((if m <=? 2 then yoe + era * 400 + 1 else yoe + era * 400), m, doy - (153 * mp + 2) / 5 + 1).

Definition gmtime (t : Z) : tm :=
  let days := t / 86400 in
  let rem := t mod 86400 in
  let '(y, m, d) := civil_of_days days in
  mkTm (rem mod 60) (rem / 60 mod 60) (rem / 3600) d (m - 1) (y - 1900) ((days + 4) mod 7) 0.

(** [timegm] accepts fields out of their range; [-1] reports overflow. *)
Definition timegm (x : tm) : Z :=
  let y := tm_year x + 1900 + tm_mon x / 12 in
  let m := tm_mon x mod 12 + 1 in
  let t := (days_of_civil y m 1 + (tm_mday x - 1)) * 86400
           + tm_hour x * 3600 + tm_min x * 60 + tm_sec x in
  if int64_ok t then t else -1.

Record Exploded : Type := mkExploded {
  year : Z; month : Z; day_of_week : Z; day_of_month : Z;
  hour : Z; minute : Z; second : Z; millisecond : Z;
}.

Definition is_in_range (value lo hi : Z) : bool := (lo <=? value) && (value <=? hi).
Definition exploded_is_valid (e : Exploded) : bool :=
  is_in_range (month e) 1 12 && is_in_range (day_of_week e) 0 6 &&
  is_in_range (day_of_month e) 1 31 && is_in_range (hour e) 0 23 &&
  is_in_range (minute e) 0 59 && is_in_range (second e) 0 60 &&
  is_in_range (millisecond e) 0 999.

Definition exploded_mostly_equals (lhs rhs : Exploded) : bool :=
  (year lhs =? year rhs) && (month lhs =? month rhs) && (day_of_month lhs =? day_of_month rhs) &&
  (hour lhs =? hour rhs) && (minute lhs =? minute rhs) && (second lhs =? second rhs) &&
  (millisecond lhs =? millisecond rhs).

Section Explode.
Variables (localtime : Z -> tm) (mktime : tm -> Z).

Definition time_t_from_tm (x : tm) (is_local : bool) : Z :=
  if is_local then mktime x else timegm x.
Definition time_t_to_tm (t : Z) (is_local : bool) : tm :=
  if is_local then localtime t else gmtime t.

(** Milliseconds, seconds and the millisecond field, rounded down. *)
Definition split_time (us : Z) : outcome (Z * Z) :=
  if 0 <=? us then
    let milliseconds := cdiv us kMicrosecondsPerMillisecond in
    Ok (cdiv milliseconds kMillisecondsPerSecond, cmod milliseconds kMillisecondsPerSecond)
  else
    a ← int64 (us - kMicrosecondsPerMillisecond);
    let milliseconds := cdiv (a + 1) kMicrosecondsPerMillisecond in
    let seconds := cdiv (milliseconds - kMillisecondsPerSecond + 1) kMillisecondsPerSecond in
    let millisecond := cmod milliseconds kMillisecondsPerSecond in
    Ok (seconds, if millisecond <? 0 then millisecond + kMillisecondsPerSecond else millisecond).

Definition to_explode (is_local : bool) (us : Z) : outcome Exploded :=
  '(seconds, millisecond) ← split_time us;
  let x := time_t_to_tm seconds is_local in
  Ok (mkExploded (tm_year x + 1900) (tm_mon x + 1) (tm_wday x) (tm_mday x)
        (tm_hour x) (tm_min x) (tm_sec x) millisecond).

Definition set_isdst (i : Z) (x : tm) : tm :=
  mkTm (tm_sec x) (tm_min x) (tm_hour x) (tm_mday x) (tm_mon x) (tm_year x) (tm_wday x) i.

Definition from_exploded (is_local : bool) (e : Exploded) : outcome (bool * Z) :=
  let x := mkTm (second e) (minute e) (hour e) (day_of_month e) (month e - 1) (year e - 1900)
             (day_of_week e) (-1) in
  let seconds := time_t_from_tm x is_local in
  let seconds :=
    if seconds =? -1 then
      let seconds_isdst0 := time_t_from_tm (set_isdst 0 x) is_local in
      let seconds_isdst1 := time_t_from_tm (set_isdst 1 x) is_local in
      if seconds_isdst0 <? 0 then seconds_isdst1
      else if seconds_isdst1 <? 0 then seconds_isdst0
      else Z.min seconds_isdst0 seconds_isdst1
    else seconds in
  milliseconds ←
    (if (seconds =? -1) && ((year e <? 1969) || (1970 <? year e)) then
       if year e <? 1969 then Ok (kInt32Min * kMillisecondsPerSecond)
       else Ok (kInt32Max * kMillisecondsPerSecond + (kMillisecondsPerSecond - 1))
     else
       p ← int64 (seconds * kMillisecondsPerSecond);
       int64 (p + millisecond e));
  converted_time ← int64 (milliseconds * kMicrosecondsPerMillisecond);
  to_exploded ← to_explode is_local converted_time;
  Ok (if exploded_mostly_equals to_exploded e then (true, converted_time) else (false, 0)).

Definition midnight (is_local : bool) (us : Z) : outcome Z :=
  e ← to_explode is_local us;
  let e := mkExploded (year e) (month e) (day_of_week e) (day_of_month e) 0 0 0 0 in
  '(ok, t) ← from_exploded is_local e;
  if ok : bool then Ok t else Fault (CheckFailed "midnight: NOTREACHED").

End Explode.

(** ** Lemmas *)

Ltac units := unfold delta_max, delta_min, kMillisecondsPerDay, kMicrosecondsPerDay, kMicrosecondsPerHour,
  kMicrosecondsPerMinute, kNanosecondsPerSecond, kMicrosecondsPerSecond, kHoursPerDay,
  kMillisecondsPerSecond, kMicrosecondsPerMillisecond, kNanosecondsPerMicrosecond,
  kInt64Max, kInt64Min, kInt32Max, kInt32Min in *.

Lemma int64_in_range z : kInt64Min <= z <= kInt64Max -> int64 z = Ok z.
Proof. intros. unfold int64, int64_ok. zdecide. done. Qed.

Lemma int64_out_of_range z :
  z < kInt64Min \/ kInt64Max < z -> int64 z = Fault (Undefined "signed overflow").
Proof. intros [?|?]; unfold int64, int64_ok; zdecide; cbn; [done|]. by rewrite andb_false_r. Qed.

(** Truncating and rounding division agree on non-negative numbers. *)
Lemma cdiv_pos a b : 0 <= a -> 0 < b -> cdiv a b = a / b.
Proof. intros. apply Z.quot_div_nonneg; lia. Qed.
Lemma cmod_pos a b : 0 <= a -> 0 < b -> cmod a b = a mod b.
Proof. intros. apply Z.rem_mod_nonneg; lia. Qed.

(** Saturation instead of overflow. *)
Definition saturate (z : Z) : Z := Z.max kInt64Min (Z.min kInt64Max z).

Lemma from_product_saturates v p :
  0 < p -> from_product v p = Ok (saturate (v * p)).
Proof.
  intros Hp. unfold from_product, saturate.
  rewrite (cdiv_pos kInt64Max) by (done || unfold kInt64Max; lia).
  assert (cdiv kInt64Min p = - (2 ^ 63 / p)) as ->.
  { unfold cdiv, kInt64Min. rewrite Z.quot_opp_l by lia. f_equal. apply cdiv_pos; lia. }
  destruct (Z.ltb_spec (kInt64Max / p) v) as [H1|H1].
  - f_equal. units. assert (2 ^ 63 - 1 < v * p); [|lia]. Z.div_mod_to_equations; nia.
  - destruct (Z.ltb_spec v (- (2 ^ 63 / p))) as [H2|H2].
    + f_equal. units. assert (v * p < - 2 ^ 63); [|lia]. Z.div_mod_to_equations; nia.
    + assert (kInt64Min <= v * p <= kInt64Max) as Hr by (units; Z.div_mod_to_equations; nia).
      rewrite int64_in_range by done. f_equal. lia.
Qed.

Lemma in_microseconds_id d : kInt64Min <= d <= kInt64Max -> in_microseconds d = d.
Proof.
  intros Hd. unfold in_microseconds, divide_or_max, delta_is_max.
  destruct (Z.eqb_spec d kInt64Max) as [->|]; [done|].
  unfold cdiv. rewrite Z.quot_1_r. apply i64_small. units. lia.
Qed.

Lemma in_seconds_pos d : 0 <= d < kInt64Max -> in_seconds d = d / kMicrosecondsPerSecond.
Proof.
  intros Hd. unfold in_seconds, divide_or_max, delta_is_max. zdecide.
  rewrite cdiv_pos by (units; lia). apply i64_small. units. Z.div_mod_to_equations; lia.
Qed.

Lemma delta_to_timespec_pos d :
  0 <= d < kInt64Max ->
  delta_to_timespec d = Ok (d / kMicrosecondsPerSecond, d mod kMicrosecondsPerSecond * 1000).
Proof.
  intros Hd. unfold delta_to_timespec. rewrite in_microseconds_id by (units; lia).
  destruct (Z.leb_spec kMicrosecondsPerSecond d) as [Hs|Hs].
  - rewrite in_seconds_pos by done. set (s := d / _).
    assert (d mod kMicrosecondsPerSecond = d - s * kMicrosecondsPerSecond) as ->
      by (unfold s; units; Z.div_mod_to_equations; lia).
    assert (0 <= s * kMicrosecondsPerSecond <= d /\ d < s * kMicrosecondsPerSecond + kMicrosecondsPerSecond)
      by (unfold s; units; Z.div_mod_to_equations; lia).
    rewrite int64_in_range by (units; lia). cbn [mbind outcome_bind].
    rewrite int64_in_range by (units; lia). cbn [mbind outcome_bind].
    rewrite int64_in_range by (units; lia). done.
  - cbn [mbind outcome_bind]. rewrite int64_in_range by (units; lia). cbn.
    rewrite Z.div_small, Z.mod_small by lia. done.
Qed.

(** A negative duration has a negative nanosecond field. *)
Lemma delta_to_timespec_neg d :
  - 2 ^ 52 <= d < 0 -> delta_to_timespec d = Ok (0, d * 1000).
Proof.
  intros Hd. unfold delta_to_timespec. rewrite in_microseconds_id by (units; lia).
  replace (kMicrosecondsPerSecond <=? d) with false by (symmetry; apply Z.leb_gt; units; lia).
  cbn [mbind outcome_bind]. rewrite int64_in_range by (units; lia). done.
Qed.

Lemma delta_from_timespec_pos s n :
  0 <= s -> 0 <= n < kNanosecondsPerSecond -> s * kMicrosecondsPerSecond + n / 1000 <= kInt64Max ->
  delta_from_timespec (s, n) = Ok (s * kMicrosecondsPerSecond + n / 1000).
Proof.
  intros Hs Hn Hr. unfold delta_from_timespec. cbn [fst snd].
  rewrite cdiv_pos by (units; lia).
  assert (0 <= n / 1000) by (Z.div_mod_to_equations; lia).
  rewrite int64_in_range by (units; lia). cbn [mbind outcome_bind].
  apply int64_in_range. units. lia.
Qed.

(** [split_time] rounds down, before the epoch as well. *)
Lemma split_time_floor us :
  kInt64Min + 1000 <= us <= kInt64Max ->
  split_time us = Ok (us / 1000000, us / 1000 mod 1000).
Proof.
  intros Hus. unfold split_time. destruct (Z.leb_spec 0 us) as [Hp|Hn].
  - units. rewrite (cdiv_pos us) by lia.
    assert (0 <= us / 1000) by (Z.div_mod_to_equations; lia).
    rewrite cdiv_pos, cmod_pos, Z.div_div by lia. done.
  - rewrite int64_in_range by (units; lia). cbn [mbind outcome_bind].
    set (ms := cdiv _ kMicrosecondsPerMillisecond).
    assert (ms = us / 1000) as Hms.
    { unfold ms, cdiv. units. Z.quot_rem_to_equations. Z.div_mod_to_equations. lia. }
    assert (cdiv (ms - kMillisecondsPerSecond + 1) kMillisecondsPerSecond = us / 1000000) as ->.
    { rewrite Hms. unfold cdiv. units. Z.quot_rem_to_equations. Z.div_mod_to_equations. lia. }
    do 2 f_equal. rewrite Hms. unfold cmod. units.
    set (m := us / 1000). assert (m < 0) by (unfold m; Z.div_mod_to_equations; lia).
    destruct (Z.ltb_spec (Z.rem m 1000) 0); Z.quot_rem_to_equations; Z.div_mod_to_equations; lia.
Qed.

(** *** The calendar

    A day is a cycle of 400 years, then centuries, four-year groups and years
    counted from March, and a day of that year; the leap day comes last. *)

Definition leap (y : Z) : bool :=
  ((y mod 4 =? 0) && negb (y mod 100 =? 0)) || (y mod 400 =? 0).

Definition month_length (lp : bool) (m : Z) : Z :=
  if m =? 2 then (if lp then 29 else 28)
  else if (m =? 4) || (m =? 6) || (m =? 9) || (m =? 11) then 30 else 31.

(** The day after a date. *)
Definition next_date (c : Z * Z * Z) : Z * Z * Z :=
  let '(y, m, d) := c in
  if d <? month_length (leap y) m then (y, m, d + 1)
  else if m <? 12 then (y, m + 1, 1) else (y + 1, 1, 1).

Definition decomposed (era c q r doy : Z) : Prop :=
  0 <= c < 4 /\ 0 <= q < 25 /\ 0 <= r < 4 /\ 0 <= doy <= 365 /\
  (doy = 365 -> r = 3 /\ (q < 24 \/ c = 3)).

Definition day_number (era c q r doy : Z) : Z :=
  146097 * era + (36524 * c + 1461 * q + 365 * r + doy) - 719468.

(** Month and day of a day of the March year, and whether it is in the next
    calendar year. *)
Definition month_day (doy : Z) : bool * Z * Z :=
  let mp := (5 * doy + 2) / 153 in
  let m := if mp <? 10 then mp + 3 else mp - 9 in
  (m <=? 2, m, doy - (153 * mp + 2) / 5 + 1).

Definition march_date (y doy : Z) : Z * Z * Z :=
  let '(nxt, m, d) := month_day doy in ((if nxt then y + 1 else y), m, d).

Lemma decompose days : exists era c q r doy,
  decomposed era c q r doy /\ days = day_number era c q r doy.
Proof.
  set (doe := (days + 719468) mod 146097).
  assert (0 <= doe < 146097) by (apply Z.mod_pos_bound; lia).
  set (c := Z.min (doe / 36524) 3). set (d1 := doe - 36524 * c).
  assert (0 <= c < 4 /\ 0 <= d1 <= 36524 /\ (d1 = 36524 -> c = 3)) as (Hc & Hd1 & Hd1')
    by (unfold d1, c; Z.div_mod_to_equations; lia).
  set (q := d1 / 1461). set (d2 := d1 - 1461 * q).
  assert (0 <= q < 25 /\ 0 <= d2 <= 1460 /\ (d2 = 1460 -> q < 24 \/ c = 3)) as (Hq & Hd2 & Hd2')
    by (unfold d2, q; Z.div_mod_to_equations; lia).
  set (r := Z.min (d2 / 365) 3).
  assert (0 <= r < 4 /\ 0 <= d2 - 365 * r <= 365 /\ (d2 - 365 * r = 365 -> r = 3 /\ d2 = 1460))
    as (Hr & Hy & Hy') by (unfold r; Z.div_mod_to_equations; lia).
  exists ((days + 719468) / 146097), c, q, r, (d2 - 365 * r). split.
  - unfold decomposed. lia.
  - unfold day_number. replace (36524 * c + 1461 * q + 365 * r + (d2 - 365 * r)) with doe
      by (unfold d2, d1; lia).
    unfold doe. Z.div_mod_to_equations. lia.
Qed.

(** The year of the cycle, from the day of the cycle. *)
Lemma year_of_cycle c q r doy era :
  decomposed era c q r doy ->
  let doe := 36524 * c + 1461 * q + 365 * r + doy in
  (doe - doe / 1460 + doe / 36524 - doe / 146096) / 365 = 100 * c + 4 * q + r.
Proof.
  intros (Hc & Hq & Hr & Hy & Hl) doe.
  assert (0 <= doe / 146096 <= 1) by (unfold doe; Z.div_mod_to_equations; lia).
  assert (c = 0 \/ c = 1 \/ c = 2 \/ c = 3) as Hcs by lia.
  assert (r = 0 \/ r = 1 \/ r = 2 \/ r = 3) as Hrs by lia.
  unfold doe in *. destruct Hcs as [->|[->|[->| ->]]]; destruct Hrs as [->|[->|[->| ->]]];
    Z.div_mod_to_equations; lia.
Qed.

Lemma civil_of_day_number era c q r doy :
  decomposed era c q r doy ->
  civil_of_days (day_number era c q r doy) = march_date (400 * era + 100 * c + 4 * q + r) doy.
Proof.
  intros D. pose proof (year_of_cycle c q r doy era D) as Y. cbv zeta in Y.
  destruct D as (Hc & Hq & Hr & Hy & Hl). unfold civil_of_days, day_number, march_date, month_day.
  set (doe := 36524 * c + 1461 * q + 365 * r + doy) in *.
  assert (0 <= doe < 146097) by (unfold doe; lia).
  replace (146097 * era + doe - 719468 + 719468) with (doe + era * 146097) by lia.
  rewrite Z.div_add, Z.mod_add, (Z.div_small doe), (Z.mod_small doe), Y by lia.
  replace (doe - (365 * (100 * c + 4 * q + r) + (100 * c + 4 * q + r) / 4
    - (100 * c + 4 * q + r) / 100)) with doy by (unfold doe; Z.div_mod_to_equations; lia).
  destruct (_ <=? 2); do 2 f_equal; lia.
Qed.

(** Facts on the 366 days of a March year, by evaluation. *)
Definition next_month_day (lp : bool) (md : bool * Z * Z) : bool * Z * Z :=
  let '(nxt, m, d) := md in
  if d <? month_length lp m then (nxt, m, d + 1)
  else if m <? 12 then (nxt, m + 1, 1) else (true, 1, 1).

Definition doy_ok (doy : Z) : bool :=
  let '(nxt, m, d) := month_day doy in
  (1 <=? m) && (m <=? 12) && (1 <=? d) && (d <=? month_length true m) && Bool.eqb nxt (m <=? 2) &&
  ((153 * (if 2 <? m then m - 3 else m + 9) + 2) / 5 + d - 1 =? doy) &&
  (if doy <? 364
   then bool_decide (next_month_day true (month_day doy) = month_day (doy + 1)) &&
        bool_decide (next_month_day false (month_day doy) = month_day (doy + 1))
   else true).

Lemma doy_all : forallb (fun n => doy_ok (Z.of_nat n)) (seq 0 366) = true.
Proof. vm_compute. reflexivity. Qed.

Lemma doy_facts doy : 0 <= doy <= 365 -> doy_ok doy = true.
Proof.
  intros Hd. pose proof doy_all as A. rewrite forallb_forall in A.
  rewrite <- (Z2Nat.id doy) by lia. apply A, in_seq. lia.
Qed.

Lemma month_day_facts doy nxt m d :
  0 <= doy <= 365 -> month_day doy = (nxt, m, d) ->
  1 <= m <= 12 /\ 1 <= d <= month_length true m /\ nxt = (m <=? 2) /\
  (153 * (if 2 <? m then m - 3 else m + 9) + 2) / 5 + d - 1 = doy /\
  (doy < 364 -> forall lp, next_month_day lp (month_day doy) = month_day (doy + 1)).
Proof.
  intros Hd E. pose proof (doy_facts doy Hd) as F. unfold doy_ok in F. rewrite E in F.
  zbool. match goal with H : Bool.eqb _ _ = true |- _ => apply Bool.eqb_prop in H end.
  rewrite <- E in *. split_and!; try lia; try done. intros Hlt lp.
  replace (doy <? 364) with true in * by (symmetry; apply Z.ltb_lt; lia). zbool.
  repeat match goal with H : bool_decide _ = true |- _ => apply bool_decide_eq_true in H end.
  by destruct lp.
Qed.

Lemma days_of_march_date era c q r doy :
  decomposed era c q r doy ->
  let '(y, m, d) := march_date (400 * era + 100 * c + 4 * q + r) doy in
  days_of_civil y m d = day_number era c q r doy.
Proof.
  intros (Hc & Hq & Hr & Hy & Hl). unfold march_date.
  destruct (month_day doy) as [[nxt m] d] eqn:E.
  destruct (month_day_facts doy nxt m d Hy E) as (Hm & Hd & -> & Hdoy & _).
  unfold days_of_civil, day_number. rewrite Hdoy.
  set (y := 400 * era + 100 * c + 4 * q + r).
  assert ((if m <=? 2 then (if m <=? 2 then y + 1 else y) - 1 else if m <=? 2 then y + 1 else y) = y) as ->
    by (destruct (m <=? 2); lia).
  unfold y. replace (400 * era + 100 * c + 4 * q + r) with (100 * c + 4 * q + r + era * 400) by lia.
  rewrite Z.div_add, Z.mod_add, (Z.div_small (_ + _)), (Z.mod_small (_ + _)) by lia.
  Z.div_mod_to_equations. lia.
Qed.

(** The two conversions are inverse, and the fields are in range. *)
Lemma civil_inverse days :
  let '(y, m, d) := civil_of_days days in
  days_of_civil y m d = days /\ 1 <= m <= 12 /\ 1 <= d <= 31.
Proof.
  destruct (decompose days) as (era & c & q & r & doy & D & ->).
  pose proof (days_of_march_date era c q r doy D) as E.
  rewrite civil_of_day_number by done. revert E. unfold march_date.
  destruct (month_day doy) as [[nxt m] d] eqn:Em. intros E.
  destruct (month_day_facts doy nxt m d) as (Hm & Hd & _); [apply D | done |].
  split_and!; try done; try lia. unfold month_length in Hd.
  repeat match type of Hd with context [if ?b then _ else _] => destruct b end; lia.
Qed.

Lemma leap_march era c q r doy :
  decomposed era c q r doy ->
  leap (400 * era + 100 * c + 4 * q + r + 1) = (r =? 3) && ((q <? 24) || (c =? 3)).
Proof.
  intros (Hc & Hq & Hr & _). unfold leap. set (y := _ + 1).
  assert (y mod 4 = (r + 1) mod 4) as E4 by (unfold y; Z.div_mod_to_equations; lia).
  assert (y mod 100 = (4 * q + r + 1) mod 100) as E100 by (unfold y; Z.div_mod_to_equations; lia).
  assert (y mod 400 = (100 * c + 4 * q + r + 1) mod 400) as E400
    by (unfold y; Z.div_mod_to_equations; lia).
  rewrite E4, E100, E400. apply eq_bool_prop_intro. rewrite !Is_true_true, orb_true_iff, !andb_true_iff,
    negb_true_iff, orb_true_iff, !Z.eqb_eq, Z.eqb_neq, Z.ltb_lt.
  Z.div_mod_to_equations. lia.
Qed.

Lemma next_march_date y doy nxt m d :
  0 <= doy <= 365 -> month_day doy = (nxt, m, d) ->
  next_date (march_date y doy) =
  let '(nxt', m', d') := next_month_day (leap (y + 1)) (month_day doy) in
  ((if nxt' then y + 1 else y), m', d').
Proof.
  intros Hd E. unfold march_date. rewrite E.
  destruct (month_day_facts doy nxt m d Hd E) as (Hm & _ & -> & _).
  unfold next_date, next_month_day.
  assert (month_length (leap (if m <=? 2 then y + 1 else y)) m = month_length (leap (y + 1)) m) as ->.
  { unfold month_length. destruct (Z.eqb_spec m 2); [|done]. by subst. }
  destruct (d <? _); [done|]. destruct (Z.ltb_spec m 12); [done|].
  replace (m <=? 2) with false by (symmetry; apply Z.leb_gt; lia). done.
Qed.

(** The day after the last day of a March year. *)
Lemma next_year era c q r doy :
  decomposed era c q r doy ->
  doy = (if (r =? 3) && ((q <? 24) || (c =? 3)) then 365 else 364) ->
  exists era' c' q' r', decomposed era' c' q' r' 0 /\
    day_number era c q r doy + 1 = day_number era' c' q' r' 0 /\
    400 * era' + 100 * c' + 4 * q' + r' = 400 * era + 100 * c + 4 * q + r + 1.
Proof.
  intros (Hc & Hq & Hr & _) Hdoy. unfold decomposed, day_number.
  destruct (Z.eqb_spec r 3) as [->|Hr3]; cbn [andb] in Hdoy.
  - destruct (Z.ltb_spec q 24) as [Hq24|Hq24]; cbn [orb] in Hdoy.
    + exists era, c, (q + 1), 0. lia.
    + destruct (Z.eqb_spec c 3) as [->|Hc3].
      * exists (era + 1), 0, 0, 0. lia.
      * exists era, (c + 1), 0, 0. lia.
  - exists era, c, q, (r + 1). lia.
Qed.

(** [civil_of_days] is the Gregorian calendar: the day after has the date after. *)
Lemma civil_next days : civil_of_days (days + 1) = next_date (civil_of_days days).
Proof.
  destruct (decompose days) as (era & c & q & r & doy & D & ->).
  pose proof (leap_march era c q r doy D) as L. rewrite (civil_of_day_number _ _ _ _ _ D).
  destruct (month_day doy) as [[nxt m] d] eqn:Em.
  pose proof D as (Hc & Hq & Hr & Hy & Hl). set (y := 400 * era + 100 * c + 4 * q + r) in *.
  rewrite (next_march_date y doy nxt m d) by done.
  destruct (month_day_facts doy nxt m d Hy Em) as (_ & _ & _ & _ & Hstep).
  destruct (decide (doy = if (r =? 3) && ((q <? 24) || (c =? 3)) then 365 else 364)) as [Hlast|Hnot].
  - destruct (next_year era c q r doy D Hlast) as (era' & c' & q' & r' & D' & -> & Hyear).
    rewrite (civil_of_day_number _ _ _ _ _ D'), Hyear, L. fold y. rewrite Hlast.
    by destruct (_ && _).
  - assert (decomposed era c q r (doy + 1)) as D'.
    { unfold decomposed. destruct (Z.eqb_spec r 3), (Z.ltb_spec q 24), (Z.eqb_spec c 3);
        cbn in Hnot; lia. }
    replace (day_number era c q r doy + 1) with (day_number era c q r (doy + 1))
      by (unfold day_number; lia).
    rewrite (civil_of_day_number _ _ _ _ _ D'). fold y. unfold march_date.
    destruct (decide (doy < 364)) as [Hlt|Hge]; [by rewrite Hstep|].
    unfold decomposed in D'. assert (doy = 364) as -> by lia. rewrite L.
    destruct (Z.eqb_spec r 3), (Z.ltb_spec q 24), (Z.eqb_spec c 3); done || lia.
Qed.

(** *** [gmtime] and [timegm] *)

Lemma timegm_gmtime t :
  kInt64Min <= t <= kInt64Max -> timegm (gmtime t) = t.
Proof.
  intros Ht. unfold timegm, gmtime. pose proof (civil_inverse (t / 86400)) as C.
  destruct (civil_of_days (t / 86400)) as [[y m] d]. destruct C as (C & Hm & Hd). cbn.
  replace (y - 1900 + 1900 + (m - 1) / 12) with y by (Z.div_mod_to_equations; lia).
  replace ((m - 1) mod 12 + 1) with m by (Z.div_mod_to_equations; lia).
  assert (days_of_civil y m 1 + (d - 1) = t / 86400) as -> by (rewrite <- C; unfold days_of_civil; lia).
  replace (_ + _ + _ + _) with t by (Z.div_mod_to_equations; lia).
  unfold int64_ok. by zdecide.
Qed.

Lemma gmtime_ranges t :
  let x := gmtime t in
  0 <= tm_sec x <= 59 /\ 0 <= tm_min x <= 59 /\ 0 <= tm_hour x <= 23 /\ 1 <= tm_mday x <= 31 /\
  0 <= tm_mon x <= 11 /\ 0 <= tm_wday x <= 6.
Proof.
  unfold gmtime. pose proof (civil_inverse (t / 86400)) as C.
  destruct (civil_of_days (t / 86400)) as [[y m] d]. destruct C as (_ & Hm & Hd). cbn.
  Z.div_mod_to_equations. lia.
Qed.

Lemma gmtime_midnight t :
  let x := gmtime t in
  gmtime (t / 86400 * 86400) = mkTm 0 0 0 (tm_mday x) (tm_mon x) (tm_year x) (tm_wday x) 0.
Proof.
  unfold gmtime. rewrite Z.div_mul, Z.mod_mul by lia.
  destruct (civil_of_days (t / 86400)) as [[y m] d]. reflexivity.
Qed.

(** [timegm] ignores the daylight saving flag and the day of the week. *)
Lemma timegm_fields x w i :
  timegm (mkTm (tm_sec x) (tm_min x) (tm_hour x) (tm_mday x) (tm_mon x) (tm_year x) w i) = timegm x.
Proof. by destruct x. Qed.

Lemma exploded_mostly_equals_refl e : exploded_mostly_equals e e = true.
Proof. unfold exploded_mostly_equals. by rewrite !Z.eqb_refl. Qed.

(** Times whose conversion stays clear of the ends of the 64-bit range. *)
Definition time_ok (t : Z) : Prop := kInt64Min + 2000000 <= t <= kInt64Max - 1000.

Section Explode_lemmas.
Variables (localtime : Z -> tm) (mktime : tm -> Z).

Lemma to_utc_explode_ok t :
  kInt64Min + 1000 <= t <= kInt64Max ->
  to_explode localtime false t =
  Ok (let x := gmtime (t / 1000000) in
      mkExploded (tm_year x + 1900) (tm_mon x + 1) (tm_wday x) (tm_mday x)
        (tm_hour x) (tm_min x) (tm_sec x) (t / 1000 mod 1000)).
Proof. intros Ht. unfold to_explode. by rewrite split_time_floor. Qed.

Lemma from_utc_exploded_fields T e :
  T mod 1000 = 0 -> kInt64Min + 1000000 <= T <= kInt64Max ->
  to_explode localtime false T = Ok e -> from_exploded localtime mktime false e = Ok (true, T).
Proof.
  intros Hmul HT E. rewrite to_utc_explode_ok in E by (units; lia). injection E as <-.
  unfold from_exploded. cbn [second minute hour day_of_month month year day_of_week millisecond].
  set (s := T / 1000000). set (x := gmtime s).
  assert (kInt64Min <= s <= kInt64Max) as Hs by (unfold s; units; Z.div_mod_to_equations; lia).
  assert (forall w i, timegm (mkTm (tm_sec x) (tm_min x) (tm_hour x) (tm_mday x)
    (tm_mon x + 1 - 1) (tm_year x + 1900 - 1900) w i) = s) as Hg.
  { intros w i. rewrite Z.add_simpl_r, Z.add_simpl_r, timegm_fields. by apply timegm_gmtime. }
  unfold time_t_from_tm, set_isdst. cbn [tm_sec tm_min tm_hour tm_mday tm_mon tm_year tm_wday].
  rewrite !Hg. cbv zeta.
  assert ((if s =? -1 then if s <? 0 then s else if s <? 0 then s else Z.min s s else s) = s) as ->
    by (destruct (s =? -1), (s <? 0); lia).
  replace ((s =? -1) && _) with false.
  2: { symmetry. destruct (Z.eqb_spec s (-1)) as [E|]; [|done]. unfold x. by rewrite E. }
  set (ms := T / 1000 mod 1000). assert (0 <= ms < 1000) by (apply Z.mod_pos_bound; lia).
  assert (T = (s * 1000 + ms) * 1000) as HTs by (unfold s, ms; Z.div_mod_to_equations; lia).
  units. rewrite int64_in_range by (units; lia). cbn [mbind outcome_bind].
  rewrite int64_in_range by (units; lia). cbn [mbind outcome_bind].
  rewrite int64_in_range by (units; lia). cbn [mbind outcome_bind]. rewrite <- HTs.
  rewrite to_utc_explode_ok by (units; lia). cbn [mbind outcome_bind].
  fold s. fold x. fold ms. by rewrite exploded_mostly_equals_refl.
Qed.

(** Exploding a time and converting it back loses the part below a millisecond. *)
Lemma explode_inverse t :
  time_ok t ->
  exists e, to_explode localtime false t = Ok e /\ exploded_is_valid e = true /\
    from_exploded localtime mktime false e = Ok (true, t / 1000 * 1000).
Proof.
  unfold time_ok. intros Ht. rewrite to_utc_explode_ok by (units; lia).
  eexists. split_and!; [done | |].
  - pose proof (gmtime_ranges (t / 1000000)) as G. cbv zeta in G.
    unfold exploded_is_valid, is_in_range.
    cbn [month day_of_week day_of_month hour minute second millisecond].
    assert (0 <= t / 1000 mod 1000 < 1000) by (apply Z.mod_pos_bound; lia).
    rewrite !andb_true_iff, !Z.leb_le. lia.
  - set (T := t / 1000 * 1000).
    assert (T mod 1000 = 0 /\ T <= t < T + 1000) as [Hm HT]
      by (unfold T; Z.div_mod_to_equations; lia).
    apply from_utc_exploded_fields; [done | units; lia |].
    rewrite to_utc_explode_ok by (units; lia).
    replace (T / 1000000) with (t / 1000000) by (unfold T; Z.div_mod_to_equations; lia).
    by replace (T / 1000) with (t / 1000) by (unfold T; Z.div_mod_to_equations; lia).
Qed.

(** Midnight: the fields of the day with a zero time of day. *)
Lemma utc_midnight_ok t :
  kInt64Min + 86402000000 <= t <= kInt64Max ->
  midnight localtime mktime false t = Ok (t / kMicrosecondsPerDay * kMicrosecondsPerDay).
Proof.
  intros Ht. unfold midnight. rewrite to_utc_explode_ok, bind_ret by (units; lia).
  cbv beta iota zeta. cbn [year month day_of_week day_of_month].
  replace kMicrosecondsPerDay with 86400000000 by reflexivity.
  set (q := t / 86400000000). set (T := q * 86400000000).
  assert (T <= t < T + 86400000000) as HT by (unfold T, q; Z.div_mod_to_equations; lia).
  assert (T mod 1000 = 0 /\ T / 1000 mod 1000 = 0) as [Hm Hms]
    by (unfold T; Z.div_mod_to_equations; lia).
  assert (T / 1000000 = q * 86400) as HT6 by (unfold T; Z.div_mod_to_equations; lia).
  assert (t / 1000000 / 86400 = q) as Hq by (unfold q; Z.div_mod_to_equations; lia).
  assert (kInt64Min + 1000000 <= T <= kInt64Max) as HTr by (units; lia).
  assert (kInt64Min + 1000 <= T <= kInt64Max) as HTe by lia.
  pose proof (from_utc_exploded_fields T _ Hm HTr (to_utc_explode_ok T HTe)) as F.
  rewrite Hms, HT6, <- Hq, gmtime_midnight in F.
  cbn [tm_year tm_mon tm_wday tm_mday tm_hour tm_min tm_sec] in F.
  rewrite F, bind_ret. reflexivity.
Qed.

End Explode_lemmas.

(** ** Where the code leaves the safe range *)

(** [from_days], unlike [from_seconds], multiplies without saturating. *)
Example from_days_overflows :
  from_days 106751992 = Fault (Undefined "signed overflow") /\
  from_seconds (106751992 * 86400) = Ok delta_max.
Proof. split; vm_compute; reflexivity. Qed.

(** The interval of a repeating timer goes through seconds as a double, and
    comes back truncated: a period of 249 microseconds becomes 248. *)
Example interval_truncated : from_seconds_d (in_seconds_f 249) = Ok 248.
Proof. vm_compute. reflexivity. Qed.

(** Before the epoch [to_timeval] produces a negative [tv_usec], which
    [from_timeval] rejects. *)
Example timeval_before_epoch :
  to_timeval (-1) = (0, -1) /\
  from_timeval (to_timeval (-1)) = Fault (CheckFailed "from_timeval: tv_usec").
Proof. split; reflexivity. Qed.

(** ** Properties *)

(**  [from_seconds] and [from_milliseconds] never overflow: for every
    argument they return the exact product, clamped to the 64-bit range. *)
Theorem durations_saturate (v : Z) :
  from_seconds v = Ok (saturate (v * 1000000)) /\
  from_milliseconds v = Ok (saturate (v * 1000)).
Proof. split; by apply from_product_saturates. Qed.

(** Conversions to the kernel's time structures are exact: a non-negative
    duration becomes a normalised [timespec], and comes back unchanged; a
    non-negative time survives [to_timeval] and [from_timeval], and [max()]
    does as well. *)
Theorem time_structs_roundtrip (d : Z) :
  0 <= d < kInt64Max ->
  (exists s n, delta_to_timespec d = Ok (s, n) /\ 0 <= s /\ 0 <= n < kNanosecondsPerSecond /\
     delta_from_timespec (s, n) = Ok d) /\
  from_timeval (to_timeval d) = Ok d /\
  from_timeval (to_timeval kInt64Max) = Ok kInt64Max.
Proof.
  intros Hd. split_and!; [| |reflexivity].
  - rewrite delta_to_timespec_pos by done. do 2 eexists. split; [done|].
    set (s := d / kMicrosecondsPerSecond). set (r := d mod kMicrosecondsPerSecond).
    assert (d = s * kMicrosecondsPerSecond + r /\ 0 <= s /\ 0 <= r < kMicrosecondsPerSecond) as (E & Hs & Hr)
      by (unfold s, r; units; Z.div_mod_to_equations; lia).
    split_and!; [done | units; lia | units; lia |].
    rewrite delta_from_timespec_pos; rewrite ?Z.div_mul by lia; units; [f_equal; lia | lia..].
  - unfold to_timeval, is_null, is_max. destruct (Z.eqb_spec d 0) as [->|]; [done|]. zdecide.
    rewrite cdiv_pos, cmod_pos by (units; lia).
    set (s := d / kMicrosecondsPerSecond). set (r := d mod kMicrosecondsPerSecond).
    assert (d = s * kMicrosecondsPerSecond + r /\ 0 <= s /\ 0 <= r < kMicrosecondsPerSecond) as (E & Hs & Hr)
      by (unfold s, r; units; Z.div_mod_to_equations; lia).
    unfold from_timeval. cbn [fst snd]. zdecide. cbn [check mbind outcome_bind].
    replace ((r =? 0) && (s =? 0)) with false
      by (destruct (Z.eqb_spec r 0), (Z.eqb_spec s 0); cbn; units; lia).
    replace (s =? kInt64Max) with false by (symmetry; apply Z.eqb_neq; units; lia).
    rewrite andb_false_r, int64_in_range by (units; lia). cbn [mbind outcome_bind].
    rewrite int64_in_range by (units; lia). f_equal. lia.
Qed.

Lemma time_structs_roundtrip_witness :
  from_timeval (to_timeval 1565800000123456) = Ok 1565800000123456.
Proof.
  refine (proj1 (proj2 (time_structs_roundtrip 1565800000123456 _))).
  vm_compute. split; congruence.
Defined.

(**  The UTC calendar round trip, before and after the epoch: exploding a
    time gives fields in their ranges, and [from_utc_exploded] of them succeeds
    and returns the time rounded down to a millisecond; [utc_midnight] is the
    start of the UTC day. *)
Theorem explode_roundtrip (localtime : Z -> tm) (mktime : tm -> Z) (t : Z) :
  kInt64Min + 86402000000 <= t <= kInt64Max - 1000 ->
  (exists e, to_explode localtime false t = Ok e /\ exploded_is_valid e = true /\
     from_exploded localtime mktime false e = Ok (true, t / 1000 * 1000)) /\
  midnight localtime mktime false t = Ok (t / kMicrosecondsPerDay * kMicrosecondsPerDay).
Proof.
  intros Ht. split; [apply explode_inverse; unfold time_ok; lia | apply utc_midnight_ok; lia].
Qed.

Lemma explode_roundtrip_witness :
  midnight gmtime timegm false (-1) = Ok (-86400000000).
Proof.
  refine (proj2 (explode_roundtrip gmtime timegm (-1) _)).
  vm_compute. split; congruence.
Defined.

(** [from_timespec] goes through a double, and can lose a microsecond. *)
Example timespec_truncated : exists us, to_timespec us = (1, 28000) /\
  from_timespec (to_timespec us) <> Ok us.
Proof. exists 1000028. vm_compute. split; [reflexivity | discriminate]. Qed.
