(* ===== verification/TimerPool.v ===== *)
(** * Timers (src/Timer.h, src/Timer.cc, src/TimerPool.h, src/TimerPool.cc,
    src/TimerFD.cc)

    The timers of an event loop.  Timer objects live in a heap, as the pool and
    the [TimerId]s of its users hold their addresses; [timers_] is a [std::set]
    ordered by expiry and address, a sorted list here; [active_timers_] and
    [canceling_timers_] are sets of address and sequence number.  The clock is
    an argument of every operation that reads it; [timerfd_settime] is a
    parameter.  A callback is the list of pool operations it performs.

    The file shows that the two sets always describe the same timers, that due
    timers run exactly once and in order of expiry, that a cancelled timer is
    never scheduled again, and that the timer descriptor is armed for the
    earliest timer.  The failures left are an exhausted memory and [PCHECK] in
    [TimerFD::reset], which aborts when the earliest timer is not in the future. *)

From Stdlib Require Import Sorted Floats.SpecFloat.
From S2P Require Import Prelude TimeStamp.

(** ** Definitions *)

Record Timer : Type := mkTimer {
  expired_ : Z;
  interval_ : Z;
  sequence_ : Z;
}.

Definition repeat (t : Timer) : bool := negb (delta_is_null (interval_ t)).

Definition restart (curr : Z) (t : Timer) : outcome Timer :=
  if repeat t then
    e ← time_add curr (interval_ t);
    Ok (mkTimer e (interval_ t) (sequence_ t))
  else Fault (CheckFailed "restart: NOTREACHED").

(** *** [std::set<EntryTimer>] *)

Abbreviation entry := (Z * Z)%type.

(** Lexicographic order on expiry and address. *)
Definition entry_lt (a b : entry) : bool :=
  (a.1 <? b.1) || ((a.1 =? b.1) && (a.2 <? b.2)).

Definition entry_eqb (a b : entry) : bool := (a.1 =? b.1) && (a.2 =? b.2).

(** [insert], with whether the element was new. *)
Fixpoint set_insert (x : entry) (l : list entry) : bool * list entry :=
  match l with
  | [] => (true, [x])
  | y :: l' =>
      if entry_lt x y then (true, x :: l)
      else if entry_eqb x y then (false, l)
      else let '(b, l'') := set_insert x l' in (b, y :: l'')
  end.

(** [erase(key)], with the number of elements removed. *)
Fixpoint set_erase (x : entry) (l : list entry) : Z * list entry :=
  match l with
  | [] => (0, [])
  | y :: l' =>
      if entry_eqb x y then (1, l')
      else let '(n, l'') := set_erase x l' in (n, y :: l'')
  end.

(** [lower_bound]: the elements before the first one not less than [x], and
    the rest. *)
Fixpoint lower_bound (x : entry) (l : list entry) : list entry * list entry :=
  match l with
  | [] => ([], [])
  | y :: l' =>
      if entry_lt y x then let '(a, b) := lower_bound x l' in (y :: a, b) else ([], l)
  end.

(** *** The pool *)

Record TimerPool : Type := mkPool {
  heap : gmap Z Timer;
  timers_ : list entry;
  active_timers_ : gset (Z * Z);
  canceling_timers_ : gset (Z * Z);
  calling_expired_timers_ : bool;
  armed : option Z;         (** when the timer descriptor becomes readable *)
  globalSequence : Z;
  ran : list (Z * Z);       (** the callbacks run, as address and sequence *)
}.

Definition set_heap (h : gmap Z Timer) (p : TimerPool) : TimerPool :=
  mkPool h (timers_ p) (active_timers_ p) (canceling_timers_ p) (calling_expired_timers_ p)
    (armed p) (globalSequence p) (ran p).
Definition set_timers (l : list entry) (p : TimerPool) : TimerPool :=
  mkPool (heap p) l (active_timers_ p) (canceling_timers_ p) (calling_expired_timers_ p)
    (armed p) (globalSequence p) (ran p).
Definition set_active (s : gset (Z * Z)) (p : TimerPool) : TimerPool :=
  mkPool (heap p) (timers_ p) s (canceling_timers_ p) (calling_expired_timers_ p)
    (armed p) (globalSequence p) (ran p).
Definition set_canceling (s : gset (Z * Z)) (p : TimerPool) : TimerPool :=
  mkPool (heap p) (timers_ p) (active_timers_ p) s (calling_expired_timers_ p)
    (armed p) (globalSequence p) (ran p).
Definition set_calling (b : bool) (p : TimerPool) : TimerPool :=
  mkPool (heap p) (timers_ p) (active_timers_ p) (canceling_timers_ p) b
    (armed p) (globalSequence p) (ran p).
Definition set_armed (a : option Z) (p : TimerPool) : TimerPool :=
  mkPool (heap p) (timers_ p) (active_timers_ p) (canceling_timers_ p) (calling_expired_timers_ p)
    a (globalSequence p) (ran p).

Definition deref (a : Z) (p : TimerPool) : outcome Timer :=
  match heap p !! a with Some t => Ok t | None => Fault (Undefined "dangling Timer*") end.

(** [DCHECK(timers_.size() == active_timers_.size())] *)
Definition sizes_agree (p : TimerPool) : bool :=
  zlen (timers_ p) =? Z.of_nat (size (active_timers_ p)).

Definition bad_alloc : fault := Uncaught "new Timer: std::bad_alloc".

Section Pool.
(** timerfd_settime(2) with a relative one-shot value: the result code. *)
Variable timerfd_settime : Z * Z -> Z.
(** The address [new Timer] returns, or nothing when memory is exhausted. *)
Variable alloc : gmap Z Timer -> option Z.

Definition reset_timerfd (delta : Z) : outcome Z :=
  if delta_is_null delta then Ok (-1)
  else ts ← delta_to_timespec delta; Ok (timerfd_settime ts).

(** [TimerPool::reset] and [TimerFD::reset]. *)
Definition reset (expired now : Z) (p : TimerPool) : outcome TimerPool :=
  if is_valid expired then
    delta ← time_diff expired now;
    rt ← reset_timerfd delta;
    check (0 <=? rt) "TimerFD::reset: PCHECK(rt >= 0)";;
    Ok (set_armed (Some (now + delta)) p)
  else Ok p.

Definition save (a : Z) (p : TimerPool) : outcome (bool * TimerPool) :=
  check (sizes_agree p) "save: sizes";;
  t ← deref a p;
  let earliest_changed :=
    match timers_ p with [] => true | e :: _ => expired_ t <? e.1 end in
  let '(fresh, l) := set_insert (expired_ t, a) (timers_ p) in
  check fresh "save: timers_.insert";;
  check (bool_decide ((a, sequence_ t) ∉ active_timers_ p)) "save: active_timers_.insert";;
  let p := set_active ({[ (a, sequence_ t) ]} ∪ active_timers_ p) (set_timers l p) in
  check (sizes_agree p) "save: sizes";;
  Ok (earliest_changed, p).

(** [new Timer] at address [a]. *)
Definition new_timer (a expired interval : Z) (p : TimerPool) : TimerPool :=
  mkPool (<[a := mkTimer expired interval (globalSequence p)]> (heap p)) (timers_ p)
    (active_timers_ p) (canceling_timers_ p) (calling_expired_timers_ p) (armed p)
    (globalSequence p + 1) (ran p).

Definition add_timer_in_own_loop (a now : Z) (p : TimerPool) : outcome TimerPool :=
  check (sizes_agree p) "add_timer_in_own_loop: sizes";;
  '(earliest_changed, p) ← save a p;
  if earliest_changed : bool then t ← deref a p; reset (expired_ t) now p else Ok p.

(** A new timer added in the own loop, where [run_in_own_loop] calls at once. *)
Definition create_timer (expired interval now : Z) (p : TimerPool) : outcome TimerPool :=
  match alloc (heap p) with
  | Some a => add_timer_in_own_loop a now (new_timer a expired interval p)
  | None => Fault bad_alloc
  end.

(** [add_timer], with the interval in seconds. *)
Definition add_timer (expired : Z) (interval_s : spec_float) (now : Z) (p : TimerPool)
    : outcome TimerPool :=
  interval ← from_seconds_d interval_s;
  create_timer expired interval now p.

(** The common end of [cancel_timer_in_own_loop] and [update]. *)
Definition reset_earliest (now : Z) (p : TimerPool) : outcome TimerPool :=
  match timers_ p with
  | [] => reset 0 now p
  | e :: _ => t ← deref e.2 p; reset (expired_ t) now p
  end.

Definition cancel_timer_in_own_loop (a seq now : Z) (p : TimerPool) : outcome TimerPool :=
  check (sizes_agree p) "cancel_timer_in_own_loop: sizes";;
  p ←
    (if bool_decide ((a, seq) ∈ active_timers_ p) then
       t ← deref a p;
       let '(n, l) := set_erase (expired_ t, a) (timers_ p) in
       check (n =? 1) "cancel_timer_in_own_loop: erase";;
       let p := set_heap (delete a (heap p)) (set_timers l p) in
       Ok (set_active (active_timers_ p ∖ {[ (a, seq) ]}) p)
     else if calling_expired_timers_ p then
       Ok (set_canceling ({[ (a, seq) ]} ∪ canceling_timers_ p) p)
     else Ok p);
  check (sizes_agree p) "cancel_timer_in_own_loop: sizes";;
  reset_earliest now p.

(** The loop that erases the expired timers from [active_timers_]. *)
Fixpoint erase_active (l : list entry) (p : TimerPool) : outcome TimerPool :=
  match l with
  | [] => Ok p
  | e :: l =>
      t ← deref e.2 p;
      check (bool_decide ((e.2, sequence_ t) ∈ active_timers_ p)) "fill_expired_timers: erase";;
      erase_active l (set_active (active_timers_ p ∖ {[ (e.2, sequence_ t) ]}) p)
  end.

Definition kUintptrMax : Z := 2 ^ 64 - 1.

Definition fill_expired_timers (time : Z) (p : TimerPool) : outcome (list entry * TimerPool) :=
  check (sizes_agree p) "fill_expired_timers: sizes";;
  let '(expired_timers, rest) := lower_bound (time, kUintptrMax) (timers_ p) in
  check (match rest with [] => true | e :: _ => time <? e.1 end) "fill_expired_timers: lower_bound";;
  p ← erase_active expired_timers (set_timers rest p);
  check (sizes_agree p) "fill_expired_timers: sizes";;
  Ok (expired_timers, p).

(** What a callback does to the pool: the operation and the clock reading of
    each call. *)
Inductive action : Type :=
  | Add (expired interval now : Z)
  | Cancel (a seq now : Z).

Definition run_action (x : action) (p : TimerPool) : outcome TimerPool :=
  match x with
  | Add e i now => create_timer e i now p
  | Cancel a s now => cancel_timer_in_own_loop a s now p
  end.

Fixpoint run_actions (l : list action) (p : TimerPool) : outcome TimerPool :=
  match l with
  | [] => Ok p
  | x :: l => p ← run_action x p; run_actions l p
  end.

(** [it.second->run()] for the expired timers; [script] is what the callback of
    a timer does, by its sequence number. *)
Fixpoint run_expired (script : Z -> list action) (l : list entry) (p : TimerPool)
    : outcome TimerPool :=
  match l with
  | [] => Ok p
  | e :: l =>
      t ← deref e.2 p;
      let p := mkPool (heap p) (timers_ p) (active_timers_ p) (canceling_timers_ p)
                 (calling_expired_timers_ p) (armed p) (globalSequence p)
                 (ran p ++ [(e.2, sequence_ t)]) in
      p ← run_actions (script (sequence_ t)) p;
      run_expired script l p
  end.

Fixpoint update_loop (time : Z) (l : list entry) (p : TimerPool) : outcome TimerPool :=
  match l with
  | [] => Ok p
  | e :: l =>
      t ← deref e.2 p;
      if repeat t && bool_decide ((e.2, sequence_ t) ∉ canceling_timers_ p) then
        t ← restart time t;
        '(_, p) ← save e.2 (set_heap (<[e.2 := t]> (heap p)) p);
        update_loop time l p
      else update_loop time l (set_heap (delete e.2 (heap p)) p)
  end.

Definition update (time now : Z) (expired_timers : list entry) (p : TimerPool) : outcome TimerPool :=
  check (sizes_agree p) "update: sizes";;
  p ← update_loop time expired_timers p;
  reset_earliest now p.

(** [handle_read]: [n] is what reading the descriptor returned, [curr] the clock
    at the start, [now] at the end of [update]. *)
Definition handle_read (script : Z -> list action) (n curr now : Z) (p : TimerPool)
    : outcome TimerPool :=
  check (sizes_agree p) "handle_read: sizes";;
  if negb (n =? 8) then Ok p
  else
    '(expired_timers, p) ← fill_expired_timers curr p;
    let p := set_canceling ∅ (set_calling true p) in
    p ← run_expired script expired_timers p;
    update curr now expired_timers (set_calling false p).

End Pool.

(** ** Lemmas: the ordered set *)

Definition elt (a b : entry) : Prop := a.1 < b.1 \/ (a.1 = b.1 /\ a.2 < b.2).

Lemma entry_lt_spec a b : entry_lt a b = true <-> elt a b.
Proof.
  unfold entry_lt, elt. rewrite orb_true_iff, andb_true_iff, !Z.ltb_lt, Z.eqb_eq. done.
Qed.
Lemma entry_eqb_spec a b : entry_eqb a b = true <-> a = b.
Proof.
  destruct a, b. unfold entry_eqb. cbn. rewrite andb_true_iff, !Z.eqb_eq.
  split; [by intros [-> ->] | by intros [= -> ->]].
Qed.

Lemma elt_trans a b c : elt a b -> elt b c -> elt a c.
Proof. unfold elt. lia. Qed.
Lemma elt_irrefl a : ~ elt a a.
Proof. unfold elt. lia. Qed.
Lemma elt_total a b : elt a b \/ a = b \/ elt b a.
Proof. destruct a as [a1 a2], b as [b1 b2]. unfold elt. cbn. rewrite pair_equal_spec. lia. Qed.

Abbreviation sorted := (StronglySorted elt).

Lemma set_insert_spec x l :
  sorted l -> x ∉ l ->
  exists l', set_insert x l = (true, l') /\ sorted l' /\ l' ≡ₚ x :: l /\
    (exists k, l' = x :: k \/ exists y k', l = y :: k' /\ l' = y :: k /\ elt y x).
Proof.
  induction l as [|y l IH]; intros Hs Hx; cbn.
  { eexists. split_and!; [done | repeat constructor | done | eauto]. }
  apply not_elem_of_cons in Hx as [Hxy Hx]. apply StronglySorted_inv in Hs as [Hs Hall].
  destruct (entry_lt x y) eqn:E.
  { apply entry_lt_spec in E. eexists. split_and!; [done | | done | eauto].
    constructor; [by constructor|]. constructor; [done|].
    eapply Forall_impl; [exact Hall|]. intros z. by apply elt_trans. }
  destruct (entry_eqb x y) eqn:E2; [by apply entry_eqb_spec in E2|].
  destruct (IH Hs Hx) as (l' & -> & Hs' & Hp & _).
  assert (elt y x) as Hyx.
  { destruct (elt_total x y) as [Hlt|[?|?]]; [|done|done]. apply entry_lt_spec in Hlt. congruence. }
  eexists. split_and!; [done | | |].
  - constructor; [done|]. rewrite Hp. by constructor.
  - by rewrite Hp, Permutation_swap.
  - exists l'. right. eauto 10.
Qed.

Lemma set_erase_spec x l :
  sorted l -> x ∈ l -> exists l', set_erase x l = (1, l') /\ sorted l' /\ l ≡ₚ x :: l'.
Proof.
  induction l as [|y l IH]; intros Hs Hx; [by apply elem_of_nil in Hx|]. cbn.
  apply StronglySorted_inv in Hs as [Hs Hall].
  destruct (entry_eqb x y) eqn:E; [apply entry_eqb_spec in E as ->; eauto|].
  apply elem_of_cons in Hx as [->|Hx].
  { by rewrite (proj2 (entry_eqb_spec y y) eq_refl) in E. }
  destruct (IH Hs Hx) as (l' & -> & Hs' & Hp). eexists. split_and!; [done | |].
  - constructor; [done|]. rewrite Hp in Hall. by apply Forall_cons in Hall as [_ ?].
  - by rewrite Hp, Permutation_swap.
Qed.

Lemma lower_bound_spec x l :
  sorted l -> exists a b, lower_bound x l = (a, b) /\ l = a ++ b /\
    Forall (fun y => elt y x) a /\ Forall (fun y => ~ elt y x) b.
Proof.
  induction l as [|y l IH]; intros Hs; cbn; [by exists [], []|].
  apply StronglySorted_inv in Hs as [Hs Hall]. destruct (entry_lt y x) eqn:E.
  - destruct (IH Hs) as (a & b & -> & -> & Ha & Hb). apply entry_lt_spec in E.
    exists (y :: a), b. split_and!; try done. by constructor.
  - assert (~ elt y x) as Hn by (intros H%entry_lt_spec; congruence).
    exists [], (y :: l). split_and!; [done | done | constructor |].
    constructor; [done|]. eapply Forall_impl; [exact Hall|]. intros z Hz Hzx. apply Hn.
    by eapply elt_trans.
Qed.

Lemma sorted_app a b : sorted (a ++ b) -> sorted a /\ sorted b.
Proof.
  induction a as [|x a IH]; cbn; intros Hs; [by split; [constructor|]|].
  apply StronglySorted_inv in Hs as [Hs Hall]. destruct (IH Hs) as [? ?].
  apply Forall_app in Hall as [? ?]. split; [by constructor | done].
Qed.

(** ** The invariant *)

(** Times the pool deals with: up to the year 2112, so that no sum or
    difference of two of them overflows. *)
Definition clock_ok (t : Z) : Prop := 0 <= t <= 2 ^ 51.
Definition timer_ok (t : Timer) : Prop := 0 < expired_ t <= 2 ^ 52 /\ 0 <= interval_ t <= 2 ^ 51.

(** [fl] are the timers in flight: taken out of the sets by [handle_read], and
    neither restarted nor deleted yet. *)
Record pool_ok (fl : list entry) (p : TimerPool) : Prop := {
  po_sorted : sorted (timers_ p);
  po_live : forall e a, (e, a) ∈ timers_ p -> exists t, heap p !! a = Some t /\ expired_ t = e;
  po_active : forall a s, (a, s) ∈ active_timers_ p <->
    exists e t, (e, a) ∈ timers_ p /\ heap p !! a = Some t /\ sequence_ t = s;
  po_sizes : sizes_agree p = true;
  po_flight : NoDup fl.*2 /\
    forall e a, (e, a) ∈ fl -> is_Some (heap p !! a) /\ forall e', (e', a) ∉ timers_ p;
  po_heap : forall a t, heap p !! a = Some t ->
    timer_ok t /\ 0 <= a < kUintptrMax /\ sequence_ t < globalSequence p;
}.

(** The descriptor is armed for the earliest timer. *)
Definition armed_ok (p : TimerPool) : Prop :=
  match timers_ p with [] => True | e :: _ => armed p = Some e.1 end.

(** The abort of [TimerFD::reset]. *)
Definition late : fault := CheckFailed "TimerFD::reset: PCHECK(rt >= 0)".

(** Success with [Q], that abort, or memory exhaustion. *)
Definition good (m : outcome TimerPool) (Q : TimerPool -> Prop) : Prop :=
  match m with Ok p => Q p | Fault f => f = late \/ f = bad_alloc end.

(** timerfd_settime(2): a normalised positive value is accepted, a nanosecond
    field out of range is [EINVAL]. *)
Record settime_spec (settime : Z * Z -> Z) : Prop := {
  settime_accepts : forall s n, 0 <= s -> 0 <= n < 1000000000 -> 0 <= settime (s, n);
  settime_einval : forall s n, n < 0 -> settime (s, n) < 0;
}.

(** [operator new] returns an address that is not in use. *)
Definition alloc_spec (alloc : gmap Z Timer -> option Z) : Prop :=
  forall h a, alloc h = Some a -> h !! a = None /\ 0 <= a < kUintptrMax.

Section Pool_lemmas.
Context (settime : Z * Z -> Z) (Hsettime : settime_spec settime).
Context (alloc : gmap Z Timer -> option Z) (Halloc : alloc_spec alloc).

Lemma good_bind m k (Q R : TimerPool -> Prop) :
  good m Q -> (forall p, Q p -> good (k p) R) -> good (m ≫= k) R.
Proof. destruct m; cbn; auto. Qed.

Lemma good_mono m (Q R : TimerPool -> Prop) : good m Q -> (forall p, Q p -> R p) -> good m R.
Proof. destruct m; cbn; auto. Qed.

(** [reset] arms the descriptor for a timer in the future, and aborts for any
    other. *)
Lemma reset_spec e now p :
  0 < e <= 2 ^ 52 -> clock_ok now ->
  reset settime e now p = if now <? e then Ok (set_armed (Some e) p) else Fault late.
Proof.
  intros He [Hn0 Hn1]. unfold reset, is_valid, is_null, time_diff, from_microseconds, reset_timerfd,
    delta_is_null.
  replace (e =? 0) with false by (symmetry; apply Z.eqb_neq; lia). cbn [negb].
  rewrite int64_in_range, !bind_ret by (units; lia).
  destruct (Z.ltb_spec now e) as [Hlt|Hge].
  - replace (e - now =? 0) with false by (symmetry; apply Z.eqb_neq; lia).
    rewrite delta_to_timespec_pos, !bind_ret by (units; lia).
    rewrite check_true; [by rewrite bind_ret, Zplus_minus|].
    apply Z.leb_le, settime_accepts; [done | |]; units; Z.div_mod_to_equations; lia.
  - destruct (Z.eqb_spec (e - now) 0); [done|].
    rewrite delta_to_timespec_neg, !bind_ret by lia.
    destruct (Z.leb_spec 0 (settime (0, (e - now) * 1000))) as [Hs|]; [|done].
    pose proof (settime_einval settime Hsettime 0 ((e - now) * 1000) ltac:(lia)). lia.
Qed.

Lemma pool_ok_armed fl a p : pool_ok fl p -> pool_ok fl (set_armed a p).
Proof. intros [? ? ? ? ? ?]. by split. Qed.

Lemma reset_earliest_good fl now p :
  pool_ok fl p -> clock_ok now ->
  good (reset_earliest settime now p)
    (fun p' => armed_ok p' /\ exists a, p' = set_armed a p).
Proof.
  intros Hp Hn. unfold reset_earliest. destruct (timers_ p) as [|[e a] l] eqn:El.
  - cbn. unfold armed_ok. rewrite El. split; [done|]. exists (armed p). by destruct p.
  - destruct (po_live _ _ Hp e a) as (t & Ht & He); [rewrite El; apply list_elem_of_here|].
    destruct (po_heap _ _ Hp a t Ht) as ((Hex & _) & _).
    unfold deref. cbn [snd]. rewrite Ht, bind_ret, reset_spec by done.
    destruct (now <? expired_ t); cbn; [|by left]. unfold armed_ok. cbn. rewrite El.
    split; [by rewrite He | eauto].
Qed.

(** Membership in the set after an insertion or a removal. *)
Lemma perm_elem (x y : entry) l l' : l' ≡ₚ x :: l -> y ∈ l' <-> y = x \/ y ∈ l.
Proof. intros ->. apply elem_of_cons. Qed.

Lemma sizes_agree_iff p :
  sizes_agree p = true <-> length (timers_ p) = size (active_timers_ p).
Proof. unfold sizes_agree, zlen. rewrite Z.eqb_eq. lia. Qed.

(** Both sets with one more timer. *)
Lemma pool_ok_insert fl p a t l :
  pool_ok fl p -> heap p !! a = Some t -> (forall e, (e, a) ∉ timers_ p) -> a ∉ fl.*2 ->
  sorted l -> l ≡ₚ (expired_ t, a) :: timers_ p ->
  pool_ok fl (set_active ({[ (a, sequence_ t) ]} ∪ active_timers_ p) (set_timers l p)).
Proof.
  intros [Hs Hlive Hact Hsz [Hnd Hfl] Hh] Ht Hnew Hnf Hsl Hl.
  assert ((a, sequence_ t) ∉ active_timers_ p) as Hna.
  { rewrite Hact. intros (e & t' & Hin & _). by apply (Hnew e). }
  split; cbn.
  - done.
  - intros e b. rewrite (perm_elem _ _ _ _ Hl). intros [[= -> ->]|Hin]; eauto.
  - intros b s. rewrite elem_of_union, elem_of_singleton, Hact.
    setoid_rewrite (perm_elem _ _ _ _ Hl). split.
    + intros [[= -> ->]|(e & t' & ? & ? & ?)]; eauto 10.
    + intros (e & t' & [[= -> ->]|Hin] & Ht' & <-); [left; congruence | right; eauto 10].
  - apply sizes_agree_iff in Hsz. apply sizes_agree_iff. cbn.
    rewrite Hl, size_union, size_singleton by (by apply disjoint_singleton_l). cbn. lia.
  - split; [done|]. intros e b Hb. destruct (Hfl e b Hb) as [? Hnb]. split; [done|].
    intros e'. rewrite (perm_elem _ _ _ _ Hl). intros [[= -> ->]|?]; [|by eapply Hnb].
    apply Hnf. by apply (list_elem_of_fmap_2 snd) in Hb.
  - done.
Qed.

(** Saving a timer that is in neither set. *)
Lemma save_ok fl p a t :
  pool_ok fl p -> heap p !! a = Some t -> (forall e, (e, a) ∉ timers_ p) -> a ∉ fl.*2 ->
  exists l p', save a p = Ok (match timers_ p with [] => true | e :: _ => expired_ t <? e.1 end, p') /\
    p' = set_active ({[ (a, sequence_ t) ]} ∪ active_timers_ p) (set_timers l p) /\
    pool_ok fl p' /\
    match timers_ p with
    | [] => l = [(expired_ t, a)]
    | e :: _ => if expired_ t <? e.1 then exists k, l = (expired_ t, a) :: k
                else exists x k, x.1 = e.1 /\ l = x :: k
    end.
Proof.
  intros Hp Ht Hnew Hnf. pose proof Hp as [Hs _ Hact Hsz _ _].
  destruct (set_insert_spec (expired_ t, a) (timers_ p) Hs (Hnew _)) as (l & Ei & Hsl & Hl & k & Hk).
  pose proof (pool_ok_insert fl p a t l Hp Ht Hnew Hnf Hsl Hl) as Hok.
  exists l. eexists. split_and!; [| done | done |].
  - unfold save, deref. rewrite Hsz, Ht. cbn [check mbind outcome_bind]. rewrite Ei.
    cbn [check mbind outcome_bind]. rewrite bool_decide_eq_true_2.
    + cbn [check mbind outcome_bind]. by rewrite (po_sizes _ _ Hok).
    + rewrite Hact. intros (e & t' & Hin & _). by apply (Hnew e).
  - destruct Hk as [->|(y & k' & Ey & -> & Hyx)].
    + destruct (timers_ p) as [|e l'] eqn:El; [by apply Permutation_singleton_r in Hl|].
      destruct (Z.ltb_spec (expired_ t) e.1) as [|Hge]; [eauto|].
      exists (expired_ t, a), k. split; [|done]. cbn.
      apply StronglySorted_inv in Hsl as [_ Hall]. rewrite Forall_forall in Hall.
      assert (e ∈ k) as He.
      { assert (e ∈ (expired_ t, a) :: k) as Hin
          by (rewrite Hl; apply list_elem_of_further, list_elem_of_here).
        apply elem_of_cons in Hin as [->|?]; [|done]. destruct (Hnew (expired_ t)). apply list_elem_of_here. }
      specialize (Hall e He). unfold elt in Hall. cbn in Hall. lia.
    + rewrite Ey. destruct (Z.ltb_spec (expired_ t) y.1) as [Hlt|]; [|eauto].
      unfold elt in Hyx. cbn in Hyx. lia.
Qed.

(** What the operations of a callback change, [cs] being the timers it
    cancels: timers in flight stay in the heap; of the older timers exactly those
    not cancelled stay scheduled, unchanged; a cancelled timer in flight is
    remembered while callbacks run. *)
Record evolves (fl : list entry) (cs : list (Z * Z)) (p p' : TimerPool) : Prop := {
  ev_ran : ran p' = ran p;
  ev_seq : globalSequence p <= globalSequence p';
  ev_calling : calling_expired_timers_ p' = calling_expired_timers_ p;
  ev_flight : forall a, a ∈ fl.*2 -> heap p' !! a = heap p !! a;
  ev_active : forall a s, s < globalSequence p ->
    (a, s) ∈ active_timers_ p' <-> (a, s) ∈ active_timers_ p /\ (a, s) ∉ cs;
  ev_kept : forall a s, (a, s) ∈ active_timers_ p -> (a, s) ∉ cs -> heap p' !! a = heap p !! a;
  ev_canceling : calling_expired_timers_ p = true -> forall a s, a ∈ fl.*2 ->
    (a, s) ∈ canceling_timers_ p' <-> (a, s) ∈ canceling_timers_ p \/ (a, s) ∈ cs;
}.

Lemma evolves_refl fl p : evolves fl [] p p.
Proof. split; try done; try lia; intros; rewrite elem_of_nil; intuition. Qed.

Lemma active_seq fl p a s :
  pool_ok fl p -> (a, s) ∈ active_timers_ p -> s < globalSequence p.
Proof.
  intros Hp Ha. apply (po_active _ _ Hp) in Ha as (e & t & _ & Ht & <-).
  by apply (po_heap _ _ Hp) in Ht as (_ & _ & ?).
Qed.

Lemma evolves_trans fl cs1 cs2 p q r :
  pool_ok fl p -> evolves fl cs1 p q -> evolves fl cs2 q r -> evolves fl (cs1 ++ cs2) p r.
Proof.
  intros Hp [r1 s1 c1 f1 a1 k1 n1] [r2 s2 c2 f2 a2 k2 n2]. split.
  - congruence.
  - lia.
  - congruence.
  - intros a Ha. rewrite f2, f1 by done. done.
  - intros a s Hs. rewrite a2, a1, not_elem_of_app by lia. tauto.
  - intros a s Ha. rewrite not_elem_of_app. intros [H1 H2].
    rewrite (k2 a s), (k1 a s); try done. apply a1; [|done]. by eapply active_seq.
  - intros Hc a s Ha. rewrite n2, n1, elem_of_app by (done || congruence). tauto.
Qed.

Lemma evolves_armed fl cs p q x : evolves fl cs p q -> evolves fl cs p (set_armed x q).
Proof. intros [? ? ? ? ? ? ?]. by split. Qed.

Definition action_ok (x : action) : Prop :=
  match x with
  | Add e i now => 0 < e <= 2 ^ 52 /\ 0 <= i <= 2 ^ 51 /\ clock_ok now
  | Cancel _ _ now => clock_ok now
  end.

(** The timers an action cancels. *)
Definition cancelled (x : action) : list (Z * Z) :=
  match x with Add _ _ _ => [] | Cancel a s _ => [(a, s)] end.

Lemma pool_ok_new fl p a e i :
  pool_ok fl p -> heap p !! a = None -> 0 <= a < kUintptrMax ->
  0 < e <= 2 ^ 52 -> 0 <= i <= 2 ^ 51 ->
  pool_ok fl (new_timer a e i p) /\ (forall e', (e', a) ∉ timers_ p) /\ (a ∉ fl.*2) /\
  forall b, is_Some (heap p !! b) -> heap (new_timer a e i p) !! b = heap p !! b.
Proof.
  intros [Hs Hlive Hact Hsz [Hnd Hfl] Hh] Hnone Ha He Hi.
  assert (forall b, is_Some (heap p !! b) -> <[a := mkTimer e i (globalSequence p)]> (heap p) !! b
    = heap p !! b) as Hsame.
  { intros b Hb. rewrite lookup_insert_ne; [done|]. intros <-. rewrite Hnone in Hb. by destruct Hb. }
  assert (forall e', (e', a) ∉ timers_ p) as Hnt.
  { intros e' Hin. destruct (Hlive _ _ Hin) as (t & Ht & _). congruence. }
  assert (forall e' b, (e', b) ∈ timers_ p -> b <> a) as Hne by (intros e' b Hin ->; by eapply Hnt).
  split_and!; [|done| |done].
  - split; cbn; try done.
    + intros e' b Hin. rewrite lookup_insert_ne by (symmetry; by eapply Hne). eauto.
    + intros b s. rewrite Hact. split; intros (e' & t & Hin & Ht & Es); exists e', t; split_and!; try done;
        rewrite ?lookup_insert_ne in * by (symmetry; by eapply Hne); done.
    + split; [done|]. intros e' b Hb. destruct (Hfl e' b Hb) as [Hx Hy]. split; [|done].
      by rewrite Hsame.
    + intros b t [(<- & <-)|[Hnb Ht]]%lookup_insert_Some; cbn.
      * split_and!; try done; lia.
      * destruct (Hh b t Ht) as (? & ? & ?). split_and!; try done; lia.
  - intros ([e' b] & -> & Hin)%list_elem_of_fmap. destruct (Hfl e' b Hin) as [Hx _].
    cbn in Hnone. rewrite Hnone in Hx. by destruct Hx.
Qed.

Lemma create_timer_good fl p e i now :
  pool_ok fl p -> action_ok (Add e i now) ->
  good (create_timer settime alloc e i now p) (fun p' =>
    pool_ok fl p' /\ evolves fl [] p p' /\ (armed_ok p -> armed_ok p')).
Proof.
  intros Hp (He & Hi & Hn). unfold create_timer.
  destruct (alloc (heap p)) as [a|] eqn:Ealloc; [|by right].
  destruct (Halloc (heap p) a Ealloc) as [Hnone Ha].
  destruct (pool_ok_new fl p a e i Hp Hnone Ha He Hi) as (Hp1 & Hnt & Hnf & Hsame).
  set (p1 := new_timer a e i p) in *.
  destruct (save_ok fl p1 a (mkTimer e i (globalSequence p))) as (l & p2 & Esave & Ep2 & Hp2 & Hl);
    [done | by apply lookup_insert_eq | done | done |].
  unfold add_timer_in_own_loop. rewrite (po_sizes _ _ Hp1), Esave. cbn [check mbind outcome_bind expired_] in *.
  assert (heap p2 !! a = Some (mkTimer e i (globalSequence p))) as Ha2
    by (rewrite Ep2; apply lookup_insert_eq).
  assert (evolves fl [] p p2) as Hev.
  { rewrite Ep2. split; cbn; try done; try lia.
    - intros b Hb. apply Hsame. apply list_elem_of_fmap in Hb as ([e' b'] & -> & Hin).
      by destruct (po_flight _ _ Hp) as [_ Hfl]; destruct (Hfl e' b' Hin).
    - intros b s Hs. rewrite elem_of_union, elem_of_singleton, elem_of_nil.
      split; [intros [[= -> ->]|?]; [lia | tauto] | tauto].
    - intros b s Hb _. apply Hsame. apply (po_active _ _ Hp) in Hb as (e' & t & _ & -> & _). eauto.
    - intros _ b s _. rewrite elem_of_nil. tauto. }
  change (timers_ p1) with (timers_ p) in *.
  destruct (match timers_ p with [] => true | x :: _ => e <? x.1 end) eqn:Ech.
  - unfold deref. rewrite Ha2. cbn [mbind outcome_bind expired_]. rewrite reset_spec by done.
    destruct (now <? e); cbn; [|by left]. split_and!; [by apply pool_ok_armed | by apply evolves_armed |].
    intros _. unfold armed_ok. rewrite Ep2. cbn. destruct (timers_ p) as [|x k]; [by subst l|].
    rewrite Ech in Hl. destruct Hl as [k' ->]. done.
  - cbn. split_and!; try done. unfold armed_ok. rewrite Ep2. cbn.
    destruct (timers_ p) as [|x k]; [done|]. rewrite Ech in Hl. destruct Hl as (y & k' & Hy & ->).
    intros ->. by rewrite Hy.
Qed.

(** Both sets with one timer less. *)
Lemma pool_ok_erase fl p a t l :
  pool_ok fl p -> heap p !! a = Some t -> (expired_ t, a) ∈ timers_ p ->
  sorted l -> timers_ p ≡ₚ (expired_ t, a) :: l ->
  let q := set_heap (delete a (heap p)) (set_timers l p) in
  pool_ok fl (set_active (active_timers_ q ∖ {[ (a, sequence_ t) ]}) q).
Proof.
  intros [Hs Hlive Hact Hsz [Hnd Hfl] Hh] Ht Hin Hsl Hl q.
  assert (forall e b, (e, b) ∈ timers_ p -> b = a -> e = expired_ t) as Hone.
  { intros e b Hb ->. destruct (Hlive e a Hb) as (t' & Ht' & <-). congruence. }
  assert (NoDup (timers_ p)) as Hndt.
  { clear -Hs. induction Hs as [|x k Hk IH Hall]; [constructor|]. constructor; [|done].
    intros Hx. rewrite Forall_forall in Hall. by apply (elt_irrefl x), Hall. }
  assert (forall e, (e, a) ∉ l) as Hnl.
  { intros e He. rewrite Hl in Hndt. apply NoDup_cons in Hndt as [Hnx _]. apply Hnx.
    by rewrite <- (Hone e a) by (rewrite ?Hl; done || by apply list_elem_of_further). }
  assert (forall e b, (e, b) ∈ l <-> (e, b) ∈ timers_ p /\ b <> a) as Hml.
  { intros e b. rewrite (perm_elem _ _ _ _ Hl). split.
    - intros Hb. split; [by right|]. intros ->. by eapply Hnl.
    - intros [[[= -> ->]|?] ?]; done. }
  split; cbn; try done.
  - intros e b [Hb Hne]%Hml. rewrite lookup_delete_ne by done. auto.
  - intros b s. rewrite elem_of_difference, elem_of_singleton, Hact. split.
    + intros [(e & t' & Hb & Ht' & <-) Hx]. exists e, t'. rewrite Hml.
      assert (b <> a) by (intros ->; apply Hx; congruence).
      rewrite lookup_delete_ne by done. done.
    + intros (e & t' & [Hb Hne]%Hml & Ht' & <-). rewrite lookup_delete_ne in Ht' by done.
      split; [eauto 10 | congruence].
  - apply sizes_agree_iff in Hsz. apply sizes_agree_iff. cbn. rewrite Hl in Hsz. cbn in Hsz.
    rewrite size_difference, size_singleton; [lia|].
    rewrite singleton_subseteq_l, Hact. eauto 10.
  - split; [done|]. intros e b Hb. destruct (Hfl e b Hb) as [Hx Hy].
    assert (b <> a) by (intros ->; by eapply Hy). rewrite lookup_delete_ne by done.
    split; [done|]. intros e' [? ?]%Hml. by eapply Hy.
  - intros b t' [_ Hb]%lookup_delete_Some. auto.
Qed.

Lemma cancel_timer_good fl p a s now :
  pool_ok fl p -> clock_ok now ->
  good (cancel_timer_in_own_loop settime a s now p) (fun p' =>
    pool_ok fl p' /\ evolves fl [(a, s)] p p' /\ armed_ok p').
Proof.
  intros Hp Hn. unfold cancel_timer_in_own_loop. rewrite (po_sizes _ _ Hp). cbn [check mbind outcome_bind].
  apply (good_bind _ _ (fun q => pool_ok fl q /\ evolves fl [(a, s)] p q)).
  2: { intros q [Hq Hev]. rewrite (po_sizes _ _ Hq). cbn [check mbind outcome_bind].
       eapply good_mono; [by apply (reset_earliest_good fl)|].
       intros r [? [x ->]]. split_and!; [by apply pool_ok_armed | by apply evolves_armed | done]. }
  case_bool_decide as Hact.
  - apply (po_active _ _ Hp) in Hact as Hact'. destruct Hact' as (e & t & Hin & Ht & Hs).
    destruct (po_live _ _ Hp e a Hin) as (t' & Ht' & He). replace t' with t in * by congruence. subst e s.
    destruct (set_erase_spec (expired_ t, a) (timers_ p) (po_sorted _ _ Hp) Hin) as (l & El & Hsl & Hl).
    unfold deref. rewrite Ht. cbn [mbind outcome_bind]. rewrite El. cbn [check mbind outcome_bind Z.eqb].
    split; [by apply pool_ok_erase|].
    assert (a ∉ fl.*2) as Hnf.
    { intros ([e' b] & -> & Hb)%list_elem_of_fmap. destruct (po_flight _ _ Hp) as [_ Hfl].
      destruct (Hfl e' b Hb) as [_ Hno]. by eapply Hno. }
    split; cbn; try done; try lia.
    + intros b Hb. rewrite lookup_delete_ne; [done|]. by intros <-.
    + intros b s _. rewrite elem_of_difference, elem_of_singleton, list_elem_of_singleton. done.
    + intros b s Hb. rewrite list_elem_of_singleton. intros Hne. rewrite lookup_delete_ne; [done|].
      intros <-. apply Hne. apply (po_active _ _ Hp) in Hb as (? & t2 & _ & Ht2 & <-). congruence.
    + intros _ b s Hb. rewrite list_elem_of_singleton. split; [by left|].
      intros [?|[= -> ->]]; done.
  - destruct (calling_expired_timers_ p) eqn:Hcall; cbn.
    + destruct Hp as [? ? ? ? ? ?]. split; [by split|]. split; cbn; try done; try lia.
      * intros b s' _. rewrite list_elem_of_singleton. split; [|tauto].
        intros Hb. split; [done|]. intros [= -> ->]. done.
      * intros _ b s' _. rewrite elem_of_union, elem_of_singleton, list_elem_of_singleton. tauto.
    + split; [done|]. split; try done; try lia.
      * intros b s' _. rewrite list_elem_of_singleton. split; [|tauto].
        intros Hb. split; [done|]. intros [= -> ->]. done.
      * rewrite Hcall. done.
Qed.

Lemma run_action_good fl p x :
  pool_ok fl p -> action_ok x ->
  good (run_action settime alloc x p) (fun p' =>
    pool_ok fl p' /\ evolves fl (cancelled x) p p' /\ (armed_ok p -> armed_ok p')).
Proof.
  intros Hp Hx. destruct x as [e i now|a s now]; [by apply create_timer_good|].
  eapply good_mono; [by apply (cancel_timer_good fl)|]. intros q (? & ? & ?). done.
Qed.

Lemma run_actions_good fl p xs :
  pool_ok fl p -> Forall action_ok xs ->
  good (run_actions settime alloc xs p) (fun p' =>
    pool_ok fl p' /\ evolves fl (concat (map cancelled xs)) p p' /\ (armed_ok p -> armed_ok p')).
Proof.
  intros Hp Hxs. revert p Hp. induction Hxs as [|x xs Hx Hxs IH]; intros p Hp; cbn.
  { split_and!; [done | apply evolves_refl | done]. }
  eapply good_bind; [by apply (run_action_good fl)|]. intros q (Hq & Hev & Harm).
  eapply good_mono; [by apply IH|]. intros r (Hr & Hev' & Harm').
  split_and!; [done | by eapply evolves_trans | auto].
Qed.

(** *** [fill_expired_timers] *)

Definition seq_of (p : TimerPool) (a : Z) : Z :=
  match heap p !! a with Some t => sequence_ t | None => 0 end.
Definition id_of (p : TimerPool) (e : entry) : Z * Z := (e.2, seq_of p e.2).

Lemma erase_active_ok l p :
  NoDup l.*2 ->
  (forall e a, (e, a) ∈ l -> exists t, heap p !! a = Some t /\ (a, sequence_ t) ∈ active_timers_ p) ->
  exists A, erase_active l p = Ok (set_active A p) /\
    (size A + length l = size (active_timers_ p))%nat /\
    (forall a s, (a, s) ∈ A <-> (a, s) ∈ active_timers_ p /\ (a, s) ∉ id_of p <$> l).
Proof.
  revert p. induction l as [|[e a] l IH]; intros p Hnd Hl.
  { exists (active_timers_ p). split_and!; [by destruct p | cbn; lia |].
    intros. rewrite fmap_nil, elem_of_nil. tauto. }
  rewrite fmap_cons in Hnd. apply NoDup_cons in Hnd as [Hna Hnd].
  destruct (Hl e a (list_elem_of_here _ _)) as (t & Ht & Hin).
  cbn [erase_active snd]. unfold deref. rewrite Ht. cbn [mbind outcome_bind].
  rewrite bool_decide_eq_true_2 by done. cbn [check mbind outcome_bind].
  set (q := set_active _ p).
  destruct (IH q) as (A & -> & Hsz & HA); [done | |].
  { intros e' b Hb. destruct (Hl e' b (list_elem_of_further _ _ _ Hb)) as (t' & Ht' & Hin').
    exists t'. split; [done|]. cbn. rewrite elem_of_difference, elem_of_singleton.
    split; [done|]. intros [= -> _]. apply Hna. by apply (list_elem_of_fmap_2 snd) in Hb. }
  exists A. split_and!; [done | |].
  - cbn [q set_active active_timers_] in Hsz. rewrite size_difference, size_singleton in Hsz
      by (by apply singleton_subseteq_l). cbn.
    assert (0 < size (active_timers_ p))%nat; [|lia].
    destruct (size (active_timers_ p)) eqn:E0; [|lia].
    apply size_empty_inv in E0. apply E0 in Hin. by apply elem_of_empty in Hin.
  - intros b s. rewrite HA, fmap_cons, not_elem_of_cons. cbn.
    rewrite elem_of_difference, elem_of_singleton. unfold id_of at 2, seq_of. cbn. rewrite Ht. tauto.
Qed.

Definition due (time : Z) (p : TimerPool) : list entry := filter (fun e => e.1 <= time) (timers_ p).

(** Due entries come first in the ordered set. *)
Lemma filter_split (P : entry -> Prop) `{forall x, Decision (P x)} l k :
  Forall P l -> Forall (fun x => ~ P x) k -> filter P (l ++ k) = l.
Proof.
  intros Hl Hk. induction Hl as [|x l Hx Hl IH]; cbn [app].
  - induction Hk as [|x k Hx Hk IH]; [done|]. by rewrite filter_cons_False.
  - by rewrite filter_cons_True, IH.
Qed.

Lemma elt_sentry fl p time e a :
  pool_ok fl p -> (e, a) ∈ timers_ p -> elt (e, a) (time, kUintptrMax) <-> e <= time.
Proof.
  intros Hp Hin. destruct (po_live _ _ Hp e a Hin) as (t & Ht & _).
  destruct (po_heap _ _ Hp a t Ht) as (_ & Ha & _). unfold elt. cbn. lia.
Qed.

(** The addresses of the ordered set are distinct. *)
Lemma timers_addresses fl p : pool_ok fl p -> NoDup (timers_ p).*2.
Proof.
  intros Hp. apply NoDup_fmap_2_strong.
  - intros [e a] [e' a'] H1 H2 E. cbn in E. subst a'.
    destruct (po_live _ _ Hp e a H1) as (t & Ht & <-). destruct (po_live _ _ Hp e' a H2) as (t' & Ht' & <-).
    congruence.
  - pose proof (po_sorted _ _ Hp) as Hs. clear Hp. induction Hs as [|x k Hk IH Hall]; [constructor|].
    constructor; [|done]. intros Hx. rewrite Forall_forall in Hall. by apply (elt_irrefl x), Hall.
Qed.

Lemma active_of_timers fl p e a :
  pool_ok fl p -> (e, a) ∈ timers_ p ->
  exists t, heap p !! a = Some t /\ expired_ t = e /\ (a, sequence_ t) ∈ active_timers_ p.
Proof.
  intros Hp Hin. destruct (po_live _ _ Hp e a Hin) as (t & Ht & He). exists t.
  split_and!; try done. apply (po_active _ _ Hp). eauto 10.
Qed.

Lemma fill_expired_ok p time :
  pool_ok [] p ->
  exists A rest, let q := set_active A (set_timers rest p) in
    fill_expired_timers time p = Ok (due time p, q) /\ pool_ok (due time p) q /\
    timers_ p = due time p ++ rest /\ Forall (fun e => time < e.1) rest /\
    (forall a s, (a, s) ∈ A <-> (a, s) ∈ active_timers_ p /\ (a, s) ∉ id_of p <$> due time p).
Proof.
  intros Hp. unfold fill_expired_timers. rewrite (po_sizes _ _ Hp). cbn [check mbind outcome_bind].
  destruct (lower_bound_spec (time, kUintptrMax) (timers_ p) (po_sorted _ _ Hp))
    as (l & rest & -> & El & Hl & Hr).
  assert (Forall (fun e => e.1 <= time) l) as Hl'.
  { rewrite Forall_forall in Hl |- *. intros [e a] Hin. cbn.
    apply (elt_sentry [] p time e a); [done | rewrite El; apply elem_of_app; by left | auto]. }
  assert (Forall (fun e => time < e.1) rest) as Hr'.
  { rewrite Forall_forall in Hr |- *. intros [e a] Hin. cbn.
    specialize (Hr _ Hin). rewrite (elt_sentry [] p time e a Hp) in Hr; [lia|].
    rewrite El. apply elem_of_app. by right. }
  assert (due time p = l) as Hdue.
  { unfold due. rewrite El. apply filter_split; [done|].
    eapply Forall_impl; [exact Hr'|]. cbn. lia. }
  rewrite Hdue. rewrite check_true.
  2: { destruct Hr' as [|e k He _]; [done|]. by apply Z.ltb_lt. }
  cbn [check mbind outcome_bind].
  pose proof (timers_addresses _ _ Hp) as Hnd. rewrite El, fmap_app in Hnd.
  apply NoDup_app in Hnd as (Hnd1 & Hdisj & Hnd2).
  destruct (erase_active_ok l (set_timers rest p)) as (A & -> & Hsz & HA); [done| |].
  { intros e a Hin. destruct (active_of_timers [] p e a Hp) as (t & ? & _ & ?);
      [rewrite El; apply elem_of_app; by left | eauto]. }
  cbn [check mbind outcome_bind]. set (q := set_active A (set_timers rest p)).
  assert (forall x, x ∈ timers_ p <-> x ∈ l \/ x ∈ rest) as Hmem by (intros x; by rewrite El, elem_of_app).
  assert (forall e e' a, (e, a) ∈ l -> (e', a) ∉ rest) as Hno.
  { intros e e' a H1 H2. apply (Hdisj a);
      [by apply (list_elem_of_fmap_2 snd) in H1 | by apply (list_elem_of_fmap_2 snd) in H2]. }
  assert (pool_ok l q) as Hq.
  { pose proof Hp as [Hs Hlive Hact Hsz0 _ Hh]. split; cbn; try done.
    - rewrite El in Hs. by apply (sorted_app l rest).
    - intros e a Hin. apply Hlive, Hmem. by right.
    - intros a s. rewrite HA. cbn. rewrite Hact. split.
      + intros [(e & t & Hin & Ht & <-) Hni]. exists e, t. split_and!; try done.
        apply Hmem in Hin as [Hin|?]; [|done]. destruct Hni. apply list_elem_of_fmap.
        exists (e, a). split; [|done]. unfold id_of, seq_of. cbn. by rewrite Ht.
      + intros (e & t & Hin & Ht & <-). split; [exists e, t; rewrite Hmem; auto|].
        intros ([e' b] & [= -> _] & Hb)%list_elem_of_fmap. by eapply Hno.
    - apply sizes_agree_iff in Hsz0. apply sizes_agree_iff. cbn in *.
      rewrite El, length_app in Hsz0. lia.
    - split; [done|]. intros e a Hin. split; [|intros e'; by eapply Hno].
      destruct (Hlive e a) as (t & -> & _); [apply Hmem; by left | eauto]. }
  rewrite check_true by apply (po_sizes _ _ Hq). cbn [mbind outcome_bind].
  exists A, rest. split_and!; done.
Qed.

(** *** The callbacks *)

Definition set_ran (r : list (Z * Z)) (p : TimerPool) : TimerPool :=
  mkPool (heap p) (timers_ p) (active_timers_ p) (canceling_timers_ p)
    (calling_expired_timers_ p) (armed p) (globalSequence p) r.

Lemma pool_ok_ran fl r p : pool_ok fl p -> pool_ok fl (set_ran r p).
Proof. intros [? ? ? ? ? ?]. by split. Qed.

Lemma evolves_ran fl cs p q r : evolves fl cs p q -> evolves fl cs (set_ran r p) (set_ran r q).
Proof. intros [? ? ? ? ? ? ?]. by split. Qed.

(** Everything the callbacks of the timers in [l] cancel. *)
Definition cancels (script : Z -> list action) (p : TimerPool) (l : list entry) : list (Z * Z) :=
  concat (map (fun e => concat (map cancelled (script (seq_of p e.2)))) l).

Lemma run_expired_good fl script l p :
  pool_ok fl p -> (forall s, Forall action_ok (script s)) -> l.*2 ⊆ fl.*2 ->
  good (run_expired settime alloc script l p) (fun p' =>
    pool_ok fl p' /\ ran p' = ran p ++ (id_of p <$> l) /\
    evolves fl (cancels script p l) (set_ran (ran p') p) p').
Proof.
  intros Hp Hscript. revert p Hp. induction l as [|[e a] l IH]; intros p Hp Hsub.
  { cbn. split_and!; [done | by rewrite app_nil_r |]. destruct p. apply evolves_refl. }
  assert (a ∈ fl.*2) as Ha by (apply Hsub; cbn; apply list_elem_of_here).
  assert (exists t, heap p !! a = Some t) as [t Ht].
  { apply list_elem_of_fmap in Ha as ([e' b] & -> & Hb). destruct (po_flight _ _ Hp) as [_ Hfl].
    by destruct (Hfl e' b Hb) as [[t ?] _]; exists t. }
  cbn [run_expired snd]. unfold deref. rewrite Ht. cbn [mbind outcome_bind].
  fold (set_ran (ran p ++ [(a, sequence_ t)]) p).
  set (p1 := set_ran (ran p ++ [(a, sequence_ t)]) p).
  eapply good_bind; [apply (run_actions_good fl); [by apply pool_ok_ran | done]|].
  intros q (Hq & Hev & _). eapply good_mono; [apply IH; [done|]|].
  { intros b Hb. apply Hsub. cbn. by apply list_elem_of_further. }
  intros r (Hr & Hran & Hev'). split; [done|].
  assert (forall b, b ∈ fl.*2 -> seq_of q b = seq_of p b) as Hseq.
  { intros b Hb. unfold seq_of. by rewrite (ev_flight _ _ _ _ Hev b Hb). }
  assert (id_of q <$> l = id_of p <$> l) as Hids.
  { apply list_fmap_ext. intros i [e' b] Hi. unfold id_of. cbn. rewrite Hseq; [done|].
    apply Hsub. apply list_elem_of_further.
    apply (list_elem_of_fmap_2 snd l (e', b)). by eapply list_elem_of_lookup_2. }
  assert (cancels script q l = cancels script p l) as Hcs.
  { unfold cancels. f_equal. apply map_ext_in. intros [e' b] Hin. cbn. rewrite Hseq; [done|].
    apply Hsub. apply list_elem_of_further.
    apply (list_elem_of_fmap_2 snd l (e', b)). by apply list_elem_of_In. }
  split.
  - rewrite Hran, Hids, (ev_ran _ _ _ _ Hev). cbn [p1 set_ran ran]. rewrite <- app_assoc. cbn.
    unfold id_of at 2, seq_of. cbn. by rewrite Ht.
  - unfold cancels. cbn [map concat]. fold (cancels script p l). rewrite <- Hcs.
    cbn [snd]. replace (seq_of p a) with (sequence_ t) by (unfold seq_of; by rewrite Ht).
    eapply evolves_trans; [by apply pool_ok_ran | |exact Hev'].
    exact (evolves_ran fl _ p1 q (ran r) Hev).
Qed.

(** *** [update] *)

(** The timer taken back from flight: deleted, or with a new expiry. *)
Lemma pool_ok_land fl p e a h' :
  pool_ok ((e, a) :: fl) p ->
  (forall b, b <> a -> h' !! b = heap p !! b) ->
  (forall t, h' !! a = Some t -> timer_ok t /\ sequence_ t < globalSequence p) ->
  pool_ok fl (set_heap h' p) /\ (forall e', (e', a) ∉ timers_ p) /\ a ∉ fl.*2.
Proof.
  intros [Hs Hlive Hact Hsz [Hnd Hfl] Hh] Hsame Ha.
  rewrite fmap_cons in Hnd. apply NoDup_cons in Hnd as [Hna Hnd]. cbn in Hna.
  destruct (Hfl e a (list_elem_of_here _ _)) as [[t0 Ht0] Hnt].
  assert (forall e' b, (e', b) ∈ timers_ p -> b <> a) as Hne by (intros e' b Hin ->; by eapply Hnt).
  split_and!; [|done|done]. split; cbn; try done.
  - intros e' b Hin. rewrite Hsame by (by eapply Hne). eauto.
  - intros b s. rewrite Hact. split; intros (e' & t & Hin & Ht & Es); exists e', t; split_and!; try done;
      rewrite Hsame in * by (by eapply Hne); done.
  - split; [done|]. intros e' b Hb.
    destruct (Hfl e' b (list_elem_of_further _ _ _ Hb)) as [Hx Hy]. split; [|done].
    rewrite Hsame; [done|]. intros ->. apply Hna. by apply (list_elem_of_fmap_2 snd) in Hb.
  - intros b t Ht. destruct (decide (b = a)) as [->|Hne'].
    + destruct (Ha t Ht) as [? ?]. destruct (Hh a t0 Ht0) as (_ & ? & _). done.
    + rewrite Hsame in Ht by done. auto.
Qed.

(** Whether [update] schedules the timer at [a] again. *)
Definition restarts (p : TimerPool) (a : Z) (t : Timer) : bool :=
  repeat t && bool_decide ((a, sequence_ t) ∉ canceling_timers_ p).

Definition restarted (time : Z) (t : Timer) : Timer :=
  mkTimer (time + interval_ t) (interval_ t) (sequence_ t).

(** One timer of [update]: [p'] is the pool after it. *)
Lemma update_step_ok time e a l p t :
  pool_ok ((e, a) :: l) p -> clock_ok time -> heap p !! a = Some t ->
  exists p', update_loop time ((e, a) :: l) p = update_loop time l p' /\ pool_ok l p' /\
    ran p' = ran p /\ globalSequence p' = globalSequence p /\ armed p' = armed p /\
    calling_expired_timers_ p' = calling_expired_timers_ p /\
    canceling_timers_ p' = canceling_timers_ p /\
    active_timers_ p' = (if restarts p a t then {[ (a, sequence_ t) ]} else ∅) ∪ active_timers_ p /\
    heap p' = (if restarts p a t then <[a := restarted time t]> else delete a) (heap p).
Proof.
  intros Hp [Htm0 Htm1] Ht.
  destruct (po_heap _ _ Hp a t Ht) as ([Hex Hint] & Ha & Hseq).
  cbn [update_loop snd]. unfold deref. rewrite Ht, bind_ret. fold (restarts p a t).
  destruct (restarts p a t) eqn:Er.
  - apply andb_true_iff in Er as [Hrep _]. unfold restart. rewrite Hrep. unfold time_add.
    unfold repeat, delta_is_null in Hrep. apply negb_true_iff, Z.eqb_neq in Hrep.
    rewrite int64_in_range, !bind_ret by (units; lia). fold (restarted time t).
    destruct (pool_ok_land l p e a (<[a := restarted time t]> (heap p))) as (Hp1 & Hnt & Hnf); [done | | |].
    { intros b Hb. by rewrite lookup_insert_ne. }
    { intros t'. rewrite lookup_insert_eq. intros [= <-]. unfold timer_ok. cbn. lia. }
    destruct (save_ok l _ a (restarted time t) Hp1) as (k & p2 & -> & Ep2 & Hp2 & _);
      [apply lookup_insert_eq | done | done |].
    rewrite bind_ret. exists p2. subst p2. by split_and!.
  - destruct (pool_ok_land l p e a (delete a (heap p))) as (Hp1 & Hnt & Hnf); [done | | |].
    { intros b Hb. by rewrite lookup_delete_ne. }
    { intros t'. by rewrite lookup_delete_eq. }
    eexists. split_and!; try done. by rewrite union_empty_l_L.
Qed.

Lemma update_loop_ok time l p :
  pool_ok l p -> clock_ok time ->
  exists p', update_loop time l p = Ok p' /\ pool_ok [] p' /\ ran p' = ran p /\
    globalSequence p' = globalSequence p /\ armed p' = armed p /\
    calling_expired_timers_ p' = calling_expired_timers_ p /\
    (forall a s, (a, s) ∈ active_timers_ p' <-> (a, s) ∈ active_timers_ p \/
       exists t, a ∈ l.*2 /\ heap p !! a = Some t /\ sequence_ t = s /\ restarts p a t = true) /\
    (forall a, a ∉ l.*2 -> heap p' !! a = heap p !! a) /\
    (forall a t, a ∈ l.*2 -> heap p !! a = Some t ->
       heap p' !! a = if restarts p a t then Some (restarted time t) else None).
Proof.
  intros Hp Htime. revert p Hp. induction l as [|[e a] l IH]; intros p Hp.
  { exists p. split_and!; try done; intros; cbn in *; [|by apply elem_of_nil in H].
    split; [tauto|]. intros [?|(t & Hn & _)]; [done | by apply elem_of_nil in Hn]. }
  destruct (po_flight _ _ Hp) as [Hnd Hfl].
  destruct (Hfl e a (list_elem_of_here _ _)) as [[t Ht] _].
  destruct (po_heap _ _ Hp a t Ht) as ([Hex Hint] & Ha & Hseq).
  rewrite fmap_cons in Hnd. apply NoDup_cons in Hnd as [Hna Hnd]. cbn [snd] in Hna.
  destruct (update_step_ok time e a l p t Hp Htime Ht)
    as (q & -> & Hq & Er & Eg & Ea & Ec & En & Eact & Eh).
  assert (forall b, b <> a -> heap q !! b = heap p !! b) as Hoth.
  { intros b Hb. rewrite Eh. destruct (restarts p a t); [by rewrite lookup_insert_ne | by rewrite lookup_delete_ne]. }
  assert (forall b, b ∈ l.*2 -> b <> a) as Hne by (by intros b Hb ->).
  destruct (IH q Hq) as (r & -> & Hr & Er' & Eg' & Ea' & Ec' & Hact & Hout & Hin).
  exists r. split_and!; try congruence; try done.
  - intros b s. rewrite Hact, Eact, elem_of_union. unfold restarts at 2. rewrite En. fold (restarts p).
    setoid_rewrite elem_of_cons. split.
    + intros [[H|?]|(t' & Hb & Ht' & <- & Hre)]; [| by left |].
      * right. destruct (restarts p a t) eqn:Hre; [|by apply elem_of_empty in H].
        apply elem_of_singleton in H as [= -> ->]. exists t. split_and!; try done. by left.
      * right. exists t'. rewrite Hoth in Ht' by auto. split_and!; try done. by right.
    + intros [?|(t' & [->|Hb] & Ht' & <- & Hre)]; [by left; right | |].
      * cbn in Ht', Hre. rewrite Ht in Ht'. injection Ht' as <-. rewrite Hre.
        left. left. by apply elem_of_singleton.
      * right. exists t'. rewrite Hoth by auto. done.
  - intros b Hb. rewrite fmap_cons, not_elem_of_cons in Hb. destruct Hb as [? ?].
    rewrite Hout by done. by apply Hoth.
  - intros b t'. rewrite fmap_cons, elem_of_cons. intros [->|Hb] Ht'.
    + cbn in *. rewrite Ht in Ht'. injection Ht' as <-. rewrite Hout, Eh by done.
      destruct (restarts p a t); [apply lookup_insert_eq | apply lookup_delete_eq].
    + rewrite <- Hoth in Ht' by auto. rewrite (Hin b t') by done. unfold restarts. by rewrite En.
Qed.

(** *** [handle_read] *)

(** What a round at time [curr] that cancels [cs] makes of a scheduled timer. *)
Definition after_round (curr : Z) (cs : list (Z * Z)) (a : Z) (t : Timer) : option Timer :=
  if bool_decide ((a, sequence_ t) ∈ cs) then None
  else if curr <? expired_ t then Some t
  else if repeat t then Some (restarted curr t) else None.

(** [p'] is [p] after that round; timers created by the callbacks aside. *)
Record round (curr : Z) (cs : list (Z * Z)) (p p' : TimerPool) : Prop := {
  rd_seq : globalSequence p <= globalSequence p';
  rd_old : forall a s, s < globalSequence p -> (a, s) ∈ active_timers_ p' -> (a, s) ∈ active_timers_ p;
  rd_gone : forall a s t, (a, s) ∈ active_timers_ p -> heap p !! a = Some t ->
    after_round curr cs a t = None -> (a, s) ∉ active_timers_ p';
  rd_next : forall a s t t', (a, s) ∈ active_timers_ p -> heap p !! a = Some t ->
    after_round curr cs a t = Some t' -> (a, s) ∈ active_timers_ p' /\ heap p' !! a = Some t';
}.

Lemma pool_ok_flags fl s b p : pool_ok fl p -> pool_ok fl (set_canceling s (set_calling b p)).
Proof. intros [? ? ? ? ? ?]. by split. Qed.
Lemma pool_ok_calling fl b p : pool_ok fl p -> pool_ok fl (set_calling b p).
Proof. intros [? ? ? ? ? ?]. by split. Qed.

Lemma due_iff time p a s t :
  pool_ok [] p -> (a, s) ∈ active_timers_ p -> heap p !! a = Some t ->
  sequence_ t = s /\ ((a, s) ∈ id_of p <$> due time p <-> expired_ t <= time) /\
  (a ∈ (due time p).*2 <-> expired_ t <= time).
Proof.
  intros Hp Ha Ht. apply (po_active _ _ Hp) in Ha as (e & t' & Hin & Ht' & <-).
  rewrite Ht in Ht'. injection Ht' as <-.
  destruct (po_live _ _ Hp e a Hin) as (t' & Ht' & <-). rewrite Ht in Ht'. injection Ht' as <-.
  split; [done|]. unfold due.
  assert (forall e', (e', a) ∈ timers_ p -> e' = expired_ t) as Hone.
  { intros e' He. destruct (po_live _ _ Hp e' a He) as (t' & Ht' & <-). congruence. }
  split; rewrite list_elem_of_fmap; split.
  - intros ([e' b] & Hid & [Hle Hb]%list_elem_of_filter). unfold id_of in Hid. cbn in *.
    injection Hid as <- _. by rewrite <- (Hone e' Hb).
  - intros Hle. exists (expired_ t, a). unfold id_of, seq_of. cbn. rewrite Ht. split; [done|].
    by apply list_elem_of_filter.
  - intros ([e' b] & -> & [Hle Hb]%list_elem_of_filter). cbn in *. by rewrite <- (Hone e' Hb).
  - intros Hle. exists (expired_ t, a). split; [done|]. by apply list_elem_of_filter.
Qed.

Lemma round_end curr cs p A rest p1 :
  let q := set_canceling ∅ (set_calling true (set_active A (set_timers rest p))) in
  pool_ok [] p -> clock_ok curr ->
  (forall a s, (a, s) ∈ A <-> (a, s) ∈ active_timers_ p /\ (a, s) ∉ id_of p <$> due curr p) ->
  pool_ok (due curr p) p1 -> evolves (due curr p) cs (set_ran (ran p1) q) p1 ->
  exists p2, update_loop curr (due curr p) (set_calling false p1) = Ok p2 /\ pool_ok [] p2 /\
    ran p2 = ran p1 /\ globalSequence p2 = globalSequence p1 /\ round curr cs p p2.
Proof.
  intros q Hp Hcurr HA Hp1 [_ Hseq _ Hfl Hact Hkept Hcan]. cbn in Hseq, Hfl, Hact, Hkept, Hcan.
  specialize (Hcan eq_refl).
  destruct (update_loop_ok curr (due curr p) (set_calling false p1))
    as (p2 & E2 & Hp2 & Eran & Egs & _ & _ & Hact2 & Hout & Hin); [by apply pool_ok_calling | done |].
  cbn in Hact2, Hout, Hin. exists p2. split_and!; try done.
  assert (forall a t, a ∈ (due curr p).*2 ->
    restarts (set_calling false p1) a t = repeat t && bool_decide ((a, sequence_ t) ∉ cs)) as Hre.
  { intros a t Ha. unfold restarts. f_equal. apply bool_decide_ext. cbn.
    rewrite Hcan by done. rewrite elem_of_empty. tauto. }
  split.
  - rewrite Egs. exact Hseq.
  - intros a s Hs [Ha|(t & Ha & Ht & <- & _)]%Hact2.
    + apply Hact in Ha as [Ha _]; [|done]. by apply HA in Ha as [? _].
    + rewrite Hfl in Ht by done. apply (po_active _ _ Hp).
      apply list_elem_of_fmap in Ha as ([e b] & -> & [_ Hb]%list_elem_of_filter). cbn in *. eauto.
  - intros a s t Ha Ht Haft H2.
    destruct (due_iff curr p a s t Hp Ha Ht) as (<- & Hid & Hd).
    pose proof (active_seq _ _ _ _ Hp Ha) as Hs. unfold after_round in Haft.
    apply Hact2 in H2 as [H2|(t' & Hdue & Ht' & _ & Hr)].
    + apply Hact in H2 as [H2 Hnc]; [|done]. apply HA in H2 as [_ Hnd]. rewrite Hid in Hnd.
      rewrite bool_decide_eq_false_2 in Haft by done. rewrite (proj2 (Z.ltb_lt _ _)) in Haft by lia. done.
    + rewrite Hfl, Ht in Ht' by done. injection Ht' as <-. rewrite Hre in Hr by done.
      apply andb_true_iff in Hr as [Hr Hnc%bool_decide_eq_true]. apply Hd in Hdue.
      rewrite bool_decide_eq_false_2, Hr, (proj2 (Z.ltb_ge _ _)) in Haft by (done || lia). done.
  - intros a s t t' Ha Ht Haft.
    destruct (due_iff curr p a s t Hp Ha Ht) as (<- & Hid & Hd).
    pose proof (active_seq _ _ _ _ Hp Ha) as Hs. unfold after_round in Haft.
    case_bool_decide as Hnc; [done|]. destruct (Z.ltb_spec curr (expired_ t)) as [Hlt|Hle].
    + injection Haft as <-. assert ((a, sequence_ t) ∈ A) as HAa by (apply HA; rewrite Hid; split; [done | lia]).
      rewrite Hout by (rewrite Hd; lia). rewrite (Hkept a (sequence_ t)) by done.
      split; [|done]. apply Hact2. left. by apply Hact.
    + destruct (repeat t) eqn:Hr; [|done]. injection Haft as <-.
      assert (a ∈ (due curr p).*2) as Hdue by (by apply Hd).
      assert (heap p1 !! a = Some t) as Ht1 by (rewrite Hfl by done; done).
      assert (restarts (set_calling false p1) a t = true) as Hrs.
      { rewrite Hre, Hr by done. cbn. by apply bool_decide_eq_true_2. }
      split; [apply Hact2; right; eauto 10|]. by rewrite (Hin a t Hdue Ht1), Hrs.
Qed.

(** A round up to the final [reset]: the callbacks run, then [p2] is reached. *)
Lemma handle_read_good script curr now p :
  pool_ok [] p -> clock_ok curr -> clock_ok now -> (forall s, Forall action_ok (script s)) ->
  good (handle_read settime alloc script 8 curr now p) (fun p' =>
    pool_ok [] p' /\ armed_ok p' /\ ran p' = ran p ++ (id_of p <$> due curr p) /\
    round curr (cancels script p (due curr p)) p p').
Proof.
  intros Hp Hcurr Hnow Hscript. unfold handle_read. rewrite (po_sizes _ _ Hp), check_true, bind_ret by done.
  destruct (fill_expired_ok p curr Hp) as (A & rest & -> & Hq & _ & _ & HA).
  cbn [negb Z.eqb Pos.eqb]. rewrite bind_ret.
  eapply good_bind.
  { apply (run_expired_good (due curr p)); [by apply pool_ok_flags | done | done]. }
  intros p1 (Hp1 & Hran & Hev). unfold update.
  rewrite (po_sizes _ _ (pool_ok_calling _ false _ Hp1)), check_true, bind_ret by done.
  destruct (round_end curr _ p A rest p1 Hp Hcurr HA Hp1 Hev) as (p2 & -> & Hp2 & Hran2 & _ & Hrd).
  rewrite bind_ret. eapply good_mono; [by apply (reset_earliest_good [])|].
  intros p' [Harm [x ->]]. split_and!; [by apply pool_ok_armed | done | cbn; by rewrite Hran2, Hran |].
  destruct Hrd. by split.
Qed.

(** *** Sequences of operations *)

(** What the loop does to its pool: an operation called outside the timer
    callbacks, or a round of [handle_read]. *)
Inductive pool_op : Type :=
  | Act (x : action)
  | Round (script : Z -> list action) (n curr now : Z).

Definition run_op (o : pool_op) (p : TimerPool) : outcome TimerPool :=
  match o with
  | Act x => run_action settime alloc x p
  | Round script n curr now => handle_read settime alloc script n curr now p
  end.

Fixpoint run_ops (l : list pool_op) (p : TimerPool) : outcome TimerPool :=
  match l with
  | [] => Ok p
  | o :: l => p ← run_op o p; run_ops l p
  end.

Definition op_ok (o : pool_op) : Prop :=
  match o with
  | Act x => action_ok x
  | Round script _ curr now =>
      clock_ok curr /\ clock_ok now /\ forall s, Forall action_ok (script s)
  end.

Definition pool0 : TimerPool := mkPool ∅ [] ∅ ∅ false None 0 [].

Lemma pool0_ok : pool_ok [] pool0.
Proof.
  split; cbn; try done.
  - constructor.
  - intros e a Hin. by apply elem_of_nil in Hin.
  - intros a s. rewrite elem_of_empty. split; [done|].
    intros (e & t & Hin & _). by apply elem_of_nil in Hin.
  - split; [constructor|]. intros e a Hin. by apply elem_of_nil in Hin.
Qed.

(** A timer that is not scheduled and was created before. *)
Definition inactive (x : Z * Z) (p : TimerPool) : Prop :=
  (x ∉ active_timers_ p) /\ x.2 < globalSequence p.

Definition ran_since (x : Z * Z) (p p' : TimerPool) : Prop :=
  exists new, ran p' = ran p ++ new /\ x ∉ new.

Lemma run_op_good o p :
  pool_ok [] p -> armed_ok p -> op_ok o ->
  good (run_op o p) (fun p' => pool_ok [] p' /\ armed_ok p' /\
    forall x, inactive x p -> inactive x p' /\ ran_since x p p').
Proof.
  intros Hp Harm Ho. destruct o as [x|script n curr now]; cbn [run_op].
  - eapply good_mono; [by apply (run_action_good [])|]. intros q (Hq & [? ? ? ? Hact ? ?] & Harm').
    split_and!; [done | auto |]. intros [a s] [Hn Hs]. cbn in Hs. split.
    + split; [rewrite Hact by done; tauto | cbn; lia].
    + exists []. rewrite app_nil_r. split; [done | apply not_elem_of_nil].
  - destruct Ho as (Hcurr & Hnow & Hscript). destruct (Z.eqb_spec n 8) as [->|Hn8].
    2: { unfold handle_read. rewrite (po_sizes _ _ Hp), check_true, bind_ret by done.
         rewrite (proj2 (Z.eqb_neq _ _)) by done. cbn. split_and!; [done.. |].
         intros x Hx. split; [done|]. exists []. rewrite app_nil_r. split; [done | apply not_elem_of_nil]. }
    eapply good_mono; [by apply handle_read_good|]. intros q (Hq & Harm' & Hran & Hrd).
    split_and!; [done..|]. intros [a s] [Hn Hs]. cbn in Hs. split.
    + split; [|cbn; pose proof (rd_seq _ _ _ _ Hrd); lia].
      intros Ha. apply Hn. by eapply rd_old.
    + eexists. split; [done|]. intros ([e b] & Hid & [_ Hb]%list_elem_of_filter)%list_elem_of_fmap.
      apply Hn. destruct (po_live _ _ Hp e b Hb) as (t & Ht & _).
      rewrite Hid. unfold id_of, seq_of. cbn. rewrite Ht. apply (po_active _ _ Hp). eauto.
Qed.

Lemma run_ops_good l p :
  pool_ok [] p -> armed_ok p -> Forall op_ok l ->
  good (run_ops l p) (fun p' => pool_ok [] p' /\ armed_ok p' /\
    forall x, inactive x p -> inactive x p' /\ ran_since x p p').
Proof.
  intros Hp Harm Hl. revert p Hp Harm. induction Hl as [|o l Ho Hl IH]; intros p Hp Harm; cbn.
  { split_and!; [done..|]. intros x Hx. split; [done|]. exists [].
    rewrite app_nil_r. split; [done | apply not_elem_of_nil]. }
  eapply good_bind; [by apply run_op_good|]. intros q (Hq & Harmq & Hiq).
  eapply good_mono; [by apply IH|]. intros r (Hr & Harmr & Hir). split_and!; [done..|].
  intros x Hx. destruct (Hiq x Hx) as [Hxq (n1 & E1 & H1)]. destruct (Hir x Hxq) as [Hxr (n2 & E2 & H2)].
  split; [done|]. exists (n1 ++ n2). rewrite E2, E1, app_assoc. split; [done|].
  apply not_elem_of_app. done.
Qed.

(** *** The final [reset] of a round without other pool operations *)

Lemma reset_earliest_late now p :
  pool_ok [] p -> clock_ok now ->
  reset_earliest settime now p = Fault late <->
  exists a s t, (a, s) ∈ active_timers_ p /\ heap p !! a = Some t /\ expired_ t <= now.
Proof.
  intros Hp Hn. unfold reset_earliest. destruct (timers_ p) as [|[e a] l] eqn:El.
  - split; [done|]. intros (a & s & t & Ha & _).
    apply (po_active _ _ Hp) in Ha as (e & t' & Hin & _). rewrite El in Hin. by apply elem_of_nil in Hin.
  - destruct (po_live _ _ Hp e a) as (t & Ht & He); [rewrite El; apply list_elem_of_here|].
    destruct (po_heap _ _ Hp a t Ht) as ((Hex & _) & _).
    unfold deref. cbn [snd]. rewrite Ht, bind_ret, reset_spec by done.
    destruct (Z.ltb_spec now (expired_ t)) as [Hlt|Hle]; split; try done.
    + intros (b & s & t' & Hb & Ht' & Hle). exfalso.
      apply (po_active _ _ Hp) in Hb as (e' & t2 & Hin & Ht2 & _).
      destruct (po_live _ _ Hp e' b Hin) as (t3 & Ht3 & <-).
      assert (t3 = t') as -> by congruence. rewrite El in Hin.
      pose proof (po_sorted _ _ Hp) as Hs. rewrite El in Hs. apply StronglySorted_inv in Hs as [_ Hall].
      apply elem_of_cons in Hin as [[= E _]|Hin]; [lia|].
      rewrite Forall_forall in Hall. specialize (Hall _ Hin). unfold elt in Hall. cbn in Hall. lia.
    + intros _. exists a, (sequence_ t), t. split_and!; [|done|done].
      apply (po_active _ _ Hp). exists e, t. rewrite El. split_and!; [apply list_elem_of_here | done..].
Qed.

Lemma run_expired_idle l p :
  (forall e a, (e, a) ∈ l -> is_Some (heap p !! a)) ->
  exists r, run_expired settime alloc (fun _ => []) l p = Ok (set_ran r p).
Proof.
  revert p. induction l as [|[e a] l IH]; intros p Hl; [exists (ran p); by destruct p|].
  destruct (Hl e a (list_elem_of_here _ _)) as [t Ht].
  cbn [run_expired snd run_actions]. unfold deref. rewrite Ht, !bind_ret.
  destruct (IH (set_ran (ran p ++ [(a, sequence_ t)]) p)) as [r Hr]; [|by exists r].
  intros e' b Hb. apply (Hl e' b). by apply list_elem_of_further.
Qed.

Lemma handle_read_idle curr now p :
  pool_ok [] p -> clock_ok curr ->
  exists p2, handle_read settime alloc (fun _ => []) 8 curr now p = reset_earliest settime now p2 /\
    pool_ok [] p2 /\ globalSequence p2 = globalSequence p /\ round curr [] p p2.
Proof.
  intros Hp Hcurr. unfold handle_read. rewrite (po_sizes _ _ Hp), check_true, bind_ret by done.
  destruct (fill_expired_ok p curr Hp) as (A & rest & -> & Hq & _ & _ & HA).
  cbn [negb Z.eqb Pos.eqb]. rewrite bind_ret.
  set (q := set_canceling ∅ _). apply (pool_ok_flags _ ∅ true) in Hq. fold q in Hq.
  destruct (run_expired_idle (due curr p) q) as [r ->].
  { intros e a Hin. by apply (po_flight _ _ Hq) in Hin as [? _]. }
  rewrite bind_ret. unfold update.
  pose proof (pool_ok_ran _ r _ Hq) as Hq1.
  rewrite (po_sizes _ _ (pool_ok_calling _ false _ Hq1)), check_true, bind_ret by done.
  destruct (round_end curr [] p A rest (set_ran r q) Hp Hcurr HA Hq1) as (p2 & -> & Hp2 & _ & Hgs & Hrd).
  { apply evolves_refl. }
  rewrite bind_ret. by exists p2.
Qed.
End Pool_lemmas.

(** ** Properties *)

(** C6. From the empty pool, any sequence of timer additions, cancellations and
    [handle_read] rounds, whose callbacks add and cancel timers themselves, keeps
    the pool consistent: [timers_] is strictly ordered, [timers_] and
    [active_timers_] describe the same live timers with the same expiries and
    sizes (no [DCHECK] fails, no deleted timer is dereferenced), and the
    descriptor is armed for the earliest timer.  The only failures possible
    are the [PCHECK] of [TimerFD::reset] and an exhausted memory. *)
Theorem timer_pool_invariant settime alloc l :
  settime_spec settime -> alloc_spec alloc -> Forall op_ok l ->
  good (run_ops settime alloc l pool0) (fun p => pool_ok [] p /\ armed_ok p).
Proof.
  intros Hs Ha Hl. eapply good_mono; [apply run_ops_good; [done | done | apply pool0_ok | done | done]|].
  by intros p (? & ? & _).
Qed.

(** A round of [handle_read] at time [curr] runs the callback of each timer
    due at [curr] exactly once, in order of expiry.  After it a cancelled timer
    and a due one-shot timer are no longer scheduled; a due repeating timer is
    scheduled at [curr] plus its interval; any other timer is unchanged; the
    descriptor is armed for the earliest of them. *)
Theorem handle_read_round settime alloc script curr now p :
  settime_spec settime -> alloc_spec alloc -> pool_ok [] p -> clock_ok curr -> clock_ok now ->
  (forall s, Forall action_ok (script s)) ->
  sorted (due curr p) /\
  (forall e, e ∈ due curr p <-> e ∈ timers_ p /\ e.1 <= curr) /\
  good (handle_read settime alloc script 8 curr now p) (fun p' =>
    pool_ok [] p' /\ armed_ok p' /\ ran p' = ran p ++ (id_of p <$> due curr p) /\
    round curr (cancels script p (due curr p)) p p').
Proof.
  intros Hs Ha Hp Hc Hn Hscript. split_and!.
  - destruct (fill_expired_ok p curr Hp) as (A & rest & _ & _ & E & _).
    pose proof (po_sorted _ _ Hp) as Hsort. rewrite E in Hsort. by apply sorted_app in Hsort as [? _].
  - intros e. unfold due. rewrite list_elem_of_filter. tauto.
  - by apply handle_read_good.
Qed.

(** Once [cancel_timer_in_own_loop] was called for a timer outside a round
    of callbacks, its callback never runs again, whatever the loop does to the
    pool later. *)
Theorem cancelled_never_runs settime alloc p a s now l :
  settime_spec settime -> alloc_spec alloc -> pool_ok [] p -> s < globalSequence p ->
  clock_ok now -> Forall op_ok l ->
  good (cancel_timer_in_own_loop settime a s now p) (fun p1 =>
    ran p1 = ran p /\
    good (run_ops settime alloc l p1) (fun p2 => ran_since (a, s) p1 p2)).
Proof.
  intros Hs Ha Hp Hseq Hn Hl.
  eapply good_mono; [by apply (cancel_timer_good settime Hs [])|]. intros p1 (Hp1 & Hev & Harm).
  split; [exact (ev_ran _ _ _ _ Hev)|].
  eapply good_mono; [by apply run_ops_good|]. intros p2 (_ & _ & Hi). apply Hi.
  pose proof (ev_seq _ _ _ _ Hev). split; [|cbn; lia].
  rewrite (ev_active _ _ _ _ Hev) by done. intros [_ Hno]. apply Hno, list_elem_of_here.
Qed.

(** C39. A round whose callbacks leave the pool alone ends in the [PCHECK] abort
    exactly when a timer that stays scheduled is not later than the clock read
    by the final [reset]: another timer fell due while the callbacks ran, or a
    repeating timer's interval has already passed. *)
Theorem round_aborts_iff settime alloc curr now p :
  settime_spec settime -> pool_ok [] p -> clock_ok curr -> clock_ok now ->
  handle_read settime alloc (fun _ => []) 8 curr now p = Fault late <->
  exists a s t t', (a, s) ∈ active_timers_ p /\ heap p !! a = Some t /\
    after_round curr [] a t = Some t' /\ expired_ t' <= now.
Proof.
  intros Hs Hp Hc Hn.
  destruct (handle_read_idle settime alloc curr now p Hp Hc) as (p2 & -> & Hp2 & Hgs & Hrd).
  rewrite reset_earliest_late by done. split.
  - intros (a & s & t' & Ha & Ht' & Hle). exists a, s.
    assert ((a, s) ∈ active_timers_ p) as Hap.
    { apply (rd_old _ _ _ _ Hrd); [|done]. rewrite <- Hgs. by eapply active_seq. }
    apply (po_active _ _ Hp) in Hap as Hap'. destruct Hap' as (e & t & _ & Ht & _). exists t.
    destruct (after_round curr [] a t) as [t2|] eqn:Et.
    + destruct (rd_next _ _ _ _ Hrd a s t t2 Hap Ht Et) as [_ Ht2]. exists t2.
      split_and!; try done. congruence.
    + by destruct (rd_gone _ _ _ _ Hrd a s t Hap Ht Et).
  - intros (a & s & t & t' & Ha & Ht & Et & Hle).
    destruct (rd_next _ _ _ _ Hrd a s t t' Ha Ht Et) as [? ?]. eauto 10.
Qed.

(** *** A kernel and an allocator *)

Definition linux_settime (ts : Z * Z) : Z :=
  if (0 <=? ts.1) && (0 <=? ts.2) && (ts.2 <? 1000000000) then 0 else -1.

Lemma linux_settime_spec : settime_spec linux_settime.
Proof.
  split; intros s n H1; unfold linux_settime; cbn [fst snd].
  - intros H2. destruct (Z.leb_spec 0 s), (Z.leb_spec 0 n), (Z.ltb_spec n 1000000000); cbn; lia.
  - destruct (Z.leb_spec 0 n); [lia|]. by destruct (0 <=? s).
Qed.

Definition bump_alloc (h : gmap Z Timer) : option Z :=
  let a := 4096 + 64 * Z.of_nat (size h) in
  if bool_decide (h !! a = None) && (a <? kUintptrMax) then Some a else None.

Lemma bump_alloc_spec : alloc_spec bump_alloc.
Proof.
  intros h a. unfold bump_alloc. case_bool_decide as Hn; [|done].
  destruct (Z.ltb_spec (4096 + 64 * Z.of_nat (size h)) kUintptrMax); [|done].
  intros [= <-]. split; [done | lia].
Qed.

(** A one-shot timer, a repeating one, and a later one-shot timer. *)
Definition T0 : Z := 1600000000000000.
Definition demo_ops : list pool_op :=
  [Act (Add (T0 + 100) 0 T0); Act (Add (T0 + 50) 1000 T0); Act (Add (T0 + 5000) 0 T0)].
Definition demo : TimerPool :=
  match run_ops linux_settime bump_alloc demo_ops pool0 with Ok p => p | Fault _ => pool0 end.

(** The repeating timer cancels the third one. *)
Definition demo_script (seq : Z) : list action :=
  if seq =? 1 then [Cancel 4224 2 (T0 + 121)] else [].

Lemma demo_ops_ok : Forall op_ok demo_ops.
Proof. repeat (apply Forall_cons; split); [..|by apply Forall_nil]; cbn; unfold clock_ok, T0; lia. Qed.

Lemma demo_ok : pool_ok [] demo.
Proof.
  pose proof (run_ops_good linux_settime linux_settime_spec bump_alloc bump_alloc_spec demo_ops pool0
    pool0_ok I demo_ops_ok) as H.
  unfold demo. destruct (run_ops linux_settime bump_alloc demo_ops pool0); [by destruct H | apply pool0_ok].
Qed.

Lemma demo_script_ok s : Forall action_ok (demo_script s).
Proof.
  unfold demo_script. destruct (s =? 1); [|by apply Forall_nil].
  apply Forall_cons; split; [cbn; unfold clock_ok, T0; lia | by apply Forall_nil].
Qed.

Definition ran_of (m : outcome TimerPool) : list (Z * Z) :=
  match m with Ok p => ran p | Fault _ => [] end.

Lemma timer_pool_invariant_witness :
  (zlen (timers_ demo), armed demo) = (3, Some (T0 + 50)) /\
  good (run_ops linux_settime bump_alloc (demo_ops ++ [Round demo_script 8 (T0 + 120) (T0 + 130)]) pool0)
    (fun p => pool_ok [] p /\ armed_ok p).
Proof.
  split; [vm_compute; reflexivity|].
  apply (timer_pool_invariant linux_settime bump_alloc); [apply linux_settime_spec | apply bump_alloc_spec |].
  apply Forall_app. split; [apply demo_ops_ok|].
  apply Forall_cons; split; [|by apply Forall_nil]. split_and!; [unfold clock_ok, T0; lia.. | apply demo_script_ok].
Defined.

Lemma handle_read_round_witness :
  ran_of (handle_read linux_settime bump_alloc demo_script 8 (T0 + 120) (T0 + 130) demo)
    = [(4160, 1); (4096, 0)] /\
  sorted (due (T0 + 120) demo).
Proof.
  split; [vm_compute; reflexivity|].
  refine (proj1 (handle_read_round linux_settime bump_alloc demo_script (T0 + 120) (T0 + 130) demo
    _ _ _ _ _ _)); [apply linux_settime_spec | apply bump_alloc_spec | apply demo_ok | unfold clock_ok, T0; lia..
    | apply demo_script_ok].
Defined.

Lemma cancelled_never_runs_witness :
  good (cancel_timer_in_own_loop linux_settime 4160 1 (T0 + 10) demo) (fun p1 =>
    ran p1 = ran demo /\
    good (run_ops linux_settime bump_alloc [Round demo_script 8 (T0 + 120) (T0 + 130)] p1)
      (fun p2 => ran_since (4160, 1) p1 p2)).
Proof.
  refine (cancelled_never_runs linux_settime bump_alloc demo 4160 1 (T0 + 10) _ _ _ _ _ _ _);
    [apply linux_settime_spec | apply bump_alloc_spec | apply demo_ok | vm_compute; reflexivity
    | unfold clock_ok, T0; lia |].
  apply Forall_cons; split; [|by apply Forall_nil]. split_and!; [unfold clock_ok, T0; lia.. | apply demo_script_ok].
Defined.

(** The third timer falls due while the callbacks of the first two run: the
    process aborts. *)
Lemma round_aborts_iff_witness :
  handle_read linux_settime bump_alloc (fun _ => []) 8 (T0 + 4990) (T0 + 5000) demo = Fault late.
Proof.
  refine (proj2 (round_aborts_iff linux_settime bump_alloc (T0 + 4990) (T0 + 5000) demo _ _ _ _) _);
    [apply linux_settime_spec | apply demo_ok | unfold clock_ok, T0; lia.. |].
  exists 4224, 2, (mkTimer (T0 + 5000) 0 2), (mkTimer (T0 + 5000) 0 2).
  split_and!; [apply (bool_decide_eq_true_1 _); vm_compute; reflexivity
    | vm_compute; reflexivity | vm_compute; reflexivity | cbn; lia].
Defined.

(** [run_after(0)] with a clock that has not advanced, or any timer in the past,
    aborts the process. *)
Example run_after_zero_aborts : add_timer linux_settime bump_alloc T0 (S754_zero false) T0 pool0 = Fault late.
Proof. vm_compute. reflexivity. Qed.
Example run_at_past_aborts : 
  add_timer linux_settime bump_alloc (T0 - 1) (S754_zero false) T0 pool0 = Fault late.
Proof. vm_compute. reflexivity. Qed.
