(* ===== verification/LogStream.v ===== *)
(** * LogStream and Logging (include/LogStream.h, src/LogStream.cc, include/Logging.h, src/Logging.cc)

    The stream that formats a log line into a [ByteBuffer] of fixed length, and the log message around it: its head with
    the cached time, its text, its end with the place in the source, and what is done with it.  The overloads of [operator<<]
    are one function on [item]s.  On 64-bit Linux [uintptr_t] is [unsigned long], so the template
    specializations for [uintptr_t] are those for [unsigned long].

    Parameters are the text that [snprintf] gives for a double, the text of an errno, the name of the thread, and localtime_r.
    The file shows that numbers are printed in full and correctly over their whole range, that a line is the sequence of
    its pieces as far as they fit, and what reaches the output handler. *)

From stdpp Require Import pretty.
From S2P Require Import Prelude ByteBuffer StringPiece TimeStamp.

(** ** Definitions *)

Definition kMaxBufferSize : Z := 4096.
Definition kMaxNumericSize : Z := 32.

Definition kDigitMaps : bytes := txt "9876543210123456789".
Definition kDigitHexMaps : bytes := txt "0123456789ABCDEF".

(** The loop of [convert]: the digits from the lowest on, by the truncating [%] and [/]. *)
Fixpoint convert_loop (fuel : nat) (i : Z) : outcome bytes :=
  match fuel with
  | O => Fault OutOfFuel
  | S fuel =>
      let lsd := Z.rem i 10 in
      let i := Z.quot i 10 in
      defined ((-9 <=? lsd) && (lsd <=? 9)) "convert: digits";;
      let d := nth (Z.to_nat (9 + lsd)) kDigitMaps Byte.x00 in
      if i =? 0 then Ok [d] else ds ← convert_loop fuel i; Ok (d :: ds)
  end.

(** 64-bit numbers have at most 20 digits.  The array has [kMaxNumericSize + 1] characters, the last for the terminator. *)
Definition convert (value : Z) : outcome bytes :=
  ds ← convert_loop 20 value;
  let p := ds ++ (if value <? 0 then txt "-" else []) in
  defined (zlen p + 1 <=? kMaxNumericSize + 1) "convert: buf";;
  Ok (rev p).

Fixpoint convert_hex_loop (fuel : nat) (i : Z) : outcome bytes :=
  match fuel with
  | O => Fault OutOfFuel
  | S fuel =>
      let lsd := Z.rem i 16 in
      let i := Z.quot i 16 in
      defined ((0 <=? lsd) && (lsd <=? 15)) "convert: digitsHex";;
      let d := nth (Z.to_nat lsd) kDigitHexMaps Byte.x00 in
      if i =? 0 then Ok [d] else ds ← convert_hex_loop fuel i; Ok (d :: ds)
  end.

Definition convert_hex (value : Z) : outcome bytes :=
  ds ← convert_hex_loop 16 value;
  defined (zlen ds + 1 <=? kMaxNumericSize + 1) "convert: buf";;
  Ok (rev ds).

(** [buffer_.append] in the stream, which drops the result. *)
Definition stream_append (data : bytes) (b : ByteBuffer) : outcome ByteBuffer :=
  '(_, b) ← append data b; Ok b.

Definition format_number (v : Z) (b : ByteBuffer) : outcome ByteBuffer :=
  buf ← convert v; stream_append buf b.

(** [format_number<uintptr_t>]. *)
Definition format_number_uintptr (v : Z) (b : ByteBuffer) : outcome ByteBuffer :=
  buf ← convert_hex v; stream_append (txt "0x" ++ buf) b.

(** [format_number<double>]; [text] is the result of [snprintf] with "%.12g". *)
Definition format_number_double (text : bytes) (b : ByteBuffer) : outcome ByteBuffer :=
  defined (zlen text <=? kMaxNumericSize + 1) "format_number: buf";;
  stream_append text b.

(** The overloads of [operator<<]; [PText] is a time or a duration, printed through an [ostringstream]. *)
Inductive item : Type :=
| PPointer (p : Z)
| PFloat (text : bytes) | PDouble (text : bytes)
| PShort (v : Z) | PUnsignedShort (v : Z) | PInt (v : Z) | PUnsignedInt (v : Z)
| PLong (v : Z) | PUnsignedLong (v : Z) | PLongLong (v : Z) | PUnsignedLongLong (v : Z)
| PChar (c : byte)
| PCString (s : option bytes)   (** [None] is a null pointer *)
| PBool (v : bool)
| PString (s : bytes)
| PPiece (s : StringPiece)
| PBuffer (v : ByteBuffer)
| PEndl
| PText (s : bytes).

Definition put (x : item) (b : ByteBuffer) : outcome ByteBuffer :=
  match x with
  | PPointer p => format_number_uintptr p b
  | PFloat t | PDouble t => format_number_double t b
  | PShort v | PUnsignedShort v | PInt v | PUnsignedInt v | PLong v | PLongLong v | PUnsignedLongLong v => format_number v b
  | PUnsignedLong v => format_number_uintptr v b
  | PChar c => stream_append [c] b
  | PCString (Some s) => stream_append (of_cstr s) b
  | PCString None => stream_append (txt "(*null*)" ++ [Byte.x00]) b
  | PBool v => stream_append (if v then txt "1" else txt "0") b
  | PString s | PPiece s | PText s => stream_append s b
  | PBuffer v => s ← to_string v; stream_append s b
  | PEndl => stream_append [Byte.x0a] b
  end.

Fixpoint put_all (xs : list item) (b : ByteBuffer) : outcome ByteBuffer :=
  match xs with [] => Ok b | x :: xs => b ← put x b; put_all xs b end.

Definition make_stream (max_size : Z) : outcome ByteBuffer := make max_size kInitialSize.

(** *** Logging *)

Definition LOG_TRACE : Z := 0.
Definition LOG_DEBUG : Z := 1.
Definition LOG_INFO : Z := 2.
Definition LOG_WARNING : Z := 3.
Definition LOG_ERROR : Z := 4.
Definition LOG_FATAL : Z := 5.
Definition LOG_NUM_SEVERITIES : Z := 6.

Definition kLogSeverityNames : list bytes := [txt "TRACE"; txt "DEBUG"; txt "INFO"; txt "WARNING"; txt "ERROR"; txt "FATAL"].

Definition log_severity_name (severity : Z) : bytes :=
  if (0 <=? severity) && (severity <? LOG_NUM_SEVERITIES) then nth (Z.to_nat severity) kLogSeverityNames [] else txt "UNKNOWN".

(** The globals: the least severity that is shown, and whether the two handlers are set. *)
Record Logging : Type := mkLogging { g_min_log_severity : Z; g_log_output_handler : bool; g_log_fflush_handler : bool }.

Definition set_min_log_severity (severity : Z) (g : Logging) : Logging :=
  mkLogging (Z.min LOG_FATAL severity) (g_log_output_handler g) (g_log_fflush_handler g).

Definition should_logging_message (severity : Z) (g : Logging) : bool := g_min_log_severity g <=? severity.

(** The thread-local cache of the formatted second. *)
Record Cache : Type := mkCache { tls_last_second : Z; tls_format_ymdhis : bytes }.

Definition initial_cache : Cache := mkCache 0 [].

(** [Filename]: what follows the last separator of the path. *)
Definition file_basename (path : bytes) : bytes :=
  let slash := rfind_char path Byte.x2f npos in
  if negb (slash =? npos) then zdrop (slash + 1) path else path.

(** ["%0<width>d"] of [printf]. *)
Definition zero_padded (width : nat) (v : Z) : bytes :=
  let d := txt (pretty (Z.abs v)) in
  let sign := if v <? 0 then txt "-" else [] in
  sign ++ replicate (width - length sign - length d) Byte.x30 ++ d.

(** The six fields of the date and time, with the formats of [begin], as [snprintf] writes them to 32 characters. *)
Definition format_ymdhis (e : Exploded) : bytes :=
  ztake 31 (zero_padded 4 (year e) ++ txt "-" ++ zero_padded 2 (month e) ++ txt "-" ++ zero_padded 2 (day_of_month e) ++ txt " "
    ++ zero_padded 2 (hour e) ++ txt ":" ++ zero_padded 2 (minute e) ++ txt ":" ++ zero_padded 2 (second e)).

Section Logging.
(** localtime_r, the name of the thread, and the text of an errno. *)
Context (localtime : Z -> tm) (tid_string : bytes) (fast_safe_strerror : Z -> bytes).

(** [Impl::begin]; [time_] is the microseconds of the time. *)
Definition begin (time_ severity_ : Z) (cache : Cache) (stream_ : ByteBuffer) : outcome (Cache * ByteBuffer) :=
  td ← time_diff time_ 0;
  cache ←
    (if negb (in_seconds td =? tls_last_second cache)
     then e ← to_explode localtime true time_; Ok (mkCache (in_seconds td) (format_ymdhis e)) else Ok cache);
  let us := i32 (Z.rem td kMicrosecondsPerSecond) in
  stream_ ← put (PString (tls_format_ymdhis cache ++ txt "." ++ zero_padded 6 us ++ txt " ")) stream_;
  stream_ ← put_all [PPiece tid_string; PCString (Some (txt " ")); PCString (Some (log_severity_name severity_)); PCString (Some (txt " "))] stream_;
  Ok (cache, stream_).

Definition put_errno (errno_ : Z) (stream_ : ByteBuffer) : outcome ByteBuffer :=
  if negb (errno_ =? 0) then
    put_all [PString (fast_safe_strerror errno_); PCString (Some (txt " (errno=")); PInt errno_; PCString (Some (txt ") "))] stream_
  else Ok stream_.

(** [Impl::endl]. *)
Definition endl (line_ : Z) (file_ : bytes) (stream_ : ByteBuffer) : outcome ByteBuffer :=
  put_all [PCString (Some (txt " - ")); PPiece (file_basename file_); PChar Byte.x3a; PInt line_; PChar Byte.x0a] stream_.

Inductive log_event : Type := Output (line : bytes) | FFlush | Abort.

(** A log message from its construction to its destruction: [msg] is the text of a failed check, [items] what the user
    streams into it. *)
Definition log_message (g : Logging) (time_ line_ : Z) (file_ : bytes) (severity_ : Z) (msg : option bytes) (err : Z) (items : list item) (cache : Cache)
    : outcome (Cache * list log_event) :=
  stream_ ← make_stream kMaxBufferSize;
  '(cache, stream_) ← begin time_ severity_ cache stream_;
  stream_ ← match msg with
            | Some msg => put_all [PCString (Some (txt "Check failed: ")); PString msg; PCString (Some (txt "."))] stream_
            | None => Ok stream_
            end;
  stream_ ← put_errno err stream_;
  stream_ ← put_all items stream_;
  stream_ ← endl line_ file_ stream_;
  out ← to_string stream_;
  Ok (cache, (if g_log_output_handler g then [Output out] else [])
             ++ (if severity_ =? LOG_FATAL then (if g_log_fflush_handler g then [FFlush] else []) ++ [Abort] else [])).

(** [LOG(severity)]. *)
Definition log (g : Logging) (time_ line_ : Z) (file_ : bytes) (severity_ : Z) (items : list item) (cache : Cache) : outcome (Cache * list log_event) :=
  if should_logging_message severity_ g then log_message g time_ line_ file_ severity_ None 0 items cache else Ok (cache, []).

End Logging.

(** ** Lemmas *)

(** *** Numbers *)

Lemma txt_cons c s : txt (String c s) = Ascii.byte_of_ascii c :: txt s.
Proof. done. Qed.

(** A statement about the numbers below [n] is checked one by one. *)
Lemma below (P : Z -> Prop) n d : Forall P (seqZ 0 n) -> 0 <= d < n -> P d.
Proof. intros F H. rewrite Forall_forall in F. apply F, elem_of_seqZ. lia. Qed.

(** The table holds the digit of [d] at both distances [d] from its middle. *)
Lemma digit_maps d :
  0 <= d <= 9 ->
  nth (Z.to_nat (9 + d)) kDigitMaps Byte.x00 = Ascii.byte_of_ascii (pretty_N_char (Z.to_N d))
  /\ nth (Z.to_nat (9 + - d)) kDigitMaps Byte.x00 = nth (Z.to_nat (9 + d)) kDigitMaps Byte.x00.
Proof.
  intros H. apply (below (fun d => nth (Z.to_nat (9 + d)) kDigitMaps Byte.x00 = Ascii.byte_of_ascii (pretty_N_char (Z.to_N d))
    /\ nth (Z.to_nat (9 + - d)) kDigitMaps Byte.x00 = nth (Z.to_nat (9 + d)) kDigitMaps Byte.x00) 10); [|lia]. by repeat constructor.
Qed.

Lemma convert_loop_neg fuel i : 0 <= i -> convert_loop fuel (- i) = convert_loop fuel i.
Proof.
  revert i. induction fuel as [|fuel IH]; intros i Hi; [done|]. cbn [convert_loop].
  rewrite Z.rem_opp_l, Z.quot_opp_l by lia. pose proof (Z.rem_bound_pos i 10 Hi ltac:(lia)). rewrite !defined_true by (apply andb_true_iff; split; apply Z.leb_le; lia).
  cbn [mbind outcome_bind]. rewrite (proj2 (digit_maps (Z.rem i 10) ltac:(lia))).
  replace (- (i ÷ 10) =? 0) with (i ÷ 10 =? 0) by (destruct (Z.eqb_spec (i ÷ 10) 0); symmetry; [apply Z.eqb_eq|apply Z.eqb_neq]; lia).
  by rewrite IH by (apply Z.quot_pos; lia).
Qed.

Lemma convert_loop_pos fuel n :
  0 < n < 10 ^ Z.of_nat fuel ->
  exists ds, convert_loop fuel n = Ok ds /\ (length ds <= fuel)%nat /\ forall s, txt (pretty_N_go (Z.to_N n) s) = rev ds ++ txt s.
Proof.
  revert n. induction fuel as [|fuel IH]; intros n Hn; [cbn in Hn; lia|]. cbn [convert_loop].
  pose proof (Z.rem_bound_pos n 10 ltac:(lia) ltac:(lia)) as Hr. rewrite defined_true by (apply andb_true_iff; split; apply Z.leb_le; lia). cbn [mbind outcome_bind].
  rewrite Z.quot_div_nonneg, Z.rem_mod_nonneg in * by lia. rewrite (proj1 (digit_maps (n mod 10) ltac:(lia))).
  assert (Hgo : forall s, txt (pretty_N_go (Z.to_N n) s) = txt (pretty_N_go (Z.to_N (n / 10)) (String (pretty_N_char (Z.to_N (n mod 10))) s))).
  { intros s. rewrite pretty_N_go_step by lia. by rewrite Z2N.inj_div, Z2N.inj_mod by lia. }
  destruct (Z.eqb_spec (n / 10) 0) as [E|E].
  - eexists. split_and!; [done|cbn; lia|]. intros s. rewrite Hgo, E. cbn [Z.to_N]. by rewrite pretty_N_go_0, txt_cons.
  - destruct (IH (n / 10)) as (ds & -> & Hl & Hds).
    + rewrite Nat2Z.inj_succ, Z.pow_succ_r in Hn by lia. pose proof (Z.div_pos n 10). split; [lia|]. apply Z.div_lt_upper_bound; lia.
    + cbn [mbind outcome_bind]. eexists. split_and!; [done|cbn; lia|]. intros s. rewrite Hgo, Hds, txt_cons. cbn [rev]. by rewrite <- app_assoc.
Qed.

Lemma pretty_pos n : 0 < n -> txt (pretty n) = txt (pretty_N_go (Z.to_N n) "").
Proof. intros Hn. destruct n as [|p|p]; [lia| |lia]. done. Qed.

Lemma pretty_neg n : 0 < n -> txt (pretty (- n)) = txt "-" ++ txt (pretty n).
Proof. intros Hn. destruct n as [|p|p]; [lia|done|lia]. Qed.

Lemma convert_pretty v : - 2 ^ 63 <= v < 2 ^ 64 -> convert v = Ok (txt (pretty v)).
Proof.
  intros Hv. unfold convert. destruct (Z.lt_trichotomy v 0) as [H|[->|H]]; [|done|].
  - destruct (convert_loop_pos 20 (- v)) as (ds & E & Hl & Hds); [lia|]. rewrite <- (Z.opp_involutive v) at 1. rewrite convert_loop_neg, E by lia. cbn [mbind outcome_bind].
    rewrite (proj2 (Z.ltb_lt v 0)) by lia. rewrite defined_true by (apply Z.leb_le; unfold zlen; rewrite length_app; unfold kMaxNumericSize; cbn; lia).
    cbn [mbind outcome_bind]. rewrite rev_app_distr. f_equal. rewrite <- (Z.opp_involutive v) at 1. rewrite pretty_neg, pretty_pos, Hds by lia. by rewrite app_nil_r.
  - destruct (convert_loop_pos 20 v) as (ds & -> & Hl & Hds); [lia|]. cbn [mbind outcome_bind].
    rewrite (proj2 (Z.ltb_ge v 0)), app_nil_r by lia. rewrite defined_true by (apply Z.leb_le; unfold zlen; unfold kMaxNumericSize; lia).
    cbn [mbind outcome_bind]. f_equal. rewrite pretty_pos, Hds by lia. by rewrite app_nil_r.
Qed.

(** The value of a hexadecimal numeral, from the highest digit. *)
Definition hex_value (s : bytes) : option Z :=
  fold_left (fun acc c => match acc, find_char kDigitHexMaps c 0 with
                          | Some v, i => if i =? npos then None else Some (16 * v + i)
                          | None, _ => None
                          end) s (Some 0).

Lemma hex_digit d : 0 <= d <= 15 -> find_char kDigitHexMaps (nth (Z.to_nat d) kDigitHexMaps Byte.x00) 0 = d.
Proof.
  intros H. apply (below (fun d => find_char kDigitHexMaps (nth (Z.to_nat d) kDigitHexMaps Byte.x00) 0 = d) 16); [|lia]. by repeat constructor.
Qed.

Lemma hex_value_snoc s d v : 0 <= d <= 15 -> hex_value s = Some v -> hex_value (s ++ [nth (Z.to_nat d) kDigitHexMaps Byte.x00]) = Some (16 * v + d).
Proof.
  intros Hd E. unfold hex_value in *. rewrite fold_left_app, E. cbn [fold_left]. rewrite hex_digit by done.
  by rewrite (proj2 (Z.eqb_neq d npos)) by (unfold npos; lia).
Qed.

Lemma convert_hex_loop_ok fuel n :
  0 <= n < 16 ^ Z.of_nat fuel -> (0 < fuel)%nat ->
  exists ds, convert_hex_loop fuel n = Ok ds /\ (0 < length ds <= fuel)%nat /\ hex_value (rev ds) = Some n
    /\ (n = 0 \/ last ds <> Some Byte.x30).
Proof.
  revert n. induction fuel as [|fuel IH]; intros n Hn Hf; [lia|]. cbn [convert_hex_loop].
  pose proof (Z.rem_bound_pos n 16 ltac:(lia) ltac:(lia)) as Hr. rewrite defined_true by (apply andb_true_iff; split; apply Z.leb_le; lia). cbn [mbind outcome_bind].
  rewrite Z.quot_div_nonneg, Z.rem_mod_nonneg in * by lia. pose proof (Z_div_mod_eq_full n 16) as Hdm. destruct (Z.eqb_spec (n / 16) 0) as [E|E].
  - eexists. split_and!; [done|cbn; lia|cbn; lia| |].
    + cbn [rev app]. pose proof (hex_value_snoc [] (n mod 16) 0 ltac:(lia) eq_refl) as H. cbn [app] in H. rewrite H. f_equal. lia.
    + destruct (Z.eq_dec n 0); [by left|right]. cbn [last]. intros H%(inj Some). pose proof (hex_digit (n mod 16) ltac:(lia)) as Hd. rewrite H in Hd.
      change (find_char kDigitHexMaps Byte.x30 0) with 0 in Hd. lia.
  - rewrite Nat2Z.inj_succ, Z.pow_succ_r in Hn by lia. assert (0 < n / 16) by (pose proof (Z.div_pos n 16); lia).
    assert (n / 16 < 16 ^ Z.of_nat fuel) by (apply Z.div_lt_upper_bound; lia).
    destruct (IH (n / 16)) as (ds & -> & Hl & Hv & Hz); [lia|destruct fuel; [cbn in *; lia|lia]|].
    cbn [mbind outcome_bind]. eexists. split_and!; [done|cbn; lia|cbn; lia| |].
    + cbn [rev]. rewrite (hex_value_snoc _ _ (n / 16)) by (done || lia). f_equal. lia.
    + right. destruct Hz as [?|Hz]; [lia|]. destruct ds; [cbn in Hl; lia|]. done.
Qed.

(** *** The stream *)

(** A stream as the constructor makes it, to which only was appended. *)
Definition stream_ok (max : Z) (b : ByteBuffer) : Prop := wf b /\ max_size_ b = max /\ 0 < max < 2 ^ 63 /\ reader_index_ b = 0.

(** A piece that does not fit is dropped as a whole. *)
Definition offer (max : Z) (acc piece : bytes) : bytes := if zlen acc + zlen piece <=? max then acc ++ piece else acc.
Definition fill (max : Z) (acc : bytes) (pieces : list bytes) : bytes := fold_left (offer max) pieces acc.

Lemma stream_append_ok max d b :
  stream_ok max b -> exists b', stream_append d b = Ok b' /\ stream_ok max b' /\ contents b' = offer max (contents b) d.
Proof.
  intros (Hwf & Hm & Hmax & Hr). pose proof (contents_length b Hwf) as Hl. rewrite Hr, Z.sub_0_r in Hl.
  assert (Hu : unlimited b = false) by (unfold unlimited, kUnLimitSize; rewrite Hm; apply Z.eqb_neq; lia).
  unfold stream_append, offer. destruct (Z.leb_spec (zlen (contents b) + zlen d) max) as [Hle|Hgt].
  - destruct (append_ok d b Hwf) as (b' & -> & Hwf' & Hc & Hm' & Hw).
    { unfold room. rewrite Hu, Hm, u64_small by lia. unfold vec_max_size, kInt64Max. lia. }
    exists b'. split; [done|]. split; [|done]. split_and!; try done; try lia; try congruence.
    pose proof (contents_length b' Hwf') as Hl'. rewrite Hc, zlen_app in Hl'. destruct Hwf' as (? & _). lia.
  - rewrite append_refused by (done || (rewrite Hm, u64_small by lia; lia)). exists b. split; [done|]. split; [|done]. split_and!; done || lia.
Qed.

(** What an item should print, and when it has a value of its type. *)
Definition hex (v : Z) : bytes := match convert_hex v with Ok s => s | Fault _ => [] end.

Definition text_of (x : item) : bytes :=
  match x with
  | PPointer v | PUnsignedLong v => txt "0x" ++ hex v
  | PShort v | PUnsignedShort v | PInt v | PUnsignedInt v | PLong v | PLongLong v | PUnsignedLongLong v => txt (pretty v)
  | PChar c => [c]
  | PCString (Some s) => of_cstr s
  | PCString None => txt "(*null*)" ++ [Byte.x00]
  | PBool v => if v then txt "1" else txt "0"
  | PFloat s | PDouble s | PString s | PPiece s | PText s => s
  | PBuffer v => contents v
  | PEndl => [Byte.x0a]
  end.

Definition item_ok (x : item) : Prop :=
  match x with
  | PPointer v | PUnsignedLong v | PUnsignedLongLong v => 0 <= v < 2 ^ 64
  | PLong v | PLongLong v => - 2 ^ 63 <= v < 2 ^ 63
  | PInt v => - 2 ^ 31 <= v < 2 ^ 31
  | PUnsignedInt v => 0 <= v < 2 ^ 32
  | PShort v => - 2 ^ 15 <= v < 2 ^ 15
  | PUnsignedShort v => 0 <= v < 2 ^ 16
  | PFloat s | PDouble s => zlen s <= kMaxNumericSize
  | PBuffer v => wf v
  | _ => True
  end.

Lemma convert_hex_ok v : 0 <= v < 2 ^ 64 -> convert_hex v = Ok (hex v) /\ hex_value (hex v) = Some v /\ (v = 0 \/ head (hex v) <> Some Byte.x30) /\ hex v <> [].
Proof.
  intros Hv. destruct (convert_hex_loop_ok 16 v) as (ds & E & Hl & Hval & Hz); [lia|lia|].
  assert (Eh : convert_hex v = Ok (rev ds)).
  { unfold convert_hex. rewrite E. cbn [mbind outcome_bind]. rewrite defined_true; [done|]. apply Z.leb_le. unfold zlen, kMaxNumericSize. lia. }
  assert (hex v = rev ds) as -> by (unfold hex; by rewrite Eh). split_and!; [done|done| |].
  - destruct Hz as [?|Hz]; [by left|right]. destruct ds as [|d ds _] using rev_ind; [done|]. rewrite rev_app_distr. cbn. by rewrite last_snoc in Hz.
  - intros H. apply (f_equal length) in H. rewrite length_rev in H. cbn in H. lia.
Qed.

Lemma put_item_ok max x b :
  item_ok x -> stream_ok max b -> exists b', put x b = Ok b' /\ stream_ok max b' /\ contents b' = offer max (contents b) (text_of x).
Proof.
  intros Hx Hb. assert (Hnum : forall v, - 2 ^ 63 <= v < 2 ^ 64 -> exists b', format_number v b = Ok b' /\ stream_ok max b' /\ contents b' = offer max (contents b) (txt (pretty v))).
  { intros v Hv. unfold format_number. rewrite convert_pretty by done. by apply stream_append_ok. }
  assert (Hptr : forall v, 0 <= v < 2 ^ 64 -> exists b', format_number_uintptr v b = Ok b' /\ stream_ok max b' /\ contents b' = offer max (contents b) (txt "0x" ++ hex v)).
  { intros v Hv. unfold format_number_uintptr. rewrite (proj1 (convert_hex_ok v Hv)). by apply stream_append_ok. }
  assert (Hdbl : forall s, zlen s <= kMaxNumericSize -> exists b', format_number_double s b = Ok b' /\ stream_ok max b' /\ contents b' = offer max (contents b) s).
  { intros s Hs. unfold format_number_double. rewrite defined_true by (apply Z.leb_le; lia). by apply stream_append_ok. }
  destruct x as [v|s|s|v|v|v|v|v|v|v|v|c|[s|]|v|s|s|v| |s]; cbn [put text_of item_ok] in *; try (by apply stream_append_ok); try (by apply Hptr); try (by apply Hdbl); try (apply Hnum; lia).
  rewrite to_string_ok by done. by apply stream_append_ok.
Qed.

Lemma put_all_ok max xs b :
  Forall item_ok xs -> stream_ok max b ->
  exists b', put_all xs b = Ok b' /\ stream_ok max b' /\ contents b' = fill max (contents b) (text_of <$> xs).
Proof.
  intros Hxs. revert b. induction Hxs as [|x xs Hx _ IH]; intros b Hb; cbn [put_all]; [by exists b|].
  destruct (put_item_ok max x b Hx Hb) as (b1 & -> & Hb1 & Hc1). cbn [mbind outcome_bind].
  destruct (IH b1 Hb1) as (b2 & -> & Hb2 & Hc2). exists b2. split_and!; [done|done|]. by rewrite Hc2, Hc1.
Qed.

Lemma fill_fits max acc ps : zlen acc + zlen (concat ps) <= max -> fill max acc ps = acc ++ concat ps.
Proof.
  revert acc. induction ps as [|p ps IH]; intros acc H; cbn [fill fold_left concat] in *; [by rewrite app_nil_r|].
  rewrite zlen_app in H. pose proof (zlen_nonneg (concat ps)). unfold offer at 2. rewrite (proj2 (Z.leb_le _ _)) by lia.
  change (fill max (acc ++ p) ps = acc ++ p ++ concat ps). rewrite IH by (rewrite zlen_app; lia). by rewrite <- app_assoc.
Qed.

Lemma fill_bound max acc ps : zlen acc <= max -> zlen (fill max acc ps) <= max.
Proof.
  revert acc. induction ps as [|p ps IH]; intros acc H; [done|]. apply IH. unfold offer. destruct (Z.leb_spec (zlen acc + zlen p) max); [rewrite zlen_app; lia|done].
Qed.

Lemma make_stream_ok max : 0 < max < 2 ^ 63 -> exists b, make_stream max = Ok b /\ stream_ok max b /\ contents b = [].
Proof.
  intros Hm. unfold make_stream. destruct (make_ok max kInitialSize) as (b & E & Hwf & Hc & Hb); [lia|unfold kInitialSize, vec_max_size, kInt64Max; lia|].
  exists b. split_and!; try done. split_and!; try done; try lia. unfold make in E. destruct (vec_make _); [|done]. by injection E as <-.
Qed.

(** *** Log lines *)

Section Line.
Context (localtime : Z -> tm) (tid_string : bytes) (fast_safe_strerror : Z -> bytes).

(** The local date and time of day of a time. *)
Definition local_explode (time : Z) : Exploded :=
  let x := localtime (time / kMicrosecondsPerSecond) in
  mkExploded (tm_year x + 1900) (tm_mon x + 1) (tm_wday x) (tm_mday x) (tm_hour x) (tm_min x) (tm_sec x) (time / 1000 mod 1000).

Lemma to_local_explode_ok time : 0 <= time < 2 ^ 62 -> to_explode localtime true time = Ok (local_explode time).
Proof. intros Ht. unfold to_explode. rewrite split_time_floor by (unfold kInt64Min, kInt64Max; lia). done. Qed.

Lemma in_seconds_div t : 0 <= t < 2 ^ 62 -> in_seconds t = t / kMicrosecondsPerSecond.
Proof.
  intros Ht. unfold in_seconds, divide_or_max, delta_is_max. change kMicrosecondsPerSecond with 1000000.
  rewrite (proj2 (Z.eqb_neq t kInt64Max)) by (unfold kInt64Max; lia). rewrite Z.quot_div_nonneg by lia.
  assert (0 <= t / 1000000 <= t) by (split; [apply Z.div_pos|apply Z.div_le_upper_bound]; lia). rewrite i64_small by lia. done.
Qed.

(** Times in the same second have the same local date and time of day. *)
Lemma local_by_second t u :
  0 <= t < 2 ^ 62 -> 0 <= u < 2 ^ 62 -> in_seconds t = in_seconds u ->
  format_ymdhis (local_explode t) = format_ymdhis (local_explode u).
Proof. intros Ht Hu E. rewrite !in_seconds_div in E by done. unfold local_explode. by rewrite E. Qed.

(** The cache holds the text of its second. *)
Definition cache_ok (c : Cache) : Prop :=
  tls_last_second c = 0
  \/ exists t, kMicrosecondsPerSecond <= t < 2 ^ 62 /\ in_seconds t = tls_last_second c /\ tls_format_ymdhis c = format_ymdhis (local_explode t).

Definition stamp (time : Z) : bytes :=
  format_ymdhis (local_explode time) ++ txt "." ++ zero_padded 6 (Z.rem time kMicrosecondsPerSecond) ++ txt " ".

(** The pieces of a line. *)
Definition line_pieces (time line : Z) (file : bytes) (severity : Z) (msg : option bytes) (err : Z) (items : list item) : list bytes :=
  [stamp time; tid_string; txt " "; log_severity_name severity; txt " "]
  ++ match msg with Some m => [txt "Check failed: "; m; txt "."] | None => [] end
  ++ (if negb (err =? 0) then [fast_safe_strerror err; txt " (errno="; txt (pretty err); txt ") "] else [])
  ++ (text_of <$> items)
  ++ [txt " - "; file_basename file; txt ":"; txt (pretty line); [Byte.x0a]].

Lemma in_seconds_of t : kMicrosecondsPerSecond <= t < 2 ^ 62 -> in_seconds t <> 0.
Proof.
  intros Ht. change kMicrosecondsPerSecond with 1000000 in Ht. rewrite in_seconds_div by lia. change kMicrosecondsPerSecond with 1000000.
  assert (1 <= t / 1000000) by (apply Z.div_le_lower_bound; lia). lia.
Qed.

Lemma severity_name_cstr s : of_cstr (log_severity_name s) = log_severity_name s.
Proof.
  unfold log_severity_name. destruct ((0 <=? s) && (s <? LOG_NUM_SEVERITIES)) eqn:E; [|done]. zbool. unfold LOG_NUM_SEVERITIES in *.
  apply (below (fun s => of_cstr (nth (Z.to_nat s) kLogSeverityNames []) = nth (Z.to_nat s) kLogSeverityNames []) 6); [|lia]. by repeat constructor.
Qed.

Lemma begin_ok time sev cache b :
  cache_ok cache -> kMicrosecondsPerSecond <= time < 2 ^ 62 -> stream_ok kMaxBufferSize b ->
  exists cache' b', begin localtime tid_string time sev cache b = Ok (cache', b') /\ cache_ok cache' /\ stream_ok kMaxBufferSize b'
    /\ contents b' = fill kMaxBufferSize (contents b) [stamp time; tid_string; txt " "; log_severity_name sev; txt " "].
Proof.
  intros Hcache Ht Hb. unfold begin, time_diff, int64, int64_ok. change kMicrosecondsPerSecond with 1000000 in *. rewrite Z.sub_0_r.
  replace ((kInt64Min <=? time) && (time <=? kInt64Max)) with true by (symmetry; apply andb_true_iff; unfold kInt64Min, kInt64Max; split; apply Z.leb_le; lia).
  unfold defined. cbn [mbind outcome_bind]. unfold from_microseconds. rewrite to_local_explode_ok, bind_ret by lia.
  assert (exists c, (if negb (in_seconds time =? tls_last_second cache) then Ok (mkCache (in_seconds time) (format_ymdhis (local_explode time))) else Ok cache) = Ok c /\
    cache_ok c /\ tls_format_ymdhis c = format_ymdhis (local_explode time)) as (c & -> & Hc).
  { destruct (Z.eqb_spec (in_seconds time) (tls_last_second cache)) as [E|E]; cbn [negb]; (eexists; split; [done|]); [|split; [right; exists time; split_and!; [apply Ht|apply Ht|done|done]|done]].
    split; [done|]. destruct Hcache as [H0|(t & Ht1 & Ht2 & Ht3)]; [rewrite H0 in E; by apply in_seconds_of in E|].
    rewrite Ht3. change kMicrosecondsPerSecond with 1000000 in Ht1. apply local_by_second; [lia|lia|congruence]. }
  rewrite bind_ret. destruct Hc as [Hc Hf]. rewrite Hf.
  assert (i32 (Z.rem time 1000000) = Z.rem time 1000000) as -> by (pose proof (Z.rem_bound_pos time 1000000 ltac:(lia) ltac:(lia)); apply i32_small; lia).
  destruct (put_item_ok kMaxBufferSize (PString (stamp time)) b) as (b1 & E1 & Hb1 & Hc1); [done|done|]. unfold stamp in E1. change kMicrosecondsPerSecond with 1000000 in E1.
  rewrite E1. cbn [mbind outcome_bind].
  destruct (put_all_ok kMaxBufferSize [PPiece tid_string; PCString (Some (txt " ")); PCString (Some (log_severity_name sev)); PCString (Some (txt " "))] b1)
    as (b2 & -> & Hb2 & Hc2); [by repeat constructor|done|]. cbn [mbind outcome_bind]. exists c, b2. split_and!; [done..|].
  rewrite Hc2, Hc1. cbn [fmap list_fmap text_of]. rewrite severity_name_cstr. done.
Qed.

Lemma fill_app max acc a b : fill max acc (a ++ b) = fill max (fill max acc a) b.
Proof. apply fold_left_app. Qed.

Lemma log_message_ok g time line file sev msg err items cache :
  cache_ok cache -> kMicrosecondsPerSecond <= time < 2 ^ 62 -> - 2 ^ 31 <= line < 2 ^ 31 -> - 2 ^ 31 <= err < 2 ^ 31 -> Forall item_ok items ->
  exists cache', cache_ok cache' /\
    log_message localtime tid_string fast_safe_strerror g time line file sev msg err items cache =
    Ok (cache', (if g_log_output_handler g then [Output (fill kMaxBufferSize [] (line_pieces time line file sev msg err items))] else [])
                ++ (if sev =? LOG_FATAL then (if g_log_fflush_handler g then [FFlush] else []) ++ [Abort] else [])).
Proof.
  intros Hcache Ht Hline Herr Hitems. unfold log_message.
  destruct (make_stream_ok kMaxBufferSize) as (b0 & -> & Hb0 & Hc0); [unfold kMaxBufferSize; lia|]. cbn [mbind outcome_bind].
  destruct (begin_ok time sev cache b0 Hcache Ht Hb0) as (cache' & b1 & -> & Hcache' & Hb1 & Hc1). cbn [mbind outcome_bind]. exists cache'. split; [done|].
  set (ms := match msg with Some m => [PCString (Some (txt "Check failed: ")); PString m; PCString (Some (txt "."))] | None => [] end).
  destruct (put_all_ok kMaxBufferSize ms b1) as (b2 & E2 & Hb2 & Hc2); [subst ms; destruct msg; by repeat constructor|done|].
  replace (match msg with Some _ => _ | None => _ end) with (put_all ms b1) by (by subst ms; destruct msg). rewrite E2. cbn [mbind outcome_bind].
  set (es := if negb (err =? 0) then [PString (fast_safe_strerror err); PCString (Some (txt " (errno=")); PInt err; PCString (Some (txt ") "))] else []).
  destruct (put_all_ok kMaxBufferSize es b2) as (b3 & E3 & Hb3 & Hc3); [subst es; destruct (negb _); repeat constructor; lia|done|].
  replace (put_errno fast_safe_strerror err b2) with (put_all es b2) by (subst es; unfold put_errno; by destruct (negb _)). rewrite E3. cbn [mbind outcome_bind].
  destruct (put_all_ok kMaxBufferSize items b3 Hitems Hb3) as (b4 & -> & Hb4 & Hc4). cbn [mbind outcome_bind]. unfold endl.
  destruct (put_all_ok kMaxBufferSize [PCString (Some (txt " - ")); PPiece (file_basename file); PChar Byte.x3a; PInt line; PChar Byte.x0a] b4)
    as (b5 & -> & Hb5 & Hc5); [repeat constructor; lia|done|]. cbn [mbind outcome_bind].
  rewrite to_string_ok by apply Hb5. cbn [mbind outcome_bind]. do 3 f_equal. destruct (g_log_output_handler g); [|done]. do 2 f_equal.
  unfold line_pieces. rewrite !fill_app, Hc5, Hc4, Hc3, Hc2, Hc1, Hc0. unfold ms, es. by destruct msg; destruct (negb _).
Qed.

End Line.

(** ** Examples *)

Definition shown (xs : list item) : outcome bytes := b ← make_stream kMaxBufferSize; b ← put_all xs b; to_string b.

(** A [size_t] is printed like a pointer. *)
Example unsigned_long_in_hex : shown [PUnsignedLong 100] = Ok (txt "0x64") /\ shown [PUnsignedLongLong 100] = Ok (txt "100").
Proof. split; vm_compute; reflexivity. Qed.

(** The text for a null pointer is appended with its terminator. *)
Example null_string : shown [PCString None; PChar Byte.x2e] = Ok (txt "(*null*)" ++ [Byte.x00] ++ txt ".").
Proof. vm_compute. reflexivity. Qed.

(** Within the first second of 1970 the head has no date: the cache is taken as filled. *)
Example first_second_undated :
  let x := mkTm 0 0 0 1 0 70 4 0 in
  (x ← log_message (fun _ => x) (txt "1") (fun _ => []) (mkLogging 0 true true) 5000 7 (txt "a/b.cc") LOG_INFO None 0 [PCString (Some (txt "x"))] initial_cache;
   Ok x.2) = Ok [Output (txt ".005000 1 INFO x - b.cc:7" ++ [Byte.x0a])].
Proof. vm_compute. reflexivity. Qed.

(** ** Properties *)

(** Numbers are printed correctly over their whole range, the least signed number included, without overrunning the array:
    in decimal for the integer types, and for pointers (and [unsigned long]) with "0x" and the hexadecimal digits of the value, without leading zeros. *)
Theorem numbers_printed (max v : Z) (b : ByteBuffer) :
  stream_ok max b ->
  (- 2 ^ 63 <= v < 2 ^ 64 ->
     exists b', format_number v b = Ok b' /\ stream_ok max b' /\ contents b' = offer max (contents b) (txt (pretty v)))
  /\ (0 <= v < 2 ^ 64 ->
     exists b' s, format_number_uintptr v b = Ok b' /\ stream_ok max b' /\ contents b' = offer max (contents b) (txt "0x" ++ s)
       /\ hex_value s = Some v /\ s <> [] /\ (v = 0 \/ head s <> Some Byte.x30)).
Proof.
  intros Hb. split; intros Hv.
  - unfold format_number. rewrite convert_pretty by done. by apply stream_append_ok.
  - destruct (convert_hex_ok v Hv) as (E & H1 & H2 & H3). unfold format_number_uintptr. rewrite E. cbn [mbind outcome_bind].
    destruct (stream_append_ok max (txt "0x" ++ hex v) b Hb) as (b' & E' & Hb' & Hc). by exists b', (hex v).
Qed.

Lemma numbers_printed_witness :
  exists b', format_number (- 2 ^ 63) (mkBuffer 64 0 0 (replicate 64 Byte.x00)) = Ok b' /\ contents b' = txt "-9223372036854775808".
Proof.
  destruct (numbers_printed 64 (- 2 ^ 63) (mkBuffer 64 0 0 (replicate 64 Byte.x00))) as [H _].
  - vm_compute. intuition congruence.
  - destruct H as (b' & E & _ & Hc); [vm_compute; intuition congruence|]. exists b'. split; [exact E|]. rewrite Hc. vm_compute. reflexivity.
Defined.

(** C30. A log line.  Whatever the message, the severity and the state of the cache of the thread, the handler gets one line: the local time of this message, with
    microseconds, the thread, the severity, the text, the file and the line, in this order, each piece that does not fit the 4096 bytes
    being left out as a whole; the cache stays right for the next message, and a fatal message flushes and aborts. *)
Theorem log_line_correct (localtime : Z -> tm) (tid : bytes) (strerror : Z -> bytes) (g : Logging)
    (time line : Z) (file : bytes) (sev : Z) (msg : option bytes) (err : Z) (items : list item) (cache : Cache) :
  cache_ok localtime cache ->
  kMicrosecondsPerSecond <= time < 2 ^ 62 -> - 2 ^ 31 <= line < 2 ^ 31 -> - 2 ^ 31 <= err < 2 ^ 31 -> Forall item_ok items ->
  let pieces := line_pieces localtime tid strerror time line file sev msg err items in
  exists cache' out, cache_ok localtime cache' /\
    log_message localtime tid strerror g time line file sev msg err items cache =
    Ok (cache', (if g_log_output_handler g then [Output out] else [])
                ++ (if sev =? LOG_FATAL then (if g_log_fflush_handler g then [FFlush] else []) ++ [Abort] else []))
    /\ out = fill kMaxBufferSize [] pieces /\ zlen out <= kMaxBufferSize
    /\ (zlen (concat pieces) <= kMaxBufferSize -> out = concat pieces).
Proof.
  intros Hcache Ht Hl He Hi pieces.
  destruct (log_message_ok localtime tid strerror g time line file sev msg err items cache Hcache Ht Hl He Hi) as (cache' & Hc' & E).
  exists cache', (fill kMaxBufferSize [] pieces). split_and!; [done|done|done|by apply fill_bound|]. intros Hfit. by apply fill_fits.
Qed.

Lemma log_line_correct_witness :
  let x := mkTm 1 0 12 29 1 120 6 0 in
  exists cache' out, log_message (fun _ => x) (txt "17") (fun _ => []) (mkLogging 0 true true) 1000001 7 (txt "src/a.cc") LOG_WARNING None 0 [PInt (-5)] initial_cache
    = Ok (cache', [Output out]) /\ out = txt "2020-02-29 12:00:01.000001 17 WARNING -5 - a.cc:7" ++ [Byte.x0a].
Proof.
  intros x.
  destruct (log_line_correct (fun _ => x) (txt "17") (fun _ => []) (mkLogging 0 true true) 1000001 7 (txt "src/a.cc") LOG_WARNING None 0 [PInt (-5)] initial_cache)
    as (cache' & out & _ & E & _ & _ & Hout).
  - left. reflexivity.
  - vm_compute. intuition congruence.
  - vm_compute. intuition congruence.
  - vm_compute. intuition congruence.
  - repeat constructor; vm_compute; congruence.
  - exists cache', out. split; [exact E|]. rewrite Hout; vm_compute; [reflexivity|congruence].
Defined.
