(* ===== verification/EventLoop.v ===== *)
(** * EventLoop (include/EventLoop.h, src/EventLoop.cc)

    The loop of a reactor thread and the functors other threads queue for it.
    Threads interleave at the granularity of the code's atomic actions: a locked
    section, one store or load of an atomic, one system call.  The loop thread is
    a program counter over [loop()] and [do_calling_wakeup_functors()]; any other
    thread is the list of calls it still has to make.  A functor, and the handler
    of a channel other than the wakeup channel, is the list of calls it makes on
    the loop.  Relaxed atomics are taken as sequentially consistent.

    The file shows that functors run exactly once and in the order of the queue,
    that the loop never sleeps on a queued functor or on a request to quit, and
    that one iteration runs everything queued before it.  It also has the timer
    entry points [run_at], [run_after], [run_every] and [cancel]. *)

From Stdlib Require Import Floats.SpecFloat.
From S2P Require Import Prelude TimeStamp TimerPool.

(** ** Definitions *)

Definition kPollTimeoutMs : Z := 30 * 1000.

Abbreviation functor := nat (only parsing).

Record EventLoop : Type := mkLoop {
  wakeup_functors_ : list nat;
  calling_wakeup_functors_ : bool;
  quit_ : bool;
  looping_ : bool;
  looping_times_ : Z;
  counter : Z;              (** of the eventfd behind [wakeup_socket_] *)
  pushed : list nat;        (** history: every functor queued *)
  ran : list nat;           (** history: every functor taken from the queue and called *)
}.

Definition set_functors (l : list nat) (s : EventLoop) : EventLoop :=
  mkLoop l (calling_wakeup_functors_ s) (quit_ s) (looping_ s) (looping_times_ s) (counter s)
    (pushed s) (ran s).
Definition set_calling (b : bool) (s : EventLoop) : EventLoop :=
  mkLoop (wakeup_functors_ s) b (quit_ s) (looping_ s) (looping_times_ s) (counter s)
    (pushed s) (ran s).
Definition set_quit (s : EventLoop) : EventLoop :=
  mkLoop (wakeup_functors_ s) (calling_wakeup_functors_ s) true (looping_ s) (looping_times_ s)
    (counter s) (pushed s) (ran s).
Definition set_looping (b : bool) (s : EventLoop) : EventLoop :=
  mkLoop (wakeup_functors_ s) (calling_wakeup_functors_ s) (quit_ s) b (looping_times_ s)
    (counter s) (pushed s) (ran s).
Definition set_counter (n : Z) (s : EventLoop) : EventLoop :=
  mkLoop (wakeup_functors_ s) (calling_wakeup_functors_ s) (quit_ s) (looping_ s)
    (looping_times_ s) n (pushed s) (ran s).
Definition count_loop (s : EventLoop) : EventLoop :=
  mkLoop (wakeup_functors_ s) (calling_wakeup_functors_ s) (quit_ s) (looping_ s)
    (looping_times_ s + 1) (counter s) (pushed s) (ran s).
Definition push_functor (f : nat) (s : EventLoop) : EventLoop :=
  mkLoop (wakeup_functors_ s ++ [f]) (calling_wakeup_functors_ s) (quit_ s) (looping_ s)
    (looping_times_ s) (counter s) (pushed s ++ [f]) (ran s).
Definition log_ran (f : nat) (s : EventLoop) : EventLoop :=
  mkLoop (wakeup_functors_ s) (calling_wakeup_functors_ s) (quit_ s) (looping_ s)
    (looping_times_ s) (counter s) (pushed s) (ran s ++ [f]).

(** eventfd(2): a write of 1 adds one to the counter and fails with [EAGAIN] at
    the maximum; a read resets it and fails with [EAGAIN] at zero. *)
Definition kEventfdMax : Z := 2 ^ 64 - 2.

Definition wakeup (s : EventLoop) : EventLoop :=
  if counter s <? kEventfdMax then set_counter (counter s + 1) s else s.

Definition handle_read (s : EventLoop) : EventLoop :=
  if 0 <? counter s then set_counter 0 s else s.

(** The calls of a thread on the loop.  [queue_in_own_loop] and [quit] are two
    actions each; [WakeQueue] and [WakeQuit] are their second halves. *)
Inductive call : Type :=
  | Queue (f : nat)
  | WakeQueue
  | Quit
  | WakeQuit
  | Run (f : nat).

#[export] Instance call_eq_dec : EqDecision call.
Proof. solve_decision. Defined.

(** The handlers of the active channels, in the order of [active_channels_]. *)
Inductive handler : Type :=
  | WakeupRead
  | UserHandler (cs : list call).

Section Loop.
(** What a functor does. *)
Variable body : nat -> list call.

(** One action of a thread: the rest of the call, and the new state. *)
Definition exec (own : bool) (c : call) (s : EventLoop) : list call * EventLoop :=
  match c with
  | Queue f => ([WakeQueue], push_functor f s)
  | WakeQueue => ([], if negb own || calling_wakeup_functors_ s then wakeup s else s)
  | Quit => ([WakeQuit], set_quit s)
  | WakeQuit => ([], if negb own then wakeup s else s)
  | Run f => if own then (body f, s) else ([Queue f], s)
  end.

Inductive pc : Type :=
  | AtTest
  | Polling
  | Handling (cur : list call) (hs : list handler)
  | Swapping
  | Calling (cur : list call) (functors : list nat)
  | Returned.

(** One action of the loop thread; [hs] are the handlers of the channels [poll]
    reports, if it returns. *)
Definition own_step (hs : list handler) (p : pc) (s : EventLoop) : option (pc * EventLoop) :=
  match p with
  | AtTest => Some (if quit_ s then (Returned, set_looping false s) else (Polling, s))
  | Polling => Some (Handling [] hs, count_loop s)
  | Handling (c :: cs) hs => let '(r, s) := exec true c s in Some (Handling (r ++ cs) hs, s)
  | Handling [] (WakeupRead :: hs) => Some (Handling [] hs, handle_read s)
  | Handling [] (UserHandler cs :: hs) => Some (Handling cs hs, s)
  | Handling [] [] => Some (Swapping, set_calling true s)
  | Swapping => Some (Calling [] (wakeup_functors_ s), set_functors [] s)
  | Calling (c :: cs) fs => let '(r, s) := exec true c s in Some (Calling (r ++ cs) fs, s)
  | Calling [] (f :: fs) => Some (Calling (body f) fs, log_ran f s)
  | Calling [] [] => Some (AtTest, set_calling false s)
  | Returned => None
  end.

(** The call of [loop()] by the thread of the loop. *)
Definition loop (in_own_loop : bool) (s : EventLoop) : outcome (pc * EventLoop) :=
  check in_own_loop "check_in_own_loop";;
  check (negb (looping_ s)) "loop: looping_";;
  Ok (AtTest, set_looping true s).

(** The loop thread alone, [n] actions from inside an iteration. *)
Fixpoint own_steps (n : nat) (p : pc) (s : EventLoop) : option (pc * EventLoop) :=
  match n with
  | O => Some (p, s)
  | S n => match own_step [] p s with Some (p, s) => own_steps n p s | None => None end
  end.

(** The whole system: the loop thread and the others. *)
Record config : Type := mkConfig { at_ : pc; shared : EventLoop; others : list (list call) }.

(** poll(2) on the wakeup channel: reported exactly when the counter is not
    zero. *)
Definition poll_may_return (hs : list handler) (s : EventLoop) : Prop :=
  WakeupRead ∈ hs <-> 0 < counter s.

Inductive step : config -> config -> Prop :=
  | step_own hs p s p' s' ts :
      (p = Polling -> poll_may_return hs s) -> own_step hs p s = Some (p', s') ->
      step (mkConfig p s ts) (mkConfig p' s' ts)
  | step_other p s ts i c cs :
      ts !! i = Some (c :: cs) ->
      step (mkConfig p s ts)
        (mkConfig p (exec false c s).2 (<[i := (exec false c s).1 ++ cs]> ts)).

(** [loop()] just called on a fresh loop. *)
Definition initial (ts : list (list call)) : config :=
  mkConfig AtTest (mkLoop [] false false true 0 0 [] []) ts.

Definition reachable (ts : list (list call)) (c : config) : Prop := rtc step (initial ts) c.

(** ** The invariant *)

Definition in_progress (p : pc) : list nat := match p with Calling _ fs => fs | _ => [] end.

Definition calling_at (p : pc) : bool :=
  match p with Swapping | Calling _ _ => true | _ => false end.

(** Some other thread is between the two halves of a call. *)
Definition waking (w : call) (ts : list (list call)) : Prop :=
  exists i cs, ts !! i = Some (w :: cs).

(** Where a functor in the queue would be missed unless the loop is woken up. *)
Definition sleeps (p : pc) (ts : list (list call)) : Prop :=
  match p with
  | AtTest | Polling => ~ waking WakeQueue ts
  | Calling cur _ => ~ waking WakeQueue ts /\ head cur <> Some WakeQueue
  | _ => False
  end.

Record loop_ok (c : config) : Prop := {
  lo_history : pushed (shared c) = ran (shared c) ++ in_progress (at_ c) ++ wakeup_functors_ (shared c);
  lo_calling : calling_wakeup_functors_ (shared c) = calling_at (at_ c);
  lo_counter : 0 <= counter (shared c) <= kEventfdMax;
  lo_queue : sleeps (at_ c) (others c) -> wakeup_functors_ (shared c) <> [] -> 0 < counter (shared c);
  lo_quit : at_ c = Polling -> quit_ (shared c) = true -> ~ waking WakeQuit (others c) ->
    0 < counter (shared c);
}.

(** ** Lemmas *)

Lemma wakeup_counter s : 0 <= counter s <= kEventfdMax -> 0 < counter (wakeup s) <= kEventfdMax.
Proof. unfold wakeup, kEventfdMax. destruct (Z.ltb_spec (counter s) (2 ^ 64 - 2)); cbn; lia. Qed.

Lemma wakeup_same s :
  wakeup_functors_ (wakeup s) = wakeup_functors_ s /\ quit_ (wakeup s) = quit_ s /\
  pushed (wakeup s) = pushed s /\ ran (wakeup s) = ran s /\
  calling_wakeup_functors_ (wakeup s) = calling_wakeup_functors_ s.
Proof. unfold wakeup. by destruct (counter s <? kEventfdMax). Qed.

Lemma waking_insert w c cs l i ts :
  ts !! i = Some (c :: cs) -> w <> c -> waking w ts -> waking w (<[i := l]> ts).
Proof.
  intros Hi Hne (j & cs' & Hj). exists j, cs'. rewrite list_lookup_insert_ne; [done|].
  intros ->. congruence.
Qed.

Lemma waking_here w c cs l i ts :
  ts !! i = Some (c :: cs) -> waking w (<[i := w :: l]> ts).
Proof.
  intros Hi. exists i, l. apply list_lookup_insert_eq. by eapply lookup_lt_Some.
Qed.

Lemma sleeps_insert c cs l i p ts :
  ts !! i = Some (c :: cs) -> WakeQueue <> c -> sleeps p (<[i := l]> ts) -> sleeps p ts.
Proof.
  intros Hi Hne. assert (~ waking WakeQueue (<[i := l]> ts) -> ~ waking WakeQueue ts)
    by (intros Hn Hw; apply Hn; by eapply waking_insert).
  destruct p; cbn; tauto.
Qed.

Lemma step_other_ok p s ts i c cs :
  ts !! i = Some (c :: cs) -> loop_ok (mkConfig p s ts) ->
  loop_ok (mkConfig p (exec false c s).2 (<[i := (exec false c s).1 ++ cs]> ts)).
Proof.
  intros Hi [Hh Hc Hn Hq Hx]. cbn in *.
  destruct (wakeup_same s) as (W1 & W2 & W3 & W4 & W5). pose proof (wakeup_counter s Hn) as Wc.
  destruct c as [f| | | |f]; cbn [exec negb orb fst snd app].
  - split; cbn; try done.
    + by rewrite Hh, !app_assoc.
    + intros Hs. exfalso. assert (waking WakeQueue (<[i := WakeQueue :: cs]> ts)) by (by eapply waking_here).
      destruct p; cbn in Hs; tauto.
    + intros Hp Hqt Hw. apply Hx; try done. intros Hw'. apply Hw. by eapply waking_insert.
  - split; cbn; try congruence; try lia; intros; apply Wc.
  - split; cbn; try done.
    + intros Hs Hne. apply Hq; [|done]. by eapply sleeps_insert.
    + intros _ _ Hw. exfalso. apply Hw. by eapply waking_here.
  - split; cbn; try congruence; try lia; intros; apply Wc.
  - split; cbn; try done.
    + intros Hs Hne. apply Hq; [|done]. by eapply sleeps_insert.
    + intros Hp Hqt Hw. apply Hx; try done. intros Hw'. apply Hw. by eapply waking_insert.
Qed.

(** An action of the loop thread inside a handler or a functor. *)
Lemma exec_own_ok (mk : list call -> pc) c cs s ts :
  (exists hs, mk = fun l => Handling l hs) \/ (exists fs, mk = fun l => Calling l fs) ->
  loop_ok (mkConfig (mk (c :: cs)) s ts) ->
  loop_ok (mkConfig (mk ((exec true c s).1 ++ cs)) (exec true c s).2 ts).
Proof.
  intros Hmk [Hh Hc Hn Hq Hx]. cbn in *.
  destruct (wakeup_same s) as (W1 & W2 & W3 & W4 & W5). pose proof (wakeup_counter s Hn) as Wc.
  destruct Hmk as [[hs ->]|[fs ->]]; cbn in Hh, Hc, Hq |- *.
  - destruct c as [f| | | |f]; cbn [exec negb orb fst snd app]; rewrite ?Hc; split; cbn; try done.
    by rewrite Hh, app_assoc.
  - destruct c as [f| | | |f]; cbn [exec negb orb fst snd app]; rewrite ?Hc; split; cbn; try done.
    + by rewrite Hh, <- !app_assoc.
    + by intros [_ ?].
    + by rewrite W1, W3, W4.
    + congruence.
    + lia.
    + intros. lia.
    + intros [Hw _]. apply Hq. done.
    + intros [Hw _]. apply Hq. done.
    + intros [Hw _]. apply Hq. done.
Qed.

Lemma own_step_ok hs p s p' s' ts :
  own_step hs p s = Some (p', s') -> loop_ok (mkConfig p s ts) -> loop_ok (mkConfig p' s' ts).
Proof.
  intros Hstep Hok. destruct p as [| |cur hs'| |cur fs|]; cbn in Hstep.
  - destruct Hok as [Hh Hc Hn Hq Hx]. cbn in *.
    destruct (quit_ s) eqn:Eq; injection Hstep as <- <-; split; cbn; try done.
    by rewrite Eq.
  - destruct Hok as [Hh Hc Hn Hq Hx]. cbn in *. injection Hstep as <- <-. by split.
  - destruct cur as [|c cur].
    2: { destruct (exec true c s) as [r s1] eqn:Ee. injection Hstep as <- <-.
         pose proof (exec_own_ok (fun l => Handling l hs') c cur s ts (or_introl (ex_intro _ hs' eq_refl)) Hok) as H.
         by rewrite Ee in H. }
    destruct Hok as [Hh Hc Hn Hq Hx]. cbn in *.
    destruct hs' as [|[|cs] hs']; injection Hstep as <- <-.
    + by split.
    + unfold handle_read. by destruct (0 <? counter s); split.
    + by split.
  - destruct Hok as [Hh Hc Hn Hq Hx]. cbn in *. injection Hstep as <- <-. split; cbn; try done.
    by rewrite app_nil_r.
  - destruct cur as [|c cur].
    2: { destruct (exec true c s) as [r s1] eqn:Ee. injection Hstep as <- <-.
         pose proof (exec_own_ok (fun l => Calling l fs) c cur s ts (or_intror (ex_intro _ fs eq_refl)) Hok) as H.
         by rewrite Ee in H. }
    destruct Hok as [Hh Hc Hn Hq Hx]. cbn in *.
    destruct fs as [|f fs]; injection Hstep as <- <-; split; cbn; try done.
    + intros Hw. by apply Hq.
    + by rewrite Hh, <- app_assoc.
    + intros [Hw _]. by apply Hq.
  - done.
Qed.

Lemma reachable_ok ts c : reachable ts c -> loop_ok c.
Proof.
  assert (loop_ok (initial ts)) as H0 by (split; cbn; try done; unfold kEventfdMax; lia).
  unfold reachable. revert H0. generalize (initial ts). intros c0 H0 Hr. induction Hr as [|x y z Hxy _ IH]; [done|].
  apply IH. destruct Hxy as [hs p s p' s' ts' _ Hstep|p s ts' i c cs Hi];
    [by eapply own_step_ok | by apply step_other_ok].
Qed.

(** *** One iteration of the loop thread alone *)

Definition runs (p : pc) (s : EventLoop) (p' : pc) (s' : EventLoop) : Prop :=
  exists n, own_steps n p s = Some (p', s').

Lemma runs_refl p s : runs p s p s.
Proof. by exists O. Qed.

Lemma runs_step p s p' s' q t : own_step [] p s = Some (p', s') -> runs p' s' q t -> runs p s q t.
Proof. intros Hs [n Hn]. exists (S n). cbn. by rewrite Hs. Qed.

Lemma runs_trans p s p' s' q t : runs p s p' s' -> runs p' s' q t -> runs p s q t.
Proof.
  intros [n Hn]. revert p s Hn. induction n as [|n IH]; intros p s Hn Hr; cbn in Hn.
  { by injection Hn as -> ->. }
  destruct (own_step [] p s) as [[p1 s1]|] eqn:E; [|done].
  eapply runs_step; [done|]. by apply IH.
Qed.

(** What the calls of the loop thread can change: the queue grows, and [quit_]
    stays set. *)
Definition grows (s s' : EventLoop) : Prop :=
  (exists ext, wakeup_functors_ s' = wakeup_functors_ s ++ ext) /\ ran s' = ran s /\
  (quit_ s = true -> quit_ s' = true).

Lemma grows_refl s : grows s s.
Proof. split; [|done]. exists []. by rewrite app_nil_r. Qed.

Lemma grows_trans s t u : grows s t -> grows t u -> grows s u.
Proof.
  intros ([x Hx] & Hr & Hq) ([y Hy] & Hr' & Hq'). split; [|split; [congruence | auto]].
  exists (x ++ y). by rewrite Hy, Hx, app_assoc.
Qed.

Lemma grows_wakeup s : grows s (wakeup s).
Proof.
  destruct (wakeup_same s) as (W1 & W2 & _ & W4 & _). unfold grows. rewrite W1, W2, W4.
  split; [|done]. exists []. by rewrite app_nil_r.
Qed.

Lemma exec_grows c s : grows s (exec true c s).2.
Proof.
  destruct c; cbn; [|destruct (calling_wakeup_functors_ s)| | |];
    try apply grows_refl; try apply grows_wakeup; split; cbn; eauto.
  exists []. by rewrite app_nil_r.
Qed.

Section Iteration.
(** Functors do not call one another in circles through [run_in_own_loop]. *)
Variable rank : nat -> nat.
Hypothesis Hrank : forall f g, Run g ∈ body f -> (rank g < rank f)%nat.

(** [mk] is a program counter that executes the calls it is given. *)
Definition executes (mk : list call -> pc) : Prop :=
  forall c l s, own_step [] (mk (c :: l)) s = Some (mk ((exec true c s).1 ++ l), (exec true c s).2).

Lemma executes_handling hs : executes (fun l => Handling l hs).
Proof. intros c l s. cbn. by destruct (exec true c s). Qed.
Lemma executes_calling fs : executes (fun l => Calling l fs).
Proof. intros c l s. cbn. by destruct (exec true c s). Qed.

Lemma run_calls mk (Hmk : executes mk) n cs k s :
  (forall g, Run g ∈ cs -> (rank g < n)%nat) ->
  exists s', runs (mk (cs ++ k)) s (mk k) s' /\ grows s s'.
Proof.
  revert cs k s. induction n as [|n IHn]; intros cs; induction cs as [|c cs IHc]; intros k s Hg.
  1, 3: exists s; split; [apply runs_refl | apply grows_refl].
  all: assert (forall g, Run g ∈ cs -> (rank g < _)%nat) as Hg'
    by (intros g Hin; apply Hg; by apply list_elem_of_further).
  all: pose proof (exec_grows c s) as G1.
  all: assert (exists t, runs (mk ((exec true c s).1 ++ cs ++ k)) (exec true c s).2 (mk (cs ++ k)) t /\
    grows (exec true c s).2 t) as (t & R1 & G2); [|
      destruct (IHc k t Hg') as (u & R2 & G3); exists u; split;
        [eapply runs_step; [apply Hmk|]; eapply runs_trans; eauto
        | eapply grows_trans; [exact G1|]; by eapply grows_trans]].
  all: destruct c as [f| | | |f];
    [ exists (exec true WakeQueue (exec true (Queue f) s).2).2; split;
        [eapply runs_step; [apply Hmk | apply runs_refl] | apply exec_grows]
    | eexists; split; [apply runs_refl | apply grows_refl]
    | exists (exec true WakeQuit (exec true Quit s).2).2; split;
        [eapply runs_step; [apply Hmk | apply runs_refl] | apply exec_grows]
    | eexists; split; [apply runs_refl | apply grows_refl]
    | ].
  - exfalso. specialize (Hg f (list_elem_of_here _ _)). lia.
  - cbn. apply IHn. intros g Hin. specialize (Hg f (list_elem_of_here _ _)).
    specialize (Hrank f g Hin). lia.
Qed.

Lemma rank_bound (cs : list call) : exists n, forall g, Run g ∈ cs -> (rank g < n)%nat.
Proof.
  induction cs as [|c cs [n IH]]; [exists O; intros g Hin; by apply elem_of_nil in Hin|].
  exists (S (n + match c with Run f => rank f | _ => O end)).
  intros g [<-|Hin]%elem_of_cons; [cbn; lia|]. specialize (IH g Hin). lia.
Qed.

Lemma run_handlers hs s : exists s', runs (Handling [] hs) s Swapping s' /\ grows s s'.
Proof.
  revert s. induction hs as [|[|cs] hs IH]; intros s.
  - exists (set_calling true s). split; [eapply runs_step; [done | apply runs_refl]|].
    split; [|done]. exists []. by rewrite app_nil_r.
  - destruct (IH (handle_read s)) as (s' & Hr & Hg). exists s'. split; [by eapply runs_step|].
    eapply grows_trans; [|done]. unfold handle_read. destruct (0 <? counter s); [|apply grows_refl].
    split; [|done]. exists []. by rewrite app_nil_r.
  - destruct (rank_bound cs) as [n Hn].
    destruct (run_calls _ (executes_handling hs) n cs [] s Hn) as (t & Hr & Hg).
    destruct (IH t) as (s' & Hr' & Hg'). exists s'. split; [|by eapply grows_trans].
    eapply runs_step; [done|]. rewrite app_nil_r in Hr. by eapply runs_trans.
Qed.

Lemma run_functors fs s :
  exists s', runs (Calling [] fs) s AtTest s' /\ ran s' = ran s ++ fs /\ (quit_ s = true -> quit_ s' = true).
Proof.
  revert s. induction fs as [|f fs IH]; intros s.
  - exists (set_calling false s). rewrite app_nil_r. split_and!; try done.
    eapply runs_step; [done | apply runs_refl].
  - destruct (run_calls _ (executes_calling fs) (rank f) (body f) [] (log_ran f s)) as (t & Hr & _ & Hran & Hq).
    { intros g Hin. by apply Hrank. }
    destruct (IH t) as (s' & Hr' & Hran' & Hq'). exists s'. split_and!.
    + eapply runs_step; [done|]. rewrite app_nil_r in Hr. by eapply runs_trans.
    + rewrite Hran', Hran. cbn. by rewrite <- app_assoc.
    + auto.
Qed.

Lemma iteration hs s :
  exists s', runs (Handling [] hs) s AtTest s' /\ (exists ext, ran s' = ran s ++ wakeup_functors_ s ++ ext) /\
    (quit_ s = true -> quit_ s' = true).
Proof.
  destruct (run_handlers hs s) as (t & Hr & [ext He] & Hran & Hq).
  destruct (run_functors (wakeup_functors_ t) (set_functors [] t)) as (s' & Hr' & Hran' & Hq').
  exists s'. split_and!.
  - eapply runs_trans; [done|]. by eapply runs_step.
  - exists ext. rewrite Hran'. cbn. by rewrite Hran, He.
  - auto.
Qed.
End Iteration.
End Loop.

Lemma waking_dec w (ts : list (list call)) : waking w ts \/ ~ waking w ts.
Proof.
  induction ts as [|t ts IH].
  { right. intros (i & cs & Hi). by rewrite lookup_nil in Hi. }
  assert ((exists cs, t = w :: cs) \/ ~ exists cs, t = w :: cs) as [(cs & ->)|Ht].
  { destruct t as [|c cs]; [right; by intros [? ?]|].
    destruct (decide (c = w)) as [->|?]; [left; eauto | right; intros [? [= ? ?]]; congruence]. }
  { left. by exists O, cs. }
  destruct IH as [(i & cs & Hi)|Hn]; [left; by exists (S i), cs|].
  right. intros ([|i] & cs & Hi); cbn in Hi; [injection Hi as ->; eauto|]. apply Hn. by exists i, cs.
Qed.

(** ** Timers *)

Section Timers.
Variables (settime : Z * Z -> Z) (alloc : gmap Z Timer -> option Z).

(** [now] is the clock read when the timer is added, [tnow] the one read here. *)
Definition run_at (time now : Z) (p : TimerPool) : outcome TimerPool :=
  add_timer settime alloc time (S754_zero false) now p.
Definition run_at_s (time_s : spec_float) (now : Z) (p : TimerPool) : outcome TimerPool :=
  d ← from_seconds_d time_s; t ← time_add 0 d; run_at t now p.

Definition run_after (delta tnow now : Z) (p : TimerPool) : outcome TimerPool :=
  t ← time_add tnow delta; run_at t now p.
Definition run_after_s (delay_s : spec_float) (tnow now : Z) (p : TimerPool) : outcome TimerPool :=
  d ← from_seconds_d delay_s; run_after d tnow now p.

Definition run_every (delta tnow now : Z) (p : TimerPool) : outcome TimerPool :=
  t ← time_add tnow delta; add_timer settime alloc t (in_seconds_f delta) now p.
Definition run_every_s (interval_s : spec_float) (tnow now : Z) (p : TimerPool) : outcome TimerPool :=
  d ← from_seconds_d interval_s; run_every d tnow now p.

Definition cancel (a seq now : Z) (p : TimerPool) : outcome TimerPool :=
  cancel_timer_in_own_loop settime a seq now p.
End Timers.

(** ** Properties *)

(** C27. Functors run exactly once and in the order they were queued, whatever the
    interleaving: the functors queued so far are those already called, followed
    by the rest of the batch being called, followed by the queue. *)
Theorem functors_fifo body ts c :
  reachable body ts c ->
  pushed (shared c) = ran (shared c) ++ in_progress (at_ c) ++ wakeup_functors_ (shared c).
Proof. intros Hr. by destruct (reachable_ok body ts c Hr). Qed.

(** C7. No wakeup is lost by a loop that has entered [loop()] with nothing queued (what its own thread queues
    before [loop()] does not wake it, [early_functor_sleeps]): when the loop thread waits in [poll] while a functor
    is queued or [quit] was called, the wakeup descriptor is readable, so that
    [poll] returns, or the thread that queued or quit is just about to write it. *)
Theorem no_lost_wakeup body ts c :
  reachable body ts c -> at_ c = Polling ->
  (wakeup_functors_ (shared c) <> [] -> 0 < counter (shared c) \/ waking WakeQueue (others c)) /\
  (quit_ (shared c) = true -> 0 < counter (shared c) \/ waking WakeQuit (others c)).
Proof.
  intros Hr Hp. destruct (reachable_ok body ts c Hr) as [_ _ _ Hq Hx]. rewrite Hp in Hq. cbn in Hq. split.
  - intros Hne. destruct (waking_dec WakeQueue (others c)) as [|Hn]; [by right | left; auto].
  - intros Ht. destruct (waking_dec WakeQuit (others c)) as [|Hn]; [by right | left; auto].
Qed.

(** C28. Progress: once [poll] returned with any active channels, the loop thread
    comes back to the test of [quit_] by itself, after calling every functor that
    was queued when [poll] returned; if [quit_] was set by then, [loop()] returns. *)
Theorem loop_progress body (rank : nat -> nat) hs s :
  (forall f g, Run g ∈ body f -> (rank g < rank f)%nat) ->
  exists s', runs body (Handling [] hs) s AtTest s' /\
    (exists ext, ran s' = ran s ++ wakeup_functors_ s ++ ext) /\
    (quit_ s = true -> runs body (Handling [] hs) s Returned (set_looping false s')).
Proof.
  intros Hrank. destruct (iteration body rank Hrank hs s) as (s' & Hr & Hext & Hq).
  exists s'. split_and!; [done | done |]. intros Ht.
  eapply runs_trans; [done|]. eapply runs_step; [|apply runs_refl]. cbn. by rewrite Hq.
Qed.

(** Functor 0 queues functor 1, which quits. *)
Definition demo_body (f : nat) : list call :=
  match f with O => [Queue 1] | 1%nat => [Quit] | _ => [] end.
Definition demo_queued : config :=
  mkConfig Polling (mkLoop [0%nat] false false true 0 0 [0%nat] []) [[WakeQueue]].

Lemma demo_reachable : reachable demo_body [[Queue 0]] demo_queued.
Proof.
  eapply rtc_l; [apply (step_own _ []); [done | reflexivity]|].
  eapply rtc_l; [apply (step_other _ _ _ _ 0 (Queue 0) []); reflexivity|].
  apply rtc_refl.
Qed.

Lemma functors_fifo_witness : pushed (shared demo_queued) = [] ++ [] ++ [0%nat].
Proof. exact (functors_fifo demo_body [[Queue 0]] demo_queued demo_reachable). Defined.

Lemma no_lost_wakeup_witness :
  0 < counter (shared demo_queued) \/ waking WakeQueue (others demo_queued).
Proof.
  exact (proj1 (no_lost_wakeup demo_body [[Queue 0]] demo_queued demo_reachable eq_refl)
    ltac:(discriminate)).
Defined.

Lemma loop_progress_witness :
  exists s', runs demo_body (Handling [] [WakeupRead]) (mkLoop [0%nat] false false true 0 1 [0%nat] []) AtTest s' /\
    exists ext, ran s' = [] ++ [0%nat] ++ ext.
Proof.
  assert (forall f g, Run g ∈ demo_body f -> (O < O)%nat) as H.
  { intros [|[|f]] g Hin; cbn in Hin; [| |by apply elem_of_nil in Hin];
      apply list_elem_of_singleton in Hin; discriminate. }
  destruct (loop_progress demo_body (fun _ => O) [WakeupRead]
    (mkLoop [0%nat] false false true 0 1 [0%nat] []) H) as (s' & H1 & H2 & _).
  exists s'. exact (conj H1 H2).
Defined.

(** A functor the owning thread queues before it calls [loop()] does not wake it
    up: the first [poll] waits for its timeout with the functor in the queue. *)
Example early_functor_sleeps :
  let s0 := mkLoop [] false false false 0 0 [] [] in
  let s1 := (exec demo_body true WakeQueue (exec demo_body true (Queue 7) s0).2).2 in
  match loop true s1 with
  | Ok (p, s) => match own_step demo_body [] p s with
                 | Some (p, s) => p = Polling /\ counter s = 0 /\ wakeup_functors_ s = [7%nat]
                 | None => False
                 end
  | Fault _ => False
  end.
Proof. vm_compute. done. Qed.
