(* ===== verification/TcpConnection.v ===== *)
(** * TcpConnection (include/TcpConnection.h, src/TcpConnection.cc)

    A connection in its event loop: the connection state, its channel in the
    poller of the loop, its two buffers, and the functors queued for the loop.
    [write] and [readv] are parameters, one result per call; a user callback is
    the list of calls it makes on the connection.  The member functions named
    [..._in_loop] and the handlers run in the thread of the loop; the public ones
    take whether the caller is that thread.

    The file shows that no assertion fails and the bytes handed to [send] reach
    the socket in order and without loss, that write interest follows the output
    buffer, that the socket is shut down only after the output buffer was sent
    and then always, and that the callbacks come in the order connect, messages,
    close. *)

From Stdlib Require Import Floats.SpecFloat.
From S2P Require Import Prelude ByteBuffer NetBuffer Channel Poller TimeStamp.

(** ** Definitions *)

Inductive StateE : Type := kDisconnected | kConnecting | kConnected | kDisconnecting.

#[export] Instance StateE_eq_dec : EqDecision StateE.
Proof. solve_decision. Defined.

Definition state_to_string (s : StateE) : bytes :=
  match s with
  | kDisconnected => txt "kDisconnected"
  | kConnecting => txt "kConnecting"
  | kConnected => txt "kConnected"
  | kDisconnecting => txt "kDisconnecting"
  end.

Definition EAGAIN : Z := 11.
Definition EPIPE : Z := 32.
Definition ECONNRESET : Z := 104.

(** The result of a write(2): a count, or -1 with [errno]. *)
Inductive wresult : Type := Wrote (n : Z) | WriteErr (errno : Z).

(** The public calls on a connection. *)
Inductive user_call : Type :=
  | Send (d : bytes)
  | Shutdown
  | ForceClose
  | ForceCloseWithDelay (delay_s : spec_float)
  | StartRead
  | StopRead.

(** What the connection queues in its loop. *)
Inductive task : Type :=
  | InitializeInLoop
  | SendInLoop (d : bytes)
  | ShutdownInLoop
  | ForceCloseInLoop
  | StartReadInLoop
  | StopReadInLoop
  | WriteCompleteCb
  | HighWaterMarkCb (n : Z).

(** History: the callbacks run, in order; a message with the bytes that were read for it. *)
Inductive conn_event : Type := Connected | Message (d : bytes) | WriteComplete | HighWaterMark | Closed | Finished.

(** The user callbacks; the message callback also consumes input. *)
Record Callbacks : Type := {
  connect_cb_ : list user_call;
  close_cb_ : list user_call;
  message_cb_ : ByteBuffer -> outcome (ByteBuffer * list user_call);
  write_complete_cb_ : option (list user_call);
  high_water_mark_cb_ : option (list user_call);
  high_water_mark_ : Z;
}.

Definition default_message_callback (b : ByteBuffer) : outcome (ByteBuffer * list user_call) :=
  Ok (has_read_all b, []).

Definition default_callbacks : Callbacks :=
  {| connect_cb_ := []; close_cb_ := []; message_cb_ := default_message_callback;
     write_complete_cb_ := None; high_water_mark_cb_ := None;
     high_water_mark_ := 64 * 1024 * 1024 |}.

Section TcpConnection.
Context {B : Type} `{PollBackend B}.

Record TcpConnection : Type := mkConn {
  initilize_ : bool;
  reading_ : bool;
  state_ : StateE;
  connect_channel_ : nat;
  input_buffer_ : ByteBuffer;
  output_buffer_ : ByteBuffer;
  poller : Poller B;              (** of the owner loop *)
  queue : list task;              (** [wakeup_functors_] of the owner loop *)
  close_timers : list Z;          (** the timers of [force_close_with_delay] *)
  calls : nat;                    (** system calls made on the socket *)
  wrote : bytes;                  (** the bytes the kernel took *)
  shut_wr : bool;                 (** shutdown(2) was called *)
  messages : list (bytes * bool); (** history: data of [send_in_loop], and whether it was kept *)
  trace : list conn_event;        (** history *)
}.

Definition set_state (s : StateE) (c : TcpConnection) : TcpConnection :=
  mkConn (initilize_ c) (reading_ c) s (connect_channel_ c) (input_buffer_ c) (output_buffer_ c)
    (poller c) (queue c) (close_timers c) (calls c) (wrote c) (shut_wr c) (messages c) (trace c).
Definition set_reading (r : bool) (c : TcpConnection) : TcpConnection :=
  mkConn (initilize_ c) r (state_ c) (connect_channel_ c) (input_buffer_ c) (output_buffer_ c)
    (poller c) (queue c) (close_timers c) (calls c) (wrote c) (shut_wr c) (messages c) (trace c).
Definition set_input (b : ByteBuffer) (c : TcpConnection) : TcpConnection :=
  mkConn (initilize_ c) (reading_ c) (state_ c) (connect_channel_ c) b (output_buffer_ c)
    (poller c) (queue c) (close_timers c) (calls c) (wrote c) (shut_wr c) (messages c) (trace c).
Definition set_output (b : ByteBuffer) (c : TcpConnection) : TcpConnection :=
  mkConn (initilize_ c) (reading_ c) (state_ c) (connect_channel_ c) (input_buffer_ c) b
    (poller c) (queue c) (close_timers c) (calls c) (wrote c) (shut_wr c) (messages c) (trace c).
Definition set_poller (p : Poller B) (c : TcpConnection) : TcpConnection :=
  mkConn (initilize_ c) (reading_ c) (state_ c) (connect_channel_ c) (input_buffer_ c) (output_buffer_ c)
    p (queue c) (close_timers c) (calls c) (wrote c) (shut_wr c) (messages c) (trace c).
Definition set_queue (q : list task) (c : TcpConnection) : TcpConnection :=
  mkConn (initilize_ c) (reading_ c) (state_ c) (connect_channel_ c) (input_buffer_ c) (output_buffer_ c)
    (poller c) q (close_timers c) (calls c) (wrote c) (shut_wr c) (messages c) (trace c).
Definition set_timers (t : list Z) (c : TcpConnection) : TcpConnection :=
  mkConn (initilize_ c) (reading_ c) (state_ c) (connect_channel_ c) (input_buffer_ c) (output_buffer_ c)
    (poller c) (queue c) t (calls c) (wrote c) (shut_wr c) (messages c) (trace c).
Definition set_shut (c : TcpConnection) : TcpConnection :=
  mkConn (initilize_ c) (reading_ c) (state_ c) (connect_channel_ c) (input_buffer_ c) (output_buffer_ c)
    (poller c) (queue c) (close_timers c) (calls c) (wrote c) true (messages c) (trace c).
Definition log_message (d : bytes) (kept : bool) (c : TcpConnection) : TcpConnection :=
  mkConn (initilize_ c) (reading_ c) (state_ c) (connect_channel_ c) (input_buffer_ c) (output_buffer_ c)
    (poller c) (queue c) (close_timers c) (calls c) (wrote c) (shut_wr c)
    (messages c ++ [(d, kept)]) (trace c).
Definition log_event (e : conn_event) (c : TcpConnection) : TcpConnection :=
  mkConn (initilize_ c) (reading_ c) (state_ c) (connect_channel_ c) (input_buffer_ c) (output_buffer_ c)
    (poller c) (queue c) (close_timers c) (calls c) (wrote c) (shut_wr c) (messages c) (trace c ++ [e]).
(** A system call on the socket, which took the bytes [d]. *)
Definition log_call (d : bytes) (c : TcpConnection) : TcpConnection :=
  mkConn (initilize_ c) (reading_ c) (state_ c) (connect_channel_ c) (input_buffer_ c) (output_buffer_ c)
    (poller c) (queue c) (close_timers c) (S (calls c)) (wrote c ++ d) (shut_wr c) (messages c) (trace c).

Definition enqueue (t : task) (c : TcpConnection) : TcpConnection := set_queue (queue c ++ [t]) c.

(** [connect_channel_->is_write_event()] and the like. *)
Definition channel_of (c : TcpConnection) : outcome Channel :=
  deref (chans (poller c)) (connect_channel_ c).

(** [connect_channel_->enable_read_event()] and the like. *)
Definition channel_interest (o : interest_op) (c : TcpConnection) : outcome TcpConnection :=
  p ← interest true o (connect_channel_ c) (poller c); Ok (set_poller p c).

Section Operations.
Variable cbs : Callbacks.
(** The [k]-th system call on the socket, as write(2) of the data, after
    shutdown(2) or not, and as readv(2). *)
Variable write : nat -> bool -> bytes -> wresult.
Variable readv : nat -> list Z -> Z + bytes.

(** The direct write of [send_in_loop]: [nwrote] and [fault_error]. *)
Definition write_directly (d : bytes) (c : TcpConnection) : Z * bool * TcpConnection :=
  match write (calls c) (shut_wr c) d with
  | Wrote n =>
      let c := log_call (ztake n d) c in
      let remaining := u64 (zlen d - n) in
      (n, false, if (remaining =? 0) && bool_decide (is_Some (write_complete_cb_ cbs))
                 then enqueue WriteCompleteCb c else c)
  | WriteErr errno =>
      (0, negb (errno =? EAGAIN) && ((errno =? EPIPE) || (errno =? ECONNRESET)), log_call [] c)
  end.

Definition send_in_loop (d : bytes) (c : TcpConnection) : outcome TcpConnection :=
  if bool_decide (state_ c = kDisconnected) then Ok c
  else
    ch ← channel_of c;
    readable ← readable_bytes (output_buffer_ c);
    let '(nwrote, fault_error, c) :=
      if negb (is_write_event ch) && (readable =? 0) then write_directly d c else (0, false, c) in
    let remaining := u64 (zlen d - nwrote) in
    check (remaining <=? zlen d) "send_in_loop: remaining";;
    let c := log_message d (negb fault_error) c in
    if negb fault_error && (0 <? remaining) then
      history ← readable_bytes (output_buffer_ c);
      let c :=
        if (high_water_mark_ cbs <=? history + remaining) && (history <? high_water_mark_ cbs)
           && bool_decide (is_Some (high_water_mark_cb_ cbs))
        then enqueue (HighWaterMarkCb (history + remaining)) c else c in
      '(_, b) ← append (zdrop nwrote d) (output_buffer_ c);
      let c := set_output b c in
      ch ← channel_of c;
      if negb (is_write_event ch) then channel_interest enable_write_event c else Ok c
    else Ok c.

Definition shutdown_in_loop (c : TcpConnection) : outcome TcpConnection :=
  ch ← channel_of c;
  Ok (if negb (is_write_event ch) then set_shut c else c).

Definition start_read_in_loop (c : TcpConnection) : outcome TcpConnection :=
  if reading_ c then Ok c
  else
    let c := set_reading true c in
    ch ← channel_of c;
    if negb (is_read_event ch) then channel_interest enable_read_event c else Ok c.

Definition stop_read_in_loop (c : TcpConnection) : outcome TcpConnection :=
  if reading_ c then
    let c := set_reading false c in
    ch ← channel_of c;
    if is_read_event ch then channel_interest disable_read_event c else Ok c
  else Ok c.

(** [owner_loop_->run_in_own_loop]: [now] is the task run at once. *)
Definition run_in_own_loop (own : bool) (t : task) (now : TcpConnection -> outcome TcpConnection)
    (c : TcpConnection) : outcome TcpConnection :=
  if own then now c else Ok (enqueue t c).

(** The public operations. *)
Definition send (own : bool) (d : bytes) (c : TcpConnection) : outcome TcpConnection :=
  check (initilize_ c) "send: initilize_";;
  if bool_decide (state_ c = kConnected) then run_in_own_loop own (SendInLoop d) (send_in_loop d) c
  else Ok c.

Definition shutdown (own : bool) (c : TcpConnection) : outcome TcpConnection :=
  check (initilize_ c) "shutdown: initilize_";;
  if bool_decide (state_ c = kConnected) then
    run_in_own_loop own ShutdownInLoop shutdown_in_loop (set_state kDisconnecting c)
  else Ok c.

Definition force_close (c : TcpConnection) : outcome TcpConnection :=
  check (initilize_ c) "force_close: initilize_";;
  match state_ c with
  | kConnected => Ok (enqueue ForceCloseInLoop (set_state kDisconnecting c))
  | kDisconnecting => Ok (enqueue ForceCloseInLoop c)
  | _ => Ok c
  end.

Definition force_close_with_delay (delay_s : spec_float) (c : TcpConnection) : outcome TcpConnection :=
  check (initilize_ c) "force_close_with_delay: initilize_";;
  match state_ c with
  | kConnected | kDisconnecting =>
      delta ← from_seconds_d delay_s;
      Ok (set_timers (close_timers c ++ [delta]) (set_state kDisconnecting c))
  | _ => Ok c
  end.

Definition start_read (own : bool) (c : TcpConnection) : outcome TcpConnection :=
  check (initilize_ c) "start_read: initilize_";;
  run_in_own_loop own StartReadInLoop start_read_in_loop c.

Definition stop_read (own : bool) (c : TcpConnection) : outcome TcpConnection :=
  check (initilize_ c) "stop_read: initilize_";;
  run_in_own_loop own StopReadInLoop stop_read_in_loop c.

Definition call (own : bool) (u : user_call) (c : TcpConnection) : outcome TcpConnection :=
  match u with
  | Send d => send own d c
  | Shutdown => shutdown own c
  | ForceClose => force_close c
  | ForceCloseWithDelay s => force_close_with_delay s c
  | StartRead => start_read own c
  | StopRead => stop_read own c
  end.

(** The calls of a callback. *)
Fixpoint run_calls (us : list user_call) (c : TcpConnection) : outcome TcpConnection :=
  match us with
  | [] => Ok c
  | u :: us => c ← call true u c; run_calls us c
  end.

Definition connect_established (c : TcpConnection) : outcome TcpConnection :=
  check (bool_decide (state_ c = kConnecting)) "connect_established: state_";;
  c ← channel_interest enable_read_event (set_state kConnected c);
  run_calls (connect_cb_ cbs) (log_event Connected c).

Definition connect_destroyed (c : TcpConnection) : outcome TcpConnection :=
  c ←
    (if bool_decide (state_ c = kConnected) then
       c ← channel_interest disable_all_event (set_state kDisconnected c);
       run_calls (close_cb_ cbs) (log_event Closed c)
     else Ok c);
  p ← remove true (connect_channel_ c) (poller c);
  Ok (set_poller p c).

Definition handle_close (c : TcpConnection) : outcome TcpConnection :=
  check (bool_decide (state_ c = kConnected \/ state_ c = kDisconnecting)) "handle_close: state_";;
  c ← channel_interest disable_all_event (set_state kDisconnected c);
  c ← run_calls (close_cb_ cbs) (log_event Closed c);
  Ok (log_event Finished c).

Definition handle_read (c : TcpConnection) : outcome TcpConnection :=
  '(n, _, b) ← read_fd (readv (calls c)) (input_buffer_ c);
  let d := zdrop (zlen (contents (input_buffer_ c))) (contents b) in
  let c := log_call [] (set_input b c) in
  if 0 <? n then
    '(b, us) ← message_cb_ cbs (input_buffer_ c);
    run_calls us (log_event (Message d) (set_input b c))
  else if n =? 0 then handle_close c
  else Ok c.

Definition handle_write (c : TcpConnection) : outcome TcpConnection :=
  ch ← channel_of c;
  if is_write_event ch then
    d ← to_string (output_buffer_ c);
    match write (calls c) (shut_wr c) d with
    | Wrote n =>
        let c := log_call (ztake n d) c in
        if 0 <? n then
          b ← has_read n (output_buffer_ c);
          let c := set_output b c in
          readable ← readable_bytes b;
          if readable =? 0 then
            c ← channel_interest disable_write_event c;
            let c := if bool_decide (is_Some (write_complete_cb_ cbs)) then enqueue WriteCompleteCb c else c in
            if bool_decide (state_ c = kDisconnecting) then shutdown_in_loop c else Ok c
          else Ok c
        else Ok c
    | WriteErr _ => Ok (log_call [] c)
    end
  else Ok c.

(** [handle_error] only logs. *)
Definition handle_error (c : TcpConnection) : outcome TcpConnection := Ok c.

Definition force_close_in_loop (c : TcpConnection) : outcome TcpConnection :=
  if bool_decide (state_ c = kConnected \/ state_ c = kDisconnecting) then handle_close c else Ok c.

Definition update_channel_of (f : Channel -> Channel) (c : TcpConnection) : TcpConnection :=
  let p := poller c in
  set_poller (mkPoller (alter f (connect_channel_ c) (chans p)) (channels_ p) (backend p)) c.

(** The four callbacks of the channel. *)
Definition initialize_in_loop (c : TcpConnection) : TcpConnection :=
  update_channel_of (fun ch => mkChannel (fd ch) (status_ ch) (events_ ch) (revents_ ch)
    (added_to_loop_ ch) (handling_event_ ch) [ReadCb; WriteCb; CloseCb; ErrorCb]) c.

Definition initialize (own : bool) (c : TcpConnection) : outcome TcpConnection :=
  check (negb (initilize_ c)) "initialize: initilize_";;
  let c := mkConn true (reading_ c) (state_ c) (connect_channel_ c) (input_buffer_ c) (output_buffer_ c)
    (poller c) (queue c) (close_timers c) (calls c) (wrote c) (shut_wr c) (messages c) (trace c) in
  run_in_own_loop own InitializeInLoop (fun c => Ok (initialize_in_loop c)) c.

Definition make_tcp_connection (own : bool) (id : nat) (fd : Z) (p : Poller B) : outcome TcpConnection :=
  input ← make kUnLimitSize kInitialSize;
  output ← make kUnLimitSize kInitialSize;
  initialize own (mkConn false true kConnecting id input output (new_channel id fd [] p) [] []
    O [] false [] []).

(** The event of the channel, by [Channel::handle_event]. *)
Definition dispatch (cb : callback) (c : TcpConnection) : outcome TcpConnection :=
  match cb with
  | ReadCb => handle_read c
  | WriteCb => handle_write c
  | CloseCb => handle_close c
  | ErrorCb => handle_error c
  end.

Definition handle_channel_event (revents : Z) (c : TcpConnection) : outcome TcpConnection :=
  let c := update_channel_of (set_revents revents) c in
  ch ← channel_of c;
  handle_event dispatch update_channel_of true ch c.

(** A task taken from the queue of the loop. *)
Definition run_task (t : task) (c : TcpConnection) : outcome TcpConnection :=
  match t with
  | InitializeInLoop => Ok (initialize_in_loop c)
  | SendInLoop d => send_in_loop d c
  | ShutdownInLoop => shutdown_in_loop c
  | ForceCloseInLoop => force_close_in_loop c
  | StartReadInLoop => start_read_in_loop c
  | StopReadInLoop => stop_read_in_loop c
  | WriteCompleteCb => run_calls (default [] (write_complete_cb_ cbs)) (log_event WriteComplete c)
  | HighWaterMarkCb _ => run_calls (default [] (high_water_mark_cb_ cbs)) (log_event HighWaterMark c)
  end.

(** What happens to a connection, as a sequence of steps. *)
Inductive conn_op : Type :=
  | Call (own : bool) (u : user_call)
  | Established
  | Event (revents : Z)
  | RunTask
  | CloseTimer
  | Destroyed.

Definition run_op (o : conn_op) (c : TcpConnection) : outcome TcpConnection :=
  match o with
  | Call own u => call own u c
  | Established => connect_established c
  | Event r => handle_channel_event r c
  | RunTask => match queue c with [] => Ok c | t :: q => run_task t (set_queue q c) end
  | CloseTimer => match close_timers c with [] => Ok c | _ :: ts => force_close (set_timers ts c) end
  | Destroyed => connect_destroyed c
  end.

Fixpoint run_ops (os : list conn_op) (c : TcpConnection) : outcome TcpConnection :=
  match os with
  | [] => Ok c
  | o :: os => c ← run_op o c; run_ops os c
  end.

End Operations.
End TcpConnection.

Arguments TcpConnection B : clear implicits.

(** ** The channel of a connection in its poller *)

Section Slot.
Context {B : Type} `{BackendSpec B}.

(** [ch] is the channel at [id], and no other channel has its descriptor. *)
Definition slot (p : Poller B) (id : nat) (ch : Channel) : Prop :=
  poller_ok p /\ chans p !! id = Some ch /\
  forall id' c', chans p !! id' = Some c' -> id' <> id -> fd c' <> fd ch.

Lemma slot_events p id ch : slot p id ch -> events_ok (events_ ch).
Proof. intros ((Hch & _) & Hc & _). by destruct (Hch id ch Hc). Qed.

Lemma slot_insert p p' id ch ch' :
  slot p id ch -> poller_ok p' -> chans p' = <[id := ch']> (chans p) -> fd ch' = fd ch -> slot p' id ch'.
Proof.
  intros (_ & Hc & Hfd) Hp' E Hf. split_and!; [done | by rewrite E, lookup_insert_eq |].
  intros id' c'. rewrite E, Hf. intros [(<- & _)|[_ Hc']]%lookup_insert_Some Hne; [done|]. by eapply Hfd.
Qed.

Lemma slot_interest p id ch o :
  slot p id ch -> exists p' ch', interest true o id p = Ok p' /\ slot p' id ch' /\
    events_ ch' = new_events o (events_ ch) /\ status_ ch' <> kChannelPollInit.
Proof.
  intros Hs. pose proof Hs as (Hp & Hc & Hfd). pose proof Hp as (_ & R & _).
  destruct (interest_step p o id ch Hp Hc) as (p' & E & Hp' & Ec).
  { intros Hst. destruct (channels_ p !! fd ch) as [id'|] eqn:Er; [|done]. exfalso.
    apply R in Er as (c' & Hc' & Ef & Hn). destruct (decide (id' = id)) as [->|Hne]; [congruence|].
    by apply (Hfd id' c'). }
  eexists p', _. split_and!; [done | by eapply slot_insert | done |].
  unfold settle. cbn. by destruct (_ && _).
Qed.

Lemma slot_remove p id ch :
  slot p id ch -> status_ ch <> kChannelPollInit -> events_ ch = 0 ->
  exists p' ch', remove true id p = Ok p' /\ slot p' id ch' /\ events_ ch' = 0.
Proof.
  intros Hs Hst He. pose proof Hs as (Hp & Hc & _).
  destruct (remove_step p id ch Hp Hc Hst He) as (p' & E & Hp' & Ec).
  eexists p', _. split_and!; [done | by eapply slot_insert | done].
Qed.

(** Changes the poller does not see. *)
Definition invisible (f : Channel -> Channel) : Prop :=
  forall ch, fd (f ch) = fd ch /\ status_ (f ch) = status_ ch /\ events_ (f ch) = events_ ch /\
    added_to_loop_ (f ch) = added_to_loop_ ch.

Lemma slot_alter f p id ch :
  invisible f -> slot p id ch ->
  slot (mkPoller (alter f id (chans p)) (channels_ p) (backend p)) id (f ch).
Proof.
  intros Hf Hs. destruct (Hf ch) as (E1 & E2 & E3 & E4). pose proof Hs as ((Hch & R & Hb & I) & Hc & _).
  rewrite (alter_lookup f _ id ch Hc). eapply slot_insert; [done | | done | done].
  split_and!; cbn; try done.
  - apply map_Forall_insert_2; [|done]. specialize (Hch id ch Hc). unfold channel_ok in *.
    by rewrite E2, E3, E4.
  - eapply registry_keep; [done | done | done | by rewrite E2].
  - eapply interest_keep; [done | done | done | by rewrite E2].
Qed.

Lemma slot_new p id fd cbs :
  poller_ok p -> chans p !! id = None ->
  (forall id' c', chans p !! id' = Some c' -> Channel.fd c' <> fd) ->
  slot (new_channel id fd cbs p) id (make_channel fd cbs).
Proof.
  intros Hp Hn Hfd.
  destruct (valid_op_step (New id fd cbs) p) as (p' & E & Hp' & _); [done | done |].
  cbn in E. injection E as <-. split_and!; [done | apply lookup_insert_eq |].
  intros id' c'. cbn. intros [(<- & _)|[_ Hc']]%lookup_insert_Some Hne; [done|]. by eapply Hfd.
Qed.

End Slot.

Lemma is_write_new o e ch :
  events_ok e -> events_ ch = new_events o e ->
  is_write_event ch =
    match o with
    | disable_all_event | disable_write_event => false
    | enable_write_event => true
    | _ => negb (Z.land e kWriteEvent =? 0)
    end.
Proof.
  intros He Hch. unfold is_write_event. rewrite Hch, new_events_write by done. by destruct o.
Qed.

(** ** The invariant *)

(** Connected, as far as the socket is concerned. *)
Definition open (s : StateE) : bool :=
  match s with kConnected | kDisconnecting => true | _ => false end.

(** The data [send_in_loop] did not drop. *)
Definition kept (ms : list (bytes * bool)) : list bytes :=
  omap (fun m => if m.2 : bool then Some m.1 else None) ms.
Arguments kept : simpl never.

(** Sizes of real objects, and delays that are numbers. *)
Definition user_ok (u : user_call) : Prop :=
  match u with
  | Send d => zlen d <= vec_max_size
  | ForceCloseWithDelay s => exists delta, from_seconds_d s = Ok delta
  | _ => True
  end.

Definition task_ok (s : StateE) (t : task) : Prop :=
  match t with
  | SendInLoop d => s <> kConnecting /\ zlen d <= vec_max_size
  | ShutdownInLoop => s = kDisconnecting \/ s = kDisconnected
  | ForceCloseInLoop | WriteCompleteCb | HighWaterMarkCb _ => s <> kConnecting
  | _ => True
  end.

Definition ordinary (e : conn_event) : Prop := (exists d, e = Message d) \/ e = WriteComplete \/ e = HighWaterMark.
Definition late (e : conn_event) : Prop := e = WriteComplete \/ e = HighWaterMark.

(** The order of the callbacks. *)
Definition trace_ok (s : StateE) (l : list conn_event) : Prop :=
  match s with
  | kConnecting => l = []
  | kConnected | kDisconnecting => exists ms, l = Connected :: ms /\ Forall ordinary ms
  | kDisconnected => exists ms fin rest, l = Connected :: ms ++ Closed :: fin ++ rest /\
      Forall ordinary ms /\ (fin = [] \/ fin = [Finished]) /\ Forall late rest
  end.

Section Connection_lemmas.
Context {B : Type} `{BackendSpec B}.
Abbreviation conn := (TcpConnection B).
Context (cbs : Callbacks) (write : nat -> bool -> bytes -> wresult) (readv : nat -> list Z -> Z + bytes).

(** The system calls and the callbacks: write(2) takes at most what it is given,
    and fails with [EPIPE] after shutdown(2); readv(2) fills at most its vector;
    the message callback leaves a usable buffer. *)
Record env_ok : Prop := {
  env_write : forall k s d n, write k s d = Wrote n -> 0 <= n <= zlen d;
  env_shut : forall k d, d <> [] -> write k true d = WriteErr EPIPE;
  env_readv : forall k, readv_ok (readv k);
  env_message : forall b, wf b -> unlimited b = true -> exists b' us,
    message_cb_ cbs b = Ok (b', us) /\ wf b' /\ unlimited b' = true /\ Forall user_ok us;
  env_connect : Forall user_ok (connect_cb_ cbs);
  env_close : Forall user_ok (close_cb_ cbs);
  env_write_complete : Forall user_ok (default [] (write_complete_cb_ cbs));
  env_high_water : Forall user_ok (default [] (high_water_mark_cb_ cbs));
}.

(** The invariant, while [pending] bytes of the last message are in the hands of
    [send_in_loop]. *)
Record conn_okp (pending : bytes) (ch : Channel) (c : conn) : Prop := {
  ok_init : initilize_ c = true;
  ok_slot : slot (poller c) (connect_channel_ c) ch;
  ok_input : wf (input_buffer_ c) /\ unlimited (input_buffer_ c) = true;
  ok_output : wf (output_buffer_ c) /\ unlimited (output_buffer_ c) = true;
  ok_interest : if open (state_ c)
    then is_write_event ch = true <-> contents (output_buffer_ c) <> []
    else is_write_event ch = false;
  ok_stream : wrote c ++ contents (output_buffer_ c) ++ pending = concat (kept (messages c));
  ok_lost : forall d, (d, false) ∈ messages c ->
    exists k s e, write k s d = WriteErr e /\ (e = EPIPE \/ e = ECONNRESET) /\ (s = true -> shut_wr c = true);
  ok_shut : shut_wr c = true ->
    match state_ c with
    | kDisconnecting => contents (output_buffer_ c) = []
    | kDisconnected => True
    | _ => False
    end;
  ok_early : state_ c = kConnecting -> contents (output_buffer_ c) = [];
  ok_tasks : Forall (task_ok (state_ c)) (queue c);
  ok_trace : trace_ok (state_ c) (trace c);
}.

Abbreviation conn_ok := (conn_okp []).

(** A connection that is being closed has something left that closes it. *)
Definition closing_ok (c : conn) : Prop :=
  state_ c = kDisconnecting ->
  shut_wr c = true \/ contents (output_buffer_ c) <> [] \/ ShutdownInLoop ∈ queue c \/
  ForceCloseInLoop ∈ queue c \/ close_timers c <> [].

(** Success with [Q], or an exhausted memory. *)
Definition safe (m : outcome conn) (Q : conn -> Prop) : Prop :=
  match m with Ok c => Q c | Fault f => f = length_error end.

(** What a call on the connection may change. *)
Record call_frame (c c' : conn) : Prop := {
  cf_ok : exists ch', conn_ok ch' c';
  cf_trace : trace c' = trace c;
  cf_state : state_ c' = state_ c \/ (state_ c = kConnected /\ state_ c' = kDisconnecting);
  cf_closing : closing_ok c -> closing_ok c';
}.

Hypothesis Henv : env_ok.

Lemma safe_bind m k (Q R : conn -> Prop) :
  safe m Q -> (forall c, Q c -> safe (k c) R) -> safe (m ≫= k) R.
Proof. destruct m; cbn; auto. Qed.

Lemma safe_mono m (Q R : conn -> Prop) : safe m Q -> (forall c, Q c -> R c) -> safe m R.
Proof. destruct m; cbn; auto. Qed.

Lemma call_frame_refl ch c : conn_ok ch c -> call_frame c c.
Proof. intros Hok. split; [eauto | done | by left | done]. Qed.

Lemma call_frame_trans c1 c2 c3 : call_frame c1 c2 -> call_frame c2 c3 -> call_frame c1 c3.
Proof.
  intros [_ T1 S1 C1] [O2 T2 S2 C2]. split; [done | congruence | | auto].
  destruct S1 as [E1|[E1 E1']], S2 as [E2|[E2 E2']]; [left; congruence | right | right | congruence].
  - split; congruence.
  - split; congruence.
Qed.

Lemma channel_of_ok x ch c : conn_okp x ch c -> channel_of c = Ok ch.
Proof. intros [_ (_ & Hc & _) _ _ _ _ _ _ _ _ _]. unfold channel_of, deref. by rewrite Hc. Qed.

Lemma shut_open x ch c :
  conn_okp x ch c -> open (state_ c) = true -> shut_wr c = true -> contents (output_buffer_ c) = [].
Proof. intros Hok Ho Hs. pose proof (ok_shut _ _ _ Hok Hs). by destruct (state_ c). Qed.

Lemma task_ok_later s s' t :
  s' = kDisconnecting \/ s' = kDisconnected \/ s = kConnecting /\ s' = kConnected ->
  task_ok s t -> task_ok s' t.
Proof. intros Hs. destruct t; cbn; destruct Hs as [->|[->|[-> ->]]]; intuition congruence. Qed.

Lemma enqueue_ok x ch t c : conn_okp x ch c -> task_ok (state_ c) t -> conn_okp x ch (enqueue t c).
Proof.
  intros [? ? ? ? ? ? ? ? ? Ht ?] Hok. split; cbn; try done. apply Forall_app. by split; [|constructor].
Qed.

Lemma closing_enqueue t c : closing_ok c -> closing_ok (enqueue t c).
Proof. unfold closing_ok. cbn. rewrite !elem_of_app. tauto. Qed.

Lemma kept_snoc ms d (b : bool) :
  concat (kept (ms ++ [(d, b)])) = concat (kept ms) ++ (if b then d else []).
Proof.
  unfold kept. rewrite omap_app, concat_app. cbn. destruct b; cbn; by rewrite ?app_nil_r.
Qed.

(** *** [send_in_loop] *)

Lemma contents_nil c ch x :
  conn_okp x ch c -> readable_bytes (output_buffer_ c) = Ok (zlen (contents (output_buffer_ c))).
Proof.
  intros Hok. destruct (ok_output _ _ _ Hok) as [Hwf _]. by rewrite readable_bytes_ok, contents_length.
Qed.

(** A system call that took bytes which were not in the buffer. *)
Lemma log_call_ok ch c d x y :
  conn_okp (d ++ y) ch c -> x = contents (output_buffer_ c) -> d = [] \/ x = [] ->
  conn_okp y ch (log_call d c).
Proof.
  intros [? ? ? ? ? Hst ? ? ? ? ?] -> Hd. split; cbn; try done.
  rewrite <- Hst. destruct Hd as [->|Hx]; [by rewrite app_nil_r|]. by rewrite Hx, <- app_assoc.
Qed.

Lemma log_kept_ok ch c d : conn_ok ch c -> conn_okp d ch (log_message d true c).
Proof.
  intros [? ? ? ? ? Hst Hlost ? ? ? ?]. split; cbn; try done.
  - rewrite kept_snoc, <- Hst, app_nil_r. by rewrite app_assoc.
  - intros d'. rewrite elem_of_app, list_elem_of_singleton. intros [?|[=]]. auto.
Qed.

Lemma log_dropped_ok ch c d k e :
  conn_ok ch c -> write k (shut_wr c) d = WriteErr e -> e = EPIPE \/ e = ECONNRESET ->
  conn_ok ch (log_message d false c).
Proof.
  intros [? ? ? ? ? Hst Hlost ? ? ? ?] Hw He. split; cbn; try done.
  - by rewrite kept_snoc, Hst, app_nil_r.
  - intros d'. rewrite elem_of_app, list_elem_of_singleton. intros [?|[= ->]]; [auto|]. by exists k, (shut_wr c), e.
Qed.

Lemma send_pre ch c d :
  conn_ok ch c -> open (state_ c) = true -> zlen d <= vec_max_size ->
  exists n fault c1,
    (if negb (is_write_event ch) && (zlen (contents (output_buffer_ c)) =? 0)
     then write_directly cbs write d c else (0, false, c)) = (n, fault, c1) /\
    let c2 := log_message d (negb fault) c1 in
    0 <= n <= zlen d /\ state_ c2 = state_ c /\ trace c2 = trace c /\ shut_wr c2 = shut_wr c /\
    conn_okp (if fault : bool then [] else zdrop n d) ch c2 /\
    (fault = false -> shut_wr c = true -> zdrop n d = []) /\
    (closing_ok c -> closing_ok c2).
Proof.
  intros Hok Hopen Hd. pose proof (ok_interest _ _ _ Hok) as Hint. rewrite Hopen in Hint.
  destruct (is_write_event ch) eqn:Ew; cbn [negb andb].
  { exists 0, false, c. split; [done|]. cbn zeta. pose proof (zlen_nonneg d).
    rewrite zdrop_0. split_and!; try done; [by apply log_kept_ok|].
    intros _ Hsh. exfalso. apply Hint; [done|]. by apply (shut_open _ _ _ Hok). }
  assert (contents (output_buffer_ c) = []) as Hc.
  { destruct (contents (output_buffer_ c)) eqn:E; [done|]. exfalso. assert (false = true) as [=] by (apply Hint; congruence). }
  rewrite Hc. cbn [zlen length Z.of_nat Z.eqb]. unfold write_directly.
  pose proof (log_kept_ok ch c d Hok) as Hk. pose proof (zlen_nonneg d) as Hd0.
  destruct (write (calls c) (shut_wr c) d) as [n|e] eqn:Ewr.
  - pose proof (env_write Henv _ _ _ _ Ewr) as Hn.
    set (c1 := log_call (ztake n d) c).
    assert (conn_okp (zdrop n d) ch (log_message d true c1)) as Hk1.
    { apply (log_call_ok ch (log_message d true c) (ztake n d) []); [|done | by right].
      by rewrite ztake_zdrop. }
    assert (shut_wr c = true -> zdrop n d = []) as Hsh.
    { intros Hsh. rewrite Hsh in Ewr. destruct d as [|b d]; [unfold zdrop; apply drop_nil|].
      by rewrite (env_shut Henv) in Ewr. }
    eexists n, false, _. split; [done|]. cbn zeta.
    destruct (_ && _) eqn:Ecb; split_and!; try done; try lia.
    + change (conn_okp (zdrop n d) ch (enqueue WriteCompleteCb (log_message d true c1))).
      apply enqueue_ok; [done|]. cbn. by destruct (state_ c).
    + intros Hcl. apply (closing_enqueue WriteCompleteCb) in Hcl. exact Hcl.
  - eexists 0, _, _. split; [done|]. cbn zeta.
    assert (conn_okp [] ch (log_call [] c)) as Hc0
      by (apply (log_call_ok ch c [] []); [done | done | by left]).
    destruct (negb (e =? EAGAIN) && ((e =? EPIPE) || (e =? ECONNRESET))) eqn:Ef; cbn [negb].
    + split_and!; try done; try lia. apply andb_true_iff in Ef as [_ Ef].
      eapply log_dropped_ok; [done | done |]. rewrite orb_true_iff, !Z.eqb_eq in Ef. done.
    + rewrite zdrop_0. split_and!; try done; try lia; [by apply log_kept_ok|].
      intros _ Hsh. rewrite Hsh in Ewr. destruct d as [|b d]; [done|].
      rewrite (env_shut Henv) in Ewr by done. injection Ewr as <-. done.
Qed.

(** *** The channel *)

Lemma interest_conn x ch c o :
  conn_okp x ch c -> exists p' ch', channel_interest o c = Ok (set_poller p' c) /\
    slot p' (connect_channel_ c) ch' /\ events_ ch' = new_events o (events_ ch) /\
    status_ ch' <> kChannelPollInit.
Proof.
  intros Hok. destruct (slot_interest _ _ _ o (ok_slot _ _ _ Hok)) as (p' & ch' & E & Hs & He & Hst).
  exists p', ch'. unfold channel_interest. rewrite E. done.
Qed.

(** A change of interest that leaves writing as it is. *)
Lemma set_poller_ok x ch c p' ch' :
  conn_okp x ch c -> slot p' (connect_channel_ c) ch' -> is_write_event ch' = is_write_event ch ->
  conn_okp x ch' (set_poller p' c).
Proof. intros [? ? ? ? ? ? ? ? ? ? ?] Hs Hw. split; cbn; try done. by rewrite Hw. Qed.

Lemma read_interest_ok ch c o :
  conn_ok ch c -> o = enable_read_event \/ o = disable_read_event ->
  exists p' ch', channel_interest o c = Ok (set_poller p' c) /\ conn_ok ch' (set_poller p' c).
Proof.
  intros Hok Ho. destruct (interest_conn [] ch c o Hok) as (p' & ch' & E & Hs & He & _).
  exists p', ch'. split; [done|]. apply (set_poller_ok [] ch); [done | done |].
  rewrite (is_write_new o (events_ ch) ch'); [| by eapply slot_events, ok_slot | done].
  by destruct Ho as [->| ->].
Qed.

(** The end of [send_in_loop]: the rest of the data goes to the output buffer. *)
Lemma queue_rest_ok ch c rest :
  conn_okp rest ch c -> open (state_ c) = true -> shut_wr c = false ->
  rest <> [] -> zlen rest <= vec_max_size ->
  safe ('(_, b) ← append rest (output_buffer_ c);
        let c := set_output b c in
        ch ← channel_of c;
        if negb (is_write_event ch) then channel_interest enable_write_event c else Ok c)
    (fun c' => (exists ch', conn_ok ch' c') /\ state_ c' = state_ c /\ trace c' = trace c /\
       queue c' = queue c /\ shut_wr c' = shut_wr c /\ close_timers c' = close_timers c /\
       contents (output_buffer_ c') <> []).
Proof.
  intros Hok Hopen Hsh Hne Hlen. destruct (ok_output _ _ _ Hok) as [Hwf Hu].
  destruct (decide (zlen rest <= room (output_buffer_ c))) as [Hr|Hr].
  2: { rewrite append_oom; [done | done | done | lia]. }
  destruct (append_ok rest (output_buffer_ c) Hwf Hr) as (b & -> & Hwfb & Hcb & Hmb & _).
  cbn [mbind outcome_bind]. set (c1 := set_output b c).
  assert (contents b <> []) as Hnb by (rewrite Hcb; intros [? ?]%app_eq_nil; done).
  pose proof (interest_conn rest ch c enable_write_event Hok) as (p' & ch' & E & Hs & He & _).
  assert (channel_of c1 = Ok ch) as -> by (by apply channel_of_ok in Hok). cbn [mbind outcome_bind].
  assert (forall p2 ch2, slot p2 (connect_channel_ c) ch2 -> is_write_event ch2 = true ->
    conn_ok ch2 (set_poller p2 c1)) as Hmk.
  { intros p2 ch2 Hs2 Hw2. destruct Hok as [? ? ? ? ? Hst ? ? ? ? ?]. split; cbn; try done.
    - split; [done|]. unfold unlimited in *. by rewrite Hmb.
    - rewrite Hopen. done.
    - by rewrite Hcb, app_nil_r.
    - by rewrite Hsh.
    - intros Hc. by rewrite Hc in Hopen. }
  destruct (is_write_event ch) eqn:Ew; cbn [negb].
  - cbn. split_and!; try done. exists ch.
    replace c1 with (set_poller (poller c) c1) by done. apply Hmk; [by apply ok_slot in Hok | done].
  - unfold channel_interest in *. change (connect_channel_ c1) with (connect_channel_ c).
    change (poller c1) with (poller c).
    destruct (interest true enable_write_event (connect_channel_ c) (poller c)); [|done].
    cbn in E. injection E as Ep. cbn. subst. split_and!; try done. exists ch'. apply Hmk; [done|].
    by rewrite (is_write_new enable_write_event (events_ ch) ch' (slot_events _ _ _ (ok_slot _ _ _ Hok)) He).
Qed.

Lemma send_in_loop_ok ch c d :
  conn_ok ch c -> zlen d <= vec_max_size -> state_ c <> kConnecting ->
  safe (send_in_loop cbs write d c) (fun c' => call_frame c c' /\ state_ c' = state_ c).
Proof.
  intros Hok Hd Hnc. unfold send_in_loop. case_bool_decide as Hdis.
  { split; [by eapply call_frame_refl | done]. }
  assert (open (state_ c) = true) as Hopen by (by destruct (state_ c)).
  rewrite (channel_of_ok [] ch c Hok), bind_ret, (contents_nil c ch [] Hok), bind_ret.
  destruct (send_pre ch c d Hok Hopen Hd) as (n & fault & c1 & -> & Hn & Est & Etr & Esh & Hok2 & Hsh & Hcl).
  set (c2 := log_message d (negb fault) c1) in *.
  rewrite u64_small by (unfold vec_max_size, kInt64Max in *; lia).
  rewrite check_true, bind_ret by (apply Z.leb_le; lia).
  destruct fault; cbn [negb andb].
  { cbn. split; [|done]. split; [eauto | done | by left | done]. }
  destruct (Z.ltb_spec 0 (zlen d - n)) as [Hrem|Hrem].
  2: { cbn. rewrite zdrop_ge in Hok2 by lia. split; [|done]. split; [eauto | done | by left | done]. }
  rewrite (contents_nil c2 ch _ Hok2), bind_ret.
  set (c3 := if _ && _ && _ then _ else c2).
  assert (conn_okp (zdrop n d) ch c3 /\ state_ c3 = state_ c /\ trace c3 = trace c /\
    shut_wr c3 = shut_wr c /\ (closing_ok c -> closing_ok c3)) as (Hok3 & Est3 & Etr3 & Esh3 & Hcl3).
  { unfold c3. destruct (_ && _ && _); [|done]. split_and!; try done.
    - apply enqueue_ok; [done|]. change (state_ c2 <> kConnecting). by rewrite Est.
    - intros Hc. by apply closing_enqueue, Hcl. }
  assert (zlen (zdrop n d) = zlen d - n) as Hzl by (rewrite zlen_zdrop; lia).
  assert (zdrop n d <> []) as Hne by (intros E; rewrite E in Hzl; change (zlen (@nil Byte.byte)) with 0 in Hzl; lia).
  eapply safe_mono.
  { apply (queue_rest_ok ch c3 (zdrop n d)); try done; [by rewrite Est3 | | lia].
    rewrite Esh3. destruct (shut_wr c); [|done]. by destruct Hne; apply Hsh. }
  intros c' (Hch & E1 & E2 & E3 & E4 & E5 & E6). split; [|congruence].
  split; [done | congruence | left; congruence |]. intros _ _. by right; left.
Qed.

(** *** The public calls *)

Lemma set_state_ok ch c :
  conn_ok ch c -> open (state_ c) = true -> conn_ok ch (set_state kDisconnecting c).
Proof.
  intros Hok Ho. pose proof (shut_open _ _ _ Hok Ho) as Hsh. destruct Hok as [? ? ? ? Hint ? ? ? ? Ht Htr].
  rewrite Ho in Hint. split; cbn; try done.
  - eapply Forall_impl; [exact Ht|]. intros t. apply task_ok_later. by left.
  - destruct (state_ c); done.
Qed.

(** [shutdown_in_loop] shuts the socket down or leaves it to [handle_write]. *)
Lemma shutdown_in_loop_ok ch c :
  conn_ok ch c -> state_ c = kDisconnecting \/ state_ c = kDisconnected ->
  safe (shutdown_in_loop c) (fun c' => (exists ch', conn_ok ch' c') /\ closing_ok c' /\
    state_ c' = state_ c /\ trace c' = trace c).
Proof.
  intros Hok Hs. unfold shutdown_in_loop. rewrite (channel_of_ok [] ch c Hok), bind_ret. cbn.
  pose proof (ok_interest _ _ _ Hok) as Hint.
  destruct (is_write_event ch) eqn:Ew; cbn [negb].
  - split_and!; [eauto | | done | done]. intros Hd. right. left. rewrite Hd in Hint. by apply Hint.
  - split_and!; [| by left | done | done]. exists ch. destruct Hok as [? ? ? ? ? ? Hlost ? ? ? ?].
    split; cbn; try done. { intros d Hd. destruct (Hlost d Hd) as (k & s & e & ? & ? & _). by exists k, s, e. }
    intros _. destruct Hs as [Hs|Hs]; rewrite Hs in Hint |- *; [|done].
    cbn in Hint. destruct (contents (output_buffer_ c)); [done|].
    assert (false = true) as [=] by (by apply Hint).
Qed.

Lemma set_reading_ok ch c r : conn_ok ch c -> conn_ok ch (set_reading r c).
Proof. intros [? ? ? ? ? ? ? ? ? ? ?]. by split. Qed.

Lemma start_read_in_loop_ok ch c :
  conn_ok ch c -> safe (start_read_in_loop c) (fun c' => call_frame c c' /\ state_ c' = state_ c).
Proof.
  intros Hok. unfold start_read_in_loop. destruct (reading_ c).
  { split; [by eapply call_frame_refl | done]. }
  pose proof (set_reading_ok ch c true Hok) as Hok1.
  rewrite (channel_of_ok [] ch _ Hok1), bind_ret. destruct (negb (is_read_event ch)).
  - destruct (read_interest_ok ch _ enable_read_event Hok1) as (p' & ch' & -> & Hok2); [by left|].
    cbn. split; [|done]. split; [eauto | done | by left | done].
  - cbn. split; [|done]. split; [eauto | done | by left | done].
Qed.

Lemma stop_read_in_loop_ok ch c :
  conn_ok ch c -> safe (stop_read_in_loop c) (fun c' => call_frame c c' /\ state_ c' = state_ c).
Proof.
  intros Hok. unfold stop_read_in_loop. destruct (reading_ c).
  2: { split; [by eapply call_frame_refl | done]. }
  pose proof (set_reading_ok ch c false Hok) as Hok1.
  rewrite (channel_of_ok [] ch _ Hok1), bind_ret. destruct (is_read_event ch).
  - destruct (read_interest_ok ch _ disable_read_event Hok1) as (p' & ch' & -> & Hok2); [by right|].
    cbn. split; [|done]. split; [eauto | done | by left | done].
  - cbn. split; [|done]. split; [eauto | done | by left | done].
Qed.

(** A task run at once or queued. *)
Lemma run_in_own_loop_ok ch own t now c :
  conn_ok ch c -> task_ok (state_ c) t ->
  safe (now c) (fun c' => call_frame c c') ->
  safe (run_in_own_loop own t now c) (fun c' => call_frame c c').
Proof.
  intros Hok Ht Hnow. destruct own; [done|]. cbn. split; [| done | by left |].
  - exists ch. by apply enqueue_ok.
  - apply closing_enqueue.
Qed.

Lemma force_close_ok ch c :
  conn_ok ch c -> safe (force_close c) (fun c' => call_frame c c' /\
    (state_ c = kDisconnecting -> closing_ok c')).
Proof.
  intros Hok. unfold force_close. rewrite (ok_init _ _ _ Hok), check_true, bind_ret by done.
  assert (open (state_ c) = true -> conn_ok ch (enqueue ForceCloseInLoop (set_state kDisconnecting c))) as Hmk.
  { intros Ho. apply enqueue_ok; [by apply set_state_ok | done]. }
  assert (forall c0 : conn, ForceCloseInLoop ∈ queue (enqueue ForceCloseInLoop c0)) as Hin.
  { intros c0. cbn. apply elem_of_app. right. apply list_elem_of_here. }
  destruct (state_ c) eqn:Es; cbn.
  - split; [by eapply call_frame_refl | done].
  - split; [by eapply call_frame_refl | done].
  - split; [|done]. split; [exists ch; by apply Hmk | done | right; done |].
    intros _ _. do 3 right. left. apply (Hin (set_state kDisconnecting c)).
  - assert (closing_ok (enqueue ForceCloseInLoop c)) as Hcl by (intros _; do 3 right; left; apply Hin).
    split; [|done]. split; [| done | left; done | done].
    exists ch. apply enqueue_ok; [done|]. by rewrite Es.
Qed.

Lemma force_close_with_delay_ok ch c s :
  conn_ok ch c -> user_ok (ForceCloseWithDelay s) ->
  safe (force_close_with_delay s c) (fun c' => call_frame c c').
Proof.
  intros Hok [delta Hd]. unfold force_close_with_delay.
  rewrite (ok_init _ _ _ Hok), check_true, bind_ret, Hd by done.
  assert (open (state_ c) = true -> call_frame c
    (set_timers (close_timers c ++ [delta]) (set_state kDisconnecting c))) as Hmk.
  { intros Ho. pose proof (set_state_ok ch c Hok Ho) as [? ? ? ? ? ? ? ? ? ? ?].
    split; [exists ch; by split | done | cbn; destruct (state_ c); try done; [by right | by left] |].
    intros _ _. do 4 right. cbn. by destruct (close_timers c). }
  destruct (state_ c) eqn:Es; cbn; try (by eapply call_frame_refl); by apply Hmk.
Qed.

Lemma call_ok ch own u c :
  conn_ok ch c -> user_ok u -> safe (call cbs write own u c) (fun c' => call_frame c c').
Proof.
  intros Hok Hu. pose proof (ok_init _ _ _ Hok) as Hi.
  destruct u as [d| | |s| |]; cbn [call].
  - unfold send. rewrite Hi, check_true, bind_ret by done. case_bool_decide as Hs; [|by eapply call_frame_refl].
    eapply run_in_own_loop_ok; [done | by rewrite Hs |].
    eapply safe_mono; [by apply (send_in_loop_ok ch); rewrite ?Hs|]. by intros c' [? _].
  - unfold shutdown. rewrite Hi, check_true, bind_ret by done. case_bool_decide as Hs; [|by eapply call_frame_refl].
    pose proof (set_state_ok ch c Hok ltac:(by rewrite Hs)) as Hok1. destruct own; cbn [run_in_own_loop].
    + eapply safe_mono; [apply (shutdown_in_loop_ok ch); [done | by left]|].
      intros c' (Hch & Hcl & Est & Etr). split; [done | done | right; done | done].
    + cbn. split; [| done | right; done |]; [exists ch; apply enqueue_ok; [done | by left]|].
      intros _ _. do 2 right. left. cbn. apply elem_of_app. right. apply list_elem_of_here.
  - eapply safe_mono; [by apply (force_close_ok ch)|]. by intros c' [? _].
  - by apply (force_close_with_delay_ok ch).
  - unfold start_read. rewrite Hi, check_true, bind_ret by done. eapply run_in_own_loop_ok; [done | done |].
    eapply safe_mono; [by apply (start_read_in_loop_ok ch)|]. by intros c' [? _].
  - unfold stop_read. rewrite Hi, check_true, bind_ret by done. eapply run_in_own_loop_ok; [done | done |].
    eapply safe_mono; [by apply (stop_read_in_loop_ok ch)|]. by intros c' [? _].
Qed.

Lemma run_calls_ok ch us c :
  conn_ok ch c -> Forall user_ok us -> safe (run_calls cbs write us c) (fun c' => call_frame c c').
Proof.
  intros Hok Hus. revert ch c Hok. induction Hus as [|u us Hu Hus IH]; intros ch c Hok; cbn [run_calls].
  { by eapply call_frame_refl. }
  eapply safe_bind; [by apply (call_ok ch)|]. intros c1 H1. destruct (cf_ok _ _ H1) as [ch1 Hok1].
  eapply safe_mono; [by eapply IH|]. intros c2 H2. by eapply call_frame_trans.
Qed.

(** *** The handlers *)

(** What a handler or a task may change. *)
Record step_frame (c c' : conn) : Prop := {
  sf_ok : exists ch', conn_ok ch' c';
  sf_state : state_ c <> kConnecting -> state_ c' <> kConnecting;
  sf_closing : closing_ok c -> closing_ok c';
}.

Lemma call_step c c' : call_frame c c' -> step_frame c c'.
Proof.
  intros [? ? Hs ?]. split; [done | | done]. by destruct Hs as [->|[_ ->]].
Qed.

Lemma step_frame_trans c1 c2 c3 : step_frame c1 c2 -> step_frame c2 c3 -> step_frame c1 c3.
Proof. intros [? ? ?] [? ? ?]. split; auto. Qed.

Lemma closing_done c : state_ c <> kDisconnecting -> closing_ok c.
Proof. intros ? ?. done. Qed.

(** The end of a connection: no interest left, and the close callback. *)
Lemma close_channel_ok ch c :
  conn_ok ch c -> open (state_ c) = true ->
  exists p' ch', channel_interest disable_all_event (set_state kDisconnected c)
      = Ok (set_poller p' (set_state kDisconnected c)) /\
    events_ ch' = 0 /\ status_ ch' <> kChannelPollInit /\
    conn_ok ch' (log_event Closed (set_poller p' (set_state kDisconnected c))).
Proof.
  intros Hok Ho.
  destruct (slot_interest _ _ _ disable_all_event (ok_slot _ _ _ Hok)) as (p' & ch' & E & Hs & He & Hst).
  exists p', ch'. unfold channel_interest. cbn. rewrite E. split_and!; try done.
  pose proof (slot_events _ _ _ (ok_slot _ _ _ Hok)) as Hev.
  destruct Hok as [? ? ? ? ? ? ? ? ? Ht Htr]. split; cbn; try done.
  - by rewrite (is_write_new disable_all_event (events_ ch)).
  - eapply Forall_impl; [exact Ht|]. intros t. apply task_ok_later. by right; left.
  - assert (exists ms, trace c = Connected :: ms /\ Forall ordinary ms) as (ms & -> & Hms)
      by (by destruct (state_ c)).
    exists ms, [], []. split_and!; try done. by left.
Qed.

Lemma log_finished_ok ch c ms :
  conn_ok ch c -> state_ c = kDisconnected -> trace c = Connected :: ms ++ [Closed] ->
  Forall ordinary ms -> conn_ok ch (log_event Finished c).
Proof.
  intros [? ? ? ? ? ? ? ? ? ? ?] Hs Ht Hms. split; cbn; try done. rewrite Hs, Ht.
  exists ms, [Finished], []. split_and!; try done; [cbn; by rewrite <- app_assoc | by right].
Qed.

Lemma handle_close_ok ch c :
  conn_ok ch c -> open (state_ c) = true ->
  safe (handle_close cbs write c) (fun c' => (exists ch', conn_ok ch' c') /\ state_ c' = kDisconnected).
Proof.
  intros Hok Ho. unfold handle_close.
  rewrite check_true, bind_ret by (apply bool_decide_eq_true_2; destruct (state_ c); auto; done).
  destruct (close_channel_ok ch c Hok Ho) as (p' & ch' & -> & _ & _ & Hok1). rewrite bind_ret.
  eapply safe_bind; [apply (run_calls_ok ch'); [done | apply (env_close Henv)]|].
  intros c2 [[ch2 Hok2] Htr Hst _]. cbn in Hst.
  assert (state_ c2 = kDisconnected) as Hst2 by (destruct Hst as [?|[? _]]; done).
  assert (exists ms, trace c = Connected :: ms /\ Forall ordinary ms) as (ms & Et & Hms).
  { pose proof (ok_trace _ _ _ Hok) as Htc. by destruct (state_ c). }
  cbn. split; [|done]. exists ch2. eapply (log_finished_ok ch2 c2 ms); try done.
  rewrite Htr. cbn. by rewrite Et.
Qed.

(** The history of a connection that was established. *)
Lemma log_event_ok ch c e :
  conn_ok ch c -> (open (state_ c) = true /\ ordinary e) \/ (state_ c = kDisconnected /\ late e) ->
  conn_ok ch (log_event e c).
Proof.
  intros [? ? ? ? ? ? ? ? ? ? Htr] He. split; cbn; try done. destruct He as [[Ho He]|[Hd He]].
  - assert (exists ms, trace c = Connected :: ms /\ Forall ordinary ms) as (ms & -> & Hms)
      by (by destruct (state_ c)).
    assert (exists ms', (Connected :: ms) ++ [e] = Connected :: ms' /\ Forall ordinary ms') as Hx.
    { exists (ms ++ [e]). split; [done|]. apply Forall_app. by split; [|constructor]. }
    by destruct (state_ c).
  - rewrite Hd in *. destruct Htr as (ms & fin & rest & -> & Hms & Hfin & Hrest).
    exists ms, fin, (rest ++ [e]). split_and!; [| done | done |].
    + cbn. f_equal. rewrite <- app_assoc. cbn. by rewrite <- app_assoc.
    + apply Forall_app. by split; [|constructor].
Qed.

Lemma set_input_ok ch c b :
  conn_ok ch c -> wf b -> unlimited b = true -> conn_ok ch (set_input b c).
Proof. intros [? ? ? ? ? ? ? ? ? ? ?] Hb Hu. by split. Qed.

Lemma handle_read_ok ch c :
  conn_ok ch c -> open (state_ c) = true ->
  safe (handle_read cbs write readv c) (fun c' => step_frame c c').
Proof.
  intros Hok Ho. unfold handle_read. destruct (ok_input _ _ _ Hok) as [Hwf Hu].
  assert (forall b, wf b -> unlimited b = true -> conn_ok ch (log_call [] (set_input b c))) as Hmk.
  { intros b Hb Hub. apply (log_call_ok ch _ [] (contents (output_buffer_ c))); [by apply set_input_ok | done | by left]. }
  destruct (readv (calls c) (read_iov (size (input_buffer_ c) - writer_index_ (input_buffer_ c))))
    as [err|data] eqn:Er.
  { unfold read_fd. rewrite writable_bytes_ok, bind_ret, begin_write_ok, bind_ret by done.
    unfold limit. rewrite Hu, Er, bind_ret. cbn. split; [eauto | done | done]. }
  destruct (read_fd_grows _ _ _ Hwf Hu (env_readv Henv _) Er) as [(b & -> & Hwfb & _ & Hmb)|[-> _]]; [|done].
  assert (unlimited b = true) as Hub by (unfold unlimited in *; by rewrite Hmb).
  cbn [mbind outcome_bind]. specialize (Hmk b Hwfb Hub). set (c1 := log_call [] (set_input b c)) in *.
  destruct (Z.ltb_spec 0 (zlen data)) as [Hn|Hn].
  - change (input_buffer_ c1) with b.
    destruct (env_message Henv b Hwfb Hub) as (b' & us & -> & Hwf' & Hu' & Hus). cbn [mbind outcome_bind].
    eapply safe_mono; [apply (run_calls_ok ch); [|done]|].
    + apply log_event_ok; [by apply set_input_ok | left; split; [done | left; by eexists]].
    + intros c' Hf. apply call_step in Hf as [? ? Hcl]. split; [done | done |]. intros Hc. by apply Hcl.
  - pose proof (zlen_nonneg data). rewrite (proj2 (Z.eqb_eq _ _)) by lia.
    eapply safe_mono; [by apply (handle_close_ok ch)|]. intros c' [Hch Hst].
    split; [done | by rewrite Hst |]. intros _. apply closing_done. by rewrite Hst.
Qed.

(** The kernel took [n] bytes of the output buffer. *)
Lemma drain_ok ch c n :
  conn_ok ch c -> open (state_ c) = true -> 0 <= n <= zlen (contents (output_buffer_ c)) ->
  exists b, has_read n (output_buffer_ c) = Ok b /\ wf b /\
    contents b = zdrop n (contents (output_buffer_ c)) /\
    forall p ch', slot p (connect_channel_ c) ch' -> (is_write_event ch' = true <-> contents b <> []) ->
      conn_ok ch' (set_poller p (set_output b (log_call (ztake n (contents (output_buffer_ c))) c))).
Proof.
  intros Hok Ho Hn. destruct (ok_output _ _ _ Hok) as [Hwf Hu].
  destruct (has_read_ok n (output_buffer_ c) Hwf) as (b & E & Hwfb & Hcb & Hmb & _); [lia|].
  exists b. split_and!; try done. intros p ch' Hs Hw. pose proof (shut_open _ _ _ Hok Ho) as Hsh.
  destruct Hok as [? ? ? ? ? Hst ? Hshut ? ? ?]. split; cbn; try done.
  - split; [done|]. unfold unlimited in *. by rewrite Hmb.
  - by rewrite Ho.
  - rewrite Hcb, <- Hst, app_nil_r. rewrite <- app_assoc, ztake_zdrop, app_nil_r. done.
  - intros Hs'. specialize (Hshut Hs'). destruct (state_ c); try done. rewrite Hcb, Hshut.
    unfold zdrop. apply drop_nil.
  - intros Hc. by rewrite Hc in Ho.
Qed.

Lemma handle_write_ok ch c :
  conn_ok ch c -> open (state_ c) = true ->
  safe (handle_write cbs write c) (fun c' => step_frame c c').
Proof.
  intros Hok Ho. unfold handle_write. rewrite (channel_of_ok [] ch c Hok), bind_ret.
  destruct (is_write_event ch) eqn:Ew; [|by eapply call_step, call_frame_refl].
  destruct (ok_output _ _ _ Hok) as [Hwf Hu]. rewrite to_string_ok, bind_ret by done.
  assert (conn_ok ch (log_call [] c)) as Hok0
    by (apply (log_call_ok ch c [] (contents (output_buffer_ c))); [done | done | by left]).
  destruct (write (calls c) (shut_wr c) (contents (output_buffer_ c))) as [n|e] eqn:Ewr.
  2: { cbn. split; [eauto | done | done]. }
  pose proof (env_write Henv _ _ _ _ Ewr) as Hn.
  destruct (Z.ltb_spec 0 n) as [Hpos|Hz].
  2: { replace n with 0 by lia. rewrite ztake_0. cbn. split; [eauto | done | done]. }
  destruct (drain_ok ch c n Hok Ho Hn) as (b & Eb & Hwfb & Hcb & Hmk).
  change (output_buffer_ (log_call (ztake n (contents (output_buffer_ c))) c)) with (output_buffer_ c).
  rewrite Eb, bind_ret. set (c1 := set_output b _).
  rewrite readable_bytes_ok, bind_ret by done. rewrite <- contents_length by done.
  destruct (Z.eqb_spec (zlen (contents b)) 0) as [He|He].
  2: { assert (contents b <> []) as Hne by (intros E; rewrite E in He; done).
       cbn. split; [| done | intros _ _; by right; left]. exists ch.
       replace c1 with (set_poller (poller c) c1) by done. apply Hmk; [by apply ok_slot in Hok | done]. }
  apply zlen_0_nil in He.
  destruct (slot_interest _ _ _ disable_write_event (ok_slot _ _ _ Hok)) as (p' & ch' & Ep & Hs & Hev & _).
  assert (is_write_event ch' = false) as Hw'
    by (by rewrite (is_write_new disable_write_event (events_ ch) ch' (slot_events _ _ _ (ok_slot _ _ _ Hok)) Hev)).
  assert (conn_ok ch' (set_poller p' c1)) as Hok1 by (apply Hmk; [done | rewrite Hw', He; done]).
  unfold channel_interest. change (connect_channel_ c1) with (connect_channel_ c).
  change (poller c1) with (poller c). rewrite Ep, !bind_ret.
  set (c2 := if bool_decide (is_Some (write_complete_cb_ cbs)) then _ else _).
  assert (conn_ok ch' c2 /\ state_ c2 = state_ c) as [Hok2 Hst2].
  { unfold c2. case_bool_decide; [|done]. split; [|done]. apply enqueue_ok; [done|]. cbn. by destruct (state_ c). }
  case_bool_decide as Hd.
  - eapply safe_mono; [apply (shutdown_in_loop_ok ch' c2 Hok2); by left|].
    intros c' (Hch & Hcl & Est & _). split; [done | | done]. by rewrite Est, Hst2.
  - cbn. split; [eauto | by rewrite Hst2 |]. intros _. by apply closing_done.
Qed.

(** *** Events, tasks and the whole life *)

Lemma update_channel_ok ch c f :
  conn_ok ch c -> invisible f -> conn_ok (f ch) (update_channel_of f c).
Proof.
  intros Hok Hf. unfold update_channel_of. destruct (Hf ch) as (_ & _ & E & _).
  apply (set_poller_ok [] ch); [done | |].
  - by apply slot_alter; [|apply ok_slot in Hok].
  - unfold is_write_event. by rewrite E.
Qed.

Lemma invisible_revents r : invisible (set_revents r).
Proof. done. Qed.
Lemma invisible_handling h : invisible (set_handling h).
Proof. done. Qed.

(** The events of one round that do not call two callbacks after a close. *)
Definition event_ok (r : Z) : Prop :=
  has POLLHUP r && negb (has POLLIN r) = true -> has (Z.lor POLLIN POLLPRI) r = false.

(** A callback of the channel.  A connection an earlier callback of the round
    closed ignores the write and the error callback. *)
Lemma fire_ok (cond : bool) cb chan c ch :
  conn_ok ch c -> state_ c <> kConnecting ->
  (cond = true -> open (state_ c) = true \/ cb = WriteCb \/ cb = ErrorCb) ->
  safe (fire (dispatch cbs write readv) cond cb chan c) (fun c' => step_frame c c' /\
    (cond = false \/ cb = ErrorCb -> c' = c)).
Proof.
  intros Hok Hn Hc. unfold fire. destruct cond; cbn [andb].
  2: { split; [by eapply call_step, call_frame_refl | done]. }
  case_bool_decide; [|split; [by eapply call_step, call_frame_refl | done]].
  specialize (Hc eq_refl). destruct (open (state_ c)) eqn:Ho.
  - destruct cb; cbn [dispatch].
    + eapply safe_mono; [by apply (handle_read_ok ch)|]. intros c' Hf. split; [done|]. by intros [?|?].
    + eapply safe_mono; [by apply (handle_write_ok ch)|]. intros c' Hf. split; [done|]. by intros [?|?].
    + eapply safe_mono; [by apply (handle_close_ok ch)|]. intros c' [Hch Hst]. split; [|by intros [?|?]].
      split; [done | by rewrite Hst |]. intros _. apply closing_done. by rewrite Hst.
    + cbn. split; [by eapply call_step, call_frame_refl | done].
  - destruct Hc as [?|[->| ->]]; [done | |]; cbn [dispatch].
    + unfold handle_write. rewrite (channel_of_ok [] ch c Hok), bind_ret.
      pose proof (ok_interest _ _ _ Hok) as Hint. rewrite Ho in Hint. rewrite Hint. cbn.
      split; [by eapply call_step, call_frame_refl | done].
    + cbn. split; [by eapply call_step, call_frame_refl | done].
Qed.

Lemma handle_channel_event_ok ch c r :
  conn_ok ch c -> open (state_ c) = true -> event_ok r ->
  safe (handle_channel_event cbs write readv r c) (fun c' => step_frame c c').
Proof.
  intros Hok Ho Hr. unfold handle_channel_event, handle_event.
  apply (update_channel_ok _ _ (set_revents r)) in Hok; [|done].
  set (c1 := update_channel_of (set_revents r) c) in *.
  rewrite (channel_of_ok [] _ c1 Hok), bind_ret, check_true, bind_ret by done.
  set (chan := set_revents r ch) in *. change (revents_ chan) with r.
  apply (update_channel_ok _ _ (set_handling true)) in Hok; [|done].
  set (c2 := update_channel_of (set_handling true) c1) in *.
  assert (step_frame c c2) as F0 by (split; [eauto | done | done]).
  assert (state_ c2 <> kConnecting) as Hn2 by (cbn; by destruct (state_ c)).
  eapply safe_bind; [apply (fire_ok _ CloseCb chan c2 _ Hok Hn2); by left|]. intros c3 [F1 E1].
  destruct (sf_ok _ _ F1) as [ch3 Hok3]. pose proof (sf_state _ _ F1 Hn2) as Hn3.
  eapply safe_bind; [apply (fire_ok _ ErrorCb chan c3 _ Hok3 Hn3); by right; right|]. intros c4 [F2 E2].
  specialize (E2 (or_intror eq_refl)). subst c4.
  eapply safe_bind; [apply (fire_ok _ ReadCb chan c3 _ Hok3 Hn3)|].
  { intros Hread. left. rewrite E1; [done|]. left. destruct (has POLLHUP r && negb (has POLLIN r)) eqn:E; [|done].
    by rewrite (Hr E) in Hread. }
  intros c5 [F3 _]. destruct (sf_ok _ _ F3) as [ch5 Hok5]. pose proof (sf_state _ _ F3 Hn3) as Hn5.
  eapply safe_bind; [apply (fire_ok _ WriteCb chan c5 _ Hok5 Hn5); by right; left|]. intros c6 [F4 _].
  destruct (sf_ok _ _ F4) as [ch6 Hok6]. cbn [safe].
  eapply step_frame_trans; [exact F0|]. eapply step_frame_trans; [exact F1|].
  eapply step_frame_trans; [exact F3|]. eapply step_frame_trans; [exact F4|].
  split; [|done|done]. exists (set_handling false ch6). by apply update_channel_ok.
Qed.

Lemma closing_pop t q c :
  queue c = t :: q -> t <> ShutdownInLoop -> t <> ForceCloseInLoop -> closing_ok c -> closing_ok (set_queue q c).
Proof.
  intros Eq H1 H2 Hc Hs. specialize (Hc Hs). rewrite Eq, !elem_of_cons in Hc. cbn.
  destruct Hc as [?|[?|[[?|?]|[[?|?]|?]]]]; try congruence; tauto.
Qed.

(** The next task of the queue. *)
Lemma run_task_ok ch c t q :
  conn_ok ch c -> closing_ok c -> queue c = t :: q ->
  safe (run_task cbs write t (set_queue q c)) (fun c' => (exists ch', conn_ok ch' c') /\ closing_ok c').
Proof.
  intros Hok Hcl Eq. pose proof (ok_tasks _ _ _ Hok) as Ht. rewrite Eq in Ht.
  apply Forall_cons in Ht as [Ht Hq].
  assert (conn_ok ch (set_queue q c)) as Hok1 by (destruct Hok; by split).
  assert (t <> ShutdownInLoop -> t <> ForceCloseInLoop -> closing_ok (set_queue q c)) as Hcl1
    by (intros; by eapply closing_pop).
  assert (forall c', t <> ShutdownInLoop -> t <> ForceCloseInLoop -> call_frame (set_queue q c) c' ->
    (exists ch', conn_ok ch' c') /\ closing_ok c') as Hfin.
  { intros c' H1 H2 [? _ _ Hc]. split; [done|]. by apply Hc, Hcl1. }
  assert (forall e us, late e -> state_ c <> kConnecting -> t <> ShutdownInLoop -> t <> ForceCloseInLoop ->
    Forall user_ok us -> safe (run_calls cbs write us (log_event e (set_queue q c)))
      (fun c' => (exists ch', conn_ok ch' c') /\ closing_ok c')) as Hcb.
  { intros e us He Hn H1 H2 Hus. eapply safe_mono; [apply (run_calls_ok ch); [|done]|].
    - apply log_event_ok; [done|]. cbn. destruct (state_ c); try done; unfold late, ordinary in *; tauto.
    - intros c' [? _ _ Hc]. split; [done|]. apply Hc. intros Hs. by apply Hcl1. }
  destruct t as [|d| | | | | |n]; cbn [run_task].
  - split; [|by apply Hcl1]. eexists. by apply update_channel_ok.
  - destruct Ht as [Hn Hd]. eapply safe_mono; [by apply (send_in_loop_ok ch)|]. intros c' [? _]. by apply Hfin.
  - eapply safe_mono; [by apply (shutdown_in_loop_ok ch)|]. by intros c' (? & ? & _).
  - unfold force_close_in_loop. case_bool_decide as Hs.
    + eapply safe_mono; [apply (handle_close_ok ch); [done|]; by destruct Hs as [Hs|Hs]; cbn in *; rewrite Hs|].
      intros c' [? Hst]. split; [done|]. apply closing_done. by rewrite Hst.
    + cbn. split; [eauto|]. apply closing_done. cbn in *. tauto.
  - eapply safe_mono; [by apply (start_read_in_loop_ok ch)|]. intros c' [? _]. by apply Hfin.
  - eapply safe_mono; [by apply (stop_read_in_loop_ok ch)|]. intros c' [? _]. by apply Hfin.
  - apply Hcb; try done; [by left | apply (env_write_complete Henv)].
  - apply Hcb; try done; [by right | apply (env_high_water Henv)].
Qed.

Lemma connect_established_ok ch c :
  conn_ok ch c -> state_ c = kConnecting ->
  safe (connect_established cbs write c) (fun c' => (exists ch', conn_ok ch' c') /\ closing_ok c').
Proof.
  intros Hok Hs. unfold connect_established. rewrite check_true, bind_ret by (by apply bool_decide_eq_true_2).
  destruct (slot_interest _ _ _ enable_read_event (ok_slot _ _ _ Hok)) as (p' & ch' & E & Hsl & Hev & _).
  unfold channel_interest. cbn. rewrite E. cbn [mbind outcome_bind].
  pose proof (slot_events _ _ _ (ok_slot _ _ _ Hok)) as Hevs.
  assert (conn_ok ch' (log_event Connected (set_poller p' (set_state kConnected c)))) as Hok1.
  { destruct Hok as [? ? ? ? Hint ? ? Hsh Hearly Ht Htr]. rewrite Hs in *. split; cbn; try done.
    - rewrite (Hearly eq_refl), (is_write_new enable_read_event (events_ ch) ch' Hevs Hev).
      unfold is_write_event in Hint. rewrite Hint. split; congruence.
    - eapply Forall_impl; [exact Ht|]. intros t. apply task_ok_later. auto.
    - rewrite Htr. by exists []. }
  eapply safe_mono; [apply (run_calls_ok ch'); [done | apply (env_connect Henv)]|].
  intros c' [? _ _ Hcl]. split; [done|]. by apply Hcl, closing_done.
Qed.

(** Calls from the close callback leave a closed channel alone. *)
Lemma run_calls_closed ch us c :
  conn_ok ch c -> state_ c = kDisconnected -> events_ ch = 0 -> StartRead ∉ us ->
  exists r, run_calls cbs write us c = Ok (set_reading r c).
Proof.
  intros Hok Hs Hev. revert c Hok Hs. induction us as [|u us IH]; intros c Hok Hs Hn; cbn [run_calls].
  { exists (reading_ c). by destruct c. }
  apply not_elem_of_cons in Hn as [Hu Hn].
  assert (exists r, call cbs write true u c = Ok (set_reading r c)) as [r ->].
  { pose proof (ok_init _ _ _ Hok) as Hi.
    assert (Ok c = Ok (set_reading (reading_ c) c)) as Hc by (by destruct c).
    destruct u; cbn [call]; [unfold send|unfold shutdown|unfold force_close|unfold force_close_with_delay| done|unfold stop_read];
      rewrite Hi, check_true, bind_ret by done; rewrite ?Hs; try (by exists (reading_ c)).
    cbn. unfold stop_read_in_loop. destruct (reading_ c) eqn:Er; [|by exists false].
    pose proof (set_reading_ok ch c false Hok) as Hok1. rewrite (channel_of_ok [] ch _ Hok1), bind_ret.
    unfold is_read_event. rewrite Hev. cbn. by exists false. }
  cbn [mbind outcome_bind].
  destruct (IH (set_reading r c)) as [r' ->]; [by apply set_reading_ok | done | done |]. by exists r'.
Qed.

Lemma connect_destroyed_ok ch c :
  conn_ok ch c ->
  (state_ c = kConnected /\ StartRead ∉ close_cb_ cbs) \/
  (state_ c = kDisconnected /\ events_ ch = 0 /\ status_ ch <> kChannelPollInit) ->
  safe (connect_destroyed cbs write c) (fun c' => (exists ch', conn_ok ch' c') /\ state_ c' = kDisconnected).
Proof.
  intros Hok Hs. unfold connect_destroyed.
  assert (exists ch1 c1, (if bool_decide (state_ c = kConnected)
    then c ← channel_interest disable_all_event (set_state kDisconnected c);
         run_calls cbs write (close_cb_ cbs) (log_event Closed c) else Ok c) = Ok c1 /\
    conn_ok ch1 c1 /\ state_ c1 = kDisconnected /\ events_ ch1 = 0 /\ status_ ch1 <> kChannelPollInit)
    as (ch1 & c1 & -> & Hok1 & Hs1 & Hev1 & Hst1).
  { destruct Hs as [[Hs Hn]|(Hs & Hev & Hst)]; rewrite Hs; [|exists ch, c; by rewrite bool_decide_eq_false_2].
    rewrite bool_decide_eq_true_2 by done.
    destruct (close_channel_ok ch c Hok) as (p' & ch' & -> & Hev & Hst & Hok1); [by rewrite Hs|].
    rewrite bind_ret. destruct (run_calls_closed ch' (close_cb_ cbs) _ Hok1) as [r ->]; [done..|].
    exists ch'. eexists. split_and!; [done | by apply set_reading_ok | done | done | done]. }
  rewrite bind_ret.
  destruct (slot_remove _ _ _ (ok_slot _ _ _ Hok1) Hst1 Hev1) as (p' & ch' & -> & Hsl & Hev').
  cbn. split; [|done]. exists ch'. apply (set_poller_ok [] ch1); [done | done |].
  unfold is_write_event. by rewrite Hev1, Hev'.
Qed.

(** *** Valid sequences *)

(** The protocol of the owner and of the poller: a connection is established
    once; an event comes only to an open connection; it is destroyed when it is
    connected, or after it was closed and left without interest. *)
Definition valid_op (o : conn_op) (c : conn) : Prop :=
  match o with
  | Call _ u => user_ok u
  | Established => state_ c = kConnecting
  | Event r => open (state_ c) = true /\ event_ok r
  | RunTask | CloseTimer => True
  | Destroyed => (state_ c = kConnected /\ StartRead ∉ close_cb_ cbs) \/
      (state_ c = kDisconnected /\ exists ch, chans (poller c) !! connect_channel_ c = Some ch /\
         events_ ch = 0 /\ status_ ch <> kChannelPollInit)
  end.

Fixpoint valid_ops (os : list conn_op) (c : conn) : Prop :=
  match os with
  | [] => True
  | o :: os => valid_op o c /\
      match run_op cbs write readv o c with Ok c => valid_ops os c | Fault _ => True end
  end.

Lemma run_op_ok ch o c :
  conn_ok ch c -> closing_ok c -> valid_op o c ->
  safe (run_op cbs write readv o c) (fun c' => (exists ch', conn_ok ch' c') /\ closing_ok c').
Proof.
  intros Hok Hcl Hv. destruct o as [own u| |r| | |]; cbn [run_op valid_op] in *.
  - eapply safe_mono; [by apply (call_ok ch)|]. intros c' [? _ _ Hc]. auto.
  - by apply (connect_established_ok ch).
  - destruct Hv. eapply safe_mono; [by apply (handle_channel_event_ok ch)|]. intros c' [? _ Hc]. auto.
  - destruct (queue c) as [|t q] eqn:Eq; [split; eauto|]. by apply (run_task_ok ch).
  - destruct (close_timers c) as [|t ts] eqn:Et; [split; eauto|].
    assert (conn_ok ch (set_timers ts c)) as Hok1 by (destruct Hok; by split).
    eapply safe_mono; [by apply (force_close_ok ch)|]. intros c' [[? _ Hst Hc] Hc']. split; [done|].
    cbn in Hst, Hc'. destruct (decide (state_ c = kDisconnecting)) as [Hd|Hd]; [auto|].
    apply Hc. by apply closing_done.
  - eapply safe_mono; [apply (connect_destroyed_ok ch); [done|]|].
    + destruct Hv as [?|(? & ch' & Hch & ? & ?)]; [by left | right].
      destruct (ok_slot _ _ _ Hok) as (_ & Hch' & _). by replace ch' with ch in * by congruence.
    + intros c' [? Hst]. split; [done|]. apply closing_done. by rewrite Hst.
Qed.

Lemma run_ops_ok ch os c :
  conn_ok ch c -> closing_ok c -> valid_ops os c ->
  safe (run_ops cbs write readv os c) (fun c' => (exists ch', conn_ok ch' c') /\ closing_ok c').
Proof.
  revert ch c. induction os as [|o os IH]; intros ch c Hok Hcl Hv; cbn [run_ops valid_ops] in *.
  { cbn. eauto. }
  destruct Hv as [Ho Hv]. pose proof (run_op_ok ch o c Hok Hcl Ho) as Hs.
  destruct (run_op cbs write readv o c) as [c1|f]; [|done]. cbn in Hs |- *.
  destruct Hs as [[ch1 Hok1] Hcl1]. by apply (IH ch1).
Qed.

Lemma make_tcp_connection_ok own id fd (p : Poller B) :
  poller_ok p -> chans p !! id = None ->
  (forall id' c', chans p !! id' = Some c' -> Channel.fd c' <> fd) ->
  exists c ch, make_tcp_connection own id fd p = Ok c /\ conn_ok ch c /\ closing_ok c.
Proof.
  intros Hp Hn Hfd. unfold make_tcp_connection.
  destruct (make_ok kUnLimitSize kInitialSize) as (b & -> & Hwf & Hc & Hm);
    [unfold kUnLimitSize; lia | unfold kInitialSize, vec_max_size, kInt64Max; lia|].
  rewrite !bind_ret. unfold initialize. rewrite check_true, bind_ret by done.
  pose proof (slot_new p id fd [] Hp Hn Hfd) as Hs. set (c0 := mkConn true _ _ _ _ _ _ _ _ _ _ _ _ _).
  assert (conn_ok (make_channel fd []) c0) as Hok.
  { split; cbn; try done.
    - split; [done|]. unfold unlimited. by rewrite Hm.
    - split; [done|]. unfold unlimited. by rewrite Hm.
    - by rewrite Hc.
    - intros d Hd. by apply elem_of_nil in Hd. }
  destruct own; cbn [run_in_own_loop].
  - eexists _, _. split_and!; [done | by apply update_channel_ok | by apply closing_done].
  - eexists _, _. split_and!; [done | by apply enqueue_ok | by apply closing_done].
Qed.

(** The states of a connection during its life in a loop. *)
Definition lifetime (c : conn) : Prop :=
  exists (p : Poller B) own id fd c0 os,
    poller_ok p /\ chans p !! id = None /\
    (forall id' c', chans p !! id' = Some c' -> Channel.fd c' <> fd) /\
    make_tcp_connection own id fd p = Ok c0 /\ valid_ops os c0 /\
    run_ops cbs write readv os c0 = Ok c.

Lemma lifetime_ok c : lifetime c -> exists ch, conn_ok ch c /\ closing_ok c.
Proof.
  intros (p & own & id & fd & c0 & os & Hp & Hn & Hfd & Hmk & Hv & Hrun).
  destruct (make_tcp_connection_ok own id fd p Hp Hn Hfd) as (c0' & ch0 & Hmk' & Hok & Hcl).
  rewrite Hmk in Hmk'. injection Hmk' as <-.
  pose proof (run_ops_ok ch0 os c0 Hok Hcl Hv) as Hs. rewrite Hrun in Hs. cbn in Hs.
  destruct Hs as [[ch ?] ?]. eauto.
Qed.

Lemma kept_all ms : (forall d, (d, false) ∉ ms) -> kept ms = ms.*1.
Proof.
  unfold kept. induction ms as [|[d b] ms IH]; intros Hn; [done|]. cbn.
  assert (b = true) as ->.
  { destruct b; [done|]. exfalso. apply (Hn d), list_elem_of_here. }
  cbn. f_equal. apply IH. intros d' Hd'. apply (Hn d'). by apply list_elem_of_further.
Qed.

(** The kernel takes the whole output buffer of a closing connection. *)
Lemma handle_write_all ch c :
  conn_ok ch c -> state_ c = kDisconnecting -> contents (output_buffer_ c) <> [] ->
  write (calls c) (shut_wr c) (contents (output_buffer_ c)) = Wrote (zlen (contents (output_buffer_ c))) ->
  exists c', handle_write cbs write c = Ok c' /\ shut_wr c' = true /\
    wrote c' = concat (kept (messages c)).
Proof.
  intros Hok Hs Hne Hw. assert (open (state_ c) = true) as Ho by (by rewrite Hs).
  unfold handle_write. rewrite (channel_of_ok [] ch c Hok), bind_ret.
  pose proof (ok_interest _ _ _ Hok) as Hint. rewrite Ho in Hint. rewrite (proj2 Hint Hne).
  destruct (ok_output _ _ _ Hok) as [Hwf Hu]. rewrite to_string_ok, bind_ret, Hw by done.
  set (d := contents (output_buffer_ c)) in *. pose proof (zlen_nonneg d).
  assert (zlen d <> 0) as Hz by (intros E; apply Hne; by apply zlen_0_nil).
  rewrite (proj2 (Z.ltb_lt 0 (zlen d))) by lia.
  destruct (drain_ok ch c (zlen d) Hok Ho) as (b & Eb & Hwfb & Hcb & Hmk); [unfold d in *; lia|].
  change (output_buffer_ (log_call _ c)) with (output_buffer_ c). rewrite Eb, bind_ret.
  rewrite readable_bytes_ok, bind_ret, <- contents_length by done.
  rewrite zdrop_ge in Hcb by (unfold d; lia). rewrite Hcb. cbn [zlen length Z.of_nat Z.eqb].
  destruct (slot_interest _ _ _ disable_write_event (ok_slot _ _ _ Hok)) as (p' & ch' & Ep & Hsl & Hev & _).
  assert (is_write_event ch' = false) as Hw'
    by (by rewrite (is_write_new disable_write_event (events_ ch) ch' (slot_events _ _ _ (ok_slot _ _ _ Hok)) Hev)).
  unfold channel_interest. cbn. rewrite Ep. cbn [mbind outcome_bind].
  pose proof (ok_stream _ _ _ Hok) as Hst. rewrite app_nil_r in Hst. fold d in Hst.
  assert (forall c2, poller c2 = p' -> connect_channel_ c2 = connect_channel_ c ->
    shutdown_in_loop c2 = Ok (set_shut c2)) as Hshut.
  { intros c2 E1 E2. unfold shutdown_in_loop, channel_of, deref. rewrite E1, E2.
    destruct Hsl as (_ & -> & _). cbn. by rewrite Hw'. }
  rewrite ztake_ge by lia.
  destruct (bool_decide (is_Some (write_complete_cb_ cbs))); cbn [state_ enqueue set_queue set_poller set_output log_call];
    rewrite bool_decide_eq_true_2, Hshut by done; eexists; split_and!; done.
Qed.
(** *** The owner and the kernel *)

(** A run of the whole life: the owner establishes the connection once and destroys it once, after
    that; the kernel reports events of descriptors that it watches. *)
Inductive phase : Type := Fresh | Live | Gone.

(** Calls that leave the reading of the connection as it is. *)
Definition steady (u : user_call) : Prop :=
  match u with StartRead | StopRead => False | _ => True end.

Record steady_callbacks : Prop := {
  steady_connect : Forall steady (connect_cb_ cbs);
  steady_close : Forall steady (close_cb_ cbs);
  steady_message : forall b b' us, message_cb_ cbs b = Ok (b', us) -> Forall steady us;
  steady_write_complete : Forall steady (default [] (write_complete_cb_ cbs));
  steady_high_water : Forall steady (default [] (high_water_mark_cb_ cbs));
}.

(** The kernel watches the socket of the connection. *)
Definition watches (c : conn) : Prop :=
  match chans (poller c) !! connect_channel_ c with
  | Some ch => is_Some (watched (backend (poller c)) !! fd ch)
  | None => False
  end.

Definition allowed (ph : phase) (o : conn_op) (c : conn) : Prop :=
  match o with
  | Call _ u => user_ok u /\ steady u
  | Established => ph = Fresh
  | Event r => watches c /\ event_ok r
  | RunTask | CloseTimer => True
  | Destroyed => ph = Live
  end.

Definition next_phase (ph : phase) (o : conn_op) : phase :=
  match o with Established => Live | Destroyed => Gone | _ => ph end.

Fixpoint life (ph : phase) (os : list conn_op) (c : conn) : Prop :=
  match os with
  | [] => True
  | o :: os => allowed ph o c /\
      match run_op cbs write readv o c with Ok c => life (next_phase ph o) os c | Fault _ => True end
  end.

(** The channel of a connection in each phase: watched and with read interest exactly while the
    connection is open. *)
Definition shape (ph : phase) (s : StateE) (ch : Channel) : Prop :=
  match ph, s with
  | Fresh, kConnecting | Gone, kDisconnected => status_ ch = kChannelPollInit /\ events_ ch = 0
  | Live, kConnected | Live, kDisconnecting => status_ ch = kChannelPollAdded /\ is_read_event ch = true
  | Live, kDisconnected => status_ ch = kChannelPollDeleted /\ events_ ch = 0
  | _, _ => False
  end.

Definition steady_task (t : task) : Prop :=
  match t with StartReadInLoop | StopReadInLoop => False | _ => True end.

Record tracked (ph : phase) (c : conn) : Prop := {
  tr_channel : exists ch, chans (poller c) !! connect_channel_ c = Some ch /\
    events_ok (events_ ch) /\ shape ph (state_ c) ch;
  tr_queue : Forall steady_task (queue c);
}.

Definition leads (m : outcome conn) (Q : conn -> Prop) : Prop := forall c, m = Ok c -> Q c.

Lemma leads_bind m k (Q R : conn -> Prop) :
  leads m Q -> (forall c, Q c -> leads (k c) R) -> leads (m ≫= k) R.
Proof. intros Hm Hk c E. ok_inv. eapply Hk; [by apply Hm | done]. Qed.

Lemma leads_ok c (Q : conn -> Prop) : Q c -> leads (Ok c) Q.
Proof. intros HQ c' [= <-]. done. Qed.

Lemma leads_check b s (k : unit -> outcome conn) Q : (b = true -> leads (k tt) Q) -> leads (check b s ≫= k) Q.
Proof. intros Hk c E. destruct b; [by apply Hk | done]. Qed.

Lemma leads_pure {A} (m : outcome A) k Q : (forall x, m = Ok x -> leads (k x) Q) -> leads (m ≫= k) Q.
Proof. intros Hk c E. apply bind_ok in E as (x & Ex & E). by eapply Hk. Qed.

(** What does not touch the channel. *)
Lemma tracked_same ph c c' :
  tracked ph c -> poller c' = poller c -> connect_channel_ c' = connect_channel_ c -> state_ c' = state_ c ->
  Forall steady_task (queue c') -> tracked ph c'.
Proof. intros [Hc _] E1 E2 E3 Hq. split; [by rewrite E1, E2, E3 | done]. Qed.

Lemma tracked_enqueue ph t c : tracked ph c -> steady_task t -> tracked ph (enqueue t c).
Proof.
  intros Hc Ht. apply (tracked_same ph c); [done.. |]. cbn. apply Forall_app. by split; [apply Hc | constructor].
Qed.

Lemma interest_leads o c ch :
  chans (poller c) !! connect_channel_ c = Some ch ->
  leads (channel_interest o c) (fun c' => exists p' ch', c' = set_poller p' c /\
    chans p' !! connect_channel_ c = Some ch' /\ events_ ch' = new_events o (events_ ch) /\
    status_ ch' = if (status_ ch =? kChannelPollAdded) && (new_events o (events_ ch) =? 0)
                  then kChannelPollDeleted else kChannelPollAdded).
Proof.
  intros Hc c' E. unfold channel_interest, interest, update_channel, deref in E. rewrite Hc in E. cbn in E.
  rewrite !lookup_insert_eq in E. cbn in E. rewrite lookup_insert_eq in E. cbn in E.
  destruct ((status_ ch =? kChannelPollInit) || (status_ ch =? kChannelPollDeleted)) eqn:Es.
  - ok_inv. eexists _, _. split; [done|]. cbn. rewrite lookup_insert_eq. split_and!; [done | done |]. cbn.
    destruct (Z.eqb_spec (status_ ch) kChannelPollAdded) as [Ha|_]; [|done]. by rewrite Ha in Es.
  - ok_inv. match goal with Hs : (_ =? kChannelPollAdded) = true |- _ => rewrite Hs; apply Z.eqb_eq in Hs as Hst end.
    unfold is_none_event in *. cbn [events_ set_events set_added] in *. change kNoneEvent with 0 in *. cbn [andb].
    destruct (new_events o (events_ ch) =? 0) eqn:En; ok_inv; eexists _, _; (split; [done|]); cbn;
      rewrite lookup_insert_eq; done.
Qed.

(** Write interest comes and goes while the connection is open. *)
Lemma tracked_write ph o c :
  tracked ph c -> open (state_ c) = true -> o = enable_write_event \/ o = disable_write_event ->
  leads (channel_interest o c) (tracked ph).
Proof.
  intros [(ch & Hc & Hev & Hs) Hq] Ho Hw c' E. apply (interest_leads o c ch Hc) in E as (p' & ch' & -> & Hc' & He & Hst).
  assert (status_ ch = kChannelPollAdded /\ is_read_event ch = true) as [Ha Hr] by (by destruct ph, (state_ c)).
  assert (is_read_event ch' = true) as Hr'.
  { unfold is_read_event in *. rewrite He, new_events_read by done. by destruct Hw as [-> | ->]. }
  assert ((new_events o (events_ ch) =? 0) = false) as Hz.
  { apply Z.eqb_neq. intros E. unfold is_read_event in Hr'. by rewrite He, E in Hr'. }
  rewrite Hz, andb_false_r in Hst. split; [|done]. exists ch'. cbn. split_and!; [done | rewrite He; by apply new_events_ok |].
  by destruct ph, (state_ c).
Qed.

Lemma write_directly_tracked ph d c :
  tracked ph c -> tracked ph (write_directly cbs write d c).2 /\ state_ (write_directly cbs write d c).2 = state_ c.
Proof.
  intros Hc. assert (forall x, tracked ph (log_call x c)) as Hl by (intros x; apply (tracked_same ph c); [done.. | apply Hc]).
  unfold write_directly. destruct (write _ _ _); cbn [snd]; [|by split; [apply Hl|]].
  destruct (_ && _); (split; [|done]); [by apply tracked_enqueue | apply Hl].
Qed.

Lemma send_in_loop_leads ph d c :
  tracked ph c -> state_ c <> kConnecting -> leads (send_in_loop cbs write d c) (tracked ph).
Proof.
  intros Hc Hn. unfold send_in_loop. case_bool_decide as Hd; [by apply leads_ok|].
  assert (open (state_ c) = true) as Ho by (by destruct (state_ c)).
  apply leads_pure. intros ch _. apply leads_pure. intros r _.
  destruct (if negb (is_write_event ch) && (r =? 0) then _ else _) as [[n fault] c1] eqn:Ew.
  assert (tracked ph c1 /\ state_ c1 = state_ c) as [Hc1 Hs1].
  { destruct (_ && _); [|by injection Ew as _ _ <-]. pose proof (write_directly_tracked ph d c Hc). by rewrite Ew in *. }
  apply leads_check. intros _. assert (tracked ph (log_message d (negb fault) c1)) as Hc2 by (apply (tracked_same ph c1); [done.. | apply Hc1]).
  destruct (negb fault && _); [|by apply leads_ok]. apply leads_pure. intros h _.
  set (c3 := if (_ <=? h + _) && _ && _ then _ else _).
  assert (tracked ph c3 /\ state_ c3 = state_ c) as [Hc3 Hs3].
  { unfold c3. destruct (_ && _ && _); [|done]. split; [|done]. by apply tracked_enqueue. }
  apply leads_pure. intros [? b] _.
  assert (tracked ph (set_output b c3)) as Hc4 by (apply (tracked_same ph c3); [done.. | apply Hc3]).
  apply leads_pure. intros ch' _. destruct (negb (is_write_event ch')); [|by apply leads_ok].
  apply tracked_write; [done | cbn; by rewrite Hs3 | by left].
Qed.

Lemma tracked_leaving ph c : tracked ph c -> open (state_ c) = true -> tracked ph (set_state kDisconnecting c).
Proof.
  intros [(ch & Hc & Hev & Hs) Hq] Ho. split; [|done]. exists ch. cbn. split_and!; [done | done |]. by destruct ph, (state_ c).
Qed.

Lemma shutdown_in_loop_leads ph c : tracked ph c -> leads (shutdown_in_loop c) (tracked ph).
Proof.
  intros Hc. apply leads_pure. intros ch _. apply leads_ok. destruct (negb _); [|done]. apply (tracked_same ph c); [done.. | apply Hc].
Qed.

Lemma call_leads ph own u c : tracked ph c -> steady u -> leads (call cbs write own u c) (tracked ph).
Proof.
  intros Hc Hu. destruct u as [d| | |s| |]; [..|done|done]; cbn [call]; apply leads_check; intros _.
  - case_bool_decide as Hs; [|by apply leads_ok]. destruct own; [apply send_in_loop_leads; [done | by rewrite Hs]|].
    by apply leads_ok, tracked_enqueue.
  - case_bool_decide as Hs; [|by apply leads_ok].
    pose proof (tracked_leaving ph c Hc ltac:(by rewrite Hs)) as Hc'. destruct own; [by apply shutdown_in_loop_leads|].
    by apply leads_ok, tracked_enqueue.
  - destruct (state_ c) eqn:Hs; apply leads_ok; try done; apply tracked_enqueue; try done. apply tracked_leaving; [done | by rewrite Hs].
  - destruct (state_ c) eqn:Hs; try (by apply leads_ok); apply leads_pure; intros t _; apply leads_ok;
      (eapply (tracked_same ph (set_state kDisconnecting c)); [by apply tracked_leaving; [|rewrite Hs] | done.. | apply Hc]).
Qed.

Lemma run_calls_leads ph us c : tracked ph c -> Forall steady us -> leads (run_calls cbs write us c) (tracked ph).
Proof.
  intros Hc Hus. revert c Hc. induction Hus as [|u us Hu Hus IH]; intros c Hc; cbn [run_calls]; [by apply leads_ok|].
  eapply leads_bind; [by apply call_leads | apply IH].
Qed.

(** The channel of a connection that is being closed. *)
Lemma tracked_close ph c :
  tracked ph c -> open (state_ c) = true ->
  leads (channel_interest disable_all_event (set_state kDisconnected c)) (fun c' => tracked ph c' /\ state_ c' = kDisconnected).
Proof.
  intros [(ch & Hc & Hev & Hs) Hq] Ho c' E.
  apply (interest_leads _ (set_state kDisconnected c) ch Hc) in E as (p' & ch' & -> & Hc' & He & Hst).
  assert (ph = Live /\ status_ ch = kChannelPollAdded) as [-> Ha] by (destruct ph, (state_ c); done || by destruct Hs).
  rewrite Ha in Hst. split; [|done]. split; [|done]. exists ch'. by rewrite He.
Qed.

Lemma handle_close_leads ph c :
  steady_callbacks -> tracked ph c -> leads (handle_close cbs write c) (tracked ph).
Proof.
  intros Hsc Hc. apply leads_check. intros Ho%bool_decide_eq_true.
  eapply leads_bind; [apply tracked_close; [done | by destruct Ho as [-> | ->]]|]. intros c1 [Hc1 _].
  eapply leads_bind; [apply (run_calls_leads ph); [|apply (steady_close Hsc)]|]; [apply (tracked_same ph c1); [done.. | apply Hc1]|].
  intros c2 Hc2. apply leads_ok, (tracked_same ph c2); [done.. | apply Hc2].
Qed.

Lemma handle_read_leads ph c :
  steady_callbacks -> tracked ph c -> leads (handle_read cbs write readv c) (tracked ph).
Proof.
  intros Hsc Hc. apply leads_pure. intros [[n e] b] _.
  assert (tracked ph (log_call [] (set_input b c))) as Hc1 by (apply (tracked_same ph c); [done.. | apply Hc]).
  destruct (0 <? n); [|destruct (n =? 0); [by apply handle_close_leads | by apply leads_ok]].
  apply leads_pure. intros [b' us] Hm. apply run_calls_leads; [|by eapply (steady_message Hsc)].
  apply (tracked_same ph c); [done.. | apply Hc].
Qed.

Lemma handle_write_leads ph c : tracked ph c -> leads (handle_write cbs write c) (tracked ph).
Proof.
  intros Hc. apply leads_pure. intros ch Hch. destruct (is_write_event ch) eqn:Ew; [|by apply leads_ok].
  assert (open (state_ c) = true) as Ho.
  { destruct Hc as [(ch' & E & _ & Hs) _]. unfold channel_of, deref in Hch. rewrite E in Hch. injection Hch as ->.
    unfold is_write_event in Ew. by destruct ph, (state_ c); try done; destruct Hs as [_ Hz]; rewrite Hz in Ew. }
  apply leads_pure. intros d _. assert (forall x, tracked ph (log_call x c)) as Hl by (intros x; apply (tracked_same ph c); [done.. | apply Hc]).
  destruct (write _ _ d) as [n|e]; [|apply leads_ok, Hl]. destruct (0 <? n); [|apply leads_ok, Hl].
  apply leads_pure. intros b _. apply leads_pure. intros r _.
  assert (tracked ph (set_output b (log_call (ztake n d) c))) as Hc1 by (apply (tracked_same ph c); [done.. | apply Hc]).
  destruct (r =? 0); [|by apply leads_ok].
  eapply leads_bind; [apply (tracked_write ph); [done | done | by right]|]. intros c2 Hc2.
  set (c3 := if bool_decide (is_Some _) then _ else _).
  assert (tracked ph c3) as Hc3 by (unfold c3; case_bool_decide; [by apply tracked_enqueue | done]). cbn zeta.
  case_bool_decide; [by apply shutdown_in_loop_leads | by apply leads_ok].
Qed.

Lemma tracked_invisible ph f c : tracked ph c -> invisible f -> tracked ph (update_channel_of f c).
Proof.
  intros [(ch & Hc & Hev & Hs) Hq] Hf. split; [|done]. exists (f ch). destruct (Hf ch) as (_ & E1 & E2 & _). cbn.
  rewrite lookup_alter_eq, Hc. split_and!; [done | by rewrite E2 |]. unfold shape, is_read_event in *. by rewrite E1, E2.
Qed.

Lemma fire_leads ph cond cb chan c :
  steady_callbacks -> tracked ph c -> leads (fire (dispatch cbs write readv) cond cb chan c) (tracked ph).
Proof.
  intros Hsc Hc. unfold fire. destruct (_ && _); [|by apply leads_ok].
  destruct cb; cbn [dispatch]; [by apply handle_read_leads | by apply handle_write_leads | by apply handle_close_leads | by apply leads_ok].
Qed.

Lemma event_leads ph r c :
  steady_callbacks -> tracked ph c -> leads (handle_channel_event cbs write readv r c) (tracked ph).
Proof.
  intros Hsc Hc. apply (tracked_invisible ph (set_revents r)) in Hc; [|done].
  apply leads_pure. intros ch _. apply leads_check. intros _.
  eapply leads_bind; [apply (fire_leads ph); [done | by apply tracked_invisible]|]. intros c1 Hc1.
  do 3 (eapply leads_bind; [by apply (fire_leads ph)|]; intros ? ?). apply leads_ok. by apply tracked_invisible.
Qed.

Lemma run_task_leads ph ch t q c :
  steady_callbacks -> conn_ok ch c -> tracked ph c -> queue c = t :: q ->
  leads (run_task cbs write t (set_queue q c)) (tracked ph).
Proof.
  intros Hsc Hok Hc Eq. pose proof (ok_tasks _ _ _ Hok) as Ht. pose proof (tr_queue _ _ Hc) as Hs.
  rewrite Eq in Ht, Hs. apply Forall_cons in Ht as [Ht _]. apply Forall_cons in Hs as [Hs Hq].
  assert (forall e, tracked ph (log_event e (set_queue q c))) as Hl by (intros e; by apply (tracked_same ph c)).
  assert (tracked ph (set_queue q c)) as Hc1 by (by apply (tracked_same ph c)).
  destruct t as [|d| | | | | |n]; cbn [run_task]; try done.
  - by apply leads_ok, tracked_invisible.
  - apply send_in_loop_leads; [done | apply Ht].
  - by apply shutdown_in_loop_leads.
  - unfold force_close_in_loop. case_bool_decide; [by apply handle_close_leads | by apply leads_ok].
  - apply run_calls_leads; [done | apply (steady_write_complete Hsc)].
  - apply run_calls_leads; [done | apply (steady_high_water Hsc)].
Qed.

Lemma connect_established_leads c :
  steady_callbacks -> tracked Fresh c -> leads (connect_established cbs write c) (tracked Live).
Proof.
  intros Hsc [(ch & Hc & Hev & Hs) Hq]. apply leads_check. intros Hst%bool_decide_eq_true. rewrite Hst in Hs.
  destruct Hs as [Hi Hz]. eapply leads_bind; [apply (interest_leads enable_read_event (set_state kConnected c) ch Hc)|].
  intros c1 (p' & ch' & -> & Hc' & He & Hst'). rewrite Hi, Hz in *.
  apply run_calls_leads; [|apply (steady_connect Hsc)]. split; [|done]. exists ch'. cbn.
  unfold is_read_event. rewrite Hst', He. done.
Qed.

Lemma remove_leads id p p' ch :
  remove true id p = Ok p' -> chans p !! id = Some ch ->
  exists ch', chans p' !! id = Some ch' /\ events_ ch' = events_ ch /\ status_ ch' = kChannelPollInit.
Proof.
  intros E Hc. unfold remove, remove_channel, deref in E. rewrite Hc in E. cbn in E. ok_inv.
  rewrite lookup_insert_eq in *. ok_inv. eexists. cbn. rewrite lookup_insert_eq. done.
Qed.

Lemma run_calls_disconnected us c :
  Forall steady us -> state_ c = kDisconnected -> leads (run_calls cbs write us c) (fun c' => c' = c).
Proof.
  intros Hus Hs. induction Hus as [|u us Hu Hus IH]; cbn [run_calls]; [by apply leads_ok|].
  apply (leads_bind _ _ (fun c' => c' = c)); [|by intros c' ->].
  destruct u; [..|done|done]; apply leads_check; intros _; rewrite Hs; by apply leads_ok.
Qed.

Lemma connect_destroyed_leads c :
  steady_callbacks -> tracked Live c -> state_ c <> kDisconnecting -> leads (connect_destroyed cbs write c) (tracked Gone).
Proof.
  intros Hsc Hc Hn. apply (leads_bind _ _ (fun c1 => tracked Live c1 /\ state_ c1 = kDisconnected)).
  - case_bool_decide as Hst.
    + eapply leads_bind; [apply (tracked_close Live); [done | by rewrite Hst]|]. intros c1 [Hc1 Hs1] c2 E.
      assert (tracked Live (log_event Closed c1)) as Hc2 by (apply (tracked_same Live c1); [done.. | apply Hc1]).
      split; [by apply (run_calls_leads Live _ _ Hc2 (steady_close Hsc))|].
      by rewrite (run_calls_disconnected _ (log_event Closed c1) (steady_close Hsc) Hs1 c2 E).
    + apply leads_ok. split; [done|]. destruct Hc as [(ch & _ & _ & Hs) _]. by destruct (state_ c).
  - intros c1 [[(ch & Hc1 & Hev & Hs) Hq] Hd]. apply leads_pure. intros p' E. apply leads_ok.
    destruct (remove_leads _ _ _ _ E Hc1) as (ch' & Hc' & He & Hst). rewrite Hd in Hs. destruct Hs as [_ Hz].
    split; [|done]. exists ch'. cbn. by rewrite Hd, He, Hz.
Qed.

(** The destructor of the server may come to a connection that was shut down and is not closed yet. *)
Definition interrupted : fault := CheckFailed "Channel::remove: is_none_event".

Lemma connect_destroyed_leaving ph c :
  tracked ph c -> state_ c = kDisconnecting -> connect_destroyed cbs write c = Fault interrupted.
Proof.
  intros [(ch & Hc & Hev & Hs) Hq] Hst. unfold connect_destroyed. rewrite Hst, bool_decide_eq_false_2, bind_ret by done.
  unfold remove, deref. rewrite Hc. cbn. rewrite Hst in Hs.
  assert (is_none_event ch = false) as ->; [|done]. apply Z.eqb_neq. intros E.
  destruct ph; try done. destruct Hs as [_ Hr]. unfold is_read_event in Hr. by rewrite E in Hr.
Qed.

Lemma run_op_leads ph ch o c :
  steady_callbacks -> conn_ok ch c -> tracked ph c -> allowed ph o c ->
  leads (run_op cbs write readv o c) (tracked (next_phase ph o)).
Proof.
  intros Hsc Hok Hc Ha. destruct o as [own u| |r| | |]; cbn [run_op next_phase allowed] in *.
  - apply call_leads; [done | apply Ha].
  - subst. by apply connect_established_leads.
  - by apply event_leads.
  - destruct (queue c) eqn:Eq; [by apply leads_ok | by apply (run_task_leads ph ch)].
  - destruct (close_timers c); [by apply leads_ok|]. apply (call_leads ph true ForceClose); [|done].
    apply (tracked_same ph c); [done.. | apply Hc].
  - subst. destruct (decide (state_ c = kDisconnecting)) as [Hd|Hd]; [|by apply connect_destroyed_leads].
    intros c' E. by rewrite (connect_destroyed_leaving Live) in E.
Qed.

(** The kernel watches the sockets of open connections only. *)
Lemma watches_open ph ch c : conn_ok ch c -> tracked ph c -> watches c <-> open (state_ c) = true.
Proof.
  intros Hok [(ch' & Hc' & _ & Hs) _]. pose proof (ok_slot _ _ _ Hok) as ((_ & _ & _ & I) & Hc & Hfd).
  replace ch' with ch in * by congruence.
  assert (status_ ch = kChannelPollAdded <-> open (state_ c) = true) as <-.
  { destruct ph, (state_ c); try done; destruct Hs as [-> _]; done. }
  unfold watches. rewrite Hc. split.
  - intros [[e t] Hw]. apply I in Hw as (id' & c' & Hc1 & Hf & Ha & _). destruct (decide (id' = connect_channel_ c)) as [->|Hne]; [congruence|].
    by destruct (Hfd id' c').
  - intros Ha. exists (events_ ch, tag (connect_channel_ c)). apply I. by exists (connect_channel_ c), ch.
Qed.

Lemma allowed_valid ph ch o c :
  steady_callbacks -> conn_ok ch c -> tracked ph c -> allowed ph o c -> (o = Destroyed -> state_ c <> kDisconnecting) ->
  valid_op o c.
Proof.
  intros Hsc Hok Hc Ha Hd. pose proof (tr_channel _ _ Hc) as (ch' & Hc' & _ & Hs).
  destruct o as [own u| |r| | |]; cbn [allowed valid_op] in *.
  - apply Ha.
  - subst. by destruct (state_ c).
  - destruct Ha as [Hw ?]. split; [by apply (watches_open ph ch c Hok Hc) | done].
  - done.
  - done.
  - subst. destruct (state_ c) eqn:E; try done; [right | left; split; [done|] | by destruct (Hd eq_refl)].
    + split; [done|]. exists ch'. destruct Hs as [-> ->]. done.
    + intros Hin. pose proof (steady_close Hsc) as Hcl. rewrite Forall_forall in Hcl. by apply (Hcl StartRead).
Qed.

(** A run of the whole life ends well, unless the owner interrupts a shutdown. *)
Lemma life_runs ph ch os c :
  steady_callbacks -> conn_ok ch c -> closing_ok c -> tracked ph c -> life ph os c ->
  match run_ops cbs write readv os c with
  | Ok c' => (exists ch', conn_ok ch' c') /\ closing_ok c' /\ tracked (foldl next_phase ph os) c'
  | Fault f => f = length_error \/ f = interrupted /\
      exists os1 os2 c1, os = os1 ++ Destroyed :: os2 /\ run_ops cbs write readv os1 c = Ok c1 /\ state_ c1 = kDisconnecting
  end.
Proof.
  intros Hsc. revert ph ch c. induction os as [|o os IH]; intros ph ch c Hok Hcl Hc Hv; cbn [run_ops life foldl] in *; [eauto|].
  destruct Hv as [Ha Hv].
  assert (o = Destroyed /\ state_ c = kDisconnecting \/ ~ (o = Destroyed /\ state_ c = kDisconnecting)) as [[-> Hd]|Hn].
  { destruct o; try (by right; intros [[=] _]). destruct (decide (state_ c = kDisconnecting)); [by left | by right; intros [_ ?]]. }
  { cbn [run_op]. rewrite (connect_destroyed_leaving ph c Hc Hd). cbn. right. split; [done|]. by exists [], os, c. }
  pose proof (allowed_valid ph ch o c Hsc Hok Hc Ha ltac:(tauto)) as Hvo.
  pose proof (run_op_ok ch o c Hok Hcl Hvo) as Hs. pose proof (run_op_leads ph ch o c Hsc Hok Hc Ha) as Hl.
  destruct (run_op cbs write readv o c) as [c1|f] eqn:E; cbn [safe mbind outcome_bind] in *; [|by left].
  destruct Hs as [[ch1 Hok1] Hcl1]. specialize (IH (next_phase ph o) ch1 c1 Hok1 Hcl1 (Hl c1 eq_refl) Hv).
  destruct (run_ops cbs write readv os c1) as [c2|f]; [done|]. destruct IH as [?|(? & os1 & os2 & c3 & -> & E1 & E2)]; [by left|].
  right. split; [done|]. exists (o :: os1), os2, c3. cbn [run_ops]. by rewrite E.
Qed.

Lemma make_tcp_connection_tracked own id fd (p : Poller B) c :
  make_tcp_connection own id fd p = Ok c -> tracked Fresh c.
Proof.
  intros E. unfold make_tcp_connection in E. ok_inv. unfold initialize in E. ok_inv. unfold new_channel, set_channel in *.
  destruct own; cbn [run_in_own_loop] in E; injection E as <-.
  - apply tracked_invisible; [|done]. split; [|by apply Forall_nil]. exists (make_channel fd []). cbn. rewrite lookup_insert_eq. done.
  - apply tracked_enqueue; [|done]. split; [|by apply Forall_nil]. exists (make_channel fd []). cbn. rewrite lookup_insert_eq. done.
Qed.

Lemma run_ops_app os1 os2 c :
  run_ops cbs write readv (os1 ++ os2) c = (c ← run_ops cbs write readv os1 c; run_ops cbs write readv os2 c).
Proof.
  revert c. induction os1 as [|o os1 IH]; intros c; cbn [run_ops app]; [done|].
  destruct (run_op cbs write readv o c); [apply IH | done].
Qed.

Lemma life_app ph os1 os2 c : life ph (os1 ++ os2) c -> life ph os1 c.
Proof.
  revert ph c. induction os1 as [|o os1 IH]; intros ph c; cbn [life app]; [done|]. intros [Ha Hl]. split; [done|].
  destruct (run_op cbs write readv o c); [by apply IH | done].
Qed.

Lemma life_interrupted ph ch os1 os2 c c1 :
  steady_callbacks -> conn_ok ch c -> closing_ok c -> tracked ph c -> life ph (os1 ++ Destroyed :: os2) c ->
  run_ops cbs write readv os1 c = Ok c1 -> state_ c1 = kDisconnecting ->
  run_ops cbs write readv (os1 ++ Destroyed :: os2) c = Fault interrupted.
Proof.
  intros Hsc Hok Hcl Ht Hl%life_app E Hd. pose proof (life_runs ph ch os1 c Hsc Hok Hcl Ht Hl) as Hr. rewrite E in Hr.
  destruct Hr as (_ & _ & Ht1). rewrite run_ops_app, E, bind_ret. cbn [run_ops run_op].
  by rewrite (connect_destroyed_leaving _ c1 Ht1 Hd).
Qed.
End Connection_lemmas.

(** ** Properties *)


(** C4. The byte stream: what the kernel took from the connection followed by the
    output buffer is the concatenation of the messages [send_in_loop] accepted,
    in order and without a gap; before the socket is shut down, a message is missing only if
    a write of it failed with [EPIPE] or [ECONNRESET]. *)
Theorem connection_stream {B} `{BackendSpec B} cbs write readv (c : TcpConnection B) :
  env_ok cbs write readv -> lifetime cbs write readv c ->
  wrote c ++ contents (output_buffer_ c) = concat (kept (messages c)) /\
  (shut_wr c = false -> (forall k d e, write k false d = WriteErr e -> e <> EPIPE /\ e <> ECONNRESET) ->
   wrote c ++ contents (output_buffer_ c) = concat ((messages c).*1)).
Proof.
  intros He Hl. destruct (lifetime_ok cbs write readv He c Hl) as (ch & Hok & _).
  pose proof (ok_stream _ _ _ _ Hok) as Hs. rewrite app_nil_r in Hs. split; [done|].
  intros Hsh Hw. rewrite Hs, kept_all; [done|]. intros d Hd.
  destruct (ok_lost _ _ _ _ Hok d Hd) as (k & s & e & E & Hx & Hns). rewrite Hsh in Hns.
  destruct s; [by specialize (Hns eq_refl)|]. destruct (Hw _ _ _ E). tauto.
Qed.

(** Write interest and shutdown: on an open connection the channel waits for
    [POLLOUT] exactly when the output buffer is not empty; a connection being shut
    down has shut its socket, or has something left to do that will: bytes in the
    output buffer, a queued task or a timer; and once the socket is shut down on
    an open connection, every accepted byte was written before. *)
Theorem connection_shutdown {B} `{BackendSpec B} cbs write readv (c : TcpConnection B) :
  env_ok cbs write readv -> lifetime cbs write readv c ->
  (exists ch, chans (poller c) !! connect_channel_ c = Some ch /\
     (open (state_ c) = true -> is_write_event ch = true <-> contents (output_buffer_ c) <> [])) /\
  closing_ok c /\
  (open (state_ c) = true -> shut_wr c = true -> wrote c = concat (kept (messages c))) /\
  (state_ c = kDisconnecting -> contents (output_buffer_ c) <> [] ->
   write (calls c) (shut_wr c) (contents (output_buffer_ c)) = Wrote (zlen (contents (output_buffer_ c))) ->
   exists c', handle_write cbs write c = Ok c' /\ shut_wr c' = true /\
     wrote c' = concat (kept (messages c))).
Proof.
  intros He Hl. destruct (lifetime_ok cbs write readv He c Hl) as (ch & Hok & Hcl). split_and!.
  - exists ch. destruct (ok_slot _ _ _ _ Hok) as (_ & ? & _). split; [done|]. intros Ho.
    pose proof (ok_interest _ _ _ _ Hok) as Hi. by rewrite Ho in Hi.
  - done.
  - intros Ho Hs. rewrite <- (ok_stream _ _ _ _ Hok), (shut_open _ _ _ _ Hok Ho Hs). by rewrite app_nil_r.
  - intros Hs Hne Hw. by apply (handle_write_all cbs write ch).
Qed.

(** The callbacks of a connection come in order: connect first and once, then
    messages, then close once, followed at most once by the report to the server;
    after close only write-complete and high-water-mark reports still queued. *)
Theorem connection_callbacks {B} `{BackendSpec B} cbs write readv (c : TcpConnection B) :
  env_ok cbs write readv -> lifetime cbs write readv c -> trace_ok (state_ c) (trace c).
Proof.
  intros He Hl. destruct (lifetime_ok cbs write readv He c Hl) as (ch & Hok & _).
  by apply ok_trace in Hok.
Qed.

(** *** A kernel that takes three bytes at a time, and an echo callback *)

Definition small_write (k : nat) (shut : bool) (d : bytes) : wresult :=
  if shut then WriteErr EPIPE else Wrote (Z.min 3 (zlen d)).
Definition hello_readv (k : nat) (iov : list Z) : Z + bytes := inr (ztake (foldr Z.add 0 iov) (txt "ping")).

Definition echo_callbacks : Callbacks :=
  {| connect_cb_ := []; close_cb_ := []; message_cb_ := fun b => Ok (has_read_all b, [Send (txt "pong")]);
     write_complete_cb_ := Some []; high_water_mark_cb_ := Some []; high_water_mark_ := 64 |}.

Lemma echo_env : env_ok echo_callbacks small_write hello_readv.
Proof.
  split.
  - intros k s d n. unfold small_write. pose proof (zlen_nonneg d). destruct s; [done|]. intros [= <-]. lia.
  - done.
  - intros k iov data Hiov [= <-]. rewrite zlen_ztake.
    assert (0 <= foldr Z.add 0 iov) by (induction Hiov; cbn; lia). lia.
  - intros b Hwf Hu. eexists _, _. split; [done|]. destruct (reset_wf b Hwf). split_and!; [done | done |].
    apply Forall_cons; split; [vm_compute; discriminate | by apply Forall_nil].
  - by apply Forall_nil.
  - by apply Forall_nil.
  - by apply Forall_nil.
  - by apply Forall_nil.
Qed.

Definition poller0 : Poller (list pollfd) := mkPoller ∅ ∅ [].
Definition conn0 : TcpConnection (list pollfd) :=
  match make_tcp_connection true 0 7 poller0 with
  | Ok c => c
  | Fault _ => mkConn false true kConnecting 0 (mkBuffer 0 0 0 []) (mkBuffer 0 0 0 []) poller0 [] []
                 O [] false [] []
  end.
Definition run_echo (os : list conn_op) : outcome (TcpConnection (list pollfd)) :=
  run_ops echo_callbacks small_write hello_readv os conn0.

(** A request, its answer in two writes, and a shutdown in between. *)
Definition echo_ops : list conn_op :=
  [Established; Event POLLIN; Call true Shutdown; Event POLLOUT; RunTask].
Definition echoed : TcpConnection (list pollfd) :=
  match run_echo echo_ops with Ok c => c | Fault _ => conn0 end.

Lemma echo_valid : valid_ops echo_callbacks small_write hello_readv echo_ops conn0.
Proof. vm_compute. repeat split; done. Qed.
Lemma poller0_ok : poller_ok poller0.
Proof. by apply empty_poller_ok; [constructor|]. Qed.

Lemma echo_lifetime : lifetime echo_callbacks small_write hello_readv echoed.
Proof.
  exists poller0, true, O, 7, conn0, echo_ops. split_and!.
  - apply poller0_ok.
  - done.
  - done.
  - vm_compute. reflexivity.
  - apply echo_valid.
  - vm_compute. reflexivity.
Qed.

Lemma echo_steady : steady_callbacks echo_callbacks.
Proof. split; try (by apply Forall_nil). intros b b' us [= <- <-]. by repeat constructor. Qed.

(** A whole life: a request and its answer, the end of the stream, and the end of the connection. *)
Definition ping_then_end (k : nat) (iov : list Z) : Z + bytes :=
  if (k =? 0)%nat then hello_readv k iov else inr [].
Definition whole_life : list conn_op :=
  [Established; Event POLLIN; Event POLLOUT; RunTask; Event POLLIN; Call false (Send (txt "late")); Destroyed; CloseTimer].

Lemma ping_env : env_ok echo_callbacks small_write ping_then_end.
Proof.
  destruct echo_env. split; try done. intros k iov data Hiov. unfold ping_then_end.
  destruct (k =? 0)%nat; [by apply (env_readv0 k)|]. intros [= <-]. rewrite zlen_nil.
  induction Hiov; cbn; lia.
Qed.

Lemma whole_life_ok : life echo_callbacks small_write ping_then_end Fresh whole_life conn0.
Proof. vm_compute. repeat (split || eexists); done. Qed.


(** The same after the first write. *)
Definition asked : TcpConnection (list pollfd) :=
  match run_echo [Established; Event POLLIN] with Ok c => c | Fault _ => conn0 end.

Lemma asked_lifetime : lifetime echo_callbacks small_write hello_readv asked.
Proof.
  exists poller0, true, O, 7, conn0, [Established; Event POLLIN]. split_and!; [apply poller0_ok | done | done | vm_compute; reflexivity | | vm_compute; reflexivity].
  vm_compute. repeat split; done.
Qed.

Lemma connection_stream_witness :
  wrote echoed = txt "pong" /\ wrote echoed ++ contents (output_buffer_ echoed) = concat (kept (messages echoed)) /\
  wrote asked = txt "pon" /\ wrote asked ++ contents (output_buffer_ asked) = concat ((messages asked).*1).
Proof.
  split; [vm_compute; reflexivity|]. split.
  - exact (proj1 (connection_stream echo_callbacks small_write hello_readv echoed echo_env echo_lifetime)).
  - split; [vm_compute; reflexivity|].
    refine (proj2 (connection_stream echo_callbacks small_write hello_readv asked echo_env asked_lifetime) _ _).
    + vm_compute. reflexivity.
    + intros k d e E. discriminate E.
Defined.

Lemma connection_shutdown_witness :
  shut_wr echoed = true /\ wrote echoed = concat (kept (messages echoed)).
Proof.
  assert (shut_wr echoed = true) as Hs by (vm_compute; reflexivity). split; [exact Hs|].
  refine (proj1 (proj2 (proj2 (connection_shutdown echo_callbacks small_write hello_readv echoed
    echo_env echo_lifetime))) _ Hs). vm_compute. reflexivity.
Defined.

Lemma connection_callbacks_witness :
  trace echoed = [Connected; Message (txt "ping"); WriteComplete] /\ trace_ok (state_ echoed) (trace echoed).
Proof.
  split; [vm_compute; reflexivity|].
  exact (connection_callbacks echo_callbacks small_write hello_readv echoed echo_env echo_lifetime).
Defined.

(** *** What the validity of a sequence excludes *)

Definition faults (os : list conn_op) : option fault :=
  match run_echo os with Ok _ => None | Fault f => Some f end.

(** [connect_destroyed] of a connection that was shut down but not closed yet, as
    the destructor of the server does it: the channel still has interest. *)
Example destroyed_while_closing :
  faults [Established; Call true Shutdown; Destroyed]
    = Some (CheckFailed "Channel::remove: is_none_event").
Proof. vm_compute. reflexivity. Qed.

(** Closing a connection that had stopped reading puts its descriptor back into
    the poller without interest, and a hang-up then closes it a second time. *)
Example closed_channel_rewatched :
  match run_echo [Established; Call true StopRead; Call true ForceClose; RunTask] with
  | Ok c => state_ c = kDisconnected /\ backend (poller c) = [mkPollfd 7 0 0]
  | Fault _ => False
  end /\
  faults [Established; Call true StopRead; Call true ForceClose; RunTask; Event POLLHUP]
    = Some (CheckFailed "handle_close: state_").
Proof. vm_compute. done. Qed.

(** A hang-up with urgent data closes the connection and then reads: end of file
    closes it again. *)
Example hup_pri_closes_twice :
  match run_ops default_callbacks small_write (fun _ _ => inr []) [Established; Event (Z.lor POLLHUP POLLPRI)] conn0 with
  | Fault f => f = CheckFailed "handle_close: state_"
  | Ok _ => False
  end.
Proof. vm_compute. reflexivity. Qed.

(** [start_read] queued by another thread and run after the connection closed
    enables its channel again; destroying it then fails. *)
Example late_start_read :
  faults [Established; Call true StopRead; Call true ForceClose; Call false StartRead;
          RunTask; RunTask; Destroyed] = Some (CheckFailed "Channel::remove: is_none_event").
Proof. vm_compute. reflexivity. Qed.

(** Data sent by another thread before [shutdown] is called in the loop is lost. *)
Example send_before_shutdown_lost :
  match run_echo [Established; Call false (Send (txt "bye")); Call true Shutdown; RunTask] with
  | Ok c => messages c = [(txt "bye", false)] /\ wrote c = []
  | Fault _ => False
  end.
Proof. vm_compute. done. Qed.
