(* ===== verification/Services.v ===== *)
(** * The example services (examples/simple, examples/pingpong/server)

    Small servers, each of them the callbacks that it gives to its connections: echo sends back what
    it reads, discard reads only, time and daytime send one text and shut the connection down, chargen
    sends its characters for ever.  Here they run on the connection of [TcpConnection], with its buffers,
    its channel and its queue of functors.  [send] with a buffer takes the bytes out of
    it when the connection is connected, as it is whenever the server of pingpong calls it.

    It is shown that a connection whose message callback takes all of its input sends exactly
    what its callbacks have asked for in the order in which they ran, and what this comes to for each
    service; and that the client of the time service shows the time that the server sent. *)

From stdpp Require Import pretty.
From S2P Require Import Prelude ByteOrder ByteBuffer NetBuffer Channel Poller TimeStamp LogStream TcpConnection.

(** ** Definitions *)

(** [EchoServer::on_message] *)
Definition echo_on_message (b : ByteBuffer) : outcome (ByteBuffer * list user_call) :=
  '(message, b) ← taken_as_string (-1) b; Ok (b, [Send message]).

(** [on_message] of discard, time, daytime and chargen: the bytes are logged. *)
Definition discard_on_message (b : ByteBuffer) : outcome (ByteBuffer * list user_call) :=
  '(_, b) ← taken_as_string (-1) b; Ok (b, []).

(** [on_message] of the server of pingpong, [conn->send(buf)] *)
Definition pingpong_on_message (b : ByteBuffer) : outcome (ByteBuffer * list user_call) :=
  '(message, b) ← taken_as_string (-1) b; Ok (b, [Send message]).

(** What a server gives to its connections. *)
Definition server (connect : list user_call) (message : ByteBuffer -> outcome (ByteBuffer * list user_call))
    (write_complete : option (list user_call)) : Callbacks :=
  {| connect_cb_ := connect; close_cb_ := []; message_cb_ := message; write_complete_cb_ := write_complete;
     high_water_mark_cb_ := None; high_water_mark_ := 64 * 1024 * 1024 |}.

Definition EchoServer : Callbacks := server [] echo_on_message None.
Definition DiscardServer : Callbacks := server [] discard_on_message None.
Definition PingPongServer : Callbacks := server [] pingpong_on_message None.

(** [TimeServer::on_connect] at the time [curr] *)
Definition time_on_connect `{Arch} (curr : Z) : list user_call :=
  let be32 := i32 (host_to_net32 (u32 (i32 (to_time_t curr)))) in
  [Send (mem_image 4 be32); Shutdown].

Definition TimeServer `{Arch} (curr : Z) : Callbacks := server (time_on_connect curr) discard_on_message None.

(** [Exploded::to_formatted_string], with [%4d] and [%02d] *)
Definition space_padded (width : nat) (v : Z) : bytes :=
  let d := (if v <? 0 then txt "-" else []) ++ txt (pretty (Z.abs v)) in replicate (width - length d) Byte.x20 ++ d.

Definition to_formatted_string (show_microseconds : bool) (e : Exploded) : bytes :=
  space_padded 4 (year e) ++ zero_padded 2 (month e) ++ zero_padded 2 (day_of_month e) ++ txt " "
  ++ zero_padded 2 (hour e) ++ txt ":" ++ zero_padded 2 (minute e) ++ txt ":" ++ zero_padded 2 (second e)
  ++ (if show_microseconds then txt "." ++ zero_padded 6 (millisecond e) else []).

(** [DaytimeServer::on_connect] at a time with the fields [exploded] *)
Definition daytime_on_connect (exploded : Exploded) : list user_call :=
  [Send (to_formatted_string true exploded ++ [Byte.x0a]); Shutdown].

Definition DaytimeServer (exploded : Exploded) : Callbacks := server (daytime_on_connect exploded) discard_on_message None.

(** [message_] of [ChargenServer] *)
Definition line : bytes := let line := map (fun i => z2b (Z.of_nat i)) (seq 33 94) in line ++ line.
Definition message_ : bytes := concat (map (fun i => ztake 72 (zdrop (Z.of_nat i) line) ++ [Byte.x0a]) (seq 0 94)).

Definition ChargenServer : Callbacks := server [Send message_] discard_on_message (Some [Send message_]).

(** [TimeClient::on_message]: what is left of the input, and the time that is shown. *)
Definition time_client_on_message `{Arch} (b : ByteBuffer) : outcome (ByteBuffer * option Z) :=
  readable ← readable_bytes b;
  if 4 <=? readable then '(x, b) ← read_int32 b; ts ← from_time_t x; Ok (b, Some ts)
  else Ok (b, None).

(** The client reads chunk after chunk. *)
Fixpoint time_client `{Arch} (chunks : list bytes) (b : ByteBuffer) : outcome (list Z) :=
  match chunks with
  | [] => Ok []
  | d :: chunks =>
      '(_, b) ← append d b;
      '(b, shown) ← time_client_on_message b;
      rest ← time_client chunks b;
      Ok (match shown with Some ts => ts :: rest | None => rest end)
  end.

(** *** What a connection should send *)

Section Session.
Variable cbs : Callbacks.
(** What the message callback does with [d]. *)
Variable answer : bytes -> list user_call.

(** The calls of the callback of an event. *)
Definition replies (e : conn_event) : list user_call :=
  match e with
  | Connected => connect_cb_ cbs
  | Message d => answer d
  | WriteComplete => default [] (write_complete_cb_ cbs)
  | HighWaterMark => default [] (high_water_mark_cb_ cbs)
  | Closed => close_cb_ cbs
  | Finished => []
  end.

(** Whether the connection is connected, and what has been sent, after a call and after an event. *)
Definition obey (st : bool * list bytes) (u : user_call) : bool * list bytes :=
  match u with
  | Send d => (st.1, if st.1 then st.2 ++ [d] else st.2)
  | StartRead | StopRead => st
  | Shutdown | ForceClose | ForceCloseWithDelay _ => (false, st.2)
  end.

Definition after (st : bool * list bytes) (e : conn_event) : bool * list bytes :=
  foldl obey (match e with Connected => true | Closed => false | _ => st.1 end, st.2) (replies e).

Definition session (tr : list conn_event) : bool * list bytes := foldl after (false, []) tr.
End Session.

(** What the message callbacks got. *)
Definition heard (tr : list conn_event) : list bytes := omap (fun e => match e with Message d => Some d | _ => None end) tr.

(** Nobody calls the connection but its callbacks. *)
Definition undisturbed (os : list conn_op) : bool := forallb (fun o => match o with Call _ _ => false | _ => true end) os.

(** ** Lemmas *)

Section Running.
Context {B : Type} `{BackendSpec B}.
Abbreviation conn := (TcpConnection B).
Context (cbs : Callbacks) (answer : bytes -> list user_call).
Context (write : nat -> bool -> bytes -> wresult) (readv : nat -> list Z -> Z + bytes).

(** The message callback takes all of its input. *)
Definition drains : Prop :=
  forall b, wf b -> unlimited b = true -> exists b', message_cb_ cbs b = Ok (b', answer (contents b)) /\
    wf b' /\ unlimited b' = true /\ contents b' = [].

(** A connection that is being closed, or is closed. *)
Definition leaving (s : StateE) : Prop := s = kDisconnecting \/ s = kDisconnected.

(** A call that another thread has queued. *)
Definition foreign (t : task) : bool := match t with SendInLoop _ | ShutdownInLoop => true | _ => false end.

(** Nothing of another thread is queued; the socket is shut down only when the connection is left, and
    data is dropped only when a write before that has failed. *)
Definition calm (c : conn) : Prop := Forall (fun t => foreign t = false) (queue c).
Definition sound (c : conn) : Prop :=
  (shut_wr c = true -> leaving (state_ c)) /\
  forall d, (d, false) ∈ messages c -> exists k e, write k false d = WriteErr e /\ (e = EPIPE \/ e = ECONNRESET).

(** What most steps leave as it is. *)
Record frame (c c' : conn) : Prop := {
  fr_state : state_ c' = state_ c;
  fr_messages : messages c' = messages c;
  fr_trace : trace c' = trace c;
  fr_input : input_buffer_ c' = input_buffer_ c;
  fr_timers : close_timers c' = close_timers c;
  fr_calm : calm c -> calm c';
  fr_sound : sound c -> sound c';
}.

#[local] Instance frame_preorder : PreOrder frame.
Proof.
  split; [by intros c; split|]. intros c1 c2 c3 [E1 E2 E3 E4 E5 E6 E7] [F1 F2 F3 F4 F5 F6 F7].
  split; try congruence; auto.
Qed.

Lemma enqueue_frame t c : foreign t = false -> frame c (enqueue t c).
Proof. intros Ht. split; try done. intros Hc. apply Forall_app. by split; [|constructor]. Qed.

Lemma interest_frame o c c' : channel_interest o c = Ok c' -> frame c c'.
Proof. unfold channel_interest. intros E. ok_inv. by split. Qed.

Lemma shutdown_in_loop_frame c c' : leaving (state_ c) -> shutdown_in_loop c = Ok c' -> frame c c'.
Proof. unfold shutdown_in_loop. intros Hl E. ok_inv. destruct (negb _); [|done]. split; try done. by intros [_ Hs]. Qed.

Lemma start_read_frame c c' : start_read_in_loop c = Ok c' -> frame c c'.
Proof.
  unfold start_read_in_loop. destruct (reading_ c); intros E; ok_inv; [done|].
  destruct (negb _); [|by ok_inv]. transitivity (set_reading true c); [done|]. by eapply interest_frame.
Qed.

Lemma stop_read_frame c c' : stop_read_in_loop c = Ok c' -> frame c c'.
Proof.
  unfold stop_read_in_loop. destruct (reading_ c); intros E; ok_inv; [|done].
  destruct (is_read_event _); [|by ok_inv]. transitivity (set_reading false c); [done|]. by eapply interest_frame.
Qed.

Lemma write_directly_frame d c n f c' : write_directly cbs write d c = (n, f, c') -> frame c c' /\ shut_wr c' = shut_wr c.
Proof.
  unfold write_directly. destruct (write _ _ _) as [k|e]; intros [= <- <- <-]; [|done].
  destruct (_ && _); [|done]. split; [|done]. transitivity (log_call (ztake k d) c); [done|]. by apply enqueue_frame.
Qed.

(** A message is logged once. *)
Lemma send_in_loop_frame d c c' :
  state_ c <> kDisconnected -> send_in_loop cbs write d c = Ok c' -> exists kept, frame (log_message d kept c) c' /\
    (kept = false -> exists k e, write k (shut_wr c) d = WriteErr e /\ (e = EPIPE \/ e = ECONNRESET)).
Proof.
  intros Hs E. unfold send_in_loop in E. rewrite bool_decide_eq_false_2 in E by done. ok_inv.
  destruct (if negb _ && _ then _ else _) as [[n f] c1] eqn:E1.
  assert (frame c c1 /\ shut_wr c1 = shut_wr c) as [F Fs] by (destruct (negb _ && _); [by eapply write_directly_frame | by injection E1 as _ _ <-]).
  assert (negb f = false -> exists k e, write k (shut_wr c) d = WriteErr e /\ (e = EPIPE \/ e = ECONNRESET)) as Hf.
  { intros Hn. destruct f; [|done]. destruct (negb _ && _); [|done]. unfold write_directly in E1.
    destruct (write _ _ _) as [k|e] eqn:Ew; [done|]. injection E1 as _ Ef _. eexists _, e. split; [exact Ew|].
    apply andb_true_iff in Ef as [_ Ef]. by rewrite orb_true_iff, !Z.eqb_eq in Ef. }
  ok_inv. exists (negb f). split; [|done].
  transitivity (log_message d (negb f) c1).
  { destruct F as [F1 F2 F3 F4 F5 F6 F7]. split; cbn; try done; [by rewrite F2|]. unfold sound. cbn. rewrite F1, F2, Fs. done. }
  set (c2 := log_message d (negb f) c1) in *. destruct (negb f && _); [|by ok_inv]. ok_inv.
  match goal with X : append _ _ = Ok ?y |- _ => destruct y as [b0 b]; cbv beta iota zeta in E end. ok_inv.
  match type of E with context [if ?g then enqueue ?t c2 else c2] => set (c3 := if g then enqueue t c2 else c2) in * end.
  transitivity c3. { unfold c3. destruct (_ && _ && _); [by apply enqueue_frame | done]. }
  transitivity (set_output b c3); [done|].
  match type of E with context [is_write_event ?y] => destruct (is_write_event y) end; cbn [negb] in E; [by ok_inv | by eapply interest_frame].
Qed.

(** The state of a session in a connection. *)
Definition view (c : conn) : bool * list bytes := (bool_decide (state_ c = kConnected), (messages c).*1).

(** What the calls of a callback do. *)
Record called (c : conn) (st : bool * list bytes) (c' : conn) : Prop := {
  cl_view : view c' = st;
  cl_trace : trace c' = trace c;
  cl_input : input_buffer_ c' = input_buffer_ c;
  cl_calm : calm c -> calm c';
  cl_sound : sound c -> sound c';
  cl_timers : (close_timers c <> [] -> leaving (state_ c)) -> close_timers c' <> [] -> leaving (state_ c');
}.

Lemma frame_called c c' : frame c c' -> called c (view c) c'.
Proof. intros [E1 E2 E3 E4 E5 E6 E7]. split; try done; [unfold view; by rewrite E1, E2 | by rewrite E1, E5]. Qed.

Lemma view_closed c s : s <> kConnected -> view (set_state s c) = (false, (view c).2).
Proof. intros Hs. unfold view. cbn. by rewrite bool_decide_eq_false_2. Qed.

(** Steps after the connection has left the state [kConnected]. *)
Lemma frame_closed c c1 c' s :
  state_ c1 = s -> leaving s -> messages c1 = messages c -> trace c1 = trace c -> input_buffer_ c1 = input_buffer_ c ->
  (calm c -> calm c1) -> frame c1 c' -> called c (false, (view c).2) c'.
Proof.
  intros Es Hs E1 E2 E3 E4 [F1 F2 F3 F4 F5 F6 F7]. split; [|congruence|congruence|auto| |].
  - unfold view. cbn. rewrite F1, F2, E1, Es. rewrite bool_decide_eq_false_2; [done|]. by destruct Hs as [->| ->].
  - intros [S1 S2]. apply F7. unfold sound. rewrite E1, Es. by split.
  - intros _ _. by rewrite F1, Es.
Qed.

Lemma not_connected c : state_ c <> kConnected -> view c = (false, (view c).2).
Proof. intros Hs. unfold view. cbn. by rewrite bool_decide_eq_false_2. Qed.

Lemma call_called u c c' : call cbs write true u c = Ok c' -> called c (obey (view c) u) c'.
Proof.
  destruct u as [d| | |s| |]; cbn [call obey]; unfold send, shutdown, force_close, force_close_with_delay, start_read, stop_read; intros E; ok_inv.
  - case_bool_decide as Hs; ok_inv; unfold view at 1; unfold view at 1; cbn [fst snd].
    + destruct (send_in_loop_frame d c c') as (k & F & Hk); [by rewrite Hs | done|]. rewrite bool_decide_eq_true_2 by done.
      apply frame_called in F as [F1 F2 F3 F4 F5 F6]. split; try done.
      * rewrite F1. unfold view. cbn. rewrite fmap_app. cbn. by rewrite bool_decide_eq_true_2.
      * intros [S1 S2]. apply F5. split; [done|]. intros d'. cbn. rewrite elem_of_app, list_elem_of_singleton. intros [Hd|[= -> <-]]; [by apply S2|].
        destruct (Hk eq_refl) as (n & e & Ew & He). exists n, e. split; [|done].
        destruct (shut_wr c); [|done]. destruct (S1 eq_refl); congruence.
    + rewrite bool_decide_eq_false_2 by done. change (called c' (false, (view c').2) c').
      rewrite <- not_connected by done. by apply frame_called.
  - case_bool_decide as Hs; ok_inv; [|rewrite <- not_connected by done; by apply frame_called].
    eapply (frame_closed c (set_state kDisconnecting c)); [done|by left|done..|]. apply shutdown_in_loop_frame; [by left|done].
  - destruct (state_ c) eqn:Hs; ok_inv; try (rewrite <- not_connected by (by rewrite Hs); by apply frame_called).
    + eapply (frame_closed c (set_state kDisconnecting c)); [done|by left|done..|]. by apply enqueue_frame.
    + rewrite <- not_connected by (by rewrite Hs). by apply frame_called, enqueue_frame.
  - destruct (state_ c) eqn:Hs; ok_inv; try (rewrite <- not_connected by (by rewrite Hs); by apply frame_called);
      (split; [by unfold view; cbn | done | done | done | intros [_ ?]; split; [by left | done] | by left]).
  - by apply frame_called, start_read_frame.
  - by apply frame_called, stop_read_frame.
Qed.

Lemma run_calls_called us c c' : run_calls cbs write us c = Ok c' -> called c (foldl obey (view c) us) c'.
Proof.
  revert c. induction us as [|u us IH]; intros c E; cbn [run_calls] in E; ok_inv; [by apply frame_called|].
  match goal with X : call _ _ _ _ _ = Ok ?y |- _ => apply call_called in X as [V1 T1 I1 C1 S1 X1]; rename y into c1 end.
  apply IH in E as [V2 T2 I2 C2 S2 X2]. cbn [foldl]. rewrite V1 in V2. split; [done | congruence | congruence | auto..].
Qed.

(** *** The invariant *)

Record inv (c : conn) : Prop := {
  iv_view : view c = session cbs answer (trace c);
  iv_calm : calm c;
  iv_sound : sound c;
  iv_timers : close_timers c <> [] -> leaving (state_ c);
  iv_input : wf (input_buffer_ c) /\ unlimited (input_buffer_ c) = true /\ contents (input_buffer_ c) = [];
}.

Lemma session_snoc tr e : session cbs answer (tr ++ [e]) = after cbs answer (session cbs answer tr) e.
Proof. unfold session. by rewrite foldl_app. Qed.

Lemma frame_inv c c' : frame c c' -> inv c -> inv c'.
Proof.
  intros [E1 E2 E3 E4 E5 E6 E7] [V C S T I]. split; [|auto|auto|by rewrite E1, E5|by rewrite E4].
  rewrite E3, <- V. unfold view. by rewrite E1, E2.
Qed.

(** An event with its callback. *)
Lemma replied e c c1 c' :
  inv c -> trace c1 = trace c -> messages c1 = messages c ->
  bool_decide (state_ c1 = kConnected) = match e with Connected => true | Closed => false | _ => (view c).1 end ->
  calm c1 -> sound c1 -> (close_timers c1 <> [] -> leaving (state_ c1)) ->
  wf (input_buffer_ c1) /\ unlimited (input_buffer_ c1) = true /\ contents (input_buffer_ c1) = [] ->
  run_calls cbs write (replies cbs answer e) (log_event e c1) = Ok c' -> inv c'.
Proof.
  intros [V C S T I] E1 E2 E3 C1 S1 T1 I1 E. apply run_calls_called in E as [Vc Tc Ic Cc Sc Xc].
  split; [|by apply Cc|by apply Sc|by apply Xc|by rewrite Ic]. rewrite Vc, Tc. cbn [trace log_event]. rewrite E1, session_snoc, <- V.
  unfold after. f_equal. unfold view at 1. cbn [state_ messages log_event]. by rewrite E2, E3.
Qed.

Lemma finished_inv c : inv c -> inv (log_event Finished c).
Proof.
  intros [V C S T I]. split; try done. cbn [trace log_event]. rewrite session_snoc, <- V. unfold after, replies. cbn [foldl].
  by destruct (view c) eqn:Ev.
Qed.

Lemma service_closed_inv c c1 c' :
  inv c -> channel_interest disable_all_event (set_state kDisconnected c) = Ok c1 ->
  run_calls cbs write (close_cb_ cbs) (log_event Closed c1) = Ok c' -> inv c'.
Proof.
  intros I E1 E2. apply interest_frame in E1 as [F1 F2 F3 F4 F5 F6 F7]. eapply (replied Closed c c1); try done.
  - by rewrite F1.
  - apply F6, I.
  - apply F7. destruct (iv_sound _ I) as [S1 S2]. split; [by right|done].
  - rewrite F1. by right.
  - rewrite F4. apply I.
Qed.

Lemma handle_close_inv c c' : inv c -> handle_close cbs write c = Ok c' -> inv c'.
Proof. intros I E. unfold handle_close in E. ok_inv. apply finished_inv. by eapply service_closed_inv. Qed.

Lemma handle_write_frame c c' : handle_write cbs write c = Ok c' -> frame c c'.
Proof.
  unfold handle_write. intros E. ok_inv. destruct (is_write_event _); [|by ok_inv]. ok_inv.
  destruct (write _ _ _) as [n|e]; [|by ok_inv]. destruct (0 <? n); [|by ok_inv]. ok_inv.
  destruct (_ =? 0); [|by ok_inv]. ok_inv.
  match goal with X : channel_interest _ ?y = Ok ?z |- _ => apply interest_frame in X; transitivity y; [done|]; transitivity z; [done|]; clear X; rename z into c1 end.
  set (c2 := if bool_decide (is_Some _) then _ else _) in E. transitivity c2; [unfold c2; destruct (bool_decide (is_Some _)); [by apply enqueue_frame|done]|].
  case_bool_decide; [apply shutdown_in_loop_frame; [by left | done] | by ok_inv].
Qed.

Hypothesis Hdrains : drains.
Hypothesis Hreadv : forall k, readv_ok (readv k).

Lemma handle_read_inv c c' : inv c -> handle_read cbs write readv c = Ok c' -> inv c'.
Proof.
  intros I E. unfold handle_read in E. destruct (iv_input _ I) as (Hwf & Hu & He).
  assert (inv (log_call [] c)) as I0 by (by eapply frame_inv; [|exact I]).
  destruct (readv (calls c) (read_iov (size (input_buffer_ c) - writer_index_ (input_buffer_ c)))) as [err|data] eqn:Er.
  { unfold read_fd in E. rewrite writable_bytes_ok, bind_ret, begin_write_ok, bind_ret in E by done.
    unfold limit in E. rewrite Hu, Er, bind_ret in E. injection E as <-. by eapply frame_inv; [|exact I0]. }
  destruct (read_fd_grows _ _ _ Hwf Hu (Hreadv _) Er) as [(b & Eb & Hwfb & Hcb & Hmb)|[Eb _]]; rewrite Eb in E; [|done].
  cbn [mbind outcome_bind] in E. rewrite He in *. change (zlen []) with 0 in E. rewrite zdrop_0 in E.
  assert (unlimited b = true) as Hub by (unfold unlimited in *; by rewrite Hmb).
  destruct (Z.ltb_spec 0 (zlen data)) as [Hn|Hn].
  - change (input_buffer_ (log_call [] (set_input b c))) with b in E.
    destruct (Hdrains b Hwfb Hub) as (b' & Em & Hwf' & Hu' & Hc'). rewrite Em, bind_ret in E.
    by eapply (replied (Message (contents b)) c (set_input b' (log_call [] (set_input b c)))); try apply I.
  - pose proof (zlen_nonneg data). rewrite (proj2 (Z.eqb_eq _ _)) in E by lia.
    eapply handle_close_inv; [|exact E]. assert (data = []) as -> by (apply zlen_0_nil; lia).
    destruct I0 as [V C S T _]. by split.
Qed.

Lemma fire_inv cond cb ch c c' : inv c -> fire (dispatch cbs write readv) cond cb ch c = Ok c' -> inv c'.
Proof.
  intros I E. unfold fire in E. destruct (cond && _); [|by ok_inv]. destruct cb; cbn [dispatch] in E.
  - by eapply handle_read_inv.
  - by eapply frame_inv; [eapply handle_write_frame|].
  - by eapply handle_close_inv.
  - unfold handle_error in E. by ok_inv.
Qed.

Lemma update_channel_frame f c : frame c (update_channel_of f c).
Proof. done. Qed.

Lemma handle_channel_event_inv r c c' : inv c -> handle_channel_event cbs write readv r c = Ok c' -> inv c'.
Proof.
  intros I E. unfold handle_channel_event, handle_event in E. ok_inv.
  eapply frame_inv; [apply update_channel_frame|].
  do 4 (eapply fire_inv; [|eassumption]). do 2 (eapply frame_inv; [apply update_channel_frame|]). done.
Qed.

Lemma run_task_inv t q c c' : inv c -> queue c = t :: q -> run_task cbs write t (set_queue q c) = Ok c' -> inv c'.
Proof.
  intros I Eq E. pose proof (iv_calm _ I) as Hc. unfold calm in Hc. rewrite Eq in Hc. apply Forall_cons in Hc as [Ht Hq].
  assert (inv (set_queue q c)) as I1 by (by eapply frame_inv; [|exact I]).
  destruct t as [|d| | | | | |n]; cbn [run_task] in E.
  - ok_inv. by eapply frame_inv; [apply update_channel_frame|].
  - done.
  - done.
  - unfold force_close_in_loop in E. case_bool_decide; [by eapply handle_close_inv | by ok_inv].
  - by eapply frame_inv; [eapply start_read_frame|].
  - by eapply frame_inv; [eapply stop_read_frame|].
  - by eapply (replied WriteComplete _ _ _ I1); try apply I1.
  - by eapply (replied HighWaterMark _ _ _ I1); try apply I1.
Qed.

Lemma run_op_inv o c c' :
  (forall own u, o <> Call own u) -> inv c -> run_op cbs write readv o c = Ok c' -> inv c'.
Proof.
  intros Ho I E. destruct o as [own u| |r| | |]; cbn [run_op] in E.
  - by destruct (Ho own u).
  - unfold connect_established in E. ok_inv.
    match goal with X : channel_interest _ _ = Ok ?y, Y : bool_decide _ = true |- _ => apply interest_frame in X as [F1 F2 F3 F4 F5 F6 F7]; apply bool_decide_eq_true in Y as Hs; rename y into c1 end.
    eapply (replied Connected c c1); try done; [by rewrite F1 | apply F6, I | | | rewrite F4; apply I].
    { apply F7. destruct (iv_sound _ I) as [S1 S2]. split; [|done]. intros Hx. destruct (S1 Hx); congruence. }
    rewrite F5. intros [Ht|Ht]%(iv_timers _ I); congruence.
  - by eapply handle_channel_event_inv.
  - destruct (queue c) as [|t q] eqn:Eq; [by ok_inv|]. by eapply run_task_inv.
  - destruct (close_timers c) as [|t ts] eqn:Et; [by ok_inv|]. pose proof (iv_timers _ I) as Hl. rewrite Et in Hl. specialize (Hl ltac:(done)).
    assert (inv (set_timers ts c)) as I1 by (destruct I; by split). unfold force_close in E. ok_inv.
    cbn [state_ set_timers] in E. destruct Hl as [Hl|Hl]; rewrite Hl in E; ok_inv; [|done].
    by eapply frame_inv; [apply enqueue_frame|].
  - unfold connect_destroyed in E. ok_inv.
    match goal with X : (if _ then _ else _) = Ok ?y |- _ => assert (inv y) as I1; [|rename y into c1] end.
    { case_bool_decide; ok_inv; [by eapply service_closed_inv | done]. }
    by eapply frame_inv; [|exact I1].
Qed.

Lemma run_ops_inv os c c' : undisturbed os = true -> inv c -> run_ops cbs write readv os c = Ok c' -> inv c'.
Proof.
  revert c. induction os as [|o os IH]; intros c Hos I E; cbn [run_ops undisturbed forallb] in *; ok_inv; [done|].
  apply andb_true_iff in Hos as [Ho Hos]. eapply IH; [done| |done]. eapply run_op_inv; [|done|eassumption]. by intros own u ->.
Qed.

Lemma service_start_inv own id fd (p : Poller B) c : make_tcp_connection own id fd p = Ok c -> inv c.
Proof.
  unfold make_tcp_connection. destruct (make_ok kUnLimitSize kInitialSize) as (b & -> & Hwf & Hc & Hm);
    [unfold kUnLimitSize; lia | unfold kInitialSize, vec_max_size, kInt64Max; lia|].
  rewrite !bind_ret. unfold initialize. intros E. ok_inv.
  assert (unlimited b = true) as Hu by (unfold unlimited; by rewrite Hm).
  assert (forall P : Prop, P -> forall d, (d, false) ∈ @nil (bytes * bool) -> P) as Hnil by done.
  destruct own; cbn [run_in_own_loop] in E; ok_inv; split; try done; try (split; [done|]; by intros d ?%elem_of_nil); by repeat constructor.
Qed.
End Running.

(** What is assumed of the system calls, as in [env_ok]. *)
Record kernel_ok (write : nat -> bool -> bytes -> wresult) (readv : nat -> list Z -> Z + bytes) : Prop := {
  k_write : forall k s d n, write k s d = Wrote n -> 0 <= n <= zlen d;
  k_shut : forall k d, d <> [] -> write k true d = WriteErr EPIPE;
  k_readv : forall k, readv_ok (readv k);
}.

Lemma taken_all b : wf b -> exists b', taken_as_string (-1) b = Ok (contents b, b') /\ wf b' /\ max_size_ b' = max_size_ b /\ contents b' = [].
Proof. intros Hwf. pose proof (zlen_nonneg (contents b)). destruct (taken_ok (-1) b Hwf ltac:(lia)) as (b' & -> & ? & ? & ? & _). by exists b'. Qed.

(** The two kinds of message callbacks. *)
Lemma echo_drains connect wc : drains (server connect echo_on_message wc) (fun d => [Send d]).
Proof.
  intros b Hwf Hu. destruct (taken_all b Hwf) as (b' & E & ? & Hm & ?). exists b'. cbn. unfold echo_on_message. rewrite E.
  split_and!; try done. unfold unlimited in *. by rewrite Hm.
Qed.

Lemma discard_drains connect wc : drains (server connect discard_on_message wc) (fun _ => []).
Proof.
  intros b Hwf Hu. destruct (taken_all b Hwf) as (b' & E & ? & Hm & ?). exists b'. cbn. unfold discard_on_message. rewrite E.
  split_and!; try done. unfold unlimited in *. by rewrite Hm.
Qed.

Lemma server_env connect message wc answer write readv :
  kernel_ok write readv -> drains (server connect message wc) answer ->
  (forall d, zlen d <= vec_max_size -> Forall user_ok (answer d)) ->
  Forall user_ok connect -> Forall user_ok (default [] wc) -> env_ok (server connect message wc) write readv.
Proof.
  intros [K1 K2 K3] Hd Ha Hc Hw. split; try done.
  - intros b Hwf Hu. destruct (Hd b Hwf Hu) as (b' & E & ? & ? & _). exists b', (answer (contents b)). split_and!; try done.
    apply Ha. rewrite contents_length by done. destruct Hwf as (? & ? & ? & ?). unfold size in *. lia.
Qed.

(** A connection that serves: it is sound, and it sends what its callbacks have asked for. *)
Lemma serving {B} `{BackendSpec B} cbs answer write readv own id fd (p : Poller B) :
  env_ok cbs write readv -> drains cbs answer -> poller_ok p -> chans p !! id = None ->
  (forall id' c', chans p !! id' = Some c' -> Channel.fd c' <> fd) ->
  exists c0, make_tcp_connection own id fd p = Ok c0 /\
    forall os, undisturbed os = true -> valid_ops cbs write readv os c0 ->
      safe (run_ops cbs write readv os c0) (fun c => (exists ch, conn_okp write [] ch c) /\
        view c = session cbs answer (trace c) /\ sound write c).
Proof.
  intros He Hd Hp Hn Hfd. destruct (make_tcp_connection_ok (H0 := H0) write own id fd p Hp Hn Hfd) as (c0 & ch & E0 & Hok & Hcl).
  exists c0. split; [done|]. intros os Hu Hv. pose proof (run_ops_ok cbs write readv He ch os c0 Hok Hcl Hv) as Hs.
  destruct (run_ops cbs write readv os c0) as [c|f] eqn:E; [|done]. cbn in *. split; [apply Hs|].
  assert (inv cbs answer write c) as I.
  { eapply run_ops_inv; [done | apply (env_readv _ _ _ He) | done | by eapply service_start_inv | done]. }
  split; apply I.
Qed.

(** The same for the whole life of a connection. *)
Lemma serving_life {B} `{BackendSpec B} cbs answer write readv own id fd (p : Poller B) :
  env_ok cbs write readv -> steady_callbacks cbs -> drains cbs answer -> poller_ok p -> chans p !! id = None ->
  (forall id' c', chans p !! id' = Some c' -> Channel.fd c' <> fd) ->
  exists c0, make_tcp_connection own id fd p = Ok c0 /\
    forall os, undisturbed os = true -> life cbs write readv Fresh os c0 ->
      match run_ops cbs write readv os c0 with
      | Ok c => (exists ch, conn_okp write [] ch c) /\ view c = session cbs answer (trace c) /\ sound write c
      | Fault f => f = length_error \/ f = interrupted /\
          exists os1 os2 c1, os = os1 ++ Destroyed :: os2 /\ run_ops cbs write readv os1 c0 = Ok c1 /\ state_ c1 = kDisconnecting
      end.
Proof.
  intros He Hsc Hd Hp Hn Hfd. destruct (make_tcp_connection_ok (H0 := H0) write own id fd p Hp Hn Hfd) as (c0 & ch & E0 & Hok & Hcl).
  exists c0. split; [done|]. intros os Hu Hl. pose proof (make_tcp_connection_tracked own id fd p c0 E0) as Ht.
  pose proof (life_runs cbs write readv He Fresh ch os c0 Hsc Hok Hcl Ht Hl) as Hs.
  destruct (run_ops cbs write readv os c0) as [c|f] eqn:E; [|done]. split; [apply Hs|].
  assert (inv cbs answer write c) as I.
  { eapply run_ops_inv; [done | apply (env_readv _ _ _ He) | done | by eapply service_start_inv | done]. }
  split; apply I.
Qed.

(** No write fails for good, as long as the socket is not shut down. *)
Definition no_faults (write : nat -> bool -> bytes -> wresult) : Prop :=
  forall k d e, write k false d = WriteErr e -> e <> EPIPE /\ e <> ECONNRESET.

Lemma all_kept {B} write (c : TcpConnection B) : sound write c -> no_faults write -> kept (messages c) = (messages c).*1.
Proof.
  intros [_ Hl] Hw. apply kept_all. intros d Hd. destruct (Hl d Hd) as (k & e & E & Hx). destruct (Hw _ _ _ E). tauto.
Qed.

Lemma stream {B} `{BackendSpec B} write ch (c : TcpConnection B) :
  conn_okp write [] ch c -> wrote c ++ contents (output_buffer_ c) = concat (kept (messages c)).
Proof. intros Hok. pose proof (ok_stream _ _ _ _ Hok) as Hs. by rewrite app_nil_r in Hs. Qed.

(** What is kept is some of what was sent. *)
Lemma kept_sublist ms : kept ms `sublist_of` ms.*1.
Proof. unfold kept. induction ms as [|[d b] ms IH]; cbn; [constructor|]. by destruct b; cbn; constructor. Qed.

(** *** Echo *)

Lemma echo_after st e :
  after EchoServer (fun d => [Send d]) st e
  = (match e with Connected => true | Closed => false | _ => st.1 end,
     match e with Message d => if st.1 then st.2 ++ [d] else st.2 | _ => st.2 end).
Proof. by destruct e. Qed.

Lemma echo_ordinary l ms :
  Forall ordinary ms ->
  foldl (after EchoServer (fun d => [Send d])) (true, l) ms = (true, l ++ heard ms).
Proof.
  intros Hms. revert l. induction Hms as [|e ms He Hms IH]; intros l; [by rewrite app_nil_r|].
  destruct He as [[d ->]|[->| ->]]; cbn [foldl]; rewrite echo_after; cbn; rewrite IH; [|done..]. by rewrite <- app_assoc.
Qed.

Lemma echo_closed l ms :
  Forall late ms -> foldl (after EchoServer (fun d => [Send d])) (false, l) ms = (false, l) /\ heard ms = [].
Proof. intros Hms. induction Hms as [|e ms [->| ->] Hms IH]; [done|..]; cbn [foldl]; rewrite echo_after; cbn; auto. Qed.

Lemma echo_session s tr : trace_ok s tr -> (session EchoServer (fun d => [Send d]) tr).2 = heard tr.
Proof.
  unfold session. assert (forall ms, Forall ordinary ms -> (foldl (after EchoServer (fun d => [Send d])) (false, []) (Connected :: ms)) = (true, heard ms)) as Hc.
  { intros ms Hms. cbn [foldl]. rewrite echo_after. cbn [fst snd]. by rewrite echo_ordinary. }
  destruct s; cbn [trace_ok].
  - intros (ms & fin & rest & -> & Hms & Hfin & Hrest). rewrite app_comm_cons, foldl_app, Hc by done. cbn [foldl]. rewrite echo_after. cbn [fst snd].
    destruct (echo_closed (heard ms) rest Hrest) as [E1 E2].
    assert (heard ((Connected :: ms) ++ Closed :: fin ++ rest) = heard ms) as ->.
    { unfold heard in *. rewrite omap_app. cbn. rewrite omap_app, E2. by destruct Hfin as [->| ->]; cbn; rewrite app_nil_r. }
    rewrite foldl_app. destruct Hfin as [->| ->]; cbn [foldl]; [by rewrite E1|]. rewrite echo_after. cbn [fst snd]. by rewrite E1.
  - by intros ->.
  - intros (ms & -> & Hms). by rewrite Hc.
  - intros (ms & -> & Hms). by rewrite Hc.
Qed.

(** The echo server never shuts a connection down. *)
Lemma echo_stays {B} `{BackendSpec B} write ch (c : TcpConnection B) :
  conn_okp write [] ch c -> view c = session EchoServer (fun d => [Send d]) (trace c) -> state_ c <> kDisconnecting.
Proof.
  intros Hok V Hd. pose proof (ok_trace _ _ _ _ Hok) as Ht. rewrite Hd in Ht. destruct Ht as (ms & Et & Hms).
  rewrite Et in V. unfold session in V. cbn [foldl] in V. rewrite echo_after in V. cbn [fst snd] in V.
  rewrite echo_ordinary in V by done. unfold view in V. rewrite Hd in V. discriminate V.
Qed.

Lemma echo_server_steady : steady_callbacks EchoServer.
Proof.
  split; try (by apply Forall_nil). intros b b' us E. cbn in E. unfold echo_on_message in E. ok_inv. destruct x. ok_inv.
  by repeat constructor.
Qed.

(** *** Time and daytime *)

(** A server that sends [m] and shuts the connection down. *)
Abbreviation one_shot m := (server [Send m; Shutdown] discard_on_message None).

Lemma one_shot_after m st e :
  after (one_shot m) (fun _ => []) st e
  = match e with Connected => (false, st.2 ++ [m]) | Closed => (false, st.2) | _ => st end.
Proof. by destruct e, st. Qed.

Lemma one_shot_rest m l tr : Connected ∉ tr -> foldl (after (one_shot m) (fun _ => [])) (false, l) tr = (false, l).
Proof.
  induction tr as [|e tr IH]; [done|]. intros [He Htr]%not_elem_of_cons. cbn [foldl]. rewrite one_shot_after.
  destruct e; [done|..]; by apply IH.
Qed.

Lemma ordinary_rest ms : Forall ordinary ms -> Connected ∉ ms.
Proof. intros Hms Hin. rewrite Forall_forall in Hms. destruct (Hms _ Hin) as [[d [=]]|[[=]|[=]]]. Qed.

Lemma late_rest ms : Forall late ms -> Connected ∉ ms.
Proof. intros Hms Hin. rewrite Forall_forall in Hms. destruct (Hms _ Hin) as [[=]|[=]]. Qed.

(** After the connect callback nothing else is the connect callback. *)
Lemma connected_once s tr : trace_ok s tr -> tr = [] \/ exists rest, tr = Connected :: rest /\ Connected ∉ rest.
Proof.
  destruct s; cbn [trace_ok].
  - intros (ms & fin & rest & -> & Hms & Hfin & Hrest). right. eexists. split; [done|].
    rewrite not_elem_of_app, not_elem_of_cons, not_elem_of_app.
    split_and!; [by apply ordinary_rest | done | destruct Hfin as [->| ->]; set_solver | by apply late_rest].
  - intros ->. by left.
  - intros (ms & -> & Hms). right. exists ms. split; [done|]. by apply ordinary_rest.
  - intros (ms & -> & Hms). right. exists ms. split; [done|]. by apply ordinary_rest.
Qed.

Lemma one_shot_session m s tr :
  trace_ok s tr -> session (one_shot m) (fun _ => []) tr = (false, match tr with [] => [] | _ => [m] end).
Proof.
  intros [->|(rest & -> & Hr)]%connected_once; [done|]. unfold session. cbn [foldl]. rewrite one_shot_after. by apply one_shot_rest.
Qed.

(** What a connection sends of one message is a part of it, and all of it when the socket has been shut down. *)
Lemma one_shot_ok {B} `{BackendSpec B} m write readv own id fd (p : Poller B) :
  kernel_ok write readv -> zlen m <= vec_max_size -> poller_ok p -> chans p !! id = None ->
  (forall id' c', chans p !! id' = Some c' -> Channel.fd c' <> fd) ->
  exists c0, make_tcp_connection own id fd p = Ok c0 /\
    forall os, undisturbed os = true -> valid_ops (one_shot m) write readv os c0 ->
      safe (run_ops (one_shot m) write readv os c0) (fun c =>
        (trace c <> [] -> (messages c).*1 = [m] /\ leaving (state_ c)) /\ wrote c `prefix_of` m /\
        (open (state_ c) = true -> shut_wr c = true -> no_faults write -> wrote c = m)).
Proof.
  intros Hk Hm Hp Hn Hfd. destruct (serving (one_shot m) (fun _ => []) write readv own id fd p) as (c0 & E & Hs); try done.
  { eapply server_env; [done|apply discard_drains| |by repeat constructor|by apply Forall_nil]. intros d Hd. by apply Forall_nil. }
  { apply discard_drains. }
  exists c0. split; [done|]. intros os Hu Hv. eapply safe_mono; [by apply Hs|]. intros c ([ch Hok] & V & S).
  pose proof (ok_trace _ _ _ _ Hok) as Htr. rewrite (one_shot_session m _ _ Htr) in V.
  assert ((messages c).*1 = match trace c with [] => [] | _ => [m] end) as Em by (injection V; done).
  assert (state_ c <> kConnected) as Hnc by (intros Hc; unfold view in V; by rewrite bool_decide_eq_true_2 in V).
  split_and!.
  - intros Ht. split; [by destruct (trace c)|]. destruct (state_ c); [by right|done|done|by left].
  - pose proof (stream write ch c Hok) as Hst. assert (concat (kept (messages c)) = [] \/ concat (kept (messages c)) = m) as Hk2.
    { pose proof (kept_sublist (messages c)) as Hsub. rewrite Em in Hsub. destruct (trace c) as [|e0 tr0].
      - apply sublist_nil_r in Hsub. rewrite Hsub. by left.
      - apply sublist_cons_r in Hsub as [Hsub|(l & El & Hsub)]; apply sublist_nil_r in Hsub; subst; [rewrite Hsub; by left|].
        right. rewrite El. cbn. by rewrite app_nil_r. }
    destruct Hk2 as [E0|E0]; rewrite E0 in Hst; [|by eexists]. apply app_eq_nil in Hst as [-> _]. apply prefix_nil.
  - intros Ho Hsh Hw. assert (trace c <> []) as Ht.
    { intros Ht. rewrite Ht in Htr. destruct (state_ c); try done; by destruct Htr as (? & ? & _). }
    pose proof (stream write ch c Hok) as Hst. rewrite (shut_open _ _ _ _ Hok Ho Hsh), app_nil_r in Hst.
    rewrite Hst, (all_kept write) by done. rewrite Em. destruct (trace c); [done|]. cbn. by rewrite app_nil_r.
Qed.

Lemma to_time_t_pos t : 0 <= t < kInt64Max -> to_time_t t = t / kMicrosecondsPerSecond.
Proof.
  intros Ht. unfold to_time_t, is_null, is_max. destruct (Z.eqb_spec t 0) as [->|]; [done|].
  destruct (Z.eqb_spec t kInt64Max); [lia|]. rewrite (proj2 (Z.leb_gt _ _)) by lia. unfold cdiv. by rewrite Z.quot_div_nonneg by (units; lia).
Qed.

Lemma from_time_t_pos x : 0 <= x < 2 ^ 31 -> from_time_t x = Ok (x * kMicrosecondsPerSecond).
Proof.
  intros Hx. unfold from_time_t. destruct (Z.eqb_spec x 0) as [->|]; [done|]. destruct (Z.eqb_spec x kInt64Max); [units; lia|].
  unfold from_seconds. rewrite from_product_saturates, bind_ret by (units; lia). unfold time_add, saturate, int64, int64_ok, defined. units.
  rewrite Z.min_r, Z.max_r by lia. rewrite (proj2 (Z.leb_le _ _)), (proj2 (Z.leb_le _ _)) by lia. done.
Qed.

Section TimeClient.
Context `{Arch}.

(** A chunk that does not complete the number. *)
Lemma time_client_short d chunks b :
  wf b -> unlimited b = true -> zlen (contents b ++ d) < 4 -> writer_index_ b + zlen d <= vec_max_size ->
  exists b', wf b' /\ unlimited b' = true /\ contents b' = contents b ++ d /\ writer_index_ b' <= writer_index_ b + zlen d /\
    time_client (d :: chunks) b = time_client chunks b'.
Proof.
  intros Hwf Hu Hl Hw. destruct (append_ok d b Hwf) as (b' & E & Hwf' & Hc & Hm & Hw'); [unfold room; rewrite Hu; lia|].
  assert (unlimited b' = true) as Hu' by (unfold unlimited in *; by rewrite Hm).
  exists b'. split_and!; try done. cbn [time_client]. rewrite E, bind_ret. unfold time_client_on_message.
  rewrite readable_bytes_ok, bind_ret by done. rewrite <- contents_length, Hc by done.
  rewrite (proj2 (Z.leb_gt _ _)) by done. cbn [mbind outcome_bind]. by destruct (time_client chunks b').
Qed.

(** Nothing more is shown. *)
Lemma time_client_idle chunks b :
  wf b -> unlimited b = true -> contents b = [] -> writer_index_ b <= vec_max_size -> concat chunks = [] ->
  time_client chunks b = Ok [].
Proof.
  revert b. induction chunks as [|d chunks IH]; intros b Hwf Hu Hc Hw Hn; [done|]. cbn in Hn. apply app_eq_nil in Hn as [-> Hn].
  destruct (time_client_short [] chunks b) as (b' & ? & ? & Hc' & Hw' & ->); try done; [by rewrite Hc | rewrite zlen_nil; lia|].
  rewrite zlen_nil in Hw'. apply IH; try done; [by rewrite Hc', Hc | lia].
Qed.

(** The chunks of the number, whatever their sizes. *)
Lemma time_client_ok x ts chunks b :
  wf b -> unlimited b = true -> contents b ++ concat chunks = be_bytes 4 x -> zlen (contents b) < 4 ->
  writer_index_ b + zlen (concat chunks) <= vec_max_size -> from_time_t (i32 x) = Ok ts -> time_client chunks b = Ok [ts].
Proof.
  intros Hwf Hu Hx Hl Hw Hts. assert (zlen (be_bytes 4 x) = 4) as H4 by (unfold zlen; by rewrite length_be_bytes).
  revert b Hwf Hu Hx Hl Hw. induction chunks as [|d chunks IH]; intros b Hwf Hu Hx Hl Hw; cbn [concat] in *.
  { rewrite app_nil_r in Hx. rewrite Hx in Hl. lia. }
  rewrite zlen_app in Hw. pose proof (zlen_nonneg (concat chunks)). pose proof (zlen_nonneg d). rewrite app_assoc in Hx.
  destruct (Z.lt_ge_cases (zlen (contents b ++ d)) 4) as [Hs|Hs].
  { destruct (time_client_short d chunks b) as (b' & ? & ? & Hc' & Hw' & ->); try done; [lia|].
    apply IH; try done; [by rewrite Hc' | by rewrite Hc' | lia]. }
  assert (contents b ++ d = be_bytes 4 x /\ concat chunks = []) as [Hd Hn].
  { rewrite <- Hx, zlen_app in H4. assert (concat chunks = []) as E by (apply zlen_0_nil; lia). rewrite E, app_nil_r in Hx. done. }
  destruct (append_ok d b Hwf) as (b1 & E1 & Hwf1 & Hc1 & Hm1 & Hw1); [unfold room; rewrite Hu; lia|]. rewrite Hd in Hc1.
  destruct (has_read_ok 4 b1 Hwf1) as (b2 & E2 & Hwf2 & Hc2 & Hm2 & _ & Hw2); [lia|].
  cbn [time_client]. rewrite E1, bind_ret. unfold time_client_on_message. rewrite readable_bytes_ok, bind_ret by done.
  rewrite <- contents_length, Hc1, H4 by done. cbn [Z.leb]. change (4 <=? 4) with true. cbv iota.
  unfold read_int32, has_read_int32. rewrite peek_int32_ok, bind_ret, E2, bind_ret, bind_ret by (rewrite ?Hc1; done || lia).
  rewrite Hc1. rewrite <- (app_nil_r (be_bytes 4 x)), be_int_be_bytes by lia. change (swrap (8 * Z.of_nat 4) x) with (i32 x).
  rewrite Hts, !bind_ret. rewrite (time_client_idle chunks b2); [done|done| |by rewrite Hc2, Hc1, zdrop_ge by lia|lia|done].
  unfold unlimited in *. by rewrite Hm2, Hm1.
Qed.
End TimeClient.

(** *** Chargen *)

Lemma message_sendable : user_ok (Send message_).
Proof. vm_compute. discriminate. Qed.

#[local] Opaque message_.

(** The number of write-complete reports. *)
Definition reports (tr : list conn_event) : nat := length (omap (fun e => match e with WriteComplete => Some tt | _ => None end) tr).

Lemma chargen_after st e :
  after ChargenServer (fun _ => []) st e
  = match e with
    | Connected => (true, st.2 ++ [message_])
    | WriteComplete => (st.1, if st.1 then st.2 ++ [message_] else st.2)
    | Closed => (false, st.2)
    | _ => st
    end.
Proof. by destruct e, st. Qed.

Lemma chargen_rest tr k :
  Connected ∉ tr -> exists st, foldl (after ChargenServer (fun _ => [])) (true, replicate k message_) tr = st /\
    (exists j, st.2 = replicate j message_) /\ (st.1 = true -> st.2 = replicate (k + reports tr) message_).
Proof.
  intros Hc. eexists. split; [done|]. induction tr as [|e tr IH] using rev_ind.
  { cbn. rewrite Nat.add_0_r. eauto. }
  apply not_elem_of_app in Hc as [Hc He]. rewrite foldl_app. cbn [foldl]. rewrite chargen_after.
  destruct (IH Hc) as [[j Hj] Ht]. unfold reports in *. rewrite omap_app, length_app. set (st := foldl _ _ _) in *.
  destruct e; cbn [omap list_omap length fst snd]; rewrite ?Nat.add_0_r; try (split; [eauto|done]); [by destruct He; left|].
  destruct (st.1) eqn:E1; [|split; [eauto|done]]. rewrite (Ht eq_refl).
  assert (forall n, replicate n message_ ++ [message_] = replicate (n + 1) message_) as Hr by (intros n; by rewrite replicate_add).
  rewrite Hr, <- Nat.add_assoc. eauto.
Qed.

(** ** Theorems *)

(** C12. Over the whole life of a connection of the echo server, which nobody but the server's own callbacks calls:
    whatever the sizes of the reads and writes, whatever events the kernel reports while it watches the socket, but for a
    hang-up with urgent data and without input, and whenever the owner destroys it, no check fails; the messages it sends
    are the pieces it has read, in their order; and if no write fails for good, the bytes written followed by those that wait
    are exactly the bytes read. *)
Theorem echo_correct {B} `{BackendSpec B} write readv own id fd (p : Poller B) :
  kernel_ok write readv -> poller_ok p -> chans p !! id = None ->
  (forall id' c', chans p !! id' = Some c' -> Channel.fd c' <> fd) ->
  exists c0, make_tcp_connection own id fd p = Ok c0 /\
    forall os, undisturbed os = true -> life EchoServer write readv Fresh os c0 ->
      safe (run_ops EchoServer write readv os c0) (fun c =>
        (messages c).*1 = heard (trace c) /\
        (no_faults write -> wrote c ++ contents (output_buffer_ c) = concat (heard (trace c)))).
Proof.
  intros Hk Hp Hn Hfd. destruct (serving_life EchoServer (fun d => [Send d]) write readv own id fd p) as (c0 & E & Hs); try done.
  { eapply server_env; [done|apply echo_drains| |by apply Forall_nil..]. intros d Hd. by repeat constructor. }
  { apply echo_server_steady. }
  { apply echo_drains. }
  exists c0. split; [done|]. intros os Hu Hv. pose proof (Hs os Hu Hv) as Hr.
  destruct (run_ops EchoServer write readv os c0) as [c|f] eqn:Er; cbn [safe].
  - destruct Hr as ([ch Hok] & V & S).
    assert ((messages c).*1 = heard (trace c)) as Em by (rewrite <- (echo_session _ _ (ok_trace _ _ _ _ Hok)); by rewrite <- V).
    split; [done|]. intros Hw. by rewrite (stream write ch), (all_kept write), Em.
  - destruct Hr as [?|(_ & os1 & os2 & c1 & -> & E1 & Hd)]; [done|]. exfalso. unfold undisturbed in Hu. rewrite forallb_app in Hu.
    apply andb_true_iff in Hu as [Hu _]. apply life_app in Hv. specialize (Hs os1 Hu Hv). rewrite E1 in Hs.
    destruct Hs as ([ch Hok] & V & _). by apply (echo_stays write ch c1).
Qed.

(** The connections of the character generator send [message_] again and again, as often as a message was
    reported to be written and once more while they are connected, and nothing else. *)
Theorem chargen_correct {B} `{BackendSpec B} write readv own id fd (p : Poller B) :
  kernel_ok write readv -> poller_ok p -> chans p !! id = None ->
  (forall id' c', chans p !! id' = Some c' -> Channel.fd c' <> fd) ->
  exists c0, make_tcp_connection own id fd p = Ok c0 /\
    forall os, undisturbed os = true -> valid_ops ChargenServer write readv os c0 ->
      safe (run_ops ChargenServer write readv os c0) (fun c =>
        (exists k, wrote c ++ contents (output_buffer_ c) = concat (replicate k message_)) /\
        (state_ c = kConnected -> (messages c).*1 = replicate (S (reports (trace c))) message_)).
Proof.
  intros Hk Hp Hn Hfd. pose proof message_sendable as Hm.
  destruct (serving ChargenServer (fun _ => []) write readv own id fd p) as (c0 & E & Hs); try done.
  { eapply server_env; [done|apply discard_drains| |by repeat constructor..]. intros d Hd. by apply Forall_nil. }
  { apply discard_drains. }
  exists c0. split; [done|]. intros os Hu Hv. eapply safe_mono; [by apply Hs|]. intros c ([ch Hok] & V & S).
  rewrite (stream write ch) by done. pose proof (kept_sublist (messages c)) as Hsub.
  destruct (connected_once _ _ (ok_trace _ _ _ _ Hok)) as [Et|(rest & Et & Hr)]; rewrite Et in V |- *.
  - injection V as V1 V2. rewrite V2 in Hsub. apply sublist_nil_r in Hsub. split; [exists O; by rewrite Hsub|].
    intros Hc. by rewrite bool_decide_eq_true_2 in V1.
  - unfold session in V. cbn [foldl] in V. rewrite chargen_after in V. destruct (chargen_rest rest 1 Hr) as (st & Est & [j Hj] & Hc).
    cbn [snd app] in V. cbn [replicate] in Est. rewrite Est in V. unfold view in V. subst st. cbn [fst snd] in *.
    split; [|intros Hst; apply Hc; by apply bool_decide_eq_true_2]. rewrite Hj in Hsub. exists (length (kept (messages c))). f_equal.
    symmetry. apply replicate_as_elem_of. split; [done|]. intros x Hx. apply (elem_of_replicate_inv x j). by eapply elem_of_sublist.
Qed.

(** The time service until 2038: a connection of the server writes four bytes, all of them before it shuts
    the socket down, and a client that reads them in any pieces shows the second of the server, once. *)
Theorem time_correct `{Arch} {B} `{BackendSpec B} curr write readv own id fd (p : Poller B) :
  0 <= curr < 2 ^ 31 * kMicrosecondsPerSecond ->
  kernel_ok write readv -> poller_ok p -> chans p !! id = None ->
  (forall id' c', chans p !! id' = Some c' -> Channel.fd c' <> fd) ->
  exists c0, make_tcp_connection own id fd p = Ok c0 /\
    forall os, undisturbed os = true -> valid_ops (TimeServer curr) write readv os c0 ->
      safe (run_ops (TimeServer curr) write readv os c0) (fun c =>
        (trace c <> [] -> leaving (state_ c)) /\
        (open (state_ c) = true -> shut_wr c = true -> no_faults write ->
         forall chunks b, make kUnLimitSize kInitialSize = Ok b -> concat chunks = wrote c ->
           time_client chunks b = Ok [curr - curr mod kMicrosecondsPerSecond])).
Proof.
  intros Hcurr Hk Hp Hn Hfd. pose proof (to_time_t_pos curr ltac:(units; lia)) as Et.
  pose proof (Z.div_mod curr kMicrosecondsPerSecond ltac:(done)) as Hdm. pose proof (Z.mod_pos_bound curr kMicrosecondsPerSecond ltac:(done)) as Hmb.
  set (x := to_time_t curr) in *. assert (0 <= x < 2 ^ 31) as Hx by (units; lia).
  assert (i32 x = x) as Ei by (apply i32_small; lia).
  assert (TimeServer curr = one_shot (be_bytes 4 x)) as -> by (unfold TimeServer, time_on_connect; by rewrite net_image32; fold x; rewrite Ei).
  assert (zlen (be_bytes 4 x) = 4) as H4 by (unfold zlen; by rewrite length_be_bytes).
  destruct (one_shot_ok (be_bytes 4 x) write readv own id fd p) as (c0 & E & Hs); try done.
  exists c0. split; [done|]. intros os Hu Hv. eapply safe_mono; [by apply Hs|]. intros c (Hl & _ & Hall).
  split; [intros Ht; by apply Hl|]. intros Ho Hsh Hw chunks b Eb Ec. rewrite (Hall Ho Hsh Hw) in Ec.
  destruct (make_ok kUnLimitSize kInitialSize) as (b' & Eb' & Hwf & Hcb & Hmb'); [unfold kUnLimitSize; lia | unfold kInitialSize, vec_max_size, kInt64Max; lia|].
  assert (b' = b) as -> by congruence. assert (writer_index_ b = 0) as Hwi by (vm_compute in Eb; injection Eb as <-; done).
  apply (time_client_ok x); try done; [unfold unlimited; by rewrite Hmb' | by rewrite Hcb | by rewrite Hcb | rewrite Hwi, Ec, H4; unfold vec_max_size, kInt64Max; lia|].
  rewrite Ei, from_time_t_pos by done. f_equal. lia.
Qed.

(** ** Witnesses and examples *)

Lemma small_kernel : kernel_ok small_write hello_readv.
Proof. split; [apply (env_write _ _ _ echo_env) | apply (env_shut _ _ _ echo_env) | apply (env_readv _ _ _ echo_env)]. Qed.

Lemma small_no_faults : no_faults small_write.
Proof. intros k d e [=]. Qed.

(** Two requests; the kernel takes three bytes at a time. *)
Definition two_pings : list conn_op := [Established; Event POLLIN; Event POLLIN; Event POLLOUT; Event POLLOUT; Destroyed].

Lemma echo_correct_witness :
  exists c, run_ops EchoServer small_write hello_readv two_pings conn0 = Ok c /\
    heard (trace c) = [txt "ping"; txt "ping"] /\ wrote c ++ contents (output_buffer_ c) = concat (heard (trace c)).
Proof.
  destruct (echo_correct small_write hello_readv true 0 7 poller0 small_kernel poller0_ok eq_refl ltac:(done)) as (c0 & E0 & Hs).
  assert (c0 = conn0) as -> by (unfold conn0; by rewrite E0).
  specialize (Hs two_pings eq_refl ltac:(vm_compute; repeat (split || eexists); done)).
  destruct (run_ops EchoServer small_write hello_readv two_pings conn0) as [c|f] eqn:E; [|vm_compute in E; discriminate E].
  exists c. split; [reflexivity|]. split; [|apply Hs, small_no_faults].
  vm_compute in E. injection E as <-. vm_compute. reflexivity.
Defined.

(** A run of the time server, in the second 1000000000. *)
Definition time_ops : list conn_op := [Established; Event POLLOUT].

Lemma time_correct_witness :
  let _ : Arch := {| arch_little_endian := true |} in
  exists c, run_ops (TimeServer 1000000000123456) small_write hello_readv time_ops conn0 = Ok c /\
    exists b, make kUnLimitSize kInitialSize = Ok b /\ time_client [ztake 1 (wrote c); []; zdrop 1 (wrote c)] b = Ok [1000000000000000].
Proof.
  intros A. destruct (time_correct 1000000000123456 small_write hello_readv true 0 7 poller0 ltac:(units; lia) small_kernel poller0_ok eq_refl ltac:(done)) as (c0 & E0 & Hs).
  assert (c0 = conn0) as -> by (unfold conn0; by rewrite E0).
  specialize (Hs time_ops eq_refl ltac:(vm_compute; repeat split; done)).
  destruct (run_ops (TimeServer 1000000000123456) small_write hello_readv time_ops conn0) as [c|f] eqn:E; [|vm_compute in E; discriminate E].
  exists c. split; [reflexivity|]. eexists. split; [reflexivity|]. vm_compute in E. injection E as <-.
  apply Hs; [reflexivity | reflexivity | apply small_no_faults | reflexivity | vm_compute; reflexivity].
Defined.

(** The text of chargen, RFC 864: 94 lines of 72 characters, each beginning one character later. *)
Example chargen_text :
  zlen message_ = 94 * 73 /\ ztake 73 message_ = ztake 72 line ++ [Byte.x0a] /\
  ztake 72 (zdrop 73 message_) = ztake 72 (zdrop 1 line).
Proof. vm_compute. repeat split; reflexivity. Qed.

(** A second after the range of 32 bits the client is back in 1901. *)
Example time_in_2038 :
  let _ : Arch := {| arch_little_endian := true |} in
  match run_ops (TimeServer (2 ^ 31 * 1000000)) small_write hello_readv time_ops conn0, make kUnLimitSize kInitialSize with
  | Ok c, Ok b => time_client [wrote c] b = Ok [- 2 ^ 31 * 1000000]
  | _, _ => False
  end.
Proof. vm_compute. reflexivity. Qed.

(** The fraction of a formatted time has six digits for a number of milliseconds. *)
Example formatted_milliseconds :
  to_formatted_string true (mkExploded 2019 8 0 4 12 30 5 250) = txt "20190804 12:30:05.000250".
Proof. vm_compute. reflexivity. Qed.
