(* ===== verification/StringUtil.v ===== *)
(** * StringUtil (include/strings/StringUtil.h, src/StringUtil.cc)

    Case mapping and comparison, trimming, joining and replacing.  The searches
    are those of [StringPiece]; the replacement keeps its four strategies: one
    match, equal lengths in place, growing into a new buffer, and moving the rest
    of the string inside one buffer.  [std::string::capacity] is a parameter.

    The file shows that trimming removes exactly the leading and trailing
    characters of the set, that every strategy of the replacement computes the
    same left-to-right replacement, and what [strlcpy] copies. *)

From S2P Require Import Prelude StringPiece.

(** ** Definitions *)

Definition kWhitespace : bytes := map z2b [0x09; 0x0A; 0x0B; 0x0C; 0x0D; 0x20].

(** *** Copying *)

(** A read of raw memory: past the end of the storage it is undefined. *)
Definition mem_read (i : Z) (src : bytes) : outcome byte :=
  defined (i <? zlen src) "strlcpy: src";; Ok (nth (Z.to_nat i) src Byte.x00).

(** [lcpy_T]: the copying loop; [src] is the storage of a C string. *)
Fixpoint lcpy_loop (n : nat) (i : Z) (src dst : bytes) : outcome (option Z * bytes) :=
  match n with
  | O => Ok (None, dst)
  | S n =>
      c ← mem_read i src;
      defined (i <? zlen dst) "strlcpy: dst";;
      let dst := memwrite i [c] dst in
      if bool_decide (c = Byte.x00) then Ok (Some i, dst) else lcpy_loop n (i + 1) src dst
  end.

(** [while (src[dst_size]) ++dst_size;] *)
Fixpoint lcpy_count (fuel : nat) (i : Z) (src : bytes) : outcome Z :=
  match fuel with
  | O => Fault OutOfFuel
  | S fuel =>
      c ← mem_read i src;
      if bool_decide (c = Byte.x00) then Ok i else lcpy_count fuel (i + 1) src
  end.

Definition strlcpy (dst src : bytes) (dst_size : Z) : outcome (Z * bytes) :=
  '(r, dst) ← lcpy_loop (Z.to_nat dst_size) 0 src dst;
  match r with
  | Some i => Ok (i, dst)
  | None =>
      let dst := if negb (dst_size =? 0) then memwrite (dst_size - 1) [Byte.x00] dst else dst in
      n ← lcpy_count (S (length src)) dst_size src;
      Ok (n, dst)
  end.

(** *** Case *)

Definition is_ascii_upper (c : byte) : bool := (65 <=? b2sz c) && (b2sz c <=? 90).
Definition is_ascii_lower (c : byte) : bool := (97 <=? b2sz c) && (b2sz c <=? 122).
Definition is_ascii_alpha (c : byte) : bool := is_ascii_upper c || is_ascii_lower c.
Definition is_ascii_digit (c : byte) : bool := (48 <=? b2sz c) && (b2sz c <=? 57).
Definition is_hex_digit (c : byte) : bool :=
  is_ascii_digit c || ((65 <=? b2sz c) && (b2sz c <=? 70)) || ((97 <=? b2sz c) && (b2sz c <=? 102)).
Definition is_ascii_whitespace (c : byte) : bool :=
  (b2sz c =? 32) || (b2sz c =? 13) || (b2sz c =? 10) || (b2sz c =? 9).

Definition to_lower (c : byte) : byte := if is_ascii_upper c then z2b (b2z c + 32) else c.
Definition to_upper (c : byte) : byte := if is_ascii_lower c then z2b (b2z c - 32) else c.
Definition to_lower_T (str : StringPiece) : bytes := map to_lower str.
Definition to_upper_T (str : StringPiece) : bytes := map to_upper str.

(** The comparison is on [char], which is signed. *)
Fixpoint compare_case_insensitive_T (a b : StringPiece) : Z :=
  match a, b with
  | c :: a, d :: b =>
      if b2sz (to_lower c) <? b2sz (to_lower d) then -1
      else if b2sz (to_lower d) <? b2sz (to_lower c) then 1
      else compare_case_insensitive_T a b
  | [], [] => 0
  | [], _ :: _ => -1
  | _ :: _, [] => 1
  end.

Definition equals_case_insensitive (a b : StringPiece) : bool :=
  if negb (zlen a =? zlen b) then false else compare_case_insensitive_T a b =? 0.

Definition contains_only_chars (input characters : StringPiece) : bool :=
  find_first_not_of input characters 0 =? npos.

Fixpoint equal_by (f : byte -> byte -> bool) (a b : bytes) : bool :=
  match a, b with
  | c :: a, d :: b => f c d && equal_by f a b
  | _, _ => true
  end.

Definition lower_case_equals (str lowercase_ascii : StringPiece) : bool :=
  (zlen str =? zlen lowercase_ascii) &&
  equal_by (fun c d => bool_decide (to_lower c = d)) str lowercase_ascii.

Inductive CompareCase : Type := SENSITIVE | INSENSITIVE.

Definition CaseInsensitiveCompare (x y : byte) : bool := bool_decide (to_lower x = to_lower y).

Definition starts_with_case (str search_for : StringPiece) (case_sensitivity : CompareCase) : bool :=
  if zlen str <? zlen search_for then false
  else
    let source := substr str 0 (zlen search_for) in
    match case_sensitivity with
    | SENSITIVE => equals source search_for
    | INSENSITIVE => equal_by CaseInsensitiveCompare search_for source
    end.

Definition ends_with_case (str search_for : StringPiece) (case_sensitivity : CompareCase) : bool :=
  if zlen str <? zlen search_for then false
  else
    let source := substr str (zlen str - zlen search_for) (zlen search_for) in
    match case_sensitivity with
    | SENSITIVE => equals source search_for
    | INSENSITIVE => equal_by CaseInsensitiveCompare source search_for
    end.

(** *** Trimming *)

Definition TRIM_NONE : Z := 0.
Definition TRIM_LEADING : Z := 1.
Definition TRIM_TRAILING : Z := 2.
Definition TRIM_ALL : Z := 3.

Definition wants (positions flag : Z) : bool := negb (Z.land positions flag =? 0).

Definition trim_string_T (input trim_chars : bytes) (positions : Z) : Z * bytes :=
  let last_char := u64 (zlen input - 1) in
  let first_good_char :=
    if wants positions TRIM_LEADING then find_first_not_of input trim_chars 0 else 0 in
  let last_good_char :=
    if wants positions TRIM_TRAILING then find_last_not_of input trim_chars npos else last_char in
  if (zlen input =? 0) || (first_good_char =? npos) || (last_good_char =? npos) then
    (if zlen input =? 0 then TRIM_NONE else positions, [])
  else
    (Z.lor (if first_good_char =? 0 then TRIM_NONE else TRIM_LEADING)
           (if last_good_char =? last_char then TRIM_NONE else TRIM_TRAILING),
     substr input first_good_char (u64 (last_good_char - first_good_char + 1))).

Definition trim_string_piece_T (input trim_chars : StringPiece) (positions : Z) : StringPiece :=
  let begin_ := if wants positions TRIM_LEADING then find_first_not_of input trim_chars 0 else 0 in
  let end_ :=
    if wants positions TRIM_TRAILING then u64 (find_last_not_of input trim_chars npos + 1)
    else zlen input in
  substr input begin_ (u64 (end_ - begin_)).

Definition trim_string (input trim_chars : bytes) : bool * bytes :=
  let '(p, output) := trim_string_T input trim_chars TRIM_ALL in (negb (p =? TRIM_NONE), output).

Definition trim_whitespace (input : bytes) (positions : Z) : Z * bytes :=
  trim_string_T input kWhitespace positions.

(** [std::string::resize] and [std::string::reserve]. *)
Definition str_resize (n : Z) (str : bytes) : bytes :=
  ztake n str ++ replicate (Z.to_nat (n - zlen str)) Byte.x00.
Definition str_reserve (n : Z) : outcome unit :=
  if n <=? kInt64Max then Ok tt else Fault (Uncaught "std::length_error").

Definition write_into (str : bytes) (length_with_null : Z) : outcome bytes :=
  check (1 <? length_with_null) "write_into";;
  str_reserve length_with_null;;
  Ok (str_resize (length_with_null - 1) str).

(** *** Joining *)

Definition join_string_T (parts : list bytes) (sep : StringPiece) : bytes :=
  match parts with
  | [] => []
  | part :: parts =>
      foldl (fun result part => append_to_string part (append_to_string sep result))
        (append_to_string part []) parts
  end.

(** *** Replacing *)

(** [hit l]: a match at the beginning of [l]. *)
Class Matcher (M : Type) : Type := {
  hit : M -> bytes -> bool;
  match_size : M -> Z;
}.

Record SubstringMatcher : Type := { find_this : bytes }.
Record CharacterMatcher : Type := { find_any_of_these : bytes }.

#[export] Instance substring_matcher : Matcher SubstringMatcher := {
  hit m l := starts (find_this m) l;
  match_size m := zlen (find_this m);
}.
#[export] Instance character_matcher : Matcher CharacterMatcher := {
  hit m l := match l with c :: _ => bool_decide (c ∈ find_any_of_these m) | [] => false end;
  match_size _ := 1;
}.

Inductive ReplaceType : Type := REPLACE_ALL | REPLACE_FIRST.

(** [std::string::replace]: [n] is cut at the end of the string. *)
Definition str_replace (pos n : Z) (d str : bytes) : bytes :=
  ztake pos str ++ d ++ zdrop (pos + Z.min n (zlen str - pos)) str.

(** A copy into the buffer of the string, inside its bounds. *)
Definition char_copy (pos : Z) (d str : bytes) : outcome bytes :=
  defined (pos + zlen d <=? zlen str) "CharTraits::copy";; Ok (memwrite pos d str).

Section Replace.
Context {M : Type} `{Matcher M} (m : M).

(** The position of the first match. *)
Fixpoint find_in (l : bytes) : option Z :=
  if hit m l then Some 0
  else match l with [] => None | _ :: l => Z.add 1 <$> find_in l end.

(** [std::string::find] and [std::string::find_first_of]. *)
Definition matcher_find (input : bytes) (pos : Z) : Z :=
  if zlen input <? pos then npos
  else match find_in (zdrop pos input) with Some i => pos + i | None => npos end.

Fixpoint overwrite_loop (fuel : nat) (replace_with : bytes) (offset : Z) (str : bytes) : outcome bytes :=
  match fuel with
  | O => Fault OutOfFuel
  | S fuel =>
      if offset =? npos then Ok str
      else
        str ← char_copy offset replace_with str;
        overwrite_loop fuel replace_with (matcher_find str (offset + zlen replace_with)) str
  end.

Fixpoint count_loop (fuel : nat) (str : bytes) (match_ num_matches : Z) : outcome Z :=
  match fuel with
  | O => Fault OutOfFuel
  | S fuel =>
      if match_ =? npos then Ok num_matches
      else count_loop fuel str (matcher_find str (match_ + match_size m)) (num_matches + 1)
  end.

(** The loop that builds the result in a new buffer. *)
Fixpoint append_loop (num_matches : nat) (src replace_with : bytes) (match_ pos : Z) (str : bytes)
    : outcome (Z * bytes) :=
  let str := str ++ zslice pos (match_ - pos) src ++ replace_with in
  let pos := match_ + match_size m in
  match num_matches with
  | O | S O => Ok (pos, str)
  | S n => append_loop n src replace_with (matcher_find src pos) pos str
  end.

(** The loop that alternates replacements and moves inside one buffer. *)
Fixpoint move_loop (fuel : nat) (replace_with : bytes) (str_length write_offset read_offset : Z)
    (str : bytes) : outcome (Z * bytes) :=
  match fuel with
  | O => Fault OutOfFuel
  | S fuel =>
      str ← (if zlen replace_with =? 0 then Ok str else char_copy write_offset replace_with str);
      let write_offset := write_offset + zlen replace_with in
      let read_offset := read_offset + match_size m in
      let match_ := Z.min (matcher_find str read_offset) str_length in
      let length := match_ - read_offset in
      str ← (if length =? 0 then Ok str else char_copy write_offset (zslice read_offset length str) str);
      let write_offset := write_offset + length in
      let read_offset := read_offset + length in
      if read_offset <? str_length
      then move_loop fuel replace_with str_length write_offset read_offset str
      else Ok (write_offset, str)
  end.

Variable capacity : bytes -> Z.

(** The moves and the final truncation. *)
Definition move_matches (str replace_with : bytes) (first_match str_length expansion : Z) : outcome (bool * bytes) :=
  '(write_offset, str) ← move_loop (S (S (length str))) replace_with str_length
    first_match (first_match + expansion) str;
  Ok (true, str_resize write_offset str).

(** The string gets longer. *)
Definition grow_matches (str replace_with : bytes) (first_match : Z) : outcome (bool * bytes) :=
  let find_length := match_size m in
  let str_length := zlen str in
  num_matches ← count_loop (S (S (length str))) str first_match 0;
  let expansion := u64 (num_matches * (zlen replace_with - find_length)) in
  let final_length := u64 (str_length + expansion) in
  if capacity str <? final_length then
    str_reserve final_length;;
    '(pos, r) ← append_loop (Z.to_nat num_matches) str replace_with first_match 0 [];
    Ok (true, r ++ zslice pos (str_length - pos) str)
  else
    let shift_src := first_match + find_length in
    let shift_dst := shift_src + expansion in
    let padded := if str_length <? shift_dst then str_resize shift_dst str else str in
    let str := str_replace shift_dst (str_length - shift_src)
                 (zslice shift_src (str_length - shift_src) padded) padded in
    move_matches str replace_with first_match final_length expansion.

Definition do_replace_matches_after_offset (str : bytes) (initial_offset : Z) (replace_with : bytes)
    (replace_type : ReplaceType) : outcome (bool * bytes) :=
  let find_length := match_size m in
  if find_length =? 0 then Ok (false, str)
  else
    let first_match := matcher_find str initial_offset in
    if first_match =? npos then Ok (false, str)
    else
      let replace_length := zlen replace_with in
      match replace_type with
      | REPLACE_FIRST => Ok (true, str_replace first_match find_length replace_with str)
      | REPLACE_ALL =>
          if find_length =? replace_length then
            str ← overwrite_loop (S (S (length str))) replace_with first_match str;
            Ok (true, str)
          else if find_length <? replace_length then grow_matches str replace_with first_match
          else move_matches str replace_with first_match (zlen str) 0
      end.

End Replace.

Definition replace_chars (capacity : bytes -> Z) (input find_any replace_with : bytes) : outcome (bool * bytes) :=
  do_replace_matches_after_offset {| find_any_of_these := find_any |} capacity input 0 replace_with REPLACE_ALL.
Definition remove_chars (capacity : bytes -> Z) (input remove : bytes) : outcome (bool * bytes) :=
  replace_chars capacity input remove [].
Definition replace_substrings_after_offset (capacity : bytes -> Z) (str : bytes) (start_offset : Z)
    (find_this replace_with : bytes) : outcome (bool * bytes) :=
  do_replace_matches_after_offset {| find_this := find_this |} capacity str start_offset replace_with REPLACE_ALL.
Definition replace_first_substring_after_offset (capacity : bytes -> Z) (str : bytes) (start_offset : Z)
    (find_this replace_with : bytes) : outcome (bool * bytes) :=
  do_replace_matches_after_offset {| find_this := find_this |} capacity str start_offset replace_with REPLACE_FIRST.

(** ** Specification *)

(** What a matcher promises the replacement: matches are inside the string. *)
Class MatcherLaws (M : Type) `{Matcher M} : Prop := {
  match_size_nonneg (m : M) : 0 <= match_size m;
  hit_inside (m : M) l : 0 < match_size m -> hit m l = true -> match_size m <= zlen l;
}.

#[export] Instance substring_matcher_laws : MatcherLaws SubstringMatcher.
Proof.
  split; cbn; [intros; apply zlen_nonneg|].
  intros m l _ [H _]%starts_zslice. done.
Qed.
#[export] Instance character_matcher_laws : MatcherLaws CharacterMatcher.
Proof.
  split; cbn; [lia|]. intros m [|c l] _ H; [done|]. rewrite zlen_cons. pose proof (zlen_nonneg l). lia.
Qed.

Section ReplaceSpec.
Context {M : Type} `{MatcherLaws M} (m : M) (r : bytes).

(** The left-to-right replacement; [skip] characters belong to a match. *)
Fixpoint replaced_from (skip : nat) (l : bytes) : bytes :=
  match l, skip with
  | [], _ => []
  | _ :: l, S skip => replaced_from skip l
  | c :: l', O =>
      if hit m l then r ++ replaced_from (Z.to_nat (match_size m - 1)) l'
      else c :: replaced_from 0 l'
  end.
Definition replaced : bytes -> bytes := replaced_from 0.

(** The replacement of the first match only. *)
Fixpoint replaced_once (l : bytes) : bytes :=
  if hit m l then r ++ zdrop (match_size m) l
  else match l with [] => [] | c :: l => c :: replaced_once l end.

(** The number of replacements. *)
Fixpoint matches_from (skip : nat) (l : bytes) : Z :=
  match l, skip with
  | [], _ => 0
  | _ :: l, S skip => matches_from skip l
  | _ :: l', O =>
      if hit m l then 1 + matches_from (Z.to_nat (match_size m - 1)) l' else matches_from 0 l'
  end.
Definition matches : bytes -> Z := matches_from 0.

(** *** Lemmas *)

Hypothesis Hk : 0 < match_size m.

Lemma hit_nil : hit m [] = false.
Proof.
  destruct (hit m []) eqn:E; [|done]. apply hit_inside in E; [|done]. change (zlen (@nil byte)) with 0 in E. lia.
Qed.

Lemma from_skip n l :
  replaced_from n l = replaced (drop n l) /\ matches_from n l = matches (drop n l).
Proof. revert n. induction l as [|c l IH]; intros [|n]; simpl; auto. Qed.

(** Both functions, unfolded at the first match. *)
Lemma find_in_spec l :
  match find_in m l with
  | None => replaced l = l /\ matches l = 0
  | Some i =>
      0 <= i /\ i + match_size m <= zlen l /\
      replaced l = ztake i l ++ r ++ replaced (zdrop (i + match_size m) l) /\
      matches l = 1 + matches (zdrop (i + match_size m) l)
  end.
Proof.
  induction l as [|c l IH]; cbn [find_in]; [by rewrite hit_nil|].
  destruct (hit m (c :: l)) eqn:E.
  - pose proof (hit_inside m _ Hk E). split_and!; [lia | lia | |];
      unfold replaced, matches; cbn [replaced_from matches_from]; rewrite E;
      [rewrite (proj1 (from_skip _ _)), ztake_0 | rewrite (proj2 (from_skip _ _))];
      unfold zdrop; replace (Z.to_nat (0 + match_size m)) with (S (Z.to_nat (match_size m - 1))) by lia; done.
  - assert (Hr : replaced (c :: l) = c :: replaced l) by (unfold replaced; cbn [replaced_from]; by rewrite E).
    assert (Hm : matches (c :: l) = matches l) by (unfold matches; cbn [matches_from]; by rewrite E).
    rewrite Hr, Hm. destruct (find_in m l) as [i|]; cbn [fmap option_fmap option_map].
    + destruct IH as (H1 & H2 & -> & ->). rewrite zlen_cons. split_and!; try lia;
        unfold ztake, zdrop; replace (Z.to_nat (1 + i)) with (S (Z.to_nat i)) by lia;
        replace (Z.to_nat (1 + i + match_size m)) with (S (Z.to_nat (i + match_size m))) by lia; done.
    + by destruct IH as [-> ->].
Qed.

Lemma matches_nonneg l : 0 <= matches l.
Proof.
  induction l as [l IH] using (well_founded_induction (Wf_nat.well_founded_ltof _ (@length byte))).
  pose proof (find_in_spec l) as Hs. destruct (find_in m l) as [i|]; [|lia].
  destruct Hs as (H1 & H2 & _ & ->). enough (0 <= matches (zdrop (i + match_size m) l)) by lia.
  apply IH. unfold Wf_nat.ltof, zdrop. rewrite length_drop. unfold zlen in H2. lia.
Qed.

Lemma zlen_replaced l : zlen (replaced l) = zlen l + matches l * (zlen r - match_size m).
Proof.
  induction l as [l IH] using (well_founded_induction (Wf_nat.well_founded_ltof _ (@length byte))).
  pose proof (find_in_spec l) as Hs. destruct (find_in m l) as [i|]; [|destruct Hs as [-> ->]; lia].
  destruct Hs as (H1 & H2 & -> & ->).
  rewrite !zlen_app, IH, zlen_ztake, zlen_zdrop.
  - rewrite Z.mul_add_distr_r. lia.
  - unfold Wf_nat.ltof, zdrop. rewrite length_drop. unfold zlen in H2. lia.
Qed.

Lemma matcher_find_app a l :
  matcher_find m (a ++ l) (zlen a) = match find_in m l with Some i => zlen a + i | None => npos end.
Proof.
  unfold matcher_find. rewrite zlen_app, zdrop_app_exact by done. pose proof (zlen_nonneg l).
  destruct (Z.ltb_spec (zlen a + zlen l) (zlen a)); [lia|done].
Qed.

(** A string from its first match on: [p], the match [h] and the rest [q]. *)
Inductive first_match_of (l : bytes) : option Z -> Prop :=
| no_match : replaced l = l -> matches l = 0 -> first_match_of l None
| match_at p h q :
    l = p ++ h ++ q -> zlen h = match_size m ->
    replaced l = p ++ r ++ replaced q -> matches l = 1 + matches q ->
    first_match_of l (Some (zlen p)).

Lemma find_in_view l : first_match_of l (find_in m l).
Proof.
  pose proof (find_in_spec l) as Hs. destruct (find_in m l) as [i|]; [|by destruct Hs; apply no_match].
  destruct Hs as (H1 & H2 & H3 & H4).
  assert (Hi : i = zlen (ztake i l)) by (rewrite zlen_ztake; lia).
  rewrite Hi at 1.
  apply (match_at l _ (ztake (match_size m) (zdrop i l)) (zdrop (i + match_size m) l)); [| |done|done].
  - rewrite (Z.add_comm i), <- zdrop_zdrop, !ztake_zdrop by lia. done.
  - rewrite zlen_ztake, zlen_zdrop. lia.
Qed.

(** Writing [d] over the beginning of [x]. *)
Lemma char_copy_app a d x q :
  zlen d <= zlen x -> char_copy (zlen a) d (a ++ x ++ q) = Ok (a ++ d ++ zdrop (zlen d) x ++ q).
Proof.
  intros Hd. unfold char_copy. pose proof (zlen_nonneg q). rewrite !zlen_app, defined_true by (apply Z.leb_le; lia).
  rewrite bind_ret. unfold memwrite. pose proof (zlen_nonneg d).
  rewrite ztake_app_exact, zdrop_app_ge by lia.
  replace (zlen a + zlen d - zlen a) with (zlen d) by lia. by rewrite zdrop_app_le by lia.
Qed.

(** The four loops. *)

Lemma overwrite_loop_ok fuel a l :
  zlen r = match_size m -> zlen (a ++ l) < 2 ^ 63 -> (length l < fuel)%nat ->
  overwrite_loop m fuel r (matcher_find m (a ++ l) (zlen a)) (a ++ l) = Ok (a ++ replaced l).
Proof.
  intros Hr. revert a l. induction fuel as [|fuel IH]; intros a l Hv Hf; [lia|].
  rewrite matcher_find_app. cbn [overwrite_loop].
  destruct (find_in_view l) as [-> _|p h q -> Hh -> _]; [done|].
  rewrite !zlen_app in Hv. pose proof (zlen_nonneg q). pose proof (zlen_nonneg p). pose proof (zlen_nonneg h).
  destruct (Z.eqb_spec (zlen a + zlen p) npos) as [Hn|_]; [unfold npos in Hn; pose proof (zlen_nonneg a); lia|].
  rewrite <- zlen_app, (app_assoc a), char_copy_app, bind_ret by lia.
  rewrite (zdrop_ge (zlen r) h) by lia. rewrite <- zlen_app. cbn [app]. rewrite (app_assoc (a ++ p) r q).
  rewrite IH; [by rewrite <- !app_assoc | rewrite !zlen_app; lia |].
  rewrite !length_app in Hf. unfold zlen in *. lia.
Qed.

Lemma count_loop_ok fuel a l n :
  zlen (a ++ l) < 2 ^ 63 -> (length l < fuel)%nat ->
  count_loop m fuel (a ++ l) (matcher_find m (a ++ l) (zlen a)) n = Ok (n + matches l).
Proof.
  revert a l n. induction fuel as [|fuel IH]; intros a l n Hv Hf; [lia|].
  rewrite matcher_find_app. cbn [count_loop].
  destruct (find_in_view l) as [_ ->|p h q -> Hh _ ->]; [by rewrite Z.add_0_r|].
  rewrite !zlen_app in Hv. pose proof (zlen_nonneg q). pose proof (zlen_nonneg p). pose proof (zlen_nonneg a).
  destruct (Z.eqb_spec (zlen a + zlen p) npos) as [Hn|_]; [unfold npos in Hn; lia|].
  replace (zlen a + zlen p + match_size m) with (zlen ((a ++ p) ++ h)) by (rewrite !zlen_app; lia).
  replace (a ++ p ++ h ++ q) with (((a ++ p) ++ h) ++ q) by (by rewrite <- !app_assoc).
  rewrite IH; [f_equal; lia | rewrite !zlen_app; lia |].
  rewrite !length_app in Hf. unfold zlen in *. lia.
Qed.

(** [b] has been searched and not yet copied. *)
Lemma append_loop_ok n a b l out :
  Z.of_nat n = matches l -> (0 < n)%nat ->
  exists pos out', append_loop m n (a ++ b ++ l) r (matcher_find m (a ++ b ++ l) (zlen (a ++ b))) (zlen a) out
                   = Ok (pos, out') /\
    out' ++ zslice pos (zlen (a ++ b ++ l) - pos) (a ++ b ++ l) = out ++ b ++ replaced l.
Proof.
  revert a b l out. induction n as [|n IH]; intros a b l out Hn Hp; [lia|].
  rewrite (app_assoc a b l), matcher_find_app. cbn [append_loop].
  destruct (find_in_view l) as [_ ?|p h q -> Hh -> Hm]; [lia|].
  set (src := (a ++ b) ++ p ++ h ++ q).
  assert (Hcut : zslice (zlen a) (zlen (a ++ b) + zlen p - zlen a) src = b ++ p).
  { unfold zslice, src. rewrite <- (app_assoc a), zdrop_app_exact, (app_assoc b) by done.
    apply ztake_app_exact. rewrite !zlen_app. lia. }
  rewrite Hcut.
  replace (zlen (a ++ b) + zlen p + match_size m) with (zlen ((a ++ b) ++ p ++ h)) by (rewrite !zlen_app; lia).
  assert (Hsrc : src = ((a ++ b) ++ p ++ h) ++ [] ++ q) by (unfold src; by rewrite <- !app_assoc).
  destruct n as [|n].
  - eexists _, _. split; [done|]. assert (Hq : matches q = 0) by lia.
    pose proof (find_in_view q) as [-> _|? ? q' _ _ _ Hq']; [|pose proof (matches_nonneg q'); lia].
    unfold zslice. rewrite Hsrc at 2. rewrite zdrop_app_exact, ztake_ge, <- !app_assoc; [done| |done].
    rewrite Hsrc, !zlen_app, zlen_nil. lia.
  - destruct (IH ((a ++ b) ++ p ++ h) [] q (out ++ (b ++ p) ++ r)) as (pos & out' & Hl & Ho); [lia|lia|].
    rewrite app_nil_r, <- Hsrc in Hl. rewrite <- Hsrc in Ho.
    exists pos, out'. split; [exact Hl|]. rewrite Ho. by rewrite <- !app_assoc.
Qed.

Lemma maybe_copy a d x q n :
  n = zlen d -> zlen d <= zlen x ->
  (if n =? 0 then Ok (a ++ x ++ q) else char_copy (zlen a) d (a ++ x ++ q))
  = Ok (a ++ d ++ zdrop (zlen d) x ++ q).
Proof.
  intros -> Hd. destruct (Z.eqb_spec (zlen d) 0) as [E|_]; [|by apply char_copy_app].
  apply zlen_0_nil in E as ->. done.
Qed.

(** Moving [x] down over the gap [g] in front of it leaves a gap of the same size. *)
Lemma maybe_move a g x q str n :
  str = a ++ g ++ x ++ q -> n = zlen x ->
  exists g', zlen g' = zlen g /\
  (if n =? 0 then Ok str else char_copy (zlen a) (zslice (zlen (a ++ g)) n str) str)
  = Ok (a ++ x ++ g' ++ q).
Proof.
  intros -> ->. exists (zdrop (zlen x) (g ++ x)). pose proof (zlen_nonneg x). pose proof (zlen_nonneg g).
  split; [rewrite zlen_zdrop, zlen_app; lia|].
  replace (zslice _ _ _) with x.
  - rewrite (app_assoc g x q). apply maybe_copy; [done | rewrite zlen_app; lia].
  - unfold zslice. by rewrite (app_assoc a g), zdrop_app_exact, ztake_app_exact.
Qed.

Lemma str_resize_app a b : str_resize (zlen a) (a ++ b) = a.
Proof.
  unfold str_resize. rewrite ztake_app_exact, zlen_app by done. pose proof (zlen_nonneg b).
  replace (Z.to_nat _) with 0%nat by lia. apply app_nil_r.
Qed.

(** The buffer holds the result [d], a gap [g], the match [h] to replace and the
    unsearched [l]; the gap has room for the replacements left. *)
Lemma move_loop_ok fuel d g h l :
  zlen (d ++ g ++ h ++ l) < 2 ^ 63 -> (length l < fuel)%nat -> zlen h = match_size m ->
  (1 + matches l) * (zlen r - match_size m) <= zlen g ->
  exists w str, move_loop m fuel r (zlen (d ++ g ++ h ++ l)) (zlen d) (zlen (d ++ g)) (d ++ g ++ h ++ l)
                = Ok (w, str) /\ str_resize w str = d ++ r ++ replaced l.
Proof.
  revert d g h l. induction fuel as [|fuel IH]; intros d g h l Hv Hf Hh Hg; [lia|].
  pose proof (matches_nonneg l) as Hm0. pose proof (zlen_nonneg g). pose proof (zlen_nonneg r).
  assert (Hfit : zlen r <= zlen g + match_size m) by nia.
  cbn [move_loop]. set (len := zlen (d ++ g ++ h ++ l)).
  rewrite (app_assoc g h l), maybe_copy, bind_ret; [|done | rewrite zlen_app; lia].
  set (g' := zdrop (zlen r) (g ++ h)).
  assert (Hg' : zlen g' = zlen g + match_size m - zlen r) by (unfold g'; rewrite zlen_zdrop, zlen_app; lia).
  replace (d ++ r ++ g' ++ l) with ((d ++ r ++ g') ++ l) by (by rewrite <- !app_assoc).
  replace (zlen (d ++ g) + match_size m) with (zlen (d ++ r ++ g')) by (rewrite !zlen_app; lia).
  assert (Hlen : len = zlen (d ++ r ++ g') + zlen l) by (unfold len; rewrite !zlen_app; lia).
  rewrite matcher_find_app. rewrite <- (zlen_app d r).
  set (dr := d ++ r). replace (d ++ r ++ g') with (dr ++ g') in * by (unfold dr; by rewrite <- app_assoc).
  rewrite <- (app_assoc dr g' l).
  assert (Hv' : len < 2 ^ 63) by done. clearbody len g'. subst len.
  destruct (find_in_view l) as [-> _|p h' q Hl Hh' Hrl Hm].
  - assert (Hmin : npos `min` (zlen (dr ++ g') + zlen l) = zlen (dr ++ g') + zlen l) by (unfold npos; lia).
    rewrite Hmin, Z.add_simpl_l.
    destruct (maybe_move dr g' l [] (dr ++ g' ++ l) (zlen l)) as (g2 & _ & ->); [by rewrite app_nil_r|done|].
    rewrite bind_ret, Z.ltb_irrefl. eexists _, _. split; [done|].
    rewrite <- zlen_app, app_assoc, str_resize_app. unfold dr. by rewrite <- app_assoc.
  - assert (Hmin : (zlen (dr ++ g') + zlen p) `min` (zlen (dr ++ g') + zlen l) = zlen (dr ++ g') + zlen p).
    { rewrite Hl, !zlen_app. pose proof (zlen_nonneg q). lia. }
    rewrite Hmin, Z.add_simpl_l.
    destruct (maybe_move dr g' p (h' ++ q) (dr ++ g' ++ l) (zlen p)) as (g2 & Hg2 & ->); [by rewrite Hl|done|].
    rewrite bind_ret, Hrl. pose proof (zlen_nonneg q). rewrite Hl in Hf, Hv' |- *.
    rewrite !zlen_app in Hv' |- *. zdecide.
    destruct (IH (dr ++ p) g2 h' q) as (w & str & Hw & Hs).
    + rewrite !zlen_app. lia.
    + rewrite !length_app in Hf. unfold zlen in Hh', Hk. lia.
    + done.
    + nia.
    + exists w, str. split; [|rewrite Hs; unfold dr; by rewrite <- !app_assoc].
      rewrite <- Hw, !zlen_app, <- !app_assoc. f_equal; lia.
Qed.
Lemma replaced_once_find l :
  replaced_once l = match find_in m l with
                    | Some i => ztake i l ++ r ++ zdrop (i + match_size m) l
                    | None => l
                    end.
Proof.
  induction l as [|c l IH]; cbn [replaced_once find_in]; [by rewrite hit_nil|].
  destruct (hit m (c :: l)); [done|]. rewrite IH.
  pose proof (find_in_spec l) as Hs. destruct (find_in m l) as [i|]; cbn [fmap option_fmap option_map]; [|done].
  destruct Hs as (Hi & _). unfold ztake, zdrop. replace (Z.to_nat (1 + i)) with (S (Z.to_nat i)) by lia.
  by replace (Z.to_nat (1 + i + match_size m)) with (S (Z.to_nat (i + match_size m))) by lia.
Qed.

(** The string prepared for the moves: a gap of [e] characters before the match. *)
Lemma open_gap p h q e str src n :
  0 <= e -> str = p ++ h ++ q -> src = zlen p + zlen h -> n = zlen (p ++ h ++ q) ->
  exists g h', zlen g = e /\ zlen h' = zlen h /\
  let padded := if n <? src + e then str_resize (src + e) str else str in
  str_replace (src + e) (n - src) (zslice src (n - src) padded) padded = p ++ g ++ h' ++ q.
Proof.
  intros He -> -> ->. pose proof (zlen_nonneg p). pose proof (zlen_nonneg q). pose proof (zlen_nonneg h).
  set (pad := replicate (Z.to_nat (zlen p + zlen h + e - zlen (p ++ h ++ q))) Byte.x00).
  set (x := ztake (zlen h + e) ((h ++ q) ++ pad)).
  assert (Hpad : zlen pad = Z.max 0 (e - zlen q)).
  { unfold pad. rewrite zlen_replicate, !zlen_app. lia. }
  assert (Hx : zlen x = zlen h + e) by (unfold x; rewrite zlen_ztake, !zlen_app; lia).
  exists (ztake e x), (zdrop e x). split_and!; [rewrite zlen_ztake; lia | rewrite zlen_zdrop; lia |].
  cbv zeta. set (padded := if zlen (p ++ h ++ q) <? _ then _ else p ++ h ++ q).
  assert (Hp : padded = (p ++ h) ++ q ++ pad).
  { unfold padded, str_resize. fold pad. rewrite <- (app_assoc p h). destruct (Z.ltb_spec (zlen (p ++ h ++ q)) (zlen p + zlen h + e)).
    - rewrite ztake_ge by lia. by rewrite <- !app_assoc.
    - rewrite (zlen_0_nil pad), app_nil_r; [done|]. rewrite Hpad. rewrite !zlen_app in *. lia. }
  rewrite Hp. unfold str_replace. rewrite !zlen_app, Hpad.
  replace (zslice _ _ _) with q.
  2:{ unfold zslice. rewrite zdrop_app_exact, ztake_app_exact by (rewrite ?zlen_app; lia). done. }
  rewrite (zdrop_ge (_ + _)), app_nil_r by (rewrite !zlen_app, Hpad; lia).
  rewrite (app_assoc (ztake e x)), ztake_zdrop. rewrite (app_assoc p x). f_equal.
  rewrite <- (app_assoc p h), ztake_app_ge by lia. unfold x. f_equal. rewrite <- (app_assoc h). f_equal. lia.
Qed.

End ReplaceSpec.

Section ReplaceCorrect.
Context {M : Type} `{MatcherLaws M} (m : M) (capacity : bytes -> Z) (r : bytes).

Hypothesis Hk : 0 < match_size m.

Lemma move_matches_ok n e p g h q :
  zlen h = match_size m -> (1 + matches m q) * (zlen r - match_size m) <= zlen g ->
  zlen (p ++ g ++ h ++ q) < 2 ^ 63 -> n = zlen (p ++ g ++ h ++ q) -> e = zlen g ->
  move_matches m (p ++ g ++ h ++ q) r (zlen p) n e = Ok (true, p ++ r ++ replaced m r q).
Proof.
  intros Hh Hg Hv -> ->. unfold move_matches. rewrite <- zlen_app.
  destruct (move_loop_ok m r Hk (S (S (length (p ++ g ++ h ++ q)))) p g h q) as (w & str & -> & Hs);
    [done | rewrite !length_app; lia | done | done |].
  rewrite bind_ret. by rewrite Hs.
Qed.

(** A string [a ++ l] with a first match [h] in [l]; [a] is before the offset. *)
Section Found.
Context (a l p h q : bytes).
Hypothesis (Hl : l = p ++ h ++ q) (Hh : zlen h = match_size m).
Hypothesis Hr : replaced m r l = p ++ r ++ replaced m r q.
Hypothesis Hm : matches m l = 1 + matches m q.
Hypothesis Hfind : matcher_find m (a ++ l) (zlen a) = zlen (a ++ p).
Hypothesis (Hv : zlen (a ++ l) < 2 ^ 63) (Hv' : zlen (a ++ replaced m r l) < 2 ^ 63).

Lemma found_source : a ++ l = (a ++ p) ++ h ++ q.
Proof. rewrite Hl. by rewrite <- !app_assoc. Qed.
Lemma found_result : a ++ replaced m r l = (a ++ p) ++ r ++ replaced m r q.
Proof. rewrite Hr. by rewrite <- !app_assoc. Qed.

Lemma grow_matches_ok :
  match_size m < zlen r -> grow_matches m capacity (a ++ l) r (zlen (a ++ p)) = Ok (true, a ++ replaced m r l).
Proof.
  intros Hlt. unfold grow_matches.
  rewrite <- Hfind, (count_loop_ok m r Hk) by (rewrite ?length_app; auto; lia). rewrite bind_ret, Hfind, Z.add_0_l.
  pose proof (matches_nonneg m r Hk q). pose proof (zlen_nonneg q). pose proof (zlen_nonneg (a ++ p)).
  set (e := matches m l * (zlen r - match_size m)). assert (0 <= e) by (unfold e; nia).
  assert (Hlen : zlen (a ++ l) + e < 2 ^ 63).
  { rewrite zlen_app, (zlen_replaced m r Hk) in Hv'. rewrite zlen_app. unfold e. lia. }
  pose proof (zlen_nonneg (a ++ l)). rewrite !u64_small by (rewrite ?u64_small; lia). split_match.
  - unfold str_reserve, kInt64Max. zdecide. rewrite bind_ret.
    destruct (append_loop_ok m r Hk (Z.to_nat (matches m l)) [] a l []) as (pos & out & Ha & Ho); [lia|lia|].
    cbn [app] in Ha, Ho. change (zlen (@nil byte)) with 0 in Ha. rewrite Hfind in Ha.
    by rewrite Ha, bind_ret, Ho.
  - destruct (open_gap (a ++ p) h q e (a ++ l) (zlen (a ++ p) + match_size m) (zlen (a ++ l)))
      as (g & h' & Hg & Hh' & Hgap); [done | apply found_source | by rewrite Hh | by rewrite found_source |].
    cbv zeta in Hgap. rewrite Hgap, found_result.
    assert (Hs : zlen ((a ++ p) ++ g ++ h' ++ q) = zlen (a ++ l) + e) by (rewrite found_source, !zlen_app; lia).
    apply move_matches_ok; [lia | rewrite Hg, <- Hm; done | lia | done | done].
Qed.

Lemma replace_found :
  do_replace_matches_after_offset m capacity (a ++ l) (zlen a) r REPLACE_ALL = Ok (true, a ++ replaced m r l).
Proof.
  unfold do_replace_matches_after_offset. rewrite Hfind. zdecide.
  pose proof (zlen_nonneg q). pose proof (matches_nonneg m r Hk q). pose proof (zlen_nonneg h).
  destruct (Z.eqb_spec (zlen (a ++ p)) npos) as [Hn|_].
  { rewrite found_source, !zlen_app in Hv. rewrite zlen_app in Hn. unfold npos in Hn. lia. }
  destruct (Z.eqb_spec (match_size m) (zlen r)) as [E|E].
  { rewrite <- Hfind, overwrite_loop_ok; [done | done | done | done | rewrite length_app; lia]. }
  destruct (Z.ltb_spec (match_size m) (zlen r)) as [Hlt|Hge]; [by apply grow_matches_ok|].
  rewrite found_source, found_result. apply (move_matches_ok _ _ (a ++ p) [] h q); try done.
  - change (zlen (@nil byte)) with 0. nia.
  - cbn [app]. by rewrite <- found_source.
Qed.

End Found.

Lemma replace_all_at a l :
  zlen (a ++ l) < 2 ^ 63 -> zlen (a ++ replaced m r l) < 2 ^ 63 ->
  do_replace_matches_after_offset m capacity (a ++ l) (zlen a) r REPLACE_ALL
  = Ok (negb (matches m l =? 0), a ++ replaced m r l).
Proof.
  intros Hv Hv'. pose proof (matcher_find_app m a l) as Hf.
  destruct (find_in_view m r Hk l) as [Hr Hm|p h q Hl Hh Hr Hm].
  - rewrite Hr, Hm. unfold do_replace_matches_after_offset. rewrite Hf. by zdecide.
  - pose proof (matches_nonneg m r Hk q). replace (matches m l =? 0) with false by (symmetry; apply Z.eqb_neq; lia).
    apply (replace_found a l p h q); try done. by rewrite Hf, zlen_app.
Qed.

Lemma replace_first_at a l :
  zlen (a ++ l) < 2 ^ 63 ->
  do_replace_matches_after_offset m capacity (a ++ l) (zlen a) r REPLACE_FIRST
  = Ok (negb (matches m l =? 0), a ++ replaced_once m r l).
Proof.
  intros Hv. unfold do_replace_matches_after_offset. zdecide.
  rewrite (matcher_find_app m), (replaced_once_find m r Hk). pose proof (find_in_spec m r Hk l) as Hs.
  destruct (find_in m l) as [i|]; [|by destruct Hs as [_ ->]].
  destruct Hs as (Hi & Hi' & _ & ->). pose proof (matches_nonneg m r Hk (zdrop (i + match_size m) l)).
  pose proof (zlen_nonneg a). rewrite zlen_app in Hv. unfold npos. zdecide. do 2 f_equal.
  unfold str_replace. rewrite zlen_app, ztake_app_ge, <- app_assoc by lia. do 2 f_equal; [f_equal; lia|].
  f_equal. rewrite zdrop_app_ge by lia. f_equal. lia.
Qed.

End ReplaceCorrect.

(** *** Character sets *)

Lemma replaced_chars s r l :
  replaced {| find_any_of_these := s |} r l
  = concat (map (fun c => if bool_decide (c ∈ s) then r else [c]) l).
Proof.
  unfold replaced. induction l as [|c l IH]; [done|]. cbn [replaced_from map concat hit match_size character_matcher].
  cbn [find_any_of_these]. change (Z.to_nat (1 - 1)) with 0%nat. rewrite IH. by case_bool_decide.
Qed.

Lemma removed_chars s l : replaced {| find_any_of_these := s |} [] l = filter (fun c => c ∉ s) l.
Proof.
  rewrite replaced_chars. induction l as [|c l IH]; [done|]. cbn [map concat]. rewrite IH.
  case_bool_decide; [by rewrite filter_cons_False by tauto | by rewrite filter_cons_True].
Qed.

(** *** Trimming *)

Section Trim.
Context (s : bytes).

Fixpoint trim_leading (l : bytes) : bytes :=
  match l with
  | [] => []
  | c :: l' => if bool_decide (c ∈ s) then trim_leading l' else l
  end.
Definition trim_trailing (l : bytes) : bytes := reverse (trim_leading (reverse l)).

Definition trimmed (positions : Z) (l : bytes) : bytes :=
  let l := if wants positions TRIM_LEADING then trim_leading l else l in
  if wants positions TRIM_TRAILING then trim_trailing l else l.

Lemma trim_leading_app p l : Forall (fun c => c ∈ s) p -> trim_leading (p ++ l) = trim_leading l.
Proof. induction 1; [done|]. simpl. by rewrite bool_decide_true. Qed.

Lemma trim_trailing_app p l : Forall (fun c => c ∈ s) p -> trim_trailing (l ++ p) = trim_trailing l.
Proof. intros H. unfold trim_trailing. by rewrite reverse_app, trim_leading_app by by apply Forall_reverse. Qed.

Lemma trim_leading_stop c l : c ∉ s -> trim_leading (c :: l) = c :: l.
Proof. intros H. simpl. by rewrite bool_decide_false. Qed.

Lemma trim_trailing_stop c l : c ∉ s -> trim_trailing (l ++ [c]) = l ++ [c].
Proof.
  intros H. unfold trim_trailing. rewrite reverse_app. cbn [reverse app rev_append].
  change (reverse [c] ++ reverse l) with (c :: reverse l).
  by rewrite trim_leading_stop, reverse_cons, reverse_involutive.
Qed.

Lemma in_set_prefix l i :
  (forall j, 0 <= j < i -> ~ char_at l (fun c => c ∉ s) j) -> Forall (fun c => c ∈ s) (ztake i l).
Proof.
  intros H. apply Forall_lookup. intros k c Hk. unfold ztake in Hk. apply lookup_take_Some in Hk as [Hk Hi].
  destruct (decide (c ∈ s)) as [?|Hn]; [done|]. destruct (H (Z.of_nat k)); [lia|]. exists c.
  split_and!; [lia | by rewrite Nat2Z.id | done].
Qed.

Lemma in_set_suffix l i :
  0 <= i -> (forall j, i <= j -> ~ char_at l (fun c => c ∉ s) j) -> Forall (fun c => c ∈ s) (zdrop i l).
Proof.
  intros Hi H. apply Forall_lookup. intros k c Hk. unfold zdrop in Hk. rewrite lookup_drop in Hk.
  destruct (decide (c ∈ s)) as [?|Hn]; [done|]. destruct (H (i + Z.of_nat k)); [lia|]. exists c.
  split_and!; [lia | | done]. rewrite <- Hk. f_equal. lia.
Qed.

(** What the two searches say of the reference. *)
Lemma trim_leading_find l i :
  first_from (char_at l (fun c => c ∉ s)) 0 i ->
  if decide (i = npos) then trim_leading l = []
  else 0 <= i < zlen l /\ trim_leading l = zdrop i l /\ exists c, l !! Z.to_nat i = Some c /\ c ∉ s.
Proof.
  intros [[-> Hall]|(Hi & Hn & (c & _ & Hc & Hs) & Hlt)].
  - destruct (decide _); [|done]. rewrite <- (app_nil_r l) at 1. rewrite trim_leading_app; [done|].
    rewrite <- (zdrop_0 l). by apply in_set_suffix.
  - destruct (decide _); [done|]. pose proof (lookup_lt_Some _ _ _ Hc). split_and!; [lia|unfold zlen; lia| |eauto].
    rewrite <- (ztake_zdrop i l) at 1. rewrite trim_leading_app by by apply in_set_prefix.
    unfold zdrop. rewrite (drop_S _ _ _ Hc). by apply trim_leading_stop.
Qed.

Lemma trim_trailing_find l i :
  zlen l < 2 ^ 63 -> last_to (char_at l (fun c => c ∉ s)) npos i ->
  if decide (i = npos) then trim_trailing l = []
  else 0 <= i < zlen l /\ trim_trailing l = ztake (i + 1) l /\ (exists c, l !! Z.to_nat i = Some c /\ c ∉ s).
Proof.
  intros Hv [[-> Hall]|(Hi & Hn & (c & H0 & Hc & Hs) & Hlt)].
  - destruct (decide _); [|done]. rewrite <- (app_nil_l l). rewrite trim_trailing_app; [done|].
    rewrite <- (zdrop_0 l). apply in_set_suffix; [done|]. intros j _ Hj. pose proof (char_at_range _ _ _ Hj).
    apply (Hall j); [unfold npos; lia|done].
  - destruct (decide _); [done|]. pose proof (lookup_lt_Some _ _ _ Hc) as Hlen. split_and!; [lia|unfold zlen; lia| |eauto].
    rewrite <- (ztake_zdrop (i + 1) l) at 1. rewrite trim_trailing_app.
    + unfold ztake. replace (Z.to_nat (i + 1)) with (S (Z.to_nat i)) by lia.
      rewrite (take_S_r _ _ _ Hc). by apply trim_trailing_stop.
    + apply in_set_suffix; [lia|]. intros j Hj Hat. pose proof (char_at_range _ _ _ Hat).
      apply (Hlt j); [unfold npos; lia|done].
Qed.

Lemma trim_leading_keep p l : trim_leading l <> [] -> trim_leading (l ++ p) = trim_leading l ++ p.
Proof. induction l as [|c l IH]; [done|]. simpl. case_bool_decide; [done|]. by intros _. Qed.

Lemma trim_trailing_keep p l : trim_trailing l <> [] -> trim_trailing (p ++ l) = p ++ trim_trailing l.
Proof.
  unfold trim_trailing. intros H. rewrite reverse_app, trim_leading_keep, reverse_app, reverse_involutive; [done|].
  intros E. apply H. by rewrite E.
Qed.

Lemma trim_leading_nil l : trim_leading l = [] -> Forall (fun c => c ∈ s) l.
Proof. induction l as [|c l IH]; [done|]. simpl. case_bool_decide; [auto|done]. Qed.

Lemma trim_trailing_nil l : trim_trailing l = [] -> Forall (fun c => c ∈ s) l.
Proof.
  unfold trim_trailing. intros H%(f_equal reverse). rewrite reverse_involutive in H.
  apply trim_leading_nil in H. by rewrite Forall_reverse in H.
Qed.

(** With a character to keep at [i], the first, and [j], the last. *)
Lemma trim_trailing_zdrop l i j c :
  0 <= i < zlen l -> 0 <= j < zlen l -> l !! Z.to_nat i = Some c -> c ∉ s ->
  trim_trailing l = ztake (j + 1) l ->
  i <= j /\ trim_trailing (zdrop i l) = zslice i (j + 1 - i) l.
Proof.
  intros Hi Hj Hc Hs Ht.
  assert (Hd : zdrop i l = c :: zdrop (i + 1) l).
  { unfold zdrop. rewrite (drop_S _ _ _ Hc). do 2 f_equal. lia. }
  assert (Hne : trim_trailing (zdrop i l) <> []).
  { intros E%trim_trailing_nil. rewrite Hd in E. apply Forall_cons in E. tauto. }
  pose proof (trim_trailing_keep (ztake i l) (zdrop i l) Hne) as Hk. rewrite ztake_zdrop, Ht in Hk.
  apply (f_equal zlen) in Hk as Hl. rewrite zlen_app, !zlen_ztake in Hl.
  assert (zlen (trim_trailing (zdrop i l)) <> 0) by (intros E%zlen_0_nil; done).
  pose proof (zlen_nonneg (trim_trailing (zdrop i l))). split; [lia|].
  apply (f_equal (zdrop i)) in Hk. rewrite zdrop_app_exact, zdrop_ztake in Hk by (rewrite ?zlen_ztake; lia). done.
Qed.

End Trim.

Lemma substr_in (l : bytes) b n : 0 <= b -> 0 <= n -> b + n <= zlen l < 2 ^ 63 -> substr l b (u64 n) = zslice b n l.
Proof. intros. unfold substr. rewrite !u64_small by (zdecide; lia). by zdecide. Qed.

Lemma substr_npos (l : bytes) n : zlen l < 2 ^ 63 -> substr l npos n = [].
Proof. intros H. unfold substr, npos. zdecide. unfold zslice. rewrite zdrop_ge by lia. unfold ztake. apply take_nil. Qed.

(** The two ends of what is kept. *)
Lemma trim_ends input s positions :
  zlen input < 2 ^ 63 ->
  let first := if wants positions TRIM_LEADING then find_first_not_of input s 0 else 0 in
  let last := if wants positions TRIM_TRAILING then find_last_not_of input s npos else u64 (zlen input - 1) in
  (first = npos \/ last = npos /\ first = 0 \/ input = []) /\ trimmed s positions input = [] \/
  (0 <= first <= last /\ last < zlen input /\
   trimmed s positions input = zslice first (last + 1 - first) input).
Proof.
  intros Hv first last. unfold trimmed. destruct (decide (input = [])) as [->|Hne].
  { left. split; [auto|]. by destruct (wants _ _), (wants _ _). }
  assert (Hlen : 0 < zlen input).
  { pose proof (zlen_nonneg input). destruct (decide (zlen input = 0)) as [E%zlen_0_nil|]; [done|lia]. }
  pose proof (trim_leading_find s input _ (find_first_not_of_spec input s 0 Hv ltac:(lia) (or_intror eq_refl))) as Hf.
  pose proof (trim_trailing_find s input _ Hv (find_last_not_of_spec input s npos Hv ltac:(done))) as Hl.
  subst first last. rewrite (u64_small (zlen input - 1)) by lia.
  assert (Htake : forall n, zslice 0 n input = ztake n input) by done.
  assert (Hdrop : forall n, 0 <= n <= zlen input -> zslice n (zlen input - n) input = zdrop n input).
  { intros n Hn. apply ztake_ge. rewrite zlen_zdrop. lia. }
  revert Hf Hl. generalize (find_first_not_of input s 0) as i, (find_last_not_of input s npos) as j. intros i j Hf Hl.
  destruct (wants positions TRIM_LEADING), (wants positions TRIM_TRAILING).
  - destruct (decide (i = npos)); [left; rewrite Hf; auto|]. destruct Hf as (Hi & -> & c & Hc & Hs).
    destruct (decide (j = npos)) as [|Hj]; [|destruct Hl as (Hj' & Ht & _)].
    + apply trim_trailing_nil in Hl. eapply Forall_lookup_1 in Hc; [|done]. done.
    + right. destruct (trim_trailing_zdrop s input i j c) as [Hij ->]; try done. split_and!; try lia; done.
  - destruct (decide (i = npos)); [left; rewrite Hf; auto|]. destruct Hf as (Hi & -> & _). right.
    split_and!; [lia | lia | lia |]. rewrite Z.sub_add. symmetry. apply Hdrop. lia.
  - destruct (decide (j = npos)); [left; rewrite Hl; tauto|]. destruct Hl as (Hj & -> & _). right.
    split_and!; [lia | lia | lia |]. rewrite Z.sub_0_r. by rewrite Htake.
  - right. split_and!; [lia | lia | lia |]. rewrite Z.sub_0_r, Htake. symmetry. apply ztake_ge. lia.
Qed.

Lemma trim_piece_ok input s positions :
  zlen input < 2 ^ 63 -> trim_string_piece_T input s positions = trimmed s positions input.
Proof.
  intros Hv. pose proof (trim_ends input s positions Hv) as H. cbv zeta in H. unfold trim_string_piece_T.
  set (i := if wants positions TRIM_LEADING then _ else 0) in *. pose proof (zlen_nonneg input).
  set (e := if wants positions TRIM_TRAILING then u64 _ else _).
  set (j := if wants positions TRIM_TRAILING then find_last_not_of input s npos else _) in *.
  assert (He : e = u64 (j + 1)).
  { unfold e, j. destruct (wants positions TRIM_TRAILING); [done|].
    unfold u64, uwrap. rewrite Zplus_mod_idemp_l, Z.sub_add. symmetry. apply Z.mod_small. lia. }
  destruct H as [[Hend ->]|(Hi & Hj & ->)].
  - destruct Hend as [->|[[Hj ->]| ->]]; [by apply substr_npos | |].
    { rewrite He, Hj. change (u64 (u64 (npos + 1) - 0)) with (u64 0). by rewrite substr_in by lia. }
    unfold substr, zslice, ztake, zdrop. by rewrite drop_nil, take_nil.
  - rewrite He, (u64_small (j + 1)) by lia. apply substr_in; lia.
Qed.

(** What the string version reports besides the trimmed string. *)
Definition trim_report (s : bytes) (positions : Z) (input : bytes) : Z :=
  if decide (input = []) then TRIM_NONE
  else if decide (trimmed s positions input = []) then positions
  else Z.lor (if decide (wants positions TRIM_LEADING = true /\ trim_leading s input <> input) then TRIM_LEADING else TRIM_NONE)
             (if decide (wants positions TRIM_TRAILING = true /\ trim_trailing s input <> input) then TRIM_TRAILING else TRIM_NONE).

Lemma trim_leading_find_eq input s :
  zlen input < 2 ^ 63 -> input <> [] ->
  find_first_not_of input s 0 = 0 <-> trim_leading s input = input.
Proof.
  intros Hv Hne.
  pose proof (trim_leading_find s input _ (find_first_not_of_spec input s 0 Hv ltac:(lia) (or_intror eq_refl))) as Hf.
  destruct (decide (find_first_not_of input s 0 = npos)) as [E|E].
  - rewrite E, Hf. split; [done|]. intros <-. done.
  - destruct Hf as (Hi & -> & _). split; [by intros ->|]. intros H%(f_equal zlen). rewrite zlen_zdrop in H. lia.
Qed.

Lemma trim_trailing_find_eq input s :
  zlen input < 2 ^ 63 -> input <> [] ->
  find_last_not_of input s npos = zlen input - 1 <-> trim_trailing s input = input.
Proof.
  intros Hv Hne. pose proof (zlen_nonneg input).
  pose proof (trim_trailing_find s input _ Hv (find_last_not_of_spec input s npos Hv ltac:(done))) as Hl.
  destruct (decide (find_last_not_of input s npos = npos)) as [E|E].
  - rewrite E, Hl. split; [unfold npos; lia|]. intros <-. done.
  - destruct Hl as (Hj & -> & _). split; [intros ->; apply ztake_ge; lia|].
    intros H1%(f_equal zlen). rewrite zlen_ztake in H1. lia.
Qed.

Lemma trim_string_ok input s positions :
  zlen input < 2 ^ 63 ->
  trim_string_T input s positions = (trim_report s positions input, trimmed s positions input).
Proof.
  intros Hv. pose proof (trim_ends input s positions Hv) as H. cbv zeta in H.
  unfold trim_string_T, trim_report. destruct (decide (input = [])) as [->|Hne].
  { change (zlen (@nil byte) =? 0) with true. cbn [orb]. unfold trimmed. by destruct (wants _ _), (wants _ _). }
  pose proof (zlen_nonneg input). assert (Hz : zlen input <> 0) by (intros E%zlen_0_nil; done).
  replace (zlen input =? 0) with false by (symmetry; by apply Z.eqb_neq). cbn [orb].
  destruct H as [[Hend Ht]|(Hi & Hj & Ht)].
  - rewrite Ht. destruct (decide _); [|done].
    destruct Hend as [->|[[-> _]|?]]; [|rewrite orb_comm|done]; by rewrite Z.eqb_refl.
  - set (i := if wants positions TRIM_LEADING then _ else 0) in *.
    set (j := if wants positions TRIM_TRAILING then _ else u64 _) in *.
    rewrite !(proj2 (Z.eqb_neq _ npos)) by (unfold npos; lia). cbn [orb].
    rewrite Ht. destruct (decide (zslice _ _ _ = [])) as [E%(f_equal zlen)|_].
    { rewrite zlen_zslice in E. change (zlen (@nil byte)) with 0 in E. lia. }
    f_equal; [|unfold substr; rewrite !u64_small by (zdecide; lia); zdecide; f_equal; lia].
    f_equal.
    + unfold i. destruct (wants positions TRIM_LEADING).
      * pose proof (trim_leading_find_eq input s Hv Hne). destruct (Z.eqb_spec (find_first_not_of input s 0) 0), (decide _); tauto.
      * rewrite Z.eqb_refl. by destruct (decide _) as [[? _]|].
    + rewrite (u64_small (zlen input - 1)) by lia. unfold j. destruct (wants positions TRIM_TRAILING).
      * pose proof (trim_trailing_find_eq input s Hv Hne).
        destruct (Z.eqb_spec (find_last_not_of input s npos) (zlen input - 1)), (decide _); tauto.
      * rewrite u64_small, Z.eqb_refl by lia. by destruct (decide _) as [[? _]|].
Qed.

(** *** Case *)

Lemma compare_case_insensitive_eq a b :
  compare_case_insensitive_T a b = 0 <-> to_lower_T a = to_lower_T b.
Proof.
  unfold to_lower_T. revert b. induction a as [|c a IH]; intros [|d b]; cbn [compare_case_insensitive_T map]; try done.
  assert (Hinj : b2sz (to_lower c) = b2sz (to_lower d) <-> to_lower c = to_lower d).
  { split; [|by intros ->]. apply b2sz_inj. }
  destruct (Z.ltb_spec (b2sz (to_lower c)) (b2sz (to_lower d))); [split; [done|]; intros [= E _]; rewrite E in *; lia|].
  destruct (Z.ltb_spec (b2sz (to_lower d)) (b2sz (to_lower c))); [split; [done|]; intros [= E _]; rewrite E in *; lia|].
  assert (E : to_lower c = to_lower d) by (apply Hinj; lia). rewrite IH, E. split; [by intros ->|by intros [=]].
Qed.

Lemma compare_case_insensitive_antisym a b :
  compare_case_insensitive_T b a = - compare_case_insensitive_T a b.
Proof.
  revert b. induction a as [|c a IH]; intros [|d b]; cbn [compare_case_insensitive_T]; try done.
  destruct (Z.ltb_spec (b2sz (to_lower c)) (b2sz (to_lower d))),
    (Z.ltb_spec (b2sz (to_lower d)) (b2sz (to_lower c))); [lia | done | done | apply IH].
Qed.

Lemma equals_case_insensitive_ok a b :
  equals_case_insensitive a b = true <-> to_lower_T a = to_lower_T b.
Proof.
  unfold equals_case_insensitive. rewrite <- compare_case_insensitive_eq.
  destruct (Z.eqb_spec (zlen a) (zlen b)) as [_|Hne]; cbn [negb]; [apply Z.eqb_eq|].
  split; [done|]. intros H%compare_case_insensitive_eq%(f_equal zlen).
  unfold to_lower_T, zlen in *. rewrite !length_map in H. lia.
Qed.

Lemma equal_by_map f (g : byte -> byte) a b :
  (forall c d, f c d = true <-> g c = g d) -> zlen a = zlen b ->
  equal_by f a b = true <-> map g a = map g b.
Proof.
  intros Hf. unfold zlen. revert b. induction a as [|c a IH]; intros [|d b] Hl; cbn [equal_by map length] in *; [done|lia|lia|].
  rewrite andb_true_iff, Hf, IH by lia. split; [intros [-> ->]; done | by intros [=]].
Qed.

(** Prefixes up to case. *)
Lemma starts_with_insensitive str x :
  zlen str < 2 ^ 63 ->
  starts_with_case str x INSENSITIVE = true <-> zlen x <= zlen str /\ to_lower_T (ztake (zlen x) str) = to_lower_T x.
Proof.
  intros Hv. unfold starts_with_case. pose proof (zlen_nonneg x). destruct (Z.ltb_spec (zlen str) (zlen x)); [split; [done|lia]|].
  rewrite <- (u64_small (zlen x)) at 1 by lia. rewrite substr_in by lia.
  change (zslice 0 (zlen x) str) with (ztake (zlen x) str). rewrite (equal_by_map _ to_lower); [unfold to_lower_T; split; [by intros ->|by intros [_ ->]] | |].
  - intros c d. apply bool_decide_eq_true.
  - rewrite zlen_ztake. lia.
Qed.

(** *** Copying *)

Lemma mem_read_app a c b : mem_read (zlen a) (a ++ c :: b) = Ok c.
Proof.
  unfold mem_read. rewrite defined_true, bind_ret.
  - f_equal. unfold zlen. rewrite Nat2Z.id. by rewrite nth_middle.
  - rewrite zlen_app, zlen_cons. pose proof (zlen_nonneg b). apply Z.ltb_lt. lia.
Qed.

Lemma lcpy_count_ok fuel a s b :
  Forall (fun c => c <> Byte.x00) s -> (length s < fuel)%nat ->
  lcpy_count fuel (zlen a) (a ++ s ++ Byte.x00 :: b) = Ok (zlen a + zlen s).
Proof.
  intros Hs. revert a fuel. induction Hs as [|c s Hc Hs IH]; intros a [|fuel] Hf; cbn [length] in Hf; try lia;
    cbn [lcpy_count app]; rewrite mem_read_app, bind_ret.
  - rewrite bool_decide_true by done. f_equal. change (zlen (@nil byte)) with 0. lia.
  - rewrite bool_decide_false by done.
    replace (zlen a + 1) with (zlen (a ++ [c])) by (rewrite zlen_app; done).
    replace (a ++ c :: s ++ Byte.x00 :: b) with ((a ++ [c]) ++ s ++ Byte.x00 :: b) by (by rewrite <- app_assoc).
    rewrite IH by lia. f_equal. rewrite zlen_app, !zlen_cons, zlen_nil. lia.
Qed.

Lemma memwrite_one a (c d : byte) x : memwrite (zlen a) [c] (a ++ d :: x) = a ++ c :: x.
Proof.
  unfold memwrite. rewrite ztake_app_exact by done. change (zlen [c]) with 1.
  rewrite zdrop_app_ge by lia. by replace (zlen a + 1 - zlen a) with 1 by lia.
Qed.

(** The copying loop from position [zlen a], both strings agreeing on [a]. *)
Lemma lcpy_loop_ok n a s b x y :
  Forall (fun c => c <> Byte.x00) s -> length x = n ->
  lcpy_loop n (zlen a) (a ++ s ++ Byte.x00 :: b) (a ++ x ++ y)
  = if zlen s <? Z.of_nat n
    then Ok (Some (zlen a + zlen s), a ++ s ++ [Byte.x00] ++ zdrop (zlen s + 1) x ++ y)
    else Ok (None, a ++ ztake (Z.of_nat n) s ++ y).
Proof.
  intros Hs. revert a n x. induction Hs as [|c s Hc Hs IH]; intros a n [|d x] <-; try done;
    cbn [length lcpy_loop app]; rewrite mem_read_app, bind_ret;
    (rewrite defined_true, bind_ret;
      [rewrite memwrite_one | rewrite zlen_app, zlen_cons; pose proof (zlen_nonneg (x ++ y)); apply Z.ltb_lt; lia]).
  - rewrite bool_decide_true by done. change (zlen (@nil byte)) with 0. zdecide. do 2 f_equal. f_equal. lia.
  - rewrite bool_decide_false by done.
    replace (zlen a + 1) with (zlen (a ++ [c])) by (rewrite zlen_app; done).
    replace (a ++ c :: s ++ Byte.x00 :: b) with ((a ++ [c]) ++ s ++ Byte.x00 :: b) by (by rewrite <- app_assoc).
    replace (a ++ c :: x ++ y) with ((a ++ [c]) ++ x ++ y) by (by rewrite <- app_assoc).
    rewrite IH by done. rewrite !zlen_app, !zlen_cons, zlen_nil. pose proof (zlen_nonneg s).
    replace (1 + zlen s <? Z.of_nat (S (length x))) with (zlen s <? Z.of_nat (length x))
      by (apply eq_true_iff_eq; rewrite !Z.ltb_lt; lia).
    split_match; rewrite <- !app_assoc; cbn [app]; unfold ztake, zdrop.
    + replace (Z.to_nat (1 + zlen s + 1)) with (S (Z.to_nat (zlen s + 1))) by lia. do 2 f_equal. f_equal. lia.
    + by replace (Z.to_nat (Z.of_nat (S (length x)))) with (S (Z.to_nat (Z.of_nat (length x)))) by lia.
Qed.

(** [strlcpy] returns the length of the source, copies as much as fits before
    a terminator and writes nothing else. *)
Lemma strlcpy_ok s b dst n :
  Forall (fun c => c <> Byte.x00) s -> 0 <= n <= zlen dst ->
  strlcpy dst (s ++ Byte.x00 :: b) n
  = Ok (zlen s, if n =? 0 then dst else memwrite 0 (ztake (n - 1) s ++ [Byte.x00]) dst).
Proof.
  intros Hs Hn. unfold strlcpy. pose proof (zlen_nonneg s).
  pose proof (lcpy_loop_ok (Z.to_nat n) [] s b (ztake n dst) (zdrop n dst) Hs) as Hl.
  cbn [app] in Hl. rewrite ztake_zdrop in Hl. change (zlen (@nil byte)) with 0 in Hl.
  rewrite Hl by (unfold ztake, zlen in *; rewrite length_take; lia). rewrite Z2Nat.id by lia.
  destruct (Z.ltb_spec (zlen s) n) as [Hlt|Hge]; rewrite bind_ret.
  - zdecide. rewrite Z.add_0_l. do 2 f_equal. unfold memwrite. rewrite ztake_0, (ztake_ge (n - 1)) by lia.
    cbn [app]. rewrite <- app_assoc. do 2 f_equal. cbn [app]. f_equal. rewrite zlen_app, Z.add_0_l. change (zlen [Byte.x00]) with 1.
    rewrite zdrop_ztake by lia. rewrite <- (ztake_zdrop (n - (zlen s + 1)) (zdrop (zlen s + 1) dst)) at 2.
    rewrite zdrop_zdrop by lia. do 2 f_equal. lia.
  - pose proof (lcpy_count_ok (S (length (s ++ Byte.x00 :: b))) (ztake n s) (zdrop n s) b) as Hc.
    rewrite (app_assoc (ztake n s)), ztake_zdrop in Hc.
    assert (Hnz : zlen (ztake n s) = n) by (rewrite zlen_ztake; lia). rewrite Hnz in Hc.
    rewrite Hc, bind_ret, zlen_zdrop; [| by apply Forall_drop | unfold zdrop; rewrite length_drop, length_app; lia].
    destruct (Z.eqb_spec n 0) as [->|Hn0]; cbn [negb]; [rewrite ztake_0, zdrop_0; cbn [app]; do 2 f_equal; lia|].
    do 2 f_equal; [lia|]. unfold memwrite. change (zlen [Byte.x00]) with 1.
    rewrite ztake_app_le, ztake_ztake, zdrop_app_ge, Hnz by lia. rewrite ztake_0, zlen_app, zlen_ztake. cbn [app].
    rewrite <- app_assoc. change (zlen [Byte.x00]) with 1.
    rewrite zdrop_zdrop by lia. f_equal; [f_equal; lia|]. cbn [app]. f_equal. f_equal. lia.
Qed.

(** ** Properties *)

(** C29. Replacement.  From [offset] on, [REPLACE_ALL] computes the left-to-right
    replacement of the non-overlapping matches and [REPLACE_FIRST] that of the first
    one, whichever of the four strategies the lengths and the capacity of the string
    select; what is before the offset stays, and the result tells whether there was a
    match.  No copy leaves the buffer and every loop ends. *)
Theorem replace_correct {M : Type} `{MatcherLaws M} (m : M) (capacity : bytes -> Z)
    (str : bytes) (offset : Z) (replace_with : bytes) :
  0 < match_size m -> 0 <= offset -> zlen str < 2 ^ 63 ->
  zlen (ztake offset str ++ replaced m replace_with (zdrop offset str)) < 2 ^ 63 ->
  let found := negb (matches m (zdrop offset str) =? 0) in
  do_replace_matches_after_offset m capacity str offset replace_with REPLACE_ALL
  = Ok (found, ztake offset str ++ replaced m replace_with (zdrop offset str)) /\
  do_replace_matches_after_offset m capacity str offset replace_with REPLACE_FIRST
  = Ok (found, ztake offset str ++ replaced_once m replace_with (zdrop offset str)).
Proof.
  intros Hk Ho Hv Hv' found. destruct (decide (zlen str < offset)) as [Hout|Hin].
  - unfold found. rewrite zdrop_ge, ztake_ge by lia. cbn [replaced_once]. rewrite (hit_nil m Hk).
    unfold do_replace_matches_after_offset, matcher_find. zdecide.
    rewrite !app_nil_r. done.
  - assert (Ha : zlen (ztake offset str) = offset) by (rewrite zlen_ztake; lia).
    pose proof (replace_all_at m capacity replace_with Hk (ztake offset str) (zdrop offset str)) as H1.
    pose proof (replace_first_at m capacity replace_with Hk (ztake offset str) (zdrop offset str)) as H2.
    rewrite ztake_zdrop, Ha in H1, H2. auto.
Qed.

Lemma replace_correct_witness :
  let m := {| find_this := txt "ab" |} in
  do_replace_matches_after_offset m (fun _ => 15) (txt "ab-abab") 1 (txt "xyz") REPLACE_ALL
  = Ok (true, txt "ab-xyzxyz") /\
  do_replace_matches_after_offset m (fun _ => 15) (txt "ab-abab") 1 (txt "xyz") REPLACE_FIRST
  = Ok (true, txt "ab-xyzab").
Proof.
  refine (replace_correct {| find_this := txt "ab" |} (fun _ => 15) (txt "ab-abab") 1 (txt "xyz") _ _ _ _);
    vm_compute; first [reflexivity | discriminate].
Defined.

(** Trimming.  Both versions return the input without the characters of the
    set at the requested ends and keep everything between; the string version also
    reports the ends it removed something from, or the requested ends when nothing
    is left of a string that was not empty. *)
Theorem trim_correct (input trim_chars : bytes) (positions : Z) :
  zlen input < 2 ^ 63 ->
  trim_string_T input trim_chars positions
  = (trim_report trim_chars positions input, trimmed trim_chars positions input) /\
  trim_string_piece_T input trim_chars positions = trimmed trim_chars positions input.
Proof. intros Hv. split; [by apply trim_string_ok | by apply trim_piece_ok]. Qed.

Lemma trim_correct_witness :
  trim_string_T (txt "  ab c ") (txt " ") TRIM_ALL = (TRIM_ALL, txt "ab c") /\
  trim_string_piece_T (txt "  ab c ") (txt " ") TRIM_ALL = txt "ab c".
Proof. refine (trim_correct (txt "  ab c ") (txt " ") TRIM_ALL _). vm_compute. reflexivity. Defined.
