(* ===== verification/StringSplit.v ===== *)
(** * StringSplit (include/strings/StringSplit.h, src/StringSplit.cc)

    Splitting on any of a set of characters, on a substring, and into key and value
    pairs.  The reference [fields] cuts a string at the matches of a [Matcher] of
    [StringUtil]; both loops of the source are shown to compute it, and joining is
    shown to be the inverse. *)

From S2P Require Import Prelude StringPiece StringUtil.

(** ** Definitions *)

Inductive WhitespaceHandling : Type := KEEP_WHITESPACE | TRIM_WHITESPACE.
Inductive SplitResult : Type := SPLIT_WANT_ALL | SPLIT_WANT_NONEMPTY.

Definition piece_to_output_type (piece : StringPiece) : bytes := copy_to_string piece [].

Definition whitespace_for_type : StringPiece := kWhitespace.

(** The template parameter [DelimiterType] and the overloads of [find_first_of]. *)
Inductive DelimiterType : Type := DelimiterChar (c : byte) | DelimiterPiece (one_of : StringPiece).

Definition find_first_of_T (piece : StringPiece) (delimiter : DelimiterType) (pos : Z) : Z :=
  match delimiter with
  | DelimiterChar c => find_char piece c pos
  | DelimiterPiece one_of => find_first_of piece one_of pos
  end.

(** The end of the body of both loops. *)
Definition push_piece (whitespace : WhitespaceHandling) (result_type : SplitResult)
    (piece : StringPiece) (result : list bytes) : list bytes :=
  let piece :=
    match whitespace with
    | TRIM_WHITESPACE => trim_string_piece_T piece whitespace_for_type TRIM_ALL
    | KEEP_WHITESPACE => piece
    end in
  match result_type with
  | SPLIT_WANT_ALL => result ++ [piece_to_output_type piece]
  | SPLIT_WANT_NONEMPTY =>
      if zlen piece =? 0 then result else result ++ [piece_to_output_type piece]
  end.

Fixpoint split_loop (fuel : nat) (str : StringPiece) (delimiter : DelimiterType)
    (whitespace : WhitespaceHandling) (result_type : SplitResult) (start : Z) (result : list bytes)
    : outcome (list bytes) :=
  match fuel with
  | O => Fault OutOfFuel
  | S fuel =>
      if start =? npos then Ok result
      else
        let end_ := find_first_of_T str delimiter start in
        let '(piece, start) :=
          if end_ =? npos then (substr str start npos, npos)
          else (substr str start (end_ - start), end_ + 1) in
        split_loop fuel str delimiter whitespace result_type start
          (push_piece whitespace result_type piece result)
  end.

Definition split_string_T (str : StringPiece) (delimiter : DelimiterType)
    (whitespace : WhitespaceHandling) (result_type : SplitResult) : outcome (list bytes) :=
  if zlen str =? 0 then Ok []
  else split_loop (S (S (length str))) str delimiter whitespace result_type 0 [].

Definition split_string (input separators : StringPiece) (whitespace : WhitespaceHandling)
    (result_type : SplitResult) : outcome (list bytes) :=
  if zlen separators =? 1 then
    c ← at_ separators 0; split_string_T input (DelimiterChar c) whitespace result_type
  else split_string_T input (DelimiterPiece separators) whitespace result_type.

(** [fuel] bounds the rounds: with an empty delimiter there is no last one. *)
Fixpoint split_substr_loop (fuel : nat) (input delimiter : StringPiece)
    (whitespace : WhitespaceHandling) (result_type : SplitResult) (begin_index : Z) (result : list bytes)
    : outcome (list bytes) :=
  match fuel with
  | O => Fault OutOfFuel
  | S fuel =>
      let end_index := find input delimiter begin_index in
      let term :=
        if end_index =? npos then substr input begin_index npos
        else substr input begin_index (end_index - begin_index) in
      let result := push_piece whitespace result_type term result in
      if end_index =? npos then Ok result
      else split_substr_loop fuel input delimiter whitespace result_type
             (u64 (end_index + zlen delimiter)) result
  end.

Definition split_string_using_substr (fuel : nat) (input delimiter : StringPiece)
    (whitespace : WhitespaceHandling) (result_type : SplitResult) : outcome (list bytes) :=
  split_substr_loop fuel input delimiter whitespace result_type 0 [].

(** The pair that is appended, and whether it is complete. *)
Definition append_string_key_value (input : StringPiece) (delimiter : byte)
    (result : list (bytes * bytes)) : bool * list (bytes * bytes) :=
  let end_key_pos := find_char input delimiter 0 in
  if end_key_pos =? npos then (false, result ++ [([], [])])
  else
    let key := copy_to_string (substr input 0 end_key_pos) [] in
    let remains := substr input end_key_pos (zlen input - end_key_pos) in
    let begin_value_pos := find_first_not_of_char remains delimiter 0 in
    if begin_value_pos =? npos then (false, result ++ [(key, [])])
    else
      (true, result ++ [(key,
        copy_to_string (substr remains begin_value_pos (zlen remains - begin_value_pos)) [])]).

Definition split_string_into_key_value_pairs (input : StringPiece)
    (key_value_delimiter key_value_pair_delimiter : byte) : outcome (bool * list (bytes * bytes)) :=
  pairs ← split_string input [key_value_pair_delimiter] TRIM_WHITESPACE SPLIT_WANT_NONEMPTY;
  Ok (foldl (fun '(success, key_value_pairs) pair =>
        let '(ok, key_value_pairs) := append_string_key_value pair key_value_delimiter key_value_pairs in
        (success && ok, key_value_pairs)) (true, []) pairs).

(** ** Specification *)

Section Fields.
Context {M : Type} `{MatcherLaws M} (m : M).

Definition cons_head (c : byte) (fs : list bytes) : list bytes :=
  match fs with [] => [[c]] | f :: fs => (c :: f) :: fs end.

(** The fields between the matches, [skip] characters still belonging to one. *)
Fixpoint fields_from (skip : nat) (l : bytes) : list bytes :=
  match l, skip with
  | [], _ => [[]]
  | _ :: l, S skip => fields_from skip l
  | c :: l', O =>
      if hit m l then [] :: fields_from (Z.to_nat (match_size m - 1)) l'
      else cons_head c (fields_from 0 l')
  end.
Definition fields : bytes -> list bytes := fields_from 0.

(** *** The search of the matcher *)

Definition match_pos (l : bytes) (i : Z) : Prop := 0 <= i <= zlen l /\ hit m (zdrop i l) = true.

Lemma find_in_first l :
  match find_in m l with
  | None => forall i, ~ match_pos l i
  | Some i => match_pos l i /\ forall j, j < i -> ~ match_pos l j
  end.
Proof.
  unfold match_pos. induction l as [|c l IH]; cbn [find_in].
  - destruct (hit m []) eqn:E; [split; [done | intros j Hj [? _]; lia]|].
    intros i [Hi Hh]. change (zlen (@nil byte)) with 0 in Hi. assert (i = 0) as -> by lia. by rewrite zdrop_0, E in Hh.
  - pose proof (zlen_nonneg l). destruct (hit m (c :: l)) eqn:E.
    { split; [rewrite zlen_cons; split; [lia|done] | intros j Hj [? _]; lia]. }
    assert (Hsh : forall i, 0 < i -> zdrop i (c :: l) = zdrop (i - 1) l).
    { intros i Hi. unfold zdrop. by replace (Z.to_nat i) with (S (Z.to_nat (i - 1))) by lia. }
    assert (Hno : forall i, 0 <= i <= zlen (c :: l) /\ hit m (zdrop i (c :: l)) = true ->
              0 <= i - 1 <= zlen l /\ hit m (zdrop (i - 1) l) = true).
    { rewrite zlen_cons. intros i [Hi Hh]. destruct (decide (i = 0)) as [->|]; [by rewrite zdrop_0, E in Hh|].
      rewrite Hsh in Hh by lia. split; [lia|done]. }
    destruct (find_in m l) as [i|]; cbn [fmap option_fmap option_map].
    + destruct IH as [[Hi Hh] Hlt]. rewrite zlen_cons, Hsh, Z.add_simpl_l by lia.
      split; [split; [lia|done]|]. intros j Hj [Hr Hp]. apply (Hlt (j - 1)); [lia|]. apply Hno. by rewrite zlen_cons.
    + intros i Hi. by apply (IH (i - 1)), Hno.
Qed.

Lemma matcher_find_first l pos :
  valid l -> 0 <= pos -> first_from (match_pos l) pos (matcher_find m l pos).
Proof.
  intros Hv Hp. unfold matcher_find, valid in *. destruct (Z.ltb_spec (zlen l) pos) as [Hlt|Hle].
  { left. split; [done|]. intros i Hi [? _]. lia. }
  assert (Hsh : forall i, pos <= i -> match_pos l i <-> match_pos (zdrop pos l) (i - pos)).
  { intros i Hi. unfold match_pos. rewrite zlen_zdrop, zdrop_zdrop by lia.
    replace (i - pos + pos) with i by lia. split; intros [? ?]; split; try done; lia. }
  pose proof (find_in_first (zdrop pos l)) as Hf. destruct (find_in m (zdrop pos l)) as [i|].
  - destruct Hf as [Hm Hlt]. pose proof Hm as [[Hi Hi'] _]. rewrite zlen_zdrop in Hi'. right.
    split_and!; [lia | unfold npos; lia | apply Hsh; [lia|]; by rewrite Z.add_simpl_l |].
    intros j Hj Hmj. apply Hsh in Hmj; [|lia]. apply (Hlt (j - pos)); [lia|done].
  - left. split; [done|]. intros i Hi. rewrite Hsh by done. apply Hf.
Qed.

End Fields.

Lemma first_from_unique P pos r r' : first_from P pos r -> first_from P pos r' -> r = r'.
Proof.
  intros [[-> H1]|(Hr & Hn & Hp & Hlt)] [[-> H1']|(Hr' & Hn' & Hp' & Hlt')]; [done| | |].
  - by destruct (H1 r').
  - by destruct (H1' r).
  - destruct (Z.lt_trichotomy r r') as [?|[?|?]]; [|done|].
    + destruct (Hlt' r); [lia|done].
    + destruct (Hlt r'); [lia|done].
Qed.

(** The searches of the pieces are those of the matchers. *)
Lemma find_matcher self s pos :
  valid self -> valid s -> 0 <= pos -> find self s pos = matcher_find {| find_this := s |} self pos.
Proof.
  intros Hv Hs Hp. eapply first_from_unique; [by apply find_spec|].
  eapply first_from_iff, matcher_find_first; [|done|done]. intros i. unfold match_pos. cbn [hit substring_matcher find_this].
  split; [intros [Hi ?]; by apply occurs_at_starts |].
  intros Ho. pose proof Ho as (Hi & Hi' & _). pose proof (zlen_nonneg s). split; [lia|]. apply occurs_at_starts; [lia|done].
Qed.

Lemma find_first_of_matcher self s pos :
  valid self -> 0 <= pos -> find_first_of self s pos = matcher_find {| find_any_of_these := s |} self pos.
Proof.
  intros Hv Hp. eapply first_from_unique; [by apply find_first_of_spec|].
  eapply first_from_iff, matcher_find_first; [|done|done]. intros i. unfold match_pos, char_at.
  cbn [hit character_matcher find_any_of_these]. split.
  - intros [Hi Hh]. unfold zdrop in Hh. destruct (drop (Z.to_nat i) self) as [|c l] eqn:E; [done|].
    exists c. split_and!; [lia | | by apply bool_decide_eq_true in Hh].
    rewrite <- (Nat.add_0_r (Z.to_nat i)), <- lookup_drop, E. done.
  - intros (c & Hi & Hc & Hin). pose proof (lookup_lt_Some _ _ _ Hc). split; [unfold zlen; lia|].
    unfold zdrop. rewrite (drop_S _ _ _ Hc). by apply bool_decide_eq_true.
Qed.

Lemma find_char_matcher self c pos :
  valid self -> 0 <= pos -> find_char self c pos = matcher_find {| find_any_of_these := [c] |} self pos.
Proof.
  intros Hv Hp. rewrite <- find_first_of_matcher by done. unfold find_first_of. change (zlen [c]) with 1. cbn [Z.eqb Pos.eqb].
  destruct (Z.eqb_spec (zlen self) 0) as [E|E]; [|done]. cbn [orb].
  unfold find_char. by zdecide.
Qed.

(** *** Fields *)

Section FieldsLemmas.
Context {M : Type} `{MatcherLaws M} (m : M).
Hypothesis Hk : 0 < match_size m.

Lemma fields_skip n l : fields_from m n l = fields m (drop n l).
Proof. revert n. induction l as [|c l IH]; intros [|n]; simpl; auto. Qed.

Lemma fields_at p h q :
  zlen h = match_size m -> find_in m (p ++ h ++ q) = Some (zlen p) -> fields m (p ++ h ++ q) = p :: fields m q.
Proof.
  intros Hh. induction p as [|c p IH]; cbn [app]; intros Hf.
  - pose proof (find_in_first m (h ++ q)) as Hv. rewrite Hf in Hv. destruct Hv as [[_ Hv] _].
    change (zlen (@nil byte)) with 0 in Hv. rewrite zdrop_0 in Hv.
    destruct h as [|c h]; [change (zlen (@nil byte)) with 0 in Hh; lia|]. unfold fields. cbn [app fields_from] in *.
    rewrite Hv, fields_skip. do 2 f_equal. rewrite zlen_cons in Hh. unfold zlen in Hh.
    rewrite <- (drop_app_length h q) at 2. f_equal. lia.
  - cbn [find_in] in Hf. rewrite zlen_cons in Hf. pose proof (zlen_nonneg p).
    destruct (hit m (c :: p ++ h ++ q)) eqn:E; [injection Hf; lia|].
    destruct (find_in m (p ++ h ++ q)) as [i|] eqn:Ef; [|done]. injection Hf as Hi. assert (i = zlen p) as -> by lia.
    unfold fields. cbn [fields_from]. rewrite E. unfold fields in IH. by rewrite IH.
Qed.

Lemma fields_none l : find_in m l = None -> fields m l = [l].
Proof.
  induction l as [|c l IH]; cbn [find_in]; [done|]. destruct (hit m (c :: l)) eqn:E; [done|].
  destruct (find_in m l); [done|]. intros _. unfold fields in *. cbn [fields_from]. by rewrite E, IH.
Qed.

(** A string from its first match on. *)
Inductive first_field (l : bytes) : option Z -> Prop :=
| last_field : fields m l = [l] -> first_field l None
| field_at p h q :
    l = p ++ h ++ q -> zlen h = match_size m -> fields m l = p :: fields m q ->
    first_field l (Some (zlen p)).

Lemma fields_view l : first_field l (find_in m l).
Proof.
  destruct (find_in m l) as [i|] eqn:E; [|by apply last_field, fields_none].
  pose proof (find_in_view m [] Hk l) as V. rewrite E in V. inversion V as [|p h q Hl Hh _ _]. subst i.
  apply (field_at l p h q); [done|done|]. rewrite Hl. apply fields_at; [done|]. by rewrite <- Hl, E.
Qed.

End FieldsLemmas.

(** *** The pieces that are kept *)

Definition cooked (whitespace : WhitespaceHandling) (f : bytes) : bytes :=
  match whitespace with KEEP_WHITESPACE => f | TRIM_WHITESPACE => trimmed kWhitespace TRIM_ALL f end.
Definition wanted (result_type : SplitResult) (f : bytes) : bool :=
  match result_type with SPLIT_WANT_ALL => true | SPLIT_WANT_NONEMPTY => negb (bool_decide (f = [])) end.
Definition collected (whitespace : WhitespaceHandling) (result_type : SplitResult) (fs : list bytes) : list bytes :=
  filter (fun f => wanted result_type f = true) (map (cooked whitespace) fs).

Lemma push_piece_ok ws rt f res :
  zlen f < 2 ^ 63 -> push_piece ws rt f res = res ++ collected ws rt [f].
Proof.
  intros Hv. unfold push_piece, collected. cbn [map].
  set (g := match ws with KEEP_WHITESPACE => f | TRIM_WHITESPACE => _ end).
  assert (Hg : g = cooked ws f) by (unfold g, cooked; destruct ws; [done | by apply trim_piece_ok]).
  assert (Ho : piece_to_output_type g = g).
  { unfold piece_to_output_type, copy_to_string. destruct (Z.eqb_spec (zlen g) 0) as [E%zlen_0_nil|]; [by rewrite E|done]. }
  rewrite Ho, <- Hg. clearbody g. destruct rt; [done|]. destruct (Z.eqb_spec (zlen g) 0) as [E%zlen_0_nil|E].
  - rewrite E. by rewrite app_nil_r.
  - rewrite filter_cons_True; [done|]. cbn [wanted]. rewrite bool_decide_false; [done|]. by intros ->.
Qed.

Lemma collected_cons ws rt f fs : collected ws rt (f :: fs) = collected ws rt [f] ++ collected ws rt fs.
Proof. unfold collected. change (f :: fs) with ([f] ++ fs). by rewrite map_app, filter_app. Qed.

(** The rest of a string, and its part up to a match. *)
Lemma substr_rest (a l : bytes) : zlen (a ++ l) < 2 ^ 63 -> substr (a ++ l) (zlen a) npos = l.
Proof.
  intros Hv. rewrite zlen_app in Hv. pose proof (zlen_nonneg a). pose proof (zlen_nonneg l).
  unfold substr, npos. rewrite zlen_app. zdecide. rewrite !u64_small by lia. zdecide.
  unfold zslice. rewrite zdrop_app_exact by done. apply ztake_ge. lia.
Qed.

Lemma substr_field (a p l : bytes) n :
  zlen (a ++ p ++ l) < 2 ^ 63 -> n = zlen p -> substr (a ++ p ++ l) (zlen a) n = p.
Proof.
  intros Hv ->. pose proof (zlen_nonneg a). pose proof (zlen_nonneg l). pose proof (zlen_nonneg p).
  rewrite !zlen_app in Hv. rewrite <- (u64_small (zlen p)), substr_in by (rewrite ?zlen_app; lia).
  unfold zslice. by rewrite zdrop_app_exact, ztake_app_exact.
Qed.

(** *** The loops *)

(** The delimiters as a set of characters. *)
Definition delimiter_set (d : DelimiterType) : bytes :=
  match d with DelimiterChar c => [c] | DelimiterPiece s => s end.

Lemma find_first_of_T_matcher str d pos :
  valid str -> 0 <= pos ->
  find_first_of_T str d pos = matcher_find {| find_any_of_these := delimiter_set d |} str pos.
Proof. destruct d; [apply find_char_matcher | apply find_first_of_matcher]. Qed.

Lemma split_loop_ok fuel a l d ws rt res :
  zlen (a ++ l) < 2 ^ 63 -> (length l + 1 < fuel)%nat ->
  split_loop fuel (a ++ l) d ws rt (zlen a) res
  = Ok (res ++ collected ws rt (fields {| find_any_of_these := delimiter_set d |} l)).
Proof.
  revert a l res. induction fuel as [|fuel IH]; intros a l res Hv Hf; [lia|]. cbn [split_loop].
  set (m := {| find_any_of_these := delimiter_set d |}). pose proof (zlen_nonneg a). pose proof (zlen_nonneg l).
  rewrite find_first_of_T_matcher, matcher_find_app by done. fold m.
  pose proof Hv as Hv'. rewrite zlen_app in Hv'.
  destruct (Z.eqb_spec (zlen a) npos) as [Hn|_]; [unfold npos in Hn; lia|].
  destruct (fields_view m ltac:(done) l) as [->|p h q Hl Hh ->].
  - rewrite Z.eqb_refl, substr_rest, push_piece_ok by (done || lia). destruct fuel as [|fuel]; [lia|]. done.
  - rewrite Hl in Hv' |- *. rewrite !zlen_app in Hv'. change (match_size m) with 1 in Hh.
    pose proof (zlen_nonneg p). pose proof (zlen_nonneg q).
    destruct (Z.eqb_spec (zlen a + zlen p) npos) as [Hn|_]; [unfold npos in Hn; lia|].
    cbv beta iota. rewrite substr_field, push_piece_ok by (rewrite ?zlen_app; lia).
    replace (zlen a + zlen p + 1) with (zlen (a ++ p ++ h)) by (rewrite !zlen_app; lia).
    replace (a ++ p ++ h ++ q) with ((a ++ p ++ h) ++ q) by (by rewrite <- !app_assoc).
    rewrite IH, (collected_cons ws rt p (fields m q)); [by rewrite <- app_assoc | rewrite !zlen_app; lia |].
    rewrite Hl, !length_app in Hf. unfold zlen in Hh. lia.
Qed.

Lemma split_substr_loop_ok fuel a l s ws rt res :
  zlen (a ++ l) < 2 ^ 63 -> 0 < zlen s < 2 ^ 63 -> (length l < fuel)%nat ->
  split_substr_loop fuel (a ++ l) s ws rt (zlen a) res
  = Ok (res ++ collected ws rt (fields {| find_this := s |} l)).
Proof.
  intros Hv Hs. revert a l res Hv. induction fuel as [|fuel IH]; intros a l res Hv Hf; [lia|]. cbn [split_substr_loop].
  set (m := {| find_this := s |}). pose proof (zlen_nonneg a). pose proof (zlen_nonneg l).
  rewrite find_matcher, matcher_find_app by (unfold valid; (done || lia)). fold m.
  pose proof Hv as Hv'. rewrite zlen_app in Hv'.
  assert (Hk : 0 < match_size m) by exact (proj1 Hs). destruct (fields_view m Hk l) as [->|p h q Hl Hh ->].
  - by rewrite Z.eqb_refl, substr_rest, push_piece_ok by (done || lia).
  - rewrite Hl in Hv' |- *. rewrite !zlen_app in Hv'. change (match_size m) with (zlen s) in Hh.
    pose proof (zlen_nonneg p). pose proof (zlen_nonneg q).
    destruct (Z.eqb_spec (zlen a + zlen p) npos) as [Hn|_]; [unfold npos in Hn; lia|].
    rewrite substr_field, push_piece_ok, u64_small by (rewrite ?zlen_app; lia).
    replace (zlen a + zlen p + zlen s) with (zlen (a ++ p ++ h)) by (rewrite !zlen_app; lia).
    replace (a ++ p ++ h ++ q) with ((a ++ p ++ h) ++ q) by (by rewrite <- !app_assoc).
    rewrite IH, (collected_cons ws rt p (fields m q)); [by rewrite <- app_assoc | rewrite !zlen_app; lia |].
    rewrite Hl, !length_app in Hf. unfold zlen in Hh, Hs. lia.
Qed.

(** With an empty delimiter [find] stops where it starts and the loop never ends. *)
Lemma split_substr_empty fuel input ws rt : split_string_using_substr fuel input [] ws rt = Fault OutOfFuel.
Proof.
  unfold split_string_using_substr. generalize (@nil bytes) as res. induction fuel as [|fuel IH]; intros res; [done|].
  cbn [split_substr_loop]. assert (Hf : find input [] 0 = 0).
  { unfold find. pose proof (zlen_nonneg input). zdecide. rewrite zdrop_0.
    replace (std_search input []) with 0 by (by destruct input). change (u64 (0 + 0 + zlen (@nil byte))) with 0. by zdecide. }
  rewrite Hf. apply IH.
Qed.

(** *** Joining *)

Fixpoint joined (sep : bytes) (parts : list bytes) : bytes :=
  match parts with
  | [] => []
  | [part] => part
  | part :: parts => part ++ sep ++ joined sep parts
  end.

Lemma join_string_joined parts sep : join_string_T parts sep = joined sep parts.
Proof.
  destruct parts as [|part parts]; [done|]. cbn [join_string_T]. rewrite append_to_string_app. cbn [app].
  revert part. induction parts as [|p parts IH]; intros part; cbn [foldl joined]; [done|].
  rewrite !append_to_string_app, IH. destruct parts; cbn [joined]; by rewrite <- !app_assoc.
Qed.

Lemma joined_cons sep p parts : parts <> [] -> joined sep (p :: parts) = p ++ sep ++ joined sep parts.
Proof. by destruct parts. Qed.

Lemma fields_nonempty {M} `{MatcherLaws M} (m : M) l : fields m l <> [].
Proof.
  unfold fields. generalize 0%nat as n. induction l as [|c l IH]; intros [|n]; cbn [fields_from]; try done.
  destruct (hit m (c :: l)); [done|]. specialize (IH 0%nat). by destruct (fields_from m 0 l).
Qed.

(** Every match of [m] is the string [sep]. *)
Lemma joined_fields {M} `{MatcherLaws M} (m : M) sep l :
  0 < match_size m -> (forall k, hit m k = true -> ztake (match_size m) k = sep) ->
  joined sep (fields m l) = l.
Proof.
  intros Hk Hsep.
  induction l as [l IH] using (well_founded_induction (Wf_nat.well_founded_ltof _ (@length byte))).
  pose proof (find_in_first m l) as Hf. destruct (fields_view m Hk l) as [->|p h q Hl Hh ->]; [done|].
  rewrite joined_cons, IH by (apply fields_nonempty || (unfold Wf_nat.ltof; rewrite Hl, !length_app; unfold zlen in Hh; lia)).
  destruct Hf as [[_ Hit] _]. rewrite Hl in Hit |- *. rewrite zdrop_app_exact in Hit by done.
  apply Hsep in Hit. rewrite ztake_app_exact in Hit by done. by rewrite Hit.
Qed.

(** Fields without the separator are found again. *)
Lemma fields_part c p :
  c ∉ p -> fields {| find_any_of_these := [c] |} p = [p] /\
  forall l, fields {| find_any_of_these := [c] |} (p ++ c :: l) = p :: fields {| find_any_of_these := [c] |} l.
Proof.
  set (m := {| find_any_of_these := [c] |}).
  assert (Hhit : forall d l, hit m (d :: l) = bool_decide (d = c)).
  { intros d l. cbn. apply bool_decide_ext. apply list_elem_of_singleton. }
  unfold fields. induction p as [|d p IH]; intros Hp; cbn [app fields_from].
  - split; [done|]. intros l. by rewrite Hhit, bool_decide_true.
  - apply not_elem_of_cons in Hp as [Hd Hp]. destruct (IH Hp) as [H1 H2]. rewrite Hhit, bool_decide_false by done.
    split; [by rewrite H1|]. intros l. rewrite Hhit, bool_decide_false by done. by rewrite H2.
Qed.

Lemma fields_joined c parts :
  parts <> [] -> Forall (fun p => c ∉ p) parts ->
  fields {| find_any_of_these := [c] |} (joined [c] parts) = parts.
Proof.
  intros Hne Hall. induction Hall as [|p parts Hp Hall IH]; [done|].
  destruct (fields_part c p Hp) as [H1 H2]. destruct parts as [|p' parts]; [done|].
  rewrite joined_cons by done. cbn [app]. by rewrite H2, IH.
Qed.

Lemma collected_all fs : collected KEEP_WHITESPACE SPLIT_WANT_ALL fs = fs.
Proof. induction fs as [|f fs IH]; [done|]. rewrite collected_cons, IH. done. Qed.

Lemma split_string_ok input separators ws rt :
  zlen input < 2 ^ 63 ->
  split_string input separators ws rt
  = Ok (if zlen input =? 0 then [] else collected ws rt (fields {| find_any_of_these := separators |} input)).
Proof.
  intros Hv. assert (HT : forall d, split_string_T input d ws rt
    = Ok (if zlen input =? 0 then [] else collected ws rt (fields {| find_any_of_these := delimiter_set d |} input))).
  { intros d. unfold split_string_T. destruct (zlen input =? 0); [done|].
    pose proof (split_loop_ok (S (S (length input))) [] input d ws rt []) as H. cbn [app] in H. apply H; [done|lia]. }
  unfold split_string. destruct (Z.eqb_spec (zlen separators) 1) as [[c ->]%zlen_1_inv|_]; [|apply HT].
  exact (HT (DelimiterChar c)).
Qed.

(** A pair keeps its key up to the first delimiter, and the value loses every delimiter
    in front of it: an empty key is accepted. *)
Example empty_key_accepted :
  split_string_into_key_value_pairs (txt "=v; k==w;x") (z2b 61) (z2b 59)
  = Ok (false, [([], txt "v"); (txt "k", txt "w"); ([], [])]) /\
  split_string_into_key_value_pairs (txt "=v") (z2b 61) (z2b 59) = Ok (true, [([], txt "v")]).
Proof. split; reflexivity. Qed.

(** ** Properties *)

(** C31. Splitting.  [split_string] returns the fields between the separator characters,
    and [split_string_using_substr] with a delimiter that is not empty those between its
    occurrences found from left to right, trimmed and without the empty ones as requested;
    both end on every input, but for the second one with an empty delimiter, which never ends.  An
    empty string has no field for the first and one for the second. *)
Theorem split_correct (input separators delimiter : bytes) (whitespace : WhitespaceHandling) (result_type : SplitResult) :
  zlen input < 2 ^ 63 -> zlen delimiter < 2 ^ 63 ->
  split_string input separators whitespace result_type
  = Ok (if zlen input =? 0 then []
        else collected whitespace result_type (fields {| find_any_of_these := separators |} input)) /\
  forall fuel, (length input < fuel)%nat ->
  split_string_using_substr fuel input delimiter whitespace result_type
  = if decide (delimiter = []) then Fault OutOfFuel
    else Ok (collected whitespace result_type (fields {| find_this := delimiter |} input)).
Proof.
  intros Hv Hd. split; [by apply split_string_ok|]. intros fuel Hf.
  destruct (decide (delimiter = [])) as [->|Hne]; [apply split_substr_empty|].
  assert (0 < zlen delimiter) by (pose proof (zlen_nonneg delimiter); assert (zlen delimiter <> 0) by (by intros ?%zlen_0_nil); lia).
  by apply (split_substr_loop_ok fuel [] input delimiter whitespace result_type []).
Qed.

Lemma split_correct_witness :
  split_string (txt "12, 345;;67") (txt ",;") TRIM_WHITESPACE SPLIT_WANT_NONEMPTY
  = Ok [txt "12"; txt "345"; txt "67"] /\
  forall fuel, (length (txt "12, 345;;67") < fuel)%nat ->
  split_string_using_substr fuel (txt "12, 345;;67") (txt ";;") TRIM_WHITESPACE SPLIT_WANT_NONEMPTY
  = Ok [txt "12, 345"; txt "67"].
Proof.
  refine (split_correct (txt "12, 345;;67") (txt ",;") (txt ";;") TRIM_WHITESPACE SPLIT_WANT_NONEMPTY _ _);
    reflexivity.
Defined.

(** Joining undoes splitting and splitting undoes joining.  The fields of a string
    joined with the separator character, or with the delimiter that split it, are the
    string; and parts that do not contain the character come back from their join, unless
    the join is empty. *)
Theorem split_join_roundtrip (input delimiter : bytes) (c : byte) (parts : list bytes) :
  zlen input < 2 ^ 63 -> 0 < zlen delimiter < 2 ^ 63 ->
  zlen (join_string_T parts [c]) < 2 ^ 63 -> Forall (fun p => c ∉ p) parts -> join_string_T parts [c] <> [] ->
  (exists fs, split_string input [c] KEEP_WHITESPACE SPLIT_WANT_ALL = Ok fs /\ join_string_T fs [c] = input) /\
  (exists fs, split_string_using_substr (S (length input)) input delimiter KEEP_WHITESPACE SPLIT_WANT_ALL = Ok fs /\
              join_string_T fs delimiter = input) /\
  split_string (join_string_T parts [c]) [c] KEEP_WHITESPACE SPLIT_WANT_ALL = Ok parts.
Proof.
  rewrite join_string_joined. intros Hv Hd Hj Hparts Hne. split_and!.
  - eexists. split; [by apply split_string_ok|]. rewrite collected_all, join_string_joined.
    destruct (Z.eqb_spec (zlen input) 0) as [E%zlen_0_nil|]; [by rewrite E|]. apply joined_fields; [done|].
    intros [|d k] Hit; [done|]. cbn in Hit. apply bool_decide_eq_true, list_elem_of_singleton in Hit as ->. done.
  - eexists. split; [apply (split_substr_loop_ok _ [] input delimiter _ _ []); [done|done|lia]|].
    cbn [app]. rewrite collected_all, join_string_joined. apply joined_fields; [cbn; lia|].
    intros k Hit. cbn in Hit. apply starts_zslice in Hit as [_ ?]. done.
  - rewrite split_string_ok, collected_all by done.
    destruct (Z.eqb_spec (zlen (joined [c] parts)) 0) as [E%zlen_0_nil|]; [done|].
    rewrite fields_joined; [done| |done]. by intros ->.
Qed.

Lemma split_join_roundtrip_witness :
  (exists fs, split_string (txt "a,,b") (txt ",") KEEP_WHITESPACE SPLIT_WANT_ALL = Ok fs /\
              join_string_T fs (txt ",") = txt "a,,b") /\
  (exists fs, split_string_using_substr 5 (txt "a,,b") (txt ",,") KEEP_WHITESPACE SPLIT_WANT_ALL = Ok fs /\
              join_string_T fs (txt ",,") = txt "a,,b") /\
  split_string (join_string_T [txt "x"; []; txt "y"] (txt ",")) (txt ",") KEEP_WHITESPACE SPLIT_WANT_ALL
  = Ok [txt "x"; []; txt "y"].
Proof.
  refine (split_join_roundtrip (txt "a,,b") (txt ",,") (z2b 44) [txt "x"; []; txt "y"] _ _ _ _ _);
    [reflexivity | split; reflexivity | reflexivity | | discriminate].
  apply (bool_decide_unpack _). vm_compute. exact I.
Defined.
