(* ===== verification/Sync.v ===== *)
(** * Monitors (include/synchronization/)

    [MutexLock] with the ownership checks of the debug build, [BlockingQueue] with both
    of its traits, and [CountDownLatch].  Threads are the program counters of the
    calls they are in.  A step of a thread is one critical section: it takes the mutex,
    which is free between steps because no section keeps it, and runs until it
    returns or waits on a condition variable.  Waiting releases the mutex; a waiting
    thread is woken by [signal], which picks any of the threads that wait, by
    [broadcast], or spuriously, and then starts its section again.

    The file shows that the queues are first-in first-out whatever the interleaving, that
    no wakeup is lost, and that a latch opens exactly when it was counted down to
    zero. *)

From S2P Require Import Prelude.

(** ** MutexLock *)

Abbreviation tid := nat (only parsing).

Record MutexLock : Type := { owning_thread_ : option tid }.

Definition unowned : MutexLock := {| owning_thread_ := None |}.

Definition assert_acquired (t : tid) (l : MutexLock) : outcome unit :=
  check (bool_decide (owning_thread_ l = Some t)) "assert_acquired".
Definition check_held_and_unmark (t : tid) (l : MutexLock) : outcome MutexLock :=
  check (bool_decide (owning_thread_ l = Some t)) "check_held_and_unmark";; Ok unowned.
Definition check_unheld_and_mark (t : tid) (l : MutexLock) : outcome MutexLock :=
  check (bool_decide (owning_thread_ l = None)) "check_unheld_and_mark";;
  Ok {| owning_thread_ := Some t |}.

(** [lock] returns once the mutex is free; the caller must not hold it. *)
Definition lock (t : tid) (l : MutexLock) : outcome MutexLock := check_unheld_and_mark t l.
Definition unlock (t : tid) (l : MutexLock) : outcome MutexLock := check_held_and_unmark t l.

(** The destructor of [AutoLock]. *)
Definition auto_unlock (t : tid) (l : MutexLock) : outcome MutexLock :=
  assert_acquired t l;; unlock t l.

Definition held (t : tid) : MutexLock := {| owning_thread_ := Some t |}.

Lemma lock_unowned t : lock t unowned = Ok (held t).
Proof. done. Qed.
Lemma assert_held t : assert_acquired t (held t) = Ok tt.
Proof. unfold assert_acquired. by rewrite bool_decide_true. Qed.
Lemma unmark_held t : check_held_and_unmark t (held t) = Ok unowned.
Proof. unfold check_held_and_unmark. by rewrite bool_decide_true. Qed.
Lemma auto_unlock_held t : auto_unlock t (held t) = Ok unowned.
Proof. unfold auto_unlock, unlock. by rewrite assert_held, bind_ret, unmark_held. Qed.

(** ** Threads

    The threads of a system, by number; [count p] of them are at a program counter
    that satisfies [p]. *)

Section Count.
Context {P : Type} (p : P -> bool).

Definition count (ts : list P) : nat := length (filter (fun x => p x = true) ts).

Lemma count_insert ts i x y :
  ts !! i = Some x -> (count (<[i := y]> ts) + (if p x then 1 else 0) = count ts + (if p y then 1 else 0))%nat.
Proof.
  revert i. unfold count. induction ts as [|z ts IH]; intros [|i] Hx; simplify_eq/=.
  - destruct (p x) eqn:Ex, (p y) eqn:Ey; rewrite ?(filter_cons_True _ x), ?(filter_cons_False _ x),
      ?(filter_cons_True _ y), ?(filter_cons_False _ y) by congruence; simpl; lia.
  - specialize (IH i Hx). destruct (p z) eqn:Ez.
    + rewrite !(filter_cons_True _ z) by done. simpl. lia.
    + rewrite !(filter_cons_False _ z) by congruence. lia.
Qed.

Lemma count_0 ts : count ts = 0%nat <-> forall i x, ts !! i = Some x -> p x = false.
Proof.
  unfold count. split.
  - intros H i x Hx. destruct (p x) eqn:E; [|done]. apply length_zero_iff_nil in H.
    assert (x ∈ filter (fun x => p x = true) ts) as Hin
      by (apply list_elem_of_filter; split; [done | by eapply list_elem_of_lookup_2]).
    rewrite H in Hin. by apply not_elem_of_nil in Hin.
  - induction ts as [|z ts IH]; intros H; [done|].
    rewrite filter_cons_False by (rewrite (H 0%nat z eq_refl); done). apply IH. intros i. exact (H (S i)).
Qed.

Lemma count_pos ts i x : ts !! i = Some x -> p x = true -> (0 < count ts)%nat.
Proof.
  intros Hx Hp. destruct (count ts) eqn:E; [|lia]. rewrite count_0 in E. specialize (E i x Hx). congruence.
Qed.

Lemma count_le ts : (count ts <= length ts)%nat.
Proof. unfold count. apply length_filter. Qed.

Lemma count_app ts us : count (ts ++ us) = (count ts + count us)%nat.
Proof. unfold count. by rewrite filter_app, length_app. Qed.

Lemma count_full ts : (forall i x, ts !! i = Some x -> p x = true) -> count ts = length ts.
Proof.
  unfold count. induction ts as [|z ts IH]; intros H; [done|].
  rewrite filter_cons_True by exact (H 0%nat z eq_refl). cbn [length]. f_equal. apply IH. intros i. exact (H (S i)).
Qed.

Lemma count_all ts i x : count ts = length ts -> ts !! i = Some x -> p x = true.
Proof.
  unfold count. revert i. induction ts as [|z ts IH]; intros i Hc Hx; [done|].
  destruct (p z) eqn:Ez.
  - rewrite filter_cons_True in Hc by done. destruct i; simplify_eq/=; [done|]. eauto.
  - rewrite filter_cons_False in Hc by congruence. pose proof (length_filter (fun x => p x = true) ts). simpl in Hc. lia.
Qed.

End Count.

(** ** BlockingQueue *)

Module BlockingQueue.

(** The data of a trait; [max_size_] is the limit of [BoundedBlockingTrait], and [None] for
    [UnBoundedBlockingTrait], whose [push] never waits. *)
Record Trait (A : Type) : Type := mkTrait {
  lock_ : MutexLock;
  queue_ : list A;
  max_size_ : option Z;
}.
Arguments mkTrait {A} _ _ _.
Arguments lock_ {A} _.
Arguments queue_ {A} _.
Arguments max_size_ {A} _.

Section Operations.
Context {A : Type}.
Implicit Types q : Trait A.

(** [std::deque<T>::max_size()]. *)
Variable deque_max_size : Z.

Definition with_lock (l : MutexLock) q : Trait A := mkTrait l (queue_ q) (max_size_ q).
Definition with_queue (d : list A) q : Trait A := mkTrait (lock_ q) d (max_size_ q).

Definition size_with_locked (t : tid) q : outcome Z :=
  assert_acquired t (lock_ q);; Ok (zlen (queue_ q)).
Definition empty_with_locked (t : tid) q : outcome bool :=
  assert_acquired t (lock_ q);; Ok (zlen (queue_ q) =? 0).
Definition full_with_locked (t : tid) q : outcome bool :=
  assert_acquired t (lock_ q);; Ok (default deque_max_size (max_size_ q) <=? zlen (queue_ q)).
Definition capacity_with_locked (t : tid) q : outcome Z :=
  assert_acquired t (lock_ q);; Ok (u64 (default deque_max_size (max_size_ q) - zlen (queue_ q))).

(** A section that returns a value, between the constructor and the destructor of [AutoLock]. *)
Definition locked {R} (t : tid) (body : Trait A -> outcome (R * Trait A)) q : outcome (R * Trait A) :=
  l ← lock t (lock_ q);
  '(r, q) ← body (with_lock l q);
  l ← auto_unlock t (lock_ q);
  Ok (r, with_lock l q).

Definition size (t : tid) q : outcome (Z * Trait A) :=
  locked t (fun q => r ← size_with_locked t q; Ok (r, q)) q.
Definition empty (t : tid) q : outcome (bool * Trait A) :=
  locked t (fun q => r ← empty_with_locked t q; Ok (r, q)) q.
Definition full (t : tid) q : outcome (bool * Trait A) :=
  locked t (fun q => r ← full_with_locked t q; Ok (r, q)) q.
Definition capacity (t : tid) q : outcome (Z * Trait A) :=
  locked t (fun q => r ← capacity_with_locked t q; Ok (r, q)) q.

(** How a section of [push] or [pop] ends: it waits on the condition variable of its loop,
    or it returns and has signalled the other one. *)
Inductive section_end : Type :=
| Waits
| Returns (r : option A).

(** [wait] gives the mutex back. *)
Definition wait (t : tid) q : outcome (section_end * Trait A) :=
  l ← check_held_and_unmark t (lock_ q); Ok (Waits, with_lock l q).
Definition return_ (t : tid) (r : option A) q : outcome (section_end * Trait A) :=
  l ← auto_unlock t (lock_ q); Ok (Returns r, with_lock l q).

Definition push (t : tid) (x : A) q : outcome (section_end * Trait A) :=
  l ← lock t (lock_ q);
  let q := with_lock l q in
  match max_size_ q with
  | None => return_ t None (with_queue (queue_ q ++ [x]) q)
  | Some _ =>
      full ← full_with_locked t q;
      if (full : bool) then wait t q
      else
        full ← full_with_locked t q;
        check (negb full) "push";;
        return_ t None (with_queue (queue_ q ++ [x]) q)
  end.

Definition pop (t : tid) q : outcome (section_end * Trait A) :=
  l ← lock t (lock_ q);
  let q := with_lock l q in
  empty ← empty_with_locked t q;
  if (empty : bool) then wait t q
  else
    empty ← empty_with_locked t q;
    check (negb empty) "pop";;
    match queue_ q with
    | [] => Fault (Undefined "front")
    | front :: rest => return_ t (Some front) (with_queue rest q)
    end.

(** *** Threads *)

Inductive pc : Type :=
| Idle
| Pushing (x : A)      (** in [push], before the section or woken *)
| PushWaiting (x : A)  (** in [full_cv_.wait()] *)
| Popping              (** in [pop], before the section or woken *)
| PopWaiting.          (** in [empty_cv_.wait()] *)

Definition is_pushing (c : pc) : bool := match c with Pushing _ => true | _ => false end.
Definition is_popping (c : pc) : bool := match c with Popping => true | _ => false end.
Definition waits_to_push (c : pc) : bool := match c with PushWaiting _ => true | _ => false end.
Definition waits_to_pop (c : pc) : bool := match c with PopWaiting => true | _ => false end.

Record system : Type := mkSystem { data : Trait A; threads : list pc }.

Inductive event : Type := Pushed (x : A) | Popped (x : A).

(** Waking a thread that waits. *)
Definition wake (c : pc) : pc :=
  match c with PushWaiting x => Pushing x | PopWaiting => Popping | c => c end.

(** [signal] wakes one of the threads that wait, and is lost if there is none. *)
Inductive signal (waits : pc -> bool) (ts : list pc) : list pc -> Prop :=
| signal_lost : count waits ts = 0%nat -> signal waits ts ts
| signal_wakes i c : ts !! i = Some c -> waits c = true -> signal waits ts (<[i := wake c]> ts).

(** One step of the system and what it commits: a call, a section, a spurious wakeup. *)
Inductive step : system -> list event -> system -> Prop :=
| step_call q ts t c :
    ts !! t = Some Idle -> is_pushing c || is_popping c = true ->
    step (mkSystem q ts) [] (mkSystem q (<[t := c]> ts))
| step_push_waits q ts t x q' :
    ts !! t = Some (Pushing x) -> push t x q = Ok (Waits, q') ->
    step (mkSystem q ts) [] (mkSystem q' (<[t := PushWaiting x]> ts))
| step_push_returns q ts t x q' ts' :
    ts !! t = Some (Pushing x) -> push t x q = Ok (Returns None, q') ->
    signal waits_to_pop (<[t := Idle]> ts) ts' ->
    step (mkSystem q ts) [Pushed x] (mkSystem q' ts')
| step_pop_waits q ts t q' :
    ts !! t = Some Popping -> pop t q = Ok (Waits, q') ->
    step (mkSystem q ts) [] (mkSystem q' (<[t := PopWaiting]> ts))
| step_pop_returns q ts t x q' ts' :
    ts !! t = Some Popping -> pop t q = Ok (Returns (Some x), q') ->
    match max_size_ q with Some _ => signal waits_to_push (<[t := Idle]> ts) ts' | None => ts' = <[t := Idle]> ts end ->
    step (mkSystem q ts) [Popped x] (mkSystem q' ts')
| step_spurious q ts t c :
    ts !! t = Some c -> waits_to_push c || waits_to_pop c = true ->
    step (mkSystem q ts) [] (mkSystem q (<[t := wake c]> ts)).

Inductive steps : system -> list event -> system -> Prop :=
| steps_nil s : steps s [] s
| steps_snoc s tr s' e s'' : steps s tr s' -> step s' e s'' -> steps s (tr ++ e) s''.

Definition initial (max_size : option Z) (n : nat) : system :=
  mkSystem (mkTrait unowned [] max_size) (replicate n Idle).

(** *** Lemmas *)

Definition pushes (tr : list event) : list A := omap (fun e => match e with Pushed x => Some x | Popped _ => None end) tr.
Definition pops (tr : list event) : list A := omap (fun e => match e with Popped x => Some x | Pushed _ => None end) tr.

Definition is_full q : bool := match max_size_ q with Some n => n <=? zlen (queue_ q) | None => false end.

Lemma push_section t x q :
  lock_ q = unowned ->
  push t x q = Ok (if is_full q then (Waits, q) else (Returns None, with_queue (queue_ q ++ [x]) q)).
Proof.
  destruct q as [l d mx]. cbn [lock_]. intros ->. unfold push, is_full, return_, wait, full_with_locked.
  cbn [lock_ with_lock]. rewrite lock_unowned, bind_ret. cbn [lock_ with_lock max_size_ queue_].
  destruct mx as [n|]; cbn [lock_ with_queue max_size_ queue_ default].
  - rewrite assert_held, !bind_ret. change (id n) with n. destruct (n <=? zlen d); [by rewrite unmark_held|].
    cbn [negb check]. rewrite bind_ret. change (lock_ _) with (held t). by rewrite auto_unlock_held.
  - by rewrite auto_unlock_held.
Qed.

Lemma pop_section t q :
  lock_ q = unowned ->
  pop t q = Ok (match queue_ q with [] => (Waits, q) | x :: d => (Returns (Some x), with_queue d q) end).
Proof.
  destruct q as [l d mx]. cbn [lock_ queue_]. intros ->. unfold pop, return_, wait, empty_with_locked.
  cbn [lock_]. rewrite lock_unowned, bind_ret. cbn [lock_ with_lock queue_]. rewrite assert_held, !bind_ret.
  destruct d as [|x d]; [cbn; by rewrite unmark_held|].
  rewrite zlen_cons. pose proof (zlen_nonneg d). zdecide. cbn [negb check]. rewrite bind_ret.
  change (lock_ _) with (held t). by rewrite auto_unlock_held.
Qed.

(** What the other threads see of a signal. *)
Lemma signal_counts waits ts ts' (p : pc -> bool) :
  signal waits ts ts' ->
  (count waits ts = 0%nat /\ ts' = ts) \/
  exists i c, ts !! i = Some c /\ waits c = true /\ ts' = <[i := wake c]> ts /\
    (count p ts' + (if p c then 1 else 0) = count p ts + (if p (wake c) then 1 else 0))%nat.
Proof.
  intros [H|i c Hi Hw]; [by left|]. right. exists i, c. split_and!; try done. by apply count_insert.
Qed.

(** Nobody waits while there is something left that no thread was woken for: in terms of
    the length of the queue and of the threads that wait or are about to run. *)
Definition balanced (mx : option Z) (len wpop rpop wpush rpush : nat) : Prop :=
  ((0 < wpop)%nat -> (len <= rpop)%nat) /\
  match mx with
  | None => wpush = 0%nat
  | Some n => Z.of_nat len <= Z.max 0 n /\ ((0 < wpush)%nat -> n <= Z.of_nat len + Z.of_nat rpush)
  end.

Definition inv (s : system) : Prop :=
  lock_ (data s) = unowned /\
  balanced (max_size_ (data s)) (length (queue_ (data s)))
    (count waits_to_pop (threads s)) (count is_popping (threads s))
    (count waits_to_push (threads s)) (count is_pushing (threads s)).

Definition bit (b : bool) : nat := if b then 1%nat else 0%nat.

(** All the counts after one thread queue_moved. *)
Lemma queue_moved ts t c c' :
  ts !! t = Some c ->
  (count waits_to_pop (<[t := c']> ts) + bit (waits_to_pop c) = count waits_to_pop ts + bit (waits_to_pop c'))%nat /\
  (count is_popping (<[t := c']> ts) + bit (is_popping c) = count is_popping ts + bit (is_popping c'))%nat /\
  (count waits_to_push (<[t := c']> ts) + bit (waits_to_push c) = count waits_to_push ts + bit (waits_to_push c'))%nat /\
  (count is_pushing (<[t := c']> ts) + bit (is_pushing c) = count is_pushing ts + bit (is_pushing c'))%nat.
Proof. intros H. split_and!; by apply count_insert. Qed.

Lemma wake_popper c : waits_to_pop c = true -> c = PopWaiting.
Proof. by destruct c. Qed.
Lemma wake_pusher c : waits_to_push c = true -> exists x, c = PushWaiting x.
Proof. destruct c; try done. eauto. Qed.

(** The counts after a signal. *)
Lemma signalled_poppers ts ts' :
  signal waits_to_pop ts ts' ->
  (count waits_to_pop ts = 0 /\ ts' = ts \/
   count waits_to_pop ts' + 1 = count waits_to_pop ts /\ count is_popping ts' = count is_popping ts + 1 /\
   count waits_to_push ts' = count waits_to_push ts /\ count is_pushing ts' = count is_pushing ts)%nat.
Proof.
  intros [H|i c Hi Hw]; [by left|]. right. apply wake_popper in Hw as ->.
  pose proof (queue_moved ts i _ (wake PopWaiting) Hi) as E. cbn [bit wake waits_to_pop is_popping waits_to_push is_pushing] in *. lia.
Qed.

Lemma signalled_pushers ts ts' :
  signal waits_to_push ts ts' ->
  (count waits_to_push ts = 0 /\ ts' = ts \/
   count waits_to_push ts' + 1 = count waits_to_push ts /\ count is_pushing ts' = count is_pushing ts + 1 /\
   count waits_to_pop ts' = count waits_to_pop ts /\ count is_popping ts' = count is_popping ts)%nat.
Proof.
  intros [H|i c Hi Hw]; [by left|]. right. apply wake_pusher in Hw as [x ->].
  pose proof (queue_moved ts i _ (wake (PushWaiting x)) Hi) as E. cbn [bit wake waits_to_pop is_popping waits_to_push is_pushing] in *. lia.
Qed.

Ltac by_counts := unfold balanced in *; cbn [bit wake waits_to_pop is_popping waits_to_push is_pushing orb] in *; lia.

Lemma queue_step_inv s e s' : inv s -> step s e s' -> inv s'.
Proof.
  intros [Hf Hb] Hst.
  destruct Hst as [[l d mx] ts t c Ht Hc|[l d mx] ts t x q' Ht Hp|[l d mx] ts t x q' ts' Ht Hp Hsig
                  |[l d mx] ts t q' Ht Hp|[l d mx] ts t x q' ts' Ht Hp Hsig|[l d mx] ts t c Ht Hc];
    unfold inv; cbn [data threads lock_ queue_ max_size_] in *; subst l.
  - pose proof (queue_moved ts t _ c Ht). split; [done|]. destruct mx, c; try done; by_counts.
  - rewrite push_section in Hp by done. destruct (is_full _) eqn:E in Hp; simplify_eq/=.
    split; [done|]. pose proof (queue_moved ts t _ (PushWaiting x) Ht). unfold is_full in E. cbn in E.
    destruct mx as [n|]; [|done]. apply Z.leb_le in E. unfold zlen in E. by_counts.
  - rewrite push_section in Hp by done. destruct (is_full _) eqn:E in Hp; simplify_eq/=.
    split; [done|]. pose proof (queue_moved ts t _ Idle Ht). unfold is_full in E. cbn in E. rewrite length_app. cbn [length].
    apply signalled_poppers in Hsig. destruct mx as [n|]; [apply Z.leb_gt in E; unfold zlen in E|];
      destruct Hsig as [[Hs ->]|Hs]; by_counts.
  - rewrite pop_section in Hp by done. cbn in Hp. destruct d; simplify_eq/=.
    split; [done|]. pose proof (queue_moved ts t _ PopWaiting Ht). destruct mx; by_counts.
  - rewrite pop_section in Hp by done. cbn in Hp. destruct d as [|y d]; simplify_eq/=.
    split; [done|]. pose proof (queue_moved ts t _ Idle Ht). destruct mx as [n|]; [|subst ts'; by_counts].
    apply signalled_pushers in Hsig. destruct Hsig as [[Hs ->]|Hs]; by_counts.
  - pose proof (queue_moved ts t _ (wake c) Ht). split; [done|]. destruct mx, c; try done; by_counts.
Qed.

Lemma count_idle (p : pc -> bool) n : p Idle = false -> count p (replicate n Idle) = 0%nat.
Proof.
  intros Hp. apply count_0. intros i x Hx. apply lookup_replicate in Hx as [-> _]. done.
Qed.

Lemma queue_initial_inv mx n : inv (initial mx n).
Proof.
  split; [done|]. unfold initial, balanced. cbn [data threads queue_ max_size_ length].
  rewrite !count_idle by done. destruct mx; lia.
Qed.

Lemma queue_steps_inv s tr s' : inv s -> steps s tr s' -> inv s'.
Proof. intros Hi. induction 1; [done|]. eauto using queue_step_inv. Qed.

Lemma step_max s e s' : inv s -> step s e s' -> max_size_ (data s') = max_size_ (data s).
Proof.
  intros [Hf _] Hst. destruct Hst as [| | | | |]; cbn [data] in *; try done;
    match goal with H : push _ _ _ = _ |- _ => rewrite push_section in H by done; destruct (is_full q)
                  | H : pop _ _ = _ |- _ => rewrite pop_section in H by done; destruct (queue_ q) end; by simplify_eq/=.
Qed.

(** What a step commits is what it does to the contents. *)
Lemma step_fifo s e s' :
  inv s -> step s e s' -> queue_ (data s) ++ pushes e = pops e ++ queue_ (data s').
Proof.
  intros [Hf _] Hst. destruct Hst as [| | | | |]; cbn [data] in *; rewrite ?app_nil_r; try done;
    match goal with H : push _ _ _ = _ |- _ => rewrite push_section in H by done; destruct (is_full q)
                  | H : pop _ _ = _ |- _ => rewrite pop_section in H by done; destruct (queue_ q) eqn:? end; by simplify_eq/=.
Qed.

Lemma steps_fifo s tr s' :
  inv s -> steps s tr s' -> queue_ (data s) ++ pushes tr = pops tr ++ queue_ (data s') /\
  max_size_ (data s') = max_size_ (data s).
Proof.
  intros Hi Hs. induction Hs as [s|s tr s' e s'' Hs IH Hst]; [by rewrite app_nil_r|].
  destruct (IH Hi) as [Hq Hm]. pose proof (queue_steps_inv _ _ _ Hi Hs) as Hi'.
  split; [|rewrite <- Hm; eauto using step_max]. unfold pushes, pops. rewrite !omap_app. fold (pushes tr) (pops tr) (pushes e) (pops e).
  rewrite app_assoc, Hq, <- !app_assoc. f_equal. by apply step_fifo.
Qed.

Lemma queue_signal_exists waits ts : exists ts', signal waits ts ts'.
Proof.
  destruct (decide (count waits ts = 0%nat)) as [H|H]; [eauto using signal|].
  destruct (decide (Exists (fun c => waits c = true) ts)) as [He|He].
  - apply Exists_exists in He as (c & [i Hi]%list_elem_of_lookup_1 & Hc). eauto using signal.
  - destruct H. apply count_0. intros i c Hi. destruct (waits c) eqn:E; [|done]. destruct He.
    apply Exists_exists. exists c. split; [by eapply list_elem_of_lookup_2|done].
Qed.

(** A thread inside a call that does not wait can run its section. *)
Lemma ready_steps s t c :
  inv s -> threads s !! t = Some c -> is_pushing c || is_popping c = true -> exists e s', step s e s'.
Proof.
  destruct s as [q ts]. intros [Hf _] Ht Hc. cbn [data threads] in *. destruct c as [|x| | |]; try done.
  - pose proof (push_section t x q Hf) as Hp. destruct (is_full q); [eauto using step|].
    destruct (queue_signal_exists waits_to_pop (<[t := Idle]> ts)) as [ts' ?]. eauto using step.
  - pose proof (pop_section t q Hf) as Hp. destruct (queue_ q) as [|x d]; [eauto using step|].
    destruct (max_size_ q) eqn:E.
    + destruct (queue_signal_exists waits_to_push (<[t := Idle]> ts)) as [ts' ?].
      eexists _, _. eapply step_pop_returns; [done|done|by rewrite E].
    + eexists _, _. eapply step_pop_returns; [done|done|by rewrite E].
Qed.

End Operations.

(** One thread fills a queue of one element and the other waits. *)
Example full_queue_waits :
  steps 100 (initial (Some 1) 2) [Pushed 7] (mkSystem (mkTrait unowned [7] (Some 1)) [Idle; PushWaiting 8]).
Proof.
  apply (steps_snoc 100 _ [Pushed 7] (mkSystem (mkTrait unowned [7] (Some 1)) [Idle; Pushing 8]) []).
  2: apply (step_push_waits 100 (mkTrait unowned [7] (Some 1)) [Idle; Pushing 8] 1 8); reflexivity.
  apply (steps_snoc 100 _ [Pushed 7] (mkSystem (mkTrait unowned [7] (Some 1)) [Idle; Idle]) []).
  2: apply (step_call 100 (mkTrait unowned [7] (Some 1)) [Idle; Idle] 1 (Pushing 8)); reflexivity.
  apply (steps_snoc 100 _ [] (mkSystem (mkTrait unowned [] (Some 1)) [Pushing 7; Idle]) [Pushed 7]).
  2: apply (step_push_returns 100 (mkTrait unowned [] (Some 1)) [Pushing 7; Idle] 0 7); [reflexivity..|];
     apply signal_lost; reflexivity.
  apply (steps_snoc 100 _ [] (initial (Some 1) 2) []); [constructor|].
  apply (step_call 100 (mkTrait unowned [] (Some 1)) [Idle; Idle] 0 (Pushing 7)); reflexivity.
Qed.

End BlockingQueue.

(** ** CountDownLatch *)

Module CountDownLatch.

Record Latch : Type := mkLatch { lock_ : MutexLock; count_ : Z }.

Definition with_lock (l : MutexLock) (c : Latch) : Latch := mkLatch l (count_ c).

Definition make (count : Z) : outcome Latch :=
  check (0 <? count) "CountDownLatch";; Ok (mkLatch unowned count).

Definition get_count (t : tid) (c : Latch) : outcome (Z * Latch) :=
  l ← lock t (lock_ c);
  l ← auto_unlock t l;
  Ok (count_ c, with_lock l c).

(** The result is whether the section called [broadcast]. *)
Definition count_down (t : tid) (c : Latch) : outcome (bool * Latch) :=
  l ← lock t (lock_ c);
  defined (kInt32Min <? count_ c) "--count_";;
  let count := count_ c - 1 in
  l ← auto_unlock t l;
  Ok (count =? 0, mkLatch l count).

(** The section of both versions of [wait]: the result is whether it returns.  The loop
    tests the count again after a timeout as after any other wakeup. *)
Definition wait (t : tid) (c : Latch) : outcome (bool * Latch) :=
  l ← lock t (lock_ c);
  if 0 <? count_ c then l ← check_held_and_unmark t l; Ok (false, with_lock l c)
  else l ← auto_unlock t l; Ok (true, with_lock l c).

(** *** Threads *)

Inductive pc : Type :=
| Idle
| CountingDown
| Waiting (timed : bool)  (** in [wait], before the section or woken *)
| Blocked (timed : bool). (** in [cv_.wait()] or [cv_.timed_wait()] *)

Definition is_blocked (c : pc) : bool := match c with Blocked _ => true | _ => false end.
Definition wake (c : pc) : pc := match c with Blocked timed => Waiting timed | c => c end.

Record system : Type := mkSystem { latch : Latch; threads : list pc }.

Inductive event : Type := CountedDown | Returned (t : tid).

(** [broadcast] wakes every thread that waits; a timeout and a spurious wakeup wake one. *)
Inductive step : system -> list event -> system -> Prop :=
| step_call c ts t p :
    ts !! t = Some Idle -> is_blocked p = false -> step (mkSystem c ts) [] (mkSystem c (<[t := p]> ts))
| step_count_down c ts t broadcast c' :
    ts !! t = Some CountingDown -> count_down t c = Ok (broadcast, c') ->
    step (mkSystem c ts) [CountedDown]
      (mkSystem c' (if (broadcast : bool) then map wake (<[t := Idle]> ts) else <[t := Idle]> ts))
| step_wait_blocks c ts t timed c' :
    ts !! t = Some (Waiting timed) -> wait t c = Ok (false, c') ->
    step (mkSystem c ts) [] (mkSystem c' (<[t := Blocked timed]> ts))
| step_wait_returns c ts t timed c' :
    ts !! t = Some (Waiting timed) -> wait t c = Ok (true, c') ->
    step (mkSystem c ts) [Returned t] (mkSystem c' (<[t := Idle]> ts))
| step_wakeup c ts t timed :
    ts !! t = Some (Blocked timed) -> step (mkSystem c ts) [] (mkSystem c (<[t := Waiting timed]> ts)).

Inductive steps : system -> list event -> system -> Prop :=
| steps_nil s : steps s [] s
| steps_snoc s tr s' e s'' : steps s tr s' -> step s' e s'' -> steps s (tr ++ e) s''.

#[global] Instance event_eq_dec : EqDecision event.
Proof. solve_decision. Defined.

Definition downs (tr : list event) : Z := zlen (filter (fun e => e = CountedDown) tr).

(** *** Lemmas *)

Lemma wait_section t c :
  lock_ c = unowned -> wait t c = Ok (negb (0 <? count_ c), c).
Proof.
  destruct c as [l n]. cbn [lock_ count_]. intros ->. unfold wait. rewrite lock_unowned, bind_ret. cbn [count_].
  destruct (0 <? n); [by rewrite unmark_held | by rewrite auto_unlock_held].
Qed.

Lemma count_down_section t c b c' :
  lock_ c = unowned -> count_down t c = Ok (b, c') ->
  b = (count_ c - 1 =? 0) /\ c' = mkLatch unowned (count_ c - 1).
Proof.
  destruct c as [l n]. cbn [lock_ count_]. intros ->. unfold count_down. rewrite lock_unowned, bind_ret. cbn [count_].
  unfold defined. destruct (kInt32Min <? n); [|done]. by rewrite bind_ret, auto_unlock_held, bind_ret; intros [= <- <-].
Qed.

(** Nobody is blocked once the count is zero. *)
Definition inv (n : Z) (tr : list event) (s : system) : Prop :=
  lock_ (latch s) = unowned /\ count_ (latch s) = n - downs tr /\
  (forall t timed, threads s !! t = Some (Blocked timed) -> 0 < count_ (latch s)) /\
  (forall t, Returned t ∈ tr -> n <= downs tr).

Lemma downs_app tr e : downs (tr ++ e) = downs tr + downs e.
Proof. unfold downs. by rewrite filter_app, zlen_app. Qed.

Lemma blocked_insert (ts : list pc) (t i : nat) p timed :
  is_blocked p = false -> <[t := p]> ts !! i = Some (Blocked timed) -> ts !! i = Some (Blocked timed).
Proof.
  intros Hp Hi. destruct (decide (t = i)) as [->|Hne]; [|by rewrite list_lookup_insert_ne in Hi].
  destruct (decide (i < length ts)%nat) as [Hl|Hl].
  - rewrite list_lookup_insert_eq in Hi by done. by simplify_eq.
  - rewrite list_insert_ge in Hi by lia. done.
Qed.

Lemma latch_step_inv n tr s e s' : inv n tr s -> step s e s' -> inv n (tr ++ e) s'.
Proof.
  intros (Hf & Hc & Hb & Hr) Hst.
  assert (Hins : forall t p i timed, is_blocked p = false -> <[t := p]> (threads s) !! i = Some (Blocked timed) ->
            0 < count_ (latch s)) by (intros t p i timed Hp Hi; apply blocked_insert in Hi; eauto).
  unfold inv. rewrite downs_app.
  destruct Hst as [c ts t p Ht Hp|c ts t b c' Ht Hd|c ts t timed c' Ht Hw|c ts t timed c' Ht Hw|c ts t timed Ht];
    cbn [latch threads] in *; rewrite ?app_nil_r.
  - change (downs []) with 0. rewrite Z.add_0_r. split_and!; eauto.
  - apply count_down_section in Hd as [-> ->]; [|done]. change (downs [CountedDown]) with 1. cbn [count_ lock_].
    split_and!; [done | lia | |].
    + intros i timed Hi. destruct (Z.eqb_spec (count_ c - 1) 0) as [E|E].
      * rewrite list_lookup_fmap in Hi. destruct (_ !! i) as [[]|]; done.
      * apply blocked_insert in Hi; [|done]. apply Hb in Hi. lia.
    + intros i Hi. apply elem_of_app in Hi as [Hi|Hi%list_elem_of_singleton]; [|done]. apply Hr in Hi. lia.
  - rewrite wait_section in Hw by done. destruct (Z.ltb_spec 0 (count_ c)); simplify_eq/=.
    change (downs []) with 0. rewrite Z.add_0_r. split_and!; [done | done | intros; lia | done].
  - rewrite wait_section in Hw by done. destruct (Z.ltb_spec 0 (count_ c)); simplify_eq/=.
    change (downs [Returned t]) with 0. split_and!; [done | lia | intros i b Hi; by apply (Hins t Idle i b) | lia].
  - change (downs []) with 0. rewrite Z.add_0_r. split_and!; eauto.
Qed.

Lemma latch_steps_inv n s tr s' : inv n [] s -> steps s tr s' -> inv n tr s'.
Proof. intros Hi Hs. induction Hs; [done|]. eauto using latch_step_inv. Qed.

Lemma latch_initial_inv n k : inv n [] (mkSystem (mkLatch unowned n) (replicate k Idle)).
Proof.
  unfold inv. change (downs []) with 0. split_and!; [done | cbn; lia | | ].
  - intros t timed Ht. apply lookup_replicate in Ht as [? _]. done.
  - intros t Ht. by apply not_elem_of_nil in Ht.
Qed.

(** One thread waits and the other counts down. *)
Example one_waits :
  steps (mkSystem (mkLatch unowned 1) [Idle; Idle]) [CountedDown]
    (mkSystem (mkLatch unowned 0) [Idle; Waiting false]).
Proof.
  apply (steps_snoc _ [] (mkSystem (mkLatch unowned 1) [CountingDown; Blocked false]) [CountedDown]).
  2: apply (step_count_down (mkLatch unowned 1) [CountingDown; Blocked false] 0 true); reflexivity.
  apply (steps_snoc _ [] (mkSystem (mkLatch unowned 1) [CountingDown; Waiting false]) []).
  2: apply (step_wait_blocks (mkLatch unowned 1) [CountingDown; Waiting false] 1 false); reflexivity.
  apply (steps_snoc _ [] (mkSystem (mkLatch unowned 1) [CountingDown; Idle]) []).
  2: apply (step_call (mkLatch unowned 1) [CountingDown; Idle] 1 (Waiting false)); reflexivity.
  apply (steps_snoc _ [] (mkSystem (mkLatch unowned 1) [Idle; Idle]) []); [constructor|].
  apply (step_call (mkLatch unowned 1) [Idle; Idle] 0 CountingDown); reflexivity.
Qed.

End CountDownLatch.

(** ** Properties *)

(** C15. The blocking queues, for any number of threads and any interleaving of their
    sections, signals and spurious wakeups.  The elements that were popped, followed by the
    contents, are the elements that were pushed, in order; a bounded queue never holds
    more than its limit; a thread inside [push] or [pop] that does not wait can run, so no
    check fails; and when no thread can run, threads wait in [pop] only on an empty
    queue and in [push] only on a full one: no wakeup was lost. *)
Theorem blocking_queue_correct {A : Type} (deque_max_size : Z) (max_size : option Z) (n : nat)
    (tr : list BlockingQueue.event) (s : BlockingQueue.system (A := A)) :
  BlockingQueue.steps deque_max_size (BlockingQueue.initial max_size n) tr s ->
  let contents := BlockingQueue.queue_ (BlockingQueue.data s) in
  let ts := BlockingQueue.threads s in
  BlockingQueue.pushes tr = BlockingQueue.pops tr ++ contents /\
  (forall m, max_size = Some m -> zlen contents <= Z.max 0 m) /\
  (forall t c, ts !! t = Some c -> BlockingQueue.is_pushing c || BlockingQueue.is_popping c = true ->
     exists e s', BlockingQueue.step deque_max_size s e s') /\
  (count BlockingQueue.is_pushing ts = 0%nat -> count BlockingQueue.is_popping ts = 0%nat ->
     (forall t, ts !! t = Some BlockingQueue.PopWaiting -> contents = []) /\
     (forall t x, ts !! t = Some (BlockingQueue.PushWaiting x) ->
        exists m, max_size = Some m /\ m <= zlen contents)).
Proof.
  intros Hs contents ts. pose proof (BlockingQueue.queue_initial_inv (A := A) max_size n) as Hi.
  destruct (BlockingQueue.steps_fifo _ _ _ _ Hi Hs) as [Hq Hm]. cbn in Hm.
  pose proof (BlockingQueue.queue_steps_inv _ _ _ _ Hi Hs) as Hinv. pose proof Hinv as [_ Hb].
  rewrite Hm in Hb. fold contents ts in Hb. split_and!; [done | | eauto using BlockingQueue.ready_steps |].
  - intros m ->. unfold BlockingQueue.balanced, zlen in *. lia.
  - intros H1 H2. unfold BlockingQueue.balanced in Hb. rewrite H1, H2 in Hb. split.
    + intros t Ht. pose proof (count_pos BlockingQueue.waits_to_pop ts t _ Ht eq_refl).
      apply length_zero_iff_nil. destruct Hb as [Hb _]. specialize (Hb ltac:(lia)). lia.
    + intros t x Ht. pose proof (count_pos BlockingQueue.waits_to_push ts t _ Ht eq_refl).
      destruct max_size as [m|]; [|lia]. exists m. split; [done|]. unfold zlen. lia.
Qed.

Lemma blocking_queue_correct_witness :
  exists m, Some 1 = Some m /\ m <= zlen [7].
Proof.
  refine (proj2 (proj2 (proj2 (proj2 (blocking_queue_correct 100 (Some 1) 2 _ _ BlockingQueue.full_queue_waits))) _ _) 1%nat 8 _);
    reflexivity.
Defined.

(** The latch, for any number of threads and any interleaving.  The count is the initial
    one minus the calls of [count_down]; [wait] returns only after that many calls, with or
    without a time limit; once they were made no thread is left blocked, and every thread in
    [wait] returns in its next section. *)
Theorem latch_correct (n : Z) (k : nat) (c : CountDownLatch.Latch) (tr : list CountDownLatch.event) (s : CountDownLatch.system) :
  CountDownLatch.make n = Ok c ->
  CountDownLatch.steps (CountDownLatch.mkSystem c (replicate k CountDownLatch.Idle)) tr s ->
  CountDownLatch.count_ (CountDownLatch.latch s) = n - CountDownLatch.downs tr /\
  (forall t, CountDownLatch.Returned t ∈ tr -> n <= CountDownLatch.downs tr) /\
  (n <= CountDownLatch.downs tr ->
   forall t p, CountDownLatch.threads s !! t = Some p ->
     CountDownLatch.is_blocked p = false /\
     forall timed, p = CountDownLatch.Waiting timed ->
       CountDownLatch.wait t (CountDownLatch.latch s) = Ok (true, CountDownLatch.latch s)).
Proof.
  unfold CountDownLatch.make, check. destruct (0 <? n); [|done]. intros [= <-] Hs.
  pose proof (CountDownLatch.latch_steps_inv n _ _ _ (CountDownLatch.latch_initial_inv n k) Hs) as (Hf & Hc & Hb & Hr).
  split_and!; [done | done |]. intros Hn t p Ht. split.
  - destruct p; try done. apply Hb in Ht. lia.
  - intros timed _. rewrite CountDownLatch.wait_section by done. by zdecide.
Qed.

Lemma latch_correct_witness :
  CountDownLatch.is_blocked CountDownLatch.Idle = false /\
  CountDownLatch.is_blocked (CountDownLatch.Waiting false) = false.
Proof.
  pose (s := CountDownLatch.mkSystem (CountDownLatch.mkLatch unowned 0) [CountDownLatch.Idle; CountDownLatch.Waiting false]).
  pose proof (latch_correct 1 2 _ [CountDownLatch.CountedDown] s eq_refl CountDownLatch.one_waits) as H.
  split.
  - refine (proj1 (proj2 (proj2 H) _ 0%nat _ _)); [vm_compute; discriminate | reflexivity].
  - refine (proj1 (proj2 (proj2 H) _ 1%nat _ _)); [vm_compute; discriminate | reflexivity].
Defined.
