(* ===== verification/ThreadPool.v ===== *)
(** * ThreadPool (include/threading/ThreadPool.h, src/ThreadPool.cc)

    The pool as a step relation over its worker threads and the thread that owns it,
    which calls [start], then [run_task] any number of times, then [joinall] or [stop].
    A task is an opaque value; a null callback tells a worker to quit.  Steps are
    the critical sections, as in [Sync], and the parts between them.

    The file shows that the tasks are taken in the order they were queued, that
    [joinall] ends with every task run, every worker gone and an empty queue, and
    that [stop] ends, provided no batch is larger than the limit of the queue; and
    that [joinall] of an idle pool hangs otherwise. *)

From S2P Require Import Prelude Sync.

(** ** Definitions *)

Section Pool.
Context {A : Type}.

(** [TaskCallback]; [None] is the null callback. *)
Abbreviation task := (option A) (only parsing).

(** The calls of the owner. *)
Inductive final_call : Type := joinall | stop.
#[global] Instance final_call_eq_dec : EqDecision final_call.
Proof. solve_decision. Defined.

(** Where a worker is in [loop]. *)
Inductive worker : Type :=
| Top            (** before the test of [running_] and the section that takes a task *)
| Waiting        (** in [empty_cv_.wait()] *)
| Running (a : A)
| TookNull       (** before [empty_cv_.signal()] *)
| Quit.

(** Where the owner is: [cb], still to be queued [k] times, and the calls after that. *)
Inductive owner : Type :=
| Queueing (cb : task) (k : nat) (rest : list (task * nat))  (** in the section of [run_task] *)
| FullWaiting (cb : task) (k : nat) (rest : list (task * nat)) (** in [full_cv_.wait()] *)
| Stopping       (** before the section of [stop] *)
| Joining        (** joins the workers *)
| Done.

Record pool : Type := mkPool {
  num_threads_ : nat;
  max_task_size_ : Z;
  final_ : final_call;
  running_ : bool;
  thread_main_cbs_ : list task;
  threads_ : list worker;
  owner_ : owner;
}.

Definition with_queue (q : list task) (p : pool) : pool :=
  mkPool (num_threads_ p) (max_task_size_ p) (final_ p) (running_ p) q (threads_ p) (owner_ p).
Definition with_threads (ts : list worker) (p : pool) : pool :=
  mkPool (num_threads_ p) (max_task_size_ p) (final_ p) (running_ p) (thread_main_cbs_ p) ts (owner_ p).
Definition with_owner (o : owner) (p : pool) : pool :=
  mkPool (num_threads_ p) (max_task_size_ p) (final_ p) (running_ p) (thread_main_cbs_ p) (threads_ p) o.
Definition with_running (b : bool) (p : pool) : pool :=
  mkPool (num_threads_ p) (max_task_size_ p) (final_ p) b (thread_main_cbs_ p) (threads_ p) (owner_ p).

Definition full (max_task_size : Z) (q : list task) : bool :=
  (0 <? max_task_size) && (max_task_size <=? zlen q).

(** The owner with the calls [rest] to make. *)
Definition next_owner (fin : final_call) (rest : list (task * nat)) : owner :=
  match rest, fin with
  | (cb, k) :: rest, _ => Queueing cb k rest
  | [], joinall => Joining
  | [], stop => Stopping
  end.

(** [joinall] first queues one null callback per worker. *)
Definition all_calls (n : nat) (fin : final_call) (calls : list (task * nat)) : list (task * nat) :=
  match fin with joinall => calls ++ [(None, n)] | stop => calls end.

(** [start], with the workers about to enter their loops. *)
Definition start (n : nat) (max_task_size : Z) (fin : final_call) (calls : list (task * nat)) : pool :=
  mkPool n max_task_size fin true [] (replicate n Top) (next_owner fin (all_calls n fin calls)).

(** The loop of [run_task]: queue the task until the queue is full or it was queued often
    enough; what is left to do and the queue. *)
Fixpoint queue_tasks (max_task_size : Z) (cb : task) (k : nat) (q : list task) : nat * list task :=
  match k with
  | O => (O, q)
  | S k' => if full max_task_size q then (k, q) else queue_tasks max_task_size cb k' (q ++ [cb])
  end.

(** [run_task] of a pool without threads: the calls of [cb], in the caller. *)
Fixpoint run_task_here (cb : task) (repeat_count : nat) : list A :=
  match repeat_count with
  | O => []
  | S n => match cb with Some a => a :: run_task_here cb n | None => run_task_here cb n end
  end.

Inductive signal_empty (ts : list worker) : list worker -> Prop :=
| signal_lost : (forall i, ts !! i <> Some Waiting) -> signal_empty ts ts
| signal_wakes i : ts !! i = Some Waiting -> signal_empty ts (<[i := Top]> ts).

Definition signal_full (o : owner) : owner :=
  match o with FullWaiting cb k rest => Queueing cb k rest | o => o end.

Definition wake (w : worker) : worker := match w with Waiting => Top | w => w end.

Inductive event : Type := Took (t : task) | Ran (a : A).

(** The section of [loop]. *)
Inductive take : pool -> nat -> list event -> pool -> Prop :=
| take_not_running p i :
    running_ p = false -> take p i [] (with_threads (<[i := Quit]> (threads_ p)) p)
| take_waits p i :
    running_ p = true -> thread_main_cbs_ p = [] ->
    take p i [] (with_threads (<[i := Waiting]> (threads_ p)) p)
| take_task p i t q :
    running_ p = true -> thread_main_cbs_ p = t :: q ->
    take p i [Took t]
      (with_owner (if 0 <? max_task_size_ p then signal_full (owner_ p) else owner_ p)
        (with_threads (<[i := match t with Some a => Running a | None => TookNull end]> (threads_ p))
          (with_queue q p))).

Inductive step : pool -> list event -> pool -> Prop :=
| step_take p i e p' : threads_ p !! i = Some Top -> take p i e p' -> step p e p'
| step_run p i a :
    threads_ p !! i = Some (Running a) -> step p [Ran a] (with_threads (<[i := Top]> (threads_ p)) p)
| step_quit p i ts :
    threads_ p !! i = Some TookNull -> signal_empty (<[i := Quit]> (threads_ p)) ts ->
    step p [] (with_threads ts p)
| step_queue_full p cb k rest k' q :
    owner_ p = Queueing cb k rest -> queue_tasks (max_task_size_ p) cb k (thread_main_cbs_ p) = (S k', q) ->
    step p [] (with_owner (FullWaiting cb (S k') rest) (with_queue q p))
| step_queue_done p cb k rest q ts :
    owner_ p = Queueing cb k rest -> queue_tasks (max_task_size_ p) cb k (thread_main_cbs_ p) = (O, q) ->
    signal_empty (threads_ p) ts ->
    step p [] (with_owner (next_owner (final_ p) rest) (with_threads ts (with_queue q p)))
| step_stop p :
    owner_ p = Stopping ->
    step p [] (with_owner Joining (with_threads (map wake (threads_ p)) (with_running false p)))
| step_join p : (* every [join] returned, and the [CHECK] of [joinall] holds *)
    owner_ p = Joining -> (forall i w, threads_ p !! i = Some w -> w = Quit) ->
    (final_ p = joinall -> thread_main_cbs_ p = []) ->
    step p [] (with_owner Done (with_running false (with_queue [] p))).

(** A spurious wakeup of a worker or of the owner. *)
Inductive spurious : pool -> pool -> Prop :=
| spurious_worker p i :
    threads_ p !! i = Some Waiting -> spurious p (with_threads (<[i := Top]> (threads_ p)) p)
| spurious_owner p cb k rest :
    owner_ p = FullWaiting cb k rest -> spurious p (with_owner (Queueing cb k rest) p).

Inductive steps : pool -> list event -> pool -> Prop :=
| steps_nil p : steps p [] p
| steps_snoc p tr p' e p'' : steps p tr p' -> step p' e p'' -> steps p (tr ++ e) p''
| steps_spurious p tr p' p'' : steps p tr p' -> spurious p' p'' -> steps p tr p''.

(** ** Lemmas *)

Definition is_waiting (w : worker) : bool := match w with Waiting => true | _ => false end.
Definition is_active (w : worker) : bool := match w with Top | Running _ | TookNull => true | _ => false end.
Definition is_leaving (w : worker) : bool := match w with TookNull | Quit => true | _ => false end.
Definition is_null (t : task) : bool := match t with None => true | Some _ => false end.

Definition expand (calls : list (task * nat)) : list task := concat (map (fun '(cb, k) => replicate k cb) calls).
Definition remaining (o : owner) : list task :=
  match o with
  | Queueing cb k rest | FullWaiting cb k rest => replicate k cb ++ expand rest
  | _ => []
  end.
Definition taken (tr : list event) : list task := omap (fun e => match e with Took t => Some t | Ran _ => None end) tr.
Definition ran (tr : list event) : list A := omap (fun e => match e with Ran a => Some a | Took _ => None end) tr.

(** No batch is larger than the limit of the queue. *)
Definition fits (mx : Z) (calls : list (task * nat)) : Prop :=
  0 < mx -> Forall (fun '(_, k) => Z.of_nat k <= mx) calls.

Definition owner_calls (o : owner) : list (task * nat) :=
  match o with Queueing cb k rest | FullWaiting cb k rest => (cb, k) :: rest | _ => [] end.

Definition in_progress (o : owner) : bool := match o with Queueing _ _ _ | FullWaiting _ _ _ | Stopping => true | _ => false end.

Lemma queue_tasks_spec mx cb k q :
  let '(k', q') := queue_tasks mx cb k q in
  (k' <= k)%nat /\ q' = q ++ replicate (k - k') cb /\ (k' = 0%nat \/ full mx q' = true).
Proof.
  revert q. induction k as [|k IH]; intros q; cbn [queue_tasks].
  { split_and!; [lia | by rewrite app_nil_r | by left]. }
  destruct (full mx q) eqn:E.
  { split_and!; [lia | by rewrite Nat.sub_diag, app_nil_r | by right]. }
  specialize (IH (q ++ [cb])). destruct (queue_tasks mx cb k (q ++ [cb])) as [k' q']. destruct IH as (H1 & H2 & H3).
  split_and!; [lia | | done]. rewrite H2, <- app_assoc. f_equal. by replace (S k - k')%nat with (S (k - k')) by lia.
Qed.

(** A batch that fits is queued completely when it finds the queue empty. *)
Lemma queue_tasks_empty mx cb k :
  (0 < mx -> Z.of_nat k <= mx) -> fst (queue_tasks mx cb k []) = 0%nat.
Proof.
  intros Hk. pose proof (queue_tasks_spec mx cb k []) as Hs. destruct (queue_tasks mx cb k []) as [k' q'].
  destruct Hs as (H1 & -> & [H3|H3]); [done|]. unfold full in H3. apply andb_true_iff in H3 as [H3 H4].
  apply Z.ltb_lt in H3. apply Z.leb_le in H4. cbn [app] in H4. rewrite zlen_replicate in H4. cbn. lia.
Qed.

Lemma taken_app tr e : taken (tr ++ e) = taken tr ++ taken e.
Proof. apply omap_app. Qed.

Record inv (n : nat) (mx : Z) (fin : final_call) (calls : list (task * nat)) (tr : list event) (p : pool) : Prop := {
  inv_const : num_threads_ p = n /\ max_task_size_ p = mx /\ final_ p = fin /\ length (threads_ p) = n;
  inv_plan : owner_ p <> Done -> taken tr ++ thread_main_cbs_ p ++ remaining (owner_ p) = expand (all_calls n fin calls);
  inv_done : owner_ p = Done -> (forall i w, threads_ p !! i = Some w -> w = Quit) /\ thread_main_cbs_ p = [] /\ running_ p = false /\
             (fin = joinall -> taken tr = expand (all_calls n fin calls));
  inv_leaving : running_ p = true -> count is_leaving (threads_ p) = count is_null (taken tr);
  inv_awake : thread_main_cbs_ p <> [] ->
              (0 < count is_active (threads_ p))%nat \/ count is_waiting (threads_ p) = 0%nat;
  inv_full cb k rest : owner_ p = FullWaiting cb k rest -> (0 < k)%nat /\ full mx (thread_main_cbs_ p) = true;
  inv_fits : fits mx (owner_calls (owner_ p));
  inv_running : running_ p = match owner_ p with Done => false | Joining => bool_decide (fin = joinall) | _ => true end;
  inv_stopping : owner_ p = Stopping -> fin = stop;
  inv_stopped : running_ p = false -> count is_waiting (threads_ p) = 0%nat;
}.

Definition bit (b : bool) : nat := if b then 1%nat else 0%nat.

Lemma pool_moved (ts : list worker) (i : nat) w w' :
  ts !! i = Some w ->
  (count is_waiting (<[i := w']> ts) + bit (is_waiting w) = count is_waiting ts + bit (is_waiting w'))%nat /\
  (count is_active (<[i := w']> ts) + bit (is_active w) = count is_active ts + bit (is_active w'))%nat /\
  (count is_leaving (<[i := w']> ts) + bit (is_leaving w) = count is_leaving ts + bit (is_leaving w'))%nat.
Proof. intros H. split_and!; by apply count_insert. Qed.

Lemma signalled (ts ts' : list worker) :
  signal_empty ts ts' ->
  length ts' = length ts /\ count is_leaving ts' = count is_leaving ts /\
  ((0 < count is_active ts')%nat \/ count is_waiting ts' = 0%nat).
Proof.
  intros [H|i Hi].
  - split_and!; [done | done | right]. apply count_0. intros i w Hw. destruct w; try done. by destruct (H i).
  - pose proof (pool_moved ts i _ Top Hi) as E. cbn [bit is_waiting is_active is_leaving] in E.
    rewrite length_insert. split_and!; [done | lia | left; lia].
Qed.

Lemma remaining_next fin rest : remaining (next_owner fin rest) = expand rest.
Proof. destruct rest as [|[cb k] rest]; [by destruct fin|done]. Qed.

Lemma remaining_signal o : remaining (signal_full o) = remaining o.
Proof. by destruct o. Qed.

Lemma count_wake (p : worker -> bool) ts :
  (forall w, p (wake w) = p w) -> count p (map wake ts) = count p ts.
Proof.
  intros Hw. unfold count. induction ts as [|w ts IH]; [done|]. cbn [map].
  destruct (p w) eqn:E; [rewrite !filter_cons_True by (rewrite ?Hw; done); cbn; by rewrite IH|].
  by rewrite !filter_cons_False by (rewrite ?Hw, E; done).
Qed.

Lemma woken_none ts : count is_waiting (map wake ts) = 0%nat.
Proof.
  apply count_0. intros i w Hw. rewrite list_lookup_fmap in Hw. destruct (ts !! i) as [[]|]; by simplify_eq/=.
Qed.

Section Inv.
Context (n : nat) (mx : Z) (fin : final_call) (calls : list (task * nat)).
Abbreviation Inv := (inv n mx fin calls).

Ltac counted := cbn [bit is_waiting is_active is_leaving is_null] in *; lia.
Ltac keep := cbn [with_queue with_threads with_owner with_running num_threads_ max_task_size_ final_ running_
                  thread_main_cbs_ threads_ owner_] in *.

Lemma take_inv tr p i e p' : Inv tr p -> threads_ p !! i = Some Top -> take p i e p' -> Inv (tr ++ e) p'.
Proof.
  intros I Hi Ht. destruct I as [(C1 & C2 & C3 & C4) Hplan Hdone Hleave Hawake Hfull Hfits Hrun Hstg Hstop].
  assert (Hnd : owner_ p <> Done).
  { intros E. destruct (Hdone E) as [Hl _]. by specialize (Hl _ _ Hi). }
  destruct Ht as [p i Hr|p i Hr Hq|p i t q Hr Hq].
  - pose proof (pool_moved _ i _ Quit Hi). rewrite app_nil_r. specialize (Hstop Hr).
    split; keep; rewrite ?length_insert; try done; intros; try congruence; [right|]; counted.
  - pose proof (pool_moved _ i _ Waiting Hi). rewrite app_nil_r. specialize (Hleave Hr).
    split; keep; rewrite ?length_insert; try done; intros; try congruence; counted.
  - set (w := match t with Some a => Running a | None => TookNull end).
    pose proof (pool_moved _ i _ w Hi) as Hm. specialize (Hleave Hr). specialize (Hplan Hnd). rewrite Hq in Hplan, Hawake.
    set (o := if 0 <? max_task_size_ p then signal_full (owner_ p) else owner_ p).
    assert (Ho : remaining o = remaining (owner_ p) /\ owner_calls o = owner_calls (owner_ p) /\
                 (o = Done <-> owner_ p = Done) /\ (o = Stopping <-> owner_ p = Stopping) /\
                 match o with Done => false | Joining => bool_decide (fin = joinall) | _ => true end
                 = match owner_ p with Done => false | Joining => bool_decide (fin = joinall) | _ => true end).
    { unfold o. destruct (0 <? max_task_size_ p); [|tauto]. destruct (owner_ p); cbn; split_and!; try split; done. }
    destruct Ho as (Ho1 & Ho2 & Ho3 & Ho4 & Ho5).
    split; keep; fold w o; rewrite ?length_insert, ?Ho1, ?Ho2, ?Ho5; try done; try tauto.
    + intros _. rewrite taken_app, <- Hplan, <- app_assoc. done.
    + intros _. rewrite taken_app, count_app. replace (count is_null (taken [Took t])) with (bit (is_null t)) by (by destruct t).
      unfold w in *. destruct t; counted.
    + intros _. left. pose proof (count_pos is_active _ i _ Hi eq_refl). unfold w in *. destruct t; counted.
    + intros cb k rest Hc. unfold o in Hc. destruct (Z.ltb_spec 0 (max_task_size_ p)) as [Hmx|Hmx].
      * by destruct (owner_ p).
      * destruct (Hfull _ _ _ Hc) as [_ Hf]. unfold full in Hf. apply andb_true_iff in Hf as [Hf%Z.ltb_lt _]. lia.
    + intros E. congruence.
Qed.

Lemma run_inv tr p i a :
  Inv tr p -> threads_ p !! i = Some (Running a) ->
  Inv (tr ++ [Ran a]) (with_threads (<[i := Top]> (threads_ p)) p).
Proof.
  intros [(C1 & C2 & C3 & C4) Hplan Hdone Hleave Hawake Hfull Hfits Hrun Hstg Hstop] Hi.
  pose proof (pool_moved _ i _ Top Hi) as Hm. assert (Ht : taken (tr ++ [Ran a]) = taken tr) by (rewrite taken_app; apply app_nil_r).
  split; keep; rewrite ?length_insert, ?Ht; try done.
  - intros E. destruct (Hdone E) as [Hl _]. by specialize (Hl _ _ Hi).
  - intros E. specialize (Hleave E). counted.
  - intros E. specialize (Hawake E). counted.
  - intros E. specialize (Hstop E). counted.
Qed.

Lemma quit_inv tr p i ts :
  Inv tr p -> threads_ p !! i = Some TookNull -> signal_empty (<[i := Quit]> (threads_ p)) ts ->
  Inv tr (with_threads ts p).
Proof.
  intros [(C1 & C2 & C3 & C4) Hplan Hdone Hleave Hawake Hfull Hfits Hrun Hstg Hstop] Hi Hsig.
  pose proof (pool_moved _ i _ Quit Hi) as Hm. pose proof Hsig as Hsig'. apply signalled in Hsig as (S1 & S2 & S3).
  rewrite length_insert in S1.
  split; keep; rewrite ?S1; try done.
  - intros E. destruct (Hdone E) as [Hl _]. by specialize (Hl _ _ Hi).
  - intros E. specialize (Hleave E). counted.
  - intros E. specialize (Hstop E). destruct Hsig' as [|j Hj]; [counted|].
    pose proof (count_pos is_waiting _ j _ Hj eq_refl). counted.
Qed.

Lemma queue_full_inv tr p cb k rest k' q :
  Inv tr p -> owner_ p = Queueing cb k rest ->
  queue_tasks (max_task_size_ p) cb k (thread_main_cbs_ p) = (S k', q) ->
  Inv tr (with_owner (FullWaiting cb (S k') rest) (with_queue q p)).
Proof.
  intros [(C1 & C2 & C3 & C4) Hplan Hdone Hleave Hawake Hfull Hfits Hrun Hstg Hstop] Ho Hq.
  pose proof (queue_tasks_spec (max_task_size_ p) cb k (thread_main_cbs_ p)) as Hs. rewrite Hq in Hs.
  destruct Hs as (Hk & Hq' & [?|Hf]); [done|]. rewrite Ho in *. cbn [remaining owner_calls] in *. rewrite C2 in *.
  split; keep; try done.
  - intros _. assert (Hrep : replicate k cb = replicate (k - S k') cb ++ replicate (S k') cb) by (rewrite <- replicate_add; f_equal; lia).
    by rewrite <- (Hplan ltac:(done)), Hq', Hrep, <- !app_assoc.
  - intros Hne. destruct (decide (thread_main_cbs_ p = [])) as [E|E]; [|auto].
    rewrite E in Hq. pose proof (queue_tasks_empty mx cb k) as H0. rewrite Hq in H0. cbn in H0.
    assert (S k' = 0%nat); [|lia]. apply H0. intros Hpos. specialize (Hfits Hpos). inversion Hfits; done.
  - intros ? ? ? [= <- <- <-]. split; [lia|done].
  - intros Hpos. specialize (Hfits Hpos). inversion Hfits; subst. constructor; [lia|done].
Qed.

Lemma queue_done_inv tr p cb k rest q ts :
  Inv tr p -> owner_ p = Queueing cb k rest ->
  queue_tasks (max_task_size_ p) cb k (thread_main_cbs_ p) = (0%nat, q) -> signal_empty (threads_ p) ts ->
  Inv tr (with_owner (next_owner (final_ p) rest) (with_threads ts (with_queue q p))).
Proof.
  intros [(C1 & C2 & C3 & C4) Hplan Hdone Hleave Hawake Hfull Hfits Hrun Hstg Hstop] Ho Hq Hsig.
  pose proof (queue_tasks_spec (max_task_size_ p) cb k (thread_main_cbs_ p)) as Hs. rewrite Hq in Hs.
  destruct Hs as (Hk & Hq' & _). apply signalled in Hsig as (S1 & S2 & S3). rewrite Ho in *. cbn [remaining owner_calls] in *.
  rewrite Nat.sub_0_r in Hq'.
  split; keep; rewrite ?S1, ?S2, ?C3; try done; try congruence.
  - intros _. rewrite remaining_next, <- (Hplan ltac:(done)), Hq', <- !app_assoc. done.
  - destruct rest as [|[cb' k''] rest]; [by destruct fin|done].
  - destruct rest as [|[cb' k''] rest]; [by destruct fin|done].
  - intros Hpos. specialize (Hfits Hpos). inversion Hfits; subst. destruct rest as [|[cb' k''] rest]; [by destruct (final_ p); constructor|done].
  - rewrite Hrun. destruct rest as [|[cb' k''] rest]; [by destruct fin|done].
  - destruct rest as [|[cb' k''] rest]; [by destruct fin|done].
Qed.

Lemma stop_inv tr p :
  Inv tr p -> owner_ p = Stopping ->
  Inv tr (with_owner Joining (with_threads (map wake (threads_ p)) (with_running false p))).
Proof.
  intros [(C1 & C2 & C3 & C4) Hplan Hdone Hleave Hawake Hfull Hfits Hrun Hstg Hstop] Ho.
  split; keep; rewrite ?length_map, ?woken_none; try done; auto.
  - intros _. by rewrite <- Hplan, Ho by (by rewrite Ho).
  - intros _. constructor.
  - by rewrite (Hstg Ho).
Qed.

Lemma join_inv tr p :
  Inv tr p -> owner_ p = Joining -> (forall i w, threads_ p !! i = Some w -> w = Quit) ->
  (final_ p = joinall -> thread_main_cbs_ p = []) ->
  Inv tr (with_owner Done (with_running false (with_queue [] p))).
Proof.
  intros [(C1 & C2 & C3 & C4) Hplan Hdone Hleave Hawake Hfull Hfits Hrun Hstg Hstop] Ho Hall Hq.
  split; keep; try done.
  - intros _. split_and!; try done. intros E. rewrite <- Hplan, Ho, Hq, app_nil_r by (congruence || by rewrite Ho). done.
  - intros _. constructor.
  - intros _. apply count_0. intros i w Hw. by rewrite (Hall i w Hw).
Qed.

Lemma spurious_inv tr p p' : Inv tr p -> spurious p p' -> Inv tr p'.
Proof.
  intros I Hsp. destruct Hsp as [p i Hi|p cb k rest Ho];
    destruct I as [(C1 & C2 & C3 & C4) Hplan Hdone Hleave Hawake Hfull Hfits Hrun Hstg Hstop].
  - pose proof (pool_moved _ i _ Top Hi) as Hm. split; keep; rewrite ?length_insert; try done.
    + intros E. destruct (Hdone E) as [Hl _]. by specialize (Hl _ _ Hi).
    + intros E. specialize (Hleave E). counted.
    + intros E. specialize (Hawake E). counted.
    + intros E. specialize (Hstop E). counted.
  - rewrite Ho in *. split; keep; try done. intros _. by apply Hplan.
Qed.

Lemma pool_steps_inv p tr p' : Inv [] p -> steps p tr p' -> Inv tr p'.
Proof.
  intros I0 Hs. induction Hs as [|p tr p' e p'' Hs IH Hst|p tr p' p'' Hs IH Hsp]; [done| |eauto using spurious_inv].
  specialize (IH I0). destruct Hst; rewrite ?app_nil_r; eauto using take_inv, run_inv, quit_inv, queue_full_inv,
    queue_done_inv, stop_inv, join_inv.
Qed.

(** The null callbacks come last, one per worker. *)
Hypothesis Htasks : Forall (fun '(cb, _) => cb <> None) calls.
Hypothesis Hfit : fits mx (all_calls n fin calls).
Hypothesis Hn : (0 < n)%nat.

Lemma start_inv : Inv [] (start n mx fin calls).
Proof.
  unfold start. set (rest := all_calls n fin calls).
  assert (Hne : next_owner fin rest <> Done) by (by destruct rest as [|[? ?] ?], fin).
  split; keep; rewrite ?length_replicate; try done.
  - intros _. by rewrite remaining_next.
  - intros _. apply count_0. intros i w Hw. by apply lookup_replicate in Hw as [-> _].
  - by destruct rest as [|[? ?] ?], fin.
  - intros Hpos. specialize (Hfit Hpos). unfold rest. destruct (all_calls n fin calls) as [|[? ?] ?]; [destruct fin; constructor|done].
  - by destruct rest as [|[? ?] ?], fin.
  - by destruct rest as [|[? ?] ?], fin.
Qed.

Lemma expand_tasks cs : Forall (fun '(cb, _) => cb <> None) cs -> count is_null (expand cs) = 0%nat.
Proof.
  induction 1 as [|[cb k] cs Hcb _ IH]; [done|]. unfold expand in *. cbn [map concat]. rewrite count_app, IH, Nat.add_0_r.
  apply count_0. intros i x Hx. apply lookup_replicate in Hx as [-> _]. by destruct cb.
Qed.

Lemma expand_app cs ds : expand (cs ++ ds) = expand cs ++ expand ds.
Proof. unfold expand. by rewrite map_app, concat_app. Qed.

Lemma expand_nulls : expand [(None : task, n)] = replicate n None.
Proof. unfold expand. cbn [map concat]. apply app_nil_r. Qed.

Lemma planned_nulls : count is_null (expand (all_calls n joinall calls)) = n.
Proof.
  cbn [all_calls]. rewrite expand_app, expand_nulls, count_app, (expand_tasks calls Htasks). cbn [Nat.add].
  rewrite count_full, length_replicate; [done|]. intros i x Hi. by apply lookup_replicate in Hi as [-> _].
Qed.

(** When every worker has taken its null callback, everything was taken. *)
Lemma all_left a b :
  a ++ b = expand (all_calls n fin calls) -> count is_null a = n -> fin = joinall /\ b = [].
Proof.
  intros Hab Ha. destruct fin.
  - split; [done|]. assert (Hc : count is_null (a ++ b) = n) by (rewrite Hab; apply planned_nulls).
    rewrite count_app, Ha in Hc. destruct b as [|t b _] using rev_ind; [done|]. exfalso.
    cbn [all_calls] in Hab. rewrite expand_app, expand_nulls in Hab. replace n with (S (pred n)) in Hab by lia.
    rewrite app_assoc, replicate_S_end, app_assoc in Hab. apply app_inj_tail in Hab as [_ ->].
    rewrite count_app in Hc. change (count is_null [None]) with 1%nat in Hc. lia.
  - exfalso. assert (H0 : count is_null (a ++ b) = 0%nat) by (rewrite Hab; by apply expand_tasks).
    rewrite count_app in H0. lia.
Qed.

Lemma find_worker (q : worker -> bool) ts : (0 < count q ts)%nat -> exists i w, ts !! i = Some w /\ q w = true.
Proof.
  intros Hc. destruct (decide (Exists (fun w => q w = true) ts)) as [He|He].
  - apply Exists_exists in He as (w & [i Hi]%list_elem_of_lookup_1 & Hw). eauto.
  - assert (count q ts = 0%nat); [|lia]. apply count_0. intros i w Hi. destruct (q w) eqn:E; [|done]. destruct He.
    apply Exists_exists. exists w. split; [by eapply list_elem_of_lookup_2|done].
Qed.

Lemma pool_signal_exists ts : exists ts', signal_empty ts ts'.
Proof.
  destruct (decide (count is_waiting ts = 0%nat)) as [E|E].
  - exists ts. apply signal_lost. intros i Hi. pose proof (count_pos is_waiting ts i _ Hi eq_refl). lia.
  - destruct (find_worker is_waiting ts ltac:(lia)) as (i & [] & Hi & Hw); try done. eauto using signal_empty.
Qed.

Lemma active_steps p : (0 < count is_active (threads_ p))%nat -> exists e p', step p e p'.
Proof.
  intros (i & w & Hi & Hw)%find_worker. destruct w as [| |a| |]; try done.
  - destruct (running_ p) eqn:Er; [destruct (thread_main_cbs_ p) eqn:Eq|]; eauto using step, take.
  - eauto using step.
  - destruct (pool_signal_exists (<[i := Quit]> (threads_ p))) as [ts Hts]. eauto using step.
Qed.

Lemma all_quit ts :
  count is_active ts = 0%nat -> count is_waiting ts = 0%nat \/ count is_leaving ts = length ts ->
  (forall i w, ts !! i = Some w -> w = Quit) /\ count is_leaving ts = length ts.
Proof.
  intros Ha Hb. assert (H : forall i w, ts !! i = Some w -> w = Quit).
  { intros i w Hi. pose proof (proj1 (count_0 _ _) Ha i w Hi).
    destruct Hb as [Hb|Hb]; [pose proof (proj1 (count_0 _ _) Hb i w Hi) | pose proof (count_all _ _ i w Hb Hi)]; by destruct w. }
  split; [done|]. apply count_full. intros i w Hi. by rewrite (H i w Hi).
Qed.

(** Unless the owner is done something can happen. *)
Lemma progress tr p : Inv tr p -> owner_ p <> Done -> exists e p', step p e p'.
Proof.
  intros I Hnd. pose proof I as [(C1 & C2 & C3 & C4) Hplan Hdone Hleave Hawake Hfull Hfits Hrun Hstg Hstop].
  destruct (decide (0 < count is_active (threads_ p))%nat) as [Ha|Ha]; [by apply active_steps|].
  assert (Ha0 : count is_active (threads_ p) = 0%nat) by lia.
  assert (Hidle : thread_main_cbs_ p <> [] -> running_ p = true -> False).
  { intros Hq Hr. destruct (Hawake Hq) as [?|Hw]; [done|]. destruct (all_quit _ Ha0 (or_introl Hw)) as [_ Hl].
    rewrite (Hleave Hr), C4 in Hl. destruct (all_left _ _ (Hplan Hnd) Hl) as [_ Hnil]. by apply app_eq_nil in Hnil as [? _]. }
  destruct (owner_ p) as [cb k rest|cb k rest| | |] eqn:Ho; [| | | |done].
  - destruct (queue_tasks (max_task_size_ p) cb k (thread_main_cbs_ p)) as [[|k'] q] eqn:Eq; [|eauto using step].
    destruct (pool_signal_exists (threads_ p)) as [ts Hts]. eauto using step.
  - exfalso. apply Hidle; [|done]. destruct (Hfull _ _ _ eq_refl) as [_ Hf]. intros E. rewrite E in Hf.
    unfold full in Hf. apply andb_true_iff in Hf as [Hf1%Z.ltb_lt Hf2%Z.leb_le]. change (zlen (@nil task)) with 0 in Hf2. lia.
  - eauto using step.
  - destruct (running_ p) eqn:Er.
    + assert (Hq : thread_main_cbs_ p = []) by (destruct (thread_main_cbs_ p); [done | by destruct Hidle]).
      assert (Hf : fin = joinall) by (symmetry in Hrun; by apply bool_decide_eq_true in Hrun).
      assert (Hl : count is_leaving (threads_ p) = length (threads_ p)).
      { rewrite (Hleave eq_refl), C4. specialize (Hplan Hnd). rewrite Hq in Hplan. cbn in Hplan. rewrite app_nil_r in Hplan.
        rewrite Hplan, Hf. apply planned_nulls. }
      destruct (all_quit _ Ha0 (or_intror Hl)) as [Hall _]. eauto using step.
    + destruct (all_quit _ Ha0 (or_introl (Hstop eq_refl))) as [Hall _].
      eexists _, _. eapply step_join; [done|done|]. intros E. rewrite C3 in E. rewrite bool_decide_true in Hrun by done. done.
Qed.

(** *** Termination *)

(** Every step but a spurious wakeup makes this smaller. *)
Definition worker_weight (w : worker) : nat := match w with Top => 1 | Waiting => 0 | Running _ => 2 | TookNull => 2 | Quit => 0 end.
Definition call_weight (c : task * nat) : nat := (4 + 4 * c.2)%nat.
Definition owner_weight (o : owner) : nat :=
  match o with
  | Queueing _ k rest => 5 + 4 * k + list_sum (map call_weight rest) + 3 + length rest
  | FullWaiting _ k rest => 4 + 4 * k + list_sum (map call_weight rest) + 3 + length rest
  | Stopping => 2
  | Joining => 1
  | Done => 0
  end.
Definition weight (p : pool) : nat :=
  (list_sum (map worker_weight (threads_ p)) + 3 * length (thread_main_cbs_ p) + owner_weight (owner_ p) +
   if in_progress (owner_ p) then length (threads_ p) else 0)%nat.

Abbreviation workers_weight ts := (list_sum (map worker_weight ts)).

Lemma workers_weight_insert (ts : list worker) (i : nat) w w' :
  ts !! i = Some w ->
  (workers_weight (<[i := w']> ts) + worker_weight w = workers_weight ts + worker_weight w')%nat.
Proof.
  revert i. induction ts as [|x ts IH]; intros [|i] Hi; simplify_eq/=; [lia|]. specialize (IH i Hi). lia.
Qed.

Lemma workers_weight_signal (ts ts' : list worker) :
  signal_empty ts ts' -> (workers_weight ts' <= workers_weight ts + 1)%nat /\ length ts' = length ts.
Proof.
  intros [_|i Hi]; [lia|]. pose proof (workers_weight_insert ts i _ Top Hi) as Hw. rewrite length_insert.
  cbn [worker_weight] in Hw. lia.
Qed.

Lemma workers_weight_wake ts : (workers_weight (map wake ts) <= workers_weight ts + length ts)%nat.
Proof.
  unfold list_sum. induction ts as [|w ts IH]; [done|]. cbn [map length fold_right]. destruct w; cbn [wake worker_weight]; lia.
Qed.

Lemma step_weight p e p' : step p e p' -> (weight p' < weight p)%nat.
Proof.
  intros Hst. unfold weight. destruct Hst as [p i e p' Hi Ht|p i a Hi|p i ts Hi Hsig|p cb k rest k' q Ho Hq|p cb k rest q ts Ho Hq Hsig|p Ho|p Ho Hall Hc].
  - destruct Ht as [p i Hr|p i Hr Hq|p i t q Hr Hq]; keep; rewrite ?length_insert.
    + pose proof (workers_weight_insert _ i _ Quit Hi) as Hw. cbn [worker_weight] in Hw. lia.
    + pose proof (workers_weight_insert _ i _ Waiting Hi) as Hw. cbn [worker_weight] in Hw. lia.
    + pose proof (workers_weight_insert _ i _ (match t with Some a => Running a | None => TookNull end) Hi) as Hw.
      rewrite Hq. cbn [length].
      set (o := if 0 <? max_task_size_ p then _ else _).
      assert (Ho : (owner_weight o <= owner_weight (owner_ p) + 1)%nat /\ in_progress o = in_progress (owner_ p)).
      { unfold o. destruct (0 <? max_task_size_ p); [|split; [lia|done]]. destruct (owner_ p); cbn; split; (lia || done). }
      destruct Ho as [Ho ->]. destruct t; cbn [worker_weight] in Hw; lia.
  - keep. rewrite length_insert. pose proof (workers_weight_insert _ i _ Top Hi) as Hw. cbn [worker_weight] in Hw. lia.
  - keep. apply workers_weight_signal in Hsig as [Hs Hl]. rewrite length_insert in Hl. rewrite Hl.
    pose proof (workers_weight_insert _ i _ Quit Hi) as Hw. cbn [worker_weight] in Hw. lia.
  - keep. pose proof (queue_tasks_spec (max_task_size_ p) cb k (thread_main_cbs_ p)) as Hs. rewrite Hq in Hs.
    destruct Hs as (Hk & -> & _). rewrite Ho, length_app, length_replicate. cbn [owner_weight in_progress]. lia.
  - keep. pose proof (queue_tasks_spec (max_task_size_ p) cb k (thread_main_cbs_ p)) as Hs. rewrite Hq in Hs.
    destruct Hs as (_ & -> & _). apply workers_weight_signal in Hsig as [Hs Hl]. rewrite Hl, Ho, length_app, length_replicate.
    destruct rest as [|[cb' k'] rest]; [destruct (final_ p); cbn; lia|]; cbn [next_owner owner_weight in_progress map list_sum length fold_right];
      fold (list_sum (map call_weight rest)); unfold call_weight at 2; cbn [snd]; lia.
  - keep. rewrite Ho, length_map. pose proof (workers_weight_wake (threads_ p)). cbn [owner_weight in_progress]. lia.
  - keep. rewrite Ho. cbn [owner_weight in_progress length]. lia.
Qed.

End Inv.

End Pool.

(** An idle pool of two workers whose queue holds one task: [joinall] queues one null callback
    and waits for room, before it signals the workers, and nobody ever runs again. *)
Definition hung : pool (A := Z) :=
  mkPool 2 1 joinall true [None] [Waiting; Waiting] (FullWaiting None 1 []).

Example joinall_hangs : steps (start (A := Z) 2 1 joinall []) [] hung /\ forall e p, ~ step hung e p.
Proof.
  split.
  - apply (steps_snoc _ [] (mkPool 2 1 joinall true [] [Waiting; Waiting] (Queueing None 2 [])) []).
    2: apply (step_queue_full (mkPool 2 1 joinall true [] [Waiting; Waiting] (Queueing None 2 [])) None 2 [] 0); reflexivity.
    apply (steps_snoc _ [] (mkPool 2 1 joinall true [] [Waiting; Top] (Queueing None 2 [])) []).
    2: apply (step_take _ 1); [reflexivity|];
       apply (take_waits (mkPool 2 1 joinall true [] [Waiting; Top] (Queueing None 2 [])) 1); reflexivity.
    apply (steps_snoc _ [] (start 2 1 joinall []) []); [constructor|].
    apply (step_take _ 0); [reflexivity|]. apply (take_waits (start 2 1 joinall []) 0); reflexivity.
  - intros e p Hst. inversion Hst as [? i ? ? Hi _|? i a Hi|? i ? Hi _| | | |]; subst; cbn in *; try done;
      destruct i as [|[|i]]; done.
Qed.

(** ** Properties *)

(** C16. The pool, for any number of workers and any interleaving.  When no batch, that of the
    null callbacks of [joinall] included, is larger than the limit of the queue: the tasks taken so
    far and those in the queue are a prefix of what the calls queue, in order; unless the
    last call has returned some thread can take a step that is not a spurious wakeup, and each of
    those steps makes [weight] smaller, so the pool neither hangs nor runs forever;
    and when it has returned every worker has left its loop, the queue is empty, and
    after [joinall] every task was taken. *)
Theorem pool_completes {A : Type} (n : nat) (max_task_size : Z) (fin : final_call)
    (calls : list (option A * nat)) (tr : list event) (p : pool) :
  (0 < n)%nat -> Forall (fun '(cb, _) => cb <> None) calls -> fits max_task_size (all_calls n fin calls) ->
  steps (start n max_task_size fin calls) tr p ->
  (owner_ p <> Done ->
     taken tr ++ thread_main_cbs_ p ++ remaining (owner_ p) = expand (all_calls n fin calls) /\
     exists e p', step p e p') /\
  (forall e p', step p e p' -> (weight p' < weight p)%nat) /\
  (owner_ p = Done ->
     (forall i w, threads_ p !! i = Some w -> w = Quit) /\ thread_main_cbs_ p = [] /\
     (fin = joinall -> taken tr = expand calls ++ replicate n None)).
Proof.
  intros Hn Htasks Hfit Hs.
  pose proof (pool_steps_inv n max_task_size fin calls _ _ _ (start_inv n max_task_size fin calls Hfit) Hs) as I.
  split_and!; [|by eauto using step_weight|].
  - intros Hnd. split; [by apply I | by eapply progress].
  - intros Hd. destruct (inv_done _ _ _ _ _ _ I Hd) as (Hl & Hq & _ & Ht).
    split_and!; [done|done|]. intros Hf. rewrite (Ht Hf), Hf. cbn [all_calls]. by rewrite expand_app, expand_nulls.
Qed.

Lemma pool_completes_witness :
  exists e p', step (start 1 0 joinall [(Some 5, 2%nat)]) e p'.
Proof.
  refine (proj2 (proj1 (pool_completes 1 0 joinall [(Some 5, 2%nat)] [] _ _ _ _ (steps_nil _)) _)).
  - lia.
  - repeat constructor. discriminate.
  - intros H. exfalso. lia.
  - discriminate.
Defined.
