(* ===== verification/Connector.v ===== *)
(** * Connector (src/Connector.h, src/Connector.cc)

    The state machine that connects a socket without blocking and tries again after a
    delay that doubles.  The operations run in the thread of the owner loop, where
    [run_in_own_loop] calls its argument at once.  What they ask of the loop and of the
    owner of the connector is a list of [effect]s, in order; what the kernel answers is
    in their arguments. *)

From S2P Require Import Prelude.

(** ** Definitions *)

Definition kInitRetryDelayMs : Z := 500.
Definition kMaxRetryDelayMs : Z := 30 * 1000.

Inductive States : Type := kDisconnected | kConnecting | kConnected.
#[global] Instance States_eq_dec : EqDecision States.
Proof. solve_decision. Defined.

(** The values of [errno] that [do_connect] tells apart. *)
Definition EPERM : Z := 1.
Definition EINTR : Z := 4.
Definition EBADF : Z := 9.
Definition EAGAIN : Z := 11.
Definition EACCES : Z := 13.
Definition EFAULT : Z := 14.
Definition ENOTSOCK : Z := 88.
Definition EAFNOSUPPORT : Z := 97.
Definition EADDRINUSE : Z := 98.
Definition EADDRNOTAVAIL : Z := 99.
Definition ENETUNREACH : Z := 101.
Definition EISCONN : Z := 106.
Definition ECONNREFUSED : Z := 111.
Definition EALREADY : Z := 114.
Definition EINPROGRESS : Z := 115.

(** [connect_channel_]: whether it is there, and whether it watches for write events and is
    registered ([true]) or has no event and was removed from the poller ([false]). *)
Record Connector : Type := mkConnector {
  connect_ : bool;
  state_ : States;
  retry_delay_ms_ : Z;
  time_id_ : option nat;
  connect_socket_ : option Z;
  connect_channel_ : option bool;
}.

Definition make_connector : Connector := mkConnector false kDisconnected kInitRetryDelayMs None None None.

Definition set_connect b c := mkConnector b (state_ c) (retry_delay_ms_ c) (time_id_ c) (connect_socket_ c) (connect_channel_ c).
Definition set_state s c := mkConnector (connect_ c) s (retry_delay_ms_ c) (time_id_ c) (connect_socket_ c) (connect_channel_ c).
Definition set_delay d c := mkConnector (connect_ c) (state_ c) d (time_id_ c) (connect_socket_ c) (connect_channel_ c).
Definition set_time_id t c := mkConnector (connect_ c) (state_ c) (retry_delay_ms_ c) t (connect_socket_ c) (connect_channel_ c).
Definition set_socket s c := mkConnector (connect_ c) (state_ c) (retry_delay_ms_ c) (time_id_ c) s (connect_channel_ c).
Definition set_channel h c := mkConnector (connect_ c) (state_ c) (retry_delay_ms_ c) (time_id_ c) (connect_socket_ c) h.

Inductive effect : Type :=
| QueueResetChannel                       (** [queue_in_own_loop(reset_channel)] *)
| RunAfter (delay_ms : Z) (timer : nat)   (** [run_after(delay, start_in_own_loop)] *)
| Cancel (timer : nat)
| NewConnect (fd : Z)                     (** [new_connect_cb_], which takes the socket *)
| ErrorConnect.                           (** [error_connect_cb_] *)

(** What the system answers: the descriptor of a new socket, the [errno] that [connect]
    leaves, and the identity of a new timer. *)
Record answer : Type := mkAnswer { new_fd : Z; connect_errno : Z; new_timer : nat }.

Abbreviation result := (outcome (Connector * list effect)) (only parsing).

Definition remove_and_reset_channel (c : Connector) : Connector * list effect :=
  (match connect_channel_ c with Some true => set_channel (Some false) c | _ => c end, [QueueResetChannel]).

Definition reset_channel (c : Connector) : Connector := set_channel None c.

Definition in_connect (c : Connector) : result :=
  check (bool_decide (connect_socket_ c <> None)) "in_connect: connect_socket_";;
  check (bool_decide (connect_channel_ c = None)) "in_connect: connect_channel_";;
  Ok (set_channel (Some true) (set_state kConnecting c), []).

Definition retry_in_own_loop (a : answer) (c : Connector) : Connector * list effect :=
  let c := set_socket None (set_state kDisconnected c) in
  if connect_ c then
    (set_delay (Z.min (retry_delay_ms_ c * 2) kMaxRetryDelayMs) (set_time_id (Some (new_timer a)) c),
     [RunAfter (retry_delay_ms_ c) (new_timer a)])
  else (c, []).

Definition do_connect (a : answer) (c : Connector) : result :=
  check (bool_decide (connect_socket_ c = None)) "do_connect: connect_socket_";;
  let c := set_socket (Some (new_fd a)) c in
  let e := connect_errno a in
  if bool_decide (e ∈ [0; EINTR; EISCONN; EINPROGRESS]) then in_connect c
  else if bool_decide (e ∈ [EAGAIN; EADDRNOTAVAIL; EADDRINUSE; ENETUNREACH; ECONNREFUSED]) then
    Ok (retry_in_own_loop a c)
  else Ok (set_socket None c, []).

Definition start_in_own_loop (a : answer) (c : Connector) : result :=
  check (bool_decide (state_ c = kDisconnected)) "start_in_own_loop";;
  if connect_ c then do_connect a c else Ok (c, []).

Definition stop_in_own_loop (c : Connector) : Connector * list effect :=
  let '(c, e) := remove_and_reset_channel (set_state kDisconnected c) in
  (set_socket None c, e).

Definition start (a : answer) (c : Connector) : result :=
  if connect_ c then Ok (c, []) else start_in_own_loop a (set_connect true c).

Definition stop (c : Connector) : Connector * list effect :=
  if connect_ c then
    let '(c, e) := stop_in_own_loop (set_connect false c) in
    (c, e ++ match time_id_ c with Some t => [Cancel t] | None => [] end)
  else (c, []).

Definition retry (a : answer) (c : Connector) : Connector * list effect :=
  retry_in_own_loop a (set_connect true c).

Definition restart (a : answer) (c : Connector) : result :=
  start_in_own_loop a (set_connect true (set_state kDisconnected (set_delay kInitRetryDelayMs c))).

(** [err] is the pending error of the socket. *)
Definition handle_write (err : Z) (c : Connector) : result :=
  match state_ c with
  | kConnecting =>
      check (bool_decide (connect_socket_ c <> None)) "handle_write: connect_socket_";;
      let '(c, e) := remove_and_reset_channel c in
      if negb (err =? 0) then Ok (set_state kDisconnected (set_socket None c), e ++ [ErrorConnect])
      else
        let fd := connect_socket_ c in
        let c := set_socket None (set_state kConnected c) in
        if connect_ c then Ok (c, e ++ match fd with Some fd => [NewConnect fd] | None => [] end)
        else Ok (c, e)
  | _ => check (bool_decide (state_ c = kDisconnected)) "handle_write: state_";; Ok (c, [])
  end.

Definition handle_error (err : Z) (c : Connector) : result :=
  match state_ c with
  | kConnecting =>
      check (bool_decide (connect_socket_ c <> None)) "handle_error: connect_socket_";;
      let '(c, e) := remove_and_reset_channel c in
      let c := set_state kDisconnected (set_socket None c) in
      Ok (c, e ++ if negb (err =? 0) then [ErrorConnect] else [])
  | _ => Ok (c, [])
  end.

(** The destructor. *)
Definition destroy_connector (c : Connector) : outcome unit :=
  check (bool_decide (connect_socket_ c = None)) "~Connector: connect_socket_";;
  check (bool_decide (connect_channel_ c = None)) "~Connector: connect_channel_".

(** ** Lemmas *)

(** A socket and a registered channel exactly while connecting; the delay in its range. *)
Record wf (c : Connector) : Prop := {
  wf_socket : connect_socket_ c <> None <-> state_ c = kConnecting;
  wf_channel : connect_channel_ c = Some true <-> state_ c = kConnecting;
  wf_delay : kInitRetryDelayMs <= retry_delay_ms_ c <= kMaxRetryDelayMs;
}.

(** The delays of consecutive retries. *)
Definition backoff (k : nat) : Z := Z.min (kInitRetryDelayMs * 2 ^ Z.of_nat k) kMaxRetryDelayMs.

Lemma backoff_next k : Z.min (backoff k * 2) kMaxRetryDelayMs = backoff (S k).
Proof.
  unfold backoff, kInitRetryDelayMs, kMaxRetryDelayMs. rewrite Nat2Z.inj_succ, Z.pow_succ_r by lia.
  assert (0 < 2 ^ Z.of_nat k) by lia. lia.
Qed.

Lemma wf_make : wf make_connector.
Proof. split; cbn; [done | done | unfold kInitRetryDelayMs, kMaxRetryDelayMs; lia]. Qed.
