(* ===== verification/TcpClient.v ===== *)
(** * TcpClient (include/TcpClient.h, src/TcpClient.cc)

    The client: its connector, the connection it hands out, and the part of the owner
    loop they use, that is the queue of functors and the timers.  An iteration of the
    loop handles events and then runs the functors that are queued; functors they queue
    run in the next iteration.  A connection is known by its number; its own
    behaviour is the subject of [TcpConnection].

    The file shows that connecting, failing, retrying with a growing delay, closing and
    connecting again never run into one of the checks of both classes, as long as the user
    calls the client between iterations and connects only when the last
    connection is gone; and what happens otherwise. *)

From S2P Require Import Prelude Connector.

(** ** Definitions *)

Inductive task : Type :=
| TResetChannel           (** [Connector::reset_channel] *)
| TRetry                  (** [Connector::retry] *)
| TClose (conn : Z)       (** [TcpConnection::force_close_in_loop] *)
| TDestroyed (conn : Z).  (** [TcpConnection::connect_destroyed] *)

Inductive phase : Type := Events | Functors.

#[global] Instance phase_eq_dec : EqDecision phase.
Proof. solve_decision. Defined.
#[global] Instance task_eq_dec : EqDecision task.
Proof. solve_decision. Defined.

Record TcpClient : Type := mkClient {
  connector_ : Connector;
  client_connect_ : bool;
  retry_ : bool;
  connection_ : option Z;
  next_conn_id_ : Z;
  (* the loop *)
  phase_ : phase;
  batch : list task;       (* the functors this iteration runs *)
  pending : list task;     (* those queued since *)
  timers : list nat;
  next_timer : nat;
  (* the connections that are not closed, and those made in this iteration *)
  alive : list Z;
  fresh : list Z;
}.

Definition make_tcp_client : TcpClient :=
  mkClient make_connector false false None 1 Functors [] [] [] 0 [] [].

Definition set_connector c s := mkClient c (client_connect_ s) (retry_ s) (connection_ s) (next_conn_id_ s) (phase_ s) (batch s) (pending s) (timers s) (next_timer s) (alive s) (fresh s).
Definition set_flags b r s := mkClient (connector_ s) b r (connection_ s) (next_conn_id_ s) (phase_ s) (batch s) (pending s) (timers s) (next_timer s) (alive s) (fresh s).
Definition set_connection o s := mkClient (connector_ s) (client_connect_ s) (retry_ s) o (next_conn_id_ s) (phase_ s) (batch s) (pending s) (timers s) (next_timer s) (alive s) (fresh s).
Definition set_loop ph b p s := mkClient (connector_ s) (client_connect_ s) (retry_ s) (connection_ s) (next_conn_id_ s) ph b p (timers s) (next_timer s) (alive s) (fresh s).
Definition set_timers ts n s := mkClient (connector_ s) (client_connect_ s) (retry_ s) (connection_ s) (next_conn_id_ s) (phase_ s) (batch s) (pending s) ts n (alive s) (fresh s).
Definition set_conns n al fr s := mkClient (connector_ s) (client_connect_ s) (retry_ s) (connection_ s) n (phase_ s) (batch s) (pending s) (timers s) (next_timer s) al fr.

Definition queue_in_own_loop (t : task) (s : TcpClient) : TcpClient :=
  set_loop (phase_ s) (batch s) (pending s ++ [t]) s.

(** [closes]: the connect callback of the user calls [force_close]. *)
Definition new_connection (closes : bool) (fd : Z) (s : TcpClient) : outcome TcpClient :=
  let id := next_conn_id_ s in
  defined (id <? kInt32Max) "next_conn_id_++";;
  let s := set_connection (Some id) (set_conns (id + 1) (id :: alive s) (id :: fresh s) s) in
  Ok (if closes then queue_in_own_loop (TClose id) s else s).

(** [unique]: nobody else holds the connection.  The close callback that is replaced here is a field of
    the connection. *)
Definition connect_destroyed (unique : bool) (s : TcpClient) : TcpClient :=
  match connection_ s with
  | Some conn => if unique then queue_in_own_loop (TClose conn) s else s
  | None => s
  end.

Definition handle_retry (unique : bool) (s : TcpClient) : TcpClient :=
  let s := connect_destroyed unique s in
  if retry_ s && client_connect_ s then queue_in_own_loop TRetry s else s.

(** What the user and the rest of the program contribute to a step. *)
Record choice : Type := mkChoice { user_closes : bool; conn_unique : bool; answer_fd : Z; answer_errno : Z }.

Definition run_effect (ch : choice) (e : effect) (s : TcpClient) : outcome TcpClient :=
  match e with
  | QueueResetChannel => Ok (queue_in_own_loop TResetChannel s)
  | RunAfter _ t => Ok (set_timers (t :: timers s) (S (next_timer s)) s)
  | Cancel t => Ok (set_timers (filter (fun u => u <> t) (timers s)) (next_timer s) s)
  | NewConnect fd => new_connection (user_closes ch) fd s
  | ErrorConnect => Ok (handle_retry (conn_unique ch) s)
  end.

Fixpoint run_effects (ch : choice) (es : list effect) (s : TcpClient) : outcome TcpClient :=
  match es with
  | [] => Ok s
  | e :: es => s ← run_effect ch e s; run_effects ch es s
  end.

(** A call of the connector. *)
Definition answer_of (ch : choice) (s : TcpClient) : answer := mkAnswer (answer_fd ch) (answer_errno ch) (next_timer s).
Definition with_connector (ch : choice) (r : Connector * list effect) (s : TcpClient) : outcome TcpClient :=
  run_effects ch r.2 (set_connector r.1 s).

Definition connect (ch : choice) (s : TcpClient) : outcome TcpClient :=
  if client_connect_ s then Ok s
  else
    let s := set_flags true (retry_ s) s in
    r ← start (answer_of ch s) (connector_ s); with_connector ch r s.

(** [connection_->shutdown()] is the connection's business. *)
Definition disconnect (s : TcpClient) : TcpClient :=
  if client_connect_ s then set_flags false (retry_ s) s else s.

Definition client_stop (ch : choice) (s : TcpClient) : outcome TcpClient :=
  if client_connect_ s then
    let s := set_flags false (retry_ s) s in with_connector ch (stop (connector_ s)) s
  else Ok s.

Definition enable_retry (s : TcpClient) : TcpClient := set_flags (client_connect_ s) true s.
Definition disable_retry (s : TcpClient) : TcpClient := set_flags (client_connect_ s) false s.

Definition remove_connection (ch : choice) (conn : Z) (s : TcpClient) : outcome TcpClient :=
  check (bool_decide (connection_ s = Some conn)) "remove_connection";;
  let s := queue_in_own_loop (TDestroyed conn) (set_connection None s) in
  if retry_ s && client_connect_ s then r ← restart (answer_of ch s) (connector_ s); with_connector ch r s
  else Ok s.

(** [~TcpClient]; [others] counts the owners of the connection besides [connection_] and the local [conn].
    The timer that keeps the connector for a second more only releases it. *)
Definition destroy_client (others : nat) (ch : choice) (s : TcpClient) : outcome TcpClient :=
  match connection_ s with
  | Some _ => Ok (connect_destroyed (bool_decide (2 + others = 1)%nat) s)
  | None => with_connector ch (stop (connector_ s)) s
  end.

(** The connection closes and calls its finish callback. *)
Definition close_connection (ch : choice) (conn : Z) (s : TcpClient) : outcome TcpClient :=
  remove_connection ch conn (set_conns (next_conn_id_ s) (filter (fun c => c <> conn) (alive s)) (fresh s) s).

Definition run_task (ch : choice) (t : task) (s : TcpClient) : outcome TcpClient :=
  match t with
  | TResetChannel => Ok (set_connector (reset_channel (connector_ s)) s)
  | TRetry => with_connector ch (retry (answer_of ch s) (connector_ s)) s
  | TClose conn => if bool_decide (conn ∈ alive s) then close_connection ch conn s else Ok s
  | TDestroyed _ => Ok s
  end.

(** *** The loop and the user *)

Inductive action : Type :=
| ChannelEvent (error write : bool) (err : Z)  (** [handle_event] of the channel of the connector *)
| TimerFires (t : nat)
| ConnectionCloses (conn : Z)                  (** an event of a connection *)
| RunFunctors | RunTask | Poll
| UserConnect | UserDisconnect | UserStop | UserRetry (on : bool).

Definition is_idle (s : TcpClient) : bool := bool_decide (batch s = [] /\ pending s = []).

(** What the loop can do next, and when the user calls.  The channel may have an event left
    of this iteration after [stop]; a connection has none in the iteration that made it. *)
Definition enabled (a : action) (s : TcpClient) : bool :=
  match a with
  | ChannelEvent _ _ _ =>
      bool_decide (phase_ s = Events) &&
      match connect_channel_ (connector_ s) with
      | Some true => true
      | Some false => bool_decide (state_ (connector_ s) = kDisconnected)
      | None => false
      end
  | TimerFires t => bool_decide (phase_ s = Events /\ t ∈ timers s)
  | ConnectionCloses conn => bool_decide (phase_ s = Events /\ conn ∈ alive s /\ conn ∉ fresh s)
  | RunFunctors => bool_decide (phase_ s = Events)
  | RunTask => bool_decide (phase_ s = Functors /\ batch s <> [])
  | Poll => bool_decide (phase_ s = Functors /\ batch s = [])
  | UserConnect => is_idle s && bool_decide (connection_ s = None)
  | UserDisconnect | UserStop | UserRetry _ => is_idle s
  end.

Definition exec (a : action) (ch : choice) (s : TcpClient) : outcome TcpClient :=
  match a with
  | ChannelEvent error write err =>
      s ← (if error then r ← handle_error err (connector_ s); with_connector ch r s else Ok s);
      if write then r ← handle_write err (connector_ s); with_connector ch r s else Ok s
  | TimerFires t =>
      let s := set_timers (filter (fun u => u <> t) (timers s)) (next_timer s) s in
      r ← start_in_own_loop (answer_of ch s) (connector_ s); with_connector ch r s
  | ConnectionCloses conn => close_connection ch conn s
  | RunFunctors => Ok (set_loop Functors (pending s) [] s)
  | RunTask =>
      match batch s with
      | [] => Ok s
      | t :: b => run_task ch t (set_loop (phase_ s) b (pending s) s)
      end
  | Poll => Ok (set_loop Events [] (pending s) (set_conns (next_conn_id_ s) (alive s) [] s))
  | UserConnect => connect ch s
  | UserDisconnect => Ok (disconnect s)
  | UserStop => client_stop ch s
  | UserRetry on => Ok (if on then enable_retry s else disable_retry s)
  end.

Inductive reachable : TcpClient -> Prop :=
| reachable_make : reachable make_tcp_client
| reachable_step s a ch s' : reachable s -> enabled a s = true -> exec a ch s = Ok s' -> reachable s'.

(** ** Lemmas *)

Definition tasks (s : TcpClient) : list task := batch s ++ pending s.
Definition retries (ts : list task) : nat := length (filter (fun t => t = TRetry) ts).

(** The channel is reset once, before a queued retry and before a queued close of the
    connection run. *)
Definition reset_first (conn : option Z) (ts : list task) : Prop :=
  exists pre post, ts = pre ++ TResetChannel :: post /\ (TResetChannel ∉ pre ++ post) /\ (TRetry ∉ pre) /\
    forall id, conn = Some id -> TClose id ∉ pre.

Record inv (s : TcpClient) : Prop := {
  i_wf : wf (connector_ s);
  i_timers : timers s = [] \/
    exists t, timers s = [t] /\ time_id_ (connector_ s) = Some t /\ state_ (connector_ s) = kDisconnected /\
      connection_ s = None /\ retries (tasks s) = 0%nat;
  i_retry : (0 < retries (tasks s))%nat -> retries (tasks s) = 1%nat /\ state_ (connector_ s) = kDisconnected /\ connection_ s = None;
  i_removed : connect_channel_ (connector_ s) = Some false -> TResetChannel ∈ tasks s;
  i_reset : TResetChannel ∈ tasks s ->
    timers s = [] /\ state_ (connector_ s) <> kConnecting /\ reset_first (connection_ s) (tasks s);
  i_conn id : connection_ s = Some id -> state_ (connector_ s) <> kConnecting;
  i_alive id : id ∈ alive s -> connection_ s = Some id;
  i_ids id : TClose id ∈ tasks s \/ connection_ s = Some id -> id < next_conn_id_ s;
  i_phase : phase_ s = Events -> batch s = [];
  i_fresh id : connection_ s = Some id -> TResetChannel ∈ tasks s -> client_connect_ s = true ->
    match phase_ s with Events => id ∈ fresh s | Functors => TResetChannel ∈ batch s end;
  i_off : connect_ (connector_ s) = false -> state_ (connector_ s) = kDisconnected /\ timers s = [];
}.

Lemma make_inv : inv make_tcp_client.
Proof.
  split; try done; [by left | unfold retries; cbn; lia | | | ].
  - intros H. by apply not_elem_of_nil in H.
  - intros id H. by apply not_elem_of_nil in H.
  - intros id [H|H]; [by apply not_elem_of_nil in H|done].
Qed.

(** A state from which the connector may start: nothing else will make it start. *)
Record ready (s : TcpClient) : Prop := {
  r_inv : inv s;
  r_timers : timers s = [];
  r_retry : retries (tasks s) = 0%nat;
  r_conn : connection_ s = None;
  r_state : state_ (connector_ s) = kDisconnected;
  r_reset : TResetChannel ∉ tasks s;
}.

Ltac fields := cbn [connector_ client_connect_ retry_ connection_ next_conn_id_ phase_ batch pending timers next_timer alive fresh
   set_connector set_flags set_connection set_loop set_timers set_conns queue_in_own_loop tasks
   connect_ state_ retry_delay_ms_ time_id_ connect_socket_ connect_channel_
   set_connect set_state set_delay set_time_id set_socket set_channel reset_channel
   run_effects run_effect with_connector answer_of new_fd connect_errno new_timer fst snd app] in *.

Lemma start_ok ch s :
  ready s -> exists s', (r ← start_in_own_loop (answer_of ch s) (connector_ s); with_connector ch r s) = Ok s' /\ inv s'.
Proof.
  intros [I Ht Hr Hc Hs Hq]. pose proof I as [[Hw1 Hw2 Hw3] _ Hret Hrem _ _ Hal Hids Hph Hfr Hoff].
  assert (Hch : connect_channel_ (connector_ s) = None).
  { destruct (connect_channel_ (connector_ s)) as [[]|]; [|by destruct (Hq (Hrem eq_refl))|done].
    rewrite Hs in Hw2. by discriminate (proj1 Hw2 eq_refl). }
  assert (Hsock : connect_socket_ (connector_ s) = None).
  { destruct (connect_socket_ (connector_ s)) eqn:E; [|done]. rewrite Hs in Hw1. by discriminate (proj1 Hw1 ltac:(done)). }
  unfold start_in_own_loop. rewrite check_true, bind_ret by (by apply bool_decide_eq_true).
  destruct (connect_ (connector_ s)) eqn:Econ; [|rewrite bind_ret; exists s; split; [by destruct s|done]].
  unfold do_connect. rewrite check_true, bind_ret by (by apply bool_decide_eq_true).
  destruct s as [[cn st dl ti so chn] cc rt co nx ph b p tm nt al fr]. fields. subst.
  destruct (bool_decide (_ ∈ [0; EINTR; EISCONN; EINPROGRESS])).
  - unfold in_connect. fields. rewrite !check_true, !bind_ret by (by apply bool_decide_eq_true). fields.
    eexists. split; [done|]. split; fields; try done; [by left | lia].
  - destruct (bool_decide (_ ∈ [EAGAIN; EADDRNOTAVAIL; EADDRINUSE; ENETUNREACH; ECONNREFUSED])); fields;
      unfold retry_in_own_loop; fields; rewrite bind_ret; fields; (eexists; split; [done|]);
      split; fields; try done; try lia.
    + split; fields; try done. unfold kInitRetryDelayMs, kMaxRetryDelayMs in *. lia.
    + right. by exists nt.
    + by left.
Qed.


Lemma retries_app ts us : retries (ts ++ us) = (retries ts + retries us)%nat.
Proof. unfold retries. by rewrite filter_app, length_app. Qed.

Lemma retries_0 ts : retries ts = 0%nat <-> TRetry ∉ ts.
Proof.
  unfold retries. rewrite length_zero_iff_nil. split.
  - intros H Hin. assert (Hf : TRetry ∈ filter (fun t => t = TRetry) ts) by (by apply list_elem_of_filter).
    rewrite H in Hf. by apply not_elem_of_nil in Hf.
  - intros H. induction ts as [|t ts IH]; [done|]. apply not_elem_of_cons in H as [Ht H].
    rewrite filter_cons_False by done. auto.
Qed.

Lemma reset_first_app conn ts us : reset_first conn ts -> TResetChannel ∉ us -> reset_first conn (ts ++ us).
Proof.
  intros (pre & post & -> & H & Hr) Hu. exists pre, (post ++ us). rewrite <- app_assoc. split_and!; try apply Hr; [done|].
  rewrite !not_elem_of_app in *. tauto.
Qed.

(** Queued last, with nothing in the queue that must come after it. *)
Lemma reset_first_queued conn ts :
  TResetChannel ∉ ts -> TRetry ∉ ts -> (forall id, conn = Some id -> TClose id ∉ ts) -> reset_first conn (ts ++ [TResetChannel]).
Proof. intros H0 H1 H2. exists ts, []. by rewrite app_nil_r. Qed.

Lemma tasks_queue t s : tasks (queue_in_own_loop t s) = tasks s ++ [t].
Proof. unfold tasks. cbn. by rewrite app_assoc. Qed.

Lemma elem_of_queued (t u : task) ts : u ∈ ts ++ [t] <-> u ∈ ts \/ u = t.
Proof. by rewrite elem_of_app, list_elem_of_singleton. Qed.

(** A functor that is not about the channel, a retry or a connection to be. *)
Lemma queue_inv t s :
  inv s -> t <> TResetChannel -> t <> TRetry -> (forall id, t = TClose id -> id < next_conn_id_ s) ->
  inv (queue_in_own_loop t s).
Proof.
  intros [Hw Ht Hr Hrem Hres Hc Hal Hids Hph Hfr Hoff] H1 H2 Hid.
  assert (Hn : retries (tasks s ++ [t]) = retries (tasks s)) by (rewrite retries_app; destruct t; try done; cbn; lia).
  split; rewrite ?tasks_queue, ?elem_of_queued, ?Hn; fields; try done.
  - intros E. left. by apply Hrem.
  - intros [H|H]; [|congruence]. destruct (Hres H) as (? & ? & ?). split_and!; try done.
    apply reset_first_app; [done|]. rewrite list_elem_of_singleton. congruence.
  - intros id. rewrite elem_of_queued. intros [[H|H]|H]; [apply Hids; tauto|by apply Hid|apply Hids; tauto].
  - intros id E. rewrite elem_of_queued. intros [H|H] E2; [|congruence]. by apply Hfr.
Qed.

(** While connecting nothing else is going on. *)
Lemma connecting_facts s :
  inv s -> state_ (connector_ s) = kConnecting ->
  timers s = [] /\ retries (tasks s) = 0%nat /\ connection_ s = None /\ (forall id, id ∉ alive s) /\ (TResetChannel ∉ tasks s) /\
  connect_ (connector_ s) = true /\ connect_channel_ (connector_ s) = Some true /\
  exists fd, connect_socket_ (connector_ s) = Some fd.
Proof.
  intros [[Hw1 Hw2 _] Ht Hr _ Hres Hc Hal _ _ _ Hoff] Hs. split_and!.
  - destruct Ht as [?|(t & _ & _ & E & _)]; [done|congruence].
  - destruct (decide (retries (tasks s) = 0%nat)); [done|]. destruct Hr as (_ & E & _); [lia|congruence].
  - destruct (connection_ s) eqn:E; [|done]. by destruct (Hc _ eq_refl).
  - intros id H. by destruct (Hc id (Hal _ H)).
  - intros H. by destruct (Hres H) as (_ & ? & _).
  - destruct (connect_ (connector_ s)) eqn:E; [done|]. destruct (Hoff eq_refl). congruence.
  - by apply Hw2.
  - apply Hw1 in Hs. destruct (connect_socket_ (connector_ s)); [eauto|done].
Qed.

(** The attempt to connect is over: the channel is removed and will be reset. *)
Definition settled (st : States) (s : TcpClient) : TcpClient :=
  queue_in_own_loop TResetChannel
    (set_connector (set_state st (set_socket None (set_channel (Some false) (connector_ s)))) s).

Lemma settled_inv st s : inv s -> state_ (connector_ s) = kConnecting -> st <> kConnecting -> inv (settled st s).
Proof.
  intros I Hs Hst. destruct (connecting_facts s I Hs) as (Ht & Hr & Hc & Hal & Hnr & Hon & _). destruct I as [[_ _ Hw3] _ _ _ _ _ _ Hids Hph _ _].
  assert (Hts : tasks (settled st s) = tasks s ++ [TResetChannel]) by (unfold settled; by rewrite tasks_queue).
  split; rewrite ?Hts, ?elem_of_queued; unfold settled; fields; rewrite ?Hc, ?Ht; try done.
  - by left.
  - rewrite retries_app, Hr. change (retries [TResetChannel]) with 0%nat. lia.
  - by right.
  - intros _. split_and!; try done. apply reset_first_queued; [done|by apply retries_0|done].
  - intros id H. by destruct (Hal id).
  - intros id. rewrite elem_of_queued. intros [[H|H]|H]; try done. apply Hids. by left.
  - congruence.
Qed.

Lemma handle_retry_inv u s :
  inv s -> connection_ s = None -> timers s = [] -> retries (tasks s) = 0%nat ->
  state_ (connector_ s) = kDisconnected -> inv (handle_retry u s).
Proof.
  intros I Hc Ht Hr Hs. unfold handle_retry, connect_destroyed. rewrite Hc.
  destruct (retry_ s && client_connect_ s); [|done].
  destruct I as [Hw _ _ Hrem Hres _ Hal Hids Hph Hfr Hoff].
  split; rewrite ?tasks_queue, ?elem_of_queued; fields; rewrite ?Hc in *; try done.
  - by left.
  - rewrite retries_app, Hr. done.
  - intros E. left. by apply Hrem.
  - intros [H|H]; [|done]. destruct (Hres H) as (? & ? & ?). split_and!; try done.
    apply reset_first_app; [done|]. by rewrite list_elem_of_singleton.
  - intros id. rewrite elem_of_queued. intros [[H|H]|H]; try done. apply Hids. by left.
Qed.

Lemma settled_retries st s : retries (tasks (settled st s)) = retries (tasks s).
Proof. unfold settled. rewrite tasks_queue, retries_app. change (retries [TResetChannel]) with 0%nat. apply Nat.add_0_r. Qed.

Lemma connect_fails u s :
  inv s -> state_ (connector_ s) = kConnecting ->
  inv (handle_retry u (settled kDisconnected s)) /\
  state_ (connector_ (handle_retry u (settled kDisconnected s))) = kDisconnected.
Proof.
  intros I Hs. destruct (connecting_facts s I Hs) as (Ht & Hr & Hc & _). split.
  - apply handle_retry_inv; try done; [by apply settled_inv|by rewrite settled_retries].
  - unfold handle_retry, connect_destroyed, settled. fields. rewrite Hc. fields. by destruct (_ && _).
Qed.

Lemma handle_error_ok ch err s :
  inv s -> state_ (connector_ s) <> kConnected ->
  exists s', (r ← handle_error err (connector_ s); with_connector ch r s) = Ok s' /\ inv s' /\
    (s' = s \/ state_ (connector_ s') = kDisconnected) /\ state_ (connector_ s') <> kConnected.
Proof.
  intros I Hs. unfold handle_error. destruct (state_ (connector_ s)) eqn:E; [|clear Hs|done].
  - rewrite bind_ret. exists s. rewrite E. split_and!; try done; [by destruct s | by left].
  - destruct (connecting_facts s I E) as (_ & _ & _ & _ & _ & _ & Hch & fd & Hfd).
    rewrite check_true, bind_ret by (apply bool_decide_eq_true; by rewrite Hfd).
    unfold remove_and_reset_channel. rewrite Hch. rewrite bind_ret. unfold with_connector.
    destruct (connect_fails (conn_unique ch) s I E) as [I' E'].
    destruct (negb (err =? 0)); cbn [fst snd app run_effects run_effect]; rewrite !bind_ret; eexists; (split; [done|]).
    + split_and!; [exact I' | right; exact E' | intros H; discriminate (eq_trans (eq_sym E') H)].
    + split_and!; [by apply (settled_inv kDisconnected) | by right | done].
Qed.

(** An operation either ends well or runs out of connection numbers. *)
Definition fine (s : TcpClient) (m : outcome TcpClient) : Prop :=
  (exists s', m = Ok s' /\ inv s') \/ (m = Fault (Undefined "next_conn_id_++") /\ kInt32Max <= next_conn_id_ s).

Lemma accept_inv s :
  inv s -> state_ (connector_ s) = kConnecting -> phase_ s = Events ->
  let id := next_conn_id_ s in
  inv (set_connection (Some id) (set_conns (id + 1) (id :: alive s) (id :: fresh s) (settled kConnected s))).
Proof.
  intros I E Hph id. destruct (connecting_facts s I E) as (Ht & Hr & Hc & Hal & Hnr & Hon & _).
  pose proof (settled_inv kConnected s I E ltac:(done)) as [Hw _ _ Hrem Hres _ _ Hids Hph' _ Hoff].
  set (s1 := settled kConnected s) in *.
  assert (Hts : tasks s1 = tasks s ++ [TResetChannel]) by (unfold s1, settled; by rewrite tasks_queue).
  assert (Hr1 : retries (tasks s1) = 0%nat) by (unfold s1; by rewrite settled_retries).
  split; change (tasks (set_connection _ _)) with (tasks s1); fields; rewrite ?Hr1; try done.
  - by left.
  - lia.
  - intros H. destruct (Hres H) as (? & ? & _). split_and!; try done. rewrite Hts.
    apply reset_first_queued; [done|by apply retries_0|]. intros id' [= <-] Hin.
    destruct I as [_ _ _ _ _ _ _ Hids0 _ _ _]. specialize (Hids0 id (or_introl Hin)). unfold id in Hids0. lia.
  - intros id' H. apply elem_of_cons in H as [->|H]; [done|by destruct (Hal id')].
  - intros id' [H|[= <-]]; [|unfold id; lia]. specialize (Hids id' (or_introl H)). change (next_conn_id_ s1) with id in Hids. lia.
  - intros id' [= <-] _ _. change (phase_ s1) with (phase_ s). rewrite Hph. left.
Qed.

Lemma connector_write_ok ch err s :
  inv s -> state_ (connector_ s) <> kConnected ->
  (state_ (connector_ s) = kConnecting -> phase_ s = Events) ->
  fine s (r ← handle_write err (connector_ s); with_connector ch r s).
Proof.
  intros I Hs Hn. unfold handle_write. destruct (state_ (connector_ s)) eqn:E; [|pose proof (Hn eq_refl) as Hph; clear Hs|done].
  - rewrite check_true, !bind_ret by done. left. exists s. split; [by destruct s|done].
  - destruct (connecting_facts s I E) as (Ht & Hr & Hc & Hal & Hnr & Hon & Hch & fd & Hfd).
    rewrite check_true, bind_ret by (apply bool_decide_eq_true; by rewrite Hfd).
    unfold remove_and_reset_channel. rewrite Hch. unfold with_connector. destruct (negb (err =? 0)).
    + rewrite bind_ret. cbn [fst snd app run_effects run_effect]. rewrite !bind_ret. left. eexists. split; [done|].
      by apply connect_fails.
    + fields. rewrite Hon, Hfd, bind_ret. cbn [fst snd app run_effects run_effect]. rewrite bind_ret.
      pose proof (settled_inv kConnected s I E ltac:(done)) as I'. change (queue_in_own_loop TResetChannel (set_connector _ s)) with (settled kConnected s).
      unfold new_connection. cbv zeta. destruct (Z.ltb_spec (next_conn_id_ (settled kConnected s)) kInt32Max) as [Hid|Hid]; [|by right].
      rewrite defined_true, !bind_ret by done. left.
      eexists. split; [done|]. set (s1 := set_connection _ _).
      assert (I1 : inv s1) by exact (accept_inv s I E Hph).
      destruct (user_closes ch); [|done]. apply queue_inv; try done. intros id [= <-]. cbn. lia.
Qed.

Lemma channel_event_ok ch error write err s :
  inv s -> enabled (ChannelEvent error write err) s = true -> fine s (exec (ChannelEvent error write err) ch s).
Proof.
  intros I [Hph%bool_decide_eq_true He]%andb_prop. cbn [exec].
  assert (Hs : state_ (connector_ s) <> kConnected).
  { destruct (connect_channel_ (connector_ s)) as [[]|] eqn:E; [|by apply bool_decide_eq_true in He; rewrite He|done].
    rewrite (proj1 (wf_channel _ (i_wf _ I)) E). done. }
  destruct error; [|rewrite bind_ret; destruct write; [by apply connector_write_ok|left; by exists s]].
  destruct (handle_error_ok ch err s I Hs) as (s1 & -> & I1 & Hor & Hs1). rewrite bind_ret.
  destruct write; [|left; by exists s1]. destruct Hor as [->|E'].
  - by apply connector_write_ok.
  - destruct (connector_write_ok ch err s1) as [?|[E1 _]]; try done; [congruence|by left|]. left.
    unfold handle_write in *. rewrite E' in *. done.
Qed.

Lemma filter_alone (t : nat) : filter (fun u => u <> t) [t] = [].
Proof. rewrite filter_cons_False by auto. done. Qed.

Lemma timer_ok ch t s : inv s -> t ∈ timers s -> exists s', exec (TimerFires t) ch s = Ok s' /\ inv s'.
Proof.
  intros [Hw [Ht|(t' & Ht & _ & Hs & Hc & Hr)] Hret Hrem Hres _ Hal Hids Hph Hfr Hoff] Hin; rewrite Ht in Hin.
  { by apply not_elem_of_nil in Hin. }
  apply list_elem_of_singleton in Hin as ->. cbn [exec]. rewrite Ht, filter_alone. apply start_ok.
  assert (Hq : TResetChannel ∉ tasks s) by (intros H; destruct (Hres H) as [H1 _]; congruence).
  split; try done. split; try done; [by left|]. fields. congruence.
Qed.

(** The state after a connection closed, before a restart. *)
Lemma closed_inv conn s :
  inv s -> connection_ s = Some conn ->
  inv (queue_in_own_loop (TDestroyed conn)
         (set_connection None (set_conns (next_conn_id_ s) (filter (fun c => c <> conn) (alive s)) (fresh s) s))).
Proof.
  intros I Hc. apply queue_inv; try done. destruct I as [Hw Ht Hret Hrem Hres _ Hal Hids Hph Hfr Hoff].
  split; change (tasks (set_connection _ _)) with (tasks s); fields; try done.
  - destruct Ht as [?|(t & ? & ? & ? & ? & ?)]; [by left|congruence].
  - intros H. destruct (Hret H) as (_ & _ & ?). congruence.
  - intros H. destruct (Hres H) as (? & ? & pre & post & ? & ? & ? & _). split_and!; try done. by exists pre, post.
  - intros id H. apply list_elem_of_filter in H as [Hne H]. specialize (Hal _ H). congruence.
  - intros id [H|H]; [|done]. apply Hids. by left.
Qed.

Lemma close_ok ch conn s :
  inv s -> connection_ s = Some conn -> (client_connect_ s = true -> TResetChannel ∉ tasks s) ->
  exists s', close_connection ch conn s = Ok s' /\ inv s'.
Proof.
  intros I Hc Hq. pose proof (closed_inv conn s I Hc) as I'. unfold close_connection, remove_connection.
  rewrite check_true, bind_ret by (by apply bool_decide_eq_true). cbv zeta.
  set (s1 := queue_in_own_loop _ _) in *. destruct (retry_ s1 && client_connect_ s1) eqn:E; [|by exists s1].
  apply andb_prop in E as [_ Hon]. specialize (Hq Hon).
  set (c := set_connect true (set_state kDisconnected (set_delay kInitRetryDelayMs (connector_ s1)))).
  enough (ready (set_connector c s1)) as Hrd by exact (start_ok ch _ Hrd).
  assert (Hts : tasks s1 = tasks s ++ [TDestroyed conn]) by (unfold s1; by rewrite tasks_queue).
  destruct I as [[Hw1 Hw2 Hw3] Ht Hret Hrem Hres Hcn _ _ _ _ _]. specialize (Hcn _ Hc).
  assert (Hr : retries (tasks s1) = 0%nat).
  { rewrite Hts, retries_app. change (retries [TDestroyed conn]) with 0%nat. destruct (retries (tasks s)); [done|].
    destruct Hret as (_ & _ & H); [lia|congruence]. }
  assert (Hq1 : TResetChannel ∉ tasks s1) by (rewrite Hts, elem_of_queued; by intros [H|H]).
  assert (Htm : timers s1 = []) by (destruct Ht as [?|(t & ? & ? & ? & ? & ?)]; [done|congruence]).
  destruct I' as [Hw' _ _ Hrem' _ _ Hal' Hids' Hph' _ _].
  split; try done. split; try done; change (tasks (set_connector _ _)) with (tasks s1).
  - split; unfold c; fields; [|split; [|done]|unfold kInitRetryDelayMs, kMaxRetryDelayMs; lia].
    + split; [|done]. intros H. by destruct (Hcn (proj1 Hw1 H)).
    + intros H. by destruct (Hcn (proj1 Hw2 H)).
  - by left.
  - rewrite Hr. lia.
Qed.

Lemma reset_first_head conn ts : reset_first conn (TResetChannel :: ts) -> TResetChannel ∉ ts.
Proof.
  intros (pre & post & E & Hn & _). apply not_elem_of_app in Hn as [Hpre Hpost].
  destruct pre as [|t pre]; cbn in E; injection E; [by intros ->|]. intros _ <-. destruct Hpre. left.
Qed.

Lemma reset_first_tail conn t ts :
  reset_first conn (t :: ts) -> t <> TResetChannel ->
  reset_first conn ts /\ t <> TRetry /\ forall id, conn = Some id -> t <> TClose id.
Proof.
  intros (pre & post & E & Hn & Hr & Hc) Ht. destruct pre as [|t' pre]; cbn in E; injection E; [done|]. intros -> <-.
  cbn in Hn. apply not_elem_of_cons in Hn as [_ Hn]. apply not_elem_of_cons in Hr as [Hr1 Hr]. split_and!; try done.
  - exists pre, post. split_and!; try done. intros id Hid. specialize (Hc id Hid). by apply not_elem_of_cons in Hc as [_ ?].
  - intros id Hid. specialize (Hc id Hid). apply not_elem_of_cons in Hc as [? _]. congruence.
Qed.

Definition pop (s : TcpClient) : TcpClient := set_loop (phase_ s) (tail (batch s)) (pending s) s.

Lemma tasks_pop t b s : batch s = t :: b -> tasks s = t :: tasks (pop s).
Proof. intros H. unfold tasks, pop. cbn. by rewrite H. Qed.

Lemma retries_cons t ts : retries (t :: ts) = ((if decide (t = TRetry) then 1 else 0) + retries ts)%nat.
Proof. unfold retries. rewrite filter_cons. by destruct (decide _). Qed.

Lemma pop_inv t b s : inv s -> batch s = t :: b -> t <> TResetChannel -> inv (pop s).
Proof.
  intros [Hw Ht Hret Hrem Hres Hc Hal Hids Hph Hfr Hoff] Hb Hne. pose proof (tasks_pop _ _ _ Hb) as Hts. rewrite Hts in *.
  rewrite retries_cons in *.
  split; try done; change (connector_ (pop s)) with (connector_ s); change (connection_ (pop s)) with (connection_ s).
  - destruct Ht as [?|(t' & ? & ? & ? & ? & ?)]; [by left|]. right. exists t'. split_and!; try done. lia.
  - intros H. destruct Hret as (? & ? & ?); [lia|]. split_and!; try done. lia.
  - intros E. specialize (Hrem E). apply elem_of_cons in Hrem as [H|H]; [congruence|done].
  - intros H. destruct Hres as (? & ? & Hf); [by right|]. split_and!; try done. by apply (reset_first_tail _ t).
  - intros id [H|H]; apply Hids; [left; by right|by right].
  - intros E. cbn. by rewrite Hph.
  - intros id E H Eon. cbn. specialize (Hfr id E ltac:(by right) Eon). destruct (phase_ s); [done|]. rewrite Hb in *.
    apply elem_of_cons in Hfr as [?|?]; [congruence|done].
Qed.

Lemma reset_task_ok b s :
  inv s -> batch s = TResetChannel :: b -> inv (set_connector (reset_channel (connector_ s)) (pop s)).
Proof.
  intros [Hw Ht Hret Hrem Hres Hc Hal Hids Hph Hfr Hoff] Hb. pose proof (tasks_pop _ _ _ Hb) as Hts. rewrite Hts in *.
  rewrite retries_cons in *. destruct (Hres ltac:(left)) as (Htm & Hs & Hf). apply reset_first_head in Hf.
  split; try done; change (tasks (set_connector _ _)) with (tasks (pop s)); fields.
  - by destruct Hw as [Hw1 _ Hw3].
  - intros id [H|H]; apply Hids; [left; by right|by right].
  - intros E. cbn. by rewrite Hph.
Qed.

Lemma retry_task_ok ch b s :
  inv s -> batch s = TRetry :: b ->
  exists s', with_connector ch (retry (answer_of ch (pop s)) (connector_ (pop s))) (pop s) = Ok s' /\ inv s'.
Proof.
  intros I Hb. pose proof (pop_inv _ _ _ I Hb ltac:(done)) as I'. pose proof (tasks_pop _ _ _ Hb) as Hts.
  destruct I as [Hw Ht Hret _ Hres _ _ _ _ _ _]. rewrite Hts in *.
  change (retries (TRetry :: tasks (pop s))) with (S (retries (tasks (pop s)))) in *.
  destruct Hret as (Hr & Hs & Hc); [lia|]. assert (Hr0 : retries (tasks (pop s)) = 0%nat) by lia.
  assert (Htm : timers s = []) by (destruct Ht as [?|(t' & ? & ? & ? & ? & ?)]; [done|lia]).
  assert (Hq : TResetChannel ∉ tasks (pop s)).
  { intros H. destruct Hres as (_ & _ & Hf); [by right|]. by apply reset_first_tail in Hf as (_ & ? & _). }
  unfold retry, retry_in_own_loop, with_connector. cbn [connect_ set_connect set_socket set_state fst snd run_effects run_effect].
  rewrite bind_ret. eexists. split; [done|]. destruct I' as [[Hw1 Hw2 Hw3] _ _ Hrem' _ _ Hal' Hids' Hph' Hfr' _].
  split; try done; change (tasks (set_timers _ _ _)) with (tasks (pop s)).
  - split; fields; try done; [|unfold kInitRetryDelayMs, kMaxRetryDelayMs in *; lia]. split; [|done].
    intros H. discriminate (eq_trans (eq_sym Hs) (proj1 Hw2 H)).
  - right. fields. change (timers (pop s)) with (timers s). rewrite Htm. by exists (next_timer s).
  - lia.
Qed.

Lemma client_task_ok ch s : inv s -> phase_ s = Functors -> exists s', exec RunTask ch s = Ok s' /\ inv s'.
Proof.
  intros I Hph. cbn [exec]. destruct (batch s) as [|t b] eqn:Hb; [by exists s|].
  replace (set_loop (phase_ s) b (pending s) s) with (pop s) by (unfold pop; by rewrite Hb).
  destruct t as [| |conn|conn]; cbn [run_task].
  - eexists. split; [done|]. exact (reset_task_ok b s I Hb).
  - by apply (retry_task_ok ch b).
  - pose proof (pop_inv _ _ _ I Hb ltac:(done)) as I'. case_bool_decide as Hin; [|by exists (pop s)].
    pose proof (i_alive _ I' _ Hin) as Hc. apply close_ok; [done..|]. intros _ H.
    pose proof (tasks_pop _ _ _ Hb) as Hts. destruct (i_reset _ I) as (_ & _ & Hf); rewrite Hts in *; [by right|].
    apply reset_first_tail in Hf as (_ & _ & Hf); [|done]. by destruct (Hf conn Hc).
  - exists (pop s). split; [done|]. by apply (pop_inv _ _ _ I Hb).
Qed.

Lemma idle_tasks s : is_idle s = true -> tasks s = [].
Proof. intros [H1 H2]%bool_decide_eq_true. unfold tasks. by rewrite H1, H2. Qed.

Lemma flags_inv b r s :
  inv s -> (b = true -> client_connect_ s = true \/ TResetChannel ∉ tasks s) -> inv (set_flags b r s).
Proof.
  intros [Hw Ht Hret Hrem Hres Hc Hal Hids Hph Hfr Hoff] Hb. split; try done.
  intros id E H Eon. destruct (Hb Eon) as [?|?]; [by apply Hfr|done].
Qed.

Lemma user_connect_ok ch s : inv s -> is_idle s = true -> connection_ s = None -> exists s', connect ch s = Ok s' /\ inv s'.
Proof.
  intros I Hi%idle_tasks Hc. unfold connect. destruct (client_connect_ s); [by exists s|].
  assert (Hq : TResetChannel ∉ tasks s) by (rewrite Hi; apply not_elem_of_nil).
  pose proof (flags_inv true (retry_ s) s I ltac:(by right)) as I'. set (s1 := set_flags true (retry_ s) s) in *.
  unfold start. destruct (connect_ (connector_ s1)) eqn:E.
  - rewrite bind_ret. exists s1. split; [by destruct s|done].
  - destruct (i_off _ I' E) as [Hs Htm].
    enough (ready (set_connector (set_connect true (connector_ s1)) s1)) as Hrd by exact (start_ok ch _ Hrd).
    assert (Hr : retries (tasks s1) = 0%nat) by (change (tasks s1) with (tasks s); by rewrite Hi).
    destruct I' as [[]]. by split.
Qed.

(** [stop] leaves nothing but the reset of the channel. *)
Lemma stopped_inv s s' :
  inv s -> tasks s = [] -> client_connect_ s' = false ->
  tasks s' = [TResetChannel] -> timers s' = [] -> phase_ s' = phase_ s -> batch s' = batch s -> alive s' = alive s ->
  connection_ s' = connection_ s -> next_conn_id_ s' = next_conn_id_ s ->
  connector_ s' = set_socket None (remove_and_reset_channel (set_state kDisconnected (set_connect false (connector_ s)))).1 ->
  inv s'.
Proof.
  intros [[Hw1 Hw2 Hw3] Ht Hret Hrem Hres Hc Hal Hids Hph Hfr Hoff] Hi Hon Hts Htm Ep Eb Ea Ec En EC.
  assert (Hr : retries (tasks s') = 0%nat) by (by rewrite Hts).
  assert (Hst : state_ (connector_ s') = kDisconnected) by (rewrite EC; unfold remove_and_reset_channel; fields; by repeat case_match).
  split; rewrite ?Hr, ?Hts, ?Htm, ?Hst, ?Ep, ?Eb, ?Ea, ?Ec, ?En, ?Hon; try done.
  - rewrite EC. unfold remove_and_reset_channel. fields. destruct (connect_channel_ (connector_ s)) as [[]|] eqn:Ech;
      split; fields; rewrite ?Ech; try done; split; congruence.
  - by left.
  - lia.
  - intros _. rewrite list_elem_of_singleton. done.
  - intros _. split_and!; try done. apply (reset_first_queued _ []); try apply not_elem_of_nil. intros. apply not_elem_of_nil.
  - intros id H. apply Hids. rewrite Hi. rewrite list_elem_of_singleton in H. destruct H as [H|H]; [done|by right].
Qed.

Lemma user_stop_ok ch s : inv s -> is_idle s = true -> exists s', client_stop ch s = Ok s' /\ inv s'.
Proof.
  intros I Hi%idle_tasks. unfold client_stop. destruct (client_connect_ s); [|by exists s]. cbv zeta.
  pose proof (flags_inv false (retry_ s) s I ltac:(done)) as I'. assert (Hi' : tasks (set_flags false (retry_ s) s) = []) by done.
  assert (Hon : client_connect_ (set_flags false (retry_ s) s) = false) by done.
  generalize dependent (set_flags false (retry_ s) s). clear s I Hi. intros s I Hi Hon.
  unfold stop. destruct (connect_ (connector_ s)) eqn:E; [|exists s; split; [by destruct s|done]].
  set (c := set_socket None (remove_and_reset_channel (set_state kDisconnected (set_connect false (connector_ s)))).1).
  change (stop_in_own_loop (set_connect false (connector_ s))) with (c, [QueueResetChannel]).
  assert (Ht : time_id_ c = time_id_ (connector_ s)) by (unfold c, remove_and_reset_channel; fields; by repeat case_match).
  assert (Hts : forall tm n, tasks (set_timers tm n (queue_in_own_loop TResetChannel (set_connector c s))) = [TResetChannel]).
  { intros. change (tasks (queue_in_own_loop TResetChannel s) = [TResetChannel]). by rewrite tasks_queue, Hi. }
  unfold with_connector. cbn [fst snd app run_effects run_effect]. rewrite bind_ret, Ht.
  destruct (i_timers _ I) as [Htm|(t & Htm & Hid & _)].
  - destruct (time_id_ (connector_ s)) as [t|]; cbn [run_effects run_effect]; rewrite ?bind_ret; eexists; (split; [done|]);
      apply (stopped_inv s); try done; try exact (Hts [] 0%nat); fields; by rewrite Htm.
  - rewrite Hid. cbn [run_effects run_effect]. rewrite bind_ret. eexists. split; [done|].
    apply (stopped_inv s); try done; try exact (Hts [] 0%nat). fields. rewrite Htm. apply filter_alone.
Qed.

Lemma functors_inv s : inv s -> phase_ s = Events -> inv (set_loop Functors (pending s) [] s).
Proof.
  intros [Hw Ht Hret Hrem Hres Hc Hal Hids Hph Hfr Hoff] Hp.
  assert (Hts : tasks (set_loop Functors (pending s) [] s) = tasks s) by (unfold tasks; cbn; by rewrite (Hph Hp), app_nil_r).
  split; rewrite ?Hts; try done. intros id _ H _. fields. unfold tasks in H. by rewrite (Hph Hp) in H.
Qed.

Lemma poll_inv s :
  inv s -> phase_ s = Functors -> batch s = [] ->
  inv (set_loop Events [] (pending s) (set_conns (next_conn_id_ s) (alive s) [] s)).
Proof.
  intros [Hw Ht Hret Hrem Hres Hc Hal Hids Hph Hfr Hoff] Hp Hb. set (s' := set_loop _ _ _ _).
  assert (Hts : tasks s' = tasks s) by (unfold tasks; cbn; by rewrite Hb).
  split; rewrite ?Hts; try done. intros id E H Eon. specialize (Hfr id E H Eon). rewrite Hp, Hb in Hfr.
  by apply not_elem_of_nil in Hfr.
Qed.

Lemma exec_fine a ch s : inv s -> enabled a s = true -> fine s (exec a ch s).
Proof.
  intros I He. destruct a as [error write err|t|conn| | | | | | |on]; [by apply channel_event_ok|left..].
  - apply bool_decide_eq_true in He as [_ He]. by apply timer_ok.
  - apply bool_decide_eq_true in He as (Hp & Hal & Hfr). pose proof (i_alive _ I _ Hal) as Hc.
    apply (close_ok ch conn s); [done..|]. intros Hon H. pose proof (i_fresh _ I _ Hc H Hon) as Hf. by rewrite Hp in Hf.
  - apply bool_decide_eq_true in He. eexists. split; [done|]. by apply functors_inv.
  - apply bool_decide_eq_true in He as [Hp _]. by apply client_task_ok.
  - apply bool_decide_eq_true in He as [Hp Hb]. eexists. split; [done|]. by apply poll_inv.
  - apply andb_prop in He as [Hi Hc%bool_decide_eq_true]. by apply user_connect_ok.
  - exists (disconnect s). split; [done|]. unfold disconnect. destruct (client_connect_ s); [by apply flags_inv|done].
  - by apply user_stop_ok.
  - eexists. split; [done|]. destruct on; apply flags_inv; try done; by left.
Qed.

Lemma reachable_inv s : reachable s -> inv s.
Proof.
  induction 1 as [|s a ch s' _ IH He Hs]; [apply make_inv|].
  destruct (exec_fine a ch s IH He) as [(s1 & E & I)|[E _]]; congruence.
Qed.

(** An attempt that is under way, one that waits for a timer or for the queue, and a connection. *)
Definition activities (s : TcpClient) : nat :=
  (if decide (state_ (connector_ s) = kConnecting) then 1 else 0) + length (timers s) + retries (tasks s) +
  match connection_ s with Some _ => 1 | None => 0 end.

Lemma activities_le s : inv s -> (activities s <= 1)%nat.
Proof.
  intros [Hw Ht Hret _ _ Hc _ _ _ _ _]. unfold activities. destruct (decide (state_ (connector_ s) = kConnecting)) as [E|E].
  - destruct Ht as [->|(t & _ & _ & H & _)]; [|congruence]. destruct (connection_ s) as [id|]; [by destruct (Hc id)|].
    destruct (retries (tasks s)); [done|]. destruct Hret as (_ & ? & _); [lia|congruence].
  - destruct Ht as [->|(t & -> & _ & _ & -> & ->)]; [|done]. cbn.
    destruct (retries (tasks s)); [destruct (connection_ s); lia|]. destruct Hret as (? & _ & ->); lia.
Qed.

(** *** Runs, for the examples *)

Fixpoint run_actions (as_ : list (action * choice)) (s : TcpClient) : outcome TcpClient :=
  match as_ with
  | [] => Ok s
  | (a, ch) :: as_ => s ← exec a ch s; run_actions as_ s
  end.

Fixpoint all_enabled (as_ : list (action * choice)) (s : TcpClient) : bool :=
  match as_ with
  | [] => true
  | (a, ch) :: as_ => enabled a s && match exec a ch s with Ok s => all_enabled as_ s | _ => false end
  end.

Lemma reachable_run as_ s s' : reachable s -> all_enabled as_ s = true -> run_actions as_ s = Ok s' -> reachable s'.
Proof.
  revert s. induction as_ as [|[a ch] as_ IH]; intros s Hr; cbn; [by intros _ [= <-]|].
  intros [He Hall]%andb_prop. destruct (exec a ch s) as [s1|] eqn:E; [|done]. intros Hs.
  apply (IH s1); try done. by apply (reachable_step s a ch).
Qed.

(** A kernel that starts every connection, and a user who does not close. *)
Definition starts : choice := mkChoice false true 5 EINPROGRESS.
Definition iteration : list (action * choice) := [(RunFunctors, starts); (RunTask, starts); (Poll, starts)].
Definition connected_run : list (action * choice) :=
  [(UserConnect, starts); (Poll, starts); (ChannelEvent false true 0, starts)] ++ iteration.

(** [disconnect] leaves the connector started, so that a later [connect] does nothing. *)
Example connect_after_disconnect :
  exists s, run_actions (connected_run ++ [(UserDisconnect, starts); (ConnectionCloses 1, starts)] ++ iteration ++ [(UserConnect, starts)])
              make_tcp_client = Ok s /\ client_connect_ s = true /\ activities s = 0%nat.
Proof. eexists. split; [vm_compute; reflexivity|]. by vm_compute. Qed.

(** [stop] and [connect] in one iteration while the connector connects: the old channel is still there. *)
Example stop_connect_aborts :
  run_actions [(UserConnect, starts); (UserStop, starts); (UserConnect, starts)] make_tcp_client =
    Fault (CheckFailed "in_connect: connect_channel_").
Proof. by vm_compute. Qed.

(** [stop] between a failed attempt and the retry it queued does not stop the client. *)
Example stop_undone :
  exists s, run_actions ([(UserRetry true, starts); (UserConnect, starts); (Poll, starts); (ChannelEvent false true ECONNREFUSED, starts);
                          (UserStop, starts); (RunFunctors, starts); (RunTask, starts); (RunTask, starts)]) make_tcp_client = Ok s /\
    client_connect_ s = false /\ connect_ (connector_ s) = true /\ timers s = [0%nat].
Proof. eexists. split; [vm_compute; reflexivity|]. by vm_compute. Qed.

(** [stop] and [connect] while the old connection is still closing. *)
Example connect_before_closed :
  run_actions (connected_run ++ [(UserStop, starts)] ++ iteration ++ [(UserConnect, starts); (ChannelEvent false true 0, starts);
               (ConnectionCloses 1, starts)]) make_tcp_client = Fault (CheckFailed "remove_connection").
Proof. by vm_compute. Qed.

(** After an error that is not retried the connector counts as started and does nothing any more. *)
Example hard_error_gives_up :
  exists s, run_actions [(UserRetry true, starts); (UserConnect, mkChoice false true 5 EACCES); (UserDisconnect, starts);
                         (UserConnect, starts)] make_tcp_client = Ok s /\
    client_connect_ s = true /\ connect_ (connector_ s) = true /\ activities s = 0%nat.
Proof. eexists. split; [vm_compute; reflexivity|]. by vm_compute. Qed.

(** *** A client that retries does not come to rest *)

Definition active (s : TcpClient) : Prop :=
  state_ (connector_ s) = kConnecting \/ timers s <> [] \/ TRetry ∈ tasks s \/ connection_ s <> None.

Lemma active_iff s : (0 < activities s)%nat <-> active s.
Proof.
  unfold activities, active. pose proof (retries_0 (tasks s)) as Hr. split.
  - destruct (decide _); [by left|]. destruct (timers s); [|by right; left]. destruct (connection_ s); [by do 3 right|].
    intros H. right. right. left. destruct (decide (TRetry ∈ tasks s)) as [|Hn]; [done|]. apply Hr in Hn. cbn in H. lia.
  - intros [->|[H|[H|H]]].
    + rewrite decide_True by done. lia.
    + destruct (timers s); [done|]. cbn. lia.
    + destruct (decide (retries (tasks s) = 0%nat)) as [E|E]; [by apply Hr in E|lia].
    + destruct (connection_ s); [lia|done].
Qed.

(** [connect] leaves an [errno] after which the attempt goes on or is repeated. *)
Definition soft (ch : choice) : bool :=
  bool_decide (answer_errno ch ∈ [0; EINTR; EISCONN; EINPROGRESS; EAGAIN; EADDRNOTAVAIL; EADDRINUSE; ENETUNREACH; ECONNREFUSED]).

Lemma start_active ch s s' :
  soft ch = true -> connect_ (connector_ s) = true ->
  (r ← start_in_own_loop (answer_of ch s) (connector_ s); with_connector ch r s) = Ok s' -> active s'.
Proof.
  intros Hsoft%bool_decide_eq_true Hon. unfold start_in_own_loop, do_connect. rewrite Hon.
  destruct (bool_decide (state_ (connector_ s) = kDisconnected)); [|done]. cbn [check]. rewrite bind_ret.
  destruct (bool_decide (connect_socket_ (connector_ s) = None)); [|done]. cbn [check]. rewrite bind_ret.
  fields. case_bool_decide as E1; [|case_bool_decide as E2].
  - unfold in_connect. fields. change (bool_decide (Some (answer_fd ch) <> None)) with true. cbn [check]. rewrite bind_ret.
    destruct (bool_decide _); [|done]. cbn [check]. rewrite !bind_ret. intros [= <-]. by left.
  - unfold retry_in_own_loop. fields. rewrite Hon, bind_ret. unfold with_connector. cbn [fst snd run_effects run_effect].
    rewrite bind_ret. intros [= <-]. right. by left.
  - by destruct (proj1 (elem_of_app [0; EINTR; EISCONN; EINPROGRESS] _ _) Hsoft).
Qed.

(** The operations of the loop, with errors that are reported as such. *)
Definition by_loop (a : action) : bool :=
  match a with
  | ChannelEvent error _ err => negb error || negb (err =? 0)
  | UserConnect | UserDisconnect | UserStop | UserRetry _ => false
  | _ => true
  end.

Lemma close_active ch conn s s' :
  soft ch = true -> retry_ s = true -> client_connect_ s = true -> close_connection ch conn s = Ok s' -> active s'.
Proof.
  intros Hsoft Hr Hon. unfold close_connection, remove_connection. destruct (bool_decide _); [|done]. cbn [check].
  rewrite bind_ret. cbv zeta. set (s1 := queue_in_own_loop _ _).
  change (retry_ s1) with (retry_ s). change (client_connect_ s1) with (client_connect_ s). rewrite Hr, Hon.
  exact (start_active ch (set_connector (set_connect true (set_state kDisconnected (set_delay kInitRetryDelayMs (connector_ s1)))) s1)
           s' Hsoft eq_refl).
Qed.

Lemma failed_active u s :
  retry_ s = true -> client_connect_ s = true -> connection_ s = None -> active (handle_retry u s).
Proof.
  intros Hr Hon Hc. unfold handle_retry, connect_destroyed. rewrite Hc, Hr, Hon. cbn [andb]. right. right. left.
  rewrite tasks_queue, elem_of_queued. by right.
Qed.

Lemma handle_error_active ch err s s' :
  inv s -> retry_ s = true -> client_connect_ s = true -> err <> 0 -> state_ (connector_ s) = kConnecting ->
  (r ← handle_error err (connector_ s); with_connector ch r s) = Ok s' ->
  state_ (connector_ s') = kDisconnected /\ active s'.
Proof.
  intros I Hr Hon He Hs. destruct (connecting_facts s I Hs) as (_ & _ & Hc & _ & _ & _ & Hch & fd & Hfd).
  unfold handle_error. rewrite Hs. rewrite check_true, bind_ret by (apply bool_decide_eq_true; by rewrite Hfd).
  unfold remove_and_reset_channel. rewrite Hch, bind_ret. unfold with_connector.
  rewrite (proj2 (Z.eqb_neq _ _) He). cbn [negb app fst snd run_effects run_effect]. rewrite !bind_ret. intros [= <-].
  split; [exact (proj2 (connect_fails (conn_unique ch) s I Hs))|by apply failed_active].
Qed.

Lemma handle_write_active ch err s s' :
  inv s -> retry_ s = true -> client_connect_ s = true -> active s ->
  (r ← handle_write err (connector_ s); with_connector ch r s) = Ok s' -> active s'.
Proof.
  intros I Hr Hon Ha. unfold handle_write. destruct (state_ (connector_ s)) eqn:Hs; [| |done].
  { rewrite check_true, !bind_ret by done. intros [= <-]. by destruct s. }
  destruct (connecting_facts s I Hs) as (_ & _ & Hc & _ & _ & Hcc & Hch & fd & Hfd).
  rewrite check_true, bind_ret by (apply bool_decide_eq_true; by rewrite Hfd).
  unfold remove_and_reset_channel. rewrite Hch. unfold with_connector. destruct (negb (err =? 0)).
  - rewrite bind_ret. cbn [app fst snd run_effects run_effect]. rewrite !bind_ret. intros [= <-]. by apply failed_active.
  - fields. rewrite Hcc, Hfd, bind_ret. cbn [fst snd app run_effects run_effect]. rewrite bind_ret. unfold new_connection.
    cbv zeta. destruct (_ <? _); [|done]. cbn [defined]. rewrite !bind_ret. intros [= <-]. right. right. right.
    by destruct (user_closes ch).
Qed.

Lemma run_task_active ch s s' :
  inv s -> soft ch = true -> retry_ s = true -> client_connect_ s = true -> active s -> exec RunTask ch s = Ok s' -> active s'.
Proof.
  intros I Hsoft Hr Hon Ha. cbn [exec]. destruct (batch s) as [|t b] eqn:Hb; [by intros [= <-]|].
  replace (set_loop (phase_ s) b (pending s) s) with (pop s) by (unfold pop; by rewrite Hb).
  assert (Hp : t <> TRetry -> active (pop s)).
  { intros Ht. unfold active in *. rewrite (tasks_pop _ _ _ Hb), elem_of_cons in Ha. destruct Ha as [?|[?|[[?|?]|?]]]; try done; auto. }
  destruct t as [| |conn|conn]; cbn [run_task].
  - intros [= <-]. exact (Hp ltac:(done)).
  - unfold retry, retry_in_own_loop, with_connector. cbn [connect_ set_connect set_socket set_state fst snd run_effects run_effect].
    rewrite bind_ret. intros [= <-]. right. by left.
  - case_bool_decide; [by apply close_active|]. intros [= <-]. by apply Hp.
  - intros [= <-]. by apply Hp.
Qed.

Lemma exec_active a ch s s' :
  inv s -> enabled a s = true -> by_loop a = true -> soft ch = true -> retry_ s = true -> client_connect_ s = true ->
  active s -> exec a ch s = Ok s' -> active s'.
Proof.
  intros I He Hb Hsoft Hr Hon Ha Hs. destruct a as [error write err|t|conn| | | | | | |on]; try done.
  - cbn [exec] in Hs. destruct error; [|rewrite bind_ret in Hs; destruct write; [by apply (handle_write_active ch err s)|by injection Hs as <-]].
    apply negb_true_iff, Z.eqb_neq in Hb. destruct (decide (state_ (connector_ s) = kConnecting)) as [Hst|Hst].
    + destruct (handle_error_ok ch err s I ltac:(by rewrite Hst)) as (s1 & E1 & I1 & _). rewrite E1, bind_ret in Hs.
      destruct (handle_error_active ch err s s1 I Hr Hon Hb Hst E1) as [Hd Ha1]. destruct write; [|by injection Hs as <-].
      unfold handle_write in Hs. rewrite Hd in Hs. rewrite check_true, !bind_ret in Hs by done. injection Hs as <-. by destruct s1.
    + assert (E1 : (r ← handle_error err (connector_ s); with_connector ch r s) = Ok s).
      { unfold handle_error. destruct (state_ (connector_ s)); try done; rewrite bind_ret; by destruct s. }
      rewrite E1, bind_ret in Hs. destruct write; [by apply (handle_write_active ch err s)|by injection Hs as <-].
  - apply bool_decide_eq_true in He as [_ He]. cbn [exec] in Hs. cbv zeta in Hs. eapply start_active; [done| |exact Hs].
    cbn. destruct (connect_ (connector_ s)) eqn:E; [done|]. destruct (i_off _ I E) as [_ Htm]. rewrite Htm in He.
    by apply not_elem_of_nil in He.
  - by apply close_active in Hs.
  - apply bool_decide_eq_true in He. injection Hs as <-. unfold active, tasks in *. cbn in *.
    by rewrite (i_phase _ I He), app_nil_r in *.
  - by apply (run_task_active ch s).
  - apply bool_decide_eq_true in He as [_ He]. injection Hs as <-. unfold active, tasks in *. cbn in *. by rewrite He in *.
Qed.

Definition flags (s : TcpClient) : bool * bool := (retry_ s, client_connect_ s).

Lemma run_effects_flags ch es s s' : run_effects ch es s = Ok s' -> flags s' = flags s.
Proof.
  revert s. induction es as [|e es IH]; intros s; cbn; [by intros [= <-]|].
  destruct (run_effect ch e s) as [s1|] eqn:E; [|done]. rewrite bind_ret. intros H. rewrite (IH _ H). clear H IH.
  destruct e; cbn in E; try by injection E as <-.
  - unfold new_connection in E. destruct (defined _ _); [|done]. rewrite bind_ret in E. injection E as <-. by destruct (user_closes ch).
  - injection E as <-. unfold handle_retry, connect_destroyed. by repeat case_match.
Qed.

Lemma connector_flags ch m s s' : (r ← m; with_connector ch r s) = Ok s' -> flags s' = flags s.
Proof. destruct m as [r|]; [|done]. rewrite bind_ret. intros H. by rewrite (run_effects_flags ch r.2 _ _ H). Qed.

Lemma close_flags ch conn s s' : close_connection ch conn s = Ok s' -> flags s' = flags s.
Proof.
  unfold close_connection, remove_connection. destruct (check _ _); [|done]. rewrite bind_ret. cbv zeta.
  destruct (_ && _); [intros H; by rewrite (connector_flags _ _ _ _ H)|by intros [= <-]].
Qed.

Lemma exec_flags a ch s s' : by_loop a = true -> exec a ch s = Ok s' -> flags s' = flags s.
Proof.
  intros Hb Hs. destruct a as [error write err|t|conn| | | | | | |on]; try done; cbn [exec] in Hs; try by injection Hs as <-.
  - assert (Hw : forall s1, (if write then r ← handle_write err (connector_ s1); with_connector ch r s1 else Ok s1) = Ok s' -> flags s' = flags s1).
    { intros s1. destruct write; [apply connector_flags|by intros [= <-]]. }
    destruct error; [|rewrite bind_ret in Hs; by apply Hw].
    destruct (r ← handle_error err (connector_ s); with_connector ch r s) as [s1|] eqn:E; [|done].
    rewrite bind_ret in Hs. rewrite (Hw _ Hs). by apply connector_flags in E.
  - by rewrite (connector_flags _ _ _ _ Hs).
  - by apply close_flags in Hs.
  - destruct (batch s) as [|t b]; [by injection Hs as <-|]. destruct t; cbn in Hs; try by injection Hs as <-.
    case_bool_decide; [by rewrite (close_flags _ _ _ _ Hs)|by injection Hs as <-].
Qed.

Lemma run_active as_ s s' :
  Forall (fun '(a, ch) => by_loop a = true /\ soft ch = true) as_ ->
  inv s -> flags s = (true, true) -> active s -> all_enabled as_ s = true -> run_actions as_ s = Ok s' ->
  inv s' /\ active s'.
Proof.
  intros Hall. revert s. induction Hall as [|[a ch] as_ [Hb Hsoft] _ IH]; intros s I Hf Ha; cbn; [by intros _ [= <-]|].
  intros [He Hen]%andb_prop. destruct (exec a ch s) as [s1|] eqn:E; [|done]. rewrite bind_ret. intros Hrun.
  pose proof Hf as [= Hr Hon].
  apply (IH s1); try done.
  - destruct (exec_fine a ch s I He) as [(s2 & E2 & I2)|[E2 _]]; congruence.
  - by rewrite (exec_flags _ _ _ _ Hb E).
  - by apply (exec_active a ch s).
Qed.

(** ** Properties *)

(** C8. Client safety.  In every state the loop and the user can bring a client to, when the
    user calls it between iterations and connects only when the last connection is
    gone, every operation the loop or the user can do next ends without failing a check of the
    client or of the connector, unless the connection numbers are used up.  At any time the
    client has at most one of: an attempt under way, an attempt waiting for its timer or
    in the queue, a connection; and the delay before a retry stays between 500 ms
    and 30 s. *)
Theorem client_safe s a ch :
  reachable s -> enabled a s = true ->
  ((exists s', exec a ch s = Ok s' /\ reachable s') \/
   (exec a ch s = Fault (Undefined "next_conn_id_++") /\ kInt32Max <= next_conn_id_ s)) /\
  (activities s <= 1)%nat /\ kInitRetryDelayMs <= retry_delay_ms_ (connector_ s) <= kMaxRetryDelayMs.
Proof.
  intros Hr He. pose proof (reachable_inv s Hr) as I. split_and!.
  - destruct (exec_fine a ch s I He) as [(s' & E & _)|?]; [|by right]. left. exists s'. split; [done|].
    by apply (reachable_step s a ch).
  - by apply activities_le.
  - apply (wf_delay _ (i_wf _ I)).
  - apply (wf_delay _ (i_wf _ I)).
Qed.

(** The connection that was made is closed by its peer. *)
Definition connected_client : TcpClient := Eval vm_compute in
  match run_actions connected_run make_tcp_client with Ok s => s | _ => make_tcp_client end.

Lemma connected_reachable : reachable connected_client.
Proof. apply (reachable_run connected_run make_tcp_client); [constructor|by vm_compute..]. Qed.

Lemma client_safe_witness :
  connection_ connected_client = Some 1 /\ enabled (ConnectionCloses 1) connected_client = true /\
  (activities connected_client <= 1)%nat.
Proof.
  split; [reflexivity|]. split; [vm_compute; reflexivity|].
  refine (proj1 (proj2 (client_safe connected_client (ConnectionCloses 1) starts connected_reachable _))).
  vm_compute. reflexivity.
Defined.

(** A client that retries does not come to rest.  Started and with retries enabled, it
    always has a connection, an attempt under way, or one that waits, whatever the loop
    runs and however connections fail and close, as long as [connect] leaves no [errno] that
    the connector takes as final and a socket with an error event reports the
    error. *)
Theorem client_persists as_ s s' :
  reachable s -> retry_ s = true -> client_connect_ s = true -> activities s = 1%nat ->
  Forall (fun '(a, ch) => by_loop a = true /\ soft ch = true) as_ ->
  all_enabled as_ s = true -> run_actions as_ s = Ok s' -> activities s' = 1%nat.
Proof.
  intros Hr Hre Hon Ha Hall Hen Hrun.
  destruct (run_active as_ s s') as [I' Ha']; try done; [by apply reachable_inv|by unfold flags; rewrite Hre, Hon|by apply active_iff; lia|].
  apply active_iff in Ha'. pose proof (activities_le s' I'). lia.
Qed.

(** The peer refuses twice, accepts and closes. *)
Definition refused : choice := mkChoice false true 5 ECONNREFUSED.
Definition started_client : TcpClient := Eval vm_compute in
  match run_actions [(UserRetry true, starts); (UserConnect, refused); (Poll, starts)] make_tcp_client with Ok s => s | _ => make_tcp_client end.
Definition bad_day : list (action * choice) :=
  [(TimerFires 0, starts); (ChannelEvent true true ECONNREFUSED, starts); (RunFunctors, starts); (RunTask, starts); (RunTask, starts);
   (Poll, starts); (TimerFires 1, starts); (ChannelEvent false true 0, starts)] ++ iteration ++ [(ConnectionCloses 1, starts)].

Lemma started_reachable : reachable started_client.
Proof.
  apply (reachable_run [(UserRetry true, starts); (UserConnect, refused); (Poll, starts)] make_tcp_client); [constructor|by vm_compute..].
Qed.

Lemma client_persists_witness :
  exists s', run_actions bad_day started_client = Ok s' /\ state_ (connector_ s') = kConnecting /\ activities s' = 1%nat.
Proof.
  eexists. split; [vm_compute; reflexivity|]. split; [reflexivity|].
  refine (client_persists bad_day started_client _ started_reachable eq_refl eq_refl _ _ _ _); try (vm_compute; reflexivity).
  repeat constructor.
Defined.

(** The destructor holds the connection itself while it asks whether [connection_] is the only owner:
    it never closes the connection. *)
Lemma destructor_never_closes others ch s id : connection_ s = Some id -> destroy_client others ch s = Ok s.
Proof. intros E. unfold destroy_client, connect_destroyed. by rewrite E, bool_decide_false by lia. Qed.

(** With no other owner and without the copy, as in [handle_retry], it would be closed. *)
Example handle_retry_closes :
  pending (connect_destroyed true connected_client) = pending connected_client ++ [TClose 1] /\
  destroy_client 0 starts connected_client = Ok connected_client.
Proof. split; vm_compute; reflexivity. Qed.
