(* ===== verification/TcpServer.v ===== *)
(** * The server (include/TcpServer.h, src/TcpServer.cc, src/Acceptor.cc,
    include/EventLoopPool.h, src/EventLoopPool.cc)

    The acceptor, the pool of loops, and the server with its table of connections.  Loop 0
    is the loop of the server; the others belong to the threads of the pool.  Every loop
    has the queue of its functors, which run in order ([EventLoop] shows that), and
    a step is one event handler or one functor of some loop, so that the loops
    interleave at will.  A connection is reduced to what the server and the calls it
    queues depend on; its own behaviour is the subject of [TcpConnection].

    The file shows that the hand-over of connections between the threads is sound: no check
    fails but those of [fatal], every connection is set up, established, closed and destroyed once, in this
    order and in its own loop, the table holds the connections that are not removed, and
    connections go to the loops in turn. *)

From stdpp Require Import pretty functions.
From S2P Require Import Prelude.

(** ** Definitions *)

Abbreviation loop := nat (only parsing).
Definition owner_loop : loop := 0%nat.

(** *** The pool of loops *)

Record EventLoopPool : Type := mkPool {
  pool_started_ : bool;
  next_ : Z;
  num_threads_ : Z;
  loops_ : list loop;
}.

Definition make_pool : EventLoopPool := mkPool false 0 0 [].

Definition set_thread_num_pool (num_threads : Z) (p : EventLoopPool) : EventLoopPool :=
  mkPool (pool_started_ p) (next_ p) num_threads (loops_ p).

(** The [i]-th thread runs the loop [S i]. *)
Definition start_pool (p : EventLoopPool) : outcome EventLoopPool :=
  check (negb (pool_started_ p)) "EventLoopPool::start";;
  Ok (mkPool true (next_ p) (num_threads_ p) (loops_ p ++ seq 1 (Z.to_nat (num_threads_ p)))).

Definition get_next_loop (p : EventLoopPool) : outcome (loop * EventLoopPool) :=
  check (pool_started_ p) "get_next_loop";;
  match loops_ p with
  | [] => Ok (owner_loop, p)
  | _ =>
      match loops_ p !! Z.to_nat (next_ p) with
      | None => Fault (Undefined "loops_[next_]")
      | Some l =>
          let n := next_ p + 1 in
          Ok (l, mkPool (pool_started_ p) (if zlen (loops_ p) <=? n then 0 else n) (num_threads_ p) (loops_ p))
      end
  end.

Definition get_loop_with_hashcode (hashcode : Z) (p : EventLoopPool) : outcome loop :=
  check (pool_started_ p) "get_loop_with_hashcode";;
  match loops_ p with
  | [] => Ok owner_loop
  | _ =>
      match loops_ p !! Z.to_nat (hashcode mod zlen (loops_ p)) with
      | None => Fault (Undefined "loops_[hashcode]")
      | Some l => Ok l
      end
  end.

Definition get_all_loops (p : EventLoopPool) : outcome (list loop) :=
  check (pool_started_ p) "get_all_loops";;
  Ok (match loops_ p with [] => [owner_loop] | ls => ls end).

(** *** Connections and the functors about them *)

Inductive StateE : Type := kConnecting | kConnected | kDisconnecting | kDisconnected.
#[global] Instance StateE_eq_dec : EqDecision StateE.
Proof. solve_decision. Defined.

Inductive task : Type :=
| TInitialize (conn : Z)      (** [TcpConnection::initialize_in_loop] *)
| TEstablished (conn : Z)     (** [TcpConnection::connect_established] *)
| TRemove (conn : Z)          (** [TcpServer::remove_connection_in_loop], bound weakly *)
| TDestroyed (conn : Z).      (** [TcpConnection::connect_destroyed] *)
#[global] Instance task_eq_dec : EqDecision task.
Proof. solve_decision. Defined.

(** What has happened to a connection, with the loop that ran it. *)
Inductive mark : Type := Initialized | Established | Closed | Destroyed.
#[global] Instance mark_eq_dec : EqDecision mark.
Proof. solve_decision. Defined.

(** [callbacks_set] and [watching]: of the channel. *)
Record connection : Type := mkConn {
  conn_name : string;
  conn_loop : loop;
  state_ : StateE;
  callbacks_set : bool;
  watching : bool;
  history : list (loop * mark);
}.

Record TcpServer : Type := mkServer {
  name_ : string;
  ip_port_ : string;
  listening : bool;             (** [started_], and [listen_] of the acceptor *)
  idle_fd_ : bool;              (** of the acceptor: the spare descriptor is open *)
  workers_ : EventLoopPool;
  next_conn_id_ : Z;
  connections_ : gmap string Z;
  alive : bool;                 (** not destroyed yet *)
  conns : gmap Z connection;    (** the connection objects *)
  queue : loop -> list task;
}.

Definition set_workers w s := mkServer (name_ s) (ip_port_ s) (listening s) (idle_fd_ s) w (next_conn_id_ s) (connections_ s) (alive s) (conns s) (queue s).
Definition set_listening s := mkServer (name_ s) (ip_port_ s) true (idle_fd_ s) (workers_ s) (next_conn_id_ s) (connections_ s) (alive s) (conns s) (queue s).
Definition set_idle b s := mkServer (name_ s) (ip_port_ s) (listening s) b (workers_ s) (next_conn_id_ s) (connections_ s) (alive s) (conns s) (queue s).
Definition set_table n t s := mkServer (name_ s) (ip_port_ s) (listening s) (idle_fd_ s) (workers_ s) n t (alive s) (conns s) (queue s).
Definition set_alive b s := mkServer (name_ s) (ip_port_ s) (listening s) (idle_fd_ s) (workers_ s) (next_conn_id_ s) (connections_ s) b (conns s) (queue s).
Definition set_conn id c s := mkServer (name_ s) (ip_port_ s) (listening s) (idle_fd_ s) (workers_ s) (next_conn_id_ s) (connections_ s) (alive s) (<[id := c]> (conns s)) (queue s).
Definition set_queue (w : loop) (q : list task) s := mkServer (name_ s) (ip_port_ s) (listening s) (idle_fd_ s) (workers_ s) (next_conn_id_ s) (connections_ s) (alive s) (conns s) (<[w := q]> (queue s)).

Definition make_tcp_server (name ip_port : string) : TcpServer :=
  mkServer name ip_port false true make_pool 1 ∅ true ∅ (fun _ => []).

Definition queue_in_own_loop (w : loop) (t : task) (s : TcpServer) : TcpServer := set_queue w (queue s w ++ [t]) s.

Definition deref (id : Z) (s : TcpServer) : outcome connection :=
  match conns s !! id with Some c => Ok c | None => Fault (Undefined "connection") end.

(** *** The calls of a connection that the server queues, run by loop [w] *)

Definition check_in_own_loop (w own : loop) : outcome unit := check (Nat.eqb w own) "check_in_own_loop".

Definition initialize_in_loop (w : loop) (id : Z) (s : TcpServer) : outcome TcpServer :=
  c ← deref id s;
  check_in_own_loop w (conn_loop c);;
  Ok (set_conn id (mkConn (conn_name c) (conn_loop c) (state_ c) true (watching c) (history c ++ [(w, Initialized)])) s).

Definition connect_established (w : loop) (id : Z) (s : TcpServer) : outcome TcpServer :=
  c ← deref id s;
  check_in_own_loop w (conn_loop c);;
  check (bool_decide (state_ c = kConnecting)) "connect_established";;
  Ok (set_conn id (mkConn (conn_name c) (conn_loop c) kConnected (callbacks_set c) true (history c ++ [(w, Established)])) s).

Definition connect_destroyed (w : loop) (id : Z) (s : TcpServer) : outcome TcpServer :=
  c ← deref id s;
  check_in_own_loop w (conn_loop c);;
  let c := match state_ c with
           | kConnected => mkConn (conn_name c) (conn_loop c) kDisconnected (callbacks_set c) false (history c)
           | _ => c
           end in
  check (negb (watching c)) "Channel::remove: is_none_event";;
  Ok (set_conn id (mkConn (conn_name c) (conn_loop c) (state_ c) (callbacks_set c) (watching c) (history c ++ [(w, Destroyed)])) s).

(** *** The server *)

(** [run_in_own_loop] of loop [own], called by the thread of loop [w]. *)
Definition run_in_own_loop (w own : loop) (t : task) (f : loop -> TcpServer -> outcome TcpServer) (s : TcpServer) : outcome TcpServer :=
  if Nat.eqb w own then f own s else Ok (queue_in_own_loop own t s).

Definition connection_name (s : TcpServer) (id : Z) : string :=
  (name_ s ++ "#" ++ ip_port_ s ++ "#" ++ pretty id)%string.

Definition new_connection (s : TcpServer) : outcome TcpServer :=
  '(worker, p) ← get_next_loop (workers_ s);
  let id := next_conn_id_ s in
  let name := connection_name s id in
  defined (id <? kInt32Max) "next_conn_id_++";;
  let s := set_table (id + 1) (connections_ s) (set_workers p s) in
  let s := set_conn id (mkConn name worker kConnecting false false []) s in
  s ← run_in_own_loop owner_loop worker (TInitialize id) (fun w => initialize_in_loop w id) s;
  let s := set_table (next_conn_id_ s) (<[name := id]> (connections_ s)) s in
  run_in_own_loop owner_loop worker (TEstablished id) (fun w => connect_established w id) s.

Definition remove_connection_in_loop (id : Z) (s : TcpServer) : outcome TcpServer :=
  c ← deref id s;
  let n := match connections_ s !! conn_name c with Some _ => 1 | None => 0 end in
  check (n =? 1) "remove_connection_in_loop";;
  Ok (queue_in_own_loop (conn_loop c) (TDestroyed id) (set_table (next_conn_id_ s) (delete (conn_name c) (connections_ s)) s)).

(** The functor of a server that is gone does nothing. *)
Definition remove_weakly (id : Z) (s : TcpServer) : outcome TcpServer :=
  if alive s then remove_connection_in_loop id s else Ok s.

Definition remove_connection (w : loop) (id : Z) (s : TcpServer) : outcome TcpServer :=
  if alive s then run_in_own_loop w owner_loop (TRemove id) (fun _ => remove_connection_in_loop id) s else Ok s.

(** [handle_close] of the connection, with its finish callback. *)
Definition handle_close (w : loop) (id : Z) (s : TcpServer) : outcome TcpServer :=
  c ← deref id s;
  check_in_own_loop w (conn_loop c);;
  check (bool_decide (state_ c = kConnected \/ state_ c = kDisconnecting)) "handle_close";;
  remove_connection w id
    (set_conn id (mkConn (conn_name c) (conn_loop c) kDisconnected (callbacks_set c) false (history c ++ [(w, Closed)])) s).

Definition set_thread_num (num_threads : Z) (s : TcpServer) : outcome TcpServer :=
  check (0 <=? num_threads) "set_thread_num";;
  Ok (set_workers (set_thread_num_pool num_threads (workers_ s)) s).

Definition listen (s : TcpServer) : outcome TcpServer :=
  if listening s then Ok s
  else p ← start_pool (workers_ s); Ok (set_listening (set_workers p s)).

(** The destructor.  The connections come in the order of [map_to_list], in the source by name; the order
    only decides how functors about different connections are queued. *)
Fixpoint destroy_all (ids : list (string * Z)) (s : TcpServer) : outcome TcpServer :=
  match ids with
  | [] => Ok s
  | (_, id) :: ids =>
      c ← deref id s;
      s ← run_in_own_loop owner_loop (conn_loop c) (TDestroyed id) (fun w => connect_destroyed w id) s;
      destroy_all ids s
  end.

Definition destroy_server (s : TcpServer) : outcome TcpServer :=
  s ← destroy_all (map_to_list (connections_ s)) s;
  Ok (set_alive false (set_table (next_conn_id_ s) ∅ s)).

(** *** The acceptor *)

Definition EPERM : Z := 1.
Definition EINTR : Z := 4.
Definition EAGAIN : Z := 11.
Definition EMFILE : Z := 24.
Definition EPROTO : Z := 71.
Definition ECONNABORTED : Z := 103.

(** What [accept4] answers.  After EMFILE, [second] tells whether the connection could be
    accepted and closed with the spare descriptor, and [reopened] whether that is open again. *)
Inductive accept_answer : Type :=
| Accepted
| Failed (errno : Z) (second reopened : bool).

(** [sockets::accept]: any other error is fatal. *)
Definition accept (a : accept_answer) : outcome (option Z) :=
  match a with
  | Accepted => Ok None
  | Failed e _ _ =>
      check (bool_decide (e ∈ [EPERM; EINTR; EAGAIN; EMFILE; EPROTO; ECONNABORTED])) "LOG(FATAL): accept4";;
      Ok (Some e)
  end.

Definition handle_read (a : accept_answer) (s : TcpServer) : outcome TcpServer :=
  r ← accept a;
  match r, a with
  | None, _ => new_connection s
  | Some e, Failed _ second reopened =>
      if e =? EMFILE then
        check (idle_fd_ s) "DPCHECK: close(idle_fd_)";;
        check second "DPCHECK: close(accept)";;
        Ok (set_idle reopened s)
      else Ok s
  | Some _, Accepted => Ok s
  end.

(** *** The program *)

Inductive action : Type :=
| SetThreads (num_threads : Z)
| Listen
| Accept (a : accept_answer)
| CloseEvent (conn : Z)       (** the connection closes, in its loop *)
| Shutdown (conn : Z)         (** the user shuts a connection down *)
| RunTask (w : loop)
| DestroyServer.

Definition shutdown (id : Z) (s : TcpServer) : outcome TcpServer :=
  c ← deref id s;
  Ok (match state_ c with
      | kConnected => set_conn id (mkConn (conn_name c) (conn_loop c) kDisconnecting (callbacks_set c) (watching c) (history c)) s
      | _ => s
      end).

Definition run_task (w : loop) (t : task) (s : TcpServer) : outcome TcpServer :=
  match t with
  | TInitialize id => initialize_in_loop w id s
  | TEstablished id => connect_established w id s
  | TRemove id => check_in_own_loop w owner_loop;; remove_weakly id s
  | TDestroyed id => connect_destroyed w id s
  end.

Definition exec (a : action) (s : TcpServer) : outcome TcpServer :=
  match a with
  | SetThreads n => set_thread_num n s
  | Listen => listen s
  | Accept a => handle_read a s
  | CloseEvent id => c ← deref id s; handle_close (conn_loop c) id s
  | Shutdown id => shutdown id s
  | RunTask w =>
      match queue s w with
      | [] => Ok s
      | t :: q => run_task w t (set_queue w q s)
      end
  | DestroyServer => destroy_server s
  end.

Definition state_of (id : Z) (s : TcpServer) : option StateE := state_ <$> conns s !! id.

(** The server exists; threads are set before it listens; a connection closes while its channel is watched. *)
Definition enabled (a : action) (s : TcpServer) : bool :=
  match a with
  | SetThreads n => negb (listening s) && (0 <=? n) && alive s
  | Listen => alive s
  | Accept _ => listening s && alive s
  | CloseEvent id => match conns s !! id with Some c => watching c | None => false end
  | Shutdown id => bool_decide (is_Some (conns s !! id))
  | RunTask w => bool_decide (queue s w <> [])
  | DestroyServer => alive s
  end.

Inductive reachable : TcpServer -> Prop :=
| reachable_make name ip_port : reachable (make_tcp_server name ip_port)
| reachable_step s a s' : reachable s -> enabled a s = true -> exec a s = Ok s' -> reachable s'.

(** ** Lemmas *)

(** The functors about a connection that wait in its loop, and the removals that wait in the loop of the server. *)
Definition is_about (id : Z) (t : task) : Prop := t = TInitialize id \/ t = TEstablished id \/ t = TDestroyed id.
#[export] Instance is_about_dec id t : Decision (is_about id t).
Proof. unfold is_about. apply _. Defined.

Definition pending (id : Z) (q : list task) : list task := filter (is_about id) q.
Definition removals (id : Z) (q : list task) : list task := filter (fun t => t = TRemove id) q.

(** The loop that the pool assigns to the connection number [id]. *)
Definition assigned (ls : list loop) (id : Z) : loop := nth (Z.to_nat ((id - 1) mod zlen ls)) ls owner_loop.

(** Destroying the server queues the destruction of the connections that are in the table. *)
Definition last_rites (al : bool) (id : Z) : list task := if al then [] else [TDestroyed id].

(** The life of a connection [id] of loop [w]: what its state, the functors that wait for it, the
    table and the removals that wait have to do with each other. *)
Inductive life (id : Z) (al : bool) (w : loop) : StateE -> bool -> bool -> list mark -> list task -> bool -> list task -> Prop :=
| life_made :
    w <> owner_loop ->
    life id al w kConnecting false false [] (TInitialize id :: TEstablished id :: last_rites al id) al []
| life_initialized :
    w <> owner_loop ->
    life id al w kConnecting true false [Initialized] (TEstablished id :: last_rites al id) al []
| life_up st :
    st = kConnected \/ st = kDisconnecting ->
    life id al w st true true [Initialized; Established] (last_rites al id) al []
| life_closed :
    al = true -> life id al w kDisconnected true false [Initialized; Established; Closed] [] true [TRemove id]
| life_dying r :
    (al = true -> r = []) ->
    life id al w kDisconnected true false [Initialized; Established; Closed] [TDestroyed id] false r
| life_dead h r :
    h = [Initialized; Established; Destroyed] \/ h = [Initialized; Established; Closed; Destroyed] -> (al = true -> r = []) ->
    life id al w kDisconnected true false h [] false r.

Record conn_ok (al tb : bool) (id : Z) (s : TcpServer) : Prop := {
  k_conn : exists c, conns s !! id = Some c /\ conn_name c = connection_name s id /\
    conn_loop c = assigned (loops_ (workers_ s)) id /\ Forall (fun e => e.1 = conn_loop c) (history c) /\
    life id al (conn_loop c) (state_ c) (callbacks_set c) (watching c) (history c).*2
      (pending id (queue s (conn_loop c))) tb (removals id (queue s owner_loop));
}.

Definition tabled (id : Z) (s : TcpServer) : bool := bool_decide (connections_ s !! connection_name s id = Some id).

Definition task_ok (w : loop) (t : task) (s : TcpServer) : Prop :=
  match t with
  | TRemove id => w = owner_loop /\ is_Some (conns s !! id)
  | TInitialize id | TEstablished id | TDestroyed id => exists c, conns s !! id = Some c /\ conn_loop c = w
  end.

Record pool_ok (s : TcpServer) : Prop := {
  p_started : pool_started_ (workers_ s) = listening s;
  p_threads : 0 <= num_threads_ (workers_ s);
  p_idle : listening s = false -> loops_ (workers_ s) = [] /\ next_conn_id_ s = 1;
  p_next : next_ (workers_ s) = (next_conn_id_ s - 1) mod Z.max 1 (zlen (loops_ (workers_ s)));
}.

Record inv (s : TcpServer) : Prop := {
  v_conns id : is_Some (conns s !! id) -> conn_ok (alive s) (tabled id s) id s;
  v_ids id : is_Some (conns s !! id) -> 1 <= id < next_conn_id_ s;
  v_next : 1 <= next_conn_id_ s;
  v_tasks w t : t ∈ queue s w -> task_ok w t s;
  v_table n id : connections_ s !! n = Some id -> n = connection_name s id /\ is_Some (conns s !! id);
  v_pool : pool_ok s;
}.

Lemma connection_name_inj s id id' : connection_name s id = connection_name s id' -> id = id'.
Proof. unfold connection_name. intros H. by repeat apply (inj (String.append _)) in H; apply (inj pretty) in H. Qed.

Lemma server_make_inv name ip_port : inv (make_tcp_server name ip_port).
Proof.
  split; cbn; try done.
  - intros id [c H]. by rewrite lookup_empty in H.
  - intros id [c H]. by rewrite lookup_empty in H.
  - intros w t H. by apply not_elem_of_nil in H.
Qed.

Lemma pending_app id q q' : pending id (q ++ q') = pending id q ++ pending id q'.
Proof. apply filter_app. Qed.
Lemma removals_app id q q' : removals id (q ++ q') = removals id q ++ removals id q'.
Proof. apply filter_app. Qed.

Definition id_of (t : task) : Z := match t with TInitialize id | TEstablished id | TRemove id | TDestroyed id => id end.

Lemma pending_cons id t q :
  pending id (t :: q) = (match t with TRemove _ => [] | _ => if decide (id_of t = id) then [t] else [] end) ++ pending id q.
Proof.
  unfold pending. rewrite filter_cons.
  destruct (decide (is_about id t)) as [H|H]; unfold is_about in H.
  - destruct H as [->|[->| ->]]; cbn [id_of]; by rewrite decide_True.
  - destruct t as [i|i|i|i]; try done; cbn [id_of]; (rewrite decide_False; [done|]); intros ->; tauto.
Qed.

Lemma removals_cons id t q :
  removals id (t :: q) = (match t with TRemove i => if decide (i = id) then [t] else [] | _ => [] end) ++ removals id q.
Proof.
  unfold removals. rewrite filter_cons. destruct t as [i|i|i|i]; try by rewrite decide_False.
  destruct (decide (i = id)) as [->|Hne]; [by rewrite decide_True|rewrite decide_False; [done|congruence]].
Qed.

Lemma pending_other id t : id_of t <> id -> pending id [t] = [].
Proof. intros H. rewrite pending_cons. destruct t; cbn in *; try done; by rewrite decide_False. Qed.
Lemma removals_other id t : id_of t <> id -> removals id [t] = [].
Proof. intros H. rewrite removals_cons. destruct t; cbn in *; try done. by rewrite decide_False. Qed.

(** A step that is about one connection. *)
Record others_same (id : Z) (s s' : TcpServer) : Prop := {
  o_conns id' : id' <> id -> conns s' !! id' = conns s !! id';
  o_pending w id' : id' <> id -> pending id' (queue s' w) = pending id' (queue s w);
  o_removals id' : id' <> id -> removals id' (queue s' owner_loop) = removals id' (queue s owner_loop);
  o_name id' : connection_name s' id' = connection_name s id';
  o_loops : loops_ (workers_ s') = loops_ (workers_ s);
}.

Lemma conn_frame al tb id id' s s' : others_same id s s' -> id' <> id -> conn_ok al tb id' s -> conn_ok al tb id' s'.
Proof.
  intros [Hc Hp Hr Hn Hl] Hne [(c & H1 & H2 & H3 & H4 & H5)]. split. exists c.
  rewrite Hc, Hp, Hr, Hn, Hl by done. done.
Qed.

Lemma others_set_conn id c s : others_same id s (set_conn id c s).
Proof. split; try done. intros id' Hne. cbn. by rewrite lookup_insert_ne. Qed.

Lemma others_set_table id n tb s : others_same id s (set_table n tb s).
Proof. by split. Qed.

Lemma queue_set w w' q s : queue (set_queue w q s) w' = if decide (w' = w) then q else queue s w'.
Proof. cbn. destruct (decide (w' = w)) as [->|Hne]; [by rewrite fn_lookup_insert|by rewrite fn_lookup_insert_ne]. Qed.

Lemma others_pop id w t q s : queue s w = t :: q -> id_of t = id -> others_same id s (set_queue w q s).
Proof.
  intros Hq Ht. split; try done.
  - intros w' id' Hne. rewrite queue_set. destruct (decide (w' = w)) as [->|]; [|done].
    rewrite Hq. change (t :: q) with ([t] ++ q). rewrite pending_app, pending_other by congruence. done.
  - intros id' Hne. rewrite queue_set. destruct (decide (owner_loop = w)) as [<-|]; [|done].
    rewrite Hq. change (t :: q) with ([t] ++ q). rewrite removals_app, removals_other by congruence. done.
Qed.

Lemma others_push id w t s : id_of t = id -> others_same id s (queue_in_own_loop w t s).
Proof.
  intros Ht. unfold queue_in_own_loop. split; try done.
  - intros w' id' Hne. rewrite queue_set. destruct (decide (w' = w)) as [->|]; [|done].
    rewrite pending_app, pending_other by congruence. apply app_nil_r.
  - intros id' Hne. rewrite queue_set. destruct (decide (owner_loop = w)) as [<-|]; [|done].
    rewrite removals_app, removals_other by congruence. apply app_nil_r.
Qed.

(** The tasks stay sound when connections keep their loops. *)
Lemma task_ok_mono w t s s' :
  (forall id c, conns s !! id = Some c -> exists c', conns s' !! id = Some c' /\ conn_loop c' = conn_loop c) ->
  task_ok w t s -> task_ok w t s'.
Proof.
  intros H. destruct t as [id|id|id|id]; cbn.
  3: intros [-> [c Hc]]; destruct (H id c Hc) as (c' & -> & _); done.
  all: intros (c & Hc & <-); destruct (H id c Hc) as (c' & -> & E); by exists c'.
Qed.

Lemma keeps_loop id c c' s :
  conns s !! id = Some c -> conn_loop c' = conn_loop c ->
  forall i d, conns s !! i = Some d -> exists d', <[id := c']> (conns s) !! i = Some d' /\ conn_loop d' = conn_loop d.
Proof.
  intros Hc Hl i d Hd. destruct (decide (i = id)) as [->|Hne].
  - exists c'. rewrite lookup_insert_eq. split; [done|]. congruence.
  - exists d. by rewrite lookup_insert_ne.
Qed.

Lemma pool_ok_keep s s' :
  pool_ok s -> workers_ s' = workers_ s -> listening s' = listening s -> next_conn_id_ s' = next_conn_id_ s -> pool_ok s'.
Proof. intros [P1 P2 P3 P4] E1 E2 E3. split; rewrite ?E1, ?E2, ?E3; done. Qed.

(** The invariant, except for what it says about one connection. *)
Record inv_but (id : Z) (s : TcpServer) : Prop := {
  b_conns id' : id' <> id -> is_Some (conns s !! id') -> conn_ok (alive s) (tabled id' s) id' s;
  b_ids id' : is_Some (conns s !! id') -> 1 <= id' < next_conn_id_ s;
  b_next : 1 <= next_conn_id_ s;
  b_tasks w t : t ∈ queue s w -> task_ok w t s;
  b_table n id' : connections_ s !! n = Some id' -> n = connection_name s id' /\ is_Some (conns s !! id');
  b_pool : pool_ok s;
}.

Lemma inv_except id s : inv s -> inv_but id s.
Proof. intros [V1 V2 V3 V4 V5 V6]. split; try done. intros id' _ H. by apply V1. Qed.

Lemma inv_again id s : inv_but id s -> conn_ok (alive s) (tabled id s) id s -> inv s.
Proof. intros [V1 V2 V3 V4 V5 V6] H. split; try done. intros id' Hs. destruct (decide (id' = id)) as [->|]; [done|by apply V1]. Qed.

Lemma but_set_conn id c c' s :
  inv_but id s -> conns s !! id = Some c -> conn_loop c' = conn_loop c -> inv_but id (set_conn id c' s).
Proof.
  intros [V1 V2 V3 V4 V5 V6] Hc Hl. pose proof (keeps_loop id c c' s Hc Hl) as Hk.
  assert (Hs : forall i, is_Some (conns (set_conn id c' s) !! i) <-> is_Some (conns s !! i)).
  { intros i. cbn. destruct (decide (i = id)) as [->|]; [by rewrite lookup_insert_eq, Hc|by rewrite lookup_insert_ne]. }
  split; try done.
  - intros id' Hne Hi. apply Hs in Hi. change (tabled id' (set_conn id c' s)) with (tabled id' s).
    by apply (conn_frame _ _ id id' s); [apply others_set_conn| |apply V1].
  - intros id' Hi. by apply V2, Hs.
  - intros w t Ht. apply (task_ok_mono _ _ s); [exact Hk|by apply V4].
  - intros n id' Hi. destruct (V5 n id' Hi) as [-> Hi']. split; [done|by apply Hs].
  - by apply (pool_ok_keep s).
Qed.

Lemma but_pop id w t q s : inv_but id s -> queue s w = t :: q -> id_of t = id -> inv_but id (set_queue w q s).
Proof.
  intros [V1 V2 V3 V4 V5 V6] Hq Ht. split; try done.
  - intros id' Hne Hi. change (tabled id' (set_queue w q s)) with (tabled id' s).
    by apply (conn_frame _ _ id id' s); [apply (others_pop _ _ t)| |apply V1].
  - intros w' t' Hin. rewrite queue_set in Hin. apply (task_ok_mono _ _ s); [by eauto|]. apply V4.
    destruct (decide (w' = w)) as [->|]; [|done]. rewrite Hq. by right.
  - by apply (pool_ok_keep s).
Qed.

Lemma but_push id w t s : inv_but id s -> task_ok w t s -> id_of t = id -> inv_but id (queue_in_own_loop w t s).
Proof.
  intros [V1 V2 V3 V4 V5 V6] Hok Ht. split; try done.
  - intros id' Hne Hi. change (tabled id' (queue_in_own_loop w t s)) with (tabled id' s).
    by apply (conn_frame _ _ id id' s); [apply others_push| |apply V1].
  - intros w' t' Hin. unfold queue_in_own_loop in Hin. rewrite queue_set in Hin. apply (task_ok_mono _ _ s); [by eauto|].
    destruct (decide (w' = w)) as [->|]; [|by apply V4]. apply elem_of_app in Hin as [Hin|Hin%list_elem_of_singleton]; [by apply V4|by subst].
  - by apply (pool_ok_keep s).
Qed.

(** The table changes at the name of the connection. *)
Lemma but_table id tb s :
  inv_but id s -> (forall n, n <> connection_name s id -> tb !! n = connections_ s !! n) ->
  (forall id', tb !! connection_name s id = Some id' -> id' = id /\ is_Some (conns s !! id)) ->
  inv_but id (set_table (next_conn_id_ s) tb s).
Proof.
  intros [V1 V2 V3 V4 V5 V6] Hn Hid. split; try done.
  - intros id' Hne Hi. replace (tabled id' (set_table (next_conn_id_ s) tb s)) with (tabled id' s).
    + by apply (conn_frame _ _ id id' s); [apply others_set_table| |apply V1].
    + unfold tabled. change (connection_name (set_table _ _ _)) with (connection_name s). cbn [connections_ set_table].
      rewrite Hn; [done|]. intros E. by apply connection_name_inj in E.
  - intros n id' Hi. cbn in Hi. change (connection_name (set_table _ _ _)) with (connection_name s).
    destruct (decide (n = connection_name s id)) as [->|Hne]; [by destruct (Hid id' Hi) as [-> ?]|]. rewrite Hn in Hi by done. by apply V5.
  - by apply (pool_ok_keep s).
Qed.

(** A functor about a connection ran in the loop of the connection. *)
Lemma ran_inv c c' w t q s :
  let id := id_of t in
  inv s -> queue s w = t :: q -> (forall i, t <> TRemove i) -> conns s !! id = Some c -> conn_loop c = w ->
  conn_name c' = conn_name c -> conn_loop c' = w -> Forall (fun e => e.1 = w) (history c') ->
  life id (alive s) w (state_ c') (callbacks_set c') (watching c') (history c').*2 (pending id q) (tabled id s) (removals id (queue s owner_loop)) ->
  inv (set_conn id c' (set_queue w q s)).
Proof.
  intros id I Hq Hnr Hc Hl Hn Hl' Hh Hlife.
  destruct (v_conns _ I id ltac:(by rewrite Hc)) as [(c0 & Hc0 & N1 & N2 & _)]. rewrite Hc in Hc0. injection Hc0 as <-.
  apply (inv_again id).
  - apply (but_set_conn _ c); [|done|congruence]. by apply (but_pop _ _ t); [apply inv_except|..].
  - split. exists c'. split; [apply lookup_insert_eq|]. rewrite Hl', Hn. change (queue (set_conn id c' ?x)) with (queue x).
    rewrite !queue_set, decide_True by done. change (tabled id (set_conn _ _ _)) with (tabled id s).
    split_and!; try done; [exact (eq_trans (eq_sym Hl) N2)|].
    replace (removals id (if decide (owner_loop = w) then q else queue s owner_loop)) with (removals id (queue s owner_loop)); [done|].
    destruct (decide (owner_loop = w)) as [<-|]; [|done]. rewrite Hq, removals_cons. destruct t; try done. by destruct (Hnr conn).
Qed.

(** The connection a functor is about, and what waits for it. *)
Lemma popped w t q s :
  let id := id_of t in
  inv s -> queue s w = t :: q -> (forall i, t <> TRemove i) ->
  exists c, conns s !! id = Some c /\ conn_loop c = w /\ Forall (fun e => e.1 = w) (history c) /\
    life id (alive s) w (state_ c) (callbacks_set c) (watching c) (history c).*2 (t :: pending id q) (tabled id s) (removals id (queue s owner_loop)).
Proof.
  intros id I Hq Hnr. assert (Ht : task_ok w t s) by (apply (v_tasks _ I); rewrite Hq; left).
  assert (exists c, conns s !! id = Some c /\ conn_loop c = w) as (c & Hc & Hl) by (destruct t; try done; by destruct (Hnr conn)).
  exists c. destruct (v_conns _ I id ltac:(by rewrite Hc)) as [(c0 & Hc0 & _ & _ & Hh & Hlife)]. rewrite Hc in Hc0. injection Hc0 as <-.
  rewrite Hl in *. split_and!; try done. rewrite Hq, pending_cons in Hlife. destruct t; try (by rewrite decide_True in Hlife). by destruct (Hnr conn).
Qed.

Lemma life_to_initialize id al w st cb wa h p tb r :
  life id al w st cb wa h (TInitialize id :: p) tb r ->
  w <> owner_loop /\ st = kConnecting /\ cb = false /\ wa = false /\ h = [] /\ p = TEstablished id :: last_rites al id /\ tb = al /\ r = [].
Proof. inversion 1; subst; try done; match goal with E : last_rites ?a _ = _ |- _ => by destruct a end. Qed.

Lemma life_to_establish id al w st cb wa h p tb r :
  life id al w st cb wa h (TEstablished id :: p) tb r ->
  w <> owner_loop /\ st = kConnecting /\ cb = true /\ wa = false /\ h = [Initialized] /\ p = last_rites al id /\ tb = al /\ r = [].
Proof. inversion 1; subst; try done; match goal with E : last_rites ?a _ = _ |- _ => by destruct a end. Qed.

Lemma life_to_destroy id al w st cb wa h p tb r :
  life id al w st cb wa h (TDestroyed id :: p) tb r ->
  p = [] /\ tb = false /\ cb = true /\ (al = true -> r = []) /\
  (((st = kConnected \/ st = kDisconnecting) /\ wa = true /\ h = [Initialized; Established]) \/
   (st = kDisconnected /\ wa = false /\ h = [Initialized; Established; Closed])).
Proof.
  inversion 1 as [| |st' Hst| |r' Hr|]; subst; try done.
  - match goal with E : last_rites ?a _ = _ |- _ => destruct a; [done|]; cbn in E; injection E as <- end.
    tauto.
  - tauto.
Qed.

Lemma in_own_loop w : check_in_own_loop w w = Ok tt.
Proof. unfold check_in_own_loop. by rewrite Nat.eqb_refl. Qed.

Lemma run_initialize_ok w id q s :
  inv s -> queue s w = TInitialize id :: q -> exists s', exec (RunTask w) s = Ok s' /\ inv s'.
Proof.
  intros I Hq. destruct (popped _ _ _ _ I Hq ltac:(done)) as (c & Hc & Hl & Hh & Hlife). cbn [exec]. rewrite Hq. cbn [run_task id_of] in *.
  unfold initialize_in_loop, deref. cbn [conns set_queue]. rewrite Hc, bind_ret, Hl.
  rewrite in_own_loop, bind_ret. eexists. split; [done|].
  apply (ran_inv c _ w (TInitialize id)); try done; cbn [history state_ callbacks_set watching].
  - apply Forall_app. split; [done|by constructor].
  - apply life_to_initialize in Hlife as (? & Hst & _ & Hwa & Hhi & Hp & Htb & Hr).
    cbn [id_of]. rewrite fmap_app, Hhi, Hst, Hwa, Hp, Htb, Hr. by apply life_initialized.
Qed.

Lemma run_established_ok w id q s :
  inv s -> queue s w = TEstablished id :: q -> exists s', exec (RunTask w) s = Ok s' /\ inv s'.
Proof.
  intros I Hq. destruct (popped _ _ _ _ I Hq ltac:(done)) as (c & Hc & Hl & Hh & Hlife). cbn [exec]. rewrite Hq. cbn [run_task id_of] in *.
  apply life_to_establish in Hlife as (Hw & Hst & Hcb & Hwa & Hhi & Hp & Htb & Hr).
  unfold connect_established, deref. cbn [conns set_queue]. rewrite Hc, bind_ret, Hl.
  rewrite in_own_loop, bind_ret.
  rewrite check_true, bind_ret by (by apply bool_decide_eq_true). eexists. split; [done|].
  apply (ran_inv c _ w (TEstablished id)); try done; cbn [history state_ callbacks_set watching id_of].
  - apply Forall_app. split; [done|by constructor].
  - rewrite fmap_app, Hhi, Hcb, Hp, Htb, Hr. apply life_up. by left.
Qed.

(** A connection that was shut down and is destroyed before it has closed. *)
Definition interrupted : fault := CheckFailed "Channel::remove: is_none_event".

Lemma run_destroyed_ok w id q s :
  inv s -> queue s w = TDestroyed id :: q ->
  if decide (state_of id s = Some kDisconnecting) then exec (RunTask w) s = Fault interrupted
  else exists s', exec (RunTask w) s = Ok s' /\ inv s'.
Proof.
  intros I Hq. destruct (popped _ _ _ _ I Hq ltac:(done)) as (c & Hc & Hl & Hh & Hlife). cbn [exec]. rewrite Hq. cbn [run_task id_of] in *.
  apply life_to_destroy in Hlife as (Hp & Htb & Hcb & Hr & Hor).
  unfold connect_destroyed, deref. cbn [conns set_queue]. rewrite Hc, bind_ret, Hl.
  rewrite in_own_loop, bind_ret. cbv zeta. unfold state_of. rewrite Hc. cbn [fmap option_fmap option_map].
  destruct (decide _) as [[= Hst]|Hne].
  { rewrite Hst. destruct Hor as [(_ & Hwa & _)|(Hst' & _)]; [by rewrite Hwa | congruence]. }
  destruct Hor as [([Hst|Hst] & Hwa & Hhi)|(Hst & Hwa & Hhi)]; [|by rewrite Hst in Hne|]; rewrite Hst; cbn [watching]; rewrite ?Hwa; cbn [negb check]; rewrite bind_ret;
    (eexists; split; [done|]); (apply (ran_inv c _ w (TDestroyed id)); try done; cbn [history state_ callbacks_set watching id_of];
    [apply Forall_app; split; [done|by constructor] | rewrite fmap_app, Hhi, Hcb, Hp, Htb, ?Hst, ?Hwa; apply life_dead; [tauto|done]]).
Qed.

(** A connection that has closed and is to be removed. *)
Record closed (c : connection) (id : Z) (s : TcpServer) : Prop := {
  x_conn : conns s !! id = Some c;
  x_name : conn_name c = connection_name s id;
  x_loop : conn_loop c = assigned (loops_ (workers_ s)) id;
  x_history : Forall (fun e => e.1 = conn_loop c) (history c);
  x_fields : (state_ c, callbacks_set c, watching c, (history c).*2) = (kDisconnected, true, false, [Initialized; Established; Closed]);
  x_pending : pending id (queue s (conn_loop c)) = [];
  x_removals : removals id (queue s owner_loop) = [];
}.

Lemma remove_ok c id s :
  inv_but id s -> closed c id s -> tabled id s = true -> exists s', remove_connection_in_loop id s = Ok s' /\ inv s'.
Proof.
  intros B [Hc Hn Hl Hh [= Hst Hcb Hwa Hhi] Hp Hr] Htb. unfold tabled in Htb. apply bool_decide_eq_true in Htb.
  unfold remove_connection_in_loop, deref. rewrite Hc, bind_ret, Hn, Htb. cbv zeta.
  rewrite check_true, bind_ret by done.  eexists. split; [done|]. apply (inv_again id).
  - apply but_push; [|by exists c|done]. apply but_table; [done|intros n Hne; by apply lookup_delete_ne|].
    intros id' H. by rewrite lookup_delete_eq in H.
  - split. exists c. split; [done|]. split; [done|]. split; [done|]. split; [done|].
    assert (Ht : tabled id (queue_in_own_loop (conn_loop c) (TDestroyed id)
                   (set_table (next_conn_id_ s) (delete (connection_name s id) (connections_ s)) s)) = false).
    { apply bool_decide_eq_false. cbn. change (connection_name (queue_in_own_loop _ _ _)) with (connection_name s). by rewrite lookup_delete_eq. }
    rewrite Ht, Hst, Hcb, Hwa, Hhi. unfold queue_in_own_loop. rewrite !queue_set, decide_True by done. cbn [queue set_table].
    rewrite pending_app, Hp, pending_cons. cbn [id_of]. rewrite decide_True by done. apply life_dying. intros _.
    destruct (decide (owner_loop = conn_loop c)) as [E|]; [|done]. rewrite removals_app, <- E, Hr. done.
Qed.

Lemma life_stale id w st cb wa h p tb t r :
  life id false w st cb wa h p tb (t :: r) -> life id false w st cb wa h p tb r.
Proof. inversion 1; subst; try done; [by apply life_dying|by apply life_dead]. Qed.

Lemma life_remove id w st cb wa h p tb t r :
  life id true w st cb wa h p tb (t :: r) ->
  (st, cb, wa, h) = (kDisconnected, true, false, [Initialized; Established; Closed]) /\ p = [] /\ tb = true /\ r = [].
Proof. inversion 1 as [| | | |? Hr|? ? ? Hr]; subst; try done; by specialize (Hr eq_refl). Qed.

Lemma run_remove_ok w id q s :
  inv s -> queue s w = TRemove id :: q -> exists s', exec (RunTask w) s = Ok s' /\ inv s'.
Proof.
  intros I Hq. destruct (v_tasks _ I w (TRemove id) ltac:(rewrite Hq; left)) as [-> [c Hc]].
  destruct (v_conns _ I id ltac:(by rewrite Hc)) as [(c0 & Hc0 & N1 & N2 & N3 & Hlife)]. rewrite Hc in Hc0. injection Hc0 as <-.
  cbn [exec]. rewrite Hq. cbn [run_task]. rewrite in_own_loop, bind_ret. unfold remove_weakly. cbn [alive set_queue].
  rewrite Hq, removals_cons, decide_True in Hlife by done. cbn [app] in Hlife.
  assert (B : inv_but id (set_queue owner_loop q s)) by (by apply (but_pop _ _ (TRemove id)); [apply inv_except|..]).
  assert (Hpend : pending id (queue (set_queue owner_loop q s) (conn_loop c)) = pending id (queue s (conn_loop c))).
  { rewrite queue_set. destruct (decide _) as [E|]; [|done]. by rewrite E, Hq, pending_cons. }
  assert (Hrem : removals id (queue (set_queue owner_loop q s) owner_loop) = removals id q) by (by rewrite queue_set, decide_True).
  destruct (alive s) eqn:Ea.
  - apply life_remove in Hlife as (Hf & Hp & Htb & Hr). apply (remove_ok c); [done| |done]. split; rewrite ?Hpend, ?Hrem; done.
  - eexists. split; [done|]. apply (inv_again id); [done|]. split. exists c. cbn [alive set_queue]. rewrite Ea, Hpend, Hrem.
    change (tabled id (set_queue _ _ s)) with (tabled id s). split_and!; try done. by apply life_stale in Hlife.
Qed.

(** The life of a connection that is up. *)
Lemma life_is_up id al w st cb wa h p tb r :
  life id al w st cb wa h p tb r -> st = kConnected \/ st = kDisconnecting ->
  cb = true /\ wa = true /\ h = [Initialized; Established] /\ p = last_rites al id /\ tb = al /\ r = [].
Proof. inversion 1; subst; intros [?|?]; done. Qed.

Lemma life_watched id al w st cb h p tb r : life id al w st cb true h p tb r -> st = kConnected \/ st = kDisconnecting.
Proof. by inversion 1. Qed.

Lemma server_close_ok id s :
  inv s -> enabled (CloseEvent id) s = true -> exists s', exec (CloseEvent id) s = Ok s' /\ inv s'.
Proof.
  intros I He. cbn [enabled] in He. destruct (conns s !! id) as [c|] eqn:Hc; [|done].
  destruct (v_conns _ I id ltac:(by rewrite Hc)) as [(c0 & Hc0 & N1 & N2 & N3 & Hlife)]. rewrite Hc in Hc0. injection Hc0 as <-.
  assert (Hst : state_ c = kConnected \/ state_ c = kDisconnecting) by (rewrite He in Hlife; by apply life_watched in Hlife).
  destruct (life_is_up _ _ _ _ _ _ _ _ _ _ Hlife Hst) as (Hcb & Hwa & Hhi & Hp & Htb & Hr). clear Hlife.
  cbn [exec]. unfold handle_close, deref. rewrite Hc, !bind_ret, in_own_loop, bind_ret.
  rewrite check_true, bind_ret by (by apply bool_decide_eq_true).
  set (c' := mkConn _ _ kDisconnected _ _ _). unfold remove_connection. cbn [alive set_conn].
  assert (B : inv_but id (set_conn id c' s)) by (by apply (but_set_conn _ c); [apply inv_except|..]).
  assert (F : forall al r p, life id al (conn_loop c') (state_ c') (callbacks_set c') (watching c') (history c').*2 p al r <->
                life id al (conn_loop c) kDisconnected true false [Initialized; Established; Closed] p al r).
  { intros. cbn. by rewrite Hcb, fmap_app, Hhi. }
  assert (Hh : Forall (fun e => e.1 = conn_loop c') (history c')) by (apply Forall_app; by split; [|constructor]).
  assert (Hc' : conns (set_conn id c' s) !! id = Some c') by apply lookup_insert_eq.
  destruct (alive s) eqn:Ea.
  - unfold run_in_own_loop. destruct (Nat.eqb_spec (conn_loop c) owner_loop) as [E|E].
    + apply (remove_ok c'); [done| |done]. split; try done. cbn. by rewrite Hcb, fmap_app, Hhi.
    + eexists. split; [done|]. apply (inv_again id); [apply but_push; [done|split; [done|rewrite Hc'; done]|done]|].
      split. exists c'. split_and!; try done. cbn [alive queue_in_own_loop set_queue set_conn]. rewrite Ea.
      change (tabled id (queue_in_own_loop _ _ _)) with (tabled id s). rewrite Htb. apply F.
      unfold queue_in_own_loop. rewrite !queue_set, decide_False, decide_True by done. cbn [queue set_conn conn_loop c'].
      rewrite removals_app, Hr, removals_cons, decide_True, Hp by done. by apply life_closed.
  - eexists. split; [done|]. apply (inv_again id); [done|]. split. exists c'. split_and!; try done.
    cbn [alive set_conn]. rewrite Ea. change (tabled id (set_conn _ _ _)) with (tabled id s). rewrite Htb. apply F.
    cbn [queue set_conn conn_loop c']. rewrite Hp, Hr. by apply life_dying.
Qed.

Lemma shutdown_ok id s : inv s -> enabled (Shutdown id) s = true -> exists s', exec (Shutdown id) s = Ok s' /\ inv s'.
Proof.
  intros I [c Hc]%bool_decide_eq_true. cbn [exec]. unfold shutdown, deref. rewrite Hc, bind_ret.
  destruct (state_ c) eqn:Hst; try by exists s.
  destruct (v_conns _ I id ltac:(by rewrite Hc)) as [(c0 & Hc0 & N1 & N2 & N3 & Hlife)]. rewrite Hc in Hc0. injection Hc0 as <-.
  destruct (life_is_up _ _ _ _ _ _ _ _ _ _ Hlife ltac:(by left)) as (Hcb & Hwa & Hhi & Hp & Htb & Hr).
  eexists. split; [done|]. apply (inv_again id); [by apply (but_set_conn _ c); [apply inv_except|..]|].
  split. eexists. split; [apply lookup_insert_eq|]. cbn [conn_name conn_loop history state_ callbacks_set watching].
  split_and!; try done. change (tabled id (set_conn _ _ _)) with (tabled id s). cbn [queue set_conn alive].
  rewrite Hcb, Hwa, Hhi, Hp, Htb, Hr. apply life_up. by right.
Qed.

Lemma assigned_nil id : assigned [] id = owner_loop.
Proof. unfold assigned. by destruct (Z.to_nat _). Qed.

Lemma get_next_loop_ok s :
  pool_ok s -> listening s = true -> 1 <= next_conn_id_ s ->
  exists p, get_next_loop (workers_ s) = Ok (assigned (loops_ (workers_ s)) (next_conn_id_ s), p) /\
    pool_started_ p = true /\ num_threads_ p = num_threads_ (workers_ s) /\ loops_ p = loops_ (workers_ s) /\
    next_ p = (next_conn_id_ s + 1 - 1) mod Z.max 1 (zlen (loops_ (workers_ s))).
Proof.
  intros [P1 P2 _ P4] Hl Hid. unfold get_next_loop. rewrite P1, Hl. cbn [check]. rewrite bind_ret.
  destruct (loops_ (workers_ s)) as [|l ls] eqn:E.
  - rewrite assigned_nil. exists (workers_ s). rewrite P1, Hl, P4, E, zlen_nil, !Z.mod_1_r. done.
  - set (L := l :: ls) in *. assert (HL : 1 <= zlen L) by (unfold L; rewrite zlen_cons; pose proof (zlen_nonneg ls); lia).
    rewrite Z.max_r in * by done. pose proof (Z.mod_pos_bound (next_conn_id_ s - 1) (zlen L) ltac:(lia)) as Hr.
    assert (Hlt : (Z.to_nat (next_ (workers_ s)) < length L)%nat) by (rewrite P4; unfold zlen in *; lia).
    apply lookup_lt_is_Some in Hlt as [x Hx]. rewrite Hx. eexists. split.
    + do 2 f_equal. unfold assigned. rewrite <- P4. symmetry. by apply nth_lookup_Some with (d := owner_loop) in Hx.
    + cbn. split_and!; try done. rewrite P4. replace (next_conn_id_ s + 1 - 1) with (next_conn_id_ s - 1 + 1) by lia.
      rewrite Zplus_mod. destruct (zlen L <=? (next_conn_id_ s - 1) mod zlen L + 1) eqn:Ele; zbool.
      * replace ((next_conn_id_ s - 1) mod zlen L) with (zlen L - 1) by lia.
        destruct (decide (zlen L = 1)) as [->|]; [done|]. rewrite (Z.mod_small 1) by lia. replace (zlen L - 1 + 1) with (zlen L) by lia.
        by rewrite Z_mod_same_full.
      * destruct (decide (zlen L = 1)) as [E1|]; [rewrite E1 in *; lia|]. rewrite (Z.mod_small 1) by lia. symmetry. apply Z.mod_small. lia.
Qed.

Lemma no_tasks_about id q :
  (forall t, t ∈ q -> id_of t <> id) -> pending id q = [] /\ removals id q = [].
Proof.
  induction q as [|t q IH]; intros H; [done|]. rewrite pending_cons, removals_cons. destruct IH as [-> ->]; [intros; apply H; by right|].
  specialize (H t ltac:(left)). destruct t; cbn in *; by rewrite ?decide_False.
Qed.

Lemma task_known w t s : inv s -> t ∈ queue s w -> is_Some (conns s !! id_of t).
Proof. intros I H. pose proof (v_tasks _ I w t H) as Hok. destruct t; cbn in *; destruct Hok as [? Hok]; try done; destruct Hok; by eexists. Qed.

(** A new connection object, before it enters the table. *)
Lemma made_but p c s :
  let id := next_conn_id_ s in
  inv s -> conns s !! id = None -> loops_ p = loops_ (workers_ s) ->
  pool_ok (set_table (id + 1) (connections_ s) (set_workers p s)) ->
  inv_but id (set_conn id c (set_table (id + 1) (connections_ s) (set_workers p s))).
Proof.
  intros id [V1 V2 V3 V4 V5 V6] Hnone Hp Hpool. set (s1 := set_table _ _ _) in *.
  assert (O : others_same id s s1) by (split; try done; by cbn).
  assert (Hk : forall i d, conns s !! i = Some d -> exists d', conns (set_conn id c s1) !! i = Some d' /\ conn_loop d' = conn_loop d).
  { intros i d Hd. exists d. cbn. rewrite lookup_insert_ne; [done|congruence]. }
  split; try done; cbn [next_conn_id_ set_conn set_table s1]; try lia.
  - intros id' Hne Hi. cbn in Hi. rewrite lookup_insert_ne in Hi by done. change (tabled id' (set_conn _ _ s1)) with (tabled id' s).
    apply (conn_frame _ _ id id' s1); [apply others_set_conn|done|]. by apply (conn_frame _ _ id id' s), V1.
  - intros id' Hi. cbn in Hi. destruct (decide (id' = id)) as [->|Hne]; [unfold id; lia|]. rewrite lookup_insert_ne in Hi by done.
    specialize (V2 id' Hi). lia.
  - intros w t Ht. by apply (task_ok_mono _ _ s), V4.
  - intros n id' Hi. destruct (V5 n id' Hi) as [-> [d Hd]]. split; [done|]. destruct (Hk _ _ Hd) as (d' & -> & _). done.
  - by apply (pool_ok_keep s1).
Qed.

Lemma tabled_new id n s : tabled id (set_table n (<[connection_name s id := id]> (connections_ s)) s) = true.
Proof.
  apply bool_decide_eq_true. change (connection_name (set_table _ _ _)) with (connection_name s). cbn. by rewrite lookup_insert_eq.
Qed.

Lemma but_enter id s :
  inv_but id s -> is_Some (conns s !! id) ->
  inv_but id (set_table (next_conn_id_ s) (<[connection_name s id := id]> (connections_ s)) s).
Proof.
  intros B Hs. apply but_table; [done|intros n Hne; by apply lookup_insert_ne|]. intros id' H. rewrite lookup_insert_eq in H. by injection H as <-.
Qed.

Lemma accepted_ok s :
  inv s -> listening s = true -> alive s = true ->
  (exists s', new_connection s = Ok s' /\ inv s') \/ (new_connection s = Fault (Undefined "next_conn_id_++") /\ kInt32Max <= next_conn_id_ s).
Proof.
  intros I Hl Ha. destruct (get_next_loop_ok s (v_pool _ I) Hl (v_next _ I)) as (p & Hget & Hp1 & Hp2 & Hp3 & Hp4).
  unfold new_connection. rewrite Hget, bind_ret. cbv zeta. set (id := next_conn_id_ s) in *. set (w := assigned _ id) in *.
  destruct (Z.ltb_spec id kInt32Max) as [Hid|Hid]; [left|by right]. cbn [defined]. rewrite bind_ret.
  assert (Hnone : conns s !! id = None) by (destruct (conns s !! id) eqn:E; [|done]; pose proof (v_ids _ I id ltac:(by rewrite E)); unfold id in *; lia).
  assert (Hq : forall w', pending id (queue s w') = [] /\ removals id (queue s w') = []).
  { intros w'. apply no_tasks_about. intros t Ht E. destruct (task_known _ _ _ I Ht) as [d Hd]. rewrite E in Hd. congruence. }
  set (name := connection_name s id). set (c0 := mkConn name w kConnecting false false []).
  assert (B : inv_but id (set_conn id c0 (set_table (id + 1) (connections_ s) (set_workers p s)))).
  { apply made_but; try done. destruct (v_pool _ I) as [P1 P2 P3 P4]. split; cbn; rewrite ?Hp1, ?Hp2, ?Hp3; try done; congruence. }
  set (s1 := set_conn id c0 _) in *.
  unfold run_in_own_loop. destruct (Nat.eqb_spec owner_loop w) as [Ew|Ew].
  - unfold initialize_in_loop, deref. cbn [conns s1 set_conn]. rewrite lookup_insert_eq, bind_ret. cbn [conn_loop c0].
    rewrite in_own_loop, !bind_ret. set (c1 := mkConn _ _ _ true _ _). set (s2 := set_conn id c1 s1).
    assert (B2 : inv_but id s2) by (apply (but_set_conn _ c0); [done|apply lookup_insert_eq|done]).
    assert (Hc1 : conns s2 !! id = Some c1) by apply lookup_insert_eq.
    pose proof (but_enter id s2 B2 ltac:(by rewrite Hc1)) as B3. change (connection_name s2 id) with name in B3.
    set (s3 := set_table _ _ s2) in *. unfold connect_established, deref. change (conns s3) with (conns s2). rewrite Hc1, bind_ret.
    cbn [conn_loop c1 conn_name callbacks_set state_ history c0]. rewrite in_own_loop, bind_ret. cbn [bool_decide decide_rel].
    rewrite check_true, bind_ret by done. eexists. split; [done|]. apply (inv_again id); [by apply (but_set_conn _ c1)|].
    split. eexists. split; [apply lookup_insert_eq|]. cbn [conn_name conn_loop history state_ callbacks_set watching alive set_conn s3 set_table s2 s1 set_workers].
    change (tabled id (set_conn _ _ s3)) with (tabled id s3). unfold s3. change name with (connection_name s2 id). rewrite tabled_new.
    split_and!; try done; [cbn; by rewrite Hp3|by repeat constructor|]. rewrite Ha.
    change (queue (set_conn id _ (set_table _ _ s2))) with (queue s). destruct (Hq w) as [-> _]. destruct (Hq owner_loop) as [_ ->]. apply life_up. by left.
  - rewrite bind_ret. eexists. split; [done|].
    assert (Hc1 : conns s1 !! id = Some c0) by apply lookup_insert_eq.
    assert (Hok : forall x, conns x = conns s1 -> task_ok w (TInitialize id) x /\ task_ok w (TEstablished id) x) by (intros x E; cbn; rewrite E, Hc1; split; by exists c0).
    assert (B2 : inv_but id (queue_in_own_loop w (TInitialize id) s1)) by (apply but_push; [done|by apply Hok|done]).
    set (s2 := queue_in_own_loop w (TInitialize id) s1) in *.
    pose proof (but_enter id s2 B2 ltac:(by exists c0)) as B3. change (connection_name s2 id) with name in B3. set (s3 := set_table _ _ s2) in *.
    apply (inv_again id); [apply but_push; [done|by apply Hok|done]|].
    split. exists c0. split; [done|]. change (tabled id (queue_in_own_loop _ _ s3)) with (tabled id s3). unfold s3.
    change name with (connection_name s2 id). rewrite tabled_new. change (alive (queue_in_own_loop _ _ _)) with (alive s). rewrite Ha.
    cbn [conn_name conn_loop history state_ callbacks_set watching c0]. split_and!; try done; [cbn; by rewrite Hp3|].
    unfold queue_in_own_loop at 1 2. rewrite !queue_set. rewrite (decide_True (P := w = w)), (decide_False (P := owner_loop = w)) by done.
    change (queue (set_table _ _ s2)) with (queue s2). unfold s2, queue_in_own_loop. rewrite !queue_set.
    rewrite (decide_True (P := w = w)), (decide_False (P := owner_loop = w)) by done. change (queue s1) with (queue s).
    rewrite !pending_app. destruct (Hq w) as [-> _]. destruct (Hq owner_loop) as [_ ->]. rewrite !pending_cons. cbn [id_of].
    rewrite !decide_True by done. by apply (life_made id true).
Qed.

Lemma no_conns s id : inv s -> listening s = false -> ~ is_Some (conns s !! id).
Proof. intros I Hl Hs. pose proof (v_ids _ I id Hs). destruct (p_idle _ (v_pool _ I) Hl) as [_ Hn]. lia. Qed.

(** Before the server listens only the pool can change. *)
Lemma idle_inv s s' :
  inv s -> listening s = false -> conns s' = conns s -> queue s' = queue s -> connections_ s' = connections_ s ->
  next_conn_id_ s' = next_conn_id_ s -> pool_ok s' -> inv s'.
Proof.
  intros I Hl E1 E2 E3 E4 Hp. pose proof (no_conns s) as Hno. split; rewrite ?E1, ?E2, ?E3, ?E4; try done.
  - intros id Hs. by destruct (Hno id I Hl).
  - intros id Hs. by destruct (Hno id I Hl).
  - apply (v_next _ I).
  - intros w t Ht. destruct (Hno _ I Hl (task_known w t s I Ht)).
  - intros n id H. destruct (v_table _ I n id H) as [_ Hs]. by destruct (Hno id I Hl).
Qed.

Lemma listen_ok s : inv s -> exists s', listen s = Ok s' /\ inv s'.
Proof.
  intros I. unfold listen. destruct (listening s) eqn:Hl; [by exists s|]. unfold start_pool.
  destruct (v_pool _ I) as [P1 P2 P3 P4]. destruct (P3 Hl) as [Hls Hn]. rewrite P1, Hl. cbn [negb check]. rewrite !bind_ret.
  eexists. split; [done|]. apply (idle_inv s); try done. split; cbn; try done. rewrite P4, Hn. by rewrite !Zmod_0_l.
Qed.

Lemma set_threads_ok n s : inv s -> listening s = false -> 0 <= n -> exists s', set_thread_num n s = Ok s' /\ inv s'.
Proof.
  intros I Hl Hn. unfold set_thread_num. rewrite check_true, bind_ret by (by apply Z.leb_le). eexists. split; [done|].
  apply (idle_inv s); try done. destruct (v_pool _ I) as [P1 P2 P3 P4]. by split.
Qed.

(** Destroying the server: the connections of [ids] are still to do. *)
Record destroying (ids : list Z) (s : TcpServer) : Prop := {
  d_todo id : id ∈ ids -> conn_ok true true id s;
  d_done id : id ∉ ids -> is_Some (conns s !! id) -> conn_ok false false id s;
  d_ids id : is_Some (conns s !! id) -> 1 <= id < next_conn_id_ s;
  d_next : 1 <= next_conn_id_ s;
  d_tasks w t : t ∈ queue s w -> task_ok w t s;
  d_pool : pool_ok s;
}.

Lemma life_orphaned id w st cb wa h p r : life id true w st cb wa h p false r -> life id false w st cb wa h p false r.
Proof. inversion 1; subst; [by apply life_dying|by apply life_dead]. Qed.

(** The destruction is queued. *)
Lemma life_doomed id w st cb wa h p r :
  life id true w st cb wa h p true r -> life id false w st cb wa h (p ++ [TDestroyed id]) false r.
Proof.
  inversion 1 as [| |st' Hst| | |]; subst; try done.
  - by apply (life_made id false).
  - by apply (life_initialized id false).
  - by apply (life_up id false).
  - by apply life_dying.
Qed.

(** The destruction runs at once, in the loop of the server. *)
Lemma life_destroyed id st cb wa h p r :
  life id true owner_loop st cb wa h p true r -> st <> kDisconnecting ->
  p = [] /\ cb = true /\
  ((st = kConnected /\ h = [Initialized; Established]) \/ (st = kDisconnected /\ wa = false /\ h = [Initialized; Established; Closed])).
Proof. inversion 1 as [| |st' Hst| | |]; subst; intros Hne; try done; [destruct Hst as [->|?]; [|done]|]; tauto. Qed.

(** A connection whose destruction would fail at once. *)
Definition unclosed (id : Z) (s : TcpServer) : Prop :=
  exists c, conns s !! id = Some c /\ conn_loop c = owner_loop /\ state_ c = kDisconnecting.

Lemma life_watching id al w cb wa h p tb r : life id al w kDisconnecting cb wa h p tb r -> wa = true.
Proof. by inversion 1. Qed.

Lemma destroy_unclosed id s :
  conn_ok true true id s -> unclosed id s ->
  exists c, conns s !! id = Some c /\
    run_in_own_loop owner_loop (conn_loop c) (TDestroyed id) (fun w => connect_destroyed w id) s = Fault interrupted.
Proof.
  intros [(c & Hc & _ & _ & _ & Hlife)] (c' & Hc' & Hl & Hst). rewrite Hc in Hc'. injection Hc' as <-. exists c. split; [done|].
  rewrite Hst in Hlife. apply life_watching in Hlife. unfold run_in_own_loop, connect_destroyed, deref.
  by rewrite Hl, Nat.eqb_refl, Hc, bind_ret, Hl, in_own_loop, bind_ret, Hst, Hlife.
Qed.

Lemma destroy_one id ids s :
  NoDup (id :: ids) -> destroying (id :: ids) s -> ~ unclosed id s ->
  exists c s', conns s !! id = Some c /\
    run_in_own_loop owner_loop (conn_loop c) (TDestroyed id) (fun w => connect_destroyed w id) s = Ok s' /\ destroying ids s' /\
    forall i, i ∈ ids -> unclosed i s' <-> unclosed i s.
Proof.
  intros [Hnotin Hnd]%NoDup_cons [D1 D2 D3 D4 D5 D6] Hun. destruct (D1 id ltac:(left)) as [(c & Hc & N1 & N2 & N3 & Hlife)].
  exists c.
  enough (exists s', run_in_own_loop owner_loop (conn_loop c) (TDestroyed id) (fun w => connect_destroyed w id) s = Ok s' /\
     others_same id s s' /\ conn_ok false false id s' /\ (forall w t, t ∈ queue s' w -> task_ok w t s') /\ pool_ok s' /\
     next_conn_id_ s' = next_conn_id_ s) as (s' & E & O & Hok & Ht & Hp & Hn).
  { pose proof (o_conns _ _ _ O) as Hcs. exists s'. split_and!; try done;
      [|intros i Hi; unfold unclosed; rewrite Hcs; [done|by intros ->]]. destruct (k_conn _ _ _ _ Hok) as (c' & Hc' & _).
    split; try done; rewrite ?Hn; try done.
    - intros i Hi. assert (i <> id) by (intros ->; done). specialize (D1 i ltac:(by right)).
      by apply (conn_frame _ _ id i s).
    - intros i Hi Hs. destruct (decide (i = id)) as [->|Hne]; [done|]. apply (conn_frame _ _ id i s); try done. apply D2.
      + apply not_elem_of_cons. done.
      + by rewrite <- Hcs.
    - intros i Hs. apply D3. destruct (decide (i = id)) as [->|Hne]; [by rewrite Hc|by rewrite <- Hcs]. }
  unfold run_in_own_loop. destruct (Nat.eqb_spec owner_loop (conn_loop c)) as [Ew|Ew].
  - assert (state_ c <> kDisconnecting) as Hst by (intros E; apply Hun; by exists c).
    rewrite <- Ew in *. destruct (life_destroyed _ _ _ _ _ _ _ Hlife Hst) as (Hp & Hcb & Hor).
    unfold connect_destroyed, deref. rewrite Hc, bind_ret, <- Ew, in_own_loop, bind_ret. cbv zeta.
    destruct Hor as [(Es & Hhi)|(Es & Hwa & Hhi)]; rewrite Es; cbn [watching]; rewrite ?Hwa; cbn [negb check]; rewrite bind_ret;
      (eexists; split; [done|]; split; [apply others_set_conn|]; split_and!; try done;
       [split; eexists; split; [apply lookup_insert_eq|]; cbn [conn_name conn_loop history state_ callbacks_set watching queue set_conn];
        rewrite <- ?Ew; split_and!; try done;
        [by apply Forall_app; split; [|constructor]|rewrite fmap_app, Hhi, Hp, Hcb, ?Es, ?Hwa; apply life_dead; [tauto|done]]
       |intros w t Ht; apply (task_ok_mono _ _ s); [by apply (keeps_loop id c)|by apply D5]|by apply (pool_ok_keep s)]).
  - eexists. split; [done|]. split; [by apply others_push|]. split_and!; try done; [| |by apply (pool_ok_keep s)].
    + split. exists c. split_and!; try done. unfold queue_in_own_loop. rewrite !queue_set, decide_True, decide_False, pending_app, pending_cons by done.
      cbn [id_of]. rewrite decide_True by done. by apply life_doomed.
    + intros w t Ht. unfold queue_in_own_loop in Ht. rewrite queue_set in Ht. apply (task_ok_mono _ _ s); [by eauto|].
      destruct (decide (w = conn_loop c)) as [->|]; [|by apply D5].
      apply elem_of_app in Ht as [Ht|Ht%list_elem_of_singleton]; [by apply D5|]. subst t. by exists c.
Qed.

#[export] Instance unclosed_dec id s : Decision (unclosed id s).
Proof.
  unfold unclosed. destruct (conns s !! id) as [c|]; [|by right; intros (? & ? & _)].
  destruct (decide (conn_loop c = owner_loop /\ state_ c = kDisconnecting)) as [?|Hn]; [left; by exists c|].
  right. intros (c' & [= <-] & ?). done.
Defined.

Lemma destroy_all_ok l s :
  NoDup l.*2 -> destroying l.*2 s ->
  (exists id, id ∈ l.*2 /\ unclosed id s) /\ destroy_all l s = Fault interrupted \/
  (forall id, id ∈ l.*2 -> ~ unclosed id s) /\ exists s', destroy_all l s = Ok s' /\ destroying [] s'.
Proof.
  revert s. induction l as [|[n id] l IH]; intros s Hnd D; cbn [destroy_all].
  { right. split; [by intros id ?%not_elem_of_nil | by exists s]. }
  cbn in Hnd, D. destruct (decide (unclosed id s)) as [Hu|Hu].
  { left. split; [exists id; split; [left | done]|]. destruct (destroy_unclosed id s (d_todo _ _ D id ltac:(left)) Hu) as (c & Hc & E).
    unfold deref. rewrite Hc, bind_ret. cbn in E. by rewrite E. }
  destruct (destroy_one id l.*2 s Hnd D Hu) as (c & s1 & Hc & E & D1 & Hsame). unfold deref. rewrite Hc, bind_ret. cbn in E. rewrite E, bind_ret.
  apply NoDup_cons in Hnd as [_ Hnd]. destruct (IH s1 Hnd D1) as [[(i & Hi & Ui) E1]|[Hno E1]].
  - left. split; [|done]. exists i. split; [by right | by apply Hsame].
  - right. split; [|done]. cbn. intros i [->|Hi]%elem_of_cons; [done|]. rewrite <- Hsame by done. by apply Hno.
Qed.

Lemma table_ids s : inv s -> NoDup (map_to_list (connections_ s)).*2 /\ forall id, id ∈ (map_to_list (connections_ s)).*2 <-> tabled id s = true.
Proof.
  intros I.
  assert (Hin : forall id, id ∈ (map_to_list (connections_ s)).*2 <-> tabled id s = true).
  { intros id. rewrite list_elem_of_fmap. unfold tabled. rewrite bool_decide_eq_true. split.
    - intros ([n i] & -> & H%elem_of_map_to_list). cbn. by destruct (v_table _ I n i H) as [<- _].
    - intros H. exists (connection_name s id, id). split; [done|]. by apply elem_of_map_to_list. }
  split; [|done]. apply NoDup_fmap_2_strong; [|apply NoDup_map_to_list].
  intros [n i] [n' i'] H%elem_of_map_to_list H'%elem_of_map_to_list E. cbn in E. subst i'.
  destruct (v_table _ I _ _ H) as [-> _]. by destruct (v_table _ I _ _ H') as [-> _].
Qed.

Lemma destroy_ok s :
  inv s -> alive s = true ->
  (exists id, tabled id s = true /\ unclosed id s) /\ exec DestroyServer s = Fault interrupted \/
  (forall id, tabled id s = true -> ~ unclosed id s) /\ exists s', exec DestroyServer s = Ok s' /\ inv s'.
Proof.
  intros I Ha. cbn [exec]. unfold destroy_server. destruct (table_ids s I) as [Hnd Hin].
  destruct (destroy_all_ok (map_to_list (connections_ s)) s Hnd) as [[(id & Hi & Hu) ->]|[Hno (s1 & -> & D)]].
  { split; [| |apply (v_ids _ I)|apply (v_next _ I)|apply (v_tasks _ I)|apply (v_pool _ I)].
    - intros id Htb%Hin. pose proof Htb as [_ Hs]%bool_decide_eq_true%(v_table _ I).
      pose proof (v_conns _ I id Hs) as K. by rewrite Ha, Htb in K.
    - intros id Hni Hs. pose proof (v_conns _ I id Hs) as [(c & H1 & H2 & H3 & H4 & H5)]. split. exists c. split_and!; try done.
      rewrite Ha in H5. destruct (tabled id s) eqn:E; [by destruct Hni; apply Hin|by apply life_orphaned]. }
  { left. split; [|done]. exists id. by rewrite <- Hin. }
  right. split; [intros id Htb; by apply Hno, Hin|].
  rewrite bind_ret. eexists. split; [done|]. destruct D as [_ D2 D3 D4 D5 D6]. split; try done.
  - intros id Hs. destruct (D2 id ltac:(apply not_elem_of_nil) Hs) as [(c & H1 & H2 & H3 & H4 & H5)].
    split. exists c. split_and!; done.
  - by apply (pool_ok_keep s1).
Qed.

(** The operations that end the process, and how. *)
Definition fatal (a : action) (s : TcpServer) : option fault :=
  match a with
  | Accept Accepted => if kInt32Max <=? next_conn_id_ s then Some (Undefined "next_conn_id_++") else None
  | Accept (Failed e second _) =>
      if decide (e ∉ [EPERM; EINTR; EAGAIN; EMFILE; EPROTO; ECONNABORTED]) then Some (CheckFailed "LOG(FATAL): accept4")
      else if negb (e =? EMFILE) then None
      else if negb (idle_fd_ s) then Some (CheckFailed "DPCHECK: close(idle_fd_)")
      else if negb second then Some (CheckFailed "DPCHECK: close(accept)")
      else None
  | RunTask w =>
      match queue s w with
      | TDestroyed id :: _ => if decide (state_of id s = Some kDisconnecting) then Some interrupted else None
      | _ => None
      end
  | DestroyServer =>
      if decide (Exists (fun id => unclosed id s) (map_to_list (connections_ s)).*2) then Some interrupted else None
  | _ => None
  end.

Definition fine (a : action) (s : TcpServer) : Prop :=
  match fatal a s with
  | Some f => exec a s = Fault f
  | None => exists s', exec a s = Ok s' /\ inv s'
  end.

Lemma accept_fine a s : inv s -> enabled (Accept a) s = true -> fine (Accept a) s.
Proof.
  intros I [Hl Ha]%andb_prop. unfold fine, fatal. cbn [exec]. unfold handle_read. destruct a as [|e second reopened].
  { destruct (accepted_ok s I Hl Ha) as [(s' & E & I')|[E Hm]]; cbn [accept]; rewrite bind_ret, E.
    - destruct (Z.leb_spec kInt32Max (next_conn_id_ s)) as [Hm|Hm]; [|by exists s']. exfalso.
      unfold new_connection in E. ok_inv. destruct x as [w p]. unfold defined in E. rewrite (proj2 (Z.ltb_ge _ _) Hm) in E. discriminate E.
    - by rewrite (proj2 (Z.leb_le _ _) Hm). }
  unfold accept. destruct (decide _) as [He|He].
  { by rewrite bool_decide_false. }
  rewrite bool_decide_true by (by destruct (decide (e ∈ [EPERM; EINTR; EAGAIN; EMFILE; EPROTO; ECONNABORTED]))).
  cbn [check]. rewrite !bind_ret. destruct (Z.eqb_spec e EMFILE) as [->|Hne]; cbn [negb]; [|by exists s].
  destruct (idle_fd_ s); cbn [negb]; [|done]. destruct second; cbn [negb]; [|done]. cbn [check]. rewrite !bind_ret.
  eexists. split; [done|]. destruct I as [V1 V2 V3 V4 V5 V6]. split; try done.
  - intros id Hs. destruct (V1 id Hs) as [K]. by split.
  - by apply (pool_ok_keep s).
Qed.

Lemma server_exec_fine a s : inv s -> enabled a s = true -> fine a s.
Proof.
  intros I He. destruct a as [n| |a|id|id|w|]; [| |by apply accept_fine|..]; unfold fine; cbn [fatal].
  - apply andb_prop in He as [[Hl%negb_true_iff Hn%Z.leb_le]%andb_prop _]. by apply set_threads_ok.
  - by apply listen_ok.
  - by apply server_close_ok.
  - by apply shutdown_ok.
  - apply bool_decide_eq_true in He. destruct (queue s w) as [|[id|id|id|id] q] eqn:Hq; [done|..].
    + by apply (run_initialize_ok w id q).
    + by apply (run_established_ok w id q).
    + by apply (run_remove_ok w id q).
    + pose proof (run_destroyed_ok w id q s I Hq). by destruct (decide _).
  - destruct (table_ids s I) as [_ Hin]. destruct (destroy_ok s I He) as [[(id & Htb & Hu) E]|[Hno E]]; destruct (decide _) as [Hx|Hx]; try done.
    + destruct Hx. apply Exists_exists. exists id. by rewrite Hin.
    + apply Exists_exists in Hx as (id & Hi%Hin & Hu). by destruct (Hno id Hi).
Qed.

Lemma server_reachable_inv s : reachable s -> inv s.
Proof.
  induction 1 as [|s a s' _ IH He Hs]; [apply server_make_inv|].
  pose proof (server_exec_fine a s IH He) as Hf. unfold fine in Hf. destruct (fatal a s); [congruence|]. destruct Hf as (s1 & E & I). congruence.
Qed.

Lemma elem_pending id t q : is_about id t -> t ∈ pending id q <-> t ∈ q.
Proof. intros H. unfold pending. rewrite list_elem_of_filter. tauto. Qed.

(** What the life of a connection says about the table and the queues. *)
Lemma life_facts id al w st cb wa h p tb r :
  life id al w st cb wa h p tb r ->
  (h `prefix_of` [Initialized; Established; Closed; Destroyed] \/ h `prefix_of` [Initialized; Established; Destroyed]) /\
  (if tb then (Destroyed ∉ h) /\ (TDestroyed id ∉ p) /\ (Closed ∈ h -> TRemove id ∈ r)
   else Destroyed ∈ h \/ TDestroyed id ∈ p) /\
  (st = kConnected -> cb = true).
Proof.
  assert (Q : forall n, take n [Initialized; Established; Closed; Destroyed] `prefix_of` [Initialized; Established; Closed; Destroyed]) by (intros; apply prefix_take).
  intros H. inversion H as [| |st' Hst| |r' Hr|h' r' Hh Hr]; subst; clear H; (split; [|split; [|done]]).
  - left. apply (Q 0%nat).
  - destruct tb; [split_and!; [apply not_elem_of_nil|by repeat (apply not_elem_of_cons; split; [done|]); apply not_elem_of_nil|by intros H%not_elem_of_nil]|].
    right. right. right. left.
  - left. apply (Q 1%nat).
  - destruct tb; [|right; right; left]. split_and!; [| |intros H]; try (repeat (apply not_elem_of_cons; split; [done|]); apply not_elem_of_nil).
    apply list_elem_of_singleton in H. done.
  - left. apply (Q 2%nat).
  - destruct tb; [|right; left]. split_and!; [| |intros H]; try (repeat (apply not_elem_of_cons; split; [done|]); apply not_elem_of_nil).
    repeat (apply elem_of_cons in H as [H|H]; [done|]). by apply not_elem_of_nil in H.
  - left. apply (Q 3%nat).
  - split_and!; [| |intros _; left]; try (repeat (apply not_elem_of_cons; split; [done|]); apply not_elem_of_nil).
  - left. apply (Q 3%nat).
  - right. left.
  - destruct Hh as [->| ->]; [by right|by left].
  - left. destruct Hh as [->| ->]; [right; right; left|right; right; right; left].
Qed.

(** *** Runs, for the examples *)

Fixpoint run_actions (as_ : list action) (s : TcpServer) : outcome TcpServer :=
  match as_ with
  | [] => Ok s
  | a :: as_ => s ← exec a s; run_actions as_ s
  end.

Fixpoint all_enabled (as_ : list action) (s : TcpServer) : bool :=
  match as_ with
  | [] => true
  | a :: as_ => enabled a s && match exec a s with Ok s => all_enabled as_ s | _ => false end
  end.

Lemma server_reachable_run as_ s s' : reachable s -> all_enabled as_ s = true -> run_actions as_ s = Ok s' -> reachable s'.
Proof.
  revert s. induction as_ as [|a as_ IH]; intros s Hr; cbn; [by intros _ [= <-]|].
  intros [He Hall]%andb_prop. destruct (exec a s) as [s1|] eqn:E; [|done]. intros Hs.
  apply (IH s1); try done. by apply (reachable_step s a).
Qed.

Definition demo_server : TcpServer := make_tcp_server "srv" "127.0.0.1:80".

(** A server that is destroyed while a connection is being shut down aborts. *)
Example destroy_while_closing :
  run_actions [Listen; Accept Accepted; Shutdown 1; DestroyServer] demo_server = Fault (CheckFailed "Channel::remove: is_none_event").
Proof. vm_compute. reflexivity. Qed.

(** ENFILE: the process ends because other processes have too many files open. *)
Example accept_enfile : run_actions [Listen; Accept (Failed 23 true true)] demo_server = Fault (CheckFailed "LOG(FATAL): accept4").
Proof. vm_compute. reflexivity. Qed.

(** The spare descriptor that could not be opened again ends the process the next time. *)
Example spare_lost :
  run_actions [Listen; Accept (Failed EMFILE true false); Accept (Failed EMFILE true true)] demo_server
  = Fault (CheckFailed "DPCHECK: close(idle_fd_)").
Proof. vm_compute. reflexivity. Qed.

(** ** Properties *)


(** Two threads, two connections: one is established, the other has just closed. *)
Definition busy_run : list action :=
  [SetThreads 2; Listen; Accept Accepted; Accept Accepted; RunTask 1; RunTask 2; RunTask 1; RunTask 2; CloseEvent 2].
Definition busy_server : TcpServer :=
  match run_actions busy_run demo_server with Ok s => s | _ => demo_server end.

Lemma busy_reachable : reachable busy_server.
Proof. apply (server_reachable_run busy_run demo_server); [constructor|by vm_compute..]. Qed.


(** C10. The life of a connection.  Whatever the loops do, a connection belongs to the loop the pool
    gives out in turn for its number; it is initialized, established, closed if it closes before
    the server goes, and destroyed, at most once each, in this order and only in its loop.  While it is in
    the table nobody destroys it, and if it has closed its removal waits in the loop of the server.  When it has
    left the table it has been destroyed or its destruction waits in its loop: no connection is lost. *)
Theorem connection_life s id c :
  reachable s -> conns s !! id = Some c ->
  ((history c).*2 `prefix_of` [Initialized; Established; Closed; Destroyed] \/
   (history c).*2 `prefix_of` [Initialized; Established; Destroyed]) /\
  Forall (fun e => e.1 = conn_loop c) (history c) /\
  conn_loop c = assigned (loops_ (workers_ s)) id /\
  (if decide (connections_ s !! connection_name s id = Some id)
   then (Destroyed ∉ (history c).*2) /\ (TDestroyed id ∉ queue s (conn_loop c)) /\
        (Closed ∈ (history c).*2 -> TRemove id ∈ queue s owner_loop)
   else Destroyed ∈ (history c).*2 \/ TDestroyed id ∈ queue s (conn_loop c)).
Proof.
  intros Hr Hc. pose proof (server_reachable_inv s Hr) as I.
  destruct (v_conns _ I id ltac:(by rewrite Hc)) as [(c0 & Hc0 & _ & N2 & N3 & Hlife)]. rewrite Hc in Hc0. injection Hc0 as <-.
  apply life_facts in Hlife as (F1 & F2 & _). split_and!; try done.
  pose proof (elem_pending id (TDestroyed id) (queue s (conn_loop c)) ltac:(by right; right)) as Hp. unfold tabled in F2.
  destruct (decide (connections_ s !! connection_name s id = Some id)) as [E|E];
    [rewrite bool_decide_true in F2 by exact E|rewrite bool_decide_false in F2 by exact E; destruct F2 as [?|?]; [by left|right; by apply Hp]].
  destruct F2 as (? & ? & F). rewrite <- Hp. split_and!; try done. intros Hcl. specialize (F Hcl). by apply list_elem_of_filter in F as [_ ?].
Qed.

Lemma connection_life_witness :
  exists c, conns busy_server !! 2 = Some c /\ conn_loop c = 2%nat /\ conn_loop c = assigned (loops_ (workers_ busy_server)) 2.
Proof.
  eexists. split; [vm_compute; reflexivity|]. split; [reflexivity|].
  refine (proj1 (proj2 (proj2 (connection_life busy_server 2 _ busy_reachable _)))). vm_compute. reflexivity.
Defined.
