(* ===== verification/Protorpc.v ===== *)
(** * ProtorpcChannel and ProtorpcServer (include/protorpc/)

    Remote calls over a connection.  A channel is both ends: it numbers the calls of its users, keeps them until
    the response with the number arrives, and serves the requests of the peer with the registered
    services.  The protobuf library and the services are a parameter, the class [Services].  A message
    handed to [codec_.send] arrives at the peer once and in order, which is what [ProtobufCodec]
    shows of the codec, so a direction of the connection is a queue of messages.

    The system of a client and a server is a step relation: any number of threads are inside [CallMethod], between its
    steps, the services complete their calls in any order, and both ends receive.  The file shows that no check fails, that every call
    is completed at most once, with the response to its own request, and that every call is completed when
    nothing is under way any more. *)

From S2P Require Import Prelude.

(** ** Definitions *)

Inductive MESG_TYPE : Type := REQUEST | RESPONSE | ERROR.

Inductive ERROR_CODE : Type :=
| NO_ERROR | WRONG_PROTO | NO_SERVICE | NO_METHOD | INVALID_REQUEST | INVALID_RESPONSE | TIMEOUT.

(** ProtorpcMessage.proto. *)
Record ProtorpcMessage : Type := mkMessage {
  type : MESG_TYPE;
  id : Z;
  service : bytes;
  method : bytes;
  request : bytes;
  response : bytes;
  error : ERROR_CODE;
}.

(** A new message has the default values. *)
Definition default_message : ProtorpcMessage := mkMessage REQUEST 0 [] [] [] [] NO_ERROR.

(** The library and the services: [ParseRequest] is [ParseFromString] on a new request of the method. *)
Class Services : Type := {
  Service : Type;
  Method : Type;
  Req : Type;
  full_name : Service -> bytes;
  FindMethodByName : Service -> bytes -> option Method;
  ParseRequest : Service -> Method -> bytes -> option Req;
}.

(** [resp] and [done] are pointers; [done] may be null. *)
Record OutstandingCall : Type := mkOutstanding { resp : Z; done_ : option Z }.

Section Protorpc.
Context {svc : Services}.

Record ProtorpcChannel : Type := mkChannel {
  conn_ : option Z;
  id_ : Z;
  outstandings_ : gmap Z OutstandingCall;
  services_ : gmap bytes Service;
}.

Definition set_conn c ch := mkChannel c (id_ ch) (outstandings_ ch) (services_ ch).
Definition set_id i ch := mkChannel (conn_ ch) i (outstandings_ ch) (services_ ch).
Definition set_outstandings o ch := mkChannel (conn_ ch) (id_ ch) o (services_ ch).
Definition set_services s ch := mkChannel (conn_ ch) (id_ ch) (outstandings_ ch) s.

Definition make_channel : ProtorpcChannel := mkChannel None 0 ∅ ∅.

(** What an operation asks of the codec, the library and the services, in order. *)
Inductive effect : Type :=
| Send (conn : Z) (mesg : ProtorpcMessage)
| ParseResponse (resp : Z) (data : bytes)
| RunDone (done : Z)
| DeleteResponse (resp : Z)
| CallService (impl : Service) (m : Method) (req : Req) (id : Z).

(** [add]; the argument may be null. *)
Definition add (service : option Service) (ch : ProtorpcChannel) : outcome ProtorpcChannel :=
  match service with
  | Some s => Ok (set_services (<[full_name s := s]> (services_ ch)) ch)
  | None => Fault (CheckFailed "add: service")
  end.

Definition detach_connection (ch : ProtorpcChannel) : outcome ProtorpcChannel :=
  check (bool_decide (conn_ ch <> None)) "detach_connection: conn_";;
  Ok (set_conn None ch).

Definition attach_connection (conn : option Z) (ch : ProtorpcChannel) : outcome ProtorpcChannel :=
  check (bool_decide (conn <> None)) "attach_connection: conn";;
  Ok (set_conn conn ch).

(** [codec_.send(conn_, mesg)]: sending on a null connection is undefined. *)
Definition codec_send (mesg : ProtorpcMessage) (ch : ProtorpcChannel) : outcome (list effect) :=
  match conn_ ch with
  | Some conn => Ok [Send conn mesg]
  | None => Fault (Undefined "codec_.send: conn_")
  end.

(** The arguments of [CallMethod]: the names of the service and the method, the serialized request, the response and the closure. *)
Record call : Type := mkCall { c_service : bytes; c_method : bytes; c_request : bytes; c_resp : Z; c_done : option Z }.

Definition request_message (i : Z) (c : call) : ProtorpcMessage :=
  mkMessage REQUEST i (c_service c) (c_method c) (c_request c) [] NO_ERROR.

Definition outstanding (c : call) : OutstandingCall := mkOutstanding (c_resp c) (c_done c).

(** [CallMethod], up to the increment of the atomic [id_]; then the locked section; then the send. *)
Definition call_number (ch : ProtorpcChannel) : outcome (Z * ProtorpcChannel) :=
  check (bool_decide (conn_ ch <> None)) "CallMethod: conn_";;
  let i := i64 (id_ ch + 1) in
  Ok (i, set_id i ch).

Definition call_save (i : Z) (c : call) (ch : ProtorpcChannel) : ProtorpcChannel :=
  set_outstandings (<[i := outstanding c]> (outstandings_ ch)) ch.

Definition CallMethod (c : call) (ch : ProtorpcChannel) : outcome (ProtorpcChannel * list effect) :=
  '(i, ch) ← call_number ch;
  let ch := call_save i c ch in
  es ← codec_send (request_message i c) ch;
  Ok (ch, es).

(** [response(mesg)]. *)
Definition handle_response (mesg : ProtorpcMessage) (ch : ProtorpcChannel) : outcome (ProtorpcChannel * list effect) :=
  check (bool_decide (conn_ ch <> None)) "response: conn_";;
  match outstandings_ ch !! id mesg with
  | Some out =>
      Ok (set_outstandings (delete (id mesg) (outstandings_ ch)) ch,
          ParseResponse (resp out) (response mesg)
            :: match done_ out with Some d => [RunDone d] | None => [] end ++ [DeleteResponse (resp out)])
  | None => Ok (ch, [])
  end.

Definition failed (err : ERROR_CODE) (mesg : ProtorpcMessage) (ch : ProtorpcChannel) : outcome (list effect) :=
  codec_send (mkMessage RESPONSE (id mesg) [] [] [] [] err) ch.

(** [request(mesg)]. *)
Definition handle_request (mesg : ProtorpcMessage) (ch : ProtorpcChannel) : outcome (list effect) :=
  check (bool_decide (conn_ ch <> None)) "request: conn_";;
  match services_ ch !! service mesg with
  | None => failed NO_SERVICE mesg ch
  | Some impl =>
      match FindMethodByName impl (method mesg) with
      | None => failed NO_METHOD mesg ch
      | Some m =>
          match ParseRequest impl m (request mesg) with
          | None => failed INVALID_REQUEST mesg ch
          | Some req => Ok [CallService impl m req (id mesg)]
          end
      end
  end.

(** [dispatch(conn, mesg)]. *)
Definition dispatch (conn : option Z) (mesg : ProtorpcMessage) (ch : ProtorpcChannel) : outcome (ProtorpcChannel * list effect) :=
  check (bool_decide (conn = conn_ ch)) "dispatch: conn";;
  match type mesg with
  | REQUEST => es ← handle_request mesg ch; Ok (ch, es)
  | RESPONSE => handle_response mesg ch
  | ERROR => Ok (ch, [])
  end.

(** [recv(conn, buff)], for the messages that the codec dispatches from the buffer. *)
Fixpoint dispatch_all (mesgs : list ProtorpcMessage) (ch : ProtorpcChannel) : outcome (ProtorpcChannel * list effect) :=
  match mesgs with
  | [] => Ok (ch, [])
  | m :: mesgs =>
      '(ch, es) ← dispatch (conn_ ch) m ch;
      '(ch, es') ← dispatch_all mesgs ch;
      Ok (ch, es ++ es')
  end.

Definition recv (conn : option Z) (mesgs : list ProtorpcMessage) (ch : ProtorpcChannel) : outcome (ProtorpcChannel * list effect) :=
  check (bool_decide (conn = conn_ ch)) "recv: conn";;
  dispatch_all mesgs ch.

(** [finish(res, id)]; [data] is what the response serializes to. *)
Definition finish (data : bytes) (i : Z) (ch : ProtorpcChannel) : outcome (list effect) :=
  check (bool_decide (conn_ ch <> None)) "finish: conn_";;
  codec_send (mkMessage RESPONSE i [] [] [] data NO_ERROR) ch.

(** The destructor. *)
Definition destroy_channel (ch : ProtorpcChannel) : list effect :=
  (fun '(_, out) => DeleteResponse (resp out)) <$> map_to_list (outstandings_ ch).

(** *** ProtorpcServer: the callbacks of its [TcpServer] *)

Definition new_connection (in_own_loop : bool) (conn : Z) (ch : ProtorpcChannel) : outcome ProtorpcChannel :=
  check in_own_loop "new_connection: check_in_own_loop";;
  attach_connection (Some conn) ch.

Definition remove_connection (in_own_loop : bool) (conn : Z) (ch : ProtorpcChannel) : outcome ProtorpcChannel :=
  check in_own_loop "remove_connection: check_in_own_loop";;
  detach_connection ch.

(** *** A client and a server *)

Section System.
(** What the services compute for the call of each number. *)
Context (run : Z -> Service -> Method -> Req -> bytes).

(** [starting] are the threads of the client that have a number and have not saved the call, [saved] those that have and have not sent;
    [serving] are the calls the services work on; [finished] is what the client did for each response. *)
Record world : Type := mkWorld {
  client : ProtorpcChannel;
  server : ProtorpcChannel;
  calls : list call;
  starting : list (Z * call);
  saved : list (Z * call);
  c2s : list ProtorpcMessage;
  serving : list (Z * (Service * Method * Req));
  s2c : list ProtorpcMessage;
  finished : list (Z * list effect);
}.

Inductive action : Type :=
| Start (c : call)      (** a thread calls [CallMethod] and takes a number *)
| Save (k : nat)        (** the k-th of [starting] saves its call *)
| Post (k : nat)        (** the k-th of [saved] sends its request *)
| Serve                 (** the server receives the next request *)
| Complete (k : nat)    (** the k-th call that is being served completes *)
| Receive.              (** the client receives the next response *)

Definition enabled (a : action) (w : world) : Prop :=
  match a with
  | Start _ => Z.of_nat (length (calls w)) < 2 ^ 63 - 1
  | Save k => is_Some (starting w !! k)
  | Post k => is_Some (saved w !! k)
  | Serve => c2s w <> []
  | Complete k => is_Some (serving w !! k)
  | Receive => s2c w <> []
  end.

(** The messages of a list of effects, and the calls of services. *)
Fixpoint sent (es : list effect) : list ProtorpcMessage :=
  match es with [] => [] | Send _ m :: es => m :: sent es | _ :: es => sent es end.
Fixpoint called (es : list effect) : list (Z * (Service * Method * Req)) :=
  match es with [] => [] | CallService impl m r i :: es => (i, (impl, m, r)) :: called es | _ :: es => called es end.

Definition exec (a : action) (w : world) : outcome world :=
  let '(mkWorld cl sv cs st sa c2s sg s2c fin) := w in
  match a with
  | Start c =>
      '(i, cl) ← call_number cl;
      Ok (mkWorld cl sv (cs ++ [c]) (st ++ [(i, c)]) sa c2s sg s2c fin)
  | Save k =>
      match st !! k with
      | Some (i, c) => Ok (mkWorld (call_save i c cl) sv cs (delete k st) (sa ++ [(i, c)]) c2s sg s2c fin)
      | None => Ok w
      end
  | Post k =>
      match sa !! k with
      | Some (i, c) =>
          es ← codec_send (request_message i c) cl;
          Ok (mkWorld cl sv cs st (delete k sa) (c2s ++ sent es) sg s2c fin)
      | None => Ok w
      end
  | Serve =>
      match c2s with
      | m :: c2s =>
          '(sv, es) ← recv (conn_ sv) [m] sv;
          Ok (mkWorld cl sv cs st sa c2s (sg ++ called es) (s2c ++ sent es) fin)
      | [] => Ok w
      end
  | Complete k =>
      match sg !! k with
      | Some (i, (impl, m, r)) =>
          es ← finish (run i impl m r) i sv;
          Ok (mkWorld cl sv cs st sa c2s (delete k sg) (s2c ++ sent es) fin)
      | None => Ok w
      end
  | Receive =>
      match s2c with
      | m :: s2c =>
          '(cl, es) ← recv (conn_ cl) [m] cl;
          Ok (mkWorld cl sv cs st sa c2s sg s2c (fin ++ [(id m, es)]))
      | [] => Ok w
      end
  end.

(** Both ends are attached to the connection; the server has its services. *)
Definition initial (w : world) : Prop :=
  exists c s srv, w = mkWorld (mkChannel (Some c) 0 ∅ ∅) (mkChannel (Some s) 0 ∅ srv) [] [] [] [] [] [] [].

Inductive reachable : world -> Prop :=
| reach_initial w : initial w -> reachable w
| reach_step a w w' : reachable w -> enabled a w -> exec a w = Ok w' -> reachable w'.

(** What the server should answer to the call with number [i]. *)
Definition answer (srv : gmap bytes Service) (i : Z) (c : call) : ERROR_CODE * bytes :=
  match srv !! c_service c with
  | None => (NO_SERVICE, [])
  | Some impl =>
      match FindMethodByName impl (c_method c) with
      | None => (NO_METHOD, [])
      | Some m =>
          match ParseRequest impl m (c_request c) with
          | None => (INVALID_REQUEST, [])
          | Some r => (NO_ERROR, run i impl m r)
          end
      end
  end.

(** What completing a call does. *)
Definition completion (c : call) (data : bytes) : list effect :=
  ParseResponse (c_resp c) data :: match c_done c with Some d => [RunDone d] | None => [] end ++ [DeleteResponse (c_resp c)].

(** ** Lemmas *)

(** The call with number [i]. *)
Definition call_of (w : world) (i : Z) (c : call) : Prop := 1 <= i /\ calls w !! Z.to_nat (i - 1) = Some c.

(** The numbers at the client whose call is saved, and all the numbers. *)
Definition open_ids (w : world) : list Z := (saved w).*1 ++ (id <$> c2s w) ++ (serving w).*1 ++ (id <$> s2c w).
Definition all_ids (w : world) : list Z := (starting w).*1 ++ open_ids w ++ (finished w).*1.

Record inv (w : world) : Prop := {
  v_attached : conn_ (client w) <> None /\ conn_ (server w) <> None;
  v_id : id_ (client w) = Z.of_nat (length (calls w));
  v_bound : Z.of_nat (length (calls w)) < 2 ^ 63;
  v_ids : all_ids w ≡ₚ seqZ 1 (Z.of_nat (length (calls w)));
  v_starting : forall i c, (i, c) ∈ starting w -> call_of w i c;
  v_saved : forall i c, (i, c) ∈ saved w -> call_of w i c;
  v_c2s : forall m, m ∈ c2s w -> exists c, call_of w (id m) c /\ m = request_message (id m) c;
  v_serving : forall i impl me r, (i, (impl, me, r)) ∈ serving w ->
    exists c, call_of w i c /\ answer (services_ (server w)) i c = (NO_ERROR, run i impl me r);
  v_s2c : forall m, m ∈ s2c w ->
    exists c, call_of w (id m) c /\ type m = RESPONSE /\ (error m, response m) = answer (services_ (server w)) (id m) c;
  v_finished : forall i es, (i, es) ∈ finished w ->
    exists c, call_of w i c /\ es = completion c (answer (services_ (server w)) i c).2;
  v_outstandings : forall i out, outstandings_ (client w) !! i = Some out <-> i ∈ open_ids w /\ exists c, call_of w i c /\ out = outstanding c;
}.

Lemma inv_initial w : initial w -> inv w.
Proof.
  intros (c & s & srv & ->). split; cbn; try done; try (intros; by apply not_elem_of_nil in H).
  intros i out. rewrite lookup_empty. split; [done|]. intros [H _]. by apply not_elem_of_nil in H.
Qed.

(** A step does what it should and keeps the invariant. *)
Definition fine (a : action) (w : world) : Prop := exists w', exec a w = Ok w' /\ inv w' /\ calls w `prefix_of` calls w'.

Lemma call_in w i c : call_of w i c -> 1 <= i <= Z.of_nat (length (calls w)).
Proof. intros [H1 H2]. apply lookup_lt_Some in H2. lia. Qed.

Lemma start_fine c w : inv w -> enabled (Start c) w -> fine (Start c) w.
Proof.
  intros I He. destruct I as [[Hc Hs] Hid Hb Hids H1 H2 H3 H4 H5 H6 H7]. destruct w as [cl sv cs st sa q1 sg q2 fin]; cbn in *.
  unfold fine. cbn [exec]. unfold call_number. rewrite bool_decide_true by done. cbn [check mbind outcome_bind].
  rewrite i64_small by lia. set (n := Z.of_nat (length cs)) in *. eexists. split; [done|]. rewrite Hid.
  assert (Hmono : forall i c', call_of (mkWorld cl sv cs st sa q1 sg q2 fin) i c' ->
    call_of (mkWorld (set_id (n + 1) cl) sv (cs ++ [c]) (st ++ [(n + 1, c)]) sa q1 sg q2 fin) i c').
  { intros i c' [? E]. split; [done|]. cbn in *. by apply lookup_app_l_Some. }
  assert (Hopen : forall i c', i ∈ open_ids (mkWorld cl sv cs st sa q1 sg q2 fin) -> 
    call_of (mkWorld (set_id (n + 1) cl) sv (cs ++ [c]) (st ++ [(n + 1, c)]) sa q1 sg q2 fin) i c' ->
    call_of (mkWorld cl sv cs st sa q1 sg q2 fin) i c').
  { intros i c' Hin [? E]. split; [done|]. cbn in *.
    assert (i ∈ seqZ 1 n) as Hi%elem_of_seqZ by (rewrite <- Hids; apply elem_of_app; right; apply elem_of_app; by left).
    rewrite lookup_app_l in E by lia. done. }
  split; [|by eexists]. split; cbn.
  - done.
  - rewrite length_app. cbn. lia.
  - rewrite length_app. cbn. lia.
  - rewrite length_app. cbn. rewrite Nat2Z.inj_add, seqZ_app by lia. fold n. rewrite <- Hids. unfold all_ids, open_ids. cbn.
    rewrite fmap_app. cbn. replace (1 + n) with (n + 1) by lia. change (seqZ (n + 1) 1) with [n + 1]. solve_Permutation.
  - intros i c' [Hin|Hin]%elem_of_app; [by apply Hmono, H1|]. apply list_elem_of_singleton in Hin as [= -> ->]. split; [lia|]. cbn.
    replace (Z.to_nat (n + 1 - 1)) with (length cs) by lia. by apply list_lookup_middle.
  - intros. by apply Hmono, H2.
  - intros m Hm. destruct (H3 m Hm) as (c' & ? & ?). eauto.
  - intros i impl me r Hin. destruct (H4 i impl me r Hin) as (c' & ? & ?). eauto.
  - intros m Hm. destruct (H5 m Hm) as (c' & ? & ?). eauto.
  - intros i es Hin. destruct (H6 i es Hin) as (c' & ? & ?). eauto.
  - intros i out. rewrite H7.
    split; intros [Hin (c' & Hc' & ->)]; (split; [done|]); exists c'; (split; [|done]); auto.
Qed.

(** The other steps leave the calls alone. *)
Lemma same_calls w w' i c : calls w' = calls w -> call_of w i c -> call_of w' i c.
Proof. intros E [? H]. split; [done|]. by rewrite E. Qed.

Lemma delete_in {A} k (l : list A) x y : l !! k = Some x -> y ∈ delete k l -> y ∈ l.
Proof. intros H Hin. rewrite (delete_Permutation l k x H). by right. Qed.

Lemma lookup_in {A} k (l : list A) x : l !! k = Some x -> x ∈ l.
Proof. apply list_elem_of_lookup_2. Qed.

Lemma save_fine k w : inv w -> enabled (Save k) w -> fine (Save k) w.
Proof.
  intros I [[i c] Ek]. destruct I as [Hc Hid Hb Hids H1 H2 H3 H4 H5 H6 H7]. destruct w as [cl sv cs st sa q1 sg q2 fin]; cbn in *.
  unfold fine. cbn [exec]. rewrite Ek. eexists. split; [done|]. split; [|done].
  pose proof (H1 i c (lookup_in _ _ _ Ek)) as Hi. pose proof (delete_Permutation st k _ Ek) as Hp.
  assert (Hids' : all_ids (mkWorld (call_save i c cl) sv cs (delete k st) (sa ++ [(i, c)]) q1 sg q2 fin) ≡ₚ all_ids (mkWorld cl sv cs st sa q1 sg q2 fin)).
  { unfold all_ids, open_ids. cbn. rewrite Hp at 2. rewrite fmap_app. cbn. solve_Permutation. }
  split; cbn; try done.
  - by rewrite Hids'.
  - intros j c' Hin. apply (H1 j c'). by eapply delete_in.
  - intros j c' [Hin|Hin]%elem_of_app; [by apply H2|]. by apply list_elem_of_singleton in Hin as [= -> ->].
  - intros j out. destruct (decide (j = i)) as [->|Hne].
    + rewrite lookup_insert_eq. split.
      * intros [= <-]. split; [|by exists c]. unfold open_ids; cbn. apply elem_of_app. left. rewrite fmap_app. apply elem_of_app. right. by left.
      * intros [_ (c' & [_ Hc'] & ->)]. destruct Hi as [_ Hi]. cbn in *. congruence.
    + rewrite lookup_insert_ne by done. rewrite H7. unfold open_ids. cbn. rewrite fmap_app. cbn. 
      assert (j ∈ sa.*1 ++ [i] <-> j ∈ sa.*1) as Hj.
      { rewrite elem_of_app, list_elem_of_singleton. tauto. }
      rewrite !elem_of_app in *. tauto.
Qed.

(** A number that moves between the client's queues and the server stays open. *)
Lemma moved w w' :
  inv w -> calls w' = calls w -> outstandings_ (client w') = outstandings_ (client w) -> starting w' = starting w -> finished w' = finished w ->
  open_ids w' ≡ₚ open_ids w ->
  all_ids w' ≡ₚ seqZ 1 (Z.of_nat (length (calls w')))
  /\ forall i out, outstandings_ (client w') !! i = Some out <-> i ∈ open_ids w' /\ exists c, call_of w' i c /\ out = outstanding c.
Proof.
  intros I E1 E2 E3 E4 Hp. split.
  - unfold all_ids. rewrite E1, E3, E4, Hp. apply (v_ids w I).
  - intros i out. rewrite E2, (v_outstandings w I), Hp. unfold call_of. by rewrite E1.
Qed.

Lemma send_ok m ch : conn_ ch <> None -> exists es, codec_send m ch = Ok es /\ sent es = [m] /\ called es = [].
Proof. intros H. unfold codec_send. destruct (conn_ ch) as [conn|]; [|done]. by eexists. Qed.

Lemma post_fine k w : inv w -> enabled (Post k) w -> fine (Post k) w.
Proof.
  intros I [[i c] Ek]. pose proof (v_saved w I i c (lookup_in _ _ _ Ek)) as Hi. pose proof (delete_Permutation _ k _ Ek) as Hp.
  destruct (send_ok (request_message i c) (client w)) as (es & Es & Hsent & _); [apply (v_attached w I)|].
  unfold fine. destruct w as [cl sv cs st sa q1 sg q2 fin] eqn:Ew; cbn in *. rewrite Ek, Es. cbn [mbind outcome_bind]. rewrite Hsent.
  eexists. split; [done|]. split; [|done]. rewrite <- Ew in *.
  destruct (moved w (mkWorld cl sv cs st (delete k sa) (q1 ++ [request_message i c]) sg q2 fin)) as [Hids Hout]; try (by subst w).
  { subst w. unfold open_ids. cbn. rewrite Hp at 2. rewrite fmap_app. cbn. solve_Permutation. }
  destruct I as [Hc Hid Hb _ H1 H2 H3 H4 H5 H6 _]. subst w. split; cbn in *; try done.
  - intros j c' Hin. apply H2. by eapply delete_in.
  - intros m [Hm|Hm]%elem_of_app; [by apply H3|]. apply list_elem_of_singleton in Hm as ->. by exists c.
Qed.

(** What the server does with a request. *)
Lemma serve_request i c sv :
  conn_ sv <> None ->
  exists es, recv (conn_ sv) [request_message i c] sv = Ok (sv, es) /\
    ((exists impl me r, answer (services_ sv) i c = (NO_ERROR, run i impl me r) /\ sent es = [] /\ called es = [(i, (impl, me, r))])
     \/ exists m, type m = RESPONSE /\ id m = i /\ (error m, response m) = answer (services_ sv) i c /\ sent es = [m] /\ called es = []).
Proof.
  intros Hc. unfold recv. rewrite bool_decide_true by done. cbn [check mbind outcome_bind dispatch_all]. unfold dispatch.
  rewrite bool_decide_true by done. cbn [check mbind outcome_bind type request_message]. unfold handle_request.
  rewrite bool_decide_true by done. cbn [check mbind outcome_bind service method request request_message id]. unfold answer, failed.
  destruct (send_ok (mkMessage RESPONSE i [] [] [] [] NO_SERVICE) sv Hc) as (e1 & E1 & S1 & C1).
  destruct (send_ok (mkMessage RESPONSE i [] [] [] [] NO_METHOD) sv Hc) as (e2 & E2 & S2 & C2).
  destruct (send_ok (mkMessage RESPONSE i [] [] [] [] INVALID_REQUEST) sv Hc) as (e3 & E3 & S3 & C3).
  destruct (services_ sv !! c_service c) as [impl|]; [destruct (FindMethodByName impl (c_method c)) as [me|]; [destruct (ParseRequest impl me (c_request c)) as [r|]|]|];
    cbn [id request_message]; rewrite ?E1, ?E2, ?E3; cbn [mbind outcome_bind]; eexists; (split; [done|]); rewrite ?app_nil_r.
  - left. by exists impl, me, r.
  - right. by exists (mkMessage RESPONSE i [] [] [] [] INVALID_REQUEST).
  - right. by exists (mkMessage RESPONSE i [] [] [] [] NO_METHOD).
  - right. by exists (mkMessage RESPONSE i [] [] [] [] NO_SERVICE).
Qed.

Lemma serve_fine w : inv w -> enabled Serve w -> fine Serve w.
Proof.
  intros I He. unfold fine. destruct w as [cl sv cs st sa q1 sg q2 fin] eqn:Ew; cbn in *. destruct q1 as [|m q1]; [done|].
  rewrite <- Ew in *. destruct (v_c2s w I m) as (c & Hi & Hm); [subst w; by left|]. set (i := id m) in *.
  destruct (serve_request i c sv) as (es & E & Hes); [pose proof (v_attached w I) as H; subst w; apply H|]. rewrite Hm, E. cbn [mbind outcome_bind].
  eexists. split; [done|]. split; [|done].
  destruct (moved w (mkWorld cl sv cs st sa q1 (sg ++ called es) (q2 ++ sent es) fin)) as [Hids Hout]; try (by subst w).
  { subst w. unfold open_ids. cbn. rewrite !fmap_app. fold i.
    destruct Hes as [(impl & me & r & _ & -> & ->)|(m' & _ & Hid & _ & -> & ->)]; cbn; rewrite ?Hid; solve_Permutation. }
  destruct I as [Hc Hid Hb _ H1 H2 H3 H4 H5 H6 _]. subst w. split; cbn in *; try done.
  - intros m' Hin. apply H3. by right.
  - intros j impl me r [Hin|Hin]%elem_of_app; [by apply (H4 j impl me r)|].
    destruct Hes as [(impl' & me' & r' & Ha & _ & Hcl)|(m' & _ & _ & _ & _ & Hcl)]; rewrite Hcl in Hin; [|by apply not_elem_of_nil in Hin].
    apply list_elem_of_singleton in Hin as [= -> -> -> ->]. by exists c.
  - intros m' [Hin|Hin]%elem_of_app; [by apply H5|].
    destruct Hes as [(impl' & me' & r' & _ & Hs & _)|(m'' & Ht & Hid' & Ha & Hs & _)]; rewrite Hs in Hin; [by apply not_elem_of_nil in Hin|].
    apply list_elem_of_singleton in Hin as ->. exists c. by rewrite Hid'.
Qed.

Lemma complete_fine k w : inv w -> enabled (Complete k) w -> fine (Complete k) w.
Proof.
  intros I [[i [[impl me] r]] Ek]. destruct (v_serving w I i impl me r (lookup_in _ _ _ Ek)) as (c & Hi & Ha). pose proof (delete_Permutation _ k _ Ek) as Hp.
  unfold fine. destruct w as [cl sv cs st sa q1 sg q2 fin] eqn:Ew; cbn in *. rewrite Ek. rewrite <- Ew in *.
  assert (Hc : conn_ sv <> None) by (pose proof (v_attached w I) as H; subst w; apply H).
  unfold finish. rewrite bool_decide_true by done. cbn [check mbind outcome_bind].
  set (m := mkMessage RESPONSE i [] [] [] (run i impl me r) NO_ERROR).
  destruct (send_ok m sv Hc) as (es & -> & Hs & _). cbn [mbind outcome_bind]. rewrite Hs. eexists. split; [done|]. split; [|done].
  destruct (moved w (mkWorld cl sv cs st sa q1 (delete k sg) (q2 ++ [m]) fin)) as [Hids Hout]; try (by subst w).
  { subst w. unfold open_ids. cbn. rewrite Hp at 2. rewrite fmap_app. cbn. solve_Permutation. }
  destruct I as [Hat Hid Hb _ H1 H2 H3 H4 H5 H6 _]. subst w. split; cbn in *; try done.
  - intros j impl' me' r' Hin. apply (H4 j impl' me' r'). by eapply delete_in.
  - intros m' [Hin|Hin]%elem_of_app; [by apply H5|]. apply list_elem_of_singleton in Hin as ->. by exists c.
Qed.

Lemma nodup_ids w : inv w -> NoDup (all_ids w).
Proof. intros I. rewrite (v_ids w I). apply NoDup_seqZ. Qed.

(** What the client does with a response. *)
Lemma receive_response m cl c :
  conn_ cl <> None -> type m = RESPONSE -> outstandings_ cl !! id m = Some (outstanding c) ->
  recv (conn_ cl) [m] cl = Ok (set_outstandings (delete (id m) (outstandings_ cl)) cl, completion c (response m)).
Proof.
  intros Hc Ht Ho. unfold recv. rewrite bool_decide_true by done. cbn [check mbind outcome_bind dispatch_all]. unfold dispatch.
  rewrite bool_decide_true by done. cbn [check mbind outcome_bind]. rewrite Ht. unfold handle_response.
  rewrite bool_decide_true by done. cbn [check mbind outcome_bind]. rewrite Ho. cbn [mbind outcome_bind]. by rewrite app_nil_r.
Qed.

Lemma receive_fine w : inv w -> enabled Receive w -> fine Receive w.
Proof.
  intros I He. unfold fine. destruct w as [cl sv cs st sa q1 sg q2 fin] eqn:Ew; cbn in *. destruct q2 as [|m q2]; [done|].
  rewrite <- Ew in *. destruct (v_s2c w I m) as (c & Hi & Ht & Ha); [subst w; by left|].
  assert (Hin : id m ∈ open_ids w) by (subst w; unfold open_ids; cbn; rewrite !elem_of_app; right; right; right; by left).
  assert (Ho : outstandings_ cl !! id m = Some (outstanding c)) by (pose proof (proj2 (v_outstandings w I (id m) (outstanding c))) as H; subst w; apply H; eauto).
  rewrite (receive_response m cl c) by (done || (pose proof (v_attached w I) as H; subst w; apply H)). cbn [mbind outcome_bind].
  eexists. split; [done|]. split; [|done]. set (w' := mkWorld _ _ _ _ _ _ _ _ _).
  assert (Hopen : open_ids w ≡ₚ id m :: open_ids w') by (subst w w'; unfold open_ids; cbn; solve_Permutation).
  assert (Hall : all_ids w ≡ₚ all_ids w').
  { unfold all_ids. rewrite Hopen. subst w w'. cbn. rewrite fmap_app. cbn. solve_Permutation. }
  assert (Hnew : id m ∉ open_ids w').
  { pose proof (nodup_ids w I) as Hnd. unfold all_ids in Hnd. rewrite Hopen in Hnd. apply NoDup_app in Hnd as (_ & _ & Hnd). apply NoDup_app in Hnd as (Hnd & _ & _). by apply NoDup_cons in Hnd as [? _]. }
  destruct I as [Hat Hid Hb Hids H1 H2 H3 H4 H5 H6 H7]. split; try (by subst w).
  - rewrite <- Hall, Hids. by subst w.
  - intros m' Hm'. subst w. apply (H5 m'). by right.
  - intros i es. subst w. cbn. intros [Hin'|Hin']%elem_of_app; [by apply H6|]. apply list_elem_of_singleton in Hin' as [= -> ->]. exists c.
    split; [done|]. cbn in Ha. by rewrite <- Ha.
  - intros i out. cbn. assert (Hcall : forall c', call_of w' i c' <-> call_of w i c') by (subst w; done).
    assert (Eo : outstandings_ cl = outstandings_ (client w)) by (by subst w). rewrite Eo. destruct (decide (i = id m)) as [->|Hne].
    + rewrite lookup_delete_eq. split; [done|]. intros [? _]. done.
    + rewrite lookup_delete_ne by done. rewrite H7, Hopen, elem_of_cons. setoid_rewrite Hcall. tauto.
Qed.

Lemma rpc_exec_fine a w : inv w -> enabled a w -> fine a w.
Proof.
  intros I He. destruct a as [c|k|k| |k|]; [by apply start_fine|by apply save_fine|by apply post_fine|by apply serve_fine|by apply complete_fine|by apply receive_fine].
Qed.

Lemma rpc_reachable_inv w : reachable w -> inv w.
Proof.
  induction 1 as [w H|a w w' _ IH He E]; [by apply inv_initial|]. destruct (rpc_exec_fine a w IH He) as (w'' & E' & I & _). congruence.
Qed.

(** How much work is left for the calls that were started. *)
Definition work (w : world) : nat :=
  (5 * length (starting w) + 4 * length (saved w) + 3 * length (c2s w) + 2 * length (serving w) + length (s2c w))%nat.

Definition internal (a : action) : Prop := match a with Start _ => False | _ => True end.

Lemma delete_length {A} k (l : list A) x : l !! k = Some x -> length l = S (length (delete k l)).
Proof. intros H. exact (Permutation_length (delete_Permutation l k x H)). Qed.

Lemma work_decreases a w w' : inv w -> internal a -> enabled a w -> exec a w = Ok w' -> (work w' < work w)%nat /\ calls w' = calls w.
Proof.
  intros I Hi He E. destruct w as [cl sv cs st sa q1 sg q2 fin] eqn:Ew. rewrite <- Ew in I. unfold work. destruct a as [c|k|k| |k|]; cbn in Hi, He, E |- *; [done|..].
  - destruct He as [[i c] Ek]. rewrite Ek in E. injection E as <-. cbn. rewrite (delete_length k st _ Ek), length_app. cbn. split; [lia|done].
  - destruct He as [[i c] Ek]. rewrite Ek in E. destruct (codec_send _ cl) as [es|] eqn:Es; [|done]. injection E as <-. cbn.
    unfold codec_send in Es. destruct (conn_ cl); [|done]. injection Es as <-. rewrite (delete_length k sa _ Ek), length_app. cbn. split; [lia|done].
  - destruct q1 as [|m q1]; [done|]. destruct (v_c2s w I m) as (c & _ & Hm); [subst w; by left|]. rewrite Hm in E.
    destruct (serve_request (id m) c sv) as (es & Es & Hes); [pose proof (v_attached w I) as H; subst w; apply H|]. rewrite Es in E. injection E as <-. cbn.
    rewrite !length_app. destruct Hes as [(? & ? & ? & _ & -> & ->)|(? & _ & _ & _ & -> & ->)]; cbn; split; try done; lia.
  - destruct He as [[i [[impl me] r]] Ek]. rewrite Ek in E. destruct (finish _ _ sv) as [es|] eqn:Es; [|done]. injection E as <-. cbn.
    unfold finish in Es. destruct (bool_decide _); [|done]. cbn in Es. unfold codec_send in Es. destruct (conn_ sv); [|done]. injection Es as <-.
    rewrite (delete_length k sg _ Ek), length_app. cbn. split; [lia|done].
  - destruct q2 as [|m q2]; [done|]. destruct (recv _ _ cl) as [[cl' es]|]; [|done]. injection E as <-. cbn. split; [lia|done].
Qed.

(** Something can be done while a call is under way. *)
Lemma internal_enabled w : (0 < work w)%nat -> exists a, internal a /\ enabled a w.
Proof.
  unfold work. intros H. destruct (starting w) as [|x l] eqn:E1; [|exists (Save 0); split; [done|]; cbn; rewrite E1; by eexists].
  destruct (saved w) as [|x l] eqn:E2; [|exists (Post 0); split; [done|]; cbn; rewrite E2; by eexists].
  destruct (c2s w) as [|x l] eqn:E3; [|exists Serve; split; [done|]; cbn; by rewrite E3].
  destruct (serving w) as [|x l] eqn:E4; [|exists (Complete 0); split; [done|]; cbn; rewrite E4; by eexists].
  destruct (s2c w) as [|x l] eqn:E5; [cbn in H; lia|exists Receive; split; [done|]; cbn; by rewrite E5].
Qed.

(** When nothing is under way every call was completed. *)
Lemma idle_all_finished w : inv w -> work w = 0%nat -> (finished w).*1 ≡ₚ seqZ 1 (Z.of_nat (length (calls w))).
Proof.
  intros I Hw. rewrite <- (v_ids w I). unfold all_ids, open_ids, work in *.
  destruct (starting w), (saved w), (c2s w), (serving w), (s2c w); cbn in Hw; try lia. done.
Qed.
End System.

End Protorpc.

(** A run of steps other than new calls. *)
Inductive internal_run {svc : Services} (run : Z -> Service -> Method -> Req -> bytes) : nat -> world -> world -> Prop :=
| run_stop w : internal_run run 0 w w
| run_step n a w w1 w2 : internal a -> enabled a w -> exec run a w = Ok w1 -> internal_run run n w1 w2 -> internal_run run (S n) w w2.

Lemma internal_run_work {svc : Services} run n w w' :
  reachable run w -> internal_run run n w w' -> (n + work w' <= work w)%nat /\ calls w' = calls w /\ reachable run w'.
Proof.
  intros Hr H. induction H as [w|n a w w1 w2 Hi He E _ IH]; [done|].
  destruct (work_decreases run a w w1 (rpc_reachable_inv run w Hr) Hi He E) as [Hw Hc].
  destruct IH as (IH1 & IH2 & IH3); [by eapply reach_step|]. split_and!; [lia|congruence|done].
Qed.

(** ** Examples *)

(** A library with one service "s" that has one method "m", which takes any request. *)
Definition toy : Services := {|
  Service := unit; Method := unit; Req := bytes; full_name := fun _ => txt "s";
  FindMethodByName := fun _ n => if bool_decide (n = txt "m") then Some tt else None; ParseRequest := fun _ _ d => Some d;
|}.

(** The error code of a response is never looked at: a call of a service that the server does not have parses an empty response and runs its
    closure like one that succeeded. *)
Example error_unreported :
  let _ := toy in
  (ch ← attach_connection (Some 1) make_channel;
   '(ch, _) ← CallMethod (mkCall (txt "x") (txt "m") [] 100 (Some 200)) ch;
   '(_, es) ← recv (Some 1) [mkMessage RESPONSE 1 [] [] [] [] NO_SERVICE] ch;
   Ok es) = Ok [ParseResponse 100 []; RunDone 200; DeleteResponse 100].
Proof. vm_compute. reflexivity. Qed.

(** The channel of a [ProtorpcServer] holds one connection: when a second client connects, the next request of the first one fails a check and
    ends the server, and so does the end of the second connection after that of the first. *)
Example second_client_aborts :
  let _ := toy in
  (ch ← new_connection true 1 make_channel;
   ch ← new_connection true 2 ch;
   '(ch, es) ← recv (Some 1) [mkMessage REQUEST 1 (txt "s") (txt "m") [] [] NO_ERROR] ch;
   Ok es) = Fault (CheckFailed "recv: conn").
Proof. vm_compute. reflexivity. Qed.

Example second_close_aborts :
  let _ := toy in
  (ch ← new_connection true 1 make_channel;
   ch ← new_connection true 2 ch;
   ch ← remove_connection true 1 ch;
   remove_connection true 2 ch) = Fault (CheckFailed "detach_connection: conn_").
Proof. vm_compute. reflexivity. Qed.

(** A service that completes a call after the client is gone ends the server. *)
Example completed_too_late :
  let _ := toy in
  (ch ← add (Some tt) make_channel;
   ch ← new_connection true 1 ch;
   '(ch, _) ← recv (Some 1) [mkMessage REQUEST 1 (txt "s") (txt "m") [] [] NO_ERROR] ch;
   ch ← remove_connection true 1 ch;
   finish [] 1 ch) = Fault (CheckFailed "finish: conn_").
Proof. vm_compute. reflexivity. Qed.

(** The start of a system of this kind, and a service that returns its request. *)
Definition toy_world : @world toy :=
  mkWorld (mkChannel (Some 1) 0 ∅ ∅) (mkChannel (Some 2) 0 ∅ (<[txt "s" := (tt : @Service toy)]> ∅)) [] [] [] [] [] [] [].
Definition toy_run : Z -> @Service toy -> @Method toy -> @Req toy -> bytes := fun _ _ _ d => d.

Lemma toy_reachable : reachable toy_run toy_world.
Proof. apply reach_initial. exists 1, 2, (<[txt "s" := (tt : @Service toy)]> ∅). reflexivity. Defined.

(** A call from its start to its completion. *)
Lemma toy_call : exists w w' : @world toy, reachable toy_run w /\
  exec toy_run (Start (mkCall (txt "s") (txt "m") (txt "q") 100 None)) toy_world = Ok w /\
  internal_run toy_run 5 w w' /\ finished w' = [(1, [ParseResponse 100 (txt "q"); DeleteResponse 100])] /\
  enabled (Start (mkCall (txt "s") (txt "m") (txt "r") 200 None)) w'.
Proof.
  eexists _, _. split_and!.
  - eapply (reach_step _ (Start (mkCall (txt "s") (txt "m") (txt "q") 100 None)) toy_world); [apply toy_reachable|vm_compute; reflexivity|reflexivity].
  - reflexivity.
  - eapply (run_step _ 4 (Save 0)); [exact I|eexists; reflexivity|reflexivity|].
    eapply (run_step _ 3 (Post 0)); [exact I|eexists; reflexivity|reflexivity|].
    eapply (run_step _ 2 Serve); [exact I|discriminate|reflexivity|].
    eapply (run_step _ 1 (Complete 0)); [exact I|eexists; reflexivity|reflexivity|].
    eapply (run_step _ 0 Receive); [exact I|discriminate|reflexivity|]. apply run_stop.
  - vm_compute. reflexivity.
  - vm_compute. reflexivity.
Qed.

(** ** Properties *)

(** C13. Between one client and one server, over a connection that stays up and keeps the order of messages, remote calls are
    completed at most once and with their own result.  Whatever the threads of the client, the
    services and the network do, no check fails; the responses that were received have different numbers, and the response
    with the number of a call did exactly what completes that call: it parsed the answer of the server to this call's
    request, ran its closure and released its response.  (A second client, or a call that completes after its client has gone,
    does fail a check: [second_client_aborts], [completed_too_late].) *)
Theorem rpc_exactly_once {svc : Services} (run : Z -> Service -> Method -> Req -> bytes) (w : world) :
  reachable run w ->
  (forall a, enabled a w -> exists w', exec run a w = Ok w')
  /\ NoDup (finished w).*1
  /\ forall i es, (i, es) ∈ finished w ->
     exists c, call_of w i c /\ es = completion c (answer run (services_ (server w)) i c).2.
Proof.
  intros Hr. pose proof (rpc_reachable_inv run w Hr) as I. split_and!.
  - intros a He. destruct (rpc_exec_fine run a w I He) as (w' & E & _). by exists w'.
  - pose proof (nodup_ids run w I) as Hnd. unfold all_ids in Hnd. apply NoDup_app in Hnd as (_ & _ & Hnd). by apply NoDup_app in Hnd as (_ & _ & ?).
  - apply (v_finished run w I).
Qed.

Lemma rpc_exactly_once_witness :
  exists w : @world toy, reachable toy_run w /\ finished w = [(1, [ParseResponse 100 (txt "q"); DeleteResponse 100])] /\
    (exists w', exec toy_run (Start (mkCall (txt "s") (txt "m") (txt "r") 200 None)) w = Ok w') /\
    exists c, @call_of toy w 1 c /\ [ParseResponse 100 (txt "q"); DeleteResponse 100] = @completion toy c (answer toy_run (services_ (server w)) 1 c).2.
Proof.
  destruct toy_call as (w0 & w & Hr0 & _ & Hrun & Hf & He). destruct (internal_run_work _ _ _ _ Hr0 Hrun) as (_ & _ & Hr).
  exists w. split; [exact Hr|]. split; [exact Hf|].
  destruct (rpc_exactly_once toy_run w Hr) as (H1 & _ & H3). split; [exact (H1 _ He)|].
  apply H3. rewrite Hf. by left.
Defined.

(** C14. Every call is completed.  Once no more calls are made, the system takes only finitely many steps, however they are chosen;
    and as long as a call is under way there is one.  When there is none left, the client has completed every call. *)
Theorem rpc_completes {svc : Services} (run : Z -> Service -> Method -> Req -> bytes) (n : nat) (w w' : world) :
  reachable run w -> internal_run run n w w' ->
  (n <= work w)%nat
  /\ ((exists a, internal a /\ enabled a w') \/ (finished w').*1 ≡ₚ seqZ 1 (Z.of_nat (length (calls w)))).
Proof.
  intros Hr H. destruct (internal_run_work run n w w' Hr H) as (Hn & Hc & Hr'). split; [lia|].
  destruct (decide (work w' = 0)%nat) as [E|E]; [right; rewrite <- Hc|left; apply internal_enabled; lia].
  apply (idle_all_finished run); [by apply rpc_reachable_inv|done].
Qed.

Lemma rpc_completes_witness :
  exists w w' : @world toy, exec toy_run (Start (mkCall (txt "s") (txt "m") (txt "q") 100 None)) toy_world = Ok w /\
    finished w' = [(1, [ParseResponse 100 (txt "q"); DeleteResponse 100])] /\ (5 <= work w)%nat.
Proof.
  destruct toy_call as (w & w' & Hr & E & Hrun & Hf & _). exists w, w'. split; [exact E|]. split; [exact Hf|].
  exact (proj1 (rpc_completes toy_run 5 w w' Hr Hrun)).
Defined.
