(* ===== verification/FilePath.v ===== *)
(** * FilePath (include/files/FilePath.h, src/FilePath.cc)

    Paths as byte strings: directory and base name, components, joining and extensions, for
    POSIX, where "/" is the only separator and there are no drive letters.  A path is
    the string [path_].  The searches of [std::string] that the class uses agree with those of
    [StringPiece], which are used here.

    The file shows that a path never contains a NUL byte, that taking directories ends and
    yields the components of the path, and that joining, relative paths and extensions respect
    them. *)

From S2P Require Import Prelude StringPiece StringUtil.

(** ** Definitions *)

Definition kSeparators : bytes := txt "/".
Definition kCurrentDirectory : bytes := txt ".".
Definition kParentDirectory : bytes := txt "..".
Definition kExtensionSeparator : byte := Byte.x2e.
Definition kCommonDoubleExtensionSuffixes : list bytes := [txt "gz"; txt "z"; txt "bz2"; txt "bz"].
Definition kCommonDoubleExtensions : list bytes := [txt "user.js"].

Definition is_separator (c : byte) : bool := existsb (fun d => bool_decide (c = d)) kSeparators.

Definition find_drive_letter (path : StringPiece) : Z := npos.

(** [path_[i]]; the position after the last character holds the terminator. *)
Definition char_of (path : bytes) (i : Z) : byte := nth (Z.to_nat i) path Byte.x00.

Definition is_path_absolute (path : StringPiece) : bool := (0 <? zlen path) && is_separator (char_of path 0).

Definition are_all_separators (input : bytes) : bool := forallb is_separator input.

Definition final_extension_separator_position (path : bytes) : Z :=
  if bool_decide (path = kCurrentDirectory \/ path = kParentDirectory) then npos
  else rfind_char path kExtensionSeparator npos.

Definition extension_separator_position (path : bytes) : Z :=
  let last_dot := final_extension_separator_position path in
  if (last_dot =? npos) || (last_dot =? 0) then last_dot
  else
    let penultimate_dot := rfind_char path kExtensionSeparator (last_dot - 1) in
    let last_separator := find_last_of path kSeparators (last_dot - 1) in
    if (penultimate_dot =? npos) || (negb (last_separator =? npos) && (penultimate_dot <? last_separator)) then last_dot
    else if existsb (lower_case_equals (substr path (penultimate_dot + 1) npos)) kCommonDoubleExtensions then penultimate_dot
    else
      let ext := substr path (last_dot + 1) npos in
      if existsb (lower_case_equals ext) kCommonDoubleExtensionSuffixes &&
         (last_dot - penultimate_dot <=? 5) && (1 <? last_dot - penultimate_dot)
      then penultimate_dot else last_dot.

Definition is_empty_or_special_case (path : bytes) : bool :=
  bool_decide (path = [] \/ path = kCurrentDirectory \/ path = kParentDirectory).

(** The constructor cuts the path at the first NUL. *)
Definition make_file_path (path : StringPiece) : bytes :=
  let path_ := copy_to_string path [] in
  let nul_pos := find_char path_ Byte.x00 0 in
  if negb (nul_pos =? npos) then ztake nul_pos path_ else path_.

(** [pos] and [last_stripped] of the loop; [path_] has [pos] characters until one is kept. *)
Fixpoint strip_loop (pos : nat) (start last_stripped : Z) (path_ : bytes) : bytes :=
  match pos with
  | O => path_
  | S pos' =>
      let pos := Z.of_nat pos in
      if (start <? pos) && is_separator (char_of path_ (pos - 1)) then
        if negb (pos =? start + 1) || (last_stripped =? start + 2) || negb (is_separator (char_of path_ (start - 1)))
        then strip_loop pos' start pos (str_resize (pos - 1) path_)
        else strip_loop pos' start last_stripped path_
      else path_
  end.

Definition strip_trailing_separators_internal (path_ : bytes) : bytes :=
  let start := u64 (find_drive_letter path_ + 2) in
  strip_loop (length path_) start npos path_.

Definition dirname (path_ : bytes) : bytes :=
  let new_path := strip_trailing_separators_internal (make_file_path path_) in
  let letter := find_drive_letter new_path in
  let last_separator := find_last_of new_path kSeparators npos in
  let new_path :=
    if last_separator =? npos then str_resize (u64 (letter + 1)) new_path
    else if last_separator =? u64 (letter + 1) then str_resize (u64 (letter + 2)) new_path
    else if (last_separator =? u64 (letter + 2)) && is_separator (char_of new_path (u64 (letter + 1)))
    then str_resize (u64 (letter + 3)) new_path
    else if negb (last_separator =? 0) then str_resize last_separator new_path
    else new_path in
  let new_path := strip_trailing_separators_internal new_path in
  if zlen new_path =? 0 then kCurrentDirectory else new_path.

Definition basename (path_ : bytes) : bytes :=
  let new_path := strip_trailing_separators_internal (make_file_path path_) in
  let letter := find_drive_letter new_path in
  let new_path := if negb (letter =? npos) then zdrop (letter + 1) new_path else new_path in
  let last_separator := find_last_of new_path kSeparators npos in
  if negb (last_separator =? npos) && (last_separator <? zlen new_path - 1)
  then zdrop (last_separator + 1) new_path else new_path.

(** The loop of [get_components]; [ret_val] in the order of [push_back]. *)
Fixpoint components_loop (fuel : nat) (current : bytes) (ret_val : list bytes) : outcome (bytes * list bytes) :=
  match fuel with
  | O => Fault OutOfFuel
  | S fuel =>
      if bool_decide (current = dirname current) then Ok (current, ret_val)
      else
        let base := basename current in
        components_loop fuel (dirname current) (if are_all_separators base then ret_val else ret_val ++ [base])
  end.

Definition get_components (path_ : bytes) : outcome (list bytes) :=
  if zlen path_ =? 0 then Ok []
  else
    '(current, ret_val) ← components_loop (S (S (length path_))) path_ [];
    let base := basename current in
    let ret_val := if negb (zlen base =? 0) && negb (bool_decide (base = kCurrentDirectory)) then ret_val ++ [base] else ret_val in
    let dir := dirname current in
    let letter := find_drive_letter dir in
    let ret_val := if negb (letter =? npos) then ret_val ++ [substr dir 0 (letter + 1)] else ret_val in
    Ok (rev ret_val).

Definition is_absolute (path_ : bytes) : bool := is_path_absolute path_.

Definition append (component : StringPiece) (path_ : bytes) : outcome bytes :=
  let nul_pos := find_char component Byte.x00 0 in
  let appended := if negb (nul_pos =? npos) then substr component 0 nul_pos else component in
  check (negb (is_path_absolute appended)) "append: is_path_absolute";;
  if bool_decide (path_ = kCurrentDirectory) && negb (zlen appended =? 0) then Ok (make_file_path appended)
  else
    let new_path := strip_trailing_separators_internal (make_file_path path_) in
    let new_path :=
      if negb (zlen appended =? 0) && negb (zlen new_path =? 0)
         && negb (is_separator (char_of new_path (zlen new_path - 1)))
         && negb (u64 (find_drive_letter new_path + 1) =? zlen new_path)
      then new_path ++ [char_of kSeparators 0] else new_path in
    Ok (append_to_string appended new_path).

Fixpoint append_all (components : list bytes) (path : bytes) : outcome bytes :=
  match components with
  | [] => Ok path
  | c :: cs => path ← append c path; append_all cs path
  end.

(** The common prefix: what is left of the child after the parent. *)
Fixpoint components_rest (parent child : list bytes) : option (list bytes) :=
  match parent, child with
  | [], rest => Some rest
  | p :: parent, c :: child => if bool_decide (p = c) then components_rest parent child else None
  | _ :: _, [] => None
  end.

(** [path] is the path to extend, if there is one. *)
Definition append_relative_path (child : bytes) (path : option bytes) (path_ : bytes) : outcome (bool * option bytes) :=
  parent_components ← get_components path_;
  child_components ← get_components child;
  if (zlen parent_components =? 0) || (zlen child_components <=? zlen parent_components) then Ok (false, path)
  else
    match components_rest parent_components child_components with
    | None => Ok (false, path)
    | Some rest =>
        match path with
        | None => Ok (true, None)
        | Some p => p ← append_all rest p; Ok (true, Some p)
        end
    end.

Definition is_parent (child path_ : bytes) : outcome bool :=
  '(b, _) ← append_relative_path child None path_; Ok b.

(** *** Extensions *)

Definition extension (path_ : bytes) : bytes :=
  let base := basename path_ in
  let dot := extension_separator_position base in
  if dot =? npos then [] else substr base dot npos.

Definition final_extension (path_ : bytes) : bytes :=
  let base := basename path_ in
  let dot := final_extension_separator_position base in
  if dot =? npos then [] else substr base dot npos.

Definition remove_extension (path_ : bytes) : bytes :=
  if zlen (extension path_) =? 0 then path_
  else
    let dot := extension_separator_position path_ in
    if dot =? npos then path_ else make_file_path (substr path_ 0 dot).

Definition remove_final_extension (path_ : bytes) : bytes :=
  if zlen (final_extension path_) =? 0 then path_
  else
    let dot := final_extension_separator_position path_ in
    if dot =? npos then path_ else make_file_path (substr path_ 0 dot).

Definition insert_before_extension (suffix : StringPiece) (path_ : bytes) : bytes :=
  if zlen suffix =? 0 then make_file_path path_
  else if is_empty_or_special_case (basename path_) then []
  else
    let ext := extension path_ in
    let ret := remove_extension path_ in
    make_file_path (append_to_string suffix ret ++ ext).

Definition no_extension (ext : StringPiece) : bool :=
  (zlen ext =? 0) || ((zlen ext =? 1) && bool_decide (char_of ext 0 = kExtensionSeparator)).

Definition add_extension (ext : StringPiece) (path_ : bytes) : bytes :=
  if is_empty_or_special_case (basename path_) then []
  else if no_extension ext then path_
  else
    let str := path_ in
    let str :=
      if negb (bool_decide (char_of ext 0 = kExtensionSeparator))
         && negb (bool_decide (char_of str (zlen str - 1) = kExtensionSeparator))
      then str ++ [kExtensionSeparator] else str in
    make_file_path (append_to_string ext str).

Definition replace_extension (ext : StringPiece) (path_ : bytes) : bytes :=
  if is_empty_or_special_case (basename path_) then []
  else
    let no_ext := remove_extension path_ in
    if no_extension ext then no_ext
    else
      let str := no_ext in
      let str := if negb (bool_decide (char_of ext 0 = kExtensionSeparator)) then str ++ [kExtensionSeparator] else str in
      make_file_path (append_to_string ext str).

(** strcasecmp(3) in the C locale, on C strings. *)
Fixpoint strcasecmp (a b : bytes) : Z :=
  match a, b with
  | c :: a, d :: b =>
      if b2z (to_lower c) =? b2z (to_lower d) then strcasecmp a b else b2z (to_lower c) - b2z (to_lower d)
  | [], [] => 0
  | [], d :: _ => - b2z (to_lower d)
  | c :: _, [] => b2z (to_lower c)
  end.

Definition compare_ignore_case (string1 string2 : StringPiece) : Z :=
  let comparison := strcasecmp (of_cstr string1) (of_cstr string2) in
  if comparison <? 0 then -1 else if 0 <? comparison then 1 else 0.

Definition compare_equal_ignore_case (string1 string2 : StringPiece) : bool := compare_ignore_case string1 string2 =? 0.
Definition compare_less_ignore_case (string1 string2 : StringPiece) : bool := compare_ignore_case string1 string2 <? 0.

Definition matches_extension (ext : StringPiece) (path_ : bytes) : outcome bool :=
  check ((zlen ext =? 0) || bool_decide (char_of ext 0 = kExtensionSeparator)) "matches_extension";;
  let current_extension := extension path_ in
  Ok (if negb (zlen current_extension =? zlen ext) then false else compare_equal_ignore_case ext current_extension).

(** *** Separators *)

Definition ends_with_separator (path_ : bytes) : bool :=
  if zlen path_ =? 0 then false else is_separator (char_of path_ (zlen path_ - 1)).

Definition as_ending_with_separator (path_ : bytes) : bytes :=
  if ends_with_separator path_ || (zlen path_ =? 0) then path_ else make_file_path (path_ ++ [char_of kSeparators 0]).

Definition strip_trailing_separators (path_ : bytes) : bytes :=
  strip_trailing_separators_internal (make_file_path path_).

Definition normalize_path_separators_to (separator : byte) (path_ : bytes) : bytes := path_.
Definition normalize_path_separators (path_ : bytes) : bytes := normalize_path_separators_to (char_of kSeparators 0) path_.

Definition references_parent (path_ : bytes) : outcome bool :=
  if find path_ kParentDirectory 0 =? npos then Ok false
  else
    components ← get_components path_;
    Ok (existsb (fun component =>
      (find_first_not_of component (txt ". " ++ [Byte.x0a; Byte.x0d; Byte.x09]) 0 =? npos)
      && negb (find component kParentDirectory 0 =? npos)) components).

(** ** Lemmas *)

Definition sep : byte := Byte.x2f.

Lemma is_separator_iff c : is_separator c = true <-> c = sep.
Proof. unfold is_separator. cbn. rewrite orb_false_r, bool_decide_eq_true. done. Qed.

Lemma is_separator_not c : c <> sep -> is_separator c = false.
Proof. intros H. destruct (is_separator c) eqn:E; [|done]. by apply is_separator_iff in E. Qed.

#[local] Arguments is_separator : simpl never.

(** *** Searching backwards for one character *)

Lemma last_unique self P pos r r' : last_to (char_at self P) pos r -> last_to (char_at self P) pos r' -> r = r'.
Proof.
  intros [[-> H]|(H1 & H2 & H3 & H4)] [[-> H']|(H1' & H2' & H3' & H4')]; try done.
  - by destruct (H r' H1').
  - by destruct (H' r H1).
  - destruct (Z.lt_trichotomy r r') as [?|[?|?]]; [|done|]; [by destruct (H4 r')|by destruct (H4' r)].
Qed.

Lemma rfind_char_last self c pos : rfind_char self c pos = find_last_of self [c] pos.
Proof.
  unfold rfind_char, find_last_of. change (zlen [c]) with 1. cbn [Z.eqb nth Pos.eqb]. rewrite orb_false_r.
  destruct (zlen self =? 0) eqn:E; [done|]. unfold rfind_char. by rewrite E.
Qed.

Lemma last_char_none self c pos : valid self -> 0 <= pos -> c ∉ ztake (pos + 1) self -> find_last_of self [c] pos = npos.
Proof.
  intros Hv Hp Hc. apply (last_unique self (fun d => d ∈ [c]) pos); [by apply find_last_of_spec|]. left. split; [done|].
  intros i Hi (d & Hi0 & Hd & ->%list_elem_of_singleton). apply Hc. unfold ztake. apply list_elem_of_lookup_2 with (i := Z.to_nat i).
  rewrite lookup_take_Some. split; [done|lia].
Qed.

Lemma last_char_some a c b pos :
  valid (a ++ c :: b) -> zlen a <= pos -> c ∉ ztake (pos - zlen a) b -> find_last_of (a ++ c :: b) [c] pos = zlen a.
Proof.
  intros Hv Hp Hc. pose proof (zlen_nonneg a). pose proof (zlen_nonneg b). unfold valid in Hv. rewrite zlen_app, zlen_cons in Hv.
  apply (last_unique (a ++ c :: b) (fun d => d ∈ [c]) pos).
  { apply find_last_of_spec; [unfold valid; by rewrite zlen_app, zlen_cons|lia]. }
  right. split_and!; [done|unfold npos; lia| |].
  - exists c. split_and!; [done| |by apply list_elem_of_singleton]. unfold zlen. rewrite Nat2Z.id, lookup_app_r, Nat.sub_diag by lia. done.
  - intros i Hi (d & Hi0 & Hd & ->%list_elem_of_singleton). unfold zlen in *. rewrite lookup_app_r in Hd by lia.
    replace (Z.to_nat i - length a)%nat with (S (Z.to_nat i - length a - 1)) in Hd by lia. cbn in Hd.
    apply Hc. unfold ztake. apply list_elem_of_lookup_2 with (i := (Z.to_nat i - length a - 1)%nat). rewrite lookup_take_Some. split; [done|lia].
Qed.

Lemma last_sep_none p : valid p -> sep ∉ p -> find_last_of p kSeparators npos = npos.
Proof.
  intros Hv Hs. apply (last_char_none p sep npos Hv); [done|]. unfold valid in Hv. by rewrite ztake_ge by (unfold npos; lia).
Qed.

Lemma last_sep_some q f : valid (q ++ sep :: f) -> sep ∉ f -> find_last_of (q ++ sep :: f) kSeparators npos = zlen q.
Proof.
  intros Hv Hs. pose proof (zlen_nonneg f). pose proof (zlen_nonneg q). pose proof Hv as Hv'. unfold valid in Hv'. rewrite zlen_app, zlen_cons in Hv'.
  apply (last_char_some q sep f npos Hv); [unfold npos; lia|]. by rewrite ztake_ge by (unfold npos; lia).
Qed.

(** *** NUL bytes *)

Definition nul_free (p : bytes) : Prop := Byte.x00 ∉ p.

Lemma find_nul p : valid p -> nul_free p -> find_char p Byte.x00 0 = npos.
Proof.
  intros Hv Hn. rewrite find_char_up_loop, zdrop_0 by done.
  assert (forall l i, Byte.x00 ∉ l -> up_loop (fun d => bool_decide (d = Byte.x00)) l i = npos) as H; [|by apply H].
  induction l as [|c l IH]; intros i H; [done|]. apply not_elem_of_cons in H as [Hc H]. cbn. rewrite bool_decide_false by congruence. auto.
Qed.

Lemma copy_to_string_id p t : copy_to_string p t = p.
Proof. unfold copy_to_string. destruct (Z.eqb_spec (zlen p) 0) as [E|]; [|done]. by apply zlen_0_nil in E as ->. Qed.

Lemma make_file_path_id p : valid p -> nul_free p -> make_file_path p = p.
Proof. intros Hv Hn. unfold make_file_path. by rewrite copy_to_string_id, find_nul. Qed.

Lemma find_nul_some a b : valid (a ++ Byte.x00 :: b) -> nul_free a -> find_char (a ++ Byte.x00 :: b) Byte.x00 0 = zlen a.
Proof.
  intros Hv Hn. rewrite find_char_up_loop, zdrop_0 by done.
  assert (forall i, up_loop (fun d => bool_decide (d = Byte.x00)) (a ++ Byte.x00 :: b) i = i + zlen a) as H; [|by rewrite H].
  clear Hv. induction a as [|c a IH]; intros i; cbn [app up_loop].
  - rewrite bool_decide_true by done. change (zlen (@nil byte)) with 0. lia.
  - apply not_elem_of_cons in Hn as [Hc Hn]. rewrite bool_decide_false by congruence. rewrite IH by done. rewrite zlen_cons. lia.
Qed.

(** The constructor keeps what precedes the first NUL. *)
Lemma make_file_path_nul_free p : valid p -> nul_free (make_file_path p) /\ make_file_path p `prefix_of` p.
Proof.
  intros Hv. destruct (decide (Byte.x00 ∈ p)) as [Hin|Hn]; [|rewrite make_file_path_id by done; split; [done|by exists []; rewrite app_nil_r]].
  apply list_elem_of_split_l in Hin as (a & b & -> & Ha).
  unfold make_file_path. rewrite copy_to_string_id, find_nul_some by done. unfold valid in Hv. rewrite zlen_app in Hv. pose proof (zlen_nonneg (Byte.x00 :: b)).
  rewrite (proj2 (Z.eqb_neq _ _)) by (unfold npos; lia). cbn [negb]. rewrite ztake_app_exact by done. split; [done|by eexists].
Qed.

(** *** Stripping separators *)

Definition seps (n : nat) : bytes := replicate n sep.

Lemma seps_end n : seps (S n) = seps n ++ [sep].
Proof. apply replicate_S_end. Qed.

Lemma char_of_last l x : char_of (l ++ [x]) (Z.of_nat (S (length l)) - 1) = x.
Proof. unfold char_of. replace (Z.to_nat _) with (length l) by lia. by rewrite nth_middle. Qed.

Lemma str_resize_le n p : 0 <= n <= zlen p -> str_resize n p = ztake n p.
Proof. intros H. unfold str_resize. replace (Z.to_nat (n - zlen p)) with 0%nat by lia. apply app_nil_r. Qed.

Lemma str_resize_last l x : str_resize (Z.of_nat (S (length l)) - 1) (l ++ [x]) = l.
Proof.
  rewrite str_resize_le by (rewrite zlen_app; unfold zlen; cbn; lia). apply ztake_app_exact. unfold zlen. lia.
Qed.

(** One turn of the loop at a separator that goes. *)
Lemma strip_loop_sep l last :
  (0 < length l)%nat ->
  length l <> 1%nat \/ last = 3 \/ is_separator (char_of l 0) = false ->
  strip_loop (S (length l)) 1 last (l ++ [sep]) = strip_loop (length l) 1 (Z.of_nat (S (length l))) l.
Proof.
  intros Hl H. cbn [strip_loop]. rewrite char_of_last, str_resize_last. rewrite (proj2 (is_separator_iff sep)) by done.
  rewrite (proj2 (Z.ltb_lt _ _)) by lia. cbn [andb].
  assert (H0 : char_of (l ++ [sep]) (1 - 1) = char_of l 0) by (destruct l; [cbn in Hl; lia|done]).
  rewrite H0. replace (1 + 2) with 3 by done.
  replace (negb (Z.of_nat (S (length l)) =? 1 + 1) || (last =? 3) || negb (is_separator (char_of l 0))) with true; [done|]. symmetry.
  destruct (Z.eqb_spec (Z.of_nat (S (length l))) (1 + 1)) as [E|E]; [|done]. cbn [negb orb].
  destruct H as [H|[->|H]]; [lia|done|]. rewrite H. apply orb_true_r.
Qed.

Lemma strip_loop_stop l c last : c <> sep -> strip_loop (S (length l)) 1 last (l ++ [c]) = l ++ [c].
Proof. intros Hc. cbn [strip_loop]. rewrite char_of_last, is_separator_not by done. by rewrite andb_false_r. Qed.

Lemma strip_loop_body h c n last :
  c <> sep -> strip_loop (length (h ++ [c] ++ seps n)) 1 last (h ++ [c] ++ seps n) = h ++ [c].
Proof.
  intros Hc. revert last. induction n as [|n IH]; intros last.
  - cbn [seps replicate]. rewrite app_nil_r, length_app, Nat.add_1_r. by apply strip_loop_stop.
  - rewrite seps_end. rewrite !app_assoc. rewrite <- (app_assoc h). rewrite length_app, Nat.add_1_r, strip_loop_sep.
    + apply IH.
    + rewrite !length_app. cbn. lia.
    + rewrite !length_app. cbn [length]. destruct h as [|x h]; [|left; cbn; lia]. right. right. cbn. by apply is_separator_not.
Qed.

Lemma strip_loop_seps n : (3 <= n)%nat -> forall last, strip_loop n 1 last (seps n) = seps 1.
Proof.
  intros Hn. destruct n as [|[|[|m]]]; try lia. clear Hn. induction m as [|m IH]; intros last.
  - done.
  - rewrite seps_end at 1. replace (S (S (S (S m)))) with (S (length (seps (S (S (S m)))))) at 1 by (unfold seps; by rewrite length_replicate).
    rewrite strip_loop_sep; [|unfold seps; rewrite length_replicate; lia|left; unfold seps; rewrite length_replicate; lia].
    unfold seps at 1. rewrite length_replicate. apply IH.
Qed.

Lemma strip_body h c n : c <> sep -> strip_trailing_separators_internal (h ++ [c] ++ seps n) = h ++ [c].
Proof. intros Hc. by apply strip_loop_body. Qed.

Lemma strip_seps n : strip_trailing_separators_internal (seps n) = seps (match n with O => 0 | 2 => 2 | _ => 1 end)%nat.
Proof.
  destruct n as [|[|[|n]]]; [done..|]. unfold strip_trailing_separators_internal. change (u64 (find_drive_letter _ + 2)) with 1.
  unfold seps at 1. rewrite length_replicate. by apply strip_loop_seps; lia.
Qed.

(** A path as the class keeps it. *)
Definition path_ok (p : bytes) : Prop := valid p /\ nul_free p.

(** A component: not empty and without separators. *)
Definition segment (f : bytes) : Prop := f <> [] /\ sep ∉ f.

Lemma segment_last f : segment f -> exists g c, f = g ++ [c] /\ c <> sep.
Proof.
  intros [Hne Hs]. destruct (exists_last Hne) as (g & c & ->). exists g, c. split; [done|]. intros ->. apply Hs.
  apply elem_of_app. right. by apply list_elem_of_singleton.
Qed.

Lemma strip_path q f j : segment f -> strip_trailing_separators_internal (q ++ f ++ seps j) = q ++ f.
Proof.
  intros Hf. destruct (segment_last f Hf) as (g & c & -> & Hc). rewrite <- (app_assoc g), !(app_assoc q). by apply strip_body.
Qed.

Lemma strip_bare f j : segment f -> strip_trailing_separators_internal (f ++ seps j) = f.
Proof. apply (strip_path []). Qed.

Lemma valid_app_l a b : valid (a ++ b) -> valid a.
Proof. unfold valid. rewrite zlen_app. pose proof (zlen_nonneg b). lia. Qed.
Lemma valid_app_r a b : valid (a ++ b) -> valid b.
Proof. unfold valid. rewrite zlen_app. pose proof (zlen_nonneg a). lia. Qed.

Lemma path_ok_app a b : path_ok (a ++ b) -> path_ok a /\ path_ok b.
Proof.
  intros [Hv Hn]. unfold nul_free in Hn. apply not_elem_of_app in Hn as [? ?].
  repeat split; [by eapply valid_app_l|done|by eapply valid_app_r|done].
Qed.

Lemma zlen_pos {A} (l : list A) : l <> [] -> 1 <= zlen l.
Proof. destruct l as [|x l]; [done|]. rewrite zlen_cons. pose proof (zlen_nonneg l). lia. Qed.

Lemma basename_bare f j : path_ok (f ++ seps j) -> segment f -> basename (f ++ seps j) = f.
Proof.
  intros [Hv Hn] Hf. unfold basename. rewrite make_file_path_id by done. rewrite strip_bare by done.
  change (negb (find_drive_letter f =? npos)) with false. cbv iota. by rewrite last_sep_none; [|by eapply valid_app_l|apply Hf].
Qed.

Lemma basename_sub q f j : path_ok (q ++ [sep] ++ f ++ seps j) -> segment f -> basename (q ++ [sep] ++ f ++ seps j) = f.
Proof.
  intros [Hv Hn] Hf. unfold basename. rewrite make_file_path_id by done. rewrite (app_assoc q) in *. rewrite strip_path by done.
  change (negb (find_drive_letter _ =? npos)) with false. cbv iota. rewrite (app_assoc _ f) in Hv. apply valid_app_l in Hv.
  rewrite <- app_assoc in *. cbn [app] in *. pose proof Hv as Hv'. unfold valid in Hv'. rewrite zlen_app, zlen_cons in Hv'.
  pose proof (zlen_nonneg q). pose proof (zlen_pos f (proj1 Hf)).
  rewrite last_sep_some; [|done|apply Hf]. rewrite (proj2 (Z.eqb_neq _ _)) by (unfold npos; lia).
  rewrite (proj2 (Z.ltb_lt _ _)) by (rewrite zlen_app, zlen_cons; lia). cbn [negb andb].
  change (q ++ sep :: f) with (q ++ [sep] ++ f). rewrite (app_assoc q). apply zdrop_app_exact. by rewrite zlen_app.
Qed.

Definition root_of (n : nat) : bytes := seps (match n with 2 => 2 | _ => 1 end)%nat.

Lemma last_sep_seps n : valid (seps (S n)) -> find_last_of (seps (S n)) kSeparators npos = Z.of_nat n.
Proof.
  intros Hv. rewrite seps_end in *. rewrite last_sep_some; [unfold seps; apply zlen_replicate|done|apply not_elem_of_nil].
Qed.

Lemma seps_ok n : Z.of_nat n < 2 ^ 63 -> path_ok (seps n).
Proof.
  intros H. split; [unfold valid, seps; by rewrite zlen_replicate|]. intros Hin%elem_of_replicate. by destruct Hin.
Qed.

Lemma basename_seps n : (0 < n)%nat -> path_ok (seps n) -> basename (seps n) = root_of n.
Proof.
  intros Hn [Hv Hf]. unfold basename. rewrite make_file_path_id by done. rewrite strip_seps.
  change (negb (find_drive_letter _ =? npos)) with false. cbv iota. destruct n as [|[|[|n]]]; [lia|done..].
Qed.

Lemma dirname_bare f j : path_ok (f ++ seps j) -> segment f -> dirname (f ++ seps j) = kCurrentDirectory.
Proof.
  intros [Hv Hn] Hf. unfold dirname. rewrite make_file_path_id by done. rewrite strip_bare by done.
  rewrite last_sep_none; [|by eapply valid_app_l|apply Hf]. cbn [Z.eqb]. rewrite Z.eqb_refl.
  change (u64 (find_drive_letter f + 1)) with 0. rewrite str_resize_le by (pose proof (zlen_nonneg f); lia). by rewrite ztake_0.
Qed.

Lemma dirname_seps n : (0 < n)%nat -> path_ok (seps n) -> dirname (seps n) = root_of n.
Proof.
  intros Hn [Hv Hf]. unfold dirname. rewrite make_file_path_id by done. rewrite strip_seps. by destruct n as [|[|[|n]]]; [lia|..].
Qed.

(** The root that [dirname] finds in front of the first component; three separators count as two. *)
Definition root_before (n : nat) : bytes := seps (match n with 2 | 3 => 2 | _ => 1 end)%nat.

Lemma zlen_seps n : zlen (seps n) = Z.of_nat n.
Proof. unfold seps. apply zlen_replicate. Qed.

Lemma dirname_root n f j :
  (0 < n)%nat -> path_ok (seps n ++ f ++ seps j) -> segment f -> dirname (seps n ++ f ++ seps j) = root_before n.
Proof.
  intros Hn [Hv Hnul] Hf. unfold dirname. rewrite make_file_path_id by done. rewrite strip_path by done.
  rewrite app_assoc in Hv. apply valid_app_l in Hv. destruct n as [|k]; [lia|]. rewrite seps_end, <- app_assoc in *. cbn [app] in *.
  rewrite last_sep_some; [|done|apply Hf]. rewrite zlen_seps. pose proof Hv as Hv'. unfold valid in Hv'. rewrite zlen_app, zlen_seps in Hv'.
  pose proof (zlen_nonneg (sep :: f)). rewrite (proj2 (Z.eqb_neq (Z.of_nat k) npos)) by (unfold npos; lia).
  change (u64 (find_drive_letter _ + 1)) with 0. change (u64 (find_drive_letter _ + 2)) with 1. change (u64 (find_drive_letter _ + 3)) with 2.
  destruct k as [|[|k]].
  - cbn [seps replicate app Z.of_nat Z.eqb]. rewrite str_resize_le by (rewrite zlen_cons; pose proof (zlen_nonneg f); lia).
    change (sep :: f) with ([sep] ++ f). by rewrite ztake_app_exact.
  - change (Z.of_nat 1 =? 0) with false. change (Z.of_nat 1 =? 1) with true. change (is_separator (char_of (seps 1 ++ sep :: f) 0)) with true. cbn [andb].
    rewrite str_resize_le by (cbn; rewrite !zlen_cons; pose proof (zlen_nonneg f); lia).
    change (seps 1 ++ sep :: f) with ([sep; sep] ++ f). by rewrite ztake_app_exact.
  - rewrite (proj2 (Z.eqb_neq (Z.of_nat (S (S k))) 0)), (proj2 (Z.eqb_neq (Z.of_nat (S (S k))) 1)) by lia. cbn [andb negb].
    rewrite str_resize_le by (rewrite zlen_app, zlen_seps; lia). rewrite ztake_app_exact by (by rewrite zlen_seps). rewrite strip_seps.
    by destruct k.
Qed.

Lemma length_seps n : length (seps n) = n.
Proof. unfold seps. apply length_replicate. Qed.

Lemma dirname_sub h c i f j :
  c <> sep -> path_ok ((h ++ [c]) ++ seps (S i) ++ f ++ seps j) -> segment f ->
  dirname ((h ++ [c]) ++ seps (S i) ++ f ++ seps j) = h ++ [c].
Proof.
  intros Hc [Hv Hnul] Hf. unfold dirname. rewrite make_file_path_id by done. rewrite (app_assoc (h ++ [c])) in *. rewrite strip_path by done.
  rewrite (app_assoc _ f) in Hv. apply valid_app_l in Hv. rewrite seps_end, (app_assoc (h ++ [c])), <- !(app_assoc _ [sep] f) in *. cbn [app] in Hv |- *.
  rewrite last_sep_some; [|done|apply Hf].
  assert (Hz : zlen ((h ++ [c]) ++ seps i) = zlen h + 1 + Z.of_nat i) by (rewrite !zlen_app, zlen_seps; done).
  pose proof Hv as Hv'. unfold valid in Hv'. rewrite zlen_app in Hv'. pose proof (zlen_nonneg (sep :: f)). pose proof (zlen_nonneg h).
  rewrite (proj2 (Z.eqb_neq _ npos)) by (unfold npos; lia).
  change (u64 (find_drive_letter _ + 1)) with 0. change (u64 (find_drive_letter _ + 2)) with 1.
  rewrite (proj2 (Z.eqb_neq (zlen ((h ++ [c]) ++ seps i)) 0)) by lia.
  replace ((zlen ((h ++ [c]) ++ seps i) =? 1) && is_separator (char_of (((h ++ [c]) ++ seps i) ++ sep :: f) 0)) with false.
  - cbn [negb]. rewrite str_resize_le by (rewrite (zlen_app _ (sep :: f)); lia). rewrite ztake_app_exact by done. rewrite <- app_assoc, strip_body by done.
    rewrite (proj2 (Z.eqb_neq _ 0)); [done|]. rewrite zlen_app, zlen_cons. change (zlen (@nil byte)) with 0. lia.
  - symmetry. destruct (Z.eqb_spec (zlen ((h ++ [c]) ++ seps i)) 1) as [E|]; [|done]. cbn [andb].
    assert (h = []) as -> by (apply zlen_0_nil; lia). cbn. by apply is_separator_not.
Qed.

(** *** The shape of a path *)

Lemma split_suffix (P : byte -> bool) l :
  exists a b, l = a ++ b /\ Forall (fun c => P c = true) b /\ (a = [] \/ exists a' c, a = a' ++ [c] /\ P c = false).
Proof.
  induction l as [|c l IH] using rev_ind.
  - exists [], []. split_and!; [done|constructor|by left].
  - destruct (P c) eqn:E.
    + destruct IH as (a & b & -> & Hb & Ha). exists a, (b ++ [c]). rewrite app_assoc. split_and!; [done| |done].
      apply Forall_app. split; [done|by repeat constructor].
    + exists (l ++ [c]), []. rewrite app_nil_r. split_and!; [done|constructor|right; by exists l, c].
Qed.

Lemma all_seps b : Forall (fun c => is_separator c = true) b -> b = seps (length b).
Proof. induction 1 as [|c b Hc _ IH]; [done|]. apply is_separator_iff in Hc as ->. cbn. by f_equal. Qed.

Lemma no_seps b : Forall (fun c => negb (is_separator c) = true) b -> sep ∉ b.
Proof.
  intros H Hin. rewrite Forall_forall in H. apply H in Hin. by rewrite (proj2 (is_separator_iff sep)) in Hin.
Qed.

Inductive shape (p : bytes) : Prop :=
| shape_seps n : p = seps n -> shape p
| shape_bare f j : segment f -> p = f ++ seps j -> shape p
| shape_root n f j : (0 < n)%nat -> segment f -> p = seps n ++ f ++ seps j -> shape p
| shape_sub h c i f j : c <> sep -> segment f -> p = (h ++ [c]) ++ seps (S i) ++ f ++ seps j -> shape p.

Lemma path_shape p : shape p.
Proof.
  destruct (split_suffix is_separator p) as (a & b & -> & Hb%all_seps & Ha). rewrite Hb. clear Hb. generalize (length b) as j. clear b. intros j.
  destruct Ha as [->|(a' & c & -> & Hc)]; [by apply (shape_seps _ j)|].
  destruct (split_suffix (fun c => negb (is_separator c)) (a' ++ [c])) as (q & f & Eq & Hf%no_seps & Hq).
  assert (Hne : f <> []).
  { intros ->. rewrite app_nil_r in Eq. destruct Hq as [->|(q' & d & -> & Hd)]; [by destruct a'|].
    apply app_inj_tail in Eq as [-> ->]. apply negb_false_iff in Hd. congruence. }
  rewrite Eq. destruct Hq as [->|(q' & d & -> & Hd)]; [by apply (shape_bare _ f j)|].
  apply negb_false_iff, is_separator_iff in Hd as ->.
  destruct (split_suffix is_separator q') as (h & b & -> & Hb%all_seps & Hh). rewrite Hb. generalize (length b) as i. clear Eq Hb b. intros i.
  rewrite <- !app_assoc. destruct Hh as [->|(h' & e & -> & He)].
  - apply (shape_root _ (S i) f j); [lia|done|]. by rewrite seps_end, <- app_assoc.
  - apply (shape_sub _ h' e i f j); [|done|by rewrite seps_end, <- !app_assoc]. intros ->. by rewrite (proj2 (is_separator_iff sep)) in He.
Qed.

(** *** The components of a path *)

(** The maximal runs without separators; [cur] is the run that has begun. *)
Fixpoint segs (cur p : bytes) : list bytes :=
  match p with
  | [] => match cur with [] => [] | _ => [cur] end
  | c :: p => if is_separator c then (match cur with [] => [] | _ => [cur] end) ++ segs [] p else segs (cur ++ [c]) p
  end.
Definition segments (p : bytes) : list bytes := segs [] p.

Fixpoint leading (p : bytes) : nat :=
  match p with c :: p => if is_separator c then S (leading p) else O | [] => O end.

(** What [get_components] should return: the root, if there is one, and the segments.  In a relative path a
    leading "." is left out, except where it is all there is besides separators. *)
Definition components (p : bytes) : list bytes :=
  match leading p with
  | O => match segments p with
         | s :: rest => if bool_decide (s = kCurrentDirectory /\ (rest <> [] \/ p = kCurrentDirectory)) then rest else s :: rest
         | [] => []
         end
  | S _ as n => match segments p with [] => [root_of n] | ss => root_before n :: ss end
  end.

Lemma segs_app_sep cur a b : segs cur (a ++ sep :: b) = segs cur a ++ segments b.
Proof.
  revert cur. induction a as [|c a IH]; intros cur; cbn [app segs].
  - done.
  - destruct (is_separator c); [|apply IH]. by rewrite IH, app_assoc.
Qed.

Lemma segments_app_sep a b : segments (a ++ sep :: b) = segments a ++ segments b.
Proof. apply segs_app_sep. Qed.

Lemma segs_plain cur f : sep ∉ f -> cur ++ f <> [] -> segs cur f = [cur ++ f].
Proof.
  revert cur. induction f as [|c f IH]; intros cur Hs Hne; cbn.
  - rewrite app_nil_r in *. by destruct cur.
  - apply not_elem_of_cons in Hs as [Hc Hs]. rewrite is_separator_not by congruence.
    rewrite IH by (try done; by destruct cur). by rewrite <- app_assoc.
Qed.

Lemma segments_one f : segment f -> segments f = [f].
Proof. intros [Hne Hs]. by apply segs_plain. Qed.

Lemma segments_seps n : segments (seps n) = [].
Proof. induction n as [|n IH]; [done|]. exact IH. Qed.

Lemma segments_trail a n : segments (a ++ seps n) = segments a.
Proof.
  destruct n as [|n]; [by rewrite app_nil_r|]. change (seps (S n)) with (sep :: seps n).
  by rewrite segments_app_sep, segments_seps, app_nil_r.
Qed.

Lemma segments_lead n a : segments (seps n ++ a) = segments a.
Proof. induction n as [|n IH]; [done|]. exact IH. Qed.

Lemma segments_join a n b : segments (a ++ seps (S n) ++ b) = segments a ++ segments b.
Proof.
  rewrite app_assoc, seps_end, app_assoc, <- (app_assoc _ [sep]). cbn [app]. by rewrite segments_app_sep, segments_trail.
Qed.

Lemma leading_seps n a : leading (seps n ++ a) = (n + leading a)%nat.
Proof. induction n as [|n IH]; [done|]. cbn. f_equal. exact IH. Qed.

Lemma leading_segment f a : segment f -> leading (f ++ a) = 0%nat.
Proof.
  intros [Hne Hs]. destruct f as [|c f]; [done|]. apply not_elem_of_cons in Hs as [Hc _]. cbn. by rewrite is_separator_not by congruence.
Qed.

Lemma components_seps n : (0 < n)%nat -> components (seps n) = [root_of n].
Proof.
  intros Hn. unfold components. rewrite segments_seps. rewrite <- (app_nil_r (seps n)) at 1. rewrite leading_seps. cbn. rewrite Nat.add_0_r. by destruct n; [lia|].
Qed.

Lemma components_bare f j :
  segment f -> components (f ++ seps j) = if bool_decide (f ++ seps j = kCurrentDirectory) then [] else [f].
Proof.
  intros Hf. unfold components. rewrite leading_segment, segments_trail, segments_one by done.
  destruct (bool_decide (f ++ seps j = kCurrentDirectory)) eqn:E.
  - apply bool_decide_eq_true in E. rewrite bool_decide_true; [done|]. split; [|by right].
    destruct j; [by rewrite app_nil_r in E|]. rewrite seps_end, app_assoc in E. by apply (app_inj_tail _ []) in E as [_ ?].
  - apply bool_decide_eq_false in E. rewrite bool_decide_false; [done|]. by intros [_ [?|?]].
Qed.

Lemma components_root n f j : (0 < n)%nat -> segment f -> components (seps n ++ f ++ seps j) = [root_before n; f].
Proof.
  intros Hn Hf. unfold components. rewrite leading_seps, leading_segment, segments_lead, segments_trail, segments_one, Nat.add_0_r by done.
  by destruct n; [lia|].
Qed.

Lemma leading_app a b c : c <> sep -> c ∈ a -> leading (a ++ b) = leading a.
Proof.
  intros Hc Hin. induction a as [|d a IH]; [by apply not_elem_of_nil in Hin|]. cbn. destruct (is_separator d) eqn:E; [|done].
  apply elem_of_cons in Hin as [->|Hin]; [by rewrite is_separator_not in E|]. by rewrite IH.
Qed.

Lemma segs_nonempty cur a : cur <> [] \/ (exists c, c <> sep /\ c ∈ a) -> segs cur a <> [].
Proof.
  revert cur. induction a as [|d a IH]; intros cur H; cbn.
  - destruct H as [H|(c & _ & H)]; [by destruct cur|by apply not_elem_of_nil in H].
  - destruct (is_separator d) eqn:E.
    + destruct cur; [|done]. cbn. apply IH. right. destruct H as [?|(c & Hc & Hin)]; [done|]. exists c. split; [done|].
      apply elem_of_cons in Hin as [->|?]; [by rewrite is_separator_not in E|done].
    + apply IH. left. by destruct cur.
Qed.

Lemma segments_nonempty a c : c <> sep -> c ∈ a -> segments a <> [].
Proof. intros Hc Hin. apply segs_nonempty. right. by exists c. Qed.

Lemma last_in {A} (h : list A) c : c ∈ h ++ [c].
Proof. apply elem_of_app. right. by apply list_elem_of_singleton. Qed.

(** A relative path of one segment that has no separator at the end. *)
Lemma single_segment h c s : c <> sep -> leading (h ++ [c]) = 0%nat -> segments (h ++ [c]) = [s] -> h ++ [c] = s.
Proof.
  intros Hc Hl Hs. remember (h ++ [c]) as d eqn:Ed. destruct (path_shape d) as [n E|f j Hf E|n f j Hn Hf E|h' c' i f j Hc' Hf E].
  - by rewrite E, segments_seps in Hs.
  - rewrite E, segments_trail, segments_one in Hs by done. injection Hs as <-. rewrite E in Ed. destruct j; [by rewrite app_nil_r in *; subst|].
    rewrite seps_end, app_assoc in Ed. by apply app_inj_tail in Ed as [_ ?].
  - rewrite E, leading_seps in Hl. lia.
  - rewrite E, segments_join, segments_trail, (segments_one f) in Hs by done. pose proof (segments_nonempty _ c' Hc' (last_in h' c')) as Hne.
    by destruct (segments (h' ++ [c'])) as [|x [|y l]].
Qed.

Lemma components_sub h c i f j :
  c <> sep -> segment f -> components ((h ++ [c]) ++ seps (S i) ++ f ++ seps j) = components (h ++ [c]) ++ [f].
Proof.
  intros Hc Hf. pose proof (segments_nonempty _ c Hc (last_in h c)) as Hne. unfold components.
  rewrite (leading_app _ _ c Hc (last_in h c)), segments_join, segments_trail, (segments_one f) by done.
  destruct (leading (h ++ [c])) eqn:El; [|by destruct (segments (h ++ [c]))].
  destruct (segments (h ++ [c])) as [|s rest] eqn:Es; [done|]. cbn [app].
  destruct (decide (s = kCurrentDirectory)) as [Hs|Hs].
  - rewrite bool_decide_true by (split; [done|left; by destruct rest]). rewrite bool_decide_true; [done|]. split; [done|].
    destruct rest; [right|by left]. rewrite <- Hs. by apply single_segment.
  - rewrite !bool_decide_false by tauto. done.
Qed.

Lemma segment_not_seps f : segment f -> are_all_separators f = false.
Proof.
  intros [Hne Hs]. destruct f as [|c f]; [done|]. apply not_elem_of_cons in Hs as [Hc _]. unfold are_all_separators. cbn. by rewrite is_separator_not.
Qed.

Lemma nil_ok : path_ok [].
Proof. split; [done|apply not_elem_of_nil]. Qed.

Lemma dot_ok : path_ok kCurrentDirectory.
Proof. split; [done|]. unfold nul_free, kCurrentDirectory. by intros ?%list_elem_of_singleton. Qed.

Definition finish (cur : bytes) (ret : list bytes) : list bytes :=
  if negb (zlen (basename cur) =? 0) && negb (bool_decide (basename cur = kCurrentDirectory)) then ret ++ [basename cur] else ret.

Lemma loop_stop fuel cur acc : cur = dirname cur -> (0 < fuel)%nat -> components_loop fuel cur acc = Ok (cur, acc).
Proof. intros H Hf. destruct fuel; [lia|]. cbn. by rewrite bool_decide_true. Qed.

Lemma loop_next fuel cur acc :
  cur <> dirname cur ->
  components_loop (S fuel) cur acc
  = components_loop fuel (dirname cur) (if are_all_separators (basename cur) then acc else acc ++ [basename cur]).
Proof. intros H. cbn. by rewrite bool_decide_false. Qed.

Lemma root_stop n : (0 < n <= 2)%nat -> seps n = dirname (seps n) /\ forall ret, finish (seps n) ret = ret ++ [seps n].
Proof.
  intros Hn. assert (Hok : path_ok (seps n)) by (apply seps_ok; lia).
  unfold finish. rewrite dirname_seps, basename_seps by (done || lia). by destruct n as [|[|[|n]]]; [lia| | |lia].
Qed.

Lemma root_before_le n : (0 < n)%nat -> (length (root_before n) <= n)%nat.
Proof. intros H. unfold root_before. rewrite length_seps. destruct n as [|[|[|[|n]]]]; lia. Qed.

Lemma root_before_stop n :
  (0 < n)%nat -> root_before n = dirname (root_before n) /\ forall ret, finish (root_before n) ret = ret ++ [root_before n].
Proof. intros Hn. unfold root_before. apply root_stop. destruct n as [|[|[|[|n]]]]; lia. Qed.

Lemma dot_stop : kCurrentDirectory = dirname kCurrentDirectory /\ forall ret, finish kCurrentDirectory ret = ret.
Proof. by vm_compute. Qed.

(** The loop ends, and with what follows it returns the components. *)
Definition loop_correct (fuel : nat) (p : bytes) (acc : list bytes) : Prop :=
  exists cur ret, components_loop fuel p acc = Ok (cur, acc ++ ret) /\ rev (finish cur ret) = components p.

Lemma loop_at_end fuel p acc ret :
  (0 < fuel)%nat -> p = dirname p -> rev (finish p ret) = components p -> ret = [] -> loop_correct fuel p acc.
Proof. intros Hf Hd E ->. exists p, []. rewrite loop_stop, app_nil_r; [|exact Hd|exact Hf]. split; [reflexivity|exact E]. Qed.

Lemma loop_turn fuel p acc d :
  p <> dirname p -> dirname p = d -> d = dirname d -> (0 < fuel)%nat ->
  rev (finish d (if are_all_separators (basename p) then [] else [basename p])) = components p -> loop_correct (S fuel) p acc.
Proof.
  intros Hp E Hd Hf Hc. eexists d, _. split; [|exact Hc]. rewrite loop_next, E by exact Hp. rewrite loop_stop; [|exact Hd|exact Hf].
  destruct (are_all_separators _); [by rewrite app_nil_r|reflexivity].
Qed.

Lemma loop_seps fuel n acc : (0 < n < fuel)%nat -> path_ok (seps n) -> loop_correct (S fuel) (seps n) acc.
Proof.
  intros [Hn Hfuel] Hok. destruct (decide (n <= 2)%nat) as [Hle|Hgt].
  - destruct (root_stop n) as [Hs Hfin]; [lia|]. apply loop_at_end with (ret := []); [lia|exact Hs| |reflexivity].
    rewrite Hfin, components_seps by done. destruct n as [|[|[|n]]]; [lia|reflexivity|reflexivity|lia].
  - assert (Hr : root_of n = seps 1) by (by destruct n as [|[|[|n]]]; try lia). destruct (root_stop 1) as [Hs Hfin]; [lia|].
    pose proof (dirname_seps n Hn Hok) as Hd. pose proof (basename_seps n Hn Hok) as Hb. rewrite Hr in Hd, Hb.
    apply loop_turn with (d := seps 1); [|exact Hd|exact Hs|lia|].
    + rewrite Hd. intros E%(f_equal length). rewrite !length_seps in E. lia.
    + rewrite components_seps, Hr, Hb, Hfin by done. reflexivity.
Qed.

Lemma loop_bare fuel f j acc : (0 < fuel)%nat -> segment f -> path_ok (f ++ seps j) -> loop_correct (S fuel) (f ++ seps j) acc.
Proof.
  intros Hfuel Hf Hok. destruct dot_stop as [Hs Hfin]. pose proof (components_bare f j Hf) as Hc.
  destruct (decide (f ++ seps j = kCurrentDirectory)) as [E|E].
  - rewrite bool_decide_true in Hc by exact E. apply loop_at_end with (ret := []); [lia|rewrite E; exact Hs| |reflexivity].
    rewrite Hc, E, Hfin. reflexivity.
  - rewrite bool_decide_false in Hc by exact E. apply loop_turn with (d := kCurrentDirectory); rewrite ?dirname_bare, ?basename_bare by done; [exact E|reflexivity|exact Hs|lia|].
    rewrite Hc, segment_not_seps, Hfin by done. reflexivity.
Qed.

Lemma basename_root n f j : (0 < n)%nat -> path_ok (seps n ++ f ++ seps j) -> segment f -> basename (seps n ++ f ++ seps j) = f.
Proof. intros Hn Hok Hf. destruct n as [|k]; [lia|]. rewrite seps_end, <- app_assoc in *. by apply basename_sub. Qed.

Lemma basename_below h c i f j :
  path_ok ((h ++ [c]) ++ seps (S i) ++ f ++ seps j) -> segment f -> basename ((h ++ [c]) ++ seps (S i) ++ f ++ seps j) = f.
Proof.
  intros Hok Hf. rewrite seps_end, (app_assoc (h ++ [c])), (app_assoc (h ++ [c])), <- (app_assoc _ [sep]) in *. by apply basename_sub.
Qed.

Lemma segment_pos f : segment f -> (0 < length f)%nat.
Proof. intros [Hf _]. destruct f; [done|cbn; lia]. Qed.

Lemma loop_root fuel n f j acc :
  (0 < n)%nat -> (0 < fuel)%nat -> segment f -> path_ok (seps n ++ f ++ seps j) -> loop_correct (S fuel) (seps n ++ f ++ seps j) acc.
Proof.
  intros Hn Hfuel Hf Hok. pose proof (segment_pos f Hf). destruct (root_before_stop n Hn) as [Hs Hfin].
  apply loop_turn with (d := root_before n); rewrite ?dirname_root, ?basename_root by done; [|reflexivity|exact Hs|exact Hfuel|].
  - intros E%(f_equal length). rewrite !length_app, length_seps in E. pose proof (root_before_le n Hn). lia.
  - rewrite segment_not_seps, Hfin, components_root by done. reflexivity.
Qed.

Lemma loop_ok fuel p acc : path_ok p -> p <> [] -> (S (length p) < fuel)%nat -> loop_correct fuel p acc.
Proof.
  revert p acc. induction fuel as [|fuel IH]; intros p acc Hok Hne Hfuel; [lia|].
  destruct (path_shape p) as [n E|f j Hf E|n f j Hn Hf E|h c i f j Hc Hf E]; subst p.
  - apply loop_seps; [|done]. rewrite length_seps in Hfuel. destruct n; [done|lia].
  - apply loop_bare; [lia|done|done].
  - apply loop_root; [done|lia|done|done].
  - pose proof (segment_pos f Hf). rewrite !length_app, !length_seps in Hfuel. cbn [length] in Hfuel.
    assert (Hd : (h ++ [c]) ++ seps (S i) ++ f ++ seps j <> dirname ((h ++ [c]) ++ seps (S i) ++ f ++ seps j)).
    { rewrite dirname_sub by done. intros E%(f_equal length). rewrite !length_app, !length_seps in E. cbn in E. lia. }
    destruct (IH (h ++ [c]) (acc ++ [f])) as (cur & ret & E & Hfin).
    + by apply path_ok_app in Hok as [? _].
    + by destruct h.
    + rewrite length_app. cbn. lia.
    + exists cur, (f :: ret). rewrite loop_next by exact Hd. rewrite dirname_sub, basename_below, segment_not_seps by done.
      rewrite E, <- app_assoc. split; [reflexivity|]. rewrite components_sub, <- Hfin by done. unfold finish. by destruct (_ && _).
Qed.

Lemma get_components_ok p : path_ok p -> get_components p = Ok (components p).
Proof.
  intros Hok. unfold get_components. destruct (Z.eqb_spec (zlen p) 0) as [E|E]; [by apply zlen_0_nil in E as ->|].
  destruct (loop_ok (S (S (length p))) p []) as (cur & ret & -> & Hc); [done|by intros ->|lia|]. cbn [mbind outcome_bind app]. by rewrite <- Hc.
Qed.

Lemma path_ok_seps_le m n : (m <= n)%nat -> path_ok (seps n) -> path_ok (seps m).
Proof. intros H [Hv _]. apply seps_ok. unfold valid in Hv. rewrite zlen_seps in Hv. lia. Qed.

Lemma basename_ok p : path_ok p -> path_ok (basename p) /\ zlen (basename p) <= zlen p.
Proof.
  intros Hok. destruct (path_shape p) as [n ->|f j Hf ->|n f j Hn Hf ->|h c i f j Hc Hf ->].
  - destruct n as [|n]; [done|]. rewrite basename_seps by (done || lia). unfold root_of. rewrite !zlen_seps.
    split; [|destruct n as [|[|n]]; lia]. eapply path_ok_seps_le; [|exact Hok]. destruct n as [|[|n]]; lia.
  - rewrite basename_bare by done. rewrite zlen_app. pose proof (zlen_nonneg (seps j)). apply path_ok_app in Hok as [? _]. split; [done|lia].
  - rewrite basename_root by done. rewrite !zlen_app. pose proof (zlen_nonneg (seps j)). pose proof (zlen_nonneg (seps n)).
    apply path_ok_app in Hok as [_ [? _]%path_ok_app]. split; [done|lia].
  - rewrite basename_below by done. rewrite !zlen_app. pose proof (zlen_nonneg (seps j)). pose proof (zlen_nonneg (seps (S i))). pose proof (zlen_nonneg h). pose proof (zlen_nonneg [c]).
    apply path_ok_app in Hok as [_ [_ [? _]%path_ok_app]%path_ok_app]. split; [done|lia].
Qed.

Lemma dirname_ok p : path_ok p -> path_ok (dirname p).
Proof.
  intros Hok. destruct (path_shape p) as [n ->|f j Hf ->|n f j Hn Hf ->|h c i f j Hc Hf ->].
  - destruct n as [|n]; [exact dot_ok|]. rewrite dirname_seps by (done || lia). apply seps_ok. destruct n as [|[|n]]; lia.
  - rewrite dirname_bare by done. exact dot_ok.
  - rewrite dirname_root by done. apply seps_ok. destruct n as [|[|[|[|n]]]]; lia.
  - rewrite dirname_sub by done. by apply path_ok_app in Hok as [? _].
Qed.

(** *** Joining *)

Abbreviation strip := strip_trailing_separators_internal (only parsing).

Lemma strip_shape p :
  (p = [] /\ strip p = []) \/ (exists n, (0 < n)%nat /\ p = seps n /\ strip p = root_of n)
  \/ exists h c j, c <> sep /\ p = h ++ [c] ++ seps j /\ strip p = h ++ [c].
Proof.
  destruct (split_suffix is_separator p) as (a & b & E & Hb%all_seps & Ha). rewrite Hb in E. clear Hb. revert E. generalize (length b) as j. intros j E.
  destruct Ha as [->|(h & c & -> & Hc)].
  - cbn [app] in E. subst p. destruct j as [|j]; [by left|]. right. left. exists (S j). rewrite strip_seps. split_and!; [lia|done|].
    by destruct j as [|[|j]].
  - right. right. exists h, c, j. assert (c <> sep) by (intros ->; by rewrite (proj2 (is_separator_iff sep)) in Hc).
    rewrite <- app_assoc in E. subst p. by rewrite strip_body.
Qed.

Lemma root_of_le n : (0 < n)%nat -> (0 < length (root_of n) <= n)%nat.
Proof. intros H. unfold root_of. rewrite length_seps. destruct n as [|[|[|n]]]; lia. Qed.

Lemma strip_ok p : path_ok p -> path_ok (strip p) /\ zlen (strip p) <= zlen p.
Proof.
  intros Hok. destruct (strip_shape p) as [[-> ->]|[(n & Hn & -> & ->)|(h & c & j & Hc & -> & ->)]].
  - done.
  - pose proof (root_of_le n Hn). unfold root_of in *. rewrite length_seps in *. rewrite !zlen_seps. split; [|lia]. eapply path_ok_seps_le; [|exact Hok]. lia.
  - rewrite app_assoc in *. apply path_ok_app in Hok as [? _]. split; [done|]. rewrite (zlen_app _ (seps j)). pose proof (zlen_nonneg (seps j)). lia.
Qed.

Lemma char_of_end l x : char_of (l ++ [x]) (zlen (l ++ [x]) - 1) = x.
Proof. rewrite zlen_app. unfold char_of, zlen. cbn [length]. replace (Z.to_nat _) with (length l) by lia. by rewrite nth_middle. Qed.

Lemma not_absolute c : leading c = 0%nat -> is_path_absolute c = false.
Proof. destruct c as [|x c]; [done|]. cbn [leading]. unfold is_path_absolute. change (char_of (x :: c) 0) with x. destruct (is_separator x); [done|]. intros _. apply andb_false_r. Qed.

Lemma append_rest p c :
  path_ok p -> path_ok c -> segment c -> p <> kCurrentDirectory ->
  append c p = Ok (let s := strip p in
                   if negb (zlen s =? 0) && negb (is_separator (char_of s (zlen s - 1))) then s ++ [sep] ++ c else s ++ c).
Proof.
  intros [Hv Hn] [Hcv Hcn] Hf Hp. unfold append. rewrite (find_nul c) by done. cbn [Z.eqb negb]. rewrite Z.eqb_refl. cbn [negb]. cbv zeta. rewrite not_absolute by (rewrite <- (app_nil_r c); by apply leading_segment).
  rewrite check_true by done. cbn [mbind outcome_bind]. rewrite bool_decide_false by exact Hp. cbn [andb]. rewrite make_file_path_id by done.
  pose proof (zlen_pos c (proj1 Hf)). rewrite (proj2 (Z.eqb_neq (zlen c) 0)) by lia. cbn [negb andb].
  change (u64 (find_drive_letter _ + 1)) with 0. rewrite (Z.eqb_sym 0). rewrite append_to_string_app. cbv zeta.
  destruct (zlen (strip p) =? 0); [done|]. cbn [negb andb]. rewrite andb_true_r. destruct (is_separator _); [done|]. cbn [negb]. by rewrite <- app_assoc.
Qed.

Lemma append_bare p c : p = [] \/ p = kCurrentDirectory -> path_ok c -> segment c -> append c p = Ok c.
Proof.
  intros [-> | ->] Hc Hf; [by rewrite (append_rest [] c nil_ok)|]. unfold append. destruct Hc as [Hcv Hcn]. rewrite (find_nul c) by done.
  rewrite Z.eqb_refl. cbn [negb]. rewrite not_absolute by (rewrite <- (app_nil_r c); by apply leading_segment).
  rewrite check_true by done. cbn [mbind outcome_bind]. rewrite bool_decide_true by done.
  pose proof (zlen_pos c (proj1 Hf)). rewrite (proj2 (Z.eqb_neq (zlen c) 0)) by lia. cbn [negb andb]. by rewrite make_file_path_id.
Qed.

Lemma append_root n c : (0 < n)%nat -> path_ok (seps n) -> path_ok c -> segment c -> append c (seps n) = Ok (root_of n ++ c).
Proof.
  intros Hn Hp Hc Hf. rewrite append_rest; [|done..|by destruct n]. cbv zeta. rewrite strip_seps.
  destruct n as [|[|[|n]]]; [lia|reflexivity..].
Qed.

Lemma append_body h d j c :
  d <> sep -> path_ok (h ++ [d] ++ seps j) -> h ++ [d] ++ seps j <> kCurrentDirectory -> path_ok c -> segment c ->
  append c (h ++ [d] ++ seps j) = Ok ((h ++ [d]) ++ seps 1 ++ c).
Proof.
  intros Hd Hp Hne Hc Hf. rewrite append_rest by done. cbv zeta. rewrite strip_body by done. rewrite char_of_end, is_separator_not by done.
  rewrite (proj2 (Z.eqb_neq _ 0)); [done|]. rewrite zlen_app. pose proof (zlen_nonneg h). change (zlen [d]) with 1. lia.
Qed.

Lemma path_ok_join a b : path_ok a -> path_ok b -> zlen a + zlen b < 2 ^ 63 -> path_ok (a ++ b).
Proof.
  intros [_ Ha] [_ Hb] H. split; [unfold valid; by rewrite zlen_app|]. unfold nul_free. rewrite not_elem_of_app. done.
Qed.

(** Where a path is appended to: its directory afterwards. *)
Definition directory (p : bytes) : bytes := if bool_decide (strip p = []) then kCurrentDirectory else strip p.

Definition joined (p c p' : bytes) : Prop :=
  path_ok p' /\ zlen p' <= zlen p + zlen c + 1 /\ strip p' = p' /\ basename p' = c /\ dirname p' = directory p
  /\ (c <> kCurrentDirectory -> components p' = components (strip p) ++ [c]).

Lemma joined_bare p c : p = [] \/ p = kCurrentDirectory -> path_ok c -> segment c -> joined p c c.
Proof.
  intros Hp Hc Hf. pose proof (zlen_nonneg p). assert (E : c ++ seps 0 = c) by apply app_nil_r.
  pose proof (basename_bare c 0) as H1. pose proof (dirname_bare c 0) as H2. pose proof (components_bare c 0) as H3. pose proof (strip_bare c 0) as H4. rewrite E in *.
  unfold joined. rewrite H1, H2, H3, H4 by done. split_and!; [done|lia|done|done|by destruct Hp as [-> | ->]|].
  intros Hne. rewrite bool_decide_false by exact Hne. by destruct Hp as [-> | ->].
Qed.

Lemma joined_root n c :
  (0 < n)%nat -> path_ok (seps n) -> path_ok c -> segment c -> Z.of_nat n + zlen c < 2 ^ 63 -> joined (seps n) c (root_of n ++ c).
Proof.
  intros Hn Hp Hc Hf Hlen. pose proof (root_of_le n Hn) as Hr. unfold joined, directory. rewrite strip_seps, zlen_seps.
  assert (exists m, root_of n = seps m /\ (m = 1 \/ m = 2) /\ seps (match n with 0 => 0 | 2 => 2 | _ => 1 end) = seps m)%nat as (m & E & Hm & ->).
  { destruct n as [|[|[|n]]]; [lia|exists 1%nat|exists 2%nat|exists 1%nat]; auto. }
  rewrite E in *. rewrite length_seps in Hr. assert (Hm' : root_before m = seps m /\ root_of m = seps m) by (by destruct Hm as [-> | ->]).
  assert (Ec : c ++ seps 0 = c) by apply app_nil_r. rewrite zlen_app, zlen_seps.
  assert (Hok : path_ok (seps m ++ c)) by (apply path_ok_join; [apply seps_ok; lia|done|rewrite zlen_seps; lia]).
  pose proof (basename_root m c 0) as H1. pose proof (dirname_root m c 0) as H2. pose proof (components_root m c 0) as H3.
  pose proof (strip_path (seps m) c 0) as H4. rewrite Ec in *. rewrite H1, H2, H3, H4 by (done || lia). rewrite (proj1 Hm'), bool_decide_false by (by destruct Hm as [-> | ->]).
  split_and!; [done|lia|done..|]. intros _. rewrite components_seps by lia. by rewrite (proj2 Hm').
Qed.

Lemma joined_body h d j c :
  d <> sep -> path_ok (h ++ [d] ++ seps j) -> path_ok c -> segment c -> zlen (h ++ [d] ++ seps j) + zlen c + 1 < 2 ^ 63 ->
  joined (h ++ [d] ++ seps j) c ((h ++ [d]) ++ seps 1 ++ c).
Proof.
  intros Hd Hp Hc Hf Hlen. unfold joined, directory. rewrite strip_body by done. rewrite (app_assoc h [d] (seps j)) in *.
  apply path_ok_app in Hp as [Hp _]. rewrite (zlen_app _ (seps j)) in *. pose proof (zlen_nonneg (seps j)).
  assert (Hok : path_ok ((h ++ [d]) ++ seps 1 ++ c)).
  { apply path_ok_join; [done|apply path_ok_join; [by apply seps_ok|done|rewrite zlen_seps; pose proof (zlen_nonneg (h ++ [d])); lia]|].
    rewrite (zlen_app (seps 1)), zlen_seps. lia. }
  assert (Ec : c ++ seps 0 = c) by apply app_nil_r.
  pose proof (basename_below h d 0 c 0) as H1. pose proof (dirname_sub h d 0 c 0) as H2. pose proof (components_sub h d 0 c 0) as H3.
  pose proof (strip_path ((h ++ [d]) ++ seps 1) c 0) as H4. rewrite Ec in *. rewrite <- (app_assoc (h ++ [d])) in H4. rewrite H1, H2, H3, H4 by done. rewrite bool_decide_false by (by destruct h).
  split_and!; [done| |done..]. rewrite (zlen_app _ (seps 1 ++ c)), (zlen_app (seps 1)), zlen_seps. lia.
Qed.

Lemma append_segment p c :
  path_ok p -> path_ok c -> segment c -> zlen p + zlen c + 1 < 2 ^ 63 -> exists p', append c p = Ok p' /\ joined p c p'.
Proof.
  intros Hp Hc Hf Hlen. destruct (decide (p = [] \/ p = kCurrentDirectory)) as [Hb|Hb].
  { exists c. split; [by apply append_bare|by apply joined_bare]. }
  destruct (strip_shape p) as [[-> _]|[(n & Hn & -> & _)|(h & d & j & Hd & -> & _)]]; [tauto|..].
  - exists (root_of n ++ c). split; [by apply append_root|]. rewrite zlen_seps in Hlen. apply joined_root; [done..|lia].
  - exists ((h ++ [d]) ++ seps 1 ++ c). split; [apply append_body; tauto|by apply joined_body].
Qed.

(** *** Relative paths *)

Lemma segs_segments cur p : sep ∉ cur -> Forall segment (segs cur p).
Proof.
  revert cur. induction p as [|c p IH]; intros cur Hc; cbn.
  - destruct cur; by repeat constructor.
  - destruct (is_separator c) eqn:E.
    + apply Forall_app. split; [destruct cur; by repeat constructor|apply IH, not_elem_of_nil].
    + apply IH, not_elem_of_app. split; [done|]. intros <-%list_elem_of_singleton. by rewrite (proj2 (is_separator_iff sep)) in E.
Qed.

Lemma segs_nul_free cur p : nul_free cur -> nul_free p -> Forall nul_free (segs cur p).
Proof.
  revert cur. induction p as [|c p IH]; intros cur Hc Hp; cbn.
  - destruct cur; by repeat constructor.
  - apply not_elem_of_cons in Hp as [Hpc Hp]. destruct (is_separator c) eqn:E.
    + apply Forall_app. split; [destruct cur; by repeat constructor|by apply IH; [apply not_elem_of_nil|]].
    + apply IH; [|done]. apply not_elem_of_app. split; [done|]. by intros ?%list_elem_of_singleton.
Qed.

(** The room that components take when they are appended. *)
Fixpoint room (cs : list bytes) : Z := match cs with [] => 0 | c :: cs => zlen c + 1 + room cs end.

Lemma room_nonneg cs : 0 <= room cs.
Proof. induction cs as [|c cs IH]; cbn; [lia|]. pose proof (zlen_nonneg c). lia. Qed.

Lemma room_app a b : room (a ++ b) = room a + room b.
Proof. induction a as [|c a IH]; cbn; [done|]. rewrite IH. lia. Qed.

Lemma room_segs cur p : room (segs cur p) <= zlen cur + zlen p + 1.
Proof.
  revert cur. induction p as [|c p IH]; intros cur; cbn [segs].
  - destruct cur; cbn [room]; [done|]. change (zlen (@nil byte)) with 0. lia.
  - rewrite zlen_cons. destruct (is_separator c).
    + rewrite room_app. specialize (IH []). change (zlen (@nil byte)) with 0 in IH. pose proof (zlen_nonneg cur). destruct cur; cbn [room]; lia.
    + specialize (IH (cur ++ [c])). rewrite zlen_app in IH. change (zlen [c]) with 1 in IH. lia.
Qed.

Definition good (c : bytes) : Prop := segment c /\ path_ok c.

Lemma segments_good p : path_ok p -> Forall good (segments p).
Proof.
  intros [Hv Hn]. pose proof (segs_segments [] p (not_elem_of_nil _)) as H1. pose proof (segs_nul_free [] p (not_elem_of_nil _) Hn) as H2.
  pose proof (room_segs [] p) as H3. change (zlen (@nil byte)) with 0 in H3. unfold valid in Hv. apply Forall_forall. rewrite Forall_forall in H1, H2.
  intros c Hin. repeat split; [by apply H1..| |by apply H2]. unfold valid. unfold segments in Hin.
  apply list_elem_of_split in Hin as (a & b & E). rewrite E, room_app in H3. cbn in H3. pose proof (room_nonneg a). pose proof (room_nonneg b). lia.
Qed.

(** What follows the first component consists of segments of the path. *)
Lemma components_tail p a rest :
  path_ok p -> components p = a ++ rest -> a <> [] -> Forall good rest /\ room rest <= zlen p + 1.
Proof.
  intros Hok E Ha. pose proof (segments_good p Hok) as Hg. pose proof (room_segs [] p) as Hr. change (zlen (@nil byte)) with 0 in Hr. fold (segments p) in Hr.
  assert (exists b, segments p = b ++ rest) as [b Eb].
  { unfold components in E. destruct a as [|x a]; [done|]. destruct (leading p) as [|n].
    - destruct (segments p) as [|s ss] eqn:Es; [by destruct a|]. destruct (bool_decide _); [exists (s :: x :: a)|exists (x :: a)]; cbn in *; congruence.
    - destruct (segments p) as [|s ss] eqn:Es; [exists []; cbn in E|exists a; cbn in E; congruence].
      injection E as _ E. symmetry in E. by apply app_eq_nil in E as [_ ->]. }
  rewrite Eb in Hg, Hr. rewrite room_app in Hr. apply Forall_app in Hg as [_ Hg]. pose proof (room_nonneg b). split; [done|lia].
Qed.

Lemma append_all_ok rest t :
  path_ok t -> strip t = t -> Forall good rest -> kCurrentDirectory ∉ rest -> zlen t + room rest < 2 ^ 63 ->
  exists t', append_all rest t = Ok t' /\ path_ok t' /\ components t' = components t ++ rest.
Proof.
  revert t. induction rest as [|c rest IH]; intros t Ht Hs Hg Hd Hl; cbn [append_all room] in *.
  - exists t. by rewrite app_nil_r.
  - apply Forall_cons in Hg as [[Hc1 Hc2] Hg]. apply not_elem_of_cons in Hd as [Hd1 Hd]. pose proof (room_nonneg rest).
    destruct (append_segment t c) as (t1 & -> & Hok & Hl1 & Hs1 & _ & _ & Hcomp); [done..|lia|]. cbn [mbind outcome_bind].
    destruct (IH t1) as (t' & -> & Hok' & E); [done..|lia|]. exists t'. split_and!; [done|done|].
    rewrite E, Hcomp, Hs, <- app_assoc by done. done.
Qed.

Lemma components_rest_app a b : components_rest a (a ++ b) = Some b.
Proof. induction a as [|x a IH]; cbn; [done|]. by rewrite bool_decide_true. Qed.

Lemma components_rest_some a l b : components_rest a l = Some b -> l = a ++ b.
Proof.
  revert l. induction a as [|x a IH]; intros l H; [destruct l; cbn in H; by simplify_eq|]. destruct l as [|y l]; [done|]. cbn in H.
  destruct (bool_decide (x = y)) eqn:E; [|done]. apply bool_decide_eq_true in E as ->. cbn. f_equal. by apply IH.
Qed.

Lemma relative_yes p child t rest :
  path_ok p -> path_ok child -> components p <> [] -> rest <> [] -> components child = components p ++ rest ->
  append_relative_path child t p = match t with None => Ok (true, None) | Some t => t ← append_all rest t; Ok (true, Some t) end.
Proof.
  intros Hp Hc H0 H1 E. unfold append_relative_path. rewrite !get_components_ok by done. cbn [mbind outcome_bind].
  rewrite E, components_rest_app. pose proof (zlen_pos _ H0). pose proof (zlen_pos _ H1). rewrite (proj2 (Z.eqb_neq _ 0)) by lia.
  rewrite (proj2 (Z.leb_gt _ _)) by (rewrite zlen_app; lia). done.
Qed.

Lemma relative_no p child t :
  path_ok p -> path_ok child ->
  ~ (exists rest, components p <> [] /\ rest <> [] /\ components child = components p ++ rest) ->
  append_relative_path child t p = Ok (false, t).
Proof.
  intros Hp Hc Hno. unfold append_relative_path. rewrite !get_components_ok by done. cbn [mbind outcome_bind].
  destruct (Z.eqb_spec (zlen (components p)) 0) as [|H0]; [done|]. destruct (Z.leb_spec (zlen (components child)) (zlen (components p))) as [|H1]; [done|].
  cbn [orb]. destruct (components_rest _ _) as [rest|] eqn:E; [|done]. apply components_rest_some in E. destruct Hno. exists rest.
  split_and!; [by intros E0; rewrite E0 in H0| |done]. intros ->. rewrite E, app_nil_r in H1. lia.
Qed.

(** *** Extensions *)

Abbreviation dot := kExtensionSeparator.

Lemma substr_front a b : valid (a ++ b) -> substr (a ++ b) 0 (zlen a) = a.
Proof.
  intros Hv. unfold valid in Hv. rewrite zlen_app in Hv. pose proof (zlen_nonneg a). pose proof (zlen_nonneg b).
  unfold substr. rewrite zlen_app. rewrite (proj2 (Z.ltb_ge _ 0)) by lia. rewrite u64_small by lia.
  rewrite (proj2 (Z.ltb_ge _ (zlen a))) by lia. unfold zslice. rewrite zdrop_0. by apply ztake_app_exact.
Qed.

Lemma substr_back a b : valid (a ++ b) -> substr (a ++ b) (zlen a) npos = b.
Proof.
  intros Hv. unfold valid in Hv. rewrite zlen_app in Hv. pose proof (zlen_nonneg a). pose proof (zlen_nonneg b).
  unfold substr. rewrite zlen_app. rewrite (proj2 (Z.ltb_ge _ (zlen a))) by lia. rewrite u64_small by lia.
  rewrite (proj2 (Z.ltb_lt _ npos)) by (unfold npos; lia). unfold zslice. rewrite zdrop_app_exact by done. apply ztake_ge. lia.
Qed.

Lemma substr_after a x b : valid (a ++ x :: b) -> substr (a ++ x :: b) (zlen a + 1) npos = b.
Proof.
  intros Hv. change (a ++ x :: b) with (a ++ [x] ++ b) in *. rewrite app_assoc in *.
  replace (zlen a + 1) with (zlen (a ++ [x])) by (by rewrite zlen_app). by apply substr_back.
Qed.

(** A search backwards that does not find [y] behind [x] ends before [x]. *)
Lemma last_before q x f y pos :
  x <> y -> valid (q ++ x :: f) -> zlen q <= pos -> y ∉ ztake (pos - zlen q) f ->
  find_last_of (q ++ x :: f) [y] pos = npos \/ find_last_of (q ++ x :: f) [y] pos < zlen q.
Proof.
  intros Hxy Hv Hp Hy. pose proof (zlen_nonneg q).
  destruct (find_last_of_spec (q ++ x :: f) [y] pos Hv) as [[-> _]|(H1 & H2 & (c & H3 & H4 & ->%list_elem_of_singleton) & _)]; [lia|by left|right].
  set (r := find_last_of _ _ _) in *. apply Z.nle_gt. intros Hr. unfold zlen in *. rewrite lookup_app_r in H4 by lia.
  destruct (Z.to_nat r - length q)%nat as [|k] eqn:Ek; cbn in H4; [congruence|]. apply Hy. unfold ztake.
  apply list_elem_of_lookup_2 with (i := k). rewrite lookup_take_Some. split; [done|lia].
Qed.

Definition special (p : bytes) : Prop := p = kCurrentDirectory \/ p = kParentDirectory.

Lemma final_position a b :
  valid (a ++ dot :: b) -> dot ∉ b -> ~ special (a ++ dot :: b) -> final_extension_separator_position (a ++ dot :: b) = zlen a.
Proof.
  intros Hv Hd Hs. unfold final_extension_separator_position. rewrite bool_decide_false by done. rewrite rfind_char_last.
  unfold valid in Hv. pose proof Hv as Hv'. rewrite zlen_app, zlen_cons in Hv'. pose proof (zlen_nonneg b). pose proof (zlen_nonneg a).
  apply last_char_some; [done|unfold npos; lia|]. by rewrite ztake_ge by (unfold npos; lia).
Qed.

Lemma no_position p : valid p -> dot ∉ p \/ special p -> final_extension_separator_position p = npos /\ extension_separator_position p = npos.
Proof.
  intros Hv H. assert (E : final_extension_separator_position p = npos); [|unfold extension_separator_position; by rewrite E].
  unfold final_extension_separator_position. destruct (bool_decide _) eqn:Eb; [done|]. apply bool_decide_eq_false in Eb.
  destruct H as [H|H]; [|done]. rewrite rfind_char_last. apply last_char_none; [done|done|]. unfold valid in Hv. by rewrite ztake_ge by (unfold npos; lia).
Qed.

(** The choice between the last dot and the one before it. *)
Definition pick (last_dot penultimate_dot : Z) (tail ext : bytes) : Z :=
  if existsb (lower_case_equals tail) kCommonDoubleExtensions then penultimate_dot
  else if existsb (lower_case_equals ext) kCommonDoubleExtensionSuffixes &&
          (last_dot - penultimate_dot <=? 5) && (1 <? last_dot - penultimate_dot)
       then penultimate_dot else last_dot.

Lemma pick_shift k last pen tail ext : pick (k + last) (k + pen) tail ext = k + pick last pen tail ext.
Proof. unfold pick. replace (k + last - (k + pen)) with (last - pen) by lia. by repeat case_match. Qed.

(** One dot in the last component. *)
Lemma position_one a b :
  valid (a ++ dot :: b) -> dot ∉ b -> ~ special (a ++ dot :: b) ->
  (a = [] \/ dot ∉ a \/ exists q f, a = q ++ sep :: f /\ (sep ∉ f) /\ (dot ∉ f)) ->
  extension_separator_position (a ++ dot :: b) = zlen a.
Proof.
  intros Hv Hd Hs Ha. unfold extension_separator_position. rewrite final_position by done. pose proof (zlen_nonneg a) as Ha0.
  pose proof Hv as Hv'. unfold valid in Hv'. rewrite zlen_app in Hv'. pose proof (zlen_nonneg (dot :: b)).
  destruct (Z.eqb_spec (zlen a) 0) as [E|E]; [by rewrite orb_true_r|]. rewrite (proj2 (Z.eqb_neq _ npos)) by (unfold npos; lia). cbn [orb].
  rewrite rfind_char_last. destruct Ha as [->|[Ha|(q & f & -> & Hf1 & Hf2)]]; [done|..].
  - rewrite last_char_none; [done|done|lia|]. by rewrite ztake_app_exact by lia.
  - assert (HL : zlen (q ++ sep :: f) = zlen q + 1 + zlen f) by (rewrite zlen_app, zlen_cons; lia). rewrite <- app_assoc in *. cbn [app] in *.
    set (L := zlen (q ++ sep :: f)) in *. pose proof (zlen_nonneg q). pose proof (zlen_nonneg f).
    assert (Et : ztake (L - 1 - zlen q) (f ++ dot :: b) = f) by (apply ztake_app_exact; lia).
    change kSeparators with [sep]. rewrite (last_char_some q sep); [|done|lia|rewrite Et; done].
    rewrite (proj2 (Z.eqb_neq (zlen q) npos)) by (unfold npos; lia). cbn [negb andb].
    destruct (last_before q sep (f ++ dot :: b) dot (L - 1)) as [-> |Hlt]; [done|done|lia|rewrite Et; done|done|].
    rewrite (proj2 (Z.ltb_lt _ _) Hlt). by rewrite orb_true_r.
Qed.

(** Two dots in the last component. *)
Lemma position_two a m b :
  valid (a ++ dot :: m ++ dot :: b) -> dot ∉ b -> dot ∉ m -> sep ∉ m -> ~ special (a ++ dot :: m ++ dot :: b) ->
  extension_separator_position (a ++ dot :: m ++ dot :: b) = pick (zlen a + 1 + zlen m) (zlen a) (m ++ dot :: b) b.
Proof.
  intros Hv Hb Hm Hsm Hs. assert (E : a ++ dot :: m ++ dot :: b = (a ++ dot :: m) ++ dot :: b) by (by rewrite <- app_assoc).
  assert (HL : zlen (a ++ dot :: m) = zlen a + 1 + zlen m) by (rewrite zlen_app, zlen_cons; lia).
  pose proof Hv as Hv'. unfold valid in Hv'. rewrite E, zlen_app, HL in Hv'. pose proof (zlen_nonneg (dot :: b)). pose proof (zlen_nonneg a). pose proof (zlen_nonneg m).
  assert (Et : ztake (zlen a + 1 + zlen m - 1 - zlen a) (m ++ dot :: b) = m) by (apply ztake_app_exact; lia).
  unfold extension_separator_position. rewrite E, final_position, HL, <- E by (by rewrite <- ?E). cbv zeta.
  rewrite (proj2 (Z.eqb_neq _ npos)), (proj2 (Z.eqb_neq _ 0)) by (unfold npos; lia). cbn [orb].
  rewrite rfind_char_last, (last_char_some a dot (m ++ dot :: b)); [|done|lia|rewrite Et; done].
  rewrite (proj2 (Z.eqb_neq (zlen a) npos)) by (unfold npos; lia). cbn [orb]. change kSeparators with [sep].
  replace (negb (find_last_of (a ++ dot :: m ++ dot :: b) [sep] (zlen a + 1 + zlen m - 1) =? npos)
           && (zlen a <? find_last_of (a ++ dot :: m ++ dot :: b) [sep] (zlen a + 1 + zlen m - 1))) with false.
  - rewrite substr_after by exact Hv. rewrite E, <- HL, substr_after by (by rewrite <- E). done.
  - symmetry. destruct (last_before a dot (m ++ dot :: b) sep (zlen a + 1 + zlen m - 1)) as [-> |Hlt]; [done|done|lia|rewrite Et; done|done|].
    rewrite (proj2 (Z.ltb_ge _ _)) by lia. apply andb_false_r.
Qed.

Lemma special_no_sep q f : ~ special (q ++ sep :: f).
Proof.
  assert (Hin : sep ∈ q ++ sep :: f) by (apply elem_of_app; right; left).
  intros [E|E]; rewrite E in Hin; unfold kCurrentDirectory, kParentDirectory in Hin; cbn in Hin; by repeat (apply elem_of_cons in Hin as [?|Hin]; [done|]); apply not_elem_of_nil in Hin.
Qed.

(** The position in a path and in its last component. *)
Lemma position_sub q f :
  valid (q ++ sep :: f) -> sep ∉ f -> extension_separator_position f <> npos ->
  extension_separator_position (q ++ sep :: f) = zlen q + 1 + extension_separator_position f.
Proof.
  intros Hv Hs Hp. assert (Hvf : valid f) by (apply valid_app_r in Hv; unfold valid in *; rewrite zlen_cons in Hv; lia).
  assert (Hsp : ~ special f) by (intros H; apply Hp; by apply no_position; [|right]).
  destruct (decide (dot ∈ f)) as [Hd|Hd]; [|by destruct Hp; apply no_position; [|left]].
  apply list_elem_of_split_r in Hd as (a & b & -> & Hb). apply not_elem_of_app in Hs as [Hsa Hsb]. pose proof (special_no_sep q (a ++ dot :: b)) as Hsp'.
  assert (HL : zlen (q ++ [sep]) = zlen q + 1) by (by rewrite zlen_app). rewrite <- HL.
  destruct (decide (dot ∈ a)) as [Ha|Ha].
  - apply list_elem_of_split_r in Ha as (a1 & m & -> & Hm). apply not_elem_of_app in Hsa as [_ [_ Hsm]%not_elem_of_cons].
    rewrite <- !app_assoc in *. cbn [app] in *. rewrite position_two by done.
    change (q ++ sep :: a1 ++ dot :: m ++ dot :: b) with (q ++ [sep] ++ a1 ++ dot :: m ++ dot :: b) in *. rewrite (app_assoc q), (app_assoc _ a1) in *.
    rewrite position_two by done. rewrite <- pick_shift, (zlen_app _ a1). f_equal. lia.
  - rewrite (position_one a b) by auto. change (q ++ sep :: a ++ dot :: b) with (q ++ (sep :: a) ++ dot :: b) in *. rewrite app_assoc in *.
    rewrite position_one; [rewrite zlen_app, zlen_cons, HL; lia|done..|]. right. right. by exists q, a.
Qed.

Lemma position_in f :
  valid f -> sep ∉ f -> extension_separator_position f <> npos -> exists a b, f = a ++ dot :: b /\ extension_separator_position f = zlen a.
Proof.
  intros Hv Hs Hp. assert (Hsp : ~ special f) by (intros H; apply Hp; by apply no_position; [|right]).
  destruct (decide (dot ∈ f)) as [Hd|Hd]; [|by destruct Hp; apply no_position; [|left]].
  apply list_elem_of_split_r in Hd as (a & b & -> & Hb). apply not_elem_of_app in Hs as [Hsa Hsb].
  destruct (decide (dot ∈ a)) as [Ha|Ha]; [|by exists a, b; rewrite position_one by auto].
  apply list_elem_of_split_r in Ha as (a1 & m & -> & Hm). apply not_elem_of_app in Hsa as [_ [_ Hsm]%not_elem_of_cons].
  assert (E : (a1 ++ dot :: m) ++ dot :: b = a1 ++ dot :: m ++ dot :: b) by (by rewrite <- app_assoc).
  assert (HL : zlen (a1 ++ dot :: m) = zlen a1 + 1 + zlen m) by (rewrite zlen_app, zlen_cons; lia).
  rewrite E in *. rewrite position_two by done. unfold pick.
  repeat case_match; [by exists a1, (m ++ dot :: b)..|]. by exists (a1 ++ dot :: m), b; rewrite E, HL.
Qed.

Lemma no_extension_kept p : extension p = [] -> remove_extension p = p.
Proof. intros E. unfold remove_extension. by rewrite E. Qed.

(** The name of a path whose last component is [f]. *)
Lemma extension_of_name q f :
  path_ok (q ++ f) -> sep ∉ f -> q = [] \/ (exists q', q = q' ++ [sep]) -> basename (q ++ f) = f ->
  remove_extension (q ++ f) ++ extension (q ++ f) = q ++ f.
Proof.
  intros [Hv Hn] Hs Hq Hb. assert (Hvf : valid f) by (by apply valid_app_r in Hv).
  destruct (decide (extension_separator_position f = npos)) as [E|E].
  - assert (Ee : extension (q ++ f) = []) by (unfold extension; rewrite Hb, E; done). by rewrite no_extension_kept, Ee, app_nil_r.
  - destruct (position_in f Hvf Hs E) as (a & b & Ef & Ea). assert (Ee : extension (q ++ f) = dot :: b).
    { unfold extension. rewrite Hb, (proj2 (Z.eqb_neq _ _) E), Ea, Ef. apply substr_back. by rewrite <- Ef. }
    assert (Ep : extension_separator_position (q ++ f) = zlen (q ++ a)).
    { rewrite zlen_app, <- Ea. destruct Hq as [->|(q' & ->)]; [done|]. rewrite <- app_assoc in *. cbn [app] in *. rewrite position_sub, zlen_app by done. done. }
    unfold remove_extension. rewrite Ee, Ep. rewrite Ef, app_assoc in Hv, Hn |- *.
    pose proof (zlen_nonneg b). rewrite (proj2 (Z.eqb_neq (zlen (dot :: b)) 0)) by (rewrite zlen_cons; lia).
    pose proof Hv as Hv'. unfold valid in Hv'. rewrite zlen_app, zlen_cons in Hv'. rewrite (proj2 (Z.eqb_neq _ npos)) by (unfold npos; lia).
    rewrite substr_front by done. rewrite make_file_path_id; [done|by eapply valid_app_l|]. by apply not_elem_of_app in Hn as [? _].
Qed.

(** A path that ends in a component, not in separators. *)
Lemma stripped_shape p :
  strip p = p -> (exists n, p = seps n) \/ segment p \/ exists q f, p = (q ++ [sep]) ++ f /\ segment f.
Proof.
  intros E. destruct (path_shape p) as [n ->|f j Hf ->|n f j Hn Hf ->|h c i f j Hc Hf ->].
  - left. by exists n.
  - right. left. rewrite strip_bare in E by done. by rewrite <- E.
  - right. right. rewrite strip_path in E by done. rewrite <- E. destruct n as [|k]; [lia|]. exists (seps k), f. by rewrite seps_end.
  - right. right. rewrite (app_assoc (h ++ [c])), strip_path in E by done. rewrite (app_assoc (h ++ [c])), <- E. exists ((h ++ [c]) ++ seps i), f.
    by rewrite seps_end, app_assoc.
Qed.

Lemma extension_root n : path_ok (seps n) -> extension (seps n) = [].
Proof.
  intros Hok. destruct n as [|n]; [done|]. unfold extension. rewrite basename_seps by (done || lia). by destruct n as [|[|n]].
Qed.

Lemma extension_split p : path_ok p -> strip p = p -> remove_extension p ++ extension p = p.
Proof.
  intros Hok E. destruct (stripped_shape p E) as [(n & ->)|[Hf|(q & f & -> & Hf)]].
  - rewrite no_extension_kept, extension_root, app_nil_r by (by rewrite ?extension_root). done.
  - apply (extension_of_name [] p); [done|apply Hf|by left|]. pose proof (basename_bare p 0) as H. rewrite app_nil_r in H. by apply H.
  - apply extension_of_name; [done|apply Hf|right; by eexists|]. pose proof (basename_sub q f 0) as H. rewrite !app_nil_r in H. rewrite <- app_assoc in *. by apply H.
Qed.

Lemma not_special_end a e : e <> [] -> dot ∉ e -> ~ special (a ++ dot :: e).
Proof.
  intros He Hd. destruct (exists_last He) as (e' & c & ->). apply not_elem_of_app in Hd as [_ [Hc _]%not_elem_of_cons].
  rewrite app_comm_cons, app_assoc. intros [E|E]; [apply (app_inj_tail _ []) in E as [_ E]|apply (app_inj_tail _ [dot]) in E as [_ E]]; apply Hc; symmetry; exact E.
Qed.

(** The base name when text is appended to the last component. *)
Lemma basename_grow p x : path_ok (p ++ x) -> segment x -> exists f, basename (p ++ x) = f ++ x.
Proof.
  intros Hok [Hx Hs]. assert (Hseg : forall f, sep ∉ f -> segment (f ++ x)).
  { intros f Hf. split; [by destruct f|by apply not_elem_of_app]. }
  destruct (decide (sep ∈ p)) as [Hp|Hp].
  - apply list_elem_of_split_r in Hp as (q & f & -> & Hf). exists f. pose proof (basename_sub q (f ++ x) 0) as H. rewrite app_nil_r in H.
    rewrite <- app_assoc in *. by apply H; [|apply Hseg].
  - exists p. pose proof (basename_bare (p ++ x) 0) as H. rewrite app_nil_r in H. by apply H; [|apply Hseg].
Qed.

Lemma final_extension_grow p e :
  path_ok (p ++ dot :: e) -> segment e -> dot ∉ e ->
  final_extension (p ++ dot :: e) = dot :: e /\ remove_final_extension (p ++ dot :: e) = p.
Proof.
  intros [Hv Hn] [He Hs] Hd.
  destruct (basename_grow p (dot :: e)) as [f Hf]; [done|split; [done|by apply not_elem_of_cons]|].
  assert (Hvf : valid (f ++ dot :: e)).
  { rewrite <- Hf. unfold valid in *. eapply Z.le_lt_trans; [|exact Hv]. by apply basename_ok. }
  assert (E : final_extension (p ++ dot :: e) = dot :: e).
  { unfold final_extension. rewrite Hf, final_position; [|done|done|by apply not_special_end].
    unfold valid in Hvf. rewrite zlen_app in Hvf. pose proof (zlen_nonneg (dot :: e)).
    rewrite (proj2 (Z.eqb_neq _ npos)) by (unfold npos; lia). apply substr_back. unfold valid. by rewrite zlen_app. }
  split; [done|]. unfold remove_final_extension. rewrite E. rewrite final_position; [|done|done|by apply not_special_end].
  unfold valid in Hv. pose proof Hv as Hv'. rewrite zlen_app, zlen_cons in Hv'. pose proof (zlen_nonneg e).
  rewrite (proj2 (Z.eqb_neq (zlen (dot :: e)) 0)) by (rewrite zlen_cons; lia).
  rewrite (proj2 (Z.eqb_neq _ npos)) by (unfold npos; lia). rewrite substr_front by done.
  apply make_file_path_id; [by eapply valid_app_l|]. by apply not_elem_of_app in Hn as [? _].
Qed.

Lemma add_extension_dot p e :
  path_ok (p ++ dot :: e) -> e <> [] -> is_empty_or_special_case (basename p) = false -> add_extension (dot :: e) p = p ++ dot :: e.
Proof.
  intros [Hv Hn] He Hb. unfold add_extension, no_extension. rewrite Hb. pose proof (zlen_pos e He).
  rewrite (proj2 (Z.eqb_neq (zlen (dot :: e)) 0)), (proj2 (Z.eqb_neq (zlen (dot :: e)) 1)) by (rewrite zlen_cons; lia). cbn [orb andb].
  change (char_of (dot :: e) 0) with dot. rewrite bool_decide_true by done. cbn [negb andb]. rewrite append_to_string_app. by apply make_file_path_id.
Qed.

(** *** Every operation yields a path *)

Lemma zslice_le (s : bytes) i n : zlen (zslice i n s) <= zlen s.
Proof. unfold zlen, zslice, ztake, zdrop. rewrite length_take, length_drop. lia. Qed.

Lemma make_path_ok s : valid s -> path_ok (make_file_path s).
Proof.
  intros Hv. destruct (make_file_path_nul_free s Hv) as [Hn [r E]]. split; [|done]. rewrite E in Hv. by eapply valid_app_l.
Qed.

Lemma make_substr_ok s i n : valid s -> path_ok (make_file_path (substr s i n)).
Proof. intros Hv. apply make_path_ok. unfold valid, substr in *. cbv zeta. eapply Z.le_lt_trans; [apply zslice_le|exact Hv]. Qed.

Lemma remove_extension_ok p : path_ok p -> path_ok (remove_extension p) /\ path_ok (remove_final_extension p).
Proof.
  intros Hok. unfold remove_extension, remove_final_extension.
  split; repeat case_match; try done; apply make_substr_ok, Hok.
Qed.

Lemma make_le s : valid s -> zlen (make_file_path s) <= zlen s.
Proof. intros Hv. destruct (make_file_path_nul_free s Hv) as [_ [r E]]. rewrite E at 2. rewrite zlen_app. pose proof (zlen_nonneg r). lia. Qed.

Lemma remove_extension_le p : path_ok p -> zlen (remove_extension p) <= zlen p.
Proof.
  intros [Hv Hn]. unfold remove_extension. repeat case_match; try done. 
  etransitivity; [apply make_le; unfold valid, substr in *; eapply Z.le_lt_trans; [apply zslice_le|exact Hv]|]. apply zslice_le.
Qed.

Lemma extension_le p : path_ok p -> zlen (extension p) <= zlen p.
Proof.
  intros Hok. destruct (basename_ok p Hok) as [_ H]. unfold extension. case_match; [pose proof (zlen_nonneg p); done|].
  etransitivity; [|exact H]. apply zslice_le.
Qed.

(** The part of a component before its first NUL. *)
Lemma appended_ok c :
  valid c ->
  path_ok (if negb (find_char c Byte.x00 0 =? npos) then substr c 0 (find_char c Byte.x00 0) else c).
Proof.
  intros Hv. destruct (decide (Byte.x00 ∈ c)) as [Hin|Hn]; [|by rewrite find_nul].
  apply list_elem_of_split_l in Hin as (a & b & -> & Ha). rewrite find_nul_some by done.
  pose proof Hv as Hv'. unfold valid in Hv'. rewrite zlen_app in Hv'. pose proof (zlen_nonneg (Byte.x00 :: b)).
  rewrite (proj2 (Z.eqb_neq _ npos)) by (unfold npos; lia). cbn [negb]. rewrite substr_front by done. split; [by eapply valid_app_l|done].
Qed.

Lemma path_append_ok c p q : path_ok p -> valid c -> append c p = Ok q -> nul_free q.
Proof.
  intros Hp Hc. unfold append. pose proof (appended_ok c Hc) as Ha. cbv zeta. set (a := if negb _ then _ else _) in *. clearbody a.
  destruct (is_path_absolute a); [done|]. cbn [negb check mbind outcome_bind]. case_match; intros [= <-]; [by apply make_path_ok, Ha|].
  rewrite make_file_path_id by apply Hp. destruct (strip_ok p Hp) as [[_ Hs] _]. rewrite append_to_string_app.
  apply not_elem_of_app. split; [|apply Ha]. case_match; [|done]. apply not_elem_of_app. split; [done|]. by intros ?%list_elem_of_singleton.
Qed.

Lemma components_ok p : path_ok p -> Forall path_ok (components p).
Proof.
  intros Hok. assert (Hs : Forall path_ok (segments p)) by (eapply Forall_impl; [apply segments_good, Hok|]; by intros ? [_ ?]).
  unfold components. destruct (leading p) as [|n]; destruct (segments p) as [|s ss]; [done| |constructor; [apply seps_ok|done]|constructor; [apply seps_ok|done]].
  - case_match; [by inversion Hs|done].
  - by destruct n as [|[|n]].
  - by destruct n as [|[|[|n]]].
Qed.

(** *** References to the parent *)

Lemma segs_infix cur p s : s ∈ segs cur p -> exists a b, cur ++ p = a ++ s ++ b.
Proof.
  revert cur. induction p as [|c p IH]; intros cur Hs; cbn in Hs.
  - destruct cur as [|d cur]; [by apply not_elem_of_nil in Hs|]. apply list_elem_of_singleton in Hs as ->. by exists [], [].
  - destruct (is_separator c); cycle 1.
    { apply IH in Hs as (a & b & E). exists a, b. by rewrite <- E, <- app_assoc. }
    apply elem_of_app in Hs as [Hs|Hs].
    + destruct cur as [|d cur]; [by apply not_elem_of_nil in Hs|]. apply list_elem_of_singleton in Hs as ->. by exists [], (c :: p).
    + apply IH in Hs as (a & b & E). exists (cur ++ c :: a), b. cbn in E. by rewrite E, <- app_assoc.
Qed.

Lemma occurs_infix a s b x i : occurs_at s x i -> occurs_at (a ++ s ++ b) x (zlen a + i).
Proof.
  intros (H1 & H2 & H3). pose proof (zlen_nonneg a). pose proof (zlen_nonneg b). pose proof (zlen_nonneg x). unfold occurs_at.
  rewrite !zlen_app. split_and!; [lia|lia|]. unfold zslice in *. rewrite zdrop_app_ge by lia. replace (zlen a + i - zlen a) with i by lia.
  rewrite zdrop_app_le by lia. rewrite ztake_app_le by (rewrite zlen_zdrop; lia). done.
Qed.

(** A component of white space and dots with two dots in a row. *)
Definition climbs (c : bytes) : Prop :=
  Forall (fun d => d ∈ txt ". " ++ [Byte.x0a; Byte.x0d; Byte.x09]) c /\ exists i, occurs_at c kParentDirectory i.

Lemma only_from c s : valid c -> s <> [] -> find_first_not_of c s 0 = npos <-> Forall (fun d => d ∈ s) c.
Proof.
  intros Hv Hs. destruct (find_first_not_of_spec c s 0 Hv) as [[-> H]|(_ & H1 & (d & _ & H3 & H4) & _)]; [done|by left|..].
  - split; [|done]. intros _. apply Forall_lookup. intros i d Hd. destruct (decide (d ∈ s)) as [|Hn]; [done|]. destruct (H (Z.of_nat i)); [lia|].
    exists d. rewrite Nat2Z.id. split_and!; [lia|done|done].
  - split; [done|]. intros H. rewrite Forall_lookup in H. by apply H in H3.
Qed.

Lemma found_in c : valid c -> find c kParentDirectory 0 <> npos <-> exists i, occurs_at c kParentDirectory i.
Proof.
  intros Hv. destruct (find_spec c kParentDirectory 0 Hv) as [[-> H]|(_ & H1 & H2 & _)]; [done|done|..].
  - split; [done|]. intros [i Hi]. destruct (H i); [by destruct Hi|done].
  - split; [by eexists|done].
Qed.

Lemma sep_not_climbing : sep ∉ txt ". " ++ [Byte.x0a; Byte.x0d; Byte.x09].
Proof. by apply (bool_decide_unpack _). Qed.

Lemma climbs_segment p c : path_ok p -> c ∈ components p -> climbs c -> valid c /\ exists i, occurs_at p kParentDirectory i.
Proof.
  intros Hok Hin [Hc [i Hi]]. assert (Hs : c ∈ segments p).
  { assert (Hr : forall n, c <> seps (S n)) by (intros n ->; by apply Forall_cons in Hc as [Hc%sep_not_climbing _]).
    unfold components in Hin. destruct (leading p); destruct (segments p) as [|s ss]; [done| | |].
    - case_match; [by right|done].
    - apply list_elem_of_singleton in Hin as ->. unfold root_of in Hr. by destruct n as [|[|n]]; [destruct (Hr 0%nat)|destruct (Hr 1%nat)|destruct (Hr 0%nat)].
    - apply elem_of_cons in Hin as [->|?]; [|done]. unfold root_before in Hr.
      by destruct n as [|[|[|n]]]; [destruct (Hr 0%nat)|destruct (Hr 1%nat)|destruct (Hr 1%nat)|destruct (Hr 0%nat)]. }
  apply segs_infix in Hs as (a & b & E). cbn in E. subst p. split; [|eexists; by apply occurs_infix].
  apply path_ok_app in Hok as [_ [[Hv _] _]%path_ok_app]. done.
Qed.

Lemma references_parent_ok p : path_ok p -> exists b, references_parent p = Ok b /\ (b = true <-> exists c, (c ∈ components p) /\ climbs c).
Proof.
  intros Hok. pose proof (components_ok p Hok) as Hcs. rewrite Forall_forall in Hcs. unfold references_parent.
  destruct (Z.eqb_spec (find p kParentDirectory 0) npos) as [E|E].
  - exists false. split; [done|]. split; [done|]. intros (c & Hin & Hc). destruct (climbs_segment p c Hok Hin Hc) as [_ H].
    apply found_in in H; [done|apply Hok].
  - rewrite get_components_ok by done. cbn [mbind outcome_bind]. eexists. split; [reflexivity|]. rewrite existsb_exists.
    split; intros (c & Hin & Hc); exists c; (split; [by apply list_elem_of_In|]); [apply list_elem_of_In in Hin|]; destruct (Hcs c Hin) as [Hv _].
    + apply andb_true_iff in Hc as [H1%Z.eqb_eq H2%negb_true_iff%Z.eqb_neq]. split; [by apply only_from|by apply found_in].
    + destruct Hc as [H1 H2]. apply andb_true_iff. split; [apply Z.eqb_eq; by apply only_from|]. apply negb_true_iff, Z.eqb_neq. by apply found_in.
Qed.

(** ** Examples *)

(** Three separators in front of a component count as the alternate root, while on their own they are the root. *)
Example three_separators :
  dirname (txt "///foo") = txt "//" /\ dirname (txt "////foo") = txt "/" /\ dirname (txt "///") = txt "/".
Proof. by vm_compute. Qed.

(** With a trailing separator the extension is not the one that is removed. *)
Example extension_trailing_separator :
  extension (txt "foo.tar/") = txt ".tar" /\ remove_extension (txt "foo.tar/") = txt "foo"
  /\ remove_extension (txt "foo.tar/") ++ extension (txt "foo.tar/") <> txt "foo.tar/".
Proof. by vm_compute. Qed.

(** The current directory has no components, but it has one when it is written with a separator. *)
Example current_directory_components :
  get_components (txt ".") = Ok [] /\ get_components (txt "./") = Ok [txt "."] /\ get_components (txt "./a") = Ok [txt "a"].
Proof. by vm_compute. Qed.

(** Joining an absolute component is a failed check. *)
Example append_absolute : append (txt "/b") (txt "a") = Fault (CheckFailed "append: is_path_absolute").
Proof. by vm_compute. Qed.

Example double_extension :
  extension (txt "a/b.tar.gz") = txt ".tar.gz" /\ final_extension (txt "a/b.tar.gz") = txt ".gz"
  /\ replace_extension (txt "zip") (txt "a/b.tar.gz") = txt "a/b.zip" /\ insert_before_extension (txt "1") (txt "a/b.tar.gz") = txt "a/b1.tar.gz".
Proof. by vm_compute. Qed.

(** ** Properties *)

(** A path holds no NUL byte: the constructor cuts its argument at the first one, and every operation on a
    path without NUL bytes gives paths and components without them, whatever string it is given. *)
Theorem paths_nul_free (p : bytes) (s : StringPiece) :
  path_ok p -> 2 * zlen p + zlen s + 2 < 2 ^ 63 ->
  nul_free (make_file_path s) /\ nul_free (dirname p) /\ nul_free (basename p) /\ nul_free (strip_trailing_separators p)
  /\ nul_free (as_ending_with_separator p) /\ nul_free (remove_extension p) /\ nul_free (remove_final_extension p)
  /\ nul_free (insert_before_extension s p) /\ nul_free (add_extension s p) /\ nul_free (replace_extension s p)
  /\ (forall q, append s p = Ok q -> nul_free q) /\ (forall cs, get_components p = Ok cs -> Forall nul_free cs).
Proof.
  intros Hok Hlen. pose proof (zlen_nonneg p). pose proof (zlen_nonneg s). assert (Hs : valid s) by (unfold valid; lia).
  destruct (remove_extension_ok p Hok) as [Hr1 Hr2]. pose proof (remove_extension_le p Hok). pose proof (extension_le p Hok).
  assert (Hsmall : forall x, valid x -> nul_free (make_file_path x)) by (intros x Hx; by apply make_path_ok).
  split_and!.
  - by apply Hsmall.
  - by apply dirname_ok.
  - by apply basename_ok.
  - unfold strip_trailing_separators. rewrite make_file_path_id by apply Hok. by apply strip_ok.
  - unfold as_ending_with_separator. case_match; [apply Hok|]. apply Hsmall. unfold valid. rewrite zlen_app. change (zlen [_]) with 1. lia.
  - apply Hr1.
  - apply Hr2.
  - unfold insert_before_extension. rewrite append_to_string_app. destruct (zlen s =? 0); [apply Hsmall, Hok|]. destruct (is_empty_or_special_case _); [apply nil_ok|].
    apply Hsmall. unfold valid. rewrite !zlen_app. lia.
  - unfold add_extension. rewrite append_to_string_app. repeat case_match; try apply nil_ok; try apply Hok; apply Hsmall; unfold valid; rewrite !zlen_app;
      change (zlen [_]) with 1; lia.
  - unfold replace_extension. rewrite append_to_string_app. repeat case_match; try apply nil_ok; try apply Hr1; apply Hsmall; unfold valid; rewrite !zlen_app;
      change (zlen [_]) with 1; lia.
  - intros q. by apply path_append_ok.
  - intros cs. rewrite get_components_ok by done. intros [= <-]. eapply Forall_impl; [by apply components_ok|]. by intros ? [_ ?].
Qed.

Lemma paths_nul_free_witness : nul_free (add_extension (txt "tx" ++ [Byte.x00]) (txt "a/b")).
Proof.
  assert (H0 : path_ok (txt "a/b")); [|assert (H1 : 2 * zlen (txt "a/b") + zlen (txt "tx" ++ [Byte.x00]) + 2 < 2 ^ 63) by (vm_compute; reflexivity);
    exact (proj1 (proj2 (proj2 (proj2 (proj2 (proj2 (proj2 (proj2 (proj2 (paths_nul_free (txt "a/b") (txt "tx" ++ [Byte.x00]) H0 H1)))))))))) ].
  split; [vm_compute; reflexivity|]. apply (bool_decide_unpack (Byte.x00 ∉ txt "a/b")). vm_compute. exact I.
Defined.

(** C38. [get_components] ends on every path, however many separators it has, and returns the root and the maximal runs
    without separators, leaving out a leading "."; [references_parent], with its shortcut, finds exactly the
    components of dots and white space that contain "..". *)
Theorem components_correct (p : bytes) :
  path_ok p ->
  get_components p = Ok (components p)
  /\ exists b, references_parent p = Ok b /\ (b = true <-> exists c, (c ∈ components p) /\ climbs c).
Proof. intros Hok. split; [by apply get_components_ok|by apply references_parent_ok]. Qed.

Lemma components_correct_witness : get_components (txt "//a/./b///..//") = Ok [txt "//"; txt "a"; txt "."; txt "b"; txt ".."].
Proof.
  destruct (components_correct (txt "//a/./b///..//")) as [H _]; [|rewrite H; vm_compute; reflexivity].
  split; [vm_compute; reflexivity|]. apply (bool_decide_unpack (Byte.x00 ∉ txt "//a/./b///..//")). vm_compute. exact I.
Defined.

(** [append] of a component never fails, and taking it apart again gives back the component as the base name and the
    stripped path as the directory ("." for an empty path); the components are those of the path and the new one. *)
Theorem append_roundtrip (p c : bytes) :
  path_ok p -> path_ok c -> segment c -> zlen p + zlen c + 1 < 2 ^ 63 ->
  exists p', append c p = Ok p' /\ basename p' = c /\ dirname p' = directory p /\ strip_trailing_separators p' = p'
    /\ (c <> kCurrentDirectory -> get_components p' = Ok (components (strip_trailing_separators p) ++ [c])).
Proof.
  intros Hp Hc Hf Hl. destruct (append_segment p c Hp Hc Hf Hl) as (p' & E & Hok & _ & Hs & Hb & Hd & Hcs).
  assert (Hid : forall x, path_ok x -> strip_trailing_separators x = strip x).
  { intros x [Hv Hn]. unfold strip_trailing_separators. by rewrite make_file_path_id. }
  exists p'. rewrite !Hid, get_components_ok by done. split_and!; [done..|]. intros Hne. by rewrite Hcs.
Qed.

Lemma append_roundtrip_witness : exists p', append (txt "b.c") (txt "/a//") = Ok p' /\ basename p' = txt "b.c" /\ dirname p' = txt "/a".
Proof.
  destruct (append_roundtrip (txt "/a//") (txt "b.c")) as (p' & H1 & H2 & H3 & _).
  - split; [vm_compute; reflexivity|]. apply (bool_decide_unpack (Byte.x00 ∉ txt "/a//")). vm_compute. exact I.
  - split; [vm_compute; reflexivity|]. apply (bool_decide_unpack (Byte.x00 ∉ txt "b.c")). vm_compute. exact I.
  - split; [discriminate|]. apply (bool_decide_unpack (sep ∉ txt "b.c")). vm_compute. exact I.
  - vm_compute. reflexivity.
  - exists p'. split; [exact H1|]. split; [exact H2|]. rewrite H3. vm_compute. reflexivity.
Defined.

(** [is_parent] holds exactly when the path has components and they are a proper prefix of the child's;
    [append_relative_path] then appends the remaining components to the path it is given, and otherwise
    leaves that path as it was. *)
Theorem relative_path_correct (p child : bytes) :
  path_ok p -> path_ok child ->
  (forall rest, components p <> [] -> rest <> [] -> components child = components p ++ rest ->
     is_parent child p = Ok true
     /\ forall t, path_ok t -> zlen t + zlen child + 2 < 2 ^ 63 -> kCurrentDirectory ∉ rest ->
        exists t', append_relative_path child (Some t) p = Ok (true, Some t')
          /\ get_components t' = Ok (components (strip_trailing_separators t) ++ rest))
  /\ (~ (exists rest, components p <> [] /\ rest <> [] /\ components child = components p ++ rest) ->
      is_parent child p = Ok false /\ forall t, append_relative_path child t p = Ok (false, t)).
Proof.
  intros Hp Hc. split.
  - intros rest H0 H1 E. destruct (components_tail child _ _ Hc E H0) as [Hg Hr].
    unfold is_parent. rewrite (relative_yes p child None rest) by done. split; [done|]. intros t Ht Hl Hd.
    rewrite (relative_yes p child (Some t) rest) by done. destruct rest as [|c rest]; [done|]. cbn [append_all room] in *.
    apply Forall_cons in Hg as [[Hc1 Hc2] Hg]. apply not_elem_of_cons in Hd as [Hd1 Hd]. pose proof (room_nonneg rest).
    destruct (append_segment t c) as (t1 & -> & Hok & Hl1 & Hs1 & _ & _ & Hcomp); [done..|lia|].
    destruct (append_all_ok rest t1) as (t' & E' & Hok' & Hcs); [done..|lia|]. cbn [mbind outcome_bind]. rewrite E'. cbn [mbind outcome_bind].
    exists t'. split; [done|]. rewrite get_components_ok, Hcs, Hcomp, <- app_assoc by done.
    unfold strip_trailing_separators. by rewrite make_file_path_id by apply Ht.
  - intros Hno. unfold is_parent. rewrite relative_no by done. split; [done|]. intros t. by apply relative_no.
Qed.

Lemma relative_path_correct_witness :
  is_parent (txt "/a//b/c") (txt "/a/") = Ok true
  /\ exists t', append_relative_path (txt "/a//b/c") (Some (txt "x/")) (txt "/a/") = Ok (true, Some t')
       /\ get_components t' = Ok [txt "x"; txt "b"; txt "c"].
Proof.
  assert (Hok : path_ok (txt "/a/") /\ path_ok (txt "/a//b/c") /\ path_ok (txt "x/")).
  { repeat split; try (vm_compute; reflexivity); apply (bool_decide_unpack (Byte.x00 ∉ _)); vm_compute; exact I. }
  destruct Hok as (H1 & H2 & H3). destruct (relative_path_correct (txt "/a/") (txt "/a//b/c") H1 H2) as [H _].
  destruct (H [txt "b"; txt "c"]) as [H4 H5]; [discriminate|discriminate|vm_compute; reflexivity|]. split; [exact H4|].
  destruct (H5 (txt "x/") H3) as (t' & E1 & E2); [vm_compute; reflexivity| |exists t'; split; [exact E1|]; rewrite E2; vm_compute; reflexivity].
  apply (bool_decide_unpack (kCurrentDirectory ∉ [txt "b"; txt "c"])). vm_compute. exact I.
Defined.

(** For a path without trailing separators the path is what remains without its extension, followed by the extension,
    double extensions included; and adding a final extension to a path with a name and removing it
    again gives back the path. *)
Theorem extension_roundtrip (p : bytes) :
  path_ok p ->
  (strip_trailing_separators p = p -> remove_extension p ++ extension p = p)
  /\ forall e, path_ok (p ++ kExtensionSeparator :: e) -> segment e -> kExtensionSeparator ∉ e -> is_empty_or_special_case (basename p) = false ->
     final_extension (add_extension (kExtensionSeparator :: e) p) = kExtensionSeparator :: e
     /\ remove_final_extension (add_extension (kExtensionSeparator :: e) p) = p.
Proof.
  intros Hok. split.
  - unfold strip_trailing_separators. rewrite make_file_path_id by apply Hok. by apply extension_split.
  - intros e He Hs Hd Hb. rewrite add_extension_dot by (done || apply Hs). by apply final_extension_grow.
Qed.

Lemma extension_roundtrip_witness :
  remove_extension (txt "d.e/a.tar.gz") ++ extension (txt "d.e/a.tar.gz") = txt "d.e/a.tar.gz"
  /\ remove_final_extension (add_extension (txt ".bak") (txt "d.e/a.tar.gz")) = txt "d.e/a.tar.gz".
Proof.
  destruct (extension_roundtrip (txt "d.e/a.tar.gz")) as [H1 H2].
  - split; [vm_compute; reflexivity|]. apply (bool_decide_unpack (Byte.x00 ∉ txt "d.e/a.tar.gz")). vm_compute. exact I.
  - split; [apply H1; vm_compute; reflexivity|]. apply (H2 (txt "bak")).
    + split; [vm_compute; reflexivity|]. apply (bool_decide_unpack (Byte.x00 ∉ txt "d.e/a.tar.gz.bak")). vm_compute. exact I.
    + split; [discriminate|]. apply (bool_decide_unpack (sep ∉ txt "bak")). vm_compute. exact I.
    + apply (bool_decide_unpack (kExtensionSeparator ∉ txt "bak")). vm_compute. exact I.
    + vm_compute. reflexivity.
Defined.
