(* ===== verification/File.v ===== *)
(** * File (include/files/File.h, src/File.cc, include/EintrWrapper.h, include/ScopedFile.h)

    The wrapper of a file descriptor.  Behind the descriptor is an open file: its bytes, the position and whether it was opened for appending;
    behind that are the names, the files and the descriptors of the [kernel].  What the kernel does is the documented behaviour of the calls, with a script of
    [wish]es that says of each call whether it fails and how many bytes it moves at most; when the script
    ends, calls transfer all they can.

    The file shows that the reading and writing loops transfer everything despite partial transfers and interruptions, and report exactly
    what they transferred otherwise, and how the flags of [initialize] open, create and truncate files. *)

From S2P Require Import Prelude StringPiece FilePath.

(** ** Definitions *)

Definition EPERM : Z := 1.
Definition ENOENT : Z := 2.
Definition EINTR : Z := 4.
Definition EIO : Z := 5.
Definition EBADF : Z := 9.
Definition ENOMEM : Z := 12.
Definition EACCES : Z := 13.
Definition EBUSY : Z := 16.
Definition EEXIST : Z := 17.
Definition ENOTDIR : Z := 20.
Definition EISDIR : Z := 21.
Definition EINVAL : Z := 22.
Definition ENFILE : Z := 23.
Definition EMFILE : Z := 24.
Definition ETXTBSY : Z := 26.
Definition ENOSPC : Z := 28.
Definition EROFS : Z := 30.

Inductive Error : Type :=
| FILE_OK | FILE_ERROR_FAILED | FILE_ERROR_IN_USE | FILE_ERROR_EXISTS | FILE_ERROR_NOT_FOUND | FILE_ERROR_ACCESS_DENIED
| FILE_ERROR_TOO_MANY_OPENED | FILE_ERROR_NO_MEMORY | FILE_ERROR_NO_SPACE | FILE_ERROR_NOT_A_DIRECTORY
| FILE_ERROR_INVALID_OPERATION | FILE_ERROR_SECURITY | FILE_ERROR_ABORT | FILE_ERROR_NOT_A_FILE | FILE_ERROR_NOT_EMPTY
| FILE_ERROR_INVALID_URL | FILE_ERROR_IO | FILE_ERROR_MAX.

#[global] Instance Error_eq_dec : EqDecision Error.
Proof. solve_decision. Defined.

Definition os_error_to_file_error (saved_errno : Z) : outcome Error :=
  if bool_decide (saved_errno ∈ [EACCES; EISDIR; EROFS; EPERM]) then Ok FILE_ERROR_ACCESS_DENIED
  else if bool_decide (saved_errno ∈ [EBUSY; ETXTBSY]) then Ok FILE_ERROR_IN_USE
  else if saved_errno =? EEXIST then Ok FILE_ERROR_EXISTS
  else if saved_errno =? EIO then Ok FILE_ERROR_IO
  else if saved_errno =? ENOENT then Ok FILE_ERROR_NOT_FOUND
  else if bool_decide (saved_errno ∈ [ENFILE; EMFILE]) then Ok FILE_ERROR_TOO_MANY_OPENED
  else if saved_errno =? ENOMEM then Ok FILE_ERROR_NO_MEMORY
  else if saved_errno =? ENOSPC then Ok FILE_ERROR_NO_SPACE
  else if saved_errno =? ENOTDIR then Ok FILE_ERROR_NOT_A_DIRECTORY
  else check (negb (0 =? saved_errno)) "os_error_to_file_error";; Ok FILE_ERROR_FAILED.

Definition error_to_string (error : Error) : outcome bytes :=
  match error with
  | FILE_OK => Ok (txt "FILE_OK")
  | FILE_ERROR_FAILED => Ok (txt "FILE_ERROR_FAILED")
  | FILE_ERROR_IN_USE => Ok (txt "FILE_ERROR_IN_USE")
  | FILE_ERROR_EXISTS => Ok (txt "FILE_ERROR_EXISTS")
  | FILE_ERROR_NOT_FOUND => Ok (txt "FILE_ERROR_NOT_FOUND")
  | FILE_ERROR_ACCESS_DENIED => Ok (txt "FILE_ERROR_ACCESS_DENIED")
  | FILE_ERROR_TOO_MANY_OPENED => Ok (txt "FILE_ERROR_TOO_MANY_OPENED")
  | FILE_ERROR_NO_MEMORY => Ok (txt "FILE_ERROR_NO_MEMORY")
  | FILE_ERROR_NO_SPACE => Ok (txt "FILE_ERROR_NO_SPACE")
  | FILE_ERROR_NOT_A_DIRECTORY => Ok (txt "FILE_ERROR_NOT_A_DIRECTORY")
  | FILE_ERROR_INVALID_OPERATION => Ok (txt "FILE_ERROR_INVALID_OPERATION")
  | FILE_ERROR_SECURITY => Ok (txt "FILE_ERROR_SECURITY")
  | FILE_ERROR_ABORT => Ok (txt "FILE_ERROR_ABORT")
  | FILE_ERROR_NOT_A_FILE => Ok (txt "FILE_ERROR_NOT_A_FILE")
  | FILE_ERROR_NOT_EMPTY => Ok (txt "FILE_ERROR_NOT_EMPTY")
  | FILE_ERROR_INVALID_URL => Ok (txt "FILE_ERROR_INVALID_URL")
  | FILE_ERROR_IO => Ok (txt "FILE_ERROR_IO")
  | FILE_ERROR_MAX => Fault (CheckFailed "error_to_string: NOTREACHED")
  end.

(** *** Open files *)

Definition O_RDONLY : Z := 0.
Definition O_WRONLY : Z := 1.
Definition O_RDWR : Z := 2.
Definition O_ACCMODE : Z := 3.
Definition O_CREAT : Z := 64.
Definition O_EXCL : Z := 128.
Definition O_NOCTTY : Z := 256.
Definition O_TRUNC : Z := 512.
Definition O_APPEND : Z := 1024.
Definition O_NDELAY : Z := 2048.

(** An open file: its bytes, the position, and the flags of [open]. *)
Record ofile : Type := mkOfile { f_data : bytes; f_pos : Z; f_flags : Z }.

Definition has (flags mask : Z) : bool := negb (Z.land flags mask =? 0).
Definition readable (f : ofile) : bool := negb (Z.land (f_flags f) O_ACCMODE =? O_WRONLY).
Definition writable (f : ofile) : bool := negb (Z.land (f_flags f) O_ACCMODE =? O_RDONLY).
Definition appending (f : ofile) : bool := has (f_flags f) O_APPEND.

Inductive wish : Type := Fail (errno : Z) | Up (bytes : positive).

(** How many of [cnt] bytes a transfer may move; [None] is after the end of the script. *)
Definition allowed (w : option wish) (cnt : Z) : Z + Z :=
  match w with
  | Some (Fail e) => inl e
  | Some (Up k) => inr (Z.min (Z.pos k) cnt)
  | None => inr cnt
  end.

(** The bytes of a file after [d] was stored at [off]; a gap is filled with zeros. *)
Definition store (off : Z) (d data : bytes) : bytes :=
  if zlen d =? 0 then data else memwrite off d (data ++ replicate (Z.to_nat (off - zlen data)) Byte.x00).

Definition sys_pread (off cnt : Z) (w : option wish) (f : ofile) : (Z + bytes) * ofile :=
  if negb (readable f) then (inl EBADF, f)
  else if off <? 0 then (inl EINVAL, f)
  else
    match allowed w cnt with
    | inl e => (inl e, f)
    | inr n => (inr (zslice off n (f_data f)), f)
    end.

Definition sys_read (cnt : Z) (w : option wish) (f : ofile) : (Z + bytes) * ofile :=
  if negb (readable f) then (inl EBADF, f)
  else
    match allowed w cnt with
    | inl e => (inl e, f)
    | inr n => let d := zslice (f_pos f) n (f_data f) in (inr d, mkOfile (f_data f) (f_pos f + zlen d) (f_flags f))
    end.

Definition sys_pwrite (off : Z) (d : bytes) (w : option wish) (f : ofile) : (Z + Z) * ofile :=
  if negb (writable f) then (inl EBADF, f)
  else if off <? 0 then (inl EINVAL, f)
  else
    match allowed w (zlen d) with
    | inl e => (inl e, f)
    | inr n => (inr n, mkOfile (store off (ztake n d) (f_data f)) (f_pos f) (f_flags f))
    end.

Definition sys_write (d : bytes) (w : option wish) (f : ofile) : (Z + Z) * ofile :=
  let off := if appending f then zlen (f_data f) else f_pos f in
  if negb (writable f) then (inl EBADF, f)
  else
    match allowed w (zlen d) with
    | inl e => (inl e, f)
    | inr n => (inr n, mkOfile (store off (ztake n d) (f_data f)) (if n =? 0 then f_pos f else off + n) (f_flags f))
    end.

(** *** EintrWrapper.h, in a debug build: [tries] repetitions are left. *)

Fixpoint handle_eintr {St A} (tries : nat) (call : option wish -> St -> (Z + A) * St) (f : St) (script : list wish) {struct script}
    : (Z + A) * St * list wish :=
  match script with
  | [] => (call None f, [])
  | w :: script =>
      match call (Some w) f with
      | (inl e, f) =>
          match tries with
          | S tries => if e =? EINTR then handle_eintr tries call f script else (inl e, f, script)
          | O => (inl e, f, script)
          end
      | (r, f) => (r, f, script)
      end
  end.

Definition HANDLE_EINTR {St A} (call : option wish -> St -> (Z + A) * St) : St -> list wish -> (Z + A) * St * list wish :=
  handle_eintr 100 call.

(** *** Reading and writing *)

(** The loop of [read] and [read_at_current_pos]; [call] is the system call for the bytes from [bytes_read] on.  The result is what is returned,
    what is in [data], and the file. *)
Fixpoint read_loop (fuel : nat) (call : Z -> Z -> option wish -> ofile -> (Z + bytes) * ofile) (size : Z) (data : bytes) (f : ofile) (script : list wish)
    : outcome (Z * bytes * ofile * list wish) :=
  match fuel with
  | O => Fault OutOfFuel
  | S fuel =>
      let bytes_read := zlen data in
      let result rv f script := Ok (if negb (bytes_read =? 0) then bytes_read else rv, data, f, script) in
      match HANDLE_EINTR (call bytes_read (size - bytes_read)) f script with
      | (inl _, f, script) => result (-1) f script
      | (inr d, f, script) =>
          if zlen d <=? 0 then result (zlen d) f script
          else
            let data := data ++ d in
            if zlen data <? size then read_loop fuel call size data f script
            else Ok (zlen data, data, f, script)
      end
  end.

(** [valid] is whether the descriptor is. *)
Definition read (is_valid : bool) (offset size : Z) (f : ofile) (script : list wish) : outcome (Z * bytes * ofile * list wish) :=
  check is_valid "read: is_valid";;
  if size <? 0 then Ok (-1, [], f, script)
  else read_loop (S (Z.to_nat size)) (fun b n => sys_pread (offset + b) n) size [] f script.

Definition read_at_current_pos (is_valid : bool) (size : Z) (f : ofile) (script : list wish) : outcome (Z * bytes * ofile * list wish) :=
  check is_valid "read_at_current_pos: is_valid";;
  if size <? 0 then Ok (-1, [], f, script)
  else read_loop (S (Z.to_nat size)) (fun _ n => sys_read n) size [] f script.

Definition read_no_best_effort (is_valid : bool) (offset size : Z) (f : ofile) (script : list wish) : outcome (Z * bytes * ofile * list wish) :=
  check is_valid "read_no_best_effort: is_valid";;
  if size <? 0 then Ok (-1, [], f, script)
  else
    match HANDLE_EINTR (sys_pread offset size) f script with
    | (inl _, f, script) => Ok (-1, [], f, script)
    | (inr d, f, script) => Ok (zlen d, d, f, script)
    end.

Definition read_at_current_pos_no_best_effort (is_valid : bool) (size : Z) (f : ofile) (script : list wish) : outcome (Z * bytes * ofile * list wish) :=
  check is_valid "read_at_current_pos_no_best_effort: is_valid";;
  if size <? 0 then Ok (-1, [], f, script)
  else
    match HANDLE_EINTR (sys_read size) f script with
    | (inl _, f, script) => Ok (-1, [], f, script)
    | (inr d, f, script) => Ok (zlen d, d, f, script)
    end.

(** The loop of [write] and [write_at_current_pos]; [data] is what is left to write. *)
Fixpoint write_loop (fuel : nat) (call : Z -> bytes -> option wish -> ofile -> (Z + Z) * ofile) (bytes_written size : Z) (data : bytes) (f : ofile) (script : list wish)
    : outcome (Z * ofile * list wish) :=
  match fuel with
  | O => Fault OutOfFuel
  | S fuel =>
      let result rv f script := Ok (if negb (bytes_written =? 0) then bytes_written else rv, f, script) in
      match HANDLE_EINTR (call bytes_written data) f script with
      | (inl _, f, script) => result (-1) f script
      | (inr rv, f, script) =>
          if rv <=? 0 then result rv f script
          else
            let bytes_written := bytes_written + rv in
            if bytes_written <? size then write_loop fuel call bytes_written size (zdrop rv data) f script
            else Ok (bytes_written, f, script)
      end
  end.

Definition write_at_current_pos (is_valid : bool) (data : bytes) (size : Z) (f : ofile) (script : list wish) : outcome (Z * ofile * list wish) :=
  check is_valid "write_at_current_pos: is_valid";;
  if size <? 0 then Ok (-1, f, script)
  else
    defined (size <=? zlen data) "write: data";;
    write_loop (S (Z.to_nat size)) (fun _ d => sys_write d) 0 size (ztake size data) f script.

(** [is_open_append] asks the kernel, whose answer is -1 when the descriptor is not valid. *)
Definition is_open_append (is_valid : bool) (f : ofile) : bool := has (if is_valid then f_flags f else -1) O_APPEND.

Definition write (is_valid : bool) (offset : Z) (data : bytes) (size : Z) (f : ofile) (script : list wish) : outcome (Z * ofile * list wish) :=
  if is_open_append is_valid f then write_at_current_pos is_valid data size f script
  else
    check is_valid "write: is_valid";;
    if size <? 0 then Ok (-1, f, script)
    else
      defined (size <=? zlen data) "write: data";;
      write_loop (S (Z.to_nat size)) (fun b d => sys_pwrite (offset + b) d) 0 size (ztake size data) f script.

Definition write_at_current_pos_no_best_effort (is_valid : bool) (data : bytes) (size : Z) (f : ofile) (script : list wish) : outcome (Z * ofile * list wish) :=
  check is_valid "write_at_current_pos_no_best_effort: is_valid";;
  if size <? 0 then Ok (-1, f, script)
  else
    defined (size <=? zlen data) "write: data";;
    match HANDLE_EINTR (sys_write (ztake size data)) f script with
    | (inl _, f, script) => Ok (-1, f, script)
    | (inr n, f, script) => Ok (n, f, script)
    end.

(** *** The file system *)

(** Files are inodes, which names point to; a descriptor points to an open file description, which duplicates of the
    descriptor share. *)
Record description : Type := mkDescription { d_ino : nat; d_pos : Z; d_flags : Z }.
Record kernel : Type := mkKernel {
  names : gmap bytes nat;
  inodes : list bytes;
  descriptions : list description;
  descriptors : list (option nat);
}.

(** The lowest descriptor that is free. *)
Fixpoint free_slot (l : list (option nat)) : nat :=
  match l with Some _ :: l => S (free_slot l) | _ => O end.
Fixpoint take_slot (d : nat) (l : list (option nat)) : list (option nat) :=
  match l with Some x :: l => Some x :: take_slot d l | None :: l => Some d :: l | [] => [Some d] end.

Definition contents (k : kernel) (path : bytes) : option bytes := i ← names k !! path; inodes k !! i.
Definition description_of (k : kernel) (fd : Z) : option nat := if fd <? 0 then None else mjoin (descriptors k !! Z.to_nat fd).

(** The open file of a descriptor, and the system after a call that left it as [f]. *)
Definition view (k : kernel) (fd : Z) : option ofile :=
  i ← description_of k fd; d ← descriptions k !! i; data ← inodes k !! d_ino d; Some (mkOfile data (d_pos d) (d_flags d)).
Definition update (fd : Z) (f : ofile) (k : kernel) : kernel :=
  match description_of k fd with
  | Some i =>
      match descriptions k !! i with
      | Some d => mkKernel (names k) (<[d_ino d := f_data f]> (inodes k)) (<[i := mkDescription (d_ino d) (f_pos f) (f_flags f)]> (descriptions k)) (descriptors k)
      | None => k
      end
  | None => k
  end.

Definition set_names n k := mkKernel n (inodes k) (descriptions k) (descriptors k).
Definition set_inodes i k := mkKernel (names k) i (descriptions k) (descriptors k).
Definition set_descriptors d k := mkKernel (names k) (inodes k) (descriptions k) d.

(** A new descriptor for the inode [ino]. *)
Definition attach (ino : nat) (flags : Z) (k : kernel) : Z * kernel :=
  (Z.of_nat (free_slot (descriptors k)),
   mkKernel (names k) (inodes k) (descriptions k ++ [mkDescription ino 0 flags]) (take_slot (length (descriptions k)) (descriptors k))).

(** The flags that [open] uses up; [fcntl] shows the others. *)
Definition status_flags (flags : Z) : Z := Z.land flags (Z.lnot (Z.lor (Z.lor O_CREAT O_EXCL) (Z.lor O_NOCTTY O_TRUNC))).

Definition sys_open (path : bytes) (flags : Z) (w : option wish) (k : kernel) : (Z + Z) * kernel :=
  match w with
  | Some (Fail e) => (inl e, k)
  | _ =>
      match names k !! path with
      | Some ino =>
          if has flags O_CREAT && has flags O_EXCL then (inl EEXIST, k)
          else
            let '(fd, k) := attach ino (status_flags flags) (if has flags O_TRUNC then set_inodes (<[ino := []]> (inodes k)) k else k) in
            (inr fd, k)
      | None =>
          if has flags O_CREAT then
            let ino := length (inodes k) in
            let '(fd, k) := attach ino (status_flags flags) (set_names (<[path := ino]> (names k)) (set_inodes (inodes k ++ [[]]) k)) in
            (inr fd, k)
          else (inl ENOENT, k)
      end
  end.

Definition sys_unlink (path : bytes) (k : kernel) : kernel := set_names (delete path (names k)) k.

(** The descriptor is free afterwards, also when the call is interrupted; [false] is [EBADF]. *)
Definition sys_close (fd : Z) (k : kernel) : bool * kernel :=
  match description_of k fd with
  | Some _ => (true, set_descriptors (<[Z.to_nat fd := None]> (descriptors k)) k)
  | None => (false, k)
  end.

Definition sys_dup (fd : Z) (w : option wish) (k : kernel) : (Z + Z) * kernel :=
  match w, description_of k fd with
  | Some (Fail e), _ => (inl e, k)
  | _, None => (inl EBADF, k)
  | _, Some i => (inr (Z.of_nat (free_slot (descriptors k))), set_descriptors (take_slot i (descriptors k)) k)
  end.

Inductive Whence : Type := FROM_BEGIN | FROM_CURRENT | FROM_END.

Definition sys_lseek (offset : Z) (whence : Whence) (f : ofile) : (Z + Z) * ofile :=
  let pos := match whence with FROM_BEGIN => offset | FROM_CURRENT => f_pos f + offset | FROM_END => zlen (f_data f) + offset end in
  if (pos <? 0) || (kInt64Max <? pos) then (inl EINVAL, f) else (inr pos, mkOfile (f_data f) pos (f_flags f)).

Definition sys_ftruncate (len : Z) (w : option wish) (f : ofile) : (Z + unit) * ofile :=
  match w with
  | Some (Fail e) => (inl e, f)
  | _ =>
      if (len <? 0) || negb (writable f) then (inl EINVAL, f)
      else (inr tt, mkOfile (ztake len (f_data f) ++ replicate (Z.to_nat (len - zlen (f_data f))) Byte.x00) (f_pos f) (f_flags f))
  end.

(** *** ScopedFile.h and ScopedGeneric.h, for descriptors *)

Definition kInvalidPlatformFile : Z := -1.

(** [ScopedFDCloseTraits::free]. *)
Definition free (fd : Z) (k : kernel) : outcome kernel :=
  let '(closed, k) := sys_close fd k in check closed "free: 0 == ret";; Ok k.

Definition free_if_necessary (generic : Z) (k : kernel) : outcome kernel :=
  if generic =? kInvalidPlatformFile then Ok k else free generic k.

Definition reset (value generic : Z) (k : kernel) : outcome (Z * kernel) :=
  check (negb (negb (generic =? kInvalidPlatformFile) && (generic =? value))) "reset: abort";;
  k ← free_if_necessary generic k;
  Ok (value, k).

(** *** The File object *)

Record File : Type := mkFile { file_ : Z; error_details_ : Error; created_ : bool }.

Definition is_valid (f : File) : bool := negb (file_ f =? kInvalidPlatformFile).

Definition no_file : File := mkFile kInvalidPlatformFile FILE_ERROR_FAILED false.
Definition file_of_error (error_details : Error) : File := mkFile kInvalidPlatformFile error_details false.
Definition file_of_platform (platform_file : Z) : outcome File :=
  check (kInvalidPlatformFile <=? platform_file) "File: platform_file";; Ok (mkFile platform_file FILE_OK false).

Definition FLAG_OPEN : Z := Z.shiftl 1 0.
Definition FLAG_CREATE : Z := Z.shiftl 1 1.
Definition FLAG_OPEN_ALWAYS : Z := Z.shiftl 1 2.
Definition FLAG_CREATE_ALWAYS : Z := Z.shiftl 1 3.
Definition FLAG_OPEN_TRUNCATED : Z := Z.shiftl 1 4.
Definition FLAG_READ : Z := Z.shiftl 1 5.
Definition FLAG_WRITE : Z := Z.shiftl 1 6.
Definition FLAG_APPEND : Z := Z.shiftl 1 7.
Definition FLAG_EXCLUSIVE_READ : Z := Z.shiftl 1 8.
Definition FLAG_EXCLUSIVE_WRITE : Z := Z.shiftl 1 9.
Definition FLAG_DELETE_ON_CLOSE : Z := Z.shiftl 1 13.
Definition FLAG_TERMINAL_DEVICE : Z := Z.shiftl 1 16.

(** The first part of [do_initialize]: the flags for [open]. *)
Definition open_flags (flags : Z) : outcome Z :=
  let open_flags := if has flags FLAG_CREATE then Z.lor O_CREAT O_EXCL else 0 in
  open_flags ← (if has flags FLAG_CREATE_ALWAYS then
      check (open_flags =? 0) "do_initialize: CREATE_ALWAYS: open_flags";;
      check (has flags FLAG_WRITE) "do_initialize: CREATE_ALWAYS: FLAG_WRITE";;
      Ok (Z.lor O_CREAT O_TRUNC)
    else Ok open_flags);
  open_flags ← (if has flags FLAG_OPEN_TRUNCATED then
      check (open_flags =? 0) "do_initialize: OPEN_TRUNCATED: open_flags";;
      check (has flags FLAG_WRITE) "do_initialize: OPEN_TRUNCATED: FLAG_WRITE";;
      Ok O_TRUNC
    else Ok open_flags);
  check (negb ((open_flags =? 0) && negb (has flags FLAG_OPEN) && negb (has flags FLAG_OPEN_ALWAYS))) "do_initialize: NOTREACHED";;
  open_flags ← (if has flags FLAG_WRITE && has flags FLAG_READ then Ok (Z.lor open_flags O_RDWR)
    else if has flags FLAG_WRITE then Ok (Z.lor open_flags O_WRONLY)
    else
      check (negb (negb (has flags FLAG_READ) && negb (has flags FLAG_APPEND) && negb (has flags FLAG_OPEN_ALWAYS))) "do_initialize: NOTREACHED";;
      Ok open_flags);
  let open_flags := if has flags FLAG_TERMINAL_DEVICE then Z.lor open_flags (Z.lor O_NOCTTY O_NDELAY) else open_flags in
  Ok (if has flags FLAG_APPEND && has flags FLAG_READ then Z.lor open_flags (Z.lor O_APPEND O_RDWR)
      else if has flags FLAG_APPEND then Z.lor open_flags (Z.lor O_APPEND O_WRONLY) else open_flags).

(** The rest of [do_initialize]; [created] is what [created_] becomes unless the file is opened with one of the flags for creating. *)
Definition do_initialize (path : bytes) (flags : Z) (f : File) (k : kernel) (script : list wish) : outcome (File * kernel * list wish) :=
  check (negb (is_valid f)) "do_initialize: is_valid";;
  open_flags ← open_flags flags;
  let '(descriptor, k, script) := HANDLE_EINTR (sys_open path open_flags) k script in
  let '(descriptor, created, k, script) :=
    match descriptor with
    | inl _ =>
        if has flags FLAG_OPEN_ALWAYS then
          let open_flags := Z.lor open_flags O_CREAT in
          let open_flags := if has flags FLAG_EXCLUSIVE_READ || has flags FLAG_EXCLUSIVE_WRITE then Z.lor open_flags O_EXCL else open_flags in
          let '(descriptor, k, script) := HANDLE_EINTR (sys_open path open_flags) k script in
          (descriptor, match descriptor with inr _ => true | inl _ => false end, k, script)
        else (descriptor, false, k, script)
    | inr _ => (descriptor, false, k, script)
    end in
  match descriptor with
  | inl errno =>
      error_details ← os_error_to_file_error errno;
      Ok (mkFile (file_ f) error_details created, k, script)
  | inr descriptor =>
      let created := if has flags (Z.lor FLAG_CREATE_ALWAYS FLAG_CREATE) then true else created in
      let k := if has flags FLAG_DELETE_ON_CLOSE then sys_unlink path k else k in
      '(file, k) ← reset descriptor (file_ f) k;
      Ok (mkFile file FILE_OK created, k, script)
  end.

Definition initialize (path : bytes) (flags : Z) (f : File) (k : kernel) (script : list wish) : outcome (File * kernel * list wish) :=
  climbs ← references_parent path;
  if climbs : bool then Ok (mkFile (file_ f) FILE_ERROR_ACCESS_DENIED (created_ f), k, script)
  else do_initialize path flags f k script.

(** The constructor that opens a file. *)
Definition make_file (path : bytes) (flags : Z) (k : kernel) (script : list wish) : outcome (File * kernel * list wish) :=
  initialize path flags (mkFile kInvalidPlatformFile FILE_OK false) k script.

Definition take_platform_file (f : File) : Z * File := (file_ f, mkFile kInvalidPlatformFile (error_details_ f) (created_ f)).

Definition set_platform_file (file : Z) (f : File) (k : kernel) : outcome (File * kernel) :=
  check (negb (is_valid f)) "set_platform_file";;
  '(fd, k) ← reset file (file_ f) k;
  Ok (mkFile fd (error_details_ f) (created_ f), k).

Definition close (f : File) (k : kernel) : outcome (File * kernel) :=
  if negb (is_valid f) then Ok (f, k)
  else '(fd, k) ← reset kInvalidPlatformFile (file_ f) k; Ok (mkFile fd (error_details_ f) (created_ f), k).

(** The move constructor and the move assignment return the new value of the other object as well. *)
Definition move_file (other : File) : File * File :=
  let '(fd, other) := take_platform_file other in (mkFile fd (error_details_ other) (created_ other), other).

Definition move_assign (f other : File) (k : kernel) : outcome (File * File * kernel) :=
  '(f, k) ← close f k;
  let '(fd, other) := take_platform_file other in
  '(f, k) ← set_platform_file fd f k;
  Ok (mkFile (file_ f) (error_details_ other) (created_ other), other, k).

(** The destructor: [close], and the destructor of [file_]. *)
Definition destroy_file (f : File) (k : kernel) : outcome kernel :=
  '(f, k) ← close f k; free_if_necessary (file_ f) k.

(** An operation on the open file of [f]; [closed] is its result when the descriptor is not open. *)
Definition on_file {A} (op : bool -> ofile -> list wish -> outcome (A * ofile * list wish)) (closed : A) (f : File) (k : kernel) (script : list wish)
    : outcome (A * kernel * list wish) :=
  match view k (file_ f) with
  | Some g => '(a, g, script) ← op (is_valid f) g script; Ok (a, update (file_ f) g k, script)
  | None => check (is_valid f) "on_file: is_valid";; Ok (closed, k, script)
  end.

Definition file_read (offset size : Z) : File -> kernel -> list wish -> outcome (Z * bytes * kernel * list wish) :=
  on_file (fun v => read v offset size) (-1, []).
Definition file_read_at_current_pos (size : Z) : File -> kernel -> list wish -> outcome (Z * bytes * kernel * list wish) :=
  on_file (fun v => read_at_current_pos v size) (-1, []).
Definition file_write (offset : Z) (data : bytes) (size : Z) : File -> kernel -> list wish -> outcome (Z * kernel * list wish) :=
  on_file (fun v => write v offset data size) (-1).
Definition file_write_at_current_pos (data : bytes) (size : Z) : File -> kernel -> list wish -> outcome (Z * kernel * list wish) :=
  on_file (fun v => write_at_current_pos v data size) (-1).

Definition seek (whence : Whence) (offset : Z) : File -> kernel -> list wish -> outcome (Z * kernel * list wish) :=
  on_file (fun v f script => check v "seek: is_valid";;
    Ok (match sys_lseek offset whence f with (inl _, f) => (-1, f, script) | (inr p, f) => (p, f, script) end)) (-1).

Definition get_length : File -> kernel -> list wish -> outcome (Z * kernel * list wish) :=
  on_file (fun v f script => check v "get_length: is_valid";; Ok (zlen (f_data f), f, script)) (-1).

Definition set_length (len : Z) : File -> kernel -> list wish -> outcome (bool * kernel * list wish) :=
  on_file (fun v f script => check v "set_length: is_valid";;
    Ok (match HANDLE_EINTR (sys_ftruncate len) f script with (inl _, f, script) => (false, f, script) | (inr _, f, script) => (true, f, script) end)) false.

Definition duplicate (f : File) (k : kernel) (script : list wish) : outcome (File * kernel * list wish) :=
  if negb (is_valid f) then Ok (no_file, k, script)
  else
    match HANDLE_EINTR (sys_dup (file_ f)) k script with
    | (inl errno, k, script) => e ← os_error_to_file_error errno; Ok (file_of_error e, k, script)
    | (inr fd, k, script) => g ← file_of_platform fd; Ok (g, k, script)
    end.

(** The data reaches the disk or not; the file stays the same. *)
Definition sys_fdatasync (w : option wish) (k : kernel) : (Z + unit) * kernel :=
  match w with Some (Fail e) => (inl e, k) | _ => (inr tt, k) end.
Definition flush (f : File) (k : kernel) (script : list wish) : outcome (bool * kernel * list wish) :=
  check (is_valid f) "flush: is_valid";;
  match HANDLE_EINTR sys_fdatasync k script with
  | (inl _, k, script) => Ok (false, k, script)
  | (inr _, k, script) => Ok (true, k, script)
  end.

(** ** Lemmas *)

(** A script without errors: only interruptions, of which no call meets more than 100 in a row. *)
Fixpoint smooth (tries : nat) (script : list wish) : Prop :=
  match script with
  | [] => True
  | Fail e :: script => e = EINTR /\ match tries with S tries => smooth tries script | O => False end
  | Up _ :: script => smooth 100 script
  end.

(** A call that does nothing when it fails. *)
Definition proper_call {St A} (call : option wish -> St -> (Z + A) * St) (f : St) : Prop :=
  forall w, match w with
            | Some (Fail e) => call w f = (inl e, f)
            | _ => exists a f', call w f = (inr a, f')
            end.

Lemma handle_eintr_spec {St A} tries (call : option wish -> St -> (Z + A) * St) f script :
  proper_call call f ->
  (exists e script', handle_eintr tries call f script = (inl e, f, script') /\ ~ smooth tries script)
  \/ exists w a f' script', (forall e, w <> Some (Fail e)) /\ call w f = (inr a, f') /\ handle_eintr tries call f script = (inr a, f', script')
       /\ (smooth tries script -> smooth 100 script').
Proof.
  intros Hp. revert tries. induction script as [|w script IH]; intros tries; cbn [handle_eintr smooth].
  - right. destruct (Hp None) as (a & f' & E). exists None, a, f', []. rewrite E. done.
  - pose proof (Hp (Some w)) as Hw. destruct w as [e|k].
    + rewrite Hw. destruct tries as [|tries]; [left; exists e, script; split; [done|tauto]|].
      destruct (Z.eqb_spec e EINTR) as [->|Hne]; [|left; exists e, script; split; [done|tauto]].
      destruct (IH tries) as [(e' & s' & E & Hn)|(w & a & f' & s' & H1 & H2 & H3 & H4)].
      * left. exists e', s'. split; [done|tauto].
      * right. exists w, a, f', s'. split_and!; [assumption..|tauto].
    + destruct Hw as (a & f' & E). right. exists (Some (Up k)), a, f', script. rewrite E. done.
Qed.

(** *** Reading *)

(** What is read next follows what was read. *)
Lemma ztake_then_zslice (a m : Z) (l : bytes) : 0 <= a -> 0 <= m ->
  ztake a l ++ zslice a m l = ztake (a + Z.min (Z.max 0 m) (Z.max 0 (zlen l - Z.max 0 a))) l.
Proof.
  intros Ha Hm. rewrite ztake_add by done. destruct (Z.le_gt_cases (a + m) (zlen l)); [f_equal; lia|]. by rewrite !ztake_ge by lia.
Qed.

Section Read.
(** What is read, and the file after so many bytes of it were. *)
Context (src : bytes) (R : Z -> ofile -> Prop) (call : Z -> Z -> option wish -> ofile -> (Z + bytes) * ofile).
Hypothesis Hcall : forall b n w g, R b g -> 0 <= b -> 0 <= n ->
  match allowed w n with
  | inl e => call b n w g = (inl e, g)
  | inr m => exists g', call b n w g = (inr (zslice b m src), g') /\ R (b + zlen (zslice b m src)) g'
  end.

Lemma read_proper b n g : R b g -> 0 <= b -> 0 <= n -> proper_call (call b n) g.
Proof.
  intros HR Hb Hn w. pose proof (Hcall b n w g HR Hb Hn) as H. destruct w as [[e|k]|]; cbn in H; [done| |]; destruct H as (g' & E & _); eauto.
Qed.

Lemma read_loop_ok fuel size data g script :
  R (zlen data) g -> data = ztake (zlen data) src -> zlen data <= size -> (Z.to_nat (size - zlen data) < fuel)%nat ->
  exists rv data' g' script', read_loop fuel call size data g script = Ok (rv, data', g', script')
    /\ R (zlen data') g' /\ data' = ztake (zlen data') src /\ zlen data' <= size
    /\ (rv = zlen data' \/ rv = -1 /\ data' = [])
    /\ (smooth 100 script -> data = [] \/ zlen data < size -> rv = zlen data' /\ data' = ztake size src /\ smooth 100 script').
Proof.
  revert data g script. induction fuel as [|fuel IH]; intros data g script HR Hd Hs Hf; [lia|]. cbn [read_loop]. pose proof (zlen_nonneg data) as H0.
  unfold HANDLE_EINTR. destruct (handle_eintr_spec 100 (call (zlen data) (size - zlen data)) g script) as [(e & s' & E & Hn)|(w & d & g' & s' & Hw & Ec & E & Hsm)];
    [apply read_proper; done || lia|..]; rewrite E; cbv beta iota.
  - do 4 eexists. split_and!; [done|done|done|done| |tauto]. destruct (Z.eqb_spec (zlen data) 0) as [Ez|]; cbn [negb]; [|by left].
    right. split; [done|]. by apply zlen_0_nil.
  - pose proof (Hcall (zlen data) (size - zlen data) w g HR H0 ltac:(lia)) as Hc.
    assert (exists m, allowed w (size - zlen data) = inr m /\ (0 <= m <= size - zlen data) /\ (0 < size - zlen data -> 0 < m)) as (m & Em & Hm & Hm0).
    { destruct w as [[e|k]|]; cbn; [by destruct (Hw e)|exists (Z.min (Z.pos k) (size - zlen data))|exists (size - zlen data)]; split_and!; done || lia. }
    rewrite Em in Hc. destruct Hc as (g'' & Ec' & HR'). rewrite Ec in Ec'. injection Ec' as -> ->. set (d := zslice (zlen data) m src) in *.
    assert (Hdd : data ++ d = ztake (zlen (data ++ d)) src).
    { unfold d in *. rewrite zlen_app, zlen_zslice. rewrite Hd at 1. apply ztake_then_zslice; lia. }
    destruct (Z.leb_spec (zlen d) 0) as [Hz|Hz].
    + pose proof (zlen_nonneg d). assert (zlen d = 0) as Ed by lia. do 4 eexists. split_and!; [done| |done|done| |].
      * by rewrite Ed, Z.add_0_r in HR'.
      * destruct (Z.eqb_spec (zlen data) 0) as [E0|]; cbn [negb]; left; lia.
      * intros Hsmooth Hlt. split; [destruct (Z.eqb_spec (zlen data) 0); cbn [negb]; lia|]. split; [|by apply Hsm]. unfold d in Ed. rewrite zlen_zslice in Ed.
        destruct Hlt as [->|Hlt].
        -- change (zlen (@nil byte)) with 0 in *. destruct (Z.eq_dec size 0) as [->|]; [done|]. symmetry. apply zlen_0_nil. rewrite zlen_ztake. pose proof (zlen_nonneg src). specialize (Hm0 ltac:(lia)). lia.
        -- specialize (Hm0 ltac:(lia)). rewrite Hd at 1. rewrite !ztake_ge by lia. done.
    + rewrite <- zlen_app in HR'. assert (Hle : zlen (data ++ d) <= size) by (rewrite zlen_app; unfold d; rewrite zlen_zslice; lia).
      destruct (Z.ltb_spec (zlen (data ++ d)) size) as [Hlt|Hge].
      * destruct (IH (data ++ d) _ s' HR' Hdd Hle) as (rv & data' & g2 & s2 & E2 & H1 & H2 & H3 & H4 & H5); [rewrite zlen_app in *; lia|].
        exists rv, data', g2, s2. split_and!; [done..|]. intros Hsmooth _. apply H5; [by apply Hsm|by right].
      * do 4 eexists. split_and!; [done|done|done|done|by left|]. intros Hsmooth _. split_and!; [done| |by apply Hsm]. rewrite Hdd at 1. f_equal. lia.
Qed.

End Read.

(** *** Writing *)

Lemma zlen_store off d data : 0 <= off -> zlen (store off d data) = if zlen d =? 0 then zlen data else Z.max (zlen data) (off + zlen d).
Proof.
  intros Hoff. unfold store. destruct (Z.eqb_spec (zlen d) 0) as [|Hd]; [done|]. pose proof (zlen_nonneg d). pose proof (zlen_nonneg data).
  unfold memwrite. rewrite !zlen_app, zlen_ztake, zlen_zdrop, zlen_app, zlen_replicate. lia.
Qed.

(** What is stored next follows what was stored. *)
Lemma store_app off d e data : 0 <= off -> store (off + zlen d) e (store off d data) = store off (d ++ e) data.
Proof.
  intros Hoff. pose proof (zlen_nonneg d) as Hd0. pose proof (zlen_nonneg e) as He0.
  destruct (Z.eq_dec (zlen d) 0) as [Ed|Hd]; [apply zlen_0_nil in Ed as ->; rewrite zlen_nil, Z.add_0_r; done|].
  destruct (Z.eq_dec (zlen e) 0) as [Ee|He]; [apply zlen_0_nil in Ee as ->; by rewrite app_nil_r|].
  pose proof (zlen_store off d data Hoff) as Hl. unfold store at 1 3. rewrite zlen_app.
  destruct (Z.eqb_spec (zlen e) 0) as [|_]; [done|]. destruct (Z.eqb_spec (zlen d + zlen e) 0) as [|_]; [lia|].
  destruct (Z.eqb_spec (zlen d) 0) as [|_] in Hl; [done|]. replace (Z.to_nat _) with 0%nat by lia. cbn [replicate]. rewrite app_nil_r.
  unfold store. destruct (Z.eqb_spec (zlen d) 0) as [|_]; [done|]. set (P := data ++ _).
  assert (HP : off <= zlen P) by (unfold P; rewrite zlen_app, zlen_replicate; lia).
  unfold memwrite. rewrite (app_assoc (ztake off P) d (zdrop (off + zlen d) P)). rewrite ztake_app_exact by (rewrite zlen_app, zlen_ztake; lia).
  rewrite zdrop_app_ge by (rewrite zlen_app, zlen_ztake; lia). rewrite !zlen_app, zlen_ztake, zdrop_zdrop by lia.
  rewrite <- !app_assoc. do 4 f_equal. lia.
Qed.

Lemma store_end d data : store (zlen data) d data = data ++ d.
Proof.
  unfold store. destruct (Z.eqb_spec (zlen d) 0) as [E|_]; [apply zlen_0_nil in E as ->; by rewrite app_nil_r|].
  pose proof (zlen_nonneg d). replace (Z.to_nat _) with 0%nat by lia. cbn [replicate]. unfold memwrite. rewrite app_nil_r, ztake_ge, zdrop_ge by lia. by rewrite app_nil_r.
Qed.

(** What was stored is there. *)
Lemma zslice_store off d data : 0 <= off -> zslice off (zlen d) (store off d data) = d.
Proof.
  intros Hoff. unfold store. destruct (Z.eqb_spec (zlen d) 0) as [E|_]; [apply zlen_0_nil in E as ->; apply ztake_0|].
  set (P := data ++ _). assert (HP : off <= zlen P) by (unfold P; rewrite zlen_app, zlen_replicate; lia).
  unfold zslice, memwrite. rewrite zdrop_app_exact by (rewrite zlen_ztake; lia). by apply ztake_app_exact.
Qed.

Section Write.
(** What is to be written, and the file after so many bytes of it were. *)
Context (D : bytes) (R : Z -> ofile -> Prop) (call : Z -> bytes -> option wish -> ofile -> (Z + Z) * ofile).
Hypothesis Hcall : forall b w g, R b g -> 0 <= b <= zlen D ->
  match allowed w (zlen (zdrop b D)) with
  | inl e => call b (zdrop b D) w g = (inl e, g)
  | inr m => exists g', call b (zdrop b D) w g = (inr m, g') /\ R (b + m) g'
  end.

Lemma write_proper b g : R b g -> 0 <= b <= zlen D -> proper_call (call b (zdrop b D)) g.
Proof.
  intros HR Hb w. pose proof (Hcall b w g HR Hb) as H. destruct w as [[e|k]|]; cbn in H; [done| |]; destruct H as (g' & E & _); eauto.
Qed.

Lemma write_loop_ok fuel b g script :
  R b g -> 0 <= b <= zlen D -> (Z.to_nat (zlen D - b) < fuel)%nat ->
  exists rv b' g' script', write_loop fuel call b (zlen D) (zdrop b D) g script = Ok (rv, g', script')
    /\ R b' g' /\ b <= b' <= zlen D /\ (rv = b' \/ rv = -1 /\ b' = 0)
    /\ (smooth 100 script -> b = 0 \/ b < zlen D -> rv = zlen D /\ b' = zlen D /\ smooth 100 script').
Proof.
  revert b g script. induction fuel as [|fuel IH]; intros b g script HR Hb Hf; [lia|]. cbn [write_loop].
  assert (Hlen : zlen (zdrop b D) = zlen D - b) by (rewrite zlen_zdrop; lia).
  unfold HANDLE_EINTR. destruct (handle_eintr_spec 100 (call b (zdrop b D)) g script) as [(e & s' & E & Hn)|(w & n & g' & s' & Hw & Ec & E & Hsm)];
    [by apply write_proper|..]; rewrite E; cbv beta iota.
  - exists (if negb (b =? 0) then b else -1), b, g, s'. split_and!; [done|done|lia..| |tauto]. destruct (Z.eqb_spec b 0); cbn [negb]; lia.
  - pose proof (Hcall b w g HR Hb) as Hc. rewrite Hlen in Hc.
    assert (exists m, allowed w (zlen D - b) = inr m /\ (0 <= m <= zlen D - b) /\ (0 < zlen D - b -> 0 < m)) as (m & Em & Hm & Hm0).
    { destruct w as [[e|k]|]; cbn; [by destruct (Hw e)|exists (Z.min (Z.pos k) (zlen D - b))|exists (zlen D - b)]; split_and!; done || lia. }
    rewrite Em in Hc. destruct Hc as (g'' & Ec' & HR'). rewrite Ec in Ec'. injection Ec' as -> ->.
    destruct (Z.leb_spec m 0) as [Hz|Hz].
    + assert (m = 0) as -> by lia. exists (if negb (b =? 0) then b else 0), b, g'', s'. rewrite Z.add_0_r in HR'.
      destruct (Z.eqb_spec b 0); cbn [negb]; (split_and!; [done|done|lia..|]); intros Hsmooth Hlt; (split_and!; [lia|lia|by apply Hsm]).
    + destruct (Z.ltb_spec (b + m) (zlen D)) as [Hlt|Hge].
      * rewrite zdrop_zdrop, (Z.add_comm m b) by lia.
        destruct (IH (b + m) _ s' HR') as (rv & b' & g2 & s2 & E2 & H1 & H2 & H3 & H4); [lia..|].
        exists rv, b', g2, s2. split_and!; [done|done|lia..|done|]. intros Hsmooth _. apply H4; [by apply Hsm|by right].
      * exists (b + m), (b + m), g'', s'. split_and!; try done; try lia. intros Hsmooth _. split_and!; [lia|lia|by apply Hsm].
Qed.

End Write.

(** *** The calls of the loops *)

Definition moved (n : Z) (f : ofile) : ofile := mkOfile (f_data f) (f_pos f + n) (f_flags f).

Lemma pread_call f offset b n w :
  readable f = true -> 0 <= offset -> 0 <= b ->
  match allowed w n with
  | inl e => sys_pread (offset + b) n w f = (inl e, f)
  | inr m => sys_pread (offset + b) n w f = (inr (zslice b m (zdrop offset (f_data f))), f)
  end.
Proof.
  intros Hr Ho Hb. unfold sys_pread. rewrite Hr. cbn [negb]. destruct (Z.ltb_spec (offset + b) 0); [lia|].
  destruct (allowed w n) as [e|m]; [done|]. unfold zslice. by rewrite zdrop_zdrop, (Z.add_comm b offset) by lia.
Qed.

Lemma read_call f b n w :
  readable f = true -> 0 <= f_pos f -> 0 <= b ->
  match allowed w n with
  | inl e => sys_read n w (moved b f) = (inl e, moved b f)
  | inr m => let d := zslice b m (zdrop (f_pos f) (f_data f)) in sys_read n w (moved b f) = (inr d, moved (b + zlen d) f)
  end.
Proof.
  intros Hr Ho Hb. unfold sys_read. change (readable (moved b f)) with (readable f). rewrite Hr. cbn [negb].
  destruct (allowed w n) as [e|m]; [done|]. cbn [moved f_data f_pos f_flags]. unfold zslice, moved.
  rewrite zdrop_zdrop, (Z.add_comm b (f_pos f)) by lia. cbv zeta. by rewrite Z.add_assoc.
Qed.

(** The file after [n] bytes of [d] were written, from [off] on; [pos] is the position. *)
Definition written (off pos n : Z) (d : bytes) (f : ofile) : ofile := mkOfile (store off (ztake n d) (f_data f)) pos (f_flags f).

Lemma pwrite_call f offset D b w :
  writable f = true -> 0 <= offset -> 0 <= b <= zlen D ->
  match allowed w (zlen (zdrop b D)) with
  | inl e => sys_pwrite (offset + b) (zdrop b D) w (written offset (f_pos f) b D f) = (inl e, written offset (f_pos f) b D f)
  | inr m => 0 <= m -> sys_pwrite (offset + b) (zdrop b D) w (written offset (f_pos f) b D f) = (inr m, written offset (f_pos f) (b + m) D f)
  end.
Proof.
  intros Hw Ho Hb. unfold sys_pwrite. change (writable (written _ _ _ _ _)) with (writable f). rewrite Hw. cbn [negb].
  destruct (Z.ltb_spec (offset + b) 0); [lia|]. destruct (allowed w (zlen (zdrop b D))) as [e|m]; [done|]. intros Hm.
  unfold written. cbn [f_data f_pos f_flags]. do 2 f_equal.
  assert (Hl : b = zlen (ztake b D)) by (rewrite zlen_ztake; lia). rewrite Hl at 1. rewrite store_app by done. f_equal. fold (zslice b m D).
  apply ztake_add; lia.
Qed.

Definition write_offset (f : ofile) : Z := if appending f then zlen (f_data f) else f_pos f.
Definition written_here (n : Z) (d : bytes) (f : ofile) : ofile := written (write_offset f) (if n =? 0 then f_pos f else write_offset f + n) n d f.

Lemma write_offset_written f D b : 0 <= f_pos f -> 0 <= b <= zlen D -> write_offset (written_here b D f) = write_offset f + b.
Proof.
  intros Hp Hb. unfold write_offset at 1. change (appending (written_here b D f)) with (appending f). unfold written_here, write_offset.
  destruct (appending f) eqn:Ea; cbn [written f_data f_pos].
  - rewrite store_end, zlen_app, zlen_ztake. lia.
  - destruct (Z.eqb_spec b 0); lia.
Qed.

Lemma write_call f D b w :
  writable f = true -> 0 <= f_pos f -> 0 <= b <= zlen D ->
  match allowed w (zlen (zdrop b D)) with
  | inl e => sys_write (zdrop b D) w (written_here b D f) = (inl e, written_here b D f)
  | inr m => 0 <= m -> sys_write (zdrop b D) w (written_here b D f) = (inr m, written_here (b + m) D f)
  end.
Proof.
  intros Hw Hp Hb. unfold sys_write. change (writable (written_here b D f)) with (writable f). rewrite Hw. cbn [negb].
  fold (write_offset (written_here b D f)). rewrite write_offset_written by done.
  destruct (allowed w (zlen (zdrop b D))) as [e|m]; [done|]. intros Hm. unfold written_here, written. cbn [f_data f_pos f_flags].
  assert (0 <= write_offset f) by (unfold write_offset; destruct (appending f); [apply zlen_nonneg|done]). do 2 f_equal.
  - assert (Hl : b = zlen (ztake b D)) by (rewrite zlen_ztake; lia). rewrite Hl at 1. rewrite store_app by done. f_equal. apply ztake_add; lia.
  - destruct (Z.eqb_spec m 0) as [->|]; [by rewrite !Z.add_0_r|]. destruct (Z.eqb_spec (b + m) 0); lia.
Qed.

Lemma write_here_ok D f script : writable f = true -> 0 <= f_pos f ->
  exists rv n script', write_loop (S (Z.to_nat (zlen D))) (fun _ d => sys_write d) 0 (zlen D) D f script = Ok (rv, written_here n D f, script')
    /\ 0 <= n <= zlen D /\ (rv = n \/ rv = -1 /\ n = 0) /\ (smooth 100 script -> rv = zlen D /\ n = zlen D /\ smooth 100 script').
Proof.
  intros Hw Hp. destruct (write_loop_ok D (fun n g => g = written_here n D f) (fun _ d => sys_write d)) with (fuel := S (Z.to_nat (zlen D))) (b := 0) (g := f) (script := script)
    as (rv & n & g' & s' & E & -> & H1 & H2 & H3).
  - intros b w g -> Hb. pose proof (write_call f D b w Hw Hp Hb) as Hc. pose proof (zlen_nonneg (zdrop b D)).
    destruct w as [[e|k]|]; cbn [allowed] in *; [done|..]; eexists; (split; [apply Hc; lia|done]).
  - unfold written_here, written. rewrite ztake_0. by destruct f.
  - pose proof (zlen_nonneg D). lia.
  - lia.
  - rewrite zdrop_0 in E. exists rv, n, s'. split_and!; [done|lia..|done|]. intros. by apply H3; [|left].
Qed.

Lemma write_at_ok D f offset script : writable f = true -> 0 <= offset ->
  exists rv n script', write_loop (S (Z.to_nat (zlen D))) (fun b d => sys_pwrite (offset + b) d) 0 (zlen D) D f script = Ok (rv, written offset (f_pos f) n D f, script')
    /\ 0 <= n <= zlen D /\ (rv = n \/ rv = -1 /\ n = 0) /\ (smooth 100 script -> rv = zlen D /\ n = zlen D /\ smooth 100 script').
Proof.
  intros Hw Hp. destruct (write_loop_ok D (fun n g => g = written offset (f_pos f) n D f) (fun b d => sys_pwrite (offset + b) d))
    with (fuel := S (Z.to_nat (zlen D))) (b := 0) (g := f) (script := script) as (rv & n & g' & s' & E & -> & H1 & H2 & H3).
  - intros b w g -> Hb. pose proof (pwrite_call f offset D b w Hw Hp Hb) as Hc. pose proof (zlen_nonneg (zdrop b D)).
    destruct w as [[e|k]|]; cbn [allowed] in *; [done|..]; eexists; (split; [apply Hc; lia|done]).
  - unfold written. rewrite ztake_0. by destruct f.
  - pose proof (zlen_nonneg D). lia.
  - lia.
  - rewrite zdrop_0 in E. exists rv, n, s'. split_and!; [done|lia..|done|]. intros. by apply H3; [|left].
Qed.

(** *** Interruptions *)

Lemma handle_eintr_smooth {St A} tries (call : option wish -> St -> (Z + A) * St) s script :
  (forall e, call (Some (Fail e)) s = (inl e, s)) -> (forall n, call (Some (Up n)) s = call None s) -> fst (call None s) <> inl EINTR ->
  smooth tries script -> exists script', handle_eintr tries call s script = (call None s, script') /\ smooth 100 script'.
Proof.
  intros Hf Hu Hn. revert tries. induction script as [|[e|n] script IH]; intros tries; cbn [smooth handle_eintr].
  - intros _. by exists [].
  - intros [-> Hs]. rewrite Hf. destruct tries as [|tries]; [done|]. rewrite Z.eqb_refl. by apply IH.
  - intros Hs. rewrite Hu. destruct (call None s) as [[e|a] s'] eqn:E; [|by exists script]. exists script. split; [|done].
    destruct tries; [done|]. destruct (Z.eqb_spec e EINTR) as [->|]; done.
Qed.

(** *** The file system *)

(** Names point to different inodes, and everything points to something that is there. *)
Record fs_ok (k : kernel) : Prop := {
  ok_names : forall p i, names k !! p = Some i -> (i < length (inodes k))%nat;
  ok_inj : forall p q i, names k !! p = Some i -> names k !! q = Some i -> p = q;
  ok_descriptions : forall j d, descriptions k !! j = Some d -> (d_ino d < length (inodes k))%nat;
  ok_descriptors : forall n j, descriptors k !! n = Some (Some j) -> (j < length (descriptions k))%nat;
}.

Lemma take_slot_new d l : take_slot d l !! free_slot l = Some (Some d).
Proof. induction l as [|[x|] l IH]; cbn; done. Qed.

Lemma take_slot_old d l n : n <> free_slot l -> take_slot d l !! n = l !! n.
Proof.
  revert n. induction l as [|[x|] l IH]; intros [|n] Hn; cbn in *; try done. apply IH. congruence.
Qed.

Lemma free_slot_free l : mjoin (l !! free_slot l) = None.
Proof. induction l as [|[x|] l IH]; cbn; done. Qed.

Definition new_fd (k : kernel) : Z := Z.of_nat (free_slot (descriptors k)).

Lemma new_fd_nonneg k : 0 <= new_fd k.
Proof. unfold new_fd. lia. Qed.

Lemma attach_view ino flags k data :
  inodes k !! ino = Some data -> view (snd (attach ino flags k)) (new_fd k) = Some (mkOfile data 0 flags).
Proof.
  intros Hi. unfold view, description_of, new_fd. cbn [attach snd descriptors descriptions inodes].
  destruct (Z.ltb_spec (Z.of_nat (free_slot (descriptors k))) 0); [lia|]. rewrite Nat2Z.id, take_slot_new. cbn [mjoin option_join mbind option_bind id].
  rewrite lookup_app_r, Nat.sub_diag by lia. cbn. by rewrite Hi.
Qed.

Lemma attach_ok ino flags k : fs_ok k -> (ino < length (inodes k))%nat -> fs_ok (snd (attach ino flags k)).
Proof.
  intros [H1 H2 H3 H4] Hi. split; cbn [attach snd names inodes descriptions descriptors]; [done|done|..].
  - intros j d [Hj|[_ Hj]]%lookup_app_Some; [by apply (H3 j)|]. apply list_lookup_singleton_Some in Hj as [_ <-]. done.
  - intros n j Hn. rewrite length_app. cbn. destruct (decide (n = free_slot (descriptors k))) as [->|Hne].
    + rewrite take_slot_new in Hn. injection Hn as <-. lia.
    + rewrite take_slot_old in Hn by done. apply H4 in Hn. lia.
Qed.

(** *** Opening *)

(** What the user asks for: one of five modes, and the other flags. *)
Inductive mode : Type := Open | Create | OpenAlways | CreateAlways | OpenTruncated.
Record request : Type := mkRequest {
  rq_mode : mode; rq_read : bool; rq_write : bool; rq_append : bool;
  rq_exclusive_read : bool; rq_exclusive_write : bool; rq_delete : bool; rq_terminal : bool;
}.

Definition mode_flag (m : mode) : Z :=
  match m with
  | Open => FLAG_OPEN | Create => FLAG_CREATE | OpenAlways => FLAG_OPEN_ALWAYS
  | CreateAlways => FLAG_CREATE_ALWAYS | OpenTruncated => FLAG_OPEN_TRUNCATED
  end.
Definition flag_if (b : bool) (flag : Z) : Z := if b then flag else 0.
Definition request_flags (r : request) : Z :=
  Z.lor (mode_flag (rq_mode r)) (Z.lor (flag_if (rq_read r) FLAG_READ) (Z.lor (flag_if (rq_write r) FLAG_WRITE) (Z.lor (flag_if (rq_append r) FLAG_APPEND)
    (Z.lor (flag_if (rq_exclusive_read r) FLAG_EXCLUSIVE_READ) (Z.lor (flag_if (rq_exclusive_write r) FLAG_EXCLUSIVE_WRITE)
    (Z.lor (flag_if (rq_delete r) FLAG_DELETE_ON_CLOSE) (flag_if (rq_terminal r) FLAG_TERMINAL_DEVICE))))))).

(** Overwriting asks for writing, and opening for some access. *)
Definition request_ok (r : request) : bool :=
  match rq_mode r with
  | OpenAlways => true
  | CreateAlways | OpenTruncated => rq_write r
  | Open | Create => rq_read r || rq_write r || rq_append r
  end.

(** The contract of a mode, given what was in the file: an error, or the bytes of the opened file and whether it counts
    as created. *)
Definition mode_result (m : mode) (old : option bytes) : Error + bytes * bool :=
  match m, old with
  | Open, Some d => inr (d, false)
  | Create, None => inr ([], true)
  | Create, Some _ => inl FILE_ERROR_EXISTS
  | OpenAlways, Some d => inr (d, false)
  | OpenAlways, None => inr ([], true)
  | CreateAlways, _ => inr ([], true)
  | OpenTruncated, Some _ => inr ([], false)
  | Open, None | OpenTruncated, None => inl FILE_ERROR_NOT_FOUND
  end.

(** The flags that [open] gets and shows, compared with what was asked for. *)
Definition open_flags_good (r : request) : bool :=
  match open_flags (request_flags r) with
  | Fault _ => negb (request_ok r)
  | Ok fl =>
      let shown x := let f := mkOfile [] 0 (status_flags x) in
        Bool.eqb (readable f) (rq_read r || negb (rq_write r || rq_append r)) && Bool.eqb (writable f) (rq_write r || rq_append r) && Bool.eqb (appending f) (rq_append r) in
      let fl' := Z.lor fl O_CREAT in let fl'' := Z.lor fl' O_EXCL in
      request_ok r
      && Bool.eqb (has fl O_CREAT) (match rq_mode r with Create | CreateAlways => true | _ => false end)
      && Bool.eqb (has fl O_EXCL) (match rq_mode r with Create => true | _ => false end)
      && Bool.eqb (has fl O_TRUNC) (match rq_mode r with CreateAlways | OpenTruncated => true | _ => false end)
      && (match rq_mode r with OpenAlways => has fl' O_CREAT && has fl'' O_CREAT && negb (has fl' O_TRUNC) && negb (has fl'' O_TRUNC) && negb (has fl' O_EXCL) | _ => true end)
      && shown fl && shown fl' && shown fl''
  end.

Lemma open_flags_all r : open_flags_good r = true.
Proof. destruct r as [[] [] [] [] [] [] [] []]; vm_compute; reflexivity. Qed.

Lemma request_flags_has r :
  has (request_flags r) FLAG_OPEN_ALWAYS = (match rq_mode r with OpenAlways => true | _ => false end)
  /\ has (request_flags r) (Z.lor FLAG_CREATE_ALWAYS FLAG_CREATE) = (match rq_mode r with Create | CreateAlways => true | _ => false end)
  /\ has (request_flags r) FLAG_DELETE_ON_CLOSE = rq_delete r.
Proof. destruct r as [[] [] [] [] [] [] [] []]; vm_compute; repeat split. Qed.

Lemma contents_none k p : fs_ok k -> contents k p = None -> names k !! p = None.
Proof.
  intros Hk. unfold contents. destruct (names k !! p) as [i|] eqn:E; [|done]. cbn. intros H%lookup_ge_None. apply (ok_names k Hk) in E. lia.
Qed.

Lemma contents_some k p d : contents k p = Some d -> exists i, names k !! p = Some i /\ inodes k !! i = Some d.
Proof. unfold contents. destruct (names k !! p) as [i|]; [|done]. cbn. eauto. Qed.

(** The descriptor [fd] is open for the file [path]. *)
Definition linked (k : kernel) (fd : Z) (path : bytes) : Prop :=
  exists i d, description_of k fd = Some i /\ descriptions k !! i = Some d /\ names k !! path = Some (d_ino d).

Lemma attach_linked ino flags k path : names k !! path = Some ino -> linked (snd (attach ino flags k)) (new_fd k) path.
Proof.
  intros Hn. exists (length (descriptions k)), (mkDescription ino 0 flags). unfold description_of, new_fd. cbn [attach snd descriptors descriptions names d_ino].
  split_and!; [|by rewrite lookup_app_r, Nat.sub_diag by lia|done].
  destruct (Z.ltb_spec (Z.of_nat (free_slot (descriptors k))) 0); [lia|]. by rewrite Nat2Z.id, take_slot_new.
Qed.

(** The descriptor is open for [path], at a position and with flags. *)
Definition open_at (k : kernel) (fd : Z) (path : bytes) (pos flags : Z) : Prop :=
  exists i ino, description_of k fd = Some i /\ descriptions k !! i = Some (mkDescription ino pos flags) /\ names k !! path = Some ino.

Lemma attach_description ino flags k fd : fd <> new_fd k -> description_of (snd (attach ino flags k)) fd = description_of k fd.
Proof.
  intros Hne. unfold description_of. cbn [attach snd descriptors]. destruct (Z.ltb_spec fd 0); [done|]. rewrite take_slot_old; [done|].
  unfold new_fd in Hne. lia.
Qed.

Lemma new_fd_free k fd i : description_of k fd = Some i -> fd <> new_fd k.
Proof.
  intros H ->. unfold description_of, new_fd in H. destruct (Z.ltb_spec (Z.of_nat (free_slot (descriptors k))) 0); [lia|].
  by rewrite Nat2Z.id, free_slot_free in H.
Qed.

Lemma attach_open_at ino flags k fd q pos fl : open_at k fd q pos fl -> open_at (snd (attach ino flags k)) fd q pos fl.
Proof.
  intros (i & n & H1 & H2 & H3). exists i, n. rewrite attach_description by (by eapply new_fd_free). split_and!; [done| |done].
  cbn [attach snd descriptions]. rewrite lookup_app_l; [done|]. by eapply lookup_lt_Some.
Qed.

(** [k'] is [k] with [path] opened as the descriptor [new_fd k], its bytes being [d]. *)
Record opened (path d : bytes) (flags : Z) (k k' : kernel) : Prop := {
  opened_ok : fs_ok k';
  opened_view : view k' (new_fd k) = Some (mkOfile d 0 (status_flags flags));
  opened_link : linked k' (new_fd k) path;
  opened_path : contents k' path = Some d;
  opened_other : forall q, q <> path -> contents k' q = contents k q;
  opened_descriptors : forall fd, fd <> new_fd k -> description_of k' fd = description_of k fd;
  opened_others : forall fd q pos fl, open_at k fd q pos fl -> open_at k' fd q pos fl;
}.

Lemma open_old path fl k i d b : fs_ok k -> names k !! path = Some i -> inodes k !! i = Some d ->
  opened path (if b : bool then [] else d) fl k (snd (attach i (status_flags fl) (if b then set_inodes (<[i := []]> (inodes k)) k else k))).
Proof.
  intros Hk Hi Hd. pose proof (lookup_lt_Some _ _ _ Hd) as Hlt.
  assert (Hk' : fs_ok (if b then set_inodes (<[i := []]> (inodes k)) k else k)).
  { destruct b; [|done]. destruct Hk as [H1 H2 H3 H4]. split; cbn [set_inodes names inodes descriptions descriptors]; rewrite ?length_insert; done. }
  split.
  - apply attach_ok; [done|]. destruct b; cbn [set_inodes inodes]; rewrite ?length_insert; done.
  - replace (new_fd k) with (new_fd (if b then set_inodes (<[i := []]> (inodes k)) k else k)) by (by destruct b). apply attach_view.
    destruct b; cbn [set_inodes inodes]; [by apply list_lookup_insert_eq|done].
  - destruct b; [apply (attach_linked i _ (set_inodes _ k) path Hi)|by apply (attach_linked i _ k path)].
  - unfold contents. destruct b; cbn [attach snd set_inodes names inodes]; rewrite Hi; cbn; [by apply list_lookup_insert_eq|done].
  - intros q Hq. unfold contents. destruct b; [|done]. cbn [attach snd set_inodes names inodes]. destruct (names k !! q) as [j|] eqn:Ej; [|done]. cbn.
    apply list_lookup_insert_ne. intros <-. destruct Hq. by eapply (ok_inj k Hk).
  - intros fd Hfd. destruct b; by rewrite attach_description.
  - intros fd q pos fl' Hq. apply attach_open_at. by destruct b.
Qed.

Lemma open_new path fl k : fs_ok k -> names k !! path = None ->
  opened path [] fl k (snd (attach (length (inodes k)) (status_flags fl) (set_names (<[path := length (inodes k)]> (names k)) (set_inodes (inodes k ++ [[]]) k)))).
Proof.
  intros Hk Hn. set (k1 := set_names _ _).
  assert (Hat : inodes k1 !! length (inodes k) = Some []) by (cbn; by rewrite lookup_app_r, Nat.sub_diag by lia).
  assert (Hk1 : fs_ok k1).
  { destruct Hk as [H1 H2 H3 H4]. assert (Hnew : forall p, names k !! p <> Some (length (inodes k))) by (intros p Hp; apply H1 in Hp; lia).
    split; cbn [k1 set_names set_inodes names inodes descriptions descriptors]; rewrite ?length_app; cbn [length].
    - intros p i [[<- <-]|[_ Hp]]%lookup_insert_Some; [lia|]. apply H1 in Hp. lia.
    - intros p q i [[<- <-]|[Hne Hp]]%lookup_insert_Some [[<- Hi]|[Hne' Hq]]%lookup_insert_Some; [done|by destruct (Hnew q)|subst i; by destruct (Hnew p)|eauto].
    - intros j d Hj%H3. lia.
    - done. }
  split.
  - apply attach_ok; [done|]. by apply lookup_lt_Some in Hat.
  - change (new_fd k) with (new_fd k1). by apply attach_view.
  - change (new_fd k) with (new_fd k1). apply attach_linked. apply lookup_insert_eq.
  - unfold contents. cbn [attach snd k1 set_names set_inodes names inodes]. rewrite lookup_insert_eq. exact Hat.
  - intros q Hq. unfold contents. cbn [attach snd k1 set_names set_inodes names inodes]. rewrite lookup_insert_ne by done.
    destruct (names k !! q) as [j|] eqn:Ej; [|done]. cbn. apply lookup_app_l. by eapply (ok_names k Hk).
  - intros fd Hfd. by rewrite attach_description.
  - intros fd q pos fl' (i & n & H1 & H2 & H3). apply attach_open_at. exists i, n. split_and!; [done|done|]. cbn. rewrite lookup_insert_ne; [done|]. congruence.
Qed.

Lemma sys_open_ok path fl k : fs_ok k ->
  match contents k path with
  | Some d =>
      if has fl O_CREAT && has fl O_EXCL then sys_open path fl None k = (inl EEXIST, k)
      else exists k', sys_open path fl None k = (inr (new_fd k), k') /\ opened path (if has fl O_TRUNC then [] else d) fl k k'
  | None =>
      if has fl O_CREAT then exists k', sys_open path fl None k = (inr (new_fd k), k') /\ opened path [] fl k k'
      else sys_open path fl None k = (inl ENOENT, k)
  end.
Proof.
  intros Hk. unfold sys_open. destruct (contents k path) as [d|] eqn:Ec.
  - apply contents_some in Ec as (i & Hi & Hd). rewrite Hi. destruct (has fl O_CREAT && has fl O_EXCL); [done|].
    pose proof (open_old path fl k i d (has fl O_TRUNC) Hk Hi Hd) as H. destruct (has fl O_TRUNC); (eexists; split; [reflexivity|exact H]).
  - apply contents_none in Ec; [|done]. rewrite Ec. destruct (has fl O_CREAT); [|done]. eexists. split; [reflexivity|]. by apply (open_new path fl k).
Qed.

Lemma sys_open_smooth path fl k script : smooth 100 script ->
  exists script', HANDLE_EINTR (sys_open path fl) k script = (sys_open path fl None k, script') /\ smooth 100 script'.
Proof.
  apply handle_eintr_smooth; [done|done|]. unfold sys_open. destruct (names k !! path); [destruct (_ && _)|destruct (has fl O_CREAT)]; cbn; unfold EEXIST, ENOENT, EINTR; congruence.
Qed.

(** The open file of a new descriptor has the access that was asked for. *)
Definition access_good (r : request) (g : ofile) : Prop :=
  readable g = rq_read r || negb (rq_write r || rq_append r) /\ writable g = rq_write r || rq_append r /\ appending g = rq_append r.

(** The result of opening, when the system has no other reason to refuse. *)
Record file_opened (path d : bytes) (r : request) (k k' : kernel) : Prop := {
  fo_ok : fs_ok k';
  fo_view : exists g, view k' (new_fd k) = Some g /\ f_data g = d /\ f_pos g = 0 /\ access_good r g;
  fo_link : rq_delete r = false -> linked k' (new_fd k) path;
  fo_path : contents k' path = if rq_delete r then None else Some d;
  fo_other : forall q, q <> path -> contents k' q = contents k q;
  fo_descriptors : forall fd, fd <> new_fd k -> description_of k' fd = description_of k fd;
  fo_others : forall fd q pos fl, q <> path -> open_at k fd q pos fl -> open_at k' fd q pos fl;
}.

Lemma unlink_ok path k : fs_ok k -> fs_ok (sys_unlink path k).
Proof.
  intros [H1 H2 H3 H4]. split; cbn [sys_unlink set_names names inodes descriptions descriptors]; [| |done|done].
  - intros p i [_ Hp]%lookup_delete_Some. eauto.
  - intros p q i [_ Hp]%lookup_delete_Some [_ Hq]%lookup_delete_Some. eauto.
Qed.

Lemma opened_file path d r fl k k' :
  opened path d fl k k' -> access_good r (mkOfile [] 0 (status_flags fl)) ->
  file_opened path d r k (if rq_delete r then sys_unlink path k' else k').
Proof.
  intros [H1 H2 HL H3 H4 H5 H6] Ha. destruct (rq_delete r) eqn:Er; split; rewrite ?Er; try done.
  - by apply unlink_ok.
  - exists (mkOfile d 0 (status_flags fl)). done.
  - unfold contents. cbn [sys_unlink set_names names]. by rewrite lookup_delete_eq.
  - intros q Hq. rewrite <- H4 by done. unfold contents. cbn [sys_unlink set_names names inodes]. by rewrite lookup_delete_ne.
  - intros fd q pos fl' Hq (i & n & E1 & E2 & E3)%H6. exists i, n. split_and!; [done|done|]. cbn [sys_unlink set_names names]. by rewrite lookup_delete_ne.
  - exists (mkOfile d 0 (status_flags fl)). done.
  - intros fd q pos fl' _. apply H6.
Qed.

Lemma shown_good r fl :
  (let f := mkOfile [] 0 (status_flags fl) in
   Bool.eqb (readable f) (rq_read r || negb (rq_write r || rq_append r)) && Bool.eqb (writable f) (rq_write r || rq_append r) && Bool.eqb (appending f) (rq_append r)) = true ->
  access_good r (mkOfile [] 0 (status_flags fl)).
Proof. cbv zeta. intros [[H1%Bool.eqb_prop H2%Bool.eqb_prop]%andb_true_iff H3%Bool.eqb_prop]%andb_true_iff. done. Qed.

(** What [do_initialize] does after it has a descriptor. *)
Lemma finish_open path d r fl k k' :
  opened path d fl k k' -> access_good r (mkOfile [] 0 (status_flags fl)) ->
  exists k2 : kernel,
    (forall (created : bool) (script : list wish),
      ('(file, k2) ← reset (new_fd k) kInvalidPlatformFile (if has (request_flags r) FLAG_DELETE_ON_CLOSE then sys_unlink path k' else k');
        Ok (mkFile file FILE_OK created, k2, script)) = Ok (mkFile (new_fd k) FILE_OK created, k2, script))
    /\ file_opened path d r k k2.
Proof.
  intros Ho Ha. destruct (request_flags_has r) as (_ & _ & ->). eexists. split; [reflexivity|]. by apply (opened_file path d r fl).
Qed.

Lemma make_file_ok path r k script :
  references_parent path = Ok false -> fs_ok k -> smooth 100 script -> request_ok r = true ->
  exists fl k' script', make_file path (request_flags r) k script = Ok (fl, k', script') /\ smooth 100 script'
    /\ match mode_result (rq_mode r) (contents k path) with
       | inl e => fl = mkFile kInvalidPlatformFile e false /\ k' = k
       | inr (d, created) => fl = mkFile (new_fd k) FILE_OK created /\ file_opened path d r k k'
       end.
Proof.
  intros Hp Hk Hs Hr. unfold make_file, initialize. rewrite Hp. cbn [mbind outcome_bind]. unfold do_initialize.
  rewrite (check_true (negb _)) by done. cbn [mbind outcome_bind file_].
  pose proof (open_flags_all r) as Hf. unfold open_flags_good in Hf. destruct (open_flags (request_flags r)) as [fl|]; [|by rewrite Hr in Hf].
  cbn [mbind outcome_bind]. cbv zeta in Hf.
  apply andb_true_iff in Hf as [[[[[[[_ H1]%andb_true_iff H2]%andb_true_iff H3]%andb_true_iff H4]%andb_true_iff S1%shown_good]%andb_true_iff S2%shown_good]%andb_true_iff S3%shown_good].
  apply Bool.eqb_prop in H1, H2, H3. destruct (request_flags_has r) as (Ha & Hcr & _). rewrite Ha, Hcr.
  destruct (sys_open_smooth path fl k script Hs) as (s1 & -> & Hs1). pose proof (sys_open_ok path fl k Hk) as Ho. rewrite H1, H2, H3 in Ho.
  destruct (contents k path) as [d|] eqn:Ec; destruct (rq_mode r) eqn:Em; cbn [andb] in Ho; cbn [mode_result];
    try (destruct Ho as (k' & -> & Ho); cbv beta iota zeta; destruct (finish_open path _ r fl k k' Ho S1) as (k2 & -> & Hfo); do 3 eexists; split_and!; done);
    rewrite Ho; cbv beta iota zeta; try (do 3 eexists; split_and!; done).
  (* [OpenAlways], and the file is missing *)
  set (fl2 := if _ || _ then _ else _). assert (S4 : access_good r (mkOfile [] 0 (status_flags fl2))) by (unfold fl2; by case_match).
  repeat apply andb_true_iff in H4 as [H4 ?]. assert (has fl2 O_CREAT = true) as Hcreat by (unfold fl2; by case_match).
  destruct (sys_open_smooth path fl2 k s1 Hs1) as (s2 & -> & Hs2). pose proof (sys_open_ok path fl2 k Hk) as Ho2. rewrite Ec, Hcreat in Ho2.
  destruct Ho2 as (k' & -> & Ho2). cbv beta iota zeta. destruct (finish_open path _ r fl2 k k' Ho2 S4) as (k2 & -> & Hfo). do 3 eexists. split_and!; done.
Qed.

(** *** Using an open file *)

Lemma view_update fd g g' k : fs_ok k -> view k fd = Some g -> view (update fd g' k) fd = Some g'.
Proof.
  intros Hk. unfold view, update. destruct (description_of k fd) as [i|] eqn:Ei; [|done]. cbn. destruct (descriptions k !! i) as [d|] eqn:Ed; [|done]. cbn.
  intros _. change (description_of _ fd) with (description_of k fd). rewrite Ei. cbn.
  rewrite list_lookup_insert_eq by (by eapply lookup_lt_Some). cbn. rewrite list_lookup_insert_eq by (by eapply (ok_descriptions k Hk)). by destruct g'.
Qed.

(** Writing back what was there changes nothing. *)
Lemma update_same fd k g : view k fd = Some g -> update fd g k = k.
Proof.
  unfold view, update. destruct (description_of k fd) as [i|] eqn:Ei; [|done]. cbn. destruct (descriptions k !! i) as [d|] eqn:Ed; [|done]. cbn.
  destruct (inodes k !! d_ino d) as [data|] eqn:Eo; [|done]. cbn. intros [= <-]. cbn. rewrite !list_insert_id; [by destruct k|by destruct d|done].
Qed.

Lemma update_ok fd g k : fs_ok k -> fs_ok (update fd g k).
Proof.
  intros [H1 H2 H3 H4]. unfold update. destruct (description_of k fd) as [i|]; [|done]. destruct (descriptions k !! i) as [d|] eqn:Ed; [|done].
  split; cbn [names inodes descriptions descriptors]; rewrite ?length_insert; [done|done| |done].
  intros j d' [(? & ? & _)|[_ Hj]]%list_lookup_insert_Some; [|by eapply H3]. subst. by eapply (H3 _ d).
Qed.

Lemma update_description fd g k fd' : description_of (update fd g k) fd' = description_of k fd'.
Proof. unfold update. destruct (description_of k fd); [|done]. by destruct (descriptions k !! _). Qed.

Lemma update_linked fd g k path : linked k fd path -> linked (update fd g k) fd path.
Proof.
  intros (i & d & H1 & H2 & H3). exists i, (mkDescription (d_ino d) (f_pos g) (f_flags g)). rewrite update_description. split; [done|].
  unfold update. rewrite H1, H2. cbn. split; [|done]. apply list_lookup_insert_eq. by eapply lookup_lt_Some.
Qed.

(** Writing through a descriptor changes the file it is open for, and no other. *)
Lemma update_contents fd g k path q : fs_ok k -> linked k fd path ->
  contents (update fd g k) q = if decide (q = path) then Some (f_data g) else contents k q.
Proof.
  intros Hk (i & d & H1 & H2 & H3). unfold update, contents. rewrite H1, H2. cbn. destruct (decide (q = path)) as [->|Hne].
  - rewrite H3. cbn. apply list_lookup_insert_eq. by eapply (ok_names k Hk).
  - destruct (names k !! q) as [j|] eqn:Ej; [|done]. cbn. apply list_lookup_insert_ne. intros <-. destruct Hne. by eapply (ok_inj k Hk).
Qed.

Lemma linked_view k fd path : fs_ok k -> linked k fd path -> exists g, view k fd = Some g /\ contents k path = Some (f_data g).
Proof.
  intros Hk (i & d & H1 & H2 & H3). unfold view, contents. rewrite H1, H3. cbn. rewrite H2. cbn.
  destruct (lookup_lt_is_Some_2 (inodes k) (d_ino d)) as [x Hx]; [by eapply (ok_names k Hk)|]. rewrite Hx. cbn. by eexists.
Qed.

(** Closing one descriptor leaves files and the other descriptors alone. *)
Lemma close_other fd i k : fs_ok k -> description_of k fd = Some i ->
  exists k', sys_close fd k = (true, k') /\ fs_ok k' /\ (forall q, contents k' q = contents k q)
    /\ (forall fd', fd' <> fd -> view k' fd' = view k fd')
    /\ (forall fd' path, fd' <> fd -> linked k fd' path -> linked k' fd' path).
Proof.
  intros Hk Hi. unfold sys_close. rewrite Hi. eexists. split; [done|].
  assert (H0 : 0 <= fd) by (unfold description_of in Hi; destruct (Z.ltb_spec fd 0); done || lia).
  assert (Hd : forall fd', fd' <> fd -> description_of (set_descriptors (<[Z.to_nat fd:=None]> (descriptors k)) k) fd' = description_of k fd').
  { intros fd' Hne. unfold description_of. cbn [set_descriptors descriptors]. destruct (Z.ltb_spec fd' 0); [done|]. rewrite list_lookup_insert_ne by lia. done. }
  split_and!; [|done|..].
  - destruct Hk as [H1 H2 H3 H4]. split; cbn [set_descriptors names inodes descriptions descriptors]; [done|done|done|].
    intros n j [(_ & ? & _)|[_ Hn]]%list_lookup_insert_Some; [done|by eapply H4].
  - intros fd' Hne. unfold view. by rewrite Hd.
  - intros fd' path Hne (j & d & H1 & H2 & H3). exists j, d. by rewrite Hd.
Qed.

Lemma destroy_open f k i : fs_ok k -> is_valid f = true -> description_of k (file_ f) = Some i ->
  exists k', destroy_file f k = Ok k' /\ sys_close (file_ f) k = (true, k').
Proof.
  intros Hk Hf Hi. destruct (close_other _ _ _ Hk Hi) as (k' & Ec & _). exists k'. split; [|done].
  unfold destroy_file, close. rewrite Hf. cbn [negb]. unfold reset, free_if_necessary, free.
  unfold is_valid in Hf. apply negb_true_iff in Hf. rewrite Hf. cbn [negb andb check mbind outcome_bind]. rewrite Ec. done.
Qed.

Lemma read_at_ok f offset size script : readable f = true -> 0 <= offset -> 0 <= size ->
  exists rv data script', read true offset size f script = Ok (rv, data, f, script')
    /\ data = zslice offset (zlen data) (f_data f) /\ zlen data <= size /\ (rv = zlen data \/ rv = -1 /\ data = [])
    /\ (smooth 100 script -> rv = zlen data /\ data = zslice offset size (f_data f) /\ smooth 100 script').
Proof.
  intros Hr Ho Hs. unfold read. cbn [check mbind outcome_bind]. destruct (Z.ltb_spec size 0); [lia|].
  destruct (read_loop_ok (zdrop offset (f_data f)) (fun _ g => g = f) (fun b n => sys_pread (offset + b) n)) with (fuel := S (Z.to_nat size)) (size := size)
    (data := @nil byte) (g := f) (script := script) as (rv & data & g' & s' & E & -> & H1 & H2 & H3 & H4).
  - intros b n w g -> Hb Hn. pose proof (pread_call f offset b n w Hr Ho Hb) as Hc. destruct (allowed w n); [done|]. eexists. split; [exact Hc|done].
  - done.
  - by rewrite zlen_nil, ztake_0.
  - done.
  - rewrite zlen_nil. lia.
  - exists rv, data, s'. split_and!; [done|done|done|done|]. intros Hsm. by apply H4; [|left].
Qed.

Lemma read_here_ok f size script : readable f = true -> 0 <= f_pos f -> 0 <= size ->
  exists rv data script', read_at_current_pos true size f script = Ok (rv, data, moved (zlen data) f, script')
    /\ data = zslice (f_pos f) (zlen data) (f_data f) /\ zlen data <= size /\ (rv = zlen data \/ rv = -1 /\ data = [])
    /\ (smooth 100 script -> rv = zlen data /\ data = zslice (f_pos f) size (f_data f) /\ smooth 100 script').
Proof.
  intros Hr Ho Hs. unfold read_at_current_pos. cbn [check mbind outcome_bind]. destruct (Z.ltb_spec size 0); [lia|].
  destruct (read_loop_ok (zdrop (f_pos f) (f_data f)) (fun b g => g = moved b f) (fun _ n => sys_read n)) with (fuel := S (Z.to_nat size)) (size := size)
    (data := @nil byte) (g := f) (script := script) as (rv & data & g' & s' & E & -> & H1 & H2 & H3 & H4).
  - intros b n w g -> Hb Hn. pose proof (read_call f b n w Hr Ho Hb) as Hc. destruct (allowed w n); [done|]. eexists. split; [exact Hc|done].
  - rewrite zlen_nil. unfold moved. rewrite Z.add_0_r. by destruct f.
  - by rewrite zlen_nil, ztake_0.
  - done.
  - rewrite zlen_nil. lia.
  - exists rv, data, s'. split_and!; [done|done|done|done|]. intros Hsm. by apply H4; [|left].
Qed.

Lemma written_ztake off pos n size data f : n <= size -> written off pos n (ztake size data) f = written off pos n data f.
Proof. intros Hn. unfold written. rewrite ztake_ztake. do 2 f_equal. f_equal. lia. Qed.

(** ** Theorems *)

(** [read] and [read_at_current_pos] always return.  Whatever the kernel does, the bytes in the buffer are those of the
    file from the offset on, the result counts them or is -1 when there are none, and the position moves past them in the
    second case only.  When the kernel reports no error but interruptions, of which up to 100 in a row are repeated, and however few bytes each call
    transfers, they read everything that is there up to [size] bytes. *)
Theorem read_best_effort (f : ofile) (offset size : Z) (script : list wish) :
  readable f = true -> 0 <= offset -> 0 <= f_pos f -> 0 <= size ->
  (exists rv data script', read true offset size f script = Ok (rv, data, f, script')
    /\ data = zslice offset (zlen data) (f_data f) /\ zlen data <= size /\ (rv = zlen data \/ rv = -1 /\ data = [])
    /\ (smooth 100 script -> rv = zlen data /\ data = zslice offset size (f_data f)))
  /\ (exists rv data script', read_at_current_pos true size f script = Ok (rv, data, moved (zlen data) f, script')
    /\ data = zslice (f_pos f) (zlen data) (f_data f) /\ zlen data <= size /\ (rv = zlen data \/ rv = -1 /\ data = [])
    /\ (smooth 100 script -> rv = zlen data /\ data = zslice (f_pos f) size (f_data f))).
Proof.
  intros Hr Ho Hp Hs. destruct (read_at_ok f offset size script Hr Ho Hs) as (rv & d & s' & E & H1 & H2 & H3 & H4).
  destruct (read_here_ok f size script Hr Hp Hs) as (rv2 & d2 & s2 & E2 & H5 & H6 & H7 & H8).
  split; [exists rv, d, s'|exists rv2, d2, s2]; (split_and!; [done..|]); intros Hsm; [by destruct (H4 Hsm) as (? & ? & _)|by destruct (H8 Hsm) as (? & ? & _)].
Qed.

Definition sample : ofile := mkOfile (txt "0123456789") 2 O_RDWR.
Definition rough : list wish := [Fail EINTR; Up 2; Fail EINTR; Fail EINTR; Up 1].

Lemma read_best_effort_witness :
  (exists script', read true 4 5 sample rough = Ok (5, txt "45678", sample, script'))
  /\ exists rv data script', read true 4 5 sample rough = Ok (rv, data, sample, script') /\ rv = zlen data /\ data = zslice 4 5 (f_data sample).
Proof.
  split; [eexists; vm_compute; reflexivity|].
  destruct (read_best_effort sample 4 5 rough) as [(rv & data & s' & E & _ & _ & _ & H) _]; [reflexivity|lia|cbn; lia|lia|].
  exists rv, data, s'. split; [exact E|]. apply H. cbn. repeat split.
Defined.

(** C26. [write] stores the bytes from the offset on, and [write_at_current_pos] from the position on; both append when the
    file is open for appending.  They always return, and whatever the kernel does the bytes stored are the first ones of the
    data, the result counts them or is -1 when there are none, and the rest of the file is as before.  When the kernel reports
    no error but interruptions, they store all of it; what was stored is then in the file at that place. *)
Theorem write_best_effort (f : ofile) (offset : Z) (data : bytes) (size : Z) (script : list wish) :
  writable f = true -> 0 <= offset -> 0 <= f_pos f -> 0 <= size <= zlen data ->
  (exists rv n script', write true offset data size f script
      = Ok (rv, if appending f then written_here n data f else written offset (f_pos f) n data f, script')
    /\ 0 <= n <= size /\ (rv = n \/ rv = -1 /\ n = 0) /\ (smooth 100 script -> rv = size /\ n = size)
    /\ (let off := if appending f then zlen (f_data f) else offset in zslice off n (store off (ztake n data) (f_data f)) = ztake n data))
  /\ (exists rv n script', write_at_current_pos true data size f script = Ok (rv, written_here n data f, script')
    /\ 0 <= n <= size /\ (rv = n \/ rv = -1 /\ n = 0) /\ (smooth 100 script -> rv = size /\ n = size)).
Proof.
  intros Hw Ho Hp Hs. assert (Hl : zlen (ztake size data) = size) by (rewrite zlen_ztake; lia).
  assert (Hslice : forall off n, 0 <= off -> 0 <= n <= size -> zslice off n (store off (ztake n data) (f_data f)) = ztake n data).
  { intros off n H1 H2. rewrite <- (zslice_store off (ztake n data) (f_data f)) at 2 by done. f_equal. rewrite zlen_ztake. lia. }
  assert (H : exists rv n script', write_at_current_pos true data size f script = Ok (rv, written_here n data f, script')
    /\ 0 <= n <= size /\ (rv = n \/ rv = -1 /\ n = 0) /\ (smooth 100 script -> rv = size /\ n = size)).
  { unfold write_at_current_pos. cbn [check mbind outcome_bind]. destruct (Z.ltb_spec size 0); [lia|]. rewrite defined_true by (apply Z.leb_le; lia). cbn [mbind outcome_bind].
    destruct (write_here_ok (ztake size data) f script Hw Hp) as (rv & n & s' & E & H1 & H2 & H3). rewrite Hl in *. rewrite E.
    exists rv, n, s'. unfold written_here. rewrite written_ztake by lia. split_and!; [done|lia..|done|]. intros Hsm. by destruct (H3 Hsm) as (? & ? & _). }
  split; [|exact H]. unfold write, is_open_append. fold (appending f). destruct (appending f).
  - destruct H as (rv & n & s' & E & H1 & H2 & H3). exists rv, n, s'. split_and!; [done|lia..|done|done|]. apply Hslice; [apply zlen_nonneg|done].
  - cbn [check mbind outcome_bind]. destruct (Z.ltb_spec size 0); [lia|]. rewrite defined_true by (apply Z.leb_le; lia). cbn [mbind outcome_bind].
    destruct (write_at_ok (ztake size data) f offset script Hw Ho) as (rv & n & s' & E & H1 & H2 & H3). rewrite Hl in *. rewrite E.
    exists rv, n, s'. rewrite written_ztake by lia. split_and!; [done|lia..|done| |by apply Hslice]. intros Hsm. by destruct (H3 Hsm) as (? & ? & _).
Qed.

Lemma write_best_effort_witness :
  (exists f' script', write true 8 (txt "abcdef") 5 sample rough = Ok (5, f', script') /\ f_data f' = txt "01234567abcde")
  /\ exists rv n script', write true 8 (txt "abcdef") 5 sample rough = Ok (rv, written 8 2 n (txt "abcdef") sample, script') /\ rv = 5.
Proof.
  split; [do 2 eexists; split; vm_compute; reflexivity|].
  destruct (write_best_effort sample 8 (txt "abcdef") 5 rough) as [(rv & n & s' & E & _ & _ & H & _) _]; [reflexivity|lia|cbn; lia|vm_compute; intuition discriminate|].
  exists rv, n, s'. split; [exact E|]. apply H. cbn. repeat split.
Defined.

(** C23. Opening a file with one of the five modes does what the comments of the flags say, for every combination of the other
    flags that asks for the access the mode needs: the file is opened or not depending on whether it exists, with
    its old bytes or none; it counts as created exactly when it is new or was overwritten by [FLAG_CREATE_ALWAYS]; the descriptor
    has the access asked for; other files and descriptors are left alone, and with a result other
    than an open file, everything is.  Other combinations fail a check.  A path that climbs to a parent directory is refused. *)
Theorem open_modes (path : bytes) (r : request) (k : kernel) (script : list wish) :
  path_ok path -> fs_ok k -> smooth 100 script ->
  ((exists c, c ∈ components path /\ climbs c) ->
     make_file path (request_flags r) k script = Ok (file_of_error FILE_ERROR_ACCESS_DENIED, k, script))
  /\ ((forall c, c ∈ components path -> ~ climbs c) ->
     if request_ok r then
       exists fl k' script', make_file path (request_flags r) k script = Ok (fl, k', script') /\ smooth 100 script'
         /\ match mode_result (rq_mode r) (contents k path) with
            | inl e => fl = file_of_error e /\ k' = k
            | inr (d, created) => fl = mkFile (new_fd k) FILE_OK created /\ file_opened path d r k k'
            end
     else exists e, make_file path (request_flags r) k script = Fault e).
Proof.
  intros Hp Hk Hs. destruct (references_parent_ok path Hp) as (b & Eb & Hb). split.
  - intros Hc. apply Hb in Hc as ->. unfold make_file, initialize. by rewrite Eb.
  - intros Hc. destruct b; [destruct Hb as [Hb _]; destruct (Hb eq_refl) as (c & Hin & Hcl); by destruct (Hc c)|].
    destruct (request_ok r) eqn:Er; [by apply make_file_ok|].
    unfold make_file, initialize, do_initialize. rewrite Eb. cbn [mbind outcome_bind]. rewrite (check_true (negb _)) by done. cbn [mbind outcome_bind].
    pose proof (open_flags_all r) as Hf. unfold open_flags_good in Hf. rewrite Er in Hf. destruct (open_flags (request_flags r)); [done|]. by eexists.
Qed.

Definition some_kernel : kernel := mkKernel {[txt "log" := 0%nat]} [txt "old"] [mkDescription 0 3 O_WRONLY] [None; Some 0%nat].

Lemma some_kernel_ok : fs_ok some_kernel.
Proof.
  split; cbn [some_kernel names inodes descriptions descriptors].
  - intros p i [_ <-]%lookup_singleton_Some. cbn. lia.
  - intros p q i [<- _]%lookup_singleton_Some [<- _]%lookup_singleton_Some. done.
  - intros [|j] d; [|done]. intros [= <-]. cbn. lia.
  - intros [|[|n]] j; [done| |done]. intros [= <-]. cbn. lia.
Qed.

Definition for_appending : request := mkRequest OpenAlways false false true false false false false.

Lemma open_modes_witness :
  exists k' script', make_file (txt "log") (request_flags for_appending) some_kernel [Fail EINTR] = Ok (mkFile 0 FILE_OK false, k', script')
    /\ contents k' (txt "log") = Some (txt "old").
Proof.
  destruct (open_modes (txt "log") for_appending some_kernel [Fail EINTR]) as [_ H].
  - split; [vm_compute; reflexivity|]. apply (bool_decide_unpack (Byte.x00 ∉ txt "log")). vm_compute. exact I.
  - exact some_kernel_ok.
  - cbn. repeat split.
  - destruct H as (fl & k' & s' & E & _ & Hfl & Hf).
    + intros c Hc. replace (components (txt "log")) with [txt "log"] in Hc by (vm_compute; reflexivity). apply list_elem_of_singleton in Hc as ->.
      intros [Hl%Forall_inv _]. revert Hl. apply (bool_decide_unpack (Byte.x6c ∉ _)). vm_compute. exact I.
    + exists k', s'. split; [rewrite E, Hfl; reflexivity|exact (fo_path _ _ _ _ _ Hf)].
Defined.
