(* ===== verification/LogFile.v ===== *)
(** * LogFile (include/LogFile.h, src/LogFile.cc)

    The file that log messages go to, which is changed for a new one when it has grown too large or a day has begun.
    Its operations are those of one thread: [append_unlocked] takes no lock, so that calls from several threads
    are not safe together with a rotation.  An operation that may rotate gets two readings of the clock, the one of [rotate] and
    the one of [get_log_filename].

    The file shows that every message arrives whole and in order in the file that is current, that a file in use only
    receives messages up to its size limit, and that what was there before stays. *)

From S2P Require Import Prelude StringPiece TimeStamp LogStream FilePath File.

(** ** Definitions *)

Record LogFile : Type := mkLogFile {
  path_ : bytes;
  rotate_size_b_ : Z;
  check_every_n_ : Z;
  count_ : Z;
  written_ : Z;
  file_ : option File;
  last_rotate_ : Z;
}.

Definition set_count c l := mkLogFile (path_ l) (rotate_size_b_ l) (check_every_n_ l) c (written_ l) (file_ l) (last_rotate_ l).
Definition set_written w l := mkLogFile (path_ l) (rotate_size_b_ l) (check_every_n_ l) (count_ l) w (file_ l) (last_rotate_ l).
Definition set_file f t l := mkLogFile (path_ l) (rotate_size_b_ l) (check_every_n_ l) (count_ l) (written_ l) f t.

(** The clock: what [rotate] and [get_log_filename] read. *)
Record clock : Type := mkClock { curr : Z; curr_name : Z }.

Section LogFile.
(** The name of the host when the system knows it, the number of the process, and the local time. *)
Context (gethostname : option bytes) (getpid : Z) (localtime : Z -> tm) (mktime : tm -> Z).

Definition hostname : bytes :=
  match gethostname with Some buf => make_file_path (ztake 255 buf) | None => txt "unknownhost" end.

Definition get_log_filename (now : Z) (path : bytes) : outcome bytes :=
  exploded ← to_explode localtime true now;
  let filename := path ++ txt "." ++ zero_padded 4 (year exploded) ++ zero_padded 2 (month exploded) ++ zero_padded 2 (day_of_month exploded)
    ++ txt "-" ++ zero_padded 2 (hour exploded) ++ zero_padded 2 (minute exploded) ++ zero_padded 2 (second exploded) ++ txt "." in
  let filename := filename ++ hostname ++ txt "." ++ zero_padded 1 getpid ++ txt "." ++ txt "log" in
  Ok (make_file_path filename).

Definition log_flush (l : LogFile) (k : kernel) (script : list wish) : outcome (kernel * list wish) :=
  match file_ l with
  | Some f => '(_, k, script) ← flush f k script; Ok (k, script)
  | None => Ok (k, script)
  end.

(** [do_rotate_with_locked]. *)
Definition do_rotate_with_locked (c : clock) (l : LogFile) (k : kernel) (script : list wish) : outcome (LogFile * kernel * list wish) :=
  '(k, script) ← log_flush l k script;
  name ← get_log_filename (curr_name c) (path_ l);
  '(file, k, script) ← make_file name (Z.lor FLAG_OPEN_ALWAYS FLAG_APPEND) k script;
  check (bool_decide (error_details_ file = FILE_OK)) "rotate: error_details";;
  '(length, k, script) ← get_length file k script;
  let l := set_written length l in
  k ← match file_ l with Some old => destroy_file old k | None => Ok k end;
  Ok (set_file (Some file) (curr c) l, k, script).

Definition rotate (force : bool) (c : clock) (l : LogFile) (k : kernel) (script : list wish) : outcome (LogFile * kernel * list wish) :=
  if force then do_rotate_with_locked c l k script
  else
    midnight ← midnight localtime mktime false (curr c);
    if last_rotate_ l <? midnight then do_rotate_with_locked c l k script
    else '(k, script) ← log_flush l k script; Ok (l, k, script).

(** The constructor. *)
Definition make_log (path : bytes) (rotate_size_b check_every_n : Z) (c : clock) (k : kernel) (script : list wish) : outcome (LogFile * kernel * list wish) :=
  check (negb (ends_with_separator path)) "LogFile: path_";;
  rotate true c (mkLogFile path rotate_size_b check_every_n 0 0 None 0) k script.

Definition append_unlocked (message : bytes) (len : Z) (c : clock) (l : LogFile) (k : kernel) (script : list wish) : outcome (LogFile * kernel * list wish) :=
  let old_written := written_ l in
  let l := set_written (i64 (old_written + len)) l in
  '(l, k, script) ←
    (if rotate_size_b_ l <? old_written then rotate true c l k script
     else
       let old_count := count_ l in
       let l := set_count (i32 (old_count + 1)) l in
       if check_every_n_ l <=? old_count then rotate false c (set_count 0 l) k script
       else Ok (l, k, script));
  match file_ l with
  | None => Fault (Undefined "append_unlocked: file_")
  | Some f =>
      '(rv, k, script) ← file_write_at_current_pos message len f k script;
      check (rv =? len) "append_unlocked: write_at_current_pos";;
      Ok (l, k, script)
  end.

Definition log_append (message : bytes) : clock -> LogFile -> kernel -> list wish -> outcome (LogFile * kernel * list wish) :=
  append_unlocked message (i32 (zlen message)).

(** The operations of a user, in sequence. *)
Inductive op : Type := Append (message : bytes) (c : clock) | Rotate (force : bool) (c : clock) | Flush.

Definition perform (o : op) (l : LogFile) (k : kernel) (script : list wish) : outcome (LogFile * kernel * list wish) :=
  match o with
  | Append m c => log_append m c l k script
  | Rotate force c => rotate force c l k script
  | Flush => '(k, script) ← log_flush l k script; Ok (l, k, script)
  end.

Fixpoint perform_all (os : list op) (l : LogFile) (k : kernel) (script : list wish) : outcome (LogFile * kernel * list wish) :=
  match os with
  | [] => Ok (l, k, script)
  | o :: os => '(l, k, script) ← perform o l k script; perform_all os l k script
  end.

(** ** Lemmas *)

(** A reading of the clock that a date can be made of, and a name without parent directories. *)
Definition clock_ok (path : bytes) (c : clock) : Prop :=
  kInt64Min + 86402000000 <= curr c <= kInt64Max /\ kInt64Min + 1000 <= curr_name c <= kInt64Max
  /\ forall name, get_log_filename (curr_name c) path = Ok name -> references_parent name = Ok false.

(** The descriptor of the log is open for appending to [name]. *)
Record log_open (l : LogFile) (k : kernel) (name : bytes) (g : ofile) : Prop := {
  lo_fs : fs_ok k;
  lo_file : exists f, file_ l = Some f /\ File.is_valid f = true /\ linked k (File.file_ f) name /\ view k (File.file_ f) = Some g;
  lo_access : writable g = true /\ appending g = true /\ 0 <= f_pos g;
}.

Lemma log_open_contents l k name g : log_open l k name g -> contents k name = Some (f_data g).
Proof.
  intros [Hk (f & _ & _ & Hl & Hv) _]. destruct (linked_view k _ name Hk Hl) as (g' & Hg' & Hc). rewrite Hv in Hg'. by injection Hg' as <-.
Qed.

Lemma get_log_filename_ok path c : clock_ok path c -> exists name, get_log_filename (curr_name c) path = Ok name /\ references_parent name = Ok false.
Proof.
  intros (_ & Hc & Hn). unfold get_log_filename in *. unfold to_explode in *. rewrite split_time_floor in * by done. cbn [mbind outcome_bind] in *.
  eexists. split; [reflexivity|]. by apply Hn.
Qed.

Lemma flush_smooth f k script : File.is_valid f = true -> smooth 100 script -> exists script', flush f k script = Ok (true, k, script') /\ smooth 100 script'.
Proof.
  intros Hf Hs. unfold flush. rewrite Hf. cbn [check mbind outcome_bind]. unfold HANDLE_EINTR.
  destruct (handle_eintr_smooth 100 sys_fdatasync k script) as (s' & -> & Hs'); [done|done|done|done|]. by exists s'.
Qed.

Lemma log_flush_ok l k script : (forall f, file_ l = Some f -> File.is_valid f = true) -> smooth 100 script ->
  exists script', log_flush l k script = Ok (k, script') /\ smooth 100 script'.
Proof.
  intros Hf Hs. unfold log_flush. destruct (file_ l) as [f|]; [|by exists script].
  destruct (flush_smooth f k script) as (s' & -> & Hs'); [by apply Hf|done|]. by exists s'.
Qed.

Lemma log_request : Z.lor FLAG_OPEN_ALWAYS FLAG_APPEND = request_flags for_appending.
Proof. reflexivity. Qed.

(** Either there is no file yet, or the log is open. *)
Definition log_ready (l : LogFile) (k : kernel) : Prop := file_ l = None \/ exists name g, log_open l k name g.

Lemma get_length_open f k g script : File.is_valid f = true -> view k (File.file_ f) = Some g ->
  get_length f k script = Ok (zlen (f_data g), update (File.file_ f) g k, script).
Proof. intros Hf Hv. unfold get_length, on_file. rewrite Hv, Hf. done. Qed.

(** What a rotation gives: the log is open for the file with the name of the moment, whose bytes are what was there. *)
Record rotated (c : clock) (l : LogFile) (k : kernel) (l' : LogFile) (k' : kernel) (name : bytes) (g : ofile) : Prop := {
  ro_name : get_log_filename (curr_name c) (path_ l) = Ok name;
  ro_log : l' = set_file (file_ l') (curr c) (set_written (zlen (f_data g)) l);
  ro_open : log_open l' k' name g;
  ro_data : f_data g = default [] (contents k name);
  ro_other : forall q, q <> name -> contents k' q = contents k q;
}.

Lemma do_rotate_ok c l k script :
  log_ready l k -> fs_ok k -> clock_ok (path_ l) c -> smooth 100 script ->
  exists l' k' script' name g, do_rotate_with_locked c l k script = Ok (l', k', script') /\ smooth 100 script' /\ rotated c l k l' k' name g.
Proof.
  intros Hl Hk Hc Hs. unfold do_rotate_with_locked.
  destruct (log_flush_ok l k script) as (s1 & -> & Hs1); [|done|]. { intros f Hf. destruct Hl as [Hl|(n & g & [_ (f' & Hf' & Hv & _) _])]; congruence. }
  destruct (get_log_filename_ok (path_ l) c Hc) as (name & En & Hp). cbn [mbind outcome_bind]. rewrite En. cbn [mbind outcome_bind].
  rewrite log_request. destruct (make_file_ok name for_appending k s1) as (fl & k1 & s2 & -> & Hs2 & Hm); [done|done|done|done|].
  assert (exists created, fl = mkFile (new_fd k) FILE_OK created /\ file_opened name (default [] (contents k name)) for_appending k k1) as (created & -> & [Ho1 (g & Hv & Hd & Hpos & Ha) Hlk Hpath Hoth Hdesc _]).
  { cbn [for_appending rq_mode mode_result] in Hm. destruct (contents k name) as [d|]; destruct Hm as [-> Hm]; eauto. }
  specialize (Hlk eq_refl). destruct Ha as (_ & Hw & Happ). cbn [mbind outcome_bind]. rewrite check_true by done. cbn [mbind outcome_bind].
  assert (Hval : forall cr, File.is_valid (mkFile (new_fd k) FILE_OK cr) = true).
  { intros cr. unfold File.is_valid. cbn. pose proof (new_fd_nonneg k). apply negb_true_iff, Z.eqb_neq. unfold kInvalidPlatformFile. lia. }
  rewrite (get_length_open _ k1 g) by done. cbn [mbind outcome_bind File.file_]. rewrite update_same by done. cbn [set_written file_].
  assert (Hopen : forall k2 l2, file_ l2 = Some (mkFile (new_fd k) FILE_OK created) -> fs_ok k2 -> view k2 (new_fd k) = Some g -> linked k2 (new_fd k) name -> log_open l2 k2 name g).
  { intros k2 l2 E2 H1 H2 H3. split; [done| |split_and!; done || lia]. eexists. split_and!; [exact E2|done|done|done]. }
  destruct (file_ l) as [old|] eqn:Eold.
  - destruct Hl as [Hl|(n & g0 & [_ (f & Hf & Hfv & (i & d & Hi & _) & _) _])]; [congruence|]. rewrite Hf in Eold. injection Eold as ->.
    pose proof (new_fd_free _ _ _ Hi) as Hne. rewrite <- Hdesc in Hi by done.
    destruct (close_other _ _ _ Ho1 Hi) as (k2 & Ec & Hk2 & Hcont & Hview & Hlink). destruct (destroy_open old k1 i Ho1 Hfv Hi) as (k2' & Ed & Ec').
    rewrite Ec in Ec'. injection Ec' as <-. rewrite Ed. cbn [mbind outcome_bind]. do 5 eexists. split; [done|]. split; [done|].
    split; [done|done| |done|by intros q Hq; rewrite Hcont, Hoth]. apply Hopen; [done|done|by rewrite Hview|by apply Hlink].
  - cbn [mbind outcome_bind]. do 5 eexists. split; [done|]. split; [done|]. split; [done|done| |done|done]. by apply Hopen.
Qed.

(** What [append_unlocked] or [rotate] leaves: the log as it was, or rotated. *)
Definition kept_or_rotated (c : clock) (l : LogFile) (k : kernel) (l' : LogFile) (k' : kernel) : Prop :=
  (l' = l /\ k' = k) \/ exists name g, rotated c l k l' k' name g.

Lemma rotate_ok force c l k name g script :
  log_open l k name g -> clock_ok (path_ l) c -> smooth 100 script ->
  exists l' k' script', rotate force c l k script = Ok (l', k', script') /\ smooth 100 script' /\ kept_or_rotated c l k l' k'
    /\ (force = true \/ last_rotate_ l < curr c / kMicrosecondsPerDay * kMicrosecondsPerDay -> exists name g, rotated c l k l' k' name g).
Proof.
  intros Hl Hc Hs. assert (Hr : log_ready l k) by (right; eauto). pose proof (lo_fs _ _ _ _ Hl) as Hk.
  assert (Hdo : exists l' k' script', do_rotate_with_locked c l k script = Ok (l', k', script') /\ smooth 100 script' /\ kept_or_rotated c l k l' k'
    /\ (force = true \/ last_rotate_ l < curr c / kMicrosecondsPerDay * kMicrosecondsPerDay -> exists name g, rotated c l k l' k' name g)).
  { destruct (do_rotate_ok c l k script Hr Hk Hc Hs) as (l' & k' & s' & n & g' & E & Hs' & Hro). exists l', k', s'. split_and!; [done|done|right; eauto|eauto]. }
  unfold rotate. destruct force; [exact Hdo|]. rewrite utc_midnight_ok by (apply Hc). cbn [mbind outcome_bind].
  destruct (Z.ltb_spec (last_rotate_ l) (curr c / kMicrosecondsPerDay * kMicrosecondsPerDay)) as [_|Hge]; [exact Hdo|].
  destruct (log_flush_ok l k script) as (s1 & -> & Hs1); [|done|]. { destruct Hl as [_ (f & Hf & Hv & _) _]. congruence. }
  exists l, k, s1. split_and!; [done|done|by left|]. intros [?|?]; [done|lia].
Qed.

(** *** Messages *)

(** One message that was appended, and the file it went to. *)
Record entry : Type := mkEntry { e_name : bytes; e_mesg : bytes; e_clock : clock }.

Fixpoint appends (os : list op) : list (bytes * clock) :=
  match os with Append m c :: os => (m, c) :: appends os | _ :: os => appends os | [] => [] end.

(** What is in a file after the messages of [trace]. *)
Definition landed (k0 : kernel) (trace : list entry) (q : bytes) : bytes :=
  default [] (contents k0 q) ++ concat (map e_mesg (filter (fun e => e_name e = q) trace)).

Lemma landed_snoc k0 trace e q : landed k0 (trace ++ [e]) q = if decide (q = e_name e) then landed k0 trace q ++ e_mesg e else landed k0 trace q.
Proof.
  unfold landed. rewrite filter_app. destruct (decide (q = e_name e)) as [->|Hne].
  - rewrite filter_cons_True by done. rewrite filter_nil, map_app, concat_app. cbn. by rewrite app_nil_r, app_assoc.
  - rewrite filter_cons_False by (intros ?; done). by rewrite filter_nil, app_nil_r.
Qed.

(** A message goes to a file that is longer than [limit] only when that file has the name of the moment. *)
Definition bounded (path : bytes) (limit : Z) (k0 : kernel) (trace : list entry) : Prop :=
  forall t1 e t2, trace = t1 ++ e :: t2 ->
    zlen (landed k0 t1 (e_name e)) <= limit \/ get_log_filename (curr_name (e_clock e)) path = Ok (e_name e).

(** [M] is the length of the longest message. *)
Record log_inv (path : bytes) (size M : Z) (k0 : kernel) (trace : list entry) (l : LogFile) (k : kernel) : Prop := {
  li_path : path_ l = path;
  li_size : rotate_size_b_ l = size;
  li_open : exists name g u, log_open l k name g /\ zlen (f_data g) = written_ l + u /\ 0 <= u <= M /\ 0 <= written_ l;
  li_landed : forall q, default [] (contents k q) = landed k0 trace q;
  li_bounded : bounded path (size + M) k0 trace;
}.

Section Run.
Context (path : bytes) (size M : Z) (k0 : kernel).
Hypothesis (HM : 0 <= M < 2 ^ 31) (Hsize : size + M < 2 ^ 63).

Lemma rotated_inv trace c l k l' k' name g :
  (forall q, default [] (contents k q) = landed k0 trace q) -> rotated c l k l' k' name g ->
  forall q, default [] (contents k' q) = landed k0 trace q.
Proof.
  intros Hl Hr q. destruct (decide (q = name)) as [->|Hne].
  - rewrite (log_open_contents _ _ _ _ (ro_open _ _ _ _ _ _ _ Hr)). cbn. rewrite (ro_data _ _ _ _ _ _ _ Hr). apply Hl.
  - rewrite (ro_other _ _ _ _ _ _ _ Hr) by done. apply Hl.
Qed.

Lemma rotate_inv force c trace l k script :
  log_inv path size M k0 trace l k -> clock_ok path c -> smooth 100 script ->
  exists l' k' script', rotate force c l k script = Ok (l', k', script') /\ smooth 100 script' /\ log_inv path size M k0 trace l' k'.
Proof.
  intros [Hp Hz (n & g & u & Ho & Hu) Hl Hb] Hc Hs. subst path.
  destruct (rotate_ok force c l k n g script Ho Hc Hs) as (l' & k' & s' & E & Hs' & [[-> ->]|(n' & g' & Hr)] & _).
  - exists l, k, s'. split_and!; [done|done|]. split; eauto 10.
  - exists l', k', s'. split_and!; [done|done|]. pose proof (ro_log _ _ _ _ _ _ _ Hr) as El. split; [by rewrite El|by rewrite El| |by eapply rotated_inv|done].
    exists n', g', 0. split; [apply Hr|]. rewrite El. cbn [set_file set_written written_]. pose proof (zlen_nonneg (f_data g')). lia.
Qed.

(** The message is at the end of the file. *)
Lemma write_message m l k name g f script :
  log_open l k name g -> file_ l = Some f -> zlen m <= M -> smooth 100 script ->
  exists k' script' g', file_write_at_current_pos m (zlen m) f k script = Ok (zlen m, k', script') /\ smooth 100 script'
    /\ log_open l k' name g' /\ f_data g' = f_data g ++ m /\ forall q, q <> name -> contents k' q = contents k q.
Proof.
  intros [Hk (f' & Hf' & Hv & Hlk & Hg) (Hw & Ha & Hpos)] Hf Hm Hs. rewrite Hf in Hf'. injection Hf' as <-.
  unfold file_write_at_current_pos, on_file. rewrite Hg. unfold write_at_current_pos. rewrite Hv. pose proof (zlen_nonneg m).
  rewrite check_true by done. cbn [mbind outcome_bind]. destruct (Z.ltb_spec (zlen m) 0); [lia|]. rewrite defined_true by (by apply Z.leb_refl). cbn [mbind outcome_bind].
  rewrite (ztake_ge (zlen m) m) by lia. destruct (write_here_ok m g script Hw Hpos) as (rv & n & s' & -> & Hn & _ & H3). destruct (H3 Hs) as (-> & -> & Hs').
  cbn [mbind outcome_bind]. do 3 eexists. split; [reflexivity|]. split; [done|].
  assert (Hoff : write_offset g = zlen (f_data g)) by (unfold write_offset; by rewrite Ha).
  split; [|split].
  - split; [by apply update_ok| |].
    + exists f. split_and!; [done|done|by apply update_linked|by eapply view_update].
    + split_and!; [done|done|]. cbn. rewrite Hoff. pose proof (zlen_nonneg (f_data g)). case_match; lia.
  - cbn. by rewrite Hoff, store_end, ztake_ge by lia.
  - intros q Hq. erewrite update_contents by done. by destruct (decide (q = name)).
Qed.

(** Before the message is written: the log is open, and counts what it will hold but for one message. *)
Record about_to_write (len : Z) (c : clock) (trace : list entry) (l : LogFile) (k : kernel) (name : bytes) (g : ofile) : Prop := {
  aw_path : path_ l = path;
  aw_size : rotate_size_b_ l = size;
  aw_open : log_open l k name g;
  aw_count : exists u, zlen (f_data g) + len = written_ l + u /\ 0 <= u <= M /\ 0 <= written_ l;
  aw_landed : forall q, default [] (contents k q) = landed k0 trace q;
  aw_bound : zlen (f_data g) <= size + M \/ get_log_filename (curr_name c) path = Ok name;
}.

Lemma rotated_about len c trace l k l' k' name g :
  path_ l = path -> rotate_size_b_ l = size -> (forall q, default [] (contents k q) = landed k0 trace q) -> 0 <= len <= M ->
  rotated c l k l' k' name g -> about_to_write len c trace l' k' name g.
Proof.
  intros Hp Hz Hl Hlen Hr. pose proof (ro_log _ _ _ _ _ _ _ Hr) as El. split; [by rewrite El|by rewrite El|apply Hr| |by eapply rotated_inv|].
  - exists len. rewrite El. cbn [set_file set_written written_]. pose proof (zlen_nonneg (f_data g)). lia.
  - right. rewrite <- Hp. apply Hr.
Qed.

Lemma kept_about len c trace l k (count : Z) :
  log_inv path size M k0 trace l k -> 0 <= len <= M -> written_ l <= size ->
  exists name g, about_to_write len c trace (set_count count (set_written (i64 (written_ l + len)) l)) k name g.
Proof.
  intros [Hp Hz (n & g & u & Ho & Hu1 & Hu2 & Hu3) Hl Hb] Hlen Hw. exists n, g.
  split; [done|done| | |done|left; lia].
  - destruct Ho as [H1 H2 H3]. split; done.
  - exists u. cbn [set_count set_written written_]. rewrite i64_small by lia. lia.
Qed.

(** The rotation inside [append_unlocked]. *)
Lemma append_rotates len c trace l k script :
  log_inv path size M k0 trace l k -> clock_ok path c -> smooth 100 script -> 0 <= len <= M ->
  exists l' k' script' name g,
    (let l1 := set_written (i64 (written_ l + len)) l in
     if rotate_size_b_ l1 <? written_ l then rotate true c l1 k script
     else
       let l2 := set_count (i32 (count_ l1 + 1)) l1 in
       if check_every_n_ l2 <=? count_ l1 then rotate false c (set_count 0 l2) k script else Ok (l2, k, script)) = Ok (l', k', script')
    /\ smooth 100 script' /\ about_to_write len c trace l' k' name g.
Proof.
  intros Hi Hc Hs Hlen. pose proof Hi as [Hp Hz (n & g & u & Ho & Hu) Hl Hb]. cbv zeta.
  set (l1 := set_written _ l). change (rotate_size_b_ l1) with (rotate_size_b_ l). change (count_ l1) with (count_ l). assert (Ho1 : forall cnt, log_open (set_count cnt l1) k n g) by (destruct Ho as [H1 H2 H3]; intros cnt; by split).
  destruct (Z.ltb_spec (rotate_size_b_ l) (written_ l)) as [Hlt|Hge].
  - destruct (rotate_ok true c l1 k n g script) as (l' & k' & s' & E & Hs' & _ & Hr); [apply (Ho1 (count_ l1))|by rewrite <- Hp in Hc|done|].
    destruct Hr as (n' & g' & Hr); [by left|]. exists l', k', s', n', g'. split_and!; [done|done|]. by eapply (rotated_about len c trace l1 k).
  - destruct (kept_about len c trace l k (i32 (count_ l + 1)) Hi Hlen) as (n1 & g1 & Hk1); [lia|].
    destruct (kept_about len c trace l k 0 Hi Hlen) as (n2 & g2 & Hk2); [lia|].
    case_match; [|exists (set_count (i32 (count_ l + 1)) l1), k, script, n1, g1; by split_and!].
    destruct (rotate_ok false c (set_count 0 (set_count (i32 (count_ l + 1)) l1)) k n g script) as (l' & k' & s' & E & Hs' & [[-> ->]|(n' & g' & Hr)] & _);
      [apply (Ho1 0)|by rewrite <- Hp in Hc|done|..].
    + eexists _, _, _, n2, g2. split_and!; [exact E|done|exact Hk2].
    + exists l', k', s', n', g'. split_and!; [done|done|]. by eapply (rotated_about len c trace (set_count 0 l1) k).
Qed.

Lemma append_inv m c trace l k script :
  log_inv path size M k0 trace l k -> clock_ok path c -> smooth 100 script -> zlen m <= M ->
  exists l' k' script' name, log_append m c l k script = Ok (l', k', script') /\ smooth 100 script' /\ log_inv path size M k0 (trace ++ [mkEntry name m c]) l' k'.
Proof.
  intros Hi Hc Hs Hm. pose proof (zlen_nonneg m) as Hm0. unfold log_append, append_unlocked. rewrite i32_small by lia.
  destruct (append_rotates (zlen m) c trace l k script Hi Hc Hs) as (l1 & k1 & s1 & n & g & E & Hs1 & [Hp Hz Ho (u & Hu) Hl Hb]); [lia|].
  cbv zeta in E. cbv zeta. rewrite E. cbn [mbind outcome_bind]. pose proof Ho as [_ (f & Hf & _) _]. rewrite Hf.
  destruct (write_message m l1 k1 n g f s1 Ho Hf Hm Hs1) as (k2 & s2 & g2 & -> & Hs2 & Ho2 & Hd & Hoth). cbn [mbind outcome_bind]. rewrite Z.eqb_refl. cbn [check mbind outcome_bind].
  exists l1, k2, s2, n. split_and!; [done|done|]. pose proof (log_open_contents _ _ _ _ Ho) as Hc1. pose proof (log_open_contents _ _ _ _ Ho2) as Hc2.
  split; [done|done| | |].
  - exists n, g2, u. split; [done|]. rewrite Hd, zlen_app. lia.
  - intros q. rewrite landed_snoc. cbn [e_name e_mesg]. destruct (decide (q = n)) as [->|Hne]; [|by rewrite Hoth].
    rewrite <- Hl, Hc1, Hc2, Hd. done.
  - intros t1 e t2 Et. destruct t2 as [|e2 t2 _] using rev_ind.
    + apply app_inj_tail in Et as [<- <-]. cbn [e_name e_clock]. rewrite <- Hl, Hc1. exact Hb.
    + rewrite app_comm_cons, app_assoc in Et. apply app_inj_tail in Et as [-> _]. by eapply (li_bounded _ _ _ _ _ _ _ Hi).
Qed.

Definition op_ok (o : op) : Prop :=
  match o with Append m c => clock_ok path c /\ zlen m <= M | Rotate _ c => clock_ok path c | Flush => True end.

Lemma perform_inv o trace l k script :
  log_inv path size M k0 trace l k -> op_ok o -> smooth 100 script ->
  exists l' k' script' t, perform o l k script = Ok (l', k', script') /\ smooth 100 script' /\ log_inv path size M k0 (trace ++ t) l' k'
    /\ map (fun e => (e_mesg e, e_clock e)) t = appends [o].
Proof.
  intros Hi Ho Hs. destruct o as [m c|force c|]; cbn [perform appends].
  - destruct Ho as [Hc Hm]. destruct (append_inv m c trace l k script Hi Hc Hs Hm) as (l' & k' & s' & n & -> & Hs' & Hi'). by exists l', k', s', [mkEntry n m c].
  - destruct (rotate_inv force c trace l k script Hi Ho Hs) as (l' & k' & s' & -> & Hs' & Hi'). exists l', k', s', []. by rewrite app_nil_r.
  - destruct (log_flush_ok l k script) as (s1 & -> & Hs1); [|done|].
    { destruct Hi as [_ _ (n & g & u & [_ (f & Hf & Hv & _) _] & _) _ _]. congruence. }
    exists l, k, s1, []. by rewrite app_nil_r.
Qed.

Lemma perform_all_inv os trace l k script :
  log_inv path size M k0 trace l k -> Forall op_ok os -> smooth 100 script ->
  exists l' k' script' t, perform_all os l k script = Ok (l', k', script') /\ log_inv path size M k0 (trace ++ t) l' k'
    /\ map (fun e => (e_mesg e, e_clock e)) t = appends os.
Proof.
  intros Hi Hos. revert trace l k script Hi. induction Hos as [|o os Ho _ IH]; intros trace l k script Hi Hs.
  - exists l, k, script, []. by rewrite app_nil_r.
  - cbn [perform_all]. destruct (perform_inv o trace l k script Hi Ho Hs) as (l1 & k1 & s1 & t1 & -> & Hs1 & Hi1 & E1). cbn [mbind outcome_bind].
    destruct (IH _ _ _ _ Hi1 Hs1) as (l2 & k2 & s2 & t2 & -> & Hi2 & E2). exists l2, k2, s2, (t1 ++ t2). rewrite app_assoc. split_and!; [done|done|].
    rewrite map_app, E1, E2. by destruct o.
Qed.

Lemma make_log_inv check_n c script :
  fs_ok k0 -> ends_with_separator path = false -> clock_ok path c -> smooth 100 script ->
  exists l k script', make_log path size check_n c k0 script = Ok (l, k, script') /\ smooth 100 script' /\ log_inv path size M k0 [] l k.
Proof.
  intros Hk He Hc Hs. unfold make_log. rewrite He. cbn [negb check mbind outcome_bind rotate]. set (l0 := mkLogFile _ _ _ _ _ _ _).
  destruct (do_rotate_ok c l0 k0 script) as (l & k & s' & n & g & E & Hs' & Hr); [by left|done|done|done|].
  exists l, k, s'. split_and!; [done|done|]. pose proof (ro_log _ _ _ _ _ _ _ Hr) as El. split; [by rewrite El|by rewrite El| | |].
  - exists n, g, 0. split; [apply Hr|]. rewrite El. cbn [set_file set_written written_]. pose proof (zlen_nonneg (f_data g)). lia.
  - eapply rotated_inv; [|exact Hr]. intros q. unfold landed. cbn. by rewrite app_nil_r.
  - by intros [|? ?] ? ?.
Qed.

End Run.

(** ** Theorems *)

(** C18. A log file whose path has no parent directories, created and then used by one thread in any sequence of appending,
    rotating and flushing, never fails as long as no call to the system does, however the
    kernel splits the transfers and interrupts the calls.  Every message arrives whole in exactly one file, the messages of a file in the
    order they were appended and after what was in the file before; other files are as they were.  And a message goes to a file
    that is already longer than the rotation size plus the length of the longest message only when that file has the name of
    the moment, so that a rotation gives the same file. *)
Theorem log_complete (path : bytes) (size check_n M : Z) (c : clock) (k0 : kernel) (os : list op) (script : list wish) :
  fs_ok k0 -> ends_with_separator path = false -> 0 <= M < 2 ^ 31 -> size + M < 2 ^ 63 ->
  clock_ok path c -> Forall (op_ok path M) os -> smooth 100 script ->
  exists l k script' trace,
    ('(l, k, script) ← make_log path size check_n c k0 script; perform_all os l k script) = Ok (l, k, script')
    /\ map (fun e => (e_mesg e, e_clock e)) trace = appends os
    /\ (forall q, default [] (contents k q) = landed k0 trace q)
    /\ bounded path (size + M) k0 trace.
Proof.
  intros Hk He HM Hsize Hc Hos Hs.
  destruct (make_log_inv path size M k0 HM check_n c script Hk He Hc Hs) as (l & k & s1 & -> & Hs1 & Hi). cbn [mbind outcome_bind].
  destruct (perform_all_inv path size M k0 HM Hsize os [] l k s1 Hi Hos Hs1) as (l2 & k2 & s2 & t & -> & [_ _ _ Hl Hb] & Et).
  by exists l2, k2, s2, t.
Qed.

End LogFile.

(** ** Examples *)

Definition at_second (s : Z) : clock := mkClock (s * 1000000) (s * 1000000).
Definition demo_log (path : bytes) (size check_n : Z) (c : clock) (os : list op) (k : kernel) (script : list wish) : outcome (LogFile * kernel * list wish) :=
  '(l, k, script) ← make_log (Some (txt "host")) 7 gmtime timegm path size check_n c k script;
  perform_all (Some (txt "host")) 7 gmtime timegm os l k script.
Definition demo_contents (path : bytes) (size check_n : Z) (c : clock) (os : list op) (names : list bytes) : option (list (option bytes)) :=
  match demo_log path size check_n c os some_kernel [] with Ok (_, k, _) => Some (map (contents k) names) | Fault _ => None end.

Definition demo_name : bytes := txt "log.20200913-122640.host.7.log".
Definition next_name : bytes := txt "log.20200913-122641.host.7.log".

(** The message that makes the log rotate is not counted, and goes to the new file. *)
Example rotation_by_size :
  demo_contents (txt "log") 4 1024 (at_second 1600000000)
    [Append (txt "abc") (at_second 1600000000); Append (txt "def") (at_second 1600000000); Append (txt "ghi") (at_second 1600000001); Append (txt "jkl") (at_second 1600000001);
     Append (txt "mno") (at_second 1600000001)]
    [demo_name; next_name] = Some [Some (txt "abcdef"); Some (txt "ghijklmno")].
Proof. vm_compute. reflexivity. Qed.

(** A rotation within the same second opens the same file again, so that the file grows past its limit. *)
Example same_second_same_file :
  demo_contents (txt "log") 2 1024 (at_second 1600000000)
    [Append (txt "abc") (at_second 1600000000); Append (txt "def") (at_second 1600000000); Append (txt "ghi") (at_second 1600000000); Append (txt "jkl") (at_second 1600000000)]
    [demo_name; next_name] = Some [Some (txt "abcdefghijkl"); None].
Proof. vm_compute. reflexivity. Qed.

(** The check for a new day comes only with every [check_every_n_]th message. *)
Example new_day_checked_late :
  demo_contents (txt "log") 100 2 (at_second 1600000000)
    [Append (txt "abc") (at_second 1600000000); Append (txt "def") (at_second 1600100000); Append (txt "ghi") (at_second 1600100000)]
    [demo_name; txt "log.20200914-161320.host.7.log"] = Some [Some (txt "abcdef"); Some (txt "ghi")].
Proof. vm_compute. reflexivity. Qed.

(** A log file in a parent directory is refused by [File], and the check for it fails. *)
Example parent_directory_aborts : demo_log (txt "../log") 100 2 (at_second 1600000000) [] some_kernel [] = Fault (CheckFailed "rotate: error_details").
Proof. vm_compute. reflexivity. Qed.

Lemma log_complete_witness :
  exists l k script' trace,
    demo_log (txt "log") 4 1024 (at_second 1600000000) [Append (txt "abc") (at_second 1600000000); Flush; Append (txt "de") (at_second 1600000001)] some_kernel [Fail EINTR; Up 1]
      = Ok (l, k, script')
    /\ map e_mesg trace = [txt "abc"; txt "de"] /\ (forall q, default [] (contents k q) = landed some_kernel trace q).
Proof.
  assert (Hc : forall s, s = 1600000000 \/ s = 1600000001 -> clock_ok (Some (txt "host")) 7 gmtime (txt "log") (at_second s)).
  { intros s [-> | ->]; (split; [vm_compute; intuition discriminate|]; split; [vm_compute; intuition discriminate|]);
      intros name E; vm_compute in E; injection E as <-; vm_compute; reflexivity. }
  destruct (log_complete (Some (txt "host")) 7 gmtime timegm (txt "log") 4 1024 3 (at_second 1600000000) some_kernel
    [Append (txt "abc") (at_second 1600000000); Flush; Append (txt "de") (at_second 1600000001)] [Fail EINTR; Up 1]) as (l & k & s' & t & E & Ht & Hl & _).
  - exact some_kernel_ok.
  - vm_compute. reflexivity.
  - lia.
  - lia.
  - apply Hc. by left.
  - repeat constructor; try (apply Hc; auto); vm_compute; intuition discriminate.
  - cbn. repeat split.
  - exists l, k, s', t. split; [exact E|]. split; [|exact Hl].
    transitivity (map fst (map (fun e => (e_mesg e, e_clock e)) t)); [by rewrite map_map|rewrite Ht; reflexivity].
Defined.
