(* ===== verification/FileUtil.v ===== *)
(** * FileUtil (include/files/FileUtil.h, src/FileUtil.cc, src/FileUtilPosix.cc)

    Functions on whole files: reading them into strings, writing, appending, copying and comparing them, over the file
    system of [File].  A [FILE] or an [ifstream] that is read is what it has not delivered yet, with its flags.

    The file shows that a file is read completely whatever size [stat] reports for it, that files are written and copied byte for byte, and
    that the comparisons decide equality of the bytes and of the lines. *)

From S2P Require Import Prelude StringPiece LogStream FilePath File.

(** ** Definitions *)

(** *** Streams of the standard library *)

(** What is left to read, and the end-of-file and error flags. *)
Record stream : Type := mkStream { s_rest : bytes; s_eof : bool; s_err : bool }.

(** [fread] of at most [n] bytes; with [Some m] there is a read error after [m] bytes. *)
Definition fread (n : Z) (fails : option nat) (s : stream) : bytes * stream :=
  match fails with
  | Some m => let d := ztake (Z.min (Z.of_nat m) (n - 1)) (s_rest s) in (d, mkStream (zdrop (zlen d) (s_rest s)) (s_eof s) true)
  | None => let d := ztake n (s_rest s) in (d, mkStream (zdrop (zlen d) (s_rest s)) (s_eof s || (zlen d <? n)) (s_err s))
  end.

(** [ifstream::read]: the characters and the stream; a stream at its end delivers nothing more. *)
Definition ifstream_read (n : Z) (s : stream) : bytes * stream :=
  if s_eof s then ([], s)
  else let d := ztake n (s_rest s) in (d, mkStream (zdrop n (s_rest s)) (zlen d <? n) (s_err s)).

(** [getline]: up to the next newline, which is taken away, or up to the end. *)
Fixpoint take_line (l : bytes) : bytes * option bytes :=
  match l with
  | [] => ([], None)
  | c :: l => if bool_decide (c = Byte.x0a) then ([], Some l) else let '(d, rest) := take_line l in (c :: d, rest)
  end.
Definition getline (s : stream) : bytes * stream :=
  if s_eof s then ([], s)
  else
    match take_line (s_rest s) with
    | (d, Some rest) => (d, mkStream rest false (s_err s))
    | (d, None) => (d, mkStream [] true (s_err s))
    end.

(** *** FileUtil.cc *)

Definition append_mode_character (mode : bytes) (mode_char : byte) : bytes :=
  let comma_pos := find_char mode Byte.x2c 0 in
  let pos := if comma_pos =? npos then zlen mode else comma_pos in
  ztake pos mode ++ [mode_char] ++ zdrop pos mode.

(** [fopen] for reading. *)
Definition fopen (path : bytes) (w : option wish) (k : kernel) : Z + stream :=
  match w with
  | Some (Fail e) => inl e
  | _ => match contents k path with Some d => inr (mkStream d false false) | None => inl ENOENT end
  end.

Fixpoint fopen_loop (path : bytes) (k : kernel) (script : list wish) : option stream * list wish :=
  match script with
  | [] => (match fopen path None k with inr s => Some s | inl _ => None end, [])
  | w :: script =>
      match fopen path (Some w) k with
      | inr s => (Some s, script)
      | inl e => if e =? EINTR then fopen_loop path k script else (None, script)
      end
  end.

Definition open_FILE (filename mode : bytes) (k : kernel) (script : list wish) : outcome (option stream * list wish) :=
  let e := find_char mode Byte.x65 0 in
  let comma := find_char mode Byte.x2c 0 in
  check ((e =? npos) || (negb (comma =? npos) && (comma <? e))) "open_FILE: mode";;
  Ok (fopen_loop filename k script).

Definition resize (n : Z) (l : bytes) : bytes := ztake n l ++ replicate (Z.to_nat (n - zlen l)) Byte.x00.

Definition kDefaultChunkSize : Z := Z.shiftl 1 16.

(** The loop of [read_file_to_string_with_max_size]; [fails] says which call of [fread] meets an error.  The result is
    [read_status], [bytes_read_so_far], [local_contents] and the stream. *)
Fixpoint slurp_loop (fuel : nat) (chunk_size max_size bytes_read_so_far : Z) (local_contents : bytes) (s : stream) (fails : list (option nat))
    : outcome (bool * Z * bytes * stream) :=
  match fuel with
  | O => Fault OutOfFuel
  | S fuel =>
      defined (bytes_read_so_far + chunk_size <=? zlen local_contents) "fread: local_contents";;
      let '(d, s) := fread chunk_size (mjoin (head fails)) s in
      let bytes_read_this_pass := zlen d in
      let local_contents := memwrite bytes_read_so_far d local_contents in
      if 0 <? bytes_read_this_pass then
        if u64 (max_size - bytes_read_so_far) <? bytes_read_this_pass then Ok (false, max_size, local_contents, s)
        else
          let chunk_size := if bytes_read_so_far =? 0 then kDefaultChunkSize else chunk_size in
          let bytes_read_so_far := u64 (bytes_read_so_far + bytes_read_this_pass) in
          if s_eof s then Ok (true, bytes_read_so_far, local_contents, s)
          else slurp_loop fuel chunk_size max_size bytes_read_so_far (resize (bytes_read_so_far + chunk_size) local_contents) s (tail fails)
      else Ok (true, bytes_read_so_far, local_contents, s)
  end.

(** [file_size] is what [get_file_size] reports, which may be wrong.  The result is the value returned and [contents]. *)
Definition read_file_to_string_with_max_size (path : bytes) (max_size : Z) (file_size : option Z) (k : kernel) (script : list wish) (fails : list (option nat))
    : outcome (bool * bytes * list wish) :=
  climbs ← references_parent path;
  if climbs : bool then Ok (false, [], script)
  else
    '(file, script) ← open_FILE path (txt "rb") k script;
    match file with
    | None => Ok (false, [], script)
    | Some file =>
        let chunk_size := match file_size with Some n => if n <=? 0 then kDefaultChunkSize - 1 else n | None => kDefaultChunkSize - 1 end in
        let chunk_size := i64 (u64 (Z.min chunk_size max_size + 1)) in
        defined (0 <=? chunk_size) "resize: chunk_size";;
        let local_contents := resize chunk_size [] in
        '(read_status, bytes_read_so_far, local_contents, file) ← slurp_loop (S (S (length (s_rest file)))) chunk_size max_size 0 local_contents file fails;
        Ok (read_status && negb (s_err file), resize bytes_read_so_far local_contents, script)
    end.

Definition read_file_to_string (path : bytes) : option Z -> kernel -> list wish -> list (option nat) -> outcome (bool * bytes * list wish) :=
  read_file_to_string_with_max_size path (2 ^ 64 - 1).

(** A system call on the open file of [fd]. *)
Definition on_fd {A} (call : option wish -> ofile -> (Z + A) * ofile) (fd : Z) (w : option wish) (k : kernel) : (Z + A) * kernel :=
  match view k fd with
  | Some g => let '(r, g) := call w g in (r, update fd g k)
  | None => (inl EBADF, k)
  end.

Fixpoint read_from_fd_loop (fuel : nat) (fd bytes : Z) (buffer : list byte) (k : kernel) (script : list wish) : outcome (list byte * kernel * list wish) :=
  match fuel with
  | O => Fault OutOfFuel
  | S fuel =>
      let total_read := zlen buffer in
      if total_read <? bytes then
        match HANDLE_EINTR (on_fd (sys_read (bytes - total_read)) fd) k script with
        | (inl _, k, script) => Ok (buffer, k, script)
        | (inr d, k, script) => if zlen d <=? 0 then Ok (buffer, k, script) else read_from_fd_loop fuel fd bytes (buffer ++ d) k script
        end
      else Ok (buffer, k, script)
  end.

(** The value returned, and the bytes in [buffer]. *)
Definition read_from_fd (fd bytes : Z) (k : kernel) (script : list wish) : outcome (bool * list byte * kernel * list wish) :=
  '(buffer, k, script) ← read_from_fd_loop (S (Z.to_nat bytes)) fd bytes [] k script;
  Ok (zlen buffer =? bytes, buffer, k, script).

(** [close] under [IGNORE_EINTR]: whether it succeeded. *)
Definition ignore_eintr_close (fd : Z) (k : kernel) : bool * kernel := sys_close fd k.

Definition read_file (filename : bytes) (max_size : Z) (k : kernel) (script : list wish) : outcome (Z * bytes * kernel * list wish) :=
  match HANDLE_EINTR (sys_open filename O_RDONLY) k script with
  | (inl _, k, script) => Ok (-1, [], k, script)
  | (inr fd, k, script) =>
      let '(bytes_read, k, script) := HANDLE_EINTR (on_fd (sys_read max_size) fd) k script in
      let '(closed, k) := ignore_eintr_close fd k in
      let '(n, data) := match bytes_read with inr d => (zlen d, d) | inl _ => (-1, []) end in
      Ok (if closed : bool then n else -1, data, k, script)
  end.

Fixpoint write_to_fd_loop (fuel : nat) (fd size : Z) (data : bytes) (bytes_written_total : Z) (k : kernel) (script : list wish) : outcome (bool * kernel * list wish) :=
  match fuel with
  | O => Fault OutOfFuel
  | S fuel =>
      if bytes_written_total <? size then
        match HANDLE_EINTR (on_fd (sys_write data) fd) k script with
        | (inl _, k, script) => Ok (false, k, script)
        | (inr bytes_written_partial, k, script) =>
            write_to_fd_loop fuel fd size (zdrop bytes_written_partial data) (bytes_written_total + bytes_written_partial) k script
        end
      else Ok (true, k, script)
  end.

Definition write_to_fd (fd : Z) (data : bytes) (size : Z) (k : kernel) (script : list wish) : outcome (bool * kernel * list wish) :=
  defined (size <=? zlen data) "write_to_fd: data";;
  write_to_fd_loop (S (Z.to_nat size)) fd size (ztake size data) 0 k script.

Definition write_file (filename data : bytes) (size : Z) (k : kernel) (script : list wish) : outcome (Z * kernel * list wish) :=
  match HANDLE_EINTR (sys_open filename (Z.lor (Z.lor O_CREAT O_WRONLY) O_TRUNC)) k script with
  | (inl _, k, script) => Ok (-1, k, script)
  | (inr fd, k, script) =>
      '(ok, k, script) ← write_to_fd fd data size k script;
      let bytes_written := if ok : bool then size else -1 in
      let '(closed, k) := ignore_eintr_close fd k in
      Ok (if closed : bool then bytes_written else -1, k, script)
  end.

Definition append_to_file (filename data : bytes) (size : Z) (k : kernel) (script : list wish) : outcome (bool * kernel * list wish) :=
  match HANDLE_EINTR (sys_open filename (Z.lor O_WRONLY O_APPEND)) k script with
  | (inl _, k, script) => Ok (false, k, script)
  | (inr fd, k, script) =>
      '(ret, k, script) ← write_to_fd fd data size k script;
      let '(closed, k) := ignore_eintr_close fd k in
      Ok (if closed : bool then ret else false, k, script)
  end.

Definition BUFFER_SIZE : Z := 2056.

Fixpoint contents_loop (fuel : nat) (file1 file2 : stream) : outcome bool :=
  match fuel with
  | O => Fault OutOfFuel
  | S fuel =>
      let '(buffer1, file1) := ifstream_read BUFFER_SIZE file1 in
      let '(buffer2, file2) := ifstream_read BUFFER_SIZE file2 in
      if negb (Bool.eqb (s_eof file1) (s_eof file2)) || negb (zlen buffer1 =? zlen buffer2) || negb (bool_decide (buffer1 = ztake (zlen buffer1) buffer2)) then Ok false
      else if negb (s_eof file1) || negb (s_eof file2) then contents_loop fuel file1 file2
      else Ok true
  end.

(** [ifstream] opens a file for reading. *)
Definition ifstream_open (k : kernel) (filename : bytes) : option stream :=
  match contents k filename with Some d => Some (mkStream d false false) | None => None end.

Definition contents_equal (filename1 filename2 : bytes) (k : kernel) : outcome bool :=
  match ifstream_open k filename1, ifstream_open k filename2 with
  | Some file1, Some file2 => contents_loop (S (length (s_rest file1))) file1 file2
  | _, _ => Ok false
  end.

(** The line without the characters that end it. *)
Definition trim_line (line : bytes) : bytes :=
  let end_ := find_last_not_of line [Byte.x0d; Byte.x0a] npos in
  if end_ =? npos then [] else if end_ + 1 <? zlen line then ztake (end_ + 1) line else line.

Fixpoint text_loop (fuel : nat) (file1 file2 : stream) : outcome bool :=
  match fuel with
  | O => Fault OutOfFuel
  | S fuel =>
      let '(line1, file1) := getline file1 in
      let '(line2, file2) := getline file2 in
      if negb (Bool.eqb (s_eof file1) (s_eof file2)) || s_err file1 || s_err file2 then Ok false
      else if negb (bool_decide (trim_line line1 = trim_line line2)) then Ok false
      else if negb (s_eof file1) || negb (s_eof file2) then text_loop fuel file1 file2
      else Ok true
  end.

Definition text_contents_equal (filename1 filename2 : bytes) (k : kernel) : outcome bool :=
  match ifstream_open k filename1, ifstream_open k filename2 with
  | Some file1, Some file2 => text_loop (S (length (s_rest file1))) file1 file2
  | _, _ => Ok false
  end.

Definition path_exists (k : kernel) (path : bytes) : bool := bool_decide (contents k path <> None).

Definition kMaxUniqueFiles : nat := 100.

Definition taken (k : kernel) (suffix path : bytes) : bool :=
  path_exists k path || (negb (zlen suffix =? 0) && path_exists k (make_file_path (path ++ suffix))).

(** The loop, from [count] on, with [tries] numbers left. *)
Fixpoint unique_loop (tries : nat) (count : Z) (path suffix : bytes) (k : kernel) : Z :=
  match tries with
  | O => -1
  | S tries =>
      let new_path := insert_before_extension (txt " (" ++ zero_padded 1 count ++ txt ")") path in
      if negb (taken k suffix new_path) then count else unique_loop tries (count + 1) path suffix k
  end.

Definition get_unique_path_number (path suffix : bytes) (k : kernel) : Z :=
  if negb (taken k suffix path) then 0 else unique_loop kMaxUniqueFiles 1 path suffix k.

(** *** FileUtilPosix.cc *)

Definition kBufferSize : Z := 32768.

(** Writing one buffer. *)
Fixpoint copy_write_loop (fuel : nat) (outfile : File) (buffer : bytes) (bytes_written_per_read : Z) (k : kernel) (script : list wish) : outcome (bool * kernel * list wish) :=
  match fuel with
  | O => Fault OutOfFuel
  | S fuel =>
      let bytes_read := zlen buffer in
      '(bytes_written_partial, k, script) ←
        file_write_at_current_pos (zdrop bytes_written_per_read buffer) (bytes_read - bytes_written_per_read) outfile k script;
      if bytes_written_partial <? 0 then Ok (false, k, script)
      else
        let bytes_written_per_read := bytes_written_per_read + bytes_written_partial in
        if bytes_written_per_read <? bytes_read then copy_write_loop fuel outfile buffer bytes_written_per_read k script
        else Ok (true, k, script)
  end.

Fixpoint copy_file_contents (fuel : nat) (infile outfile : File) (k : kernel) (script : list wish) : outcome (bool * kernel * list wish) :=
  match fuel with
  | O => Fault OutOfFuel
  | S fuel =>
      '(bytes_read, buffer, k, script) ← file_read_at_current_pos kBufferSize infile k script;
      if bytes_read <? 0 then Ok (false, k, script)
      else if bytes_read =? 0 then Ok (true, k, script)
      else
        '(ok, k, script) ← copy_write_loop (S (length buffer)) outfile buffer 0 k script;
        if ok : bool then copy_file_contents fuel infile outfile k script else Ok (false, k, script)
  end.

(** [fuel] bounds the number of buffers. *)
Definition copy_file (fuel : nat) (from_path to_path : bytes) (k : kernel) (script : list wish) : outcome (bool * kernel * list wish) :=
  '(opened, k, script) ← make_file from_path (Z.lor FLAG_OPEN FLAG_READ) k script;
  '(infile, opened, k) ← move_assign no_file opened k;
  k ← destroy_file opened k;
  if negb (File.is_valid infile) then k ← destroy_file infile k; Ok (false, k, script)
  else
    '(outfile, k, script) ← make_file to_path (Z.lor FLAG_WRITE FLAG_CREATE_ALWAYS) k script;
    '(ok, k, script) ← (if negb (File.is_valid outfile) then Ok (false, k, script) else copy_file_contents fuel infile outfile k script);
    k ← destroy_file outfile k;
    k ← destroy_file infile k;
    Ok (ok, k, script).

(** [times_set] is the result of [set_times]. *)
Definition touch_file (path : bytes) (times_set : bool) (k : kernel) (script : list wish) : outcome (bool * kernel * list wish) :=
  '(file, k, script) ← make_file path FLAG_OPEN k script;
  let ok := if negb (File.is_valid file) then false else times_set in
  k ← destroy_file file k;
  Ok (ok, k, script).

(** ** Lemmas *)

(** *** Reading a file into a string *)

Lemma zlen_memwrite (a : Z) (d l : bytes) : 0 <= a -> a + zlen d <= zlen l -> zlen (memwrite a d l) = zlen l.
Proof. intros Ha Hl. pose proof (zlen_nonneg d). unfold memwrite. rewrite !zlen_app, zlen_ztake, zlen_zdrop. lia. Qed.

Lemma ztake_memwrite (a n : Z) (d l : bytes) : 0 <= a <= zlen l -> n <= a + zlen d -> ztake n (memwrite a d l) = ztake n (ztake a l ++ d).
Proof.
  intros Ha Hn. unfold memwrite. rewrite app_assoc. apply ztake_app_le. rewrite zlen_app, zlen_ztake. lia.
Qed.

Lemma ztake_resize (n m : Z) (l : bytes) : n <= m -> n <= zlen l -> ztake n (resize m l) = ztake n l.
Proof.
  intros H1 H2. unfold resize. rewrite ztake_app_le by (rewrite zlen_ztake; lia). rewrite ztake_ztake. f_equal. lia.
Qed.

Lemma zlen_resize (m : Z) (l : bytes) : 0 <= m -> zlen (resize m l) = m.
Proof. intros Hm. unfold resize. rewrite zlen_app, zlen_ztake, zlen_replicate. pose proof (zlen_nonneg l). lia. Qed.

(** What [fread] delivers is the next part of the file. *)
Lemma fread_ok (D : bytes) (a n : Z) (f : option nat) (s : stream) d s' :
  0 <= a <= zlen D -> 1 <= n -> s_rest s = zdrop a D -> s_eof s = false -> fread n f s = (d, s') ->
  d = zslice a (zlen d) D /\ zlen d <= n /\ a + zlen d <= zlen D /\ s_rest s' = zdrop (a + zlen d) D
  /\ (s_eof s' = true -> a + zlen d = zlen D) /\ (zlen d = 0 -> s_err s' = true \/ a = zlen D)
  /\ (s_err s' = true <-> s_err s = true \/ f <> None).
Proof.
  intros Ha Hn Hr He. assert (Hgen : forall m, 0 <= m -> let d := ztake m (zdrop a D) in
    d = zslice a (zlen d) D /\ zlen d = Z.min m (zlen D - a) /\ zdrop (zlen d) (zdrop a D) = zdrop (a + zlen d) D).
  { intros m Hm x. assert (Hx : zlen x = Z.min m (zlen D - a)) by (unfold x; rewrite zlen_ztake, zlen_zdrop; lia). split_and!; [|done|].
    - unfold zslice. rewrite Hx. unfold x. destruct (Z.le_gt_cases m (zlen D - a)); [f_equal; lia|]. rewrite !ztake_ge; rewrite ?zlen_zdrop; done || lia.
    - pose proof (zlen_nonneg x). rewrite zdrop_zdrop by lia. f_equal. lia. }
  unfold fread. rewrite Hr. destruct f as [m|]; intros [= <- <-]; cbn [s_rest s_eof s_err].
  - destruct (Hgen (Z.min (Z.of_nat m) (n - 1))) as (H1 & H2 & H3); [lia|]. split_and!; [done|lia|lia|done|by rewrite He|by left|split; [by intros; right|done]].
  - destruct (Hgen n) as (H1 & H2 & H3); [lia|]. rewrite He. cbn [orb]. split_and!; [done|lia|lia|done| |lia|split; [by intros; left|by intros [?|?]]].
    intros Hlt%Z.ltb_lt. lia.
Qed.

Lemma slurp_loop_ok (D : bytes) fuel chunk max so_far local s fails :
  zlen D < 2 ^ 63 -> 0 <= so_far <= zlen D -> so_far <= max < 2 ^ 64 -> 1 <= chunk -> so_far + chunk <= zlen local -> ztake so_far local = ztake so_far D ->
  s_rest s = zdrop so_far D -> s_eof s = false -> (Z.to_nat (zlen D - so_far) < fuel)%nat ->
  exists status n local' s', slurp_loop fuel chunk max so_far local s fails = Ok (status, n, local', s')
    /\ ztake n local' = ztake n D /\ 0 <= n <= zlen D /\ n <= zlen local'
    /\ (if status : bool then n <= max else n = max /\ max < zlen D) /\ (status = true -> s_err s' = false -> n = zlen D)
    /\ (s_err s = false -> Forall (eq None) fails -> s_err s' = false).
Proof.
  intros HD. revert chunk so_far local s fails. induction fuel as [|fuel IH]; intros chunk so_far local s fails Hso Hmax Hch Hlo Hpre Hr He Hf; [lia|].
  cbn [slurp_loop]. rewrite defined_true by (by apply Z.leb_le). cbn [mbind outcome_bind].
  destruct (fread chunk (mjoin (head fails)) s) as [d s'] eqn:Ed. destruct (fread_ok D so_far chunk _ s d s' Hso Hch Hr He Ed) as (H1 & H2 & H3 & H4 & H5 & H6 & H7).
  pose proof (zlen_nonneg d). set (local1 := memwrite so_far d local). assert (Hl1 : zlen local1 = zlen local) by (apply zlen_memwrite; lia).
  assert (Hpre1 : forall n, n <= so_far + zlen d -> ztake n local1 = ztake n D).
  { intros n Hn. unfold local1. rewrite ztake_memwrite by lia. rewrite Hpre, H1, ztake_add, ztake_ztake by lia. f_equal. lia. }
  assert (Herr : s_err s = false -> Forall (eq None) fails -> s_err s' = false).
  { intros Hs Hn. apply not_true_is_false. intros [?|Hx]%H7; [congruence|]. apply Hx. destruct fails as [|f fails]; [done|]. by inversion Hn; subst. }
  destruct (Z.ltb_spec 0 (zlen d)) as [Hpos|Hzero].
  - rewrite u64_small by lia. destruct (Z.ltb_spec (max - so_far) (zlen d)) as [Hbig|Hfit].
    + exists false, max, local1, s'. split_and!; [done|apply Hpre1; lia|lia..|done|done].
    + rewrite u64_small by lia. destruct (s_eof s') eqn:Eeof.
      * specialize (H5 eq_refl). exists true, (so_far + zlen d), local1, s'. split_and!; [done|by apply Hpre1|lia..|by intros; lia|done].
      * set (c2 := if so_far =? 0 then kDefaultChunkSize else chunk). assert (1 <= c2) by (unfold c2; case_match; [vm_compute; congruence|lia]).
        destruct (IH c2 (so_far + zlen d) (resize (so_far + zlen d + c2) local1) s' (tail fails))
          as (st & n & l' & s2 & -> & R1 & R2 & R3 & R4 & R5 & R6); [lia|lia|done| | |done|done|lia|].
        -- rewrite zlen_resize; lia.
        -- rewrite ztake_resize by lia. by apply Hpre1.
        -- exists st, n, l', s2. split; [done|]. split; [done|]. split; [done|]. split; [done|]. split; [done|]. split; [done|]. intros Hs Hn. apply R6; [by apply Herr|]. destruct fails; [done|]. by inversion Hn.
  - assert (zlen d = 0) as E0 by lia. exists true, so_far, local1, s'. split_and!; [done|apply Hpre1; lia|lia..| |done].
    intros _ Hs. destruct (H6 E0); [congruence|lia].
Qed.

Lemma fopen_smooth path k tries script : smooth tries script ->
  exists script', fopen_loop path k script = (match contents k path with Some d => Some (mkStream d false false) | None => None end, script') /\ smooth 100 script'.
Proof.
  revert tries. induction script as [|[e|n] script IH]; intros tries; cbn [smooth fopen_loop fopen].
  - intros _. exists []. by destruct (contents k path).
  - intros [-> Hs]. destruct tries as [|tries]; [done|]. rewrite Z.eqb_refl. by apply (IH tries).
  - intros Hs. exists script. by destruct (contents k path).
Qed.

(** *** Calls on descriptors *)

Lemma update_update fd g1 g2 k : update fd g2 (update fd g1 k) = update fd g2 k.
Proof.
  unfold update. destruct (description_of k fd) as [i|] eqn:Ei; [|by rewrite Ei]. destruct (descriptions k !! i) as [d|] eqn:Ed; [|by rewrite Ei, Ed].
  change (description_of _ fd) with (description_of k fd). rewrite Ei. cbn.
  rewrite list_lookup_insert_eq by (by eapply lookup_lt_Some). cbn. by rewrite !list_insert_insert_eq.
Qed.

Lemma on_fd_eintr {A} tries (call : option wish -> ofile -> (Z + A) * ofile) fd k g script :
  fs_ok k -> view k fd = Some g ->
  handle_eintr tries (on_fd call fd) k script = let '(r, g', s) := handle_eintr tries call g script in (r, update fd g' k, s).
Proof.
  revert tries k g. induction script as [|w script IH]; intros tries k g Hk Hg; cbn [handle_eintr];
    (assert (Hon : forall w, on_fd call fd w k = let '(r, g') := call w g in (r, update fd g' k)) by (intros w'; unfold on_fd; by rewrite Hg)); rewrite Hon.
  - by destruct (call None g).
  - destruct (call (Some w) g) as [[e|a] g1]; [|done]. destruct tries as [|tries]; [done|]. destruct (e =? EINTR); [|done].
    rewrite (IH tries (update fd g1 k) g1); [|by apply update_ok|by eapply view_update]. destruct (handle_eintr tries call g1 script) as [[r g'] s]. by rewrite update_update.
Qed.

Lemma write_to_fd_loop_ok D f fd fuel b k script :
  writable f = true -> 0 <= f_pos f -> 0 <= b <= zlen D -> (Z.to_nat (zlen D - b) < fuel)%nat -> smooth 100 script ->
  fs_ok k -> view k fd = Some (written_here b D f) ->
  exists script', write_to_fd_loop fuel fd (zlen D) (zdrop b D) b k script = Ok (true, update fd (written_here (zlen D) D f) k, script') /\ smooth 100 script'.
Proof.
  intros Hw Hp. revert b k script. induction fuel as [|fuel IH]; intros b k script Hb Hf Hs Hk Hv; [lia|]. cbn [write_to_fd_loop].
  destruct (Z.ltb_spec b (zlen D)) as [Hlt|Hge]; [|exists script; assert (b = zlen D) as -> by lia; by rewrite update_same].
  unfold HANDLE_EINTR. rewrite (on_fd_eintr 100 _ fd k (written_here b D f)) by done. pose proof (write_call f D b) as Hc.
  assert (Hlen : zlen (zdrop b D) = zlen D - b) by (rewrite zlen_zdrop; lia).
  destruct (handle_eintr_spec 100 (sys_write (zdrop b D)) (written_here b D f) script) as [(e & s' & _ & Hn)|(w & n & g' & s' & Hnf & Ec & -> & Hsm)]; [|done|].
  { intros w. specialize (Hc w Hw Hp Hb). rewrite Hlen in Hc. destruct w as [[e|n]|]; cbn [allowed] in Hc; [exact Hc|do 2 eexists; apply Hc; lia..]. }
  specialize (Hc w Hw Hp Hb). rewrite Hlen in Hc.
  assert (exists m, allowed w (zlen D - b) = inr m /\ 0 < m <= zlen D - b) as (m & Em & Hm).
  { destruct w as [[e|n']|]; cbn; [by destruct (Hnf e)|exists (Z.min (Z.pos n') (zlen D - b))|exists (zlen D - b)]; split; done || lia. }
  rewrite Em in Hc. rewrite Hc in Ec by lia. injection Ec as <- <-.
  rewrite zdrop_zdrop, (Z.add_comm m b) by lia.
  destruct (IH (b + m) (update fd (written_here (b + m) D f) k) s') as (s2 & -> & Hs2); [lia|lia|by apply Hsm|by apply update_ok|by eapply view_update|].
  exists s2. by rewrite update_update.
Qed.

Lemma write_to_fd_ok data size f fd k script :
  writable f = true -> 0 <= f_pos f -> 0 <= size <= zlen data -> smooth 100 script -> fs_ok k -> view k fd = Some f ->
  exists script', write_to_fd fd data size k script = Ok (true, update fd (written_here size data f) k, script') /\ smooth 100 script'.
Proof.
  intros Hw Hp Hs Hsm Hk Hv. unfold write_to_fd. rewrite defined_true by (apply Z.leb_le; lia). cbn [mbind outcome_bind].
  assert (Hl : zlen (ztake size data) = size) by (rewrite zlen_ztake; lia).
  destruct (write_to_fd_loop_ok (ztake size data) f fd (S (Z.to_nat size)) 0 k script) as (s' & E & Hs'); [done|done|lia|lia|done|done| |].
  - rewrite Hv. unfold written_here, written. rewrite ztake_0. by destruct f.
  - rewrite Hl, zdrop_0 in E. exists s'. rewrite E. unfold written_here. rewrite written_ztake by lia. done.
Qed.

(** A file that was opened, changed through the new descriptor, and closed. *)
Lemma opened_update_close path d fl g k k1 :
  opened path d fl k k1 ->
  exists k', sys_close (new_fd k) (update (new_fd k) g k1) = (true, k') /\ fs_ok k'
    /\ forall q, contents k' q = if decide (q = path) then Some (f_data g) else contents k q.
Proof.
  intros [H1 H2 H3 H4 H5 H6 _]. pose proof (update_ok (new_fd k) g k1 H1) as Hk2.
  pose proof H3 as (i & d' & Hi & _ & _).
  destruct (close_other (new_fd k) i (update (new_fd k) g k1) Hk2) as (k' & E & Hk' & Hc & _); [by rewrite update_description|].
  exists k'. split; [done|]. split; [done|]. intros q. rewrite Hc, (update_contents (new_fd k) g k1 path q H1 H3).
  destruct (decide (q = path)); [done|by apply H5].
Qed.

Lemma write_file_ok filename data size k script :
  fs_ok k -> 0 <= size <= zlen data -> smooth 100 script ->
  exists k' script', write_file filename data size k script = Ok (size, k', script') /\ fs_ok k' /\ smooth 100 script'
    /\ forall q, contents k' q = if decide (q = filename) then Some (ztake size data) else contents k q.
Proof.
  intros Hk Hs Hsm. unfold write_file. set (fl := Z.lor (Z.lor O_CREAT O_WRONLY) O_TRUNC).
  destruct (sys_open_smooth filename fl k script Hsm) as (s1 & -> & Hs1). pose proof (sys_open_ok filename fl k Hk) as Ho.
  assert (exists k1, sys_open filename fl None k = (inr (new_fd k), k1) /\ opened filename [] fl k k1) as (k1 & -> & Hop).
  { change (has fl O_CREAT) with true in Ho. change (has fl O_EXCL) with false in Ho. change (has fl O_TRUNC) with true in Ho. by destruct (contents k filename). }
  cbv beta iota. destruct (write_to_fd_ok data size (mkOfile [] 0 (status_flags fl)) (new_fd k) k1 s1) as (s2 & -> & Hs2); [done|cbn; lia|done|done|apply Hop|apply Hop|].
  cbn [mbind outcome_bind]. unfold ignore_eintr_close.
  destruct (opened_update_close filename [] fl (written_here size data (mkOfile [] 0 (status_flags fl))) k k1 Hop) as (k' & -> & Hk' & Hc).
  exists k', s2. split_and!; [done..|]. intros q. rewrite Hc. cbn. change (write_offset _) with (zlen (@nil byte)). by rewrite store_end.
Qed.

Lemma append_to_file_ok filename data size k script :
  fs_ok k -> 0 <= size <= zlen data -> smooth 100 script ->
  match contents k filename with
  | Some old => exists k' script', append_to_file filename data size k script = Ok (true, k', script') /\ fs_ok k' /\ smooth 100 script'
      /\ forall q, contents k' q = if decide (q = filename) then Some (old ++ ztake size data) else contents k q
  | None => exists script', append_to_file filename data size k script = Ok (false, k, script') /\ smooth 100 script'
  end.
Proof.
  intros Hk Hs Hsm. unfold append_to_file. set (fl := Z.lor O_WRONLY O_APPEND).
  destruct (sys_open_smooth filename fl k script Hsm) as (s1 & -> & Hs1). pose proof (sys_open_ok filename fl k Hk) as Ho.
  change (has fl O_CREAT) with false in Ho. change (has fl O_TRUNC) with false in Ho. cbn [andb] in Ho.
  destruct (contents k filename) as [old|]; [|rewrite Ho; by exists s1]. destruct Ho as (k1 & -> & Hop). cbv beta iota.
  destruct (write_to_fd_ok data size (mkOfile old 0 (status_flags fl)) (new_fd k) k1 s1) as (s2 & -> & Hs2); [done|cbn; lia|done|done|apply Hop|apply Hop|].
  cbn [mbind outcome_bind]. unfold ignore_eintr_close.
  destruct (opened_update_close filename old fl (written_here size data (mkOfile old 0 (status_flags fl))) k k1 Hop) as (k' & -> & Hk' & Hc).
  exists k', s2. split_and!; [done..|]. intros q. rewrite Hc. cbn. change (write_offset _) with (zlen old). by rewrite store_end.
Qed.

(** *** Copying *)

Lemma linked_open_at k fd path g : linked k fd path -> view k fd = Some g -> open_at k fd path (f_pos g) (f_flags g).
Proof.
  intros (i & [ino pos fl] & H1 & H2 & H3). unfold view. rewrite H1. cbn. rewrite H2. cbn. destruct (inodes k !! ino); [|done]. intros [= <-]. by exists i, ino.
Qed.

Lemma open_at_linked k fd path pos fl : open_at k fd path pos fl -> linked k fd path.
Proof. intros (i & ino & H1 & H2 & H3). by exists i, (mkDescription ino pos fl). Qed.

Lemma open_at_view k fd path pos fl d : open_at k fd path pos fl -> contents k path = Some d -> view k fd = Some (mkOfile d pos fl).
Proof.
  intros (i & ino & H1 & H2 & H3) Hc. unfold contents in Hc. rewrite H3 in Hc. cbn in Hc. unfold view. rewrite H1. cbn. rewrite H2. cbn. by rewrite Hc.
Qed.

Lemma update_open_at fd g k path pos fl : open_at k fd path pos fl -> open_at (update fd g k) fd path (f_pos g) (f_flags g).
Proof.
  intros (i & ino & H1 & H2 & H3). exists i, ino. rewrite update_description. split; [done|]. unfold update. rewrite H1, H2. cbn. split; [|done].
  apply list_lookup_insert_eq. by eapply lookup_lt_Some.
Qed.

Lemma update_open_other fd g k path fd' q pos fl :
  linked k fd path -> q <> path -> fs_ok k -> open_at k fd' q pos fl -> open_at (update fd g k) fd' q pos fl.
Proof.
  intros (i & d & H1 & H2 & H3) Hne Hk (i' & ino' & E1 & E2 & E3). exists i', ino'. rewrite update_description. split; [done|].
  unfold update. rewrite H1, H2. cbn. split; [|done]. rewrite list_lookup_insert_ne; [done|]. intros ->. rewrite E2 in H2. injection H2 as <-. cbn in H3.
  apply Hne. by eapply (ok_inj k Hk).
Qed.

Section Copy.
Context (from to : bytes) (infile outfile : File) (D : bytes) (fl1 fl2 : Z) (k0 : kernel).
Hypothesis (Hne : from <> to) (Hv1 : File.is_valid infile = true) (Hv2 : File.is_valid outfile = true).
Hypothesis (Hr : readable (mkOfile [] 0 fl1) = true) (Hw : writable (mkOfile [] 0 fl2) = true) (Ha : appending (mkOfile [] 0 fl2) = false).

(** The first [n] bytes are copied, [a] are read. *)
Record copying (a n : Z) (k : kernel) : Prop := {
  cp_ok : fs_ok k;
  cp_in : open_at k (File.file_ infile) from a fl1;
  cp_out : open_at k (File.file_ outfile) to n fl2;
  cp_contents : forall q, contents k q = if decide (q = to) then Some (ztake n D) else contents k0 q;
  cp_from : contents k0 from = Some D;
}.

Lemma copy_read a k script : copying a a k -> 0 <= a <= zlen D -> smooth 100 script ->
  exists k' script', file_read_at_current_pos kBufferSize infile k script = Ok (zlen (zslice a kBufferSize D), zslice a kBufferSize D, k', script')
    /\ copying (a + zlen (zslice a kBufferSize D)) a k' /\ smooth 100 script'.
Proof.
  intros [H1 H2 H3 H4 H5] Hb Hs. assert (Hc : contents k from = Some D) by (rewrite H4, decide_False; done).
  pose proof (open_at_view _ _ _ _ _ _ H2 Hc) as Hv. unfold file_read_at_current_pos, on_file. rewrite Hv, Hv1.
  destruct (read_here_ok (mkOfile D a fl1) kBufferSize script) as (rv & d & s' & -> & _ & _ & _ & Hd); [exact Hr|cbn; lia|unfold kBufferSize; lia|].
  destruct (Hd Hs) as (-> & E & Hs'). cbn [f_pos f_data] in E. cbn [mbind outcome_bind]. do 2 eexists. rewrite E. split; [reflexivity|]. split; [|done].
  rewrite <- E. assert (Hl : linked k (File.file_ infile) from) by (by eapply open_at_linked).
  split; [by apply update_ok| | | |done].
  - eapply (update_open_at _ (moved (zlen d) (mkOfile D a fl1))). exact H2.
  - eapply update_open_other; [exact Hl|congruence|done|done].
  - intros q. rewrite (update_contents _ _ _ from q) by done. destruct (decide (q = from)) as [->|]; [|apply H4]. rewrite decide_False by done. cbn. by rewrite H5.
Qed.

Lemma copy_write a d k script : copying (a + zlen d) a k -> d = zslice a (zlen d) D -> 0 <= a <= zlen D -> 0 < zlen d -> smooth 100 script ->
  exists k' script', copy_write_loop (S (length d)) outfile d 0 k script = Ok (true, k', script') /\ copying (a + zlen d) (a + zlen d) k' /\ smooth 100 script'.
Proof.
  intros [H1 H2 H3 H4 H5] Hd Hb Hpos Hs. assert (Hc : contents k to = Some (ztake a D)) by (rewrite H4, decide_True; done).
  pose proof (open_at_view _ _ _ _ _ _ H3 Hc) as Hv. cbn [copy_write_loop]. rewrite zdrop_0, Z.sub_0_r. unfold file_write_at_current_pos, on_file. rewrite Hv, Hv2.
  unfold write_at_current_pos. cbn [check mbind outcome_bind]. destruct (Z.ltb_spec (zlen d) 0); [lia|]. rewrite defined_true by (by apply Z.leb_refl). cbn [mbind outcome_bind].
  rewrite (ztake_ge (zlen d) d) by lia. set (g := mkOfile (ztake a D) a fl2).
  destruct (write_here_ok d g script) as (rv & n & s' & -> & _ & _ & Hn); [exact Hw|cbn; lia|]. destruct (Hn Hs) as (-> & -> & Hs'). cbn [mbind outcome_bind].
  destruct (Z.ltb_spec (zlen d) 0); [lia|]. rewrite Z.add_0_l, Z.ltb_irrefl. do 2 eexists. split; [reflexivity|]. split; [|done].
  assert (Hoff : write_offset g = a) by (unfold write_offset; change (appending g) with (appending (mkOfile [] 0 fl2)); by rewrite Ha).
  assert (Hg : written_here (zlen d) d g = mkOfile (ztake (a + zlen d) D) (a + zlen d) fl2).
  { unfold written_here, written. rewrite Hoff. cbn [g f_data f_pos f_flags]. destruct (Z.eqb_spec (zlen d) 0); [lia|]. f_equal.
    rewrite (ztake_ge (zlen d) d) by lia. assert (El : a = zlen (ztake a D)) by (rewrite zlen_ztake; lia). rewrite El at 1. rewrite store_end, Hd at 1. apply ztake_add; lia. }
  rewrite Hg. assert (Hl : linked k (File.file_ outfile) to) by (by eapply open_at_linked).
  split; [by apply update_ok| | | |done].
  - eapply update_open_other; [exact Hl|done|done|done].
  - eapply (update_open_at _ (mkOfile (ztake (a + zlen d) D) (a + zlen d) fl2)). exact H3.
  - intros q. rewrite (update_contents _ _ _ to q) by done. destruct (decide (q = to)); [done|]. rewrite H4. by rewrite decide_False.
Qed.

Lemma copy_file_contents_ok fuel a k script : copying a a k -> 0 <= a <= zlen D -> (Z.to_nat (zlen D - a) < fuel)%nat -> smooth 100 script ->
  exists k' script', copy_file_contents fuel infile outfile k script = Ok (true, k', script') /\ copying (zlen D) (zlen D) k' /\ smooth 100 script'.
Proof.
  revert a k script. induction fuel as [|fuel IH]; intros a k script Hk Hb Hf Hs; [lia|]. cbn [copy_file_contents].
  destruct (copy_read a k script Hk Hb Hs) as (k1 & s1 & -> & Hk1 & Hs1). cbn [mbind outcome_bind]. set (d := zslice a kBufferSize D) in *.
  assert (Hd : zlen d = Z.min kBufferSize (zlen D - a)) by (unfold d; rewrite zlen_zslice; unfold kBufferSize; lia). unfold kBufferSize in Hd.
  destruct (Z.ltb_spec (zlen d) 0); [lia|]. destruct (Z.eqb_spec (zlen d) 0) as [E0|E0].
  - exists k1, s1. assert (a = zlen D) as -> by lia. rewrite E0, Z.add_0_r in Hk1. done.
  - assert (Hdd : d = zslice a (zlen d) D).
    { rewrite Hd. unfold d, zslice, kBufferSize. destruct (Z.le_gt_cases 32768 (zlen D - a)) as [Hle|Hgt]; [f_equal; lia|].
      rewrite !ztake_ge; rewrite ?zlen_zdrop; done || lia. }
    destruct (copy_write a d k1 s1 Hk1 Hdd) as (k2 & s2 & -> & Hk2 & Hs2); [lia|lia|done|]. cbn [mbind outcome_bind]. apply (IH (a + zlen d)); done || lia.
Qed.

End Copy.

Definition for_reading : request := mkRequest Open true false false false false false false.
Definition for_overwriting : request := mkRequest CreateAlways false true false false false false false.

Lemma move_opened fd e c k : move_assign no_file (mkFile fd e c) k = Ok (mkFile fd e c, mkFile kInvalidPlatformFile e c, k).
Proof. reflexivity. Qed.

Lemma opened_open_at path d r k k' : rq_delete r = false -> file_opened path d r k k' ->
  exists fl, open_at k' (new_fd k) path 0 fl /\ access_good r (mkOfile [] 0 fl).
Proof.
  intros Hr [_ (g & Hv & _ & Hp & Ha) Hl _ _ _ _]. exists (f_flags g). rewrite <- Hp at 1. split; [|exact Ha]. apply linked_open_at; [by apply Hl|done].
Qed.

Lemma valid_new_fd k e c : File.is_valid (mkFile (new_fd k) e c) = true.
Proof. unfold File.is_valid. cbn. pose proof (new_fd_nonneg k). apply negb_true_iff, Z.eqb_neq. unfold kInvalidPlatformFile. lia. Qed.

(** Closing a file leaves the files alone. *)
Lemma destroy_open_at f k path pos fl : fs_ok k -> File.is_valid f = true -> open_at k (File.file_ f) path pos fl ->
  exists k', destroy_file f k = Ok k' /\ fs_ok k' /\ (forall q, contents k' q = contents k q)
    /\ forall fd q p l, fd <> File.file_ f -> open_at k fd q p l -> open_at k' fd q p l.
Proof.
  intros Hk Hf (i & ino & Hi & _). destruct (close_other _ _ _ Hk Hi) as (k' & Ec & Hk' & Hc & Hv & Hl). destruct (destroy_open f k i Hk Hf Hi) as (k2 & E & Ec2).
  rewrite Ec in Ec2. injection Ec2 as <-. exists k'. split_and!; [done|done|done|]. intros fd q p l Hne (j & m & E1 & E2 & E3).
  unfold sys_close in Ec. rewrite Hi in Ec. injection Ec as <-. exists j, m. split_and!; [|done|done]. revert E1. unfold description_of. cbn [set_descriptors descriptors].
  destruct (Z.ltb_spec fd 0); [done|]. unfold description_of in Hi. destruct (Z.ltb_spec (File.file_ f) 0); [done|]. by rewrite list_lookup_insert_ne by lia.
Qed.

Lemma copy_file_ok from to D k script :
  fs_ok k -> from <> to -> references_parent from = Ok false -> references_parent to = Ok false -> contents k from = Some D -> smooth 100 script ->
  exists k' script', copy_file (S (length D)) from to k script = Ok (true, k', script') /\ fs_ok k' /\ smooth 100 script'
    /\ forall q, contents k' q = if decide (q = to) then Some D else contents k q.
Proof.
  intros Hk Hne Hp1 Hp2 HD Hs. unfold copy_file.
  change (Z.lor FLAG_OPEN FLAG_READ) with (request_flags for_reading). change (Z.lor FLAG_WRITE FLAG_CREATE_ALWAYS) with (request_flags for_overwriting).
  destruct (make_file_ok from for_reading k script) as (f1 & k1 & s1 & -> & Hs1 & Hm); [done|done|done|done|]. rewrite HD in Hm. cbn in Hm. destruct Hm as [-> Ho1].
  cbn [mbind outcome_bind]. rewrite move_opened. cbn [mbind outcome_bind]. change (destroy_file (mkFile kInvalidPlatformFile _ _) k1) with (Ok k1). cbn [mbind outcome_bind].
  rewrite valid_new_fd. cbn [negb]. destruct (opened_open_at from D for_reading k k1 eq_refl Ho1) as (fl1 & Hat1 & Hr & _ & _).
  assert (Hfd : new_fd k <> new_fd k1) by (destruct Hat1 as (i & _ & Hi & _); by eapply new_fd_free).
  destruct (make_file_ok to for_overwriting k1 s1) as (f2 & k2 & s2 & -> & Hs2 & Hm); [done|apply Ho1|done|done|].
  assert (f2 = mkFile (new_fd k1) FILE_OK true /\ file_opened to [] for_overwriting k1 k2) as [-> Ho2] by (by destruct (contents k1 to)).
  cbn [mbind outcome_bind]. rewrite valid_new_fd. cbn [negb]. destruct (opened_open_at to [] for_overwriting k1 k2 eq_refl Ho2) as (fl2 & Hat2 & _ & Hw & Ha).
  apply (fo_others _ _ _ _ _ Ho2) in Hat1; [|done].
  set (f1 := mkFile (new_fd k) FILE_OK false) in *. set (f2 := mkFile (new_fd k1) FILE_OK true) in *.
  destruct (copy_file_contents_ok from to f1 f2 D fl1 fl2 k Hne (valid_new_fd _ _ _) (valid_new_fd _ _ _) Hr Hw Ha (S (length D)) 0 k2 s2) as (k3 & s3 & -> & Hk3 & Hs3);
    [|pose proof (zlen_nonneg D); lia|unfold zlen; lia|done|].
  { split; [apply Ho2|exact Hat1|exact Hat2| |done]. intros q. rewrite ztake_0. destruct (decide (q = to)) as [->|Hq]; [apply Ho2|].
    rewrite (fo_other _ _ _ _ _ Ho2) by done. destruct (decide (q = from)) as [->|Hq2]; [|by apply (fo_other _ _ _ _ _ Ho1)].
    rewrite (fo_path _ _ _ _ _ Ho1). done. }
  cbn [mbind outcome_bind]. destruct Hk3 as [Hk3 Hin Hout Hc3 _]. rewrite (ztake_ge (zlen D) D) in Hc3 by lia.
  destruct (destroy_open_at f2 k3 _ _ _ Hk3 (valid_new_fd _ _ _) Hout) as (k4 & -> & Hk4 & Hc4 & Hat4). cbn [mbind outcome_bind].
  destruct (destroy_open_at f1 k4 from (zlen D) fl1 Hk4 (valid_new_fd _ _ _)) as (k5 & -> & Hk5 & Hc5 & _).
  { by apply Hat4. }
  exists k5, s3. split_and!; [done|done|done|]. intros q. by rewrite Hc5, Hc4, Hc3.
Qed.

(** *** Comparing *)

Lemma ztake_all (l : bytes) : ztake (zlen l) l = l.
Proof. by apply ztake_ge. Qed.

Lemma contents_loop_ok fuel a b e1 e2 : (length a < fuel)%nat ->
  contents_loop fuel (mkStream a false e1) (mkStream b false e2) = Ok (bool_decide (a = b)).
Proof.
  revert a b. induction fuel as [|fuel IH]; intros a b Hf; [lia|]. cbn [contents_loop]. unfold ifstream_read. cbn [s_eof s_rest s_err].
  assert (Hl : forall x : bytes, zlen (ztake BUFFER_SIZE x) = Z.min BUFFER_SIZE (zlen x)) by (intros x; rewrite zlen_ztake; unfold BUFFER_SIZE; lia). rewrite !Hl.
  destruct (decide (a = b)) as [->|Hne].
  - rewrite Bool.eqb_reflx, Z.eqb_refl, <- Hl, ztake_all. cbn [negb orb]. rewrite !bool_decide_true by done. cbn [negb].
    destruct (Z.ltb_spec (zlen (ztake BUFFER_SIZE b)) BUFFER_SIZE) as [Hlt|Hge]; [done|]. cbn [negb orb]. rewrite IH; [by rewrite bool_decide_true|].
    rewrite Hl in Hge. unfold BUFFER_SIZE in *. unfold zdrop. rewrite length_drop. unfold zlen in Hge. lia.
  - rewrite (bool_decide_false (a = b)) by done. case_match eqn:Ec; [done|]. apply orb_false_iff in Ec as [[E1 E2]%orb_false_iff E3].
    apply negb_false_iff in E1, E2, E3. apply Bool.eqb_prop in E1. apply Z.eqb_eq in E2. apply bool_decide_eq_true in E3. rewrite E2, <- Hl, ztake_all in E3.
    destruct (Z.ltb_spec (Z.min BUFFER_SIZE (zlen a)) BUFFER_SIZE) as [Hlt|Hge].
    + symmetry in E1. apply Z.ltb_lt in E1. rewrite !ztake_ge in E3 by lia. done.
    + cbn [negb orb]. rewrite <- E1. rewrite IH; [|unfold zdrop; rewrite length_drop; unfold BUFFER_SIZE, zlen in *; lia].
      rewrite bool_decide_false; [done|]. intros Hd. apply Hne. by rewrite <- (ztake_zdrop BUFFER_SIZE a), E3, Hd, ztake_zdrop.
Qed.

(** The lines of a text: one more than there are newlines. *)
Fixpoint lines (l : bytes) : list bytes :=
  match l with
  | [] => [[]]
  | c :: l => if bool_decide (c = Byte.x0a) then [] :: lines l else match lines l with d :: ds => (c :: d) :: ds | [] => [[c]] end
  end.

Lemma lines_take l : lines l = match take_line l with (d, Some rest) => d :: lines rest | (d, None) => [d] end.
Proof.
  induction l as [|c l IH]; [done|]. cbn [lines take_line]. destruct (bool_decide (c = Byte.x0a)); [done|]. rewrite IH. destruct (take_line l) as [d [rest|]]; done.
Qed.

Lemma take_line_shorter l d rest : take_line l = (d, Some rest) -> (length rest < length l)%nat.
Proof.
  revert d. induction l as [|c l IH]; intros d; [done|]. cbn [take_line]. destruct (bool_decide (c = Byte.x0a)); [intros [= <- <-]; cbn; lia|].
  destruct (take_line l) as [d' [r|]]; [|done]. intros [= <- <-]. specialize (IH d' eq_refl). cbn. lia.
Qed.

Lemma take_line_valid l d rest : valid l -> take_line l = (d, rest) -> valid d /\ match rest with Some r => valid r | None => True end.
Proof.
  unfold valid. intros Hl. assert (H : forall l d rest, take_line l = (d, rest) -> zlen d <= zlen l /\ match rest with Some r => zlen r <= zlen l | None => True end);
    [|intros E; destruct (H l d rest E); split; [lia|destruct rest; [lia|done]]].
  clear. induction l as [|c l IH]; intros d rest; cbn [take_line]; [by intros [= <- <-]|]. rewrite zlen_cons. pose proof (zlen_nonneg l).
  destruct (bool_decide (c = Byte.x0a)); [intros [= <- <-]; rewrite zlen_nil; lia|]. destruct (take_line l) as [d' r]. intros [= <- <-].
  destruct (IH d' r eq_refl) as [H1 H2]. rewrite zlen_cons. split; [lia|]. destruct r; [lia|done].
Qed.

(** A line without the carriage returns and newlines at its end. *)
Definition ends_line (c : byte) : bool := bool_decide (c ∈ [Byte.x0d; Byte.x0a]).
Fixpoint strip_end (l : bytes) : bytes :=
  match l with
  | [] => []
  | c :: l => match strip_end l with [] => if ends_line c then [] else [c] | d :: r => c :: d :: r end
  end.

Lemma strip_end_all l : Forall (fun c => ends_line c = true) l -> strip_end l = [].
Proof. induction 1 as [|c l Hc _ IH]; [done|]. cbn. by rewrite IH, Hc. Qed.

Lemma strip_end_app a c t : ends_line c = false -> Forall (fun c => ends_line c = true) t -> strip_end (a ++ c :: t) = a ++ [c].
Proof.
  intros Hc Ht. induction a as [|x a IH]; cbn; [by rewrite (strip_end_all t Ht), Hc|]. rewrite IH. by destruct a.
Qed.

Lemma trim_line_ok line : valid line -> trim_line line = strip_end line.
Proof.
  intros Hv. assert (Hlen : forall i c, line !! i = Some c -> Z.of_nat i < npos) by (intros i c Hi%lookup_lt_Some; unfold valid, zlen in Hv; unfold npos; lia).
  unfold trim_line. destruct (find_last_not_of_spec line [Byte.x0d; Byte.x0a] npos Hv) as [[-> Hn]|(H1 & H2 & (c & H3 & H4 & H5) & H6)]; [unfold npos; lia|..].
  - rewrite Z.eqb_refl. symmetry. apply strip_end_all. apply Forall_lookup. intros i c Hi. apply bool_decide_eq_true. apply dec_stable. intros Hc.
    apply (Hn (Z.of_nat i)); [apply Hlen in Hi; lia|]. exists c. rewrite Nat2Z.id. split_and!; [lia|done|done].
  - set (r := find_last_not_of _ _ _) in *. destruct (Z.eqb_spec r npos); [done|]. pose proof (lookup_lt_Some _ _ _ H4) as Hlt.
    assert (Hs : strip_end line = ztake (r + 1) line).
    { rewrite <- (take_drop_middle line _ _ H4) at 1. rewrite strip_end_app.
      - unfold ztake. replace (Z.to_nat (r + 1)) with (S (Z.to_nat r)) by lia. by rewrite (take_S_r _ _ _ H4).
      - by apply bool_decide_eq_false.
      - apply Forall_lookup. intros i d Hd. rewrite lookup_drop in Hd. apply bool_decide_eq_true, dec_stable. intros Hn.
        apply (H6 (Z.of_nat (S (Z.to_nat r) + i))); [pose proof (Hlen _ _ Hd); lia|]. exists d. rewrite Nat2Z.id. split_and!; [lia|done|done]. }
    rewrite Hs. destruct (Z.ltb_spec (r + 1) (zlen line)); [done|]. by rewrite ztake_ge.
Qed.

Lemma text_loop_ok fuel a b : (length a < fuel)%nat -> valid a -> valid b ->
  text_loop fuel (mkStream a false false) (mkStream b false false) = Ok (bool_decide (strip_end <$> lines a = strip_end <$> lines b)).
Proof.
  revert a b. induction fuel as [|fuel IH]; intros a b Hf Ha Hb; [lia|]. cbn [text_loop]. unfold getline. cbn [s_eof s_rest s_err].
  rewrite (lines_take a), (lines_take b). destruct (take_line a) as [d1 r1] eqn:E1. destruct (take_line b) as [d2 r2] eqn:E2.
  destruct (take_line_valid a d1 r1 Ha E1) as [Hd1 Hr1]. destruct (take_line_valid b d2 r2 Hb E2) as [Hd2 Hr2].
  destruct r1 as [r1|], r2 as [r2|]; cbn [s_eof s_err Bool.eqb negb orb fmap list_fmap].
  - rewrite !trim_line_ok by done. destruct (decide (strip_end d1 = strip_end d2)) as [Ed|Ed].
    + rewrite (bool_decide_true (strip_end d1 = _)) by done. cbn [negb]. rewrite IH; [|apply take_line_shorter in E1; lia|done|done].
      f_equal. apply bool_decide_ext. rewrite Ed. split; congruence.
    + rewrite !bool_decide_false; [done|congruence|done].
  - rewrite bool_decide_false; [done|]. intros [= _ E]. rewrite (lines_take r1) in E. by destruct (take_line r1) as [? [?|]].
  - rewrite bool_decide_false; [done|]. intros [= _ E]. rewrite (lines_take r2) in E. by destruct (take_line r2) as [? [?|]].
  - rewrite !trim_line_ok by done. destruct (decide (strip_end d1 = strip_end d2)) as [Ed|Ed].
    + by rewrite !bool_decide_true by congruence.
    + rewrite !bool_decide_false; [done|congruence|done].
Qed.

(** *** The size that is reported *)

Lemma zlen_ztake_le (n : Z) (l : bytes) : 0 <= n <= zlen l -> zlen (ztake n l) = n.
Proof. intros Hn. rewrite zlen_ztake. lia. Qed.

Lemma resize_prefix (n : Z) (l D : bytes) : 0 <= n <= zlen D -> n <= zlen l -> ztake n l = ztake n D -> resize n l = ztake n D.
Proof. intros H1 H2 H3. unfold resize. replace (Z.to_nat (n - zlen l)) with 0%nat by lia. cbn [replicate]. by rewrite app_nil_r. Qed.

Lemma read_file_to_string_ok path max_size file_size k script fails D :
  references_parent path = Ok false -> contents k path = Some D -> zlen D < 2 ^ 62 -> 0 <= max_size < 2 ^ 64 ->
  (forall n, file_size = Some n -> n < 2 ^ 62) -> smooth 100 script ->
  exists ok data script', read_file_to_string_with_max_size path max_size file_size k script fails = Ok (ok, data, script') /\ smooth 100 script'
    /\ data = ztake (zlen data) D /\ (ok = true -> data = D)
    /\ (Forall (eq None) fails -> ok = bool_decide (zlen D <= max_size) /\ data = ztake max_size D).
Proof.
  intros Hp Hc HD Hm Hfs Hs. unfold read_file_to_string_with_max_size. rewrite Hp. cbn [mbind outcome_bind].
  assert (Eo : open_FILE path (txt "rb") k script = Ok (fopen_loop path k script)) by (unfold open_FILE; rewrite check_true by (vm_compute; reflexivity); done).
  rewrite Eo. destruct (fopen_smooth path k 100 script Hs) as (s1 & -> & Hs1). rewrite Hc. cbn [mbind outcome_bind s_rest].
  set (c := match file_size with Some n => _ | None => _ end). assert (Hcs : 1 <= c < 2 ^ 62).
  { unfold c. destruct file_size as [n|]; [specialize (Hfs n eq_refl); destruct (Z.leb_spec n 0); [vm_compute; intuition congruence|lia]|vm_compute; intuition congruence]. }
  rewrite u64_small, i64_small by lia. rewrite defined_true by (apply Z.leb_le; lia). cbn [mbind outcome_bind].
  destruct (slurp_loop_ok D (S (S (length D))) (Z.min c max_size + 1) max_size 0 (resize (Z.min c max_size + 1) []) (mkStream D false false) fails)
    as (st & n & l' & s' & -> & R1 & R2 & R3 & R4 & R5 & R6); [lia|pose proof (zlen_nonneg D); lia|lia|lia|rewrite zlen_resize; lia|by rewrite !ztake_0|by rewrite zdrop_0|done|unfold zlen; lia|].
  cbn [mbind outcome_bind]. rewrite (resize_prefix n l' D R2 R3 R1). do 3 eexists. split; [reflexivity|]. rewrite (zlen_ztake_le n D R2). split_and!; [done|done|..].
  - intros [Hst He%negb_true_iff]%andb_true_iff. rewrite (R5 Hst He). by apply ztake_ge.
  - intros Hn. specialize (R6 eq_refl Hn). rewrite R6. cbn [negb]. rewrite andb_true_r. destruct st.
    + specialize (R5 eq_refl R6). subst n. rewrite bool_decide_true by lia. by rewrite !ztake_ge by lia.
    + destruct R4 as [-> Hlt]. by rewrite bool_decide_false by lia.
Qed.

(** ** Theorems *)

(** Reading a file into a string gives all of it up to the limit, whatever size [stat] reports for it (too
    small, too large or none): the string is the file and the result is [true] exactly when the file is within the limit, and otherwise its first
    [max_size] bytes; on a read error it is what was read before, and the result is [false].  The loop always ends and [fread] stays
    inside the string. *)
Theorem read_file_correct (path : bytes) (max_size : Z) (file_size : option Z) (k : kernel) (script : list wish) (fails : list (option nat)) (D : bytes) :
  references_parent path = Ok false -> contents k path = Some D -> zlen D < 2 ^ 62 -> 0 <= max_size < 2 ^ 64 ->
  (forall n, file_size = Some n -> n < 2 ^ 62) -> smooth 100 script ->
  exists ok data script', read_file_to_string_with_max_size path max_size file_size k script fails = Ok (ok, data, script')
    /\ data = ztake (zlen data) D /\ (ok = true -> data = D)
    /\ (Forall (eq None) fails -> ok = bool_decide (zlen D <= max_size) /\ data = ztake max_size D).
Proof.
  intros Hp Hc HD Hm Hfs Hs. destruct (read_file_to_string_ok path max_size file_size k script fails D Hp Hc HD Hm Hfs Hs) as (ok & data & s' & E & _ & H). by exists ok, data, s'.
Qed.

Lemma read_file_correct_witness :
  (exists script', read_file_to_string_with_max_size (txt "log") 2 (Some 1) some_kernel [Fail EINTR] [] = Ok (false, txt "ol", script'))
  /\ exists ok data script', read_file_to_string_with_max_size (txt "log") 100 (Some 1) some_kernel [Fail EINTR] [] = Ok (ok, data, script') /\ ok = true /\ data = txt "old".
Proof.
  split; [eexists; vm_compute; reflexivity|].
  destruct (read_file_correct (txt "log") 100 (Some 1) some_kernel [Fail EINTR] [] (txt "old")) as (ok & data & s' & E & _ & _ & H).
  - vm_compute. reflexivity.
  - vm_compute. reflexivity.
  - vm_compute. reflexivity.
  - lia.
  - intros n [= <-]. lia.
  - cbn. repeat split.
  - destruct (H ltac:(constructor)) as [H1 H2]. exists ok, data, s'. split; [exact E|]. split; [rewrite H1; reflexivity|rewrite H2; reflexivity].
Defined.

(** What [write_file] and then [append_to_file] put into a file, [read_file_to_string] reads back, whatever the file held before, however the
    kernel splits the transfers and interrupts the calls; no other file changes, and appending to a file that does not exist changes nothing. *)
Theorem write_read_roundtrip (path d1 d2 : bytes) (file_size : option Z) (k : kernel) (script : list wish) :
  fs_ok k -> references_parent path = Ok false -> zlen d1 + zlen d2 < 2 ^ 62 -> (forall n, file_size = Some n -> n < 2 ^ 62) -> smooth 100 script ->
  (exists k' script',
    ('(n, k, script) ← write_file path d1 (zlen d1) k script;
     '(ok, k, script) ← append_to_file path d2 (zlen d2) k script;
     '(ok2, data, script) ← read_file_to_string path file_size k script [];
     Ok (n, ok, ok2, data, k, script)) = Ok (zlen d1, true, true, d1 ++ d2, k', script')
    /\ fs_ok k' /\ forall q, contents k' q = if decide (q = path) then Some (d1 ++ d2) else contents k q)
  /\ (contents k path = None -> exists script', append_to_file path d2 (zlen d2) k script = Ok (false, k, script')).
Proof.
  intros Hk Hp Hl Hfs Hs. pose proof (zlen_nonneg d1). pose proof (zlen_nonneg d2). split.
  - destruct (write_file_ok path d1 (zlen d1) k script) as (k1 & s1 & -> & Hk1 & Hs1 & Hc1); [done|lia|done|]. cbn [mbind outcome_bind]. rewrite ztake_all in Hc1.
    pose proof (append_to_file_ok path d2 (zlen d2) k1 s1 Hk1 ltac:(lia) Hs1) as Ha. rewrite (Hc1 path), decide_True in Ha by done.
    destruct Ha as (k2 & s2 & -> & Hk2 & Hs2 & Hc2). cbn [mbind outcome_bind]. rewrite ztake_all in Hc2.
    destruct (read_file_to_string_ok path (2 ^ 64 - 1) file_size k2 s2 [] (d1 ++ d2)) as (ok & data & s3 & E & _ & _ & _ & H3); [done|by rewrite Hc2, decide_True|rewrite zlen_app; lia|lia|done|done|].
    destruct (H3 ltac:(constructor)) as [-> ->]. unfold read_file_to_string. rewrite E. cbn [mbind outcome_bind].
    rewrite bool_decide_true, ztake_ge by (rewrite zlen_app; lia). exists k2, s3. split_and!; [done|done|]. intros q. rewrite Hc2. destruct (decide (q = path)); [done|]. by rewrite Hc1, decide_False.
  - intros Hn. pose proof (append_to_file_ok path d2 (zlen d2) k script Hk ltac:(lia) Hs) as Ha. rewrite Hn in Ha. destruct Ha as (s' & E & _). by exists s'.
Qed.

Lemma write_read_roundtrip_witness :
  exists k' script',
    ('(n, k, script) ← write_file (txt "log") (txt "ab") 2 some_kernel rough;
     '(ok, k, script) ← append_to_file (txt "log") (txt "cde") 3 k script;
     '(ok2, data, script) ← read_file_to_string (txt "log") None k script [];
     Ok (n, ok, ok2, data, k, script)) = Ok (2, true, true, txt "abcde", k', script').
Proof.
  destruct (write_read_roundtrip (txt "log") (txt "ab") (txt "cde") None some_kernel rough) as [(k' & s' & E & _) _].
  - exact some_kernel_ok.
  - vm_compute. reflexivity.
  - vm_compute. reflexivity.
  - done.
  - cbn. repeat split.
  - exists k', s'. exact E.
Defined.

(** [copy_file] makes the destination an exact copy, created or overwritten, closes what it opened and changes no other file; without a source it returns
    [false] and changes nothing.  One round per byte and one more suffice. *)
Theorem copy_file_correct (from to : bytes) (k : kernel) (script : list wish) :
  fs_ok k -> from <> to -> references_parent from = Ok false -> references_parent to = Ok false -> smooth 100 script ->
  match contents k from with
  | Some D => exists k' script', copy_file (S (length D)) from to k script = Ok (true, k', script') /\ fs_ok k'
      /\ forall q, contents k' q = if decide (q = to) then Some D else contents k q
  | None => forall fuel, exists script', copy_file fuel from to k script = Ok (false, k, script')
  end.
Proof.
  intros Hk Hne Hp1 Hp2 Hs. destruct (contents k from) as [D|] eqn:HD.
  - destruct (copy_file_ok from to D k script Hk Hne Hp1 Hp2 HD Hs) as (k' & s' & E & Hk' & _ & Hc). by exists k', s'.
  - intros fuel. unfold copy_file. change (Z.lor FLAG_OPEN FLAG_READ) with (request_flags for_reading).
    destruct (make_file_ok from for_reading k script) as (f1 & k1 & s1 & -> & Hs1 & Hm); [done|done|done|done|]. rewrite HD in Hm. cbn in Hm. destruct Hm as [-> ->]. by exists s1.
Qed.

Lemma copy_file_correct_witness :
  exists k' script', copy_file 4 (txt "log") (txt "new") some_kernel rough = Ok (true, k', script') /\ contents k' (txt "new") = Some (txt "old").
Proof.
  destruct (copy_file_correct (txt "log") (txt "new") some_kernel rough) as (k' & s' & E & _ & Hc).
  - exact some_kernel_ok.
  - done.
  - vm_compute. reflexivity.
  - vm_compute. reflexivity.
  - cbn. repeat split.
  - exists k', s'. split; [exact E|exact (Hc (txt "new"))].
Defined.

(** The comparisons decide what they claim: [contents_equal] whether two files exist and have the same bytes, and [text_contents_equal] whether they exist and
    have the same lines, without regard to the carriage returns that end them.  Both end on every input. *)
Theorem files_compared (k : kernel) (f1 f2 : bytes) :
  (forall f d, contents k f = Some d -> zlen d < 2 ^ 63) ->
  contents_equal f1 f2 k = Ok (bool_decide (contents k f1 <> None /\ contents k f1 = contents k f2))
  /\ text_contents_equal f1 f2 k = Ok (match contents k f1, contents k f2 with
       | Some d1, Some d2 => bool_decide (strip_end <$> lines d1 = strip_end <$> lines d2) | _, _ => false end).
Proof.
  intros Hv. unfold contents_equal, text_contents_equal, ifstream_open. pose proof (Hv f1) as Hv1. pose proof (Hv f2) as Hv2.
  destruct (contents k f1) as [d1|] eqn:E1; [|by rewrite bool_decide_false by tauto]. destruct (contents k f2) as [d2|] eqn:E2; [|by rewrite bool_decide_false by (intros [_ ?]; done)].
  cbn [s_rest]. rewrite contents_loop_ok by lia. split.
  - f_equal. apply bool_decide_ext. split; [by intros ->|]. intros [_ E]. congruence.
  - apply text_loop_ok; [lia|by apply Hv1|by apply Hv2].
Qed.

Lemma files_compared_witness :
  let k := mkKernel {[txt "a" := 0%nat; txt "b" := 1%nat]} [txt "x" ++ [Byte.x0d; Byte.x0a] ++ txt "y"; txt "x" ++ [Byte.x0a] ++ txt "y"] [] [] in
  contents_equal (txt "a") (txt "b") k = Ok false /\ text_contents_equal (txt "a") (txt "b") k = Ok true.
Proof.
  intros k. destruct (files_compared k (txt "a") (txt "b")) as [H1 H2].
  - intros f d. unfold contents. cbn [k names inodes]. destruct (_ !! f) as [[|[|i]]|]; cbn; [intros [= <-]; vm_compute; reflexivity|intros [= <-]; vm_compute; reflexivity|done|done].
  - rewrite H1, H2. split; vm_compute; reflexivity.
Defined.

(** ** Examples *)

(** Copying a file onto itself empties it, and reports success: the destination is truncated before the source is read. *)
Example copy_onto_itself :
  match copy_file 4 (txt "log") (txt "log") some_kernel [] with Ok (ok, k, _) => Some (ok, contents k (txt "log")) | Fault _ => None end = Some (true, Some []).
Proof. vm_compute. reflexivity. Qed.

(** [touch_file] opens the file with [FLAG_OPEN] alone, which [do_initialize] does not accept. *)
Example touch_file_aborts : touch_file (txt "log") true some_kernel [] = Fault (CheckFailed "do_initialize: NOTREACHED").
Proof. vm_compute. reflexivity. Qed.

(** The first number that is free. *)
Example unique_number :
  get_unique_path_number (txt "log") [] some_kernel = 1 /\ get_unique_path_number (txt "new") [] some_kernel = 0.
Proof. split; vm_compute; reflexivity. Qed.
