(* ===== verification/Directory.v ===== *)
(** * Directories (include/files/FileEnumerator.h, src/FileEnumerator.cc, and the functions on directories of src/FileUtil.cc
    and src/FileUtilPosix.cc)

    The enumeration of a directory tree, and deleting, creating and checking directories.  A file system is a finite map from the real
    path of each file, the names from the root, to its status; links hold the path they refer to.  Paths are resolved component by component, through
    links.  Any system call can fail: a script says of each call in turn with which error, and when the script ends calls fail only where
    the file system makes them fail.  The order in which a directory is read and the matching of patterns ([fnmatch]) are parameters.

    The file shows that a recursive enumeration delivers everything below a directory once, parents first, that deleting a tree removes it and nothing
    else, that creating a directory creates exactly the missing ancestors, and what the check of the owners of a path accepts. *)

From S2P Require Import Prelude StringPiece FilePath File.

(** ** Definitions *)

(** *** The file system *)

Definition ENOTEMPTY : Z := 39.
Definition ELOOP : Z := 40.
Definition S_IFMT : Z := 61440.
Definition S_IFDIR : Z := 16384.
Definition S_IFREG : Z := 32768.
Definition S_IFLNK : Z := 40960.
Definition S_IWGRP : Z := 16.
Definition S_IWOTH : Z := 2.

Record stat_t : Type := mkStat { st_ino : Z; st_mode : Z; st_uid : Z; st_gid : Z; st_size : Z }.

Definition S_ISDIR (m : Z) : bool := Z.land m S_IFMT =? S_IFDIR.
Definition S_ISLNK (m : Z) : bool := Z.land m S_IFMT =? S_IFLNK.

(** A file: its status, and the target if it is a link. *)
Record node : Type := mkNode { n_stat : stat_t; n_target : bytes }.

Definition is_dir (n : node) : bool := S_ISDIR (st_mode (n_stat n)).
Definition is_lnk (n : node) : bool := S_ISLNK (st_mode (n_stat n)).

(** The files by their real paths, and the process: working directory, mask and user. *)
Record tree : Type := mkTree { nodes : gmap (list bytes) node; cwd : list bytes; umask : Z; euid : Z; egid : Z }.
Definition set_nodes (ns : gmap (list bytes) node) (t : tree) : tree := mkTree ns (cwd t) (umask t) (euid t) (egid t).

(** The components that are resolved: a separator at the end stands for a final ".". *)
Definition ends_sep (path : bytes) : bool := match last path with Some c => is_separator c | None => false end.
Definition path_parts (path : bytes) : list bytes := segments path ++ (if ends_sep path then [kCurrentDirectory] else []).
Definition start (t : tree) (path : bytes) : list bytes := if is_path_absolute path then [] else cwd t.

(** Path resolution from the directory [cur]: through at most [links] links; the last component is followed on demand. *)
Fixpoint walk (links : nat) (t : tree) (follow : bool) : list bytes -> list bytes -> Z + list bytes :=
  fix go (cur parts : list bytes) : Z + list bytes :=
    match parts with
    | [] => inr cur
    | c :: rest =>
        match nodes t !! cur with
        | None => inl ENOENT
        | Some n =>
            if negb (is_dir n) then inl ENOTDIR
            else if bool_decide (c = kCurrentDirectory) then go cur rest
            else if bool_decide (c = kParentDirectory) then go (removelast cur) rest
            else
              match nodes t !! (cur ++ [c]) with
              | None => inl ENOENT
              | Some n' =>
                  if is_lnk n' && (follow || negb (bool_decide (rest = []))) then
                    match links with
                    | O => inl ELOOP
                    | S links => walk links t follow (start (mkTree (nodes t) cur 0 0 0) (n_target n')) (path_parts (n_target n') ++ rest)
                    end
                  else go (cur ++ [c]) rest
              end
        end
    end.

Definition MAXSYMLINKS : nat := 40.

Definition resolve (t : tree) (follow : bool) (path : bytes) : Z + list bytes :=
  if bool_decide (path = []) then inl ENOENT else walk MAXSYMLINKS t follow (start t path) (path_parts path).

(** The file at a real path, as an error or the file. *)
Definition node_at (t : tree) (r : Z + list bytes) : Z + (list bytes * node) :=
  match r with
  | inl e => inl e
  | inr q => match nodes t !! q with Some n => inr (q, n) | None => inl ENOENT end
  end.

Definition children (t : tree) (d : list bytes) : list bytes :=
  omap (fun '(p, _) => match last p with Some c => if bool_decide (p = d ++ [c]) then Some c else None | None => None end) (map_to_list (nodes t)).

(** stat(2) and lstat(2). *)
Definition sys_stat (follow : bool) (path : bytes) (t : tree) : Z + stat_t :=
  match node_at t (resolve t follow path) with inl e => inl e | inr (_, n) => inr (n_stat n) end.

Definition sys_unlink (path : bytes) (t : tree) : Z + tree :=
  match node_at t (resolve t false path) with
  | inl e => inl e
  | inr (q, n) => if is_dir n then inl EISDIR else inr (set_nodes (delete q (nodes t)) t)
  end.

(** A separator at the end makes no difference to rmdir(2) and mkdir(2). *)
Definition sys_rmdir (path : bytes) (t : tree) : Z + tree :=
  if bool_decide (path = []) then inl ENOENT
  else if bool_decide (last (segments path) = Some kCurrentDirectory) then inl EINVAL
  else
    match node_at t (walk MAXSYMLINKS t false (start t path) (segments path)) with
    | inl e => inl e
    | inr (q, n) =>
        if bool_decide (q = []) then inl EBUSY
        else if negb (is_dir n) then inl ENOTDIR
        else if negb (bool_decide (children t q = [])) then inl ENOTEMPTY
        else inr (set_nodes (delete q (nodes t)) t)
    end.

Definition fresh_ino (t : tree) : Z := 1 + foldr Z.max 0 ((fun p => st_ino (n_stat p.2)) <$> map_to_list (nodes t)).
Definition new_directory (mode : Z) (t : tree) : node :=
  mkNode (mkStat (fresh_ino t) (Z.lor S_IFDIR (Z.land mode (Z.lnot (umask t)))) (euid t) (egid t) 0) [].

Definition sys_mkdir (path : bytes) (mode : Z) (t : tree) : Z + tree :=
  if bool_decide (path = []) then inl ENOENT
  else
    match last (segments path) with
    | None => inl EEXIST
    | Some c =>
        match node_at t (walk MAXSYMLINKS t true (start t path) (removelast (segments path))) with
        | inl e => inl e
        | inr (q, n) =>
            if negb (is_dir n) then inl ENOTDIR
            else if bool_decide (c = kCurrentDirectory \/ c = kParentDirectory) then inl EEXIST
            else
              match nodes t !! (q ++ [c]) with
              | Some _ => inl EEXIST
              | None => inr (set_nodes (<[q ++ [c] := new_directory mode t]> (nodes t)) t)
              end
        end
    end.

(** The script of failures: the next system call, whose own result is [r]. *)
Definition attempt {A} (r : Z + A) (script : list (option Z)) : (Z + A) * list (option Z) :=
  match script with
  | Some e :: script => (inl e, script)
  | None :: script => (r, script)
  | [] => (r, [])
  end.

(** *** FileEnumerator *)

Record FileInfo : Type := mkInfo { stat_ : stat_t; filename_ : bytes }.
Definition zero_stat : stat_t := mkStat 0 0 0 0 0.
Definition is_directory (i : FileInfo) : bool := S_ISDIR (st_mode (stat_ i)).
Definition get_name (i : FileInfo) : bytes := filename_ i.
Definition get_size (i : FileInfo) : Z := st_size (stat_ i).

Definition FILES : Z := 1.
Definition DIRECTORIES : Z := 2.
Definition INCLUDE_DOT_DOT : Z := 4.
Definition SHOW_SYM_LINKS : Z := 16.

Inductive FolderSearchPolicy : Type := MATCH_ONLY | ALL.
#[export] Instance FolderSearchPolicy_eq_dec : EqDecision FolderSearchPolicy.
Proof. solve_decision. Defined.

(** The top of the stack [pending_paths_] is the head of the list. *)
Record FileEnumerator : Type := mkEnum {
  directory_entries_ : list FileInfo;
  visited_directories_ : gset Z;
  current_directory_entry_ : Z;
  root_path_ : bytes;
  recursive_ : bool;
  file_type_ : Z;
  pattern_ : bytes;
  folder_search_policy_ : FolderSearchPolicy;
  pending_paths_ : list bytes
}.

Definition has_type (file_type bit : Z) : bool := negb (Z.land file_type bit =? 0).

(** With what happens to [st] when the call fails. *)
Definition get_stat (path : bytes) (show_links : bool) (t : tree) (script : list (option Z)) : stat_t * list (option Z) :=
  match attempt (sys_stat (negb show_links) path t) script with
  | (inr st, script) => (st, script)
  | (inl _, script) => (zero_stat, script)
  end.

Definition make_enumerator (root_path : bytes) (recursive : bool) (file_type : Z) (pattern : bytes) (policy : FolderSearchPolicy)
    (t : tree) (script : list (option Z)) : outcome (FileEnumerator * list (option Z)) :=
  check (negb (recursive && has_type file_type INCLUDE_DOT_DOT)) "FileEnumerator: INCLUDE_DOT_DOT";;
  let '(visited, script) :=
    if recursive && negb (has_type file_type SHOW_SYM_LINKS) then
      let '(st, script) := get_stat root_path false t script in ({[ st_ino st ]}, script)
    else (∅, script) in
  Ok (mkEnum [] visited 0 root_path recursive file_type pattern policy [root_path], script).

Definition should_skip (e : FileEnumerator) (path : bytes) : bool :=
  let base := basename path in
  bool_decide (base = kCurrentDirectory) || (bool_decide (base = kParentDirectory) && negb (has_type (file_type_ e) INCLUDE_DOT_DOT)).

Definition is_type_matched (e : FileEnumerator) (is_dir : bool) : bool := has_type (file_type_ e) (if is_dir then DIRECTORIES else FILES).

Section enumeration.
(** The order in which readdir(3) delivers the names of a directory, and fnmatch(3) with [FNM_NOESCAPE]. *)
Variable order : tree -> list bytes -> list bytes -> list bytes.
Variable fnmatch : bytes -> bytes -> bool.

(** opendir(3) and all that readdir(3) will deliver. *)
Definition sys_opendir (path : bytes) (t : tree) : Z + list bytes :=
  match node_at t (resolve t true path) with
  | inl e => inl e
  | inr (q, n) => if is_dir n then inr (order t q ([kCurrentDirectory; kParentDirectory] ++ children t q)) else inl ENOTDIR
  end.

Definition is_pattern_matched (e : FileEnumerator) (path : bytes) : bool := bool_decide (pattern_ e = []) || fnmatch (pattern_ e) path.

(** The loop over the entries of a directory. *)
Fixpoint read_dir (dents : list bytes) (e : FileEnumerator) (t : tree) (script : list (option Z)) : outcome (FileEnumerator * list (option Z)) :=
  match dents with
  | [] => Ok (e, script)
  | d_name :: dents =>
      let filename := make_file_path d_name in
      if should_skip e filename then read_dir dents e t script
      else
        let is_pattern_match := is_pattern_matched e filename in
        if bool_decide (folder_search_policy_ e = MATCH_ONLY) && negb is_pattern_match then read_dir dents e t script
        else if negb (recursive_ e) && negb is_pattern_match then read_dir dents e t script
        else
          full_path ← append filename (root_path_ e);
          let show_sym_links := has_type (file_type_ e) SHOW_SYM_LINKS in
          let '(st, script) := get_stat full_path show_sym_links t script in
          let info := mkInfo st filename in
          let is_dir := is_directory info in
          let '(push, visited) :=
            if recursive_ e && is_dir then
              if show_sym_links then (true, visited_directories_ e)
              else (bool_decide (st_ino st ∉ visited_directories_ e), {[ st_ino st ]} ∪ visited_directories_ e)
            else (false, visited_directories_ e) in
          let pending := if push : bool then full_path :: pending_paths_ e else pending_paths_ e in
          let entries := if is_pattern_match && is_type_matched e is_dir then directory_entries_ e ++ [info] else directory_entries_ e in
          read_dir dents (mkEnum entries visited (current_directory_entry_ e) (root_path_ e) (recursive_ e) (file_type_ e) (pattern_ e) (folder_search_policy_ e) pending) t script
  end.

Fixpoint next_loop (fuel : nat) (e : FileEnumerator) (t : tree) (script : list (option Z)) : outcome (bytes * FileEnumerator * list (option Z)) :=
  match fuel with
  | O => Fault OutOfFuel
  | S fuel =>
      if zlen (directory_entries_ e) <=? current_directory_entry_ e then
        match pending_paths_ e with
        | [] => Ok ([], e, script)
        | top :: pending =>
            let root := strip_trailing_separators top in
            match attempt (sys_opendir root t) script with
            | (inl _, script) =>
                next_loop fuel (mkEnum (directory_entries_ e) (visited_directories_ e) (current_directory_entry_ e) root (recursive_ e) (file_type_ e) (pattern_ e) (folder_search_policy_ e) pending) t script
            | (inr dents, script) =>
                '(e, script) ← read_dir dents (mkEnum [] (visited_directories_ e) 0 root (recursive_ e) (file_type_ e) (pattern_ e) (folder_search_policy_ e) pending) t script;
                let pattern := if bool_decide (folder_search_policy_ e = MATCH_ONLY) then [] else pattern_ e in
                next_loop fuel (mkEnum (directory_entries_ e) (visited_directories_ e) (current_directory_entry_ e) (root_path_ e) (recursive_ e) (file_type_ e) pattern (folder_search_policy_ e) (pending_paths_ e)) t script
            end
        end
      else
        match directory_entries_ e !! Z.to_nat (current_directory_entry_ e) with
        | Some info => path ← append (filename_ info) (root_path_ e); Ok (path, e, script)
        | None => Fault (Undefined "next: directory_entries_")
        end
  end.

Definition next (fuel : nat) (e : FileEnumerator) (t : tree) (script : list (option Z)) : outcome (bytes * FileEnumerator * list (option Z)) :=
  next_loop fuel (mkEnum (directory_entries_ e) (visited_directories_ e) (u64 (current_directory_entry_ e + 1)) (root_path_ e) (recursive_ e) (file_type_ e) (pattern_ e) (folder_search_policy_ e) (pending_paths_ e)) t script.

Definition get_info (e : FileEnumerator) : outcome FileInfo :=
  match directory_entries_ e !! Z.to_nat (current_directory_entry_ e) with Some info => Ok info | None => Fault (Undefined "get_info: directory_entries_") end.

(** *** FileUtil.cc and FileUtilPosix.cc *)

(** The bound on the loops below: a step for each file, and one more. *)
Definition enough (t : tree) : nat := S (S (size (nodes t))).

Definition is_directory_empty (dir_path : bytes) (t : tree) (script : list (option Z)) : outcome (bool * list (option Z)) :=
  '(files, script) ← make_enumerator dir_path false (Z.lor FILES DIRECTORIES) [] MATCH_ONLY t script;
  '(path, _, script) ← next (enough t) files t script;
  Ok (bool_decide (path = []), script).

Fixpoint size_loop (fuel : nat) (running_size : Z) (file_iter : FileEnumerator) (t : tree) (script : list (option Z)) : outcome (Z * list (option Z)) :=
  match fuel with
  | O => Fault OutOfFuel
  | S fuel =>
      '(path, file_iter, script) ← next (enough t) file_iter t script;
      if bool_decide (path = []) then Ok (running_size, script)
      else info ← get_info file_iter; size_loop fuel (running_size + get_size info) file_iter t script
  end.
Definition compute_directory_size (root_path : bytes) (t : tree) (script : list (option Z)) : outcome (Z * list (option Z)) :=
  '(file_iter, script) ← make_enumerator root_path true FILES [] MATCH_ONLY t script;
  size_loop (enough t) 0 file_iter t script.

(** The first loop of [delete_file]; the stack [directories] has its top first. *)
Fixpoint delete_loop (fuel : nat) (traversal : FileEnumerator) (directories : list bytes) (success : bool) (t : tree) (script : list (option Z))
    : outcome (list bytes * bool * tree * list (option Z)) :=
  match fuel with
  | O => Fault OutOfFuel
  | S fuel =>
      '(current, traversal, script) ← next (enough t) traversal t script;
      if bool_decide (current = []) then Ok (directories, success, t, script)
      else
        info ← get_info traversal;
        if is_directory info then delete_loop fuel traversal (current :: directories) success t script
        else
          match attempt (sys_unlink current t) script with
          | (inl _, script) => delete_loop fuel traversal directories false t script
          | (inr t, script) => delete_loop fuel traversal directories success t script
          end
  end.

Fixpoint rmdir_loop (directories : list bytes) (success : bool) (t : tree) (script : list (option Z)) : bool * tree * list (option Z) :=
  match directories with
  | [] => (success, t, script)
  | top :: directories =>
      let dir := make_file_path top in
      match attempt (sys_rmdir dir t) script with
      | (inl _, script) => rmdir_loop directories false t script
      | (inr t, script) => rmdir_loop directories success t script
      end
  end.

Definition delete_file (path : bytes) (recursive : bool) (t : tree) (script : list (option Z)) : outcome (bool * tree * list (option Z)) :=
  match attempt (sys_stat false path t) script with
  | (inl e, script) => Ok ((e =? ENOENT) || (e =? ENOTDIR), t, script)
  | (inr file_info, script) =>
      if negb (S_ISDIR (st_mode file_info)) then
        match attempt (sys_unlink path t) script with (inl _, script) => Ok (false, t, script) | (inr t, script) => Ok (true, t, script) end
      else if negb recursive then
        match attempt (sys_rmdir path t) script with (inl _, script) => Ok (false, t, script) | (inr t, script) => Ok (true, t, script) end
      else
        '(traversal, script) ← make_enumerator path true (Z.lor (Z.lor FILES DIRECTORIES) SHOW_SYM_LINKS) [] MATCH_ONLY t script;
        '(directories, success, t, script) ← delete_loop (enough t) traversal [path] true t script;
        Ok (rmdir_loop directories success t script)
  end.

End enumeration.

Definition directory_exists (path : bytes) (t : tree) (script : list (option Z)) : bool * list (option Z) :=
  match attempt (sys_stat true path t) script with
  | (inl _, script) => (false, script)
  | (inr file_info, script) => (S_ISDIR (st_mode file_info), script)
  end.

(** The paths whose directories are needed, in the order of [push_back]. *)
Fixpoint parents_loop (fuel : nat) (path last_path : bytes) (subpaths : list bytes) : outcome (list bytes) :=
  match fuel with
  | O => Fault OutOfFuel
  | S fuel => if bool_decide (path = last_path) then Ok subpaths else parents_loop fuel (dirname path) path (subpaths ++ [path])
  end.

(** [error] says whether the caller passes a place for the error. *)
Fixpoint create_loop (error : bool) (dirs : list bytes) (t : tree) (script : list (option Z)) : outcome (bool * option Error * tree * list (option Z)) :=
  match dirs with
  | [] => Ok (true, None, t, script)
  | i :: dirs =>
      match directory_exists i t script with
      | (true, script) => create_loop error dirs t script
      | (false, script) =>
          match attempt (sys_mkdir i 448 t) script with
          | (inr t, script) => create_loop error dirs t script
          | (inl saved_errno, script) =>
              match directory_exists i t script with
              | (true, script) => create_loop error dirs t script
              | (false, script) =>
                  if error then e ← os_error_to_file_error saved_errno; Ok (false, Some e, t, script) else Ok (false, None, t, script)
              end
          end
      end
  end.

Definition create_directory_and_get_error (full_path : bytes) (error : bool) (t : tree) (script : list (option Z)) : outcome (bool * option Error * tree * list (option Z)) :=
  subpaths ← parents_loop (S (S (length full_path))) (dirname full_path) full_path [full_path];
  create_loop error (rev subpaths) t script.

Definition create_directory (full_path : bytes) (t : tree) (script : list (option Z)) : outcome (bool * tree * list (option Z)) :=
  '(ok, _, t, script) ← create_directory_and_get_error full_path false t script; Ok (ok, t, script).

Definition verify_specific_path_controlled_by_user (path : bytes) (owner_uid : Z) (group_gids : gset Z) (t : tree) (script : list (option Z)) : bool * list (option Z) :=
  match attempt (sys_stat false path t) script with
  | (inl _, script) => (false, script)
  | (inr stat_info, script) =>
      (if S_ISLNK (st_mode stat_info) then false
       else if negb (st_uid stat_info =? owner_uid) then false
       else if has_type (st_mode stat_info) S_IWGRP && bool_decide (st_gid stat_info ∉ group_gids) then false
       else negb (has_type (st_mode stat_info) S_IWOTH), script)
  end.

(** The loop over both paths: what is left of the second. *)
Fixpoint skip_base (ib ip : list bytes) : outcome (list bytes) :=
  match ib with
  | [] => Ok ip
  | b :: ib =>
      match ip with
      | [] => check false "verify_path_controlled_by_user: ip";; Ok []
      | p :: ip => check (bool_decide (p = b)) "verify_path_controlled_by_user: *ip == *ib";; skip_base ib ip
      end
  end.

Fixpoint verify_loop (ip : list bytes) (current_path : bytes) (owner_uid : Z) (group_gids : gset Z) (t : tree) (script : list (option Z)) : outcome (bool * list (option Z)) :=
  match ip with
  | [] => Ok (true, script)
  | p :: ip =>
      current_path ← append p current_path;
      let '(ok, script) := verify_specific_path_controlled_by_user current_path owner_uid group_gids t script in
      if negb ok then Ok (false, script) else verify_loop ip current_path owner_uid group_gids t script
  end.

Definition verify_path_controlled_by_user (base path : bytes) (owner_uid : Z) (group_gids : gset Z) (t : tree) (script : list (option Z)) : outcome (bool * list (option Z)) :=
  parent ← (if bool_decide (base = path) then Ok true else is_parent path base);
  if negb parent then Ok (false, script)
  else
    base_components ← get_components base;
    path_components ← get_components path;
    ip ← skip_base base_components path_components;
    let '(ok, script) := verify_specific_path_controlled_by_user base owner_uid group_gids t script in
    if negb ok then Ok (false, script) else verify_loop ip base owner_uid group_gids t script.

(** ** Lemmas *)

(** A name in a directory. *)
Definition name_ok (c : bytes) : Prop := path_ok c /\ segment c /\ c <> kCurrentDirectory /\ c <> kParentDirectory.

(** Files are in directories, under names; there is a bound on their number and on the length of their paths. *)
Record tree_ok (t : tree) : Prop := {
  tk_up : forall p c n, nodes t !! (p ++ [c]) = Some n -> exists m, nodes t !! p = Some m /\ is_dir m = true;
  tk_names : forall p n, nodes t !! p = Some n -> Forall name_ok p /\ room p < 2 ^ 62;
  tk_size : Z.of_nat (size (nodes t)) < 2 ^ 62 }.

Lemma dir_not_link n : is_dir n = true -> is_lnk n = false.
Proof. unfold is_dir, is_lnk, S_ISDIR, S_ISLNK, S_IFDIR, S_IFLNK. intros ->%Z.eqb_eq. done. Qed.

Lemma tree_above t p r n : tree_ok t -> nodes t !! (p ++ r) = Some n -> r <> [] -> exists m, nodes t !! p = Some m /\ is_dir m = true.
Proof.
  intros Ht. revert n. induction r as [|c r IH] using rev_ind; intros n Hn Hr; [done|].
  rewrite app_assoc in Hn. apply (tk_up t Ht) in Hn as (m & Hm & Hd). destruct (decide (r = [])) as [->|Hne]; [rewrite app_nil_r in Hm; by exists m|]. by apply (IH m).
Qed.

(** The names among the components. *)
Definition plain (parts : list bytes) : list bytes := filter (fun c => c <> kCurrentDirectory) parts.

Lemma plain_cons c parts : plain (c :: parts) = if bool_decide (c = kCurrentDirectory) then plain parts else c :: plain parts.
Proof. unfold plain. rewrite filter_cons. by destruct (decide (c <> kCurrentDirectory)), (bool_decide_reflect (c = kCurrentDirectory)). Qed.

Lemma plain_app a b : plain (a ++ b) = plain a ++ plain b.
Proof. apply filter_app. Qed.

Lemma plain_names a : Forall name_ok a -> plain a = a.
Proof. induction 1 as [|c a (_ & _ & Hc & _) _ IH]; [done|]. by rewrite plain_cons, bool_decide_false, IH. Qed.

Lemma plain_nil_last parts : parts <> [] -> plain parts = [] -> last parts = Some kCurrentDirectory.
Proof.
  induction parts as [|c parts IH]; [done|]. intros _. rewrite plain_cons. destruct (bool_decide (c = kCurrentDirectory)) eqn:E; [|done].
  apply bool_decide_eq_true in E as ->. intros H. destruct parts as [|d parts]; [done|]. rewrite last_cons_cons. by apply IH.
Qed.

(** A path without ".." to a file that exists leads to it, when nothing on the way can be a link. *)
Lemma walk_reaches t links follow cur parts n :
  tree_ok t -> kParentDirectory ∉ parts -> nodes t !! (cur ++ plain parts) = Some n ->
  is_dir n = true \/ (last parts <> Some kCurrentDirectory /\ (is_lnk n = false \/ follow = false)) ->
  walk links t follow cur parts = inr (cur ++ plain parts).
Proof.
  intros Ht Hp Hn Hok.  revert cur Hp Hn Hok. induction parts as [|c parts IH]; intros cur Hp Hn Hok; [destruct links; cbn; by rewrite app_nil_r|].
  apply not_elem_of_cons in Hp as [Hpc Hp]. rewrite plain_cons in Hn |- *.
  assert (exists m, nodes t !! cur = Some m /\ is_dir m = true) as (m & Em & Hm).
  { destruct (bool_decide (c = kCurrentDirectory)) eqn:Ec.
    - destruct (decide (plain parts = [])) as [E0|Hne]; [|by eapply tree_above]. rewrite E0, app_nil_r in Hn. exists n. split; [done|]. destruct Hok as [?|[Hl _]]; [done|].
      destruct Hl. apply plain_nil_last; [done|]. by rewrite plain_cons, Ec.
    - eapply tree_above; [done|exact Hn|done]. }
  assert (Hok' : is_dir n = true \/ (last parts <> Some kCurrentDirectory /\ (is_lnk n = false \/ follow = false)) \/ parts = []).
  { destruct Hok as [?|[Hl ?]]; [by left|]. right. destruct parts as [|d parts]; [by right|]. left. split; [|done]. by rewrite last_cons_cons in Hl. }
  assert (go : walk links t follow cur (c :: parts) =
    if bool_decide (c = kCurrentDirectory) then walk links t follow cur parts else
    match nodes t !! (cur ++ [c]) with
    | None => inl ENOENT
    | Some n' => if is_lnk n' && (follow || negb (bool_decide (parts = []))) then
                    match links with
                    | O => inl ELOOP
                    | S links => walk links t follow (start (mkTree (nodes t) cur 0 0 0) (n_target n')) (path_parts (n_target n') ++ parts)
                    end else walk links t follow (cur ++ [c]) parts end).
  { destruct links; cbn [walk]; rewrite Em, Hm; cbn [negb]; (destruct (bool_decide (c = kCurrentDirectory)); [done|]); by rewrite (bool_decide_false (c = kParentDirectory)) by congruence. }
  rewrite go. clear go. destruct (bool_decide (c = kCurrentDirectory)) eqn:Ec.
  - apply IH; [done|done|]. destruct Hok' as [?|[?| ->]]; [by left|by right|]. left. cbn in Hn. rewrite app_nil_r in Hn. congruence.
  - replace (cur ++ c :: plain parts) with ((cur ++ [c]) ++ plain parts) in * by (by rewrite <- app_assoc).
    destruct (decide (parts = [])) as [->|Hne].
    + cbn in Hn. rewrite app_nil_r in Hn. rewrite Hn, bool_decide_true by done. cbn [negb]. rewrite orb_false_r.
      assert (is_lnk n && follow = false) as ->. { destruct Hok as [H|[_ [H|H]]]; [by rewrite dir_not_link|by rewrite H|rewrite H; apply andb_false_r]. }
      destruct links; cbn; by rewrite app_nil_r.
    + assert (exists m', nodes t !! (cur ++ [c]) = Some m' /\ is_dir m' = true) as (m' & -> & Hm').
      { destruct (decide (plain parts = [])) as [E0|]; [|by eapply tree_above]. rewrite E0, app_nil_r in Hn. exists n. split; [done|].
        destruct Hok' as [?|[[Hl _]|?]]; [done| |done]. by destruct Hl; apply plain_nil_last. }
      rewrite dir_not_link by done. cbn [andb]. apply IH; [done|done|]. destruct Hok' as [?|[?|?]]; [by left|by right|done].
Qed.

(** *** Strings that name files *)

Definition stops (path : bytes) : Prop := (kParentDirectory ∉ segments path) /\ last (segments path) <> Some kCurrentDirectory.

(** [s] names the real path [q], without links and "..". *)
Record names (t : tree) (s : bytes) (q : list bytes) : Prop := {
  nm_ok : path_ok s;
  nm_some : s <> [];
  nm_stops : stops s;
  nm_path : q = start t s ++ plain (segments s) }.

Lemma absolute_leading p : is_path_absolute p = negb (Nat.eqb (leading p) 0).
Proof. destruct p as [|x p]; [done|]. unfold is_path_absolute. rewrite (proj2 (Z.ltb_lt _ _)) by (rewrite zlen_cons; pose proof (zlen_nonneg p); lia). cbn [andb]. change (char_of (x :: p) 0) with x. cbn [leading]. by destruct (is_separator x). Qed.

Lemma plain_path_parts s : plain (path_parts s) = plain (segments s).
Proof. unfold path_parts. rewrite plain_app. destruct (ends_sep s); [|apply app_nil_r]. cbn. apply app_nil_r. Qed.

Lemma parent_path_parts s : kParentDirectory ∉ segments s -> kParentDirectory ∉ path_parts s.
Proof. intros H. unfold path_parts. rewrite not_elem_of_app. split; [done|]. destruct (ends_sep s); [by rewrite list_elem_of_singleton|apply not_elem_of_nil]. Qed.

Lemma resolve_names t follow s q n :
  tree_ok t -> names t s q -> nodes t !! q = Some n -> is_dir n = true \/ (ends_sep s = false /\ (is_lnk n = false \/ follow = false)) ->
  resolve t follow s = inr q.
Proof.
  intros Ht [H1 H2 [H3 H4] H5] Hn Hd. unfold resolve. rewrite bool_decide_false by done.
  rewrite <- plain_path_parts in H5. subst q. apply (walk_reaches t _ _ _ _ n); [done|by apply parent_path_parts|done|].
  destruct Hd as [?|[He ?]]; [by left|]. right. split; [|done]. unfold path_parts. by rewrite He, app_nil_r.
Qed.

Lemma ends_sep_end a c : ends_sep (a ++ [c]) = is_separator c.
Proof. unfold ends_sep. by rewrite last_snoc. Qed.

Lemma ends_sep_segment a f : segment f -> ends_sep (a ++ f) = false.
Proof. intros Hf. destruct (segment_last f Hf) as (g & c & -> & Hc). rewrite app_assoc, ends_sep_end. by apply is_separator_not. Qed.

Lemma strip_segment a f : segment f -> strip (a ++ f) = a ++ f.
Proof. intros Hf. pose proof (strip_path a f 0 Hf) as H. by rewrite app_nil_r in H. Qed.

Lemma append_name t s q c :
  names t s q -> name_ok c -> zlen s + zlen c + 1 < 2 ^ 63 ->
  exists s', append c s = Ok s' /\ names t s' (q ++ [c]) /\ ends_sep s' = false /\ strip s' = s' /\ zlen s' <= zlen s + zlen c + 1
    /\ segments s' = segments s ++ [c].
Proof.
  intros [H1 H2 [H3 H4] ->] (C1 & C2 & C3 & C4) Hlen. pose proof (zlen_nonneg c).
  assert (Hs : s <> kCurrentDirectory) by (intros ->; by apply H4).
  assert (forall s', path_ok s' -> s' <> [] -> segments s' = segments s ++ [c] -> is_path_absolute s' = is_path_absolute s -> names t s' ((start t s ++ plain (segments s)) ++ [c])) as Hn.
  { intros s' K1 K0 K2 K3. constructor; [done|done|split|unfold start; rewrite K3, K2, plain_app, app_assoc, plain_cons, bool_decide_false by done; done].
    - rewrite K2, not_elem_of_app, list_elem_of_singleton. split; congruence.
    - rewrite K2, last_snoc. congruence. }
  destruct (strip_shape s) as [[-> _]|[(n & Hp & -> & _)|(h & d & j & Hd & -> & _)]]; [done|..].
  - rewrite append_root by done. eexists. split; [reflexivity|]. rewrite zlen_seps in Hlen |- *.
    assert (exists m, root_of n = seps m /\ (0 < m <= n)%nat) as (m & -> & Hr) by (eexists; split; [reflexivity|]; destruct n as [|[|[|n]]]; lia). rewrite zlen_app, zlen_seps.
    split_and!; [|by apply ends_sep_segment|by apply strip_segment|lia|by rewrite segments_lead, segments_seps, segments_one]. apply Hn.
    + apply path_ok_join; [apply seps_ok; lia|done|rewrite zlen_seps; lia].
    + intros [_ ?]%app_nil. by destruct C2.
    + by rewrite segments_lead, segments_seps, segments_one.
    + rewrite !absolute_leading, leading_seps. rewrite <- (app_nil_r (seps n)), leading_seps. by destruct m, n; try lia.
  - rewrite append_body by done. eexists. split; [reflexivity|]. pose proof (path_ok_app (h ++ [d]) (seps j)) as Hpa. rewrite <- app_assoc in Hpa. destruct (Hpa H1) as [Ha _].
    rewrite (app_assoc h) in *. rewrite (zlen_app _ (seps j)), zlen_seps in Hlen. rewrite (zlen_app _ (seps j)), (zlen_app (h ++ [d])), (zlen_app (seps 1)), !zlen_seps.
    split_and!; [|rewrite app_assoc; by apply ends_sep_segment|rewrite app_assoc; by apply strip_segment|lia|by rewrite (segments_join _ 0), (segments_one c), (segments_trail (h ++ [d]) j)]. apply Hn.
    + apply path_ok_join; [done|apply path_ok_join; [by apply seps_ok|done|rewrite zlen_seps; pose proof (zlen_nonneg (h ++ [d])); lia]|rewrite (zlen_app (seps 1)), zlen_seps; lia].
    + by destruct h.
    + by rewrite (segments_join _ 0), (segments_one c), (segments_trail (h ++ [d]) j).
    + by rewrite !absolute_leading, !(leading_app _ _ d Hd (last_in h d)).
Qed.

Lemma strip_names t s q : names t s q -> names t (strip_trailing_separators s) q /\ zlen (strip_trailing_separators s) <= zlen s.
Proof.
  intros [H1 H2 [H3 H4] ->]. unfold strip_trailing_separators. rewrite make_file_path_id by apply H1.
  assert (segments (strip s) = segments s /\ is_path_absolute (strip s) = is_path_absolute s /\ strip s <> []) as (E1 & E2 & E3).
  { destruct (strip_shape s) as [[-> _]|[(n & Hp & -> & ->)|(h & d & j & Hd & -> & ->)]]; [done|..].
    - pose proof (root_of_le n Hp) as Hr. unfold root_of in *. rewrite length_seps in Hr. rewrite !segments_seps, !absolute_leading. rewrite <- (app_nil_r (seps n)), leading_seps.
      set (m := match n with 2 => 2 | _ => 1 end%nat) in *. rewrite <- (app_nil_r (seps m)) at 1. rewrite leading_seps. split_and!; [done|by destruct n, m; try lia|by destruct m; try lia].
    - rewrite (app_assoc h), segments_trail, !absolute_leading, !(leading_app _ _ d Hd (last_in h d)). split_and!; [done|done|by destruct h]. }
  destruct (strip_ok s H1) as [K1 K2]. split; [|done]. constructor; [done|done|split; by rewrite E1|]. unfold start. by rewrite E1, E2.
Qed.

(** *** Reading a directory *)

Lemma elem_children t d c : c ∈ children t d <-> is_Some (nodes t !! (d ++ [c])).
Proof.
  unfold children. rewrite list_elem_of_omap. split.
  - intros ((p & n) & Hin & E). apply elem_of_map_to_list in Hin. destruct (last p) as [c'|]; [|done]. case_bool_decide as Hp; [|done]. injection E as ->. subst p. by exists n.
  - intros [n Hn]. exists (d ++ [c], n). split; [by apply elem_of_map_to_list|]. by rewrite last_snoc, bool_decide_true.
Qed.

Lemma children_nodup t d : NoDup (children t d).
Proof.
  unfold children. pose proof (NoDup_fst_map_to_list (nodes t)) as H. revert H. generalize (map_to_list (nodes t)). intros l H. induction l as [|[p n] l IH]; [constructor|].
  cbn in H. apply NoDup_cons in H as [Hp H]. specialize (IH H). cbn [omap list_omap]. destruct (last p) as [c|]; [|done]. case_bool_decide as E; [|done].
  apply NoDup_cons. split; [|done]. intros ((p' & n') & Hin & E')%list_elem_of_omap. destruct (last p') as [c'|]; [|done]. case_bool_decide as E2; [|done]. injection E' as ->.
  apply Hp, list_elem_of_fmap. exists (p', n'). split; [cbn; congruence|done].
Qed.

Lemma name_at t q c n : tree_ok t -> nodes t !! (q ++ [c]) = Some n -> name_ok c /\ zlen c < 2 ^ 62.
Proof.
  intros Ht Hn. apply (tk_names t Ht) in Hn as [Hf Hr]. apply Forall_app in Hf as [_ Hf]. apply Forall_cons in Hf as [Hf _]. rewrite room_app in Hr. cbn in Hr. pose proof (room_nonneg q). split; [done|lia].
Qed.

Definition show_all : Z := Z.lor (Z.lor FILES DIRECTORIES) SHOW_SYM_LINKS.

(** An enumerator of everything, without following links. *)
Definition full (entries : list FileInfo) (current : Z) (root : bytes) (pending : list bytes) : FileEnumerator :=
  mkEnum entries ∅ current root true show_all [] MATCH_ONLY pending.

Lemma basename_name c : name_ok c -> basename c = c /\ make_file_path c = c.
Proof.
  intros (H1 & H2 & _). split; [|by apply make_file_path_id; apply H1]. pose proof (basename_bare c 0) as H. rewrite app_nil_r in H. by apply H.
Qed.

Definition dots : list bytes := [kCurrentDirectory; kParentDirectory].

Lemma skip_dot entries cur root pending c : c ∈ dots -> should_skip (full entries cur root pending) (make_file_path c) = true.
Proof. intros [-> | ->%list_elem_of_singleton]%elem_of_cons; vm_compute; reflexivity. Qed.

Lemma keep_name entries cur root pending c : name_ok c -> should_skip (full entries cur root pending) (make_file_path c) = false.
Proof. intros Hc. destruct (basename_name c Hc) as [E1 E2]. unfold should_skip. rewrite E2, E1. destruct Hc as (_ & _ & H1 & H2). by rewrite !bool_decide_false. Qed.

Lemma attempt_smooth {A} (r : Z + A) script : Forall (eq None) script -> exists script', attempt r script = (r, script') /\ Forall (eq None) script'.
Proof. intros H. destruct H as [|x l <- H]; [by exists []|by exists l]. Qed.

Lemma attempt_cases {A} (r : Z + A) script : exists r' script', attempt r script = (r', script') /\ (r' = r \/ exists e, r' = inl e) /\ (Forall (eq None) script -> r' = r /\ Forall (eq None) script').
Proof.
  destruct script as [|[e|] l]; cbn; eexists _, _; (split; [reflexivity|]).
  - split; [by left|by intros].
  - split; [right; by eexists|]. intros H. by apply Forall_cons in H as [? _].
  - split; [by left|]. intros H. by apply Forall_cons in H as [_ ?].
Qed.

Definition stat_of (t : tree) (q : list bytes) : stat_t := match nodes t !! q with Some n => n_stat n | None => zero_stat end.
Definition info_ok (t : tree) (q : list bytes) (i : FileInfo) : Prop := stat_ i = stat_of t (q ++ [filename_ i]) \/ stat_ i = zero_stat.
Definition at_dir (t : tree) (q : list bytes) : Prop := exists n, nodes t !! q = Some n /\ is_dir n = true.

(** The directories among the entries, in the order in which they are pushed. *)
Definition pushed (q : list bytes) (infos : list FileInfo) : list (list bytes) :=
  rev ((fun i => q ++ [filename_ i]) <$> filter (fun i => is_directory i = true) infos).

(** A name that extends the path [o], with a bound on its length. *)
Definition named (o : bytes) (t : tree) (s : bytes) (q : list bytes) : Prop :=
  names t s q /\ zlen s <= zlen o + room q /\ exists r, components s = components o ++ r /\ q = (start t o ++ plain (segments o)) ++ r.

Lemma components_strip s : stops s -> components (strip s) = components s.
Proof.
  intros [_ Hs]. destruct (strip_shape s) as [[-> ->]|[(n & Hn & -> & ->)|(h & d & j & Hd & -> & ->)]]; [done|..].
  - rewrite components_seps by done. unfold root_of. destruct n as [|[|[|n]]]; [lia|by rewrite components_seps by lia..].
  - rewrite app_assoc in *. rewrite segments_trail in Hs. unfold components. rewrite (leading_app _ (seps j) d Hd (last_in h d)), segments_trail.
    destruct (leading (h ++ [d])); [|done]. destruct (segments (h ++ [d])) as [|x [|y l]]; [done| |].
    + rewrite !bool_decide_false; [done|intros [-> _]; by apply Hs..].
    + by rewrite (bool_decide_ext _ (x = kCurrentDirectory /\ (y :: l <> [] \/ (h ++ [d]) ++ seps j = kCurrentDirectory))) by naive_solver.
Qed.

Lemma append_named o t s q c n :
  tree_ok t -> zlen o < 2 ^ 62 -> named o t s q -> nodes t !! (q ++ [c]) = Some n ->
  name_ok c /\ exists s', append c s = Ok s' /\ named o t s' (q ++ [c]) /\ ends_sep s' = false /\ strip s' = s'.
Proof.
  intros Ht HL (Hs & Hl & r & Hr1 & Hr2) Hn. destruct (name_at t q c n Ht Hn) as [Hc _]. split; [done|]. pose proof (proj2 (tk_names t Ht _ _ Hn)) as Hr. rewrite room_app in Hr. cbn [room] in Hr.
  destruct (append_name t s q c Hs Hc ltac:(lia)) as (s' & E & Hn' & He & Hst & Hl' & _). exists s'. split_and!; [done| |done|done]. split; [done|]. split; [rewrite room_app; cbn [room]; lia|].
  exists (r ++ [c]). rewrite Hr2, !app_assoc, <- Hr1. split; [|done]. destruct (append_segment s c) as (s2 & E2 & _ & _ & _ & _ & _ & J); [apply (nm_ok _ _ _ Hs)|apply Hc|apply Hc|lia|].
  rewrite E in E2. injection E2 as <-. rewrite J by apply Hc. by rewrite components_strip by apply (nm_stops _ _ _ Hs).
Qed.

Lemma read_dir_ok fnmatch o t root q dents entries pending script :
  tree_ok t -> zlen o < 2 ^ 62 -> named o t root q -> Forall (fun c => c ∈ dots \/ is_Some (nodes t !! (q ++ [c]))) dents ->
  exists infos pend script',
    read_dir fnmatch dents (full entries 0 root pending) t script = Ok (full (entries ++ infos) 0 root (pend ++ pending), script')
    /\ filename_ <$> infos = filter (fun c => c ∉ dots) dents /\ Forall (info_ok t q) infos
    /\ Forall2 (named o t) pend (pushed q infos)
    /\ (Forall (eq None) script -> Forall (eq None) script' /\ Forall (fun i => stat_ i = stat_of t (q ++ [filename_ i])) infos).
Proof.
  intros Ht HL Hr. revert entries pending script. induction dents as [|c dents IH]; intros entries pending script Hd.
  { exists [], [], script. cbn [read_dir]. rewrite app_nil_r. by repeat split; try constructor. }
  apply Forall_cons in Hd as [Hc Hd]. cbn [read_dir]. destruct (decide (c ∈ dots)) as [Hdot|Hdot].
  { rewrite skip_dot by done. destruct (IH entries pending script Hd) as (infos & pend & s' & E & H). exists infos, pend, s'. split; [done|]. rewrite filter_cons_False by tauto. done. }
  destruct Hc as [?|[n Hn]]; [done|]. destruct (append_named o t root q c n Ht HL Hr Hn) as (Hname & s & Es & Hs & He & Hst).
  rewrite keep_name by done. destruct (basename_name c Hname) as [_ ->].
  change (is_pattern_matched _ (full entries 0 root pending) c) with true. cbn [negb andb folder_search_policy_ full root_path_ file_type_ recursive_]. rewrite andb_false_r, Es.
  cbn [mbind outcome_bind]. change (has_type show_all SHOW_SYM_LINKS) with true. cbv iota.
  unfold get_stat. assert (Estat : sys_stat (negb true) s t = inr (n_stat n)).
  { unfold sys_stat. rewrite (resolve_names t _ s (q ++ [c]) n) by (apply Hs || done || (right; split; [done|by right])). unfold node_at. by rewrite Hn. }
  rewrite Estat. destruct (attempt_cases (inr (n_stat n) : Z + stat_t) script) as (r & s1 & -> & Hres & Hsm).
  set (st := match r with inr st => st | inl _ => zero_stat end).
  assert (Hst2 : st = stat_of t (q ++ [c]) \/ st = zero_stat) by (unfold st, stat_of; rewrite Hn; destruct Hres as [-> | [e ->]]; [by left|by right]).
  assert (match r with inl _ => (zero_stat, s1) | inr st => (st, s1) end = (st, s1)) as -> by (by destruct r).
  set (info := mkInfo st c). change (mkInfo st c) with info.
  match goal with |- context [let '(_, _) := ?x in _] => assert (x = (is_directory info, ∅)) as -> by (cbn; by destruct (is_directory info)) end.
  assert (is_type_matched (full entries 0 root pending) (is_directory info) = true) as -> by (by destruct (is_directory info)).
  destruct (IH (entries ++ [info]) (if is_directory info then s :: pending else pending) s1 Hd) as (infos & pend & s' & E & I1 & I2 & I3 & I4).
  exists (info :: infos), (pend ++ if is_directory info then [s] else []), s'. split; [|split_and!].
  - etransitivity; [exact E|]. rewrite <- !app_assoc. by destruct (is_directory info).
  - rewrite filter_cons_True by done. cbn. by rewrite I1.
  - constructor; [exact Hst2|done].
  - unfold pushed. rewrite filter_cons. destruct (is_directory info) eqn:Ed; cbn [decide].
    + rewrite decide_True by done. cbn [fmap list_fmap rev filename_ info]. apply Forall2_app; [exact I3|]. constructor; [exact Hs|constructor].
    + rewrite decide_False by done. by rewrite app_nil_r.
  - intros H. destruct (Hsm H) as [E1 H1]. destruct (I4 H1) as [H2 H3]. split; [done|]. constructor; [|done]. cbn. unfold st, stat_of. by rewrite E1, Hn.
Qed.

(** *** The traversal *)

Lemma nodup_size {A} (m : gmap (list bytes) A) l : NoDup l -> (forall q, q ∈ l -> is_Some (m !! q)) -> (length l <= size m)%nat.
Proof.
  intros Hl Hin. rewrite <- (length_map_to_list m), <- (length_fmap fst). apply submseteq_length, NoDup_submseteq; [done|].
  intros q Hq. destruct (Hin q Hq) as [n Hn]. apply list_elem_of_fmap. exists (q, n). split; [done|by apply elem_of_map_to_list].
Qed.

(** [t] is [T] without some files, not directories, that are in [gone]. *)
Record shrunk (T t : tree) (gone : list (list bytes)) : Prop := {
  sh_ok : tree_ok t;
  sh_cwd : cwd t = cwd T;
  sh_sub : forall q n, nodes t !! q = Some n -> nodes T !! q = Some n;
  sh_dirs : forall q n, nodes T !! q = Some n -> is_dir n = true -> nodes t !! q = Some n;
  sh_kept : forall q n, nodes T !! q = Some n -> q ∉ gone -> nodes t !! q = Some n }.

(** The same below [q0] only: elsewhere [t] can be anything. *)
Record below (q0 : list bytes) (T t : tree) (gone : list (list bytes)) : Prop := {
  be_ok : tree_ok t;
  be_cwd : cwd t = cwd T;
  be_sub : forall q n, q0 `prefix_of` q -> nodes t !! q = Some n -> nodes T !! q = Some n;
  be_dirs : forall q n, q0 `prefix_of` q -> nodes T !! q = Some n -> is_dir n = true -> nodes t !! q = Some n;
  be_kept : forall q n, q0 `prefix_of` q -> nodes T !! q = Some n -> q ∉ gone -> nodes t !! q = Some n }.

Lemma shrunk_below q0 T t gone : shrunk T t gone -> below q0 T t gone.
Proof. intros [S1 S2 S3 S4 S5]. by constructor; eauto. Qed.

Lemma names_cwd t T s q : cwd t = cwd T -> names t s q -> names T s q.
Proof. intros E [H1 H2 H3 H4]. constructor; [done..|]. unfold start in *. by rewrite <- E. Qed.

Lemma named_cwd o t T s q : cwd t = cwd T -> named o t s q -> named o T s q.
Proof. intros E (H1 & H2 & r & H3 & H4). split_and!; [by eapply names_cwd|done|]. exists r. split; [done|]. unfold start in *. by rewrite <- E. Qed.

(** The state of a traversal of [q0]: the directories read, the files delivered and to be delivered, and the directories still to be read.  The last part
    holds when no call fails. *)
Record trace (c : bool) (T : tree) (q0 : list bytes) (P ret rem pq : list (list bytes)) : Prop := {
  tr_dirs : forall q, q ∈ P ++ pq -> at_dir T q /\ q0 `prefix_of` q;
  tr_root : q0 ∈ P ++ pq;
  tr_nodup : NoDup (P ++ pq);
  tr_parent : forall q, q ∈ P ++ pq -> q = q0 \/ exists d x, q = d ++ [x] /\ d ∈ P;
  tr_unique : NoDup (ret ++ rem);
  tr_ret : forall q, q ∈ ret ++ rem -> is_Some (nodes T !! q) /\ exists d x, q = d ++ [x] /\ d ∈ P;
  tr_pend : forall q, q ∈ pq -> q = q0 \/ q ∈ ret ++ rem;
  tr_done : forall d, d ∈ P -> d = q0 \/ d ∈ ret;
  tr_first : forall a q b, ret = a ++ q :: b -> exists d x, q = d ++ [x] /\ (d = q0 \/ d ∈ a);
  tr_full : c = true -> forall d x, d ∈ P -> is_Some (nodes T !! (d ++ [x])) -> (d ++ [x] ∈ ret ++ rem) /\ (at_dir T (d ++ [x]) -> d ++ [x] ∈ P ++ pq) }.

Ltac mem :=
  repeat match goal with
  | H : _ ∈ _ ++ _ |- _ => rewrite ?elem_of_app, ?elem_of_cons, ?elem_of_nil in H
  | H : _ ∈ _ :: _ |- _ => rewrite ?elem_of_cons, ?elem_of_nil in H
  end; rewrite ?elem_of_app, ?elem_of_cons, ?elem_of_nil; tauto.

Lemma trace_new c T q0 P ret q pq x : trace c T q0 P ret [] (q :: pq) -> (q ++ [x] ∉ P ++ q :: pq) /\ q ++ [x] ∉ ret.
Proof.
  intros H. pose proof (tr_nodup _ _ _ _ _ _ _ H) as Hn. apply NoDup_app in Hn as (_ & Hd & _).
  assert (Hq : q ∉ P) by (intros Hin; apply (Hd q Hin); left). split.
  - intros Hin. destruct (tr_parent _ _ _ _ _ _ _ H _ Hin) as [E|(d & y & E & Hp)].
    + destruct (tr_dirs _ _ _ _ _ _ _ H q ltac:(apply elem_of_app; right; left)) as [_ [k Hk]]. rewrite <- E, <- app_assoc in Hk. apply (f_equal length) in Hk. rewrite !length_app in Hk. cbn in Hk. lia.
    + by apply app_inj_tail in E as [-> _].
  - intros Hin. destruct (tr_ret _ _ _ _ _ _ _ H (q ++ [x])) as [_ (d & y & E & Hp)]; [by rewrite app_nil_r|]. by apply app_inj_tail in E as [-> _].
Qed.

(** A directory that cannot be opened. *)
Lemma trace_skip T q0 P ret q pq : trace false T q0 P ret [] (q :: pq) -> trace false T q0 (P ++ [q]) ret [] pq.
Proof.
  intros H. pose proof H as [H1 H0 H2 H3 H4 H5 H6 H7 H8 _]. assert (E : (P ++ [q]) ++ pq = P ++ q :: pq) by (by rewrite <- app_assoc). constructor; rewrite ?E; [done|done|done|..|done|done].
  - intros q' Hq'. destruct (H3 q' Hq') as [?|(d & x & ? & ?)]; [by left|]. right. exists d, x. split; [done|]. apply elem_of_app. by left.
  - done.
  - intros q' Hq'. destruct (H5 q' Hq') as [? (d & x & ? & ?)]. split; [done|]. exists d, x. split; [done|]. apply elem_of_app. by left.
  - intros q' Hq'. apply H6. by right.
  - intros d [Hd| ->%list_elem_of_singleton]%elem_of_app; [by apply H7|]. rewrite app_nil_r in H6. apply H6. left.
Qed.

(** A directory is read. *)
Lemma trace_read c T q0 P ret q pq cs new :
  trace c T q0 P ret [] (q :: pq) -> NoDup cs -> (forall x, x ∈ cs <-> is_Some (nodes T !! (q ++ [x]))) ->
  NoDup new -> (forall q', q' ∈ new -> at_dir T q' /\ q' ∈ (fun x => q ++ [x]) <$> cs) ->
  (c = true -> forall x, at_dir T (q ++ [x]) -> q ++ [x] ∈ new) ->
  trace c T q0 (P ++ [q]) ret ((fun x => q ++ [x]) <$> cs) (new ++ pq).
Proof.
  intros H Hcs Hch Hnew Hdir Hall. pose proof (fun x => trace_new c T q0 P ret q pq x H) as Hfresh. pose proof H as [H1 H0 H2 H3 H4 H5 H6 H7 H8 H9]. rewrite app_nil_r in *.
  assert (Hel : forall q', q' ∈ (P ++ [q]) ++ new ++ pq <-> q' ∈ P ++ q :: pq \/ q' ∈ new) by (intros; mem).
  assert (Hnq : forall q', q' ∈ new -> exists x, q' = q ++ [x]) by (intros q' (_ & (x & -> & _)%list_elem_of_fmap)%Hdir; by exists x).
  assert (Hq : at_dir T q /\ q0 `prefix_of` q) by (apply H1, elem_of_app; right; left).
  constructor.
  - intros q' [?|Hin]%Hel; [by apply H1|]. split; [by apply Hdir|]. destruct (Hnq q' Hin) as [x ->]. apply prefix_app_r, Hq.
  - apply Hel. by left.
  - apply NoDup_app in H2 as (HP & HPq & [Hqq Hpq]%NoDup_cons). apply NoDup_app. split_and!; [|intros q' Hq'|].
    + apply NoDup_app. split_and!; [done|intros q' ? ->%list_elem_of_singleton|apply NoDup_singleton]. by apply (HPq q); [|left].
    + intros [Hin|Hin]%elem_of_app; [destruct (Hnq q' Hin) as [x ->]; apply (proj1 (Hfresh x)); mem|]. apply elem_of_app in Hq' as [Hp| ->%list_elem_of_singleton]; [by apply (HPq q'); [|right]|done].
    + apply NoDup_app. split_and!; [done|intros q' Hin Hp|done]. destruct (Hnq q' Hin) as [x ->]. apply (proj1 (Hfresh x)); mem.
  - intros q' [Hin|Hin]%Hel.
    + destruct (H3 q' Hin) as [?|(d & x & ? & ?)]; [by left|]. right. exists d, x. split; [done|mem].
    + right. destruct (Hnq q' Hin) as [x ->]. exists q, x. split; [done|mem].
  - apply NoDup_app. split_and!; [done|intros q' Hr (x & -> & _)%list_elem_of_fmap; by apply (proj2 (Hfresh x))|]. apply NoDup_fmap; [|done]. intros x y E. by apply app_inj_tail in E as [_ ?].
  - intros q' [Hin|(x & -> & Hx)%list_elem_of_fmap]%elem_of_app.
    + destruct (H5 q' Hin) as [? (d & x & ? & ?)]. split; [done|]. exists d, x. split; [done|mem].
    + split; [by apply Hch|]. exists q, x. split; [done|mem].
  - intros q' [Hin|Hin]%elem_of_app; [right; apply elem_of_app; right; by apply Hdir|]. destruct (H6 q' ltac:(by right)) as [?|?]; [by left|right]. apply elem_of_app. by left.
  - intros d [Hd| ->%list_elem_of_singleton]%elem_of_app; [by apply H7|]. apply H6. left.
  - done.
  - intros Hc d x [Hd| ->%list_elem_of_singleton]%elem_of_app Hx.
    + destruct (H9 Hc d x Hd Hx) as [? ?]. split; [mem|]. intros ?. apply Hel. auto.
    + split; [apply elem_of_app; right; apply list_elem_of_fmap; exists x; split; [done|by apply Hch]|]. intros ?. apply Hel. right. by apply Hall.
Qed.

(** A file is delivered. *)
Lemma trace_deliver c T q0 P ret q rem pq : trace c T q0 P ret (q :: rem) pq -> trace c T q0 P (ret ++ [q]) rem pq.
Proof.
  intros [H1 H0 H2 H3 H4 H5 H6 H7 H8 H9]. assert (E : (ret ++ [q]) ++ rem = ret ++ q :: rem) by (by rewrite <- app_assoc).
  constructor; rewrite ?E; [done..| | |done].
  - intros d Hd. destruct (H7 d Hd) as [?|?]; [by left|right]. apply elem_of_app. by left.
  - intros a q' b Eab. destruct b as [|y b _] using rev_ind.
    + apply app_inj_tail in Eab as [<- <-]. destruct (H5 q) as [_ (d & x & E' & Hd)]; [apply elem_of_app; right; left|]. exists d, x. split; [done|]. by apply H7.
    + rewrite app_comm_cons, app_assoc in Eab. apply app_inj_tail in Eab as [Er _]. by apply (H8 a q' b).
Qed.

Definition bump (e : FileEnumerator) : FileEnumerator :=
  mkEnum (directory_entries_ e) (visited_directories_ e) (u64 (current_directory_entry_ e + 1)) (root_path_ e) (recursive_ e) (file_type_ e) (pattern_ e) (folder_search_policy_ e) (pending_paths_ e).

(** What is known of the information that is delivered with [q]. *)
Definition info_at (c : bool) (T : tree) (q : list bytes) (info : FileInfo) : Prop :=
  (is_directory info = true -> at_dir T q) /\ (c = true -> stat_ info = stat_of T q).

(** The enumerator in a state of the traversal, about to deliver [rem]. *)
Record view (c : bool) (T : tree) (q0 : list bytes) (o : bytes) (P ret rem pq : list (list bytes)) (e : FileEnumerator) (t : tree) (script : list (option Z)) : Prop := {
  vw_trace : trace c T q0 P ret rem pq;
  vw_below : below q0 T t ret;
  vw_script : c = true -> Forall (eq None) script;
  vw_enum : exists entries cur root pending rq,
    e = full entries cur root pending /\ Forall2 (named o T) pending pq /\ 0 <= cur <= 2 ^ 62 /\ zlen entries < 2 ^ 62
    /\ (rem <> [] -> named o T root rq) /\ rem = (fun i => rq ++ [filename_ i]) <$> drop (Z.to_nat cur) entries
    /\ Forall (fun i => info_at c T (rq ++ [filename_ i]) i) (drop (Z.to_nat cur) entries) }.

Lemma stat_of_dir t q : S_ISDIR (st_mode (stat_of t q)) = true -> at_dir t q.
Proof. unfold stat_of, at_dir. destruct (nodes t !! q) as [n|]; [|done]. intros H. by exists n. Qed.

Lemma info_ok_at c t q i : info_ok t q i -> (c = true -> stat_ i = stat_of t (q ++ [filename_ i])) -> info_at c t (q ++ [filename_ i]) i.
Proof. intros H1 H2. split; [|done]. unfold is_directory. destruct H1 as [-> | ->]; [apply stat_of_dir|done]. Qed.

Lemma pushed_spec q infos :
  NoDup (filename_ <$> infos) -> NoDup (pushed q infos) /\ forall q', q' ∈ pushed q infos <-> exists i, i ∈ infos /\ is_directory i = true /\ q' = q ++ [filename_ i].
Proof.
  intros Hn. unfold pushed. rewrite <- Permutation_rev. split.
  - induction infos as [|i infos IH]; [constructor|]. cbn in Hn. apply NoDup_cons in Hn as [Hi Hn]. rewrite filter_cons. destruct (decide (is_directory i = true)); [|by apply IH].
    cbn. apply NoDup_cons. split; [|by apply IH]. intros (j & E & [_ Hj]%list_elem_of_filter)%list_elem_of_fmap. apply app_inj_tail in E as [_ E]. apply Hi. rewrite E. by apply list_elem_of_fmap_2.
  - intros q'. rewrite <- Permutation_rev, list_elem_of_fmap. split.
    + intros (i & -> & [Hd Hi]%list_elem_of_filter). by exists i.
    + intros (i & Hi & Hd & ->). exists i. split; [done|]. by apply list_elem_of_filter.
Qed.

Lemma dots_out t q c : tree_ok t -> is_Some (nodes t !! (q ++ [c])) -> c ∉ dots.
Proof. intros Ht [n Hn]. destruct (name_at t q c n Ht Hn) as [(_ & _ & H1 & H2) _]. unfold dots. rewrite elem_of_cons, list_elem_of_singleton. tauto. Qed.

Lemma filter_all {A} (P : A -> Prop) `{!forall x, Decision (P x)} (l : list A) : (forall x, x ∈ l -> P x) -> filter P l = l.
Proof. induction l as [|x l IH]; intros Hl; [done|]. rewrite filter_cons_True by (apply Hl; left). f_equal. apply IH. intros y Hy. apply Hl. by right. Qed.

(** The names that are read, without "." and "..". *)
Lemma entries_read (order : tree -> list bytes -> list bytes -> list bytes) t q :
  (forall d l, order t d l ≡ₚ l) -> tree_ok t -> let cs := filter (fun c => c ∉ dots) (order t q (dots ++ children t q)) in
  NoDup cs /\ (forall x, x ∈ cs <-> is_Some (nodes t !! (q ++ [x]))) /\ Forall (fun c => c ∈ dots \/ is_Some (nodes t !! (q ++ [c]))) (order t q (dots ++ children t q)).
Proof.
  intros Ho Ht cs. assert (Hcs : cs ≡ₚ children t q).
  { unfold cs. rewrite Ho, filter_app. rewrite (filter_all _ (children t q)); [done|]. intros c Hc. apply (dots_out t q); [done|]. by apply elem_children. }
  split_and!.
  - rewrite Hcs. apply children_nodup.
  - intros x. rewrite Hcs. apply elem_children.
  - apply Forall_forall. intros c. rewrite Ho, elem_of_app, elem_children. tauto.
Qed.

Lemma delivered_new c T q0 P ret q rem pq : trace c T q0 P (ret ++ [q]) rem pq ->
  (length ret < size (nodes T))%nat /\ (q ∉ ret) /\ is_Some (nodes T !! q) /\ q <> q0 /\ q0 `prefix_of` q /\ exists d x, q = d ++ [x] /\ (d = q0 \/ d ∈ ret).
Proof.
  intros H. pose proof (tr_unique _ _ _ _ _ _ _ H) as Hn. destruct (tr_ret _ _ _ _ _ _ _ H q ltac:(mem)) as [Hq (d & x & E & Hd)].
  destruct (tr_dirs _ _ _ _ _ _ _ H d ltac:(mem)) as [_ [k Hk]].
  split_and!; [|..|eexists; rewrite E, Hk, <- app_assoc; reflexivity|by apply (tr_first _ _ _ _ _ _ _ H ret q [])].
  - enough (length (ret ++ [q]) <= size (nodes T))%nat by (rewrite length_app in *; cbn in *; lia). apply NoDup_app in Hn as (Hn & _). apply nodup_size; [done|].
    intros q' Hq'. apply (tr_ret _ _ _ _ _ _ _ H). mem.
  - apply NoDup_app in Hn as (Hn & _). apply NoDup_app in Hn as (_ & Hn & _). intros Hin. apply (Hn q Hin). left.
  - done.
  - intros ->. rewrite Hk, <- app_assoc in E. apply (f_equal length) in E. rewrite !length_app in E. cbn in E. lia.
Qed.

Section traversal.
Context (order : tree -> list bytes -> list bytes -> list bytes) (fnmatch : bytes -> bytes -> bool).
Hypothesis order_perm : forall t d l, order t d l ≡ₚ l.
Context (c : bool) (T : tree) (q0 : list bytes) (o : bytes).
Hypothesis T_ok : tree_ok T.
Hypothesis o_small : zlen o < 2 ^ 62.

Lemma opendir_ok t s q ret : below q0 T t ret -> q0 `prefix_of` q -> at_dir T q -> names T s q -> sys_opendir order s t = inr (order t q (dots ++ children t q)).
Proof.
  intros Hs Hq (n & Hn & Hd) Hnm. pose proof (be_dirs _ _ _ _ Hs q n Hq Hn Hd) as Hn'. unfold sys_opendir.
  rewrite (resolve_names t true s q n); [|apply (be_ok _ _ _ _ Hs)|eapply names_cwd; [symmetry; apply (be_cwd _ _ _ _ Hs)|done]|done|by left].
  unfold node_at. by rewrite Hn', Hd.
Qed.

(** Reading the directory on top of the stack. *)
Lemma read_step P ret q pq pending root t script :
  trace c T q0 P ret [] (q :: pq) -> below q0 T t ret -> Forall2 (named o T) pending pq -> named o T root q -> (c = true -> Forall (eq None) script) ->
  exists e' rem new script',
    read_dir fnmatch (order t q (dots ++ children t q)) (full [] 0 root pending) t script = Ok (e', script')
    /\ view c T q0 o (P ++ [q]) ret rem (new ++ pq) e' t script'.
Proof.
  intros Htr Hsh Hpd Hrt Hsc. pose proof (be_ok _ _ _ _ Hsh) as Ht. destruct (entries_read order t q (order_perm t) Ht) as (Hnd & Hcs & Hall). cbv zeta in *.
  destruct (read_dir_ok fnmatch o t root q _ [] pending script Ht o_small (named_cwd _ _ _ _ _ (eq_sym (be_cwd _ _ _ _ Hsh)) Hrt) Hall) as (infos & pend & s' & E & I1 & I2 & I3 & I4).
  rewrite <- I1 in Hnd, Hcs. destruct (pushed_spec q infos Hnd) as [Hp1 Hp2].
  assert (Hpre : forall x, q0 `prefix_of` q ++ [x]) by (intros x; apply prefix_app_r, (tr_dirs _ _ _ _ _ _ _ Htr q); apply elem_of_app; right; left).
  assert (Hsame : forall x, is_Some (nodes t !! (q ++ [x])) <-> is_Some (nodes T !! (q ++ [x]))).
  { intros x. split; intros [n Hn]; exists n; [by apply (be_sub _ _ _ _ Hsh)|]. apply (be_kept _ _ _ _ Hsh); [done|done|]. by eapply trace_new. }
  assert (Hstat : forall i, i ∈ infos -> stat_of t (q ++ [filename_ i]) = stat_of T (q ++ [filename_ i])).
  { intros i Hi. unfold stat_of. destruct (proj1 (Hcs (filename_ i)) ltac:(by apply list_elem_of_fmap_2)) as [n Hn]. by rewrite Hn, (be_sub _ _ _ _ Hsh _ _ (Hpre _) Hn). }
  assert (Hinfo : Forall (fun i => info_at c T (q ++ [filename_ i]) i) infos).
  { apply Forall_forall. intros i Hi. rewrite Forall_forall in I2. specialize (I2 i Hi). apply info_ok_at; [unfold info_ok in *; by rewrite <- Hstat|].
    intros Hc. destruct (I4 (Hsc Hc)) as [_ H]. rewrite Forall_forall in H. rewrite <- Hstat by done. by apply H. }
  exists (full infos 0 root (pend ++ pending)), ((fun x => q ++ [x]) <$> (filename_ <$> infos)), (pushed q infos), s'. split; [exact E|]. constructor.
  - apply trace_read; [done|done| |done| |].
    + intros x. by rewrite Hcs, Hsame.
    + intros q' (i & Hi & Hd & ->)%Hp2. split; [|apply list_elem_of_fmap; exists (filename_ i); split; [done|by apply list_elem_of_fmap_2]]. rewrite Forall_forall in Hinfo. by apply (Hinfo i Hi).
    + intros Hc x (n & Hn & Hd). apply Hp2. assert (Hx : is_Some (nodes T !! (q ++ [x]))) by (by exists n). apply Hsame, Hcs, list_elem_of_fmap in Hx as (i & -> & Hi). exists i. split_and!; [done| |done].
      rewrite Forall_forall in Hinfo. destruct (Hinfo i Hi) as [_ E2]. unfold is_directory. rewrite (E2 Hc). unfold stat_of. by rewrite Hn.
  - done.
  - intros Hc. by apply I4, Hsc.
  - exists infos, 0, root, (pend ++ pending), q. split_and!; [done| |lia|lia| |done| |done].
    + apply Forall2_app; [|done]. eapply Forall2_impl; [exact I3|]. intros s q'. apply named_cwd, (be_cwd _ _ _ _ Hsh).
    + unfold zlen. enough (length infos <= size (nodes T))%nat by (pose proof (tk_size T T_ok); lia). rewrite <- (length_fmap filename_), <- (length_fmap (fun x => q ++ [x])).
      apply nodup_size; [apply NoDup_fmap; [|done]; intros x y E2; by apply app_inj_tail in E2 as [_ ?]|]. intros q' (x & -> & Hx)%list_elem_of_fmap. by apply Hsame, Hcs.
    + by rewrite drop_0, <- list_fmap_compose.
Qed.

(** The loop of [next] delivers the next file, or ends when there is none. *)
Lemma next_loop_ok fuel P ret rem pq e t script :
  view c T q0 o P ret rem pq e t script -> (size (nodes t) - length P < fuel)%nat ->
  exists s e' script' P', next_loop order fnmatch fuel e t script = Ok (s, e', script')
    /\ ((s = [] /\ view c T q0 o P' ret [] [] e' t script')
        \/ exists q rem' pq' info, s <> [] /\ named o T s q /\ ends_sep s = false /\ get_info e' = Ok info /\ info_at c T q info
              /\ view c T q0 o P' (ret ++ [q]) rem' pq' (bump e') t script').
Proof.
  revert P rem pq e script. induction fuel as [|fuel IH]; intros P rem pq e script Hv Hf; [lia|].
  pose proof Hv as [Htr Hsh Hsc (entries & cur & root & pending & rq & -> & Hpd & Hcur & Hen & Hrt & Hrem & Hinf)]. cbn [next_loop full directory_entries_ current_directory_entry_ pending_paths_].
  destruct (Z.leb_spec (zlen entries) cur) as [Hge|Hlt].
  - rewrite drop_ge in Hrem by (unfold zlen in Hge; lia). cbn in Hrem. subst rem. destruct Hpd as [|top q pending pq Htop Hpd].
    { exists [], (full entries cur root []), script, P. split; [done|]. left. split; [done|]. exact Hv. }
    destruct (tr_dirs _ _ _ _ _ _ _ Htr q ltac:(apply elem_of_app; right; left)) as [Hq Hq0].
    destruct (strip_names T top q (proj1 Htop)) as [Hst Hstl]. rewrite (opendir_ok t _ q ret Hsh Hq0 Hq Hst).
    assert (HP : (length P < size (nodes t))%nat).
    { enough (length (P ++ q :: pq) <= size (nodes t))%nat by (rewrite length_app in *; cbn in *; lia). apply nodup_size; [apply (tr_nodup _ _ _ _ _ _ _ Htr)|].
      intros q' Hq'. destruct (tr_dirs _ _ _ _ _ _ _ Htr q' Hq') as [(n & Hn & Hd) Hpr]. exists n. by apply (be_dirs _ _ _ _ Hsh). }
    assert (Hfuel : (size (nodes t) - length (P ++ [q]) < fuel)%nat) by (rewrite length_app; cbn; lia).
    assert (Hroot : named o T (strip_trailing_separators top) q) by (destruct Htop as (N1 & N2 & r & N3 & N4); split_and!; [done|lia|]; exists r; split; [|done]; unfold strip_trailing_separators; rewrite make_file_path_id by apply (nm_ok _ _ _ N1); by rewrite components_strip by apply (nm_stops _ _ _ N1)).
    match goal with |- context [attempt ?r script] => destruct (attempt_cases r script) as (r' & s1 & -> & Hr & Hsm) end.
    destruct Hr as [-> | [er ->]].
    + destruct (read_step P ret q pq pending _ t s1 Htr Hsh Hpd Hroot) as (e' & rem' & new & s2 & E & Hv'); [intros Hc; by apply Hsm, Hsc|].
      unfold full in E. cbn [full visited_directories_ recursive_ file_type_ pattern_ folder_search_policy_]. rewrite E. cbn [mbind outcome_bind].
      pose proof Hv' as [_ _ _ (en' & cur' & root' & pd' & rq' & -> & _)]. apply (IH _ _ _ _ _ Hv' Hfuel).
    + assert (c = false) as Hc by (destruct c; [destruct (Hsm (Hsc eq_refl)) as [? _]; done|done]).
      apply (IH (P ++ [q]) [] pq (full entries cur (strip_trailing_separators top) pending)); [|done]. constructor; [rewrite Hc in *; by apply trace_skip|done|by rewrite Hc|].
      exists entries, cur, (strip_trailing_separators top), pending, rq. split_and!; [done|done|lia|lia|done|done|by rewrite drop_ge by (unfold zlen in Hge; lia)|done].
  - destruct (drop (Z.to_nat cur) entries) as [|info rest] eqn:Ed; [apply (f_equal length) in Ed; rewrite length_drop in Ed; cbn in Ed; unfold zlen in Hlt; lia|].
    assert (Hlk : entries !! Z.to_nat cur = Some info) by (rewrite <- (Nat.add_0_r (Z.to_nat cur)), <- lookup_drop, Ed; done). rewrite Hlk. cbn [fmap list_fmap] in Hrem. subst rem.
    set (q := rq ++ [filename_ info]) in *. destruct (tr_ret _ _ _ _ _ _ _ Htr q ltac:(apply elem_of_app; right; left)) as [[n Hn] _].
    destruct (append_named o T root rq (filename_ info) n T_ok o_small (Hrt ltac:(done)) Hn) as (_ & s & Es & Hs & He & _). cbn [full root_path_]. rewrite Es. cbn [mbind outcome_bind].
    apply Forall_cons in Hinf as [Hi Hinf]. exists s, (full entries cur root pending), script, P. split; [done|]. right.
    exists q, ((fun i => rq ++ [filename_ i]) <$> rest), pq, info. split_and!; [apply (nm_some _ _ _ (proj1 Hs))|done|done|by unfold get_info; cbn; rewrite Hlk|done|].
    constructor; [by apply trace_deliver| |done|].
    + destruct Hsh as [S1 S2 S3 S4 S5]. constructor; [done..|]. intros q' n' Hpr Hn' Hout. apply S5; [done|done|]. intros Hin. apply Hout. mem.
    + exists entries, (cur + 1), root, pending, rq. split_and!; [unfold bump, full; cbn; by rewrite u64_small by lia|done|lia|lia|done|intros; by apply Hrt| |].
      * replace (Z.to_nat (cur + 1)) with (1 + Z.to_nat cur)%nat by lia. by rewrite Nat.add_comm, <- drop_drop, Ed.
      * replace (Z.to_nat (cur + 1)) with (1 + Z.to_nat cur)%nat by lia. by rewrite Nat.add_comm, <- drop_drop, Ed.
Qed.

Lemma next_ok P ret rem pq e t script :
  view c T q0 o P ret rem pq (bump e) t script ->
  exists s e' script' P', next order fnmatch (enough t) e t script = Ok (s, e', script')
    /\ ((s = [] /\ view c T q0 o P' ret [] [] e' t script')
        \/ exists q rem' pq' info, s <> [] /\ named o T s q /\ ends_sep s = false /\ get_info e' = Ok info /\ info_at c T q info
              /\ view c T q0 o P' (ret ++ [q]) rem' pq' (bump e') t script').
Proof. intros H. apply (next_loop_ok _ _ _ _ _ _ _ _ H). unfold enough. lia. Qed.

(** The loop of a client that only collects what is delivered. *)
Fixpoint enumerate (fuel : nat) (e : FileEnumerator) (t : tree) (script : list (option Z)) : outcome (list bytes) :=
  match fuel with
  | O => Fault OutOfFuel
  | S fuel =>
      '(path, e, script) ← next order fnmatch (enough t) e t script;
      if bool_decide (path = []) then Ok [] else l ← enumerate fuel e t script; Ok (path :: l)
  end.

Lemma enumerate_ok fuel P ret rem pq e script :
  view c T q0 o P ret rem pq (bump e) T script -> (size (nodes T) - length ret < fuel)%nat ->
  exists l qs P', enumerate fuel e T script = Ok l /\ Forall2 (named o T) l qs /\ trace c T q0 P' (ret ++ qs) [] [].
Proof.
  revert P ret rem pq e script. induction fuel as [|fuel IH]; intros P ret rem pq e script Hv Hf; [lia|]. cbn [enumerate].
  destruct (next_ok P ret rem pq e T script Hv) as (s & e' & s' & P' & -> & H). cbn [mbind outcome_bind]. destruct H as [[-> Hv']|(q & rem' & pq' & info & Hs & Hn & _ & _ & _ & Hv')].
  - exists [], [], P'. rewrite app_nil_r. split_and!; [done|constructor|apply (vw_trace _ _ _ _ _ _ _ _ _ _ _ Hv')].
  - rewrite bool_decide_false by done. destruct (delivered_new _ _ _ _ _ _ _ _ (vw_trace _ _ _ _ _ _ _ _ _ _ _ Hv')) as [Hlt _].
    destruct (IH _ _ _ _ _ _ Hv') as (l & qs & P2 & E & H1 & H2); [rewrite length_app; cbn; lia|]. rewrite E. cbn [mbind outcome_bind].
    exists (s :: l), (q :: qs), P2. split_and!; [done|by constructor|]. by rewrite <- app_assoc in H2.
Qed.

End traversal.

(** At the end everything has been delivered. *)
Lemma trace_complete T q0 P ret r : tree_ok T -> trace true T q0 P ret [] [] -> r <> [] -> is_Some (nodes T !! (q0 ++ r)) -> q0 ++ r ∈ ret.
Proof.
  intros HT H Hr Hq. enough ((q0 ++ r ∈ ret) /\ (at_dir T (q0 ++ r) -> q0 ++ r ∈ P)) by tauto. induction r as [|x r IH] using rev_ind; [done|].
  rewrite app_assoc in Hq |- *. pose proof Hq as [n Hn]. destruct (tk_up T HT _ _ _ Hn) as (m & Hm & Hd).
  assert (HP : q0 ++ r ∈ P).
  { destruct (decide (r = [])) as [->|Hne]; [rewrite app_nil_r; pose proof (tr_root _ _ _ _ _ _ _ H) as Hr0; by rewrite app_nil_r in Hr0|]. apply IH; [done|by exists m|by exists m]. }
  pose proof (tr_full _ _ _ _ _ _ _ H eq_refl (q0 ++ r) x HP Hq) as H1. by rewrite !app_nil_r in H1.
Qed.

Lemma view_start c T q0 o s script :
  tree_ok T -> at_dir T q0 -> named o T s q0 -> (c = true -> Forall (eq None) script) -> view c T q0 o [] [] [] [q0] (bump (full [] 0 s [s])) T script.
Proof.
  intros HT Hd Hn Hs. constructor; [| |done|].
  - constructor; cbn [app].
    + intros q ->%list_elem_of_singleton. by split.
    + by apply list_elem_of_singleton.
    + apply NoDup_singleton.
    + intros q ->%list_elem_of_singleton. by left.
    + constructor.
    + by intros q ?%elem_of_nil.
    + intros q ->%list_elem_of_singleton. by left.
    + by intros q ?%elem_of_nil.
    + by intros [|] ? ?.
    + by intros ? ? ? ?%elem_of_nil.
  - by constructor.
  - exists [], 1, s, [s], q0. split_and!; [done|constructor; [exact Hn|constructor]|lia|lia|done|done|done|constructor].
Qed.

(** *** Deleting *)

Lemma size_delete_le (m : gmap (list bytes) node) q : (size (delete q m) <= size m)%nat.
Proof. destruct (m !! q) as [n|] eqn:E; [rewrite map_size_delete, E; lia|by rewrite delete_id]. Qed.

Lemma tree_ok_delete t q : tree_ok t -> (forall x, nodes t !! (q ++ [x]) = None) -> tree_ok (set_nodes (delete q (nodes t)) t).
Proof.
  intros [H1 H2 H3] Hc. constructor; cbn [set_nodes nodes].
  - intros p x n [Hne Hn]%lookup_delete_Some. destruct (H1 p x n Hn) as (m & Hm & Hd). exists m. split; [|done]. apply lookup_delete_Some. split; [|done].
    intros ->. by rewrite Hc in Hn.
  - intros p n [_ Hn]%lookup_delete_Some. by apply (H2 p n).
  - pose proof (size_delete_le (nodes t) q). lia.
Qed.

Lemma leaf_file t q n : tree_ok t -> nodes t !! q = Some n -> is_dir n = false -> forall x, nodes t !! (q ++ [x]) = None.
Proof. intros Ht Hn Hd x. destruct (nodes t !! (q ++ [x])) as [m|] eqn:E; [|done]. apply (tk_up t Ht) in E as (n' & ? & ?). congruence. Qed.

Lemma leaf_dir t q : children t q = [] <-> forall x, nodes t !! (q ++ [x]) = None.
Proof.
  split.
  - intros H x. destruct (nodes t !! (q ++ [x])) as [n|] eqn:E; [|done]. assert (x ∈ children t q) as Hx by (apply elem_children; by exists n). rewrite H in Hx. by apply elem_of_nil in Hx.
  - intros H. destruct (children t q) as [|x l] eqn:E; [done|]. destruct (proj1 (elem_children t q x)) as [n Hn]; [rewrite E; left|]. by rewrite H in Hn.
Qed.

Lemma unlink_entry_ok t s q n :
  tree_ok t -> names t s q -> ends_sep s = false -> nodes t !! q = Some n ->
  sys_unlink s t = if is_dir n then inl EISDIR else inr (set_nodes (delete q (nodes t)) t).
Proof. intros Ht Hs He Hn. unfold sys_unlink. rewrite (resolve_names t false s q n); [|done..|right; split; [done|by right]]. unfold node_at. by rewrite Hn. Qed.

Lemma rmdir_ok t s q n :
  tree_ok t -> names t s q -> nodes t !! q = Some n -> is_dir n = true ->
  sys_rmdir s t = if bool_decide (q = []) then inl EBUSY else if bool_decide (children t q = []) then inr (set_nodes (delete q (nodes t)) t) else inl ENOTEMPTY.
Proof.
  intros Ht [H1 H2 [H3 H4] H5] Hn Hd. unfold sys_rmdir. rewrite !bool_decide_false by done. rewrite (walk_reaches t _ _ _ _ n), <- H5; [|done|done|by rewrite <- H5|by left].
  unfold node_at. rewrite Hn, Hd. cbn [negb]. by destruct (bool_decide (q = [])), (bool_decide (children t q = [])).
Qed.

(** The stack of directories of [delete_file], the last one found first. *)
Record stacked (c : bool) (T : tree) (q0 : list bytes) (ret dq : list (list bytes)) (t : tree) (success : bool) : Prop := {
  sk_nodup : NoDup dq;
  sk_dirs : forall q, q ∈ dq -> at_dir T q /\ q0 `prefix_of` q /\ (q = q0 \/ q ∈ ret);
  sk_last : last dq = Some q0;
  sk_success : c = true -> success = true;
  sk_order : c = true -> forall a q b, dq = a ++ q :: b -> q = q0 \/ exists d x, q = d ++ [x] /\ d ∈ b;
  sk_found : c = true -> forall q, q ∈ ret -> (at_dir T q -> q ∈ dq) /\ (~ at_dir T q -> nodes t !! q = None) }.

Section deletion.
Context (order : tree -> list bytes -> list bytes -> list bytes) (fnmatch : bytes -> bytes -> bool).
Hypothesis order_perm : forall t d l, order t d l ≡ₚ l.
Context (c : bool) (T : tree) (q0 : list bytes) (o : bytes).
Hypothesis T_ok : tree_ok T.
Hypothesis o_small : zlen o < 2 ^ 62.

Lemma shrunk_more t ret q : shrunk T t ret -> shrunk T t (ret ++ [q]).
Proof. intros [S1 S2 S3 S4 S5]. constructor; [done..|]. intros q' n' Hn' Hout. apply S5; [done|]. intros Hin. apply Hout. mem. Qed.

Lemma shrunk_delete t ret q n :
  shrunk T t ret -> nodes t !! q = Some n -> is_dir n = false -> shrunk T (set_nodes (delete q (nodes t)) t) (ret ++ [q]).
Proof.
  intros [S1 S2 S3 S4 S5] Hn Hd. constructor; cbn [set_nodes nodes cwd].
  - apply tree_ok_delete; [done|by eapply leaf_file].
  - done.
  - intros q' n' [_ Hn']%lookup_delete_Some. by apply S3.
  - intros q' n' Hn' Hd'. apply lookup_delete_Some. split; [|by apply S4]. intros ->. rewrite (S4 _ _ Hn' Hd') in Hn. congruence.
  - intros q' n' Hn' Hout. rewrite elem_of_app, list_elem_of_singleton in Hout. apply lookup_delete_Some. split; [by intros ->; tauto|apply S5; tauto].
Qed.

Lemma view_tree P ret rem pq e t t' script script' :
  view c T q0 o P ret rem pq e t script -> below q0 T t' ret -> (c = true -> Forall (eq None) script') -> view c T q0 o P ret rem pq e t' script'.
Proof. intros [H1 _ _ H4] H2 H3. by constructor. Qed.

(** A directory goes onto the stack. *)
Lemma stacked_push P ret rem pq q dq t success :
  trace c T q0 P (ret ++ [q]) rem pq -> at_dir T q -> stacked c T q0 ret dq t success -> stacked c T q0 (ret ++ [q]) (q :: dq) t success.
Proof.
  intros Htr Hq [H1 H2 H3 H4 H5 H6]. destruct (delivered_new c T q0 P ret q rem pq Htr) as (_ & Hnew & _ & Hne & Hpre & d & x & E & Hd). constructor.
  - apply NoDup_cons. split; [|done]. intros Hin. destruct (H2 q Hin) as (_ & _ & [?|?]); tauto.
  - intros q' [-> | Hin]%elem_of_cons; [split_and!; [done..|right; mem]|]. destruct (H2 q' Hin) as (? & ? & [?|?]); split_and!; try done; [by left|right; mem].
  - destruct dq as [|y dq]; [done|]. by rewrite last_cons_cons.
  - done.
  - intros Hc [|y a] q' b Eq; cbn in Eq; injection Eq as -> ->; [|by apply (H5 Hc a)]. right. exists d, x. split; [done|]. destruct Hd as [-> | Hd].
    + apply last_Some in H3 as [l ->]. mem.
    + destruct Hq as (n & Hn & _). rewrite E in Hn. by apply (H6 Hc d Hd), (tk_up T T_ok _ _ _ Hn).
  - intros Hc q' [Hin| ->%list_elem_of_singleton]%elem_of_app; [|split; [intros _; left|done]]. destruct (H6 Hc q' Hin) as [G1 G2]. split; [intros ?; right; auto|done].
Qed.

(** A file has been removed, or could not be. *)
Lemma stacked_unlink P ret rem pq q dq t t' success success' :
  trace c T q0 P (ret ++ [q]) rem pq -> stacked c T q0 ret dq t success -> (forall q', nodes t !! q' = None -> nodes t' !! q' = None) ->
  (c = true -> success' = success /\ ~ at_dir T q /\ nodes t' !! q = None) -> stacked c T q0 (ret ++ [q]) dq t' success'.
Proof.
  intros Htr [H1 H2 H3 H4 H5 H6] Ht Hs. constructor; [done| |done| |done|].
  - intros q' Hin. destruct (H2 q' Hin) as (? & ? & [?|?]); split_and!; try done; [by left|right; mem].
  - intros Hc. destruct (Hs Hc) as [-> _]. auto.
  - intros Hc q' [Hin| ->%list_elem_of_singleton]%elem_of_app; [destruct (H6 Hc q' Hin) as [G1 G2]; split; auto|]. destruct (Hs Hc) as (_ & ? & ?). split; [done|by intros].
Qed.

Lemma delete_loop_ok fuel P ret rem pq e t script dirs dq success :
  view c T q0 o P ret rem pq (bump e) t script -> shrunk T t ret -> Forall2 (named o T) dirs dq -> stacked c T q0 ret dq t success -> (size (nodes T) - length ret < fuel)%nat ->
  exists dirs' dq' success' t' script' P' ret', delete_loop order fnmatch fuel e dirs success t script = Ok (dirs', success', t', script')
    /\ trace c T q0 P' ret' [] [] /\ shrunk T t' ret' /\ Forall2 (named o T) dirs' dq' /\ stacked c T q0 ret' dq' t' success' /\ (c = true -> Forall (eq None) script').
Proof.
  revert P ret rem pq e t script dirs dq success. induction fuel as [|fuel IH]; intros P ret rem pq e t script dirs dq success Hv Hsh Hdq Hsk Hf; [lia|]. cbn [delete_loop].
  destruct (next_ok order fnmatch order_perm c T q0 o T_ok o_small P ret rem pq e t script Hv) as (s & e' & s' & P' & -> & H). cbn [mbind outcome_bind].
  destruct H as [[-> Hv']|(q & rem' & pq' & info & Hs & Hn & He & -> & [Hi1 Hi2] & Hv')].
  { exists dirs, dq, success, t, s', P', ret. destruct Hv' as [V1 V2 V3 _]. split_and!; done. }
  rewrite bool_decide_false by done. cbn [mbind outcome_bind]. pose proof (vw_trace _ _ _ _ _ _ _ _ _ _ _ Hv') as Htr.
  destruct (delivered_new c T q0 P' ret q rem' pq' Htr) as (Hlt & Hnew & [n Hq] & _).
  assert (Hf' : (size (nodes T) - length (ret ++ [q]) < fuel)%nat) by (rewrite length_app; cbn; lia).
  destruct (is_directory info) eqn:Ed.
  { apply (IH _ _ _ _ _ _ _ (s :: dirs) (q :: dq)) with (1 := Hv'); [by apply shrunk_more|by constructor|by eapply stacked_push; [|apply Hi1|]|done]. }
  pose proof (sh_kept _ _ _ Hsh q n Hq Hnew) as Hqt. rewrite (unlink_entry_ok t s q n); [|apply (sh_ok _ _ _ Hsh)|eapply names_cwd; [symmetry; apply (sh_cwd _ _ _ Hsh)|apply Hn]|done|done].
  match goal with |- context [attempt ?r s'] => destruct (attempt_cases r s') as (r' & s2 & -> & Hr & Hsm) end. pose proof (vw_script _ _ _ _ _ _ _ _ _ _ _ Hv') as Hsc.
  assert (Hnd : c = true -> is_dir n = false).
  { intros Hc. unfold is_directory in Ed. rewrite (Hi2 Hc) in Ed. unfold stat_of in Ed. by rewrite Hq in Ed. }
  assert (Hcase : (exists er, r' = inl er /\ c = false) \/ (is_dir n = false /\ r' = inr (set_nodes (delete q (nodes t)) t))).
  { destruct c.
    - right. destruct (Hsm (Hsc eq_refl)) as [-> _]. by rewrite (Hnd eq_refl).
    - destruct Hr as [-> | [er ->]]; [|left; by exists er]. destruct (is_dir n); [left; by eexists|by right]. }
  destruct Hcase as [(er & -> & Hc)|[Hd ->]].
  - apply (IH _ _ _ _ _ t s2 dirs dq false) with (1 := view_tree _ _ _ _ _ _ _ _ s2 Hv' (shrunk_below _ _ _ _ (shrunk_more _ _ _ Hsh)) ltac:(by rewrite Hc)); [by apply shrunk_more|done| |done].
    eapply stacked_unlink; [exact Htr|exact Hsk|done|by rewrite Hc].
  - eapply (IH _ _ _ _ _ _ s2 dirs dq success) with (1 := view_tree _ _ _ _ _ _ _ _ s2 Hv' (shrunk_below _ _ _ _ (shrunk_delete _ _ _ _ Hsh Hqt Hd)) ltac:(intros Hc; by apply Hsm, Hsc)); [by eapply shrunk_delete|done| |done].
    eapply stacked_unlink; [exact Htr|exact Hsk| |].
    + intros q' Hq'. cbn. rewrite lookup_delete_None. by right.
    + intros _. split_and!; [done|intros (n' & ? & ?); congruence|]. cbn. apply lookup_delete_eq.
Qed.

End deletion.

(** What the second loop does: it only removes directories of the stack, and all of them if it reports success. *)
Lemma rmdir_loop_ok o T dirs dq success t script :
  tree_ok t -> cwd t = cwd T -> Forall2 (named o T) dirs dq -> NoDup dq -> (forall q, q ∈ dq -> at_dir t q) ->
  exists success' t' script', rmdir_loop dirs success t script = (success', t', script') /\ tree_ok t'
    /\ (forall q n, nodes t' !! q = Some n -> nodes t !! q = Some n) /\ (forall q, q ∉ dq -> nodes t' !! q = nodes t !! q)
    /\ (success' = true -> success = true /\ forall q, q ∈ dq -> nodes t' !! q = None).
Proof.
  intros Ht Hcwd Hdq. revert success t script Ht Hcwd. induction Hdq as [|s q dirs dq [Hs _] Hdq IH]; intros success t script Ht Hcwd Hnd Hdir; cbn [rmdir_loop].
  { exists success, t, script. split_and!; try done. intros H. split; [done|]. by intros q ?%elem_of_nil. }
  apply NoDup_cons in Hnd as [Hq Hnd]. destruct (Hdir q ltac:(left)) as (n & Hn & Hd).
  rewrite (make_file_path_id s) by (apply (nm_ok _ _ _ Hs)). rewrite (rmdir_ok t s q n Ht (names_cwd T t s q (eq_sym Hcwd) Hs) Hn Hd).
  match goal with |- context [attempt ?r script] => destruct (attempt_cases r script) as (r' & s2 & -> & Hr & _) end.
  assert (Hcase : (exists er, r' = inl er) \/ (children t q = [] /\ r' = inr (set_nodes (delete q (nodes t)) t))).
  { destruct Hr as [-> | [er ->]]; [|left; by exists er]. destruct (bool_decide (q = [])); [left; by eexists|]. case_bool_decide; [by right|left; by eexists]. }
  destruct Hcase as [(er & ->)|[Hch ->]].
  - destruct (IH false t s2 Ht Hcwd Hnd ltac:(intros; apply Hdir; by right)) as (ok & t' & s' & E & H1 & H2 & H3 & H4). exists ok, t', s'. split_and!; [done|done|done| |].
    + intros q' Hq'. apply H3. intros Hin. apply Hq'. by right.
    + intros Hok. by destruct (H4 Hok) as [? _].
  - destruct (IH success (set_nodes (delete q (nodes t)) t) s2) as (ok & t' & s' & E & H1 & H2 & H3 & H4); [|done|done|..].
    + apply tree_ok_delete; [done|by apply leaf_dir].
    + intros q' Hq'. destruct (Hdir q' ltac:(by right)) as (n' & ? & ?). exists n'. split; [|done]. cbn. apply lookup_delete_Some. split; [by intros ->|done].
    + exists ok, t', s'. split_and!; [done|done|intros q' n' Hn'; apply H2 in Hn'; cbn in Hn'; by apply lookup_delete_Some in Hn' as [_ ?]| |].
      * intros q' Hq'. apply not_elem_of_cons in Hq' as [Hne Hq']. rewrite H3 by done. cbn. by rewrite lookup_delete_ne.
      * intros Hok. destruct (H4 Hok) as [? H5]. split; [done|]. intros q' [-> | Hin]%elem_of_cons; [|by apply H5]. destruct (nodes t' !! q) as [n'|] eqn:E'; [|done]. apply H2 in E'. cbn in E'. by rewrite lookup_delete_eq in E'.
Qed.

(** When the stack holds all that is left, parents below their children, every directory is empty when its turn comes. *)
Lemma rmdir_loop_succeeds o T q0 dirs dq t script :
  tree_ok t -> cwd t = cwd T -> Forall2 (named o T) dirs dq -> NoDup dq -> (forall q, q ∈ dq -> at_dir t q /\ q0 `prefix_of` q) -> q0 <> [] -> Forall (eq None) script ->
  (forall a q b, dq = a ++ q :: b -> q = q0 \/ exists d x, q = d ++ [x] /\ d ∈ b) -> (forall q x, q ∈ dq -> is_Some (nodes t !! (q ++ [x])) -> q ++ [x] ∈ dq) ->
  exists t' script', rmdir_loop dirs true t script = (true, t', script').
Proof.
  intros Ht Hcwd Hdq Hnd Hdir Hq0 Hs. revert t script Ht Hcwd Hs Hnd Hdir. induction Hdq as [|s q dirs dq [Hnm _] Hdq IH]; intros t script Ht Hcwd Hs Hnd Hdir Hord Hall; cbn [rmdir_loop]; [by eexists _, _|].
  apply NoDup_cons in Hnd as [Hq Hnd]. destruct (Hdir q ltac:(left)) as [(n & Hn & Hd) [k Hk]].
  rewrite (make_file_path_id s) by (apply (nm_ok _ _ _ Hnm)). rewrite (rmdir_ok t s q n Ht (names_cwd T t s q (eq_sym Hcwd) Hnm) Hn Hd).
  rewrite bool_decide_false by (intros ->; by symmetry in Hk; apply app_nil in Hk as [? _]).
  assert (Hch : forall x, nodes t !! (q ++ [x]) = None).
  { intros x. destruct (nodes t !! (q ++ [x])) as [m|] eqn:E; [|done]. pose proof (Hall q x ltac:(left) ltac:(by exists m)) as [Eq|Hin]%elem_of_cons.
    - apply (f_equal length) in Eq. rewrite length_app in Eq. cbn in Eq. lia.
    - apply list_elem_of_split in Hin as (a & b & Eab). destruct (Hord (q :: a) (q ++ [x]) b) as [E0|(d & y & E0 & Hb)]; [by rewrite Eab|..].
      + rewrite <- E0, <- app_assoc in Hk. apply (f_equal length) in Hk. rewrite !length_app in Hk. cbn in Hk. lia.
      + apply app_inj_tail in E0 as [-> _]. destruct Hq. rewrite Eab. mem. }
  rewrite bool_decide_true by (by apply leaf_dir).
  match goal with |- context [attempt ?r script] => destruct (attempt_smooth r script Hs) as (s2 & -> & Hs2) end.
  apply IH; [by apply tree_ok_delete|done|done|done|..].
  - intros q' Hq'. destruct (Hdir q' ltac:(by right)) as [(n' & ? & ?) ?]. split; [|done]. exists n'. split; [|done]. cbn. apply lookup_delete_Some. split; [by intros ->|done].
  - intros a q' b E. by apply (Hord (q :: a)); rewrite E.
  - intros q' x Hq' [m Hm]. cbn in Hm. apply lookup_delete_Some in Hm as [Hne Hm]. pose proof (Hall q' x ltac:(by right) ltac:(by exists m)) as [Eq|?]%elem_of_cons; [by rewrite Eq in Hne|done].
Qed.

(** The calls of the kernel report only files that are missing as missing. *)
Definition honest (script : list (option Z)) : Prop := Forall (fun f => f <> Some ENOENT /\ f <> Some ENOTDIR) script.

Lemma lstat_ok t s q n :
  tree_ok t -> names t s q -> nodes t !! q = Some n -> is_dir n = true \/ ends_sep s = false -> sys_stat false s t = inr (n_stat n).
Proof.
  intros Ht Hs Hn Hd. unfold sys_stat. rewrite (resolve_names t false s q n); [unfold node_at; by rewrite Hn|done..|]. destruct Hd as [?|?]; [by left|]. right. split; [done|by right].
Qed.

Lemma named_start T s q : names T s q -> named s T s q.
Proof. intros H. split; [done|]. pose proof (room_nonneg q). split; [lia|]. exists []. rewrite !app_nil_r. split; [done|apply (nm_path _ _ _ H)]. Qed.

(** Everything of a directory tree is deleted. *)
Lemma delete_tree_ok order fnmatch (c : bool) T s q script :
  (forall t d l, order t d l ≡ₚ l) -> tree_ok T -> names T s q -> zlen s < 2 ^ 62 -> at_dir T q -> (c = true -> Forall (eq None) script) ->
  exists ok t' script',
    ('(traversal, script) ← make_enumerator s true show_all [] MATCH_ONLY T script;
     '(directories, success, t, script) ← delete_loop order fnmatch (enough T) traversal [s] true T script;
     Ok (rmdir_loop directories success t script)) = Ok (ok, t', script')
    /\ tree_ok t' /\ (forall p n, nodes t' !! p = Some n -> nodes T !! p = Some n) /\ (forall p, ~ q `prefix_of` p -> nodes t' !! p = nodes T !! p)
    /\ (ok = true -> nodes t' !! q = None) /\ (c = true -> q <> [] -> ok = true).
Proof.
  intros Ho HT Hs Hl Hd Hsc. set (e := full [] 0 s [s]). assert (Em : make_enumerator s true show_all [] MATCH_ONLY T script = Ok (e, script)) by reflexivity.
  rewrite Em. clear Em. cbn [mbind outcome_bind]. pose proof (named_start T s q Hs) as Hnm.
  destruct (delete_loop_ok order fnmatch Ho c T q s HT Hl (enough T) [] [] [] [q] e T script [s] [q] true) as (dirs & dq & ok & t1 & s1 & P & ret & -> & Htr & Hsh & Hdq & Hsk & Hs1).
  { by apply view_start. } { by constructor. } { by constructor. }
  { constructor; [apply NoDup_singleton|intros q' ->%list_elem_of_singleton; split_and!; [done|done|by left]|done|done| |by intros _ q' ?%elem_of_nil].
    intros _ [|y a] q' b E; cbn in E; injection E as -> E; [by left|by destruct a]. } { unfold enough. cbn. lia. }
  cbn [mbind outcome_bind]. pose proof Hsk as [K1 K2 K3 K4 K5 K6]. pose proof Hsh as [S1 S2 S3 S4 S5].
  assert (Hdir : forall q', q' ∈ dq -> at_dir t1 q') by (intros q' (H & _)%K2; destruct H as (n & ? & ?); exists n; split; [by apply S4|done]).
  assert (Hbelow : forall p, p ∈ ret -> q `prefix_of` p).
  { intros p Hp. destruct (tr_ret _ _ _ _ _ _ _ Htr p ltac:(mem)) as (_ & d & x & -> & HdP). apply prefix_app_r. apply (tr_dirs _ _ _ _ _ _ _ Htr d). mem. }
  destruct (rmdir_loop_ok s T dirs dq ok t1 s1 S1 S2 Hdq K1 Hdir) as (ok' & t2 & s2 & E2 & R1 & R2 & R3 & R4). rewrite E2. exists ok', t2, s2. split; [done|]. split_and!.
  - done.
  - intros p n Hp. by apply S3, R2.
  - intros p Hp. rewrite R3 by (intros (_ & H & _)%K2; done). destruct (nodes T !! p) as [n|] eqn:En.
    + apply S5; [done|]. intros Hin. by apply Hp, Hbelow.
    + destruct (nodes t1 !! p) as [n|] eqn:E1; [|done]. apply S3 in E1. congruence.
  - intros H. destruct (R4 H) as [_ R5]. apply R5. apply last_Some in K3 as [l ->]. mem.
  - intros Hc Hq. assert (Hall : forall q' x, q' ∈ dq -> is_Some (nodes t1 !! (q' ++ [x])) -> q' ++ [x] ∈ dq).
    { intros q' x Hq' [n Hn]. destruct (K2 q' Hq') as (_ & [k ->] & _). rewrite <- app_assoc in *. rewrite Hc in Htr.
      pose proof (trace_complete T q P ret (k ++ [x]) HT Htr ltac:(by destruct k) ltac:(exists n; by apply S3)) as Hin. destruct (K6 Hc _ Hin) as [H1 H2].
      destruct (decide (is_dir n = true)) as [Hdn|Hdn]; [apply H1; exists n; split; [by apply S3|done]|].
      rewrite H2 in Hn; [done|]. intros (n' & Hn' & ?). apply S3 in Hn. congruence. }
    rewrite (K4 Hc) in E2. destruct (rmdir_loop_succeeds s T q dirs dq t1 s1 S1 S2 Hdq K1) as (t3 & s3 & E3); [intros q' Hq'; split; [by apply Hdir|by apply K2]|done|by apply Hs1|by apply K5|done|].
    congruence.
Qed.

(** *** Creating *)

(** The directories on the way from [base], one name at a time. *)
Fixpoint chain (base fs : list bytes) : list (list bytes) :=
  match fs with [] => [] | f :: fs => (base ++ [f]) :: chain (base ++ [f]) fs end.

Lemma chain_end base l f : chain base (l ++ [f]) = chain base l ++ [base ++ l ++ [f]].
Proof. revert base. induction l as [|x l IH]; intros base; cbn; [done|]. rewrite IH. by rewrite <- app_assoc. Qed.

(** Where a relative or an absolute path starts. *)
Definition base_of (absolute : bool) (r : bytes) : Prop := if absolute then exists n, (0 < n)%nat /\ r = seps n else r = kCurrentDirectory.

Lemma names_of T s : path_ok s -> s <> [] -> Forall name_ok (segments s) -> names T s (start T s ++ segments s).
Proof.
  intros H1 H2 H3. constructor; [done|done| |by rewrite plain_names]. split.
  - intros Hin. rewrite Forall_forall in H3. by destruct (H3 _ Hin) as (_ & _ & _ & H).
  - intros Hl. apply last_Some in Hl as [l E]. rewrite E in H3. apply Forall_app in H3 as [_ H3]. apply Forall_cons in H3 as [(_ & _ & H & _) _]. done.
Qed.

(** [s] spells the names [l] from [st]. *)
Definition spells (T : tree) (st : list bytes) (s : bytes) (l : list bytes) : Prop := path_ok s /\ s <> [] /\ start T s = st /\ segments s = l.

Lemma parents_stop fuel p acc : (0 < fuel)%nat -> parents_loop fuel p p acc = Ok acc.
Proof. intros H. destruct fuel; [lia|]. cbn [parents_loop]. by rewrite bool_decide_true. Qed.

Lemma parents_turn fuel p last acc : p <> last -> parents_loop (S fuel) p last acc = parents_loop fuel (dirname p) p (acc ++ [p]).
Proof. intros H. cbn [parents_loop]. by rewrite bool_decide_false. Qed.

(** One directory above, after which there is nothing. *)
Lemma parents_one fuel s d acc : (1 < fuel)%nat -> dirname s = d -> d = dirname d -> d <> s -> parents_loop fuel (dirname s) s acc = Ok (acc ++ [d]).
Proof.
  intros Hf E1 E2 Hne. destruct fuel as [|fuel]; [lia|]. rewrite E1, parents_turn by exact Hne. rewrite <- E2 at 1. apply parents_stop. lia.
Qed.

Lemma segments_last s f l : segments s = l ++ [f] -> Forall name_ok (segments s) -> Forall name_ok l /\ name_ok f.
Proof. intros -> H. apply Forall_app in H as [H1 H2]. by apply Forall_cons in H2 as [H2 _]. Qed.

Lemma parents_ok T fuel s acc :
  path_ok s -> s <> [] -> Forall name_ok (segments s) -> (length s < fuel)%nat ->
  exists l bs ss, parents_loop fuel (dirname s) s acc = Ok (acc ++ l) /\ rev (s :: l) = bs ++ ss
    /\ Forall (base_of (is_path_absolute s)) bs /\ Forall2 (spells T (start T s)) ss (chain [] (segments s)).
Proof.
  revert s acc. induction fuel as [|fuel IH]; intros s acc Hok Hne Hseg Hf; [lia|]. assert (Hpos : (0 < length s)%nat) by (destruct s; [congruence|cbn; lia]). assert (Hsp : spells T (start T s) s (segments s)) by done.
  destruct (path_shape s) as [n E|f j Hfs E|n f j Hn Hfs E|h c i f j Hc Hfs E].
  - assert (Hn : (0 < n)%nat) by (destruct n; [by rewrite E in Hne|lia]). assert (Ha : is_path_absolute s = true) by (rewrite E, absolute_leading, <- (app_nil_r (seps n)), leading_seps; by destruct n).
    assert (Es : segments s = []) by (rewrite E; apply segments_seps). rewrite Es, Ha. pose proof (dirname_seps n Hn ltac:(by rewrite <- E)) as Ed. rewrite <- E in Ed.
    assert (exists m, (0 < m <= 2)%nat /\ root_of n = seps m) as (m & Hm & Er) by (destruct n as [|[|[|n]]]; [lia|exists 1%nat|exists 2%nat|exists 1%nat]; split; (lia || reflexivity)).
    destruct (root_stop m Hm) as [Hs _]. rewrite Er in Ed. assert (Hb : forall k, (0 < k)%nat -> base_of true (seps k)) by (intros k Hk; by exists k).
    destruct (decide (seps m = s)) as [Em|Em].
    + exists [], [s], []. rewrite Ed, Em. rewrite parents_stop, app_nil_r by lia. split_and!; [done|done| |constructor]. constructor; [rewrite E; by apply Hb|constructor].
    + exists [seps m], [seps m; s], []. rewrite (parents_one _ s (seps m)); [|pose proof (length_seps n); rewrite <- E in *; lia|exact Ed|exact Hs|exact Em].
      split_and!; [done|done| |constructor]. constructor; [apply Hb; lia|]. constructor; [rewrite E; by apply Hb|constructor].
  - assert (Es : segments s = [f]) by (rewrite E, segments_trail; by apply segments_one). destruct (segments_last s f [] Es Hseg) as [_ (_ & _ & Hdot & _)].
    assert (Ha : is_path_absolute s = false) by (rewrite E, absolute_leading, leading_segment by done; done).
    pose proof (dirname_bare f j ltac:(by rewrite <- E) Hfs) as Ed. rewrite <- E in Ed. destruct dot_stop as [Hs _].
    exists [kCurrentDirectory], [kCurrentDirectory], [s]. rewrite (parents_one _ s kCurrentDirectory); [|lia|exact Ed|exact Hs|].
    + rewrite Es, Ha in *. cbn [chain]. split_and!; [done|done|by repeat constructor|]. constructor; [done|constructor].
    + intros Eq. rewrite <- Eq in Es. vm_compute in Es. injection Es as <-. by apply Hdot.
  - assert (Es : segments s = [f]) by (rewrite E, segments_lead, segments_trail; by apply segments_one).
    assert (Ha : is_path_absolute s = true) by (rewrite E, absolute_leading, leading_seps; by destruct n; [lia|]).
    pose proof (dirname_root n f j Hn ltac:(by rewrite <- E) Hfs) as Ed. rewrite <- E in Ed. destruct (root_before_stop n Hn) as [Hs _].
    exists [root_before n], [root_before n], [s]. rewrite (parents_one _ s (root_before n)); [|lia|exact Ed|exact Hs|].
    + rewrite Es, Ha in *. cbn [chain]. split_and!; [done|done| |]; [|constructor; [done|constructor]]. constructor; [|constructor]. cbn. unfold root_before. eexists. split; [|reflexivity]. destruct n as [|[|[|[|n]]]]; lia.
    + intros Eq. rewrite <- Eq in Es. unfold root_before in Es. by rewrite segments_seps in Es.
  - pose proof (dirname_sub h c i f j Hc ltac:(by rewrite <- E) Hfs) as Ed. rewrite <- E in Ed. set (d := h ++ [c]) in *. assert (Es : segments s = segments d ++ [f]) by (rewrite E, segments_join, segments_trail; by rewrite (segments_one f)).
    destruct (segments_last s f (segments d) Es Hseg) as [Hd _].
    assert (Ha : is_path_absolute s = is_path_absolute d) by (by rewrite E, !absolute_leading, (leading_app _ _ c Hc (last_in h c))).
    assert (Hlen : (length d < length s)%nat) by (rewrite E, length_app, length_app, length_seps; lia).
    rewrite Ed, parents_turn by (intros Eq; rewrite Eq in Hlen; lia).
    destruct (IH d (acc ++ [d])) as (l & bs & ss & -> & E1 & E2 & E3); [rewrite E in Hok; by apply path_ok_app in Hok as [? _]|by unfold d; destruct h|done|lia|].
    exists (d :: l), bs, (ss ++ [s]). split_and!; [by rewrite <- app_assoc|cbn [rev] in *; rewrite E1, <- app_assoc; done|by rewrite Ha|].
    assert (Est : start T s = start T d) by (unfold start; by rewrite Ha). rewrite Es, chain_end, Est. apply Forall2_app; [done|]. rewrite Es, Est in Hsp. constructor; [done|constructor].
Qed.

(** [t] is [T] with new directories on the way to [q]; [k] more can come. *)
Record grown (T t : tree) (q : list bytes) (k : nat) : Prop := {
  gr_ok : tree_ok t;
  gr_cwd : cwd t = cwd T;
  gr_kept : forall p n, nodes T !! p = Some n -> nodes t !! p = Some n;
  gr_new : forall p, nodes T !! p = None -> is_Some (nodes t !! p) -> p `prefix_of` q /\ at_dir t p;
  gr_size : Z.of_nat (size (nodes t) + k) < 2 ^ 62 }.

Lemma new_directory_dir t : is_dir (new_directory 448 t) = true.
Proof.
  unfold is_dir, new_directory, S_ISDIR. cbn [n_stat st_mode]. rewrite Z.land_lor_distr_l, <- Z.land_assoc, (Z.land_comm (Z.lnot _)), Z.land_assoc. reflexivity.
Qed.

(** A path that ends at a missing file. *)
Lemma walk_missing t links follow cur l f rest :
  tree_ok t -> Forall name_ok (l ++ [f]) -> at_dir t (cur ++ l) -> nodes t !! (cur ++ l ++ [f]) = None -> walk links t follow cur (l ++ f :: rest) = inl ENOENT.
Proof.
  intros Ht. revert cur. induction l as [|x l IH]; intros cur Hnm Hd Hn; cbn [app] in *; apply Forall_cons in Hnm as [(_ & _ & H1 & H2) Hnm].
  - rewrite app_nil_r in Hd. destruct Hd as (m & Hm & Hd). destruct links; cbn [walk]; rewrite Hm, Hd; cbn [negb]; rewrite !bool_decide_false by done; by rewrite Hn.
  - assert (Hcur : at_dir t cur) by (destruct Hd as (m & Hm & _); eapply tree_above; [done|exact Hm|done]). replace (cur ++ x :: l) with ((cur ++ [x]) ++ l) in Hd by (by rewrite <- app_assoc).
    assert (Hx : at_dir t (cur ++ [x])).
    { destruct (decide (l = [])) as [->|Hl]; [by rewrite app_nil_r in Hd|]. destruct Hd as (m & Hm & _). by eapply tree_above. }
    destruct Hcur as (m & Hm & Hmd). destruct Hx as (m' & Hm' & Hmd'). specialize (IH (cur ++ [x]) Hnm Hd). rewrite <- app_assoc in IH. specialize (IH Hn).
    destruct links; cbn [walk]; rewrite Hm, Hmd; cbn [negb]; rewrite !bool_decide_false by done; rewrite Hm', (dir_not_link m' Hmd'); exact IH.
Qed.

Lemma stat_there t s n :
  tree_ok t -> path_ok s -> s <> [] -> Forall name_ok (segments s) -> nodes t !! (start t s ++ segments s) = Some n -> is_dir n = true -> sys_stat true s t = inr (n_stat n).
Proof.
  intros Ht H1 H2 H3 Hn Hd. unfold sys_stat. rewrite (resolve_names t true s _ n Ht (names_of t s H1 H2 H3) Hn); [|by left]. unfold node_at. by rewrite Hn.
Qed.

Lemma mkdir_there t s l f n :
  tree_ok t -> s <> [] -> segments s = l ++ [f] -> Forall name_ok (segments s) -> nodes t !! (start t s ++ l ++ [f]) = Some n -> sys_mkdir s 448 t = inl EEXIST.
Proof.
  intros Ht Hs Es Hnm Hn. rewrite Es in Hnm. unfold sys_mkdir. rewrite bool_decide_false by done. rewrite Es, last_snoc, removelast_last.
  rewrite app_assoc in Hn. destruct (tk_up t Ht _ _ _ Hn) as (m & Hm & Hmd). apply Forall_app in Hnm as [Hl Hf].
  rewrite (walk_reaches t _ _ _ _ m); [|done| |by rewrite plain_names|by left].
  - rewrite plain_names by done. unfold node_at. rewrite Hm, Hmd. cbn [negb]. rewrite Hn. by destruct (bool_decide _).
  - intros Hin. rewrite Forall_forall in Hl. by destruct (Hl _ Hin) as (_ & _ & _ & ?).
Qed.

Lemma stat_missing t s l f :
  tree_ok t -> s <> [] -> segments s = l ++ [f] -> Forall name_ok (segments s) -> at_dir t (start t s ++ l) -> nodes t !! (start t s ++ l ++ [f]) = None ->
  sys_stat true s t = inl ENOENT /\ sys_mkdir s 448 t = inr (set_nodes (<[start t s ++ l ++ [f] := new_directory 448 t]> (nodes t)) t).
Proof.
  intros Ht Hs Es Hnm Hd Hn. rewrite Es in Hnm. split.
  - unfold sys_stat, resolve. rewrite bool_decide_false by done. unfold path_parts. rewrite Es, <- app_assoc. cbn [app]. by rewrite walk_missing.
  - unfold sys_mkdir. rewrite bool_decide_false by done. rewrite Es, last_snoc, removelast_last. pose proof Hd as (m & Hm & Hmd).
    apply Forall_app in Hnm as [Hl Hf]. apply Forall_cons in Hf as [(_ & _ & H1 & H2) _]. rewrite (walk_reaches t _ _ _ _ m); [|done| |by rewrite plain_names|by left].
    + rewrite plain_names by done. unfold node_at. rewrite Hm, Hmd, bool_decide_false by tauto. by rewrite <- app_assoc, Hn.
    + intros Hin. rewrite Forall_forall in Hl. by destruct (Hl _ Hin) as (_ & _ & _ & ?).
Qed.

Lemma grown_insert T t q k p f :
  grown T t q (S k) -> at_dir t p -> nodes t !! (p ++ [f]) = None -> p ++ [f] `prefix_of` q -> Forall name_ok q -> room q < 2 ^ 62 ->
  grown T (set_nodes (<[p ++ [f] := new_directory 448 t]> (nodes t)) t) q k.
Proof.
  intros [[G1 G2 G3] H2 H3 H4 H5] Hp Hn Hpre Hnm Hroom. constructor; cbn [set_nodes nodes cwd].
  - constructor; cbn [set_nodes nodes].
    + intros p' x n [[E _]|[Hne Hn']]%lookup_insert_Some.
      * apply app_inj_tail in E as [<- _]. destruct Hp as (m & Hm & Hd). exists m. split; [|done]. apply lookup_insert_Some. right. split; [|done]. intros E. apply (f_equal length) in E. rewrite length_app in E. cbn in E. lia.
      * destruct (G1 p' x n Hn') as (m & Hm & Hd). exists m. split; [|done]. apply lookup_insert_Some. right. split; [congruence|done].
    + intros p' n [[<- _]|[_ Hn']]%lookup_insert_Some; [|by apply (G2 p' n)]. destruct Hpre as [r ->]. rewrite room_app in Hroom. apply Forall_app in Hnm as [? _]. pose proof (room_nonneg r). split; [done|lia].
    + rewrite map_size_insert_None by done. lia.
  - done.
  - intros p' n Hn'. apply lookup_insert_Some. right. specialize (H3 p' n Hn'). split; [congruence|done].
  - intros p' Hn' [n [[<- <-]|[Hne Hp']]%lookup_insert_Some].
    + split; [done|]. eexists. split; [apply lookup_insert_eq|apply new_directory_dir].
    + destruct (H4 p' Hn' ltac:(by exists n)) as [? (m & Hm & Hd)]. split; [done|]. exists m. split; [|done]. apply lookup_insert_Some. right. by split.
  - rewrite map_size_insert_None by done. lia.
Qed.

Lemma grown_less T t q k : grown T t q k -> grown T t q 0.
Proof. intros [H1 H2 H3 H4 H5]. constructor; [done..|lia]. Qed.

Lemma os_error_ok er : er <> 0 -> exists e, os_error_to_file_error er = Ok e.
Proof. intros H. unfold os_error_to_file_error. repeat (case_match; [by eexists|]). rewrite check_true; [by eexists|]. by destruct (Z.eqb_spec 0 er). Qed.

Definition proper_errors (script : list (option Z)) : Prop := Forall (fun f => f <> Some 0) script.

Lemma attempt_error {A} (r : Z + A) script :
  proper_errors script -> exists r' script', attempt r script = (r', script') /\ proper_errors script' /\ (r' = r \/ exists e, e <> 0 /\ r' = inl e) /\ (Forall (eq None) script -> r' = r /\ Forall (eq None) script').
Proof.
  intros Hp. destruct (attempt_cases r script) as (r' & s' & E & H1 & H2). exists r', s'. destruct script as [|[e|] l]; cbn in E; injection E as <- <-.
  - split_and!; [done|done|by left|done].
  - apply Forall_cons in Hp as [He Hp]. split_and!; [done|done|right; exists e; split; [congruence|done]|done].
  - apply Forall_cons in Hp as [He Hp]. split_and!; [done|done|by left|done].
Qed.

(** What [directory_exists] says; in the end only a failure makes it miss a directory. *)
Lemma directory_exists_ok t s script r :
  proper_errors script -> sys_stat true s t = r ->
  exists b script', directory_exists s t script = (b, script') /\ proper_errors script'
    /\ (b = true -> exists st, r = inr st /\ S_ISDIR (st_mode st) = true)
    /\ (Forall (eq None) script -> Forall (eq None) script' /\ b = match r with inr st => S_ISDIR (st_mode st) | inl _ => false end).
Proof.
  intros Hp <-. unfold directory_exists. destruct (attempt_error (sys_stat true s t) script Hp) as (r' & s' & -> & Hp' & Hr & Hs). destruct Hr as [-> | (e & He & ->)].
  - destruct (sys_stat true s t) as [e|st]; eexists _, _; (split; [reflexivity|]); (split; [done|]); (split; [|intros H; by destruct (Hs H)]); [done|]. intros H. by exists st.
  - eexists _, _. split; [reflexivity|]. split; [done|]. split; [done|]. intros H. by destruct (Hs H) as [<- ?].
Qed.

Section creation.
Context (T : tree) (st q : list bytes) (error : bool).
Hypothesis no_obstacle : forall p n, p `prefix_of` q -> nodes T !! p = Some n -> is_dir n = true.
Hypothesis q_names : Forall name_ok q.
Hypothesis q_room : room q < 2 ^ 62.

Definition creates (res : outcome (bool * option Error * tree * list (option Z))) (script : list (option Z)) : Prop :=
  exists ok err t' script', res = Ok (ok, err, t', script') /\ grown T t' q 0 /\ (ok = true -> at_dir t' q) /\ (Forall (eq None) script -> ok = true).

Lemma gives_up er t k script script' :
  er <> 0 -> grown T t q k -> ~ Forall (eq None) script ->
  creates (if error then e ← os_error_to_file_error er; Ok (false, Some e, t, script') else Ok (false, None, t, script')) script.
Proof.
  intros He Hg Hs. destruct (os_error_ok er He) as [e E]. assert (exists err, (if error then e ← os_error_to_file_error er; Ok (false, Some e, t, script') else Ok (false, None, t, script')) = Ok (false, err, t, script')) as [err ->].
  { rewrite E. destruct error; by eexists. }
  exists false, err, t, script'. split_and!; [done|by eapply grown_less|done|done].
Qed.

Lemma creates_mono res script script' : (Forall (eq None) script -> Forall (eq None) script') -> creates res script' -> creates res script.
Proof. intros H (ok & err & t' & s' & H1 & H2 & H3 & H4). exists ok, err, t', s'. split_and!; auto. Qed.

(** What exists on the way is a directory. *)
Lemma way_dir t k p n : grown T t q k -> p `prefix_of` q -> nodes t !! p = Some n -> is_dir n = true.
Proof.
  intros Hg Hp Hn. destruct (nodes T !! p) as [m|] eqn:E.
  - pose proof (gr_kept _ _ _ _ Hg p m E). apply (no_obstacle p); [done|congruence].
  - destruct (gr_new _ _ _ _ Hg p E ltac:(by exists n)) as [_ (m & ? & ?)]. congruence.
Qed.

Lemma create_loop_ok fs pre t ss script :
  grown T t q (length fs) -> q = st ++ pre ++ fs -> Forall name_ok pre -> at_dir t (st ++ pre) -> Forall2 (spells T st) ss (chain pre fs) -> proper_errors script ->
  creates (create_loop error ss t script) script.
Proof.
  revert pre t ss script. induction fs as [|f fs IH]; intros pre t ss script Hg Hq Hpre Hd Hss Hp; cbn [chain length] in *; inversion Hss as [|s l ss' ls Hs Hss' E1 E2]; subst ss; cbn [create_loop].
  { exists true, None, t, script. rewrite app_nil_r in Hq. rewrite Hq in *. by split_and!. }
  subst l ls. destruct Hs as (P1 & P2 & P3 & P4). pose proof (gr_ok _ _ _ _ Hg) as Ht. assert (Est : start t s = st) by (rewrite <- P3; unfold start; by rewrite (gr_cwd _ _ _ _ Hg)).
  assert (Hq1 : q = (st ++ pre ++ [f]) ++ fs) by (by rewrite <- !app_assoc).
  assert (Hpre1 : Forall name_ok (pre ++ [f])) by (apply Forall_app; split; [done|]; rewrite Hq, !Forall_app, Forall_cons in q_names; constructor; [tauto|constructor]).
  assert (Hnm : Forall name_ok (segments s)) by (by rewrite P4).
  assert (Hnext : forall t' script', grown T t' q (length fs) -> at_dir t' (st ++ pre ++ [f]) -> proper_errors script' -> creates (create_loop error ss' t' script') script').
  { intros t' s' Hg' Hd' Hp'. apply (IH (pre ++ [f])); [done|by rewrite Hq, <- app_assoc|done|done|done|done]. }
  destruct (nodes t !! (st ++ pre ++ [f])) as [n|] eqn:En.
  - assert (Hdn : is_dir n = true) by (eapply way_dir; [exact Hg|by exists fs|exact En]). assert (Hat : at_dir t (st ++ pre ++ [f])) by (by exists n).
    assert (Hg' : grown T t q (length fs)) by (destruct Hg as [G1 G2 G3 G4 G5]; constructor; [done..|lia]).
    assert (Estat : sys_stat true s t = inr (n_stat n)) by (apply stat_there; [done..|by rewrite Est, P4|done]).
    destruct (directory_exists_ok t s script _ Hp Estat) as ([|] & s1 & -> & Hp1 & _ & Hs1). { eapply creates_mono; [intros H; by apply Hs1|]. by apply Hnext. }
    assert (Hno : ~ Forall (eq None) script) by (intros H; destruct (Hs1 H) as [_ H']; unfold is_dir in Hdn; congruence).
    rewrite (mkdir_there t s pre f n) by (done || by rewrite Est). destruct (attempt_error (inl EEXIST : Z + tree) s1 Hp1) as (r' & s2 & -> & Hp2 & Hr & _).
    assert (exists er, er <> 0 /\ r' = inl er) as (er & Her & ->) by (destruct Hr as [-> |?]; [by exists EEXIST|done]).
    destruct (directory_exists_ok t s s2 _ Hp2 Estat) as ([|] & s3 & -> & Hp3 & _ & _); [eapply creates_mono; [intros H; by destruct Hno|]; by apply Hnext|]. by eapply gives_up.
  - destruct (stat_missing t s pre f) as [Estat Emk]; [done|done|done|done|by rewrite Est|by rewrite Est|]. rewrite Est in Emk.
    destruct (directory_exists_ok t s script _ Hp Estat) as (b & s1 & -> & Hp1 & Hb & Hs1). destruct b; [by destruct (Hb eq_refl) as (? & ? & _)|]. rewrite Emk.
    match goal with |- context [attempt ?r s1] => destruct (attempt_error r s1 Hp1) as (r' & s2 & -> & Hp2 & Hr & Hs2) end. destruct Hr as [-> | (er & Her & ->)].
    + eapply creates_mono; [intros H; by apply Hs2, Hs1|]. rewrite app_assoc in *. apply Hnext; [|eexists; split; [apply lookup_insert_eq|apply new_directory_dir]|done].
      apply grown_insert; [done|done|done|by exists fs|done|done].
    + destruct (directory_exists_ok t s s2 _ Hp2 Estat) as (b & s3 & -> & Hp3 & Hb' & _). destruct b; [by destruct (Hb' eq_refl) as (? & ? & _)|].
      eapply gives_up; [done|exact Hg|]. intros H. destruct (Hs1 H) as [H1 _]. by destruct (Hs2 H1) as [? _].
Qed.

Lemma walk_nil t links follow cur : walk links t follow cur [] = inr cur.
Proof. by destruct links. Qed.

Lemma walk_dot t links follow cur : at_dir t cur -> walk links t follow cur [kCurrentDirectory] = inr cur.
Proof. intros (n & Hn & Hd). destruct links; cbn [walk]; rewrite Hn, Hd; cbn [negb]; by rewrite bool_decide_true. Qed.

(** The paths at which the directories start exist. *)
Lemma base_there t absolute r :
  at_dir t (if absolute : bool then [] else cwd t) -> base_of absolute r -> exists n, sys_stat true r t = inr (n_stat n) /\ is_dir n = true /\ sys_mkdir r 448 t = inl EEXIST.
Proof.
  intros Hat Hb. pose proof Hat as (n & Hn & Hd). exists n. unfold sys_stat, resolve, sys_mkdir.
  assert (start t r = (if absolute then [] else cwd t) /\ r <> [] /\ path_parts r = [kCurrentDirectory] /\ (segments r = [] \/ segments r = [kCurrentDirectory])) as (-> & Hr & -> & Hs).
  { destruct absolute; cbn in Hb; [|subst r; split_and!; [done|done|done|by right]]. destruct Hb as ([|m] & Hm & ->); [lia|]. unfold start, path_parts. rewrite absolute_leading, segments_seps, seps_end, ends_sep_end.
    rewrite <- seps_end at 1. rewrite <- (app_nil_r (seps (S m))), leading_seps. split_and!; [done|by destruct (seps m)|by rewrite (proj2 (is_separator_iff sep))|by left]. }
  rewrite !bool_decide_false, walk_dot by done. cbn [node_at]. rewrite Hn. split_and!; [done|done|]. destruct Hs as [-> | ->]; [done|]. cbn [last removelast]. rewrite walk_nil. cbn [node_at].
  rewrite Hn, Hd. cbn [negb]. by rewrite bool_decide_true by (by left).
Qed.

Lemma create_bases bs ss t k absolute script :
  grown T t q k -> at_dir t (if absolute : bool then [] else cwd t) -> Forall (base_of absolute) bs -> proper_errors script ->
  (forall script, proper_errors script -> creates (create_loop error ss t script) script) -> creates (create_loop error (bs ++ ss) t script) script.
Proof.
  intros Hg Hd Hbs Hp Hss. revert script Hp. induction Hbs as [|r bs Hr _ IH]; intros script Hp; cbn [app create_loop]; [by apply Hss|].
  destruct (base_there t absolute r Hd Hr) as (n & Estat & Hdn & Emk).
  destruct (directory_exists_ok t r script _ Hp Estat) as ([|] & s1 & -> & Hp1 & _ & Hs1). { eapply creates_mono; [intros H; by apply Hs1|]. by apply IH. }
  assert (Hno : ~ Forall (eq None) script) by (intros H; destruct (Hs1 H) as [_ H']; unfold is_dir in Hdn; congruence).
  rewrite Emk. destruct (attempt_error (inl EEXIST : Z + tree) s1 Hp1) as (r' & s2 & -> & Hp2 & Hr' & _).
  assert (exists er, er <> 0 /\ r' = inl er) as (er & Her & ->) by (destruct Hr' as [-> |?]; [by exists EEXIST|done]).
  destruct (directory_exists_ok t r s2 _ Hp2 Estat) as ([|] & s3 & -> & Hp3 & _ & _); [eapply creates_mono; [intros H; by destruct Hno|]; by apply IH|]. by eapply gives_up.
Qed.

End creation.

(** *** Checking owners *)

Definition trusted (t : tree) (owner_uid : Z) (group_gids : gset Z) (p : bytes) : Prop :=
  exists st, sys_stat false p t = inr st /\ S_ISLNK (st_mode st) = false /\ st_uid st = owner_uid
    /\ (has_type (st_mode st) S_IWGRP = true -> st_gid st ∈ group_gids) /\ has_type (st_mode st) S_IWOTH = false.

Lemma verify_specific_ok p owner_uid group_gids t :
  exists b, verify_specific_path_controlled_by_user p owner_uid group_gids t [] = (b, []) /\ (b = true <-> trusted t owner_uid group_gids p).
Proof.
  unfold verify_specific_path_controlled_by_user, trusted. cbn [attempt]. destruct (sys_stat false p t) as [e|st]; [exists false; split; [done|]; split; [done|by intros (? & ? & _)]|].
  eexists. split; [reflexivity|]. destruct (S_ISLNK (st_mode st)) eqn:E1; [split; [done|intros (st' & [= <-] & ? & _); congruence]|].
  destruct (Z.eqb_spec (st_uid st) owner_uid) as [E2|E2]; [|split; [done|intros (st' & [= <-] & _ & ? & _); congruence]]. cbn [negb].
  destruct (has_type (st_mode st) S_IWGRP) eqn:E3; cbn [andb].
  - case_bool_decide as E4; [split; [done|intros (st' & [= <-] & _ & _ & H & _); by destruct E4; apply H]|]. rewrite negb_true_iff. split; [by intros; exists st|by intros (st' & [= <-] & _ & _ & _ & H)].
  - rewrite negb_true_iff. split; [intros; exists st; by rewrite E3|by intros (st' & [= <-] & _ & _ & _ & H)].
Qed.

Lemma verify_loop_ok ip cur owner_uid group_gids t :
  path_ok cur -> Forall good ip -> zlen cur + room ip < 2 ^ 63 ->
  exists b, verify_loop ip cur owner_uid group_gids t [] = Ok (b, [])
    /\ (b = true <-> forall k, (0 < k <= length ip)%nat -> exists p, append_all (take k ip) cur = Ok p /\ trusted t owner_uid group_gids p).
Proof.
  revert cur. induction ip as [|c ip IH]; intros cur Hok Hg Hl; cbn [verify_loop].
  { exists true. split; [done|]. split; [|done]. intros _ k Hk. cbn in Hk. lia. }
  apply Forall_cons in Hg as [[Hc1 Hc2] Hg]. cbn [room] in Hl. pose proof (room_nonneg ip) as Hroom. destruct (append_segment cur c Hok Hc2 Hc1 ltac:(lia)) as (cur' & E & Hok' & Hl' & _). rewrite E. cbn [mbind outcome_bind].
  destruct (verify_specific_ok cur' owner_uid group_gids t) as (b & -> & Hb). destruct (IH cur' Hok' Hg ltac:(lia)) as (b' & E' & Hb').
  destruct b; cbn [negb].
  - exists b'. split; [done|]. rewrite Hb'. split.
    + intros H [|[|k]] Hk; [lia| |]; cbn [take append_all]; rewrite E; cbn [mbind outcome_bind]; [exists cur'; split; [done|by apply Hb]|]. apply (H (S k)). cbn in Hk. lia.
    + intros H [|k] Hk; [lia|]. destruct (H (S (S k))) as (p & Ep & Hp); [cbn; lia|]. cbn [take append_all] in Ep. rewrite E in Ep. by exists p.
  - exists false. split; [done|]. split; [done|]. intros H. apply Hb. destruct (H 1%nat) as (p & Ep & Hp); [cbn; lia|]. cbn [take append_all] in Ep. rewrite E in Ep. cbn in Ep. by injection Ep as <-.
Qed.

Lemma skip_base_app a b : skip_base a (a ++ b) = Ok b.
Proof. induction a as [|x a IH]; [done|]. cbn [skip_base app]. rewrite check_true by (by apply bool_decide_eq_true). exact IH. Qed.

(** *** File systems given by their files *)

Definition name_okb (c : bytes) : bool :=
  (zlen c <? 2 ^ 63) && bool_decide (Byte.x00 ∉ c) && bool_decide (c <> []) && bool_decide (sep ∉ c) && bool_decide (c <> kCurrentDirectory) && bool_decide (c <> kParentDirectory).
Definition file_okb (t : tree) (f : list bytes * node) : bool :=
  match f.1 with [] => true | _ => match nodes t !! removelast f.1 with Some m => is_dir m | None => false end end && forallb name_okb f.1 && (room f.1 <? 2 ^ 62).

Lemma tree_ok_list t : forallb (file_okb t) (map_to_list (nodes t)) = true -> Z.of_nat (size (nodes t)) < 2 ^ 62 -> tree_ok t.
Proof.
  intros H Hs. rewrite forallb_forall in H. assert (Hf : forall p n, nodes t !! p = Some n -> file_okb t (p, n) = true) by (intros p n Hn; apply H, list_elem_of_In, elem_of_map_to_list, Hn).
  constructor; [| |done].
  - intros p c n Hn. apply Hf in Hn. unfold file_okb in Hn. cbn [fst] in Hn. rewrite removelast_last in Hn. destruct (p ++ [c]) eqn:E; [by destruct p|]. apply andb_true_iff in Hn as [[Hn _]%andb_true_iff _].
    destruct (nodes t !! p) as [m|]; [by exists m|done].
  - intros p n Hn. apply Hf in Hn. unfold file_okb in Hn. cbn [fst] in Hn. apply andb_true_iff in Hn as [[_ Hn]%andb_true_iff Hr%Z.ltb_lt]. split; [|done].
    rewrite forallb_forall in Hn. apply Forall_forall. intros c Hc. apply list_elem_of_In, Hn in Hc. unfold name_okb in Hc. rewrite !andb_true_iff, !bool_decide_eq_true, Z.ltb_lt in Hc. unfold name_ok, path_ok, valid, nul_free, segment. tauto.
Qed.

(** ** Theorems *)

(** C19. Deleting recursively what a path names directly, that is, not a link by a path with a separator at its end (which is followed,
    [delete_through_link]), removes exactly that: nothing outside the file or directory changes, links are not followed, and the
    result is [true] only if everything is gone.  Where no call fails everything is deleted, in whatever order directories are read; the loops always end. *)
Theorem delete_file_correct (order : tree -> list bytes -> list bytes -> list bytes) (fnmatch : bytes -> bytes -> bool) (t : tree) (s : bytes) (q : list bytes) (n : node) (script : list (option Z)) :
  (forall t d l, order t d l ≡ₚ l) -> tree_ok t -> names t s q -> zlen s < 2 ^ 62 -> nodes t !! q = Some n -> is_dir n = true \/ ends_sep s = false -> honest script ->
  exists ok t' script', delete_file order fnmatch s true t script = Ok (ok, t', script') /\ tree_ok t'
    /\ (forall p, ~ q `prefix_of` p -> nodes t' !! p = nodes t !! p) /\ (ok = true -> forall p, q `prefix_of` p -> nodes t' !! p = None)
    /\ (Forall (eq None) script -> q <> [] -> ok = true).
Proof.
  intros Ho Ht Hs Hl Hn Hd Hh. unfold delete_file. rewrite (lstat_ok t s q n Ht Hs Hn Hd).
  assert (Hgone : forall t', tree_ok t' -> nodes t' !! q = None -> forall p, q `prefix_of` p -> nodes t' !! p = None).
  { intros t' Ht' Hq p [r ->]. destruct (nodes t' !! (q ++ r)) as [m|] eqn:E; [|done]. destruct (decide (r = [])) as [-> |Hr]; [rewrite app_nil_r in E; congruence|]. destruct (tree_above t' q r m Ht' E Hr) as (? & ? & _). congruence. }
  destruct (attempt_cases (inr (n_stat n) : Z + stat_t) script) as (r & s1 & E1 & Hr & Hs1). rewrite E1. destruct Hr as [-> | [e ->]]; [|clear Hgone].
  - change (S_ISDIR (st_mode (n_stat n))) with (is_dir n). destruct (is_dir n) eqn:Hdn; cbn [negb].
    + destruct (delete_tree_ok order fnmatch (bool_decide (Forall (eq None) script)) t s q s1 Ho Ht Hs Hl) as (ok & t' & s2 & E & R1 & R2 & R3 & R4 & R5); [by exists n|intros H%bool_decide_eq_true; by apply Hs1|].
      exists ok, t', s2. split; [exact E|]. split_and!; [done|done|intros H; by apply Hgone, R4|]. intros H. by apply R5, bool_decide_eq_true.
    + destruct Hd as [?|He]; [done|]. rewrite (unlink_entry_ok t s q n Ht Hs He Hn), Hdn. set (t1 := set_nodes (delete q (nodes t)) t).
      destruct (attempt_cases (inr t1 : Z + tree) s1) as (r' & s2 & -> & Hr' & Hs2). destruct Hr' as [-> | [e ->]].
      * exists true, t1, s2. assert (Ht1 : tree_ok t1) by (apply tree_ok_delete; [done|by eapply leaf_file]). split_and!; [done|done| | |done].
        -- intros p Hp. cbn. rewrite lookup_delete_ne; [done|]. by intros <-.
        -- intros _. apply Hgone; [done|]. apply lookup_delete_eq.
      * exists false, t, s2. split_and!; [done..|]. intros H. destruct (Hs1 H) as [_ H1]. by destruct (Hs2 H1) as [? _].
  - exists ((e =? ENOENT) || (e =? ENOTDIR)), t, s1. destruct script as [|[e'|] l]; cbn in E1; [done| |done]. injection E1 as -> ->. apply Forall_cons in Hh as [[H1 H2] _].
    assert ((e =? ENOENT) || (e =? ENOTDIR) = false) as -> by (destruct (Z.eqb_spec e ENOENT), (Z.eqb_spec e ENOTDIR); (reflexivity || congruence)). split_and!; [done..|]. intros H. by apply Forall_cons in H as [? _].
Qed.

(** A recursive enumeration that shows links delivers every file below a directory exactly once, each directory before what it contains, and ends. *)
Theorem enumeration_correct (order : tree -> list bytes -> list bytes -> list bytes) (fnmatch : bytes -> bytes -> bool) (t : tree) (s : bytes) (q : list bytes) :
  (forall t d l, order t d l ≡ₚ l) -> tree_ok t -> names t s q -> zlen s < 2 ^ 62 -> at_dir t q ->
  exists e l qs, make_enumerator s true show_all [] MATCH_ONLY t [] = Ok (e, []) /\ enumerate order fnmatch (enough t) e t [] = Ok l /\ Forall2 (names t) l qs
    /\ NoDup qs /\ (forall p, p ∈ qs <-> is_Some (nodes t !! p) /\ exists r, r <> [] /\ p = q ++ r)
    /\ forall a p b, qs = a ++ p :: b -> exists d x, p = d ++ [x] /\ (d = q \/ d ∈ a).
Proof.
  intros Ho Ht Hs Hl Hd. destruct (enumerate_ok order fnmatch Ho true t q s Ht Hl (enough t) [] [] [] [q] (full [] 0 s [s]) []) as (l & qs & P & E & H1 & H2).
  { apply view_start; [done|done|by apply named_start|constructor]. } { unfold enough. cbn. lia. }
  cbn [app] in H2. exists (full [] 0 s [s]), l, qs. split_and!; [reflexivity|exact E| | | |apply (tr_first _ _ _ _ _ _ _ H2)].
  - eapply Forall2_impl; [exact H1|]. intros x y Hxy. apply Hxy.
  - pose proof (tr_unique _ _ _ _ _ _ _ H2) as H. by rewrite app_nil_r in H.
  - intros p. split.
    + intros Hp. destruct (tr_ret _ _ _ _ _ _ _ H2 p) as (Hsome & d & x & -> & HdP); [mem|]. split; [done|].
      destruct (tr_dirs _ _ _ _ _ _ _ H2 d) as [_ [k ->]]; [mem|]. exists (k ++ [x]). split; [by destruct k|by rewrite app_assoc].
    + intros [Hsome (r & Hr & ->)]. by apply (trace_complete t q P qs r).
Qed.

(** Creating a directory creates the missing directories on the way to it and nothing else, whatever call fails; the
    result is [true] only if the directory is there, and always where no call fails and nothing else is in the way. *)
Theorem create_directory_correct (t : tree) (s : bytes) (error : bool) (script : list (option Z)) (q : list bytes) :
  tree_ok t -> path_ok s -> s <> [] -> Forall name_ok (segments s) -> q = start t s ++ segments s -> Forall name_ok q -> room q < 2 ^ 62 -> Z.of_nat (size (nodes t) + length q) < 2 ^ 62 ->
  at_dir t (start t s) -> (forall p n, p `prefix_of` q -> nodes t !! p = Some n -> is_dir n = true) -> proper_errors script ->
  exists ok err t' script', create_directory_and_get_error s error t script = Ok (ok, err, t', script')
    /\ (forall p n, nodes t !! p = Some n -> nodes t' !! p = Some n)
    /\ (forall p, nodes t !! p = None -> is_Some (nodes t' !! p) -> p `prefix_of` q /\ at_dir t' p)
    /\ (ok = true -> at_dir t' q) /\ (Forall (eq None) script -> ok = true).
Proof.
  intros Ht Hok Hne Hseg Hq Hnm Hroom Hsize Hd Hobs Hp. destruct (parents_ok t (S (S (length s))) s [s] Hok Hne Hseg ltac:(lia)) as (l & bs & ss & E & Erev & Hbs & Hss).
  unfold create_directory_and_get_error. rewrite E. cbn [mbind outcome_bind]. change ([s] ++ l) with (s :: l). rewrite Erev.
  assert (Hg : grown t t q (length (segments s))) by (constructor; [done..|intros p Hnone [m Hm]; congruence|rewrite Hq, length_app in Hsize; lia]).
  assert (creates t q (create_loop error (bs ++ ss) t script) script) as (ok & err & t' & s' & E' & G & H1 & H2).
  { apply (create_bases t q error bs ss t (length (segments s)) (is_path_absolute s)); [done|exact Hd|done|done|]. intros s' Hs'.
    apply (create_loop_ok t (start t s) q error Hobs Hnm Hroom (segments s) []); [done|done|constructor|by rewrite app_nil_r|done|done]. }
  exists ok, err, t', s'. split_and!; [done|apply (gr_kept _ _ _ _ G)|apply (gr_new _ _ _ _ G)|done|done].
Qed.

(** [verify_path_controlled_by_user] accepts a path exactly if it is the base or lies below it and the base and every file on the way to it
    is owned by the user, is not a link and cannot be written by others; its internal checks never fail. *)
Theorem verify_path_correct (base path : bytes) (owner_uid : Z) (group_gids : gset Z) (t : tree) :
  path_ok base -> path_ok path -> zlen base + zlen path + 2 < 2 ^ 63 ->
  exists b, verify_path_controlled_by_user base path owner_uid group_gids t [] = Ok (b, [])
    /\ (b = true <-> exists rest, components path = components base ++ rest /\ (if bool_decide (base = path) then rest = [] else components base <> [] /\ rest <> [])
          /\ forall k, (k <= length rest)%nat -> exists p, append_all (take k rest) base = Ok p /\ trusted t owner_uid group_gids p).
Proof.
  intros Hb Hp Hl. unfold verify_path_controlled_by_user.
  assert (Hgo : forall rest, components path = components base ++ rest -> Forall good rest -> room rest <= zlen path + 1 ->
    exists b, (base_components ← get_components base; path_components ← get_components path; ip ← skip_base base_components path_components;
       let '(ok, script) := verify_specific_path_controlled_by_user base owner_uid group_gids t [] in
       if negb ok then Ok (false, script) else verify_loop ip base owner_uid group_gids t script) = Ok (b, [])
      /\ (b = true <-> forall k, (k <= length rest)%nat -> exists p, append_all (take k rest) base = Ok p /\ trusted t owner_uid group_gids p)).
  { intros rest E Hg Hr. rewrite !get_components_ok by done. cbn [mbind outcome_bind]. rewrite E, skip_base_app. cbn [mbind outcome_bind].
    destruct (verify_specific_ok base owner_uid group_gids t) as (b & -> & Hbt). destruct (verify_loop_ok rest base owner_uid group_gids t Hb Hg ltac:(lia)) as (b' & E' & Hb').
    destruct b; cbn [negb].
    - exists b'. split; [done|]. rewrite Hb'. split; [|intros H k Hk; apply H; lia]. intros H [|k] Hk; [exists base; split; [done|by apply Hbt]|apply H; lia].
    - exists false. split; [done|]. split; [done|]. intros H. apply Hbt. destruct (H 0%nat) as (p & Ep & Ht); [lia|]. cbn in Ep. by injection Ep as <-. }
  destruct (decide (base = path)) as [Eb|Eb].
  - rewrite bool_decide_true by done. cbn [mbind outcome_bind negb]. destruct (Hgo []) as (b & E & H); [by rewrite app_nil_r, Eb|constructor|cbn; pose proof (zlen_nonneg path); lia|].
    exists b. split; [exact E|]. rewrite H. split; [intros Hk; exists []; split_and!; [by rewrite app_nil_r, Eb|done|done]|]. by intros (rest & _ & -> & Hk).
  - rewrite bool_decide_false by done. destruct (decide (components base <> [] /\ components_rest (components base) (components path) <> None /\ components_rest (components base) (components path) <> Some [])) as [(H0 & H1 & H2)|Hno].
    + destruct (components_rest (components base) (components path)) as [rest|] eqn:Er; [|done]. apply components_rest_some in Er. assert (Hr0 : rest <> []) by congruence.
      unfold is_parent. rewrite (relative_yes base path None rest) by done. cbn [mbind outcome_bind negb]. destruct (components_tail path _ _ Hp Er H0) as [Hg Hr].
      destruct (Hgo rest Er Hg Hr) as (b & E & H). exists b. split; [exact E|]. rewrite H. split; [intros Hk; by exists rest|]. intros (rest' & E' & _ & Hk). rewrite Er in E'. by apply app_inv_head in E' as <-.
    + unfold is_parent. assert (Hno' : ~ exists rest, components base <> [] /\ rest <> [] /\ components path = components base ++ rest).
      { intros (rest & H0 & H1 & H2). apply Hno. rewrite H2, components_rest_app. split_and!; [done|done|congruence]. }
      rewrite relative_no by done. cbn [mbind outcome_bind negb]. exists false. split; [done|]. split; [done|]. intros (rest & H0 & [H1 H2] & _). destruct Hno'. by exists rest.
Qed.

(** ** Witnesses and examples *)

Definition a_dir (ino : Z) : node := mkNode (mkStat ino (Z.lor S_IFDIR 448) 1000 1000 0) [].
Definition a_file (ino size : Z) : node := mkNode (mkStat ino (Z.lor S_IFREG 384) 1000 1000 size) [].
Definition a_link (ino : Z) (target : bytes) : node := mkNode (mkStat ino (Z.lor S_IFLNK 511) 1000 1000 (zlen target)) target.

(** /d with a file, a link to /k and a directory with a file; and /k with a file. *)
Definition some_tree : tree :=
  mkTree (list_to_map [([], a_dir 1); ([txt "d"], a_dir 2); ([txt "d"; txt "x"], a_file 3 10); ([txt "d"; txt "l"], a_link 4 (txt "/k"));
    ([txt "d"; txt "e"], a_dir 5); ([txt "d"; txt "e"; txt "y"], a_file 6 5); ([txt "k"], a_dir 7); ([txt "k"; txt "z"], a_file 8 7)]) [] 0 1000 1000.

Lemma some_tree_ok : tree_ok some_tree.
Proof. apply tree_ok_list; vm_compute; reflexivity. Qed.

Definition in_order (t : tree) (d l : list bytes) : list bytes := l.
Definition no_pattern (pattern name : bytes) : bool := false.

Lemma names_d : names some_tree (txt "/d/") [txt "d"].
Proof.
  apply (names_of some_tree (txt "/d/")).
  - split; [vm_compute; reflexivity|]. apply (bool_decide_unpack (Byte.x00 ∉ _)). vm_compute. exact I.
  - discriminate.
  - constructor; [|constructor]. split; [split; [vm_compute; reflexivity|apply (bool_decide_unpack (Byte.x00 ∉ _)); vm_compute; exact I]|].
    split; [split; [discriminate|apply (bool_decide_unpack (sep ∉ _)); vm_compute; exact I]|]. split; discriminate.
Qed.

Lemma delete_file_correct_witness :
  exists t' script', delete_file in_order no_pattern (txt "/d/") true some_tree [None; Some EINTR] = Ok (false, t', script') /\ nodes t' !! [txt "k"; txt "z"] = Some (a_file 8 7)
  /\ exists t2 script2, delete_file in_order no_pattern (txt "/d/") true some_tree [] = Ok (true, t2, script2) /\ nodes t2 !! [txt "d"; txt "e"; txt "y"] = None.
Proof.
  destruct (delete_file_correct in_order no_pattern some_tree (txt "/d/") [txt "d"] (a_dir 2) [None; Some EINTR]) as (ok & t' & s' & E & _ & H1 & _).
  - intros t d l. reflexivity.
  - exact some_tree_ok.
  - exact names_d.
  - vm_compute. reflexivity.
  - vm_compute. reflexivity.
  - left. vm_compute. reflexivity.
  - repeat constructor; discriminate.
  - destruct (delete_file_correct in_order no_pattern some_tree (txt "/d/") [txt "d"] (a_dir 2) []) as (ok2 & t2 & s2 & E2 & _ & _ & H2 & H3).
    + intros t d l. reflexivity.
    + exact some_tree_ok.
    + exact names_d.
    + vm_compute. reflexivity.
    + vm_compute. reflexivity.
    + left. vm_compute. reflexivity.
    + constructor.
    + assert (Hok : ok2 = true) by (apply H3; [constructor|discriminate]). rewrite Hok in *.
      assert (Hf : ok = false).
      { assert (Hc : (match delete_file in_order no_pattern (txt "/d/") true some_tree [None; Some EINTR] with Ok (b, _, _) => b | Fault _ => true end) = false) by (vm_compute; reflexivity). rewrite E in Hc. exact Hc. }
      rewrite Hf in E. exists t', s'. split; [exact E|]. split.
      * rewrite H1; [reflexivity|]. intros [r Hr]. discriminate Hr.
      * exists t2, s2. split; [exact E2|]. apply H2; [reflexivity|]. exists [txt "e"; txt "y"]. reflexivity.
Defined.

Lemma enumeration_correct_witness :
  exists e l qs, enumerate in_order no_pattern (enough some_tree) e some_tree [] = Ok l /\ Forall2 (names some_tree) l qs /\ [txt "d"; txt "e"; txt "y"] ∈ qs.
Proof.
  destruct (enumeration_correct in_order no_pattern some_tree (txt "/d/") [txt "d"]) as (e & l & qs & _ & E & Hn & _ & H & _).
  - intros t d l. reflexivity.
  - exact some_tree_ok.
  - exact names_d.
  - vm_compute. reflexivity.
  - exists (a_dir 2). split; vm_compute; reflexivity.
  - exists e, l, qs. split; [exact E|]. split; [exact Hn|]. apply H. split; [vm_compute; eexists; reflexivity|]. exists [txt "e"; txt "y"]. split; [discriminate|reflexivity].
Defined.

Lemma create_directory_correct_witness :
  exists err t' script', create_directory_and_get_error (txt "d/new/sub/") false some_tree [] = Ok (true, err, t', script') /\ at_dir t' [txt "d"; txt "new"; txt "sub"].
Proof.
  destruct (create_directory_correct some_tree (txt "d/new/sub/") false [] [txt "d"; txt "new"; txt "sub"]) as (ok & err & t' & s' & E & _ & _ & H1 & H2).
  - exact some_tree_ok.
  - split; [vm_compute; reflexivity|]. apply (bool_decide_unpack (Byte.x00 ∉ _)). vm_compute. exact I.
  - discriminate.
  - repeat constructor; (vm_compute; reflexivity) || discriminate || (apply (bool_decide_unpack (_ ∉ _)); vm_compute; exact I).
  - vm_compute. reflexivity.
  - repeat constructor; (vm_compute; reflexivity) || discriminate || (apply (bool_decide_unpack (_ ∉ _)); vm_compute; exact I).
  - vm_compute. reflexivity.
  - vm_compute. reflexivity.
  - exists (a_dir 1). split; vm_compute; reflexivity.
  - intros p n [r Hr] Hn. destruct p as [|a [|b [|c [|e p]]]]; cbn in Hr; [| | | |discriminate Hr].
    + vm_compute in Hn. injection Hn as <-. reflexivity.
    + injection Hr as <- _. vm_compute in Hn. injection Hn as <-. reflexivity.
    + injection Hr as <- <- _. vm_compute in Hn. discriminate Hn.
    + injection Hr as <- <- <- _. vm_compute in Hn. discriminate Hn.
  - constructor.
  - assert (Hok : ok = true) by (apply H2; constructor). rewrite Hok in *. exists err, t', s'. split; [exact E|]. apply H1. reflexivity.
Defined.

Lemma verify_path_correct_witness :
  verify_path_controlled_by_user (txt "/d") (txt "/d/e/y") 1000 ∅ some_tree [] = Ok (true, [])
  /\ exists b, verify_path_controlled_by_user (txt "/d") (txt "/d/l") 1000 ∅ some_tree [] = Ok (b, []) /\ b <> true.
Proof.
  split; [vm_compute; reflexivity|]. destruct (verify_path_correct (txt "/d") (txt "/d/l") 1000 ∅ some_tree) as (b & E & H).
  - split; [vm_compute; reflexivity|]. apply (bool_decide_unpack (Byte.x00 ∉ _)). vm_compute. exact I.
  - split; [vm_compute; reflexivity|]. apply (bool_decide_unpack (Byte.x00 ∉ _)). vm_compute. exact I.
  - vm_compute. reflexivity.
  - exists b. split; [exact E|]. intros Hb. apply H in Hb as (rest & Hrest & _ & Hk). vm_compute in Hrest. injection Hrest as <-.
    destruct (Hk 1%nat) as (p & Ep & st & Est & Hlnk & _); [cbn; lia|]. vm_compute in Ep. injection Ep as <-. vm_compute in Est. injection Est as <-. vm_compute in Hlnk. discriminate Hlnk.
Defined.

(** The order of a recursive enumeration: the directory found last is entered first. *)
Example depth_first :
  let t := mkTree (list_to_map [([], a_dir 1); ([txt "a"], a_dir 2); ([txt "a"; txt "c"], a_dir 3); ([txt "a"; txt "c"; txt "d"], a_file 4 0); ([txt "b"], a_dir 5); ([txt "b"; txt "f"], a_file 6 0)]) [] 0 0 0 in
  enumerate in_order no_pattern (enough t) (full [] 0 (txt "/") [txt "/"]) t []
  = Ok [txt "/b"; txt "/a"; txt "/a/c"; txt "/a/c/d"; txt "/b/f"].
Proof. vm_compute. reflexivity. Qed.

(** A link with a separator at the end: what it refers to is emptied, and the result is [false]. *)
Example delete_through_link :
  match delete_file in_order no_pattern (txt "/d/l/") true some_tree [] with
  | Ok (ok, t, _) => Some (ok, nodes t !! [txt "k"; txt "z"], nodes t !! [txt "d"; txt "l"])
  | Fault _ => None
  end = Some (false, None, Some (a_link 4 (txt "/k"))).
Proof. vm_compute. reflexivity. Qed.

(** Without [recursive] a directory with files stays. *)
Example delete_directory_with_files :
  match delete_file in_order no_pattern (txt "/k") false some_tree [] with Ok (ok, t, _) => Some (ok, nodes t !! [txt "k"; txt "z"]) | Fault _ => None end = Some (false, Some (a_file 8 7)).
Proof. vm_compute. reflexivity. Qed.

(** A directory that does not exist is reported as empty. *)
Example missing_is_empty : is_directory_empty in_order no_pattern (txt "/none") some_tree [] = Ok (true, []).
Proof. vm_compute. reflexivity. Qed.

(** The size of a directory includes what links in it refer to. *)
Example size_through_links : compute_directory_size in_order no_pattern (txt "/d") some_tree [] = Ok (22, []).
Proof. vm_compute. reflexivity. Qed.
