(* ===== verification/CopyTree.v ===== *)
(** * Copying and moving directory trees, links and permissions (src/FileUtilPosix.cc)

    [copy_directory] and [move_file] with what they call, over the file system of [Directory] with the bytes of the files beside
    it, and the functions on links, permissions and real paths.  The enumerator reads directories while the copy grows.  The bytes of
    one file are copied by [copy_file_contents] of [FileUtil], between two descriptors of their own.  As in [Directory] a script says which calls fail;
    a second one, of [File], says the same of the reads and writes.

    It is shown that a directory is copied with everything below it that is a directory or a regular file, byte for byte, and that nothing
    else changes; examples show what is lost when a move has to copy. *)

From S2P Require Import Prelude StringPiece FilePath File FileUtil Directory.

(** ** Definitions *)

(** *** System calls *)

Definition PATH_MAX : Z := 4096.
Definition ENXIO : Z := 6.
Definition ENAMETOOLONG : Z := 36.
Definition EXDEV : Z := 18.

Definition S_ISREG (m : Z) : bool := Z.land m S_IFMT =? S_IFREG.
Definition is_reg (n : node) : bool := S_ISREG (st_mode (n_stat n)).

(** The tree and the bytes of its regular files. *)
Record fs : Type := mkFs { tr : tree; data : gmap (list bytes) bytes }.

(** A file gets new bytes, and their number as its size. *)
Definition with_size (size : Z) (n : node) : node :=
  mkNode (mkStat (st_ino (n_stat n)) (st_mode (n_stat n)) (st_uid (n_stat n)) (st_gid (n_stat n)) size) (n_target n).
Definition put_data (q : list bytes) (d : bytes) (f : fs) : fs :=
  mkFs (set_nodes (alter (with_size (zlen d)) q (nodes (tr f))) (tr f)) (<[q := d]> (data f)).

Definition new_file (mode : Z) (t : tree) : node :=
  mkNode (mkStat (fresh_ino t) (Z.lor S_IFREG (Z.land mode (Z.lnot (umask t)))) (euid t) (egid t) 0) [].

(** access(2) with [F_OK], and realpath(3). *)
Definition sys_access (path : bytes) (t : tree) : Z + unit :=
  match node_at t (resolve t true path) with inl e => inl e | inr _ => inr tt end.

Definition spelled (q : list bytes) : bytes := match q with [] => [sep] | _ => concat ((fun c => sep :: c) <$> q) end.

Definition sys_realpath (path : bytes) (t : tree) : Z + bytes :=
  match node_at t (resolve t true path) with
  | inl e => inl e
  | inr (q, _) => if PATH_MAX <=? zlen (spelled q) then inl ENAMETOOLONG else inr (spelled q)
  end.

(** open(2) for reading: the file that is opened. *)
Definition sys_open_read (path : bytes) (t : tree) : Z + list bytes :=
  match node_at t (resolve t true path) with inl e => inl e | inr (q, _) => inr q end.

(** open(2) with [O_WRONLY | O_CREAT] and [O_EXCL] or [O_TRUNC]; a link at the end is followed unless the file must be new. *)
Fixpoint creat (links : nat) (excl : bool) (mode : Z) (f : fs) (cur parts : list bytes) : Z + (list bytes * fs) :=
  match last parts with
  | None => inl EISDIR
  | Some c =>
      match node_at (tr f) (walk MAXSYMLINKS (tr f) true cur (removelast parts)) with
      | inl e => inl e
      | inr (d, n) =>
          if negb (is_dir n) then inl ENOTDIR
          else if bool_decide (c = kCurrentDirectory \/ c = kParentDirectory) then inl (if excl then EEXIST else EISDIR)
          else
            match nodes (tr f) !! (d ++ [c]) with
            | None => inr (d ++ [c], mkFs (set_nodes (<[d ++ [c] := new_file mode (tr f)]> (nodes (tr f))) (tr f)) (<[d ++ [c] := []]> (data f)))
            | Some n' =>
                if excl then inl EEXIST
                else if is_lnk n' then
                  match links with
                  | O => inl ELOOP
                  | S links => creat links excl mode f (start (mkTree (nodes (tr f)) d 0 0 0) (n_target n')) (path_parts (n_target n'))
                  end
                else if is_dir n' then inl EISDIR
                else if is_reg n' then inr (d ++ [c], put_data (d ++ [c]) [] f)
                else inl ENXIO
            end
      end
  end.

Definition sys_open_write (excl : bool) (path : bytes) (mode : Z) (f : fs) : Z + (list bytes * fs) :=
  if bool_decide (path = []) then inl ENOENT else creat MAXSYMLINKS excl mode f (start (tr f) path) (path_parts path).

(** rename(2): everything below the old place is moved to the new one. *)
Definition moved_to (q1 q2 p : list bytes) : list bytes :=
  if bool_decide (q1 `prefix_of` p) then q2 ++ drop (length q1) p else p.
Definition rename_keys {A} (q1 q2 : list bytes) (m : gmap (list bytes) A) : gmap (list bytes) A :=
  list_to_map ((fun x => (moved_to q1 q2 x.1, x.2)) <$> map_to_list (delete q2 m)).

Definition sys_rename (from to : bytes) (f : fs) : Z + fs :=
  match node_at (tr f) (resolve (tr f) false from), last (segments to) with
  | inl e, _ => inl e
  | inr _, None => inl EBUSY
  | inr (q1, n1), Some c =>
      match node_at (tr f) (walk MAXSYMLINKS (tr f) true (start (tr f) to) (removelast (segments to))) with
      | inl e => inl e
      | inr (d, n) =>
          let q2 := d ++ [c] in
          if negb (is_dir n) then inl ENOTDIR
          else if bool_decide (c = kCurrentDirectory \/ c = kParentDirectory \/ q1 = []) then inl EBUSY
          else if bool_decide (q1 = q2) then inr f
          else if bool_decide (q1 `prefix_of` q2) then inl EINVAL
          else
            let move := inr (mkFs (set_nodes (rename_keys q1 q2 (nodes (tr f))) (tr f)) (rename_keys q1 q2 (data f))) in
            match nodes (tr f) !! q2 with
            | None => if negb (is_dir n1) && ends_sep to then inl ENOTDIR else move
            | Some n2 =>
                if is_dir n1 then
                  if negb (is_dir n2) then inl ENOTDIR
                  else if negb (bool_decide (children (tr f) q2 = [])) then inl ENOTEMPTY
                  else move
                else if is_dir n2 then inl EISDIR
                else if ends_sep to then inl ENOTDIR
                else move
            end
      end
  end.

(** symlink(2), readlink(2) and chmod(2). *)
Definition sys_symlink (target path : bytes) (t : tree) : Z + tree :=
  match last (path_parts path) with
  | None => inl EEXIST
  | Some c =>
      match node_at t (walk MAXSYMLINKS t true (start t path) (removelast (path_parts path))) with
      | inl e => inl e
      | inr (d, n) =>
          if negb (is_dir n) then inl ENOTDIR
          else if bool_decide (c = kCurrentDirectory \/ c = kParentDirectory) then inl EEXIST
          else
            match nodes t !! (d ++ [c]) with
            | Some _ => inl EEXIST
            | None => inr (set_nodes (<[d ++ [c] := mkNode (mkStat (fresh_ino t) (Z.lor S_IFLNK 511) (euid t) (egid t) (zlen target)) target]> (nodes t)) t)
            end
      end
  end.

Definition sys_readlink (path : bytes) (size : Z) (t : tree) : Z + bytes :=
  match node_at t (resolve t false path) with
  | inl e => inl e
  | inr (_, n) => if is_lnk n then inr (ztake size (n_target n)) else inl EINVAL
  end.

Definition with_mode (mode : Z) (n : node) : node :=
  mkNode (mkStat (st_ino (n_stat n)) (Z.lor (Z.land (st_mode (n_stat n)) S_IFMT) (Z.land mode 4095)) (st_uid (n_stat n)) (st_gid (n_stat n)) (st_size (n_stat n))) (n_target n).
Definition sys_chmod (path : bytes) (mode : Z) (t : tree) : Z + tree :=
  match node_at t (resolve t true path) with
  | inl e => inl e
  | inr (q, _) => inr (set_nodes (alter (with_mode mode) q (nodes t)) t)
  end.

(** [HANDLE_EINTR] of a call: it is repeated when it is interrupted. *)
Fixpoint attempt_eintr {A} (tries : nat) (r : Z + A) (script : list (option Z)) : (Z + A) * list (option Z) :=
  match script, tries with
  | Some e :: script, S tries => if e =? EINTR then attempt_eintr tries r script else (inl e, script)
  | script, _ => attempt r script
  end.

(** *** FileUtilPosix.cc *)

Definition path_exists (path : bytes) (t : tree) (script : list (option Z)) : bool * list (option Z) :=
  match attempt (sys_access path t) script with (inr _, script) => (true, script) | (inl _, script) => (false, script) end.

Definition make_absolute_filepath (input : bytes) (t : tree) (script : list (option Z)) : bytes * list (option Z) :=
  match attempt (sys_realpath input t) script with
  | (inl _, script) => ([], script)
  | (inr full_path, script) => (make_file_path full_path, script)
  end.

(** The second component is [normalized_path]. *)
Definition normalize_filepath (path : bytes) (t : tree) (script : list (option Z)) : option bytes * list (option Z) :=
  let '(real_path_result, script) := make_absolute_filepath path t script in
  if bool_decide (real_path_result = []) then (None, script)
  else
    let '(is_dir, script) := directory_exists real_path_result t script in
    if is_dir : bool then (None, script) else (Some real_path_result, script).

(** The two descriptors of a copy, with the bytes of the source; the destination is empty. *)
Definition two_files (D : bytes) : kernel :=
  mkKernel (list_to_map [(txt "in", 0%nat); (txt "out", 1%nat)]) [D; []]
    [mkDescription 0 0 (Z.lor O_RDONLY O_NDELAY); mkDescription 1 0 O_WRONLY] [Some 0%nat; Some 1%nat].

Definition copy_bytes (D : bytes) (io : list wish) : outcome (bool * bytes * list wish) :=
  '(ok, k, io) ← copy_file_contents (S (length D)) (mkFile 0 FILE_OK false) (mkFile 1 FILE_OK false) (two_files D) io;
  Ok (ok, default [] (contents k (txt "out")), io).

(** One turn of the loop of [do_copy_directory]; [false] is its [return false]. *)
Definition copy_one (open_exclusive : bool) (from_path_base to_path current : bytes) (from_stat : stat_t)
    (f : fs) (script : list (option Z)) (io : list wish) : outcome (bool * fs * list (option Z) * list wish) :=
  target ← (if bool_decide (from_path_base <> current) then
              '(ok, target) ← append_relative_path current (Some to_path) from_path_base; Ok (if ok : bool then target else None)
            else Ok (Some to_path));
  match target with
  | None => Ok (false, f, script, io)
  | Some target_path =>
      if S_ISDIR (st_mode from_stat) then
        let mode := Z.lor (Z.land (st_mode from_stat) 1023) 448 in
        match attempt (sys_mkdir target_path mode (tr f)) script with
        | (inr t, script) => Ok (true, mkFs t (data f), script, io)
        | (inl e, script) => Ok ((e =? EEXIST) && negb open_exclusive, f, script, io)
        end
      else if negb (S_ISREG (st_mode from_stat)) then Ok (true, f, script, io)
      else
        match attempt (sys_open_read current (tr f)) script with
        | (inl _, script) => Ok (false, f, script, io)
        | (inr infile, script) =>
            match attempt (inr (stat_of (tr f) infile)) script with
            | (inl _, script) => Ok (false, f, script, io)
            | (inr stat_at_use, script) =>
                if negb (S_ISREG (st_mode stat_at_use)) then Ok (true, f, script, io)
                else
                  match attempt (sys_open_write open_exclusive target_path 384 f) script with
                  | (inl _, script) => Ok (false, f, script, io)
                  | (inr (outfile, f), script) =>
                      '(ok, written, io) ← copy_bytes (default [] (data f !! infile)) io;
                      Ok (ok, put_data outfile written f, script, io)
                  end
            end
        end
  end.

Section copying_trees.
(** As in [Directory]. *)
Variable order : tree -> list bytes -> list bytes -> list bytes.
Variable fnmatch : bytes -> bytes -> bool.

(** [advance_enumerator_with_stat] *)
Definition advance_enumerator_with_stat (traversal : FileEnumerator) (t : tree) (script : list (option Z))
    : outcome (option (bytes * stat_t) * FileEnumerator * list (option Z)) :=
  '(next_path, traversal, script) ← next order fnmatch (enough t) traversal t script;
  if bool_decide (next_path = []) then Ok (None, traversal, script)
  else info ← get_info traversal; Ok (Some (next_path, stat_ info), traversal, script).

Fixpoint copy_loop (fuel : nat) (open_exclusive : bool) (from_path_base to_path : bytes) (traversal : FileEnumerator) (current : bytes) (from_stat : stat_t)
    (f : fs) (script : list (option Z)) (io : list wish) : outcome (bool * fs * list (option Z) * list wish) :=
  match fuel with
  | O => Fault OutOfFuel
  | S fuel =>
      '(ok, f, script, io) ← copy_one open_exclusive from_path_base to_path current from_stat f script io;
      if negb ok then Ok (false, f, script, io)
      else
        '(more, traversal, script) ← advance_enumerator_with_stat traversal (tr f) script;
        match more with
        | None => Ok (true, f, script, io)
        | Some (current, from_stat) => copy_loop fuel open_exclusive from_path_base to_path traversal current from_stat f script io
        end
  end.

Definition asterisk : byte := Byte.x2a.

Definition do_copy_directory (from_path to_path : bytes) (recursive open_exclusive : bool)
    (f : fs) (script : list (option Z)) (io : list wish) : outcome (bool * fs * list (option Z) * list wish) :=
  check (bool_decide (asterisk ∉ to_path)) "do_copy_directory: to_path";;
  check (bool_decide (asterisk ∉ from_path)) "do_copy_directory: from_path";;
  if PATH_MAX <=? zlen from_path then Ok (false, f, script, io)
  else
    let '(exists_, script) := path_exists to_path (tr f) script in
    let '(real_to_path, script) := make_absolute_filepath (if exists_ : bool then to_path else dirname to_path) (tr f) script in
    if bool_decide (real_to_path = []) then Ok (false, f, script, io)
    else
      let '(real_from_path, script) := make_absolute_filepath from_path (tr f) script in
      if bool_decide (real_from_path = []) then Ok (false, f, script, io)
      else
        inside ← (if bool_decide (real_to_path = real_from_path) then Ok true else is_parent real_to_path real_from_path);
        if inside : bool then Ok (false, f, script, io)
        else
          let traverse_type := Z.lor (Z.lor FILES SHOW_SYM_LINKS) (if recursive then DIRECTORIES else 0) in
          '(traversal, script) ← make_enumerator from_path recursive traverse_type [] MATCH_ONLY (tr f) script;
          match attempt (sys_stat true from_path (tr f)) script with
          | (inl _, script) => Ok (false, f, script, io)
          | (inr from_stat, script) =>
              let '(into, script) := if recursive then directory_exists to_path (tr f) script else (false, script) in
              let from_path_base := if into : bool then dirname from_path else from_path in
              check (recursive || S_ISDIR (st_mode from_stat)) "do_copy_directory: recursive";;
              copy_loop (enough (tr f)) open_exclusive from_path_base to_path traversal from_path from_stat f script io
          end.

Definition copy_directory (from_path to_path : bytes) (recursive : bool) := do_copy_directory from_path to_path recursive false.
Definition copy_directory_excl (from_path to_path : bytes) (recursive : bool) := do_copy_directory from_path to_path recursive true.

(** The bytes of the files that are left. *)
Definition prune (t : tree) (f : fs) : fs := mkFs t (filter (fun x => is_Some (nodes t !! x.1)) (data f)).

Definition move_unsafe (from_path to_path : bytes) (f : fs) (script : list (option Z)) (io : list wish) : outcome (bool * fs * list (option Z) * list wish) :=
  let '(compatible, script) :=
    match attempt (sys_stat true to_path (tr f)) script with
    | (inl _, script) => (true, script)
    | (inr to_file_info, script) =>
        match attempt (sys_stat true from_path (tr f)) script with
        | (inl _, script) => (false, script)
        | (inr from_file_info, script) => (Bool.eqb (S_ISDIR (st_mode to_file_info)) (S_ISDIR (st_mode from_file_info)), script)
        end
    end in
  if negb compatible then Ok (false, f, script, io)
  else
    match attempt (sys_rename from_path to_path f) script with
    | (inr f, script) => Ok (true, f, script, io)
    | (inl _, script) =>
        '(ok, f, script, io) ← copy_directory from_path to_path true f script io;
        if negb ok then Ok (false, f, script, io)
        else
          '(_, t, script) ← delete_file order fnmatch from_path true (tr f) script;
          Ok (true, prune t f, script, io)
    end.

Definition move_file (from_path to_path : bytes) (f : fs) (script : list (option Z)) (io : list wish) : outcome (bool * fs * list (option Z) * list wish) :=
  up1 ← references_parent from_path;
  up2 ← references_parent to_path;
  if up1 || up2 then Ok (false, f, script, io) else move_unsafe from_path to_path f script io.
End copying_trees.

(** [error] says whether the caller wants the error. *)
Definition replace_file (from_path to_path : bytes) (error : bool) (f : fs) (script : list (option Z)) : outcome (bool * option Error * fs * list (option Z)) :=
  match attempt (sys_rename from_path to_path f) script with
  | (inr f, script) => Ok (true, None, f, script)
  | (inl e, script) => err ← (if error then err ← os_error_to_file_error e; Ok (Some err) else Ok None); Ok (false, err, f, script)
  end.

Definition FILE_PERMISSION_MASK : Z := 511.

Definition get_posix_file_permissions (path : bytes) (t : tree) (script : list (option Z)) : option Z * list (option Z) :=
  match attempt (sys_stat true path t) script with
  | (inl _, script) => (None, script)
  | (inr file_info, script) => (Some (Z.land (st_mode file_info) FILE_PERMISSION_MASK), script)
  end.

Definition set_posix_file_permissions (path : bytes) (mode : Z) (t : tree) (script : list (option Z)) : outcome (bool * tree * list (option Z)) :=
  check (Z.land mode (Z.lnot FILE_PERMISSION_MASK) =? 0) "set_posix_file_permissions: mode";;
  match attempt (sys_stat true path t) script with
  | (inl _, script) => Ok (false, t, script)
  | (inr stat_buf, script) =>
      let updated_mode_bits := Z.lor (Z.land (st_mode stat_buf) (Z.lnot FILE_PERMISSION_MASK)) (Z.land mode FILE_PERMISSION_MASK) in
      match attempt_eintr 100 (sys_chmod path updated_mode_bits t) script with
      | (inl _, script) => Ok (false, t, script)
      | (inr t, script) => Ok (true, t, script)
      end
  end.

Definition create_symbolic_link (target_path symlink_path : bytes) (t : tree) (script : list (option Z)) : outcome (bool * tree * list (option Z)) :=
  check (negb (bool_decide (symlink_path = []))) "create_symbolic_link: symlink_path";;
  check (negb (bool_decide (target_path = []))) "create_symbolic_link: target_path";;
  match attempt (sys_symlink target_path symlink_path t) script with
  | (inl _, script) => Ok (false, t, script)
  | (inr t, script) => Ok (true, t, script)
  end.

(** The result, and [target_path] afterwards. *)
Definition read_symbolic_link (symlink_path : bytes) (t : tree) (script : list (option Z)) : outcome (bool * bytes * list (option Z)) :=
  check (negb (bool_decide (symlink_path = []))) "read_symbolic_link: symlink_path";;
  match attempt (sys_readlink symlink_path PATH_MAX t) script with
  | (inl _, script) => Ok (false, [], script)
  | (inr buf, script) => if zlen buf <=? 0 then Ok (false, [], script) else Ok (true, make_file_path buf, script)
  end.

Definition is_link (file_path : bytes) (t : tree) (script : list (option Z)) : bool * list (option Z) :=
  match attempt (sys_stat false file_path t) script with
  | (inl _, script) => (false, script)
  | (inr st, script) => (S_ISLNK (st_mode st), script)
  end.

(** ** Lemmas *)

(** *** The bytes of one file *)

Lemma two_files_ok D : fs_ok (two_files D).
Proof.
  assert (Hn : forall p i, File.names (two_files D) !! p = Some i -> (p = txt "in" /\ i = 0%nat) \/ (p = txt "out" /\ i = 1%nat)).
  { intros p i. cbn [two_files File.names list_to_map foldr curry]. rewrite !lookup_insert_Some. intros [[<- <-]|[_ [[<- <-]|[_ H]]]]; [by left|by right|]. by rewrite lookup_empty in H. }
  split; cbn [two_files inodes descriptions descriptors length].
  - intros p i H. apply Hn in H as [[_ ->]|[_ ->]]; lia.
  - intros p q i H1 H2. apply Hn in H1 as [[-> ->]|[-> ->]]; apply Hn in H2 as [[-> ?]|[-> ?]]; done.
  - intros [|[|j]] d Hj; cbn in Hj; [injection Hj as <-; cbn; lia..|done].
  - intros [|[|n]] j Hj; cbn in Hj; [injection Hj as <-; lia..|done].
Qed.

Lemma copy_bytes_ok D io : smooth 100 io -> exists io', copy_bytes D io = Ok (true, D, io') /\ smooth 100 io'.
Proof.
  intros Hs. unfold copy_bytes. set (k := two_files D).
  destruct (copy_file_contents_ok (txt "in") (txt "out") (mkFile 0 FILE_OK false) (mkFile 1 FILE_OK false) D (Z.lor O_RDONLY O_NDELAY) O_WRONLY k) with (fuel := S (length D)) (a := 0) (k := k) (script := io)
    as (k' & io' & -> & Hk & Hs'); [done|done|done|done|done|done| |pose proof (zlen_nonneg D); lia|unfold zlen; lia|done|].
  - split; [apply two_files_ok|by exists 0%nat, 0%nat|by exists 1%nat, 1%nat| |done]. intros q. rewrite ztake_0. by destruct (decide (q = txt "out")) as [->|].
  - cbn [mbind outcome_bind]. exists io'. split; [|done]. pose proof (cp_contents _ _ _ _ _ _ _ _ _ _ _ Hk (txt "out")) as Hc. rewrite decide_True, (ztake_ge (zlen D) D) in Hc by (done || lia). by rewrite Hc.
Qed.

(** *** Real paths *)

Lemma spelled_parts q : Forall name_ok q -> segments (spelled q) = q /\ leading (spelled q) = 1%nat /\ nul_free (spelled q).
Proof.
  intros Hq. destruct q as [|c q]; [split_and!; [done|done|apply (bool_decide_unpack (_ ∉ _)); vm_compute; exact I]|]. cbn [spelled].
  assert (Hs : forall l, Forall name_ok l -> segments (concat ((fun c => sep :: c) <$> l)) = l /\ nul_free (concat ((fun c => sep :: c) <$> l))).
  { induction 1 as [|x l ((_ & Hx) & Hseg & _) Hl (IH & IHn)]; [split; [done|apply not_elem_of_nil]|]. cbn [fmap list_fmap concat]. split.
    - change ((sep :: x) ++ concat ((fun c => sep :: c) <$> l)) with (seps 1 ++ x ++ concat ((fun c => sep :: c) <$> l)). rewrite segments_lead. destruct l as [|y l]; [cbn; rewrite app_nil_r; by apply segments_one|].
      cbn [fmap list_fmap concat app] in IH |- *. rewrite segments_app_sep, (segments_one x) by done. f_equal. change (segments (seps 1 ++ (y ++ concat ((fun c => sep :: c) <$> l))) = y :: l) in IH. by rewrite segments_lead in IH.
    - unfold nul_free in *. rewrite not_elem_of_app, not_elem_of_cons. by split_and!. }
  destruct (Hs (c :: q) Hq) as [H1 H2]. split_and!; [done| |done]. apply Forall_cons in Hq as [(_ & Hseg & _) _]. cbn [fmap list_fmap concat]. change ((sep :: c) ++ ?x) with (seps 1 ++ c ++ x).
  by rewrite leading_seps, leading_segment.
Qed.

Lemma spelled_ok q : Forall name_ok q -> zlen (spelled q) < PATH_MAX -> path_ok (spelled q) /\ components (spelled q) = [sep] :: q /\ spelled q <> [].
Proof.
  intros Hq Hl. destruct (spelled_parts q Hq) as (H1 & H2 & H3). split_and!.
  - split; [unfold valid, PATH_MAX in *; lia|done].
  - unfold components. rewrite H2, H1. by destruct q.
  - by destruct q.
Qed.

(** The directory of a real path is below another exactly if the names say so. *)
Lemma is_parent_spelled q d : Forall name_ok q -> Forall name_ok d -> zlen (spelled q) < PATH_MAX -> zlen (spelled d) < PATH_MAX ->
  (if bool_decide (spelled d = spelled q) then Ok true else is_parent (spelled d) (spelled q)) = Ok (bool_decide (q `prefix_of` d)).
Proof.
  intros Hq Hd Lq Ld. destruct (spelled_ok q Hq Lq) as (Q1 & Q2 & _), (spelled_ok d Hd Ld) as (D1 & D2 & _). case_bool_decide as E.
  - rewrite bool_decide_true; [done|]. assert (q = d) as ->; [|done]. rewrite E, Q2 in D2. congruence.
  - unfold is_parent. case_bool_decide as Hp.
    + destruct Hp as [r ->]. rewrite (relative_yes (spelled q) _ None r); [done|done|done|by rewrite Q2| |by rewrite D2, Q2]. intros ->. by rewrite app_nil_r in E.
    + rewrite relative_no; [done|done|done|]. intros (r & _ & _ & Er). rewrite D2, Q2 in Er. injection Er as ->. apply Hp. by exists r.
Qed.

Lemma make_absolute_ok t s q n script :
  tree_ok t -> resolve t true s = inr q -> nodes t !! q = Some n -> zlen (spelled q) < PATH_MAX -> Forall (eq None) script ->
  exists script', make_absolute_filepath s t script = (spelled q, script') /\ Forall (eq None) script'.
Proof.
  intros Ht Hr Hn Hl Hs. unfold make_absolute_filepath, sys_realpath. rewrite Hr. unfold node_at. rewrite Hn, (proj2 (Z.leb_gt _ _)) by done.
  destruct (attempt_smooth (inr (spelled q) : Z + bytes) script Hs) as (s' & -> & Hs'). exists s'. split; [|done].
  destruct (spelled_ok q) as ((H1 & H2) & _ & _); [by apply (tk_names t Ht q n)|done|]. by rewrite make_file_path_id.
Qed.

(** The directory of a path to a name in it. *)
Lemma resolve_dirname t s l f :
  tree_ok t -> path_ok s -> segments s = l ++ [f] -> Forall name_ok (segments s) -> at_dir t (start t s ++ l) -> resolve t true (dirname s) = inr (start t s ++ l).
Proof.
  intros Ht Hok Es Hnm Hd. destruct (path_shape s) as [n E|g j Hg E|n g j Hn Hg E|h c i g j Hc Hg E].
  - rewrite E, segments_seps in Es. by destruct l.
  - assert (Eg : segments s = [g]) by (rewrite E, segments_trail; by apply segments_one). rewrite Eg in Es. destruct l as [|x l]; [|by destruct l]. rewrite app_nil_r in *.
    assert (Ed : dirname s = kCurrentDirectory) by (rewrite E; by apply dirname_bare; [rewrite <- E|]). rewrite Ed.
    assert (Ea : start t s = cwd t) by (unfold start; by rewrite E, absolute_leading, leading_segment). rewrite Ea in *. destruct Hd as (m & Hm & Hmd).
    unfold resolve. rewrite bool_decide_false by done. change (path_parts kCurrentDirectory) with [kCurrentDirectory]. change (start t kCurrentDirectory) with (cwd t).
    cbn [walk MAXSYMLINKS]. rewrite Hm, Hmd. cbn [negb]. by rewrite bool_decide_true.
  - assert (Eg : segments s = [g]) by (rewrite E, segments_lead, segments_trail; by apply segments_one). rewrite Eg in Es. destruct l as [|x l]; [|by destruct l]. rewrite app_nil_r in *.
    assert (Ed : dirname s = root_before n) by (rewrite E; by apply dirname_root; [|rewrite <- E|]). rewrite Ed.
    assert (Ea : start t s = []) by (unfold start; rewrite E, absolute_leading, leading_seps; by destruct n; [lia|]). rewrite Ea in *. destruct Hd as (m & Hm & Hmd).
    assert (exists k, root_before n = seps (S k)) as [k ->] by (unfold root_before; destruct n as [|[|[|[|n]]]]; [lia|by eexists..]).
    unfold resolve. rewrite bool_decide_false by done. assert (Ep : path_parts (seps (S k)) = [kCurrentDirectory]) by (unfold path_parts; by rewrite segments_seps, seps_end, ends_sep_end).
    assert (Eb : start t (seps (S k)) = []) by (unfold start; rewrite absolute_leading, <- (app_nil_r (seps (S k))), leading_seps; done). rewrite Ep, Eb.
    cbn [walk MAXSYMLINKS]. rewrite Hm, Hmd. cbn [negb]. by rewrite bool_decide_true.
  - assert (Eg : segments s = segments (h ++ [c]) ++ [g]) by (rewrite E, segments_join, segments_trail; by rewrite (segments_one g)). rewrite Eg in Es. apply app_inj_tail in Es as [<- ->].
    assert (Ed : dirname s = h ++ [c]) by (rewrite E; by apply dirname_sub; [|rewrite <- E|]). rewrite Ed. rewrite Eg in Hnm. apply Forall_app in Hnm as [Hnm _].
    assert (Ea : start t s = start t (h ++ [c])) by (unfold start; by rewrite E, !absolute_leading, (leading_app _ _ c Hc (last_in h c))). rewrite Ea in *. destruct Hd as (m & Hm & Hmd).
    apply (resolve_names t true (h ++ [c]) _ m Ht); [|done|by left]. apply names_of; [|by destruct h|done]. rewrite E in Hok. by apply path_ok_app in Hok as [? _].
Qed.

Lemma resolve_missing t s l f :
  tree_ok t -> s <> [] -> segments s = l ++ [f] -> Forall name_ok (segments s) -> at_dir t (start t s ++ l) -> nodes t !! (start t s ++ l ++ [f]) = None -> forall follow, resolve t follow s = inl ENOENT.
Proof.
  intros Ht Hs Es Hnm Hd Hn follow. rewrite Es in Hnm. unfold resolve. rewrite bool_decide_false by done. unfold path_parts. rewrite Es, <- app_assoc. cbn [app]. by rewrite walk_missing.
Qed.

(** *** New entries *)

(** A path that spells names only. *)
Definition spelling (t : tree) (s : bytes) (q : list bytes) : Prop :=
  path_ok s /\ segments s <> [] /\ Forall name_ok (segments s) /\ start t s ++ segments s = q.

Lemma spelling_some t s q : spelling t s q -> s <> [].
Proof. by intros (_ & H & _) ->. Qed.

Lemma spelling_names t s q : spelling t s q -> names t s q.
Proof. intros H. pose proof (spelling_some t s q H). destruct H as (H1 & H2 & H3 & <-). by apply names_of. Qed.

Lemma spelling_last t s p x : spelling t s (p ++ [x]) -> exists l, segments s = l ++ [x] /\ start t s ++ l = p /\ Forall name_ok (segments s).
Proof.
  intros (H1 & H2 & H3 & H4). destruct (segments s) as [|y l _] eqn:E using rev_ind; [done|]. rewrite app_assoc in H4. apply app_inj_tail in H4 as [<- <-]. by exists l.
Qed.

Lemma spelling_cwd t t' s q : cwd t = cwd t' -> spelling t s q -> spelling t' s q.
Proof. intros E (H1 & H2 & H3 & H4). split_and!; [done..|]. unfold start in *. by rewrite <- E. Qed.

Lemma append_spelling t s q c :
  spelling t s q -> name_ok c -> zlen s + zlen c + 1 < 2 ^ 62 ->
  exists s', append c s = Ok s' /\ spelling t s' (q ++ [c]) /\ ends_sep s' = false /\ zlen s' <= zlen s + zlen c + 1.
Proof.
  intros Hs Hc Hl. destruct (append_name t s q c (spelling_names t s q Hs) Hc ltac:(lia)) as (s' & E & Hn & He & _ & Hl' & Es). exists s'. split_and!; [done| |done|done].
  destruct Hs as (H1 & H2 & H3 & H4). assert (Hf : Forall name_ok (segments s')) by (rewrite Es; apply Forall_app; split; [done|by constructor]).
  split_and!; [apply (nm_ok _ _ _ Hn)|rewrite Es; by destruct (segments s)|done|]. by rewrite (nm_path _ _ _ Hn), plain_names.
Qed.

Lemma append_all_spelling t s q r :
  spelling t s q -> Forall name_ok r -> zlen s + room r < 2 ^ 62 ->
  exists s', append_all r s = Ok s' /\ spelling t s' (q ++ r) /\ (r <> [] \/ ends_sep s = false -> ends_sep s' = false).
Proof.
  revert s q. induction r as [|c r IH]; intros s q Hs Hr Hl; cbn [append_all room] in *; [exists s; rewrite app_nil_r; split_and!; [done|done|by intros [?|?]]|].
  apply Forall_cons in Hr as [Hc Hr]. pose proof (room_nonneg r). destruct (append_spelling t s q c Hs Hc ltac:(lia)) as (s1 & -> & H1 & He & Hl1). cbn [mbind outcome_bind].
  destruct (IH s1 (q ++ [c]) H1 Hr ltac:(lia)) as (s' & -> & H2 & H3). exists s'. rewrite <- app_assoc in H2. split_and!; [done|done|]. intros _. apply H3. by right.
Qed.

(** The parent of a new entry is found. *)
Lemma walk_parent t s l x :
  tree_ok t -> Forall name_ok (l ++ [x]) -> at_dir t (start t s ++ l) -> exists m, node_at t (walk MAXSYMLINKS t true (start t s) l) = inr (start t s ++ l, m) /\ is_dir m = true.
Proof.
  intros Ht Hnm (m & Hm & Hd). apply Forall_app in Hnm as [Hl _]. exists m. rewrite (walk_reaches t _ _ _ _ m); [|done| |by rewrite plain_names|by left].
  - rewrite plain_names by done. unfold node_at. by rewrite Hm.
  - intros Hin. rewrite Forall_forall in Hl. by destruct (Hl _ Hin) as (_ & _ & _ & ?).
Qed.

Lemma mkdir_new t s p x mode :
  tree_ok t -> spelling t s (p ++ [x]) -> at_dir t p -> nodes t !! (p ++ [x]) = None -> sys_mkdir s mode t = inr (set_nodes (<[p ++ [x] := new_directory mode t]> (nodes t)) t).
Proof.
  intros Ht Hs Hd Hn. pose proof (spelling_some _ _ _ Hs) as Hne. destruct (spelling_last _ _ _ _ Hs) as (l & Es & <- & Hf). rewrite Es in Hf. unfold sys_mkdir.
  rewrite bool_decide_false by done. rewrite Es, last_snoc, removelast_last. destruct (walk_parent t s l x Ht Hf Hd) as (m & -> & Hm). rewrite Hm. cbn [negb].
  apply Forall_app in Hf as [_ Hf]. apply Forall_cons in Hf as [(_ & _ & H1 & H2) _]. rewrite bool_decide_false by tauto. by rewrite Hn.
Qed.

Lemma creat_new f s p x excl mode :
  tree_ok (tr f) -> spelling (tr f) s (p ++ [x]) -> ends_sep s = false -> at_dir (tr f) p -> nodes (tr f) !! (p ++ [x]) = None ->
  sys_open_write excl s mode f = inr (p ++ [x], mkFs (set_nodes (<[p ++ [x] := new_file mode (tr f)]> (nodes (tr f))) (tr f)) (<[p ++ [x] := []]> (data f))).
Proof.
  intros Ht Hs He Hd Hn. pose proof (spelling_some _ _ _ Hs) as Hne. destruct (spelling_last _ _ _ _ Hs) as (l & Es & <- & Hf). rewrite Es in Hf. unfold sys_open_write.
  rewrite bool_decide_false by done. unfold path_parts. rewrite He, app_nil_r, Es. cbn [creat MAXSYMLINKS]. rewrite last_snoc, removelast_last.
  destruct (walk_parent (tr f) s l x Ht Hf Hd) as (m & -> & Hm). rewrite Hm. cbn [negb].
  apply Forall_app in Hf as [_ Hf]. apply Forall_cons in Hf as [(_ & _ & H1 & H2) _]. rewrite bool_decide_false by tauto. by rewrite Hn.
Qed.

Lemma tree_ok_insert t p x n :
  tree_ok t -> at_dir t p -> nodes t !! (p ++ [x]) = None -> Forall name_ok (p ++ [x]) -> room (p ++ [x]) < 2 ^ 62 -> Z.of_nat (size (nodes t)) + 1 < 2 ^ 62 ->
  tree_ok (set_nodes (<[p ++ [x] := n]> (nodes t)) t).
Proof.
  intros [G1 G2 G3] Hp Hn Hnm Hroom Hsize. constructor; cbn [set_nodes nodes].
  - intros p' y m [[E _]|[Hne Hn']]%lookup_insert_Some.
    + apply app_inj_tail in E as [<- _]. destruct Hp as (k & Hk & Hd). exists k. split; [|done]. apply lookup_insert_Some. right. split; [congruence|done].
    + destruct (G1 p' y m Hn') as (k & Hk & Hd). exists k. split; [|done]. apply lookup_insert_Some. right. split; [congruence|done].
  - intros p' m [[<- _]|[_ Hn']]%lookup_insert_Some; [done|by apply (G2 p' m)].
  - rewrite map_size_insert_None by done. lia.
Qed.

(** The kinds of what is created. *)
Lemma kind_new bits mode mask : Z.land bits S_IFMT = bits -> Z.land mode S_IFMT = 0 -> Z.land (Z.lor bits (Z.land mode mask)) S_IFMT = bits.
Proof. intros H1 H2. rewrite Z.land_lor_distr_l, H1, <- Z.land_assoc, (Z.land_comm mask), Z.land_assoc, H2, Z.land_0_l. apply Z.lor_0_r. Qed.

Lemma new_directory_is_dir mode t : is_dir (new_directory (Z.lor (Z.land mode 1023) 448) t) = true.
Proof.
  unfold is_dir, S_ISDIR, new_directory. cbn [n_stat st_mode]. apply Z.eqb_eq, kind_new; [done|].
  rewrite Z.land_lor_distr_l, <- Z.land_assoc. change (Z.land 1023 S_IFMT) with 0. by rewrite Z.land_0_r.
Qed.

Lemma new_file_is_reg t : is_reg (new_file 384 t) = true /\ is_dir (new_file 384 t) = false.
Proof.
  unfold is_reg, is_dir, S_ISREG, S_ISDIR, new_file. cbn [n_stat st_mode]. by rewrite (kind_new S_IFREG 384).
Qed.

Lemma reg_not_dir n : is_reg n = true -> is_dir n = false /\ is_lnk n = false.
Proof. unfold is_reg, is_dir, is_lnk, S_ISREG, S_ISDIR, S_ISLNK. by intros ->%Z.eqb_eq. Qed.

Lemma components_some t s q : names t s q -> components s <> [].
Proof.
  intros [H1 H2 [_ H3] _]. unfold components. destruct (leading s) as [|k] eqn:El; [|by destruct (segments s)].
  destruct s as [|x s]; [done|]. destruct (is_separator x) eqn:Ex; [cbn [leading] in El; by rewrite Ex in El|].
  assert (segments (x :: s) <> []) by (apply (segments_nonempty _ x); [intros ->; by rewrite (proj2 (is_separator_iff sep)) in Ex|left]).
  destruct (segments (x :: s)) as [|y [|z l]]; [done| |by destruct (bool_decide _)]. rewrite bool_decide_false; [done|]. intros [-> _]. by apply H3.
Qed.

(** *** The loop *)

(** What has become of the file at [q], at [p]. *)
Definition arrived (F f : fs) (q p : list bytes) : Prop :=
  match nodes (tr F) !! q with
  | None => nodes (tr f) !! p = None
  | Some n =>
      if is_dir n then at_dir (tr f) p
      else if is_reg n then (exists n', nodes (tr f) !! p = Some n' /\ is_reg n' = true) /\ data f !! p = Some (default [] (data F !! q))
      else nodes (tr f) !! p = None
  end.

Section copy_correct.
Context (F : fs) (from to : bytes) (q0 d : list bytes) (c : bytes).
Hypothesis F_ok : tree_ok (tr F).
Hypothesis from_names : names (tr F) from q0.
Hypothesis from_dir : at_dir (tr F) q0.
Hypothesis to_spelling : spelling (tr F) to (d ++ [c]).
Hypothesis to_parent : at_dir (tr F) d.
Hypothesis to_new : nodes (tr F) !! (d ++ [c]) = None.
Hypothesis apart : ~ q0 `prefix_of` d.
Hypothesis room_left : forall p, is_Some (nodes (tr F) !! p) -> zlen to + room (d ++ [c]) + room p < 2 ^ 62.
Hypothesis size_left : 2 * Z.of_nat (size (nodes (tr F))) + 1 < 2 ^ 62.

Lemma disjoint p : q0 `prefix_of` p -> ~ (d ++ [c]) `prefix_of` p.
Proof.
  intros H1 H2. destruct (prefix_weak_total q0 (d ++ [c]) p H1 H2) as [[k E]|[k ->]].
  - destruct k as [|y k _] using rev_ind; [rewrite app_nil_r in E; rewrite E in to_new; destruct from_dir as (n & ? & _); congruence|].
    rewrite app_assoc in E. apply app_inj_tail in E as [-> _]. apply apart. by apply prefix_app_r.
  - destruct from_dir as (n & Hn & _). destruct k as [|y k]; [rewrite app_nil_r in Hn; congruence|].
    destruct (tree_above (tr F) (d ++ [c]) (y :: k) n F_ok Hn) as (m & ? & _); [done|congruence].
Qed.

(** The files of [done] have been copied. *)
Record copied (done : list (list bytes)) (f : fs) : Prop := {
  cd_ok : tree_ok (tr f);
  cd_cwd : cwd (tr f) = cwd (tr F);
  cd_size : (size (nodes (tr f)) <= size (nodes (tr F)) + length done)%nat;
  cd_out : forall p, ~ (d ++ [c]) `prefix_of` p -> nodes (tr f) !! p = nodes (tr F) !! p /\ data f !! p = data F !! p;
  cd_done : forall r, q0 ++ r ∈ done -> arrived F f (q0 ++ r) ((d ++ [c]) ++ r);
  cd_rest : forall r, q0 ++ r ∉ done -> nodes (tr f) !! ((d ++ [c]) ++ r) = None;
}.

Lemma copied_start : copied [] F.
Proof.
  split; [done|done|cbn; lia|done|by intros r ?%elem_of_nil|]. intros r _. destruct (nodes (tr F) !! ((d ++ [c]) ++ r)) as [n|] eqn:E; [|done].
  destruct r as [|y r]; [rewrite app_nil_r in E; congruence|]. destruct (tree_above (tr F) (d ++ [c]) (y :: r) n F_ok E) as (m & ? & _); [done|congruence].
Qed.

Lemma copied_below done f ret : copied done f -> below q0 (tr F) (tr f) ret.
Proof.
  intros C. pose proof (fun p H => proj1 (cd_out _ _ C p (disjoint p H))) as Hp.
  split; [apply C|apply C|..]; intros q n Hq; rewrite (Hp q Hq); done.
Qed.

(** Where the next file goes: into a directory that is there already. *)
Lemma copied_parent done f r :
  copied done f -> is_Some (nodes (tr F) !! (q0 ++ r)) -> (r = [] \/ exists r' x, r = r' ++ [x] /\ q0 ++ r' ∈ done) ->
  exists p x, (d ++ [c]) ++ r = p ++ [x] /\ at_dir (tr f) p.
Proof.
  intros C [n Hn] [->|(r' & x & -> & Hd)].
  - exists d, c. rewrite app_nil_r. split; [done|]. destruct to_parent as (m & Hm & Hmd). exists m. split; [|done]. rewrite (proj1 (cd_out _ _ C d ltac:(intros H; apply prefix_length in H; rewrite length_app in H; cbn in H; lia))). done.
  - exists ((d ++ [c]) ++ r'), x. rewrite app_assoc. split; [done|]. rewrite app_assoc in Hn. destruct (tk_up (tr F) F_ok _ _ _ Hn) as (m & Hm & Hmd).
    pose proof (cd_done _ _ C r' Hd) as A. unfold arrived in A. by rewrite Hm, Hmd in A.
Qed.

(** An entry is added, and nothing else changes. *)
Lemma copied_add done f r n' dat p x :
  copied done f -> q0 ++ r ∉ done -> is_Some (nodes (tr F) !! (q0 ++ r)) -> (d ++ [c]) ++ r = p ++ [x] -> at_dir (tr f) p -> (length done <= size (nodes (tr F)))%nat ->
  (forall q, q <> (d ++ [c]) ++ r -> dat !! q = data f !! q) ->
  let f' := mkFs (set_nodes (<[(d ++ [c]) ++ r := n']> (nodes (tr f))) (tr f)) dat in
  arrived F f' (q0 ++ r) ((d ++ [c]) ++ r) -> copied (done ++ [q0 ++ r]) f'.
Proof.
  intros C Hnew Hsome Ep Hp Hlen Hdat f' Ha. pose proof (cd_rest _ _ C r Hnew) as Hnone.
  assert (Hother : forall p', p' <> (d ++ [c]) ++ r -> nodes (tr f') !! p' = nodes (tr f) !! p' /\ data f' !! p' = data f !! p').
  { intros p' Hne. cbn. split; [by apply lookup_insert_ne|by apply Hdat]. }
  split.
  - unfold f'. cbn [tr]. rewrite Ep in Hnone |- *. apply tree_ok_insert; [apply C|done|done| | |pose proof (cd_size _ _ C); lia]; rewrite <- Ep.
    + destruct Hsome as [m Hm]. apply (tk_names (tr F) F_ok) in Hm as [Hm _]. apply Forall_app in Hm as [_ Hm]. apply Forall_app. split; [|done].
      destruct to_parent as (k & Hk & _). destruct (spelling_last _ _ _ _ to_spelling) as (l & El & _ & Hl). rewrite El in Hl. apply Forall_app in Hl as [_ Hl].
      apply Forall_app. split; [by apply (tk_names (tr F) F_ok d k)|done].
    + pose proof (room_left _ Hsome) as Hr. rewrite !room_app in *. pose proof (room_nonneg q0). pose proof (zlen_nonneg to). lia.
  - apply C.
  - unfold f'. cbn [tr set_nodes nodes]. rewrite map_size_insert_None by done. rewrite length_app. cbn. pose proof (cd_size _ _ C). lia.
  - intros p' Hp'. destruct (Hother p') as [-> ->]; [|by apply C]. intros ->. apply Hp'. by apply prefix_app_r.
  - intros r' Hr'. destruct (decide (r' = r)) as [->|Hne]; [done|]. apply elem_of_app in Hr' as [Hr'|Hr'%list_elem_of_singleton]; [|by apply app_inv_head in Hr'].
    pose proof (cd_done _ _ C r' Hr') as A. unfold arrived in *. destruct (Hother ((d ++ [c]) ++ r')) as [E1 E2]; [intros E; by apply app_inv_head in E|]. unfold at_dir. by rewrite E1, E2.
  - intros r' Hr'. apply not_elem_of_app in Hr' as [H1 H2]. destruct (Hother ((d ++ [c]) ++ r')) as [-> _]; [|by apply C]. intros E. apply app_inv_head in E as ->. apply H2. by apply list_elem_of_singleton.
Qed.

(** The path that [append_relative_path] gives for a file. *)
Lemma target_ok r s :
  names (tr F) s (q0 ++ r) -> components s = components from ++ r -> (r = [] -> s = from) -> is_Some (nodes (tr F) !! (q0 ++ r)) ->
  exists tgt, (if bool_decide (from <> s) then '(ok, target) ← append_relative_path s (Some to) from; Ok (if ok : bool then target else None) else Ok (Some to)) = Ok (Some tgt)
    /\ spelling (tr F) tgt ((d ++ [c]) ++ r) /\ (r <> [] -> ends_sep tgt = false).
Proof.
  intros Hs Hc Hr Hsome. case_bool_decide as Hne.
  - assert (Hr0 : r <> []) by (intros ->; by apply Hne; symmetry; apply Hr). destruct Hsome as [n Hn]. destruct (tk_names (tr F) F_ok _ _ Hn) as [Hnm _]. apply Forall_app in Hnm as [_ Hnm].
    rewrite (relative_yes from s (Some to) r); [|apply (nm_ok _ _ _ from_names)|apply (nm_ok _ _ _ Hs)|by apply (components_some (tr F) from q0)|done|done].
    pose proof (room_left _ (ex_intro _ n Hn)) as Hl. rewrite !room_app in Hl. pose proof (room_nonneg d). pose proof (room_nonneg [c]). pose proof (room_nonneg q0).
    destruct (append_all_spelling (tr F) to (d ++ [c]) r to_spelling Hnm ltac:(lia)) as (tgt & -> & T1 & T2). exists tgt. split_and!; [done|done|]. intros _. apply T2. by left.
  - assert (Es : s = from) by (destruct (decide (from = s)); [done|tauto]). exists to. split; [done|].
    assert (r = []) as ->; [|by rewrite app_nil_r]. rewrite Es in Hs. pose proof (nm_path _ _ _ Hs) as E. rewrite <- (nm_path _ _ _ from_names) in E. rewrite <- (app_nil_r q0) in E at 2. by apply app_inv_head in E.
Qed.

Lemma copied_skip done f r n :
  copied done f -> q0 ++ r ∉ done -> nodes (tr F) !! (q0 ++ r) = Some n -> is_dir n = false -> is_reg n = false -> copied (done ++ [q0 ++ r]) f.
Proof.
  intros [C1 C2 C3 C4 C5 C6] Hnew Hn Hd Hr. split; [done|done|rewrite length_app; cbn; lia|done| |].
  - intros r' [H|H%list_elem_of_singleton]%elem_of_app; [by apply C5|]. apply app_inv_head in H as ->. unfold arrived. rewrite Hn, Hd, Hr. by apply C6.
  - intros r' [H _]%not_elem_of_app. by apply C6.
Qed.

(** A regular file is opened, created and filled. *)
Lemma copy_regular_ok excl done f r s tgt n script io :
  copied done f -> q0 ++ r ∉ done -> (length done <= size (nodes (tr F)))%nat -> nodes (tr F) !! (q0 ++ r) = Some n -> is_reg n = true ->
  (r = [] \/ exists r' x, r = r' ++ [x] /\ q0 ++ r' ∈ done) ->
  names (tr F) s (q0 ++ r) -> ends_sep s = false -> spelling (tr F) tgt ((d ++ [c]) ++ r) -> ends_sep tgt = false -> Forall (eq None) script -> smooth 100 io ->
  exists f' script' io',
    match attempt (sys_open_read s (tr f)) script with
    | (inl _, script) => Ok (false, f, script, io)
    | (inr infile, script) =>
        match attempt (inr (stat_of (tr f) infile)) script with
        | (inl _, script) => Ok (false, f, script, io)
        | (inr stat_at_use, script) =>
            if negb (S_ISREG (st_mode stat_at_use)) then Ok (true, f, script, io)
            else
              match attempt (sys_open_write excl tgt 384 f) script with
              | (inl _, script) => Ok (false, f, script, io)
              | (inr (outfile, f), script) =>
                  '(ok, written, io) ← copy_bytes (default [] (data f !! infile)) io;
                  Ok (ok, put_data outfile written f, script, io)
              end
        end
    end = Ok (true, f', script', io') /\ copied (done ++ [q0 ++ r]) f' /\ Forall (eq None) script' /\ smooth 100 io'.
Proof.
  intros C Hnew Hlen Hn Hreg Hpar Hs He Ht Hte Hsc Hio. set (q := q0 ++ r) in *. set (p := (d ++ [c]) ++ r) in *.
  assert (Hq : ~ (d ++ [c]) `prefix_of` q) by (by apply disjoint, prefix_app_r). destruct (cd_out _ _ C q Hq) as [Eq Edata]. destruct (reg_not_dir n Hreg) as [Hdn Hln].
  assert (Hopen : sys_open_read s (tr f) = inr q).
  { unfold sys_open_read. rewrite (resolve_names (tr f) true s q n); [|apply C|eapply names_cwd; [symmetry; apply C|exact Hs]|by rewrite Eq|right; split; [done|by left]]. unfold node_at. by rewrite Eq, Hn. }
  rewrite Hopen. destruct (attempt_smooth (inr q : Z + list bytes) script Hsc) as (s1 & -> & Hs1).
  assert (Estat : stat_of (tr f) q = n_stat n) by (unfold stat_of; by rewrite Eq, Hn). rewrite Estat.
  destruct (attempt_smooth (inr (n_stat n) : Z + stat_t) s1 Hs1) as (s2 & -> & Hs2). change (S_ISREG (st_mode (n_stat n))) with (is_reg n). rewrite Hreg. cbn [negb].
  destruct (copied_parent done f r C ltac:(by exists n) Hpar) as (p' & x & Ep & Hp'). pose proof (cd_rest _ _ C r Hnew) as Hnone. fold p in Ep, Hnone.
  rewrite (creat_new f tgt p' x); [|apply C|rewrite <- Ep; eapply spelling_cwd; [symmetry; apply C|exact Ht]|done|done|by rewrite <- Ep]. rewrite <- Ep.
  match goal with |- context [attempt ?v s2] => destruct (attempt_smooth v s2 Hs2) as (s3 & -> & Hs3) end.
  assert (Hqp : p <> q) by (intros E; apply Hq; rewrite <- E; by apply prefix_app_r). cbn [data]. rewrite lookup_insert_ne by done. rewrite Edata.
  set (D := default [] (data F !! q)). destruct (copy_bytes_ok D io Hio) as (io' & -> & Hio'). cbn [mbind outcome_bind]. unfold put_data. cbn [tr data set_nodes nodes]. rewrite alter_insert_eq.
  eexists _, s3, io'. split; [reflexivity|]. split_and!; [|done|done].
  apply (copied_add done f r _ _ p' x C Hnew ltac:(by exists n) Ep Hp' Hlen).
  - intros p2 Hp2. fold p in Hp2. by rewrite !lookup_insert_ne by done.
  - fold p q. unfold arrived. rewrite Hn, Hdn, Hreg. cbn [tr data set_nodes nodes]. rewrite !lookup_insert_eq. split; [|done]. eexists. split; [reflexivity|]. apply new_file_is_reg.
Qed.

Lemma copy_one_ok excl done f r s n script io :
  copied done f -> q0 ++ r ∉ done -> (length done <= size (nodes (tr F)))%nat -> nodes (tr F) !! (q0 ++ r) = Some n ->
  (r = [] \/ exists r' x, r = r' ++ [x] /\ q0 ++ r' ∈ done) ->
  names (tr F) s (q0 ++ r) -> components s = components from ++ r -> (r = [] -> s = from) -> (r <> [] -> ends_sep s = false) -> Forall (eq None) script -> smooth 100 io ->
  exists f' script' io', copy_one excl from to s (n_stat n) f script io = Ok (true, f', script', io')
    /\ copied (done ++ [q0 ++ r]) f' /\ Forall (eq None) script' /\ smooth 100 io'.
Proof.
  intros C Hnew Hlen Hn Hpar Hs Hc Hr He Hsc Hio. unfold copy_one. destruct (target_ok r s Hs Hc Hr ltac:(by exists n)) as (tgt & -> & Ht & Hte). cbn [mbind outcome_bind].
  change (S_ISDIR (st_mode (n_stat n))) with (is_dir n). change (S_ISREG (st_mode (n_stat n))) with (is_reg n). destruct (is_dir n) eqn:Hd; [|destruct (is_reg n) eqn:Hreg; cbn [negb]].
  - destruct (copied_parent done f r C ltac:(by exists n) Hpar) as (p' & x & Ep & Hp'). pose proof (cd_rest _ _ C r Hnew) as Hnone.
    rewrite (mkdir_new (tr f) tgt p' x); [|apply C|rewrite <- Ep; eapply spelling_cwd; [symmetry; apply C|exact Ht]|done|by rewrite <- Ep]. rewrite <- Ep.
    match goal with |- context [attempt ?v script] => destruct (attempt_smooth v script Hsc) as (s1 & -> & Hs1) end.
    eexists _, s1, io. split; [reflexivity|]. split_and!; [|done|done]. apply (copied_add done f r _ _ p' x C Hnew ltac:(by exists n) Ep Hp' Hlen); [done|].
    unfold arrived. rewrite Hn, Hd. eexists. split; [cbn; apply lookup_insert_eq|apply new_directory_is_dir].
  - assert (Hr0 : r <> []) by (intros ->; rewrite app_nil_r in Hn; destruct from_dir as (m & ? & ?); congruence). apply (copy_regular_ok excl done f r s tgt n); auto.
  - exists f, script, io. split; [done|]. split_and!; [|done|done]. by eapply copied_skip.
Qed.

Context (order : tree -> list bytes -> list bytes -> list bytes) (fnmatch : bytes -> bytes -> bool).
Hypothesis order_perm : forall t d l, order t d l ≡ₚ l.
Hypothesis from_small : zlen from < 2 ^ 62.

Lemma copy_loop_ok fuel excl P ret rem pq trav done f script io r s n :
  view true (tr F) q0 from P ret rem pq (bump trav) (tr f) script -> copied done f -> q0 :: ret = done ++ [q0 ++ r] -> q0 ++ r ∉ done -> (length done <= size (nodes (tr F)))%nat ->
  nodes (tr F) !! (q0 ++ r) = Some n -> (r = [] \/ exists r' x, r = r' ++ [x] /\ q0 ++ r' ∈ done) ->
  names (tr F) s (q0 ++ r) -> components s = components from ++ r -> (r = [] -> s = from) -> (r <> [] -> ends_sep s = false) -> smooth 100 io -> (size (nodes (tr F)) - length ret < fuel)%nat ->
  exists f' script' io' P' ret', copy_loop order fnmatch fuel excl from to trav s (n_stat n) f script io = Ok (true, f', script', io')
    /\ copied (q0 :: ret') f' /\ trace true (tr F) q0 P' ret' [] [].
Proof.
  revert P ret rem pq trav done f script io r s n. induction fuel as [|fuel IH]; intros P ret rem pq trav done f script io r s n Hv C Edone Hnew Hlen Hn Hpar Hs Hc Hr He Hio Hf; [lia|]. cbn [copy_loop].
  destruct (copy_one_ok excl done f r s n script io C Hnew Hlen Hn Hpar Hs Hc Hr He) as (f1 & s1 & io1 & -> & C1 & Hs1 & Hio1); [by apply (vw_script _ _ _ _ _ _ _ _ _ _ _ Hv)|done|].
  cbn [mbind outcome_bind negb]. rewrite <- Edone in C1. assert (Hv1 : view true (tr F) q0 from P ret rem pq (bump trav) (tr f1) s1) by (eapply view_tree; [exact Hv|by eapply copied_below|done]).
  unfold advance_enumerator_with_stat. destruct (next_ok order fnmatch order_perm true (tr F) q0 from F_ok from_small P ret rem pq trav (tr f1) s1 Hv1) as (s' & e' & s2 & P' & -> & H). cbn [mbind outcome_bind].
  destruct H as [[-> Hv']|(q' & rem' & pq' & info & Hne & (Hn1 & Hn2 & r' & Hcomp & Hq') & He' & -> & [_ Hi2] & Hv')].
  { rewrite bool_decide_true by done. cbn [mbind outcome_bind]. exists f1, s2, io1, P', ret. split_and!; [done|done|apply (vw_trace _ _ _ _ _ _ _ _ _ _ _ Hv')]. }
  rewrite bool_decide_false by done. cbn [mbind outcome_bind]. rewrite <- (nm_path _ _ _ from_names) in Hq'. subst q'.
  destruct (delivered_new _ _ _ _ _ _ _ _ (vw_trace _ _ _ _ _ _ _ _ _ _ _ Hv')) as (Hlt & Hnr & [n' Hn'] & Hne0 & _ & d' & x & Ed & Hd').
  assert (Estat : stat_ info = n_stat n') by (rewrite (Hi2 eq_refl); unfold stat_of; by rewrite Hn'). rewrite Estat.
  assert (Hr0 : r' <> []) by (intros ->; by rewrite app_nil_r in Hne0).
  apply (IH P' (ret ++ [q0 ++ r']) rem' pq' e' (q0 :: ret) f1 s2 io1 r' s' n'); [done|done|done| |cbn; lia|done| |done|done|done|done|done|rewrite length_app; cbn; lia].
  - rewrite not_elem_of_cons. done.
  - right. destruct r' as [|y r' _] using rev_ind; [done|]. rewrite app_assoc in Ed. apply app_inj_tail in Ed as [Ed _]. exists r', y. split; [done|]. rewrite Ed, elem_of_cons. done.
Qed.

(** At the end everything has arrived. *)
Lemma copied_all P ret f : copied (q0 :: ret) f -> trace true (tr F) q0 P ret [] [] -> forall r, arrived F f (q0 ++ r) ((d ++ [c]) ++ r).
Proof.
  intros C Htr r. destruct (nodes (tr F) !! (q0 ++ r)) as [n|] eqn:E.
  - apply (cd_done _ _ C). destruct (decide (r = [])) as [->|Hr]; [rewrite app_nil_r; left|right]. apply (trace_complete (tr F) q0 P ret r F_ok Htr Hr). by exists n.
  - unfold arrived. rewrite E. apply (cd_rest _ _ C). rewrite not_elem_of_cons. split.
    + intros Eq. rewrite Eq in E. destruct from_dir as (m & ? & _). congruence.
    + intros Hin. destruct (tr_ret _ _ _ _ _ _ _ Htr (q0 ++ r)) as [[m ?] _]; [by rewrite app_nil_r|congruence].
Qed.
End copy_correct.

(** ** Theorems *)

(** C20. Copying a directory recursively to a path that is free, in an existing directory outside the source, succeeds where no
    call fails, whatever the order in which directories are read and however the reads and writes are split or interrupted:
    every directory below the source is a directory of the copy, every regular file has its bytes there, links and other special files are left
    out, nothing else appears in the copy, and nothing outside it changes, the source included.  If the destination is inside
    the source nothing is done and the result is [false]. *)
Theorem copy_directory_correct (order : tree -> list bytes -> list bytes -> list bytes) (fnmatch : bytes -> bytes -> bool)
    (F : fs) (from to : bytes) (q0 d : list bytes) (c : bytes) (open_exclusive : bool) (io : list wish) :
  (forall t d l, order t d l ≡ₚ l) -> tree_ok (tr F) ->
  names (tr F) from q0 -> at_dir (tr F) q0 -> spelling (tr F) to (d ++ [c]) -> at_dir (tr F) d -> nodes (tr F) !! (d ++ [c]) = None ->
  asterisk ∉ from -> asterisk ∉ to -> zlen from < PATH_MAX -> zlen (spelled q0) < PATH_MAX -> zlen (spelled d) < PATH_MAX ->
  (forall p, is_Some (nodes (tr F) !! p) -> zlen to + room (d ++ [c]) + room p < 2 ^ 62) -> 2 * Z.of_nat (size (nodes (tr F))) + 1 < 2 ^ 62 -> smooth 100 io ->
  exists ok f script io', do_copy_directory order fnmatch from to true open_exclusive F [] io = Ok (ok, f, script, io')
    /\ (ok = true <-> ~ q0 `prefix_of` d) /\ (ok = false -> f = F)
    /\ (forall p, ~ (d ++ [c]) `prefix_of` p -> nodes (tr f) !! p = nodes (tr F) !! p /\ data f !! p = data F !! p)
    /\ (ok = true -> forall r, arrived F f (q0 ++ r) ((d ++ [c]) ++ r)).
Proof.
  intros Ho HF Hfrom Hdir Hto Hpar Hnew Ha1 Ha2 Hl1 Hl2 Hl3 Hroom Hsize Hio.
  unfold do_copy_directory. rewrite !bool_decide_true by done. cbn [check mbind outcome_bind]. rewrite (proj2 (Z.leb_gt _ _)) by done.
  pose proof (spelling_some _ _ _ Hto) as Hne. destruct (spelling_last _ _ _ _ Hto) as (l & El & Es & Hnm). subst d. pose proof Hto as (Hok & _). pose proof Hdir as (n0 & Hn0 & Hd0). pose proof Hpar as (nd & Hnd & Hdd).
  assert (Hmiss : forall fl, resolve (tr F) fl to = inl ENOENT) by (eapply resolve_missing; [done|done|exact El|done|done|by rewrite app_assoc]).
  unfold path_exists, sys_access. rewrite Hmiss. cbn [node_at attempt].
  destruct (make_absolute_ok (tr F) (dirname to) (start (tr F) to ++ l) nd [] HF) as (s1 & -> & Hs1); [by eapply resolve_dirname|done|done|done|].
  destruct (spelled_ok _ (proj1 (tk_names _ HF _ _ Hnd)) Hl3) as (_ & _ & Hnb). rewrite bool_decide_false by done. clear Hnb.
  assert (Hres : resolve (tr F) true from = inr q0) by (eapply resolve_names; [done|done|exact Hn0|by left]).
  destruct (make_absolute_ok (tr F) from q0 n0 s1 HF Hres Hn0 Hl2 Hs1) as (s2 & -> & Hs2). destruct (spelled_ok _ (proj1 (tk_names _ HF _ _ Hn0)) Hl2) as (_ & _ & Hnb). rewrite bool_decide_false by done. clear Hnb.
  rewrite is_parent_spelled; [|by apply (tk_names _ HF _ _ Hn0)|by apply (tk_names _ HF _ _ Hnd)|done|done]. cbn [mbind outcome_bind]. case_bool_decide as Hin.
  { exists false, F, s2, io. split_and!; [done|by split|done|done|done]. }
  change (make_enumerator from true _ [] MATCH_ONLY (tr F) s2) with (Ok (full [] 0 from [from], s2)). cbn [mbind outcome_bind].
  unfold sys_stat at 1. rewrite Hres. unfold node_at. rewrite Hn0. destruct (attempt_smooth (inr (n_stat n0) : Z + stat_t) s2 Hs2) as (s3 & -> & Hs3).
  unfold directory_exists, sys_stat. rewrite Hmiss. cbn [node_at]. destruct (attempt_smooth (inl ENOENT : Z + stat_t) s3 Hs3) as (s4 & -> & Hs4). cbn [orb check mbind outcome_bind].
  assert (Hfs : zlen from < 2 ^ 62) by (unfold PATH_MAX in *; lia).
  destruct (copy_loop_ok F from to q0 (start (tr F) to ++ l) c HF Hfrom Hdir Hto Hpar Hnew Hin Hroom Hsize order fnmatch Ho Hfs (enough (tr F)) open_exclusive [] [] [] [q0] (full [] 0 from [from]) [] F s4 io [] from n0)
    as (f & s5 & io5 & P & ret & -> & C & Htr).
  - apply view_start; [done|done|by apply named_start|done].
  - by apply copied_start.
  - by rewrite app_nil_r.
  - apply not_elem_of_nil.
  - cbn. lia.
  - by rewrite app_nil_r.
  - by left.
  - by rewrite app_nil_r.
  - by rewrite app_nil_r.
  - done.
  - done.
  - done.
  - unfold enough. cbn. lia.
  - exists true, f, s5, io5. split_and!; [done|by split|done|apply C|]. intros _. by eapply copied_all.
Qed.

(** *** Permissions and links *)

Lemma land_mask_keeps mode : Z.land mode (Z.lnot FILE_PERMISSION_MASK) = 0 -> Z.land mode FILE_PERMISSION_MASK = mode.
Proof.
  intros H. transitivity (Z.lor (Z.land mode FILE_PERMISSION_MASK) (Z.land mode (Z.lnot FILE_PERMISSION_MASK))); [rewrite H; symmetry; apply Z.lor_0_r|].
  rewrite <- Z.land_lor_distr_r, Z.lor_lnot_diag. apply Z.land_m1_r.
Qed.

Lemma with_mode_bits m mode n :
  Z.land mode (Z.lnot FILE_PERMISSION_MASK) = 0 -> st_mode (n_stat n) = m ->
  let n' := with_mode (Z.lor (Z.land m (Z.lnot FILE_PERMISSION_MASK)) (Z.land mode FILE_PERMISSION_MASK)) n in
  Z.land (st_mode (n_stat n')) FILE_PERMISSION_MASK = mode /\ Z.land (st_mode (n_stat n')) S_IFMT = Z.land m S_IFMT.
Proof.
  intros Hm <-. cbn [with_mode n_stat st_mode]. set (m := st_mode (n_stat n)). split.
  - rewrite Z.land_lor_distr_l, <- !Z.land_assoc. change (Z.land S_IFMT FILE_PERMISSION_MASK) with 0. change (Z.land 4095 FILE_PERMISSION_MASK) with FILE_PERMISSION_MASK.
    rewrite Z.land_0_r, Z.lor_0_l, Z.land_lor_distr_l, <- !Z.land_assoc. change (Z.land (Z.lnot FILE_PERMISSION_MASK) FILE_PERMISSION_MASK) with 0.
    rewrite Z.land_0_r, Z.lor_0_l, Z.land_diag. by apply land_mask_keeps.
  - rewrite Z.land_lor_distr_l, <- !Z.land_assoc. change (Z.land 4095 S_IFMT) with 0. by rewrite Z.land_0_r, Z.lor_0_r, Z.land_diag.
Qed.

(** A file of the same kind takes the place of another. *)
Lemma tree_ok_alter t q g : tree_ok t -> (forall n, nodes t !! q = Some n -> is_dir (g n) = is_dir n) -> tree_ok (set_nodes (alter g q (nodes t)) t).
Proof.
  intros [G1 G2 G3] Hg. constructor; cbn [set_nodes nodes].
  - intros p x n Hn. assert (Hs : is_Some (nodes t !! (p ++ [x]))) by (apply (lookup_alter_is_Some g (nodes t) q); by exists n). destruct Hs as [n' Hn']. destruct (G1 p x n' Hn') as (m & Hm & Hd).
    destruct (decide (q = p)) as [->|Hne]; [exists (g m); rewrite lookup_alter_eq, Hm; split; [done|by rewrite Hg]|exists m; by rewrite lookup_alter_ne].
  - intros p n Hn. assert (Hs : is_Some (nodes t !! p)) by (apply (lookup_alter_is_Some g (nodes t) q); by exists n). destruct Hs as [n' Hn']. by apply (G2 p n').
  - by rewrite <- size_dom, dom_alter_L, size_dom.
Qed.

(** The permissions that are set are those that are read afterwards; the kind of the file and its other
    bits are kept, and so are all other files. *)
Theorem permissions_roundtrip (t : tree) (s : bytes) (q : list bytes) (n : node) (mode : Z) :
  tree_ok t -> names t s q -> nodes t !! q = Some n -> is_dir n = true \/ (ends_sep s = false /\ is_lnk n = false) -> Z.land mode (Z.lnot FILE_PERMISSION_MASK) = 0 ->
  exists t', set_posix_file_permissions s mode t [] = Ok (true, t', []) /\ get_posix_file_permissions s t' [] = (Some mode, [])
    /\ (forall p, p <> q -> nodes t' !! p = nodes t !! p) /\ is_dir n = match nodes t' !! q with Some n' => is_dir n' | None => false end.
Proof.
  intros Ht Hs Hn Hk Hm. assert (Hr : resolve t true s = inr q) by (eapply resolve_names; [done|done|exact Hn|destruct Hk as [?|[? ?]]; auto]).
  unfold set_posix_file_permissions, sys_stat, sys_chmod. rewrite (proj2 (Z.eqb_eq _ _) Hm), Hr. unfold node_at. rewrite Hn. cbn [check mbind outcome_bind attempt attempt_eintr].
  destruct (with_mode_bits (st_mode (n_stat n)) mode n Hm eq_refl) as [B1 B2]. cbv zeta in B1, B2. set (g := with_mode _) in *.
  assert (Hkind : is_dir (g n) = is_dir n /\ is_lnk (g n) = is_lnk n) by (unfold is_dir, is_lnk, S_ISDIR, S_ISLNK; by rewrite B2). destruct Hkind as [K1 K2].
  set (t' := set_nodes (alter g q (nodes t)) t). exists t'. assert (Hn' : nodes t' !! q = Some (g n)) by (cbn; by rewrite lookup_alter_eq, Hn).
  assert (Ht' : tree_ok t') by (apply tree_ok_alter; [done|intros m Hm'; congruence]).
  split_and!; [done| |intros p Hp; cbn; by rewrite lookup_alter_ne|by rewrite Hn', K1].
  unfold get_posix_file_permissions, sys_stat. rewrite (resolve_names t' true s q (g n) Ht'); [|by eapply names_cwd; [|exact Hs]|done|rewrite K1, K2; destruct Hk as [?|[? ?]]; auto].
  unfold node_at. rewrite Hn'. cbn [attempt]. by rewrite B1.
Qed.

(** A link that is created where nothing was is read back as it was given, and it is a link; where something is already
    nothing changes. *)
Theorem link_roundtrip (t : tree) (target s : bytes) (p : list bytes) (x : bytes) :
  tree_ok t -> spelling t s (p ++ [x]) -> ends_sep s = false -> at_dir t p -> path_ok target -> target <> [] -> zlen target <= PATH_MAX ->
  Forall name_ok (p ++ [x]) -> room (p ++ [x]) < 2 ^ 62 -> Z.of_nat (size (nodes t)) + 1 < 2 ^ 62 ->
  match nodes t !! (p ++ [x]) with
  | Some _ => create_symbolic_link target s t [] = Ok (false, t, [])
  | None => exists t', create_symbolic_link target s t [] = Ok (true, t', []) /\ (forall q, q <> p ++ [x] -> nodes t' !! q = nodes t !! q)
      /\ read_symbolic_link s t' [] = Ok (true, target, []) /\ is_link s t' [] = (true, [])
  end.
Proof.
  intros Ht Hs He Hp Hta Hne Hlen Hnm Hroom Hsize. pose proof (spelling_some _ _ _ Hs) as Hse. destruct (spelling_last _ _ _ _ Hs) as (l & El & Ep & Hf). rewrite El in Hf.
  assert (Hcreate : create_symbolic_link target s t [] = match sys_symlink target s t with inl _ => Ok (false, t, []) | inr t => Ok (true, t, []) end).
  { unfold create_symbolic_link. rewrite !bool_decide_false by done. cbn [negb check mbind outcome_bind attempt]. by destruct (sys_symlink target s t). }
  assert (Hsym : sys_symlink target s t = match nodes t !! (p ++ [x]) with Some _ => inl EEXIST | None => inr (set_nodes (<[p ++ [x] := mkNode (mkStat (fresh_ino t) (Z.lor S_IFLNK 511) (euid t) (egid t) (zlen target)) target]> (nodes t)) t) end).
  { unfold sys_symlink, path_parts. rewrite He, app_nil_r, El, last_snoc, removelast_last. subst p. destruct (walk_parent t s l x Ht Hf Hp) as (m & -> & Hm). rewrite Hm. cbn [negb].
    apply Forall_app in Hf as [_ Hf]. apply Forall_cons in Hf as [(_ & _ & H1 & H2) _]. by rewrite bool_decide_false by tauto. }
  rewrite Hcreate, Hsym. destruct (nodes t !! (p ++ [x])) as [n|] eqn:En; [done|]. set (n := mkNode _ target). set (t' := set_nodes _ t). exists t'.
  assert (Ht' : tree_ok t') by (by apply tree_ok_insert). assert (Hn' : nodes t' !! (p ++ [x]) = Some n) by (cbn; apply lookup_insert_eq). assert (Hl : is_lnk n = true) by reflexivity.
  assert (Hr : resolve t' false s = inr (p ++ [x])) by (eapply resolve_names; [done|by eapply names_cwd; [|apply spelling_names]|exact Hn'|right; split; [done|by right]]).
  split_and!; [done|intros q Hq; cbn; by rewrite lookup_insert_ne| |].
  - unfold read_symbolic_link, sys_readlink. rewrite bool_decide_false by done. rewrite Hr. unfold node_at. rewrite Hn', Hl. cbn [negb check mbind outcome_bind attempt n n_target]. rewrite ztake_ge by done.
    pose proof (zlen_pos _ Hne). rewrite (proj2 (Z.leb_gt _ _)) by lia. by rewrite make_file_path_id by apply Hta.
  - unfold is_link, sys_stat. rewrite Hr. unfold node_at. by rewrite Hn'.
Qed.

(** ** Witnesses and examples *)

Definition some_fs : fs :=
  mkFs some_tree (list_to_map [([txt "d"; txt "x"], txt "0123456789"); ([txt "d"; txt "e"; txt "y"], txt "abcde"); ([txt "k"; txt "z"], txt "zzzzzzz")]).

(** Where a file is and what is in it. *)
Definition found (f : fs) (q : list bytes) : option (bool * option bytes) := (fun n => (is_dir n, data f !! q)) <$> nodes (tr f) !! q.

Lemma new_spelling : spelling some_tree (txt "/k/new") [txt "k"; txt "new"].
Proof.
  split_and!; [split; [vm_compute; reflexivity|apply (bool_decide_unpack (_ ∉ _)); vm_compute; exact I]|vm_compute; discriminate| |vm_compute; reflexivity].
  repeat constructor; (vm_compute; reflexivity) || discriminate || (apply (bool_decide_unpack (_ ∉ _)); vm_compute; exact I).
Qed.

Lemma copy_directory_correct_witness :
  (match copy_directory in_order no_pattern (txt "/d/") (txt "/k/new") true some_fs [] [Up 3; Fail EINTR; Up 2] with
   | Ok (ok, f, _, _) => Some (ok, found f [txt "k"; txt "new"; txt "x"], found f [txt "k"; txt "new"; txt "e"; txt "y"], found f [txt "k"; txt "new"; txt "l"])
   | Fault _ => None
   end = Some (true, Some (false, Some (txt "0123456789")), Some (false, Some (txt "abcde")), None)) /\
  exists f script io', do_copy_directory in_order no_pattern (txt "/d/") (txt "/k/new") true false some_fs [] [Up 3; Fail EINTR; Up 2] = Ok (true, f, script, io')
    /\ arrived some_fs f [txt "d"; txt "x"] [txt "k"; txt "new"; txt "x"].
Proof.
  split; [vm_compute; reflexivity|].
  destruct (copy_directory_correct in_order no_pattern some_fs (txt "/d/") (txt "/k/new") [txt "d"] [txt "k"] (txt "new") false [Up 3; Fail EINTR; Up 2])
    as (ok & f & s' & io' & E & H1 & _ & _ & H2).
  - intros t d l. reflexivity.
  - exact some_tree_ok.
  - exact names_d.
  - exists (a_dir 2). split; vm_compute; reflexivity.
  - exact new_spelling.
  - exists (a_dir 7). split; vm_compute; reflexivity.
  - vm_compute. reflexivity.
  - apply (bool_decide_unpack (_ ∉ _)). vm_compute. exact I.
  - apply (bool_decide_unpack (_ ∉ _)). vm_compute. exact I.
  - vm_compute. reflexivity.
  - vm_compute. reflexivity.
  - vm_compute. reflexivity.
  - intros p [n Hn]. apply elem_of_map_to_list, list_elem_of_In in Hn.
    assert (Hall : forallb (fun x => zlen (txt "/k/new") + room ([txt "k"] ++ [txt "new"]) + room x.1 <? 2 ^ 62) (map_to_list (nodes (tr some_fs))) = true) by (vm_compute; reflexivity).
    rewrite forallb_forall in Hall. apply Z.ltb_lt. exact (Hall _ Hn).
  - vm_compute. reflexivity.
  - vm_compute. tauto.
  - assert (Hok : ok = true). { apply H1. intros [k Hk]. vm_compute in Hk. discriminate Hk. }
    rewrite Hok in *. exists f, s', io'. split; [exact E|]. exact (H2 eq_refl [txt "x"]).
Defined.

(** A bare name has the directory ".", which has no components: copying it into an existing directory is refused. *)
Example copy_bare_name_into :
  (match copy_directory in_order no_pattern (txt "d") (txt "k") true some_fs [] [] with Ok (ok, _, _, _) => Some ok | Fault _ => None end,
   match copy_directory in_order no_pattern (txt "/d") (txt "/k") true some_fs [] [] with Ok (ok, f, _, _) => Some (ok, found f [txt "k"; txt "d"; txt "x"]) | Fault _ => None end)
  = (Some false, Some (true, Some (false, Some (txt "0123456789")))).
Proof. vm_compute. reflexivity. Qed.

(** Moving within a file system keeps links; where the move has to copy, here to another device, the links of the
    tree are gone afterwards and the result is [true]. *)
Example move_loses_links :
  (match move_file in_order no_pattern (txt "/d") (txt "/new") some_fs [] [] with
   | Ok (ok, f, _, _) => Some (ok, found f [txt "new"; txt "l"], found f [txt "d"; txt "l"]) | Fault _ => None end,
   match move_file in_order no_pattern (txt "/d") (txt "/new") some_fs [None; Some EXDEV] [] with
   | Ok (ok, f, _, _) => Some (ok, found f [txt "new"; txt "l"], found f [txt "d"; txt "l"], found f [txt "new"; txt "x"]) | Fault _ => None end)
  = (Some (true, Some (false, None), None), Some (true, None, None, Some (false, Some (txt "0123456789")))).
Proof. vm_compute. reflexivity. Qed.

(** The result of deleting the source is ignored: a move that leaves the source behind is reported as done. *)
Example move_leaves_source :
  match move_file in_order no_pattern (txt "/k/z") (txt "/z") some_fs ([None; Some EXDEV] ++ replicate 10 None ++ [Some EPERM]) [] with
  | Ok (ok, f, _, _) => Some (ok, found f [txt "k"; txt "z"], found f [txt "z"])
  | Fault _ => None
  end = Some (true, Some (false, Some (txt "zzzzzzz")), Some (false, Some (txt "zzzzzzz"))).
Proof. vm_compute. reflexivity. Qed.

(** Copying a file onto a link to it is refused, since the real paths are compared. *)
Example copy_onto_link :
  let f := mkFs (set_nodes (<[[txt "l"] := a_link 9 (txt "/k/z")]> (nodes some_tree)) some_tree) (data some_fs) in
  match copy_directory in_order no_pattern (txt "/k/z") (txt "/l") true f [] [] with Ok (ok, f, _, _) => Some (ok, found f [txt "k"; txt "z"]) | Fault _ => None end
  = Some (false, Some (false, Some (txt "zzzzzzz"))).
Proof. vm_compute. reflexivity. Qed.
