(* ===== verification/EndPoint.v ===== *)
(** * EndPoint (include/EndPoint.h, src/EndPoint.cc, and the functions on addresses of src/SocketsUtil.cc)

    Socket addresses.  An [EndPoint] is a union of [sockaddr_in] and [sockaddr_in6]: the 28 bytes of the larger one, of which the
    constructors fill in those of the smaller for IPv4 and leave the others as they were.  The text form of IPv4 addresses is modelled; the
    one of IPv6 addresses and the resolver are parameters.

    The file shows that an address and a port are read back as they were given, for both families and either byte order, that
    the buffers for the text are large enough, and what an invalid address becomes. *)

From stdpp Require Import pretty.
From S2P Require Import Prelude ByteOrder StringPiece LogStream.

(** ** Definitions *)

Definition AF_INET : Z := 2.
Definition AF_INET6 : Z := 10.
Definition INET_ADDRSTRLEN : Z := 16.
Definition INET6_ADDRSTRLEN : Z := 46.
Definition sizeof_sockaddr_in : Z := 16.
Definition sizeof_sockaddr_in6 : Z := 28.
Definition INADDR_ANY : Z := 0.
Definition INADDR_LOOPBACK : Z := 2130706433.
Definition in6addr_any : bytes := replicate 16 Byte.x00.
Definition in6addr_loopback : bytes := replicate 15 Byte.x00 ++ [Byte.x01].

(** inet_ntop(3) and inet_pton(3) for IPv4: four decimal numbers without leading zeros. *)
Definition octet (b : byte) : bytes := txt (pretty (Byte.to_N b)).
Definition inet_ntop4 (a : bytes) : bytes :=
  match a with
  | b :: a => octet b ++ concat ((fun b => [Byte.x2e] ++ octet b) <$> a)
  | [] => []
  end.

(** [tp] is the number being read, if it has begun, and [octets] are those before it. *)
Fixpoint pton4_loop (src : bytes) (tp : option Z) (octets : bytes) : option bytes :=
  match src with
  | [] => match tp with Some v => if zlen octets =? 3 then Some (octets ++ [z2b v]) else None | None => None end
  | ch :: src =>
      let d := b2z ch - 48 in
      if (0 <=? d) && (d <=? 9) then
        match tp with
        | None => if zlen octets <? 4 then pton4_loop src (Some d) octets else None
        | Some v => if (v =? 0) || (255 <? 10 * v + d) then None else pton4_loop src (Some (10 * v + d)) octets
        end
      else if bool_decide (ch = Byte.x2e) then
        match tp with
        | Some v => if zlen octets =? 3 then None else pton4_loop src None (octets ++ [z2b v])
        | None => None
        end
      else None
  end.
Definition inet_pton4 (src : bytes) : option bytes := pton4_loop src None [].

(** inet_ntop(3) and inet_pton(3) for IPv6. *)
Class Inet6 : Type := { inet_pton6 : bytes -> option bytes; inet_ntop6 : bytes -> bytes }.

Section endpoint.
Context `{Arch} `{Inet6}.

(** *** SocketsUtil.cc *)

(** The fields of the two structures; the first two are at the same place in both. *)
Definition sa_family (addr : bytes) : Z := mem_value (zslice 0 2 addr).
Definition sin_port (addr : bytes) : Z := mem_value (zslice 2 2 addr).
Definition sin_addr (addr : bytes) : bytes := zslice 4 4 addr.
Definition sin6_addr (addr : bytes) : bytes := zslice 8 16 addr.

Definition sockaddr_cast (addr : bytes) : bytes := addr.

(** The length that [bind] and [connect] pass to the kernel. *)
Definition addrlen_of (addr : bytes) : Z := if sa_family addr =? AF_INET6 then sizeof_sockaddr_in6 else sizeof_sockaddr_in.

(** The string in [dst], which has [size] characters; inet_ntop(3) fails when it does not fit. *)
Definition to_ip (addr : bytes) (size : Z) : outcome bytes :=
  if sa_family addr =? AF_INET then
    check (INET_ADDRSTRLEN <=? size) "to_ip: INET_ADDRSTRLEN";;
    let ip := inet_ntop4 (sin_addr addr) in
    check (zlen ip <? size) "to_ip: ptr";; Ok ip
  else if sa_family addr =? AF_INET6 then
    check (INET6_ADDRSTRLEN <=? size) "to_ip: INET6_ADDRSTRLEN";;
    let ip := inet_ntop6 (sin6_addr addr) in
    check (zlen ip <? size) "to_ip: ptr";; Ok ip
  else Fault (CheckFailed "to_ip: NOTREACHED").

(** snprintf(3) cuts what it prints at the size of the buffer. *)
Definition to_ip_port (addr : bytes) (size : Z) : outcome bytes :=
  dst ← to_ip addr size;
  port ← (if sa_family addr =? AF_INET then Ok (net_to_host16 (sin_port addr))
          else if sa_family addr =? AF_INET6 then Ok (net_to_host16 (sin_port addr))
          else Fault (CheckFailed "to_ip_port: NOTREACHED"));
  let end_ := zlen dst in
  check (end_ <? size) "to_ip_port: size > end";;
  Ok (dst ++ ztake (size - end_ - 1) (txt ":" ++ txt (pretty port))).

(** inet_pton(3) returns 1, or 0 for text that is not an address, and then writes nothing. *)
Definition from_ip_port4 (ip : bytes) (port : Z) (dst : bytes) : outcome bytes :=
  let dst := memwrite 0 (mem_image 2 AF_INET) dst in
  let dst := memwrite 2 (mem_image 2 (host_to_net16 port)) dst in
  let '(ret, dst) := match inet_pton4 (of_cstr ip) with Some a => (1, memwrite 4 a dst) | None => (0, dst) end in
  check (0 <=? ret) "from_ip_port: ret";; Ok dst.

Definition from_ip_port6 (ip : bytes) (port : Z) (dst : bytes) : outcome bytes :=
  let dst := memwrite 0 (mem_image 2 AF_INET6) dst in
  let dst := memwrite 2 (mem_image 2 (host_to_net16 port)) dst in
  let '(ret, dst) := match inet_pton6 (of_cstr ip) with Some a => (1, memwrite 8 a dst) | None => (0, dst) end in
  check (0 <=? ret) "from_ip_port: ret";; Ok dst.

(** From the addresses that the kernel reports for the socket. *)
Definition is_self_connect (localaddr peeraddr : bytes) : outcome bool :=
  if sa_family localaddr =? AF_INET then
    Ok ((sin_port localaddr =? sin_port peeraddr) && (mem_value (sin_addr localaddr) =? mem_value (sin_addr peeraddr)))
  else if sa_family localaddr =? AF_INET6 then
    Ok ((sin_port localaddr =? sin_port peeraddr) && bool_decide (sin6_addr localaddr = sin6_addr peeraddr))
  else Fault (CheckFailed "is_self_connect: NOTREACHED").

(** *** EndPoint *)

(** [memory] is what the object's memory holds before. *)
Definition make_endpoint (port : Z) (loopback_only ipv6 : bool) (memory : bytes) : bytes :=
  if ipv6 then
    let addr6 := memwrite 0 (replicate 28 Byte.x00) memory in
    let addr6 := memwrite 0 (mem_image 2 AF_INET6) addr6 in
    let addr6 := memwrite 8 (if loopback_only then in6addr_loopback else in6addr_any) addr6 in
    memwrite 2 (mem_image 2 (host_to_net16 port)) addr6
  else
    let addr := memwrite 0 (replicate 16 Byte.x00) memory in
    let addr := memwrite 0 (mem_image 2 AF_INET) addr in
    let ip := if loopback_only then INADDR_LOOPBACK else INADDR_ANY in
    let addr := memwrite 4 (mem_image 4 (host_to_net32 ip)) addr in
    memwrite 2 (mem_image 2 (host_to_net16 port)) addr.

Definition endpoint_of_ip (ip : StringPiece) (port : Z) (ipv6 : bool) (memory : bytes) : outcome bytes :=
  if ipv6 then from_ip_port6 ip port (memwrite 0 (replicate 28 Byte.x00) memory)
  else from_ip_port4 ip port (memwrite 0 (replicate 16 Byte.x00) memory).

Definition set_sockaddr_in (addr memory : bytes) : bytes := memwrite 0 addr memory.

Definition get_sockaddr (e : bytes) : bytes := sockaddr_cast e.
Definition endpoint_ip_port (e : bytes) : outcome bytes := to_ip_port (get_sockaddr e) 64.
Definition endpoint_ip (e : bytes) : outcome bytes := to_ip (get_sockaddr e) 64.
Definition to_port (e : bytes) : Z := net_to_host16 (sin_port e).
Definition family (e : bytes) : Z := sa_family e.

(** A result of getaddrinfo(3). *)
Record addrinfo : Type := mkInfo { ai_family : Z; ai_addr : bytes }.

(** [getaddrinfo] answers with an error or the list of addresses. *)
Definition resolve (getaddrinfo : bytes -> bytes -> Z + list addrinfo) (node service : StringPiece) (dst : bytes) : outcome (bool * bytes) :=
  match getaddrinfo (of_cstr node) (of_cstr service) with
  | inl _ => Ok (false, dst)
  | inr [] => Ok (true, dst)
  | inr (res :: _) =>
      if ai_family res =? AF_INET then Ok (true, memwrite 0 (ai_addr res) dst)
      else if ai_family res =? AF_INET6 then Ok (true, memwrite 0 (ai_addr res) dst)
      else Fault (CheckFailed "resolve: NOTREACHED")
  end.

End endpoint.

(** ** Lemmas *)

(** *** IPv4 addresses as text *)

Definition dig (d : Z) : byte := z2b (48 + d).
Definition digits3 (v : Z) : bytes :=
  if v <? 10 then [dig v] else if v <? 100 then [dig (v / 10); dig (v mod 10)] else [dig (v / 100); dig (v / 10 mod 10); dig (v mod 10)].

Lemma octet_digits b : octet b = digits3 (b2z b).
Proof. destruct b; vm_compute; reflexivity. Qed.

Lemma b2z_dig d : 0 <= d <= 9 -> b2z (dig d) - 48 = d.
Proof. intros H. unfold dig. rewrite b2z_z2b. rewrite Z.mod_small; lia. Qed.

Lemma pton4_first d src octets : 0 <= d <= 9 -> zlen octets < 4 -> pton4_loop (dig d :: src) None octets = pton4_loop src (Some d) octets.
Proof.
  intros Hd Ho. cbn [pton4_loop]. rewrite b2z_dig by done. rewrite (proj2 (Z.leb_le _ _)), (proj2 (Z.leb_le _ _)) by lia. cbn [andb]. by rewrite (proj2 (Z.ltb_lt _ 4) Ho).
Qed.

Lemma pton4_more d v src octets : 0 <= d <= 9 -> 0 < v -> 10 * v + d <= 255 -> pton4_loop (dig d :: src) (Some v) octets = pton4_loop src (Some (10 * v + d)) octets.
Proof.
  intros Hd Hv Hb. cbn [pton4_loop]. rewrite b2z_dig by done. rewrite (proj2 (Z.leb_le _ _)), (proj2 (Z.leb_le _ _)) by lia. cbn [andb].
  by rewrite (proj2 (Z.eqb_neq v 0)), (proj2 (Z.ltb_ge 255 (10 * v + d))) by lia.
Qed.

Lemma pton4_octet b src octets : zlen octets < 4 -> pton4_loop (octet b ++ src) None octets = pton4_loop src (Some (b2z b)) octets.
Proof.
  intros Ho. rewrite octet_digits. pose proof (b2z_range b) as Hb. unfold digits3.
  destruct (Z.ltb_spec (b2z b) 10); [cbn [app]; by rewrite pton4_first by lia|].
  pose proof (Z_div_mod_eq_full (b2z b) 10). pose proof (Z.mod_pos_bound (b2z b) 10 ltac:(lia)).
  destruct (Z.ltb_spec (b2z b) 100); cbn [app].
  - rewrite pton4_first, pton4_more by lia. by replace (10 * (b2z b / 10) + b2z b mod 10) with (b2z b) by lia.
  - pose proof (Z_div_mod_eq_full (b2z b / 10) 10). pose proof (Z.mod_pos_bound (b2z b / 10) 10 ltac:(lia)). rewrite Z.div_div in * by lia. change (10 * 10) with 100 in *.
    rewrite pton4_first, !pton4_more by lia. by replace (10 * (10 * (b2z b / 100) + b2z b / 10 mod 10) + b2z b mod 10) with (b2z b) by lia.
Qed.

Lemma pton4_dot v src octets : zlen octets <> 3 -> pton4_loop (Byte.x2e :: src) (Some v) octets = pton4_loop src None (octets ++ [z2b v]).
Proof. intros H. cbn. by rewrite (proj2 (Z.eqb_neq _ _) H). Qed.

Lemma inet4_roundtrip a : zlen a = 4 -> inet_pton4 (inet_ntop4 a) = Some a.
Proof.
  intros Ha. destruct a as [|a [|b [|c [|d [|e l]]]]]; rewrite ?zlen_cons in Ha; try (change (zlen (@nil byte)) with 0 in Ha; lia); [|pose proof (zlen_nonneg l); lia].
  unfold inet_pton4, inet_ntop4. cbn [fmap list_fmap concat]. rewrite app_nil_r, pton4_octet by reflexivity. cbn [app]. rewrite pton4_dot by done. cbn [app].
  rewrite pton4_octet by reflexivity. rewrite pton4_dot by done. cbn [app]. rewrite pton4_octet by reflexivity. rewrite pton4_dot by done. cbn [app].
  rewrite <- (app_nil_r (octet d)), pton4_octet by reflexivity. cbn. by rewrite !z2b_b2z.
Qed.

Lemma octet_text b : 1 <= zlen (octet b) <= 3 /\ Byte.x00 ∉ octet b.
Proof. rewrite octet_digits. destruct b; (split; [vm_compute; intuition congruence|apply (bool_decide_unpack _); vm_compute; exact I]). Qed.

Lemma inet_ntop4_text a : zlen a = 4 -> zlen (inet_ntop4 a) <= 15 /\ Byte.x00 ∉ inet_ntop4 a.
Proof.
  intros Ha. destruct a as [|a [|b [|c [|d [|e l]]]]]; rewrite ?zlen_cons in Ha; try (change (zlen (@nil byte)) with 0 in Ha; lia); [|pose proof (zlen_nonneg l); lia].
  unfold inet_ntop4. cbn [fmap list_fmap concat]. destruct (octet_text a) as [? ?], (octet_text b) as [? ?], (octet_text c) as [? ?], (octet_text d) as [? ?].
  split; [rewrite app_nil_r, !zlen_app; change (zlen [Byte.x2e]) with 1; lia|]. cbn [app]. rewrite app_nil_r, !not_elem_of_app, !not_elem_of_cons, !not_elem_of_app, !not_elem_of_cons, !not_elem_of_app, not_elem_of_cons. done.
Qed.

Lemma of_cstr_id s : Byte.x00 ∉ s -> of_cstr s = s.
Proof. induction s as [|c s IH]; intros H; [done|]. apply not_elem_of_cons in H as [Hc H]. cbn. rewrite bool_decide_false by congruence. by rewrite IH. Qed.

(** *** Fields in memory *)

Lemma memwrite_at (i : Z) (a m d b : bytes) : i = zlen a -> zlen d = zlen m -> memwrite i d (a ++ m ++ b) = a ++ d ++ b.
Proof. intros -> E. unfold memwrite. rewrite ztake_app_exact by done. by rewrite E, (app_assoc a m b), zdrop_app_exact by (by rewrite zlen_app). Qed.

Lemma zslice_at (i n : Z) (a m b : bytes) : i = zlen a -> n = zlen m -> zslice i n (a ++ m ++ b) = m.
Proof. intros -> ->. unfold zslice. rewrite zdrop_app_exact by done. by apply ztake_app_exact. Qed.

Section layout.
Context `{Arch}.

Lemma zlen_mem_image n x : zlen (mem_image n x) = Z.of_nat n.
Proof. unfold mem_image, zlen. destruct arch_little_endian; by rewrite ?length_le_bytes, ?length_be_bytes. Qed.

Lemma mem_value_image n x : mem_value (mem_image n x) = x mod 2 ^ (8 * Z.of_nat n).
Proof. unfold mem_value, mem_image. destruct arch_little_endian; [apply le_val_le_bytes|apply be_val_be_bytes]. Qed.

(** An address of the given family and port, with the rest of its bytes. *)
Definition laid (fam port : Z) (rest : bytes) : bytes := mem_image 2 fam ++ mem_image 2 (host_to_net16 port) ++ rest.

Lemma laid_family fam port rest : 0 <= fam < 2 ^ 16 -> sa_family (laid fam port rest) = fam.
Proof. intros Hfam. unfold sa_family, laid. pose proof (zslice_at 0 2 [] (mem_image 2 fam) (mem_image 2 (host_to_net16 port) ++ rest) eq_refl ltac:(by rewrite zlen_mem_image)) as E. cbn [app] in E. rewrite E, mem_value_image. by apply Z.mod_small. Qed.

Lemma laid_sin_port fam port rest : sin_port (laid fam port rest) = mem_value (mem_image 2 (host_to_net16 port)).
Proof. unfold sin_port, laid. by rewrite (zslice_at 2 2 (mem_image 2 fam)) by (by rewrite zlen_mem_image). Qed.

Lemma laid_port fam port rest : 0 <= port < 2 ^ 16 -> net_to_host16 (sin_port (laid fam port rest)) = port.
Proof.
  intros Hp. rewrite laid_sin_port. change (host_to_net16 port) with (host_net 2 port). rewrite mem_image_host_net. change net_to_host16 with (host_net 2).
  rewrite host_net_mem_value by apply length_be_bytes. rewrite be_val_be_bytes. by apply Z.mod_small.
Qed.

Lemma laid_addr4 fam port a rest : zlen a = 4 -> sin_addr (laid fam port (a ++ rest)) = a.
Proof. intros Ha. unfold sin_addr, laid. rewrite app_assoc. by rewrite (zslice_at 4 4) by (rewrite ?zlen_app, ?zlen_mem_image; done). Qed.

Lemma laid_addr6 fam port f a rest : zlen f = 4 -> zlen a = 16 -> sin6_addr (laid fam port (f ++ a ++ rest)) = a.
Proof. intros Hf Ha. unfold sin6_addr, laid. rewrite !app_assoc. rewrite <- (app_assoc _ a rest). by rewrite (zslice_at 8 16) by (rewrite ?zlen_app, ?zlen_mem_image; lia). Qed.

(** The first two fields are written into zeros. *)
Lemma fields_written fam port z rest :
  zlen z = 4 -> memwrite 2 (mem_image 2 (host_to_net16 port)) (memwrite 0 (mem_image 2 fam) (z ++ rest)) = laid fam port rest.
Proof.
  intros Hz. destruct z as [|a [|b [|c [|d [|e l]]]]]; rewrite ?zlen_cons in Hz; try (change (zlen (@nil byte)) with 0 in Hz; lia); [|pose proof (zlen_nonneg l); lia].
  pose proof (memwrite_at 0 [] [a; b] (mem_image 2 fam) ([c; d] ++ rest) eq_refl ltac:(by rewrite zlen_mem_image)) as E1. cbn [app] in E1 |- *. rewrite E1.
  pose proof (memwrite_at 2 (mem_image 2 fam) [c; d] (mem_image 2 (host_to_net16 port)) rest ltac:(by rewrite zlen_mem_image) ltac:(by rewrite zlen_mem_image)) as E2. cbn [app] in E2. by rewrite E2.
Qed.

Lemma memory_zeroed n memory : Z.of_nat n <= zlen memory -> memwrite 0 (replicate n Byte.x00) memory = replicate n Byte.x00 ++ zdrop (Z.of_nat n) memory.
Proof. intros Hm. unfold memwrite. rewrite ztake_0, Z.add_0_l, zlen_replicate. done. Qed.

Lemma laid_addr_written4 fam port a z rest : zlen a = 4 -> zlen z = 4 -> memwrite 4 a (laid fam port (z ++ rest)) = laid fam port (a ++ rest).
Proof. intros Ha Hz. unfold laid. rewrite !app_assoc, <- !(app_assoc _ _ rest). by rewrite (memwrite_at 4) by (rewrite ?zlen_app, ?zlen_mem_image; lia). Qed.

Lemma laid_addr_written6 fam port f a z rest :
  zlen f = 4 -> zlen a = 16 -> zlen z = 16 -> memwrite 8 a (laid fam port (f ++ z ++ rest)) = laid fam port (f ++ a ++ rest).
Proof. intros Hf Ha Hz. unfold laid. rewrite !app_assoc, <- !(app_assoc _ _ rest). by rewrite (memwrite_at 8) by (rewrite ?zlen_app, ?zlen_mem_image; lia). Qed.

End layout.

Lemma port_text port : 0 <= port < 2 ^ 16 -> zlen (txt (pretty port)) <= 5.
Proof.
  intros Hp. destruct (Z.eq_dec port 0) as [->|Hne]; [vm_compute; congruence|]. destruct (convert_loop_pos 5 port) as (ds & _ & Hl & E); [lia|].
  rewrite pretty_pos, E, app_nil_r by lia. unfold zlen. rewrite length_rev. lia.
Qed.

Lemma pton4_length src tp octets a : pton4_loop src tp octets = Some a -> zlen a = 4.
Proof.
  revert tp octets. induction src as [|ch src IH]; intros tp octets; cbn [pton4_loop].
  - destruct tp as [v|]; [|done]. destruct (Z.eqb_spec (zlen octets) 3) as [E|]; [|done]. intros [= <-]. rewrite zlen_app, E. done.
  - repeat (case_match; try done); apply IH.
Qed.

Lemma pton4_none_cases s : (exists a, inet_pton4 s = Some a /\ zlen a = 4) \/ inet_pton4 s = None.
Proof. destruct (inet_pton4 s) as [a|] eqn:E; [left; exists a; split; [done|by eapply pton4_length]|by right]. Qed.

(** What the manual says about the functions for IPv6. *)
Class Inet6Laws `{Inet6} : Prop := {
  inet6_roundtrip : forall a, zlen a = 16 -> inet_pton6 (inet_ntop6 a) = Some a;
  inet6_text : forall a, zlen a = 16 -> zlen (inet_ntop6 a) < INET6_ADDRSTRLEN /\ Byte.x00 ∉ inet_ntop6 a }.

Section endpoint_lemmas.
Context `{Arch} `{Inet6Laws}.

(** All that can be read from an endpoint with this family, address and port. *)
Definition reads (e : bytes) (fam port : Z) (ip : bytes) : Prop :=
  family e = fam /\ to_port e = port /\ endpoint_ip e = Ok ip /\ endpoint_ip_port e = Ok (ip ++ txt ":" ++ txt (pretty port))
  /\ addrlen_of e = (if fam =? AF_INET6 then sizeof_sockaddr_in6 else sizeof_sockaddr_in).

Lemma reads_of e fam port ip :
  sa_family e = fam -> fam = AF_INET \/ fam = AF_INET6 -> to_port e = port -> 0 <= port < 2 ^ 16 -> endpoint_ip e = Ok ip -> zlen ip < INET6_ADDRSTRLEN -> reads e fam port ip.
Proof.
  intros Hf Hfam Hp Hport Hip Hl. unfold INET6_ADDRSTRLEN in Hl. pose proof (port_text port Hport) as Ht. split_and!; [done|done|done| |unfold addrlen_of; by rewrite Hf].
  unfold endpoint_ip_port, to_ip_port. change (to_ip (get_sockaddr e) 64) with (endpoint_ip e). rewrite Hip. cbn [mbind outcome_bind]. change (get_sockaddr e) with e. rewrite Hf.
  assert ((if fam =? AF_INET then Ok (net_to_host16 (sin_port e)) else if fam =? AF_INET6 then Ok (net_to_host16 (sin_port e)) else Fault (CheckFailed "to_ip_port: NOTREACHED")) = Ok port) as ->.
  { change (net_to_host16 (sin_port e)) with (to_port e). rewrite Hp. by destruct Hfam as [-> | ->]. }
  cbn [mbind outcome_bind]. rewrite check_true by (apply Z.ltb_lt; lia). cbn [mbind outcome_bind]. rewrite ztake_ge; [done|]. rewrite zlen_app. change (zlen (txt ":")) with 1. lia.
Qed.

Lemma reads4 port a rest : 0 <= port < 2 ^ 16 -> zlen a = 4 -> reads (laid AF_INET port (a ++ rest)) AF_INET port (inet_ntop4 a).
Proof.
  intros Hp Ha. destruct (inet_ntop4_text a Ha) as [Hl _]. apply reads_of; [by apply laid_family|by left|by apply laid_port|done| |unfold INET6_ADDRSTRLEN; lia].
  unfold endpoint_ip, to_ip. change (get_sockaddr (laid AF_INET port (a ++ rest))) with (laid AF_INET port (a ++ rest)). rewrite laid_family, laid_addr4 by done. rewrite Z.eqb_refl, !check_true by (done || (apply Z.ltb_lt; lia)). done.
Qed.

Lemma reads6 port f a rest : 0 <= port < 2 ^ 16 -> zlen f = 4 -> zlen a = 16 -> reads (laid AF_INET6 port (f ++ a ++ rest)) AF_INET6 port (inet_ntop6 a).
Proof.
  intros Hp Hf Ha. destruct (inet6_text a Ha) as [Hl _]. apply reads_of; [by apply laid_family|by right|by apply laid_port|done| |done].
  unfold endpoint_ip, to_ip, INET6_ADDRSTRLEN in *. change (get_sockaddr (laid AF_INET6 port (f ++ a ++ rest))) with (laid AF_INET6 port (f ++ a ++ rest)). rewrite laid_family, laid_addr6 by done. change (AF_INET6 =? AF_INET) with false. cbv iota. rewrite Z.eqb_refl, !check_true by (done || (apply Z.ltb_lt; lia)). done.
Qed.

Definition zeros (n : nat) : bytes := replicate n Byte.x00.

Lemma from_ip4 ip port memory :
  zlen memory = 28 -> endpoint_of_ip ip port false memory = Ok (laid AF_INET port ((match inet_pton4 (of_cstr ip) with Some a => a | None => zeros 4 end) ++ zeros 8 ++ zdrop 16 memory)).
Proof.
  intros Hm. unfold endpoint_of_ip, from_ip_port4. rewrite memory_zeroed by lia. change (replicate 16 Byte.x00) with (zeros 4 ++ zeros 4 ++ zeros 8). rewrite <- !app_assoc, fields_written by done.
  destruct (inet_pton4 (of_cstr ip)) as [a|] eqn:E; [|done]. rewrite check_true by done. cbn [mbind outcome_bind]. rewrite laid_addr_written4; [done|by eapply pton4_length|done].
Qed.

Lemma head_written (F z rest : bytes) : zlen F <= zlen z -> memwrite 0 F (z ++ rest) = memwrite 0 F z ++ rest /\ zlen (memwrite 0 F z) = zlen z.
Proof.
  intros Hl. unfold memwrite. rewrite !ztake_0, Z.add_0_l. cbn [app]. rewrite zdrop_app_le by done. rewrite zlen_app, zlen_zdrop, app_assoc. pose proof (zlen_nonneg F). split; [done|lia].
Qed.

(** The address is written between the two fields before it. *)
Lemma fields_written4 fam port (z f a y rest : bytes) i :
  zlen z = 4 -> i = 4 + zlen f -> zlen a = zlen y ->
  memwrite 2 (mem_image 2 (host_to_net16 port)) (memwrite i a (memwrite 0 (mem_image 2 fam) (z ++ f ++ y ++ rest))) = laid fam port (f ++ a ++ rest).
Proof.
  intros Hz -> Ha. assert (Hl : zlen (mem_image 2 fam) <= zlen z) by (rewrite zlen_mem_image; lia). rewrite <- (fields_written fam port z) by done. f_equal.
  rewrite !(proj1 (head_written (mem_image 2 fam) z _ Hl)), !app_assoc, <- (app_assoc _ y rest), <- (app_assoc _ a rest). apply memwrite_at; [|done].
  rewrite zlen_app, (proj2 (head_written _ z [] Hl)). lia.
Qed.

Lemma make4 port loopback memory :
  zlen memory = 28 -> make_endpoint port loopback false memory = laid AF_INET port ((if loopback then [Byte.x7f; Byte.x00; Byte.x00; Byte.x01] else zeros 4) ++ zeros 8 ++ zdrop 16 memory).
Proof.
  intros Hm. unfold make_endpoint. rewrite memory_zeroed by lia. change (replicate 16 Byte.x00) with (zeros 4 ++ zeros 4 ++ zeros 8). rewrite <- !app_assoc.
  set (ip := if loopback then INADDR_LOOPBACK else INADDR_ANY). change (host_to_net32 ip) with (host_net 4 ip). rewrite (mem_image_host_net 4 ip).
  assert (E : be_bytes 4 ip = if loopback then [Byte.x7f; Byte.x00; Byte.x00; Byte.x01] else zeros 4) by (by destruct loopback). rewrite E.
  apply (fields_written4 AF_INET port (zeros 4) []); [done|done|by destruct loopback].
Qed.

Lemma make6 port loopback memory :
  zlen memory = 28 -> make_endpoint port loopback true memory = laid AF_INET6 port (zeros 4 ++ (if loopback then in6addr_loopback else in6addr_any) ++ zeros 4 ++ zdrop 28 memory).
Proof.
  intros Hm. unfold make_endpoint. rewrite memory_zeroed by lia. change (replicate 28 Byte.x00) with (zeros 4 ++ zeros 4 ++ zeros 16 ++ zeros 4). rewrite <- !app_assoc.
  apply fields_written4; [done|done|by destruct loopback].
Qed.

Lemma from_ip6 ip port memory :
  zlen memory = 28 -> (forall a, inet_pton6 (of_cstr ip) = Some a -> zlen a = 16) ->
  endpoint_of_ip ip port true memory = Ok (laid AF_INET6 port (zeros 4 ++ (match inet_pton6 (of_cstr ip) with Some a => a | None => zeros 16 end) ++ zeros 4 ++ zdrop 28 memory)).
Proof.
  intros Hm Ha. unfold endpoint_of_ip, from_ip_port6. rewrite memory_zeroed by lia. change (replicate 28 Byte.x00) with (zeros 4 ++ zeros 4 ++ zeros 16 ++ zeros 4). rewrite <- !app_assoc, fields_written by done.
  destruct (inet_pton6 (of_cstr ip)) as [a|]; [|done]. rewrite check_true by done. cbn [mbind outcome_bind]. by rewrite laid_addr_written6 by (done || by apply Ha).
Qed.

End endpoint_lemmas.

Lemma mem_value_inj `{Arch} (a b : bytes) : length a = length b -> mem_value a = mem_value b -> a = b.
Proof.
  intros Hl. unfold mem_value. destruct arch_little_endian; intros E.
  - by rewrite <- (le_bytes_le_val a), <- (le_bytes_le_val b), Hl, E.
  - by rewrite <- (be_bytes_be_val a), <- (be_bytes_be_val b), Hl, E.
Qed.

Lemma same_port `{Arch} fam1 fam2 port1 port2 rest1 rest2 :
  0 <= port1 < 2 ^ 16 -> 0 <= port2 < 2 ^ 16 -> (sin_port (laid fam1 port1 rest1) =? sin_port (laid fam2 port2 rest2)) = bool_decide (port1 = port2).
Proof.
  intros H1 H2. destruct (Z.eqb_spec (sin_port (laid fam1 port1 rest1)) (sin_port (laid fam2 port2 rest2))) as [E|E]; symmetry.
  - apply bool_decide_eq_true. rewrite <- (laid_port fam1 port1 rest1 H1), <- (laid_port fam2 port2 rest2 H2). by rewrite E.
  - apply bool_decide_eq_false. intros ->. apply E. by rewrite !laid_sin_port.
Qed.

(** ** Theorems *)

(** An endpoint made from the text of an address and a port reads back as this address and port, with the family and the length for the kernel that
    belong to them, whatever was in its memory before and on hosts of either byte order; [to_ip_port] never cuts the text. *)
Theorem endpoint_roundtrip `{Arch} `{Inet6Laws} (port : Z) (memory : bytes) :
  zlen memory = 28 -> 0 <= port < 2 ^ 16 ->
  (forall a, zlen a = 4 -> exists e, endpoint_of_ip (inet_ntop4 a) port false memory = Ok e /\ reads e AF_INET port (inet_ntop4 a))
  /\ (forall a, zlen a = 16 -> exists e, endpoint_of_ip (inet_ntop6 a) port true memory = Ok e /\ reads e AF_INET6 port (inet_ntop6 a))
  /\ reads (make_endpoint port false false memory) AF_INET port (txt "0.0.0.0") /\ reads (make_endpoint port true false memory) AF_INET port (txt "127.0.0.1")
  /\ reads (make_endpoint port false true memory) AF_INET6 port (inet_ntop6 in6addr_any) /\ reads (make_endpoint port true true memory) AF_INET6 port (inet_ntop6 in6addr_loopback).
Proof.
  intros Hm Hp. split_and!.
  - intros a Ha. rewrite from_ip4 by done. destruct (inet_ntop4_text a Ha) as [_ Hn]. rewrite of_cstr_id, inet4_roundtrip by done. eexists. split; [reflexivity|]. by apply reads4.
  - intros a Ha. destruct (inet6_text a Ha) as [_ Hn]. rewrite from_ip6; [|done|by rewrite of_cstr_id, inet6_roundtrip by done; intros ? [= <-]].
    rewrite of_cstr_id, inet6_roundtrip by done. eexists. split; [reflexivity|]. by apply reads6.
  - rewrite make4 by done. by apply (reads4 port (zeros 4)).
  - rewrite make4 by done. by apply (reads4 port [Byte.x7f; Byte.x00; Byte.x00; Byte.x01]).
  - rewrite make6 by done. by apply reads6.
  - rewrite make6 by done. by apply reads6.
Qed.

(** Text that is not an address does not fail: the endpoint becomes the one for all addresses, with the port that was given. *)
Theorem invalid_address_accepted `{Arch} `{Inet6} (ip : StringPiece) (port : Z) (memory : bytes) :
  zlen memory = 28 ->
  (inet_pton4 (of_cstr ip) = None -> endpoint_of_ip ip port false memory = Ok (make_endpoint port false false memory))
  /\ (inet_pton6 (of_cstr ip) = None -> endpoint_of_ip ip port true memory = Ok (make_endpoint port false true memory)).
Proof.
  intros Hm. split; intros E.
  - by rewrite from_ip4, make4, E by done.
  - rewrite from_ip6, make6 by (done || by rewrite E). by rewrite E.
Qed.

(** A connection counts as one to itself exactly if both ends have the same address and port. *)
Theorem self_connect_correct `{Arch} (port1 port2 : Z) (rest1 rest2 : bytes) :
  0 <= port1 < 2 ^ 16 -> 0 <= port2 < 2 ^ 16 ->
  (forall a1 a2 : bytes, zlen a1 = 4 -> zlen a2 = 4 -> is_self_connect (laid AF_INET port1 (a1 ++ rest1)) (laid AF_INET port2 (a2 ++ rest2)) = Ok (bool_decide (port1 = port2 /\ a1 = a2)))
  /\ (forall f1 f2 a1 a2 : bytes, zlen f1 = 4 -> zlen f2 = 4 -> zlen a1 = 16 -> zlen a2 = 16 ->
      is_self_connect (laid AF_INET6 port1 (f1 ++ a1 ++ rest1)) (laid AF_INET6 port2 (f2 ++ a2 ++ rest2)) = Ok (bool_decide (port1 = port2 /\ a1 = a2))).
Proof.
  intros Hp1 Hp2. split.
  - intros a1 a2 H1 H2. unfold is_self_connect. rewrite laid_family, same_port, !laid_addr4 by done. rewrite Z.eqb_refl. f_equal. rewrite bool_decide_and. f_equal.
    destruct (Z.eqb_spec (mem_value a1) (mem_value a2)) as [E|E]; symmetry; [|apply bool_decide_eq_false; congruence]. apply bool_decide_eq_true, mem_value_inj; [unfold zlen in *; lia|done].
  - intros f1 f2 a1 a2 F1 F2 H1 H2. unfold is_self_connect. rewrite laid_family, same_port, !laid_addr6 by done. change (AF_INET6 =? AF_INET) with false. cbv iota. rewrite Z.eqb_refl. f_equal. by rewrite bool_decide_and.
Qed.

(** ** Witnesses and examples *)

(** The text of an IPv6 address here: two hexadecimal digits for each byte. *)
Definition plain_ntop6 (a : bytes) : bytes := concat ((fun b => [nth (Z.to_nat (b2z b / 16)) kDigitHexMaps Byte.x00; nth (Z.to_nat (b2z b mod 16)) kDigitHexMaps Byte.x00]) <$> a).
Fixpoint plain_pton6 (s : bytes) : option bytes :=
  match s with
  | [] => Some []
  | h :: l :: s => a ← plain_pton6 s; Some (z2b (16 * find_char kDigitHexMaps h 0 + find_char kDigitHexMaps l 0) :: a)
  | _ => None
  end.
#[local] Instance plain_inet6 : Inet6 := {| inet_pton6 := plain_pton6; inet_ntop6 := plain_ntop6 |}.

Lemma plain_inet6_laws : Inet6Laws.
Proof.
  constructor.
  - intros a _. cbn. induction a as [|b a IH]; [done|]. change (plain_ntop6 (b :: a)) with ([nth (Z.to_nat (b2z b / 16)) kDigitHexMaps Byte.x00; nth (Z.to_nat (b2z b mod 16)) kDigitHexMaps Byte.x00] ++ plain_ntop6 a). cbn [app plain_pton6]. rewrite IH. cbn [mbind option_bind]. pose proof (b2z_range b).
    rewrite !hex_digit by (pose proof (Z_div_mod_eq_full (b2z b) 16); pose proof (Z.mod_pos_bound (b2z b) 16); lia).
    by rewrite <- Z_div_mod_eq_full, z2b_b2z.
  - intros a Ha. cbn. enough (zlen (plain_ntop6 a) = 2 * zlen a /\ Byte.x00 ∉ plain_ntop6 a) as [-> ?] by (split; [rewrite Ha; reflexivity|done]). clear Ha.
    induction a as [|b a [IH1 IH2]]; [split; [done|apply not_elem_of_nil]|]. change (plain_ntop6 (b :: a)) with ([nth (Z.to_nat (b2z b / 16)) kDigitHexMaps Byte.x00; nth (Z.to_nat (b2z b mod 16)) kDigitHexMaps Byte.x00] ++ plain_ntop6 a).
    rewrite zlen_app, (zlen_cons b a), IH1. split; [change (zlen [nth (Z.to_nat (b2z b / 16)) kDigitHexMaps Byte.x00; nth (Z.to_nat (b2z b mod 16)) kDigitHexMaps Byte.x00]) with 2; lia|].
    apply not_elem_of_app. split; [|done]. destruct b; (apply (bool_decide_unpack _); vm_compute; exact I).
Qed.

#[local] Instance little : Arch := {| arch_little_endian := true |}.

Lemma endpoint_roundtrip_witness :
  exists e, endpoint_of_ip (txt "192.168.0.1") 8080 false (replicate 28 Byte.xff) = Ok e /\ endpoint_ip_port e = Ok (txt "192.168.0.1:8080").
Proof.
  destruct (@endpoint_roundtrip little plain_inet6 plain_inet6_laws 8080 (replicate 28 Byte.xff)) as [H4 _].
  - reflexivity.
  - lia.
  - destruct (H4 [Byte.xc0; Byte.xa8; Byte.x00; Byte.x01] eq_refl) as (e & E & _ & _ & _ & H & _). exists e. split; [exact E|]. rewrite H. vm_compute. reflexivity.
Defined.

Lemma invalid_address_accepted_witness :
  endpoint_of_ip (txt "localhost") 80 false (replicate 28 Byte.xff) = Ok (make_endpoint 80 false false (replicate 28 Byte.xff)).
Proof.
  destruct (@invalid_address_accepted little plain_inet6 (txt "localhost") 80 (replicate 28 Byte.xff)) as [H _].
  - reflexivity.
  - apply H. vm_compute. reflexivity.
Defined.

Lemma self_connect_correct_witness :
  is_self_connect (laid AF_INET 80 (txt "abcd")) (laid AF_INET 81 (txt "abcd")) = Ok false.
Proof.
  destruct (@self_connect_correct little 80 81 [] []) as [H _]; [lia|lia|]. exact (H (txt "abcd") (txt "abcd") eq_refl eq_refl).
Defined.
