(* ===== verification/SignalServer.v ===== *)
(** * SignalServer (include/SignalServer.h, src/SignalServer.cc, src/SignalFD.h, src/SignalFD.cc)

    Signals that are handled in the event loop, on Linux: the signals that have a callback are blocked and read from a signalfd(2).
    The model has the signal mask of the loop thread, the signals that are pending and the mask of the descriptor; which of the pending
    signals a read delivers is left open.  A callback is a number; [body] gives the requests that it makes to the server, which are
    carried out at once, since it runs in the loop thread.

    The file shows that the callbacks, the set of the descriptor and its mask always agree, that the server refines a table of handlers with a set of
    pending signals, and in particular that no signal that has a callback gets its default action or is lost. *)

From S2P Require Import Prelude.
#[local] Set Warnings "-clear-no-such-hyp".

(** ** Definitions *)

Definition SIGKILL : Z := 9.
Definition SIGSTOP : Z := 19.

(** The numbers that sigaddset(3) accepts; two are reserved for the threads library. *)
Definition valid_signal (signo : Z) : bool := (1 <=? signo) && (signo <=? 64) && negb (signo =? 32) && negb (signo =? 33).

(** Neither SIGKILL nor SIGSTOP can be blocked. *)
Definition blockable (s : gset Z) : gset Z := s ∖ {[ SIGKILL; SIGSTOP ]}.

(** The kernel: the blocked signals, the pending ones, the mask of the descriptor, and the signals that took their default action, the last one first. *)
Record kernel : Type := mkKernel { mask : gset Z; pending : gset Z; fd_mask : gset Z; defaulted : list Z }.

(** Pending signals that are no longer blocked are delivered. *)
Definition set_mask (m : gset Z) (k : kernel) : kernel :=
  mkKernel m (pending k ∩ m) (fd_mask k) (elements (pending k ∖ m) ++ defaulted k).
Definition sigprocmask_block (s : gset Z) (k : kernel) : kernel := set_mask (mask k ∪ blockable s) k.
Definition sigprocmask_setmask (s : gset Z) (k : kernel) : kernel := set_mask (blockable s) k.
Definition sys_signalfd (s : gset Z) (k : kernel) : kernel := mkKernel (mask k) (pending k) (blockable s) (defaulted k).

(** A signal arrives at the process. *)
Definition arrive (signo : Z) (k : kernel) : kernel :=
  if bool_decide (signo ∈ mask k) then mkKernel (mask k) ({[ signo ]} ∪ pending k) (fd_mask k) (defaulted k)
  else mkKernel (mask k) (pending k) (fd_mask k) (signo :: defaulted k).

(** *** SignalFD *)

Definition signal_ismember (sigset_ : gset Z) (signo : Z) : outcome bool :=
  check (valid_signal signo) "signal_ismember";; Ok (bool_decide (signo ∈ sigset_)).

Definition signal_add (signo : Z) (sigset_ : gset Z) (k : kernel) : outcome (gset Z * kernel) :=
  member ← signal_ismember sigset_ signo;
  if member : bool then Ok (sigset_, k)
  else
    check (valid_signal signo) "signal_add: sigaddset";;
    let sigset_ := {[ signo ]} ∪ sigset_ in
    Ok (sigset_, sys_signalfd sigset_ (sigprocmask_block sigset_ k)).

Definition signal_delete (signo : Z) (sigset_ : gset Z) (k : kernel) : outcome (gset Z * kernel) :=
  member ← signal_ismember sigset_ signo;
  if negb member then Ok (sigset_, k)
  else
    check (valid_signal signo) "signal_delete: sigdelset";;
    let sigset_ := sigset_ ∖ {[ signo ]} in
    Ok (sigset_, sys_signalfd sigset_ (sigprocmask_setmask sigset_ k)).

Definition signal_revert (k : kernel) : gset Z * kernel := (∅, sys_signalfd ∅ (sigprocmask_setmask ∅ k)).

(** *** SignalServer *)

(** The requests to a server; callbacks are known by numbers. *)
Inductive request : Type := Add (signo id : Z) | Ignore (signo : Z) | Delete (signo : Z) | Revert | Ismember (signo : Z).
Abbreviation callback := Z (only parsing).

Record SignalServer : Type := mkServer {
  signals_ : gmap Z callback;
  sigset_ : gset Z;
  calling_signal_functor_ : bool
}.

(** With the callbacks that were called, the last one first. *)
Record state : Type := mkState { server : SignalServer; sys : kernel; called : list (Z * Z) }.

(** The callback of ignored signals, which does nothing. *)
Definition signal_ignore : callback := -1.

(** [running] is the signal whose callback runs: destroying the function object that is being called is undefined. *)
Definition add_signal_in_own_loop (running : option Z) (signo : Z) (cb : callback) (st : state) : outcome state :=
  let s := server st in
  defined (negb (bool_decide (running = Some signo) && bool_decide (is_Some (signals_ s !! signo)))) "add_signal: running callback";;
  let signals := <[signo := cb]> (signals_ s) in
  '(set, k) ← signal_add signo (sigset_ s) (sys st);
  Ok (mkState (mkServer signals set (calling_signal_functor_ s)) k (called st)).

Definition delete_signal_in_own_loop (running : option Z) (signo : Z) (st : state) : outcome state :=
  let s := server st in
  match signals_ s !! signo with
  | None => Ok st
  | Some _ =>
      defined (negb (bool_decide (running = Some signo))) "delete_signal: running callback";;
      '(set, k) ← signal_delete signo (sigset_ s) (sys st);
      Ok (mkState (mkServer (delete signo (signals_ s)) set (calling_signal_functor_ s)) k (called st))
  end.

Definition revert_signal_in_own_loop (running : option Z) (st : state) : outcome state :=
  let s := server st in
  if bool_decide (signals_ s = ∅) then Ok st
  else
    defined (negb (match running with Some signo => bool_decide (is_Some (signals_ s !! signo)) | None => false end)) "revert_signal: running callback";;
    let '(set, k) := signal_revert (sys st) in
    Ok (mkState (mkServer ∅ set (calling_signal_functor_ s)) k (called st)).

Definition ismember_signal (signo : Z) (st : state) : bool := bool_decide (is_Some (signals_ (server st) !! signo)).

Definition serve (running : option Z) (r : request) (st : state) : outcome state :=
  match r with
  | Add signo id => add_signal_in_own_loop running signo id st
  | Ignore signo => add_signal_in_own_loop running signo signal_ignore st
  | Delete signo => delete_signal_in_own_loop running signo st
  | Revert => revert_signal_in_own_loop running st
  | Ismember _ => Ok st
  end.

Fixpoint serve_all (running : option Z) (rs : list request) (st : state) : outcome state :=
  match rs with [] => Ok st | r :: rs => st ← serve running r st; serve_all running rs st end.

Definition set_calling (b : bool) (st : state) : state :=
  mkState (mkServer (signals_ (server st)) (sigset_ (server st)) b) (sys st) (called st).

Section callbacks.
Variable body : callback -> list request.

(** A read of the descriptor delivers a pending signal of its mask; [choice] says which one. *)
Definition read_signal (choice : Z) (k : kernel) : option (Z * kernel) :=
  if bool_decide (choice ∈ pending k ∩ fd_mask k) then Some (choice, mkKernel (mask k) (pending k ∖ {[ choice ]}) (fd_mask k) (defaulted k)) else None.

Definition handle_read (choice : Z) (st : state) : outcome state :=
  match read_signal choice (sys st) with
  | None => Ok st
  | Some (signo, k) =>
      let st := mkState (server st) k (called st) in
      let st := set_calling true st in
      st ← match signals_ (server st) !! signo with
           | Some id => serve_all (Some signo) (if id =? signal_ignore then [] else body id) (mkState (server st) (sys st) ((signo, id) :: called st))
           | None => Ok st
           end;
      Ok (set_calling false st)
  end.

Definition make_server (k : kernel) : state := mkState (mkServer ∅ ∅ false) (sys_signalfd ∅ k) [].

(** What happens to a server: a request from the program, a signal, a read in the loop. *)
Inductive event : Type := Request (r : request) | Signal (signo : Z) | Read (choice : Z).
Definition step (e : event) (st : state) : outcome state :=
  match e with
  | Request r => serve None r st
  | Signal signo => Ok (mkState (server st) (arrive signo (sys st)) (called st))
  | Read choice => handle_read choice st
  end.
Fixpoint run (es : list event) (st : state) : outcome state :=
  match es with [] => Ok st | e :: es => st ← step e st; run es st end.

End callbacks.

(** ** Lemmas *)

(** *** A table of handlers *)

Record table : Type := mkTable { handlers : gmap Z callback; waiting : gset Z; acted : list Z; ran : list (Z * Z) }.

Definition t_add (signo : Z) (id : callback) (t : table) : table := mkTable (<[signo := id]> (handlers t)) (waiting t) (acted t) (ran t).
(** A signal that waits when its handler is deleted takes its default action. *)
Definition t_delete (signo : Z) (t : table) : table :=
  mkTable (delete signo (handlers t)) (waiting t ∖ {[ signo ]}) (if bool_decide (signo ∈ waiting t) then signo :: acted t else acted t) (ran t).
Definition t_revert (t : table) : table := mkTable ∅ ∅ (elements (waiting t) ++ acted t) (ran t).
Definition t_signal (signo : Z) (t : table) : table :=
  if bool_decide (is_Some (handlers t !! signo) /\ signo ∉ ({[ SIGKILL; SIGSTOP ]} : gset Z)) then mkTable (handlers t) ({[ signo ]} ∪ waiting t) (acted t) (ran t)
  else mkTable (handlers t) (waiting t) (signo :: acted t) (ran t).

Definition t_serve (t : table) (r : request) : table :=
  match r with
  | Add signo id => t_add signo id t
  | Ignore signo => t_add signo signal_ignore t
  | Delete signo => t_delete signo t
  | Revert => t_revert t
  | Ismember _ => t
  end.

Definition t_step (body : callback -> list request) (t : table) (e : event) : table :=
  match e with
  | Request r => t_serve t r
  | Signal signo => t_signal signo t
  | Read choice =>
      match handlers t !! choice with
      | Some id =>
          if bool_decide (choice ∈ waiting t) then
            fold_left t_serve (if id =? signal_ignore then [] else body id) (mkTable (handlers t) (waiting t ∖ {[ choice ]}) (acted t) ((choice, id) :: ran t))
          else t
      | None => t
      end
  end.

Definition table_of (st : state) : table := mkTable (signals_ (server st)) (pending (sys st)) (defaulted (sys st)) (called st).

(** A callback that leaves its own signal alone. *)
Definition tame (body : callback -> list request) (signo : Z) (id : callback) : Prop :=
  id = signal_ignore \/ forall r, r ∈ body id -> match r with Add s _ | Ignore s | Delete s => s <> signo | Revert => False | Ismember _ => True end.
Definition good (body : callback -> list request) (r : request) : Prop :=
  match r with Add s id => valid_signal s = true /\ tame body s id | Ignore s => valid_signal s = true | _ => True end.

Section refinement.
Context (body : callback -> list request).
Hypothesis bodies_good : forall id r, r ∈ body id -> good body r.

(** The callbacks, the set and the masks agree. *)
Record agree (st : state) : Prop := {
  ag_set : sigset_ (server st) = dom (signals_ (server st));
  ag_fd : fd_mask (sys st) = blockable (sigset_ (server st));
  ag_mask : mask (sys st) = blockable (sigset_ (server st));
  ag_pending : pending (sys st) ⊆ mask (sys st);
  ag_valid : forall s id, signals_ (server st) !! s = Some id -> valid_signal s = true /\ tame body s id }.

Lemma block_ok (m p : gset Z) k : mask k = m -> pending k ⊆ m -> m ⊆ p -> set_mask p k = mkKernel p (pending k) (fd_mask k) (defaulted k).
Proof.
  intros <- Hp Hm. unfold set_mask. assert (pending k ∩ p = pending k) as -> by set_solver. assert (pending k ∖ p = ∅) as -> by set_solver. by rewrite elements_empty.
Qed.

Lemma add_ok running signo id st :
  agree st -> running <> Some signo -> valid_signal signo = true -> tame body signo id ->
  exists st', add_signal_in_own_loop running signo id st = Ok st' /\ agree st' /\ table_of st' = t_add signo id (table_of st).
Proof.
  intros [A1 A2 A3 A4 A5] Hr Hv Ht. unfold add_signal_in_own_loop. rewrite (bool_decide_false (running = Some signo)), defined_true by done. cbn [mbind outcome_bind].
  unfold signal_add, signal_ismember. rewrite Hv, !check_true by done. cbn [mbind outcome_bind].
  assert (Hval : forall s i, <[signo := id]> (signals_ (server st)) !! s = Some i -> valid_signal s = true /\ tame body s i).
  { intros s i [[-> ->]|[_ H]]%lookup_insert_Some; [done|by apply A5]. }
  case_bool_decide as Hin; cbn [mbind outcome_bind].
  - eexists. split; [reflexivity|]. split; [|done]. constructor; cbn; [|done..]. rewrite dom_insert_L. set_solver.
  - unfold sigprocmask_block, sys_signalfd. rewrite (block_ok (mask (sys st))) by (done || set_solver). eexists. split; [reflexivity|]. split; [|done]. constructor; cbn; [|done| |set_solver|done].
    + rewrite dom_insert_L. set_solver.
    + rewrite A3. unfold blockable. set_solver.
Qed.

Lemma unmask_one (p m : gset Z) signo : p ⊆ m -> p ∩ (m ∖ {[ signo ]}) = p ∖ {[ signo ]} /\ elements (p ∖ (m ∖ {[ signo ]})) = if bool_decide (signo ∈ p) then [signo] else [].
Proof.
  intros Hp. split; [set_solver|]. case_bool_decide as Hin.
  - assert (p ∖ (m ∖ {[ signo ]}) = {[ signo ]}) as -> by (apply set_eq; intros x; rewrite !elem_of_difference, elem_of_singleton; specialize (Hp x); destruct (decide (x = signo)) as [->|]; tauto). apply elements_singleton.
  - assert (p ∖ (m ∖ {[ signo ]}) = ∅) as -> by (apply set_eq; intros x; rewrite !elem_of_difference, elem_of_singleton, elem_of_empty; specialize (Hp x); destruct (decide (x = signo)) as [->|]; tauto). done.
Qed.

Lemma delete_ok running signo st :
  agree st -> running <> Some signo -> exists st', delete_signal_in_own_loop running signo st = Ok st' /\ agree st' /\ table_of st' = t_delete signo (table_of st).
Proof.
  intros [A1 A2 A3 A4 A5] Hr. unfold delete_signal_in_own_loop. assert (Hw : pending (sys st) ⊆ dom (signals_ (server st))) by (rewrite A3, A1 in A4; unfold blockable in A4; set_solver).
  destruct (signals_ (server st) !! signo) as [id|] eqn:E.
  - rewrite (bool_decide_false (running = Some signo)), defined_true by done. destruct (A5 signo id E) as [Hv _]. cbn [mbind outcome_bind]. unfold signal_delete, signal_ismember. rewrite Hv, !check_true by done. cbn [mbind outcome_bind].
    rewrite bool_decide_true by (rewrite A1; by apply elem_of_dom_2 in E). cbn [negb mbind outcome_bind]. eexists. split; [reflexivity|].
    assert (Hm : blockable (sigset_ (server st) ∖ {[ signo ]}) = mask (sys st) ∖ {[ signo ]}) by (rewrite A3; unfold blockable; set_solver).
    destruct (unmask_one (pending (sys st)) (mask (sys st)) signo A4) as [Hp He]. unfold sigprocmask_setmask, sys_signalfd, set_mask. rewrite Hm, Hp, He.
    split; [constructor; cbn; [rewrite dom_delete_L, A1; done|done|done|clear - A4; set_solver|]|].
    + intros s i [_ H]%lookup_delete_Some. by apply A5.
    + unfold table_of, t_delete. cbn. by case_bool_decide.
  - exists st. split; [done|]. split; [done|]. assert (Hn : signo ∉ pending (sys st)) by (intros Hin%Hw; by apply not_elem_of_dom in E). unfold table_of, t_delete. cbn. rewrite bool_decide_false by done.
    rewrite delete_id by done. by assert (pending (sys st) ∖ {[ signo ]} = pending (sys st)) as -> by (clear - Hn; set_solver).
Qed.

Lemma revert_ok st : agree st -> exists st', revert_signal_in_own_loop None st = Ok st' /\ agree st' /\ table_of st' = t_revert (table_of st).
Proof.
  intros [A1 A2 A3 A4 A5]. unfold revert_signal_in_own_loop. case_bool_decide as E.
  - exists st. split; [done|]. split; [done|]. unfold table_of, t_revert. cbn. rewrite A3, A1, E in A4. unfold blockable in A4. assert (pending (sys st) = ∅) as -> by (clear - A4; set_solver). by rewrite E.
  - eexists. split; [reflexivity|]. split; [constructor; cbn; [by rewrite dom_empty_L|done|done|set_solver|done]|]. unfold table_of, t_revert. cbn. unfold blockable.
    assert (pending (sys st) ∩ (∅ ∖ {[SIGKILL; SIGSTOP]}) = ∅) as -> by set_solver. by assert (pending (sys st) ∖ (∅ ∖ {[SIGKILL; SIGSTOP]}) = pending (sys st)) as -> by set_solver.
Qed.

(** A request that the running callback may make. *)
Definition allowed (running : option Z) (r : request) : Prop :=
  match running with
  | None => True
  | Some signo => match r with Add s _ | Ignore s | Delete s => s <> signo | Revert => False | Ismember _ => True end
  end.

Lemma serve_ok running r st : agree st -> good body r -> allowed running r -> exists st', serve running r st = Ok st' /\ agree st' /\ table_of st' = t_serve (table_of st) r.
Proof.
  intros Ha Hg Hr. destruct r as [s id|s|s| |s]; cbn [serve t_serve good] in *.
  - apply add_ok; [done| |by apply Hg..]. destruct running; cbn in Hr; congruence.
  - apply add_ok; [done| |done|by left]. destruct running; cbn in Hr; congruence.
  - apply delete_ok; [done|]. destruct running; cbn in Hr; congruence.
  - destruct running; [done|]. by apply revert_ok.
  - by exists st.
Qed.

Lemma serve_all_ok running rs st :
  agree st -> Forall (good body) rs -> Forall (allowed running) rs -> exists st', serve_all running rs st = Ok st' /\ agree st' /\ table_of st' = fold_left t_serve rs (table_of st).
Proof.
  intros Ha Hg Hr. revert st Ha. induction rs as [|r rs IH]; intros st Ha; cbn [serve_all fold_left]; [by exists st|]. apply Forall_cons in Hg as [Hg1 Hg]. apply Forall_cons in Hr as [Hr1 Hr].
  destruct (serve_ok running r st Ha Hg1 Hr1) as (st1 & -> & Ha1 & <-). by apply IH.
Qed.

Lemma calling_agree b st : agree st -> agree (set_calling b st) /\ table_of (set_calling b st) = table_of st.
Proof. intros [A1 A2 A3 A4 A5]. split; [by constructor|done]. Qed.

Lemma read_ok choice st : agree st -> exists st', handle_read body choice st = Ok st' /\ agree st' /\ table_of st' = t_step body (table_of st) (Read choice).
Proof.
  intros Ha. pose proof Ha as [A1 A2 A3 A4 A5]. unfold handle_read, read_signal. cbn [t_step table_of handlers waiting].
  assert (Hw : pending (sys st) ∩ fd_mask (sys st) = pending (sys st)) by (rewrite A2, <- A3; set_solver). rewrite Hw. case_bool_decide as Hin; [|by exists st; split; [|split; [|case_match]]].
  assert (Hd : choice ∈ dom (signals_ (server st))) by (rewrite <- A1; apply A4 in Hin; rewrite A3 in Hin; unfold blockable in Hin; set_solver). apply elem_of_dom in Hd as [id E]. cbn [set_calling server signals_ sys called]. rewrite E.
  match goal with |- context [serve_all _ _ ?s] => set (st1 := s) end. assert (Ha1 : agree st1) by (constructor; cbn; [done..|set_solver|done]).
  destruct (A5 choice id E) as [_ Ht]. destruct (serve_all_ok (Some choice) (if id =? signal_ignore then [] else body id) st1 Ha1) as (st2 & -> & Ha2 & E2).
  - destruct (id =? signal_ignore); [constructor|]. apply Forall_forall. apply bodies_good.
  - destruct (Z.eqb_spec id signal_ignore) as [Ei|Ei]; [constructor|]. destruct Ht as [?|Ht]; [done|]. apply Forall_forall. exact Ht.
  - cbn [mbind outcome_bind]. eexists. split; [reflexivity|]. destruct (calling_agree false st2 Ha2) as [Hc Hc']. split; [done|]. by rewrite Hc', E2.
Qed.

Lemma signal_ok signo st : agree st -> agree (mkState (server st) (arrive signo (sys st)) (called st)) /\ table_of (mkState (server st) (arrive signo (sys st)) (called st)) = t_signal signo (table_of st).
Proof.
  intros [A1 A2 A3 A4 A5]. unfold arrive, t_signal. cbn [table_of handlers]. assert (Hm : signo ∈ mask (sys st) <-> is_Some (signals_ (server st) !! signo) /\ signo ∉ ({[ SIGKILL; SIGSTOP ]} : gset Z)).
  { rewrite A3, A1. unfold blockable. rewrite elem_of_difference, elem_of_dom. done. }
  destruct (bool_decide (signo ∈ mask (sys st))) eqn:E.
  - apply bool_decide_eq_true in E. rewrite bool_decide_true by (by apply Hm). split; [constructor; cbn; [done..|set_solver|done]|done].
  - apply bool_decide_eq_false in E. rewrite bool_decide_false by (by rewrite <- Hm). split; [by constructor|done].
Qed.

Definition good_event (e : event) : Prop := match e with Request r => good body r | _ => True end.

Lemma run_ok es st : agree st -> Forall good_event es -> exists st', run body es st = Ok st' /\ agree st' /\ table_of st' = fold_left (t_step body) es (table_of st).
Proof.
  intros Ha Hg. revert st Ha. induction es as [|e es IH]; intros st Ha; cbn [run fold_left]; [by exists st|]. apply Forall_cons in Hg as [Hg1 Hg].
  assert (exists st1, step body e st = Ok st1 /\ agree st1 /\ table_of st1 = t_step body (table_of st) e) as (st1 & -> & Ha1 & <-); [|by apply IH].
  destruct e as [r|signo|choice]; cbn [step].
  - by apply serve_ok.
  - destruct (signal_ok signo st Ha) as [H1 H2]. by eexists.
  - by apply read_ok.
Qed.

End refinement.

(** ** Theorems *)

(** C24. A signal server refines a table of handlers with a set of waiting signals: a signal with a handler waits and is handed to the handler it has
    when it is read, and only a signal without one, or whose handler is deleted while it waits, takes its default action.  The callbacks, the set of the
    descriptor, its mask and the mask of the thread agree at all times, and nothing fails, as long as no callback replaces or deletes itself. *)
Theorem signals_refine_table (body : callback -> list request) (es : list event) :
  (forall id r, r ∈ body id -> good body r) -> Forall (good_event body) es ->
  exists st, run body es (make_server (mkKernel ∅ ∅ ∅ [])) = Ok st
    /\ table_of st = fold_left (t_step body) es (mkTable ∅ ∅ [] [])
    /\ dom (signals_ (server st)) = sigset_ (server st) /\ fd_mask (sys st) = blockable (sigset_ (server st)) /\ mask (sys st) = fd_mask (sys st).
Proof.
  intros Hb Hg. destruct (run_ok body Hb es (make_server (mkKernel ∅ ∅ ∅ []))) as (st & E & [A1 A2 A3 A4 A5] & Ht); [|done|].
  - constructor; cbn; [by rewrite dom_empty_L|done|unfold blockable; set_solver|set_solver|done].
  - exists st. split_and!; [done|exact Ht|done|done|congruence].
Qed.

(** Callback 1, of signal 10, registers callback 2 for signal 12. *)
Definition some_body (id : callback) : list request := if id =? 1 then [Add 12 2] else [].

Lemma signals_refine_table_witness :
  exists st, run some_body [Request (Add 10 1); Signal 10; Signal 12; Signal 10; Read 10; Signal 12; Read 10; Read 12; Signal 12; Request (Delete 12)] (make_server (mkKernel ∅ ∅ ∅ [])) = Ok st
    /\ called st = [(12, 2); (10, 1)] /\ defaulted (sys st) = [12; 12].
Proof.
  destruct (signals_refine_table some_body [Request (Add 10 1); Signal 10; Signal 12; Signal 10; Read 10; Signal 12; Read 10; Read 12; Signal 12; Request (Delete 12)]) as (st & E & Ht & _).
  - intros id r Hr. unfold some_body in Hr. destruct (id =? 1); [|by apply elem_of_nil in Hr]. apply list_elem_of_singleton in Hr as ->. split; [reflexivity|]. right. intros r Hr. by apply elem_of_nil in Hr.
  - constructor; [|repeat constructor]. split; [reflexivity|]. right. intros r Hr. apply list_elem_of_singleton in Hr as ->. discriminate.
  - exists st. split; [exact E|]. assert (H1 : ran (table_of st) = [(12, 2); (10, 1)]) by (rewrite Ht; vm_compute; reflexivity).
    assert (H2 : acted (table_of st) = [12; 12]) by (rewrite Ht; vm_compute; reflexivity). split; [exact H1|exact H2].
Defined.

(** A signal that the program had blocked itself is unblocked when the server deletes one of its own, and takes its default action. *)
Example foreign_mask_lost :
  match run some_body [Request (Add 10 2); Signal 15; Request (Delete 10)] (make_server (mkKernel {[ 15 ]} ∅ ∅ [])) with
  | Ok st => Some (defaulted (sys st), bool_decide (mask (sys st) = ∅)) | Fault _ => None end = Some ([15], true).
Proof. vm_compute. reflexivity. Qed.

(** A callback that deletes its own signal destroys the function object that is running. *)
Example callback_deletes_itself :
  run (fun _ => [Delete 10]) [Request (Add 10 1); Signal 10; Read 10] (make_server (mkKernel ∅ ∅ ∅ [])) = Fault (Undefined "delete_signal: running callback").
Proof. vm_compute. reflexivity. Qed.
