(* ===== verification/Scoped.v ===== *)
(** * ScopedGeneric (include/ScopedGeneric.h, include/ScopedFile.h, include/ScopedClearLastError.h)

    The owner of a value that acts like a pointer, with its two uses: [ScopedFD], which closes a
    file descriptor, and [ScopedClearLastError], which is to save [errno].  What [free] does
    is a parameter of the class, its traits; scopers are variables, by number, and the
    rest of the world is what [free] acts on.

    The file shows that a program that hands every descriptor it opens to a scoper closes
    each exactly once, never one that is not open, and leaks none, whatever it does with
    the scopers; and that a default-constructed scoper, as [ScopedClearLastError] is
    used everywhere, never runs [free]. *)

From S2P Require Import Prelude.

(** ** Definitions *)

(** [Traits]: the invalid value and [free], on a world of type [W]. *)
Record Traits (W : Type) : Type := mkTraits {
  invalid_value : Z;
  free : Z -> W -> outcome W;
}.
Arguments invalid_value {W} _.
Arguments free {W} _ _ _.

Section ScopedGeneric.
Context {W : Type} (T : Traits W).

(** [data_.generic], and the world. *)
Abbreviation scoper := Z (only parsing).

Definition is_valid (g : scoper) : bool := negb (g =? invalid_value T).

Definition free_if_necessary (g : scoper) (w : W) : outcome (scoper * W) :=
  if is_valid g then w ← free T g w; Ok (invalid_value T, w) else Ok (g, w).

Definition reset (value : Z) (g : scoper) (w : W) : outcome (scoper * W) :=
  check (negb (is_valid g && (g =? value))) "reset: abort";;
  '(_, w) ← free_if_necessary g w; Ok (value, w).

(** The value, and the scoper. *)
Definition release (g : scoper) : Z * scoper := (g, invalid_value T).

(** [receive()], and the store of [value] through the pointer it returns. *)
Definition receive (value : Z) (g : scoper) (w : W) : outcome (scoper * W) :=
  '(_, w) ← reset (invalid_value T) g w; Ok (value, w).

(** *** Programs

    The scopers of a program and what it does with them. *)

Inductive op : Type :=
| Default (i : nat)
| Make (i : nat) (value : Z)
| MoveConstruct (i j : nat)      (** [i] from [j] *)
| MoveAssign (i j : nat)
| Reset (i : nat) (value : Z)
| Receive (i : nat) (value : Z)
| Swap (i j : nat)
| Release (i : nat)
| Destroy (i : nat).

Record program : Type := mkProgram {
  scopers : gmap nat Z;
  released : list Z;      (** what [release] gave to the program *)
  world : W;
}.

Definition live (i : nat) (p : program) : outcome Z :=
  match scopers p !! i with Some g => Ok g | None => Fault (Undefined "no such scoper") end.

Definition store (i : nat) (g : Z) (w : W) (p : program) : program :=
  mkProgram (<[i := g]> (scopers p)) (released p) w.

Definition exec (o : op) (p : program) : outcome program :=
  match o with
  | Default i =>
      defined (bool_decide (scopers p !! i = None)) "declared twice";;
      Ok (store i (invalid_value T) (world p) p)
  | Make i value =>
      defined (bool_decide (scopers p !! i = None)) "declared twice";;
      Ok (store i value (world p) p)
  | MoveConstruct i j =>
      defined (bool_decide (scopers p !! i = None)) "declared twice";;
      g ← live j p;
      let '(v, g) := release g in
      Ok (store i v (world p) (store j g (world p) p))
  | MoveAssign i j =>
      g ← live j p;
      let '(v, g) := release g in
      let p := store j g (world p) p in
      g ← live i p;
      '(g, w) ← reset v g (world p);
      Ok (store i g w p)
  | Reset i value => g ← live i p; '(g, w) ← reset value g (world p); Ok (store i g w p)
  | Receive i value => g ← live i p; '(g, w) ← receive value g (world p); Ok (store i g w p)
  | Swap i j =>
      gi ← live i p; gj ← live j p;
      Ok (store j gi (world p) (store i gj (world p) p))
  | Release i =>
      g ← live i p;
      let '(v, g) := release g in
      Ok (mkProgram (<[i := g]> (scopers p)) (released p ++ [v]) (world p))
  | Destroy i =>
      g ← live i p;
      '(_, w) ← free_if_necessary g (world p);
      Ok (mkProgram (delete i (scopers p)) (released p) w)
  end.

End ScopedGeneric.
Arguments mkProgram {W} _ _ _.
Arguments scopers {W} _.
Arguments released {W} _.
Arguments world {W} _.
Arguments live {W} _ _.
Arguments store {W} _ _ _ _.

(** *** ScopedFD: the world is the set of open descriptors *)

Definition kInvalidPlatformFile : Z := -1.

(** close(2), whose only error that counts is [EBADF]. *)
Definition close_fd (fd : Z) (open : gset Z) : outcome (gset Z) :=
  check (bool_decide (fd ∈ open)) "ScopedFDCloseTraits::free";; Ok (open ∖ {[fd]}).

Definition ScopedFDCloseTraits : Traits (gset Z) := mkTraits (gset Z) kInvalidPlatformFile close_fd.

(** A program opens the descriptor it gives to a scoper: open(2) returns one that is not
    open, or the invalid one when it fails, which is also the argument of a plain [reset()]. *)
Definition opened (o : op) : option Z :=
  match o with
  | Make _ v | Reset _ v | Receive _ v => if v =? kInvalidPlatformFile then None else Some v
  | _ => None
  end.

Definition may_open (o : op) (open : gset Z) : bool :=
  match opened o with Some v => bool_decide (v ∉ open) | None => true end.

Definition open_fd (o : op) (p : program (W := gset Z)) : program :=
  mkProgram (scopers p) (released p)
    (match opened o with Some v => {[v]} ∪ world p | None => world p end).

Fixpoint run_fds (os : list op) (p : program) : outcome program :=
  match os with
  | [] => Ok p
  | o :: os =>
      defined (may_open o (world p)) "open";;
      p ← exec ScopedFDCloseTraits o (open_fd o p); run_fds os p
  end.

(** *** ScopedClearLastError: the world is [errno] *)

(** The traits of one object, constructed when [errno] was [last_errno]. *)
Definition ScopedClearLastErrorTraits (last_errno : Z) : Traits Z :=
  mkTraits Z (-1) (fun _ _ => Ok last_errno).

(** [ScopedClearLastError last_error;] around code that leaves [errno] as [f] does: the
    constructor of the traits clears it, and the destructor runs at the end of the scope. *)
Definition with_clear_last_error (f : Z -> Z) (errno : Z) : outcome Z :=
  let T := ScopedClearLastErrorTraits errno in
  p ← exec T (Default 0) (mkProgram ∅ [] 0);
  p ← exec T (Destroy 0) (mkProgram (scopers p) (released p) (f (world p)));
  Ok (world p).

(** ** Lemmas *)

(** Every descriptor that is open has one owner: a scoper, the program since a [release], or, for
    those of [base], someone else. *)
Record fds_ok (base : gset Z) (sc : gmap nat Z) (rel : list Z) (open : gset Z) : Prop := {
  fo_one i j v : sc !! i = Some v -> sc !! j = Some v -> v <> -1 -> i = j;
  fo_owned i v : sc !! i = Some v -> v <> -1 -> (v ∈ open) /\ (v ∉ rel) /\ (v ∉ base);
  fo_cover v : v ∈ open -> (exists i, sc !! i = Some v) \/ v ∈ rel \/ v ∈ base;
  fo_valid : (-1) ∉ open;
  fo_rest v : (v ∈ rel /\ v <> -1) \/ v ∈ base -> v ∈ open;
}.

Section FdsOk.
Context (base : gset Z).
Abbreviation ok := (fds_ok base).

Lemma ok_blank sc rel open i : ok sc rel open -> sc !! i = None -> ok (<[i := -1]> sc) rel open.
Proof.
  intros [H1 H2 H3 H4 H5] Hi. split; [| | |done|done].
  - intros a b v. rewrite !lookup_insert. repeat case_decide; naive_solver.
  - intros a v. rewrite lookup_insert. case_decide; naive_solver.
  - intros v Hv. destruct (H3 v Hv) as [[j Hj]|H]; [left; exists j|by right].
    rewrite lookup_insert_ne; [done|]. intros ->. congruence.
Qed.

Lemma ok_drop sc rel open i : ok sc rel open -> sc !! i = Some (-1) -> ok (delete i sc) rel open.
Proof.
  intros [H1 H2 H3 H4 H5] Hi. split; [| | |done|done].
  - intros a b v. rewrite !lookup_delete_Some. naive_solver.
  - intros a v. rewrite lookup_delete_Some. naive_solver.
  - intros v Hv. destruct (H3 v Hv) as [[j Hj]|H]; [left; exists j|by right].
    rewrite lookup_delete_ne; [done|]. intros ->. congruence.
Qed.

Lemma ok_free sc rel open i v :
  ok sc rel open -> sc !! i = Some v -> v <> -1 -> ok (<[i := -1]> sc) rel (open ∖ {[v]}).
Proof.
  intros [H1 H2 H3 H4 H5] Hi Hv. destruct (H2 i v Hi Hv) as (Ho & Hr & Hb).
  split; [| | |set_solver|intros x Hx; specialize (H5 x Hx); clear - H5 Hx Hr Hb; set_solver].
  - intros a b x. rewrite !lookup_insert. repeat case_decide; naive_solver.
  - intros a x. rewrite lookup_insert. case_decide as E; [naive_solver|]. intros Ha Hx.
    assert (x <> v) by (intros ->; apply E; eauto). destruct (H2 a x Ha Hx) as (? & ? & ?). set_solver.
  - intros x Hx. assert (x ∈ open /\ x <> v) as [Hx1 Hx2] by set_solver.
    destruct (H3 x Hx1) as [[j Hj]|H]; [left; exists j|by right]. rewrite lookup_insert_ne; [done|]. congruence.
Qed.

Lemma ok_put sc rel open i v :
  ok sc rel open -> sc !! i = Some (-1) -> v ∉ open -> v <> -1 ->
  ok (<[i := v]> sc) rel ({[v]} ∪ open).
Proof.
  intros [H1 H2 H3 H4 H5] Hi Hv Hn. assert (Hr : v ∉ rel) by (intros ?; apply Hv, H5; auto).
  assert (Hb : v ∉ base) by (intros ?; apply Hv, H5; auto). split; [| | |set_solver|set_solver].
  - intros a b x. rewrite !lookup_insert. repeat case_decide; naive_solver.
  - intros a x. rewrite lookup_insert. case_decide; [set_solver|]. intros Ha Hx.
    destruct (H2 a x Ha Hx) as (? & ? & ?). set_solver.
  - intros x Hx. destruct (decide (x = v)) as [->|Hne]; [left; exists i; by apply lookup_insert_eq|].
    destruct (H3 x) as [[j Hj]|H]; [set_solver|left; exists j|by right].
    destruct (decide (i = j)) as [->|]; [|by rewrite lookup_insert_ne]. assert (x = -1) by congruence. set_solver.
Qed.

Lemma ok_swap sc rel open i j gi gj :
  ok sc rel open -> sc !! i = Some gi -> sc !! j = Some gj -> ok (<[j := gi]> (<[i := gj]> sc)) rel open.
Proof.
  intros [H1 H2 H3 H4 H5] Hi Hj. split; [| | |done|done].
  - intros a b v. rewrite !lookup_insert. repeat case_decide; naive_solver.
  - intros a v. rewrite !lookup_insert. repeat case_decide; naive_solver.
  - intros v Hv. destruct (H3 v Hv) as [[k Hk]|H]; [left|by right].
    destruct (decide (k = i)) as [->|]; [exists j; rewrite lookup_insert_eq; congruence|].
    destruct (decide (k = j)) as [->|]; [exists i|exists k; by rewrite !lookup_insert_ne].
    rewrite lookup_insert_ne, lookup_insert_eq by done. congruence.
Qed.

Lemma ok_release sc rel open i v :
  ok sc rel open -> sc !! i = Some v -> ok (<[i := -1]> sc) (rel ++ [v]) open.
Proof.
  intros [H1 H2 H3 H4 H5] Hi.
  split; [| | |done|intros x [[[Hx| ->%list_elem_of_singleton]%elem_of_app Hn]|Hx]; [apply H5; auto| |apply H5; auto]; by apply (H2 i)].
  - intros a b x. rewrite !lookup_insert. repeat case_decide; naive_solver.
  - intros a x. rewrite lookup_insert. case_decide as E; [naive_solver|]. intros Ha Hx.
    assert (x <> v) by (intros ->; apply E; eauto). destruct (H2 a x Ha Hx) as (? & ? & ?). set_solver.
  - intros x Hx. destruct (H3 x Hx) as [[k Hk]|[H|H]]; [|set_solver..].
    destruct (decide (k = i)) as [->|]; [right; left; simplify_eq; set_solver|].
    left. exists k. by rewrite lookup_insert_ne.
Qed.

(** A move is a swap with a scoper that owns nothing. *)
Lemma ok_move sc rel open i j v :
  ok sc rel open -> sc !! j = Some v -> sc !! i = Some (-1) -> ok (<[i := v]> (<[j := -1]> sc)) rel open.
Proof. intros H Hj Hi. by apply (ok_swap sc rel open j i). Qed.

End FdsOk.

(** Scopers keep the rule, and no check fails. *)
Lemma reset_ok base sc rel open i v g :
  fds_ok base sc rel open -> sc !! i = Some g -> v ∉ open -> v <> -1 ->
  exists open', reset ScopedFDCloseTraits v g ({[v]} ∪ open) = Ok (v, open') /\ fds_ok base (<[i := v]> sc) rel open'.
Proof.
  intros Hok Hg Hv Hn. unfold reset, free_if_necessary, is_valid. cbn [invalid_value ScopedFDCloseTraits].
  unfold kInvalidPlatformFile. destruct (Z.eqb_spec g (-1)) as [->|Hg1]; cbn [negb andb check mbind outcome_bind].
  - eexists. split; [done|]. by apply ok_put.
  - pose proof (fo_owned _ _ _ _ Hok i g Hg Hg1) as (Ho & _).
    replace (g =? v) with false by (symmetry; apply Z.eqb_neq; intros ->; done). cbn [negb check mbind outcome_bind free ScopedFDCloseTraits].
    unfold close_fd. rewrite bool_decide_true by set_solver. cbn [check mbind outcome_bind]. eexists. split; [done|].
    pose proof (ok_put base _ rel _ i v (ok_free base sc rel open i g Hok Hg Hg1)) as Hp.
    rewrite insert_insert_eq in Hp. replace (({[v]} ∪ open) ∖ {[g]}) with ({[v]} ∪ open ∖ {[g]}); [|set_solver].
    apply Hp; [by apply lookup_insert_eq|set_solver|done].
Qed.

Lemma receive_reset v g w :
  g <> v -> receive ScopedFDCloseTraits v g w = reset ScopedFDCloseTraits v g w.
Proof.
  intros Hne. unfold receive, reset, is_valid. cbn [invalid_value ScopedFDCloseTraits].
  replace (g =? v) with false by (symmetry; by apply Z.eqb_neq). rewrite andb_false_r.
  rewrite andb_negb_l. cbn [negb check mbind outcome_bind]. by destruct (free_if_necessary _ _ _) as [[]|].
Qed.

(** A program that did nothing wrong with its variables is in order. *)
Definition in_order (base : gset Z) (r : outcome program) : Prop :=
  match r with
  | Ok p => fds_ok base (scopers p) (released p) (world p)
  | Fault f => exists site, f = Undefined site
  end.

Lemma may_open_value o v open :
  opened o = Some v -> may_open o open = true -> (v ∉ open) /\ v <> -1.
Proof.
  intros Ho. unfold may_open. rewrite Ho. intros Hv%bool_decide_eq_true. split; [done|].
  intros ->. by destruct o; cbn [opened] in Ho; try discriminate Ho;
    (destruct (Z.eqb_spec value kInvalidPlatformFile) as [?|Hn]; [discriminate Ho|]; injection Ho as ->).
Qed.

Lemma scoper_destroy_ok base sc rel open i g :
  fds_ok base sc rel open -> sc !! i = Some g ->
  exists open', free_if_necessary ScopedFDCloseTraits g open = Ok (-1, open') /\ fds_ok base (<[i := -1]> sc) rel open'.
Proof.
  intros Hok Hg. unfold free_if_necessary, is_valid. cbn [invalid_value ScopedFDCloseTraits free].
  unfold kInvalidPlatformFile. destruct (Z.eqb_spec g (-1)) as [->|Hg1]; cbn [negb].
  - exists open. by rewrite insert_id.
  - pose proof (fo_owned _ _ _ _ Hok i g Hg Hg1) as (Ho & _). unfold close_fd. rewrite bool_decide_true by done.
    cbn [check mbind outcome_bind]. eexists. split; [done|]. by apply ok_free.
Qed.

Lemma move_assign_ok base sc rel open i j v g :
  fds_ok base sc rel open -> sc !! j = Some v -> <[j := -1]> sc !! i = Some g ->
  exists open', reset ScopedFDCloseTraits v g open = Ok (v, open') /\ fds_ok base (<[i := v]> (<[j := -1]> sc)) rel open'.
Proof.
  intros Hok Hj Hi. destruct (decide (i = j)) as [->|Hne].
  - rewrite lookup_insert_eq in Hi. simplify_eq. rewrite insert_insert_eq, insert_id by done. exists open.
    split; [|done]. unfold reset, free_if_necessary, is_valid. by cbn.
  - rewrite lookup_insert_ne in Hi by done. destruct (scoper_destroy_ok base sc rel open i g Hok Hi) as (open' & E & Hok').
    exists open'. unfold reset. rewrite E. split.
    + replace (is_valid ScopedFDCloseTraits g && (g =? v)) with false; [done|]. symmetry. apply andb_false_iff.
      unfold is_valid. cbn. unfold kInvalidPlatformFile. destruct (Z.eqb_spec g (-1)); [by left|right].
      apply Z.eqb_neq. intros ->. by destruct Hne; apply (fo_one _ _ _ _ Hok i j v).
    + pose proof (ok_move base _ rel open' i j v Hok') as Hm. rewrite insert_insert_ne, insert_insert_eq, insert_insert_ne in Hm by done.
      apply Hm; [by rewrite lookup_insert_ne|by apply lookup_insert_eq].
Qed.

(** Nothing is opened: a scoper is emptied, or is made empty. *)
Lemma reset_invalid base sc rel open i g :
  fds_ok base sc rel open -> sc !! i = Some g ->
  exists open', reset ScopedFDCloseTraits (-1) g open = Ok (-1, open') /\ fds_ok base (<[i := -1]> sc) rel open'.
Proof.
  intros Hok Hg. destruct (scoper_destroy_ok base sc rel open i g Hok Hg) as (open' & E & Hok'). exists open'. split; [|done].
  unfold reset. rewrite E. unfold is_valid. cbn [invalid_value ScopedFDCloseTraits]. unfold kInvalidPlatformFile.
  by rewrite andb_negb_l.
Qed.

Lemma exec_invalid base o p :
  fds_ok base (scopers p) (released p) (world p) ->
  match o with Make _ v | Reset _ v | Receive _ v => v = -1 | _ => False end ->
  in_order base (exec ScopedFDCloseTraits o (open_fd o p)).
Proof.
  intros Hok Hv. destruct p as [sc rel open]. cbn [scopers released world] in *.
  destruct o as [i|i v|i j|i j|i v|i v|i j|i|i]; try done; subst v; unfold exec, live, open_fd; cbn [opened scopers released world store];
    change (-1 =? kInvalidPlatformFile) with true; unfold defined; cbn [invalid_value ScopedFDCloseTraits].
  - case_bool_decide; [|by eexists]. by apply ok_blank.
  - destruct (sc !! i) as [g|] eqn:Hi; [|by eexists]. cbn [mbind outcome_bind].
    destruct (reset_invalid base sc rel open i g Hok Hi) as (open' & E & Hok'). by rewrite E.
  - destruct (sc !! i) as [g|] eqn:Hi; [|by eexists]. cbn [mbind outcome_bind].
    destruct (reset_invalid base sc rel open i g Hok Hi) as (open' & E & Hok'). unfold receive. cbn [invalid_value ScopedFDCloseTraits].
    unfold kInvalidPlatformFile. by rewrite E.
Qed.

Lemma exec_ok base o p :
  fds_ok base (scopers p) (released p) (world p) -> may_open o (world p) = true ->
  in_order base (exec ScopedFDCloseTraits o (open_fd o p)).
Proof.
  intros Hok Hm.
  destruct (decide (match o with Make _ v | Reset _ v | Receive _ v => v =? -1 | _ => false end = true)) as [Hi|Hi].
  { apply exec_invalid; [done|]. by destruct o; try done; apply Z.eqb_eq. }
  revert Hok Hm.
  intros Hok Hm. destruct p as [sc rel open]. cbn [scopers released world] in *. pose proof (may_open_value o) as Hv.
  destruct o as [i|i v|i j|i j|i v|i v|i j|i|i]; unfold exec, live, open_fd, kInvalidPlatformFile; cbn [opened scopers released world store];
    unfold defined, kInvalidPlatformFile in *; cbn [invalid_value ScopedFDCloseTraits];
    try (apply not_true_is_false in Hi; rewrite Hi;
         destruct (Hv v open ltac:(cbn [opened]; unfold kInvalidPlatformFile; by rewrite Hi) Hm) as [Hv1 Hv2]); clear Hi.
  - case_bool_decide; [|by eexists]. by apply ok_blank.
  - case_bool_decide as Hi; [|by eexists]. cbn. rewrite <- (insert_insert_eq sc i v (-1)).
    apply ok_put; [by apply ok_blank|by apply lookup_insert_eq|done..].
  - case_bool_decide as Hi; [|by eexists]. destruct (sc !! j) as [g|] eqn:Hj; [|by eexists]. cbn.
    assert (i <> j) by congruence. pose proof (ok_move base _ rel open i j g (ok_blank base sc rel open i Hok Hi)) as H'.
    rewrite insert_insert_ne, insert_insert_eq, insert_insert_ne in H' by done. unfold kInvalidPlatformFile.
    apply H'; [by rewrite lookup_insert_ne|by apply lookup_insert_eq].
  - destruct (sc !! j) as [v|] eqn:Hj; [|by eexists]. cbn [mbind outcome_bind release invalid_value ScopedFDCloseTraits scopers store world].
    unfold kInvalidPlatformFile. destruct (<[j := -1]> sc !! i) as [g|] eqn:Hi; [|by eexists]. cbn [mbind outcome_bind].
    destruct (move_assign_ok base sc rel open i j v g Hok Hj Hi) as (open' & E & Hok'). by rewrite E.
  - destruct (sc !! i) as [g|] eqn:Hi; [|by eexists]. cbn [mbind outcome_bind].
    destruct (reset_ok base sc rel open i v g Hok Hi Hv1 Hv2) as (open' & E & Hok'). by rewrite E.
  - destruct (sc !! i) as [g|] eqn:Hi; [|by eexists]. cbn [mbind outcome_bind].
    destruct (reset_ok base sc rel open i v g Hok Hi Hv1 Hv2) as (open' & E & Hok').
    rewrite receive_reset, E; [done|]. intros ->. by destruct (fo_owned _ _ _ _ Hok i v Hi Hv2).
  - destruct (sc !! i) as [gi|] eqn:Hi; [|by eexists]. destruct (sc !! j) as [gj|] eqn:Hj; [|by eexists]. cbn.
    by apply ok_swap.
  - destruct (sc !! i) as [g|] eqn:Hi; [|by eexists]. cbn. by apply ok_release.
  - destruct (sc !! i) as [g|] eqn:Hi; [|by eexists]. cbn [mbind outcome_bind].
    destruct (scoper_destroy_ok base sc rel open i g Hok Hi) as (open' & E & Hok'). rewrite E. cbn.
    pose proof (ok_drop base _ rel open' i Hok') as H'. rewrite delete_insert_eq in H'. apply H', lookup_insert_eq.
Qed.

Lemma run_fds_ok base os p :
  fds_ok base (scopers p) (released p) (world p) -> in_order base (run_fds os p).
Proof.
  revert p. induction os as [|o os IH]; intros p Hok; cbn [run_fds]; [done|].
  unfold defined. destruct (may_open o (world p)) eqn:Hm; [|by eexists]. cbn [mbind outcome_bind].
  pose proof (exec_ok base o p Hok Hm) as He. destruct (exec _ _ _) as [p'|f]; [by apply IH|done].
Qed.

(** ** Properties *)

(** C32. A program that gives each descriptor it opens to a [ScopedFD], or the invalid one when it could not open any, and then moves, assigns, resets,
    swaps, releases and destroys scopers at will.  No scoper closes a descriptor that is not open
    and no [reset] aborts: only the misuse of the program's own variables is a fault.  At every point
    two scopers own different descriptors, those they own are open, and every open
    descriptor is owned by a scoper, was released to the program or was open before; so
    when no scoper is left nothing else is open. *)
Theorem scoped_fds_correct (base : gset Z) (os : list op) :
  (-1) ∉ base ->
  match run_fds os (mkProgram ∅ [] base) with
  | Ok p =>
      (forall i j v, scopers p !! i = Some v -> scopers p !! j = Some v -> v <> -1 -> i = j /\ v ∈ world p) /\
      base ⊆ world p /\
      (scopers p = ∅ -> forall v, v ∈ world p -> v ∈ released p \/ v ∈ base)
  | Fault f => exists site, f = Undefined site
  end.
Proof.
  intros Hb. assert (Hok : fds_ok base ∅ [] base) by (split; [done..|auto|done|set_solver]).
  pose proof (run_fds_ok base os (mkProgram ∅ [] base) Hok) as H. unfold in_order in H.
  destruct (run_fds _ _) as [p|f]; [|done]. destruct H as [H1 H2 H3 H4 H5]. split_and!.
  - intros i j v Hi Hj Hv. split; [eauto|]. by destruct (H2 i v Hi Hv).
  - intros v Hv. apply H5. auto.
  - intros E v Hv. destruct (H3 v Hv) as [[i Hi]|H]; [|done]. by rewrite E in Hi.
Qed.

Lemma scoped_fds_correct_witness :
  exists p, run_fds [Make 0 5; Default 1; MoveAssign 1 0; Make 2 6; Swap 1 2; Reset 2 7; MoveAssign 1 1; Make 3 (-1); Reset 3 8; Reset 3 (-1);
                     Release 1; Destroy 0; Destroy 1; Destroy 2; Destroy 3] (mkProgram ∅ [] {[0; 1; 2]}) = Ok p /\
            world p = {[0; 1; 2; 6]} /\ released p = [6] /\ ({[0; 1; 2]} : gset Z) ⊆ world p.
Proof.
  pose proof (scoped_fds_correct {[0; 1; 2]} [Make 0 5; Default 1; MoveAssign 1 0; Make 2 6; Swap 1 2; Reset 2 7;
    MoveAssign 1 1; Make 3 (-1); Reset 3 8; Reset 3 (-1); Release 1; Destroy 0; Destroy 1; Destroy 2; Destroy 3]) as H.
  destruct (run_fds _ _) as [p|f] eqn:E.
  - exists p. split; [reflexivity|]. vm_compute in E. injection E as <-. split; [vm_compute; reflexivity|].
    split; [vm_compute; reflexivity|]. apply H. vm_compute. intros X. discriminate X.
  - exfalso. vm_compute in E. discriminate E.
Defined.

(** [ScopedClearLastError last_error;] is default-constructed, with the invalid value, so its
    destructor never restores [errno]: the scope leaves it as the code inside does,
    starting from zero. *)
Theorem last_error_lost (f : Z -> Z) (errno : Z) : with_clear_last_error f errno = Ok (f 0).
Proof. done. Qed.
