(* ===== verification/StringPrintf.v ===== *)
(** * StringPrintf (include/strings/StringPrintf.h, src/StringPrintf.cc) and
    SafeStrerror (src/SafeStrerror.cc)

    Formatted output into strings.  What a format and its arguments print is a parameter: the
    text, or the error of the conversion; [vsnprintf] is vsnprintf(3) given that.  The
    conversion reads the same arguments at each call, as the code copies its [va_list].
    strerror_r(3) in the GNU version is a parameter too.

    The file shows that the text is appended in full when it is shorter than 32 MiB
    and that nothing is appended otherwise, with at most seventeen attempts, and what becomes of
    [errno]; and that error messages are cut to the size of the buffer. *)

From S2P Require Import Prelude StringPiece Scoped.

(** ** Definitions *)

Definition EOVERFLOW : Z := 75.

(** vsnprintf(3): the result, [errno] and the characters stored before the final NUL. *)
Definition vsnprintf (printed : bytes + Z) (buf_size errno : Z) : Z * Z * bytes :=
  match printed with
  | inl text =>
      if zlen text <=? kInt32Max then (zlen text, errno, ztake (buf_size - 1) text) else (-1, EOVERFLOW, [])
  | inr e => (-1, e, [])
  end.

Definition stack_buf_size : Z := 1024.
Definition kMaxMemLength : Z := 32 * 1024 * 1024.

(** [dst->append(buf, n)] of a buffer that holds [stored]. *)
Definition append (dst stored : bytes) (n : Z) : bytes := dst ++ ztake n stored.

(** The loop of [sstring_appendvt], entered with [mem_length]; the string and [errno]. *)
Fixpoint appendvt_loop (fuel : nat) (printed : bytes + Z) (dst : bytes) (mem_length result errno : Z) :
    outcome (bytes * Z) :=
  match fuel with
  | O => Fault OutOfFuel
  | S fuel =>
      if (result <? 0) && negb (errno =? 0) && negb (errno =? EOVERFLOW) then Ok (dst, errno)
      else
        (* int arithmetic *)
        let mem_length := if result <? 0 then mem_length * 2 else result + 1 in
        defined (mem_length <=? kInt32Max) "sstring_appendvt: mem_length";;
        if kMaxMemLength <? mem_length then Ok (dst, errno)
        else
          let '(result, errno, stored) := vsnprintf printed mem_length errno in
          if (0 <=? result) && (result <? mem_length) then Ok (append dst stored result, errno)
          else appendvt_loop fuel printed dst mem_length result errno
  end.

Definition appendvt_fuel : nat := 17.

(** Inside the scope of [last_error], from a clear [errno]. *)
Definition appendvt_body (printed : bytes + Z) (dst : bytes) (errno : Z) : outcome (bytes * Z) :=
  let '(result, errno, stored) := vsnprintf printed stack_buf_size errno in
  if (0 <=? result) && (result <? stack_buf_size) then Ok (append dst stored result, errno)
  else appendvt_loop appendvt_fuel printed dst stack_buf_size result errno.

Definition sstring_appendvt (printed : bytes + Z) (dst : bytes) (errno : Z) : outcome (bytes * Z) :=
  '(dst, e) ← appendvt_body printed dst 0;
  errno ← with_clear_last_error (fun _ => e) errno;
  Ok (dst, errno).

(** [sstring_appendv] and [sstring_appendf]. *)
Definition sstring_appendv (printed : bytes + Z) (dst : bytes) (errno : Z) : outcome (bytes * Z) :=
  sstring_appendvt printed dst errno.

(** [string_printf] and [string_printv]. *)
Definition string_printf (printed : bytes + Z) (errno : Z) : outcome (bytes * Z) :=
  sstring_appendv printed [] errno.

(** [sstring_printf] and [sstring_printv] of a string: [dst->clear()] first. *)
Definition sstring_printf (printed : bytes + Z) (dst : bytes) (errno : Z) : outcome (bytes * Z) :=
  sstring_appendv printed [] errno.

(** [sstring_printf] and [sstring_printv] of a buffer: the result and what it holds. *)
Definition buffer_printf (printed : bytes + Z) (len errno : Z) : Z * bytes :=
  let '(result, _, stored) := vsnprintf printed len errno in (result, stored).

(** *** SafeStrerror *)

(** Where strerror_r(3) leaves the message. *)
Inductive strerror_result : Type :=
| InBuffer (text : bytes)    (** in the buffer, cut and terminated *)
| Static (text : bytes).

(** The message in [buf] after the call. *)
Definition wrap_posix_strerror_r (strerror_r : Z -> Z -> strerror_result) (err len : Z) : bytes :=
  match strerror_r err len with
  | InBuffer text => text
  | Static text => ztake (len - 1) (of_cstr text)     (* strncat(buf, rc, len - 1) *)
  end.

(** [has_buf]: [buf] is not null; [StringPiece(buf)]. *)
Definition safe_strerror_r (strerror_r : Z -> Z -> strerror_result) (err : Z) (has_buf : bool) (len : Z) : bytes :=
  if negb has_buf || (len <=? 0) then [] else of_cstr (wrap_posix_strerror_r strerror_r err len ++ [Byte.x00]).

Definition safe_strerror (strerror_r : Z -> Z -> strerror_result) (err : Z) : bytes :=
  safe_strerror_r strerror_r err true 256.

Definition fast_safe_strerror (strerror_r : Z -> Z -> strerror_result) (err : Z) : bytes :=
  of_cstr (wrap_posix_strerror_r strerror_r err 256 ++ [Byte.x00]).

(** ** Lemmas *)

(** The text that the second attempt, sized by the first, appends. *)
Lemma loop_sized fuel text dst m errno :
  zlen text <= kInt32Max -> 0 <= zlen text ->
  appendvt_loop (S fuel) (inl text) dst m (zlen text) errno =
    (if zlen text =? kInt32Max then Fault (Undefined "sstring_appendvt: mem_length")
     else if kMaxMemLength <? zlen text + 1 then Ok (dst, errno) else Ok (dst ++ text, errno)).
Proof.
  intros Hm H0. cbn [appendvt_loop]. replace (zlen text <? 0) with false by (symmetry; apply Z.ltb_ge; lia).
  cbn [andb]. unfold defined. unfold kInt32Max in *. destruct (Z.eqb_spec (zlen text) (2 ^ 31 - 1)) as [E|E].
  { rewrite E. done. }
  replace (zlen text + 1 <=? 2 ^ 31 - 1) with true by (symmetry; apply Z.leb_le; lia). cbn [mbind outcome_bind].
  destruct (kMaxMemLength <? zlen text + 1); [done|]. cbn [vsnprintf]. unfold kInt32Max.
  replace (zlen text <=? 2 ^ 31 - 1) with true by (symmetry; apply Z.leb_le; lia).
  replace (0 <=? zlen text) with true by (symmetry; apply Z.leb_le; lia).
  replace (zlen text <? zlen text + 1) with true by (symmetry; apply Z.ltb_lt; lia). cbn [andb]. unfold append.
  by rewrite !ztake_ge by (rewrite ?ztake_ge; lia).
Qed.

(** An error that may be a lack of space: the buffer is doubled up to its limit. *)
Lemma loop_overflow printed dst e0 :
  e0 = 0 \/ e0 = EOVERFLOW -> (forall n e, vsnprintf printed n e = (-1, e0, [])) ->
  appendvt_loop appendvt_fuel printed dst stack_buf_size (-1) e0 = Ok (dst, e0).
Proof.
  intros He H. unfold appendvt_fuel, stack_buf_size.
  destruct He as [-> | ->]; do 16 (cbn [appendvt_loop]; rewrite H; cbn -[appendvt_loop vsnprintf]); done.
Qed.

Lemma loop_error fuel printed dst m e :
  e <> 0 -> e <> EOVERFLOW -> appendvt_loop (S fuel) printed dst m (-1) e = Ok (dst, e).
Proof.
  intros H1 H2. cbn [appendvt_loop]. replace (e =? 0) with false by (symmetry; by apply Z.eqb_neq).
  replace (e =? EOVERFLOW) with false by (symmetry; by apply Z.eqb_neq). done.
Qed.

Lemma strncat_no_nul n text : of_cstr (ztake n (of_cstr text) ++ [Byte.x00]) = ztake n (of_cstr text).
Proof.
  unfold ztake. generalize (Z.to_nat n) as k. induction text as [|c text IH]; intros [|k]; cbn; try done.
  destruct (bool_decide (c = Byte.x00)) eqn:E; cbn; [done|]. rewrite E. f_equal. apply IH.
Qed.

(** A message that strerror_r(3) keeps outside of the buffer is cut to its size. *)
Lemma strerror_cut strerror_r err len text :
  0 < len -> strerror_r err len = Static text ->
  safe_strerror_r strerror_r err true len = ztake (len - 1) (of_cstr text).
Proof.
  intros Hl Hs. unfold safe_strerror_r, wrap_posix_strerror_r. rewrite Hs.
  replace (len <=? 0) with false by (symmetry; apply Z.leb_gt; lia). cbn [negb orb]. apply strncat_no_nul.
Qed.

(** ** Properties *)

(** Formatted output, for every text, every error and every length: a text of less than
    32 MiB is appended in full; a longer one, up to the largest result of vsnprintf(3), and one
    beyond it, leave the string alone, and so does an error of the conversion; a text of
    exactly [INT_MAX] characters overflows [result + 1].  The loop always ends.  [errno] is
    not restored: it is zero after a success and the error after a failure. *)
Theorem printf_correct (printed : bytes + Z) (dst : bytes) (errno : Z) :
  sstring_appendvt printed dst errno =
  match printed with
  | inl text =>
      if zlen text <? kMaxMemLength then Ok (dst ++ text, 0)
      else if zlen text <? kInt32Max then Ok (dst, 0)
      else if zlen text =? kInt32Max then Fault (Undefined "sstring_appendvt: mem_length")
      else Ok (dst, EOVERFLOW)
  | inr e => Ok (dst, e)
  end.
Proof.
  unfold sstring_appendvt, appendvt_body. destruct printed as [text|e].
  - pose proof (zlen_nonneg text) as H0. cbn [vsnprintf].
    destruct (Z.leb_spec (zlen text) kInt32Max) as [Hm|Hm].
    + replace (0 <=? zlen text) with true by (symmetry; apply Z.leb_le; lia). cbn [andb].
      destruct (Z.ltb_spec (zlen text) stack_buf_size) as [Hs|Hs]; unfold stack_buf_size in Hs.
      * replace (zlen text <? kMaxMemLength) with true by (symmetry; apply Z.ltb_lt; unfold kMaxMemLength; lia).
        unfold append, stack_buf_size. rewrite !ztake_ge by (rewrite ?ztake_ge; lia). done.
      * unfold appendvt_fuel. rewrite loop_sized by done. unfold kMaxMemLength, kInt32Max in *.
        destruct (Z.eqb_spec (zlen text) (2 ^ 31 - 1)) as [E|E]; [by rewrite E|].
        replace (zlen text <? 2 ^ 31 - 1) with true by (symmetry; apply Z.ltb_lt; lia).
        destruct (Z.ltb_spec (32 * 1024 * 1024) (zlen text + 1)), (Z.ltb_spec (zlen text) (32 * 1024 * 1024)); try lia; done.
    + cbn [Z.leb Z.compare andb]. rewrite loop_overflow; [|by right|].
      2: { intros n e. cbn [vsnprintf]. replace (zlen text <=? kInt32Max) with false by (symmetry; apply Z.leb_gt; lia). done. }
      unfold kMaxMemLength, kInt32Max in *.
      replace (zlen text <? 32 * 1024 * 1024) with false by (symmetry; apply Z.ltb_ge; lia).
      replace (zlen text <? 2 ^ 31 - 1) with false by (symmetry; apply Z.ltb_ge; lia).
      replace (zlen text =? 2 ^ 31 - 1) with false by (symmetry; apply Z.eqb_neq; lia). done.
  - cbn [vsnprintf Z.leb Z.compare andb].
    destruct (decide (e = 0 \/ e = EOVERFLOW)) as [He|He].
    + by rewrite loop_overflow.
    + unfold appendvt_fuel. by rewrite loop_error by tauto.
Qed.
