(* ===== verification/Thread.v ===== *)
(** * Thread and EventLoopThread (include/threading/Thread.h, src/Thread.cc,
    include/EventLoopThread.h, src/EventLoopThread.cc)

    [Thread] is the wrapper around pthreads whose checks fix the order of its calls; the
    first part is that automaton.  The second part is [EventLoopThread], the object that
    runs an [EventLoop] in a thread of its own, composed of [Thread], its
    [CountDownLatch] ([Sync]) and the loop ([EventLoop]).  Two threads take steps: the owner,
    which makes a list of calls, and the thread it starts.  A step is a critical section
    or a stretch of code that touches no shared state; [None] means blocked.

    The file shows which sequences of calls a [Thread] accepts, and that starting a loop and
    destroying its owner is free of faults and of deadlocks and always ends with the
    thread gone and the loop destroyed, whatever the callbacks queue, as long as they do not
    quit the loop themselves. *)

From stdpp Require Import pretty.
From S2P Require Import Prelude Sync EventLoop.

(** ** Thread *)

Definition kInvalidThreadId : Z := 0.

Record Thread : Type := mkThread {
  name_prefix_ : string;
  joinable : bool;
  name_ : string;
  has_ref_ : bool;      (** [ref_] names a thread *)
  tid_ : Z;
  joined_ : bool;
  started_ : bool;
  start_called_ : bool;
}.

Definition make_thread (prefix : string) (joinable : bool) : Thread :=
  mkThread prefix joinable "" false kInvalidThreadId false false false.

Definition mark_joined (t : Thread) : Thread :=
  mkThread (name_prefix_ t) (joinable t) (name_ t) false (tid_ t) true (started_ t) (start_called_ t).
Definition mark_started (t : Thread) : Thread :=
  mkThread (name_prefix_ t) (joinable t) (name_ t) (has_ref_ t) (tid_ t) (joined_ t) true (start_called_ t).

(** The destructor. *)
Definition destroy_thread (t : Thread) : outcome unit :=
  check (started_ t) "~Thread: never started";;
  check (negb (joinable t) || joined_ t) "~Thread: not joined".

(** [created]: whether pthread_create(3) succeeds.  Only a joinable thread keeps [ref_]. *)
Definition start_async (created : bool) (t : Thread) : outcome Thread :=
  check (negb (start_called_ t)) "start_async: started twice";;
  check created "start_async: create";;
  Ok (mkThread (name_prefix_ t) (joinable t) (name_ t) (if joinable t then true else has_ref_ t) (tid_ t)
        (joined_ t) (started_ t) true).

(** The part of [join] before pthread_join(3). *)
Definition check_join (t : Thread) : outcome unit :=
  check (joinable t) "join: not joinable";;
  check (negb (joined_ t)) "join: joined twice";;
  check (start_called_ t) "join: never started".

(** The part of [start_routine] before [latch_.count_down()], in the new thread. *)
Definition initialize (id : Z) (t : Thread) : Thread :=
  mkThread (name_prefix_ t) (joinable t) (name_prefix_ t +:+ "/" +:+ pretty id) (has_ref_ t) id
    (joined_ t) (started_ t) (start_called_ t).

(** *** One thread that calls another

    The calls of one owner when pthread_create(3) succeeds, with the waits over: [start]
    returns once the new thread has initialized, [join] once it has ended.  The new
    thread initializes [id]. *)

Inductive thread_call : Type := Start | StartAsync | Join | Tid | Ref.

#[export] Instance thread_call_eq_dec : EqDecision thread_call.
Proof. solve_decision. Defined.

Definition call_thread (id : Z) (c : thread_call) (t : Thread) : outcome Thread :=
  match c with
  | Start => t ← start_async true t; Ok (mark_started (initialize id t))
  | StartAsync => t ← start_async true t; Ok (initialize id t)
  | Join => check_join t;; Ok (mark_joined t)
  | Tid => check (started_ t) "tid";; Ok t
  | Ref => check (started_ t) "ref";; Ok t
  end.

Fixpoint call_thread_all (id : Z) (cs : list thread_call) (t : Thread) : outcome Thread :=
  match cs with
  | [] => Ok t
  | c :: cs => t ← call_thread id c t; call_thread_all id cs t
  end.

(** The whole life of a [Thread]: the calls, then the destructor. *)
Definition thread_life (id : Z) (prefix : string) (joinable : bool) (cs : list thread_call) : outcome Thread :=
  t ← call_thread_all id cs (make_thread prefix joinable);
  destroy_thread t;; Ok t.

(** ** EventLoopThread *)

(** The calls of the owner; [Destroy] is the destructor. *)
Inductive owner_call : Type := StartLoop | QuitLoop | Destroy.

(** Where the owner is, with the calls it makes after this one. *)
Inductive owner_pc : Type :=
| Next (cs : list owner_call)
| LatchTest (cs : list owner_call)      (** before the section of [latch_.wait()] *)
| LatchWaiting (cs : list owner_call)   (** in the condition variable of the latch *)
| LoopTest (cs : list owner_call)       (** before the section of [start_loop] *)
| LoopWaiting (cs : list owner_call)    (** in [cv_.wait()] *)
| LoopReading (destroys : bool) (cs : list owner_call)  (** before the section of [quit_loop] *)
| LoopQuitting (todo : list EventLoop.call) (destroys : bool) (cs : list owner_call)  (** in [loop->quit()] *)
| ThreadJoining (destroys : bool) (cs : list owner_call)  (** before the checks of [join] *)
| JoinWaiting (destroys : bool) (cs : list owner_call)   (** in pthread_join(3) *)
| Destroyed.

(** Where the thread is: in [start_routine], then in [thread_func]. *)
Inductive looper_pc : Type :=
| Unborn
| Initializing
| Constructing
| InitCalling (todo : list EventLoop.call)   (** in [thread_init_cb_] *)
| Publishing
| Entering                                  (** before [loop.loop()] *)
| Looping (p : EventLoop.pc)
| Leaving
| Destructing                               (** the end of the scope of [loop] *)
| Exited.

Record state : Type := mkState {
  thread_ : Thread;
  latch_ : CountDownLatch.Latch;
  owning_loop_ : bool;               (** not null *)
  exiting_ : bool;
  loop_ : option EventLoop;          (** the object, while it is alive *)
  owner_ : owner_pc;
  looper_ : looper_pc;
}.

Definition with_owner (o : owner_pc) (s : state) : state :=
  mkState (thread_ s) (latch_ s) (owning_loop_ s) (exiting_ s) (loop_ s) o (looper_ s).
Definition with_looper (l : looper_pc) (s : state) : state :=
  mkState (thread_ s) (latch_ s) (owning_loop_ s) (exiting_ s) (loop_ s) (owner_ s) l.
Definition with_thread (t : Thread) (s : state) : state :=
  mkState t (latch_ s) (owning_loop_ s) (exiting_ s) (loop_ s) (owner_ s) (looper_ s).
Definition with_latch (c : CountDownLatch.Latch) (s : state) : state :=
  mkState (thread_ s) c (owning_loop_ s) (exiting_ s) (loop_ s) (owner_ s) (looper_ s).
Definition with_owning (b : bool) (s : state) : state :=
  mkState (thread_ s) (latch_ s) b (exiting_ s) (loop_ s) (owner_ s) (looper_ s).
Definition with_exiting (s : state) : state :=
  mkState (thread_ s) (latch_ s) (owning_loop_ s) true (loop_ s) (owner_ s) (looper_ s).
Definition with_loop (l : option EventLoop) (s : state) : state :=
  mkState (thread_ s) (latch_ s) (owning_loop_ s) (exiting_ s) l (owner_ s) (looper_ s).

(** [broadcast] of the latch and [cv_.signal()]: only the owner waits on either. *)
Definition wake_latch (o : owner_pc) : owner_pc :=
  match o with LatchWaiting cs => LatchTest cs | o => o end.
Definition wake_loop (o : owner_pc) : owner_pc :=
  match o with LoopWaiting cs => LoopTest cs | o => o end.

(** A fresh [EventLoop]. *)
Definition make_loop : EventLoop := mkLoop [] false false false 0 0 [] [].

Definition alive (s : state) (site : string) : outcome EventLoop :=
  match loop_ s with Some e => Ok e | None => Fault (Undefined site) end.

(** The number the owner and the thread use with the locks. *)
Definition the_owner : nat := 0.
Definition the_looper : nat := 1.

Section Steps.
(** What a functor does; the calls of [thread_init_cb_]; the id of the thread. *)
Context (body : nat -> list EventLoop.call) (init : list EventLoop.call) (id : Z).

Definition next_call (cs : list owner_call) (s : state) : option (outcome state) :=
  match cs with
  | [] => None
  | StartLoop :: cs => Some (
      check (negb (started_ (thread_ s))) "start_loop";;
      t ← start_async true (thread_ s);
      Ok (with_owner (LatchTest cs) (with_looper Initializing (with_thread t s))))
  | QuitLoop :: cs => Some (Ok (with_owner (LoopReading false cs) s))
  | Destroy :: cs => Some (Ok (with_owner (LoopReading true cs) s))
  end.

(** One step of the owner. *)
Definition owner_step (s : state) : option (outcome state) :=
  match owner_ s with
  | Next cs => next_call cs s
  | LatchTest cs => Some (
      '(returns, c) ← CountDownLatch.wait the_owner (latch_ s);
      Ok (if (returns : bool) then with_owner (LoopTest cs) (with_thread (mark_started (thread_ s)) (with_latch c s))
          else with_owner (LatchWaiting cs) (with_latch c s)))
  | LoopTest cs => Some (Ok (with_owner (if owning_loop_ s then Next cs else LoopWaiting cs) s))
  | LatchWaiting _ | LoopWaiting _ | Destroyed => None
  | LoopReading d cs => Some (Ok (
      with_owner (if owning_loop_ s then LoopQuitting [EventLoop.Quit] d cs else ThreadJoining d cs) s))
  | LoopQuitting (c :: todo) d cs => Some (
      e ← alive s "quit_loop: loop->quit()";
      let '(r, e) := EventLoop.exec body false c e in
      Ok (with_owner (LoopQuitting (r ++ todo) d cs) (with_loop (Some e) s)))
  | LoopQuitting [] d cs => Some (Ok (with_owner (ThreadJoining d cs) s))
  | ThreadJoining d cs => Some (check_join (thread_ s);; Ok (with_owner (JoinWaiting d cs) s))
  | JoinWaiting d cs =>
      match looper_ s with
      | Exited => Some (
          let t := mark_joined (thread_ s) in
          if (d : bool) then destroy_thread t;; Ok (with_owner Destroyed (with_exiting (with_thread t s)))
          else Ok (with_owner (Next cs) (with_exiting (with_thread t s))))
      | _ => None
      end
  end.

(** One step of the thread; [hs] is what [poll] reports if it returns. *)
Definition looper_step (hs : list EventLoop.handler) (s : state) : option (outcome state) :=
  match looper_ s with
  | Unborn | Exited => None
  | Initializing => Some (
      '(broadcast, c) ← CountDownLatch.count_down the_looper (latch_ s);
      let s := with_latch c (with_thread (initialize id (thread_ s)) s) in
      Ok (with_looper Constructing (if (broadcast : bool) then with_owner (wake_latch (owner_ s)) s else s)))
  | Constructing => Some (Ok (with_looper (InitCalling init) (with_loop (Some make_loop) s)))
  | InitCalling (c :: todo) => Some (
      e ← alive s "thread_init_cb_";
      let '(r, e) := EventLoop.exec body true c e in
      Ok (with_looper (InitCalling (r ++ todo)) (with_loop (Some e) s)))
  | InitCalling [] => Some (Ok (with_looper Publishing s))
  | Publishing => Some (Ok (
      with_looper Entering (with_owner (wake_loop (owner_ s)) (with_owning true s))))
  | Entering => Some (
      e ← alive s "loop()";
      '(p, e) ← EventLoop.loop true e;
      Ok (with_looper (Looping p) (with_loop (Some e) s)))
  | Looping p => Some (
      e ← alive s "loop()";
      match EventLoop.own_step body hs p e with
      | Some (p, e) => Ok (with_looper (Looping p) (with_loop (Some e) s))
      | None => check (negb (exiting_ s)) "thread_func: exiting_";; Ok (with_looper Leaving s)
      end)
  | Leaving => Some (Ok (with_looper Destructing (with_owning false s)))
  | Destructing => Some (
      e ← alive s "~EventLoop";
      check (negb (looping_ e)) "~EventLoop";;
      Ok (with_looper Exited (with_loop None s)))
  end.

(** The wakeup channel is reported exactly when the eventfd is readable, and the other
    handlers satisfy [user]. *)
Definition reports (user : list EventLoop.call -> Prop) (hs : list EventLoop.handler) (s : state) : Prop :=
  (forall e, loop_ s = Some e -> poll_may_return hs e) /\
  (forall cs, UserHandler cs ∈ hs -> user cs).

(** What the handlers of the other channels may do. *)
Context (user : list EventLoop.call -> Prop).

Inductive step : state -> state -> Prop :=
| step_owner s s' : owner_step s = Some (Ok s') -> step s s'
| step_looper hs s s' :
    (looper_ s = Looping Polling -> reports user hs s) -> looper_step hs s = Some (Ok s') -> step s s'.

Inductive wakes_up : state -> state -> Prop :=
| wakes_up_latch s cs : owner_ s = LatchWaiting cs -> wakes_up s (with_owner (LatchTest cs) s)
| wakes_up_loop s cs : owner_ s = LoopWaiting cs -> wakes_up s (with_owner (LoopTest cs) s).

(** Runs, with spurious wakeups. *)
Inductive runs (s : state) : state -> Prop :=
| runs_nil : runs s s
| runs_step s' s'' : runs s s' -> step s' s'' -> runs s s''
| runs_spurious s' s'' : runs s s' -> wakes_up s' s'' -> runs s s''.

Definition initial (prefix : string) (cs : list owner_call) : state :=
  mkState (make_thread prefix true) (CountDownLatch.mkLatch unowned 1) false false None (Next cs) Unborn.

End Steps.

(** ** Lemmas *)

(** *** The calls of a Thread *)

Definition is_query (c : thread_call) : bool := match c with Tid | Ref => true | _ => false end.

(** [start], queries, and for a joinable thread one [join] among them. *)
Definition accepted (joinable : bool) (cs : list thread_call) : bool :=
  match cs with
  | Start :: cs => bool_decide (filter (fun c => is_query c = false) cs = if joinable then [Join] else [])
  | _ => false
  end.

Lemma started_life id cs t :
  started_ t = true -> start_called_ t = true ->
  is_ok (t ← call_thread_all id cs t; destroy_thread t;; Ok t) <->
  filter (fun c => is_query c = false) cs = if joinable t && negb (joined_ t) then [Join] else [].
Proof.
  revert t. induction cs as [|c cs IH]; intros t Hs Hc; cbn [call_thread_all].
  - rewrite bind_ret. unfold destroy_thread. rewrite Hs, filter_nil. cbn.
    destruct (joinable t), (joined_ t); cbn; (split; [by intros [? [=]] | done]) || (split; [done|by eexists]).
  - destruct c; cbn [call_thread].
    + unfold start_async. rewrite Hc, filter_cons_True by done.
      split; [by intros [? [=]]|]. by destruct (joinable t && _).
    + unfold start_async. rewrite Hc, filter_cons_True by done.
      split; [by intros [? [=]]|]. by destruct (joinable t && _).
    + unfold check_join. rewrite Hc, filter_cons_True by done.
      destruct (joinable t) eqn:J, (joined_ t) eqn:D; try (cbn; split; [by intros [? [=]]|done]).
      change (is_ok (t ← call_thread_all id cs (mark_joined t); destroy_thread t;; Ok t) <->
              Join :: filter (fun c => is_query c = false) cs = [Join]).
      rewrite IH by done. cbn. rewrite J. cbn. split; [by intros ->|by intros [= ->]].
    + rewrite Hs, filter_cons_False by done. cbn. by apply IH.
    + rewrite Hs, filter_cons_False by done. cbn. by apply IH.
Qed.

(** A thread that was not started with [start] never satisfies its destructor. *)
Lemma unstarted_dies id cs t t' :
  started_ t = false -> start_called_ t = true ->
  call_thread_all id cs t = Ok t' -> started_ t' = false.
Proof.
  revert t. induction cs as [|c cs IH]; intros t Hs Hc; cbn [call_thread_all].
  - by intros [= <-].
  - destruct c; cbn [call_thread]; unfold start_async, check_join; rewrite ?Hc, ?Hs; try done.
    destruct (joinable t), (joined_ t); try done. cbn. by apply IH.
Qed.

(** *** Calls that leave the loop running *)

Definition quiet_call (c : EventLoop.call) : Prop :=
  match c with Queue _ | WakeQueue => True | _ => False end.
Abbreviation quiet := (Forall quiet_call) (only parsing).

Definition quiet_handlers (hs : list EventLoop.handler) : Prop :=
  forall cs, UserHandler cs ∈ hs -> quiet cs.

Definition quiet_pc (p : EventLoop.pc) : Prop :=
  match p with
  | Handling cur hs => quiet cur /\ quiet_handlers hs
  | Calling cur _ => quiet cur
  | _ => True
  end.

Definition is_returned (p : EventLoop.pc) : bool := match p with Returned => true | _ => false end.

Definition sane (e : EventLoop) : Prop := 0 <= counter e <= kEventfdMax.

Lemma quiet_exec body c e r e' :
  quiet_call c -> EventLoop.exec body true c e = (r, e') ->
  quiet r /\ quit_ e' = quit_ e /\ looping_ e' = looping_ e /\ (sane e -> sane e').
Proof.
  unfold sane. destruct c; try done; intros _; cbn; intros [= <- <-].
  - split_and!; [by repeat constructor | done..].
  - destruct (wakeup_same e) as (_ & Hq & _). unfold wakeup in *.
    destruct (calling_wakeup_functors_ e); [|done].
    destruct (Z.ltb_spec (counter e) kEventfdMax); cbn; split_and!; try done. lia.
Qed.

Record moved (p : EventLoop.pc) (e : EventLoop) (p' : EventLoop.pc) (e' : EventLoop) : Prop := {
  mv_quiet : quiet_pc p';
  mv_quit : quit_ e' = quit_ e;
  mv_returned : p' = Returned <-> p = AtTest /\ quit_ e = true;
  mv_looping : looping_ e' = (negb (is_returned p') && looping_ e)%bool;
  mv_sane : sane e -> sane e';
  mv_polling : p' = Polling -> quit_ e = false;
}.

Ltac settle := solve [done | tauto | split; intros; destruct_and?; congruence].

(** A callback in progress makes its next call. *)
Ltac exec_case :=
  match goal with
  | Hp : quiet_pc (_ (?c :: _) _) |- context [EventLoop.exec ?body true ?c ?e] =>
      cbn [quiet_pc] in Hp; rewrite Forall_cons in Hp;
      let E := fresh in destruct (EventLoop.exec body true c e) eqn:E;
      destruct (quiet_exec body c e _ _ ltac:(tauto) E) as (? & ? & ? & ?);
      intros [= <- <-]; split; cbn; rewrite ?Forall_app; settle
  end.

Lemma quiet_step body hs p e p' e' :
  (forall f, quiet (body f)) -> quiet_pc p -> (p = Polling -> quiet_handlers hs) ->
  own_step body hs p e = Some (p', e') -> moved p e p' e'.
Proof.
  intros Hb Hp Hhs. destruct p as [| |[|c cur] [|[|cs] hs']| |[|c cur] [|f fs]|]; cbn [own_step]; try done.
  - destruct (quit_ e) eqn:Q; intros [= <- <-]; split; cbn; rewrite ?Q; settle.
  - intros [= <- <-]. split; cbn; try settle. split; [constructor|by apply Hhs].
  - intros [= <- <-]. split; first [apply Hb | settle | by repeat constructor].
  - intros [= <- <-]. unfold handle_read. split; cbn; try settle; try (by destruct (0 <? counter e)).
    split; [constructor|]. intros cs Hcs. apply Hp. by right.
  - intros [= <- <-]. split; cbn; try settle. destruct Hp as [_ Hp]. split; [apply Hp; by left|].
    intros cs' Hcs. apply Hp. by right.
  - exec_case.
  - exec_case.
  - exec_case.
  - intros [= <- <-]. split; first [apply Hb | settle | by repeat constructor].
  - intros [= <- <-]. split; first [apply Hb | settle | by repeat constructor].
  - intros [= <- <-]. split; first [apply Hb | settle | by repeat constructor].
  - exec_case.
  - exec_case.
Qed.

(** *** The invariant of [start_loop] followed by the destructor *)

(** How far the thread has come. *)
Definition progress (l : looper_pc) : nat :=
  match l with
  | Unborn => 0 | Initializing => 1 | Constructing => 2 | InitCalling _ => 3 | Publishing => 4 | Entering => 5
  | Looping p => if is_returned p then 7 else 6
  | Leaving => 8 | Destructing => 9 | Exited => 10
  end%nat.

(** Where the owner can be, and how far the thread has come then. *)
Inductive window : owner_pc -> nat -> nat -> Prop :=
| win_new : window (Next [StartLoop; Destroy]) 0 0
| win_latch_test : window (LatchTest [Destroy]) 1 6
| win_latch_waiting : window (LatchWaiting [Destroy]) 1 1
| win_loop_test : window (LoopTest [Destroy]) 2 6
| win_loop_waiting : window (LoopWaiting [Destroy]) 2 4
| win_started : window (Next [Destroy]) 5 6
| win_reading : window (LoopReading true []) 5 6
| win_quitting : window (LoopQuitting [EventLoop.Quit] true []) 5 6
| win_waking : window (LoopQuitting [WakeQuit] true []) 5 10
| win_quit : window (LoopQuitting [] true []) 5 10
| win_joining : window (ThreadJoining true []) 5 10
| win_join_waiting : window (JoinWaiting true []) 5 10
| win_destroyed : window Destroyed 10 10.

(** The owner has set [quit_]. *)
Definition quit_sent (o : owner_pc) : bool :=
  match o with
  | LoopQuitting [WakeQuit] _ _ | LoopQuitting [] _ _ | ThreadJoining _ _ | JoinWaiting _ _ | Destroyed => true
  | _ => false
  end.

Definition has_started (o : owner_pc) : bool :=
  match o with
  | Next [StartLoop; Destroy] | LatchTest _ | LatchWaiting _ => false
  | _ => true
  end.

Definition has_called (o : owner_pc) : bool :=
  match o with Next [StartLoop; Destroy] => false | _ => true end.

Definition is_destroyed (o : owner_pc) : bool := match o with Destroyed => true | _ => false end.

Definition looping_at (l : looper_pc) : bool :=
  match l with Looping p => negb (is_returned p) | _ => false end.

Definition quiet_looper (l : looper_pc) : Prop :=
  match l with InitCalling cs => quiet cs | Looping p => quiet_pc p | _ => True end.

Record inv (s : state) : Prop := {
  inv_window : exists lo hi, window (owner_ s) lo hi /\ (lo <= progress (looper_ s) <= hi)%nat;
  inv_thread : joinable (thread_ s) = true /\ start_called_ (thread_ s) = has_called (owner_ s) /\
               started_ (thread_ s) = has_started (owner_ s) /\ joined_ (thread_ s) = is_destroyed (owner_ s);
  inv_latch : latch_ s = CountDownLatch.mkLatch unowned (if (progress (looper_ s) <=? 1)%nat then 1 else 0);
  inv_owning : owning_loop_ s = true <-> (5 <= progress (looper_ s) <= 8)%nat;
  inv_alive : is_Some (loop_ s) <-> (3 <= progress (looper_ s) <= 9)%nat;
  inv_loop e : loop_ s = Some e -> quit_ e = quit_sent (owner_ s) /\ looping_ e = looping_at (looper_ s) /\ sane e;
  inv_quiet : quiet_looper (looper_ s);
  inv_exiting : exiting_ s = is_destroyed (owner_ s);
  inv_woken e : loop_ s = Some e -> looper_ s = Looping Polling -> quit_ e = true ->
    owner_ s = LoopQuitting [WakeQuit] true [] \/ 0 < counter e;
}.

Section Inv.
Context (body : nat -> list EventLoop.call) (init : list EventLoop.call) (id : Z).
Hypothesis body_quiet : forall f, quiet (body f).
Hypothesis init_quiet : quiet init.

Abbreviation ostep := (owner_step body).
Abbreviation lstep := (looper_step body init id).
Abbreviation sys_step := (step body init id quiet).

Ltac fields := cbn [with_owner with_looper with_thread with_latch with_owning with_exiting with_loop
                    thread_ latch_ owning_loop_ exiting_ loop_ owner_ looper_] in *.

(** Only [Exited] has come that far. *)
Lemma exited s : inv s -> progress (looper_ s) = 10%nat -> looper_ s = Exited.
Proof. intros _. destruct (looper_ s) as [| | | | | |p| | |]; try done. by destruct p. Qed.

(** What is left of the invariant when only the owner has moved. *)
Ltac moved_on :=
  first
    [ done
    | eexists _, _; split; [constructor|]; lia
    | split; intros; lia
    | match goal with Ha : is_Some _ <-> _ |- is_Some _ <-> _ => split; [intros _; apply Ha; by eexists | by eexists] end
    | match goal with Hk : forall e, _ -> _ -> _ -> _ \/ _ |- _ =>
        let H1 := fresh in let H2 := fresh in let H3 := fresh in
        intros ? H1 H2 H3; right; by destruct (Hk _ H1 H2 H3)
      end
    | idtac ].

Ltac moves := split; fields; cbn; moved_on.

(** What a step of the owner does to the invariant: the only step that faults is the second half
    of [loop->quit()] after the thread has ended. *)
Lemma owner_step_inv s :
  inv s ->
  match ostep s with
  | Some (Ok s') => inv s'
  | Some (Fault _) => owner_ s = LoopQuitting [WakeQuit] true [] /\ loop_ s = None
  | None => True
  end.
Proof.
  intros [(lo & hi & W & Hp) (T1 & T2 & T3 & T4) Hl Ho Ha He Hq Hx Hk]. unfold owner_step.
  destruct s as [t c ow ex lp o l]. fields. destruct W; cbn [next_call]; fields; cbn in T2, T3, T4, Hx, He.
  - rewrite T3. unfold start_async. rewrite T2. cbn.
    destruct l; cbn in Hp; try lia; [|by destruct p; cbn in Hp; lia].
    split; fields; cbn; rewrite ?T1; try done; [|split; [intros X%Ho|]; cbn in *; lia|split; [intros X%Ha|]; cbn in *; lia]. exists 1%nat, 6%nat. split; [constructor|lia].
  - subst c. rewrite CountDownLatch.wait_section by done. cbn [CountDownLatch.count_].
    destruct (Nat.leb_spec (progress l) 1) as [Hl|Hl]; cbn [mbind outcome_bind negb Z.ltb Z.compare];
      split; fields; cbn; rewrite ?T1, ?(proj2 (Nat.leb_le _ _) Hl), ?(proj2 (Nat.leb_gt _ _) Hl);
      moved_on.
  - done.
  - assert (~ (true = false)) by done. destruct ow; moves.
  - done.
  - moves.
  - replace ow with true by (symmetry; apply Ho; lia). moves.
  - destruct lp as [e|]; [|destruct Ha as [_ Ha]; destruct Ha; [lia|done]]. cbn. moves.
    + intros ? [= <-]. by destruct (He e eq_refl) as (_ & ? & ?).
    + intros ? [= <-] _ _. by left.
  - destruct lp as [e|]; [|done]. cbn. destruct (He e eq_refl) as (H1 & H2 & H3).
    destruct (wakeup_same e) as (_ & W2 & _). pose proof (wakeup_counter e H3) as Wc. moves.
    + intros ? [= <-]. rewrite W2. split_and!; [done | unfold wakeup; by destruct (_ <? _) | unfold sane; lia..].
    + intros ? [= <-] _ _. right. lia.
  - moves.
  - unfold check_join. rewrite T1, T2, T4. cbn. moves.
  - destruct l as [| | | | | |p| | |]; try done. unfold destroy_thread. cbn. rewrite T3. cbn.
    rewrite orb_true_r. cbn. moves.
  - done.
Qed.

(** The thread advances and the owner stays, or is woken. *)
Ltac stays W :=
  destruct W; cbn in *; try lia; try congruence; eexists _, _; (split; [constructor|]; lia).

Ltac advances :=
  split; fields; cbn;
  first
    [ done
    | match goal with W : window _ _ _ |- exists _ _, _ => stays W end
    | match goal with W : window _ _ _ |- _ => by destruct W end
    | match goal with Ho : _ = true <-> _ |- _ = true <-> _ => rewrite Ho; lia end
    | split; intros; lia || by eexists
    | match goal with Ha : is_Some _ <-> _ |- is_Some _ <-> _ => rewrite Ha; lia end
    | idtac ].

Lemma own_step_none hs p e : own_step body hs p e = None -> p = Returned.
Proof.
  destruct p as [| |[|c cur] [|[|cs] hs']| |[|c cur] [|f fs]|]; cbn; try done;
    by destruct (exec body true c e).
Qed.

Lemma returned_progress p : progress (Looping p) = if is_returned p then 7%nat else 6%nat.
Proof. done. Qed.

(** An iteration of the loop goes on: it returns only after the owner has set [quit_]. *)
Lemma looping_inv s e p p' e' :
  inv s -> loop_ s = Some e -> looper_ s = Looping p -> moved p e p' e' -> p <> Returned ->
  inv (with_looper (Looping p') (with_loop (Some e') s)).
Proof.
  intros [(lo & hi & W & Hp) (T1 & T2 & T3 & T4) Hl Ho Ha He Hq Hx Hk] Hloop Hlp [M1 M2 M3 M4 M5 M6] Hnr.
  destruct s as [t c ow ex lp o l]. fields. subst l lp. cbn in Hp, Hl, Ho, Ha, Hq.
  destruct (He e eq_refl) as (H1 & H2 & H3).
  assert (Hr : is_returned p = false) by (by destruct p). rewrite Hr in *.
  assert (Hr' : is_returned p' = true -> quit_ e = true) by (intros X; apply M3; by destruct p').
  assert (Hpr : (if is_returned p' then 7 else 6)%nat = 6%nat \/ quit_sent o = true)
    by (rewrite <- H1; destruct (is_returned p'); auto).
  assert (H67 : (6 <= (if is_returned p' then 7 else 6) <= 7)%nat) by (destruct (is_returned p'); lia).
  split; fields; rewrite ?returned_progress; try done.
  - destruct Hpr as [Hs|Hs]; destruct W; cbn in Hp, Hs; try lia; try done; eexists _, _; (split; [constructor|]; lia).
  - rewrite Hl. f_equal. by destruct (is_returned p').
  - rewrite Ho. lia.
  - split; [lia|by eexists].
  - intros ? [= <-]. rewrite M2, M4, H2. cbn. rewrite Hr. split_and!; try done. by destruct (is_returned p').
    all: by apply M5.
  - intros ? [= <-] [= ->] Q. rewrite M2, M6 in Q by done. done.
Qed.

Lemma looper_step_inv hs s :
  inv s -> (looper_ s = Looping Polling -> quiet_handlers hs) ->
  match lstep hs s with
  | Some (Ok s') => inv s'
  | Some (Fault _) => False
  | None => looper_ s = Unborn \/ looper_ s = Exited
  end.
Proof.
  intros [(lo & hi & W & Hp) (T1 & T2 & T3 & T4) Hl Ho Ha He Hq Hx Hk] Hhs. unfold looper_step.
  destruct s as [t c ow ex lp o l]. fields.
  assert (Halive : (3 <= progress l <= 9)%nat -> exists e, lp = Some e) by (by intros ?%Ha).
  destruct l as [| | |[|a todo]| | |p| | |]; cbn in Hp, Hl, Ho, Ha, Hq, He.
  - by left.
  - subst c. cbn. advances.
  - advances. intros ? [= <-]. split_and!; [by destruct W; cbn in Hp; try lia | done..].
  - advances.
  - destruct Halive as [e ->]; [cbn; lia|]. cbn. apply Forall_cons in Hq as [Hc Hq].
    destruct (exec body true a e) as [r e'] eqn:E. destruct (quiet_exec _ _ _ _ _ Hc E) as (Q1 & Q2 & Q3 & Q4).
    destruct (He e eq_refl) as (H1 & H2 & H3). cbn. advances.
    + intros ? [= <-]. rewrite Q2, Q3. eauto.
    + by rewrite Forall_app.
  - advances.
  - destruct Halive as [e ->]; [cbn; lia|]. destruct (He e eq_refl) as (H1 & H2 & H3).
    unfold loop. cbn. rewrite H2. cbn. advances. intros ? [= <-]. done.
  - destruct Halive as [e ->]; [cbn; destruct (is_returned p); lia|]. cbn.
    destruct (own_step body hs p e) as [[p' e']|] eqn:E; cbn.
    + apply (looping_inv (mkState t c ow ex (Some e) o (Looping p)) e p); try done.
      * by split; try (by exists lo, hi).
      * apply (quiet_step body hs); auto. intros ->. by apply Hhs.
      * by intros ->.
    + apply own_step_none in E as ->. cbn in *. assert (ex = false) as -> by (subst ex; destruct W; cbn in *; lia || done).
      cbn. advances.
  - advances.
  - destruct Halive as [e ->]; [cbn; lia|]. destruct (He e eq_refl) as (H1 & H2 & H3). cbn. rewrite H2. cbn. advances.
  - by right.
Qed.

Lemma system_step_inv s s' : inv s -> sys_step s s' -> inv s'.
Proof.
  intros I Hst. destruct Hst as [s s' E|hs s s' Hr E].
  - pose proof (owner_step_inv _ I) as H. by rewrite E in H.
  - pose proof (looper_step_inv hs _ I) as H. rewrite E in H. apply H. intros Hl. exact (proj2 (Hr Hl)).
Qed.

Lemma wakes_up_inv s s' : inv s -> wakes_up s s' -> inv s'.
Proof.
  intros [(lo & hi & W & Hp) (T1 & T2 & T3 & T4) Hl Ho Ha He Hq Hx Hk] Hw.
  destruct Hw as [s cs E|s cs E]; rewrite E in *; inversion W; subst; moves.
Qed.

Lemma runs_inv s s' : inv s -> runs body init id quiet s s' -> inv s'.
Proof. intros I H. induction H; eauto using system_step_inv, wakes_up_inv. Qed.

Lemma initial_inv prefix : inv (initial prefix [StartLoop; Destroy]).
Proof.
  split; cbn; try done.
  - exists 0%nat, 0%nat. split; [constructor|lia].
  - split; [done|lia].
  - split; [by intros [? ?]|lia].
Qed.

(** *** Termination

    Up to the store of [quit_] some step makes [distance] smaller; from then on every step
    makes [phase], or with the same phase [work], smaller. *)

Definition light (c : EventLoop.call) : nat := match c with Queue _ => 2 | _ => 1 end.
Definition lights (cs : list EventLoop.call) : nat := sum_list_with light cs.

Definition owner_distance (o : owner_pc) : nat :=
  match o with
  | Next [StartLoop; Destroy] => 20 | LatchTest _ | LatchWaiting _ => 10 | LoopTest _ | LoopWaiting _ => 8
  | Next _ => 6 | LoopReading _ _ => 4 | LoopQuitting [EventLoop.Quit] _ _ => 2 | _ => 0
  end.
Definition looper_distance (l : looper_pc) : nat :=
  match l with
  | Unborn => 8 + lights init | Initializing => 7 + lights init | Constructing => 6 + lights init
  | InitCalling todo => 5 + lights todo | Publishing => 4 | _ => 0
  end.
Definition distance (s : state) : nat := owner_distance (owner_ s) + looper_distance (looper_ s).

Lemma lights_app cs cs' : lights (cs ++ cs') = (lights cs + lights cs')%nat.
Proof. apply sum_list_with_app. Qed.

Lemma exec_light c e r e' : quiet_call c -> exec body true c e = (r, e') -> (lights r < light c)%nat.
Proof. destruct c; try done; intros _ [= <- <-]; cbn; lia. Qed.
Lemma wake_latch_distance o : owner_distance (wake_latch o) = owner_distance o.
Proof. by destruct o. Qed.
Lemma wake_loop_distance o : owner_distance (wake_loop o) = owner_distance o.
Proof. by destruct o. Qed.

(** Before it publishes the loop the thread is never blocked. *)
Lemma early_step s :
  inv s -> (1 <= progress (looper_ s) <= 4)%nat ->
  exists s', lstep [] s = Some (Ok s') /\ (distance s' < distance s)%nat.
Proof.
  intros [_ _ Hl _ Ha He Hq _ _] Hp. destruct s as [t c ow ex lp o l]. unfold looper_step, distance. fields.
  assert (Halive : (3 <= progress l <= 9)%nat -> exists e, lp = Some e) by (by intros ?%Ha).
  destruct l as [| | |[|a todo]| | |p| | |]; cbn in Hp, Hq; try lia.
  - subst c. eexists. split; [cbn; reflexivity|]. change (1 - 1 =? 0)%Z with true. fields.
    rewrite wake_latch_distance. cbn. lia.
  - eexists. split; [done|]. fields. cbn. lia.
  - eexists. split; [done|]. fields. cbn. lia.
  - destruct Halive as [e ->]; [cbn; lia|]. apply Forall_cons in Hq as [Hc Hq].
    destruct (exec body true a e) as [r e'] eqn:E. pose proof (exec_light _ _ _ _ Hc E).
    eexists. split; [cbn; by rewrite E|]. fields. cbn [looper_distance]. rewrite lights_app.
    change (lights (a :: todo)) with (light a + lights todo)%nat. lia.
  - eexists. split; [done|]. fields. rewrite wake_loop_distance. cbn. lia.
  - destruct (is_returned p); lia.
Qed.

Lemma approaches s :
  inv s -> quit_sent (owner_ s) = false -> exists s', sys_step s s' /\ (distance s' < distance s)%nat.
Proof.
  intros I Hn. pose proof (early_step s I) as Hearly.
  assert (Hlooper : (1 <= progress (looper_ s) <= 4)%nat -> exists s', sys_step s s' /\ (distance s' < distance s)%nat).
  { intros Hp. destruct (Hearly Hp) as (s' & E & Hd). exists s'. split; [|done].
    apply (step_looper _ _ _ _ []); [|done]. intros E'. rewrite E' in Hp. cbn in Hp. lia. }
  pose proof (owner_step_inv s I) as Hinv.
  destruct I as [(lo & hi & W & Hp) (T1 & T2 & T3 & T4) Hl Ho Ha He Hq Hx Hk].
  destruct (decide (1 <= progress (looper_ s) <= 4)%nat) as [H|Hne]; [by apply Hlooper|].
  assert (Hown : forall s', ostep s = Some (Ok s') -> (distance s' < distance s)%nat ->
            exists s', sys_step s s' /\ (distance s' < distance s)%nat)
    by (intros s' E Hd; exists s'; split; [by apply step_owner|done]).
  clear Hinv Hlooper Hearly. unfold distance, owner_step in *. destruct s as [t c ow ex lp o l]. fields.
  destruct W; try done; cbn in T2, T3, T4.
  - eapply Hown; [cbn; unfold start_async; by rewrite T3, T2|]. fields. destruct l; cbn in Hp |- *; try lia. destruct p; cbn in Hp; lia.
  - subst c. eapply Hown; [rewrite CountDownLatch.wait_section by done; cbn [CountDownLatch.count_];
      rewrite (proj2 (Nat.leb_gt _ _)) by lia; reflexivity|]. cbn. lia.
  - lia.
  - replace ow with true in * by (symmetry; apply Ho; lia). eapply Hown; [done|]. cbn. lia.
  - lia.
  - eapply Hown; [done|]. cbn. lia.
  - eapply Hown; [done|]. replace ow with true by (symmetry; apply Ho; lia). cbn. lia.
  - assert (is_Some lp) as [e ->] by (apply Ha; lia). eapply Hown; [done|]. cbn. lia.
Qed.

(** *** After the store *)

Definition phase (l : looper_pc) : nat :=
  match l with
  | Entering => 9
  | Looping Polling => 8 | Looping (Handling _ _) => 7 | Looping Swapping => 6 | Looping (Calling _ _) => 5
  | Looping AtTest => 4 | Looping Returned => 3
  | Leaving => 2 | Destructing => 1 | _ => 0
  end.

Definition handler_work (h : EventLoop.handler) : nat :=
  match h with WakeupRead => 1 | UserHandler cs => 1 + lights cs end.

Definition looper_work (l : looper_pc) : nat :=
  match l with
  | Looping (Handling cur hs) => lights cur + sum_list_with handler_work hs
  | Looping (Calling cur fs) => lights cur + sum_list_with (fun f => S (lights (body f))) fs
  | _ => 0
  end.
Definition owner_work (o : owner_pc) : nat :=
  match o with
  | LoopQuitting todo _ _ => 3 + length todo | ThreadJoining _ _ => 2 | JoinWaiting _ _ => 1 | _ => 0
  end.

Definition measure (s : state) : nat * nat := (phase (looper_ s), (looper_work (looper_ s) + owner_work (owner_ s))%nat).

Definition smaller (m n : nat * nat) : Prop := (m.1 < n.1)%nat \/ m.1 = n.1 /\ (m.2 < n.2)%nat.

Lemma smaller_wf : well_founded smaller.
Proof.
  intros [a b]. revert b. induction (lt_wf a) as [a _ IHa]. intros b. induction (lt_wf b) as [b _ IHb].
  constructor. intros [a' b'] [H|[H1 H2]]; cbn in *; [by apply IHa|]. subst. by apply IHb.
Qed.

(** A callback in progress makes its next call, which costs it. *)
Lemma exec_work c cur e r e' :
  quiet_call c -> exec body true c e = (r, e') -> (lights (r ++ cur) < lights (c :: cur))%nat.
Proof.
  intros Hc E. pose proof (exec_light _ _ _ _ Hc E). rewrite lights_app.
  change (lights (c :: cur)) with (light c + lights cur)%nat. lia.
Qed.

Ltac exec_works :=
  match goal with
  | Hp : quiet_pc (_ (?c :: ?cur) _) |- context [exec body true ?c ?e] =>
      cbn [quiet_pc] in Hp; rewrite Forall_cons in Hp;
      let E := fresh in destruct (exec body true c e) eqn:E;
      pose proof (exec_work c cur e _ _ ltac:(tauto) E);
      intros [= <- <-]; right; split; [done|]; cbn [looper_work]; lia
  end.

Lemma own_step_work hs p e p' e' :
  quiet_pc p -> quit_ e = true -> own_step body hs p e = Some (p', e') ->
  (phase (Looping p') < phase (Looping p))%nat \/
  phase (Looping p') = phase (Looping p) /\ (looper_work (Looping p') < looper_work (Looping p))%nat.
Proof.
  intros Hp Hquit. destruct p as [| |[|c cur] [|[|cs] hs']| |[|c cur] [|f fs]|]; cbn [own_step]; try done.
  - rewrite Hquit. intros [= <- <-]. left. cbn. lia.
  - intros [= <- <-]. left. cbn. lia.
  - intros [= <- <-]. left. cbn. lia.
  - intros [= <- <-]. right. cbn. lia.
  - intros [= <- <-]. right. cbn. lia.
  - exec_works.
  - exec_works.
  - exec_works.
  - intros [= <- <-]. left. cbn. lia.
  - intros [= <- <-]. left. cbn. lia.
  - intros [= <- <-]. right. split; [done|]. cbn [looper_work sum_list_with]. cbn. lia.
  - exec_works.
  - exec_works.
Qed.

Lemma quit_step_smaller s s' :
  inv s -> quit_sent (owner_ s) = true -> sys_step s s' ->
  quit_sent (owner_ s') = true /\ smaller (measure s') (measure s).
Proof.
  intros I Hs Hst. destruct I as [(lo & hi & W & Hp) _ _ _ Ha He Hq Hx _].
  destruct Hst as [s s' E|hs s s' Hr E]; unfold measure, smaller; cbn [fst snd].
  - destruct s as [t c ow ex lp o l]. unfold owner_step in E. fields. destruct W; try done.
    + destruct lp as [e|]; [|done]. cbn in E. simplify_eq. split; [done|]. right. cbn. lia.
    + simplify_eq. split; [done|]. right. cbn. lia.
    + destruct (check_join t); [|done]. cbn in E. simplify_eq. split; [done|]. right. cbn. lia.
    + destruct l; try done. destruct (destroy_thread _); [|done]. cbn in E. simplify_eq. split; [done|]. right. cbn. lia.
  - assert (Hp5 : (5 <= progress (looper_ s))%nat) by (destruct W; done || lia).
    destruct s as [t c ow ex lp o l]. unfold looper_step in E. fields.
    destruct l as [| | |[|a todo]| | |p| | |]; cbn in Hp5, Hq; try lia; try done.
    + destruct lp as [e|]; [|done]. unfold loop in E. cbn in E. destruct (looping_ e); [done|]. cbn in E.
      simplify_eq. split; [done|]. left. cbn. lia.
    + destruct lp as [e|]; [|done]. cbn in E. destruct (He e eq_refl) as (H1 & _). rewrite Hs in H1.
      destruct (own_step body hs p e) as [[p' e']|] eqn:E'.
      * simplify_eq. split; [done|]. fields. destruct (own_step_work _ _ _ _ _ Hq H1 E') as [?|[? ?]]; [by left|right; lia].
      * apply own_step_none in E' as ->. destruct ex; [done|]. cbn in E. simplify_eq. split; [done|]. left. cbn. lia.
    + simplify_eq. split; [done|]. left. cbn. lia.
    + destruct lp as [e|]; [|done]. cbn in E. destruct (looping_ e); [done|]. cbn in E. simplify_eq.
      split; [done|]. left. cbn. lia.
Qed.

Lemma quit_terminates s : inv s -> quit_sent (owner_ s) = true -> Acc (fun s' s => sys_step s s') s.
Proof.
  remember (measure s) as m eqn:Em. revert s Em.
  induction (smaller_wf m) as [m _ IH]. intros s -> I Hq. constructor. intros s' Hst.
  destruct (quit_step_smaller s s' I Hq Hst) as [Hq' Hm]. eapply IH; eauto using system_step_inv.
Qed.

(** The thread has destroyed the loop between the two halves of [loop->quit()]. *)
Definition raced (s : state) : Prop := owner_ s = LoopQuitting [WakeQuit] true [] /\ loop_ s = None.

(** What [poll] can report. *)
Lemma reports_exists s : exists hs, reports quiet hs s.
Proof.
  destruct (loop_ s) as [e|] eqn:E.
  - exists (if 0 <? counter e then [WakeupRead] else []). unfold reports, poll_may_return. split.
    + intros e' Hs. rewrite E in Hs. simplify_eq.
      destruct (Z.ltb_spec 0 (counter e')); split; intros Hx; try lia; [by left|by apply elem_of_nil in Hx].
    + intros cs Hcs. destruct (0 <? counter e); [|by apply elem_of_nil in Hcs].
      by apply list_elem_of_singleton in Hcs.
  - exists []. split; [by rewrite E|]. intros cs Hcs. by apply elem_of_nil in Hcs.
Qed.

(** The thread only ever wakes the owner. *)
Lemma looper_owner hs s s' :
  lstep hs s = Some (Ok s') -> owner_ s' = owner_ s \/ owner_ s' = wake_latch (owner_ s) \/ owner_ s' = wake_loop (owner_ s).
Proof.
  destruct s as [t c ow ex lp o l]. unfold looper_step. fields. intros E.
  destruct l as [| | |[|a todo]| | |p| | |]; try done; try (by simplify_eq; auto).
  - destruct (CountDownLatch.count_down _ _) as [[[] c']|]; [..|done]; cbn in E; simplify_eq; auto.
  - destruct lp as [e|]; [|done]. cbn in E. destruct (exec body true a e). simplify_eq. auto.
  - destruct lp as [e|]; [|done]. unfold loop in E. cbn in E. destruct (looping_ e); [done|]. cbn in E. simplify_eq. auto.
  - destruct lp as [e|]; [|done]. cbn in E. destruct (own_step body hs p e) as [[]|]; [simplify_eq; auto|].
    destruct ex; [done|]. cbn in E. simplify_eq. auto.
  - destruct lp as [e|]; [|done]. cbn in E. destruct (looping_ e); [done|]. cbn in E. simplify_eq. auto.
Qed.

(** The owner first, so that it never loses the race. *)
Lemma quit_progress s :
  inv s -> quit_sent (owner_ s) = true -> ~ raced s -> owner_ s <> Destroyed ->
  exists s', sys_step s s' /\ ~ raced s'.
Proof.
  intros I Hq Hr Hd. pose proof (owner_step_inv s I) as Ho.
  destruct (ostep s) as [[s'|f]|] eqn:E; [|by destruct Hr|].
  - exists s'. split; [by apply step_owner|]. intros [Hw _].
    destruct I as [(lo & hi & W & _) _ _ _ _ _ _ _ _]. destruct s as [t c ow ex lp o l].
    unfold owner_step in E. fields. destruct W; try done.
    + destruct lp as [e|]; [|done]. cbn in E. by simplify_eq.
    + by simplify_eq.
    + destruct (check_join t); [|done]. cbn in E. by simplify_eq.
    + destruct l; try done. destruct (destroy_thread _); [|done]. cbn in E. by simplify_eq.
  - destruct (reports_exists s) as [hs Hhs].
    pose proof (looper_step_inv hs s I (fun _ => proj2 Hhs)) as Hl.
    pose proof I as [(lo & hi & W & Hp) _ _ _ _ _ _ _ _].
    assert (Hj : owner_ s = JoinWaiting true [] /\ looper_ s <> Exited).
    { destruct s as [t c ow ex lp o l]. unfold owner_step in E. fields. destruct W; try done.
      split; [done|]. by intros ->. }
    destruct Hj as [Hj Hne]. rewrite Hj in W. inversion W; subst.
    destruct (lstep hs s) as [[s'|f]|] eqn:E'; [|done|].
    + exists s'. split; [by apply (step_looper _ _ _ _ hs)|]. intros [Hw _].
      apply looper_owner in E'. rewrite Hj, Hw in E'. by destruct E' as [E'|[E'|E']].
    + destruct Hl as [Hl|Hl]; [|done]. rewrite Hl in Hp. cbn in Hp. lia.
Qed.

Lemma quit_reaches s :
  inv s -> quit_sent (owner_ s) = true -> ~ raced s -> exists s', rtc sys_step s s' /\ owner_ s' = Destroyed.
Proof.
  intros I Hq. induction (quit_terminates s I Hq) as [s _ IH]. intros Hr.
  destruct (decide (is_destroyed (owner_ s) = true)) as [Hd|Hd].
  { exists s. split; [apply rtc_refl|]. by destruct (owner_ s). }
  destruct (quit_progress s I Hq Hr) as (s' & Hst & Hr'); [by intros E; rewrite E in Hd|].
  destruct (quit_step_smaller s s' I Hq Hst) as [Hq' _].
  destruct (IH s' Hst) as (s'' & H1 & H2); eauto using system_step_inv. exists s''. split; [by eapply rtc_l|done].
Qed.

Lemma early_not_raced s : quit_sent (owner_ s) = false -> ~ raced s.
Proof. intros Hq [Hw _]. by rewrite Hw in Hq. Qed.

(** The owner is not in the race when it stores [quit_]: the loop is alive. *)
Lemma store_not_raced s s' : inv s -> quit_sent (owner_ s) = false -> sys_step s s' -> ~ raced s'.
Proof.
  intros I Hq Hst [Hw Hn]. pose proof (system_step_inv _ _ I Hst) as I'.
  destruct Hst as [s s' E|hs s s' Hr E].
  - destruct I as [(lo & hi & W & _) _ _ _ _ _ _ _ _]. destruct s as [t c ow ex lp o l].
    unfold owner_step in E. fields. destruct W; try done; cbn [next_call] in E; fields.
    + destruct (started_ t); [done|]. cbn in E. destruct (start_async true t); [|done]. cbn in E. by simplify_eq.
    + destruct (CountDownLatch.wait _ _) as [[[] ?]|]; [..|done]; cbn in E; by simplify_eq.
    + destruct ow; by simplify_eq.
    + by simplify_eq.
    + destruct ow; by simplify_eq.
    + destruct lp as [e|]; [|done]. cbn in E. by simplify_eq.
  - apply looper_owner in E. rewrite Hw in E. destruct (owner_ s); cbn in E; try (by destruct E as [E|[E|E]]).
    destruct E as [E|[E|E]]; simplify_eq; done.
Qed.

Lemma reaches s : inv s -> ~ raced s -> exists s', rtc sys_step s s' /\ owner_ s' = Destroyed.
Proof.
  remember (distance s) as d eqn:Ed. revert s Ed. induction (lt_wf d) as [d _ IH]. intros s -> I Hr.
  destruct (quit_sent (owner_ s)) eqn:Hq; [by apply quit_reaches|].
  destruct (approaches s I Hq) as (s' & Hst & Hd).
  destruct (IH _ Hd s' eq_refl) as (s'' & H1 & H2); eauto using system_step_inv, store_not_raced.
  exists s''. split; [by eapply rtc_l|done].
Qed.
End Inv.

(** *** Schedules

    Concrete runs: who takes each step, the owner ([true]) or the thread, which does not
    poll. *)

Fixpoint schedule (body : nat -> list EventLoop.call) (init : list EventLoop.call) (id : Z)
    (turns : list bool) (s : state) : option state :=
  match turns with
  | [] => Some s
  | owner :: turns =>
      match looper_ s, (if (owner : bool) then owner_step body s else looper_step body init id [] s) with
      | Looping Polling, _ => None
      | _, Some (Ok s) => schedule body init id turns s
      | _, _ => None
      end
  end.

Lemma loop_thread_runs_trans body init id user s s' s'' :
  runs body init id user s s' -> runs body init id user s' s'' -> runs body init id user s s''.
Proof. intros H1 H2. induction H2; eauto using runs_step, runs_spurious. Qed.

Lemma schedule_runs body init id user turns s s' :
  schedule body init id turns s = Some s' -> runs body init id user s s'.
Proof.
  revert s. induction turns as [|o turns IH]; intros s; cbn [schedule]; [by intros [= ->]; constructor|].
  intros H.
  assert (exists s1, (if o then owner_step body s else looper_step body init id [] s) = Some (Ok s1) /\
            looper_ s <> Looping Polling /\ schedule body init id turns s1 = Some s') as (s1 & E & Hn & Hs).
  { destruct (if o then _ else _) as [[s1|]|]; try (destruct (looper_ s) as [| | | | | |[]| | |]; done).
    exists s1. destruct (looper_ s) as [| | | | | |[]| | |]; done. }
  apply (loop_thread_runs_trans _ _ _ _ s s1); [|by apply IH]. eapply runs_step; [apply runs_nil|].
  destruct o; [by apply step_owner|]. by apply (step_looper _ _ _ _ []).
Qed.

Definition no_functors (_ : nat) : list EventLoop.call := [].

(** The thread initializes, publishes the loop and is about to enter it; [start_loop] has returned. *)
Definition started_schedule : list bool :=
  [true; false; true; false; false; false; true].

(** The thread sees [quit_] and destroys the loop before the owner calls [wakeup()]. *)
Example quit_races (user : list EventLoop.call -> Prop) :
  exists s, runs no_functors [] 7 user (initial "io" [StartLoop; Destroy]) s /\ raced s /\
    owner_step no_functors s = Some (Fault (Undefined "quit_loop: loop->quit()")).
Proof.
  eexists. split; [|split; [split|]].
  - apply (schedule_runs _ _ _ _ (started_schedule ++ [true; true; true; false; false; false; false; false])).
    vm_compute. reflexivity.
  - reflexivity.
  - reflexivity.
  - reflexivity.
Qed.

(** An initialization callback that quits the loop: the thread ends, and [start_loop] waits for
    a loop that is gone. *)
Example early_quit_hangs (user : list EventLoop.call -> Prop) :
  exists s, runs no_functors [EventLoop.Quit] 7 user (initial "io" [StartLoop; Destroy]) s /\
    owner_ s = LoopWaiting [Destroy] /\ looper_ s = Exited /\
    (forall s', ~ step no_functors [EventLoop.Quit] 7 user s s').
Proof.
  eexists. split; [|split; [|split]].
  - apply (schedule_runs _ _ _ _ ([true] ++ replicate 11 false ++ [true; true])). vm_compute. reflexivity.
  - reflexivity.
  - reflexivity.
  - intros s' Hst. inversion Hst; subst; done.
Qed.

(** [quit_loop] is public, but the destructor calls it again. *)
Example quit_loop_then_destroy (user : list EventLoop.call -> Prop) :
  exists s, runs no_functors [] 7 user (initial "io" [StartLoop; QuitLoop; Destroy]) s /\
    owner_step no_functors s = Some (Fault (CheckFailed "join: joined twice")).
Proof.
  eexists. split.
  - apply (schedule_runs _ _ _ _ (started_schedule ++
      [true; true; true; true; true; true] ++ replicate 5 false ++ [true; true; true])).
    vm_compute. reflexivity.
  - reflexivity.
Qed.

(** An [EventLoopThread] that was never started cannot be destroyed. *)
Example destroy_unstarted (user : list EventLoop.call -> Prop) :
  exists s, runs no_functors [] 7 user (initial "io" [Destroy]) s /\
    owner_step no_functors s = Some (Fault (CheckFailed "join: never started")).
Proof.
  eexists. split.
  - apply (schedule_runs _ _ _ _ [true; true]). vm_compute. reflexivity.
  - reflexivity.
Qed.

(** A thread started with [start_async] cannot be destroyed, joined or not. *)
Example start_async_dies id prefix :
  thread_life id prefix true [StartAsync; Join] = Fault (CheckFailed "~Thread: never started").
Proof. done. Qed.

(** ** Properties *)

(** The life of a [Thread] passes its checks exactly when it is [start] followed by queries
    and, for a joinable thread, exactly one [join]: any other order of calls, and every
    life with [start_async], ends in a failed check. *)
Theorem thread_lifecycle (id : Z) (prefix : string) (joinable : bool) (cs : list thread_call) :
  is_ok (thread_life id prefix joinable cs) <-> accepted joinable cs = true.
Proof.
  unfold thread_life. destruct cs as [|c cs]; [by split; [intros [? [=]]|]|].
  destruct c; try (by split; [intros [? [=]]|]).
  - cbn [accepted]. rewrite bool_decide_eq_true.
    rewrite (started_life id cs (mark_started (initialize id
      (mkThread prefix joinable "" (if joinable then true else false) kInvalidThreadId false false true))) eq_refl eq_refl).
    cbn. by rewrite andb_true_r.
  - split; [|done]. intros [t Ht]. apply bind_ok in Ht as (t' & E & Ht). cbn [call_thread_all call_thread] in E.
    apply bind_ok in E as (t0 & E0 & E). apply bind_ok in E0 as (t1 & [= <-] & [= <-]).
    apply unstarted_dies in E; [|done..]. unfold destroy_thread in Ht. by rewrite E in Ht.
  - cbn. destruct joinable; by split; [intros [? [=]]|].
Qed.

(** C17. [start_loop] followed by the destructor of the [EventLoopThread], for any interleaving of
    the two threads, any spurious wakeups, and any callbacks and handlers that queue
    functors but do not quit the loop.  No step of the thread faults, and the owner's only
    fault is the use of the loop in [quit()] after the thread has destroyed it; when
    [start_loop] returns, the loop is alive and published; a thread that polls after the
    owner has quit the loop finds the wakeup channel readable; the owner can always finish
    unless it has lost that race; after the store of [quit_] every run is finite;
    and when the destructor has returned the thread has ended and the loop is gone. *)
Theorem loop_thread_correct (body : nat -> list EventLoop.call) (init : list EventLoop.call) (id : Z)
    (prefix : string) (s : state) :
  (forall f, quiet (body f)) -> quiet init ->
  runs body init id quiet (initial prefix [StartLoop; Destroy]) s ->
  (forall hs f, (looper_ s = Looping Polling -> reports quiet hs s) -> looper_step body init id hs s <> Some (Fault f)) /\
  (forall f, owner_step body s = Some (Fault f) -> raced s) /\
  (owner_ s = Next [Destroy] -> owning_loop_ s = true /\ exists e, loop_ s = Some e /\ quit_ e = false) /\
  (looper_ s = Looping Polling -> owner_ s = JoinWaiting true [] -> exists e, loop_ s = Some e /\ 0 < counter e) /\
  (~ raced s -> exists s', rtc (step body init id quiet) s s' /\ owner_ s' = Destroyed) /\
  (quit_sent (owner_ s) = true -> Acc (fun s' s => step body init id quiet s s') s) /\
  (owner_ s = Destroyed -> looper_ s = Exited /\ loop_ s = None /\ joined_ (thread_ s) = true).
Proof.
  intros Hb Hi Hr. pose proof (runs_inv body init id Hb Hi _ _ (initial_inv prefix) Hr) as I.
  pose proof I as [(lo & hi & W & Hp) (_ & _ & _ & T4) _ Ho Ha He _ _ Hk].
  split_and!; [| | | |by apply reaches|by apply quit_terminates|].
  - intros hs f Hhs E. pose proof (looper_step_inv body init id Hb Hi hs s I) as Hl. rewrite E in Hl.
    apply Hl. intros E'. exact (proj2 (Hhs E')).
  - intros f E. pose proof (owner_step_inv body s I) as Hs. by rewrite E in Hs.
  - intros E. rewrite E in W, He. inversion W; subst. split; [apply Ho; lia|].
    assert (is_Some (loop_ s)) as [e Hs] by (apply Ha; lia). exists e. split; [done|]. by destruct (He e Hs).
  - intros El Eo. assert (is_Some (loop_ s)) as [e Hs] by (apply Ha; rewrite El; cbn; lia).
    exists e. split; [done|]. destruct (He e Hs) as (Hq & _). rewrite Eo in Hq.
    destruct (Hk e Hs El Hq) as [H|H]; congruence.
  - intros E. rewrite E in W, T4. inversion W; subst. assert (Ex : looper_ s = Exited) by (apply exited; [done|lia]).
    split_and!; [done | | done]. apply eq_None_not_Some. intros Hs. apply Ha in Hs. rewrite Ex in Hs. cbn in Hs. lia.
Qed.

Lemma loop_thread_correct_witness :
  exists s, runs no_functors [Queue 3] 7 quiet (initial "io" [StartLoop; Destroy]) s /\
    owner_ s = Next [Destroy] /\ owning_loop_ s = true /\
    exists s', rtc (step no_functors [Queue 3] 7 quiet) s s' /\ owner_ s' = Destroyed.
Proof.
  eexists. split; [|split; [|split]].
  - apply (schedule_runs _ _ _ _ [true; true; false; false; false; false; false; false; true; true]).
    vm_compute. reflexivity.
  - reflexivity.
  - reflexivity.
  - eapply (loop_thread_correct no_functors [Queue 3] 7 "io").
    + intros f. constructor.
    + constructor; [exact Logic.I|constructor].
    + apply (schedule_runs _ _ _ _ [true; true; false; false; false; false; false; false; true; true]).
      vm_compute. reflexivity.
    + intros [H _]. discriminate H.
Defined.
