(* ===== verification/Platform.v ===== *)
(** * Platform threads and waiting (src/MutexLock.cc, src/ConditionVariable.cc, src/CountDownLatch.cc, src/PlatformThread.cc)

    What [Sync] takes as given: the mutex of the platform with the owner that [MutexLock] records beside it, waiting
    with a time limit, sleeping, and starting threads.  The mutex is of the kind PTHREAD_MUTEX_ERRORCHECK, as in a debug build; the
    results of pthread_cond_timedwait(3), nanosleep(2) and pthread_create(3) are those that POSIX documents, with what happens meanwhile as an argument.

    It is shown that the recorded owner is the owner of the mutex and exactly which misuse aborts, that the deadline of a timed wait is exact and
    which limits abort, that an interrupted sleep is as long as it was meant to be, and that the time limit of a latch has no effect. *)

From S2P Require Import Prelude Sync TimeStamp.

(** ** Definitions *)

Definition EPERM : Z := 1.
Definition EBUSY : Z := 16.
Definition EINVAL : Z := 22.
Definition EDEADLK : Z := 35.
Definition ETIMEDOUT : Z := 110.

(** *** LockImpl *)

(** The owner of the pthread mutex. *)
Definition native : Type := option nat.

Definition pthread_mutex_trylock (t : nat) (m : native) : Z * native :=
  match m with Some _ => (EBUSY, m) | None => (0, Some t) end.

(** [None]: the caller waits for another owner. *)
Definition pthread_mutex_lock (t : nat) (m : native) : option (Z * native) :=
  match m with
  | None => Some (0, Some t)
  | Some u => if decide (u = t) then Some (EDEADLK, m) else None
  end.

Definition pthread_mutex_unlock (t : nat) (m : native) : Z * native :=
  if decide (m = Some t) then (0, None) else (EPERM, m).

Definition pthread_mutex_destroy (m : native) : Z := match m with None => 0 | Some _ => EBUSY end.

Definition impl_try_lock (t : nat) (m : native) : outcome (bool * native) :=
  let '(rv, m) := pthread_mutex_trylock t m in
  check ((rv =? 0) || (rv =? EBUSY)) "LockImpl::try_lock";; Ok (rv =? 0, m).

Definition impl_lock (t : nat) (m : native) : option (outcome native) :=
  match pthread_mutex_lock t m with
  | Some (rv, m) => Some (check (rv =? 0) "LockImpl::lock";; Ok m)
  | None => None
  end.

Definition impl_unlock (t : nat) (m : native) : outcome native :=
  let '(rv, m) := pthread_mutex_unlock t m in check (rv =? 0) "LockImpl::unlock";; Ok m.

Definition impl_destroy (m : native) : outcome unit := check (pthread_mutex_destroy m =? 0) "LockImpl::~LockImpl".

(** *** MutexLock in a debug build *)

Record mutex : Type := mkMutex { owner : MutexLock; lock_ : native }.

Definition make_mutex : mutex := mkMutex unowned None.

Definition mutex_lock (t : nat) (m : mutex) : option (outcome mutex) :=
  match impl_lock t (lock_ m) with
  | Some r => Some (n ← r; o ← check_unheld_and_mark t (owner m); Ok (mkMutex o n))
  | None => None
  end.

Definition mutex_unlock (t : nat) (m : mutex) : outcome mutex :=
  o ← check_held_and_unmark t (owner m); n ← impl_unlock t (lock_ m); Ok (mkMutex o n).

Definition mutex_try_lock (t : nat) (m : mutex) : outcome (bool * mutex) :=
  '(rv, n) ← impl_try_lock t (lock_ m);
  if rv : bool then o ← check_unheld_and_mark t (owner m); Ok (true, mkMutex o n) else Ok (false, mkMutex (owner m) n).

Definition mutex_destroy (m : mutex) : outcome unit :=
  check (bool_decide (owning_thread_ (owner m) = None)) "~MutexLock";; impl_destroy (lock_ m).

(** [AutoLock::~AutoLock] and the two halves of [AutoUnlock]. *)
Definition AutoLock_dtor (t : nat) (m : mutex) : outcome mutex := assert_acquired t (owner m);; mutex_unlock t m.
Definition AutoUnlock_ctor (t : nat) (m : mutex) : outcome mutex := assert_acquired t (owner m);; mutex_unlock t m.
Definition AutoUnlock_dtor (t : nat) (m : mutex) : option (outcome mutex) := mutex_lock t m.

(** What threads do with a mutex. *)
Inductive mutex_op : Type := Lock (t : nat) | TryLock (t : nat) | Unlock (t : nat) | LeaveScope (t : nat).

(** A step; a thread that would wait does not take one. *)
Definition mutex_step (o : mutex_op) (m : mutex) : option (outcome mutex) :=
  match o with
  | Lock t => mutex_lock t m
  | TryLock t => Some ('(_, m) ← mutex_try_lock t m; Ok m)
  | Unlock t => Some (mutex_unlock t m)
  | LeaveScope t => Some (AutoLock_dtor t m)
  end.

Inductive reaches (m : mutex) : list mutex_op -> mutex -> Prop :=
| reaches_nil : reaches m [] m
| reaches_step os m1 o m2 : reaches m os m1 -> mutex_step o m1 = Some (Ok m2) -> reaches m (os ++ [o]) m2.

(** *** ConditionVariable::timed_wait *)

Record timespec : Type := mkTimespec { tv_sec : Z; tv_nsec : Z }.

(** pthread_cond_timedwait(3); [late] says whether the deadline passes before a signal comes. *)
Definition pthread_cond_timedwait (late : bool) (abstime : timespec) : Z :=
  if (tv_nsec abstime <? 0) || (kNanosecondsPerSecond <=? tv_nsec abstime) then EINVAL
  else if late then ETIMEDOUT else 0.

(** The deadline for the limit [max_time] from [now] on. *)
Definition absolute_time (max_time : Z) (now : timespec) : outcome timespec :=
  let usecs := in_microseconds max_time in
  let relative_sec := cdiv usecs kMicrosecondsPerSecond in
  relative_nsec ← int64 (cmod usecs kMicrosecondsPerSecond * kNanosecondsPerMicrosecond);
  sec ← int64 (tv_sec now + relative_sec);
  nsec ← int64 (tv_nsec now + relative_nsec);
  sec ← int64 (sec + cdiv nsec kNanosecondsPerSecond);
  Ok (mkTimespec sec (cmod nsec kNanosecondsPerSecond)).

(** The wait of thread [t], which holds the lock; when it returns the mutex is its own again. *)
Definition timed_wait (t : nat) (max_time : Z) (now : timespec) (late : bool) (l : MutexLock) : outcome (MutexLock * timespec) :=
  l ← check_held_and_unmark t l;
  abs ← absolute_time max_time now;
  check (tv_sec now <=? tv_sec abs) "timed_wait: overflow";;
  let rv := pthread_cond_timedwait late abs in
  check ((rv =? 0) || (rv =? ETIMEDOUT)) "timed_wait: rv";;
  l ← check_unheld_and_mark t l;
  Ok (l, abs).

(** *** CountDownLatch::wait(max_time) *)

(** What a waiting thread finds every time it wakes up: whether it was late, the clock, and [count_]. *)
Record wakeup : Type := mkWakeup { w_late : bool; w_now : timespec; w_count : Z }.

(** The loop: [None] if the thread still waits at the end of the list. *)
Fixpoint latch_wait (t : nat) (max_time : Z) (count : Z) (l : MutexLock) (ws : list wakeup) : outcome (option MutexLock) :=
  if 0 <? count then
    match ws with
    | [] => Ok None
    | w :: ws => '(l, _) ← timed_wait t max_time (w_now w) (w_late w) l; latch_wait t max_time (w_count w) l ws
    end
  else l ← auto_unlock t l; Ok (Some l).

(** *** PlatformThread::sleep *)

(** nanosleep(2) of [ts]: an interrupt after [k] nanoseconds leaves the rest; the result is the time slept, and the rest with [EINTR]. *)
Definition nanosecs (ts : timespec) : Z := tv_sec ts * kNanosecondsPerSecond + tv_nsec ts.

Inductive nap : Type := Slept (ns : Z) | Interrupted (ns : Z) (remaining : timespec) | Refused.

Definition nanosleep (ts : timespec) (interrupt : option Z) : nap :=
  if (tv_sec ts <? 0) || (tv_nsec ts <? 0) || (kNanosecondsPerSecond <=? tv_nsec ts) then Refused
  else
    match interrupt with
    | Some k =>
        let k := Z.min (Z.max 0 k) (nanosecs ts) in
        let r := nanosecs ts - k in
        Interrupted k (mkTimespec (cdiv r kNanosecondsPerSecond) (cmod r kNanosecondsPerSecond))
    | None => Slept (nanosecs ts)
    end.

(** The loop, with the interrupts to come; the result is how long the thread has slept. *)
Fixpoint sleep_loop (sleep_time : timespec) (interrupts : list Z) : Z :=
  match interrupts with
  | [] => match nanosleep sleep_time None with Slept ns => ns | _ => 0 end
  | k :: interrupts =>
      match nanosleep sleep_time (Some k) with
      | Interrupted ns remaining => ns + sleep_loop remaining interrupts
      | Slept ns => ns
      | Refused => 0
      end
  end.

Definition sleep (duration : Z) (interrupts : list Z) : outcome Z :=
  let sec := in_seconds duration in
  whole ← from_seconds sec;
  rest ← delta_sub duration whole;
  nsec ← int64 (in_microseconds rest * 1000);
  Ok (sleep_loop (mkTimespec sec nsec) interrupts).

(** *** create_thread *)

(** Where the [ThreadParams] of a thread are: owned by the caller's unique_ptr, by the new thread's, or deleted so often. *)
Record params : Type := mkParams { caller_owns : bool; thread_owns : bool; deleted : nat; ran : nat }.

(** [create_thread]: the thread [ref], or 0 with [errno] set; the unique_ptr of the caller ends with the function. *)
Definition create_thread (err ref : Z) : bool * Z * params :=
  let success := err =? 0 in
  if success then (true, ref, mkParams false true 0 0) else (false, 0, mkParams false false 1 0).

(** [thread_func]: the callback runs, then the unique_ptr of the thread ends. *)
Definition thread_func (p : params) : outcome params :=
  check (thread_owns p) "thread_func";; Ok (mkParams (caller_owns p) false (S (deleted p)) (S (ran p))).

(** ** The mutex *)

Definition owned (m : mutex) : Prop := owning_thread_ (owner m) = lock_ m.

Definition held_by (t : nat) : mutex := mkMutex (held t) (Some t).

Lemma owned_cases m : owned m -> m = make_mutex \/ exists t, m = held_by t.
Proof. destruct m as [[o] n]. unfold owned. cbn. intros ->. destruct n as [t|]; [right; by exists t | by left]. Qed.

(** What every call does, for a mutex whose recorded owner is right. *)
Definition mutex_spec (o : mutex_op) (m : mutex) : option (outcome mutex) :=
  match o, lock_ m with
  | Lock t, None => Some (Ok (held_by t))
  | Lock t, Some u => if decide (u = t) then Some (Fault (CheckFailed "LockImpl::lock")) else None
  | TryLock t, None => Some (Ok (held_by t))
  | TryLock t, Some u => Some (Ok m)
  | Unlock t, n => Some (if decide (n = Some t) then Ok make_mutex else Fault (CheckFailed "check_held_and_unmark"))
  | LeaveScope t, n => Some (if decide (n = Some t) then Ok make_mutex else Fault (CheckFailed "assert_acquired"))
  end.

Lemma mutex_step_spec o m : owned m -> mutex_step o m = mutex_spec o m.
Proof.
  intros H. apply owned_cases in H as [-> |[u ->]].
  - destruct o as [t|t|t|t]; cbn; try done.
  - destruct o as [t|t|t|t]; cbn [mutex_step mutex_spec held_by lock_].
    + unfold mutex_lock, impl_lock, pthread_mutex_lock. cbn [held_by lock_]. by destruct (decide (u = t)).
    + done.
    + unfold mutex_unlock, check_held_and_unmark, impl_unlock, pthread_mutex_unlock. cbn [held_by owner held owning_thread_ lock_].
      destruct (decide (u = t)) as [->|N]; [by rewrite bool_decide_true, !decide_True|by rewrite bool_decide_false, !decide_False by congruence].
    + unfold AutoLock_dtor, assert_acquired, mutex_unlock, check_held_and_unmark, impl_unlock, pthread_mutex_unlock. cbn [held_by owner held owning_thread_ lock_].
      destruct (decide (u = t)) as [->|N]; [by rewrite bool_decide_true, !decide_True|by rewrite bool_decide_false, !decide_False by congruence].
Qed.

Lemma mutex_spec_owned o m m' : owned m -> mutex_spec o m = Some (Ok m') -> owned m'.
Proof.
  intros H. destruct o, (lock_ m) as [u|] eqn:E; cbn [mutex_spec]; rewrite E; intros [= Hm];
    repeat case_decide; simplify_eq; done.
Qed.

(** Whatever threads do with a mutex, the owner that [MutexLock] records is the owner of the pthread mutex, so that the checks
    of the two agree: locking waits for another owner, and aborts in the owner itself; only the owner
    can unlock; trying to lock never aborts; and the mutex can be destroyed exactly when it is free. *)
Theorem mutex_correct (os : list mutex_op) (m : mutex) (o : mutex_op) :
  reaches make_mutex os m ->
  owned m /\ mutex_step o m = mutex_spec o m /\ (is_ok (mutex_destroy m) <-> lock_ m = None).
Proof.
  intros R. assert (owned m) as H.
  { induction R as [|os m1 o' m2 R IH E]; [done|]. rewrite mutex_step_spec in E by done. by eapply mutex_spec_owned. }
  split_and!; [done|by apply mutex_step_spec|].
  apply owned_cases in H as [-> |[t ->]]; cbn; split; try done; [by exists tt|by intros [? ?]].
Qed.

(** ** Waiting with a limit *)

Lemma int64_in z : kInt64Min <= z <= kInt64Max -> int64 z = Ok z.
Proof. intros H. unfold int64, int64_ok. by rewrite defined_true by (rewrite (proj2 (Z.leb_le _ _)), (proj2 (Z.leb_le _ _)) by lia; done). Qed.

Lemma in_microseconds_same d : kInt64Min <= d <= kInt64Max -> in_microseconds d = d.
Proof.
  intros H. unfold in_microseconds, divide_or_max, delta_is_max. destruct (Z.eqb_spec d kInt64Max) as [->|]; [done|].
  unfold cdiv. rewrite Z.quot_1_r. apply i64_small. unfold kInt64Min, kInt64Max in *. lia.
Qed.

Ltac usual_units :=
  unfold kNanosecondsPerSecond, kNanosecondsPerMicrosecond, kMicrosecondsPerSecond, kMicrosecondsPerMillisecond,
    kMillisecondsPerSecond, kInt64Min, kInt64Max in *.

(** Quotient and remainder of C++ for a nonnegative and a small negative dividend. *)
Lemma quot_rem_pos a b : 0 <= a -> 0 < b -> a = b * cdiv a b + cmod a b /\ 0 <= cmod a b < b /\ 0 <= cdiv a b.
Proof.
  intros Ha Hb. unfold cdiv, cmod. pose proof (Z.quot_rem' a b). pose proof (Z.rem_bound_pos a b Ha Hb). pose proof (Z.quot_pos a b Ha Hb). lia.
Qed.
Lemma quot_rem_neg a b : a <= 0 -> 0 < b -> a = b * cdiv a b + cmod a b /\ - b < cmod a b <= 0 /\ cdiv a b <= 0.
Proof.
  intros Ha Hb. unfold cdiv, cmod. pose proof (Z.quot_rem' a b). pose proof (Z.rem_bound_pos (- a) b ltac:(lia) Hb) as B.
  rewrite Z.rem_opp_l in B by lia. pose proof (Z.quot_pos (- a) b ltac:(lia) Hb) as Q. rewrite Z.quot_opp_l in Q by lia. lia.
Qed.

(** A clock that reads a normal time. *)
Definition clock_ok (now : timespec) : Prop := 0 <= tv_sec now < 2 ^ 62 /\ 0 <= tv_nsec now < kNanosecondsPerSecond.

(** The deadline before it is checked. *)
Lemma absolute_time_ok d now :
  clock_ok now -> kInt64Min <= d <= kInt64Max ->
  let nsec := tv_nsec now + cmod d kMicrosecondsPerSecond * kNanosecondsPerMicrosecond in
  absolute_time d now =
    Ok (mkTimespec (tv_sec now + cdiv d kMicrosecondsPerSecond + cdiv nsec kNanosecondsPerSecond) (cmod nsec kNanosecondsPerSecond)).
Proof.
  intros [H1 H2] Hd nsec. unfold absolute_time. rewrite in_microseconds_same by done.
  assert (- 1000000 < cmod d kMicrosecondsPerSecond < 1000000 /\ - 2 ^ 44 < cdiv d kMicrosecondsPerSecond < 2 ^ 44) as [B1 B2].
  { destruct (Z.le_gt_cases 0 d); [pose proof (quot_rem_pos d kMicrosecondsPerSecond ltac:(lia) ltac:(usual_units; lia)) as Q|pose proof (quot_rem_neg d kMicrosecondsPerSecond ltac:(lia) ltac:(usual_units; lia)) as Q];
      usual_units; lia. }
  assert (- 1000000000 < nsec < 2000000000) as B3 by (unfold nsec; usual_units; lia).
  assert (0 <= cdiv nsec kNanosecondsPerSecond <= 1) as B4.
  { destruct (Z.le_gt_cases 0 nsec); [pose proof (quot_rem_pos nsec kNanosecondsPerSecond ltac:(lia) ltac:(usual_units; lia)) as Q|pose proof (quot_rem_neg nsec kNanosecondsPerSecond ltac:(lia) ltac:(usual_units; lia)) as Q];
      usual_units; lia. }
  rewrite int64_in by (usual_units; lia). cbn [mbind outcome_bind]. rewrite int64_in by (usual_units; lia). cbn [mbind outcome_bind].
  rewrite int64_in by (fold nsec; usual_units; lia). cbn [mbind outcome_bind]. fold nsec. rewrite int64_in by (usual_units; lia). done.
Qed.

(** The limits that are accepted. *)
Definition accepted (max_time : Z) (now : timespec) : Prop :=
  0 <= max_time \/ (- kMicrosecondsPerSecond < max_time /\ 0 <= tv_nsec now + max_time * kNanosecondsPerMicrosecond).

Lemma timed_wait_ok t max_time now late :
  clock_ok now -> kInt64Min <= max_time <= kInt64Max -> accepted max_time now ->
  exists abs, timed_wait t max_time now late (held t) = Ok (held t, abs) /\
    nanosecs abs = nanosecs now + max_time * kNanosecondsPerMicrosecond /\ 0 <= tv_nsec abs < kNanosecondsPerSecond.
Proof.
  intros Hc Hd Ha. unfold timed_wait. rewrite unmark_held. cbn [mbind outcome_bind]. rewrite absolute_time_ok by done. cbn [mbind outcome_bind tv_sec].
  set (rel := cmod max_time kMicrosecondsPerSecond). set (sec := cdiv max_time kMicrosecondsPerSecond). set (nsec := tv_nsec now + rel * kNanosecondsPerMicrosecond).
  destruct Hc as [H1 H2]. unfold pthread_cond_timedwait. cbn [tv_nsec tv_sec].
  assert (0 <= sec /\ max_time = sec * 1000000 + rel /\ 0 <= nsec < 2000000000) as (S1 & S2 & S3).
  { destruct (Z.le_gt_cases 0 max_time) as [Hp|Hn]; [pose proof (quot_rem_pos max_time kMicrosecondsPerSecond ltac:(lia) ltac:(usual_units; lia)) as Q|
      pose proof (quot_rem_neg max_time kMicrosecondsPerSecond ltac:(lia) ltac:(usual_units; lia)) as Q]; fold rel sec in Q; unfold accepted, nsec in *; usual_units; lia. }
  pose proof (quot_rem_pos nsec kNanosecondsPerSecond ltac:(lia) ltac:(usual_units; lia)) as Q. rewrite (proj2 (Z.leb_le (tv_sec now) _)) by (usual_units; lia). cbn [check mbind outcome_bind].
  rewrite (proj2 (Z.ltb_ge _ _)), (proj2 (Z.leb_gt _ _)) by (usual_units; lia). cbn [orb]. rewrite check_true by (by destruct late). cbn [mbind outcome_bind].
  eexists. split; [reflexivity|]. unfold nanosecs. cbn [tv_sec tv_nsec]. unfold nsec in *. usual_units. lia.
Qed.

Lemma timed_wait_aborts t max_time now late :
  clock_ok now -> kInt64Min <= max_time <= kInt64Max -> ~ accepted max_time now ->
  exists site, timed_wait t max_time now late (held t) = Fault (CheckFailed site).
Proof.
  intros Hc Hd Hna. unfold timed_wait. rewrite unmark_held. cbn [mbind outcome_bind]. rewrite absolute_time_ok by done. cbn [mbind outcome_bind tv_sec].
  set (rel := cmod max_time kMicrosecondsPerSecond). set (sec := cdiv max_time kMicrosecondsPerSecond). set (nsec := tv_nsec now + rel * kNanosecondsPerMicrosecond).
  destruct Hc as [H1 H2]. unfold pthread_cond_timedwait. cbn [tv_nsec tv_sec]. assert (max_time < 0) as Hneg by (unfold accepted in Hna; lia).
  pose proof (quot_rem_neg max_time kMicrosecondsPerSecond ltac:(lia) ltac:(usual_units; lia)) as Q. fold rel sec in Q.
  destruct (Z.leb_spec (tv_sec now) (tv_sec now + sec + cdiv nsec kNanosecondsPerSecond)) as [Hle|Hlt]; [|by eexists]. cbn [check mbind outcome_bind].
  assert (sec = 0 /\ nsec < 0) as [E1 E2].
  { destruct (Z.le_gt_cases 0 nsec) as [Hp|Hn]; [pose proof (quot_rem_pos nsec kNanosecondsPerSecond ltac:(lia) ltac:(usual_units; lia)) as Q2|
      pose proof (quot_rem_neg nsec kNanosecondsPerSecond ltac:(lia) ltac:(usual_units; lia)) as Q2]; unfold accepted, nsec in *; usual_units; lia. }
  pose proof (quot_rem_neg nsec kNanosecondsPerSecond ltac:(lia) ltac:(usual_units; lia)) as Q2.
  assert (cmod nsec kNanosecondsPerSecond < 0) as Hm by (unfold nsec in *; usual_units; lia).
  rewrite (proj2 (Z.ltb_lt _ _)) by done. cbn [orb]. by eexists.
Qed.

(** C40. Waiting for at most [max_time] sets the deadline to exactly that much after the clock, as a valid time, whatever
    limit up to the largest there is, and the thread holds the lock again afterwards.  A negative limit is accepted only if it is
    under a second and does not borrow from the seconds of the clock; every other one aborts the program. *)
Theorem timed_wait_correct (t : nat) (max_time : Z) (now : timespec) (late : bool) :
  clock_ok now -> kInt64Min <= max_time <= kInt64Max ->
  (accepted max_time now -> exists abs, timed_wait t max_time now late (held t) = Ok (held t, abs) /\
     nanosecs abs = nanosecs now + max_time * kNanosecondsPerMicrosecond /\ 0 <= tv_nsec abs < kNanosecondsPerSecond) /\
  (~ accepted max_time now -> exists site, timed_wait t max_time now late (held t) = Fault (CheckFailed site)).
Proof. intros Hc Hd. split; intros Ha; [by apply timed_wait_ok | by apply timed_wait_aborts]. Qed.

Lemma timed_wait_correct_witness :
  clock_ok (mkTimespec 100 999999999) /\
  exists abs, timed_wait 1 kInt64Max (mkTimespec 100 999999999) true (held 1) = Ok (held 1, abs) /\ 0 <= tv_nsec abs < kNanosecondsPerSecond.
Proof.
  split; [split; vm_compute; intuition discriminate|].
  destruct (timed_wait_correct 1 kInt64Max (mkTimespec 100 999999999) true) as [H _].
  - split; vm_compute; intuition discriminate.
  - split; vm_compute; discriminate.
  - destruct H as (abs & E & _ & B); [left; vm_compute; discriminate|]. exists abs. split; assumption.
Defined.

(** ** The latch with a limit *)

(** The limit of [CountDownLatch::wait] has no effect: however often the thread wakes up late, it goes on waiting until
    it finds the latch open. *)
Theorem latch_limit_ignored (t : nat) (max_time count : Z) (ws : list wakeup) :
  0 <= max_time <= kInt64Max -> Forall (fun w => clock_ok (w_now w)) ws ->
  latch_wait t max_time count (held t) ws = Ok (if existsb (fun c => c <=? 0) (count :: map w_count ws) then Some unowned else None).
Proof.
  intros Hm Hws. revert count. induction Hws as [|w ws Hw Hws IH]; intros count; cbn [latch_wait map existsb].
  - destruct (Z.ltb_spec 0 count), (Z.leb_spec count 0); try lia; [done|]. by rewrite auto_unlock_held.
  - destruct (Z.ltb_spec 0 count), (Z.leb_spec count 0); try lia; [|by rewrite auto_unlock_held].
    destruct (timed_wait_ok t max_time (w_now w) (w_late w) Hw ltac:(usual_units; lia)) as (abs & -> & _); [left; lia|]. cbn [mbind outcome_bind]. by rewrite IH.
Qed.

(** ** Sleeping *)

Lemma sleep_loop_ok ts ks :
  0 <= tv_sec ts -> 0 <= tv_nsec ts < kNanosecondsPerSecond -> sleep_loop ts ks = nanosecs ts.
Proof.
  revert ts. induction ks as [|k ks IH]; intros ts H1 H2; cbn [sleep_loop]; unfold nanosleep;
    rewrite (proj2 (Z.ltb_ge _ _)), (proj2 (Z.ltb_ge _ _)), (proj2 (Z.leb_gt _ _)) by lia; cbn [orb]; [done|].
  set (n := nanosecs ts). assert (0 <= n) by (unfold n, nanosecs; usual_units; lia). set (r := n - Z.min (Z.max 0 k) n).
  pose proof (quot_rem_pos r kNanosecondsPerSecond ltac:(unfold r; lia) ltac:(usual_units; lia)) as Q.
  rewrite IH by (cbn; lia). unfold nanosecs at 1. cbn [tv_sec tv_nsec]. unfold r in *. lia.
Qed.

(** A sleep is as long as it was meant to be, however often it is interrupted; for a negative duration it is over at once. *)
Theorem sleep_correct (duration : Z) (interrupts : list Z) :
  kInt64Min <= duration < kInt64Max ->
  sleep duration interrupts = Ok (Z.max 0 duration * kNanosecondsPerMicrosecond).
Proof.
  intros Hd. unfold sleep, in_seconds, divide_or_max, delta_is_max. rewrite (proj2 (Z.eqb_neq _ _)) by lia.
  set (sec := cdiv duration kMicrosecondsPerSecond). set (us := cmod duration kMicrosecondsPerSecond).
  assert (duration = sec * 1000000 + us /\ - 1000000 < us < 1000000 /\ (0 <= duration -> 0 <= sec /\ 0 <= us) /\ (duration < 0 -> sec <= 0 /\ us <= 0)) as (E & B & P & N).
  { destruct (Z.le_gt_cases 0 duration); [pose proof (quot_rem_pos duration kMicrosecondsPerSecond ltac:(lia) ltac:(usual_units; lia)) as Q|
      pose proof (quot_rem_neg duration kMicrosecondsPerSecond ltac:(lia) ltac:(usual_units; lia)) as Q]; fold sec us in Q; usual_units; lia. }
  rewrite i64_small by (usual_units; lia). unfold from_seconds, from_product.
  assert (cdiv kInt64Max kMicrosecondsPerSecond = 9223372036854 /\ cdiv kInt64Min kMicrosecondsPerSecond = -9223372036854) as [-> ->] by (vm_compute; done).
  rewrite (proj2 (Z.ltb_ge _ _)), (proj2 (Z.ltb_ge _ _)) by (usual_units; lia). rewrite int64_in by (usual_units; lia). cbn [mbind outcome_bind].
  unfold delta_sub. replace (duration - sec * kMicrosecondsPerSecond) with us by (usual_units; lia). rewrite int64_in by (usual_units; lia). cbn [mbind outcome_bind].
  rewrite in_microseconds_same by (usual_units; lia). rewrite int64_in by (usual_units; lia). cbn [mbind outcome_bind]. f_equal.
  destruct (Z.le_gt_cases 0 duration) as [Hp|Hn].
  - destruct (P Hp). rewrite sleep_loop_ok by (cbn; usual_units; lia). unfold nanosecs. cbn [tv_sec tv_nsec]. usual_units. lia.
  - destruct (N Hn). assert (sec < 0 \/ us < 0) as Hs by lia.
    assert (forall i, nanosleep (mkTimespec sec (us * 1000)) i = Refused) as R.
    { intros i. unfold nanosleep. cbn [tv_sec tv_nsec]. destruct Hs as [Hs|Hs]; [rewrite (proj2 (Z.ltb_lt sec 0)) by lia; done|].
      rewrite (proj2 (Z.ltb_lt (us * 1000) 0)) by lia. by rewrite orb_true_r. }
    destruct interrupts; cbn [sleep_loop]; rewrite R; lia.
Qed.

(** ** Starting a thread *)

(** The parameters of a thread are deleted once, by the thread if it was created and otherwise by the
    caller, and the callback runs once or not at all. *)
Theorem create_thread_correct (err ref : Z) :
  let '(ok, r, p) := create_thread err ref in
  (ok = true <-> err = 0) /\
  (ok = true -> r = ref /\ exists p', thread_func p = Ok p' /\ deleted p' = 1%nat /\ ran p' = 1%nat) /\
  (ok = false -> r = 0 /\ deleted p = 1%nat /\ ran p = 0%nat).
Proof.
  unfold create_thread. destruct (Z.eqb_spec err 0) as [->|N]; cbn; split_and!; try done.
  - intros _. split; [done|]. by eexists.
Qed.

(** ** Examples *)

(** The documented use: wait for at most a second.  Three seconds later the thread still waits. *)
Example latch_waits_on :
  latch_wait 1 1000000 1 (held 1) [mkWakeup true (mkTimespec 11 0) 1; mkWakeup true (mkTimespec 12 0) 1; mkWakeup true (mkTimespec 13 0) 1] = Ok None.
Proof. vm_compute. reflexivity. Qed.

(** A limit of minus one microsecond aborts or not, as the clock has it. *)
Example negative_limit :
  (is_ok (timed_wait 1 (-1) (mkTimespec 10 1000) true (held 1))) /\ timed_wait 1 (-1) (mkTimespec 10 999) true (held 1) = Fault (CheckFailed "timed_wait: rv").
Proof. split; [vm_compute; by eexists | vm_compute; reflexivity]. Qed.

(** The longest duration is not the time it says: [in_seconds] is then the largest number of seconds. *)
Example sleep_forever : sleep kInt64Max [] = Ok (kInt64Max * kNanosecondsPerSecond).
Proof. vm_compute. reflexivity. Qed.
