(* ===== verification/AtExit.v ===== *)
(** * AtExit and Singleton (include/AtExit.h, src/AtExit.cc, include/Singleton.h)

    The managers of exit callbacks, kept on a stack of which the top one is used, and the
    singletons, which register their own deletion there.  A callback is a number whose
    [body] is what it does with the two facilities when it runs.  pthread_once(3) runs its
    function at most once.

    The file shows that the destructor of a manager runs exactly the callbacks registered before
    it, last in first out, and that it fails exactly when a callback uses a singleton
    that was created after the callback was registered, which is then deleted already. *)

From S2P Require Import Prelude.

(** ** Definitions *)

(** What a program does with the facilities. *)
Inductive op : Type :=
| Register (c : nat)      (** [AtExitManager::register_callback] *)
| Get (s : nat).          (** [Singleton<Type>::get], [s] names the type *)

(** A callback on the stack: of the program, or [Singleton::on_exit]. *)
Inductive entry : Type := Callback (c : nat) | OnExit (s : nat).

#[export] Instance entry_eq_dec : EqDecision entry.
Proof. solve_decision. Defined.

Record AtExitManager : Type := mkManager { id : nat; stack_cb_ : list entry }.

Record world : Type := mkWorld {
  managers : list AtExitManager;   (** [g_top_manager] and its chain of [next_manager_] *)
  once_ : gset nat;                (** the types whose pthread_once(3) has run *)
  instance_ : gset nat;            (** the types whose [instance_] is not null *)
  trace : list entry;              (** what has run *)
}.

Definition with_managers (ms : list AtExitManager) (w : world) : world :=
  mkWorld ms (once_ w) (instance_ w) (trace w).
Definition with_singletons (o i : gset nat) (w : world) : world := mkWorld (managers w) o i (trace w).
Definition with_trace (t : list entry) (w : world) : world := mkWorld (managers w) (once_ w) (instance_ w) t.

Section AtExit.
(** What a callback does; the types with [LeakySingletonTraits]. *)
Context (body : nat -> list op) (leaky : nat -> bool).

(** The constructors: [shadow] is the one for testing. *)
Definition make_manager (shadow : bool) (i : nat) (w : world) : outcome world :=
  check (shadow || bool_decide (managers w = [])) "AtExitManager";;
  Ok (with_managers (mkManager i [] :: managers w) w).

Definition register_callback (e : entry) (w : world) : outcome world :=
  match managers w with
  | [] => Fault (CheckFailed "register_callback: no AtExitManager")
  | m :: ms => Ok (with_managers (mkManager (id m) (e :: stack_cb_ m) :: ms) w)
  end.

(** [Singleton::create], called by pthread_once(3). *)
Definition create (s : nat) (w : world) : outcome world :=
  check (negb (bool_decide (s ∈ instance_ w))) "create: instance_";;
  let w := with_singletons (once_ w) ({[s]} ∪ instance_ w) w in
  if leaky s then Ok w else register_callback (OnExit s) w.

Definition get (s : nat) (w : world) : outcome world :=
  w ← (if bool_decide (s ∈ once_ w) then Ok w
       else create s (with_singletons ({[s]} ∪ once_ w) (instance_ w) w));
  check (bool_decide (s ∈ instance_ w)) "get: instance_";; Ok w.

Definition on_exit (s : nat) (w : world) : outcome world :=
  check (bool_decide (s ∈ instance_ w)) "on_exit: instance_";;
  Ok (with_singletons (once_ w) (instance_ w ∖ {[s]}) w).

Definition do_op (o : op) (w : world) : outcome world :=
  match o with Register c => register_callback (Callback c) w | Get s => get s w end.

Fixpoint do_ops (os : list op) (w : world) : outcome world :=
  match os with [] => Ok w | o :: os => w ← do_op o w; do_ops os w end.

(** [task()]. *)
Definition run_task (e : entry) (w : world) : outcome world :=
  let w := with_trace (trace w ++ [e]) w in
  match e with Callback c => do_ops (body c) w | OnExit s => on_exit s w end.

(** The loop over the stack that was swapped out. *)
Fixpoint run_tasks (cbs : list entry) (w : world) : outcome world :=
  match cbs with [] => Ok w | e :: cbs => w ← run_task e w; run_tasks cbs w end.

Definition process_callbacks (w : world) : outcome world :=
  match managers w with
  | [] => Fault (CheckFailed "process_callbacks: no AtExitManager")
  | m :: ms => run_tasks (stack_cb_ m) (with_managers (mkManager (id m) [] :: ms) w)
  end.

(** The destructor of the manager [i]. *)
Definition destroy_manager (i : nat) (w : world) : outcome world :=
  match managers w with
  | [] => Fault (CheckFailed "~AtExitManager: no AtExitManager")
  | m :: _ =>
      check (bool_decide (i = id m)) "~AtExitManager: g_top_manager";;
      w ← process_callbacks w;
      Ok (with_managers (tail (managers w)) w)
  end.

End AtExit.

(** ** Reference definitions *)

Definition register_one (leaky : nat -> bool) (seen : gset nat) (o : op) : list entry :=
  match o with
  | Register c => [Callback c]
  | Get s => if bool_decide (s ∈ seen) || leaky s then [] else [OnExit s]
  end.

Definition see (seen : gset nat) (o : op) : gset nat :=
  match o with Register _ => seen | Get s => {[s]} ∪ seen end.

(** What a program registers, in order: its callbacks, and each singleton at its first use. *)
Fixpoint registrations (leaky : nat -> bool) (seen : gset nat) (os : list op) : list entry :=
  match os with
  | [] => []
  | o :: os => register_one leaky seen o ++ registrations leaky (see seen o) os
  end.

Definition uses (os : list op) : gset nat := foldr (fun o g => see g o) ∅ os.

(** No callback of the list uses a singleton that [dead] or an earlier entry of it deletes. *)
Fixpoint well_ordered (body : nat -> list op) (dead : gset nat) (cbs : list entry) : bool :=
  match cbs with
  | [] => true
  | OnExit s :: cbs => well_ordered body ({[s]} ∪ dead) cbs
  | Callback c :: cbs => bool_decide (uses (body c) ## dead) && well_ordered body dead cbs
  end.

(** ** Lemmas *)

(** The singletons that were deleted. *)
Definition dead (w : world) : gset nat := once_ w ∖ instance_ w.

Definition consistent (w : world) : Prop := managers w <> [] /\ instance_ w ⊆ once_ w.

(** The world after operations that registered [es]. *)
Definition registered (es : list entry) (used : gset nat) (w w' : world) : Prop :=
  managers w' = match managers w with m :: ms => mkManager (id m) (rev es ++ stack_cb_ m) :: ms | [] => [] end /\
  once_ w' = used ∪ once_ w /\ instance_ w' = used ∪ instance_ w /\ trace w' = trace w.

Lemma registered_consistent es used w w' : consistent w -> registered es used w w' -> consistent w'.
Proof.
  intros [Hm Hs] (R1 & R2 & R3 & _). split; [|rewrite R2, R3; set_solver].
  rewrite R1. by destruct (managers w).
Qed.

Lemma registered_dead es used w w' : used ## dead w -> registered es used w w' -> dead w' = dead w.
Proof.
  intros Hu (_ & R2 & R3 & _). unfold dead in *. rewrite R2, R3. apply set_eq. intros x. set_solver.
Qed.

Lemma registered_trans es es' u u' w w' w'' :
  registered es u w w' -> registered es' u' w' w'' -> registered (es ++ es') (u ∪ u') w w''.
Proof.
  intros (R1 & R2 & R3 & R4) (S1 & S2 & S3 & S4). unfold registered. rewrite S1, S2, S3, S4, R1, R2, R3, R4.
  rewrite rev_app_distr. split_and!; [|set_solver..]. destruct (managers w); [done|]. cbn. by rewrite app_assoc.
Qed.

Lemma uses_cons o os : uses (o :: os) = see ∅ o ∪ uses os.
Proof. destruct o; cbn; set_solver. Qed.

Lemma see_union seen o : see seen o = see ∅ o ∪ seen.
Proof. destruct o; cbn; set_solver. Qed.

Section Lemmas.
Context (leaky : nat -> bool).

Lemma do_op_spec o w :
  consistent w ->
  if bool_decide (see ∅ o ## dead w)
  then exists w', do_op leaky o w = Ok w' /\ registered (register_one leaky (once_ w) o) (see ∅ o) w w'
  else exists f, do_op leaky o w = Fault f.
Proof.
  intros [Hm Hs]. destruct (managers w) as [|m ms] eqn:Em; [done|]. destruct o as [c|s]; cbn [do_op see register_one].
  - rewrite bool_decide_true by set_solver. unfold register_callback, registered. rewrite Em. eexists.
    split; [done|]. cbn. split_and!; [done|set_solver..|done].
  - unfold get. destruct (decide (s ∈ once_ w)) as [Ho|Ho].
    + rewrite (bool_decide_true (s ∈ once_ w)) by done. cbn [mbind outcome_bind orb].
      destruct (decide (s ∈ instance_ w)) as [Hi|Hi].
      * rewrite (bool_decide_true (s ∈ instance_ w)) by done.
        rewrite bool_decide_true by (unfold dead; set_solver). eexists. split; [done|]. unfold registered.
        rewrite Em. split_and!; [by destruct m|set_solver..|done].
      * rewrite (bool_decide_false (s ∈ instance_ w)) by done.
        rewrite bool_decide_false by (unfold dead; set_solver). by eexists.
    + rewrite (bool_decide_false (s ∈ once_ w)) by done. unfold create. cbn [with_singletons instance_].
      rewrite (bool_decide_false (s ∈ instance_ w)) by set_solver. cbn [negb check mbind outcome_bind orb].
      rewrite bool_decide_true by (unfold dead; set_solver). unfold register_callback.
      destruct (leaky s); cbn [mbind outcome_bind managers with_singletons]; rewrite ?Em; cbn [mbind outcome_bind]; rewrite bool_decide_true by (cbn; set_solver); eexists;
        (split; [done|]); unfold registered; cbn; rewrite Em; split_and!; try set_solver; by destruct m.
Qed.

Lemma do_ops_spec os w :
  consistent w ->
  if bool_decide (uses os ## dead w)
  then exists w', do_ops leaky os w = Ok w' /\ registered (registrations leaky (once_ w) os) (uses os) w w'
  else exists f, do_ops leaky os w = Fault f.
Proof.
  revert w. induction os as [|o os IH]; intros w Hw.
  { rewrite bool_decide_true by set_solver. exists w. split; [done|]. unfold registered. cbn.
    destruct (managers w) as [|[]]; split_and!; done || set_solver. }
  rewrite uses_cons. cbn [do_ops registrations]. pose proof (do_op_spec o w Hw) as Ho.
  case_bool_decide as Hd.
  - destruct Ho as (w1 & E & R). rewrite E. cbn [mbind outcome_bind].
    pose proof (registered_consistent _ _ _ _ Hw R) as Hw1. pose proof (registered_dead _ _ _ _ Hd R) as D1.
    specialize (IH w1 Hw1). rewrite D1 in IH.
    assert (O1 : once_ w1 = see (once_ w) o) by (rewrite see_union; apply R). rewrite O1 in IH.
    destruct (decide (uses os ## dead w)) as [Hu|Hu].
    + rewrite bool_decide_true in IH by done. rewrite bool_decide_true by set_solver.
      destruct IH as (w2 & E2 & R2). exists w2. split; [done|]. by apply (registered_trans _ _ _ _ w w1 w2).
    + rewrite bool_decide_false in IH by done. rewrite bool_decide_false by set_solver. done.
  - rewrite bool_decide_false by set_solver. destruct Ho as [f ->]. by exists f.
Qed.

Definition exits (cbs : list entry) : list nat := omap (fun e => match e with OnExit s => Some s | Callback _ => None end) cbs.

Lemma exits_app a b : exits (a ++ b) = exits a ++ exits b.
Proof. apply omap_app. Qed.

Lemma exits_rev cbs : exits (rev cbs) = rev (exits cbs).
Proof. induction cbs as [|[c|s] cbs IH]; [done|..]; cbn; rewrite exits_app, IH; cbn; by rewrite ?app_nil_r. Qed.

(** A singleton registers once, at its first use. *)
Lemma registrations_exits seen os :
  NoDup (exits (registrations leaky seen os)) /\
  (forall s, s ∈ exits (registrations leaky seen os) -> (s ∉ seen) /\ (s ∈ uses os)).
Proof.
  revert seen. induction os as [|o os IH]; intros seen; cbn [registrations].
  { split; [constructor|]. intros s Hs. by apply elem_of_nil in Hs. }
  destruct (IH (see seen o)) as [IH1 IH2]. rewrite exits_app, uses_cons. destruct o as [c|s]; cbn [register_one see] in *.
  - cbn. split; [done|]. intros s Hs. destruct (IH2 s Hs). set_solver.
  - destruct (bool_decide (s ∈ seen) || leaky s) eqn:E; cbn.
    + split; [done|]. intros s' Hs. destruct (IH2 s' Hs). set_solver.
    + apply orb_false_iff in E as [E%bool_decide_eq_false _]. split.
      * constructor; [|done]. intros Hs. destruct (IH2 s Hs). set_solver.
      * intros s' [->|Hs]%elem_of_cons; [set_solver|]. destruct (IH2 s' Hs). set_solver.
Qed.

(** The entries to run delete distinct singletons that are alive. *)
Definition runnable (cbs : list entry) (w : world) : Prop :=
  NoDup (exits cbs) /\ (forall s, s ∈ exits cbs -> s ∈ instance_ w).

Lemma run_tasks_spec (body : nat -> list op) cbs w :
  consistent w -> runnable cbs w ->
  if well_ordered body (dead w) cbs
  then exists w', run_tasks body leaky cbs w = Ok w' /\ trace w' = trace w ++ cbs /\
         tail (managers w') = tail (managers w) /\ managers w' <> [] /\ dead w' = list_to_set (exits cbs) ∪ dead w
  else exists f, run_tasks body leaky cbs w = Fault f.
Proof.
  revert w. induction cbs as [|[c|s] cbs IH]; intros w Hw [Hn Hi]; cbn [run_tasks well_ordered run_task].
  - exists w. rewrite app_nil_r. split_and!; try done; [apply Hw|set_solver].
  - set (w0 := with_trace _ w). pose proof (do_ops_spec (body c) w0 Hw) as Ho.
    change (dead w0) with (dead w) in Ho. case_bool_decide as Hd; cbn [andb].
    2: { destruct Ho as [f ->]. by exists f. }
    destruct Ho as (w1 & E & R). rewrite E. cbn [mbind outcome_bind].
    pose proof (registered_consistent _ _ w0 w1 Hw R) as Hw1. pose proof (registered_dead _ _ w0 w1 Hd R) as D1.
    destruct R as (R1 & R2 & R3 & R4).
    assert (Hr : runnable cbs w1) by (split; [done|]; intros s Hs; rewrite R3; apply elem_of_union_r; by apply Hi).
    specialize (IH w1 Hw1 Hr). rewrite D1 in IH. change (dead w0) with (dead w) in IH.
    destruct (well_ordered body (dead w) cbs); [|done].
    destruct IH as (w2 & E2 & T & M1 & M2 & D). exists w2. split_and!; try done.
    + rewrite T, R4. cbn. by rewrite <- app_assoc.
    + rewrite M1, R1. cbn [with_trace managers w0]. by destruct (managers w).
  - apply NoDup_cons in Hn as [Hn1 Hn2]. unfold on_exit. cbn [with_trace instance_].
    rewrite bool_decide_true by (apply Hi; by left). cbn [check mbind outcome_bind].
    set (w1 := with_singletons _ _ _).
    assert (D1 : dead w1 = {[s]} ∪ dead w).
    { unfold dead. cbn. apply set_eq. intros x. assert (s ∈ once_ w) by (apply Hw, Hi; by left).
      destruct (decide (x = s)) as [->|]; set_solver. }
    assert (Hw1 : consistent w1) by (split; [apply Hw|]; destruct Hw as [_ Hw]; cbn; set_solver).
    assert (Hr : runnable cbs w1).
    { split; [done|]. intros x Hx. cbn. apply elem_of_difference. split; [apply Hi; by right|].
      intros ->%elem_of_singleton. done. }
    specialize (IH w1 Hw1 Hr). rewrite D1 in IH.
    destruct (well_ordered body ({[s]} ∪ dead w) cbs); [|done].
    destruct IH as (w2 & E2 & T & M1 & M2 & D). exists w2. split_and!; try done.
    + rewrite T. cbn. by rewrite <- app_assoc.
    + rewrite D. cbn. set_solver.
Qed.
End Lemmas.

(** A callback that registers another while the destructor runs: the second never runs. *)
Definition reregister (c : nat) : list op := match c with O => [Register 1] | _ => [] end.

Example registered_too_late :
  exists w, (w ← make_manager false 0 (mkWorld [] ∅ ∅ []); w ← do_ops (fun _ => false) [Register 0] w;
             destroy_manager reregister (fun _ => false) 0 w) = Ok w /\ trace w = [Callback 0] /\ managers w = [].
Proof. eexists. split; [vm_compute; reflexivity|]. split; reflexivity. Qed.

(** ** Properties *)

(** C36. The life of an exit manager: it is created over any others, the program registers callbacks
    and uses singletons, and the manager is destroyed.  The destructor runs the callbacks of
    the program and the deletions of the singletons first used in that time, that is, before it starts, all of
    them, once each and in the reverse order of their registration, and nothing else: what the callbacks
    register while it runs is never run ([registered_too_late]).  It removes the manager; it fails a check exactly when some
    callback uses a singleton that was first used after the callback was registered. *)
Theorem exit_correct (body : nat -> list op) (leaky : nat -> bool) (os : list op) (i : nat) (w0 : world) :
  instance_ w0 = once_ w0 ->
  let cbs := rev (registrations leaky (once_ w0) os) in
  let life := (w ← make_manager true i w0; w ← do_ops leaky os w; destroy_manager body leaky i w) in
  if well_ordered body ∅ cbs
  then exists w, life = Ok w /\ trace w = trace w0 ++ cbs /\ managers w = managers w0 /\
         (forall s, OnExit s ∈ cbs -> s ∉ instance_ w)
  else exists f, life = Fault f.
Proof.
  intros Hio cbs life. unfold life, make_manager. cbn [orb check mbind outcome_bind].
  set (w1 := with_managers _ w0).
  assert (Hw1 : consistent w1) by (split; [done|]; cbn; rewrite Hio; done).
  assert (D1 : dead w1 = ∅) by (unfold dead; cbn; rewrite Hio; set_solver).
  pose proof (do_ops_spec leaky os w1 Hw1) as Ho. rewrite D1, bool_decide_true in Ho by set_solver.
  destruct Ho as (w2 & E & R). rewrite E. cbn [mbind outcome_bind].
  pose proof (registered_consistent _ _ _ _ Hw1 R) as Hw2. pose proof R as (R1 & R2 & R3 & R4).
  assert (D2 : dead w2 = ∅) by (rewrite <- D1; eapply registered_dead; [|exact R]; set_solver).
  cbn [w1 with_managers managers id stack_cb_ once_] in R1. rewrite app_nil_r in R1.
  unfold destroy_manager, process_callbacks. rewrite R1. cbn [id stack_cb_]. rewrite bool_decide_true by done.
  cbn [check mbind outcome_bind]. fold cbs. set (w3 := with_managers _ w2).
  destruct (registrations_exits leaky (once_ w0) os) as [Hn Hx].
  assert (Hr : runnable cbs w3).
  { unfold runnable, cbs. rewrite exits_rev. split; [by apply NoDup_ListNoDup, List.NoDup_rev, NoDup_ListNoDup|].
    intros s Hs. apply list_elem_of_In, in_rev, list_elem_of_In in Hs. apply Hx in Hs as [_ Hs]. cbn. rewrite R3. set_solver. }
  assert (Hw3 : consistent w3) by (split; [done|]; apply Hw2).
  pose proof (run_tasks_spec leaky body cbs w3 Hw3 Hr) as Hrun. change (dead w3) with (dead w2) in Hrun. rewrite D2 in Hrun.
  destruct (well_ordered body ∅ cbs).
  - destruct Hrun as (w4 & E4 & T & M1 & M2 & D). rewrite E4. cbn [mbind outcome_bind]. eexists. split; [done|].
    cbn [with_managers trace managers instance_]. split_and!.
    + rewrite T. cbn. by rewrite R4.
    + by rewrite M1.
    + intros s Hs Hi. assert (s ∈ dead w4) as Hd; [|unfold dead in Hd; set_solver].
      rewrite D. apply elem_of_union_l, elem_of_list_to_set. unfold exits. apply list_elem_of_omap. by exists (OnExit s).
  - destruct Hrun as [f ->]. by exists f.
Qed.

Lemma exit_correct_witness :
  exists w, (w ← make_manager true 0 (mkWorld [] ∅ ∅ []);
             w ← do_ops (fun s => bool_decide (s = 9%nat)) [Get 1; Register 0; Get 9; Get 2; Get 1] w;
             destroy_manager (fun _ => [Get 1; Register 5]) (fun s => bool_decide (s = 9%nat)) 0 w) = Ok w /\
            trace w = [OnExit 2; Callback 0; OnExit 1].
Proof.
  pose proof (exit_correct (fun _ => [Get 1; Register 5]) (fun s => bool_decide (s = 9%nat))
    [Get 1; Register 0; Get 9; Get 2; Get 1] 0 (mkWorld [] ∅ ∅ []) eq_refl) as H.
  cbv zeta in H. destruct (well_ordered _ _ _) eqn:E in H; [|vm_compute in E; discriminate E].
  destruct H as (w & H1 & H2 & _). exists w. split; [exact H1|]. rewrite H2. vm_compute. reflexivity.
Defined.

(** A callback that uses a singleton created after it. *)
Example used_after_exit :
  (w ← make_manager false 0 (mkWorld [] ∅ ∅ []); w ← do_ops (fun _ => false) [Register 0; Get 1] w;
   destroy_manager (fun _ => [Get 1]) (fun _ => false) 0 w) = Fault (CheckFailed "get: instance_").
Proof. vm_compute. reflexivity. Qed.
