(* ===== verification/Any.v ===== *)
(** * Any (include/containers/Any.h)

    A value of any copyable type, kept behind a pointer to a [Derived] that knows how to clone
    itself, beside the index of its type.  The file has the heap of these
    objects and the variables of type [Any] of a program, with every constructor, the
    assignment, [reset], the destructor and writing through the reference that [any_cast] returns.

    The types of the program are indices with decidable equality and their values
    are given by [sem]; [void] is the absence of an index, since no [Derived<void>] exists.

    It is shown that a program over such variables behaves like one over variables that hold
    the values themselves: [any_cast] gives the stored value exactly for its
    type and throws for any other, copies share nothing, and every object is owned by one variable.
    The one exception is a variable that was moved from, which keeps the type of the value it lost. *)

From S2P Require Import Prelude.

(** ** Definitions *)

(** An Any object: what it points to, and the type it says it has ([None] is [void]). *)
Record Any (index : Type) : Type := mkAny { ptr_ : option nat; type_ : option index }.
Arguments mkAny {index} _ _.
Arguments ptr_ {index} _.
Arguments type_ {index} _.

Section Any.
Context {index : Type} `{EqDecision index} (sem : index -> Type).

(** A [Derived<T>] with its [value_]. *)
Record Derived : Type := mkDerived { dtype : index; value_ : sem dtype }.

#[local] Abbreviation store := (gmap nat Derived).

(** [new Derived<T>(value)], and the destructor of a [BasePtr]. *)
Definition new_Derived (d : Derived) (h : store) : nat * store :=
  let p := fresh (dom h) in (p, <[p := d]> h).

Definition delete_ptr (p : option nat) (h : store) : store :=
  match p with Some p => base.delete p h | None => h end.

(** [Any::clone]: a new object with a copy of the value. *)
Definition clone (a : Any index) (h : store) : outcome (option nat * store) :=
  match ptr_ a with
  | Some p =>
      match h !! p with
      | Some d => let '(q, h) := new_Derived d h in Ok (Some q, h)
      | None => Fault (Undefined "Any::clone, dangling ptr_")
      end
  | None => Ok (None, h)
  end.

(** The constructors. *)
Definition Any_default : Any index := mkAny None None.

Definition Any_copy (rhs : Any index) (h : store) : outcome (Any index * store) :=
  '(p, h) ← clone rhs h; Ok (mkAny p (type_ rhs), h).

(** The new object, and [rhs] after it has been moved from. *)
Definition Any_move (rhs : Any index) : Any index * Any index :=
  (mkAny (ptr_ rhs) (type_ rhs), mkAny None (type_ rhs)).

Definition Any_value (d : Derived) (h : store) : Any index * store :=
  let '(p, h) := new_Derived d h in (mkAny (Some p) (Some (dtype d)), h).

(** [operator=]: the assignment of a [BasePtr] deletes what it pointed to. *)
Definition assign (a other : Any index) (h : store) : outcome (Any index * store) :=
  if decide (ptr_ a = ptr_ other) then Ok (a, h)
  else '(p, h) ← clone other h; Ok (mkAny p (type_ other), delete_ptr (ptr_ a) h).

Definition reset (a : Any index) (h : store) : Any index * store :=
  (mkAny None None, delete_ptr (ptr_ a) h).

Definition has_value (a : Any index) : bool := bool_decide (is_Some (ptr_ a)).
Definition is_type (T : index) (a : Any index) : bool := bool_decide (type_ a = Some T).

(** [any_cast<T>]: the reference to the value ([None]: [std::bad_cast] is thrown).  The
    [static_cast] is undefined for an object of another type, and so is the
    access through a null pointer. *)
Definition any_cast (T : index) (a : Any index) (h : store) : outcome (option (nat * sem T)) :=
  if negb (is_type T a) then Ok None
  else
    match ptr_ a with
    | None => Fault (Undefined "Any::any_cast, null")
    | Some p =>
        match h !! p with
        | None => Fault (Undefined "Any::any_cast, dangling")
        | Some (mkDerived U v) =>
            match decide (U = T) with
            | left e => Ok (Some (p, eq_rect U sem v T e))
            | right _ => Fault (Undefined "Any::any_cast, static_cast to another type")
            end
        end
    end.

(** The value behind the reference. *)
Definition cast_value (T : index) (a : Any index) (h : store) : outcome (option (sem T)) :=
  r ← any_cast T a h; Ok (option_map snd r).

(** What a program does with its variables of type Any. *)
Inductive op : Type :=
| Default (x : nat)            (** [Any x;] *)
| Value (x : nat) (d : Derived)   (** [Any x = value;], [make_any] *)
| Copy (x y : nat)             (** [Any x = y;] *)
| Move (x y : nat)             (** [Any x = std::move(y);] *)
| Assign (x y : nat)           (** [x = y;] *)
| Reset (x : nat)              (** [x.reset();] *)
| Write (x : nat) (d : Derived)   (** [any_cast<T>(x) = value;], with [std::bad_cast] caught *)
| Destroy (x : nat).           (** the end of the scope of [x] *)

Record world : Type := mkWorld { anys : gmap nat (Any index); heap : store }.

(** A program names a variable only between its declaration and the end of its scope. *)
Definition var {A} (x : nat) (m : gmap nat A) : outcome A :=
  match m !! x with Some a => Ok a | None => Fault (Undefined "not in scope") end.
Definition undeclared {A} (x : nat) (m : gmap nat A) : outcome unit :=
  match m !! x with Some _ => Fault (Undefined "declared twice") | None => Ok tt end.

Definition step (o : op) (w : world) : outcome world :=
  match o with
  | Default x => undeclared x (anys w);; Ok (mkWorld (<[x := Any_default]> (anys w)) (heap w))
  | Value x d => undeclared x (anys w);;
      let '(a, h) := Any_value d (heap w) in Ok (mkWorld (<[x := a]> (anys w)) h)
  | Copy x y => undeclared x (anys w);; b ← var y (anys w);
      '(a, h) ← Any_copy b (heap w); Ok (mkWorld (<[x := a]> (anys w)) h)
  | Move x y => undeclared x (anys w);; b ← var y (anys w);
      let '(a, b) := Any_move b in Ok (mkWorld (<[x := a]> (<[y := b]> (anys w))) (heap w))
  | Assign x y => a ← var x (anys w); b ← var y (anys w);
      '(a, h) ← assign a b (heap w); Ok (mkWorld (<[x := a]> (anys w)) h)
  | Reset x => a ← var x (anys w);
      let '(a, h) := reset a (heap w) in Ok (mkWorld (<[x := a]> (anys w)) h)
  | Write x d => a ← var x (anys w); r ← any_cast (dtype d) a (heap w);
      match r with
      | Some (p, _) => Ok (mkWorld (anys w) (<[p := d]> (heap w)))
      | None => Ok w
      end
  | Destroy x => a ← var x (anys w);
      Ok (mkWorld (base.delete x (anys w)) (delete_ptr (ptr_ a) (heap w)))
  end.

Definition run (os : list op) : world -> outcome world :=
  fold_left (fun w o => w ≫= step o) os ∘ Ok.

Definition start : world := mkWorld ∅ ∅.

(** ** Specification: variables that hold the values themselves *)

Inductive content : Type :=
| Holds (d : Derived)
| Nothing
| Moved (T : index).   (** moved from when it held a [T] *)

Definition the_type (c : content) : option index :=
  match c with Holds d => Some (dtype d) | Nothing => None | Moved T => Some T end.

(** What is left of a variable that is moved from. *)
Definition moved (c : content) : content :=
  match c with Holds d => Moved (dtype d) | c => c end.

Definition assigned (a b : content) : content :=
  match a, b with
  | _, Holds _ | Holds _, _ => b
  | _, _ => a
  end.

(** The value a cast gives: none and an exception unless the type is the stored one. *)
Definition content_cast (T : index) (c : content) : outcome (option (sem T)) :=
  match c with
  | Holds (mkDerived U v) =>
      match decide (U = T) with
      | left e => Ok (Some (eq_rect U sem v T e))
      | right _ => Ok None
      end
  | Nothing => Ok None
  | Moved U => if decide (U = T) then Fault (Undefined "Any::any_cast, null") else Ok None
  end.

Definition spec_step (o : op) (s : gmap nat content) : outcome (gmap nat content) :=
  match o with
  | Default x => undeclared x s;; Ok (<[x := Nothing]> s)
  | Value x d => undeclared x s;; Ok (<[x := Holds d]> s)
  | Copy x y => undeclared x s;; c ← var y s; Ok (<[x := c]> s)
  | Move x y => undeclared x s;; c ← var y s; Ok (<[x := c]> (<[y := moved c]> s))
  | Assign x y => a ← var x s; b ← var y s; Ok (<[x := assigned a b]> s)
  | Reset x => c ← var x s; Ok (<[x := Nothing]> s)
  | Write x d => c ← var x s; r ← content_cast (dtype d) c;
      Ok (match r with Some _ => <[x := Holds d]> s | None => s end)
  | Destroy x => c ← var x s; Ok (base.delete x s)
  end.

Definition spec_run (os : list op) : gmap nat content -> outcome (gmap nat content) :=
  fold_left (fun s o => s ≫= spec_step o) os ∘ Ok.

Definition no_move (o : op) : bool := match o with Move _ _ => false | _ => true end.

(** A program that declares a variable once and names it only in its scope. *)
Fixpoint scoped (vars : gset nat) (os : list op) : bool :=
  match os with
  | [] => true
  | Default x :: os | Value x _ :: os => bool_decide (x ∉ vars) && scoped ({[x]} ∪ vars) os
  | Copy x y :: os | Move x y :: os =>
      bool_decide (x ∉ vars) && bool_decide (y ∈ vars) && scoped ({[x]} ∪ vars) os
  | Assign x y :: os => bool_decide (x ∈ vars) && bool_decide (y ∈ vars) && scoped vars os
  | Reset x :: os | Write x _ :: os => bool_decide (x ∈ vars) && scoped vars os
  | Destroy x :: os => bool_decide (x ∈ vars) && scoped (vars ∖ {[x]}) os
  end.

(** ** The objects are owned *)

(** What a variable holds, as the fields of its object say. *)
Definition repr (h : store) (a : Any index) (c : content) : Prop :=
  type_ a = the_type c /\
  match c with
  | Holds d => exists p, ptr_ a = Some p /\ h !! p = Some d
  | _ => ptr_ a = None
  end.

Record refines (w : world) (s : gmap nat content) : Prop := {
  ref_dom x : anys w !! x = None <-> s !! x = None;
  ref_repr x a c : anys w !! x = Some a -> s !! x = Some c -> repr (heap w) a c;
  ref_owner x y a b p : anys w !! x = Some a -> anys w !! y = Some b ->
    ptr_ a = Some p -> ptr_ b = Some p -> x = y;
  ref_heap p d : heap w !! p = Some d -> exists x a, anys w !! x = Some a /\ ptr_ a = Some p;
}.

Lemma refines_start : refines start ∅.
Proof. by split. Qed.

Lemma repr_heap h h' a c :
  (forall p, ptr_ a = Some p -> h' !! p = h !! p) -> repr h a c -> repr h' a c.
Proof.
  intros Hh [Ht Hp]. split; [done|]. destruct c; [|done..].
  destruct Hp as (p & Hp & Hd). exists p. by rewrite (Hh p).
Qed.

(** A pointer of a variable is to an object. *)
Lemma refines_valid w s x a p :
  refines w s -> anys w !! x = Some a -> ptr_ a = Some p -> is_Some (heap w !! p).
Proof.
  intros R Hx Hp. destruct (s !! x) as [c|] eqn:Hs.
  - destruct (ref_repr _ _ R x a c Hx Hs) as [_ Hc]. destruct c; try congruence.
    destruct Hc as (q & Hq & Hd). simplify_eq. eauto.
  - apply (ref_dom _ _ R) in Hs. congruence.
Qed.

(** A variable gets new fields: the other variables keep their objects, and the new ones are
    its own. *)
Lemma refines_put w s x a c h :
  refines w s ->
  repr h a c ->
  (forall y b p, y <> x -> anys w !! y = Some b -> ptr_ b = Some p ->
    h !! p = heap w !! p /\ ptr_ a <> Some p) ->
  (forall p d, h !! p = Some d -> ptr_ a = Some p \/
    exists y b, y <> x /\ anys w !! y = Some b /\ ptr_ b = Some p) ->
  refines (mkWorld (<[x := a]> (anys w)) h) (<[x := c]> s).
Proof.
  intros R Ha Hother Hheap. split; cbn.
  - intros y. destruct (decide (x = y)) as [->|N]; [by rewrite !lookup_insert_eq|].
    rewrite !lookup_insert_ne by done. apply (ref_dom _ _ R).
  - intros y b e. destruct (decide (x = y)) as [->|N].
    + rewrite !lookup_insert_eq. by intros [= <-] [= <-].
    + rewrite !lookup_insert_ne by done. intros Hb He.
      apply (repr_heap (heap w)); [|by eapply ref_repr]. intros p Hp. by eapply Hother.
  - intros y z b e p Hb He Hpb Hpe. apply lookup_insert_Some in Hb as [[<- <-]|[N Hb]];
      apply lookup_insert_Some in He as [[<- <-]|[N' He]].
    + done.
    + by destruct (Hother z e p ltac:(done) He Hpe).
    + by destruct (Hother y b p ltac:(done) Hb Hpb).
    + by eapply ref_owner.
  - intros p d Hp. destruct (Hheap p d Hp) as [E|(y & b & N & Hy & E)].
    + exists x, a. by rewrite lookup_insert_eq.
    + exists y, b. by rewrite lookup_insert_ne.
Qed.

(** The object a variable gives up is deleted, a new one allocated beforehand. *)
Lemma refines_renew w s x a old c h :
  refines w s ->
  (anys w !! x = Some old \/ anys w !! x = None /\ ptr_ old = None) ->
  (match c with
   | Holds d => exists p, a = mkAny (Some p) (Some (dtype d)) /\ heap w !! p = None /\
                          h = delete_ptr (ptr_ old) (<[p := d]> (heap w))
   | _ => a = mkAny None (the_type c) /\ h = delete_ptr (ptr_ old) (heap w)
   end) ->
  refines (mkWorld (<[x := a]> (anys w)) h) (<[x := c]> s).
Proof.
  intros R Hold Hc.
  assert (forall y b p, y <> x -> anys w !! y = Some b -> ptr_ b = Some p ->
    ptr_ old <> Some p /\ is_Some (heap w !! p)) as Hne.
  { intros y b p N Hy Hp. split; [|by eapply refines_valid].
    intros E. destruct Hold as [Hold|[_ ?]]; [|congruence].
    apply N. by eapply (ref_owner _ _ R y x b old). }
  assert (forall p d, delete_ptr (ptr_ old) (heap w) !! p = Some d ->
    exists y b, y <> x /\ anys w !! y = Some b /\ ptr_ b = Some p) as Hrest.
  { intros p d Hd. assert (heap w !! p = Some d /\ ptr_ old <> Some p) as [Hd' Hp].
    { destruct (ptr_ old) as [q|]; cbn in Hd; [|done].
      apply lookup_delete_Some in Hd as [??]. split; [done | congruence]. }
    destruct (ref_heap _ _ R p d Hd') as (y & b & Hy & E). exists y, b. split_and!; [|done..].
    intros ->. destruct Hold as [Hold|[Hold _]]; congruence. }
  apply refines_put; [done|..].
  - destruct c as [d| |T]; [|destruct Hc as [-> ->]; by split..].
    destruct Hc as (p & -> & Hp & ->). split; [done|]. exists p. split; [done|]. cbn.
    destruct (ptr_ old) as [q|] eqn:Eq; cbn; [|by rewrite lookup_insert_eq].
    destruct (decide (q = p)) as [->|]; [|by rewrite lookup_delete_ne, lookup_insert_eq].
    destruct Hold as [Hold|[_ ?]]; [|done].
    destruct (refines_valid _ _ _ _ _ R Hold Eq) as [? ?]. congruence.
  - intros y b p N Hy Hp. destruct (Hne y b p N Hy Hp) as [Hop [v Hv]].
    assert (forall h' : store, delete_ptr (ptr_ old) h' !! p = h' !! p) as Hd.
    { intros h'. destruct (ptr_ old) as [q|]; cbn; [|done]. apply lookup_delete_ne. congruence. }
    destruct c as [d| |T]; [|destruct Hc as [-> ->]; by rewrite Hd..].
    destruct Hc as (q & -> & Hq & ->). assert (q <> p) by congruence. cbn.
    rewrite Hd, lookup_insert_ne by done. split; [done | congruence].
  - intros p d Hd. destruct c as [d0| |T]; [|destruct Hc as [-> ->]; eauto..].
    destruct Hc as (q & -> & Hq & ->). destruct (decide (q = p)) as [->|N]; [by left|]. right.
    apply (Hrest p d). destruct (ptr_ old) as [r|]; cbn in *.
    + apply lookup_delete_Some in Hd as [? Hd]. rewrite lookup_insert_ne in Hd by done.
      by apply lookup_delete_Some.
    + by rewrite lookup_insert_ne in Hd.
Qed.

(** ** Simulation *)

(** Two runs with the same fault, or related results. *)
Definition agree {A B} (R : A -> B -> Prop) (m : outcome A) (n : outcome B) : Prop :=
  match m, n with
  | Ok a, Ok b => R a b
  | Fault f, Fault g => f = g
  | _, _ => False
  end.

Lemma agree_bind {A B A' B'} (R : A -> B -> Prop) (R' : A' -> B' -> Prop) m n k l :
  agree R m n -> (forall a b, m = Ok a -> n = Ok b -> R a b -> agree R' (k a) (l b)) ->
  agree R' (m ≫= k) (n ≫= l).
Proof. destruct m, n; cbn; intros H Hk; try done. by apply Hk. Qed.

Lemma var_agree w s x :
  refines w s ->
  agree (fun a c => anys w !! x = Some a /\ s !! x = Some c /\ repr (heap w) a c)
    (var x (anys w)) (var x s).
Proof.
  intros R. unfold var. pose proof (ref_dom _ _ R x) as Hd.
  destruct (anys w !! x) as [a|] eqn:Ha, (s !! x) as [c|] eqn:Hc; cbn; try done.
  - split_and!; [done..|]. by apply (ref_repr _ _ R x).
  - by destruct Hd as [_ Hd]; discriminate Hd.
  - by destruct Hd as [Hd _]; discriminate Hd.
Qed.

Lemma undeclared_agree w s x :
  refines w s ->
  agree (fun _ _ => anys w !! x = None) (undeclared x (anys w)) (undeclared x s).
Proof.
  intros R. unfold undeclared. pose proof (ref_dom _ _ R x) as Hd.
  destruct (anys w !! x) as [a|] eqn:Ha, (s !! x) as [c|] eqn:Hc; cbn; try done.
  - by destruct Hd as [_ Hd]; discriminate Hd.
  - by destruct Hd as [Hd _]; discriminate Hd.
Qed.

Lemma fresh_store (h : store) : h !! fresh (dom h) = None.
Proof. apply not_elem_of_dom, is_fresh. Qed.

(** A clone is a new object with the same value. *)
Lemma clone_repr h a c :
  repr h a c ->
  clone a h = match c with
              | Holds d => Ok (Some (fresh (dom h)), <[fresh (dom h) := d]> h)
              | _ => Ok (None, h)
              end.
Proof.
  intros [_ Hp]. unfold clone. destruct c; [|by rewrite Hp..].
  destruct Hp as (p & -> & Hd). by rewrite Hd.
Qed.

(** The cast gives what the variable holds. *)
Lemma any_cast_repr T h a c :
  repr h a c -> cast_value T a h = content_cast T c.
Proof.
  intros [Ht Hp]. unfold cast_value, any_cast, is_type. rewrite Ht.
  destruct c as [[U v]| |U]; cbn [the_type dtype content_cast].
  - destruct Hp as (p & -> & Hd). case_bool_decide as E; cbn.
    + rewrite Hd. destruct (decide (U = T)); [done | congruence].
    + destruct (decide (U = T)); [congruence | done].
  - rewrite bool_decide_false by congruence. done.
  - rewrite Hp. destruct (decide (U = T)) as [->|N].
    + by rewrite bool_decide_true.
    + by rewrite bool_decide_false by congruence.
Qed.

(** The reference is to the object of the variable. *)
Lemma any_cast_place T h a p v : any_cast T a h = Ok (Some (p, v)) -> ptr_ a = Some p /\ type_ a = Some T.
Proof.
  unfold any_cast, is_type. case_bool_decide as E; cbn; [|done].
  destruct (ptr_ a) as [q|]; [|done]. destruct (h !! q) as [[U u]|]; [|done].
  destruct (decide (U = T)); [|done]. intros [= -> _]. done.
Qed.

(** A value is written: only its own variable sees it. *)
Lemma write_refines w s x a c d p :
  refines w s -> anys w !! x = Some a -> s !! x = Some c ->
  ptr_ a = Some p -> type_ a = Some (dtype d) ->
  refines (mkWorld (anys w) (<[p := d]> (heap w))) (<[x := Holds d]> s).
Proof.
  intros R Ha Hc Hp Ht. rewrite <- (insert_id (anys w) x a Ha) at 1. apply refines_put; [done|..].
  - split; [done|]. exists p. by rewrite lookup_insert_eq.
  - intros y b q N Hb Hq. assert (p <> q).
    { intros ->. apply N. by eapply (ref_owner _ _ R y x b a). }
    rewrite lookup_insert_ne by done. split; [done | congruence].
  - intros q e. destruct (decide (p = q)) as [->|N]; [by left|]. rewrite lookup_insert_ne by done.
    intros Hq. destruct (ref_heap _ _ R q e Hq) as (y & b & Hb & Hbq). right. exists y, b.
    split_and!; [|done..]. intros ->. congruence.
Qed.

Lemma move_refines w s x y a c :
  refines w s -> anys w !! x = None -> anys w !! y = Some a -> s !! y = Some c ->
  refines (mkWorld (<[x := mkAny (ptr_ a) (type_ a)]> (<[y := mkAny None (type_ a)]> (anys w))) (heap w))
    (<[x := c]> (<[y := moved c]> s)).
Proof.
  intros R Hx Hy Hc. pose proof (ref_repr _ _ R y a c Hy Hc) as [Ht Hp].
  assert (x <> y) as Nxy by congruence. destruct a as [pa ta]. cbn in *. split; cbn.
  - intros z. rewrite !lookup_insert_None. pose proof (ref_dom _ _ R z). naive_solver.
  - intros z b e. rewrite !lookup_insert_Some. intros [[<- <-]|(N & Hb)].
    + intros [[_ <-]|(N & _)]; [|done]. by split.
    + intros [[-> _]|(_ & He)]; [done|].
      destruct Hb as [[<- <-]|(N' & Hb)], He as [[E <-]|(N'' & He)]; try done; [|by apply (ref_repr _ _ R z)].
      split; [|by destruct c]. rewrite Ht. by destruct c.
  - intros z1 z2 b1 b2 p. rewrite !lookup_insert_Some.
    pose proof (ref_owner _ _ R) as Ho. intros H1 H2 P1 P2.
    destruct H1 as [[<- <-]|(N1 & [[<- <-]|(N1' & H1)])], H2 as [[<- <-]|(N2 & [[<- <-]|(N2' & H2)])];
      cbn in *; try done.
    + exfalso. apply N2'. by apply (Ho y z2 _ _ p Hy H2).
    + exfalso. apply N1'. by apply (Ho y z1 _ _ p Hy H1).
    + by apply (Ho z1 z2 b1 b2 p).
  - intros p d Hd. destruct (ref_heap _ _ R p d Hd) as (z & b & Hz & Hb).
    destruct (decide (y = z)) as [->|N].
    + simplify_eq. exists x. eexists. by rewrite lookup_insert_eq.
    + exists z, b. split; [|done]. rewrite !lookup_insert_ne; congruence.
Qed.

Lemma destroy_refines w s x a :
  refines w s -> anys w !! x = Some a ->
  refines (mkWorld (base.delete x (anys w)) (delete_ptr (ptr_ a) (heap w))) (base.delete x s).
Proof.
  intros R Ha. split; cbn.
  - intros y. rewrite !lookup_delete_None. pose proof (ref_dom _ _ R y). naive_solver.
  - intros y b c. rewrite !lookup_delete_Some. intros [N Hb] [_ Hc].
    apply (repr_heap (heap w)); [|by apply (ref_repr _ _ R y)].
    intros p Hp. destruct (ptr_ a) as [q|] eqn:Eq; cbn; [|done]. apply lookup_delete_ne.
    intros ->. apply N. by apply (ref_owner _ _ R x y a b p).
  - intros y z b e p. rewrite !lookup_delete_Some. intros [_ Hb] [_ He].
    by apply (ref_owner _ _ R).
  - intros p d Hd. assert (heap w !! p = Some d /\ ptr_ a <> Some p) as [Hd' N].
    { destruct (ptr_ a) as [q|]; cbn in Hd; [|done].
      apply lookup_delete_Some in Hd as [??]. split; [done | congruence]. }
    destruct (ref_heap _ _ R p d Hd') as (y & b & Hy & Hp). exists y, b. split; [|done].
    apply lookup_delete_Some. split; [|done]. intros ->. congruence.
Qed.

(** The assignment: no effect between two variables without object. *)
Lemma assign_refines w s x y a b c e :
  refines w s -> anys w !! x = Some a -> s !! x = Some c -> anys w !! y = Some b -> s !! y = Some e ->
  agree (fun r s' => refines (mkWorld (<[x := r.1]> (anys w)) r.2) s')
    (assign a b (heap w)) (Ok (<[x := assigned c e]> s)).
Proof.
  intros R Ha Hc Hb He. pose proof (ref_repr _ _ R x a c Ha Hc) as Ra.
  pose proof (ref_repr _ _ R y b e Hb He) as Rb. unfold assign.
  destruct (decide (ptr_ a = ptr_ b)) as [E|N].
  - cbn. assert (assigned c e = c) as ->.
    { destruct Ra as [_ Pa], Rb as [_ Pb]. destruct e as [d| |T]; cbn.
      - destruct Pb as (p & Pb & _). rewrite Pb in E. pose proof (ref_owner _ _ R x y a b p Ha Hb E Pb) as <-.
        rewrite Hc in He. injection He as ->. done.
      - destruct c; [|done..]. destruct Pa as (p & Pa & _). congruence.
      - destruct c; [|done..]. destruct Pa as (p & Pa & _). congruence. }
    rewrite !insert_id by done. by destruct w.
  - rewrite (clone_repr _ _ _ Rb). destruct e as [d| |T]; cbn.
    + assert (assigned c (Holds d) = Holds d) as -> by by destruct c.
      apply (refines_renew w s x _ a (Holds d)); [done | by left |].
      eexists. split_and!; [by rewrite (proj1 Rb)| apply fresh_store | done].
    + assert (assigned c Nothing = Nothing) as ->.
      { destruct Ra as [_ Pa], Rb as [_ Pb]. destruct c; cbn; congruence. }
      apply (refines_renew w s x _ a Nothing); [done | by left |]. by rewrite (proj1 Rb).
    + assert (assigned c (Moved T) = Moved T) as ->.
      { destruct Ra as [_ Pa], Rb as [_ Pb]. destruct c; cbn; congruence. }
      apply (refines_renew w s x _ a (Moved T)); [done | by left |]. by rewrite (proj1 Rb).
Qed.

(** A declaration, and a variable that gets nothing. *)
Lemma declare_refines w s x c a h :
  refines w s -> anys w !! x = None ->
  match c with
  | Holds d => exists p, a = mkAny (Some p) (Some (dtype d)) /\ heap w !! p = None /\
                         h = <[p := d]> (heap w)
  | _ => a = mkAny None (the_type c) /\ h = heap w
  end ->
  refines (mkWorld (<[x := a]> (anys w)) h) (<[x := c]> s).
Proof.
  intros R Hx Hc. apply (refines_renew w s x a Any_default c); [done | by right |]. exact Hc.
Qed.

Lemma step_refines o w s : refines w s -> agree refines (step o w) (spec_step o s).
Proof.
  intros R. destruct o as [x|x d|x y|x y|x y|x|x d|x]; cbn [step spec_step].
  - eapply agree_bind; [by apply undeclared_agree|]. intros u u0 _ _ Hx. cbn.
    by apply (declare_refines w s x Nothing).
  - eapply agree_bind; [by apply undeclared_agree|]. intros u u0 _ _ Hx. cbn.
    apply (declare_refines w s x (Holds d)); [done..|]. eexists. split_and!; [done | apply fresh_store | done].
  - eapply agree_bind; [by apply undeclared_agree|]. intros u u0 _ _ Hx.
    eapply agree_bind; [by apply var_agree|]. intros b c _ _ (Hb & Hc & Rb). unfold Any_copy.
    rewrite (clone_repr _ _ _ Rb). pose proof (proj1 Rb) as Ht.
    destruct c as [d| |T]; cbn; apply declare_refines; try done; [|by rewrite Ht..].
    eexists. split_and!; [by rewrite Ht | apply fresh_store | done].
  - eapply agree_bind; [by apply undeclared_agree|]. intros u u0 _ _ Hx.
    eapply agree_bind; [by apply var_agree|]. intros b c _ _ (Hb & Hc & Rb). by apply move_refines.
  - eapply agree_bind; [by apply var_agree|]. intros a c _ _ (Ha & Hc & Ra).
    eapply agree_bind; [by apply var_agree|]. intros b e _ _ (Hb & He & Rb).
    pose proof (assign_refines w s x y a b c e R Ha Hc Hb He) as H.
    by destruct (assign a b (heap w)) as [[a' h]|].
  - eapply agree_bind; [by apply var_agree|]. intros a c _ _ (Ha & Hc & Ra). cbn.
    apply (refines_renew w s x _ a Nothing); [done | by left | done].
  - eapply agree_bind; [by apply var_agree|]. intros a c _ _ (Ha & Hc & Ra).
    rewrite <- (any_cast_repr _ _ _ _ Ra). unfold cast_value.
    destruct (any_cast (dtype d) a (heap w)) as [[[p v]|]|] eqn:E; cbn; [|done..].
    apply any_cast_place in E as [Hp Ht]. by eapply write_refines.
  - eapply agree_bind; [by apply var_agree|]. intros a c _ _ (Ha & Hc & Ra). by apply destroy_refines.
Qed.

(** The program and its specification fault together or end in related states. *)
Lemma run_refines os w s : refines w s -> agree refines (run os w) (spec_run os s).
Proof.
  intros R. unfold run, spec_run, compose.
  assert (agree refines (Ok w) (Ok s)) as H by exact R. clear R.
  generalize (Ok w) (Ok s) H. clear H. induction os as [|o os IH]; intros m n H; cbn; [done|].
  apply IH. eapply agree_bind; [exact H|]. intros; by apply step_refines.
Qed.

(** ** Programs that do not move *)

Definition whole (s : gmap nat content) : Prop := forall x T, s !! x <> Some (Moved T).

Lemma whole_insert s x c : whole s -> (forall T, c <> Moved T) -> whole (<[x := c]> s).
Proof. intros Hs Hc y T. rewrite lookup_insert_Some. intros [[_ ?]|[_ ?]]; [by eapply Hc | by eapply Hs]. Qed.

Lemma whole_delete s x : whole s -> whole (base.delete x s).
Proof. intros Hs y T. rewrite lookup_delete_Some. intros [_ ?]. by eapply Hs. Qed.

Lemma content_cast_ok T c : (forall U, c <> Moved U) -> is_ok (content_cast T c).
Proof.
  intros Hc. destruct c as [[U v]| |U]; cbn; [|by eexists|by destruct (Hc U)].
  destruct (decide (U = T)); by eexists.
Qed.

Lemma var_in {A} x (m : gmap nat A) :
  bool_decide (x ∈ dom m) = true -> exists c, m !! x = Some c /\ var x m = Ok c.
Proof.
  intros H. apply bool_decide_eq_true, elem_of_dom in H as [c Hc]. exists c. unfold var. by rewrite Hc.
Qed.

Lemma undeclared_out {A} x (m : gmap nat A) :
  bool_decide (x ∉ dom m) = true -> undeclared x m = Ok tt.
Proof.
  intros H. apply bool_decide_eq_true, not_elem_of_dom in H. unfold undeclared. by rewrite H.
Qed.

Lemma assigned_whole a b :
  (forall T, a <> Moved T) -> (forall T, b <> Moved T) -> forall T, assigned a b <> Moved T.
Proof.
  intros Ha Hb T. assert (assigned a b = a \/ assigned a b = b) as [-> | ->]; [|done..].
  destruct a, b; cbn; auto.
Qed.

Lemma dom_in (s : gmap nat content) x c : x ∈ dom s -> dom (<[x := c]> s) = dom s.
Proof. rewrite dom_insert_L. set_solver. Qed.

(** Such a program in scope has no fault, and no variable is moved from. *)
Lemma spec_step_whole o os s :
  no_move o = true -> scoped (dom s) (o :: os) = true -> whole s ->
  exists s', spec_step o s = Ok s' /\ scoped (dom s') os = true /\ whole s'.
Proof.
  intros Hm Hs W. destruct o as [x|x d|x y|x y|x y|x|x d|x]; cbn [scoped spec_step] in *; zbool; try done;
    try (rewrite (undeclared_out x s) by done; cbn [mbind outcome_bind]);
    repeat match goal with
    | H : bool_decide (?z ∈ _) = true |- _ => destruct (var_in z s H) as (?c & ?L & ->);
        cbn [mbind outcome_bind]; apply bool_decide_eq_true in H
    end.
  - eexists. split_and!; [done | by rewrite dom_insert_L | by apply whole_insert].
  - eexists. split_and!; [done | by rewrite dom_insert_L | by apply whole_insert].
  - eexists. split_and!; [done | by rewrite dom_insert_L | apply whole_insert; [done | intros T ->; by eapply W]].
  - eexists. split_and!; [done | by rewrite dom_in | apply whole_insert; [done|]].
    apply assigned_whole; intros T ->; by eapply W.
  - eexists. split_and!; [done | by rewrite dom_in | by apply whole_insert].
  - destruct (content_cast_ok (dtype d) c) as [r ->]; [intros U ->; by eapply W|]. cbn.
    destruct r; eexists; (split_and!; [done | by rewrite ?dom_in | by try apply whole_insert]).
  - eexists. split_and!; [done | by rewrite dom_delete_L | by apply whole_delete].
Qed.

Lemma spec_run_whole os s :
  forallb no_move os = true -> scoped (dom s) os = true -> whole s ->
  exists s', spec_run os s = Ok s' /\ whole s'.
Proof.
  revert s. induction os as [|o os IH]; intros s Hm Hs W; [by exists s|]. cbn in Hm. zbool.
  destruct (spec_step_whole o os s) as (s1 & E & Hs1 & W1); [done..|].
  destruct (IH s1) as (s2 & E2 & W2); [done..|]. exists s2. split; [|done]. rewrite <- E2.
  unfold spec_run, compose. cbn. by rewrite E.
Qed.

(** C33. In a program over variables of type Any that does not move one, no operation has undefined
    behaviour, and at any point [any_cast<T>] gives the value that the variable was last
    given exactly when that value has the type T, and throws std::bad_cast otherwise, as if the
    variables held the values themselves; no variable is affected by what is done to a copy, and the
    objects in existence are those of the variables that have a value, one each. *)
Theorem any_type_safe (os : list op) :
  forallb no_move os = true -> scoped ∅ os = true ->
  exists w s, run os start = Ok w /\ spec_run os ∅ = Ok s /\
    (forall x, anys w !! x = None <-> s !! x = None) /\
    (forall x a c, anys w !! x = Some a -> s !! x = Some c ->
      (has_value a = true <-> exists d, c = Holds d) /\
      forall T, cast_value T a (heap w) =
        Ok (match c with
            | Holds (mkDerived U v) =>
                match decide (U = T) with left e => Some (eq_rect U sem v T e) | right _ => None end
            | _ => None
            end)) /\
    (forall p, is_Some (heap w !! p) <-> exists! x, exists a, anys w !! x = Some a /\ ptr_ a = Some p).
Proof.
  intros Hm Hs. destruct (spec_run_whole os ∅) as (s & Es & W); [done.. | by intros x T |].
  pose proof (run_refines os start ∅ refines_start) as R. rewrite Es in R.
  destruct (run os start) as [w|] eqn:Ew; [|done]. cbn in R.
  exists w, s. split_and!; [done..|apply (ref_dom _ _ R)| |].
  - intros x a c Ha Hc. pose proof (ref_repr _ _ R x a c Ha Hc) as Ra. split.
    + unfold has_value. rewrite bool_decide_eq_true. destruct Ra as [_ Pa].
      destruct c; [|rewrite Pa; split; [by intros [??] | by intros [??]]..].
      destruct Pa as (p & -> & _). split; [eauto | by eexists].
    + intros T. rewrite (any_cast_repr _ _ _ _ Ra). destruct c as [[U v]| |U]; cbn; [|done|by destruct (W x U)].
      by destruct (decide (U = T)).
  - intros p. split.
    + intros [d Hd]. destruct (ref_heap _ _ R p d Hd) as (x & a & Ha & Hp). exists x.
      split; [eauto|]. intros y (b & Hb & Hq). by apply (ref_owner _ _ R x y a b p).
    + intros (x & (a & Ha & Hp) & _). by eapply refines_valid.
Qed.

End Any.

(** ** Examples *)

(** Two types: [int] and [std::string]. *)
Inductive cpp_type : Type := TInt | TString.

#[export] Instance cpp_type_eq_dec : EqDecision cpp_type.
Proof. solve_decision. Defined.

Definition cpp_sem (T : cpp_type) : Type := match T with TInt => Z | TString => bytes end.

Definition an_int (z : Z) : Derived cpp_sem := mkDerived cpp_sem TInt z.
Definition a_string (s : string) : Derived cpp_sem := mkDerived cpp_sem TString (txt s).

(** The example in the header's comment: [Any a = 1; b = string("hello, world"); c; d = make_any(a);]
    then [any_cast<int>(a) = 2; c = a;] and a cast of [c] to a string, which throws. *)
Definition header_example : list (op cpp_sem) :=
  [Value _ 0 (an_int 1); Value _ 1 (a_string "hello, world"); Default _ 2; Copy _ 3 0;
   Write _ 0 (an_int 2); Assign _ 2 0; Write _ 2 (a_string "hello")].

Lemma any_type_safe_witness :
  (match run cpp_sem header_example (start cpp_sem) with
   | Ok w => map (fun x => match anys cpp_sem w !! x with
                           | Some a => Some (cast_value cpp_sem TInt a (heap cpp_sem w))
                           | None => None
                           end) [0; 1; 2; 3]%nat
             = [Some (Ok (Some 2)); Some (Ok None); Some (Ok (Some 2)); Some (Ok (Some 1))]
   | Fault _ => False
   end) /\
  exists w s, run cpp_sem header_example (start cpp_sem) = Ok w /\
    spec_run cpp_sem header_example ∅ = Ok s.
Proof.
  split; [vm_compute; reflexivity|].
  destruct (any_type_safe cpp_sem header_example) as (w & s & Hw & Hs & _);
    [vm_compute; reflexivity.. |]. exists w, s. split; assumption.
Defined.

(** A variable that was moved from says that it has the type of the value it lost, so
    that the cast to this type is not refused and follows a null pointer. *)
Example moved_from_is_not_empty :
  (match run cpp_sem [Value _ 0 (an_int 1); Move _ 1 0] (start cpp_sem) with
   | Ok w => option_map (fun a => (has_value a, type_ a, cast_value cpp_sem TInt a (heap cpp_sem w)))
               (anys cpp_sem w !! 0%nat)
             = Some (false, Some TInt, Fault (Undefined "Any::any_cast, null"))
   | Fault _ => False
   end).
Proof. vm_compute. reflexivity. Qed.

(** Assigning an empty Any does not help: both pointers are null, which the
    assignment takes for the same object. *)
Example moved_from_stays :
  run cpp_sem [Value _ 0 (an_int 1); Move _ 1 0; Default _ 2; Assign _ 0 2; Write _ 0 (an_int 5)]
    (start cpp_sem) = Fault (Undefined "Any::any_cast, null").
Proof. vm_compute. reflexivity. Qed.
