(* ===== verification/Bind.v ===== *)
(** * Bind (include/containers/Bind.h)

    [make_bind] stores a callable with some of its arguments and placeholders for the others;
    [make_weak_bind] binds a method to an object without keeping the object alive.  Types
    are checked by the compiler, so the arguments have one type [V] here; what the compiler refuses, a
    placeholder beyond the arguments of the call, has no result.  The callable gets
    references to the stored arguments and to those of the call, as [select] returns them.

    An object that a shared_ptr owns is the set of its owners: it is destroyed when the last one lets go.
    A method is a function from its arguments to what it does with objects: using its own, and taking and
    dropping owners.

    It is shown that a functor calls with the arguments that substitution gives, and that over any sequence of
    calls and of changes of the owners a weakly bound method runs exactly while its object exists,
    which it keeps until it returns. *)

From S2P Require Import Prelude.

(** ** Definitions *)

(** [MakeIndexSequence<N, Indexes...>]: the list of indices is built from its end. *)
Fixpoint MakeIndexSequence (N : nat) (Indexes : list nat) : list nat :=
  match N with
  | O => Indexes
  | S N => MakeIndexSequence N (N :: Indexes)
  end.

(** An element of [args_]. *)
Inductive slot (V : Type) : Type := Bound (v : V) | Placeholder (n : nat).
Arguments Bound {V} v.
Arguments Placeholder {V} n.

(** What [select] refers to: an element of [args_] or one of the tuple of the call. *)
Inductive ref : Type := Stored (i : nat) | Passed (i : nat).

Section Bind.
Context {V R : Type}.

(** [select]: [get<I-1>] of a tuple that is too short does not compile. *)
Definition select (i : nat) (s : slot V) (tp : list V) : option ref :=
  match s with
  | Bound _ => Some (Stored i)
  | Placeholder n => if decide (1 <= n <= length tp)%nat then Some (Passed (n - 1)) else None
  end.

(** The references that [select(std::get<Indexes>(args_), tp)...] gives. *)
Definition selected (args_ : list (slot V)) (tp : list V) : option (list ref) :=
  mapM (fun i => s ← args_ !! i; select i s tp) (MakeIndexSequence (length args_) []).

(** Reading and writing through a reference; a stored argument is the functor's own. *)
Definition deref (args_ : list (slot V)) (tp : list V) (r : ref) : option V :=
  match r with
  | Stored i => s ← args_ !! i; match s with Bound v => Some v | Placeholder _ => None end
  | Passed i => tp !! i
  end.

Definition store (args_ : list (slot V)) (tp : list V) (r : ref) (v : V) : list (slot V) * list V :=
  match r with
  | Stored i => (<[i := Bound v]> args_, tp)
  | Passed i => (args_, <[i := v]> tp)
  end.

Fixpoint store_all (rs : list ref) (vs : list V) (st : list (slot V) * list V) : list (slot V) * list V :=
  match rs, vs with
  | r :: rs, v :: vs => store_all rs vs (store st.1 st.2 r v)
  | _, _ => st
  end.

(** A callable gets the values of its arguments and leaves new ones where it takes references,
    the later argument last. *)
Record BindFuctor : Type := mkBind { call_ : list V -> R * list V; args_ : list (slot V) }.

(** [BindFuctor::operator()], with [do_call] and [invoke]: the result, the functor and the
    arguments of the caller afterwards. *)
Definition operator_call (f : BindFuctor) (tp : list V) : option (R * BindFuctor * list V) :=
  rs ← selected (args_ f) tp;
  vs ← mapM (deref (args_ f) tp) rs;
  let '(r, vs) := call_ f vs in
  let '(args, tp) := store_all rs vs (args_ f, tp) in
  Some (r, mkBind (call_ f) args, tp).

(** Substitution of the arguments of the call for the placeholders. *)
Definition substitute (tp : list V) (s : slot V) : option V :=
  match s with
  | Bound v => Some v
  | Placeholder O => None
  | Placeholder (S i) => tp !! i
  end.
End Bind.
Arguments BindFuctor : clear implicits.

(** ** Objects with owners *)

(** An owner: a shared_ptr of the program, or the local [locked] of a call. *)
Inductive owner : Type := Holder (h : nat) | Locked.

#[export] Instance owner_eq_dec : EqDecision owner.
Proof. solve_decision. Defined.
#[export] Instance owner_countable : Countable owner.
Proof.
  refine (inj_countable' (fun o => match o with Holder h => Some h | Locked => None end)
    (fun n => match n with Some h => Holder h | None => Locked end) _).
  by intros [].
Defined.

Inductive event (V : Type) : Type :=
| Ran (o : nat) (args : list V)   (** a method of object [o] began *)
| Expired (o : nat)               (** "the shared_ptr has destructed" *)
| Destroyed (o : nat).
Arguments Ran {V} o args.
Arguments Expired {V} o.
Arguments Destroyed {V} o.

(** The objects that exist with their owners, and what has happened, latest first. *)
Record world (V : Type) : Type := mkWorld { owners : gmap nat (gset owner); trace : list (event V) }.
Arguments mkWorld {V} _ _.
Arguments owners {V} _.
Arguments trace {V} _.

(** What a method does. *)
Inductive action : Type :=
| Touch                      (** uses its own object *)
| Retain (o h : nat)         (** [h = weak.lock()], [h = shared_from_this()] *)
| Release (o h : nat).       (** [h.reset()] *)

Section WeakBind.
Context {V : Type}.

(** An owner is added if the object exists; the last owner to let go destroys it. *)
Definition retain (o : nat) (x : owner) (w : world V) : world V :=
  match owners w !! o with
  | Some X => mkWorld (<[o := {[x]} ∪ X]> (owners w)) (trace w)
  | None => w
  end.

Definition release (o : nat) (x : owner) (w : world V) : world V :=
  match owners w !! o with
  | Some X =>
      if decide (X ∖ {[x]} = ∅) then mkWorld (base.delete o (owners w)) (Destroyed o :: trace w)
      else mkWorld (<[o := X ∖ {[x]}]> (owners w)) (trace w)
  | None => w
  end.

Definition act (this : nat) (a : action) (w : world V) : outcome (world V) :=
  match a with
  | Touch => defined (bool_decide (is_Some (owners w !! this))) "use of a destroyed object";; Ok w
  | Retain o h => Ok (retain o (Holder h) w)
  | Release o h => Ok (release o (Holder h) w)
  end.

Fixpoint perform (this : nat) (l : list action) (w : world V) : outcome (world V) :=
  match l with
  | [] => Ok w
  | a :: l => w ← act this a w; perform this l w
  end.

(** [WBindFuctor]; [is_void] says whether [ResfType] is void. *)
Record WBindFuctor : Type := mkWBind {
  wcall_ : list V -> list action;
  wargs_ : list (slot V);
  weak_ : nat;
  is_void : bool;
}.

(** [make_weak_bind] of a shared_ptr that the caller owns, or of a weak_ptr. *)
Definition make_weak_bind (m : list V -> list action) (ptr : nat) (pars : list (slot V)) (void : bool) :
  WBindFuctor := mkWBind m pars ptr void.

Definition log (e : event V) (w : world V) : world V := mkWorld (owners w) (e :: trace w).

(** The values that [select] finds ([None]: does not compile). *)
Definition arguments (f : WBindFuctor) (tp : list V) : option (list V) :=
  rs ← selected (wargs_ f) tp; mapM (deref (wargs_ f) tp) rs.

(** [WBindFuctor::do_call]: the method runs between [weak_.lock()] and the end of the scope of
    [locked]; without object, control reaches the end of the function. *)
Definition do_call (f : WBindFuctor) (vs : list V) (w : world V) : outcome (world V) :=
  let o := weak_ f in
  if decide (is_Some (owners w !! o)) then
    w ← perform o (wcall_ f vs) (log (Ran o vs) (retain o Locked w));
    Ok (release o Locked w)
  else if is_void f then Ok (log (Expired o) w)
  else Fault (Undefined "WBindFuctor::do_call returns no value").

(** A sequence of calls of functors, and of owners that come and go meanwhile. *)
Inductive happening : Type :=
| Call (f : WBindFuctor) (tp : list V)
| Outside (a : action).      (** [Retain] or [Release] elsewhere in the program *)

Definition happen (e : happening) (w : world V) : outcome (world V) :=
  match e with
  | Call f tp => match arguments f tp with Some vs => do_call f vs w | None => Ok w end
  | Outside Touch => Ok w
  | Outside (Retain o h) => Ok (retain o (Holder h) w)
  | Outside (Release o h) => Ok (release o (Holder h) w)
  end.

Fixpoint happens (l : list happening) (w : world V) : outcome (world V) :=
  match l with
  | [] => Ok w
  | e :: l => w ← happen e w; happens l w
  end.
End WeakBind.
Arguments WBindFuctor : clear implicits.
Arguments happening : clear implicits.

(** ** The arguments of a call *)

Lemma MakeIndexSequence_seq N l : MakeIndexSequence N l = seq 0 N ++ l.
Proof.
  revert l. induction N as [|N IH]; intros l; [done|]. cbn [MakeIndexSequence].
  rewrite IH, seq_S, <- app_assoc. done.
Qed.

Section BindCorrect.
Context {V R : Type}.
Implicit Types (a : list (slot V)) (tp : list V).

(** A reference to a slot reads what substitution gives. *)
Lemma select_deref a tp i s :
  a !! i = Some s ->
  match select i s tp with
  | Some r => deref a tp r = substitute tp s
  | None => substitute tp s = None
  end.
Proof.
  intros Hi. destruct s as [v|n]; cbn; [by rewrite Hi|].
  destruct (decide (1 <= n <= length tp)%nat) as [Hn|Hn]; cbn.
  - destruct n as [|n]; [lia|]. by replace (S n - 1)%nat with n by lia.
  - destruct n as [|n]; [done|]. apply lookup_ge_None. lia.
Qed.

Lemma selected_suffix pre a tp :
  (rs ← mapM (fun i => s ← (pre ++ a) !! i; select i s tp) (seq (length pre) (length a));
   mapM (deref (pre ++ a) tp) rs) = mapM (substitute tp) a.
Proof.
  revert pre. induction a as [|s a IH]; intros pre; [done|]. cbn [seq length mapM].
  rewrite list_lookup_middle by done. cbn [mbind option_bind].
  pose proof (select_deref (pre ++ s :: a) tp (length pre) s) as Hs.
  specialize (Hs (list_lookup_middle _ _ _ _ eq_refl)).
  destruct (select (length pre) s tp) as [r|]; [|cbn; by rewrite Hs].
  cbn [mbind option_bind]. rewrite <- Hs. clear Hs.
  specialize (IH (pre ++ [s])). rewrite length_app, <- app_assoc, Nat.add_comm in IH. cbn [length Nat.add app] in IH.
  rewrite <- IH. clear IH. destruct (mapM _ _) as [rs|]; cbn; [done|].
  by destruct (deref _ _ _).
Qed.

Lemma selected_values a tp :
  (rs ← selected a tp; mapM (deref a tp) rs) = mapM (substitute tp) a.
Proof.
  unfold selected. rewrite MakeIndexSequence_seq, app_nil_r. apply (selected_suffix []).
Qed.

Lemma store_same a tp r v : deref a tp r = Some v -> store a tp r v = (a, tp).
Proof.
  destruct r as [i|i]; cbn; intros H; [|by rewrite list_insert_id].
  destruct (a !! i) as [[u|n]|] eqn:E; cbn in H; try done. injection H as ->. by rewrite list_insert_id.
Qed.

Lemma store_all_same a tp rs vs : mapM (deref a tp) rs = Some vs -> store_all rs vs (a, tp) = (a, tp).
Proof.
  rewrite mapM_Some. induction 1 as [|r v rs vs Hr Hrs IH]; [done|]. cbn. by rewrite (store_same _ _ _ _ Hr).
Qed.

(** A functor of [make_bind] calls with its bound arguments and, for the n-th
    placeholder, the n-th argument of the call; a call with too few arguments does not compile.  If the callable
    leaves its arguments as they are, the functor and the arguments of the caller are unchanged. *)
Theorem bind_correct (f : BindFuctor V R) tp :
  match mapM (substitute tp) (args_ f) with
  | Some vs => exists f' tp', operator_call f tp = Some ((call_ f vs).1, f', tp') /\
      ((call_ f vs).2 = vs -> f' = f /\ tp' = tp)
  | None => operator_call f tp = None
  end.
Proof.
  rewrite <- selected_values. unfold operator_call. destruct (selected (args_ f) tp) as [rs|]; cbn; [|done].
  destruct (mapM (deref (args_ f) tp) rs) as [vs|] eqn:E; cbn; [|done].
  destruct (call_ f vs) as [r vs'] eqn:Ec. destruct (store_all rs vs' (args_ f, tp)) as [a tp'] eqn:Es.
  eexists _, _. split; [done|]. cbn. intros ->. rewrite (store_all_same _ _ _ _ E) in Es.
  injection Es as <- <-. by destruct f.
Qed.
End BindCorrect.

(** An argument taken by reference is the functor's own copy: what the first call leaves there,
    the second one finds. *)
Example bound_argument_changes :
  let counter : BindFuctor Z Z := mkBind (fun vs => match vs with v :: _ => (v, [v + 1]) | [] => (0, []) end) [Bound 7] in
  (r1 ← operator_call counter []; r2 ← operator_call r1.1.2 []; Some (r1.1.1, r2.1.1)) = Some (7, 8).
Proof. vm_compute. reflexivity. Qed.

(** ** Weak binding *)

Section WeakBindCorrect.
Context {V : Type} (O : gset nat).
Implicit Types (w : world V) (t : list (event V)).

(** The objects are those of [O] that have not been destroyed. *)
Definition alive (o : nat) t : Prop := o ∈ O /\ Destroyed o ∉ t.

(** Every entry fits what came before it. *)
Fixpoint ordered t : Prop :=
  match t with
  | [] => True
  | e :: t =>
      match e with
      | Ran o _ | Destroyed o => alive o t
      | Expired o => ~ alive o t
      end /\ ordered t
  end.

Record inv w : Prop := {
  inv_owned o X : owners w !! o = Some X -> X <> ∅;
  inv_alive o : is_Some (owners w !! o) <-> alive o (trace w);
  inv_ordered : ordered (trace w);
}.

Lemma retain_inv o x w : inv w -> inv (retain o x w).
Proof.
  intros I. unfold retain. destruct (owners w !! o) as [X|] eqn:E; [|done].
  split; cbn; [..|apply I].
  - intros p Y. rewrite lookup_insert_Some. intros [[<- <-]|[_ H]]; [set_solver | by eapply inv_owned].
  - intros p. rewrite <- (inv_alive _ I). destruct (decide (o = p)) as [->|N].
    + rewrite lookup_insert_eq, E. split; by eexists.
    + by rewrite lookup_insert_ne.
Qed.

Lemma alive_destroyed o p t : alive p (Destroyed o :: t) <-> alive p t /\ p <> o.
Proof. unfold alive. rewrite not_elem_of_cons. naive_solver. Qed.

Lemma release_inv o x w : inv w -> inv (release o x w).
Proof.
  intros I. unfold release. destruct (owners w !! o) as [X|] eqn:E; [|done].
  destruct (decide (X ∖ {[x]} = ∅)) as [_|Hne]; split; cbn; try apply I.
  - intros p Y. rewrite lookup_delete_Some. intros [_ H]. by eapply inv_owned.
  - intros p. rewrite alive_destroyed, <- (inv_alive _ I). destruct (decide (o = p)) as [->|N].
    + rewrite lookup_delete_eq. split; [by intros [??] | by intros [_ ?]].
    + rewrite lookup_delete_ne by done. naive_solver.
  - split; [|apply I]. apply (inv_alive _ I). by rewrite E.
  - intros p Y. rewrite lookup_insert_Some. intros [[<- <-]|[_ H]]; [done | by eapply inv_owned].
  - intros p. rewrite <- (inv_alive _ I). destruct (decide (o = p)) as [->|N].
    + rewrite lookup_insert_eq, E. split; by eexists.
    + by rewrite lookup_insert_ne.
Qed.

Lemma log_inv e w :
  match e with
  | Ran o _ => is_Some (owners w !! o)
  | Expired o => owners w !! o = None
  | Destroyed _ => False
  end -> inv w -> inv (log e w).
Proof.
  intros He I. split; cbn; [apply I|..].
  - intros p. rewrite (inv_alive _ I). unfold alive. rewrite not_elem_of_cons.
    by destruct e; naive_solver.
  - split; [|apply I]. destruct e as [o vs|o|o]; [|intros H|done]; [by apply (inv_alive _ I)|].
    apply (inv_alive _ I) in H as [??]. congruence.
Qed.

(** [o] is owned by the call that runs. *)
Definition locked (o : nat) w : Prop := exists X, owners w !! o = Some X /\ Locked ∈ X.

Lemma locked_retain o p x w : locked o w -> locked o (retain p x w).
Proof.
  intros (X & HX & HL). unfold retain. destruct (owners w !! p) as [Y|] eqn:E; [|by exists X].
  destruct (decide (p = o)) as [->|N].
  - exists ({[x]} ∪ Y). cbn. rewrite lookup_insert_eq. split; [done | set_solver].
  - exists X. cbn. by rewrite lookup_insert_ne.
Qed.

Lemma locked_release o p h w : locked o w -> locked o (release p (Holder h) w).
Proof.
  intros (X & HX & HL). unfold release. destruct (owners w !! p) as [Y|] eqn:E; [|by exists X].
  destruct (decide (p = o)) as [->|N].
  - rewrite HX in E. injection E as <-. assert (Locked ∈ X ∖ {[Holder h]}) as H by set_solver.
    destruct (decide (X ∖ {[Holder h]} = ∅)) as [Y|_]; [set_solver|].
    exists (X ∖ {[Holder h]}). cbn. by rewrite lookup_insert_eq.
  - destruct (decide (Y ∖ {[Holder h]} = ∅)); exists X; cbn; [by rewrite lookup_delete_ne | by rewrite lookup_insert_ne].
Qed.

(** No call that runs owns an object, but for those in [P]. *)
Definition unlocked (P : nat -> Prop) w : Prop := forall o X, owners w !! o = Some X -> Locked ∈ X -> P o.

Lemma unlocked_retain P o x w : unlocked P w -> (x = Locked -> P o) -> unlocked P (retain o x w).
Proof.
  intros U Hx. unfold retain. destruct (owners w !! o) as [X|] eqn:E; [|done]. intros p Y. cbn.
  rewrite lookup_insert_Some. intros [[<- <-]|[_ H]]; [|by apply U]. intros [H%elem_of_singleton|H]%elem_of_union; [by apply Hx, eq_sym | by apply (U o X)].
Qed.

Lemma unlocked_release P o x w : unlocked P w -> unlocked P (release o x w).
Proof.
  intros U. unfold release. destruct (owners w !! o) as [X|] eqn:E; [|done]. destruct (decide _); intros p Y; cbn.
  - rewrite lookup_delete_Some. intros [_ H]. by apply U.
  - rewrite lookup_insert_Some. intros [[<- <-]|[_ H]]; [|by apply U]. intros [H _]%elem_of_difference. by apply (U o X).
Qed.

(** The end of a call gives up its owner. *)
Lemma unlocked_end o w : unlocked (fun p => p = o) w -> unlocked (fun _ => False) (release o Locked w).
Proof.
  intros U. unfold release. destruct (owners w !! o) as [X|] eqn:E.
  - destruct (decide _); intros p Y; cbn.
    + rewrite lookup_delete_Some. intros [N H] HL. by apply N, eq_sym, (U p Y).
    + rewrite lookup_insert_Some. intros [[<- <-]|[N H]] HL; [set_solver | by apply N, eq_sym, (U p Y)].
  - intros p Y HY HL. specialize (U p Y HY HL). congruence.
Qed.

(** The calls that the trace records, latest first. *)
Definition is_call (e : event V) : bool := match e with Destroyed _ => false | _ => true end.
Definition calls t : list (event V) := List.filter is_call t.

Lemma calls_retain o x w : calls (trace (retain o x w)) = calls (trace w).
Proof. unfold retain. by destruct (owners w !! o). Qed.

Lemma calls_release o x w : calls (trace (release o x w)) = calls (trace w).
Proof. unfold release. destruct (owners w !! o); [|done]. by destruct (decide _). Qed.

(** A method that runs finds its object. *)
Lemma perform_ok o l w :
  inv w -> locked o w -> unlocked (fun p => p = o) w ->
  exists w', perform o l w = Ok w' /\ inv w' /\ locked o w' /\ unlocked (fun p => p = o) w' /\
    calls (trace w') = calls (trace w).
Proof.
  revert w. induction l as [|a l IH]; intros w I L U; [by exists w|].
  assert (exists w1, act o a w = Ok w1 /\ inv w1 /\ locked o w1 /\ unlocked (fun p => p = o) w1 /\ calls (trace w1) = calls (trace w))
    as (w1 & E & I1 & L1 & U1 & C1).
  { destruct a as [|p h|p h]; cbn.
    - rewrite bool_decide_true; [by exists w|]. destruct L as (X & -> & _). by eexists.
    - eexists. split_and!; [done | by apply retain_inv | by apply locked_retain | by apply unlocked_retain | apply calls_retain].
    - eexists. split_and!; [done | by apply release_inv | by apply locked_release | by apply unlocked_release | apply calls_release]. }
  destruct (IH w1 I1 L1 U1) as (w2 & E2 & I2 & L2 & U2 & C2). exists w2. cbn. rewrite E.
  split_and!; [done..|]. by rewrite C2.
Qed.

(** The answer to a call: the method with the right arguments, or the warning. *)
Definition answers (c : WBindFuctor V * list V) (e : event V) : Prop :=
  match e with
  | Ran o vs => o = weak_ c.1 /\ mapM (substitute c.2) (wargs_ c.1) = Some vs
  | Expired o => o = weak_ c.1
  | Destroyed _ => False
  end.

Lemma do_call_ok f tp vs w :
  inv w -> unlocked (fun _ => False) w -> is_void f = true -> mapM (substitute tp) (wargs_ f) = Some vs ->
  exists w' e, do_call f vs w = Ok w' /\ inv w' /\ unlocked (fun _ => False) w' /\
    calls (trace w') = e :: calls (trace w) /\ answers (f, tp) e.
Proof.
  intros I U Hv Ha. unfold do_call. destruct (decide (is_Some (owners w !! weak_ f))) as [H|H].
  - destruct H as [X HX]. pose proof (retain_inv (weak_ f) Locked w I) as I1.
    assert (locked (weak_ f) (log (Ran (weak_ f) vs) (retain (weak_ f) Locked w))) as L1.
    { unfold retain. rewrite HX. exists ({[Locked]} ∪ X). cbn. rewrite lookup_insert_eq. split; [done | set_solver]. }
    apply (log_inv (Ran (weak_ f) vs)) in I1; [|by destruct L1 as (Y & HY & _); exists Y].
    assert (unlocked (fun p => p = weak_ f) (retain (weak_ f) Locked w)) as U1
      by (apply unlocked_retain; [intros p Y HY HL; by destruct (U p Y HY HL) | done]).
    destruct (perform_ok (weak_ f) (wcall_ f vs) _ I1 L1 U1) as (w2 & E2 & I2 & L2 & U2 & C2).
    rewrite E2. exists (release (weak_ f) Locked w2), (Ran (weak_ f) vs).
    split_and!; [done | by apply release_inv | by apply unlocked_end | | done..].
    rewrite calls_release, C2. cbn. by rewrite calls_retain.
  - rewrite Hv. eexists _, (Expired (weak_ f)). split_and!; [done | | exact U | done..].
    apply log_inv; [|done]. by apply eq_None_not_Some.
Qed.

(** The calls of a program that compile. *)
Definition call_of (e : happening V) : list (WBindFuctor V * list V) :=
  match e with
  | Call f tp => match mapM (substitute tp) (wargs_ f) with Some _ => [(f, tp)] | None => [] end
  | Outside _ => []
  end.

Lemma reverse_call_of e : reverse (call_of e) = call_of e.
Proof. destruct e as [f tp|]; cbn; [|done]. by destruct (mapM _ _). Qed.

Definition void_call (e : happening V) : bool := match e with Call f _ => is_void f | Outside _ => true end.

Lemma happens_ok l w :
  inv w -> unlocked (fun _ => False) w -> forallb void_call l = true ->
  exists w' es, happens l w = Ok w' /\ inv w' /\ unlocked (fun _ => False) w' /\ calls (trace w') = es ++ calls (trace w) /\
    Forall2 answers (reverse (l ≫= call_of)) es.
Proof.
  revert w. induction l as [|e l IH]; intros w I U Hv; [by exists w, []|]. cbn in Hv. zbool.
  assert (exists w1 e1, happen e w = Ok w1 /\ inv w1 /\ unlocked (fun _ => False) w1 /\
    calls (trace w1) = e1 ++ calls (trace w) /\ Forall2 answers (call_of e) e1) as (w1 & e1 & E1 & I1 & U1 & C1 & A1).
  { destruct e as [f tp|[|o h|o h]]; cbn.
    - unfold arguments. rewrite selected_values. destruct (mapM (substitute tp) (wargs_ f)) as [vs|] eqn:E.
      + destruct (do_call_ok f tp vs w) as (w1 & e & -> & I1 & U1 & C1 & A); [done..|].
        exists w1, [e]. split_and!; [done..|]. by constructor.
      + exists w, []. by split_and!.
    - exists w, []. by split_and!.
    - exists (retain o (Holder h) w), []. split_and!; [done | by apply retain_inv | by apply unlocked_retain | apply calls_retain | done].
    - exists (release o (Holder h) w), []. split_and!; [done | by apply release_inv | by apply unlocked_release | apply calls_release | done]. }
  destruct (IH w1 I1 U1) as (w2 & es & E2 & I2 & U2 & C2 & A2); [done|].
  exists w2, (es ++ e1). split_and!; [|done|done|by rewrite C2, C1, app_assoc|].
  - cbn [happens]. rewrite E1. exact E2.
  - rewrite bind_cons, reverse_app. apply Forall2_app; [done|].
    by rewrite reverse_call_of.
Qed.
End WeakBindCorrect.

#[export] Instance destroyed_dec {V} o (t : list (event V)) : Decision (Destroyed o ∈ t).
Proof.
  induction t as [|e t [IH|IH]]; [right; apply not_elem_of_nil | left; by constructor|].
  destruct e as [p vs|p|p]; [right; apply not_elem_of_cons; naive_solver..|].
  destruct (decide (o = p)) as [->|N]; [left; by constructor | right; apply not_elem_of_cons; naive_solver].
Defined.

Lemma ordered_at {V} (O : gset nat) (t1 : list (event V)) e t2 :
  ordered O (t1 ++ e :: t2) ->
  match e with
  | Ran o _ | Destroyed o => o ∈ O /\ Destroyed o ∉ t2
  | Expired o => o ∉ O \/ Destroyed o ∈ t2
  end.
Proof.
  induction t1 as [|e1 t1 IH]; cbn; intros [He Ht]; [|by apply IH].
  destruct e; try done. unfold alive in He.
  destruct (decide (o ∈ O)), (decide (Destroyed o ∈ t2)); naive_solver.
Qed.

(** C34. Over any sequence of calls of weakly bound methods that return nothing, whatever the owners
    of the objects do in between and whatever the methods do with the owners of any object (they use their own object, and
    take and drop owners; they call no functor): every call is answered
    in its order, by the method with its arguments substituted if the object still
    exists and by a warning if not; a method never uses a destroyed object, even when it drops
    the last other owner of its own; an object is destroyed once, when nothing owns it any
    more; and the owner that a call takes is given up when the call ends, so that after it an object exists
    only while an owner of the program holds it. *)
Theorem weak_bind_safe {V} (own : gmap nat (gset owner)) (l : list (happening V)) :
  (forall o X, own !! o = Some X -> X <> ∅ /\ Locked ∉ X) ->
  forallb void_call l = true ->
  exists w, happens l (mkWorld own []) = Ok w /\
    Forall2 answers (reverse (l ≫= call_of)) (calls (trace w)) /\
    (forall t1 o vs t2, trace w = t1 ++ Ran o vs :: t2 -> o ∈ dom own /\ Destroyed o ∉ t2) /\
    (forall t1 o t2, trace w = t1 ++ Expired o :: t2 -> o ∉ dom own \/ Destroyed o ∈ t2) /\
    (forall t1 o t2, trace w = t1 ++ Destroyed o :: t2 -> o ∈ dom own /\ Destroyed o ∉ t2) /\
    (forall o, is_Some (owners w !! o) <-> (o ∈ dom own /\ Destroyed o ∉ trace w)) /\
    (forall o X, owners w !! o = Some X -> Locked ∉ X /\ exists h, Holder h ∈ X).
Proof.
  intros Hown Hv. assert (inv (dom own) (mkWorld (V := V) own [])) as I.
  { split; [by apply Hown| |done]. intros o. unfold alive. cbn. rewrite elem_of_dom.
    split; [intros ?; split; [done | apply not_elem_of_nil] | by intros [? _]]. }
  assert (unlocked (fun _ => False) (mkWorld (V := V) own [])) as U by (intros o X HX; by apply (Hown o X)).
  destruct (happens_ok (dom own) l _ I U Hv) as (w & es & E & Iw & Uw & C & A). exists w.
  cbn in C. rewrite app_nil_r in C. rewrite C. pose proof (inv_ordered _ _ Iw) as Ho.
  split_and!; [done..| | | |apply (inv_alive _ _ Iw) |].
  - intros t1 o vs t2 Et. rewrite Et in Ho. exact (ordered_at _ _ _ _ Ho).
  - intros t1 o t2 Et. rewrite Et in Ho. exact (ordered_at _ _ _ _ Ho).
  - intros t1 o t2 Et. rewrite Et in Ho. exact (ordered_at _ _ _ _ Ho).
  - intros o X HX. assert (Locked ∉ X) as HL by (intros HL; by apply (Uw o X)). split; [done|].
    destruct (set_choose_L X (inv_owned _ _ Iw o X HX)) as [[h|] Hh]; [by exists h | done].
Qed.

(** A connection that its server removes from its table while it handles the end of the stream:
    the table, owner 0, lets go inside the method, which goes on to use the connection. *)
Definition handle_close : WBindFuctor Z :=
  make_weak_bind (fun _ => [Touch; Release 5 0; Touch]) 5 [Placeholder 1] true.

Definition close_twice : list (happening Z) := [Call handle_close [42]; Call handle_close [43]].

(** A call of a method that leaves the owners alone, and then the last owner lets go. *)
Definition call_then_drop : list (happening Z) := [Call (make_weak_bind (fun _ => [Touch]) 5 [] true) []; Outside (Release 5 0)].

Lemma weak_bind_safe_witness :
  (w ← happens close_twice (mkWorld {[5%nat := {[Holder 0]}]} []); Ok (trace w)) = Ok [Expired 5; Destroyed 5; Ran 5 [42]] /\
  exists w, happens call_then_drop (mkWorld {[5%nat := {[Holder 0]}]} []) = Ok w /\ trace w = [Destroyed 5; Ran 5 []] /\
    owners w !! 5%nat = None.
Proof.
  split; [vm_compute; reflexivity|].
  destruct (weak_bind_safe {[5%nat := {[Holder 0]}]} call_then_drop) as (w & Hw & _ & _ & _ & _ & Ha & _); [|vm_compute; reflexivity|].
  { intros o X HX. apply lookup_singleton_Some in HX as [_ <-]. split; [apply non_empty_singleton_L | set_solver]. }
  exists w. assert (trace w = [Destroyed 5; Ran 5 []]) as Et by (vm_compute in Hw; by injection Hw as <-).
  split; [exact Hw|]. split; [exact Et|]. apply eq_None_not_Some. rewrite (Ha 5%nat), Et. intros [_ Hn]. apply Hn. by left.
Defined.

(** The same without the local owner: the method goes on with a destroyed object. *)
Example without_lock :
  perform 5 [Touch; Release 5 0; Touch] (mkWorld (V := Z) {[5%nat := {[Holder 0]}]} [])
  = Fault (Undefined "use of a destroyed object").
Proof. vm_compute. reflexivity. Qed.

(** A method with a result has none to return when its object is gone: the function ends without a
    return statement. *)
Example expired_result :
  happens [Outside (Release 5 0); Call (make_weak_bind (fun _ => []) 5 [] false) []]
    (mkWorld (V := Z) {[5%nat := {[Holder 0]}]} [])
  = Fault (Undefined "WBindFuctor::do_call returns no value").
Proof. vm_compute. reflexivity. Qed.
