(* ===== verification/ThreadLocal.v ===== *)
(** * ThreadLocal (include/threading/ThreadLocal.h, ThreadLocalSingleton.h)

    An object per thread, made when the thread first asks for it and deleted when the thread ends.
    [ThreadLocal] keeps the pointers under a key of pthread_key_create(3);
    [ThreadLocalSingleton] has one such key for the process and beside it a
    thread_local pointer that saves the lookup.  Their calls take the calling thread as an
    argument.  As POSIX has it, a thread that ends sets its value to null and calls the function
    of the key with the old one, deleting a key calls nothing, and using a deleted key is undefined.

    It is shown for both that every thread has its own object as long as it runs, that the checks hold and
    that every object is deleted once; those left after the destructor are the ones of the threads that
    still run. *)

From S2P Require Import Prelude.

(** ** Definitions *)

(** The key with its values, the objects that exist, the [tls_instance_] of every thread, the threads
    that have ended, and what was returned by [get], latest first. *)
Record world : Type := mkWorld {
  key_valid : bool;
  specific : gmap nat nat;       (** thread to pointer; no entry is null *)
  live : gset nat;
  next : nat;                    (** the next object of [new Type()] *)
  tls_instance_ : gmap nat nat;
  ended : gset nat;
  returned : list (nat * nat);
}.

Definition with_key (k : bool) (w : world) : world :=
  mkWorld k (specific w) (live w) (next w) (tls_instance_ w) (ended w) (returned w).
Definition with_specific (m : gmap nat nat) (w : world) : world :=
  mkWorld (key_valid w) m (live w) (next w) (tls_instance_ w) (ended w) (returned w).
Definition with_live (l : gset nat) (w : world) : world :=
  mkWorld (key_valid w) (specific w) l (next w) (tls_instance_ w) (ended w) (returned w).
Definition with_instance (m : gmap nat nat) (w : world) : world :=
  mkWorld (key_valid w) (specific w) (live w) (next w) m (ended w) (returned w).
Definition with_ended (e : gset nat) (w : world) : world :=
  mkWorld (key_valid w) (specific w) (live w) (next w) (tls_instance_ w) e (returned w).
Definition with_returned (r : list (nat * nat)) (w : world) : world :=
  mkWorld (key_valid w) (specific w) (live w) (next w) (tls_instance_ w) (ended w) r.

(** [new Type()] *)
Definition new_Type (w : world) : nat * world :=
  (next w, mkWorld (key_valid w) (specific w) ({[next w]} ∪ live w) (S (next w)) (tls_instance_ w)
             (ended w) (returned w)).

(** pthread_getspecific(3) *)
Definition getspecific (t : nat) (w : world) : outcome (option nat) :=
  defined (key_valid w) "pthread_getspecific, deleted key";; Ok (specific w !! t).

(** [ThreadLocal::ThreadLocal]: the process has nothing else of the class. *)
Definition ctor : world := mkWorld true ∅ ∅ 0 ∅ ∅ [].

(** [ThreadLocal::local_dtor] *)
Definition local_dtor (ptr : nat) (w : world) : outcome world :=
  defined (bool_decide (ptr ∈ live w)) "delete of an object that does not exist";;
  Ok (with_live (live w ∖ {[ptr]}) w).

(** [ThreadLocalSingleton::ThreadLocalData::on_thread_exit] *)
Definition on_thread_exit (t : nat) (ptr : nat) (w : world) : outcome world :=
  check (bool_decide (tls_instance_ w !! t = Some ptr)) "on_thread_exit";;
  w ← local_dtor ptr w;
  Ok (with_instance (base.delete t (tls_instance_ w)) w).

(** [ThreadLocal::empty], [set] and [get] *)
Definition empty (t : nat) (w : world) : outcome bool :=
  p ← getspecific t w; Ok (bool_decide (p = None)).

Definition set (t : nat) (ptr : nat) (w : world) : outcome (nat * world) :=
  p ← getspecific t w;
  check (bool_decide (p = None)) "ThreadLocal::set";;
  Ok (ptr, with_specific (<[t := ptr]> (specific w)) w).

Definition get (t : nat) (w : world) : outcome (nat * world) :=
  p ← getspecific t w;
  match p with
  | Some p => Ok (p, w)
  | None => let '(p, w) := new_Type w in set t p w
  end.

(** [ThreadLocalData::empty] and [get] *)
Definition data_empty (t : nat) (w : world) : bool := bool_decide (tls_instance_ w !! t = None).

Definition data_get (t : nat) (w : world) : outcome (nat * world) :=
  match tls_instance_ w !! t with
  | Some p => Ok (p, w)
  | None => '(p, w) ← get t w; Ok (p, with_instance (<[t := p]> (tls_instance_ w)) w)
  end.

(** Which of the two classes, and the function it gives to the key. *)
Inductive flavour : Type := Plain | Single.

Definition local_dtor_func_ (fl : flavour) (t ptr : nat) (w : world) : outcome world :=
  match fl with Plain => local_dtor ptr w | Single => on_thread_exit t ptr w end.

Definition get_of (fl : flavour) (t : nat) (w : world) : outcome (nat * world) :=
  match fl with Plain => get t w | Single => data_get t w end.

(** The destructor of [ThreadLocal], which that of the static [data_] runs too. *)
Definition dtor (fl : flavour) (t : nat) (w : world) : outcome world :=
  ptr ← getspecific t w;
  let w := with_key false (with_specific ∅ w) in
  match ptr with Some ptr => local_dtor_func_ fl t ptr w | None => Ok w end.

(** The end of a thread. *)
Definition thread_exit (fl : flavour) (t : nat) (w : world) : outcome world :=
  let w := with_ended ({[t]} ∪ ended w) w in
  if key_valid w then
    match specific w !! t with
    | Some ptr => local_dtor_func_ fl t ptr (with_specific (base.delete t (specific w)) w)
    | None => Ok w
    end
  else Ok w.

(** What threads do. *)
Inductive op : Type := Get (t : nat) | Exit (t : nat).

Definition actor (o : op) : nat := match o with Get t | Exit t => t end.

Definition step (fl : flavour) (o : op) (w : world) : outcome world :=
  match o with
  | Get t => '(p, w) ← get_of fl t w; Ok (with_returned ((t, p) :: returned w) w)
  | Exit t => thread_exit fl t w
  end.

Fixpoint run (fl : flavour) (os : list op) (w : world) : outcome world :=
  match os with
  | [] => Ok w
  | o :: os => w ← step fl o w; run fl os w
  end.

(** A thread does nothing after its end. *)
Fixpoint proper (gone : gset nat) (os : list op) : bool :=
  match os with
  | [] => true
  | o :: os =>
      bool_decide (actor o ∉ gone) &&
      proper (match o with Get _ => gone | Exit t => {[t]} ∪ gone end) os
  end.

(** ** Every thread has its own object *)

Record inv (fl : flavour) (w : world) : Prop := {
  inv_key : key_valid w = true;
  (** a thread that runs has in the key what it was given *)
  inv_specific t p : specific w !! t = Some p <-> ((t, p) ∈ returned w /\ t ∉ ended w);
  inv_own t p u q : (t, p) ∈ returned w -> (u, q) ∈ returned w -> (t = u <-> p = q);
  inv_live p : p ∈ live w <-> exists t, (t, p) ∈ returned w /\ t ∉ ended w;
  inv_next t p : (t, p) ∈ returned w -> (p < next w)%nat;
  inv_instance t : fl = Single -> tls_instance_ w !! t = specific w !! t;
}.

Lemma ctor_inv fl : inv fl ctor.
Proof.
  split; cbn.
  - done.
  - intros t p. rewrite elem_of_nil. naive_solver.
  - intros t p u q. by rewrite elem_of_nil.
  - intros p. split; [set_solver|]. intros (t & H & _). by apply elem_of_nil in H.
  - intros t p. by rewrite elem_of_nil.
  - done.
Qed.

(** The thread asks again. *)
Lemma inv_asks_again fl t p w :
  inv fl w -> specific w !! t = Some p -> inv fl (with_returned ((t, p) :: returned w) w).
Proof.
  intros I H. pose proof (proj1 (inv_specific _ _ I t p) H) as [Hr He].
  assert (forall x, x ∈ (t, p) :: returned w <-> x ∈ returned w) as E.
  { intros x. rewrite elem_of_cons. split; [intros [-> |?]; done | by right]. }
  split; cbn; [apply I|..|by intros ? ?; apply I].
  - intros u q. rewrite E. apply I.
  - intros u q v r. rewrite !E. apply I.
  - intros q. rewrite (inv_live _ _ I). setoid_rewrite E. done.
  - intros u q. rewrite E. apply I.
Qed.

(** The thread asks for the first time. *)
Definition first_get (fl : flavour) (t : nat) (w : world) : world :=
  mkWorld (key_valid w) (<[t := next w]> (specific w)) ({[next w]} ∪ live w) (S (next w))
    (match fl with Plain => tls_instance_ w | Single => <[t := next w]> (tls_instance_ w) end)
    (ended w) ((t, next w) :: returned w).

Lemma inv_first fl t w :
  inv fl w -> specific w !! t = None -> t ∉ ended w -> inv fl (first_get fl t w).
Proof.
  intros I H He.
  assert (forall p, (t, p) ∉ returned w) as Ht.
  { intros p Hp. assert (specific w !! t = Some p) by (apply (inv_specific _ _ I); done). congruence. }
  assert (forall u, (u, next w) ∉ returned w) as Hn by (intros u Hu; apply (inv_next _ _ I) in Hu; lia).
  split; cbn.
  - apply I.
  - intros u q. rewrite elem_of_cons. destruct (decide (t = u)) as [->|N].
    + rewrite lookup_insert_eq. split; [intros [= <-]; auto|]. intros [[[= ->]|Hq] _]; [done | by apply Ht in Hq].
    + rewrite lookup_insert_ne, (inv_specific _ _ I) by done. naive_solver.
  - intros u q v r. rewrite !elem_of_cons. intros [[= -> ->]|Hu] [[= -> ->]|Hv].
    + done.
    + split; intros E; subst; [by apply Ht in Hv | by apply Hn in Hv].
    + split; intros E; subst; [by apply Ht in Hu | by apply Hn in Hu].
    + by apply (inv_own _ _ I).
  - intros p. rewrite elem_of_union, elem_of_singleton, (inv_live _ _ I).
    setoid_rewrite elem_of_cons. split.
    + intros [-> |(u & Hu & Hue)]; [exists t | exists u]; auto.
    + intros (u & [[= -> ->]|Hu] & Hue); [by left | right; eauto].
  - intros u q. rewrite elem_of_cons. intros [[= -> ->]|Hq]; [lia|]. apply (inv_next _ _ I) in Hq. lia.
  - intros u ->. destruct (decide (t = u)) as [->|N]; [by rewrite !lookup_insert_eq|].
    rewrite !lookup_insert_ne by done. by apply (inv_instance _ _ I).
Qed.

Lemma get_step fl t w :
  inv fl w -> t ∉ ended w ->
  step fl (Get t) w =
    Ok (match specific w !! t with
        | Some p => with_returned ((t, p) :: returned w) w
        | None => first_get fl t w
        end).
Proof.
  intros I He. cbn [step]. unfold get_of, data_get, get, set, getspecific. cbn.
  pose proof (inv_key _ _ I) as K. destruct fl.
  - rewrite !K. cbn. destruct (specific w !! t) as [p|] eqn:E; cbn; [done|].
    unfold first_get. by rewrite K.
  - rewrite (inv_instance _ _ I t eq_refl). destruct (specific w !! t) as [p|] eqn:E; [done|].
    rewrite !K. cbn. unfold first_get. by rewrite K.
Qed.

(** The objects after one of a thread is deleted. *)
Definition after_exit (fl : flavour) (t p : nat) (w : world) : world :=
  mkWorld (key_valid w) (base.delete t (specific w)) (live w ∖ {[p]}) (next w)
    (match fl with Plain => tls_instance_ w | Single => base.delete t (tls_instance_ w) end)
    ({[t]} ∪ ended w) (returned w).

Lemma inv_exit fl t p w :
  inv fl w -> specific w !! t = Some p -> inv fl (after_exit fl t p w).
Proof.
  intros I H. pose proof (proj1 (inv_specific _ _ I t p) H) as [Hr He]. split; cbn; try apply I.
  - intros u q. rewrite not_elem_of_union, not_elem_of_singleton, lookup_delete_Some, (inv_specific _ _ I).
    naive_solver.
  - intros q. rewrite elem_of_difference, not_elem_of_singleton, (inv_live _ _ I).
    setoid_rewrite not_elem_of_union. setoid_rewrite not_elem_of_singleton. split.
    + intros ((u & Hu & Hue) & N). exists u. split_and!; try done. intros ->. apply N. symmetry.
      by apply (inv_own _ _ I t p t q).
    + intros (u & Hu & N & Hue). split; [eauto|]. intros ->. apply N. by apply (inv_own _ _ I u p t p).
  - intros u ->. destruct (decide (t = u)) as [->|N]; [by rewrite !lookup_delete_eq|].
    rewrite !lookup_delete_ne by done. by apply (inv_instance _ _ I).
Qed.

Lemma inv_exit_unused fl t w :
  inv fl w -> specific w !! t = None -> t ∉ ended w -> inv fl (with_ended ({[t]} ∪ ended w) w).
Proof.
  intros I H He.
  assert (forall u p, (u, p) ∈ returned w -> u ∉ ended w -> u <> t) as N.
  { intros u p Hu Hue ->. assert (specific w !! t = Some p) by (apply (inv_specific _ _ I); done). congruence. }
  split; cbn; try apply I.
  - intros u q. rewrite not_elem_of_union, not_elem_of_singleton, (inv_specific _ _ I). naive_solver.
  - intros q. rewrite (inv_live _ _ I). setoid_rewrite not_elem_of_union. setoid_rewrite not_elem_of_singleton.
    naive_solver.
Qed.

Lemma dtor_func_ok fl t p w :
  tls_instance_ w !! t = Some p \/ fl = Plain -> p ∈ live w ->
  local_dtor_func_ fl t p w =
    Ok (match fl with
        | Plain => with_live (live w ∖ {[p]}) w
        | Single => with_instance (base.delete t (tls_instance_ w)) (with_live (live w ∖ {[p]}) w)
        end).
Proof.
  intros Hi Hp. unfold local_dtor_func_, on_thread_exit, local_dtor. destruct fl.
  - by rewrite bool_decide_true.
  - destruct Hi as [Hi|?]; [|done]. rewrite !bool_decide_true by done. done.
Qed.

Lemma specific_live fl t p w :
  inv fl w -> specific w !! t = Some p -> p ∈ live w /\ (tls_instance_ w !! t = Some p \/ fl = Plain).
Proof.
  intros I H. split.
  - apply (inv_live _ _ I). exists t. by apply (inv_specific _ _ I).
  - destruct fl; [by right | left]. by rewrite (inv_instance _ _ I t eq_refl).
Qed.

Lemma exit_step fl t w :
  inv fl w ->
  step fl (Exit t) w =
    Ok (match specific w !! t with
        | Some p => after_exit fl t p w
        | None => with_ended ({[t]} ∪ ended w) w
        end).
Proof.
  intros I. cbn [step]. unfold thread_exit. cbn. rewrite (inv_key _ _ I).
  destruct (specific w !! t) as [p|] eqn:E; [|done]. destruct (specific_live _ _ _ _ I E) as [Hl Hi].
  rewrite dtor_func_ok by done. by destruct fl.
Qed.

Lemma step_inv fl o w :
  inv fl w -> actor o ∉ ended w ->
  exists w', step fl o w = Ok w' /\ inv fl w' /\
    ended w' = match o with Get _ => ended w | Exit t => {[t]} ∪ ended w end.
Proof.
  intros I He. destruct o as [t|t]; cbn [actor] in He.
  - rewrite get_step by done. eexists. split; [done|].
    destruct (specific w !! t) as [p|] eqn:E; (split; [|done]); [by apply inv_asks_again | by apply inv_first].
  - rewrite exit_step by done. eexists. split; [done|].
    destruct (specific w !! t) as [p|] eqn:E; (split; [|done]); [by apply inv_exit | by apply inv_exit_unused].
Qed.

Lemma run_local_inv fl os w :
  inv fl w -> proper (ended w) os = true -> exists w', run fl os w = Ok w' /\ inv fl w'.
Proof.
  revert w. induction os as [|o os IH]; intros w I P; [by exists w|]. cbn [proper] in P. zbool.
  apply bool_decide_eq_true in H. destruct (step_inv fl o w I H) as (w1 & E & I1 & He).
  destruct (IH w1 I1) as (w2 & E2 & I2); [by rewrite He; destruct o|].
  exists w2. cbn [run]. by rewrite E.
Qed.

(** C35. Whatever the order in which threads ask for their object and end, for a ThreadLocal and for a
    ThreadLocalSingleton: no check fails and nothing is deleted twice; two
    requests return the same object exactly when the same thread made them; the
    objects that exist are those of the threads that run.  When the ThreadLocal is then destroyed, by
    thread [t0], its own object is deleted and those of the other threads that run are left. *)
Theorem thread_local_correct (fl : flavour) (os : list op) (t0 : nat) :
  proper ∅ os = true ->
  exists w w', run fl os ctor = Ok w /\ dtor fl t0 w = Ok w' /\
    (forall t p u q, (t, p) ∈ returned w -> (u, q) ∈ returned w -> (t = u <-> p = q)) /\
    (forall p, p ∈ live w <-> exists t, (t, p) ∈ returned w /\ t ∉ ended w) /\
    (forall p, p ∈ live w' <-> exists t, (t, p) ∈ returned w /\ (t ∉ ended w) /\ t <> t0).
Proof.
  intros P. destruct (run_local_inv fl os ctor (ctor_inv fl) P) as (w & E & I). exists w.
  unfold dtor, getspecific. rewrite (inv_key _ _ I). cbn.
  destruct (specific w !! t0) as [p0|] eqn:E0.
  - destruct (specific_live _ _ _ _ I E0) as [Hl Hi]. rewrite dtor_func_ok by done.
    pose proof (inv_exit fl t0 p0 w I E0) as I'. eexists. split_and!; [done..|apply I|apply I|].
    intros p. pose proof (inv_live _ _ I' p) as L. cbn in L.
    setoid_rewrite not_elem_of_union in L. setoid_rewrite not_elem_of_singleton in L.
    destruct fl; cbn; rewrite L; naive_solver.
  - eexists. split_and!; [done..|apply I|apply I|]. intros p. cbn. rewrite (inv_live _ _ I).
    split; intros (t & Ht & H); exists t; [|naive_solver]. split_and!; [done..|]. intros ->.
    assert (specific w !! t0 = Some p) by (apply (inv_specific _ _ I); done). congruence.
Qed.

Lemma thread_local_correct_witness :
  let os := [Get 0; Get 1; Get 0; Get 2; Exit 1; Get 2] in
  (w ← run Single os ctor; Ok (returned w, elements (live w)))
    = Ok ([(2, 2); (2, 2); (0, 0); (1, 1); (0, 0)], [2; 0])%nat /\
  exists w w', run Single os ctor = Ok w /\ dtor Single 0 w = Ok w'.
Proof.
  cbv zeta. split; [vm_compute; reflexivity|].
  destruct (thread_local_correct Single [Get 0; Get 1; Get 0; Get 2; Exit 1; Get 2] 0)
    as (w & w' & H1 & H2 & _); [vm_compute; reflexivity|]. exists w, w'. split; assumption.
Defined.

(** ** Examples *)

(** The destructor leaves the objects of the other threads, and their ends do not
    delete them any more. *)
Example others_leak :
  (w ← run Plain [Get 0; Get 1] ctor; w ← dtor Plain 0 w; w ← thread_exit Plain 1 w; Ok (elements (live w)))
  = Ok [1%nat].
Proof. vm_compute. reflexivity. Qed.

(** At the end of the process the static [data_] is destroyed by one thread; the others go on with
    the pointer they have saved, but the thread itself would look up a key that is deleted. *)
Example singleton_after_exit :
  (w ← run Single [Get 0; Get 1] ctor; w ← dtor Single 0 w;
   Ok (match data_get 1 w with Ok (p, _) => Some p | Fault _ => None end,
       match data_get 0 w with Ok (p, _) => None | Fault f => Some f end))
  = Ok (Some 1%nat, Some (Undefined "pthread_getspecific, deleted key")).
Proof. vm_compute. reflexivity. Qed.

(** A thread that has an object cannot set another. *)
Example set_twice :
  ('(_, w) ← get 0 ctor; '(p, w) ← Ok (new_Type w); set 0 p w) = Fault (CheckFailed "ThreadLocal::set").
Proof. vm_compute. reflexivity. Qed.
