(* ===== verification/Chat.v ===== *)
(** * The chat programs (examples/asio/chat/server/server.cc, examples/asio/chat/client/client.cc)

    A server and its clients, built from the codec and the connections: what the library is
    for.  The server keeps the set of its connections and sends every message it decodes
    to all of them.  A connection is reduced to what the server uses of it: its input
    buffer, whether it still sends ([kConnected]) and the bytes it was given to send, which it
    delivers in order ([TcpConnection]).  The callbacks of one loop run one after
    another.

    The file shows the whole way of a message: whatever the clients join, send and leave, and
    however their bytes are cut, every member of the room receives the same messages in
    the same order from the moment it joined, each sender's in the order it sent
    them, and each client decodes exactly what was said. *)

From S2P Require Import Prelude ByteOrder ByteBuffer Codec LengthHeaderCodec.

(** ** Definitions *)

(** The codec of both programs. *)
Definition chat_codec : LengthHeaderCodec := make_codec kLengthType32 true 408.

(** A connection as the server sees it; connections are known by their addresses. *)
Record connection : Type := mkConnection {
  input_buffer_ : ByteBuffer;
  connected_ : bool;
  sent_ : bytes;
}.

Record ChatServer : Type := mkChat {
  connections_ : gset nat;                 (** the member of the class *)
  alive : gmap nat connection;             (** the connections of [server_] *)
}.

Definition with_alive (m : gmap nat connection) (s : ChatServer) : ChatServer := mkChat (connections_ s) m.

Section Chat.
Context `{Arch}.

(** What the codec does to the connection [j]: [TcpConnection::send] drops the data
    unless the connection is [kConnected]. *)
Definition conn_event (j : nat) (e : Codec.event) (s : ChatServer) : ChatServer :=
  with_alive (alter (fun c =>
    match e with
    | ConnSend buff =>
        if connected_ c then mkConnection (input_buffer_ c) true (sent_ c ++ contents buff) else c
    | ConnShutdown => mkConnection (input_buffer_ c) false (sent_ c)
    | _ => c
    end) j (alive s)) s.

Definition on_connect (i : nat) (s : ChatServer) : ChatServer := mkChat ({[i]} ∪ connections_ s) (alive s).
Definition on_close (i : nat) (s : ChatServer) : ChatServer := mkChat (connections_ s ∖ {[i]}) (alive s).

(** The loop of [on_message]: the order of the set does not matter to a connection. *)
Fixpoint broadcast (js : list nat) (mesg : ByteBuffer) (s : ChatServer) : outcome ChatServer :=
  match js with
  | [] => Ok s
  | j :: js =>
      es ← send chat_codec mesg;
      broadcast js mesg (fold_left (fun s e => conn_event j e s) es s)
  end.

Definition on_message (mesg : ByteBuffer) (s : ChatServer) : outcome ChatServer :=
  broadcast (elements (connections_ s)) mesg s.

(** The effects of [Codec::recv] for the connection [i], with [on_message] as its callback. *)
Fixpoint handle_events (i : nat) (es : list Codec.event) (s : ChatServer) : outcome ChatServer :=
  match es with
  | [] => Ok s
  | MessageCallback mesg :: es => s ← on_message mesg s; handle_events i es s
  | e :: es => handle_events i es (conn_event i e s)
  end.

(** The message callback of [server_]: bytes arrived on [i]; [in_own_loop]: in the loop of the codec. *)
Definition on_bytes (in_own_loop : bool) (i : nat) (chunk : bytes) (s : ChatServer) : outcome ChatServer :=
  match alive s !! i with
  | None => Fault (Undefined "no such connection")
  | Some c =>
      '(_, buff) ← append chunk (input_buffer_ c);
      '(es, _, buff) ← recv in_own_loop (S (length (contents buff))) true chat_codec buff;
      handle_events i es (with_alive (<[i := mkConnection buff (connected_ c) (sent_ c)]> (alive s)) s)
  end.

(** What happens to the server. *)
Inductive happening : Type :=
| Connects (i : nat)
| Bytes (i : nat) (chunk : bytes)
| Closes (i : nat).

Definition happens (h : happening) (s : ChatServer) : outcome ChatServer :=
  match h with
  | Connects i =>
      buff ← make kUnLimitSize kInitialSize;
      Ok (on_connect i (with_alive (<[i := mkConnection buff true []]> (alive s)) s))
  | Bytes i chunk => on_bytes true i chunk s
  | Closes i => let s := on_close i s in Ok (with_alive (delete i (alive s)) s)
  end.

Fixpoint happen (hs : list happening) (s : ChatServer) : outcome ChatServer :=
  match hs with [] => Ok s | h :: hs => s ← happens h s; happen hs s end.

(** [ChatClient::write] of a line on a connection that is up: the bytes it sends. *)
Definition client_write (mesg : bytes) : outcome (list Codec.event) :=
  buff ← make kUnLimitSize kInitialSize;
  '(_, buff) ← append mesg buff;
  send chat_codec buff.

End Chat.

(** ** The room, abstractly *)

(** What is heard by each member, and how it changes. *)
Inductive room_event : Type := Joined (i : nat) | Said (i : nat) (mesg : bytes) | Left_ (i : nat).

Definition heard_step (h : gmap nat (list bytes)) (e : room_event) : gmap nat (list bytes) :=
  match e with
  | Joined i => <[i := []]> h
  | Said _ mesg => (fun l => l ++ [mesg]) <$> h
  | Left_ i => delete i h
  end.

Definition heard (tr : list room_event) (h : gmap nat (list bytes)) : gmap nat (list bytes) := fold_left heard_step tr h.

Definition said_by (i : nat) (tr : list room_event) : list bytes :=
  omap (fun e => match e with Said j mesg => if decide (j = i) then Some mesg else None | _ => None end) tr.

(** The bytes that arrive from [i]. *)
Definition bytes_of (i : nat) (hs : list happening) : bytes :=
  concat (omap (fun h => match h with Bytes j chunk => if decide (j = i) then Some chunk else None | _ => None end) hs).

(** A connection is made once, and its bytes arrive between that and its close. *)
Fixpoint proper (seen up : gset nat) (hs : list happening) : bool :=
  match hs with
  | [] => true
  | Connects i :: hs => bool_decide (i ∉ seen) && proper ({[i]} ∪ seen) ({[i]} ∪ up) hs
  | Bytes i _ :: hs => bool_decide (i ∈ up) && proper seen up hs
  | Closes i :: hs => bool_decide (i ∈ up) && proper seen (up ∖ {[i]}) hs
  end.

(** What the clients may say: the codec drops empty messages and refuses longer ones. *)
Definition speakable (mesg : bytes) : Prop := 0 < zlen mesg <= 404.

Definition stream (ms : list bytes) : bytes := concat (lh_frame chat_codec <$> ms).

(** How many of the messages are complete in the first [n] bytes of their stream. *)
Fixpoint complete (n : nat) (ms : list bytes) : nat :=
  match ms with
  | [] => O
  | m :: ms =>
      let k := length (lh_frame chat_codec m) in
      if decide (k <= n)%nat then S (complete (n - k) ms) else O
  end.

(** The history of the room, where the client [i] writes [sends i]: a member joins and leaves with its connection,
    and a read says the messages that it completes, at that moment. *)
Definition room_step (sends : nat -> list bytes) (before : list happening) (h : happening) : list room_event :=
  match h with
  | Connects i => [Joined i]
  | Bytes i chunk =>
      let said := complete (length (bytes_of i before)) (sends i) in
      let now := complete (length (bytes_of i before) + length chunk) (sends i) in
      Said i <$> drop said (take now (sends i))
  | Closes i => [Left_ i]
  end.

Fixpoint history (sends : nat -> list bytes) (before hs : list happening) : list room_event :=
  match hs with
  | [] => []
  | h :: hs => room_step sends before h ++ history sends (before ++ [h]) hs
  end.

(** ** Lemmas *)

Section Lemmas.
Context `{A : Arch}.

Lemma chat_codec_wf : codec_wf chat_codec.
Proof. split; [by right|done]. Qed.

Lemma speakable_accepted mesg : speakable mesg -> lh_accepts chat_codec mesg.
Proof.
  unfold speakable, lh_accepts. change (checksum_length_ chat_codec) with 4. change (max_payload_ chat_codec) with 408.
  change (2 ^ (8 * length_type chat_codec - 1)) with 2147483648. lia.
Qed.

Lemma frame_fits mesg : speakable mesg -> zlen (lh_frame chat_codec mesg) <= vec_max_size.
Proof.
  intros Hm. rewrite lh_frame_length by apply chat_codec_wf. unfold speakable in Hm.
  change (length_type chat_codec) with 4. change (checksum_length_ chat_codec) with 4.
  unfold vec_max_size, kInt64Max. lia.
Qed.

Definition hears (mesg : bytes) (c : connection) : connection :=
  mkConnection (input_buffer_ c) (connected_ c) (sent_ c ++ lh_frame chat_codec mesg).

(** The codec sends one frame. *)
Lemma send_speakable payload :
  wf payload -> speakable (contents payload) ->
  exists buff, send chat_codec payload = Ok [ConnSend buff] /\ contents buff = lh_frame chat_codec (contents payload).
Proof.
  intros Hwf Hm. pose proof (length_header_send chat_codec payload chat_codec_wf Hwf (frame_fits _ Hm)) as Hs.
  cbv zeta in Hs. unfold speakable in Hm.
  replace (zlen (contents payload) =? 0) with false in Hs by (symmetry; apply Z.eqb_neq; lia).
  replace (max_payload_ chat_codec <? zlen (contents payload)) with false in Hs
    by (symmetry; apply Z.ltb_ge; cbn; lia).
  rewrite andb_false_r in Hs. exact Hs.
Qed.

Lemma broadcast_ok js payload s :
  wf payload -> speakable (contents payload) -> NoDup js ->
  (forall j c, alive s !! j = Some c -> connected_ c = true) ->
  exists m, broadcast js payload s = Ok (with_alive m s) /\
    forall j, m !! j = if decide (j ∈ js) then hears (contents payload) <$> alive s !! j else alive s !! j.
Proof.
  intros Hwf Hm Hn. revert s. induction Hn as [|j js Hj Hn IH]; intros s Hc; cbn [broadcast].
  { exists (alive s). split; [by destruct s|]. intros j. by rewrite decide_False by apply not_elem_of_nil. }
  destruct (send_speakable payload Hwf Hm) as (buff & -> & Hb). cbn [mbind outcome_bind fold_left].
  destruct (IH (conn_event j (ConnSend buff) s)) as (m & -> & Hm').
  { intros k c. cbn. rewrite lookup_alter. case_decide; [|apply Hc]. intros (c0 & Hk & ->)%fmap_Some.
    subst k. by destruct (connected_ c0) eqn:E; [|specialize (Hc _ _ Hk); congruence]. }
  exists m. split; [done|]. intros k. rewrite Hm'. cbn [conn_event with_alive alive].
  rewrite lookup_alter. destruct (decide (j = k)) as [->|Hne].
  - rewrite decide_False by done. rewrite decide_True by left.
    destruct (alive s !! k) as [c|] eqn:E; [|done]. cbn. rewrite (Hc _ _ E), Hb. f_equal. unfold hears. by rewrite (Hc _ _ E).
  - destruct (decide (k ∈ js)) as [Hk|Hk]; [by rewrite decide_True by (by right)|].
    rewrite decide_False; [done|]. intros [?|?]%elem_of_cons; congruence.
Qed.

(** The connections of the set are the ones that are alive, and all of them send. *)
Definition open_room (s : ChatServer) : Prop :=
  connections_ s = dom (alive s) /\ forall j c, alive s !! j = Some c -> connected_ c = true.

Lemma on_message_ok payload s :
  open_room s -> wf payload -> speakable (contents payload) ->
  on_message payload s = Ok (with_alive (hears (contents payload) <$> alive s) s).
Proof.
  intros [Hd Hc] Hwf Hm. destruct (broadcast_ok (elements (connections_ s)) payload s) as (m & E & Hl); [done|done| |done|].
  { apply NoDup_elements. }
  unfold on_message. rewrite E. do 2 f_equal. apply map_eq. intros j. rewrite Hl, lookup_fmap.
  case_decide as Hx; [done|]. rewrite elem_of_elements, Hd, not_elem_of_dom in Hx. by rewrite Hx.
Qed.

Lemma open_room_hears mesg s : open_room s -> open_room (with_alive (hears mesg <$> alive s) s).
Proof.
  intros [Hd Hc]. split; cbn.
  - by rewrite dom_fmap_L.
  - intros j c. rewrite lookup_fmap. intros (c0 & Hj & ->)%fmap_Some. cbn. by apply (Hc j).
Qed.

(** What the members have been sent. *)
Definition told (h : gmap nat (list bytes)) (s : ChatServer) : Prop :=
  dom h = dom (alive s) /\
  forall j c l, alive s !! j = Some c -> h !! j = Some l -> sent_ c = stream l.

Lemma stream_snoc l mesg : stream (l ++ [mesg]) = stream l ++ lh_frame chat_codec mesg.
Proof. unfold stream. rewrite fmap_app, concat_app. cbn. by rewrite app_nil_r. Qed.

Lemma told_hears i mesg h s :
  told h s -> told (heard_step h (Said i mesg)) (with_alive (hears mesg <$> alive s) s).
Proof.
  intros [Hd Ht]. split; cbn; [by rewrite !dom_fmap_L|].
  intros j c l. rewrite !lookup_fmap. intros (c0 & Hj & ->)%fmap_Some (l0 & Hl & ->)%fmap_Some. cbn.
  by rewrite stream_snoc, (Ht j c0 l0).
Qed.

(** The messages of one [recv] reach everybody, in order; buffers stay. *)
Lemma handle_events_ok i es ms h s :
  open_room s -> told h s -> delivers es ms -> Forall speakable ms ->
  exists s', handle_events i es s = Ok s' /\ open_room s' /\ told (heard (Said i <$> ms) h) s' /\
    dom (alive s') = dom (alive s) /\
    forall j c', alive s' !! j = Some c' -> exists c, alive s !! j = Some c /\ input_buffer_ c' = input_buffer_ c.
Proof.
  intros Ho Ht Hd. revert h s Ho Ht. induction Hd as [|e m es ms He Hd IH]; intros h s Ho Ht Hm; cbn [handle_events].
  { exists s. split_and!; eauto. }
  destruct He as (payload & -> & Hwf & Hc). apply Forall_cons in Hm as [Hm Hms]. subst m.
  rewrite (on_message_ok payload s) by done. cbn [mbind outcome_bind].
  destruct (IH (heard_step h (Said i (contents payload))) _ (open_room_hears _ s Ho) (told_hears i _ h s Ht) Hms)
    as (s' & E & H1 & H2 & H3 & H4).
  exists s'. split_and!; [done|done|done| |].
  - rewrite H3. cbn. by rewrite dom_fmap_L.
  - intros j c' Hj. destruct (H4 j c' Hj) as (c & Hc & Hi). cbn in Hc. rewrite lookup_fmap in Hc.
    apply fmap_Some in Hc as (c0 & Hc0 & ->). by exists c0.
Qed.

(** Where the streams of the clients are, [before] the happenings [hs]: of [sends], [todo] is still to be said, and
    [left] still to be sent after [hs]. *)
Record flow (sends : nat -> list bytes) (before hs : list happening) (left : nat -> bytes) (todo : nat -> list bytes) (seen : gset nat) (s : ChatServer) : Prop := {
  fl_open : open_room s;
  fl_seen : dom (alive s) ⊆ seen;
  fl_alive i c : alive s !! i = Some c ->
    wf (input_buffer_ c) /\ unlimited (input_buffer_ c) = true /\
    contents (input_buffer_ c) ++ bytes_of i hs ++ left i = stream (todo i) /\
    pending chat_codec (contents (input_buffer_ c)) (todo i) /\
    writer_index_ (input_buffer_ c) + zlen (bytes_of i hs) <= vec_max_size;
  fl_said i c : alive s !! i = Some c ->
    exists said, sends i = said ++ todo i /\ bytes_of i before = stream said ++ contents (input_buffer_ c);
  fl_unsaid i : i ∉ seen -> bytes_of i before = [] /\ sends i = todo i;
  fl_new i : i ∉ seen -> bytes_of i hs ++ left i = stream (todo i) /\ zlen (bytes_of i hs) <= vec_max_size;
  fl_gone i : i ∈ seen -> alive s !! i = None -> left i = [] -> todo i = [];
  fl_speakable i : Forall speakable (todo i);
}.

Lemma stream_cons m ms : stream (m :: ms) = lh_frame chat_codec m ++ stream ms.
Proof. done. Qed.

Lemma frame_pos m : (0 < length (lh_frame chat_codec m))%nat.
Proof. pose proof (lh_frame_nonempty chat_codec m). destruct (lh_frame chat_codec m); [done|]. rewrite length_cons. lia. Qed.

Lemma stream_nil ms : stream ms = [] -> ms = [].
Proof.
  destruct ms as [|m ms]; [done|]. rewrite stream_cons. intros [E _]%app_nil. by destruct (lh_frame_nonempty chat_codec m).
Qed.

Lemma pending_stream ms d : pending chat_codec d ms -> d = stream ms -> ms = [].
Proof.
  destruct ms as [|m ms]; [done|]. cbn [pending frame length_header_framing]. intros Hp ->. rewrite stream_cons, length_app in Hp. lia.
Qed.

Lemma pending_nil ms : pending chat_codec [] ms.
Proof. destruct ms as [|m ms]; [done|]. apply frame_pos. Qed.

Lemma bytes_of_other i h hs : (forall chunk, h <> Bytes i chunk) -> bytes_of i (h :: hs) = bytes_of i hs.
Proof. intros Hh. destruct h as [j|j c|j]; [done| |done]. unfold bytes_of. cbn. case_decide as E; [|done]. subst. by destruct (Hh c). Qed.

(** Nothing arrives from a connection that was closed. *)
Lemma gone_silent i seen up hs : proper seen up hs = true -> i ∈ seen -> i ∉ up -> bytes_of i hs = [].
Proof.
  revert seen up. induction hs as [|h hs IH]; intros seen up; [done|].
  destruct h as [j|j chunk|j]; cbn [proper]; intros [Hj%bool_decide_eq_true Hp]%andb_prop Hs Hu.
  - rewrite bytes_of_other by done. apply (IH _ _ Hp); [set_solver|]. intros [->%elem_of_singleton|]%elem_of_union; done.
  - rewrite bytes_of_other by congruence. by apply (IH _ _ Hp).
  - rewrite bytes_of_other by done. apply (IH _ _ Hp); [done|set_solver].
Qed.

Lemma bytes_of_snoc i before h : bytes_of i (before ++ [h]) = bytes_of i before ++ bytes_of i [h].
Proof. unfold bytes_of. by rewrite omap_app, concat_app. Qed.

Lemma bytes_of_one i j chunk : bytes_of i [Bytes j chunk] = if decide (j = i) then chunk else [].
Proof. unfold bytes_of. cbn. case_decide; [|done]. cbn. by rewrite app_nil_r. Qed.

(** What is complete is what was said. *)
Lemma complete_said said d todo :
  pending chat_codec d todo -> complete (length (stream said ++ d)) (said ++ todo) = length said.
Proof.
  intros Hp. induction said as [|m said IH]; cbn [app complete].
  - destruct todo as [|m todo]; [done|]. cbn [complete]. cbn [pending frame length_header_framing] in Hp.
    rewrite decide_False; [done|]. change (stream [] ++ d) with d. lia.
  - rewrite stream_cons, <- app_assoc, length_app, decide_True by lia. rewrite Nat.add_comm, Nat.add_sub, IH. done.
Qed.

Definition see (seen : gset nat) (h : happening) : gset nat :=
  match h with Connects i => {[i]} ∪ seen | _ => seen end.

(** One happening, with what it adds to the room. *)
Definition steps_to (sends : nat -> list bytes) (before : list happening) (h : happening) (hs : list happening) (left : nat -> bytes) (todo : nat -> list bytes) (seen : gset nat)
    (hd : gmap nat (list bytes)) (s : ChatServer) : Prop :=
  exists s' todo', let tr := room_step sends before h in
    happens h s = Ok s' /\ flow sends (before ++ [h]) hs left todo' (see seen h) s' /\ told (heard tr hd) s' /\
    (forall i, todo i = said_by i tr ++ todo' i) /\
    proper (see seen h) (dom (alive s')) hs = true.

Lemma connects_step sends before i hs left todo seen hd s :
  flow sends before (Connects i :: hs) left todo seen s -> told hd s -> proper seen (dom (alive s)) (Connects i :: hs) = true ->
  steps_to sends before (Connects i) hs left todo seen hd s.
Proof.
  intros F Ht [Hi%bool_decide_eq_true Hp]%andb_prop. destruct make_fresh as (b & E & Hb).
  destruct F as [[Hd Hc] Hs Ha Hy Hz Hn Hg Hsp]. unfold steps_to. cbn [happens see]. rewrite E. cbn [mbind outcome_bind].
  assert (Hb' : forall j, bytes_of j (Connects i :: hs) = bytes_of j hs) by (intros j; by apply bytes_of_other).
  destruct Hb as (Hwf & Hcont & Hu & Hw).
  eexists _, todo. split; [reflexivity|]. split_and!; [| |done|].
  - split; cbn [on_connect with_alive alive connections_].
    + split; cbn; [by rewrite dom_insert_L, Hd|]. intros j c. rewrite lookup_insert. case_decide; [by intros [= <-]|apply Hc].
    + rewrite dom_insert_L. set_solver.
    + intros j c. rewrite lookup_insert. case_decide as Ej; [|intros Hj; specialize (Ha j c Hj); by rewrite Hb' in Ha].
      intros [= <-]. subst j. cbn. destruct (Hn i Hi) as [H1 H2]. rewrite Hb' in H1, H2. rewrite Hcont, Hw.
      split_and!; [done|done|done|apply pending_nil|lia].
    + intros j c. rewrite lookup_insert, bytes_of_snoc, app_nil_r. case_decide as Ej; [|apply Hy].
      intros [= <-]. subst j. destruct (Hz i Hi) as [H1 H2]. exists []. rewrite H1, H2. cbn. by rewrite Hcont.
    + intros j Hj. rewrite bytes_of_snoc, app_nil_r. apply Hz. set_solver.
    + intros j Hj. rewrite <- Hb'. apply Hn. set_solver.
    + intros j Hj. rewrite lookup_insert. case_decide; [done|]. apply Hg. set_solver.
    + done.
  - destruct Ht as [Ht1 Ht2]. split; cbn; [by rewrite !dom_insert_L, Ht1|]. intros j c l. rewrite !lookup_insert.
    case_decide; [by intros [= <-] [= <-]|apply Ht2].
  - cbn [on_connect with_alive alive]. by rewrite dom_insert_L.
Qed.

Lemma closes_step sends before i hs left todo seen hd s :
  flow sends before (Closes i :: hs) left todo seen s -> told hd s -> proper seen (dom (alive s)) (Closes i :: hs) = true ->
  steps_to sends before (Closes i) hs left todo seen hd s.
Proof.
  intros F Ht [Hi%bool_decide_eq_true Hp]%andb_prop.
  destruct F as [[Hd Hc] Hs Ha Hy Hz Hn Hg Hsp]. unfold steps_to. cbn [happens see].
  assert (Hb' : forall j, bytes_of j (Closes i :: hs) = bytes_of j hs) by (intros j; by apply bytes_of_other).
  eexists _, todo. split; [reflexivity|]. split_and!; [| |done|].
  - split; cbn [on_close with_alive alive connections_].
    + split; cbn; [by rewrite dom_delete_L, Hd|]. intros j c. rewrite lookup_delete_Some. intros [_ ?]. by apply (Hc j).
    + rewrite dom_delete_L. set_solver.
    + intros j c. rewrite lookup_delete_Some. intros [_ Hj]. specialize (Ha j c Hj). by rewrite Hb' in Ha.
    + intros j c. rewrite lookup_delete_Some, bytes_of_snoc, app_nil_r. intros [_ Hj]. by apply Hy.
    + intros j Hj. rewrite bytes_of_snoc, app_nil_r. by apply Hz.
    + intros j Hj. rewrite <- Hb'. by apply Hn.
    + intros j Hj. destruct (decide (j = i)) as [->|Hne]; [|rewrite lookup_delete_ne by done; by apply Hg].
      intros _ Hl. apply elem_of_dom in Hi as [c Hi]. destruct (Ha i c Hi) as (_ & _ & E & Hpend & _).
      rewrite Hb', Hl, app_nil_r in E.
      rewrite (gone_silent i _ _ hs Hp) in E by set_solver. rewrite app_nil_r in E. by apply (pending_stream _ _ Hpend).
    + done.
  - destruct Ht as [Ht1 Ht2]. split; cbn; [by rewrite !dom_delete_L, Ht1|]. intros j c l.
    rewrite !lookup_delete_Some. intros [_ ?] [_ ?]. by apply (Ht2 j).
  - cbn [on_close with_alive alive]. by rewrite dom_delete_L.
Qed.

Lemma said_by_said i j ms : said_by j (Said i <$> ms) = if decide (j = i) then ms else [].
Proof.
  induction ms as [|m ms IH]; [by case_decide|]. unfold said_by in *. cbn. rewrite IH.
  destruct (decide (j = i)) as [->|Hne]; [by rewrite decide_True by done|by rewrite decide_False by done].
Qed.

(** A read gives some whole messages and leaves the rest pending. *)
Lemma chat_read_ok i chunk hs left ms b :
  wf b -> unlimited b = true -> contents b ++ bytes_of i (Bytes i chunk :: hs) ++ left = stream ms ->
  writer_index_ b + zlen (bytes_of i (Bytes i chunk :: hs)) <= vec_max_size -> Forall speakable ms ->
  exists b1 es b2 ms1 ms2, append chunk b = Ok (true, b1) /\
    recv true (S (length (contents b1))) true chat_codec b1 = Ok (es, chat_codec, b2) /\ ms = ms1 ++ ms2 /\
    delivers es ms1 /\ wf b2 /\ unlimited b2 = true /\ contents b2 ++ bytes_of i hs ++ left = stream ms2 /\
    pending chat_codec (contents b2) ms2 /\ writer_index_ b2 + zlen (bytes_of i hs) <= vec_max_size.
Proof.
  intros Hwf Hu E Hroom Hm.
  assert (Hb : bytes_of i (Bytes i chunk :: hs) = chunk ++ bytes_of i hs)
    by (unfold bytes_of; cbn; by rewrite decide_True by done).
  rewrite Hb in E, Hroom. rewrite zlen_app in Hroom. pose proof (zlen_nonneg (bytes_of i hs)).
  destruct (append_ok chunk b Hwf) as (b1 & E1 & Hwf1 & Hb1 & Hm1 & Hw1); [unfold room; rewrite Hu; lia|].
  destruct (recv_stream (S (length (contents b1))) chat_codec b1 (bytes_of i hs ++ left) ms)
    as (es & b2 & ms1 & ms2 & E2 & -> & (Hwf2 & Hm2 & Hw2) & Hes & E3 & Hp).
  { apply chat_codec_wf. } { eapply Forall_impl; [exact Hm|]. apply speakable_accepted. } { done. }
  { change (contents b1 ++ bytes_of i hs ++ left = stream ms). rewrite Hb1, <- E, <- !app_assoc. done. } { lia. }
  exists b1, es, b2, ms1, ms2. split_and!; try done; [|lia]. unfold unlimited in *. congruence.
Qed.

Lemma bytes_step sends before i chunk hs left todo seen hd s :
  flow sends before (Bytes i chunk :: hs) left todo seen s -> told hd s -> proper seen (dom (alive s)) (Bytes i chunk :: hs) = true ->
  steps_to sends before (Bytes i chunk) hs left todo seen hd s.
Proof.
  intros F Ht [Hi%bool_decide_eq_true Hp]%andb_prop. apply elem_of_dom in Hi as [c Hi].
  destruct F as [[Hd Hc] Hs Ha Hy Hz Hn Hg Hsp]. destruct (Ha i c Hi) as (Hwf & Hu & E & Hp0 & Hroom). destruct (Hy i c Hi) as (said & Esaid & Ebytes).
  destruct (chat_read_ok i chunk hs (left i) (todo i) _ Hwf Hu E Hroom (Hsp i))
    as (b1 & es & b2 & ms1 & ms2 & E1 & E2 & Et & Hes & Hwf2 & Hu2 & E3 & Hp3 & Hr3).
  assert (Enow : bytes_of i before ++ chunk = stream (said ++ ms1) ++ contents b2).
  { assert (Hb : bytes_of i (Bytes i chunk :: hs) = chunk ++ bytes_of i hs) by (unfold bytes_of; cbn; by rewrite decide_True by done).
    apply (app_inv_tail (bytes_of i hs ++ left i)). rewrite Ebytes, <- !app_assoc, E3. rewrite Hb, Et, <- !app_assoc in E. rewrite E.
    unfold stream. by rewrite !fmap_app, !concat_app, <- app_assoc. }
  assert (Hstep : room_step sends before (Bytes i chunk) = Said i <$> ms1).
  { cbn [room_step]. rewrite <- length_app, Enow, Ebytes, Esaid, (complete_said said _ (todo i)) by done.
    rewrite Et, (app_assoc said), (complete_said (said ++ ms1)), take_app_length by done. by rewrite drop_app_length. }
  unfold steps_to. rewrite Hstep. cbn [happens see]. unfold on_bytes. rewrite Hi, E1. cbn [mbind outcome_bind]. rewrite E2. cbn [mbind outcome_bind].
  set (s1 := with_alive _ s). pose proof (Hsp i) as Hi1. rewrite Et in Hi1. apply Forall_app in Hi1 as [Hi1 Hi2].
  assert (Ho1 : open_room s1).
  { split; cbn; [rewrite dom_insert_L, Hd; apply elem_of_dom_2 in Hi; set_solver|].
    intros j c'. rewrite lookup_insert. case_decide; [|apply Hc]. intros [= <-]. exact (Hc i c Hi). }
  assert (Ht1 : told hd s1).
  { destruct Ht as [Ht1 Ht2]. split; cbn; [rewrite dom_insert_L, Ht1; apply elem_of_dom_2 in Hi; set_solver|].
    intros j c' l. rewrite lookup_insert. case_decide; [|apply Ht2]. intros [= <-]. subst j. exact (Ht2 i c l Hi). }
  destruct (handle_events_ok i es ms1 hd s1 Ho1 Ht1 Hes Hi1) as (s' & Es & Ho' & Ht' & Hd' & Hin).
  assert (Hdom : dom (alive s') = dom (alive s))
    by (rewrite Hd'; cbn; rewrite dom_insert_L; apply elem_of_dom_2 in Hi; set_solver).
  exists s', (fun j => if decide (j = i) then ms2 else todo j).
  split_and!; [done| |done| |by rewrite Hdom].
  - split; [done|by rewrite Hdom| | | | | |].
    + intros j c' Hj. destruct (Hin j c' Hj) as (c0 & H0 & ->). cbn in H0. rewrite lookup_insert in H0.
      destruct (decide (j = i)) as [->|Hne].
      * rewrite decide_True in H0 by done. injection H0 as <-. done.
      * rewrite decide_False in H0 by done. specialize (Ha j c0 H0). rewrite bytes_of_other in Ha by congruence. done.
    + intros j c' Hj. destruct (Hin j c' Hj) as (c0 & H0 & ->). cbn in H0. rewrite lookup_insert in H0.
      rewrite bytes_of_snoc, bytes_of_one. destruct (decide (j = i)) as [->|Hne].
      * rewrite decide_True in H0 by done. injection H0 as <-. rewrite decide_True by done. exists (said ++ ms1). by rewrite Esaid, Et, app_assoc.
      * rewrite decide_False in H0 by done. rewrite decide_False, app_nil_r by done. by apply Hy.
    + intros j Hj. assert (j <> i) by (intros ->; apply Hj, Hs, elem_of_dom; by exists c).
      rewrite bytes_of_snoc, bytes_of_one, !decide_False, app_nil_r by done. by apply Hz.
    + intros j Hj. assert (j <> i) by (intros ->; apply Hj, Hs, elem_of_dom; by exists c).
      rewrite decide_False by done. rewrite <- (bytes_of_other j (Bytes i chunk) hs) by congruence. by apply Hn.
    + intros j Hj Hnone. assert (j <> i).
      { intros ->. apply not_elem_of_dom in Hnone. rewrite Hdom in Hnone. apply Hnone, elem_of_dom. by exists c. }
      rewrite decide_False by done. apply Hg; [done|]. apply not_elem_of_dom. rewrite <- Hdom. by apply not_elem_of_dom.
    + intros j. by case_decide.
  - intros j. rewrite said_by_said. by destruct (decide (j = i)) as [->|].
Qed.

Lemma happen_ok sends before hs left todo seen hd s :
  flow sends before hs left todo seen s -> told hd s -> proper seen (dom (alive s)) hs = true ->
  exists s' todo' seen', let tr := history sends before hs in
    happen hs s = Ok s' /\ flow sends (before ++ hs) [] left todo' seen' s' /\ told (heard tr hd) s' /\
    (forall i, todo i = said_by i tr ++ todo' i).
Proof.
  revert before todo seen hd s. induction hs as [|h hs IH]; intros before todo seen hd s F Ht Hp.
  { exists s, todo, seen. rewrite app_nil_r. by split_and!. }
  assert (steps_to sends before h hs left todo seen hd s) as (s1 & todo1 & E1 & F1 & Ht1 & Hs1 & Hp1)
    by (destruct h; [by apply connects_step|by apply bytes_step|by apply closes_step]).
  destruct (IH _ todo1 _ _ _ F1 Ht1 Hp1) as (s' & todo' & seen' & E & F' & Ht' & Hs').
  rewrite <- app_assoc in F'.
  exists s', todo', seen'. cbn [happen history]. rewrite E1. cbn [mbind outcome_bind]. split_and!; [done|done| |].
  - unfold heard. rewrite fold_left_app. done.
  - intros i. unfold said_by in *. rewrite omap_app, <- app_assoc, Hs1, Hs'. done.
Qed.

(** Everything that was sent completely has been said. *)
Lemma flow_end sends before left todo seen s i : flow sends before [] left todo seen s -> left i = [] -> todo i = [].
Proof.
  intros [_ _ Ha _ _ Hn Hg _] Hl. destruct (alive s !! i) as [c|] eqn:E.
  - destruct (Ha i c E) as (_ & _ & Es & Hp & _). rewrite Hl in Es. change (bytes_of i []) with (@nil Byte.byte) in Es.
    rewrite !app_nil_r in Es. by apply (pending_stream _ _ Hp).
  - destruct (decide (i ∈ seen)) as [Hs|Hs]; [by apply Hg|]. destruct (Hn i Hs) as [Es _]. rewrite Hl in Es. by apply stream_nil.
Qed.
End Lemmas.

Lemma heard_forall (P : bytes -> Prop) tr h :
  (forall i m, Said i m ∈ tr -> P m) -> (forall j l, h !! j = Some l -> Forall P l) ->
  forall j l, heard tr h !! j = Some l -> Forall P l.
Proof.
  revert h. induction tr as [|e tr IH]; intros h Htr Hh; [exact Hh|]. apply (IH (heard_step h e)).
  - intros i m Hm. apply (Htr i). by right.
  - intros j l. destruct e as [i|i m|i]; cbn [heard_step].
    + rewrite lookup_insert. case_decide; [intros [= <-]; constructor|apply Hh].
    + rewrite lookup_fmap. intros (l0 & Hl & ->)%fmap_Some. apply Forall_app. split; [by apply (Hh j)|].
      constructor; [|constructor]. apply (Htr i). by left.
    + rewrite lookup_delete_Some. intros [_ Hl]. by apply (Hh j).
Qed.

Lemma said_by_elem i m tr : Said i m ∈ tr -> m ∈ said_by i tr.
Proof.
  intros Hm. unfold said_by. apply list_elem_of_omap. exists (Said i m). split; [done|]. by rewrite decide_True by done.
Qed.

(** A client that writes a message of proper length sends one frame. *)
Lemma client_write_ok `{Arch} mesg :
  speakable mesg -> exists buff, client_write mesg = Ok [ConnSend buff] /\ contents buff = lh_frame chat_codec mesg.
Proof.
  intros Hm. unfold client_write. destruct make_fresh as (b & -> & Hwf & Hc & Hu & Hw). cbn [mbind outcome_bind].
  destruct (append_ok mesg b Hwf) as (b1 & -> & Hwf1 & Hc1 & _).
  { unfold room, speakable in *. rewrite Hu, Hw. unfold vec_max_size, kInt64Max. lia. }
  rewrite Hc in Hc1. cbn [app] in Hc1. rewrite <- Hc1 in Hm |- *. by apply send_speakable.
Qed.

(** *** Where the programs do less *)

(** The threaded servers (examples/asio/chat/server/server_threaded.cc and server_threaded_efficient.cc) give
    the codec the main loop and receive in the loops of the pool: the first bytes end the process. *)
Example threaded_server_aborts `{Arch} chunk c s :
  alive s !! 0%nat = Some c -> wf (input_buffer_ c) -> zlen chunk <= room (input_buffer_ c) ->
  on_bytes false 0 chunk s = Fault (CheckFailed "check_in_own_loop").
Proof.
  intros Hi Hwf Hr. unfold on_bytes. rewrite Hi. by destruct (append_ok chunk _ Hwf Hr) as (b & -> & _).
Qed.

(** A line of 405 to 408 characters is sent, and the server closes the connection. *)
Definition long_line : bytes := replicate 405 Byte.x61.

Example long_line_refused :
  let A := little in
  exists buff s c, client_write long_line = Ok [ConnSend buff] /\
    happen [Connects 0; Bytes 0 (contents buff)] (mkChat ∅ ∅) = Ok s /\ alive s !! 0%nat = Some c /\ connected_ c = false.
Proof.
  intros A. eexists _, _, _. split; [vm_compute; reflexivity|]. split; [vm_compute; reflexivity|]. split; [reflexivity|reflexivity].
Qed.

(** ** Properties *)

(** C11. The chat room, end to end.  The clients connect, send and close in any order, and the bytes of
    each client, which are a prefix of the frames of what it writes, arrive in any pieces.  Then no
    check fails.  In the history of the run, in which a member joins and leaves with its connection and a message
    is said at the read that completes it, every client has said a prefix of what it
    wrote, all of it if its bytes have all arrived; and every member has been sent exactly the
    frames of what was said after it joined, itself included; cut in any pieces, its codec
    delivers those messages in that order. *)
Theorem chat_correct `{Arch} (sends : nat -> list bytes) (hs : list happening) :
  (forall i, Forall speakable (sends i)) -> (forall i, zlen (stream (sends i)) <= vec_max_size) ->
  (forall i, bytes_of i hs `prefix_of` stream (sends i)) -> proper ∅ ∅ hs = true ->
  let tr := history sends [] hs in
  exists s, happen hs (mkChat ∅ ∅) = Ok s /\
    (forall i, said_by i tr `prefix_of` sends i /\ (bytes_of i hs = stream (sends i) -> said_by i tr = sends i)) /\
    dom (heard tr ∅) = connections_ s /\
    forall j l, heard tr ∅ !! j = Some l -> exists c, alive s !! j = Some c /\ sent_ c = stream l /\
      forall chunks b, concat chunks = sent_ c -> fresh b -> zlen (sent_ c) <= vec_max_size ->
        exists es b', feed chunks chat_codec b = Ok (es, chat_codec, b') /\ delivers es l.
Proof.
  intros Hsp Hz Hpre Hp tr. set (left i := drop (length (bytes_of i hs)) (stream (sends i))).
  assert (Hl : forall i, bytes_of i hs ++ left i = stream (sends i)).
  { intros i. destruct (Hpre i) as [k E]. unfold left. by rewrite E, drop_app_length. }
  assert (F : flow sends [] hs left sends ∅ (mkChat ∅ ∅)).
  { split; [split; cbn; [by rewrite dom_empty_L|done]|done|done|done|done| |set_solver|done].
    intros i _. split; [done|]. specialize (Hz i). rewrite <- Hl, zlen_app in Hz. pose proof (zlen_nonneg (left i)). lia. }
  destruct (happen_ok sends [] hs left sends ∅ ∅ (mkChat ∅ ∅) F) as (s & todo & seen & E & F' & [T1 T2] & Hs); [by split| done |].
  fold tr in T1, T2, Hs. exists s. split_and!; [done| | |].
  - intros i. split; [by exists (todo i)|]. intros Ei. specialize (Hl i). rewrite Ei in Hl.
    assert (left i = []) as Hli by (rewrite <- (app_nil_r (stream (sends i))) in Hl at 2; by apply app_inv_head in Hl).
    by rewrite (Hs i), (flow_end _ _ _ _ _ _ i F' Hli), app_nil_r.
  - rewrite T1. symmetry. apply F'.
  - intros j l Hj. assert (is_Some (alive s !! j)) as [c Hcj] by (apply elem_of_dom; rewrite <- T1; apply elem_of_dom; eauto).
    exists c. split; [done|]. rewrite (T2 j c l Hcj Hj). split; [done|].
    intros chunks b Ech (Hwf & Hb & Hu & Hw) Hroom. destruct (feed_stream chunks chat_codec b l) as (es & b' & Ef & _ & _ & Hd).
    + apply chat_codec_wf.
    + apply (heard_forall (lh_accepts chat_codec) tr ∅) in Hj; [exact Hj| |done]. intros i m Hm%said_by_elem. apply speakable_accepted.
      specialize (Hsp i). rewrite (Hs i), Forall_app in Hsp. destruct Hsp as [Hsp _]. rewrite Forall_forall in Hsp. by apply Hsp.
    + done.
    + done.
    + rewrite Hb. exact Ech.
    + rewrite Hb. apply pending_nil.
    + rewrite Hw, Ech. exact Hroom.
    + by exists es, b'.
Qed.

(** Two clients: the first says "hi" in two pieces, the second joins in between and answers. *)
Definition small_talk `{Arch} : list happening :=
  let f := lh_frame chat_codec in
  [Connects 0; Bytes 0 (ztake 3 (f (txt "hi"))); Connects 1; Bytes 0 (zdrop 3 (f (txt "hi")));
   Bytes 1 (f (txt "hello")); Closes 0].

Definition small_talkers (i : nat) : list bytes :=
  match i with O => [txt "hi"] | 1%nat => [txt "hello"; txt "bye"] | _ => [] end.

Lemma chat_correct_witness :
  let A := little in
  history small_talkers [] small_talk = [Joined 0; Joined 1; Said 0 (txt "hi"); Said 1 (txt "hello"); Left_ 0] /\
  exists s c, happen small_talk (mkChat ∅ ∅) = Ok s /\ connections_ s = {[1%nat]} /\
    alive s !! 1%nat = Some c /\ sent_ c = stream [txt "hi"; txt "hello"].
Proof.
  intros A. split; [vm_compute; reflexivity|].
  destruct (chat_correct small_talkers small_talk) as (s & E & Hs & Hd & Hh).
  - intros [|[|i]]; repeat constructor; vm_compute; intros X; discriminate X.
  - intros [|[|i]]; vm_compute; intros X; discriminate X.
  - intros [|[|i]].
    + exists []. vm_compute. reflexivity.
    + exists (lh_frame chat_codec (txt "bye")). vm_compute. reflexivity.
    + exists []. reflexivity.
  - vm_compute. reflexivity.
  - destruct (Hh 1%nat [txt "hi"; txt "hello"]) as (c & Hc & Hsent & _); [vm_compute; reflexivity|].
    exists s, c. split; [exact E|]. split; [|split; assumption]. rewrite <- Hd. vm_compute. reflexivity.
Defined.
